(* ===== verification/_CoqProject ===== *)
-Q . S2P
Prelude.v
SortedKeys.v
Binary64.v
Scalar.v
Coeff.v
Tableau.v
GraphCertificate.v
ProgramIR.v
AuthoringTransaction.v
Passes.v
Liveness.v
PyRound.v
FloatValid.v
HexFloat.v
Manifest.v
HistoryPersistence.v
HistoryValidation.v
StepStrategy.v
StepTransaction.v
Temporal.v
FloatError.v
StepControllers.v
GridWalk.v
EveryDt.v
Ownership.v
Points.v
Schedule.v
NativeSchedule.v
ScheduleEmit.v
Authoring.v
AuthoringSound.v
TemporalManifest.v
Consumers.v
ConsumerPlanning.v
ConsumerTransaction.v
ConsumerAtomic.v
ConsumerPrepared.v
ConsumerRuntime.v
ConsumerStep.v
ConsumerFire.v
ConsumerEnvelope.v
ConsumerCheckpoint.v
JsonText.v
Collectives.v
AttemptErrors.v
StepRuntime.v
Bytes.v
CanonicalCbor.v
NativeIdentity.v
Sha256.v
Identity.v
SemanticIdentity.v
SemanticNames.v
Handles.v
BlockRegistry.v
BlockCanonical.v
