(* ===== verification/Prelude.v ===== *)
(** * PoPS time-program core: a Rocq development

    PoPS is a solver for systems of plasma equations.  A user writes a *time
    program* in Python ([python/pops/time]): states, rates and solves as SSA
    values, clocks and schedules, histories, a step strategy.  The program is
    optimised and emitted as C++ ([python/pops/codegen]); a Python runtime
    ([python/pops/runtime]) drives the compiled program step by step, decides
    collectively what an attempt did, and checkpoints and restores the temporal
    state.  This development models that core.  Paths below are under
    [src/python/pops] unless they end in [.hpp].

    ** How the parts interact

    - The builder (Authoring) records SSA values and the bodies of control-flow
      operations, local solves and phases, each call a transaction
      (AuthoringTransaction); AuthoringSound says which of the programs it
      records the validator accepts, and TemporalManifest which of the clock
      schedules derived from them the restart envelope validates.
    - Exact scalars (Scalar, Coeff) are the coefficients of the program values
      (ProgramIR), which the passes (Passes) rewrite and the planner (Liveness)
      places in buffers; GraphCertificate reconstructs a Runge--Kutta tableau
      (Tableau) from the finished graph.
    - Owner paths (Ownership) qualify clocks and points (Points); a schedule
      (Schedule, EveryDt) on a clock lowers to an IR that ScheduleEmit turns
      into guards running on the native clock stack and node cache
      (NativeSchedule).
    - Histories declare what a restart stores (HistoryPersistence); the compiler
      accepts a policy that recomputes slots only on affine owners
      (HistoryValidation).
    - A step strategy (StepStrategy) chooses intervals (StepControllers,
      GridWalk); StepRuntime runs the attempts between the native engine and
      the restart envelope (Temporal), turns failures into one decision
      (AttemptErrors over Collectives and JsonText) and publishes a report
      (StepTransaction).
    - After every accepted step the consumers (Consumers: outputs, diagnostics,
      monitors, checkpoints, each with a schedule) that are due are planned
      (ConsumerPlanning), their publications prepared and accepted or withdrawn
      in one transaction per clock (ConsumerTransaction, ConsumerAtomic), and
      the runtime fires all clocks inside the step envelope (ConsumerRuntime,
      ConsumerStep, ConsumerFire, ConsumerEnvelope, ConsumerCheckpoint); a
      writer that prepares a publication is shown the cursors a checkpoint would
      record (ConsumerPrepared).
    - Manifests of all of these travel in one envelope format (Manifest).
    - Every authority has an identity: its payload is normalised
      (SemanticIdentity), encoded in canonical CBOR by Python (CanonicalCbor) and
      by the native runtime (NativeIdentity), and hashed (Sha256) into a typed
      identity with a printed token (Identity); the artifact of a build chains
      the identities of its definition, its compile decisions and its binary.
    - Declarations are referred to by handles (Handles) qualified with owner
      paths; a Case's block registry (BlockRegistry, BlockCanonical) issues the
      instances of a model's declarations in its blocks, reads references back
      to them, and is frozen before the Case is compiled.

    ** Files and sources

    - Prelude, SortedKeys: exceptions and the result monad, insertion-ordered
      dictionaries, shared tactics and list lemmas.
    - Binary64, PyRound, FloatValid, HexFloat, FloatError: Python's [float] on
      the Standard Library's [spec_float] (precision 53, exponent 1024): the
      operations the sources use, [round], canonical values, [float.hex] and
      [fromhex], and error bounds in units of 2^-1074.
    - Scalar: [identity/scalar.py], [time/value_metadata.py]; the lossless
      literal and the exact algebra on its four number domains.
    - Coeff: [_Coeff], [_Affine], [_Operator] of [time/values.py].
    - Tableau: [time/_methods/tableau.py] and [properties.py]; constructors,
      order conditions, stability polynomial, SSP key.
    - GraphCertificate: [certify_program_graph] of [properties.py].
    - AuthoringTransaction: [time/_authoring.py]; containers are cells of a heap
      that the roll-back writes in place.
    - Authoring: [time/_program/operations.py], [authoring.py], [clocks.py],
      [calls.py], [local.py] (local nonlinear solves), [dt_bound.py],
      [time_handles.py], [commit_validation.py], [value_validation.py],
      [region_validation.py] and [validate] of [passes.py]; the record
      [program] has the tables of [Program.__init__], a callback is the list of
      the calls it makes.  The rechecks of solve requests and spatial solves are
      arguments of the validator; the calls of the model make no node that has
      them.  AuthoringSound: the invariant of the record and its preservation by
      every call.
    - TemporalManifest: [time/_program/temporal_manifest.py].
    - ProgramIR, Passes: [time/_program/constants.py], [passes.py],
      [rebuild.py]; a pass is the pair (kept nodes, alias map) it hands to the
      rebuild, and its effect on the store is the semantics of ProgramIR.
    - Liveness: [time/_program/inspection.py], [codegen/scratch_plan.py].
    - Manifest: [_manifest_protocol.py].
    - HistoryPersistence, HistoryValidation: [time/_history/persistence.py] and
      [validation.py].
    - StepStrategy: [time/_step/strategy.py] and the control payloads of
      [runtime/_step_strategy.py].
    - Temporal: [runtime/_temporal_restart.py] and the relation checks of
      [time/_graph/base.py]; the record [state] has the fields of
      [TemporalRestartState], one definition per method; descriptive data of
      manifest rows are their canonical texts.
    - StepControllers, GridWalk, AttemptErrors, StepRuntime:
      [runtime/_step_strategy.py], from the arithmetic of one interval to the
      step of a prepared run.
    - Consumers: [output/_consumer_contracts.py]; cursors, failure actions, the
      graph and its topology ([ConsumerGraph.__init__], [resolve]).
    - ConsumerPlanning: [runtime/_consumer_planning.py], [_consumer_effects.py].
    - ConsumerTransaction: [runtime/_consumer_transaction.py]; the record
      [transaction] has the slots of [ConsumerTransaction], its methods are a
      state monad over it and the world of the writers in which the state
      survives exceptions.  ConsumerAtomic: the contract of a writer
      ([PublisherLaws]) and a program logic of triples for these methods.
      ConsumerPrepared: the cursors under which each publication was prepared.
    - ConsumerRuntime: the consumer half of [runtime/_runtime_instance.py]
      ([_moments] to [_fire_consumers]) and [_accepted_step_transaction_body]
      with its failure report; [ru_override] is [_checkpoint_cursor_override]
      and [shown_cursors] what a checkpoint records.
      ConsumerStep: several transactions in one world; ConsumerFire: releases
      and firing; ConsumerEnvelope: the step; ConsumerCheckpoint: the cursors a
      checkpoint records.
    - JsonText, Collectives: [_native_collectives.py].
    - StepTransaction: [time/_step/transaction.py], [time/solve_outcome.py],
      [time/residual_common.py].
    - Ownership: [model/ownership.py].  Points: [time/points.py],
      [time/_cadence.py].
    - EveryDt, Schedule: [time/_schedule/api.py], [domains.py], [ir.py].
    - NativeSchedule: [include/pops/runtime/program/clock_schedule.hpp],
      [cache_manager.hpp] and the schedule seam of [program_context.hpp].
    - ScheduleEmit: [codegen/program_emit_schedule.py].
    - Bytes: bytes, UTF-8 and sorting as Python's library has them.
    - CanonicalCbor: [identity/encoding.py]; containers live in a heap, may be
      shared and may be cyclic.  [value] and [enc] are the trees they read as and
      their encoding; [same] is equality up to the order of dictionaries and sets.
    - NativeIdentity: [include/pops/core/identity/canonical_value.hpp] and
      [from_python] of [bindings/core/init/init_identity.cpp].
    - Sha256: [include/pops/core/identity/sha256.hpp]; also what [hashlib]
      computes.
    - Identity: [identity/digest.py], [identity/artifact.py] and
      [binary_identity_token] of [sha256.hpp].
    - SemanticIdentity: [identity/semantic.py].  SemanticNames: what a
      serialization shows of names, owners and labels, as a relation that does not
      mention the code's tables.
    - Handles: [model/handles.py], [BlockHandle] of [problem/handles.py] and
      [OwnerPath.__str__] of [model/ownership.py].
    - BlockRegistry: [problem/_block_registry.py], [FreezableRegistry.freeze] of
      [problem/_registry_freeze.py] and [DeclarationIndex] of
      [model/registry.py]; the record [registry] has the attributes of
      [BlockRegistry], an operation is a state monad over it and the authorities,
      [registry_ok] its invariant and [runs] the program logic that keeps it.
      BlockCanonical: [canonicalize].

    ** What the theorems show

    - Authoring: a call that raises changes nothing.  The structural validator
      accepts a program the builder made exactly when it commits, its local
      residuals read nothing of the flat program and the post-reflux phase
      commits values of its own; the restart validator accepts its temporal
      manifest exactly when no subcycle advances the primary clock.
    - Optimisation is sound: each pass preserves the store and every committed
      value; the live set is reachability; the returned assignment shares buffers
      only between disjoint live ranges (scratches of one name keep one entry and
      are excluded), with the least number of buffers.
    - Certificates are sound: a certified graph evaluates its rates at the stages
      of its arrays and combines them with its weights, so that with one rate it
      computes the step of its tableau, a certified order means its quadrature and stability conditions,
      an SSP step keeps the convex sets a forward Euler step keeps.
    - The step runtime is transactional: a rejected step changes nothing but the
      rejection record, retries end within the budget, a fixed step from a ready
      engine commits, every rank takes the same decision.
    - Consumers: the topology is the least order of the dependencies and puts a
      checkpoint last on its clock; a plan holds each due sample once; the
      deadline is the earliest one ahead.  A transaction, a firing and a whole
      step are all or nothing: what is published is what is reported, and what
      fails leaves cursors, reports and the temporal envelope as they were, with a
      report of failure as the last one; the artifacts too, unless an error names a
      cleanup that failed or the step was interrupted.  A checkpoint records the
      cursors the accepted step leaves, unless its publication is retried.
    - The restart envelope is an invariant of its state machine and restores to
      the uninterrupted run; manifests and control payloads are read back
      exactly, and only what a writer writes is accepted.
    - History: an accepted policy keeps the anchors its replay needs; Revolve is
      optimal; the affine gate is sound.
    - Time grids: the fixed-grid envelope bounds the drift, an external grid is
      visited point by point, subcycles enumerate their ticks.
    - Schedules: every schedule lowers to a valid IR or names what the runtime
      does not support; over any run of steps the emitted statements behave as the
      off policy says, for every policy but [AccumulateDt], whose windows are
      computed and discarded.
    - Identities: the canonical encoder ends on every heap, its bytes decide
      equality of values and are read back in one way; the native encoder agrees
      with it.  An identity determines its domain, version and payload, and an
      artifact identity everything the artifact is made of, unless two messages
      that were hashed collide; tokens are read back exactly.  The normalisation
      of payloads is stable; the name of a Program, the labels of its points and
      the names of its nodes outside the arms of branches do not change its
      identity.
    - References: the canonical data of a handle is read back exactly; the block
      registry only hands out instances of registered declarations, two of which
      never print the same id; its canonical references are a projection; freezing
      it is all or nothing and leaves nothing for a qualification to write.
    - Typing: owner paths stay in the grammar of the ownership topology.

    ** Bounds and fuel

    Fuel is always a number of entries that the loop consumes: worklists and
    chains take the number of values, clock chains the number of relations plus
    two, digits the binary length of the number, the consumer topology the
    number of consumers; the encoders the size of the heap, since a path of
    containers that repeats one is refused; the publication loop takes one pass per prepared sample
    and remaining attempt, and ends within them whatever the writers do.  The
    theorems about these
    functions state the result and not only its correctness on return.  Native
    ticks are unbounded integers with the 64-bit overflow checks of the source.

    ** Parameters

    Compiled or external code is an argument: the native engine ([Native] and
    the laws [NativeLaws] in StepRuntime), the byte collectives (Collectives),
    the digest of canonical data and Python's [repr] of a float (Points,
    EveryDt), fingerprint providers (Ownership), the fingerprint of the
    declarations of an index and the hooks of a model ([model] with [ModelLaws]
    in BlockRegistry), the members a registry freezes, the tokens of identities
    ([identities]), the writers of publications ([Publisher] with
    [PublisherLaws]), the transaction protocol of the engine ([StepEngine] with
    [EngineLaws]), and the meaning of the emitted
    statements of a node (ScheduleEmit).  Each theorem with such an argument is
    applied to a concrete one in its witness.

    ** Not modelled

    [Program._serialize], [ModuleManifest.to_dict] and [module_hash], whose
    values are the arguments of the semantic projections; the resistance of
    SHA-256 to collisions, which the theorems name as a condition.
    Messages of exceptions; locks and weak references; the open registries of
    third-party strategies, triggers, domains and persistence policies; the
    builder operations that only fill the attributes of a node; the provider
    data and field contexts of consumers, the inspection views of handles and the
    validation reports of blocks, the writers and observers themselves,
    the [before_begin] hook and composite temporal states of a step; the
    text of the emitted C++; the cloning and renumbering of a rebuilt program
    and its serialization text.  Outside the time-program core: meshes and
    refinement, models and physics, fields and solvers, output writers, code
    generation of kernels, installation of compiled artifacts; their reasons
    are in the component list of the manifest. *)
From Stdlib Require Export ZArith QArith Qcanon Lia Ascii String.
From stdpp Require Export base tactics decidable option list strings gmap.

(** Fractions are [Qc]: canonical rationals, so that Python's [Fraction]
    equality is Leibniz equality. *)
#[global] Open Scope Z_scope.

(** ** Python exceptions and fallible results *)

Inductive exn :=
| TypeError | ValueError | KeyError | AttributeError | IndexError | RuntimeError
| NotImplementedError | OverflowError | ZeroDivisionError
| CoefficientLiteralError | StepAttemptRejected
| OwnershipError | MissingOwnershipError | UnresolvedOwnershipError | DoubleOwnershipError
| AmbiguousReferenceError | IdentityCollisionError.

#[global] Instance exn_eq_dec : EqDecision exn.
Proof. solve_decision. Defined.

(** A call that returns a value or raises.  Messages are not kept. *)
Inductive res (A : Type) := Ok (a : A) | Err (e : exn).
Arguments Ok {A} a.
Arguments Err {A} e.

#[global] Instance res_ret : MRet res := fun A a => Ok a.
#[global] Instance res_bind : MBind res := fun A B f m =>
  match m with Ok a => f a | Err e => Err e end.
#[global] Instance res_fmap : FMap res := fun A B f m =>
  match m with Ok a => Ok (f a) | Err e => Err e end.

(** [if not b: raise e] *)
Definition require (b : bool) (e : exn) : res unit := if b then Ok tt else Err e.

(** [for x in l: f(x)], collecting the results; stops at the first raise. *)
Fixpoint map_res {A B} (f : A → res B) (l : list A) : res (list B) :=
  match l with
  | [] => Ok []
  | x :: l' => y ← f x; ys ← map_res f l'; Ok (y :: ys)
  end.

(** The same loop threading an accumulator. *)
Fixpoint fold_res {A S} (f : S → A → res S) (s : S) (l : list A) : res S :=
  match l with
  | [] => Ok s
  | x :: l' => s' ← f s x; fold_res f s' l'
  end.

Definition is_ok {A} (m : res A) : bool := match m with Ok _ => true | Err _ => false end.

(** ** Tactics *)

Ltac invert H := inversion H; clear H; subst.

(** Opens every successful bind, [require] and [if] of a hypothesis [_ = Ok _]. *)
Ltac ok_step :=
  match goal with
  | H : Ok _ = Ok _ |- _ => injection H as H; subst
  | H : Err _ = Ok _ |- _ => discriminate H
  | H : Ok _ = Err _ |- _ => discriminate H
  | H : mbind _ ?m = Ok _ |- _ =>
      let E := fresh "E" in destruct m eqn:E; cbn [mbind res_bind] in H; [| discriminate H]
  | H : fmap _ ?m = Ok _ |- _ =>
      let E := fresh "E" in destruct m eqn:E; cbn [fmap res_fmap] in H; [| discriminate H]
  | H : require ?b _ = Ok _ |- _ =>
      let E := fresh "E" in destruct b eqn:E; cbn [require] in H; [clear H | discriminate H]
  | H : (if ?b then Err _ else _) = Ok _ |- _ =>
      let E := fresh "E" in destruct b eqn:E; [discriminate H |]
  | H : (if ?b then _ else Err _) = Ok _ |- _ =>
      let E := fresh "E" in destruct b eqn:E; [| discriminate H]
  | H : (match ?p with (_, _) => _ end) = Ok _ |- _ => is_var p; destruct p
  | H : unit |- _ => destruct H
  end.
Ltac inv_ok := repeat ok_step.

(** Turns boolean tests into propositions. *)
Ltac bools := repeat match goal with
  | H : _ && _ = true |- _ => apply andb_true_iff in H; destruct H
  | H : _ || _ = false |- _ => apply orb_false_iff in H; destruct H
  | H : negb _ = true |- _ => apply negb_true_iff in H
  | H : negb _ = false |- _ => apply negb_false_iff in H
  | H : bool_decide _ = true |- _ => apply bool_decide_eq_true in H
  | H : bool_decide _ = false |- _ => apply bool_decide_eq_false in H
  | H : (_ =? _)%Z = true |- _ => apply Z.eqb_eq in H
  | H : (_ =? _)%Z = false |- _ => apply Z.eqb_neq in H
  | H : (_ <=? _)%Z = true |- _ => apply Z.leb_le in H
  | H : (_ <=? _)%Z = false |- _ => apply Z.leb_gt in H
  | H : (_ <? _)%Z = true |- _ => apply Z.ltb_lt in H
  | H : (_ <? _)%Z = false |- _ => apply Z.ltb_ge in H
  | H : (_ =? _)%nat = true |- _ => apply Nat.eqb_eq in H
  | H : (_ =? _)%nat = false |- _ => apply Nat.eqb_neq in H
  | H : (_ <=? _)%nat = true |- _ => apply Nat.leb_le in H
  | H : (_ <=? _)%nat = false |- _ => apply Nat.leb_gt in H
  | H : (_ <? _)%nat = true |- _ => apply Nat.ltb_lt in H
  | H : (_ <? _)%nat = false |- _ => apply Nat.ltb_ge in H
  end.

(** ** Results *)

Section Results.
Context {A B : Type}.

Lemma map_res_length (f : A → res B) l ys :
  map_res f l = Ok ys → length ys = length l.
Proof. revert ys; induction l as [|x l IH]; intros ys H; cbn in H; inv_ok; cbn; auto. Qed.

Lemma map_res_Forall2 (f : A → res B) l ys :
  map_res f l = Ok ys ↔ Forall2 (fun x y => f x = Ok y) l ys.
Proof.
  split.
  - revert ys; induction l as [|x l IH]; intros ys H; cbn in H; inv_ok; auto.
  - induction 1 as [|x y l ys Hx _ IH]; cbn; [done|]. by rewrite Hx, IH.
Qed.

Lemma map_res_lookup (f : A → res B) l ys i x :
  map_res f l = Ok ys → l !! i = Some x → ∃ y, ys !! i = Some y ∧ f x = Ok y.
Proof.
  intros H%map_res_Forall2 Hi.
  destruct (Forall2_lookup_l _ _ _ _ _ H Hi) as (y & ? & ?). eauto.
Qed.

Lemma map_res_ok (f : A → res B) l :
  (∀ x, x ∈ l → ∃ y, f x = Ok y) → ∃ ys, map_res f l = Ok ys.
Proof.
  induction l as [|x l IH]; intros H; cbn; [eauto|].
  destruct (H x) as [y Hy]; [left|]. destruct IH as [ys Hys].
  { intros z Hz. apply H. by right. }
  rewrite Hy; cbn. rewrite Hys; cbn. eauto.
Qed.
End Results.

(** ** Lists *)

Lemma fold_res_app {A S} (f : S → A → res S) l1 l2 s :
  fold_res f s (l1 ++ l2) = (s' ← fold_res f s l1; fold_res f s' l2).
Proof. revert s. induction l1 as [|x l1 IH]; intros s; cbn; [done|]. destruct (f s x); cbn; [apply IH | done]. Qed.

Lemma filter_elem {A} (f : A → bool) l x : x ∈ List.filter f l ↔ x ∈ l ∧ f x = true.
Proof. by rewrite !list_elem_of_In, List.filter_In. Qed.

Lemma filter_NoDup_map {A B} (key : A → B) (f : A → bool) l : NoDup (map key l) → NoDup (map key (List.filter f l)).
Proof.
  induction l as [|x l IH]; cbn; intros N; [constructor|]. apply NoDup_cons in N as [Hx N].
  destruct (f x); [|by apply IH]. cbn. constructor; [|by apply IH]. intros (y & Hk & Hy)%list_elem_of_fmap.
  apply Hx, list_elem_of_fmap. exists y. split; [done|]. by apply list_elem_of_In, List.filter_In, proj1, list_elem_of_In in Hy.
Qed.

Lemma Forall2_keys {A B K} (P : A → B → Prop) (ka : A → K) (kb : B → K) la lb :
  Forall2 P la lb → (∀ x y, P x y → ka x = kb y) → map ka la = map kb lb.
Proof. intros F H. induction F; cbn; [done|]. f_equal; auto. Qed.

Lemma Forall2_left {A B} (P : A → B → Prop) la lb x : Forall2 P la lb → x ∈ la → ∃ y, y ∈ lb ∧ P x y.
Proof. induction 1; intros Hx; [by apply elem_of_nil in Hx|]. apply elem_of_cons in Hx as [->|?]; set_solver. Qed.
Lemma Forall2_right {A B} (P : A → B → Prop) la lb y : Forall2 P la lb → y ∈ lb → ∃ x, x ∈ la ∧ P x y.
Proof. induction 1; intros Hx; [by apply elem_of_nil in Hx|]. apply elem_of_cons in Hx as [->|?]; set_solver. Qed.

(** ** Insertion-ordered dictionaries

    A Python [dict] whose order matters: an association list with unique keys;
    assigning an existing key keeps its place. *)
Section Dict.
Context {K V : Type} `{EqDecision K}.
Implicit Types (d : list (K * V)) (k : K) (v : V).

Fixpoint dget k d : option V :=
  match d with
  | [] => None
  | (k', v) :: d' => if decide (k = k') then Some v else dget k d'
  end.

Fixpoint dset k v d : list (K * V) :=
  match d with
  | [] => [(k, v)]
  | (k', v') :: d' => if decide (k = k') then (k', v) :: d' else (k', v') :: dset k v d'
  end.

Definition dkeys d : list K := map fst d.

Lemma dget_dset k k' v d :
  dget k' (dset k v d) = if decide (k' = k) then Some v else dget k' d.
Proof.
  induction d as [|[k1 v1] d IH]; cbn.
  - by destruct (decide (k' = k)).
  - destruct (decide (k = k1)) as [->|]; cbn.
    + by destruct (decide (k' = k1)).
    + rewrite IH. repeat case_decide; congruence.
Qed.

Lemma dget_Some_elem k v d : dget k d = Some v → (k, v) ∈ d.
Proof.
  induction d as [|[k1 v1] d IH]; cbn; [done|].
  case_decide; intros; simplify_eq; [left | right; auto].
Qed.

Lemma dget_None k d : dget k d = None ↔ k ∉ dkeys d.
Proof.
  induction d as [|[k1 v1] d IH]; cbn; [set_solver|].
  case_decide; subst; [split; [done | set_solver]|]. rewrite IH. set_solver.
Qed.

Lemma dget_elem k v d : NoDup (dkeys d) → (k, v) ∈ d → dget k d = Some v.
Proof.
  induction d as [|[k1 v1] d IH]; cbn; [set_solver|].
  intros [Hn ?]%NoDup_cons [?|?]%elem_of_cons; simplify_eq.
  - by rewrite decide_True.
  - rewrite decide_False; auto. intros ->. apply Hn.
    apply list_elem_of_In, in_map_iff. exists (k1, v). by rewrite <- list_elem_of_In.
Qed.

Lemma dkeys_dset k v d :
  dkeys (dset k v d) = if decide (k ∈ dkeys d) then dkeys d else dkeys d ++ [k].
Proof.
  unfold dkeys. induction d as [|[k1 v1] d IH]; cbn; [done|].
  destruct (decide (k = k1)) as [->|Hne]; cbn.
  - rewrite decide_True; [done | left].
  - rewrite IH. destruct (decide (k ∈ map fst d)).
    + rewrite decide_True; [done | by right].
    + rewrite decide_False; [done | set_solver].
Qed.

Lemma dset_fresh k v d : k ∉ dkeys d → dset k v d = d ++ [(k, v)].
Proof.
  induction d as [|[k1 v1] d IH]; cbn; [done|]. intros H. rewrite decide_False by set_solver.
  f_equal. apply IH. set_solver.
Qed.

(** [d.update(items)] *)
Definition dupdate d (items : list (K * V)) : list (K * V) := fold_left (fun d kv => dset kv.1 kv.2 d) items d.

Lemma dupdate_fresh items : ∀ d, NoDup (dkeys (d ++ items)) → dupdate d items = d ++ items.
Proof.
  unfold dupdate. induction items as [|[k v] items IH]; intros d H; cbn; [by rewrite app_nil_r|].
  rewrite dset_fresh, IH; rewrite <- ?app_assoc; try done.
  unfold dkeys in *. rewrite map_app in H. apply NoDup_app in H as (_ & H & _).
  intros Hk. apply (H k Hk). left.
Qed.

Lemma dset_NoDup k v d : NoDup (dkeys d) → NoDup (dkeys (dset k v d)).
Proof.
  intros. rewrite dkeys_dset. case_decide; [done|].
  apply NoDup_app; split_and!; auto; [set_solver | apply NoDup_singleton].
Qed.
End Dict.

(** ** Exact rationals *)

Definition qz (z : Z) : Qc := Q2Qc (inject_Z z).

Lemma Qc_eq_Q (a b : Q) : (a == b)%Q → Q2Qc a = Q2Qc b.
Proof. intros H. by apply Qc_is_canon; cbn; rewrite !Qred_correct. Qed.

Lemma qz_add a b : qz (a + b) = (qz a + qz b)%Qc.
Proof.
  unfold qz, Qcplus. apply Qc_eq_Q. cbn [this Q2Qc].
  by rewrite !Qred_correct, inject_Z_plus.
Qed.

Lemma qz_mul a b : qz (a * b) = (qz a * qz b)%Qc.
Proof.
  unfold qz, Qcmult. apply Qc_eq_Q. cbn [this Q2Qc].
  by rewrite !Qred_correct, inject_Z_mult.
Qed.

Lemma qz_opp a : qz (- a) = (- qz a)%Qc.
Proof.
  unfold qz, Qcopp. apply Qc_eq_Q. cbn [this Q2Qc].
  by rewrite !Qred_correct, inject_Z_opp.
Qed.

Lemma qz_inj a b : qz a = qz b → a = b.
Proof.
  intros H. assert (Heq : (inject_Z a == inject_Z b)%Q).
  { rewrite <- (Qred_correct (inject_Z a)), <- (Qred_correct (inject_Z b)).
    change (this (qz a) == this (qz b))%Q. by rewrite H. }
  unfold Qeq in Heq; cbn in Heq. lia.
Qed.

Lemma qz_neq0 a : a ≠ 0 → qz a ≠ 0%Qc.
Proof. intros Ha H. apply Ha. by apply (qz_inj a 0). Qed.

(** Sum of a list of fractions, [sum(xs, Fraction())]. *)
Definition qsum (l : list Qc) : Qc := foldl Qcplus 0%Qc l.

#[global] Arguments qsum : simpl never.

Lemma foldl_Qcplus l x : foldl Qcplus x l = (x + qsum l)%Qc.
Proof.
  unfold qsum. revert x; induction l as [|y l IH]; intros x; cbn; [ring|].
  rewrite IH, (IH (0 + y)%Qc). ring.
Qed.

Lemma qsum_nil : qsum [] = 0%Qc.
Proof. done. Qed.

Lemma qsum_cons x l : qsum (x :: l) = (x + qsum l)%Qc.
Proof. unfold qsum; cbn. rewrite foldl_Qcplus. fold (qsum l). ring. Qed.

Lemma qsum_app l1 l2 : qsum (l1 ++ l2) = (qsum l1 + qsum l2)%Qc.
Proof.
  induction l1 as [|x l1 IH]; cbn [app]; [rewrite qsum_nil; ring|].
  rewrite !qsum_cons, IH. ring.
Qed.

Create HintDb pops.
#[export] Hint Rewrite qsum_nil @qsum_cons qsum_app qz_add qz_mul qz_opp : pops.
#[export] Hint Resolve dset_NoDup : pops.
