(* ===== verification/SortedKeys.v ===== *)
(** * Mappings sorted by key

    [sorted] on the keys of a mapping, as the encoders and the temporal points
    use it, on the insertion-ordered dictionaries of the prelude. *)
From S2P Require Import Prelude.

(** [sorted] on the keys of a mapping. *)
Fixpoint insert_key {V} (k : string) (v : V) (d : list (string * V)) : list (string * V) :=
  match d with
  | [] => [(k, v)]
  | (k', v') :: d' => if String.leb k k' then (k, v) :: d else (k', v') :: insert_key k v d'
  end.
Definition sort_keys {V} (d : list (string * V)) : list (string * V) :=
  foldr (fun '(k, v) d => insert_key k v d) [] d.

Lemma insert_key_map {V W} (f : V → W) k v d :
  insert_key k (f v) (map (λ '(k, v), (k, f v)) d) = map (λ '(k, v), (k, f v)) (insert_key k v d).
Proof. induction d as [|[k' v'] d IH]; cbn; [done|]. destruct (String.leb k k'); cbn; [done | by rewrite IH]. Qed.

Lemma sort_keys_map {V W} (f : V → W) d :
  sort_keys (map (λ '(k, v), (k, f v)) d) = map (λ '(k, v), (k, f v)) (sort_keys d).
Proof. induction d as [|[k v] d IH]; [done|]. unfold sort_keys in *. cbn [map foldr]. by rewrite IH, insert_key_map. Qed.

Lemma insert_key_elem {V} k (v : V) d x : x ∈ insert_key k v d ↔ x = (k, v) ∨ x ∈ d.
Proof.
  induction d as [|[k' v'] d IH]; cbn.
  - rewrite list_elem_of_singleton, elem_of_nil; tauto.
  - destruct (String.leb k k'); rewrite ?elem_of_cons, ?IH; tauto.
Qed.

Lemma sort_keys_elem {V} (d : list (string * V)) x : x ∈ sort_keys d ↔ x ∈ d.
Proof.
  induction d as [|[k v] d IH]; [done|]. unfold sort_keys in *. cbn [foldr]. by rewrite insert_key_elem, IH, elem_of_cons.
Qed.

Lemma Forall_sort {V} (P : string * V → Prop) d : Forall P d → Forall P (sort_keys d).
Proof. rewrite !Forall_forall. intros H x Hx. by apply H, sort_keys_elem. Qed.

Lemma dkeys_map {V W} (f : V → W) (d : list (string * V)) : dkeys (map (λ '(k, v), (k, f v)) d) = dkeys d.
Proof. unfold dkeys. rewrite map_map. apply map_ext. by intros []. Qed.

Lemma insert_key_perm {V} k (v : V) d : insert_key k v d ≡ₚ (k, v) :: d.
Proof.
  induction d as [|[k1 v1] d IH]; cbn; [done|]. destruct (String.leb k k1); [done|]. rewrite IH. apply Permutation_swap.
Qed.

Lemma sort_keys_perm {V} (d : list (string * V)) : sort_keys d ≡ₚ d.
Proof. induction d as [|[k v] d IH]; cbn; [done|]. by rewrite insert_key_perm, IH. Qed.
