(* ===== verification/Binary64.v ===== *)
(** * Python's [float]: IEEE 754 binary64

    The executable model of the float operations the sources use, over the
    Standard Library's [spec_float] (precision 53, maximal exponent 1024). *)
From Stdlib Require Import SpecFloat.
From S2P Require Import Prelude.

Definition float := spec_float.

#[global] Instance float_eq_dec : EqDecision float.
Proof. intros x y. unfold float in *. solve_decision. Defined.

Definition fadd : float → float → float := SFadd 53 1024.
Definition fsub : float → float → float := SFsub 53 1024.
Definition fmul : float → float → float := SFmul 53 1024.
Definition fneg : float → float := SFopp.

(** [int] to [float] ([float(z)]), rounding to nearest even; infinite on
    overflow, where Python raises. *)
Definition float_of_Z (z : Z) : float := binary_normalize 53 1024 z 0 false.

Definition is_finite (f : float) : bool :=
  match f with S754_zero _ | S754_finite _ _ _ => true | _ => false end.

Definition is_zero (f : float) : bool := match f with S754_zero _ => true | _ => false end.

(** Python's [x / y]. *)
Definition py_fdiv (x y : float) : res float :=
  if is_zero y then Err ZeroDivisionError else Ok (SFdiv 53 1024 x y).

Definition feqb : float → float → bool := SFeqb.
Definition fltb : float → float → bool := SFltb.
Definition fleb : float → float → bool := SFleb.

(** [b ** e] for a positive integer base and an integer exponent. *)
Definition zpow (b e : Z) : Qc :=
  match e with
  | Z0 => 1%Qc
  | Zpos p => qz (b ^ Zpos p)
  | Zneg p => (/ qz (b ^ Zpos p))%Qc
  end.

(** The exact value of a finite float, [Fraction.from_float]. *)
Definition float_value (f : float) : Qc :=
  match f with
  | S754_finite s m e => (qz (if s then Zneg m else Zpos m) * zpow 2 e)%Qc
  | _ => 0%Qc
  end.

Section Zpow.
Context (b : Z) (Hb : 0 < b).

Lemma zpow_nonneg e : 0 <= e → zpow b e = qz (b ^ e).
Proof. destruct e; cbn; intros; [done | done | lia]. Qed.

Lemma Qcinv_inv (q : Qc) : (/ / q)%Qc = q.
Proof.
  apply Qc_is_canon. unfold Qcinv, Q2Qc, this.
  destruct q as [q Hq]; cbn. rewrite !Qred_correct. apply Qinv_involutive.
Qed.

Lemma zpow_opp e : zpow b (- e) = (/ zpow b e)%Qc.
Proof.
  destruct e as [|p|p]; cbn [Z.opp zpow]; [by apply Qc_is_canon | done |].
  symmetry. apply Qcinv_inv.
Qed.

Lemma zpow_neq0 e : zpow b e ≠ 0%Qc.
Proof.
  assert (Hp : ∀ n, 0 <= n → zpow b n ≠ 0%Qc).
  { intros n Hn. rewrite zpow_nonneg by done. apply qz_neq0.
    apply Z.pow_nonzero; lia. }
  destruct (Z.le_gt_cases 0 e) as [?|?]; [auto|].
  replace e with (- - e) by lia. rewrite zpow_opp.
  intros Hz. apply (Hp (- e)); [lia|].
  rewrite <- (Qcinv_inv (zpow b (- e))), Hz. done.
Qed.

Lemma zpow_add_nonneg x y : 0 <= x → 0 <= y → zpow b (x + y) = (zpow b x * zpow b y)%Qc.
Proof. intros. rewrite !zpow_nonneg by lia. by rewrite Z.pow_add_r, qz_mul. Qed.

Lemma zpow_sub_nonneg x y : 0 <= x → 0 <= y → zpow b (x - y) = (zpow b x / zpow b y)%Qc.
Proof.
  intros Hx Hy. unfold Qcdiv. destruct (Z.le_gt_cases y x).
  - assert (Hsum : zpow b x = (zpow b (x - y) * zpow b y)%Qc).
    { rewrite <- zpow_add_nonneg by lia. f_equal; lia. }
    rewrite Hsum. field. apply zpow_neq0.
  - assert (Hsum : zpow b y = (zpow b (y - x) * zpow b x)%Qc).
    { rewrite <- zpow_add_nonneg by lia. f_equal; lia. }
    replace (x - y) with (- (y - x)) by lia. rewrite zpow_opp, Hsum.
    field. split; apply zpow_neq0.
Qed.

Lemma zpow_add x y : zpow b (x + y) = (zpow b x * zpow b y)%Qc.
Proof.
  destruct (Z.le_gt_cases 0 x), (Z.le_gt_cases 0 y).
  - by apply zpow_add_nonneg.
  - replace (x + y) with (x - - y) by lia. rewrite zpow_sub_nonneg by lia.
    unfold Qcdiv. by rewrite zpow_opp, Qcinv_inv.
  - replace (x + y) with (y - - x) by lia. rewrite zpow_sub_nonneg by lia.
    unfold Qcdiv. rewrite zpow_opp, Qcinv_inv. ring.
  - replace (x + y) with (- (- x + - y)) by lia.
    rewrite zpow_opp, zpow_add_nonneg, !zpow_opp by lia. field.
    repeat split; auto using zpow_neq0; done.
Qed.

Lemma zpow_shift x y : y <= x → zpow b x = (qz (b ^ (x - y)) * zpow b y)%Qc.
Proof.
  intros. rewrite <- zpow_nonneg by lia. rewrite <- zpow_add. f_equal. lia.
Qed.
End Zpow.
