(* ===== verification/Scalar.v ===== *)
(** * Exact authoring scalars

    [python/pops/identity/scalar.py] and the coefficient helpers of
    [python/pops/time/value_metadata.py] and
    [python/pops/time/_methods/coefficients.py]: the lossless literal, the four
    number domains it decodes to, and the exact algebra on them, including the
    context-independent [Decimal] arithmetic. *)
From Stdlib Require Import SpecFloat Znumtheory Zpow_facts.
From S2P Require Import Prelude Binary64.

(** ** Numbers *)

(** A finite [decimal.Decimal]: sign, coefficient and exponent. *)
Record decimal := Dec { dec_neg : bool; dec_coeff : N; dec_exp : Z }.

#[global] Instance decimal_eq_dec : EqDecision decimal.
Proof. solve_decision. Defined.

(** The Python numbers a coefficient may be: [int], [Fraction], [Decimal], [float]. *)
Inductive pynum := NInt (z : Z) | NFrac (q : Qc) | NDec (d : decimal) | NFlt (f : float).

#[global] Instance pynum_eq_dec : EqDecision pynum.
Proof. solve_decision. Defined.

Definition dec_signed (d : decimal) : Z :=
  if dec_neg d then - Z.of_N (dec_coeff d) else Z.of_N (dec_coeff d).

Definition dec_value (d : decimal) : Qc := (qz (dec_signed d) * zpow 10 (dec_exp d))%Qc.

(** The rational a number denotes: [Fraction(value)], [Fraction.from_float]. *)
Definition num_value (x : pynum) : Qc :=
  match x with
  | NInt z => qz z
  | NFrac q => q
  | NDec d => dec_value d
  | NFlt f => float_value f
  end.

Definition is_float (x : pynum) : bool := match x with NFlt _ => true | _ => false end.

(** Python truth of a number, [x != 0]. *)
Definition num_nonzero (x : pynum) : bool :=
  match x with
  | NInt z => negb (z =? 0)
  | NFrac q => bool_decide (q ≠ 0%Qc)
  | NDec d => negb (dec_coeff d =? 0)%N
  | NFlt f => negb (is_zero f)
  end.

(** ** The literal *)

(** The kind and payload of a [ScalarLiteral].  The textual payloads of the
    [decimal] and [binary64] kinds are kept as the numbers they spell. *)
Inductive payload :=
| PInteger (z : Z)
| PRational (q : Qc)
| PDecimal (d : decimal)
| PBinary64 (f : float)
| PAlgebraic (expression : string)
| PCustom (kind : string).

Record literal := Literal {
  l_payload : payload;
  l_unit : option string;
  l_target : option string;
  l_cpp : option string }.

Definition nonempty (s : string) : bool := match s with EmptyString => false | _ => true end.
Definition opt_nonempty (s : option string) : bool :=
  match s with None => true | Some s => nonempty s end.

Definition in_range (lo hi c : ascii) : bool :=
  ((N_of_ascii lo <=? N_of_ascii c) && (N_of_ascii c <=? N_of_ascii hi))%N.
Definition is_ident_start (c : ascii) : bool :=
  in_range "A" "Z" c || in_range "a" "z" c || Ascii.eqb c "_".
Definition is_ident_char (c : ascii) : bool := is_ident_start c || in_range "0" "9" c.

(** [_CPP_TYPE_RE.fullmatch]: identifiers joined by ["::"].  [start] says that
    an identifier must begin here. *)
Fixpoint cpp_type_match (start : bool) (s : string) : bool :=
  match s with
  | EmptyString => negb start
  | String c s' =>
      if start then is_ident_start c && cpp_type_match false s'
      else if is_ident_char c then cpp_type_match false s'
      else match c, s' with
           | ":"%char, String ":"%char s'' => cpp_type_match true s''
           | _, _ => false
           end
  end.

(** [ScalarLiteral.__post_init__]. *)
Definition mk_literal (p : payload) (unit target cpp : option string) : res literal :=
  _ ← require (match p with PCustom k => nonempty k | _ => true end) ValueError;
  _ ← require (opt_nonempty unit && opt_nonempty target && opt_nonempty cpp) ValueError;
  _ ← require (match target with Some t => cpp_type_match true t | None => true end) ValueError;
  _ ← require (match p with PBinary64 f => is_finite f | _ => true end) ValueError;
  _ ← require (match p with
               | PAlgebraic e => nonempty e && bool_decide (is_Some cpp)
               | _ => true end) ValueError;
  Ok (Literal p unit target cpp).

(** The values [ScalarLiteral.from_value] discriminates. [PyDecimal None] is a
    non-finite [Decimal]; [PyHook] an object whose [__pops_scalar_literal__]
    returns the given data ([None]: not a kind/payload mapping; an inner [None]:
    an absent key); [PyConst] a typed constant descriptor with its optional
    [unit] and [dtype] attributes. *)
Record hook_data := HookData {
  hk_payload : payload;
  hk_unit : option (option string);
  hk_target : option (option string);
  hk_cpp : option string }.

Inductive pyval :=
| PyNone
| PyBool (b : bool)
| PyInt (z : Z)
| PyFraction (q : Qc)
| PyDecimal (d : option decimal)
| PyFloat (f : float)
| PyStr (s : string)
| PyLiteral (l : literal)
| PyHook (data : option hook_data)
| PyConst (value : pyval) (unit target : option (option string))
| PySeq (l : list pyval)
| PyOther.

Definition target_name (target : option string) : res (option string) :=
  match target with
  | None => Ok None
  | Some t => if nonempty t then Ok (Some t) else Err TypeError
  end.

(** [ScalarLiteral.from_value]. *)
Fixpoint from_value (v : pyval) (unit target : option string) : res literal :=
  match v with
  | PyLiteral l =>
      match unit, target with
      | None, None => Ok l
      | _, _ =>
          t ← match target with None => Ok (l_target l) | _ => target_name target end;
          mk_literal (l_payload l) (match unit with None => l_unit l | u => u end) t (l_cpp l)
      end
  | PyBool _ => Err TypeError
  | PyInt z => t ← target_name target; mk_literal (PInteger z) unit t None
  | PyFraction q => t ← target_name target; mk_literal (PRational q) unit t None
  | PyDecimal None => Err ValueError
  | PyDecimal (Some d) => t ← target_name target; mk_literal (PDecimal d) unit t None
  | PyFloat f =>
      _ ← require (is_finite f) ValueError;
      t ← target_name target; mk_literal (PBinary64 f) unit t None
  | PyHook None => Err TypeError
  | PyHook (Some h) =>
      t ← target_name target;
      mk_literal (hk_payload h) (default unit (hk_unit h)) (default t (hk_target h)) (hk_cpp h)
  | PyConst value u t => from_value value (default unit u) (default target t)
  | PyNone | PyStr _ | PySeq _ | PyOther => Err TypeError
  end.

Definition scalar_literal (v : pyval) : res literal := from_value v None None.

(** [ScalarLiteral.to_python]. *)
Definition to_python (l : literal) : res pynum :=
  match l_payload l with
  | PInteger z => Ok (NInt z)
  | PRational q => Ok (NFrac q)
  | PDecimal d => Ok (NDec d)
  | PBinary64 f => Ok (NFlt f)
  | PAlgebraic _ | PCustom _ => Err TypeError
  end.

(** The Python value of a number, as an argument of [from_value]. *)
Definition py_of_num (x : pynum) : pyval :=
  match x with
  | NInt z => PyInt z
  | NFrac q => PyFraction q
  | NDec d => PyDecimal (Some d)
  | NFlt f => PyFloat f
  end.

(** [exact_numeric_scalar]. *)
Definition exact_numeric_scalar (v : pyval) : res pynum :=
  l ← scalar_literal v;
  _ ← require (bool_decide (l_unit l = None) && bool_decide (l_target l = None)) TypeError;
  to_python l.

(** [exact_coefficient] of [time/_methods/coefficients.py]. *)
Definition exact_coefficient (v : pyval) : res pynum :=
  l ← scalar_literal v;
  _ ← require (bool_decide (l_unit l = None) && bool_decide (l_target l = None)
               && bool_decide (l_cpp l = None)) TypeError;
  to_python l.

Definition exact_fraction (v : pyval) : res Qc := num_value <$> exact_coefficient v.

(** [exact_cpp_int]. *)
Definition CPP_INT_MAX : Z := 2 ^ 31 - 1.

Definition exact_cpp_int (v minimum maximum : pyval) : res Z :=
  lo ← match minimum with PyInt z => Ok z | _ => Err TypeError end;
  hi ← match maximum with
       | PyInt z => if z <? lo then Err TypeError else Ok z
       | _ => Err TypeError end;
  match v with
  | PyInt z => if (z <? lo) || (hi <? z) then Err ValueError else Ok z
  | _ => Err ValueError
  end.

(** ** Exact algebra *)

Definition BINARY64_EXACT_INTEGER_MAX : Z := 2 ^ 53.

(** [numeric_domains_compatible]. *)
Definition numeric_domains_compatible (left right : pynum) : bool :=
  match left, right with
  | NInt _, NInt _ | NFrac _, NFrac _ | NDec _, NDec _ | NFlt _, NFlt _ => true
  | NInt z, NFlt _ | NFlt _, NInt z => Z.abs z <=? BINARY64_EXACT_INTEGER_MAX
  | NInt _, (NFrac _ | NDec _) | (NFrac _ | NDec _), NInt _ => true
  | _, _ => false
  end.

(** [_decimal_parts], [_decimal_from_parts]. *)
Definition decimal_parts (v : pynum) : res (Z * Z) :=
  match v with
  | NInt z => Ok (z, 0)
  | NDec d => Ok (dec_signed d, dec_exp d)
  | NFrac _ | NFlt _ => Err TypeError
  end.

Definition decimal_from_parts (coefficient exponent : Z) : decimal :=
  Dec (coefficient <? 0) (Z.abs_N coefficient) exponent.

Definition exact_decimal_add (left right : pynum) : res decimal :=
  '(left_coeff, left_exp) ← decimal_parts left;
  '(right_coeff, right_exp) ← decimal_parts right;
  let exponent := Z.min left_exp right_exp in
  let coefficient := left_coeff * 10 ^ (left_exp - exponent)
                     + right_coeff * 10 ^ (right_exp - exponent) in
  Ok (decimal_from_parts coefficient exponent).

Definition exact_decimal_negate (d : decimal) : decimal :=
  Dec (negb (dec_neg d)) (dec_coeff d) (dec_exp d).

Definition exact_decimal_multiply (left right : pynum) : res decimal :=
  '(left_coeff, left_exp) ← decimal_parts left;
  '(right_coeff, right_exp) ← decimal_parts right;
  Ok (decimal_from_parts (left_coeff * right_coeff) (left_exp + right_exp)).

(** The two [while denominator % p == 0] loops: the cofactor and the count. *)
Fixpoint strip_factor (fuel : nat) (p n count : Z) : Z * Z :=
  match fuel with
  | O => (n, count)
  | S fuel => if n mod p =? 0 then strip_factor fuel p (n / p) (count + 1) else (n, count)
  end.

(** [value.as_integer_ratio()], or [(value, 1)] of an [int]: the fraction. *)
Definition decint_ratio (v : pynum) : res Qc :=
  match v with
  | NInt z => Ok (qz z)
  | NDec d => Ok (dec_value d)
  | NFrac _ | NFlt _ => Err TypeError
  end.

(** [exact_decimal_divide] on its declared domain [Decimal | int].  The fuel
    is the bit length of the denominator. *)
Definition exact_decimal_divide (left right : pynum) : res (option decimal) :=
  l ← decint_ratio left;
  r ← decint_ratio right;
  if decide (r = 0%Qc) then Err ZeroDivisionError
  else
    let quotient := (l / r)%Qc in
    let fuel := Pos.size_nat (Qden quotient) in
    let '(d2, powers_two) := strip_factor fuel 2 (Zpos (Qden quotient)) 0 in
    let '(d5, powers_five) := strip_factor fuel 5 d2 0 in
    if d5 =? 1 then
      let scale := Z.max powers_two powers_five in
      let coefficient := Qnum quotient * 5 ^ (scale - powers_two)
                         * 2 ^ (scale - powers_five) in
      Ok (Some (decimal_from_parts coefficient (- scale)))
    else Ok None.

(** [_require_compatible_domains]. *)
Definition require_compatible_domains (left right : pynum) : res unit :=
  require (numeric_domains_compatible left right) CoefficientLiteralError.

(** The operands of Python's mixed [int]/[float] arithmetic. *)
Definition as_float (x : pynum) : float :=
  match x with NInt z => float_of_Z z | NFlt f => f | _ => S754_nan end.

Definition is_decimal (x : pynum) : bool := match x with NDec _ => true | _ => false end.

(** [left + right] and [left * right] of compatible non-decimal numbers. *)
Definition py_num_op (zop : Z → Z → Z) (qop : Qc → Qc → Qc) (fop : float → float → float)
    (left right : pynum) : pynum :=
  match left, right with
  | NInt x, NInt y => NInt (zop x y)
  | NFrac x, NFrac y => NFrac (qop x y)
  | NInt x, NFrac y => NFrac (qop (qz x) y)
  | NFrac x, NInt y => NFrac (qop x (qz y))
  | x, y => NFlt (fop (as_float x) (as_float y))
  end.

(** [_exact_add], [_exact_multiply], [_exact_divide], [_exact_negate]. *)
Definition exact_add (left right : pynum) : res pynum :=
  _ ← require_compatible_domains left right;
  if is_decimal left || is_decimal right
  then NDec <$> exact_decimal_add left right
  else Ok (py_num_op Z.add Qcplus fadd left right).

Definition exact_multiply (left right : pynum) : res pynum :=
  _ ← require_compatible_domains left right;
  if is_decimal left || is_decimal right
  then NDec <$> exact_decimal_multiply left right
  else Ok (py_num_op Z.mul Qcmult fmul left right).

Definition exact_divide (numerator denominator : pynum) : res pynum :=
  _ ← require_compatible_domains numerator denominator;
  match numerator, denominator with
  | (NInt _ | NFrac _), (NInt _ | NFrac _) =>
      if decide (num_value denominator = 0%Qc) then Err ZeroDivisionError
      else Ok (NFrac (num_value numerator / num_value denominator)%Qc)
  | NDec _, _ | _, NDec _ =>
      r ← exact_decimal_divide numerator denominator;
      match r with Some d => Ok (NDec d) | None => Err CoefficientLiteralError end
  | _, _ => NFlt <$> py_fdiv (as_float numerator) (as_float denominator)
  end.

(** [_exact_number]: a coefficient, refusing the annotations it would erase. *)
Definition exact_number (v : pyval) : res pynum :=
  l ← scalar_literal v;
  _ ← require (bool_decide (l_unit l = None) && bool_decide (l_target l = None))
        CoefficientLiteralError;
  _ ← require (match l_payload l with PAlgebraic _ => false | _ => true end)
        CoefficientLiteralError;
  to_python l.

Definition exact_negate (v : pyval) : res pynum :=
  x ← exact_number v;
  Ok match x with
     | NDec d => NDec (exact_decimal_negate d)
     | NInt z => NInt (- z)
     | NFrac q => NFrac (- q)%Qc
     | NFlt f => NFlt (fneg f)
     end.

(** [multiply_exact_scalars] of [identity/scalar.py]. *)
Definition multiply_exact_scalars (left right : pyval) : res pynum :=
  a ← exact_numeric_scalar left;
  b ← exact_numeric_scalar right;
  _ ← require (numeric_domains_compatible a b) TypeError;
  if is_decimal a || is_decimal b
  then NDec <$> exact_decimal_multiply a b
  else Ok (py_num_op Z.mul Qcmult fmul a b).

(** [positive_scalar_literal]. *)
Definition num_positive (x : pynum) : bool :=
  match x with
  | NInt z => 0 <? z
  | NFrac q => bool_decide (0 < q)%Qc
  | NDec d => negb (dec_neg d) && negb (dec_coeff d =? 0)%N
  | NFlt f => fltb (S754_zero false) f
  end.

Definition as_value_error {A} (m : res A) : res A :=
  match m with
  | Err (TypeError | ValueError | CoefficientLiteralError) => Err ValueError
  | m => m
  end.

Definition positive_scalar_literal (v : pyval) : res literal :=
  l ← as_value_error (scalar_literal v);
  x ← as_value_error (to_python l);
  _ ← require (num_positive x) ValueError;
  Ok l.

(** ** Decimal lemmas *)

Lemma decimal_from_parts_value c e :
  dec_value (decimal_from_parts c e) = (qz c * zpow 10 e)%Qc.
Proof.
  unfold dec_value, dec_signed, decimal_from_parts; cbn [dec_neg dec_coeff dec_exp].
  f_equal. f_equal. rewrite N2Z.inj_abs_N. destruct (c <? 0) eqn:E; bools; lia.
Qed.

Lemma decimal_parts_value x c e :
  decimal_parts x = Ok (c, e) → num_value x = (qz c * zpow 10 e)%Qc.
Proof.
  destruct x; cbn; intros H; inv_ok; simplify_eq; cbn; [|done].
  change (zpow 10 0) with 1%Qc. ring.
Qed.

Lemma decimal_parts_ok x :
  is_decimal x = true ∨ (∃ z, x = NInt z) → ∃ p, decimal_parts x = Ok p.
Proof. destruct x; cbn; intros [?|[? ?]]; simplify_eq; eauto. Qed.

Lemma exact_decimal_add_value l r d :
  exact_decimal_add l r = Ok d → dec_value d = (num_value l + num_value r)%Qc.
Proof.
  unfold exact_decimal_add. intros H. inv_ok.
  match goal with H1 : decimal_parts l = Ok (?c1, ?e1), H2 : decimal_parts r = Ok (?c2, ?e2) |- _ =>
    apply decimal_parts_value in H1, H2; rewrite H1, H2, decimal_from_parts_value;
    rewrite (zpow_shift 10 ltac:(lia) e1 (Z.min e1 e2)), (zpow_shift 10 ltac:(lia) e2 (Z.min e1 e2))
      by lia
  end.
  autorewrite with pops. ring.
Qed.

Lemma exact_decimal_multiply_value l r d :
  exact_decimal_multiply l r = Ok d → dec_value d = (num_value l * num_value r)%Qc.
Proof.
  unfold exact_decimal_multiply. intros H. inv_ok.
  match goal with H1 : decimal_parts l = Ok _, H2 : decimal_parts r = Ok _ |- _ =>
    apply decimal_parts_value in H1, H2; rewrite H1, H2 end.
  rewrite decimal_from_parts_value, zpow_add by lia. autorewrite with pops. ring.
Qed.

Lemma exact_decimal_negate_value d :
  dec_value (exact_decimal_negate d) = (- dec_value d)%Qc.
Proof.
  unfold dec_value, exact_decimal_negate, dec_signed; cbn.
  destruct (dec_neg d); cbn; autorewrite with pops; ring.
Qed.

(** ** The division loops *)

Lemma strip_factor_spec fuel p n count m k :
  1 < p → 0 < n < 2 ^ Z.of_nat fuel → strip_factor fuel p n count = (m, k) →
  count <= k ∧ 0 < m ∧ n = m * p ^ (k - count) ∧ m mod p ≠ 0.
Proof.
  intros Hp. revert n count. induction fuel as [|fuel IH]; intros n count Hn H.
  - cbn in Hn. lia.
  - cbn [strip_factor] in H. destruct (n mod p =? 0) eqn:E; bools.
    + assert (Hdiv : n = p * (n / p)) by (apply Z.div_exact; lia).
      assert (Hlt : 0 < n / p < 2 ^ Z.of_nat fuel).
      { rewrite Nat2Z.inj_succ, Z.pow_succ_r in Hn by lia. nia. }
      apply IH in H as (Hk & Hm & Heq & Hmod); [|done].
      split_and!; try lia.
      replace (k - count) with (Z.succ (k - (count + 1))) by lia.
      rewrite Z.pow_succ_r by lia. nia.
    + simplify_eq. rewrite Z.sub_diag, Z.pow_0_r. split_and!; lia.
Qed.

Lemma pos_size_nat_bound p : Z.pos p < 2 ^ Z.of_nat (Pos.size_nat p).
Proof.
  induction p as [p IH|p IH|]; cbn [Pos.size_nat]; rewrite ?Nat2Z.inj_succ, ?Z.pow_succ_r by lia;
    [lia | lia | reflexivity].
Qed.

Lemma Qc_num_den (q : Qc) : (q * qz (Z.pos (Qden q)) = qz (Qnum q))%Qc.
Proof.
  unfold qz, Qcmult. apply Qc_eq_Q. cbn [this Q2Qc].
  rewrite Qred_correct. unfold Qeq, Qmult, inject_Z; cbn. lia.
Qed.

Lemma Qc_coprime (q : Qc) : Z.gcd (Qnum q) (Z.pos (Qden q)) = 1.
Proof.
  destruct q as [[n d] Hq]; cbn in *. by apply (Qred_iff (n # d)).
Qed.

(** A terminating decimal has a denominator dividing a power of ten. *)
Lemma decimal_denominator d (q : Qc) :
  dec_value d = q → ∃ k, 0 <= k ∧ (Z.pos (Qden q) | 10 ^ k).
Proof.
  intros Hd. exists (Z.max 0 (- dec_exp d)). split; [lia|].
  apply (Z.gauss _ (Qnum q)).
  2: { rewrite Z.gcd_comm. apply Qc_coprime. }
  set (k := Z.max 0 (- dec_exp d)).
  exists (dec_signed d * 10 ^ (dec_exp d + k)). apply qz_inj.
  rewrite !qz_mul, <- (Qc_num_den q), <- Hd. unfold dec_value.
  rewrite <- !zpow_nonneg by (unfold k; lia). rewrite zpow_add by lia. ring.
Qed.

Lemma coprime_pow a b k : 0 <= k → Z.gcd a b = 1 → Z.gcd a (b ^ k) = 1.
Proof.
  intros Hk Hg. apply Zgcd_1_rel_prime. apply rel_prime_Zpower_r; [done|].
  by apply Zgcd_1_rel_prime.
Qed.

Lemma not_dvd_coprime_prime p n : prime p → n mod p ≠ 0 → Z.gcd n p = 1.
Proof.
  intros Hp Hn. rewrite Z.gcd_comm. apply Zgcd_1_rel_prime.
  apply prime_rel_prime; [done|]. intros Hd. apply Hn.
  apply Z.mod_divide; [|done]. destruct Hp; lia.
Qed.

Lemma prime_5 : prime 5.
Proof.
  constructor; [lia|]. intros n Hn. apply Zgcd_1_rel_prime.
  assert (n = 1 ∨ n = 2 ∨ n = 3 ∨ n = 4) as [-> | [-> | [-> | ->]]] by lia; done.
Qed.

(** The denominator factored by the two loops. *)
Lemma strip_denominator (q : Qc) d2 k2 d5 k5 :
  strip_factor (Pos.size_nat (Qden q)) 2 (Z.pos (Qden q)) 0 = (d2, k2) →
  strip_factor (Pos.size_nat (Qden q)) 5 d2 0 = (d5, k5) →
  0 <= k2 ∧ 0 <= k5 ∧ 0 < d5 ∧ Z.pos (Qden q) = d5 * 5 ^ k5 * 2 ^ k2 ∧ Z.gcd d5 10 = 1.
Proof.
  intros H2 H5. pose proof (pos_size_nat_bound (Qden q)) as Hb.
  apply strip_factor_spec in H2 as (Hk2 & Hd2 & He2 & Hm2); [|lia|lia].
  rewrite Z.sub_0_r in He2.
  assert (0 < 2 ^ k2) by (apply Z.pow_pos_nonneg; lia).
  apply strip_factor_spec in H5 as (Hk5 & Hd5 & He5 & Hm5); [|lia|nia].
  rewrite Z.sub_0_r in He5. split_and!; try lia.
  change 10 with (2 * 5). apply Zgcd_1_rel_prime, rel_prime_mult.
  - apply Zgcd_1_rel_prime, not_dvd_coprime_prime; [apply prime_2|].
    intros Hz. apply Hm2. rewrite He5, Z.mul_comm.
    by rewrite <- Z.mul_mod_idemp_r, Hz, Z.mul_0_r by lia.
  - apply Zgcd_1_rel_prime, not_dvd_coprime_prime; [apply prime_5 | done].
Qed.

Lemma decint_ratio_value x q : decint_ratio x = Ok q → num_value x = q.
Proof. destruct x; cbn; intros; inv_ok; done. Qed.

Lemma pow_ten_split s k2 k5 :
  k2 <= s → k5 <= s →
  10 ^ s = (2 ^ (s - k5) * 5 ^ (s - k2)) * (5 ^ k2 * 2 ^ k5) ∨ s < 0 ∨ k2 < 0 ∨ k5 < 0.
Proof.
  intros. destruct (Z.lt_ge_cases s 0), (Z.lt_ge_cases k2 0), (Z.lt_ge_cases k5 0); auto.
  left. change 10 with (2 * 5). rewrite Z.pow_mul_l.
  replace (5 ^ s) with (5 ^ (s - k2) * 5 ^ k2)
    by (rewrite <- Z.pow_add_r by lia; f_equal; lia).
  replace (2 ^ s) with (2 ^ (s - k5) * 2 ^ k5)
    by (rewrite <- Z.pow_add_r by lia; f_equal; lia).
  ring.
Qed.

(** The quotient the code returns: the exponents of the two and the five are
    exchanged when the coefficient is scaled. *)
Lemma exact_decimal_divide_value l r d :
  exact_decimal_divide l r = Ok (Some d) →
  let q := (num_value l / num_value r)%Qc in
  ∃ k2 k5, 0 <= k2 ∧ 0 <= k5 ∧ Z.pos (Qden q) = 2 ^ k2 * 5 ^ k5
    ∧ (dec_value d * qz (5 ^ k2 * 2 ^ k5) = qz (Qnum q))%Qc.
Proof.
  unfold exact_decimal_divide. intros H. inv_ok.
  repeat match goal with H : decint_ratio _ = Ok _ |- _ => apply decint_ratio_value in H as <- end.
  case_decide as Hr; [done|].
  destruct (strip_factor _ 2 _ _) as [d2 k2] eqn:H2.
  destruct (strip_factor _ 5 _ _) as [d5 k5] eqn:H5.
  destruct (strip_denominator _ _ _ _ _ H2 H5) as (? & ? & ? & Hden & _).
  set (x := (num_value l / num_value r)%Qc) in *. set (s := Z.max k2 k5) in *.
  destruct (d5 =? 1) eqn:Eone; bools; [|discriminate H]. subst d5.
  assert (d = decimal_from_parts (Qnum x * 5 ^ (s - k2) * 2 ^ (s - k5)) (- s)) as ->
    by congruence.
  exists k2, k5. split_and!; try lia.
  rewrite decimal_from_parts_value, zpow_opp, zpow_nonneg by lia.
  destruct (pow_ten_split s k2 k5) as [Hten|]; [lia|lia| |lia].
  assert (Hne : qz (10 ^ s) ≠ 0%Qc) by (apply qz_neq0, Z.pow_nonzero; lia).
  apply (f_equal qz) in Hten. rewrite !qz_mul in Hten |- *.
  generalize dependent (qz (10 ^ s)). intros T HT Hne. generalize (qz (Qnum x)) as m. intros m.
  transitivity (m * (T * / T))%Qc; [rewrite HT at 2; ring|].
  rewrite Qcmult_inv_r by done. ring.
Qed.

Lemma pow_two_five_cross k2 k5 :
  0 <= k2 → 0 <= k5 → 2 ^ k2 * 5 ^ k5 = 5 ^ k2 * 2 ^ k5 → k2 = k5.
Proof.
  assert (Hlt : ∀ i j, 0 <= i → 0 < j → 2 ^ (i + j) * 5 ^ i < 5 ^ (i + j) * 2 ^ i).
  { intros i j Hi Hj. rewrite !Z.pow_add_r by lia.
    assert (2 ^ j < 5 ^ j) by (apply Z.pow_lt_mono_l; lia).
    assert (0 < 2 ^ i) by (apply Z.pow_pos_nonneg; lia).
    assert (0 < 5 ^ i) by (apply Z.pow_pos_nonneg; lia). nia. }
  intros H2 H5 Heq. destruct (Z.lt_trichotomy k2 k5) as [Hl|[?|Hl]]; [|done|].
  - pose proof (Hlt k2 (k5 - k2)) as Hc. replace (k2 + (k5 - k2)) with k5 in Hc by lia. lia.
  - pose proof (Hlt k5 (k2 - k5)) as Hc. replace (k5 + (k2 - k5)) with k2 in Hc by lia. lia.
Qed.

(** [None] is returned exactly for the quotients no [Decimal] denotes. *)
Lemma exact_decimal_divide_none l r :
  exact_decimal_divide l r = Ok None →
  ∀ d, dec_value d ≠ (num_value l / num_value r)%Qc.
Proof.
  unfold exact_decimal_divide. intros H d Hd. inv_ok.
  repeat match goal with H : decint_ratio _ = Ok _ |- _ => apply decint_ratio_value in H as <- end.
  case_decide as Hr; [done|]. apply decimal_denominator in Hd as (k & Hk & Hdvd).
  destruct (strip_factor _ 2 _ _) as [d2 k2] eqn:H2.
  destruct (strip_factor _ 5 _ _) as [d5 k5] eqn:H5.
  destruct (strip_denominator _ _ _ _ _ H2 H5) as (? & ? & Hpos & Hden & Hg).
  destruct (d5 =? 1) eqn:Eone; bools; [discriminate H|]. apply Eone.
  assert (Hd5 : (d5 | 10 ^ k)).
  { etransitivity; [|exact Hdvd]. rewrite Hden. exists (5 ^ k5 * 2 ^ k2). ring. }
  assert (Hone : (d5 | 1)).
  { rewrite <- (coprime_pow d5 10 k Hk Hg). apply Z.gcd_greatest; [reflexivity | done]. }
  apply Z.divide_1_r in Hone. lia.
Qed.

(** ** The exact algebra denotes rational arithmetic *)

Lemma exact_add_value a b c :
  is_float a = false → is_float b = false → exact_add a b = Ok c →
  num_value c = (num_value a + num_value b)%Qc ∧ is_float c = false.
Proof.
  unfold exact_add. intros Ha Hb H. inv_ok.
  destruct (is_decimal a || is_decimal b) eqn:Ed.
  - inv_ok. split; [|done]. cbn. by apply exact_decimal_add_value.
  - bools. inv_ok. destruct a, b; try done; cbn; by rewrite ?qz_add.
Qed.

Lemma exact_multiply_value a b c :
  is_float a = false → is_float b = false → exact_multiply a b = Ok c →
  num_value c = (num_value a * num_value b)%Qc ∧ is_float c = false.
Proof.
  unfold exact_multiply. intros Ha Hb H. inv_ok.
  destruct (is_decimal a || is_decimal b) eqn:Ed.
  - inv_ok. split; [|done]. cbn. by apply exact_decimal_multiply_value.
  - bools. inv_ok. destruct a, b; try done; cbn; by rewrite ?qz_mul.
Qed.

(** Addition and multiplication succeed exactly on compatible domains. *)
Lemma exact_add_ok a b :
  is_ok (exact_add a b) = numeric_domains_compatible a b.
Proof.
  unfold exact_add, require_compatible_domains.
  destruct (numeric_domains_compatible a b) eqn:E; [|done]. by destruct a, b.
Qed.

Lemma exact_multiply_ok a b :
  is_ok (exact_multiply a b) = numeric_domains_compatible a b.
Proof.
  unfold exact_multiply, require_compatible_domains.
  destruct (numeric_domains_compatible a b) eqn:E; [|done]. by destruct a, b.
Qed.

Lemma numeric_domains_compatible_sym a b :
  numeric_domains_compatible a b = numeric_domains_compatible b a.
Proof. by destruct a, b. Qed.

Lemma exact_divide_fraction a b c :
  is_decimal a = false → is_decimal b = false → is_float a = false → is_float b = false →
  exact_divide a b = Ok c → num_value c = (num_value a / num_value b)%Qc ∧ is_float c = false.
Proof.
  unfold exact_divide. intros ? ? ? ? H. inv_ok.
  destruct a, b; try done; cbn in *; case_decide; inv_ok; done.
Qed.

(** ** Literals *)

(** A plain number survives [from_value] and [to_python] unchanged; the only
    refused ones are the non-finite floats. *)
Lemma from_value_num x :
  scalar_literal (py_of_num x) =
    if match x with NFlt f => is_finite f | _ => true end
    then Ok (Literal (match x with
                      | NInt z => PInteger z | NFrac q => PRational q
                      | NDec d => PDecimal d | NFlt f => PBinary64 f end) None None None)
    else Err ValueError.
Proof.
  destruct x as [| | |f]; try done. destruct f; done.
Qed.

Lemma exact_number_num x :
  exact_number (py_of_num x) =
    if match x with NFlt f => is_finite f | _ => true end then Ok x else Err ValueError.
Proof.
  unfold exact_number. rewrite from_value_num.
  destruct x as [| | |f]; try done. by destruct f.
Qed.

Lemma exact_fraction_num x :
  match x with NFlt f => is_finite f | _ => true end = true →
  exact_fraction (py_of_num x) = Ok (num_value x).
Proof.
  intros Hf. unfold exact_fraction, exact_coefficient. rewrite from_value_num, Hf.
  by destruct x.
Qed.

(** Sign of a number: [num_positive] decides [0 < value]. *)
Lemma qz_pos_iff z : (0 < qz z)%Qc ↔ 0 < z.
Proof.
  assert (H : (Qred (inject_Z z) == inject_Z z)%Q) by apply Qred_correct.
  unfold Qclt, qz, Q2Qc, this. rewrite H. change (Qred 0) with 0%Q. unfold Qlt; cbn. lia.
Qed.

Lemma zpow_pos b e : 0 < b → (0 < zpow b e)%Qc.
Proof.
  intros Hb. assert (Hq : ∀ p, (0 < qz (b ^ Z.pos p))%Qc).
  { intros p. apply qz_pos_iff, Z.pow_pos_nonneg; lia. }
  destruct e; cbn [zpow]; [done | apply Hq |].
  pose proof (Hq p) as H. unfold Qclt in *. cbn [this Q2Qc Qcinv] in *.
  assert (Hr : (Qred (/ qz (b ^ Z.pos p)) == / qz (b ^ Z.pos p))%Q) by apply Qred_correct.
  rewrite Hr. by apply Qinv_lt_0_compat.
Qed.

Lemma scaled_pos_iff z b e : 0 < b → (0 < qz z * zpow b e)%Qc ↔ 0 < z.
Proof.
  intros Hb. pose proof (zpow_pos b e Hb) as Hp. rewrite <- qz_pos_iff. split; intros H.
  - apply Qcnot_le_lt. intros Hle. apply (Qclt_not_le _ _ H).
    replace 0%Qc with (0 * zpow b e)%Qc by ring.
    apply Qcmult_le_compat_r; [done | by apply Qclt_le_weak].
  - replace 0%Qc with (0 * zpow b e)%Qc by ring. by apply Qcmult_lt_compat_r.
Qed.

Lemma num_positive_value x :
  match x with NFlt f => is_finite f | _ => true end = true →
  num_positive x = true ↔ (0 < num_value x)%Qc.
Proof.
  destruct x as [z|q|d|f]; cbn [num_positive num_value]; intros Hf.
  - rewrite qz_pos_iff, Z.ltb_lt. done.
  - by rewrite bool_decide_eq_true.
  - unfold dec_value. rewrite scaled_pos_iff by done. unfold dec_signed.
    destruct d as [[] c e]; cbn [dec_neg dec_coeff negb andb].
    + split; [done | intros; lia].
    + rewrite negb_true_iff, N.eqb_neq. lia.
  - destruct f as [s|s| |s m e]; try done.
    unfold fltb, SFltb; cbn [SFcompare float_value].
    destruct s; rewrite scaled_pos_iff by done; cbn; split; done || lia.
Qed.

(** ** Claims *)

(** The exact algebra adds and multiplies two scalars exactly when their
    number domains are compatible, refuses the others with
    [CoefficientLiteralError], and on non-float operands the result denotes the
    rational sum and product without rounding. *)
Theorem exact_algebra_exact a b :
  (numeric_domains_compatible a b = false →
     exact_add a b = Err CoefficientLiteralError
     ∧ exact_multiply a b = Err CoefficientLiteralError)
  ∧ (numeric_domains_compatible a b = true → is_float a = false → is_float b = false →
     (∃ s, exact_add a b = Ok s ∧ num_value s = (num_value a + num_value b)%Qc)
     ∧ (∃ p, exact_multiply a b = Ok p ∧ num_value p = (num_value a * num_value b)%Qc)).
Proof.
  split.
  - intros H. unfold exact_add, exact_multiply, require_compatible_domains. by rewrite H.
  - intros H Ha Hb. pose proof (exact_add_ok a b) as H1. pose proof (exact_multiply_ok a b) as H2.
    rewrite H in H1, H2.
    destruct (exact_add a b) as [s|] eqn:Es; [|done].
    destruct (exact_multiply a b) as [p|] eqn:Ep; [|done].
    apply exact_add_value in Es as [? _]; auto. apply exact_multiply_value in Ep as [? _]; auto.
    split; eauto.
Qed.

Lemma exact_algebra_exact_witness :
  ∃ s, exact_add (NDec (Dec false 25 (-1))) (NInt 3) = Ok s ∧ num_value s = Q2Qc (11 # 2).
Proof.
  destruct (exact_algebra_exact (NDec (Dec false 25 (-1))) (NInt 3)) as [_ H].
  destruct (H eq_refl eq_refl eq_refl) as [(s & Hs & Hv) _].
  exists s. split; [exact Hs|]. rewrite Hv. by apply Qc_is_canon.
Defined.

(** [exact_decimal_divide] answers [None] only for quotients that no
    [Decimal] denotes; a [Decimal] it does return is the quotient only when the
    denominator has as many factors two as factors five (or the quotient is
    zero), because the two exponents are exchanged in the scaling. *)
Theorem exact_decimal_divide_characterised l r result :
  exact_decimal_divide l r = Ok result →
  let q := (num_value l / num_value r)%Qc in
  match result with
  | None => ∀ d, dec_value d ≠ q
  | Some d => ∃ k2 k5, 0 <= k2 ∧ 0 <= k5 ∧ Z.pos (Qden q) = 2 ^ k2 * 5 ^ k5
                ∧ (dec_value d = q ↔ q = 0%Qc ∨ k2 = k5)
  end.
Proof.
  intros H q. destruct result as [d|]; [|by apply exact_decimal_divide_none].
  destruct (exact_decimal_divide_value _ _ _ H) as (k2 & k5 & H2 & H5 & Hden & Hv).
  fold q in Hden, Hv. exists k2, k5. split_and!; try done.
  assert (Hq : (q * qz (2 ^ k2 * 5 ^ k5))%Qc = qz (Qnum q)).
  { rewrite <- Hden. unfold qz. apply Qc_is_canon. cbn [this Q2Qc Qcmult].
    rewrite !Qred_correct. destruct q as [[n p] ?]; cbn. unfold Qeq; cbn. lia. }
  split.
  - intros Hd. rewrite Hd, <- Hq in Hv. destruct (decide (q = 0%Qc)) as [|Hne]; [by left|].
    right. symmetry. apply (pow_two_five_cross k5 k2); auto. apply qz_inj.
    assert (Hi : ∀ t, (/ q * (q * t))%Qc = t) by (intros; field; done).
    rewrite <- (Hi (qz (2 ^ k5 * 5 ^ k2))), <- (Hi (qz (5 ^ k5 * 2 ^ k2))).
    rewrite (Z.mul_comm (2 ^ k5)), (Z.mul_comm (5 ^ k5)). by rewrite Hv.
  - assert (Hne : qz (5 ^ k2 * 2 ^ k5) ≠ 0%Qc).
    { apply qz_neq0. assert (0 < 5 ^ k2) by (apply Z.pow_pos_nonneg; lia).
      assert (0 < 2 ^ k5) by (apply Z.pow_pos_nonneg; lia). nia. }
    assert (Hc : ∀ t, (dec_value d * qz (5 ^ k2 * 2 ^ k5) = t * qz (5 ^ k2 * 2 ^ k5))%Qc →
                 dec_value d = t).
    { intros t Ht. apply (f_equal (fun z => z / qz (5 ^ k2 * 2 ^ k5))%Qc) in Ht.
      by rewrite !Qcdiv_mult_l in Ht by done. }
    intros [Hz| ->]; apply Hc.
    + rewrite Hv, Hz. change (qz (Qnum 0%Qc)) with 0%Qc. ring.
    + rewrite Hv, <- Hq. f_equal. f_equal. apply Z.mul_comm.
Qed.

Lemma exact_decimal_divide_characterised_witness :
  exact_decimal_divide (NDec (Dec false 1 0)) (NInt 3) = Ok None
  ∧ ∀ d, dec_value d ≠ (num_value (NDec (Dec false 1 0)) / num_value (NInt 3))%Qc.
Proof.
  split; [vm_compute; reflexivity|].
  apply (exact_decimal_divide_characterised _ _ None). vm_compute. reflexivity.
Defined.

(** One divided by two comes out as [Decimal('0.2')]. *)
Theorem decimal_half_is_one_fifth :
  exact_divide (NInt 1) (NDec (Dec false 2 0)) = Ok (NDec (Dec false 2 (-1)))
  ∧ dec_value (Dec false 2 (-1)) = Q2Qc (1 # 5).
Proof. split; [reflexivity | by apply Qc_is_canon]. Qed.

(** Every finite number survives the round trip through its scalar literal
    unchanged, kind included, a literal is its own literal, and non-finite
    floats and [bool]s are refused. *)
Theorem literal_roundtrip x l b :
  (match x with NFlt f => is_finite f | _ => true end = true →
     (l ← scalar_literal (py_of_num x); to_python l) = Ok x
     ∧ exact_number (py_of_num x) = Ok x ∧ exact_fraction (py_of_num x) = Ok (num_value x))
  ∧ (match x with NFlt f => is_finite f | _ => true end = false →
     scalar_literal (py_of_num x) = Err ValueError)
  ∧ scalar_literal (PyLiteral l) = Ok l
  ∧ scalar_literal (PyBool b) = Err TypeError.
Proof.
  split_and!; try done; intros Hx.
  - split_and!.
    + rewrite from_value_num, Hx. by destruct x.
    + by rewrite exact_number_num, Hx.
    + by apply exact_fraction_num.
  - by rewrite from_value_num, Hx.
Qed.

Lemma literal_roundtrip_witness :
  exact_number (py_of_num (NDec (Dec true 15 (-1)))) = Ok (NDec (Dec true 15 (-1)))
  ∧ scalar_literal (py_of_num (NFlt S754_nan)) = Err ValueError.
Proof.
  split.
  - apply (literal_roundtrip (NDec (Dec true 15 (-1))) (Literal (PInteger 0) None None None) true).
    reflexivity.
  - apply (literal_roundtrip (NFlt S754_nan) (Literal (PInteger 0) None None None) true).
    reflexivity.
Defined.

(** [positive_scalar_literal] accepts a number exactly when it is finite
    and its exact value is positive, and returns its literal; every other
    number is a [ValueError]. *)
Theorem positive_scalar_literal_spec x :
  let finite := match x with NFlt f => is_finite f | _ => true end in
  (is_ok (positive_scalar_literal (py_of_num x)) = true
     ↔ finite = true ∧ (0 < num_value x)%Qc)
  ∧ (∀ l, positive_scalar_literal (py_of_num x) = Ok l → to_python l = Ok x)
  ∧ (∀ e, positive_scalar_literal (py_of_num x) = Err e → e = ValueError).
Proof.
  cbn zeta. unfold positive_scalar_literal. rewrite from_value_num.
  destruct (match x with NFlt f => is_finite f | _ => true end) eqn:Hf.
  - pose proof (num_positive_value x Hf) as Hp.
    destruct x as [z|q|d|f]; cbn [as_value_error mbind res_bind to_python l_payload];
      (destruct (num_positive _) eqn:E; cbn [require mbind res_bind is_ok];
       [ split_and!; [| intros l Hl; by inv_ok | done]; split; [by rewrite <- Hp | done]
       | split_and!; [| done | congruence]; split; [done | intros [_ H]; by apply Hp in H] ]).
  - cbn. split_and!; [split; [done | by intros [? _]] | done | congruence].
Qed.

Lemma positive_scalar_literal_spec_witness :
  to_python (Literal (PRational (Q2Qc (1 # 4))) None None None) = Ok (NFrac (Q2Qc (1 # 4))).
Proof.
  destruct (positive_scalar_literal_spec (NFrac (Q2Qc (1 # 4)))) as (_ & H & _).
  apply H. reflexivity.
Defined.
