(* ===== verification/Coeff.v ===== *)
(** * The affine coefficient algebra of Program values

    [_Coeff], [_Affine] and [_Operator] of [python/pops/time/values.py]: exact
    polynomials in [dt], and the affine combinations of field values they
    weigh.  A program value is named by its SSA id. *)
From S2P Require Import Prelude Binary64 Scalar.

(** ** [_Coeff]: [power -> scalar], an ordered dict *)

Definition coeff := list (Z * pynum).

(** [_Coeff.__init__]: normalises each number, drops exact zeros. *)
Definition mk_coeff (powers : list (Z * pynum)) : res coeff :=
  fold_res (fun exact '(power, c) =>
      value ← exact_number (py_of_num c);
      Ok (if num_nonzero value then dset power value exact else exact)) [] powers.

Definition coeff_const (x : pynum) : res coeff := mk_coeff [(0, x)].
Definition coeff_dt : coeff := [(1, NInt 1)].

(** [out[p] = _exact_add(out.get(p, 0), c)]. *)
Definition accumulate (out : list (Z * pynum)) (p : Z) (c : pynum) : res (list (Z * pynum)) :=
  s ← exact_add (default (NInt 0) (dget p out)) c;
  Ok (dset p s out).

Definition coeff_add (a b : coeff) : res coeff :=
  out ← fold_res (fun out '(p, c) => accumulate out p c) a b;
  mk_coeff out.

Definition coeff_neg (a : coeff) : res coeff :=
  out ← map_res (fun '(p, c) => n ← exact_negate (py_of_num c); Ok (p, n)) a;
  mk_coeff out.

Definition coeff_sub (a b : coeff) : res coeff := n ← coeff_neg b; coeff_add a n.

(** [_Coeff.__mul__]: by a number, and by another coefficient. *)
Definition coeff_scale (a : coeff) (x : pynum) : res coeff :=
  out ← map_res (fun '(p, c) => m ← exact_multiply c x; Ok (p, m)) a;
  mk_coeff out.

Definition coeff_mul (a b : coeff) : res coeff :=
  out ← fold_res (fun out '(p1, c1) =>
          fold_res (fun out '(p2, c2) =>
            product ← exact_multiply c1 c2;
            accumulate out (p1 + p2) product) out b) [] a;
  mk_coeff out.

(** [_Coeff.__truediv__] by a number. *)
Definition coeff_div (a : coeff) (x : pynum) : res coeff :=
  out ← map_res (fun '(p, c) => m ← exact_divide c x; Ok (p, m)) a;
  mk_coeff out.

(** ** [_Affine] *)

Definition affine := list (nat * coeff).

Section Affine.
Context {C : Type} `{EqDecision C}.

(** The logical clock owning each value. *)
Context (clock_of : nat → C).

(** [_Affine.__init__]: at most one clock. *)
Definition mk_affine (terms : list (nat * coeff)) : res affine :=
  match map (fun t => clock_of t.1) terms with
  | [] => Ok terms
  | c :: cs => if forallb (fun c' => bool_decide (c = c')) cs then Ok terms else Err ValueError
  end.

(** [_Affine._merge]: one term per value, in first-seen order. *)
Definition merge_step (acc : list (nat * coeff)) (t : nat * coeff) : res (list (nat * coeff)) :=
  match dget t.1 acc with
  | None => Ok (dset t.1 t.2 acc)
  | Some c => s ← coeff_add c t.2; Ok (dset t.1 s acc)
  end.

Definition affine_merge (a : affine) : res (list (nat * coeff)) := fold_res merge_step [] a.

Definition affine_value (v : nat) : affine := [(v, [(0, NInt 1)])].

Definition affine_add (a b : affine) : res affine := mk_affine (a ++ b).

Definition affine_neg (a : affine) : res affine :=
  terms ← map_res (fun '(v, c) => n ← coeff_neg c; Ok (v, n)) a; mk_affine terms.

Definition affine_sub (a b : affine) : res affine := n ← affine_neg b; mk_affine (a ++ n).

Definition affine_mul (a : affine) (x : coeff) : res affine :=
  terms ← map_res (fun '(v, c) => n ← coeff_mul c x; Ok (v, n)) a; mk_affine terms.

Definition affine_div (a : affine) (x : pynum) : res affine :=
  terms ← map_res (fun '(v, c) => n ← coeff_div c x; Ok (v, n)) a; mk_affine terms.
End Affine.

(** ** [_Operator]: [c_I * I + sum_k c_k * L_k] *)
Record operator := Operator { op_identity : coeff; op_terms : list (nat * coeff) }.

Definition neg_terms (l : list (nat * coeff)) : res (list (nat * coeff)) :=
  map_res (fun '(v, c) => n ← coeff_neg c; Ok (v, n)) l.

Definition operator_add (a b : operator) : res operator :=
  i ← coeff_add (op_identity a) (op_identity b); Ok (Operator i (op_terms a ++ op_terms b)).

Definition operator_sub (a b : operator) : res operator :=
  i ← coeff_sub (op_identity a) (op_identity b);
  t ← neg_terms (op_terms b);
  Ok (Operator i (op_terms a ++ t)).

Definition operator_neg (a : operator) : res operator :=
  i ← coeff_neg (op_identity a); t ← neg_terms (op_terms a); Ok (Operator i t).

Definition operator_mul (a : operator) (x : coeff) : res operator :=
  i ← coeff_mul (op_identity a) x;
  t ← map_res (fun '(v, c) => n ← coeff_mul c x; Ok (v, n)) (op_terms a);
  Ok (Operator i t).

(** ** Denotation *)

Definition qpow (q : Qc) (p : Z) : Qc := Qcpower q (Z.to_nat p).

Definition coeff_eval (dt : Qc) (c : list (Z * pynum)) : Qc :=
  qsum (map (fun t => num_value t.2 * qpow dt t.1)%Qc c).

(** The value of an affine combination, given the value of each program value
    (one component of one cell). *)
Definition affine_eval (dt : Qc) (env : nat → Qc) (a : affine) : Qc :=
  qsum (map (fun t => coeff_eval dt t.2 * env t.1)%Qc a).

(** Exact coefficients: non-negative powers, no binary64 number. *)
Definition exact_coeff (c : list (Z * pynum)) : Prop :=
  Forall (fun t => 0 <= t.1 ∧ is_float t.2 = false) c.

(** ** Lemmas *)

(** Well-formed exact polynomials. *)
Definition wf_coeff (c : list (Z * pynum)) : Prop := exact_coeff c ∧ NoDup (dkeys c).

(** Coefficients over [int] and [Fraction] only: the domain on which the
    algebra never raises. *)
Definition is_ratio (x : pynum) : bool := match x with NInt _ | NFrac _ => true | _ => false end.
Definition ratio_coeff (c : list (Z * pynum)) : Prop :=
  Forall (fun t => 0 <= t.1 ∧ is_ratio t.2 = true) c.

Lemma ratio_exact c : ratio_coeff c → exact_coeff c.
Proof.
  intros H. eapply Forall_impl; [exact H|]. intros [p x] [? Hx]; cbn in *. by destruct x.
Qed.

Lemma nonzero_value x : is_float x = false → num_nonzero x = false → num_value x = 0%Qc.
Proof.
  destruct x as [z|q|d|f]; cbn; intros Hf Hn; bools.
  - by subst.
  - by apply dec_stable.
  - apply N.eqb_eq in Hn. unfold dec_value, dec_signed. rewrite Hn.
    change (qz (if dec_neg d then - Z.of_N 0 else Z.of_N 0))
      with (qz (if dec_neg d then 0 else 0)).
    destruct (dec_neg d); change (qz 0) with 0%Qc; ring.
  - done.
Qed.

Lemma exact_number_exact x : is_float x = false → exact_number (py_of_num x) = Ok x.
Proof. intros. rewrite exact_number_num. by destruct x. Qed.

Lemma coeff_eval_cons dt t c :
  coeff_eval dt (t :: c) = (num_value t.2 * qpow dt t.1 + coeff_eval dt c)%Qc.
Proof. unfold coeff_eval; cbn [map]. by rewrite qsum_cons. Qed.

Lemma coeff_eval_nil dt : coeff_eval dt [] = 0%Qc.
Proof. done. Qed.

#[export] Hint Rewrite coeff_eval_nil coeff_eval_cons : pops.

Lemma coeff_eval_dset dt p v d :
  (coeff_eval dt (dset p v d)
   = coeff_eval dt d + (num_value v - num_value (default (NInt 0) (dget p d))) * qpow dt p)%Qc.
Proof.
  induction d as [|[p' v'] d IH]; cbn [dset dget default].
  - autorewrite with pops; cbn. change (qz 0) with 0%Qc. ring.
  - case_decide; subst; autorewrite with pops; cbn [fst snd]; [|rewrite IH]; cbn; ring.
Qed.

Lemma exact_coeff_dset p v d :
  exact_coeff d → 0 <= p → is_float v = false → exact_coeff (dset p v d).
Proof.
  intros Hd Hp Hv. induction Hd as [|[p' v'] d H Hd IH]; cbn; [by repeat constructor|].
  case_decide; subst; constructor; auto.
Qed.

Lemma exact_coeff_dget p d : exact_coeff d → is_float (default (NInt 0) (dget p d)) = false.
Proof.
  intros Hd. destruct (dget p d) eqn:E; [|done]. cbn. apply dget_Some_elem in E.
  by destruct (proj1 (Forall_forall _ _) Hd _ E).
Qed.

Lemma accumulate_spec dt out p c out' :
  wf_coeff out → 0 <= p → is_float c = false → accumulate out p c = Ok out' →
  wf_coeff out' ∧ coeff_eval dt out' = (coeff_eval dt out + num_value c * qpow dt p)%Qc.
Proof.
  intros [Ho Hn] Hp Hc H. unfold accumulate in H. inv_ok.
  apply exact_add_value in E as [Hv Hf]; auto using exact_coeff_dget.
  split; [split; eauto using exact_coeff_dset with pops|].
  rewrite coeff_eval_dset, Hv. ring.
Qed.

(** A loop whose body adds the value [w x] of each element keeps a
    well-formed polynomial and adds the total. *)
Lemma fold_coeff_spec {A} (f : list (Z * pynum) → A → res (list (Z * pynum)))
    (w : A → Qc) dt l out out' :
  (∀ x o o', x ∈ l → wf_coeff o → f o x = Ok o' →
     wf_coeff o' ∧ coeff_eval dt o' = (coeff_eval dt o + w x)%Qc) →
  wf_coeff out → fold_res f out l = Ok out' →
  wf_coeff out' ∧ coeff_eval dt out' = (coeff_eval dt out + qsum (map w l))%Qc.
Proof.
  revert out; induction l as [|x l IH]; intros out Hf Hw H; cbn in H.
  - inv_ok. split; [done|]. cbn. rewrite qsum_nil. ring.
  - inv_ok. destruct (Hf x out a) as [Hw1 He1]; [left | done | done |].
    destruct (IH a) as [Hw2 He2]; auto.
    { intros y o o' Hy. apply Hf. by right. }
    split; [done|]. rewrite He2, He1. cbn [map]. rewrite qsum_cons. ring.
Qed.

Lemma wf_coeff_nil : wf_coeff [].
Proof. split; [constructor | apply NoDup_nil_2]. Qed.
#[export] Hint Resolve wf_coeff_nil : pops.

Lemma mk_coeff_fold dt l acc c :
  exact_coeff l → NoDup (dkeys l) → wf_coeff acc → (∀ p, p ∈ dkeys l → p ∉ dkeys acc) →
  fold_res (fun exact '(power, c) =>
      value ← exact_number (py_of_num c);
      Ok (if num_nonzero value then dset power value exact else exact)) acc l = Ok c →
  wf_coeff c ∧ coeff_eval dt c = (coeff_eval dt acc + coeff_eval dt l)%Qc.
Proof.
  intros Hl. revert acc. induction Hl as [|[p x] l [Hp Hx] Hl IH]; intros acc Hnd Hacc Hdis H.
  - cbn in H. inv_ok. split; [done|]. autorewrite with pops. ring.
  - cbn [dkeys map fst] in Hnd. apply NoDup_cons in Hnd as [Hpl Hnd].
    cbn [fold_res mbind res_bind] in H. cbn [fst snd] in *.
    rewrite exact_number_exact in H by done. cbn [mbind res_bind] in H.
    assert (Hpa : p ∉ dkeys acc) by (apply Hdis; left).
    destruct (num_nonzero x) eqn:Ex.
    + destruct Hacc as [Hacc Hn].
      destruct (IH (dset p x acc)) as [Hw He]; auto.
      { split; eauto using exact_coeff_dset with pops. }
      { intros q Hq. rewrite dkeys_dset, decide_False by done.
        rewrite elem_of_app, list_elem_of_singleton.
        intros [Hin| ->]; [|done]. apply (Hdis q); [by right | done]. }
      split; [done|]. rewrite He, coeff_eval_dset. apply dget_None in Hpa. rewrite Hpa.
      autorewrite with pops. cbn. change (qz 0) with 0%Qc. ring.
    + destruct (IH acc) as [Hw He]; auto.
      { intros q Hq. apply Hdis. by right. }
      split; [done|]. rewrite He. autorewrite with pops. cbn [fst snd].
      rewrite nonzero_value by done. ring.
Qed.

Lemma mk_coeff_spec dt l c :
  wf_coeff l → mk_coeff l = Ok c → wf_coeff c ∧ coeff_eval dt c = coeff_eval dt l.
Proof.
  intros [Hl Hn] H. unfold mk_coeff in H.
  apply (mk_coeff_fold dt) in H as [Hw He]; auto with pops.
  - split; [done|]. rewrite He. autorewrite with pops. ring.
  - intros p _. apply not_elem_of_nil.
Qed.

Lemma coeff_eval_map dt c : coeff_eval dt c = qsum (map (fun t => num_value t.2 * qpow dt t.1)%Qc c).
Proof. done. Qed.

Lemma coeff_add_spec dt a b c :
  wf_coeff a → wf_coeff b → coeff_add a b = Ok c →
  wf_coeff c ∧ coeff_eval dt c = (coeff_eval dt a + coeff_eval dt b)%Qc.
Proof.
  intros Ha [Hb Hnb] H. unfold coeff_add in H. inv_ok.
  eapply (fold_coeff_spec _ (fun t => num_value t.2 * qpow dt t.1)%Qc dt) in E as [Hw He];
    [|intros [p x] o o' Hin Ho Hacc; cbn|done].
  - apply (mk_coeff_spec dt) in H as [Hc Hec]; [|done]. split; [done|].
    by rewrite Hec, He, coeff_eval_map.
  - destruct (proj1 (Forall_forall _ _) Hb _ Hin). by apply accumulate_spec.
Qed.

Lemma qpow_add dt p q : 0 <= p → 0 <= q → qpow dt (p + q) = (qpow dt p * qpow dt q)%Qc.
Proof.
  intros. unfold qpow. rewrite Z2Nat.inj_add by lia.
  induction (Z.to_nat p) as [|n IH]; cbn; [ring|]. rewrite IH. ring.
Qed.

Lemma qsum_scale (k : Qc) {A} (f : A → Qc) l :
  qsum (map (fun x => k * f x)%Qc l) = (k * qsum (map f l))%Qc.
Proof. induction l as [|x l IH]; cbn [map]; rewrite ?qsum_nil, ?qsum_cons, ?IH; ring. Qed.

Lemma qsum_ext {A} (f g : A → Qc) l :
  (∀ x, x ∈ l → f x = g x) → qsum (map f l) = qsum (map g l).
Proof.
  intros H. f_equal. apply map_ext_in. intros x Hx. apply H. by apply list_elem_of_In.
Qed.

Lemma coeff_mul_spec dt a b c :
  wf_coeff a → wf_coeff b → coeff_mul a b = Ok c →
  wf_coeff c ∧ coeff_eval dt c = (coeff_eval dt a * coeff_eval dt b)%Qc.
Proof.
  intros [Ha Hna] [Hb Hnb] H. unfold coeff_mul in H. inv_ok.
  eapply (fold_coeff_spec _
    (fun t => num_value t.2 * qpow dt t.1 * coeff_eval dt b)%Qc dt) in E as [Hw He];
    [|intros [p x] o o' Hin Ho Hacc; cbn|auto with pops].
  - apply (mk_coeff_spec dt) in H as [Hc Hec]; [|done]. split; [done|].
    rewrite Hec, He. autorewrite with pops.
    rewrite (qsum_ext _ (fun t => coeff_eval dt b * (num_value t.2 * qpow dt t.1))%Qc)
      by (intros; ring).
    rewrite qsum_scale, <- coeff_eval_map. ring.
  - destruct (proj1 (Forall_forall _ _) Ha _ Hin) as [Hp Hx]; cbn in *.
    eapply (fold_coeff_spec _
      (fun t => num_value x * qpow dt p * (num_value t.2 * qpow dt t.1))%Qc dt) in Hacc
      as [Hw He]; [|intros [q y] o1 o2 Hiny Ho1 Hs; cbn|done].
    + split; [done|]. by rewrite He, qsum_scale, <- coeff_eval_map.
    + destruct (proj1 (Forall_forall _ _) Hb _ Hiny) as [Hq Hy]; cbn in *.
      inv_ok. match goal with Hm : exact_multiply x y = Ok _ |- _ =>
        apply exact_multiply_value in Hm as [Hv Hf]; auto end.
      apply (accumulate_spec dt) in Hs as [? ->]; auto with lia.
      rewrite Hv, qpow_add by done. split; [done | ring].
Qed.

Lemma map_coeff_spec (f : pynum → res pynum) (k : Qc) dt a out c :
  (∀ p x y, (p, x) ∈ a → f x = Ok y → num_value y = (k * num_value x)%Qc ∧ is_float y = false) →
  wf_coeff a → map_res (fun '(p, x) => m ← f x; Ok (p, m)) a = Ok out → mk_coeff out = Ok c →
  wf_coeff c ∧ coeff_eval dt c = (k * coeff_eval dt a)%Qc.
Proof.
  intros Hf [Ha Hn] Hmap Hmk.
  assert (Hkeys : wf_coeff out ∧ dkeys out = dkeys a
                  ∧ coeff_eval dt out = (k * coeff_eval dt a)%Qc).
  { clear Hmk c. revert out Hmap. induction Ha as [|[p x] a [Hp Hx] Ha IH];
      intros out Hmap; cbn in Hmap.
    - inv_ok. split_and!; auto with pops. autorewrite with pops. ring.
    - destruct (f x) as [y|] eqn:Ey; [|discriminate Hmap]. cbn in Hmap. inv_ok.
      cbn in Hn. apply NoDup_cons in Hn as [? Hn].
      destruct (Hf p x y ltac:(left) Ey) as [Hv Hy].
      destruct (IH ltac:(intros; eapply Hf; [right|]; eauto) Hn _ eq_refl) as ([Hw Hnd] & Hk & He).
      unfold dkeys in Hk. split_and!.
      + split; [by constructor|]. cbn. apply NoDup_cons. by rewrite Hk.
      + unfold dkeys; cbn. by rewrite Hk.
      + autorewrite with pops. cbn [fst snd]. rewrite He, Hv. ring. }
  destruct Hkeys as (Hw & _ & He). apply (mk_coeff_spec dt) in Hmk as [? ->]; auto.
Qed.

Lemma wf_elem a p x : wf_coeff a → (p, x) ∈ a → 0 <= p ∧ is_float x = false.
Proof. intros [Ha _] Hin. exact (proj1 (Forall_forall _ _) Ha _ Hin). Qed.

Lemma exact_negate_value x y :
  is_float x = false → exact_negate (py_of_num x) = Ok y →
  num_value y = (- (1) * num_value x)%Qc ∧ is_float y = false.
Proof.
  intros Hx H. unfold exact_negate in H. rewrite exact_number_exact in H by done.
  cbn [mbind res_bind] in H. inv_ok. destruct x as [z|q|d|f]; [| | |done]; (split; [|done]);
    cbn [num_value].
  - rewrite qz_opp. generalize (qz z). intros. ring.
  - ring.
  - rewrite exact_decimal_negate_value. generalize (dec_value d). intros. ring.
Qed.

Lemma coeff_neg_spec dt a c :
  wf_coeff a → coeff_neg a = Ok c →
  wf_coeff c ∧ coeff_eval dt c = (- coeff_eval dt a)%Qc.
Proof.
  unfold coeff_neg. intros Ha H. inv_ok.
  eapply (map_coeff_spec (fun x => exact_negate (py_of_num x)) (- (1))%Qc dt) in H
    as [? ->]; eauto. all: try (split; [done | ring]).
  intros p x y Hin. apply exact_negate_value. by eapply wf_elem.
Qed.

Lemma coeff_scale_spec dt a x c :
  wf_coeff a → is_float x = false → coeff_scale a x = Ok c →
  wf_coeff c ∧ coeff_eval dt c = (num_value x * coeff_eval dt a)%Qc.
Proof.
  unfold coeff_scale. intros Ha Hx H. inv_ok.
  eapply (map_coeff_spec (fun c => exact_multiply c x) (num_value x) dt) in H; eauto.
  intros p u v Hin Huv. apply wf_elem in Hin as [? ?]; [|done].
  apply exact_multiply_value in Huv as [Hv ?]; auto.
  rewrite Hv. split; [ring | done].
Qed.

Lemma is_ratio_not_float x : is_ratio x = true → is_float x = false ∧ is_decimal x = false.
Proof. by destruct x. Qed.

(** Division by an [int] or a [Fraction] of an [int]/[Fraction] polynomial. *)
Lemma coeff_div_spec dt a x c :
  ratio_coeff a → NoDup (dkeys a) → is_ratio x = true → coeff_div a x = Ok c →
  wf_coeff c ∧ coeff_eval dt c = (coeff_eval dt a / num_value x)%Qc.
Proof.
  unfold coeff_div. intros Ha Hn Hx H. inv_ok.
  eapply (map_coeff_spec (fun c => exact_divide c x) (/ num_value x)%Qc dt) in H as [? He]; eauto.
  - split; [done|]. rewrite He. unfold Qcdiv. ring.
  - intros p u v Hin Huv.
    destruct (proj1 (Forall_forall _ _) Ha _ Hin) as [_ Hu]; cbn in Hu.
    apply is_ratio_not_float in Hu as [? ?], Hx as [? ?].
    apply exact_divide_fraction in Huv as [Hv ?]; auto.
    rewrite Hv. split; [unfold Qcdiv; ring | done].
  - split; [by apply ratio_exact | done].
Qed.

(** *** Totality on [int]/[Fraction] coefficients *)

Lemma exact_add_ratio a b :
  is_ratio a = true → is_ratio b = true → ∃ c, exact_add a b = Ok c ∧ is_ratio c = true.
Proof. destruct a, b; intros; try done; cbn; eauto. Qed.

Lemma exact_multiply_ratio a b :
  is_ratio a = true → is_ratio b = true → ∃ c, exact_multiply a b = Ok c ∧ is_ratio c = true.
Proof. destruct a, b; intros; try done; cbn; eauto. Qed.

Lemma ratio_dset p v d : ratio_coeff d → 0 <= p → is_ratio v = true → ratio_coeff (dset p v d).
Proof.
  intros Hd Hp Hv. induction Hd as [|[p' v'] d H Hd IH]; cbn; [by repeat constructor|].
  case_decide; subst; constructor; auto.
Qed.

Lemma ratio_dget p d : ratio_coeff d → is_ratio (default (NInt 0) (dget p d)) = true.
Proof.
  intros Hd. destruct (dget p d) eqn:E; [|done]. cbn. apply dget_Some_elem in E.
  by destruct (proj1 (Forall_forall _ _) Hd _ E).
Qed.

Lemma fold_ratio {A} (f : list (Z * pynum) → A → res (list (Z * pynum))) l out :
  (∀ x o, x ∈ l → ratio_coeff o → ∃ o', f o x = Ok o' ∧ ratio_coeff o') →
  ratio_coeff out → ∃ out', fold_res f out l = Ok out' ∧ ratio_coeff out'.
Proof.
  revert out; induction l as [|x l IH]; intros out Hf Ho; cbn; [eauto|].
  destruct (Hf x out) as (o & Hx & Hr); [left | done |]. rewrite Hx. cbn.
  apply IH; [|done]. intros. apply Hf; [by right | done].
Qed.

Lemma accumulate_ratio out p c :
  ratio_coeff out → 0 <= p → is_ratio c = true →
  ∃ out', accumulate out p c = Ok out' ∧ ratio_coeff out'.
Proof.
  intros Ho Hp Hc. unfold accumulate.
  destruct (exact_add_ratio _ c (ratio_dget p _ Ho) Hc) as (s & Hs & Hr).
  rewrite Hs. cbn. eauto using ratio_dset.
Qed.

Lemma mk_coeff_ratio l : ratio_coeff l → ∃ c, mk_coeff l = Ok c ∧ ratio_coeff c.
Proof.
  intros Hl. unfold mk_coeff. apply fold_ratio; [|constructor].
  intros [p x] o Hin Ho. destruct (proj1 (Forall_forall _ _) Hl _ Hin) as [Hp Hx]; cbn in *.
  rewrite exact_number_exact by by destruct x. cbn.
  eexists; split; [done|]. case_match; auto using ratio_dset.
Qed.

Lemma coeff_add_ratio a b :
  ratio_coeff a → ratio_coeff b → ∃ c, coeff_add a b = Ok c ∧ ratio_coeff c.
Proof.
  intros Ha Hb. unfold coeff_add.
  destruct (fold_ratio (fun out '(p, c) => accumulate out p c) b a) as (o & Ho & Hr); auto.
  - intros [p x] o Hin Ho. destruct (proj1 (Forall_forall _ _) Hb _ Hin).
    by apply accumulate_ratio.
  - rewrite Ho. cbn. by apply mk_coeff_ratio.
Qed.

Lemma coeff_mul_ratio a b :
  ratio_coeff a → ratio_coeff b → ∃ c, coeff_mul a b = Ok c ∧ ratio_coeff c.
Proof.
  intros Ha Hb. unfold coeff_mul.
  match goal with |- ∃ _, (fold_res ?f _ _ ≫= _) = _ ∧ _ =>
    destruct (fold_ratio f a []) as (o & Ho & Hr); [|constructor|] end.
  - intros [p x] o Hin Ho. destruct (proj1 (Forall_forall _ _) Ha _ Hin) as [Hp Hx]; cbn in *.
    apply fold_ratio; [|done]. intros [q y] o' Hin' Ho'.
    destruct (proj1 (Forall_forall _ _) Hb _ Hin') as [Hq Hy]; cbn in *.
    destruct (exact_multiply_ratio x y Hx Hy) as (z & Hz & Hrz). rewrite Hz. cbn.
    apply accumulate_ratio; auto with lia.
  - rewrite Ho. cbn. by apply mk_coeff_ratio.
Qed.

(** *** Affine combinations *)

Lemma affine_eval_nil dt env : affine_eval dt env [] = 0%Qc.
Proof. done. Qed.

Lemma affine_eval_cons dt env t a :
  affine_eval dt env (t :: a) = (coeff_eval dt t.2 * env t.1 + affine_eval dt env a)%Qc.
Proof. unfold affine_eval; cbn [map]. by rewrite qsum_cons. Qed.

Lemma affine_eval_app dt env a b :
  affine_eval dt env (a ++ b) = (affine_eval dt env a + affine_eval dt env b)%Qc.
Proof. unfold affine_eval. by rewrite map_app, qsum_app. Qed.

#[export] Hint Rewrite affine_eval_nil affine_eval_cons affine_eval_app : pops.

Definition wf_affine (a : affine) : Prop := Forall (fun t => wf_coeff t.2) a.

Lemma wf_affine_dset v c a : wf_affine a → wf_coeff c → wf_affine (dset v c a).
Proof.
  intros Ha Hc. unfold wf_affine.
  induction Ha as [|[v' c'] a H Ha IH]; cbn; [by apply Forall_singleton|].
  case_decide; subst; constructor; auto.
Qed.

Lemma affine_eval_dset dt env v c a :
  (affine_eval dt env (dset v c a)
   = affine_eval dt env a
     + (coeff_eval dt c - coeff_eval dt (default [] (dget v a))) * env v)%Qc.
Proof.
  induction a as [|[v' c'] a IH]; cbn [dset dget default].
  - autorewrite with pops; cbn. ring.
  - case_decide; subst; autorewrite with pops; cbn [fst snd]; [|rewrite IH]; cbn; ring.
Qed.

Lemma merge_step_spec dt env acc (t : nat * coeff) acc' :
  wf_affine acc → wf_coeff t.2 → merge_step acc t = Ok acc' →
  wf_affine acc' ∧ affine_eval dt env acc'
                   = (affine_eval dt env acc + coeff_eval dt t.2 * env t.1)%Qc.
Proof.
  intros Ha Ht H. unfold merge_step in H. destruct (dget t.1 acc) as [c|] eqn:E.
  - inv_ok. assert (wf_coeff c).
    { apply dget_Some_elem in E. exact (proj1 (Forall_forall _ _) Ha _ E). }
    match goal with Hc : coeff_add _ _ = Ok _ |- _ =>
      apply (coeff_add_spec dt) in Hc as [Hw He]; auto end.
    split; [auto using wf_affine_dset|].
    rewrite affine_eval_dset, E, He. unfold default, id. ring.
  - inv_ok. split; [auto using wf_affine_dset|].
    rewrite affine_eval_dset, E. unfold default, id.
    change (coeff_eval dt []) with 0%Qc. ring.
Qed.

Lemma merge_step_keys acc t acc' :
  merge_step acc t = Ok acc' →
  dkeys acc' = if decide (t.1 ∈ dkeys acc) then dkeys acc else dkeys acc ++ [t.1].
Proof.
  unfold merge_step. destruct (dget t.1 acc) eqn:E; intros H; inv_ok; apply dkeys_dset.
Qed.

Lemma affine_merge_spec dt env acc a out :
  wf_affine acc → wf_affine a → fold_res merge_step acc a = Ok out →
  wf_affine out ∧ affine_eval dt env out = (affine_eval dt env acc + affine_eval dt env a)%Qc.
Proof.
  intros Hacc Ha. revert acc Hacc. induction Ha as [|t a Ht Ha IH]; intros acc Hacc H; cbn in H.
  - inv_ok. split; [done|]. autorewrite with pops. ring.
  - inv_ok. apply (merge_step_spec dt env) in E as [Hw He]; auto.
    apply IH in H as [? He']; [|done]. split; [done|].
    rewrite He', He. autorewrite with pops. ring.
Qed.

(** The distinct ids of a list in first-seen order. *)
Definition see (seen : list nat) (v : nat) : list nat :=
  if decide (v ∈ seen) then seen else seen ++ [v].

Definition first_seen : list nat → list nat := foldl see [].

Lemma affine_merge_keys acc a out :
  fold_res merge_step acc a = Ok out → dkeys out = foldl see (dkeys acc) (map fst a).
Proof.
  revert acc; induction a as [|t a IH]; intros acc H; cbn in *; inv_ok; [done|].
  apply merge_step_keys in E. apply IH in H. by rewrite H, E.
Qed.

Lemma foldl_see_NoDup l acc : NoDup acc → NoDup (foldl see acc l).
Proof.
  revert acc. induction l as [|v l IH]; intros acc Hacc; cbn; [done|].
  apply IH. unfold see. case_decide; [done|].
  apply NoDup_app; split_and!; auto; [set_solver | apply NoDup_singleton].
Qed.

Lemma elem_of_foldl_see l acc v : v ∈ foldl see acc l ↔ v ∈ acc ∨ v ∈ l.
Proof.
  revert acc. induction l as [|w l IH]; intros acc; cbn; [set_solver|].
  rewrite IH. unfold see. case_decide; set_solver.
Qed.

Lemma coeff_neg_ratio a : ratio_coeff a → ∃ c, coeff_neg a = Ok c ∧ ratio_coeff c.
Proof.
  intros Ha. unfold coeff_neg.
  destruct (map_res_ok (fun '(p, c) => n ← exact_negate (py_of_num c); Ok (p, n)) a) as [o Ho].
  { intros [p x] Hin. destruct (proj1 (Forall_forall _ _) Ha _ Hin) as [_ Hx]; cbn in Hx.
    destruct x; try done; cbn; eauto. }
  rewrite Ho. cbn. apply mk_coeff_ratio.
  apply map_res_Forall2 in Ho. induction Ho as [|[p x] [p' y] a o Hxy Ho IH]; [constructor|].
  apply Forall_cons in Ha as [[Hp Hx] Ha]. constructor; [|by apply IH]. cbn [fst snd] in *.
  destruct x; try done; cbn in Hxy; inv_ok; simplify_eq; cbn; auto.
Qed.

(** Polynomials with non-negative powers and [int]/[Fraction] scalars. *)
Definition ratio_poly (a : coeff) : Prop := ratio_coeff a ∧ NoDup (dkeys a).

Lemma ratio_poly_wf a : ratio_poly a → wf_coeff a.
Proof. intros [? ?]. split; [by apply ratio_exact | done]. Qed.
#[export] Hint Resolve ratio_poly_wf : pops.

(** A fallible call returns a value satisfying [P]. *)
Definition returns {A} (m : res A) (P : A → Prop) : Prop := ∃ x, m = Ok x ∧ P x.

Definition returns_poly (m : res coeff) (value : Qc → Qc) : Prop :=
  returns m (fun c => ratio_poly c ∧ ∀ dt, coeff_eval dt c = value dt).

Lemma returns_poly_intro m value :
  (∃ c, m = Ok c ∧ ratio_coeff c) →
  (∀ dt c, m = Ok c → wf_coeff c ∧ coeff_eval dt c = value dt) → returns_poly m value.
Proof.
  intros (c & Hm & Hr) H. exists c. split_and!; try done.
  - split; [done|]. by destruct (H 0%Qc c Hm) as [[_ ?] _].
  - intros dt. by apply H.
Qed.

Lemma coeff_add_returns a b :
  ratio_poly a → ratio_poly b →
  returns_poly (coeff_add a b) (fun dt => coeff_eval dt a + coeff_eval dt b)%Qc.
Proof.
  intros Ha Hb. apply returns_poly_intro; [apply coeff_add_ratio; [apply Ha | apply Hb]|].
  intros. apply coeff_add_spec; auto with pops.
Qed.

Lemma coeff_neg_returns a :
  ratio_poly a → returns_poly (coeff_neg a) (fun dt => - coeff_eval dt a)%Qc.
Proof.
  intros Ha. apply returns_poly_intro; [apply coeff_neg_ratio, Ha|].
  intros. apply coeff_neg_spec; auto with pops.
Qed.

Lemma coeff_mul_returns a b :
  ratio_poly a → ratio_poly b →
  returns_poly (coeff_mul a b) (fun dt => coeff_eval dt a * coeff_eval dt b)%Qc.
Proof.
  intros Ha Hb. apply returns_poly_intro; [apply coeff_mul_ratio; [apply Ha | apply Hb]|].
  intros. apply coeff_mul_spec; auto with pops.
Qed.

Lemma coeff_sub_returns a b :
  ratio_poly a → ratio_poly b →
  returns_poly (coeff_sub a b) (fun dt => coeff_eval dt a - coeff_eval dt b)%Qc.
Proof.
  intros Ha Hb. destruct (coeff_neg_returns b Hb) as (n & Hn & Hp & Hv).
  destruct (coeff_add_returns a n Ha Hp) as (c & Hc & Hpc & Hvc).
  unfold coeff_sub. rewrite Hn. cbn. exists c. split_and!; auto.
  intros dt. rewrite Hvc, Hv. unfold Qcminus. done.
Qed.

(** Affine combinations with such coefficients. *)
Definition ratio_affine (a : affine) : Prop := Forall (fun t => ratio_poly t.2) a.

Lemma merge_total a acc :
  ratio_affine acc → ratio_affine a → ∃ out, fold_res merge_step acc a = Ok out ∧ ratio_affine out.
Proof.
  intros Hacc Ha. revert acc Hacc.
  induction Ha as [|[v c] a Hc Ha IH]; intros acc Hacc; cbn [fold_res]; [eauto|].
  unfold merge_step; cbn [fst snd]. assert (Hset : ∀ s, ratio_poly s → ratio_affine (dset v s acc)).
  { intros s Hs. clear IH. unfold ratio_affine in *.
    induction Hacc as [|[v' c'] acc H Hacc IH]; cbn; [by apply Forall_singleton|].
    case_decide; subst; constructor; auto. }
  destruct (dget v acc) as [c'|] eqn:E; cbn [mbind res_bind]; [|auto].
  apply dget_Some_elem in E. pose proof (proj1 (Forall_forall _ _) Hacc _ E) as Hc'.
  destruct (coeff_add_returns c' c Hc' Hc) as (s & Hs & Hp & _).
  rewrite Hs. cbn [mbind res_bind]. auto.
Qed.

Section Claims.
Context {C : Type} `{EqDecision C} (clock_of : nat → C).

(** All the values of a combination belong to one clock. *)
Definition one_clock (terms : affine) : Prop :=
  ∀ t t', t ∈ terms → t' ∈ terms → clock_of t.1 = clock_of t'.1.

Lemma mk_affine_spec terms out :
  mk_affine clock_of terms = Ok out ↔ out = terms ∧ one_clock terms.
Proof.
  unfold mk_affine. destruct terms as [|t terms]; cbn [map].
  { split; [intros; inv_ok; split; [done|] | by intros [-> _]].
    intros t t' H. by apply not_elem_of_nil in H. }
  destruct (forallb _ _) eqn:E.
  - split; [intros; inv_ok; split; [done|] | by intros [-> _]].
    assert (Hall : ∀ t', t' ∈ t :: terms → clock_of t.1 = clock_of t'.1).
    { intros t' [->|Ht']%elem_of_cons; [done|]. rewrite forallb_forall in E.
      eapply bool_decide_eq_true_1, E, list_elem_of_In, list_elem_of_fmap. eauto. }
    intros t1 t2 H1 H2. by rewrite <- (Hall t1), <- (Hall t2).
  - split; [done|]. intros [_ Ho]. exfalso. apply not_true_iff_false in E. apply E.
    apply forallb_forall. intros c (t' & -> & Ht')%list_elem_of_In%list_elem_of_fmap.
    apply bool_decide_eq_true_2, Ho; [left | by right].
Qed.

Lemma affine_map_total (f : coeff → res coeff) (k : Qc → Qc → Qc) (a : affine) :
  (∀ x, ratio_poly x → returns_poly (f x) (fun dt => k dt (coeff_eval dt x))) →
  (∀ dt e x y, (k dt (x) * e + k dt y = k dt (x * e + y))%Qc) → (∀ dt, k dt 0%Qc = 0%Qc) →
  ratio_affine a →
  ∃ out, map_res (fun '(v, x) => n ← f x; Ok (v, n)) a = Ok out
    ∧ ratio_affine out ∧ dkeys out = dkeys a
    ∧ ∀ dt env, affine_eval dt env out = k dt (affine_eval dt env a).
Proof.
  intros Hf Hk Hz Ha. induction Ha as [|[v x] a Hx Ha IH]; cbn [map_res].
  - exists []. split_and!; [done | constructor | done |]. intros.
    autorewrite with pops. by rewrite Hz.
  - destruct IH as (out & Ho & Hr & Hco & He).
    destruct (Hf x Hx) as (y & Hy & Hpy & Hey).
    rewrite Hy; cbn [mbind res_bind]. rewrite Ho; cbn [mbind res_bind].
    eexists; split; [done|]. split_and!.
    + by constructor.
    + unfold dkeys in *; cbn. by rewrite Hco.
    + intros dt env. autorewrite with pops. cbn [fst snd]. by rewrite He, Hey, Hk.
Qed.
End Claims.

(** ** Claims *)

(** On polynomials over [int] and [Fraction] with non-negative powers, the
    coefficient operators never raise, stay in that class with one entry per
    power, and denote the ring operations on the polynomial values in [dt]. *)
Theorem coeff_ring_operations a b :
  ratio_poly a → ratio_poly b →
  returns_poly (coeff_add a b) (fun dt => coeff_eval dt a + coeff_eval dt b)%Qc
  ∧ returns_poly (coeff_sub a b) (fun dt => coeff_eval dt a - coeff_eval dt b)%Qc
  ∧ returns_poly (coeff_mul a b) (fun dt => coeff_eval dt a * coeff_eval dt b)%Qc
  ∧ returns_poly (coeff_neg a) (fun dt => - coeff_eval dt a)%Qc.
Proof.
  intros. split_and!;
    auto using coeff_add_returns, coeff_sub_returns, coeff_mul_returns, coeff_neg_returns.
Qed.

Lemma half_dt_poly : ratio_poly [(0, NFrac (1/2)%Qc); (1, NInt 3)].
Proof. split; repeat constructor; cbn; try done; set_solver by lia. Qed.

Lemma coeff_ring_operations_witness :
  let a := [(0, NFrac (1/2)%Qc); (1, NInt 3)] in
  returns_poly (coeff_mul a a) (fun dt => coeff_eval dt a * coeff_eval dt a)%Qc.
Proof. apply (coeff_ring_operations _ _ half_dt_poly half_dt_poly). Defined.

(** [_merge] leaves one term per program value, in first-seen order, and
    never changes what the affine combination evaluates to, whatever the time
    step and the field values. *)
Theorem affine_merge_canonical a :
  ratio_affine a →
  ∃ out, affine_merge a = Ok out
    ∧ dkeys out = first_seen (map fst a) ∧ NoDup (dkeys out)
    ∧ (∀ v, v ∈ dkeys out ↔ v ∈ map fst a)
    ∧ ∀ dt env, affine_eval dt env out = affine_eval dt env a.
Proof.
  intros Ha. assert (H0 : ratio_affine []) by constructor.
  destruct (merge_total a [] H0 Ha) as (out & Ho & _). exists out.
  pose proof (affine_merge_keys _ _ _ Ho) as Hk. split_and!; try done.
  - rewrite Hk. apply foldl_see_NoDup, NoDup_nil_2.
  - intros v. rewrite Hk, elem_of_foldl_see. set_solver.
  - intros dt env. apply (affine_merge_spec dt env) in Ho as [_ ->].
    + autorewrite with pops. ring.
    + constructor.
    + eapply Forall_impl; [exact Ha|]. auto with pops.
Qed.

Lemma affine_merge_canonical_witness :
  ∃ out, affine_merge [(4%nat, [(1, NInt 1)]); (2%nat, [(0, NInt 1)]); (4%nat, [(1, NInt 2)])] = Ok out
    ∧ dkeys out = [4%nat; 2%nat].
Proof.
  destruct (affine_merge_canonical
    [(4%nat, [(1, NInt 1)]); (2%nat, [(0, NInt 1)]); (4%nat, [(1, NInt 2)])]) as (out & Ho & Hk & _).
  - repeat constructor; cbn; try done; set_solver by lia.
  - exists out. split; [exact Ho | exact Hk].
Defined.

(** The affine operators succeed exactly when every value they combine
    belongs to one clock, and then denote the vector-space operations;
    combining two clocks is a [ValueError]. *)
Theorem affine_operations {C} `{EqDecision C} (clock_of : nat → C) a b x :
  ratio_affine a → ratio_affine b → ratio_poly x →
  (one_clock clock_of (a ++ b) →
    (∃ s, affine_add clock_of a b = Ok s
       ∧ ∀ dt env, affine_eval dt env s = (affine_eval dt env a + affine_eval dt env b)%Qc)
    ∧ (∃ s, affine_sub clock_of a b = Ok s
       ∧ ∀ dt env, affine_eval dt env s = (affine_eval dt env a - affine_eval dt env b)%Qc)
    ∧ (∃ s, affine_mul clock_of a x = Ok s
       ∧ ∀ dt env, affine_eval dt env s = (affine_eval dt env a * coeff_eval dt x)%Qc))
  ∧ (¬ one_clock clock_of (a ++ b) → affine_add clock_of a b = Err ValueError).
Proof.
  intros Ha Hb Hx.
  assert (Hkeys : ∀ l l' : affine, dkeys l = dkeys l' → one_clock clock_of l → one_clock clock_of l').
  { intros l l' Hk Ho [v c] [v' c'] Hv Hv'.
    apply (list_elem_of_fmap_2 fst) in Hv, Hv'. change (v ∈ dkeys l') in Hv. change (v' ∈ dkeys l') in Hv'.
    rewrite <- Hk in Hv, Hv'. apply list_elem_of_fmap in Hv as (t & Ht & ?), Hv' as (t' & Ht' & ?).
    cbn in *. subst. by apply Ho. }
  split.
  - intros Ho. split_and!.
    + exists (a ++ b). split; [by apply mk_affine_spec|]. intros. apply affine_eval_app.
    + destruct (affine_map_total coeff_neg (fun _ q => - q)%Qc b) as (n & Hn & _ & Hk & He);
        [apply coeff_neg_returns | intros; ring | intros; ring | done |].
      unfold affine_sub, affine_neg. rewrite Hn. cbn [mbind res_bind].
      assert (one_clock clock_of n).
      { apply (Hkeys b); [done|]. intros t t' ? ?. apply Ho; set_solver. }
      rewrite (proj2 (mk_affine_spec clock_of n n)) by done. cbn [mbind res_bind].
      exists (a ++ n). split.
      * apply mk_affine_spec. split; [done|]. apply (Hkeys (a ++ b)); [|done].
        unfold dkeys in *. rewrite !map_app. by f_equal.
      * intros. rewrite affine_eval_app, He. unfold Qcminus. done.
    + destruct (affine_map_total (fun c => coeff_mul c x) (fun dt q => q * coeff_eval dt x)%Qc a)
        as (n & Hn & _ & Hk & He);
        [intros; by apply coeff_mul_returns | intros; ring | intros; ring | done |].
      unfold affine_mul. rewrite Hn. cbn [mbind res_bind]. exists n. split; [|done].
      apply mk_affine_spec. split; [done|]. apply (Hkeys a); [done|].
      intros t t' ? ?. apply Ho; set_solver.
  - intros Ho. unfold affine_add. destruct (mk_affine clock_of (a ++ b)) as [s|e] eqn:E.
    + apply mk_affine_spec in E as [_ ?]. done.
    + unfold mk_affine in E. by repeat (case_match; simplify_eq).
Qed.

Lemma affine_operations_witness :
  (∃ s, affine_mul (fun _ => 0%nat) [(1%nat, [(1, NInt 2)])] [(0, NInt 3)] = Ok s)
  ∧ affine_add (fun v => v) [(1%nat, [(1, NInt 2)])] [(2%nat, [(0, NInt 1)])] = Err ValueError.
Proof.
  assert (Ha : ratio_affine [(1%nat, [(1, NInt 2)])]).
  { repeat constructor; cbn; try done; set_solver by lia. }
  assert (Hb : ratio_affine [(2%nat, [(0, NInt 1)])]).
  { repeat constructor; cbn; try done; set_solver by lia. }
  assert (Hx : ratio_poly [(0, NInt 3)]).
  { split; repeat constructor; cbn; try done; set_solver by lia. }
  split.
  - destruct (affine_operations (fun _ => 0%nat) _ _ _ Ha Hb Hx) as [H _].
    destruct H as (_ & _ & s & Hs & _); [by intros ? ? ? ?|]. by exists s.
  - apply (affine_operations (fun v => v) _ _ _ Ha Hb Hx). intros Ho.
    specialize (Ho (1%nat, [(1, NInt 2)]) (2%nat, [(0, NInt 1)])). cbn in Ho.
    enough (1%nat = 2%nat) by done. apply Ho; set_solver.
Defined.
