(* ===== verification/Tableau.v ===== *)
(** * Runge--Kutta tableaux and their certificates

    [python/pops/time/_methods/tableau.py] (the validated coefficient arrays)
    and [python/pops/time/_methods/properties.py] (order, stability polynomial,
    SSP key, and the reconstruction of a tableau from a program graph), with the
    presets of [python/pops/lib/time/rk.py] and [ssprk.py]. *)
From S2P Require Import Prelude Binary64 Scalar Coeff.

(** ** Coefficient arrays *)

(** [tuple(values)]: a string iterates its characters. *)
Definition as_seq (v : pyval) : res (list pyval) :=
  match v with
  | PySeq l => Ok l
  | PyStr s => Ok (map (fun c => PyStr (String c EmptyString)) (list_ascii_of_string s))
  | _ => Err TypeError
  end.

Definition row_sum (row : list pynum) : Qc := qsum (map num_value row).

(** [_rows]: row [i] keeps [i + diagonal] coefficients; what a longer row holds
    beyond must be zero. *)
Definition row_at (stages : nat) (diagonal : bool) (i : nat) (raw : list pyval) : res (list pynum) :=
  let width := (i + if diagonal then 1 else 0)%nat in
  _ ← require (negb ((length raw <? width)%nat || (stages <? length raw)%nat)) ValueError;
  row ← map_res exact_coefficient raw;
  _ ← require (forallb (fun x => bool_decide (num_value x = 0%Qc)) (drop width row)) ValueError;
  Ok (take width row).

Definition rows (A : pyval) (stages : nat) (diagonal : bool) : res (list (list pynum)) :=
  items ← as_seq A;
  source ← map_res as_seq items;
  _ ← require (length source =? stages)%nat ValueError;
  map_res (fun '(i, raw) => row_at stages diagonal i raw) (zip (seq 0 (length source)) source).

(** [_weights]. *)
Definition weights (values : pyval) : res (list pynum) :=
  items ← as_seq values;
  result ← map_res exact_coefficient items;
  _ ← require (match result with [] => false | _ => true end) ValueError;
  Ok result.

(** [_nodes]: the row sums, or coefficients equal to them. *)
Definition nodes (rs : list (list pynum)) (c : pyval) : res (list pynum) :=
  let sums := map row_sum rs in
  match c with
  | PyNone => Ok (map NFrac sums)
  | _ =>
      result ← weights c;
      _ ← require (length result =? length rs)%nat ValueError;
      _ ← require (forallb (fun '(actual, expected) => bool_decide (num_value actual = expected))
                     (zip result sums)) ValueError;
      Ok result
  end.

Definition valid_name (name : pyval) : bool :=
  match name with PyNone => true | PyStr s => nonempty s | _ => false end.

Record tableau := Tableau {
  tab_A : list (list pynum);
  tab_b : list pynum;
  tab_c : list pynum;
  tab_name : pyval }.

(** [RungeKuttaTableau.__init__]. *)
Definition mk_runge_kutta (A b c name : pyval) : res tableau :=
  w ← weights b;
  rs ← rows A (length w) false;
  _ ← require (bool_decide (row_sum w = 1%Qc)) ValueError;
  _ ← require (valid_name name) ValueError;
  cs ← nodes rs c;
  Ok (Tableau rs w cs name).

(** [DiagonallyImplicitRungeKuttaTableau.__init__]. *)
Definition mk_dirk (A b c name : pyval) : res tableau :=
  w ← weights b;
  rs ← rows A (length w) true;
  _ ← require (bool_decide (row_sum w = 1%Qc)) ValueError;
  _ ← require (valid_name name) ValueError;
  cs ← nodes rs c;
  Ok (Tableau rs w cs name).

Definition stages (t : tableau) : nat := length (tab_b t).

(** [AdditiveRungeKuttaTableau.__init__]: an explicit tableau and the implicit
    arrays of the other partition. *)
Record additive := Additive { ark_explicit : tableau; ark_implicit : tableau }.

Definition mk_additive (explicit : tableau) (implicit_A implicit_b implicit_c name : pyval)
    : res additive :=
  w ← weights implicit_b;
  _ ← require (length w =? stages explicit)%nat ValueError;
  _ ← require (bool_decide (row_sum w = 1%Qc)) ValueError;
  rs ← rows implicit_A (length w) true;
  _ ← require (valid_name name) ValueError;
  cs ← nodes rs implicit_c;
  Ok (Additive explicit (Tableau rs w cs name)).

(** ** Exact analysis *)

(** [_dot] and [_matvec]; the lengths agree on the arrays of a tableau, so the
    strict [zip] never raises ([rk_wf_dense]). *)
Definition dot (left right : list Qc) : Qc := qsum (zip_with Qcmult left right).
Definition matvec (A : list (list Qc)) (x : list Qc) : list Qc := map (fun row => dot row x) A.

(** [_dense]: the square array, padded with zeros. *)
Definition dense (s : nat) (A : list (list pynum)) : list (list Qc) :=
  map (fun i => map (fun j =>
      match default [] (A !! i) !! j with Some x => num_value x | None => 0%Qc end)
    (seq 0 s)) (seq 0 s).

Inductive order := Order (n : nat) | UnknownOrder.

#[global] Instance order_eq_dec : EqDecision order.
Proof. solve_decision. Defined.

Definition q (n : Z) (d : positive) : Qc := Q2Qc (n # d).

(** [_proved_order]. *)
Definition proved_order (A : list (list Qc)) (b c : list Qc) : order :=
  if decide (qsum b = 1%Qc) then
    if decide (dot b c = q 1 2) then
      let Ac := matvec A c in
      let c2 := map (fun x => x * x)%Qc c in
      if decide (dot b c2 = q 1 3 ∧ dot b Ac = q 1 6) then
        let c3 := map (fun x => x * x * x)%Qc c in
        let Ac2 := matvec A c2 in
        let AAc := matvec A Ac in
        if decide (dot b c3 = q 1 4 ∧ dot b (zip_with Qcmult c Ac) = q 1 8
                   ∧ dot b Ac2 = q 1 12 ∧ dot b AAc = q 1 24)
        then Order 4 else Order 3
      else Order 2
    else Order 1
  else UnknownOrder.

(** [_stability]: [b^T A^k 1] for each stage, trailing zeros removed. *)
Fixpoint moments (n : nat) (A : list (list Qc)) (b vector : list Qc) : list Qc :=
  match n with
  | O => []
  | S n => dot b vector :: moments n A b (matvec A vector)
  end.

(** [while len(result) > 1 and result[-1] == 0: result.pop()]: the head of the
    list is never popped. *)
Fixpoint strip_zeros (l : list Qc) : list Qc :=
  match l with
  | [] => []
  | x :: l' =>
      match strip_zeros l' with
      | [] => if decide (x = 0%Qc) then [] else [x]
      | l'' => x :: l''
      end
  end.

Definition stability (A : list (list Qc)) (b : list Qc) : list Qc :=
  1%Qc :: strip_zeros (moments (length b) A b (map (fun _ => 1%Qc) b)).

(** [_KNOWN_SSP]: keys and coefficient. *)
Definition known_ssp : list (list (list Qc) * list Qc * list Qc * Qc) :=
  [ ([[0]], [1], [0], 1);
    ([[0; 0]; [1; 0]], [q 1 2; q 1 2], [0; 1], 1);
    ([[0; 0; 0]; [1; 0; 0]; [q 1 4; q 1 4; 0]], [q 1 6; q 1 6; q 2 3], [0; 1; q 1 2], 1) ]%Qc.

Definition ssp_of (A : list (list Qc)) (b c : list Qc) : option Qc :=
  snd <$> List.find (fun e => bool_decide (e.1 = (A, b, c))) known_ssp.

Record properties := Properties {
  p_order : order;
  p_abscissae : list Qc;
  p_stability : list Qc;
  p_weights : list Qc;
  p_ssp : option Qc }.

Record certificate := Certificate {
  cert_A : list (list Qc);
  cert_b : list Qc;
  cert_c : list Qc;
  cert_properties : properties }.

(** [_certificate_from_coefficients], [certify_runge_kutta], [analyze_runge_kutta]. *)
Definition certificate_from_coefficients (A : list (list Qc)) (b c : list Qc) : certificate :=
  Certificate A b c (Properties (proved_order A b c) c (stability A b) b (ssp_of A b c)).

Definition certify_runge_kutta (t : tableau) : certificate :=
  certificate_from_coefficients (dense (stages t) (tab_A t))
    (map num_value (tab_b t)) (map num_value (tab_c t)).

Definition analyze_runge_kutta (t : tableau) : properties :=
  let A := dense (stages t) (tab_A t) in
  let b := map num_value (tab_b t) in
  let c := map num_value (tab_c t) in
  Properties (proved_order A b c) c (stability A b) b (ssp_of A b c).

(** [certify_implicit_runge_kutta]: no stability polynomial. *)
Record implicit_certificate := ImplicitCertificate {
  ic_A : list (list Qc); ic_b : list Qc; ic_c : list Qc; ic_order : order }.

Definition certify_implicit_runge_kutta (t : tableau) : implicit_certificate :=
  let A := dense (stages t) (tab_A t) in
  let b := map num_value (tab_b t) in
  let c := map num_value (tab_c t) in
  ImplicitCertificate A b c (proved_order A b c).

(** [certify_additive_runge_kutta]. *)
Record additive_certificate := AdditiveCertificate {
  ac_explicit : certificate;
  ac_A : list (list Qc); ac_b : list Qc; ac_c : list Qc;
  ac_order : order }.

Definition certify_additive_runge_kutta (t : additive) : additive_certificate :=
  let explicit := certify_runge_kutta (ark_explicit t) in
  let A := dense (stages (ark_explicit t)) (tab_A (ark_implicit t)) in
  let b := map num_value (tab_b (ark_implicit t)) in
  let c := map num_value (tab_c (ark_implicit t)) in
  let explicit_c := p_abscissae (cert_properties explicit) in
  let ws := [p_weights (cert_properties explicit); b] in
  let order :=
    if forallb (fun w => forallb (fun n => bool_decide (dot w n = q 1 2)) [explicit_c; c]) ws
    then Order 2 else Order 1 in
  AdditiveCertificate explicit A b c order.

(** The presets of [lib/time]. *)
Definition frac (n : Z) (d : positive) : pyval := PyFraction (q n d).

Definition RK4_TABLEAU : res tableau :=
  mk_runge_kutta
    (PySeq [PySeq []; PySeq [frac 1 2]; PySeq [PyInt 0; frac 1 2]; PySeq [PyInt 0; PyInt 0; PyInt 1]])
    (PySeq [frac 1 6; frac 1 3; frac 1 3; frac 1 6])
    (PySeq [PyInt 0; frac 1 2; frac 1 2; PyInt 1]) (PyStr "rk4").

Definition SSPRK2_TABLEAU : res tableau :=
  mk_runge_kutta (PySeq [PySeq []; PySeq [PyInt 1]]) (PySeq [frac 1 2; frac 1 2])
    (PySeq [PyInt 0; PyInt 1]) (PyStr "ssprk2").

Definition SSPRK3_TABLEAU : res tableau :=
  mk_runge_kutta (PySeq [PySeq []; PySeq [PyInt 1]; PySeq [frac 1 4; frac 1 4]])
    (PySeq [frac 1 6; frac 1 6; frac 2 3]) (PySeq [PyInt 0; PyInt 1; frac 1 2]) (PyStr "ssprk3").

(** ** Well-formed tableaux *)

Definition num_finite (x : pynum) : bool :=
  match x with NFlt f => is_finite f | _ => true end.

(** What the constructors establish: one row per stage, row [i] of [i] (or
    [i + 1]) coefficients, weights summing to one, abscissae equal to the row
    sums. *)
Record tableau_wf (diagonal : bool) (t : tableau) : Prop := {
  wf_stages : (0 < stages t)%nat;
  wf_rows : length (tab_A t) = stages t;
  wf_width : ∀ i row, tab_A t !! i = Some row → length row = (i + if diagonal then 1 else 0)%nat;
  wf_sum : row_sum (tab_b t) = 1%Qc;
  wf_nodes : map num_value (tab_c t) = map row_sum (tab_A t);
  wf_name : valid_name (tab_name t) = true }.

Lemma weights_ok v w : weights v = Ok w → (0 < length w)%nat.
Proof. unfold weights. intros H. inv_ok. destruct w; cbn; [done | lia]. Qed.

Lemma rows_ok A s d rs :
  rows A s d = Ok rs →
  length rs = s ∧ ∀ i row, rs !! i = Some row → length row = (i + if d then 1 else 0)%nat.
Proof.
  unfold rows. intros H. inv_ok. bools. split.
  - apply map_res_length in H. rewrite H, length_zip, length_seq. lia.
  - intros i row Hi. apply map_res_Forall2 in H.
    destruct (Forall2_lookup_r _ _ _ _ _ H Hi) as ([j raw] & Hz & Hrow).
    apply lookup_zip_Some in Hz as [Hj Hraw]. apply lookup_seq in Hj as [-> _].
    cbn in Hrow. unfold row_at in Hrow. inv_ok. bools.
    match goal with Hm : map_res _ _ = Ok _ |- _ => apply map_res_length in Hm end.
    rewrite length_take. lia.
Qed.

Lemma zip_all_eq (l : list pynum) (m : list Qc) :
  length l = length m →
  forallb (fun '(a, e) => bool_decide (num_value a = e)) (zip l m) = true ↔ map num_value l = m.
Proof.
  revert m; induction l as [|x l IH]; intros [|y m] Hl; try done. cbn.
  rewrite andb_true_iff, bool_decide_eq_true, IH by (cbn in Hl; lia).
  split; [intros [-> ->]; done | intros; by simplify_eq].
Qed.

Lemma nodes_ok rs c cs : nodes rs c = Ok cs → map num_value cs = map row_sum rs.
Proof.
  assert (Hd : ∀ r, (result ← weights c;
                 _ ← require (length result =? length rs)%nat ValueError;
                 _ ← require (forallb (fun '(a, e) => bool_decide (num_value a = e))
                                (zip result (map row_sum rs))) ValueError; Ok result) = Ok r →
               map num_value r = map row_sum rs).
  { intros r H. inv_ok. bools. apply zip_all_eq; [by rewrite length_map | done]. }
  unfold nodes. destruct c; try by apply Hd.
  intros H. inv_ok. by rewrite map_map, map_id.
Qed.

Lemma mk_runge_kutta_wf A b c name t : mk_runge_kutta A b c name = Ok t → tableau_wf false t.
Proof.
  unfold mk_runge_kutta. intros H. inv_ok. bools.
  repeat match goal with
    | H : weights _ = Ok _ |- _ => apply weights_ok in H
    | H : rows _ _ _ = Ok _ |- _ => apply rows_ok in H as [? ?]
    | H : nodes _ _ = Ok _ |- _ => apply nodes_ok in H end.
  by split.
Qed.

Lemma mk_dirk_wf A b c name t : mk_dirk A b c name = Ok t → tableau_wf true t.
Proof.
  unfold mk_dirk. intros H. inv_ok. bools.
  repeat match goal with
    | H : weights _ = Ok _ |- _ => apply weights_ok in H
    | H : rows _ _ _ = Ok _ |- _ => apply rows_ok in H as [? ?]
    | H : nodes _ _ = Ok _ |- _ => apply nodes_ok in H end.
  by split.
Qed.

(** Reading back the coefficients of a tableau. *)
Definition py_row (row : list pynum) : pyval := PySeq (map py_of_num row).

Lemma exact_coefficient_num x :
  num_finite x = true → exact_coefficient (py_of_num x) = Ok x.
Proof.
  intros Hx. unfold exact_coefficient. rewrite from_value_num.
  unfold num_finite in Hx. rewrite Hx. by destruct x.
Qed.

Lemma map_exact_coefficient l :
  forallb num_finite l = true → map_res exact_coefficient (map py_of_num l) = Ok l.
Proof.
  induction l as [|x l IH]; [done|]. cbn [forallb map map_res]. intros [Hx Hl]%andb_true_iff.
  rewrite exact_coefficient_num, IH by done. done.
Qed.

Lemma weights_num l :
  forallb num_finite l = true → (0 < length l)%nat → weights (py_row l) = Ok l.
Proof.
  intros Hf Hl. unfold weights, py_row. cbn [as_seq mbind res_bind].
  rewrite map_exact_coefficient by done. destruct l; [cbn in Hl; lia | done].
Qed.

Lemma rows_num (A : list (list pynum)) (s : nat) (d : bool) :
  length A = s → (∀ i row, A !! i = Some row → length row = (i + if d then 1 else 0)%nat) →
  forallb (forallb num_finite) A = true → rows (PySeq (map py_row A)) s d = Ok A.
Proof.
  intros Hl Hw Hf. unfold rows. cbn [as_seq mbind res_bind].
  assert (Hseq : map_res as_seq (map py_row A) = Ok (map (map py_of_num) A)).
  { clear. induction A as [|r A IH]; [done|]. cbn. by rewrite IH. }
  rewrite Hseq. cbn [mbind res_bind]. rewrite length_map, Hl, Nat.eqb_refl. cbn [require mbind res_bind].
  apply map_res_Forall2, Forall2_same_length_lookup. split.
  { rewrite length_zip, length_seq, length_map. lia. }
  intros i [j raw] row Hz Hi. apply lookup_zip_Some in Hz as [Hj Hraw].
  apply lookup_seq in Hj as [-> Hlt]. cbn [Nat.add] in *.
  assert (Hraw' : raw = map py_of_num row).
  { rewrite list_lookup_fmap, Hi in Hraw. by simplify_eq/=. }
  subst raw. specialize (Hw _ _ Hi). unfold row_at. rewrite length_map, Hw.
  set (w := (i + if d then 1 else 0)%nat) in *.
  assert (Hlt' : (s <? w)%nat = false) by (apply Nat.ltb_ge; subst w; destruct d; lia).
  rewrite Nat.ltb_irrefl, Hlt'. cbn [negb orb require mbind res_bind].
  rewrite map_exact_coefficient.
  2:{ rewrite forallb_forall in Hf. apply Hf, list_elem_of_In. by eapply list_elem_of_lookup_2. }
  cbn [mbind res_bind]. rewrite drop_ge by lia. cbn. by rewrite take_ge by lia.
Qed.

Lemma nodes_num rs cs :
  forallb num_finite cs = true → (0 < length cs)%nat → map num_value cs = map row_sum rs →
  nodes rs (py_row cs) = Ok cs.
Proof.
  intros Hf Hl Hn. unfold nodes. cbn [py_row]. fold (py_row cs). rewrite weights_num by done.
  cbn [mbind res_bind].
  assert (Hlen : length cs = length rs) by (apply (f_equal length) in Hn; by rewrite !length_map in Hn).
  rewrite Hlen, Nat.eqb_refl. cbn [require mbind res_bind].
  assert (Hz := proj2 (zip_all_eq cs (map row_sum rs) ltac:(by rewrite length_map)) Hn).
  by rewrite Hz.
Qed.

Definition tableau_finite (t : tableau) : bool :=
  forallb (forallb num_finite) (tab_A t) && forallb num_finite (tab_b t)
  && forallb num_finite (tab_c t).

(** ** Execution of a tableau

    One step of the scheme on [y' = f t y], computed stage by stage as the
    programs of [lib/time/rk.py] do: stage [i] evaluates the rate at
    [t + c_i dt], on the state plus the weighted previous rates. *)
Section Step.
Context (f : Qc → Qc → Qc) (t dt y : Qc).

Fixpoint rk_stages (A : list (list Qc)) (c : list Qc) (ks : list Qc) : list Qc :=
  match A, c with
  | row :: A', ci :: c' =>
      rk_stages A' c' (ks ++ [f (t + ci * dt) (y + dt * dot row ks)%Qc])
  | _, _ => ks
  end.

Definition rk_step (A : list (list Qc)) (b c : list Qc) : Qc :=
  (y + dt * dot b (rk_stages A c []))%Qc.
End Step.

(** The value of a polynomial, constant coefficient first. *)
Definition poly_eval (z : Qc) (l : list Qc) : Qc := foldr (fun x acc => x + z * acc)%Qc 0%Qc l.

(** *** Vectors *)

Lemma dot_nil_r l : dot l [] = 0%Qc.
Proof. by destruct l. Qed.

Lemma dot_nil_l l : dot [] l = 0%Qc.
Proof. done. Qed.

Lemma dot_cons x l y m : dot (x :: l) (y :: m) = (x * y + dot l m)%Qc.
Proof. unfold dot; cbn. by rewrite qsum_cons. Qed.

Lemma dot_scale k r l : dot r (map (fun x => k * x)%Qc l) = (k * dot r l)%Qc.
Proof.
  revert r; induction l as [|x l IH]; intros [|z r]; cbn [map];
    rewrite ?dot_nil_r, ?dot_nil_l, ?dot_cons, ?IH; ring.
Qed.

Lemma dot_app r l x :
  (length l < length r)%nat → dot r (l ++ [x]) = (dot r l + default 0%Qc (r !! length l) * x)%Qc.
Proof.
  revert r; induction l as [|y l IH]; intros [|z r] H; cbn [length] in H; try lia.
  - cbn [app]. rewrite dot_cons, !dot_nil_r. unfold default, id; cbn. ring.
  - cbn [app lookup list_lookup length]. rewrite !dot_cons, IH by (cbn in *; lia). apply Qcplus_assoc.
Qed.

(** Entries beyond the prefix [i] are zero. *)
Definition zero_from (i : nat) (r : list Qc) : Prop :=
  ∀ j x, (i <= j)%nat → r !! j = Some x → x = 0%Qc.

Lemma dot_zero r l : zero_from 0 r → dot r l = 0%Qc.
Proof.
  revert l; induction r as [|z r IH]; intros [|x l] H; try done.
  rewrite dot_cons, IH.
  - rewrite (H 0%nat z) by done || lia. ring.
  - intros j y Hj Hy. by apply (H (S j) y ltac:(lia)).
Qed.

Lemma dot_take i r l : zero_from i r → dot r l = dot r (take i l).
Proof.
  revert r l; induction i as [|i IH]; intros r l H.
  - by rewrite take_0, dot_nil_r, dot_zero.
  - destruct r as [|z r], l as [|x l]; try done. cbn [take].
    rewrite !dot_cons, (IH r l); [done|].
    intros j y Hj Hy. by apply (H (S j) y ltac:(lia)).
Qed.

(** A dense explicit array: square, strictly lower triangular. *)
Record strictly_lower (s : nat) (A : list (list Qc)) : Prop := {
  sl_rows : length A = s;
  sl_cols : ∀ i r, A !! i = Some r → length r = s;
  sl_zero : ∀ i r, A !! i = Some r → zero_from i r }.

Lemma lookup_map_seq {X} (g : nat → X) n i x :
  map g (seq 0 n) !! i = Some x → (i < n)%nat ∧ x = g i.
Proof.
  rewrite list_lookup_fmap. destruct (seq 0 n !! i) eqn:E; cbn; [|done].
  apply lookup_seq in E as [-> ?]. intros; simplify_eq. done.
Qed.

Lemma dense_strictly_lower t :
  tableau_wf false t → strictly_lower (stages t) (dense (stages t) (tab_A t)).
Proof.
  intros H. unfold dense. split.
  - by rewrite length_map, length_seq.
  - intros i r Hr. apply lookup_map_seq in Hr as [_ ->]. by rewrite length_map, length_seq.
  - intros i r Hr j x Hj Hx. apply lookup_map_seq in Hr as [Hi ->].
    apply lookup_map_seq in Hx as [_ ->].
    destruct (tab_A t !! i) as [row|] eqn:E; cbn; [|done].
    apply (wf_width _ _ H) in E. rewrite (lookup_ge_None_2 row j) by lia. done.
Qed.

(** *** The stages of a linear problem

    With [f t y = l y] the stage rates are [l y] times the unit stages
    [u = 1 + z A u], [z = l dt], and the truncated Neumann iteration reaches
    them because [A] is nilpotent. *)
Definition horner (z : Qc) (A : list (list Qc)) (w : list Qc) : list Qc :=
  map (fun row => 1 + z * dot row w)%Qc A.

Fixpoint unit_stages (z : Qc) (A : list (list Qc)) (us : list Qc) : list Qc :=
  match A with
  | [] => us
  | row :: A' => unit_stages z A' (us ++ [1 + z * dot row us]%Qc)
  end.

Lemma rk_stages_linear l t dt y A c us :
  length A = length c →
  rk_stages (fun _ x => l * x)%Qc t dt y A c (map (fun u => l * y * u)%Qc us)
  = map (fun u => l * y * u)%Qc (unit_stages (l * dt) A us).
Proof.
  revert c us; induction A as [|row A IH]; intros [|ci c] us Hl; try done.
  cbn [rk_stages unit_stages]. rewrite <- (IH c) by (cbn in Hl; lia). f_equal.
  rewrite map_app. f_equal. cbn [map]. f_equal. rewrite dot_scale. ring.
Qed.

Lemma unit_stages_prefix z A us : ∃ vs, unit_stages z A us = us ++ vs ∧ length vs = length A.
Proof.
  revert us; induction A as [|row A IH]; intros us; cbn.
  - exists []. by rewrite app_nil_r.
  - destruct (IH (us ++ [1 + z * dot row us]%Qc)) as (vs & -> & Hl).
    eexists (_ :: vs). rewrite <- app_assoc. cbn. by rewrite Hl.
Qed.

(** The unit stages solve the stage equations. *)
Lemma unit_stages_lookup z A us i row :
  A !! i = Some row →
  unit_stages z A us !! (length us + i)%nat
  = Some (1 + z * dot row (take (length us + i) (unit_stages z A us)))%Qc.
Proof.
  revert us i; induction A as [|row' A IH]; intros us i Hi; [done|].
  cbn [unit_stages]. destruct i as [|i].
  - simplify_eq/=. rewrite Nat.add_0_r.
    destruct (unit_stages_prefix z A (us ++ [1 + z * dot row us]%Qc)) as (vs & -> & _).
    rewrite <- app_assoc. rewrite take_app_length, lookup_app_r by lia.
    by rewrite Nat.sub_diag.
  - specialize (IH (us ++ [1 + z * dot row' us]%Qc) i Hi).
    rewrite length_app in IH. cbn in IH.
    by replace (length us + S i)%nat with (length us + 1 + i)%nat by lia.
Qed.

(** The [n]-th iterate of [w = 1 + z A w] from zero. *)
Definition neumann (z : Qc) (A : list (list Qc)) (n : nat) : list Qc :=
  Nat.iter n (horner z A) (map (fun _ => 0%Qc) A).

Lemma length_neumann z A n : length (neumann z A n) = length A.
Proof. destruct n; apply length_map. Qed.

Lemma take_ext {X} n (l m : list X) :
  (∀ i, (i < n)%nat → l !! i = m !! i) → take n l = take n m.
Proof.
  intros H. apply list_eq. intros i. destruct (decide (i < n)%nat).
  - rewrite !lookup_take_lt by done. auto.
  - by rewrite !lookup_take_ge by lia.
Qed.

Lemma neumann_lookup s z A n i :
  strictly_lower s A → (i < n)%nat → (i < s)%nat →
  neumann z A n !! i = unit_stages z A [] !! i.
Proof.
  intros HA. revert i. induction n as [|n IH]; intros i Hi Hs; [lia|].
  change (neumann z A (S n)) with (horner z A (neumann z A n)).
  destruct (A !! i) as [row|] eqn:Erow.
  2:{ apply lookup_ge_None in Erow. rewrite (sl_rows _ _ HA) in Erow. lia. }
  unfold horner. rewrite list_lookup_fmap, Erow; cbn [fmap option_fmap option_map].
  pose proof (unit_stages_lookup z A [] i row Erow) as Hu. cbn [length Nat.add] in Hu.
  rewrite Hu. do 3 f_equal.
  rewrite (dot_take i row (neumann z A n)) by by apply (sl_zero _ _ HA i).
  f_equal. apply take_ext. intros j Hj. apply IH; lia.
Qed.

Lemma neumann_stages s z A : strictly_lower s A → neumann z A s = unit_stages z A [].
Proof.
  intros HA. apply list_eq_same_length with (length A); [|by rewrite length_neumann|].
  - destruct (unit_stages_prefix z A []) as (vs & -> & <-). done.
  - intros i x y Hi Hx Hy. rewrite (sl_rows _ _ HA) in Hi.
    rewrite (neumann_lookup s z A s i) in Hx by done. congruence.
Qed.

Lemma dot_map_add {X} r (g h : X → Qc) z l :
  dot r (map (fun x => g x + z * h x)%Qc l) = (dot r (map g l) + z * dot r (map h l))%Qc.
Proof.
  revert r; induction l as [|x l IH]; intros [|w r]; cbn [map];
    rewrite ?dot_nil_r, ?dot_nil_l, ?dot_cons, ?IH; ring.
Qed.

Lemma dot_zeros {X} r (l : list X) : dot r (map (fun _ => 0%Qc) l) = 0%Qc.
Proof.
  revert r; induction l as [|x l IH]; intros [|w r]; cbn [map];
    rewrite ?dot_nil_r, ?dot_nil_l, ?dot_cons, ?IH; ring.
Qed.

Lemma poly_cons z x l : poly_eval z (x :: l) = (x + z * poly_eval z l)%Qc.
Proof. done. Qed.

Lemma dot_moments z A r n v :
  dot r (map (fun row => poly_eval z (moments n A row v)) A)
  = poly_eval z (moments n A r (matvec A v)).
Proof.
  revert v; induction n as [|n IH]; intros v; cbn [moments].
  - apply dot_zeros.
  - rewrite (map_ext _ (fun row => dot row v + z * poly_eval z (moments n A row (matvec A v)))%Qc)
      by (intros; apply poly_cons).
    rewrite dot_map_add, IH, poly_cons. done.
Qed.

Lemma dot_neumann z A r n :
  dot r (neumann z A n) = poly_eval z (moments n A r (map (fun _ => 1%Qc) A)).
Proof.
  revert r; induction n as [|n IH]; intros r.
  - apply dot_zeros.
  - change (neumann z A (S n)) with (horner z A (neumann z A n)). unfold horner.
    rewrite (map_ext _ (fun row => 1 + z * poly_eval z (moments n A row (map (fun _ => 1) A)))%Qc)
      by (intros; by rewrite IH).
    rewrite dot_map_add, dot_moments. done.
Qed.

Lemma poly_strip z l : poly_eval z (strip_zeros l) = poly_eval z l.
Proof.
  induction l as [|x l IH]; [done|]. cbn [strip_zeros]. rewrite poly_cons, <- IH.
  destruct (strip_zeros l); [|done]. case_decide; subst; cbn; ring.
Qed.

Lemma map_const_length {X Y Z} (z : Z) (l : list X) (m : list Y) :
  length l = length m → map (fun _ => z) l = map (fun _ => z) m.
Proof. revert m; induction l as [|x l IH]; intros [|y m] H; cbn in *; f_equal; auto; lia. Qed.

Lemma rk_step_linear s l t dt y A b c :
  strictly_lower s A → length b = s → length c = s →
  rk_step (fun _ x => l * x)%Qc t dt y A b c = (poly_eval (l * dt) (stability A b) * y)%Qc.
Proof.
  intros HA Hb Hc. pose proof (sl_rows _ _ HA) as Hs. unfold rk_step, stability.
  assert (Hks := rk_stages_linear l t dt y A c [] ltac:(congruence)). cbn [map] in Hks.
  rewrite Hks, <- (neumann_stages s) by done.
  rewrite dot_scale, dot_neumann, poly_cons, poly_strip, Hb.
  rewrite (map_const_length 1%Qc b A) by congruence. ring.
Qed.

(** *** Quadrature and order *)

(** A rate that ignores the state is sampled at the abscissae. *)
Lemma rk_stages_quadrature g t dt y A c ks :
  length A = length c →
  rk_stages (fun s _ => g s) t dt y A c ks = ks ++ map (fun ci => g (t + ci * dt)%Qc) c.
Proof.
  revert c ks; induction A as [|row A IH]; intros [|ci c] ks Hl; try done; cbn [rk_stages map].
  - by rewrite app_nil_r.
  - rewrite IH by (cbn in Hl; lia). by rewrite <- app_assoc.
Qed.

Lemma matvec_ones A : matvec A (map (fun _ => 1%Qc) A) = map (fun row => dot row (map (fun _ => 1%Qc) A)) A.
Proof. done. Qed.

Lemma dot_ones {X} r (l : list X) : length r = length l → dot r (map (fun _ => 1%Qc) l) = qsum r.
Proof.
  revert r; induction l as [|x l IH]; intros [|z r] H; try done; cbn [map].
  rewrite dot_cons, qsum_cons, IH by (cbn in H; lia). ring.
Qed.

Lemma qsum_zeros {X} (l : list X) : qsum (map (fun _ => 0%Qc) l) = 0%Qc.
Proof. induction l as [|x l IH]; cbn [map]; [done|]. rewrite qsum_cons, IH. ring. Qed.

Lemma qsum_pad (row : list pynum) n k :
  (length row <= n)%nat →
  qsum (map (fun j => match row !! (j - k)%nat with Some x => num_value x | None => 0%Qc end) (seq k n))
  = row_sum row.
Proof.
  unfold row_sum. revert row k; induction n as [|n IH]; intros row k Hl; cbn [seq map].
  - destruct row; [done | cbn in Hl; lia].
  - rewrite qsum_cons, Nat.sub_diag. destruct row as [|x row].
    + cbn [lookup list_lookup map]. rewrite (qsum_ext _ (fun _ => 0%Qc)).
      2:{ intros j _. by destruct (j - k)%nat. }
      rewrite qsum_zeros, qsum_nil. ring.
    + cbn [lookup list_lookup map]. rewrite qsum_cons. f_equal.
      rewrite <- (IH row (S k)) by (cbn in Hl; lia). apply qsum_ext.
      intros j Hj%elem_of_seq. by replace (j - k)%nat with (S (j - S k))%nat by lia.
Qed.

Lemma dense_row_sums t d :
  tableau_wf d t →
  matvec (dense (stages t) (tab_A t)) (map (fun _ => 1%Qc) (tab_b t)) = map num_value (tab_c t).
Proof.
  intros H. rewrite (wf_nodes _ _ H). unfold matvec, dense. rewrite map_map.
  apply list_eq. intros i. rewrite !list_lookup_fmap.
  destruct (decide (i < stages t)%nat) as [Hi|Hi].
  - rewrite lookup_seq_lt by done. cbn [fmap option_fmap option_map Nat.add].
    destruct (tab_A t !! i) as [row|] eqn:E.
    2:{ apply lookup_ge_None in E. rewrite (wf_rows _ _ H) in E. lia. }
    cbn [default fmap option_fmap option_map]. f_equal. unfold id.
    rewrite dot_ones by (rewrite length_map, length_seq; done).
    rewrite <- (qsum_pad row (stages t) 0).
    + apply qsum_ext. intros j _. by rewrite Nat.sub_0_r.
    + rewrite (wf_width _ _ H _ _ E). destruct d; lia.
  - rewrite (lookup_ge_None_2 (seq _ _)) by (rewrite length_seq; lia).
    rewrite (lookup_ge_None_2 (tab_A t)) by (rewrite (wf_rows _ _ H); lia). done.
Qed.

(** The [k]-th moment [b^T A^k 1] is the [k]-th tail coefficient. *)
Lemma strip_lookup l k : default 0%Qc (strip_zeros l !! k) = default 0%Qc (l !! k).
Proof.
  revert k; induction l as [|x l IH]; intros k; [done|]. cbn [strip_zeros].
  destruct (strip_zeros l) as [|y m] eqn:E.
  - case_decide; subst; destruct k; cbn; try done; by rewrite <- IH.
  - destruct k; cbn; [done|]. by rewrite <- IH.
Qed.

Lemma moments_lookup n A b v k :
  (k < n)%nat → moments n A b v !! k = Some (dot b (Nat.iter k (matvec A) v)).
Proof.
  revert v k; induction n as [|n IH]; intros v k Hk; [lia|]. cbn [moments].
  destruct k as [|k]; [done|]. cbn [lookup list_lookup]. rewrite IH by lia.
  by rewrite Nat.iter_succ_r.
Qed.

(** The conditions that hold when an order is certified. *)
Lemma proved_order_inv A b c p :
  proved_order A b c = Order p →
  (1 <= p <= 4)%nat ∧ qsum b = 1%Qc
  ∧ ((2 <= p)%nat → dot b c = q 1 2)
  ∧ ((3 <= p)%nat → dot b (map (fun x => x * x)%Qc c) = q 1 3 ∧ dot b (matvec A c) = q 1 6)
  ∧ ((4 <= p)%nat → dot b (map (fun x => x * x * x)%Qc c) = q 1 4
                     ∧ dot b (matvec A (matvec A c)) = q 1 24).
Proof.
  unfold proved_order. intros H.
  repeat (case_decide; [|simplify_eq; split_and!; (done || lia || intros; lia)]).
  destruct_and?. simplify_eq. split_and!; (done || lia).
Qed.

Lemma rk_step_quadrature A b c k dt y :
  length A = length c →
  rk_step (fun s _ => Qcpower s k) 0%Qc dt y A b c
  = (y + Qcpower dt (S k) * dot b (map (fun x => Qcpower x k) c))%Qc.
Proof.
  intros Hl. unfold rk_step. rewrite rk_stages_quadrature by done. cbn [app].
  assert (Hp : ∀ x : Qc, Qcpower (0 + x * dt) k = (Qcpower dt k * Qcpower x k)%Qc).
  { intros x. induction k as [|k IH]; cbn [Qcpower]; [ring|]. rewrite IH. ring. }
  rewrite (map_ext _ (fun x => Qcpower dt k * Qcpower x k)%Qc) by done.
  rewrite <- (map_map (fun x => Qcpower x k) (fun x => Qcpower dt k * x)%Qc), dot_scale.
  cbn [Qcpower]. ring.
Qed.

Lemma dot_powers A b c p k :
  proved_order A b c = Order p → length b = length c → (k < p)%nat →
  dot b (map (fun x => Qcpower x k) c) = Q2Qc (1 # Pos.of_nat (S k)).
Proof.
  intros (Hp & H1 & H2 & H3 & H4)%proved_order_inv Hl Hk.
  destruct k as [|[|[|[|k]]]]; [| | | |lia]; cbn [Qcpower].
  - rewrite dot_ones by done. by rewrite H1.
  - rewrite (map_ext _ (fun x => x)) by (intros; ring). rewrite map_id. apply H2. lia.
  - rewrite (map_ext _ (fun x => x * x)%Qc) by (intros; ring). apply H3. lia.
  - rewrite (map_ext _ (fun x => x * x * x)%Qc) by (intros; ring). apply H4. lia.
Qed.

Lemma stability_coefficients A b c p k :
  proved_order A b c = Order p → (0 < length b)%nat ->
  matvec A (map (fun _ => 1%Qc) b) = c → (∀ j, (length b <= j)%nat →
    dot b (Nat.iter j (matvec A) (map (fun _ => 1%Qc) b)) = 0%Qc) → (k <= p)%nat →
  default 0%Qc (stability A b !! k) = Q2Qc (1 # Pos.of_nat (fact k)).
Proof.
  intros (Hp & H1 & H2 & H3 & H4)%proved_order_inv Hb Hc Hnil Hk. unfold stability.
  destruct k as [|k]; [done|]. cbn [lookup list_lookup]. fold (@lookup nat Qc (list Qc) _).
  rewrite strip_lookup. set (ones := map (fun _ : Qc => 1%Qc) b) in *.
  assert (Hm : default 0%Qc (moments (length b) A b ones !! k) = dot b (Nat.iter k (matvec A) ones)).
  { destruct (decide (k < length b)%nat); [by rewrite moments_lookup|].
    rewrite lookup_ge_None_2, Hnil; [done | lia |].
    enough (∀ n v, length (moments n A b v) = n) as -> by lia.
    clear. induction n as [|n IH]; intros v; cbn; auto. }
  rewrite Hm. destruct k as [|[|[|[|k]]]]; [| | | |lia]; cbn [Nat.iter nat_rect].
  - subst ones. rewrite dot_ones by done. by rewrite H1.
  - rewrite Hc. apply H2. lia.
  - rewrite Hc. apply H3. lia.
  - rewrite Hc. apply H4. lia.
Qed.

(** A strictly lower triangular array is nilpotent. *)
Lemma dot_zero_r r l : (∀ i x, l !! i = Some x → x = 0%Qc) → dot r l = 0%Qc.
Proof.
  revert r; induction l as [|x l IH]; intros [|z r] H; rewrite ?dot_nil_r, ?dot_nil_l; try done.
  rewrite dot_cons, IH by (intros i y Hy; exact (H (S i) y Hy)).
  rewrite (H 0%nat x) by done. ring.
Qed.

Lemma matvec_nilpotent s A v j i x :
  strictly_lower s A → Nat.iter j (matvec A) v !! i = Some x → (i < j)%nat → x = 0%Qc.
Proof.
  intros HA. revert i x. induction j as [|j IH]; intros i x Hx Hi; [lia|].
  change (Nat.iter (S j) (matvec A) v) with (matvec A (Nat.iter j (matvec A) v)) in Hx.
  unfold matvec in Hx at 1. rewrite list_lookup_fmap in Hx.
  destruct (A !! i) as [row|] eqn:Erow; simplify_eq/=.
  rewrite (dot_take i row) by by apply (sl_zero _ _ HA i).
  apply dot_zero_r. intros k y Hy. apply lookup_take_Some in Hy as [Hy Hk].
  apply (IH k y Hy). lia.
Qed.

Lemma matvec_power_zero s A b v j :
  strictly_lower s A → length v = s → (s <= j)%nat → dot b (Nat.iter j (matvec A) v) = 0%Qc.
Proof.
  intros HA Hv Hj. apply dot_zero_r. intros i x Hx.
  apply (matvec_nilpotent s A v j i x HA Hx).
  apply lookup_lt_Some in Hx. assert (length (Nat.iter j (matvec A) v) = s); [|lia].
  destruct j; [done|]. cbn. unfold matvec. rewrite length_map. apply (sl_rows _ _ HA).
Qed.

Lemma tableau_lengths d t :
  tableau_wf d t → length (map num_value (tab_b t)) = stages t
                 ∧ length (map num_value (tab_c t)) = stages t.
Proof.
  intros H. split; [by rewrite length_map|].
  rewrite (wf_nodes _ _ H), length_map. apply (wf_rows _ _ H).
Qed.

(** ** Claims *)

(** The [RungeKuttaTableau] and DIRK constructors return only well-formed
    tableaux (shape, consistency of the weights, abscissae equal to the row
    sums), and rebuilding a tableau from its own coefficient arrays returns it
    unchanged. *)
Theorem tableau_constructors A b c name t :
  (mk_runge_kutta A b c name = Ok t → tableau_wf false t)
  ∧ (mk_dirk A b c name = Ok t → tableau_wf true t)
  ∧ (tableau_finite t = true →
     (tableau_wf false t →
        mk_runge_kutta (PySeq (map py_row (tab_A t))) (py_row (tab_b t)) (py_row (tab_c t))
          (tab_name t) = Ok t)
     ∧ (tableau_wf true t →
        mk_dirk (PySeq (map py_row (tab_A t))) (py_row (tab_b t)) (py_row (tab_c t))
          (tab_name t) = Ok t)).
Proof.
  split_and!; [apply mk_runge_kutta_wf | apply mk_dirk_wf |]. intros Hf.
  unfold tableau_finite in Hf. bools. split; intros Hwf.
  all: pose proof (wf_stages _ _ Hwf) as Hs; unfold stages in Hs.
  all: assert (Hlc : length (tab_c t) = stages t)
    by (pose proof (tableau_lengths _ _ Hwf) as [_ Hl]; by rewrite length_map in Hl).
  all: unfold mk_runge_kutta, mk_dirk; rewrite weights_num by done; cbn [mbind res_bind].
  all: rewrite rows_num;
    [|by rewrite (wf_rows _ _ Hwf) | apply (wf_width _ _ Hwf) | done]; cbn [mbind res_bind].
  all: rewrite bool_decide_eq_true_2 by apply (wf_sum _ _ Hwf).
  all: rewrite (wf_name _ _ Hwf); cbn [require mbind res_bind].
  all: rewrite nodes_num; [| done | rewrite Hlc; exact Hs | apply (wf_nodes _ _ Hwf)].
  all: cbn [mbind res_bind]; by destruct t.
Qed.

Lemma tableau_constructors_witness :
  ∃ t, RK4_TABLEAU = Ok t ∧ tableau_wf false t.
Proof.
  destruct RK4_TABLEAU as [t|] eqn:E; [|vm_compute in E; discriminate E].
  exists t. split; [reflexivity|]. unfold RK4_TABLEAU in E.
  exact (proj1 (tableau_constructors _ _ _ _ _) E).
Defined.

(** On a linear problem [y' = l y] one step of an accepted explicit tableau
    multiplies the state by the published stability polynomial, evaluated at
    [l dt]. *)
Theorem stability_polynomial_exact A b c name t l s dt y :
  mk_runge_kutta A b c name = Ok t →
  let k := certify_runge_kutta t in
  rk_step (fun _ x => l * x)%Qc s dt y (cert_A k) (cert_b k) (cert_c k)
  = (poly_eval (l * dt) (p_stability (analyze_runge_kutta t)) * y)%Qc.
Proof.
  intros Hwf%mk_runge_kutta_wf k. destruct (tableau_lengths _ _ Hwf).
  apply (rk_step_linear (stages t)); auto using dense_strictly_lower.
Qed.

Lemma stability_polynomial_exact_witness :
  ∃ t, SSPRK2_TABLEAU = Ok t ∧
  let k := certify_runge_kutta t in
  rk_step (fun _ x => q 3 1 * x)%Qc 0%Qc (q 1 2) (q 1 1) (cert_A k) (cert_b k) (cert_c k)
  = (poly_eval (q 3 1 * q 1 2) (p_stability (analyze_runge_kutta t)) * q 1 1)%Qc.
Proof.
  destruct SSPRK2_TABLEAU as [t|] eqn:E; [|vm_compute in E; discriminate E].
  exists t. split; [reflexivity|]. unfold SSPRK2_TABLEAU in E.
  exact (stability_polynomial_exact _ _ _ _ _ _ _ _ _ E).
Defined.

(** C39: a certified order [p] of an accepted explicit tableau means what it
    says on the two classes of problems an exact check can decide: the step
    integrates [y' = t^k] exactly for every [k < p], and the stability
    polynomial agrees with the exponential series up to degree [p]. *)
Theorem certified_order_sound A b c name t p :
  mk_runge_kutta A b c name = Ok t → p_order (analyze_runge_kutta t) = Order p →
  let k := certify_runge_kutta t in
  (∀ n dt y, (n < p)%nat →
     rk_step (fun s _ => Qcpower s n) 0%Qc dt y (cert_A k) (cert_b k) (cert_c k)
     = (y + Qcpower dt (S n) * Q2Qc (1 # Pos.of_nat (S n)))%Qc)
  ∧ (∀ n, (n <= p)%nat →
     default 0%Qc (p_stability (analyze_runge_kutta t) !! n) = Q2Qc (1 # Pos.of_nat (fact n))).
Proof.
  intros Hwf%mk_runge_kutta_wf Hp k. destruct (tableau_lengths _ _ Hwf) as [Hb Hc].
  pose proof (dense_strictly_lower _ Hwf) as HA. pose proof (sl_rows _ _ HA) as Hs. split.
  - intros n dt y Hn. cbn [cert_A cert_b cert_c k certify_runge_kutta certificate_from_coefficients].
    rewrite rk_step_quadrature by congruence. f_equal. f_equal.
    apply (dot_powers (dense (stages t) (tab_A t)) _ _ p); [exact Hp | congruence | done].
  - intros n Hn.
    assert (Hone : map (fun _ : Qc => 1%Qc) (map num_value (tab_b t)) = map (fun _ => 1%Qc) (tab_b t))
      by by rewrite map_map.
    apply (stability_coefficients _ _ (map num_value (tab_c t)) p); [exact Hp | | | | done].
    + rewrite Hb. apply (wf_stages _ _ Hwf).
    + rewrite Hone. by apply (dense_row_sums t false).
    + intros j Hj. apply (matvec_power_zero (stages t)); [done | | lia].
      by rewrite !length_map.
Qed.

Lemma certified_order_sound_witness :
  ∃ t, RK4_TABLEAU = Ok t ∧
    default 0%Qc (p_stability (analyze_runge_kutta t) !! 4%nat) = Q2Qc (1 # 24).
Proof.
  assert (Ho : (fun t => p_order (analyze_runge_kutta t)) <$> RK4_TABLEAU = Ok (Order 4))
    by (vm_compute; reflexivity).
  destruct RK4_TABLEAU as [t|] eqn:E; [|discriminate Ho]. injection Ho as Ho.
  exists t. split; [reflexivity|]. unfold RK4_TABLEAU in E.
  exact (proj2 (certified_order_sound _ _ _ _ _ 4 E Ho) 4%nat (le_n 4)).
Defined.

(** The Shu--Osher forms: each stage is a convex combination of the first value
    and an Euler step. *)
Lemma two_stage_combination y dt k0 k1 :
  (y + dt * (q 1 2 * k0 + (q 1 2 * k1 + 0)))%Qc = (q 1 2 * y + (1 - q 1 2) * (y + dt * k0 + dt * k1))%Qc.
Proof.
  replace (1 - q 1 2)%Qc with (q 1 2) by by apply Qc_is_canon. symmetry.
  transitivity ((q 1 2 + q 1 2) * y + dt * (q 1 2 * k0 + (q 1 2 * k1 + 0)))%Qc; [ring|].
  replace (q 1 2 + q 1 2)%Qc with 1%Qc by by apply Qc_is_canon. ring.
Qed.

Lemma middle_stage_combination y dt k0 k1 :
  (y + dt * (q 1 4 * k0 + (q 1 4 * k1 + 0)))%Qc = (q 3 4 * y + (1 - q 3 4) * (y + dt * k0 + dt * k1))%Qc.
Proof.
  replace (1 - q 3 4)%Qc with (q 1 4) by by apply Qc_is_canon. symmetry.
  transitivity ((q 3 4 + q 1 4) * y + dt * (q 1 4 * k0 + (q 1 4 * k1 + 0)))%Qc; [ring|].
  replace (q 3 4 + q 1 4)%Qc with 1%Qc by by apply Qc_is_canon. ring.
Qed.

Lemma three_stage_combination y dt k0 k1 k2 :
  (y + dt * (q 1 6 * k0 + (q 1 6 * k1 + (q 2 3 * k2 + 0))))%Qc
  = (q 1 3 * y + (1 - q 1 3) * (q 3 4 * y + (1 - q 3 4) * (y + dt * k0 + dt * k1) + dt * k2))%Qc.
Proof.
  replace (1 - q 1 3)%Qc with (q 2 3) by by apply Qc_is_canon.
  replace (1 - q 3 4)%Qc with (q 1 4) by by apply Qc_is_canon. symmetry.
  transitivity ((q 1 3 + q 2 3 * q 3 4 + q 2 3 * q 1 4) * y
    + dt * ((q 2 3 * q 1 4) * k0 + ((q 2 3 * q 1 4) * k1 + (q 2 3 * k2 + 0))))%Qc; [ring|].
  replace (q 1 3 + q 2 3 * q 3 4 + q 2 3 * q 1 4)%Qc with 1%Qc by by apply Qc_is_canon.
  replace (q 2 3 * q 1 4)%Qc with (q 1 6) by by apply Qc_is_canon. ring.
Qed.

(** C40: a tableau that gets an SSP certificate keeps every convex set that one
    forward Euler step of the same [dt] keeps, whatever the rate. *)
Theorem ssp_certificate_sound A b c k (P : Qc → Prop) f t dt y :
  ssp_of A b c = Some k →
  (∀ u v w, (0 <= w)%Qc → (w <= 1)%Qc → P u → P v → P (w * u + (1 - w) * v)%Qc) →
  (∀ s u, P u → P (u + dt * f s u)%Qc) → P y →
  k = 1%Qc ∧ P (rk_step f t dt y A b c).
Proof.
  unfold ssp_of. intros Hs Hconv Heuler Hy.
  destruct (List.find _ known_ssp) as [e|] eqn:E; [|done]. apply List.find_some in E as [Hin He].
  apply bool_decide_eq_true in He. cbn in Hs. injection Hs as <-.
  unfold known_ssp in Hin.
  destruct Hin as [<-|[<-|[<-|[]]]]; cbn [fst snd] in He; injection He as <- <- <-;
    (split; [done|]); unfold rk_step; cbn [rk_stages app];
    repeat rewrite ?dot_cons, ?dot_nil_l, ?dot_nil_r.
  - replace (y + dt * 0)%Qc with y by ring. set (k0 := f _ y).
    replace (y + dt * (1 * k0 + 0))%Qc with (y + dt * k0)%Qc by ring. subst k0. auto.
  - replace (y + dt * 0)%Qc with y by ring. set (k0 := f _ y).
    replace (y + dt * (1 * k0 + 0))%Qc with (y + dt * k0)%Qc by ring.
    rewrite two_stage_combination. apply Hconv; [done | done | done |]. apply Heuler. subst k0. auto.
  - replace (y + dt * 0)%Qc with y by ring. set (k0 := f _ y).
    replace (y + dt * (1 * k0 + 0))%Qc with (y + dt * k0)%Qc by ring.
    assert (Hu : P (y + dt * k0)%Qc) by (subst k0; auto).
    rewrite middle_stage_combination, three_stage_combination.
    apply Hconv; [done | done | done |]. apply Heuler, Hconv; [done | done | done |]. by apply Heuler.
Qed.

Lemma ssp_certificate_sound_witness :
  let f := fun _ u => (q 5 1 - u)%Qc in
  rk_step f 0%Qc 1%Qc (q 5 1) [[0; 0]; [1; 0]]%Qc [q 1 2; q 1 2] [0; 1]%Qc = q 5 1.
Proof.
  cbn zeta. refine (proj2 (ssp_certificate_sound _ _ _ _ (fun u => u = q 5 1) _ _ _ _ _ _ _ _)).
  - vm_compute. reflexivity.
  - intros u v w _ _ -> ->. ring.
  - intros s u ->. ring.
  - reflexivity.
Defined.

(** The published presets carry the orders and SSP certificates their names
    announce. *)
Theorem preset_certificates :
  ((fun t => (p_order (analyze_runge_kutta t), p_ssp (analyze_runge_kutta t))) <$> RK4_TABLEAU)
    = Ok (Order 4, None)
  ∧ ((fun t => (p_order (analyze_runge_kutta t), p_ssp (analyze_runge_kutta t))) <$> SSPRK2_TABLEAU)
    = Ok (Order 2, Some 1%Qc)
  ∧ ((fun t => (p_order (analyze_runge_kutta t), p_ssp (analyze_runge_kutta t))) <$> SSPRK3_TABLEAU)
    = Ok (Order 3, Some 1%Qc).
Proof. split_and!; vm_compute; reflexivity. Qed.
