(* ===== verification/GraphCertificate.v ===== *)
(** * Certifying a program graph

    [certify_program_graph] of [python/pops/time/_methods/properties.py]: the
    reconstruction of an explicit Runge--Kutta tableau from the nodes of a
    normalized [ProgramGraph], and what executing a certified graph computes. *)
From S2P Require Import Prelude Binary64 Scalar Coeff Tableau.

(** ** Graph nodes, as the certifier reads them *)

(** The kind of a node; [KValue] is a [program_value] with its operation and,
    when its attributes have them, the encoded coefficient polynomials
    ([power, scalar] pairs); [KCall] an [operator_call] with the identity and
    kind of its handle and the [op] and [value_type] of its lowering. *)
Inductive gkind :=
| KStateRead
| KCommit
| KValue (op : string) (coeffs : option (list (list (literal * literal))))
| KCall (operator handle_kind lowering_op value_type : string)
| KOther.

Record gnode := GNode {
  gn_id : nat;
  gn_kind : gkind;
  gn_refs : list nat;
  gn_offset : literal }.

(** [_literal]. *)
Definition literal_value (l : literal) : res Qc :=
  match l_payload l with
  | PInteger z => Ok (qz z)
  | PRational x => Ok x
  | PDecimal d => Ok (dec_value d)
  | PBinary64 f => Ok (float_value f)
  | PAlgebraic _ | PCustom _ => Err ValueError
  end.

(** [int(fraction)]: truncation towards zero. *)
Definition trunc (x : Qc) : Z := Z.quot (Qnum x) (Zpos (Qden x)).

(** [_polynomial]. *)
Definition polynomial (data : list (literal * literal)) : res (list (Z * Qc)) :=
  fold_res (fun result '(power, coefficient) =>
    c ← literal_value coefficient;
    p ← literal_value power;
    Ok (dset (trunc p) c result)) [] data.

Definition point_offset (n : gnode) : res Qc := literal_value (gn_offset n).

(** [_is_explicit_rate_call]. *)
Definition is_rate_op (op : string) : bool := String.eqb op "rhs" || String.eqb op "diffusive_rhs".

Definition is_explicit_rate_call (n : gnode) : bool :=
  match gn_kind n with
  | KValue op _ => is_rate_op op
  | KCall _ handle_kind lowering_op value_type =>
      (String.eqb handle_kind "grid_operator" || String.eqb handle_kind "local_rate")
      && is_rate_op lowering_op && String.eqb value_type "rhs"
  | _ => false
  end.

Definition is_state_read (n : gnode) : bool :=
  match gn_kind n with KStateRead => true | _ => false end.
Definition is_commit (n : gnode) : bool :=
  match gn_kind n with KCommit => true | _ => false end.

(** The [dict]s [{node.node_id: ...}] of the function. *)
Definition index_by_id {A} (l : list (nat * A)) : list (nat * A) :=
  foldl (fun d '(k, v) => dset k v d) [] l.

Section Affine.
Context (nodes : list (nat * gnode)) (state_id : nat) (rhs_index : list (nat * nat)).

(** One [(reference, polynomial)] pair of a stage expression. *)
Definition affine_term (stage : nat) (acc : Qc * list Qc) (term : nat * list (literal * literal))
    : res (Qc * list Qc) :=
  let '(base, row) := acc in
  let '(ref, encoded) := term in
  poly ← polynomial encoded;
  if (ref =? state_id)%nat then
    _ ← require (forallb (fun p => p =? 0) (dkeys poly)) ValueError;
    Ok ((base + default 0%Qc (dget 0%Z poly))%Qc, row)
  else
    match dget ref rhs_index with
    | Some index =>
        _ ← require ((index <? stage)%nat && forallb (fun p => p =? 1) (dkeys poly)) ValueError;
        Ok (base, alter (fun x => x + default 0%Qc (dget 1%Z poly))%Qc index row)
    | None => Err ValueError
    end.

(** The inner function [affine]. *)
Definition affine_of (node_id stage : nat) : res (Qc * list Qc) :=
  if (node_id =? state_id)%nat then Ok (1%Qc, repeat 0%Qc stage)
  else
    match dget node_id nodes with
    | None => Err KeyError
    | Some node =>
        match gn_kind node with
        | KValue op coeffs =>
            _ ← require (String.eqb op "linear_combine") ValueError;
            match coeffs with
            | None => Err KeyError
            | Some data =>
                r ← fold_res (affine_term stage) (0%Qc, repeat 0%Qc stage) (zip (gn_refs node) data);
                _ ← require (length (gn_refs node) =? length data)%nat ValueError;
                Ok r
            end
        | _ => Err ValueError
        end
    end.

(** One stage: the row of the rate at index [i]. *)
Definition stage_row (i : nat) (rate : gnode) : res (list Qc) :=
  match gn_refs rate with
  | [] => Err IndexError
  | ref :: _ =>
      '(base, row) ← affine_of ref i;
      _ ← require (bool_decide (base = 1%Qc)) ValueError;
      Ok row
  end.

(** The [try] block. *)
Definition reconstruct (rhs : list gnode) (commit : gnode) (abscissae : list Qc)
    : res (list (list Qc) * list Qc) :=
  A ← map_res (fun '(i, rate) => stage_row i rate) (zip (seq 0 (length rhs)) rhs);
  match gn_refs commit with
  | [] => Err IndexError
  | final :: _ =>
      '(base, b) ← affine_of final (length rhs);
      _ ← require (bool_decide (base = 1%Qc) && bool_decide (qsum b = 1%Qc)) ValueError;
      _ ← require (bool_decide (map qsum A = abscissae)) ValueError;
      Ok (A, b)
  end.
End Affine.

Record program_certificate := ProgramCertificate {
  pc_tableau : option certificate;
  pc_properties : properties }.

Definition unknown_graph (abscissae : list Qc) : program_certificate :=
  ProgramCertificate None (Properties UnknownOrder abscissae [] [] None).

Definition pad_row (stages : nat) (row : list Qc) : list Qc :=
  map (fun j => default 0%Qc (row !! j)) (seq 0 stages).

(** [certify_program_graph], on the node list of a [ProgramGraph]. *)
Definition certify_program_graph (graph : list gnode) : res program_certificate :=
  let nodes := index_by_id (map (fun n => (gn_id n, n)) graph) in
  let states := List.filter is_state_read graph in
  let rhs := List.filter is_explicit_rate_call graph in
  let commits := List.filter is_commit graph in
  abscissae ← map_res point_offset rhs;
  match states, rhs, commits with
  | [state], _ :: _, [commit] =>
      let rhs_index := index_by_id (zip (map gn_id rhs) (seq 0 (length rhs))) in
      match reconstruct nodes (gn_id state) rhs_index rhs commit abscissae with
      | Err (KeyError | TypeError | ValueError) => Ok (unknown_graph abscissae)
      | Err e => Err e
      | Ok (A, b) =>
          let cert := certificate_from_coefficients (map (pad_row (length b)) A) b abscissae in
          Ok (ProgramCertificate (Some cert) (cert_properties cert))
      end
  | _, _, _ => Ok (unknown_graph abscissae)
  end.

(** ** What a graph computes

    The meaning of coefficient data does not go through the certifier: a pair of power
    and scalar contributes the scalar times that power of [dt]. *)
Inductive denotes : payload → Qc → Prop :=
| denotes_integer z : denotes (PInteger z) (qz z)
| denotes_rational x : denotes (PRational x) x
| denotes_decimal d : denotes (PDecimal d) (dec_value d)
| denotes_binary64 x : denotes (PBinary64 x) (float_value x).

Definition denotes_term (term : literal * literal) (t : Z * Qc) : Prop :=
  l_payload term.1 = PInteger t.1 ∧ 0 <= t.1 ∧ denotes (l_payload term.2) t.2.

Definition poly_value (dt : Qc) (poly : list (Z * Qc)) : Qc :=
  qsum (map (fun t => t.2 * qpow dt t.1)%Qc poly).

Definition coefficient_value (dt : Qc) (data : list (literal * literal)) (c : Qc) : Prop :=
  ∃ terms, Forall2 denotes_term data terms ∧ c = poly_value dt terms.

(** The items of a Python [dict] from powers to scalars: every power once. *)
Definition coefficient_items (data : list (literal * literal)) : Prop :=
  ∃ terms, Forall2 denotes_term data terms ∧ NoDup (map fst terms).
Definition coefficients_ok (graph : list gnode) : Prop :=
  ∀ n data, n ∈ graph → gn_kind n = KValue "linear_combine" (Some data) → Forall coefficient_items data.

(** A valuation of the nodes (one component of one cell) is an execution of the graph
    when every affine node has the value of its combination, and every rate node the value
    of its own rate at its point, on all of its inputs: operators may differ and read
    fields next to the state. *)
Section Execution.
Context (rates : gnode → Qc → list Qc → Qc) (t0 dt : Qc).

Definition executes_node (v : nat → Qc) (n : gnode) : Prop :=
  (∀ data cs, gn_kind n = KValue "linear_combine" (Some data) → Forall2 (coefficient_value dt) data cs →
     v (gn_id n) = qsum (zip_with (fun r c => c * v r)%Qc (gn_refs n) cs))
  ∧ (∀ off, is_explicit_rate_call n = true → denotes (l_payload (gn_offset n)) off →
     v (gn_id n) = rates n (t0 + off * dt)%Qc (map v (gn_refs n))).

Definition executes (v : nat → Qc) (graph : list gnode) : Prop :=
  ∀ n, n ∈ graph → executes_node v n.
End Execution.

(** ** Soundness *)

Lemma index_by_id_elem {A} (l : list (nat * A)) k v :
  dget k (index_by_id l) = Some v → (k, v) ∈ l.
Proof.
  unfold index_by_id. assert (H : ∀ d, dget k (foldl (fun d '(k, v) => dset k v d) d l) = Some v →
                                   dget k d = Some v ∨ (k, v) ∈ l).
  { induction l as [|[k' v'] l IH]; cbn; intros d Hd; [by left|].
    apply IH in Hd as [Hd|Hd]; [|right; by right].
    rewrite dget_dset in Hd. case_decide; simplify_eq; [right; left | by left]. }
  intros Hd. by destruct (H [] Hd).
Qed.

Lemma polynomial_NoDup data poly : polynomial data = Ok poly → NoDup (dkeys poly).
Proof.
  unfold polynomial. assert (Hn : NoDup (dkeys (@nil (Z * Qc)))) by apply NoDup_nil_2.
  revert Hn. generalize (@nil (Z * Qc)) as acc.
  induction data as [|[p c] data IH]; cbn; intros acc Hn H; inv_ok; [done|].
  eapply IH; [|done]. by apply dset_NoDup.
Qed.

(** A polynomial whose only key is [k]. *)
Lemma poly_value_single dt poly k :
  NoDup (dkeys poly) → forallb (fun p => p =? k) (dkeys poly) = true →
  poly_value dt poly = (default 0%Qc (dget k poly) * qpow dt k)%Qc.
Proof.
  intros Hn Hk. unfold poly_value. destruct poly as [|[p c] [|[p' c'] poly]]; cbn in *.
  - rewrite qsum_nil. ring.
  - bools. subst. rewrite qsum_cons, qsum_nil, decide_True by done. unfold default, id; cbn. ring.
  - bools. subst. apply NoDup_cons in Hn as [Hn _]. set_solver.
Qed.

Lemma literal_value_denotes l x : denotes (l_payload l) x ↔ literal_value l = Ok x.
Proof. unfold literal_value. split; [by inversion 1|]. destruct (l_payload l); intros H; injection H as <- || done; constructor. Qed.

Lemma trunc_integer z : trunc (qz z) = z.
Proof.
  unfold trunc. change (this (qz z)) with (Qred (inject_Z z)). rewrite Qred_identity by apply Z.gcd_1_r. apply Z.quot_1_r.
Qed.

(** The dictionary that is read holds the terms, when no power is repeated. *)
Lemma polynomial_terms data terms : Forall2 denotes_term data terms → NoDup (map fst terms) → polynomial data = Ok terms.
Proof.
  intros F Hn. unfold polynomial.
  assert (H : ∀ acc, NoDup (map fst (acc ++ terms)) → fold_res (fun result '(power, coefficient) =>
    c ← literal_value coefficient; p ← literal_value power; Ok (dset (trunc p) c result)) acc data = Ok (acc ++ terms)); [|by apply (H [])].
  clear Hn. induction F as [|[p c] [k x] data terms (Hp & _ & Hc%literal_value_denotes) _ IH]; intros acc Hn; [by rewrite app_nil_r|].
  cbn [fst snd] in *. cbn [fold_res]. rewrite Hc. cbn [mbind res_bind].
  assert (literal_value p = Ok (qz k)) as -> by (unfold literal_value; by rewrite Hp). cbn [mbind res_bind].
  rewrite trunc_integer, cons_middle, app_assoc. rewrite <- IH by (by rewrite <- app_assoc). f_equal.
  rewrite map_app in Hn. apply NoDup_app in Hn as (_ & Hd & _). clear -Hd. induction acc as [|[k' y] acc IHa]; [done|]. cbn in *.
  rewrite decide_False by (intros E; apply (Hd k); [rewrite E|]; left). f_equal. apply IHa. intros z Hz. apply Hd. by right.
Qed.

Lemma polynomial_denotes dt data poly : coefficient_items data → polynomial data = Ok poly → coefficient_value dt data (poly_value dt poly).
Proof. intros (terms & F & Hn) H. rewrite (polynomial_terms data terms F Hn) in H. injection H as <-. by exists terms. Qed.

Lemma dot_alter x i row l :
  (i < length row)%nat →
  dot (alter (fun z => z + x)%Qc i row) l = (dot row l + x * default 0%Qc (l !! i))%Qc.
Proof.
  revert i l; induction row as [|z row IH]; intros i l Hi; [cbn in Hi; lia|].
  destruct l as [|w l]; [rewrite !dot_nil_r, lookup_nil; unfold default; ring|].
  destruct i as [|i].
  - change (alter (fun z => z + x)%Qc 0%nat (z :: row)) with ((z + x)%Qc :: row).
    rewrite !dot_cons. unfold default, id; cbn. ring.
  - change (alter (fun z => z + x)%Qc (S i) (z :: row))
      with (z :: alter (fun z => z + x)%Qc i row).
    rewrite !dot_cons, IH by (cbn in Hi; lia). apply Qcplus_assoc.
Qed.

Lemma affine_term_length state_id rhs_index stage r term r' :
  affine_term state_id rhs_index stage r term = Ok r' → length r'.2 = length r.2.
Proof.
  destruct r as [base row], term as [ref enc]. unfold affine_term.
  destruct (polynomial enc); [|done]. cbn [mbind res_bind].
  destruct (ref =? state_id)%nat; [intros H; by inv_ok|]. destruct (dget ref rhs_index); [|done].
  intros H. inv_ok. cbn [snd]. apply length_alter.
Qed.

Lemma affine_of_length nodes state_id rhs_index node_id stage r :
  affine_of nodes state_id rhs_index node_id stage = Ok r → length r.2 = stage.
Proof.
  assert (Ht : ∀ terms r r', fold_res (affine_term state_id rhs_index stage) r terms = Ok r' → length r'.2 = length r.2).
  { induction terms as [|term terms IH]; intros r1 r2 H; cbn [fold_res] in H; [by inv_ok|].
    destruct (affine_term _ _ _ _ _) as [r3|] eqn:E; [|done]. cbn [mbind res_bind] in H.
    rewrite (IH _ _ H). by eapply affine_term_length. }
  unfold affine_of. intros H. destruct (node_id =? state_id)%nat; inv_ok; [apply repeat_length|].
  destruct (dget node_id nodes) as [n|]; [|done]. destruct (gn_kind n) as [| |op [data|]| |]; inv_ok; try done.
  match goal with Hf : fold_res _ _ _ = Ok _ |- _ => apply Ht in Hf; rewrite Hf end. apply repeat_length.
Qed.

Section Sound.
Context (graph rhs : list gnode) (state_id : nat).
Context (rates : gnode → Qc → list Qc → Qc) (t0 dt : Qc) (v : nat → Qc) (Hv : executes rates t0 dt v graph) (Hg : coefficients_ok graph).

Let nodes := index_by_id (map (fun n => (gn_id n, n)) graph).
Let rhs_index := index_by_id (zip (map gn_id rhs) (seq 0 (length rhs))).
Let ks := map (fun n => v (gn_id n)) rhs.
Let y := v state_id.

Lemma nodes_elem k n : dget k nodes = Some n → gn_id n = k ∧ n ∈ graph.
Proof.
  intros H%index_by_id_elem. apply list_elem_of_fmap in H as (m & Hm & ?). by simplify_eq.
Qed.

Lemma rhs_index_elem k i : dget k rhs_index = Some i → ks !! i = Some (v k).
Proof.
  intros H%index_by_id_elem. apply list_elem_of_lookup_1 in H as [j Hj].
  apply lookup_zip_Some in Hj as [Hk Hi]. apply lookup_seq in Hi as [-> _]. cbn.
  rewrite list_lookup_fmap in Hk. subst ks. rewrite list_lookup_fmap.
  destruct (rhs !! j); by simplify_eq/=.
Qed.

(** The value a partial stage expression [(base, row)] stands for. *)
Definition stage_value (stage : nat) (r : Qc * list Qc) : Qc :=
  (r.1 * y + dt * dot r.2 (take stage ks))%Qc.

Lemma affine_term_sound stage r ref encoded r' :
  length r.2 = stage → affine_term state_id rhs_index stage r (ref, encoded) = Ok r' →
  length r'.2 = stage ∧ ∃ poly, polynomial encoded = Ok poly
    ∧ stage_value stage r' = (stage_value stage r + poly_value dt poly * v ref)%Qc.
Proof.
  destruct r as [base row]. cbn [affine_term fst snd]. intros Hl H. inv_ok.
  match goal with Hp : polynomial encoded = Ok ?p |- _ =>
    pose proof (polynomial_NoDup _ _ Hp) as Hn; rename p into poly end.
  destruct (ref =? state_id)%nat eqn:Er.
  - inv_ok. bools. subst ref. split; [done|]. exists poly. split; [done|].
    match goal with Hf : forallb _ _ = true |- _ =>
      rewrite (poly_value_single dt poly 0 Hn Hf) end.
    unfold stage_value; cbn [fst snd]. change (qpow dt 0) with 1%Qc. fold y. ring.
  - destruct (dget ref rhs_index) as [i|] eqn:Ei; [|done]. inv_ok. bools.
    cbn [fst snd]. split; [by rewrite length_alter|]. exists poly. split; [done|].
    match goal with Hf : forallb _ _ = true |- _ =>
      rewrite (poly_value_single dt poly 1 Hn Hf) end.
    unfold stage_value; cbn [fst snd]. rewrite dot_alter by lia.
    rewrite lookup_take_lt by lia. rewrite (rhs_index_elem _ _ Ei).
    change (qpow dt 1) with (dt * 1)%Qc. unfold default, id. ring.
Qed.

Lemma affine_terms_sound stage refs data r r' :
  length r.2 = stage → length refs = length data →
  fold_res (affine_term state_id rhs_index stage) r (zip refs data) = Ok r' →
  length r'.2 = stage ∧ ∃ polys, map_res polynomial data = Ok polys
    ∧ stage_value stage r' = (stage_value stage r
        + qsum (zip_with (fun r p => poly_value dt p * v r)%Qc refs polys))%Qc.
Proof.
  revert data r; induction refs as [|ref refs IH]; intros [|enc data] r Hr Hl H; try done;
    cbn [zip zip_with fold_res] in H.
  - inv_ok. split; [done|]. exists []. cbn. rewrite qsum_nil. split; [done | ring].
  - apply Nat.succ_inj in Hl. destruct (affine_term _ _ _ _ _) as [r1|] eqn:E1; [|done].
    cbn [mbind res_bind] in H. apply affine_term_sound in E1 as (Hr1 & poly & Hp & Hv1); [|done].
    apply IH in H as (Hr' & polys & Hps & Hv'); [|done|done]. split; [done|].
    exists (poly :: polys). cbn [map_res zip_with]. rewrite Hp, Hps. split; [done|].
    rewrite Hv', Hv1, qsum_cons. ring.
Qed.

Lemma dot_repeat_zero n l : dot (repeat 0%Qc n) l = 0%Qc.
Proof.
  revert l; induction n as [|n IH]; intros [|x l]; try done. cbn [repeat].
  rewrite dot_cons, IH. ring.
Qed.

Lemma affine_of_sound node_id stage r :
  affine_of nodes state_id rhs_index node_id stage = Ok r →
  length r.2 = stage ∧ v node_id = stage_value stage r.
Proof.
  unfold affine_of. intros H. destruct (node_id =? state_id)%nat eqn:E.
  - inv_ok. bools. subst. cbn [fst snd]. rewrite repeat_length. split; [done|].
    unfold stage_value; cbn [fst snd]. rewrite dot_repeat_zero. fold y. ring.
  - destruct (dget node_id nodes) as [n|] eqn:En; [|done]. apply nodes_elem in En as [<- Hin].
    destruct (gn_kind n) as [| |op coeffs| |] eqn:Ek; try done. inv_ok.
    match goal with Ho : String.eqb op _ = true |- _ => apply String.eqb_eq in Ho as -> end. destruct coeffs as [data|]; [|done]. inv_ok. bools.
    match goal with Hf : fold_res _ _ _ = Ok _ |- _ =>
      apply affine_terms_sound in Hf as (Hr & polys & Hps & Hval);
        [|cbn; by rewrite repeat_length|done] end.
    split; [done|]. rewrite Hval. destruct (Hv n Hin) as [Hc _].
    rewrite (Hc data (map (poly_value dt) polys) Ek).
    + unfold stage_value; cbn [fst snd]. rewrite dot_repeat_zero, zip_with_fmap_r. ring.
    + specialize (Hg n data Hin Ek). apply map_res_Forall2 in Hps. clear -Hg Hps. induction Hps as [|d p data polys E _ IH]; [constructor|].
      apply Forall_cons in Hg as [Hd Hg]. constructor; [by apply polynomial_denotes|by apply IH].
Qed.
End Sound.

Lemma rk_stages_unique f t dt y A c pre ks :
  length A = length ks → length c = length ks →
  (∀ i row ci, A !! i = Some row → c !! i = Some ci →
     ks !! i = Some (f (t + ci * dt)
       (y + dt * dot row (take (length pre + i) (pre ++ ks)))%Qc)%Qc) →
  rk_stages f t dt y A c pre = pre ++ ks.
Proof.
  revert c pre ks; induction A as [|row A IH]; intros [|ci c] pre [|k ks] HA Hc H; try done.
  - cbn. by rewrite app_nil_r.
  - cbn [rk_stages]. pose proof (H 0%nat row ci eq_refl eq_refl) as Hk. cbn in Hk.
    rewrite Nat.add_0_r, take_app_length in Hk. injection Hk as <-.
    rewrite (IH c (pre ++ [k]) ks).
    + by rewrite <- app_assoc.
    + cbn in HA; lia.
    + cbn in Hc; lia.
    + intros i row' ci' Hr Hci. pose proof (H (S i) row' ci' Hr Hci) as Hi. cbn in Hi.
      rewrite length_app, <- app_assoc. cbn.
      by replace (length pre + 1 + i)%nat with (length pre + S i)%nat by lia.
Qed.

Lemma dot_pad s row l : (length row <= s)%nat → dot (pad_row s row) l = dot row l.
Proof.
  unfold pad_row. revert row l. induction s as [|s IH]; intros [|z row] l Hl;
    [done | cbn in Hl; lia | |].
  - rewrite (map_ext _ (fun _ => 0%Qc)) by (intros j; by destruct j).
    assert (Hz : ∀ (ns : list nat) m, dot (map (fun _ => 0%Qc) ns) m = 0%Qc).
    { clear. induction ns as [|n ns IH]; intros [|x m]; try done. cbn [map].
      rewrite dot_cons, IH. ring. }
    apply Hz.
  - destruct l as [|x l]; [by rewrite !dot_nil_r|]. cbn [seq map]. rewrite !dot_cons.
    rewrite <- seq_shift, map_map. rewrite <- (IH row l) by (cbn in Hl; lia). done.
Qed.

(** Every rate node of an executed graph is evaluated at the stage its row describes. *)
Lemma reconstructed_stages graph state_id rhs abscissae A rates t0 dt v :
  let nodes := index_by_id (map (fun n => (gn_id n, n)) graph) in
  let rhs_index := index_by_id (zip (map gn_id rhs) (seq 0 (length rhs))) in
  executes rates t0 dt v graph → coefficients_ok graph →
  (∀ n, n ∈ rhs → n ∈ graph ∧ is_explicit_rate_call n = true) →
  map_res point_offset rhs = Ok abscissae →
  map_res (fun '(i, rate) => stage_row nodes state_id rhs_index i rate)
    (zip (seq 0 (length rhs)) rhs) = Ok A →
  length A = length rhs ∧ length abscissae = length rhs
  ∧ ∀ i rate, rhs !! i = Some rate → ∃ row c r refs, A !! i = Some row ∧ length row = i ∧ abscissae !! i = Some c ∧ gn_refs rate = r :: refs
    ∧ v r = (v state_id + dt * dot row (take i (map (fun n => v (gn_id n)) rhs)))%Qc
    ∧ v (gn_id rate) = rates rate (t0 + c * dt)%Qc (v r :: map v refs).
Proof.
  intros nodes rhs_index Hv Hg Hrhs Habs HA.
  assert (HlA : length A = length rhs).
  { apply map_res_length in HA. rewrite HA, length_zip, length_seq. lia. }
  split; [done|]. split; [by eapply map_res_length|]. intros i rate Hrate.
  apply map_res_Forall2 in HA, Habs.
  destruct (Forall2_lookup_l _ _ _ _ _ Habs Hrate) as (c & Hc & Hoff).
  assert (Hz : zip (seq 0 (length rhs)) rhs !! i = Some (i, rate)).
  { apply lookup_zip_Some. split; [|done]. apply lookup_seq. split; [done|]. by apply lookup_lt_Some in Hrate. }
  destruct (Forall2_lookup_l _ _ _ _ _ HA Hz) as (row & Hrow & Hstage). unfold stage_row in Hstage.
  destruct (gn_refs rate) as [|ref refs] eqn:Href; [done|]. inv_ok. bools. subst.
  match goal with Ha : affine_of _ _ _ _ _ = Ok _ |- _ =>
    apply (affine_of_sound graph rhs state_id rates t0 dt v Hv Hg) in Ha as [Hlen Hval] end.
  cbn [fst snd] in *. destruct (Hrhs rate) as [Hin Hcall]; [by eapply list_elem_of_lookup_2|].
  exists row, c, ref, refs. split_and!; try done.
  - rewrite Hval. unfold stage_value; cbn [fst snd]. ring.
  - rewrite (proj2 (Hv rate Hin) c Hcall); [by rewrite Href|]. by apply literal_value_denotes.
Qed.

(** ** Claims *)

(** The step a graph executes: the rates of its calls at the stages of the arrays, and the
    combination of the weights. *)
Definition executed_step (rates : gnode → Qc → list Qc → Qc) (t0 dt y : Qc) (v : nat → Qc) (calls : list gnode)
    (A : list (list Qc)) (b c : list Qc) (y1 : Qc) : Prop :=
  let ks := map (fun n => v (gn_id n)) calls in
  (∀ i n, calls !! i = Some n → ∃ row ci r refs, A !! i = Some row ∧ c !! i = Some ci ∧ gn_refs n = r :: refs
     ∧ v r = (y + dt * dot row (take i ks))%Qc
     ∧ v (gn_id n) = rates n (t0 + ci * dt)%Qc (v r :: map v refs))
  ∧ y1 = (y + dt * dot b ks)%Qc.

(** One rate for all calls makes it the step of the arrays. *)
Lemma executed_step_rk rates f t0 dt y v calls A b c y1 :
  length A = length calls → length c = length calls →
  executed_step rates t0 dt y v calls A b c y1 →
  (∀ n t x xs, n ∈ calls → rates n t (x :: xs) = f t x) →
  y1 = rk_step f t0 dt y A b c.
Proof.
  intros HA Hc [Hst ->] Hf. unfold rk_step. rewrite (rk_stages_unique f t0 dt y A c [] (map (fun n => v (gn_id n)) calls)); try by rewrite length_map.
  - done.
  - intros i row ci Hr Hci. destruct (calls !! i) as [n|] eqn:Hn; [|apply lookup_ge_None in Hn; apply lookup_lt_Some in Hr; lia].
    destruct (Hst i n Hn) as (row' & ci' & r & refs & HAi & Hci' & _ & Hval & Hrate). simplify_eq.
    rewrite list_lookup_fmap, Hn. cbn. rewrite Hrate, Hval. f_equal. apply Hf. by eapply list_elem_of_lookup_2.
Qed.

(** The properties of a certificate are those of its arrays. *)
Lemma certified_properties graph pc cert :
  certify_program_graph graph = Ok pc → pc_tableau pc = Some cert → pc_properties pc = cert_properties cert.
Proof.
  unfold certify_program_graph. intros H Hc. inv_ok.
  repeat match type of H with context [match ?x with _ => _ end] => destruct x; try done end; simplify_eq/=; done.
Qed.

(** The certified arrays describe the value of the commit. *)
Lemma certify_sound graph pc cert :
  certify_program_graph graph = Ok pc → pc_tableau pc = Some cert → coefficients_ok graph →
  ∃ state commit final rest,
    List.filter is_state_read graph = [state]
    ∧ List.filter is_commit graph = [commit] ∧ gn_refs commit = final :: rest
    ∧ qsum (cert_b cert) = 1%Qc
    ∧ let calls := List.filter is_explicit_rate_call graph in
      length (cert_A cert) = length calls ∧ length (cert_c cert) = length calls ∧ length (cert_b cert) = length calls
      ∧ ∀ rates t0 dt v, executes rates t0 dt v graph →
        executed_step rates t0 dt (v (gn_id state)) v calls (cert_A cert) (cert_b cert) (cert_c cert) (v final).
Proof.
  unfold certify_program_graph. intros H Hc Hg.
  set (rhs := List.filter is_explicit_rate_call graph) in *.
  destruct (map_res point_offset rhs) as [abscissae|] eqn:Habs; [|done]. cbn [mbind res_bind] in H.
  destruct (List.filter is_state_read graph) as [|state [|]] eqn:Hst; try by (inv_ok; simplify_eq/=).
  destruct rhs as [|r0 rhs'] eqn:Hrhs; [by inv_ok; simplify_eq/=|]. rewrite <- Hrhs in *.
  destruct (List.filter is_commit graph) as [|commit [|]] eqn:Hco; try by (inv_ok; simplify_eq/=).
  destruct (reconstruct _ _ _ _ _ _) as [[A b]|e] eqn:Hrec; [|destruct e; inv_ok; simplify_eq/=].
  injection H as <-. injection Hc as <-. unfold reconstruct in Hrec. inv_ok.
  destruct (gn_refs commit) as [|final rest] eqn:Hfin; [done|]. inv_ok. bools. subst.
  assert (Hin : ∀ n, n ∈ rhs → n ∈ graph ∧ is_explicit_rate_call n = true).
  { intros x Hx. subst rhs. apply list_elem_of_In, filter_In in Hx. by rewrite list_elem_of_In. }
  match goal with Ha : map_res (fun '(_, _) => _) _ = Ok _ |- _ => rename Ha into HA end.
  match goal with Ha : affine_of _ _ _ final _ = Ok _ |- _ => rename Ha into Hb end.
  assert (Hlb : ∀ rates t0 dt v, executes rates t0 dt v graph → length b = length rhs
    ∧ v final = (v (gn_id state) + dt * dot b (map (fun n => v (gn_id n)) rhs))%Qc).
  { intros rates t0 dt v Hv. destruct (affine_of_sound graph rhs (gn_id state) rates t0 dt v Hv Hg _ _ _ Hb) as [Hl Hval].
    cbn [fst snd] in *. split; [done|]. rewrite Hval. unfold stage_value. cbn [fst snd]. rewrite take_ge by (by rewrite length_map). ring. }
  exists state, commit, final, rest. cbn [cert_A cert_b cert_c certificate_from_coefficients]. split_and!; try done.
  - rewrite length_map. by apply map_res_length in HA; rewrite HA, length_zip, length_seq; lia.
  - by eapply map_res_length.
  - apply affine_of_length in Hb. done.
  - intros rates t0 dt v Hv. destruct (Hlb rates t0 dt v Hv) as [Hl Hfinal]. split; [|done].
    destruct (reconstructed_stages graph (gn_id state) rhs _ A rates t0 dt v Hv Hg Hin Habs HA) as (_ & _ & Hst').
    intros i n Hn. destruct (Hst' i n Hn) as (row & c & r & refs & HAi & Hrow & Hci & Href & Hval & Hrate).
    exists (pad_row (length b) row), c, r, refs. rewrite list_lookup_fmap, HAi. split_and!; try done.
    rewrite dot_pad; [done|]. apply lookup_lt_Some in Hn. lia.
Qed.

(** C38: a graph certified with a tableau carries the properties of exactly the arrays
    that were reconstructed, and these arrays are the step the graph computes: with every
    coefficient read as the scalars times the powers of [dt] the data list, whatever rate
    each call evaluates at its own point on its own inputs, each call is evaluated at the
    stage its row describes and the value committed is the state plus [dt] times the
    weighted rates.  When the calls evaluate one rate of the time and of their first input,
    which the certifier does not check, the value committed is the one of the certified
    Runge-Kutta step.  The data of an affine node hold every power once, as the items of a
    Python dictionary do. *)
Theorem program_certificate_sound graph pc cert :
  certify_program_graph graph = Ok pc → pc_tableau pc = Some cert → coefficients_ok graph →
  pc_properties pc = cert_properties cert
  ∧ ∃ state commit final rest,
      List.filter is_state_read graph = [state]
      ∧ List.filter is_commit graph = [commit] ∧ gn_refs commit = final :: rest
      ∧ let calls := List.filter is_explicit_rate_call graph in
        length (cert_A cert) = length calls ∧ length (cert_c cert) = length calls ∧ length (cert_b cert) = length calls
        ∧ ∀ rates t0 dt v, executes rates t0 dt v graph →
          executed_step rates t0 dt (v (gn_id state)) v calls (cert_A cert) (cert_b cert) (cert_c cert) (v final)
          ∧ ∀ f, (∀ n t x xs, n ∈ calls → rates n t (x :: xs) = f t x) →
            v final = rk_step f t0 dt (v (gn_id state)) (cert_A cert) (cert_b cert) (cert_c cert).
Proof.
  intros H Hc Hg. split; [by eapply certified_properties|].
  destruct (certify_sound graph pc cert H Hc Hg) as (state & commit & final & rest & Hs & Hco & Hf & _ & HlA & Hlc & Hlb & He).
  exists state, commit, final, rest. do 3 (split; [done|]). intros calls. do 3 (split; [done|]).
  intros rates t0 dt v Hv. specialize (He rates t0 dt v Hv). split; [done|]. intros f Hsame.
  by apply (executed_step_rk rates f t0 dt (v (gn_id state)) v calls).
Qed.

(** A two-stage graph: Heun's method on the operators [o1] and [o2]. *)
Definition lit (z : Z) : literal := Literal (PInteger z) None None None.
Definition half : literal := Literal (PRational (q 1 2)) None None None.

Definition heun_graph (o1 o2 : string) : list gnode :=
  [ GNode 0 KStateRead [] (lit 0);
    GNode 1 (KCall o1 "local_rate" "rhs" "rhs") [0%nat] (lit 0);
    GNode 2 (KValue "linear_combine" (Some [[(lit 0, lit 1)]; [(lit 1, lit 1)]])) [0%nat; 1%nat] (lit 1);
    GNode 3 (KCall o2 "local_rate" "rhs" "rhs") [2%nat] (lit 1);
    GNode 4 (KValue "linear_combine"
      (Some [[(lit 0, lit 1)]; [(lit 1, half)]; [(lit 1, half)]])) [0%nat; 1%nat; 3%nat] (lit 1);
    GNode 5 KCommit [4%nat] (lit 1) ].

(** The data of the graph hold every power once. *)
Lemma denotes_term_literal k l x : 0 <= k → denotes (l_payload l) x → denotes_term (lit k, l) (k, x).
Proof. done. Qed.

Lemma coefficient_items_one k l x : 0 <= k → denotes (l_payload l) x → coefficient_items [(lit k, l)].
Proof.
  intros Hk Hx. exists [(k, x)]. split; [|apply NoDup_singleton].
  constructor; [by apply denotes_term_literal | constructor].
Qed.

Lemma heun_coefficients o1 o2 : coefficients_ok (heun_graph o1 o2).
Proof.
  assert (H1 : ∀ k z, 0 <= k → coefficient_items [(lit k, lit z)]) by (intros k z Hk; apply (coefficient_items_one k (lit z) (qz z) Hk); apply denotes_integer).
  assert (H2 : coefficient_items [(lit 1, half)]) by (apply (coefficient_items_one 1 half (q 1 2)); [lia|apply denotes_rational]).
  intros n data Hn Hk. unfold heun_graph in Hn. set_unfold.
  repeat destruct Hn as [->|Hn]; try done; injection Hk as <-; repeat constructor; auto with lia.
Qed.

Lemma denotes_fun p x y : denotes p x → denotes p y → x = y.
Proof. inversion 1; by inversion 1. Qed.

Lemma denotes_term_fun l t t' : denotes_term l t → denotes_term l t' → t = t'.
Proof.
  destruct t as [k x], t' as [k' x']. intros (Hk & _ & Hx) (Hk' & _ & Hx'). cbn in *.
  rewrite Hk in Hk'. injection Hk' as <-. f_equal. by eapply denotes_fun.
Qed.

Lemma coefficient_value_fun dt data c c' : coefficient_value dt data c → coefficient_value dt data c' → c = c'.
Proof.
  intros (ts & F & ->) (ts' & F' & ->). f_equal. revert ts' F'.
  induction F as [|l t data ts Hl _ IH]; intros ts' F'; inversion F' as [|? t' ? ts2 Hl' F2]; subst; [done|].
  f_equal; [by eapply denotes_term_fun | by apply IH].
Qed.

Lemma coefficient_values_fun dt data cs cs' : Forall2 (coefficient_value dt) data cs → Forall2 (coefficient_value dt) data cs' → cs = cs'.
Proof.
  intros F. revert cs'. induction F as [|d c data cs Hd _ IH]; intros cs' F'; inversion F' as [|? c' ? cs2 Hd' F2]; subst; [done|].
  f_equal; [by eapply coefficient_value_fun | by apply IH].
Qed.

Lemma coefficient_value_one dt k l x : 0 <= k → denotes (l_payload l) x → coefficient_value dt [(lit k, l)] (x * qpow dt k)%Qc.
Proof.
  intros Hk Hx. exists [(k, x)]. split; [constructor; [by apply denotes_term_literal|constructor]|].
  unfold poly_value. cbn [map fst snd]. rewrite qsum_cons, qsum_nil. by rewrite Qcplus_0_r.
Qed.

(** Heun's graph executed on [y' = y] and [y' = 2 y] (the two operators), from 1 with
    a step of 1. *)
Definition heun_values (i : nat) : Qc := nth i [1%Qc; 1%Qc; qz 2; qz 4; q 7 2] 0%Qc.
Definition heun_rates (n : gnode) (t : Qc) (xs : list Qc) : Qc :=
  (match gn_id n with 1%nat => 1 | _ => qz 2 end * hd 0%Qc xs)%Qc.

Lemma heun_executes : executes heun_rates 0%Qc 1%Qc heun_values (heun_graph "rate" "other").
Proof.
  assert (H1 : ∀ k z, 0 <= k → coefficient_value 1%Qc [(lit k, lit z)] (qz z * qpow 1%Qc k)%Qc) by (intros k z Hk; apply (coefficient_value_one _ k (lit z)); [done|apply denotes_integer]).
  assert (H2 : coefficient_value 1%Qc [(lit 1, half)] (q 1 2 * qpow 1%Qc 1)%Qc) by (apply (coefficient_value_one _ 1 half); [lia|apply denotes_rational]).
  intros n Hn. unfold heun_graph in Hn. set_unfold.
  repeat destruct Hn as [->|Hn]; try done; split; try done.
  - intros data cs Hk F. injection Hk as <-.
    rewrite <- (coefficient_values_fun _ _ _ _ ltac:(repeat constructor; [apply (H1 0 1); lia|apply (H1 1 1); lia]) F).
    by apply Qc_is_canon.
  - intros data cs Hk F. injection Hk as <-.
    rewrite <- (coefficient_values_fun _ _ _ _ ltac:(repeat constructor; [apply (H1 0 1); lia|apply H2|apply H2]) F).
    by apply Qc_is_canon.
Qed.

(** The operators differ, and the graph is certified all the same. *)
Lemma program_certificate_sound_witness :
  ∃ pc cert, certify_program_graph (heun_graph "rate" "other") = Ok pc
    ∧ pc_tableau pc = Some cert ∧ pc_properties pc = cert_properties cert
    ∧ ∃ state commit final calls, executed_step heun_rates 0%Qc 1%Qc (heun_values (gn_id state)) heun_values calls
        (cert_A cert) (cert_b cert) (cert_c cert) (heun_values final)
      ∧ List.filter is_commit (heun_graph "rate" "other") = [commit].
Proof.
  destruct (certify_program_graph (heun_graph "rate" "other")) as [pc|] eqn:E;
    [|vm_compute in E; discriminate E].
  destruct (pc_tableau pc) as [cert|] eqn:Ec.
  - exists pc, cert. split; [reflexivity|]. split; [exact Ec|].
    destruct (program_certificate_sound _ _ _ E Ec (heun_coefficients "rate" "other"))
      as [Hp (state & commit & final & rest & _ & Hco & _ & _ & _ & _ & He)].
    split; [exact Hp|]. exists state, commit, final. eexists. split; [|exact Hco].
    exact (proj1 (He heun_rates 0%Qc 1%Qc heun_values heun_executes)).
  - exfalso. assert (H : pc_tableau <$> certify_program_graph (heun_graph "rate" "other") = Ok None)
      by (rewrite E; cbn; by rewrite Ec).
    vm_compute in H. discriminate H.
Defined.

(** The identity of the operators is not part of the reconstruction: Heun's
    graph is certified as a second-order SSP method whatever the two operators
    its stages call, equal or different. *)
Theorem certificate_ignores_operators o1 o2 :
  ((fun pc => (p_order (pc_properties pc), p_ssp (pc_properties pc)))
     <$> certify_program_graph (heun_graph o1 o2)) = Ok (Order 2, Some 1%Qc).
Proof. vm_compute. reflexivity. Qed.
