(* ===== verification/ProgramIR.v ===== *)
(** * The Program IR and its live set

    The data model of [python/pops/time/_program]: SSA values named by their id,
    the allow-lists of [constants.py], the reference walk and the worklist of
    [passes.py]. *)
From S2P Require Import Prelude.

(** ** Values and programs *)

(** An attribute that holds a value or an affine combination of values. *)
Inductive aref := RValue (id : nat) | RAffine (terms : list nat).

(** A [ProgramValue].  [n_data] is the canonical JSON of everything
    [_serialize_node] keeps besides op, vtype and inputs (block, state, space,
    field context, point without its name, attributes). *)
Record node := Node {
  n_name : string;
  n_op : string;
  n_vtype : string;
  n_data : string;
  n_field : string;                       (* attrs[field] *)
  n_inputs : list nat;
  n_arefs : list (string * aref);
  n_cond : option nat;                    (* the cond of attrs[schedule] *)
  n_blocks : list (string * list nat);
  n_coeffs : option nat }.                (* length of attrs[coeffs] *)

(** A [Program]: the issued values by id, the flat list [_values] and the
    commits (state identity, value). *)
Record program := Program {
  p_heap : gmap nat node;
  p_values : list nat;
  p_commits : list (string * nat) }.

(** [_REMOVABLE_OPS], [_PURE_OPS], [_STATE_BARRIER_OPS], [_SUBBLOCK_OPS]. *)
Definition REMOVABLE_OPS : list string :=
  ["rhs"; "diffusive_rhs"; "source"; "implicit_source"; "apply"; "local_transform";
   "linear_combine"; "linear_source"; "solve_local_linear"; "cell_compare"; "where";
   "reduce"; "scalar_op"; "compare"].

Definition PURE_OPS : list string :=
  ["linear_combine"; "linear_source"; "cell_compare"; "where"; "scalar_op"; "compare"].

Definition STATE_BARRIER_OPS : list string :=
  ["project"; "fill_boundary"; "store_history"; "input_fields"; "solve_fields";
   "solve_fields_from_blocks"; "solve_coupled_implicit"; "solve_implicit_source";
   "solve_spatial_nonlinear"].

Definition SUBBLOCK_OPS : list string :=
  ["while"; "branch"; "range"; "subcycle"; "matrix_free_operator"; "solve_local_nonlinear";
   "post_synchronization"; "solve_spatial_nonlinear"].

Definition op_in (op : string) (l : list string) : bool := existsb (String.eqb op) l.

Lemma op_in_elem op l : op_in op l = true ↔ op ∈ l.
Proof.
  unfold op_in. rewrite existsb_exists, list_elem_of_In. split.
  - intros (x & ? & ->%String.eqb_eq). done.
  - intros. exists op. by rewrite String.eqb_refl.
Qed.

(** ** [_subblock_value_refs] *)

Definition VALUE_KEYS : list string :=
  ["cond"; "body"; "true_result"; "false_result"; "residual"; "iterate"; "guess";
   "apply_result"; "apply_in"; "apply_out"].

Definition BLOCK_KEYS : list string :=
  ["cond_block"; "body_block"; "true_block"; "false_block"; "apply_block"; "residual_block"].

Definition aref_ids (r : option aref) : list nat :=
  match r with None => [] | Some (RValue i) => [i] | Some (RAffine l) => l end.

Section Heap.
Context (h : gmap nat node).

(** The fuel bounds the nesting of sub-blocks. *)
Fixpoint subblock_value_refs (fuel : nat) (v : node) : list nat :=
  match fuel with
  | O => []
  | S fuel =>
      flat_map (fun key => aref_ids (dget key (n_arefs v))) VALUE_KEYS
      ++ match n_cond v with Some c => [c] | None => [] end
      ++ flat_map (fun key =>
           flat_map (fun w =>
             match h !! w with
             | Some nw => w :: n_inputs nw ++ subblock_value_refs fuel nw
             | None => [w]
             end) (default [] (dget key (n_blocks v)))) BLOCK_KEYS
  end.
End Heap.

(** Nested regions are at most as deep as the number of issued values. *)
Definition refs (p : program) (v : node) : list nat :=
  subblock_value_refs (p_heap p) (S (size (p_heap p))) v.

Definition get (p : program) (i : nat) : option node := p_heap p !! i.

(** Everything a node reads: its flat inputs and the references its attributes
    carry. *)
Definition reads (p : program) (v : node) : list nat := n_inputs v ++ refs p v.

Definition node_reads (p : program) (i : nat) : list nat :=
  match get p i with Some v => reads p v | None => [] end.

Definition op_of (p : program) (i : nat) : string :=
  match get p i with Some v => n_op v | None => EmptyString end.

(** ** [_live_value_ids] *)

(** The keys of [by_id]. *)
Definition by_id (p : program) : list nat :=
  p_values p ++ flat_map (fun i => match get p i with Some v => refs p v | None => [] end) (p_values p).

Definition roots (p : program) : list nat :=
  map snd (p_commits p)
  ++ List.filter (fun i => negb (op_in (op_of p i) REMOVABLE_OPS)) (p_values p).

(** The worklist: [stack.pop()] takes the head; inputs then references are
    pushed. *)
Fixpoint live_loop (fuel : nat) (p : program) (live : gset nat) (stack : list nat)
    : option (gset nat) :=
  match stack with
  | [] => Some live
  | vid :: stack =>
      match fuel with
      | O => None
      | S fuel =>
          if decide (vid ∈ live ∨ vid ∉ by_id p) then live_loop fuel p live stack
          else live_loop fuel p ({[vid]} ∪ live) (rev (node_reads p vid) ++ stack)
      end
  end.

Definition live_fuel (p : program) : nat :=
  (length (roots p)
   + sum_list_with (fun i => length (node_reads p i)) (remove_dups (by_id p)))%nat.

Definition live_value_ids (p : program) : gset nat :=
  default ∅ (live_loop (live_fuel p) p ∅ (rev (roots p))).

(** *** The worklist computes reachability *)

(** Reachable from the roots through the values the walk knows. *)
Inductive reachable (p : program) : nat → Prop :=
| reachable_root i : i ∈ roots p → i ∈ by_id p → reachable p i
| reachable_step i j : reachable p i → j ∈ node_reads p i → j ∈ by_id p → reachable p j.

Definition pending (p : program) (live : gset nat) : nat :=
  sum_list_with (fun i => if decide (i ∈ live) then 0%nat else length (node_reads p i))
    (remove_dups (by_id p)).

Lemma sum_visit (f : nat → nat) (l : list nat) (live : gset nat) i :
  NoDup l → i ∈ l → i ∉ live →
  sum_list_with (fun j => if decide (j ∈ live) then 0%nat else f j) l
  = (f i + sum_list_with (fun j => if decide (j ∈ {[i]} ∪ live) then 0%nat else f j) l)%nat.
Proof.
  intros Hnd Hi Hlive. induction Hnd as [|x l Hx Hnd IH]; [set_solver|]. cbn.
  destruct (decide (x = i)) as [->|Hne].
  - rewrite (decide_False (P := i ∈ live)) by done.
    rewrite (decide_True (P := i ∈ {[i]} ∪ live)) by set_solver. cbn.
    f_equal. clear IH Hi Hnd. induction l as [|y l IH]; [done|]. cbn.
    rewrite (decide_ext (y ∈ live) (y ∈ {[i]} ∪ live)) by set_solver.
    rewrite IH by set_solver. done.
  - rewrite (decide_ext (x ∈ live) (x ∈ {[i]} ∪ live)) by set_solver.
    rewrite IH by set_solver. lia.
Qed.

Lemma live_loop_total p fuel live stack :
  (length stack + pending p live <= fuel)%nat → is_Some (live_loop fuel p live stack).
Proof.
  revert live stack; induction fuel as [|fuel IH]; intros live [|vid stack] H; cbn in *;
    [eauto | lia | eauto |].
  destruct (decide _) as [Hd|Hd].
  - apply IH. lia.
  - apply IH. apply Decidable.not_or in Hd as [Hl Hb].
    assert (Hin : vid ∈ by_id p) by (destruct (decide (vid ∈ by_id p)); [done | by destruct Hb]).
    unfold pending in *.
    rewrite (sum_visit (fun i => length (node_reads p i)) _ live vid) in H;
      [|apply NoDup_remove_dups | by apply elem_of_remove_dups | done].
    rewrite length_app, length_rev. lia.
Qed.

Lemma live_loop_sound p fuel live stack out :
  live_loop fuel p live stack = Some out →
  (∀ i, i ∈ live → reachable p i) → (∀ i, i ∈ stack → i ∈ by_id p → reachable p i) →
  ∀ i, i ∈ out → reachable p i.
Proof.
  revert live stack; induction fuel as [|fuel IH]; intros live [|vid stack] H Hl Hs; cbn in H;
    simplify_eq; try done.
  case_decide as Hd.
  - eapply IH; [exact H | done |]. intros. apply Hs; [by right | done].
  - apply Decidable.not_or in Hd as [Hv Hb].
    assert (Hin : vid ∈ by_id p) by (destruct (decide (vid ∈ by_id p)); [done | by destruct Hb]).
    assert (Hr : reachable p vid) by (apply Hs; [left | done]).
    eapply IH; [exact H | |].
    + intros i [->%elem_of_singleton|?]%elem_of_union; auto.
    + intros i [Hi|Hi]%elem_of_app Hbi; [|apply Hs; [by right | done]].
      eapply reachable_step; [exact Hr | | done].
      by apply list_elem_of_In, in_rev, list_elem_of_In.
Qed.

Lemma live_loop_closed p fuel live stack out :
  live_loop fuel p live stack = Some out →
  (∀ i j, i ∈ live → j ∈ node_reads p i → j ∈ by_id p → j ∈ live ∨ j ∈ stack) →
  live ⊆ out ∧ (∀ i, i ∈ stack → i ∈ by_id p → i ∈ out)
  ∧ (∀ i j, i ∈ out → j ∈ node_reads p i → j ∈ by_id p → j ∈ out).
Proof.
  revert live stack; induction fuel as [|fuel IH]; intros live [|vid stack] H Hc; cbn in H;
    simplify_eq.
  1,2: split_and!; [done | by intros i ?%elem_of_nil |];
    intros i j Hi Hj Hb; by destruct (Hc i j Hi Hj Hb) as [?|?%elem_of_nil].
  case_decide as Hd.
  - apply IH in H as (Hsub & Hst & Hcl).
    + split_and!; auto. intros i [->|?]%elem_of_cons Hb; [|auto].
      destruct Hd as [?|?]; [by apply Hsub | done].
    + intros i j Hi Hj Hb. destruct (Hc i j Hi Hj Hb) as [?|[->|?]%elem_of_cons]; [by left| |by right].
      left. by destruct Hd.
  - apply IH in H as (Hsub & Hst & Hcl).
    + split_and!; [set_solver | | done]. intros i [->|?]%elem_of_cons Hb.
      * apply Hsub. set_solver.
      * apply Hst; [|done]. apply elem_of_app. by right.
    + intros i j [->%elem_of_singleton|Hi]%elem_of_union Hj Hb.
      * right. apply elem_of_app. left. by apply list_elem_of_In, in_rev; rewrite rev_involutive;
          apply list_elem_of_In.
      * destruct (Hc i j Hi Hj Hb) as [?|[->|?]%elem_of_cons]; [left | left | right]; set_solver.
Qed.

Lemma live_value_ids_spec p i : i ∈ live_value_ids p ↔ reachable p i.
Proof.
  unfold live_value_ids. destruct (live_loop_total p (live_fuel p) ∅ (rev (roots p))) as [out Ho].
  { unfold live_fuel, pending. rewrite length_rev. apply Nat.add_le_mono_l.
    induction (remove_dups (by_id p)) as [|x l IH]; cbn; [done|].
    rewrite (decide_False (P := x ∈ ∅)) by set_solver. lia. }
  rewrite Ho. unfold default, id. split.
  - intros Hi. eapply live_loop_sound; [exact Ho | set_solver | | exact Hi].
    intros j Hj Hb. apply reachable_root; [|done]. by apply list_elem_of_In, in_rev, list_elem_of_In.
  - apply live_loop_closed in Ho as (_ & Hst & Hcl); [|set_solver].
    induction 1 as [i Hi Hb|i j _ IH Hj Hb]; [|by apply (Hcl i)].
    apply Hst; [|done]. apply list_elem_of_In. by rewrite <- in_rev, <- list_elem_of_In.
Qed.

(** C5: the live set is exactly what the commits and the non-removable nodes
    reach through inputs and attribute references: the worklist terminates
    within its fuel, marks every such value and no other. *)
Theorem live_set_is_reachability p i : i ∈ live_value_ids p ↔ reachable p i.
Proof. apply live_value_ids_spec. Qed.
