(* ===== verification/AuthoringTransaction.v ===== *)
(** * Transactional authoring

    [python/pops/time/_authoring.py]: a builder method that runs user callbacks
    takes a snapshot of the program's mutable containers and restores them in
    place when the callback raises.  The containers are shared objects: the
    model has a heap of them and the restoration writes into the same cells. *)
From S2P Require Import Prelude.
#[local] Open Scope nat_scope.

(** ** The object graph of a program *)

(** A reference to a container, or any other object. *)
Inductive val := Atom (n : nat) | Ref (l : nat).
#[global] Instance val_dec : EqDecision val.
Proof. solve_decision. Defined.

(** The built-in containers; a set is the list of its elements. *)
Inductive content :=
| CList (items : list val)
| CDict (items : list (val * val))
| CSet (items : list val)
| CTuple (items : list val).

Notation heap := (gmap nat content).

Definition children (c : content) : list val :=
  match c with
  | CList l | CSet l | CTuple l => l
  | CDict d => flat_map (fun kv => [kv.1; kv.2]) d
  end.

Definition is_tuple (c : content) : bool := match c with CTuple _ => true | _ => false end.

(** A program: its attribute bindings and the heap they point into. *)
Record state := State { st_attributes : list (string * val); st_heap : heap }.

(** ** The snapshot *)

(** [_visit]: the markers seen, and the mutable containers with their contents
    in the order they are met. *)
Definition visited : Type := list nat * list (nat * content).

Definition visit_ref (rec : visited → val → visited) (h : heap) (l : nat) (acc : visited) : visited :=
  if decide (l ∈ acc.1) then acc
  else match h !! l with
       | None => acc
       | Some c =>
           fold_left rec (children c)
             (l :: acc.1, if is_tuple c then acc.2 else acc.2 ++ [(l, c)])
       end.

Fixpoint visit (fuel : nat) (h : heap) (acc : visited) (v : val) : visited :=
  match fuel, v with
  | S fuel, Ref l => visit_ref (visit fuel h) h l acc
  | _, _ => acc
  end.

Record snapshot := Snapshot {
  sn_attributes : list (string * val); sn_containers : list (nat * content) }.

(** [_AuthoringSnapshot.__init__] *)
Definition take_snapshot (s : state) : snapshot :=
  Snapshot (st_attributes s)
    (fold_left (visit (S (size (st_heap s))) (st_heap s)) (map snd (st_attributes s)) ([], [])).2.

(** [set.update] *)
Definition set_update (items : list val) : list val :=
  fold_left (fun s x => if decide (x ∈ s) then s else s ++ [x]) items [].

(** One container of the loop of [restore]: refilled in place. *)
Definition restore_container (h : heap) (entry : nat * content) : heap :=
  match entry.2 with
  | CList items => <[entry.1 := CList items]> h
  | CDict items => <[entry.1 := CDict (dupdate [] items)]> h
  | CSet items => <[entry.1 := CSet (set_update items)]> h
  | CTuple _ => h
  end.

(** [restore] *)
Definition restore (snap : snapshot) (s : state) : state :=
  State (sn_attributes snap) (fold_left restore_container (rev (sn_containers snap)) (st_heap s)).

(** [authoring_transaction] around a call that may raise. *)
Definition authoring_transaction {A} (body : state → state * res A) (s : state) : state * res A :=
  let snap := take_snapshot s in
  match body s with
  | (s', Err e) => (restore snap s', Err e)
  | (s', Ok a) => (s', Ok a)
  end.

(** ** Reachability *)

(** What can be observed from the program: the containers its attributes lead
    to. *)
Inductive reach (h : heap) (roots : list val) : nat → Prop :=
| reach_root l : Ref l ∈ roots → is_Some (h !! l) → reach h roots l
| reach_child l c m : reach h roots l → h !! l = Some c → Ref m ∈ children c → is_Some (h !! m) →
    reach h roots m.

Definition reachable (s : state) : nat → Prop := reach (st_heap s) (map snd (st_attributes s)).

(** Keys of dictionaries and elements of sets are distinct. *)
Definition content_ok (c : content) : Prop :=
  match c with CDict d => NoDup (dkeys d) | CSet l => NoDup l | _ => True end.
Definition heap_ok (h : heap) : Prop := ∀ l c, h !! l = Some c → content_ok c.

(** How running code changes a heap: objects keep their kind, tuples never
    change, nothing that is still referenced disappears. *)
Definition same_kind (c c' : content) : bool :=
  match c, c' with
  | CList _, CList _ | CDict _, CDict _ | CSet _, CSet _ | CTuple _, CTuple _ => true
  | _, _ => false
  end.
Definition evolves (h h' : heap) : Prop :=
  ∀ l c, h !! l = Some c → ∃ c', h' !! l = Some c' ∧ same_kind c c' = true
    ∧ (is_tuple c = true → c' = c).

(** ** Lemmas: the traversal *)

Section Traversal.
Context (h : heap).

Definition unseen (acc : visited) : nat := size (dom h ∖ (list_to_set acc.1 : gset nat)).

Definition visited_ok (acc : visited) : Prop :=
  (∀ l, l ∈ acc.1 → is_Some (h !! l))
  ∧ (∀ l c, (l, c) ∈ acc.2 ↔ l ∈ acc.1 ∧ h !! l = Some c ∧ is_tuple c = false).

(** [v] is visited. *)
Definition covers (acc : visited) (v : val) : Prop := ∀ l, v = Ref l → is_Some (h !! l) → l ∈ acc.1.

(** Everything added has all its children visited. *)
Definition explored (acc acc' : visited) : Prop :=
  (∀ l, l ∈ acc.1 → l ∈ acc'.1)
  ∧ (∀ l c, l ∈ acc'.1 → l ∉ acc.1 → h !! l = Some c → ∀ v, v ∈ children c → covers acc' v).

Lemma explored_refl acc : explored acc acc.
Proof. by split. Qed.

Lemma explored_trans a b c : explored a b → explored b c → explored a c.
Proof.
  intros [H1 H2] [H3 H4]. split; [auto|]. intros l x Hl Hn Hx v Hv.
  destruct (decide (l ∈ b.1)) as [Hb|Hb]; [|by apply (H4 l x)].
  intros m -> Hm. apply H3. by apply (H2 l x Hb Hn Hx (Ref m)).
Qed.

Lemma unseen_mono acc acc' : (∀ l, l ∈ acc.1 → l ∈ acc'.1) → unseen acc' <= unseen acc.
Proof. intros H. unfold unseen. apply subseteq_size. intros l. rewrite !elem_of_difference, !elem_of_list_to_set. naive_solver. Qed.

Lemma unseen_cons l acc conts : is_Some (h !! l) → l ∉ acc.1 → unseen (l :: acc.1, conts) < unseen acc.
Proof.
  intros Hl Hn. unfold unseen. apply subset_size. apply strict_spec_alt. cbn. split.
  - set_solver.
  - intros E. assert (H : l ∈ dom h ∖ (list_to_set acc.1 : gset nat)).
    { apply elem_of_difference. rewrite elem_of_list_to_set. by split; [apply elem_of_dom|]. }
    rewrite <- E in H. set_solver.
Qed.

Lemma visited_cons l c acc :
  visited_ok acc → h !! l = Some c → l ∉ acc.1 →
  visited_ok (l :: acc.1, if is_tuple c then acc.2 else acc.2 ++ [(l, c)]).
Proof.
  intros [H1 H2] Hc Hn. split; cbn.
  - intros m [->|Hm]%elem_of_cons; [by eexists | auto].
  - intros m d. rewrite elem_of_cons. destruct (is_tuple c) eqn:T.
    + rewrite H2. split; [tauto|]. intros ([->|?] & E & ?); [congruence | tauto].
    + rewrite elem_of_app, list_elem_of_singleton, H2. split.
      * intros [?|[= -> ->]]; tauto.
      * intros ([->|?] & E & ?); [right; congruence | tauto].
Qed.

Lemma visited_nil : visited_ok ([], []).
Proof.
  split; cbn; [by intros ? ?%elem_of_nil|]. intros l c.
  split; [by intros ?%elem_of_nil | by intros [?%elem_of_nil _]].
Qed.

Definition visits (f : visited → visited) (vs : list val) (acc : visited) : Prop :=
  visited_ok (f acc) ∧ explored acc (f acc) ∧ ∀ v, v ∈ vs → covers (f acc) v.

Lemma visits_fold fuel (step : visited → val → visited) vs :
  (∀ acc v, visited_ok acc → unseen acc < fuel → visits (fun a => step a v) [v] acc) →
  ∀ acc, visited_ok acc → unseen acc < fuel → visits (fun a => fold_left step vs a) vs acc.
Proof.
  intros Hs. induction vs as [|v vs IH]; intros acc Hok Hf; cbn.
  { split_and!; [done | apply explored_refl | by intros ? ?%elem_of_nil]. }
  destruct (Hs acc v Hok Hf) as (H1 & H2 & H3).
  destruct (IH (step acc v) H1) as (H4 & H5 & H6).
  { pose proof (unseen_mono acc _ (proj1 H2)). lia. }
  split_and!; [done | by eapply explored_trans |].
  intros x [->|Hx]%elem_of_cons; [|auto]. intros l -> Hl. apply (proj1 H5). apply (H3 (Ref l)); [left | done | done].
Qed.

Lemma snapshot_visit fuel : ∀ acc v, visited_ok acc → unseen acc < fuel → visits (fun a => visit fuel h a v) [v] acc.
Proof.
  induction fuel as [|fuel IH]; intros acc v Hok Hf; [lia|]. unfold visits. cbn [visit].
  destruct v as [n|l].
  { split_and!; [done | apply explored_refl|]. intros x ->%list_elem_of_singleton m [=]. }
  unfold visit_ref. destruct (decide (l ∈ acc.1)) as [Hin|Hn].
  { split_and!; [done | apply explored_refl|]. by intros x ->%list_elem_of_singleton m [= <-] _. }
  destruct (h !! l) as [c|] eqn:Hc.
  2:{ split_and!; [done | apply explored_refl|].
      intros x ->%list_elem_of_singleton m [= <-] [? Hs]. by rewrite Hc in Hs. }
  pose proof (visited_cons l c acc Hok Hc Hn) as Hok'.
  set (acc1 := (l :: acc.1, if is_tuple c then acc.2 else acc.2 ++ [(l, c)])) in *.
  assert (Hm : unseen acc1 < unseen acc) by (apply unseen_cons; [by eexists | done]).
  destruct (visits_fold fuel (visit fuel h) (children c) IH acc1 Hok' ltac:(lia)) as (H1 & [H2 H2'] & H3).
  split_and!; [done | split |].
  - intros m Hmem. apply H2. by right.
  - intros m d Hmem Hnm Hd v Hv. destruct (decide (m = l)) as [->|Hne].
    + rewrite Hc in Hd. injection Hd as <-. by apply H3.
    + apply (H2' m d); try done. cbn. by intros [->|?]%elem_of_cons.
  - intros x ->%list_elem_of_singleton m [= <-] _. apply H2. left.
Qed.
End Traversal.

Lemma snapshot_spec s l c :
  (l, c) ∈ sn_containers (take_snapshot s) → st_heap s !! l = Some c ∧ is_tuple c = false.
Proof.
  unfold take_snapshot. cbn. set (roots := map snd _).
  destruct (visits_fold (st_heap s) (S (size (st_heap s))) (visit (S (size (st_heap s))) (st_heap s)) roots
              (snapshot_visit _ _) ([], [])) as ((_ & H) & _).
  - apply visited_nil.
  - unfold unseen. cbn. rewrite difference_empty_L, size_dom. lia.
  - intros Hin%H. tauto.
Qed.

Lemma snapshot_complete s l c :
  reachable s l → st_heap s !! l = Some c → is_tuple c = false → (l, c) ∈ sn_containers (take_snapshot s).
Proof.
  unfold take_snapshot, reachable. cbn. set (roots := map snd _). set (h := st_heap s).
  destruct (visits_fold h (S (size h)) (visit (S (size h)) h) roots (snapshot_visit _ _) ([], [])) as (H1 & [_ H2] & H3).
  - apply visited_nil.
  - unfold unseen. cbn. rewrite difference_empty_L, size_dom. lia.
  - intros Hr Hc Ht. apply H1. split_and!; [|done|done]. clear c Hc Ht.
    induction Hr as [l Hl Hs|l c m _ IH Hc Hm Hs]; [by apply (H3 (Ref l))|].
    apply (H2 l c IH (not_elem_of_nil l) Hc (Ref m) Hm m eq_refl Hs).
Qed.

(** ** Lemmas: the restoration *)

Lemma set_update_from (items : list val) : ∀ s, NoDup (s ++ items) →
  fold_left (fun s x => if decide (x ∈ s) then s else s ++ [x]) items s = s ++ items.
Proof.
  induction items as [|x items IH]; intros s H; cbn; [by rewrite app_nil_r|]. rewrite decide_False.
  - rewrite IH; rewrite <- app_assoc; done.
  - apply NoDup_app in H as (_ & H & _). intros Hx. apply (H x Hx). left.
Qed.

Lemma restore_container_eq h l c :
  content_ok c → is_tuple c = false → restore_container h (l, c) = <[l := c]> h.
Proof.
  intros Hok Ht. destruct c as [d|d|d|d]; cbn in *; try done.
  - by rewrite dupdate_fresh.
  - unfold set_update. by rewrite set_update_from.
Qed.

Lemma restored_lookup (h : heap) (l : nat) conts : ∀ h' : heap,
  (∀ m c, (m, c) ∈ conts → h !! m = Some c ∧ content_ok c ∧ is_tuple c = false) →
  fold_left restore_container conts h' !! l = if decide (l ∈ map fst conts) then h !! l else h' !! l.
Proof.
  induction conts as [|[m c] conts IH]; intros h' H; cbn [fold_left map fst].
  { by rewrite decide_False by apply not_elem_of_nil. }
  destruct (H m c (list_elem_of_here _ _)) as (Hm & Hc & Ht).
  rewrite restore_container_eq, IH by (done || (intros; apply H; by right)).
  destruct (decide (l ∈ map fst conts)) as [Hl|Hl].
  - rewrite decide_True; [done | by right].
  - destruct (decide (l = m)) as [->|Hne].
    + rewrite lookup_insert_eq, decide_True; [done | left].
    + rewrite lookup_insert_ne by done. rewrite decide_False; [done|]. by intros [->|?]%elem_of_cons.
Qed.

Lemma snapshot_entries s m c :
  heap_ok (st_heap s) → (m, c) ∈ rev (sn_containers (take_snapshot s)) →
  st_heap s !! m = Some c ∧ content_ok c ∧ is_tuple c = false.
Proof.
  intros Hok Hin. rewrite list_elem_of_In, <- in_rev, <- list_elem_of_In in Hin.
  apply snapshot_spec in Hin as [? ?]. split_and!; [done | by eapply Hok | done].
Qed.

Lemma restore_lookup s s' l :
  heap_ok (st_heap s) → evolves (st_heap s) (st_heap s') → reachable s l →
  st_heap (restore (take_snapshot s) s') !! l = st_heap s !! l.
Proof.
  intros Hok Hev Hr. unfold restore. cbn [st_heap]. rewrite (restored_lookup (st_heap s)).
  - destruct (decide _) as [Hl|Hl]; [done|].
    assert (is_Some (st_heap s !! l)) as [c Hc] by (by destruct Hr).
    destruct (Hev l c Hc) as (c' & Hc' & _ & Ht). destruct (is_tuple c) eqn:T.
    + by rewrite Hc', Hc, (Ht eq_refl).
    + exfalso. apply Hl. apply list_elem_of_fmap. exists (l, c). split; [done|].
      rewrite list_elem_of_In, <- in_rev, <- list_elem_of_In. by apply snapshot_complete.
  - intros m c Hin. by apply snapshot_entries.
Qed.

Lemma reach_agree (h h' : heap) roots :
  (∀ l, reach h roots l → h' !! l = h !! l) → ∀ l, reach h roots l → reach h' roots l.
Proof.
  intros H l Hr. induction Hr as [l Hl Hs|l c m Hr IH Hc Hm Hs].
  - apply reach_root; [done|]. rewrite H; [done | by apply reach_root].
  - apply (reach_child _ _ l c); [done | by rewrite H | done|].
    rewrite H; [done | by eapply reach_child].
Qed.

(** Objects reachable after the restoration were reachable before. *)
Lemma reach_back (h h' : heap) roots :
  (∀ l, reach h roots l → h' !! l = h !! l) → (∀ l, is_Some (h !! l) → is_Some (h' !! l)) →
  (∀ l c, h !! l = Some c → ∀ m, Ref m ∈ children c → is_Some (h !! m)) →
  (∀ l, Ref l ∈ roots → is_Some (h !! l)) →
  ∀ l, reach h' roots l → reach h roots l.
Proof.
  intros H Hd Hc Hr l Hl. induction Hl as [l Hl _|l c m _ IH Hcl Hm _].
  - apply reach_root; [done | by apply Hr].
  - rewrite H in Hcl by done. apply (reach_child _ _ l c); [done..|]. by eapply Hc.
Qed.

(** No reference of the program dangles. *)
Definition closed (s : state) : Prop :=
  (∀ l, Ref l ∈ map snd (st_attributes s) → is_Some (st_heap s !! l))
  ∧ ∀ l c, st_heap s !! l = Some c → ∀ m, Ref m ∈ children c → is_Some (st_heap s !! m).

Lemma same_kind_refl c : same_kind c c = true.
Proof. by destruct c. Qed.

(** A restored heap is one that running code could have produced, so a
    transaction inside another one is an ordinary body for it. *)
Lemma restore_evolves s s' :
  heap_ok (st_heap s) → evolves (st_heap s) (st_heap s') →
  evolves (st_heap s) (st_heap (restore (take_snapshot s) s')).
Proof.
  intros Hok Hev l c Hc. unfold restore. cbn [st_heap].
  rewrite (restored_lookup (st_heap s)) by (intros; by apply snapshot_entries).
  destruct (decide _); [|by apply Hev]. exists c. split_and!; [done | apply same_kind_refl | done].
Qed.

(** ** Theorems *)

(** C8: a failed authoring call leaves no trace.  Whatever a call guarded by
    [authoring_transaction] does before it raises (rebinding attributes,
    mutating shared lists, dictionaries and sets in place, allocating), the
    program afterwards has the attributes it had, reaches exactly the
    containers it reached, and each of them has its original contents; the heap
    it leaves is again one a surrounding transaction can restore. *)
Theorem failed_authoring_is_undone {A} (body : state → state * res A) s s' e :
  heap_ok (st_heap s) → closed s → evolves (st_heap s) (st_heap (body s).1) →
  authoring_transaction body s = (s', Err e) →
  st_attributes s' = st_attributes s
  ∧ (∀ l, reachable s' l ↔ reachable s l)
  ∧ (∀ l, reachable s l → st_heap s' !! l = st_heap s !! l)
  ∧ evolves (st_heap s) (st_heap s').
Proof.
  intros Hok [Hroots Hchildren] Hev H. unfold authoring_transaction in H.
  destruct (body s) as [s1 [a|e1]]; [discriminate H|]. injection H as <- _. cbn in Hev.
  pose proof (restore_lookup s s1) as Hl.
  split_and!; [done | | intros; by apply Hl | by apply restore_evolves].
  intros l. unfold reachable. cbn [st_attributes restore sn_attributes take_snapshot]. split.
  - apply reach_back; try done; [intros; by apply Hl|].
    intros m [c Hc]. destruct (restore_evolves s s1 Hok Hev m c Hc) as (c' & ? & _). by exists c'.
  - apply reach_agree. intros; by apply Hl.
Qed.

(** A program with a value list that a region table shares through a tuple, and
    a call that appends to the list, commits, rebinds an attribute and raises. *)
Definition toy_program : state :=
  State [("_values", Ref 0); ("_commits", Ref 1); ("_recording_regions", Ref 2); ("_next_id", Atom 4)]
    (list_to_map [(0, CList [Atom 1]); (1, CDict []); (2, CDict [(Atom 7, Ref 3)]); (3, CTuple [Ref 0; Atom 1])]).
Definition toy_call (s : state) : state * res unit :=
  (State [("_values", Ref 9); ("_next_id", Atom 5)]
     (<[9 := CList [Ref 0]]> (<[1 := CDict [(Atom 3, Atom 4)]]> (<[0 := CList [Atom 1; Atom 8]]> (st_heap s)))),
   Err ValueError).

Lemma toy_heap (P : nat → content → Prop) :
  Forall (fun lc => P lc.1 lc.2) (map_to_list (st_heap toy_program)) →
  ∀ l c, st_heap toy_program !! l = Some c → P l c.
Proof. intros H l c Hc%elem_of_map_to_list. rewrite Forall_forall in H. by apply (H (l, c)). Qed.

Lemma failed_authoring_is_undone_witness :
  st_heap (toy_call toy_program).1 !! 0 = Some (CList [Atom 1; Atom 8])
  ∧ let s := (authoring_transaction toy_call toy_program).1 in
    st_attributes s = st_attributes toy_program ∧ st_heap s !! 0 = Some (CList [Atom 1]).
Proof.
  split; [reflexivity|].
  assert (Hok : heap_ok (st_heap toy_program)).
  { intros l c. apply (toy_heap (fun _ c => content_ok c)). vm_compute.
    repeat constructor; by intros ?%elem_of_nil. }
  assert (Hcl : closed toy_program).
  { split.
    - intros l Hl. cbn in Hl. repeat (apply elem_of_cons in Hl as [E|Hl]; [first [discriminate E | injection E as ->; vm_compute; by eexists]|]).
      by apply elem_of_nil in Hl.
    - apply (toy_heap (fun _ c => ∀ m, Ref m ∈ children c → is_Some (st_heap toy_program !! m))).
      vm_compute. repeat constructor; intros m Hm;
        repeat (apply elem_of_cons in Hm as [E|Hm]; [first [discriminate E | injection E as ->; by eexists]|]); by apply elem_of_nil in Hm. }
  assert (Hev : evolves (st_heap toy_program) (st_heap (toy_call toy_program).1)).
  { intros l c. apply (toy_heap (fun l c => ∃ c', st_heap (toy_call toy_program).1 !! l = Some c'
        ∧ same_kind c c' = true ∧ (is_tuple c = true → c' = c))).
    vm_compute. repeat constructor; by eexists. }
  destruct (failed_authoring_is_undone toy_call toy_program
              (authoring_transaction toy_call toy_program).1 ValueError Hok Hcl Hev
              ltac:(reflexivity)) as (H1 & _ & H2 & _).
  split; [exact H1|]. rewrite H2; [reflexivity|]. apply reach_root; [left | vm_compute; by eexists].
Defined.
