(* ===== verification/Passes.v ===== *)
(** * The optimization passes

    Dead-node elimination, common-subexpression elimination and redundant
    field-solve elimination of [python/pops/time/_program/passes.py], each as the
    pair it hands to [_rebuild]: the flat nodes it keeps and the alias map. *)
From S2P Require Import Prelude ProgramIR.

(** ** [rep] of [rebuild.py]: follow the alias chain *)
Fixpoint rep_chain (fuel : nat) (alias : gmap nat nat) (i : nat) : nat :=
  match fuel with
  | O => i
  | S fuel =>
      match alias !! i with
      | Some j => if decide (j = i) then i else rep_chain fuel alias j
      | None => i
      end
  end.

Definition rep (alias : gmap nat nat) (i : nat) : nat := rep_chain (S (size alias)) alias i.

(** What a pass asks of the rebuild. *)
Record rewrite := Rewrite { rw_keep : list nat; rw_alias : gmap nat nat }.

(** ** [eliminate_dead_nodes] *)
Definition eliminate_dead_nodes (p : program) : rewrite :=
  let live := live_value_ids p in
  Rewrite (List.filter (fun i => bool_decide (i ∈ live)) (p_values p)) ∅.

(** ** [eliminate_common_subexpressions] *)
Definition cse_key_t : Type := string * string * string * list nat.

(** [canon.get(i, i)] *)
Definition canon_get (canon : gmap nat nat) (i : nat) : nat := default i (canon !! i).

Definition cse_key (v : node) (canon : gmap nat nat) : cse_key_t :=
  (n_op v, n_vtype v, n_data v, map (canon_get canon) (n_inputs v)).

Record cse_state := CseState {
  cse_canon : gmap nat nat;
  cse_reps : list (cse_key_t * nat);
  cse_drop : gset nat }.

Definition cse_step (p : program) (st : cse_state) (i : nat) : cse_state :=
  match get p i with
  | None => st
  | Some v =>
      if op_in (n_op v) PURE_OPS then
        let key := cse_key v (cse_canon st) in
        match dget key (cse_reps st) with
        | Some r => CseState (<[i := r]> (cse_canon st)) (cse_reps st) ({[i]} ∪ cse_drop st)
        | None => CseState (<[i := i]> (cse_canon st)) (dset key i (cse_reps st)) (cse_drop st)
        end
      else st
  end.

Definition cse_scan (p : program) : cse_state :=
  foldl (cse_step p) (CseState ∅ [] ∅) (p_values p).

Definition eliminate_common_subexpressions (p : program) : rewrite :=
  let st := cse_scan p in
  if decide (cse_drop st = ∅) then Rewrite (p_values p) ∅
  else Rewrite (List.filter (fun i => negb (bool_decide (i ∈ cse_drop st))) (p_values p))
               (cse_canon st).

(** ** [eliminate_redundant_field_solves] *)
Record solve_state := SolveState {
  sv_active : option ((nat * string) * nat);
  sv_canon : gmap nat nat;
  sv_drop : gset nat }.

Definition solve_step (p : program) (st : solve_state) (i : nat) : res solve_state :=
  match get p i with
  | None => Ok st
  | Some v =>
      if String.eqb (n_op v) "solve_fields" then
        match n_inputs v with
        | [state_in] =>
            let sig := (state_in, n_field v) in
            match sv_active st with
            | Some (sig', prior) =>
                if decide (sig = sig') then
                  Ok (SolveState (sv_active st) (<[i := prior]> (sv_canon st)) ({[i]} ∪ sv_drop st))
                else Ok (SolveState (Some (sig, i)) (sv_canon st) (sv_drop st))
            | None => Ok (SolveState (Some (sig, i)) (sv_canon st) (sv_drop st))
            end
        | _ => Err ValueError
        end
      else if op_in (n_op v) STATE_BARRIER_OPS || bool_decide (i ∈ map snd (p_commits p))
      then Ok (SolveState None (sv_canon st) (sv_drop st))
      else Ok st
  end.

Definition solve_scan (p : program) : res solve_state :=
  fold_res (solve_step p) (SolveState None ∅ ∅) (p_values p).

Definition eliminate_redundant_field_solves (p : program) : res rewrite :=
  st ← solve_scan p;
  if decide (sv_drop st = ∅) then Ok (Rewrite (p_values p) ∅)
  else Ok (Rewrite (List.filter (fun i => negb (bool_decide (i ∈ sv_drop st))) (p_values p))
                   (sv_canon st)).

(** ** Execution of a flat list

    [exec] is the semantics of one node on the values of the nodes it reads and
    on a store (the buffers, the shared fields, the histories); a rewritten
    program reads every value through the alias map. *)
Section Execution.
Context {Store Val : Type} (exec : node → (nat → option Val) → Store → Val * Store).

Definition env := nat → option Val.
Definition bind_value (i : nat) (v : Val) (e : env) : env :=
  fun j => if decide (j = i) then Some v else e j.

Fixpoint run (p : program) (view : nat → nat) (ids : list nat) (e : env) (s : Store) : env * Store :=
  match ids with
  | [] => (e, s)
  | i :: ids =>
      match get p i with
      | None => run p view ids e s
      | Some n =>
          let '(v, s') := exec n (fun j => e (view j)) s in
          run p view ids (bind_value i v e) s'
      end
  end.

Definition run_program (p : program) : env → Store → env * Store := run p (fun i => i) (p_values p).
Definition run_rewrite (p : program) (rw : rewrite) : env → Store → env * Store :=
  run p (rep (rw_alias rw)) (rw_keep rw).

(** The committed values agree: what a pass must preserve. *)
Definition same_outcome (p : program) (rw : rewrite) (e : env) (s : Store) : Prop :=
  let '(e1, s1) := run_program p e s in
  let '(e2, s2) := run_rewrite p rw e s in
  s2 = s1 ∧ ∀ state i, (state, i) ∈ p_commits p → e2 (rep (rw_alias rw) i) = e1 i.

(** A node's semantics depends on the values it reads. *)
Definition reads_only (p : program) : Prop := ∀ n e1 e2 s,
  (∀ j, j ∈ reads p n → e1 j = e2 j) → exec n e1 s = exec n e2 s.

Lemma rep_empty i : rep ∅ i = i.
Proof. unfold rep. cbn [rep_chain]. by rewrite lookup_empty. Qed.

Lemma rep_none alias i : alias !! i = None → rep alias i = i.
Proof. intros H. unfold rep. cbn [rep_chain]. by rewrite H. Qed.

Lemma rep_once alias i j :
  alias !! i = Some j → (alias !! j = None ∨ alias !! j = Some j) → rep alias i = j.
Proof.
  intros Hi Hj. unfold rep. cbn [rep_chain]. rewrite Hi. destruct (decide (j = i)) as [->|]; [done|].
  destruct (size alias) as [|m] eqn:E.
  - apply map_size_empty_inv in E. subst. by rewrite lookup_empty in Hi.
  - cbn [rep_chain]. destruct Hj as [-> | ->]; [done|]. by rewrite decide_True.
Qed.

Lemma run_ext p view1 view2 ids e s :
  (∀ n e1 e2 s, (∀ j, e1 j = e2 j) → exec n e1 s = exec n e2 s) →
  (∀ j, view1 j = view2 j) → run p view1 ids e s = run p view2 ids e s.
Proof.
  intros Hext Hv. revert e s; induction ids as [|i ids IH]; intros e s; cbn; [done|].
  destruct (get p i) as [n|]; [|done].
  rewrite (Hext n (fun j => e (view1 j)) (fun j => e (view2 j))) by (intros; by rewrite Hv).
  destruct (exec _ _ _). apply IH.
Qed.

Lemma bind_same i v e : bind_value i v e i = Some v.
Proof. unfold bind_value. by rewrite decide_True. Qed.

Lemma bind_other i j v e : j ≠ i → bind_value i v e j = e j.
Proof. intros. unfold bind_value. by rewrite decide_False. Qed.

(** *** Dead nodes *)

Section Dead.
Context (p : program) (Hlocal : reads_only p).
Context (Hremovable : ∀ n e s, n_op n ∈ REMOVABLE_OPS → (exec n e s).2 = s).

Definition dead (i : nat) : Prop := i ∈ p_values p ∧ i ∉ live_value_ids p.

Lemma values_by_id i : i ∈ p_values p → i ∈ by_id p.
Proof. intros. apply elem_of_app. by left. Qed.

Lemma dead_removable i n : dead i → get p i = Some n → n_op n ∈ REMOVABLE_OPS.
Proof.
  intros [Hi Hl] Hn. destruct (op_in (n_op n) REMOVABLE_OPS) eqn:E; [by apply op_in_elem|].
  exfalso. apply Hl, live_value_ids_spec, reachable_root; [|by apply values_by_id].
  apply elem_of_app. right. apply list_elem_of_In, filter_In. split; [by apply list_elem_of_In|].
  unfold op_of. by rewrite Hn, E.
Qed.

Lemma live_reads_not_dead i n j :
  i ∈ live_value_ids p → get p i = Some n → j ∈ reads p n → ¬ dead j.
Proof.
  intros Hi Hn Hj [Hv Hl]. apply Hl, live_value_ids_spec.
  apply live_value_ids_spec in Hi. eapply reachable_step; [exact Hi | | by apply values_by_id].
  unfold node_reads. by rewrite Hn.
Qed.

Lemma commit_not_dead state i : (state, i) ∈ p_commits p → ¬ dead i.
Proof.
  intros Hc [Hv Hl]. apply Hl, live_value_ids_spec, reachable_root; [|by apply values_by_id].
  apply elem_of_app. left. apply list_elem_of_fmap. by exists (state, i).
Qed.

Lemma dead_run ids e1 e2 s :
  (∀ i, i ∈ ids → i ∈ p_values p) → (∀ j, ¬ dead j → e2 j = e1 j) →
  let r1 := run p (fun i => i) ids e1 s in
  let r2 := run p (fun i => i)
              (List.filter (fun i => bool_decide (i ∈ live_value_ids p)) ids) e2 s in
  r2.2 = r1.2 ∧ ∀ j, ¬ dead j → r2.1 j = r1.1 j.
Proof.
  revert e1 e2 s; induction ids as [|i ids IH]; intros e1 e2 s Hin He; cbn [List.filter run]; [done|].
  case_bool_decide as Hi; cbn [run]; destruct (get p i) as [n|] eqn:En.
  2,4: apply IH; [intros; apply Hin; by right | done].
  - rewrite (Hlocal n (fun j => e2 j) (fun j => e1 j)).
    2:{ intros j Hj. apply He. by eapply live_reads_not_dead. }
    destruct (exec n _ s) as [v s']. apply IH; [intros; apply Hin; by right |].
    intros j Hj. unfold bind_value. case_decide; auto.
  - assert (Hd : dead i) by (split; [apply Hin; left | done]).
    pose proof (Hremovable n (fun j => e1 j) s (dead_removable _ _ Hd En)) as Hs.
    destruct (exec n _ s) as [v s']; cbn in Hs; subst s'.
    apply IH; [intros; apply Hin; by right |].
    intros j Hj. rewrite bind_other; [auto | by intros ->].
Qed.

Lemma dead_nodes_outcome e s : same_outcome p (eliminate_dead_nodes p) e s.
Proof.
  unfold same_outcome, run_program, run_rewrite, eliminate_dead_nodes; cbn [rw_alias rw_keep].
  rewrite (run_ext p (rep ∅) (fun i => i)).
  2:{ intros n e1 e2 s' H. apply Hlocal. auto. }
  2:{ intros. apply rep_empty. }
  destruct (dead_run (p_values p) e e s) as [Hs He]; [done | done |].
  destruct (run p _ (p_values p) e s) as [e1 s1]. destruct (run _ _ _ _ _) as [e2 s2].
  cbn [fst snd] in *. split; [done|]. intros st i Hc. rewrite rep_empty. apply He. by eapply commit_not_dead.
Qed.
End Dead.

(** *** Alias maps

    What a pass knows after the nodes outside [todo]: the two environments agree
    on the kept nodes, and a dropped node has its representative's value. *)
Lemma canon_get_insert canon i r j :
  canon_get (<[i := r]> canon) j = if decide (j = i) then r else canon_get canon j.
Proof.
  unfold canon_get. case_decide; subst; [by rewrite lookup_insert_eq | by rewrite lookup_insert_ne].
Qed.

Lemma canon_get_none canon j : canon !! j = None → canon_get canon j = j.
Proof. unfold canon_get. by intros ->. Qed.

Definition settled (canon : gmap nat nat) (r : nat) : Prop :=
  canon !! r = None ∨ canon !! r = Some r.

Record alias_inv (todo : list nat) (canon : gmap nat nat) (drop : gset nat) (e1 e2 : env) : Prop := {
  ai_canon : ∀ j, e1 (canon_get canon j) = e1 j;
  ai_kept : ∀ j, canon_get canon j ∉ drop;
  ai_agree : ∀ j, j ∉ drop → e2 j = e1 j;
  ai_todo : ∀ j, j ∈ todo → canon !! j = None ∧ j ∉ drop;
  ai_rep_todo : ∀ j, j ∉ todo → canon_get canon j ∉ todo;
  ai_chain : ∀ j r, canon !! j = Some r → settled canon r }.

Lemma alias_inv_init todo e : alias_inv todo ∅ ∅ e e.
Proof. split; unfold canon_get; cbn; try done; set_solver. Qed.

Lemma alias_rep todo canon drop e1 e2 j :
  alias_inv todo canon drop e1 e2 → rep canon j = canon_get canon j.
Proof.
  intros H. unfold canon_get. destruct (canon !! j) as [r|] eqn:Ej.
  - apply rep_once; [done | by apply (ai_chain _ _ _ _ _ H _ _ Ej)].
  - by apply rep_none.
Qed.

Lemma alias_read todo canon drop e1 e2 j :
  alias_inv todo canon drop e1 e2 → e2 (canon_get canon j) = e1 j.
Proof.
  intros H. rewrite (ai_agree _ _ _ _ _ H) by apply (ai_kept _ _ _ _ _ H).
  apply (ai_canon _ _ _ _ _ H).
Qed.

Lemma alias_not_todo i todo canon drop e1 e2 j :
  alias_inv (i :: todo) canon drop e1 e2 → j ≠ i → canon_get canon j ≠ i.
Proof.
  intros H Hj Heq. destruct (decide (j ∈ todo)) as [Ht|Ht].
  - destruct (ai_todo _ _ _ _ _ H j) as [Hn _]; [by right|].
    rewrite (canon_get_none _ _ Hn) in Heq. done.
  - apply (ai_rep_todo _ _ _ _ _ H j); [set_solver|]. rewrite Heq. left.
Qed.

Lemma alias_skip i todo canon drop e1 e2 :
  alias_inv (i :: todo) canon drop e1 e2 → i ∉ todo → alias_inv todo canon drop e1 e2.
Proof.
  intros H Hi. destruct (ai_todo _ _ _ _ _ H i) as [Hc _]; [left|].
  split; try apply H.
  - intros j Hj. apply (ai_todo _ _ _ _ _ H). by right.
  - intros j Hj. destruct (decide (j = i)) as [->|].
    + by rewrite canon_get_none.
    + pose proof (ai_rep_todo _ _ _ _ _ H j). set_solver.
Qed.

(** A node that is kept: both executions bind it to the same value. *)
Lemma alias_kept i todo canon drop e1 e2 v :
  i ∉ todo → alias_inv (i :: todo) canon drop e1 e2 →
  alias_inv todo canon drop (bind_value i v e1) (bind_value i v e2).
Proof.
  intros Hnd H. destruct (ai_todo _ _ _ _ _ H i) as [Hc Hd]; [left|].
  destruct (alias_skip _ _ _ _ _ _ H Hnd) as [_ Hk _ Ht Hr Hch].
  split; try done.
  - intros j. unfold bind_value. destruct (decide (j = i)) as [->|Hj].
    + by rewrite (canon_get_none _ _ Hc), decide_True.
    + rewrite decide_False by by eapply alias_not_todo. apply (ai_canon _ _ _ _ _ H).
  - intros j Hj. unfold bind_value. case_decide; [done|]. by apply (ai_agree _ _ _ _ _ H).
Qed.

(** A kept node recorded as its own representative. *)
Lemma alias_self i todo canon drop e1 e2 :
  alias_inv todo canon drop e1 e2 → canon !! i = None → i ∉ todo →
  alias_inv todo (<[i := i]> canon) drop e1 e2.
Proof.
  intros H Hc Hi.
  assert (Hget : ∀ j, canon_get (<[i := i]> canon) j = canon_get canon j).
  { intros j. rewrite canon_get_insert. case_decide; [|done]. subst. by rewrite canon_get_none. }
  split; try (intros j; rewrite Hget; apply H); try apply H.
  - intros j Hj. rewrite lookup_insert_ne by (intros ->; done). by apply (ai_todo _ _ _ _ _ H).
  - intros j r Hj. unfold settled. destruct (decide (r = i)) as [->|Hr].
    + right. apply lookup_insert_eq.
    + rewrite lookup_insert_ne by done. destruct (decide (j = i)) as [->|Hj'].
      * rewrite lookup_insert_eq in Hj. by simplify_eq.
      * rewrite lookup_insert_ne in Hj by done. by apply (ai_chain _ _ _ _ _ H _ _ Hj).
Qed.

(** A node that is dropped onto an earlier one of the same value. *)
Lemma alias_drop i todo canon drop e1 e2 r v :
  i ∉ todo → alias_inv (i :: todo) canon drop e1 e2 →
  r ∉ i :: todo → r ∉ drop → settled canon r → e1 r = Some v →
  alias_inv todo (<[i := r]> canon) ({[i]} ∪ drop) (bind_value i v e1) e2.
Proof.
  intros Hnd H Hrt Hrd Hrs Hv. destruct (ai_todo _ _ _ _ _ H i) as [Hc Hd]; [left|].
  assert (Hri : r ≠ i) by set_solver.
  pose proof (alias_kept i todo canon drop e1 e2 v Hnd H) as Hk.
  split.
  - intros j. rewrite canon_get_insert. destruct (decide (j = i)) as [->|Hj].
    + by rewrite bind_other, bind_same.
    + apply (ai_canon _ _ _ _ _ Hk).
  - intros j. rewrite canon_get_insert. case_decide as Hj; [set_solver|].
    apply not_elem_of_union. split; [|apply (ai_kept _ _ _ _ _ H)].
    apply not_elem_of_singleton. by eapply alias_not_todo.
  - intros j Hj. rewrite bind_other by set_solver. apply (ai_agree _ _ _ _ _ H). set_solver.
  - intros j Hj. assert (j ≠ i) by set_solver. rewrite lookup_insert_ne by done.
    destruct (ai_todo _ _ _ _ _ H j); [by right|]. split; [done | set_solver].
  - intros j Hj. rewrite canon_get_insert. case_decide; [set_solver|].
    by apply (ai_rep_todo _ _ _ _ _ Hk).
  - intros j x Hj. unfold settled in *. destruct (decide (j = i)) as [->|Hj'].
    + rewrite lookup_insert_eq in Hj. simplify_eq. by rewrite lookup_insert_ne.
    + rewrite lookup_insert_ne in Hj by done. pose proof (ai_chain _ _ _ _ _ H _ _ Hj) as Hx.
      rewrite lookup_insert_ne; [done|]. intros ->.
      apply (alias_not_todo _ _ _ _ _ _ j H Hj'). unfold canon_get. by rewrite Hj.
Qed.

(** The committed values read through the alias map. *)
Lemma alias_outcome p canon drop e s e1 s1 e2 s2 :
  (∀ n e1 e2 s, (∀ j, e1 j = e2 j) → exec n e1 s = exec n e2 s) →
  run_program p e s = (e1, s1) →
  run p (canon_get canon)
    (List.filter (fun i => negb (bool_decide (i ∈ drop))) (p_values p)) e s = (e2, s2) →
  s2 = s1 → alias_inv [] canon drop e1 e2 →
  same_outcome p
    (if decide (drop = ∅) then Rewrite (p_values p) ∅
     else Rewrite (List.filter (fun i => negb (bool_decide (i ∈ drop))) (p_values p)) canon) e s.
Proof.
  intros Hext H1 H2 -> H. unfold same_outcome, run_rewrite. rewrite H1.
  destruct (decide (drop = ∅)) as [He|He]; cbn [rw_keep rw_alias].
  - rewrite (run_ext p (rep ∅) (fun i => i)) by (done || apply rep_empty).
    unfold run_program in H1. rewrite H1. split; [done|]. intros st i _. by rewrite rep_empty.
  - rewrite (run_ext p _ (canon_get canon)) by (done || intros; by eapply alias_rep).
    rewrite H2. split; [done|]. intros st i _.
    rewrite (alias_rep _ _ _ _ _ _ H). by eapply alias_read.
Qed.

(** SSA: every id is defined once, and nothing is read at or before its
    definition ([validate]). *)
Definition scoped (p : program) (todo : list nat) : Prop :=
  ∀ pre i post n j, todo = pre ++ i :: post → get p i = Some n → j ∈ reads p n → j ∉ i :: post.

Definition well_scoped (p : program) : Prop := NoDup (p_values p) ∧ scoped p (p_values p).

Lemma scoped_cons p i todo : scoped p (i :: todo) → scoped p todo.
Proof. intros H pre i' post n j Heq. apply (H (i :: pre)). by rewrite Heq. Qed.

Lemma scoped_head p i todo n j : scoped p (i :: todo) → get p i = Some n → j ∈ reads p n → j ∉ i :: todo.
Proof. intros H. by apply (H [] i todo). Qed.

(** *** Common subexpressions *)

Section Cse.
Context (p : program) (Hlocal : reads_only p) (Hscope : well_scoped p).

(** A pure node is a function of what its key records. *)
Context (pure : string → string → string → list (option Val) → Val).
Context (Hpure : ∀ n e s, n_op n ∈ PURE_OPS →
  exec n e s = (pure (n_op n) (n_vtype n) (n_data n) (map e (n_inputs n)), s)).

Definition key_value (e : env) (k : cse_key_t) : Val :=
  pure k.1.1.1 k.1.1.2 k.1.2 (map e k.2).

Record cse_inv (todo : list nat) (st : cse_state) (e1 e2 : env) : Prop := {
  ci_alias : alias_inv todo (cse_canon st) (cse_drop st) e1 e2;
  ci_reps : ∀ k r, (k, r) ∈ cse_reps st →
    e1 r = Some (key_value e1 k) ∧ r ∉ cse_drop st ∧ r ∉ todo ∧ (∀ j, j ∈ k.2 → j ∉ todo)
    ∧ settled (cse_canon st) r }.

Lemma key_value_ext (e1 e2 : env) k :
  (∀ j, j ∈ k.2 → e1 j = e2 j) → key_value e1 k = key_value e2 k.
Proof.
  intros H. unfold key_value. f_equal. apply map_ext_in. intros j Hj. apply H.
  by apply list_elem_of_In.
Qed.

Lemma cse_key_value i todo st e1 e2 n :
  cse_inv (i :: todo) st e1 e2 →
  key_value e1 (cse_key n (cse_canon st))
  = pure (n_op n) (n_vtype n) (n_data n) (map e1 (n_inputs n)).
Proof.
  intros [H _]. unfold key_value, cse_key; cbn [fst snd]. f_equal. rewrite map_map.
  apply map_ext. intros j. apply (ai_canon _ _ _ _ _ H).
Qed.

(** The known representatives survive a new definition. *)
Lemma reps_bind i todo st e1 e2 v k r :
  cse_inv (i :: todo) st e1 e2 → (k, r) ∈ cse_reps st →
  bind_value i v e1 r = Some (key_value (bind_value i v e1) k) ∧ r ∉ cse_drop st ∧ r ∉ todo
  ∧ (∀ j, j ∈ k.2 → j ∉ todo) ∧ settled (cse_canon st) r ∧ r ≠ i.
Proof.
  intros [_ H] Hk. destruct (H k r Hk) as (Hr & Hrd & Hrt & Hkt & Hrc).
  split_and!; [|done|set_solver|set_solver|done|set_solver].
  rewrite bind_other by set_solver.
  rewrite Hr. f_equal. apply key_value_ext. intros j Hj. rewrite bind_other; [done|].
  specialize (Hkt j Hj). set_solver.
Qed.

Lemma settled_insert canon i r x : settled canon x → x ≠ i → settled (<[i := r]> canon) x.
Proof. unfold settled. intros H Hx. by rewrite lookup_insert_ne. Qed.

Lemma cse_inv_kept i todo st e1 e2 v :
  i ∉ todo → cse_inv (i :: todo) st e1 e2 →
  cse_inv todo st (bind_value i v e1) (bind_value i v e2).
Proof.
  intros Hnd H. split; [by apply alias_kept, H|].
  intros k r Hk. destruct (reps_bind i todo st e1 e2 v k r H Hk) as (? & ? & ? & ? & ? & _).
  by split_and!.
Qed.

Lemma cse_inv_skip i todo st e1 e2 : i ∉ todo → cse_inv (i :: todo) st e1 e2 → cse_inv todo st e1 e2.
Proof.
  intros Hi [H Hr]. split; [by eapply alias_skip|]. intros k r Hk.
  destruct (Hr k r Hk) as (? & ? & ? & Hj & ?).
  split_and!; [done | done | set_solver | | done]. intros j Hin. specialize (Hj j Hin). set_solver.
Qed.

(** A duplicate: dropped, and its value is its representative's. *)
Lemma cse_inv_duplicate i todo st e1 e2 n r :
  i ∉ todo → cse_inv (i :: todo) st e1 e2 → dget (cse_key n (cse_canon st)) (cse_reps st) = Some r →
  cse_inv todo (CseState (<[i := r]> (cse_canon st)) (cse_reps st) ({[i]} ∪ cse_drop st))
    (bind_value i (pure (n_op n) (n_vtype n) (n_data n) (map e1 (n_inputs n))) e1) e2.
Proof.
  intros Hnd H Hr%dget_Some_elem. rewrite <- (cse_key_value _ _ _ _ _ _ H).
  set (k := cse_key n (cse_canon st)) in *.
  destruct (ci_reps _ _ _ _ H _ _ Hr) as (Hval & Hrd & Hrt & _ & Hrc).
  split; [by apply alias_drop; [|apply H| | | |]|]. cbn [cse_canon cse_reps cse_drop].
  intros k' r' Hk'. destruct (reps_bind i todo st e1 e2 (key_value e1 k) k' r' H Hk')
    as (? & ? & ? & ? & ? & ?).
  split_and!; [done | set_solver | done | done | by apply settled_insert].
Qed.

(** A first occurrence: it becomes the representative of its key. *)
Lemma cse_inv_first i todo st e1 e2 n :
  i ∉ todo → cse_inv (i :: todo) st e1 e2 → (∀ j, j ∈ n_inputs n → j ∉ i :: todo) →
  let v := pure (n_op n) (n_vtype n) (n_data n) (map e1 (n_inputs n)) in
  cse_inv todo (CseState (<[i := i]> (cse_canon st))
                  (dset (cse_key n (cse_canon st)) i (cse_reps st)) (cse_drop st))
    (bind_value i v e1) (bind_value i v e2).
Proof.
  intros Hnd H Hin v. pose proof (cse_inv_kept i todo st e1 e2 v Hnd H) as Hk.
  destruct (ai_todo _ _ _ _ _ (ci_alias _ _ _ _ H) i) as [Hc Hd]; [left|].
  split; cbn [cse_canon cse_reps cse_drop]; [by apply alias_self; [apply Hk| |]|].
  intros k r Hkr.
  assert (Hor : (k, r) ∈ cse_reps st ∨ k = cse_key n (cse_canon st) ∧ r = i).
  { revert Hkr. generalize (cse_key n (cse_canon st)) as k0. clear. intros k0.
    induction (cse_reps st) as [|[k1 r1] l IH]; cbn; [set_solver|].
    case_decide; subst; set_solver. }
  destruct Hor as [Hold|[-> ->]].
  - destruct (reps_bind i todo st e1 e2 v k r H Hold) as (? & ? & ? & ? & ? & ?).
    split_and!; try done. by apply settled_insert.
  - assert (Hinp : ∀ j, j ∈ (cse_key n (cse_canon st)).2 → j ∉ i :: todo).
    { intros j Hj. unfold cse_key in Hj; cbn in Hj. apply list_elem_of_fmap in Hj as (x & -> & Hx).
      apply (ai_rep_todo _ _ _ _ _ (ci_alias _ _ _ _ H)). by apply Hin. }
    split_and!; [|done|done| |right; apply lookup_insert_eq].
    + rewrite bind_same. f_equal. unfold v. rewrite <- (cse_key_value _ _ _ _ _ _ H).
      apply key_value_ext. intros j Hj. rewrite bind_other; [done|].
      specialize (Hinp j Hj). set_solver.
    + intros j Hj. specialize (Hinp j Hj). set_solver.
Qed.

(** The rest of the scan does not touch what is already decided. *)
Lemma cse_fold_stable todo st j :
  j ∉ todo →
  cse_canon (foldl (cse_step p) st todo) !! j = cse_canon st !! j
  ∧ (j ∈ cse_drop (foldl (cse_step p) st todo) ↔ j ∈ cse_drop st).
Proof.
  revert st; induction todo as [|i todo IH]; intros st Hj; cbn [foldl]; [done|].
  destruct (IH (cse_step p st i)) as [-> ->]; [set_solver|]. unfold cse_step.
  destruct (get p i) as [n|]; [|done]. destruct (op_in _ _); [|done].
  destruct (dget _ _); cbn; rewrite lookup_insert_ne by set_solver; set_solver.
Qed.

(** A kept node evaluates to the same value in both executions. *)
Lemma kept_exec i todo canon final drop e1 e2 n s :
  scoped p (i :: todo) → get p i = Some n → alias_inv (i :: todo) canon drop e1 e2 →
  (∀ j, j ∉ i :: todo → final !! j = canon !! j) →
  exec n (fun j => e2 (canon_get final j)) s = exec n (fun j => e1 j) s.
Proof.
  intros Hsc Hn H Hst. apply Hlocal. intros j Hj.
  assert (Heq : canon_get final j = canon_get canon j).
  { unfold canon_get. f_equal. apply Hst. by eapply scoped_head. }
  rewrite Heq. by eapply alias_read.
Qed.

Lemma cse_run todo st e1 e2 s :
  NoDup todo → scoped p todo → cse_inv todo st e1 e2 →
  let final := foldl (cse_step p) st todo in
  let r1 := run p (fun i => i) todo e1 s in
  let r2 := run p (canon_get (cse_canon final))
              (List.filter (fun i => negb (bool_decide (i ∈ cse_drop final))) todo) e2 s in
  r2.2 = r1.2 ∧ cse_inv [] final r1.1 r2.1.
Proof.
  revert st e1 e2 s; induction todo as [|i todo IH]; intros st e1 e2 s Hnd Hsc H; [done|].
  apply NoDup_cons in Hnd as [Hi Hnd]. pose proof (scoped_cons _ _ _ Hsc) as Hsc'.
  cbn [foldl]. set (st' := cse_step p st i). set (final := foldl (cse_step p) st' todo).
  destruct (cse_fold_stable todo st' i Hi) as [_ Hdrop]. fold final in Hdrop.
  destruct (ai_todo _ _ _ _ _ (ci_alias _ _ _ _ H) i) as [Hc Hd]; [left|].
  cbn [List.filter run]. destruct (get p i) as [n|] eqn:En.
  2:{ assert (Hst : st' = st) by (unfold st', cse_step; by rewrite En).
      rewrite Hst in Hdrop. rewrite bool_decide_eq_false_2 by tauto. cbn [negb run]. rewrite En.
      apply IH; [done | done |]. rewrite Hst. by eapply cse_inv_skip. }
  assert (Hexec : exec n (fun j => e2 (canon_get (cse_canon final) j)) s = exec n (fun j => e1 j) s).
  { eapply kept_exec; [done | done | apply H |]. intros j Hj.
    change final with (foldl (cse_step p) st (i :: todo)). by apply cse_fold_stable. }
  destruct (op_in (n_op n) PURE_OPS) eqn:Ep.
  - rewrite (Hpure n (fun j => e1 j) s) in Hexec |- * by (by apply op_in_elem).
    unfold st', cse_step in Hdrop. rewrite En, Ep in Hdrop.
    destruct (dget (cse_key n (cse_canon st)) (cse_reps st)) as [r|] eqn:Er; cbn in Hdrop.
    + rewrite bool_decide_eq_true_2 by (apply Hdrop; set_solver). cbn [negb].
      apply IH; [done | done |]. unfold st', cse_step. rewrite En, Ep, Er.
      by apply cse_inv_duplicate.
    + rewrite bool_decide_eq_false_2 by tauto. cbn [negb run]. rewrite En, Hexec.
      apply IH; [done | done |]. unfold st', cse_step. rewrite En, Ep, Er.
      apply cse_inv_first; [done | done |].
      intros j Hj. eapply scoped_head; [done | done |]. apply elem_of_app. by left.
  - assert (Hst : st' = st) by (unfold st', cse_step; by rewrite En, Ep).
    rewrite Hst in Hdrop. rewrite bool_decide_eq_false_2 by tauto. cbn [negb run].
    rewrite En, Hexec. cbv beta zeta. destruct (exec n (fun j => e1 j) s) as [v s'].
    apply IH; [done | done |]. rewrite Hst. by apply cse_inv_kept.
Qed.

Lemma cse_outcome e s : same_outcome p (eliminate_common_subexpressions p) e s.
Proof.
  destruct Hscope as [Hnd Hsc].
  assert (H0 : cse_inv (p_values p) (CseState ∅ [] ∅) e e).
  { split; [apply alias_inv_init | set_solver]. }
  destruct (cse_run (p_values p) _ e e s Hnd Hsc H0) as [Hs Hinv]. fold (cse_scan p) in *.
  unfold eliminate_common_subexpressions.
  eapply alias_outcome;
    [intros; apply Hlocal; auto | apply surjective_pairing | apply surjective_pairing | done |].
  apply Hinv.
Qed.
End Cse.

(** *** Redundant field solves *)

Section Solves.
Context (p : program) (Hlocal : reads_only p) (Hscope : well_scoped p).

(** A field solve is determined by its field, its state and the store, and
    repeating it at once changes nothing. *)
Context (solve : string → option Val → Store → Val * Store).
Context (Hsolve : ∀ n e s x, n_op n = "solve_fields"%string → n_inputs n = [x] →
  exec n e s = solve (n_field n) (e x) s).
Context (Hidem : ∀ f x s v s', solve f x s = (v, s') → solve f x s' = (v, s')).

(** Solving again would return the same value and leave the store unchanged. *)
Definition in_sync (f : string) (x : option Val) (v : Val) (s : Store) : Prop := solve f x s = (v, s).

(** The operations that are not barriers leave the solved fields in place. *)
Context (Hframe : ∀ i n e s f x w, i ∈ p_values p → get p i = Some n →
  n_op n ≠ "solve_fields"%string → n_op n ∉ STATE_BARRIER_OPS → i ∉ map snd (p_commits p) →
  in_sync f x w s → in_sync f x w (exec n e s).2).

Record solve_inv (todo : list nat) (st : solve_state) (e1 e2 : env) (s : Store) : Prop := {
  si_alias : alias_inv todo (sv_canon st) (sv_drop st) e1 e2;
  si_active : ∀ x f r, sv_active st = Some ((x, f), r) →
    r ∉ todo ∧ x ∉ todo ∧ r ∉ sv_drop st ∧ settled (sv_canon st) r
    ∧ ∃ w, e1 r = Some w ∧ in_sync f (e1 x) w s }.

Lemma solve_fold_stable todo st st' j :
  fold_res (solve_step p) st todo = Ok st' → j ∉ todo →
  sv_canon st' !! j = sv_canon st !! j ∧ (j ∈ sv_drop st' ↔ j ∈ sv_drop st).
Proof.
  revert st; induction todo as [|i todo IH]; intros st H Hj; cbn in H; inv_ok; [done|].
  destruct (IH _ H) as [-> ->]; [set_solver|]. clear H. unfold solve_step in *.
  repeat case_match; simplify_eq/=; try done.
  rewrite lookup_insert_ne by set_solver. set_solver.
Qed.

Lemma solve_inv_skip i todo st e1 e2 s :
  i ∉ todo → solve_inv (i :: todo) st e1 e2 s → solve_inv todo st e1 e2 s.
Proof.
  intros Hi [H Ha]. split; [by eapply alias_skip|]. intros x f r Hr.
  destruct (Ha x f r Hr) as (? & ? & ? & ? & ?). split_and!; try done; set_solver.
Qed.

(** After a kept node: the pending solve, if still pending, is in sync. *)
Lemma solve_inv_kept i todo st e1 e2 s v s' active :
  i ∉ todo → solve_inv (i :: todo) st e1 e2 s →
  (∀ x f r, active = Some ((x, f), r) →
     (sv_active st = Some ((x, f), r) ∧ (∀ w, in_sync f (e1 x) w s → in_sync f (e1 x) w s'))
     ∨ (r = i ∧ x ∉ i :: todo ∧ in_sync f (e1 x) v s')) →
  solve_inv todo (SolveState active (sv_canon st) (sv_drop st))
    (bind_value i v e1) (bind_value i v e2) s'.
Proof.
  intros Hi [H Ha] Hact. split; cbn [sv_active sv_canon sv_drop]; [by apply alias_kept|].
  destruct (ai_todo _ _ _ _ _ H i) as [Hc Hd]; [left|].
  intros x f r Hr. destruct (Hact x f r Hr) as [[Hold Hsync]|(-> & Hx & Hsync)].
  - destruct (Ha x f r Hold) as (? & ? & ? & ? & w & Hw & Hs).
    split_and!; [set_solver | set_solver | done | done |]. exists w.
    rewrite !bind_other by set_solver. split; [done | by apply Hsync].
  - split_and!; [done | set_solver | done | by left |]. exists v.
    rewrite bind_same, bind_other by set_solver. done.
Qed.

(** One node of the scan against the two executions. *)
Lemma solve_step_spec i todo st st' e1 e2 s n v s' :
  i ∉ todo → scoped p (i :: todo) → i ∈ p_values p → get p i = Some n →
  solve_inv (i :: todo) st e1 e2 s → solve_step p st i = Ok st' → exec n (fun j => e1 j) s = (v, s') →
  (i ∉ sv_drop st' ∧ solve_inv todo st' (bind_value i v e1) (bind_value i v e2) s')
  ∨ (i ∈ sv_drop st' ∧ s' = s ∧ solve_inv todo st' (bind_value i v e1) e2 s).
Proof.
  intros Hi Hsc Hin Hn H Hstep Hex. pose proof H as [Hal Hact].
  destruct (ai_todo _ _ _ _ _ Hal i) as [Hc Hd]; [left|].
  unfold solve_step in Hstep. rewrite Hn in Hstep.
  destruct (String.eqb (n_op n) "solve_fields") eqn:Eop.
  - apply String.eqb_eq in Eop. destruct (n_inputs n) as [|x [|]] eqn:Einp; [done | | done].
    rewrite (Hsolve n _ s x Eop Einp) in Hex.
    assert (Hx : x ∉ i :: todo).
    { eapply scoped_head; [done | done |]. apply elem_of_app. left. rewrite Einp. left. }
    assert (Hkeep : solve_inv todo (SolveState (Some ((x, n_field n), i)) (sv_canon st) (sv_drop st))
                      (bind_value i v e1) (bind_value i v e2) s').
    { eapply solve_inv_kept; [done | exact H |]. intros x0 f r Heq. simplify_eq. right.
      split_and!; [done | done |]. by eapply Hidem. }
    destruct (sv_active st) as [[[x' f'] r]|] eqn:Eact; [|inv_ok; by left].
    destruct (decide _) as [Heq|]; [|inv_ok; by left]. injection Heq as <- <-.
    injection Hstep as <-. right. cbn [sv_drop].
    destruct (Hact x (n_field n) r eq_refl) as (Hr & Hxt & Hrd & Hrs & w & Hw & Hs).
    unfold in_sync in Hs. rewrite Hs in Hex. injection Hex as -> ->.
    split_and!; [set_solver | done |].
    split; cbn [sv_active sv_canon sv_drop]; [by apply alias_drop|].
    intros x0 f0 r0 Heq0. simplify_eq. split_and!; [set_solver | set_solver | set_solver | |].
    + apply settled_insert; [done | set_solver].
    + exists v. rewrite !bind_other by set_solver. done.
  - apply String.eqb_neq in Eop.
    destruct (op_in (n_op n) STATE_BARRIER_OPS || bool_decide (i ∈ map snd (p_commits p))) eqn:Eb;
      inv_ok; left; (split; [done|]).
    + by eapply solve_inv_kept.
    + bools. destruct st' as [active canon drop]. eapply (solve_inv_kept i todo (SolveState active canon drop));
        [done | exact H |]. intros x f r Hr. left. split; [done|]. intros w Hw.
      pose proof (Hframe i n (fun j => e1 j) s f (e1 x) w) as Hf. rewrite Hex in Hf.
      apply Hf; try done. intros Hbar. apply op_in_elem in Hbar. congruence.
Qed.

Lemma solve_run todo st final e1 e2 s :
  NoDup todo → scoped p todo → (∀ i, i ∈ todo → i ∈ p_values p) → solve_inv todo st e1 e2 s →
  fold_res (solve_step p) st todo = Ok final →
  let r1 := run p (fun i => i) todo e1 s in
  let r2 := run p (canon_get (sv_canon final))
              (List.filter (fun i => negb (bool_decide (i ∈ sv_drop final))) todo) e2 s in
  r2.2 = r1.2 ∧ solve_inv [] final r1.1 r2.1 r1.2.
Proof.
  revert st e1 e2 s; induction todo as [|i todo IH]; intros st e1 e2 s Hnd Hsc Hin H Hfold.
  { cbn in Hfold. inv_ok. by cbn. }
  apply NoDup_cons in Hnd as [Hi Hnd]. pose proof (scoped_cons _ _ _ Hsc) as Hsc'.
  assert (Hstable : ∀ j, j ∉ i :: todo → sv_canon final !! j = sv_canon st !! j).
  { intros j Hj. by destruct (solve_fold_stable _ _ _ j Hfold Hj). }
  cbn [fold_res] in Hfold. destruct (solve_step p st i) as [st'|] eqn:Estep; [|done].
  cbn [mbind res_bind] in Hfold.
  destruct (solve_fold_stable _ _ _ i Hfold Hi) as [_ Hdrop].
  assert (Hin' : ∀ j, j ∈ todo → j ∈ p_values p) by (intros; apply Hin; by right).
  assert (Hii : i ∈ p_values p) by (apply Hin; left).
  cbn [List.filter run]. destruct (get p i) as [n|] eqn:En.
  2:{ unfold solve_step in Estep. rewrite En in Estep. injection Estep as <-.
      destruct (ai_todo _ _ _ _ _ (si_alias _ _ _ _ _ H) i) as [_ Hd]; [left|].
      rewrite bool_decide_eq_false_2 by tauto. cbn [negb run]. rewrite En.
      apply (IH st); try done. by eapply solve_inv_skip. }
  assert (Hexec : exec n (fun j => e2 (canon_get (sv_canon final) j)) s = exec n (fun j => e1 j) s).
  { eapply kept_exec; [done | done | done | apply H | done]. }
  cbv beta. destruct (exec n (fun j => e1 j) s) as [v s'] eqn:Ex.
  destruct (solve_step_spec i todo st st' e1 e2 s n v s') as [[Hd Hinv]|(Hd & -> & Hinv)]; try done.
  - rewrite bool_decide_eq_false_2 by tauto. cbn [negb run]. rewrite En, Hexec.
    by apply (IH st').
  - rewrite bool_decide_eq_true_2 by tauto. cbn [negb run]. by apply (IH st').
Qed.

Lemma solves_outcome rw e s :
  eliminate_redundant_field_solves p = Ok rw → same_outcome p rw e s.
Proof.
  destruct Hscope as [Hnd Hsc]. unfold eliminate_redundant_field_solves, solve_scan. intros H.
  destruct (fold_res _ _ _) as [st|] eqn:Est; [|done]. cbn [mbind res_bind] in H.
  assert (H0 : solve_inv (p_values p) (SolveState None ∅ ∅) e e s).
  { split; [apply alias_inv_init | done]. }
  destruct (solve_run (p_values p) _ st e e s Hnd Hsc (λ i Hi, Hi) H0 Est) as [Hs Hinv].
  assert (Hrw : rw = if decide (sv_drop st = ∅) then Rewrite (p_values p) ∅
    else Rewrite (List.filter (fun i => negb (bool_decide (i ∈ sv_drop st))) (p_values p))
                 (sv_canon st)) by (destruct (decide _); inv_ok; done).
  subst rw. eapply alias_outcome;
    [intros; apply Hlocal; auto | apply surjective_pairing | apply surjective_pairing | done |].
  apply Hinv.
Qed.
End Solves.
End Execution.

(** ** Claims *)

(** C1: dead-node elimination preserves the outcome of a program: whatever the
    semantics of the nodes, if a node's effect depends only on what it reads and
    the removable operations leave the store alone, the store and every
    committed value are unchanged. *)
Theorem dead_node_elimination_sound {Store Val} (exec : node → (nat → option Val) → Store → Val * Store) p :
  reads_only exec p →
  (∀ n e s, n_op n ∈ REMOVABLE_OPS → (exec n e s).2 = s) →
  ∀ e s, same_outcome exec p (eliminate_dead_nodes p) e s.
Proof. intros H1 H2 e s. by apply dead_nodes_outcome. Qed.

(** C2: common-subexpression elimination preserves the outcome of a well-scoped
    program whose pure operations are functions of their key (operation, type,
    canonical attributes) and of their input values. *)
Theorem cse_sound {Store Val} (exec : node → (nat → option Val) → Store → Val * Store) pure p :
  reads_only exec p → well_scoped p →
  (∀ n e s, n_op n ∈ PURE_OPS →
     exec n e s = (pure (n_op n) (n_vtype n) (n_data n) (map e (n_inputs n)), s)) →
  ∀ e s, same_outcome exec p (eliminate_common_subexpressions p) e s.
Proof. intros H1 H2 H3 e s. by apply (cse_outcome exec p H1 H2 pure). Qed.

(** C3: redundant-solve elimination preserves the outcome of a well-scoped
    program when field solves are determined by field, state and store, repeating
    a solve at once changes nothing, and every flat node that is neither a listed
    barrier nor a commit target keeps the solved fields in sync. *)
Theorem redundant_solve_elimination_sound {Store Val}
    (exec : node → (nat → option Val) → Store → Val * Store)
    (solve : string → option Val → Store → Val * Store) p rw :
  reads_only exec p → well_scoped p →
  (∀ n e s x, n_op n = "solve_fields"%string → n_inputs n = [x] →
     exec n e s = solve (n_field n) (e x) s) →
  (∀ f x s v s', solve f x s = (v, s') → solve f x s' = (v, s')) →
  (∀ i n e s f x w, i ∈ p_values p → get p i = Some n →
     n_op n ≠ "solve_fields"%string → n_op n ∉ STATE_BARRIER_OPS → i ∉ map snd (p_commits p) →
     in_sync solve f x w s → in_sync solve f x w (exec n e s).2) →
  eliminate_redundant_field_solves p = Ok rw →
  ∀ e s, same_outcome exec p rw e s.
Proof. intros H1 H2 H3 H4 H5 H6 e s. by eapply solves_outcome. Qed.

(** *** A concrete semantics

    The store holds a state version and the field solved from it; [project]
    advances the version, a loop runs the projections of its body, a field solve
    copies the version, an [rhs] reads the field. *)
Definition toy_body (heap : gmap nat node) (n : node) : nat :=
  length (List.filter (fun w => match heap !! w with Some m => String.eqb (n_op m) "project" | None => false end)
            (default [] (dget "body_block"%string (n_blocks n)))).

Definition toy_exec (heap : gmap nat node) (n : node) (e : nat → option nat) (s : nat * nat)
    : nat * (nat * nat) :=
  let args := map (fun j => default 0%nat (e j)) (n_inputs n) in
  let '(version, field) := s in
  if String.eqb (n_op n) "solve_fields" then (version, (version, version))
  else if String.eqb (n_op n) "project" then (version, (S version, field))
  else if String.eqb (n_op n) "while" then (sum_list args, ((version + toy_body heap n)%nat, field))
  else if String.eqb (n_op n) "rhs" then (field, s)
  else (sum_list args, s).

Definition toy_solve (f : string) (x : option nat) (s : nat * nat) : nat * (nat * nat) :=
  (s.1, (s.1, s.1)).

Definition mk_node (op data : string) (inputs : list nat) (blocks : list (string * list nat)) : node :=
  Node data op "state" data "phi" inputs [] None blocks None.

(** [U; solve; <middle>; solve; rhs; R + U] with a dead and a duplicated
    combination. *)
Definition toy_program (middle : node) (second_solve_data : string) : program :=
  let nodes := [ (0%nat, mk_node "state" "U" [] []);
    (1%nat, mk_node "solve_fields" "" [0%nat] []);
    (2%nat, middle);
    (3%nat, mk_node "solve_fields" second_solve_data [0%nat] []);
    (4%nat, mk_node "rhs" "" [0%nat; 3%nat] []);
    (5%nat, mk_node "linear_combine" "dt" [0%nat; 4%nat] []);
    (6%nat, mk_node "linear_combine" "dt" [0%nat; 4%nat] []);
    (7%nat, mk_node "linear_combine" "unused" [4%nat] []);
    (8%nat, mk_node "linear_combine" "end" [5%nat; 6%nat] []);
    (9%nat, mk_node "project" "" [0%nat] []) ] in
  Program (list_to_map nodes) (seq 0 9) [("U"%string, 8%nat)].

Definition quiet : node := mk_node "reduce" "" [0%nat] [].
Definition projecting_loop : node := mk_node "while" "" [0%nat] [("body_block"%string, [9%nat])].

Lemma toy_reads_only heap p : reads_only (toy_exec heap) p.
Proof.
  intros n e1 e2 s H. unfold toy_exec.
  rewrite (map_ext_in _ (fun j => default 0%nat (e2 j))); [done|].
  intros j Hj. rewrite H; [done|]. apply elem_of_app. left. by apply list_elem_of_In.
Qed.

Lemma toy_removable heap n e s : n_op n ∈ REMOVABLE_OPS → (toy_exec heap n e s).2 = s.
Proof.
  intros Hop. unfold toy_exec. destruct s as [version field].
  unfold REMOVABLE_OPS in Hop.
  repeat (apply elem_of_cons in Hop as [->|Hop]; [done|]). by apply not_elem_of_nil in Hop.
Qed.

(** [well_scoped] is decidable. *)
Fixpoint scoped_check (p : program) (todo : list nat) : bool :=
  match todo with
  | [] => true
  | i :: todo' => forallb (fun j => bool_decide (j ∉ todo)) (node_reads p i) && scoped_check p todo'
  end.

Lemma scoped_check_sound p todo : scoped_check p todo = true → scoped p todo.
Proof.
  induction todo as [|i todo IH]; intros H pre i' post n j Heq Hn Hj.
  - by destruct pre.
  - cbn in H. apply andb_true_iff in H as [Hi H]. destruct pre as [|i0 pre]; simplify_eq/=.
    + rewrite forallb_forall in Hi. specialize (Hi j). rewrite bool_decide_eq_true in Hi.
      apply Hi. unfold node_reads. rewrite Hn. by apply list_elem_of_In.
    + by apply (IH H pre i' post n).
Qed.

Lemma toy_well_scoped : well_scoped (toy_program quiet "").
Proof. split; [apply NoDup_seq|]. apply scoped_check_sound. vm_compute. reflexivity. Qed.

Lemma dead_node_elimination_sound_witness :
  let p := toy_program quiet "" in
  eliminate_dead_nodes p = Rewrite [0; 1; 3; 4; 5; 6; 8]%nat ∅
  ∧ same_outcome (toy_exec (p_heap p)) p (eliminate_dead_nodes p) (fun _ => None) (3%nat, 0%nat).
Proof.
  split; [vm_compute; reflexivity|].
  apply dead_node_elimination_sound; [apply toy_reads_only | apply toy_removable].
Defined.

Lemma toy_pure heap n e s :
  n_op n ∈ PURE_OPS →
  toy_exec heap n e s = (sum_list (map (default 0%nat) (map e (n_inputs n))), s).
Proof.
  intros Hop. unfold toy_exec. destruct s as [version field]. rewrite map_map. unfold PURE_OPS in Hop.
  repeat (apply elem_of_cons in Hop as [->|Hop]; [done|]). by apply not_elem_of_nil in Hop.
Qed.

Lemma cse_sound_witness :
  let p := toy_program quiet "" in
  rw_keep (eliminate_common_subexpressions p) = [0; 1; 2; 3; 4; 5; 7; 8]%nat
  ∧ same_outcome (toy_exec (p_heap p)) p (eliminate_common_subexpressions p)
      (fun _ => None) (3%nat, 0%nat).
Proof.
  split; [vm_compute; reflexivity|].
  apply (cse_sound _ (fun _ _ _ args => sum_list (map (default 0%nat) args)));
    [apply toy_reads_only | apply toy_well_scoped | apply toy_pure].
Defined.

Lemma toy_frame i n e s f x w :
  let p := toy_program quiet "" in
  i ∈ p_values p → get p i = Some n →
  n_op n ≠ "solve_fields"%string → n_op n ∉ STATE_BARRIER_OPS →
  in_sync toy_solve f x w s → in_sync toy_solve f x w (toy_exec (p_heap p) n e s).2.
Proof.
  intros p Hi Hn Hop Hb Hs. unfold toy_exec. destruct s as [version field].
  destruct (String.eqb (n_op n) "solve_fields") eqn:E1; [by apply String.eqb_eq in E1|].
  destruct (String.eqb (n_op n) "project") eqn:E2.
  { apply String.eqb_eq in E2. exfalso. apply Hb. rewrite E2. left. }
  destruct (String.eqb (n_op n) "while") eqn:E3; [|by destruct (String.eqb (n_op n) "rhs")].
  exfalso. assert (Hall : forallb (fun i => negb (String.eqb (op_of p i) "while")) (p_values p) = true)
    by (vm_compute; reflexivity).
  rewrite forallb_forall in Hall. specialize (Hall i). unfold op_of in Hall. rewrite Hn, E3 in Hall.
  by rewrite Hall in Hi || discriminate (Hall (proj1 (list_elem_of_In _ _) Hi)).
Qed.

Lemma redundant_solve_elimination_sound_witness :
  ∃ rw, let p := toy_program quiet "" in
  eliminate_redundant_field_solves p = Ok rw ∧ rw_keep rw = [0; 1; 2; 4; 5; 6; 7; 8]%nat
  ∧ same_outcome (toy_exec (p_heap p)) p rw (fun _ => None) (3%nat, 0%nat).
Proof.
  eexists. cbn zeta. split; [vm_compute; reflexivity|]. split; [reflexivity|].
  apply (redundant_solve_elimination_sound _ toy_solve).
  - apply toy_reads_only.
  - apply toy_well_scoped.
  - intros n e s x Hop _. unfold toy_exec. destruct s. by rewrite Hop.
  - intros f x s v s' H. unfold toy_solve in *. by simplify_eq/=.
  - intros i n e s f x w Hi Hn Hop Hb _. by apply toy_frame with (i := i).
  - vm_compute. reflexivity.
Defined.

(** A loop is not a barrier, whatever its body does, and two solves that
    differ in everything but state and field (their schedule, say) are merged:
    on a program whose loop projects the state between two solves, the pass
    drops the second solve and the committed value changes. *)
Theorem loop_is_not_a_barrier :
  let p := toy_program projecting_loop "schedule" in
  ∃ rw, eliminate_redundant_field_solves p = Ok rw
    ∧ 3%nat ∉ rw_keep rw ∧ rw_alias rw !! 3%nat = Some 1%nat
    ∧ ¬ same_outcome (toy_exec (p_heap p)) p rw (fun _ => None) (3%nat, 0%nat).
Proof.
  eexists. split; [vm_compute; reflexivity|]. split_and!; [vm_compute; set_solver by lia | reflexivity |].
  unfold same_outcome. intros H. vm_compute in H. destruct H as [H _]. discriminate H.
Qed.
