(* ===== verification/Liveness.v ===== *)
(** * Scratch liveness and buffer reuse

    The reports of [python/pops/time/_program/inspection.py] and the scratch
    plan of [python/pops/codegen/scratch_plan.py]: live ranges of the step-body
    scratches, the greedy buffer assignment, the cost estimate, the reused and
    rejected lists. *)
From Stdlib Require Import Sorting.Sorted.
From stdpp Require Import sorting.
From S2P Require Import Prelude ProgramIR.
#[local] Open Scope nat_scope.

Definition SCRATCH_OPS : list string :=
  ["rhs"; "diffusive_rhs"; "source"; "implicit_source"; "apply"; "local_transform";
   "linear_combine"; "linear_source"; "solve_local_linear"; "solve_local_nonlinear";
   "solve_coupled_implicit"; "solve_implicit_source"; "solve_spatial_nonlinear";
   "cell_compare"; "where"; "coupled_rate"].

Definition PERCELL_KERNEL_OPS : list string :=
  ["rhs"; "diffusive_rhs"; "source"; "implicit_source"; "apply"; "linear_combine";
   "linear_source"; "solve_local_linear"; "solve_local_nonlinear"; "solve_coupled_implicit";
   "cell_compare"; "where"; "coupled_rate"; "local_transform"; "project"; "fill_boundary"].

Definition HEAVY_KERNEL_OPS : list string :=
  ["solve_fields"; "solve_fields_from_blocks"; "solve_linear"; "solve_coupled_implicit";
   "solve_implicit_source"; "solve_spatial_nonlinear"].

(** ** [scratch_liveness] *)

Record range := Range { r_name : string; r_op : string; r_def : nat; r_last : nat }.

(** The keys the walk reads directly. *)
Definition READ_KEYS : list string :=
  ["cond"; "body"; "residual"; "iterate"; "guess"; "apply_result"; "apply_in"; "apply_out"].

Definition direct_reads (v : node) : list nat :=
  n_inputs v ++ flat_map (fun key => aref_ids (dget key (n_arefs v))) READ_KEYS.

(** [{v.id: i for i, v in enumerate(self._values)}] *)
Definition order_of (ids : list nat) : gmap nat nat :=
  foldl (fun d '(i, id) => <[id := i]> d) ∅ (zip (seq 0 (length ids)) ids).

(** [last_use[rid] = max(last_use.get(rid, order[rid]), i)] *)
Definition bump (order : gmap nat nat) (i : nat) (last : gmap nat nat) (rid : nat) : gmap nat nat :=
  match order !! rid with
  | None => last
  | Some d => <[rid := Nat.max (default d (last !! rid)) i]> last
  end.

Definition pin (order : gmap nat nat) (e : nat) (last : gmap nat nat) (rid : nat) : gmap nat nat :=
  match order !! rid with None => last | Some _ => <[rid := e]> last end.

Definition visit (p : program) (order : gmap nat nat) (e : nat) (last : gmap nat nat)
    (t : nat * nat) : gmap nat nat :=
  let '(i, id) := t in
  match get p id with
  | None => last
  | Some v =>
      let last := foldl (bump order i) last (direct_reads v) in
      if op_in (n_op v) SUBBLOCK_OPS then foldl (pin order e) last (refs p v) else last
  end.

Definition indexed (p : program) : list (nat * nat) :=
  zip (seq 0 (length (p_values p))) (p_values p).

Definition last_uses (p : program) : gmap nat nat :=
  let order := order_of (p_values p) in
  let e := (length (p_values p) - 1) in
  let last := foldl (visit p order e) ∅ (indexed p) in
  foldl (bump order (e + 1)) last (map snd (p_commits p)).

Definition scratch_range (p : program) (t : nat * nat) : option range :=
  let '(_, id) := t in
  match get p id with
  | Some v =>
      if op_in (n_op v) SCRATCH_OPS then
        let d := default 0 (order_of (p_values p) !! id) in
        Some (Range (n_name v) (n_op v) d (default d (last_uses p !! id)))
      else None
  | None => None
  end.

Definition scratch_liveness (p : program) : list range := omap (scratch_range p) (indexed p).

(** ** [buffer_reuse_report] *)

(** The first buffer whose occupant is dead before [d]. *)
Fixpoint first_free (free : list nat) (d : nat) : option nat :=
  match free with
  | [] => None
  | e :: free => if e <? d then Some 0 else S <$> first_free free d
  end.

(** The loop: the last use of each buffer's occupant, the slots chosen so far
    (in range order) and the number of reuses. *)
Record alloc := Alloc { a_free : list nat; a_slots : list (string * nat); a_reused : nat }.

Definition alloc_step (a : alloc) (r : range) : alloc :=
  match first_free (a_free a) (r_def r) with
  | Some b => Alloc (<[b := r_last r]> (a_free a)) (a_slots a ++ [(r_name r, b)]) (S (a_reused a))
  | None => Alloc (a_free a ++ [r_last r]) (a_slots a ++ [(r_name r, length (a_free a))]) (a_reused a)
  end.

Definition by_def (r1 r2 : range) : Prop := r_def r1 <= r_def r2.
#[global] Instance by_def_dec : RelDecision by_def.
Proof. intros r1 r2. unfold by_def. apply _. Defined.

#[global] Instance by_def_total : Total by_def.
Proof. intros r1 r2. unfold by_def. lia. Qed.
#[global] Instance by_def_trans : Transitive by_def.
Proof. intros r1 r2 r3. unfold by_def. lia. Qed.

Definition sorted_ranges (l : list range) : list range := merge_sort by_def l.

Definition allocate (l : list range) : alloc := foldl alloc_step (Alloc [] [] 0) l.

Record reuse_report := ReuseReport {
  rr_scratch_count : nat;
  rr_buffer_count : nat;
  rr_reused : nat;
  rr_assignment : list (string * nat) }.

(** [assignment[name] = slot], a dict. *)
Definition assignment_of (slots : list (string * nat)) : list (string * nat) :=
  foldl (fun d '(name, slot) => dset name slot d) [] slots.

Definition buffer_reuse_report (p : program) : reuse_report :=
  let ranges := sorted_ranges (scratch_liveness p) in
  let a := allocate ranges in
  ReuseReport (length ranges) (length (a_free a)) (a_reused a) (assignment_of (a_slots a)).

(** ** [estimate] and [gpu_detectors] *)

Definition FIELD_VTYPES : list string := ["state"; "rhs"; "scalar_field"].

Record cost := Cost {
  c_kernels : nat; c_small : nat; c_heavy : nat; c_reads : nat; c_writes : nat }.

Definition cost_step (p : program) (c : cost) (id : nat) : cost :=
  match get p id with
  | None => c
  | Some v =>
      if op_in (n_op v) HEAVY_KERNEL_OPS then
        Cost (S (c_kernels c)) (c_small c) (S (c_heavy c)) (S (c_reads c)) (S (c_writes c))
      else if op_in (n_op v) PERCELL_KERNEL_OPS then
        let fields := List.filter (fun i => match get p i with
            | Some w => op_in (n_vtype w) FIELD_VTYPES | None => false end) (n_inputs v) in
        let in_fields := Nat.max (length (remove_dups fields)) (default 0 (n_coeffs v)) in
        Cost (S (c_kernels c))
             (if in_fields <=? 2 then S (c_small c) else c_small c)
             (c_heavy c)
             (c_reads c + in_fields)
             (if op_in (n_op v) SCRATCH_OPS then S (c_writes c) else c_writes c)
      else c
  end.

Record estimate_report := Estimate {
  e_cost : cost; e_scratch_count : nat; e_buffer_count : nat; e_buffers_saved : Z;
  e_traffic : nat }.

Definition estimate (p : program) : estimate_report :=
  let reuse := buffer_reuse_report p in
  let c := foldl (cost_step p) (Cost 0 0 0 0 0) (p_values p) in
  Estimate c (rr_scratch_count reuse) (rr_buffer_count reuse)
    (Z.of_nat (rr_scratch_count reuse) - Z.of_nat (rr_buffer_count reuse))
    (c_reads c + c_writes c).

Definition GPU_MAX_SMALL_KERNELS : nat := 12.
Definition GPU_MAX_SCRATCHES : nat := 16.
Definition GPU_MAX_TRAFFIC_FIELDS : nat := 40.

Definition gpu_detectors (p : program) : list (string * nat * nat) :=
  let est := estimate p in
  List.filter (fun '(_, value, thresh) => thresh <? value)
    [ ("too_many_small_kernels"%string, c_small (e_cost est), GPU_MAX_SMALL_KERNELS);
      ("too_many_scratches"%string, e_buffer_count est, GPU_MAX_SCRATCHES);
      ("excessive_memory_traffic"%string, e_traffic est, GPU_MAX_TRAFFIC_FIELDS) ].

(** ** The live ranges cover every read *)

Section LastUse.
Context (order : gmap nat nat) (e : nat).

Definition at_least (last : gmap nat nat) (k n : nat) : Prop := ∃ x, last !! k = Some x ∧ n <= x.

(** Recorded uses lie between the definition and the end of the body. *)
Definition sane (last : gmap nat nat) : Prop :=
  ∀ k x, last !! k = Some x → x <= e ∧ ∀ d, order !! k = Some d → d <= x.

Context (Horder : ∀ k d, order !! k = Some d → d <= e).

Lemma bump_mono i last rid k n : at_least last k n → at_least (bump order i last rid) k n.
Proof.
  intros (x & Hx & Hn). unfold bump. destruct (order !! rid) as [d|]; [|by exists x].
  destruct (decide (k = rid)) as [->|].
  - exists (Nat.max x i). rewrite lookup_insert_eq, Hx. split; [done | lia].
  - exists x. by rewrite lookup_insert_ne.
Qed.

Lemma bump_self i last rid d : order !! rid = Some d → at_least (bump order i last rid) rid i.
Proof. intros H. unfold bump. rewrite H. eexists. rewrite lookup_insert_eq. split; [done | lia]. Qed.

Lemma bump_sane i last rid : i <= e → sane last → sane (bump order i last rid).
Proof.
  intros Hi H k x. unfold bump. destruct (order !! rid) as [d|] eqn:Ed; [|apply H].
  destruct (decide (k = rid)) as [->|]; [|rewrite lookup_insert_ne by done; apply H].
  rewrite lookup_insert_eq. intros; simplify_eq. rewrite Ed. pose proof (Horder _ _ Ed).
  destruct (last !! rid) as [y|] eqn:Ey; unfold default, id.
  - destruct (H rid y Ey) as [? Hd]. specialize (Hd d Ed).
    split; [lia|]. intros; simplify_eq. lia.
  - split; [lia|]. intros; simplify_eq. lia.
Qed.

Lemma pin_mono last rid k n : sane last → at_least last k n → at_least (pin order e last rid) k n.
Proof.
  intros Hs (x & Hx & Hn). unfold pin. destruct (order !! rid); [|by exists x].
  destruct (decide (k = rid)) as [->|].
  - exists e. rewrite lookup_insert_eq. destruct (Hs _ _ Hx). split; [done | lia].
  - exists x. by rewrite lookup_insert_ne.
Qed.

Lemma pin_self last rid d : order !! rid = Some d → at_least (pin order e last rid) rid e.
Proof. intros H. unfold pin. rewrite H. eexists. by rewrite lookup_insert_eq. Qed.

Lemma pin_sane last rid : sane last → sane (pin order e last rid).
Proof.
  intros H k x. unfold pin. destruct (order !! rid) as [d|]; [|apply H].
  destruct (decide (k = rid)) as [->|]; [|rewrite lookup_insert_ne by done; apply H].
  rewrite lookup_insert_eq. intros; simplify_eq. split; [done|]. apply Horder.
Qed.

Lemma bump_all i l last :
  i <= e → sane last →
  sane (foldl (bump order i) last l)
  ∧ (∀ k n, at_least last k n → at_least (foldl (bump order i) last l) k n)
  ∧ (∀ k d, k ∈ l → order !! k = Some d → at_least (foldl (bump order i) last l) k i).
Proof.
  intros Hi. revert last; induction l as [|r l IH]; intros last Hs; cbn [foldl].
  - split_and!; [done | done | set_solver].
  - destruct (IH (bump order i last r)) as (H1 & H2 & H3); [by apply bump_sane|].
    split_and!; [done | auto using bump_mono |].
    intros k d [->|Hk]%elem_of_cons Hd; [|by eapply H3]. apply H2. by eapply bump_self.
Qed.

Lemma pin_all l last :
  sane last →
  sane (foldl (pin order e) last l)
  ∧ (∀ k n, at_least last k n → at_least (foldl (pin order e) last l) k n)
  ∧ (∀ k d, k ∈ l → order !! k = Some d → at_least (foldl (pin order e) last l) k e).
Proof.
  revert last; induction l as [|r l IH]; intros last Hs; cbn [foldl].
  - split_and!; [done | done | set_solver].
  - destruct (IH (pin order e last r)) as (H1 & H2 & H3); [by apply pin_sane|].
    split_and!; [done | auto using pin_mono |].
    intros k d [->|Hk]%elem_of_cons Hd; [|by eapply H3]. apply H2. by eapply pin_self.
Qed.

(** What one node of the walk records. *)
Definition recorded (p : program) (last : gmap nat nat) (t : nat * nat) : Prop :=
  ∀ v k d, get p t.2 = Some v → order !! k = Some d →
    (k ∈ direct_reads v → at_least last k t.1)
    ∧ (op_in (n_op v) SUBBLOCK_OPS = true → k ∈ refs p v → at_least last k e).

Lemma visit_spec p last t :
  t.1 <= e → sane last →
  sane (visit p order e last t)
  ∧ (∀ k n, at_least last k n → at_least (visit p order e last t) k n)
  ∧ recorded p (visit p order e last t) t.
Proof.
  destruct t as [i id]. cbn [fst snd]. intros Hi Hs. unfold visit, recorded; cbn [fst snd].
  destruct (get p id) as [v|]; [|split_and!; [done | done | by intros]].
  destruct (bump_all i (direct_reads v) last Hi Hs) as (H1 & H2 & H3).
  destruct (op_in (n_op v) SUBBLOCK_OPS) eqn:Eop.
  - destruct (pin_all (refs p v) _ H1) as (H4 & H5 & H6).
    split_and!; [done | auto |]. intros v' k d Hv Hd. simplify_eq. split; [|by eauto].
    intros Hk. apply H5. by eapply H3.
  - split_and!; [done | auto |]. intros v' k d Hv Hd. simplify_eq. split; [|congruence].
    intros Hk. by eapply H3.
Qed.

Lemma visit_all p l last :
  (∀ t, t ∈ l → t.1 <= e) → sane last →
  sane (foldl (visit p order e) last l)
  ∧ (∀ k n, at_least last k n → at_least (foldl (visit p order e) last l) k n)
  ∧ (∀ t, t ∈ l → recorded p (foldl (visit p order e) last l) t).
Proof.
  revert last; induction l as [|t l IH]; intros last Hl Hs; cbn [foldl].
  - split_and!; [done | done | set_solver].
  - destruct (visit_spec p last t) as (H1 & H2 & H3); [apply Hl; left | done |].
    destruct (IH (visit p order e last t)) as (H4 & H5 & H6); [set_solver | done |].
    split_and!; [done | auto |]. intros t' [->|Ht']%elem_of_cons; [|auto].
    intros v k d Hv Hd. destruct (H3 v k d Hv Hd) as [Ha Hb]. split; auto.
Qed.
End LastUse.

Lemma order_of_lookup ids i id :
  NoDup ids → order_of ids !! id = Some i ↔ ids !! i = Some id.
Proof.
  intros Hnd. unfold order_of.
  assert (H : ∀ l d k, NoDup (map snd l) →
    (foldl (fun d '(i, id) => <[id := i]> d) d l : gmap nat nat) !! id = Some k ↔
    (k, id) ∈ l ∨ (id ∉ map snd l ∧ d !! id = Some k)).
  { clear. induction l as [|[j x] l IH]; intros d k Hnd; cbn [foldl map snd].
    - set_solver.
    - cbn [map snd] in Hnd. apply NoDup_cons in Hnd as [Hx Hnd]. rewrite IH by done.
      destruct (decide (id = x)) as [->|Hne].
      + rewrite lookup_insert_eq. split.
        * intros [Hin|[_ [= ->]]]; left; [by right | left].
        * intros [[Heq|Hin]%elem_of_cons|[Hn _]].
          -- right. simplify_eq. done.
          -- exfalso. apply Hx, list_elem_of_fmap. by exists (k, x).
          -- exfalso. apply Hn. left.
      + rewrite lookup_insert_ne by done. set_solver. }
  rewrite H.
  2:{ change (map snd (zip (seq 0 (length ids)) ids))
        with ((zip (seq 0 (length ids)) ids).*2). rewrite snd_zip; [done|]. rewrite length_seq. lia. }
  rewrite lookup_empty. split.
  - intros [Hin|[_ ?]]; [|done]. apply list_elem_of_lookup_1 in Hin as [j Hj].
    apply lookup_zip_Some in Hj as [Hj Hid]. apply lookup_seq in Hj as [-> _]. done.
  - intros Hi. left. apply list_elem_of_lookup. exists i. apply lookup_zip_Some.
    split; [|done]. apply lookup_seq. split; [done|]. by apply lookup_lt_Some in Hi.
Qed.

(** *** The whole analysis *)

Lemma order_bound p k d :
  NoDup (p_values p) → order_of (p_values p) !! k = Some d → d <= length (p_values p) - 1.
Proof. intros Hnd H. apply order_of_lookup in H; [|done]. apply lookup_lt_Some in H. lia. Qed.

Lemma last_uses_spec p id d :
  NoDup (p_values p) → p_values p !! d = Some id →
  (∀ i reader v, p_values p !! i = Some reader → get p reader = Some v →
     (id ∈ direct_reads v → at_least (last_uses p) id i)
     ∧ (op_in (n_op v) SUBBLOCK_OPS = true → id ∈ refs p v →
          at_least (last_uses p) id (length (p_values p) - 1)))
  ∧ (∀ state, (state, id) ∈ p_commits p → at_least (last_uses p) id (length (p_values p)))
  ∧ (∀ x, last_uses p !! id = Some x → d <= x).
Proof.
  intros Hnd Hd. set (order := order_of (p_values p)). set (e := length (p_values p) - 1).
  assert (Hord : order !! id = Some d) by by apply order_of_lookup.
  assert (Hb : ∀ k x, order !! k = Some x → x <= e) by (intros; by eapply order_bound).
  assert (Hidx : ∀ t, t ∈ indexed p → t.1 <= e).
  { intros [i x] Hin. unfold indexed in Hin. apply list_elem_of_lookup_1 in Hin as [j Hj].
    apply lookup_zip_Some in Hj as [Hj Hx]. apply lookup_seq in Hj as [-> ?]. cbn. subst e. lia. }
  destruct (visit_all order e Hb p (indexed p) ∅ Hidx ltac:(intros k x; by rewrite lookup_empty))
    as (Hs & _ & Hrec).
  set (mid := foldl (visit p order e) ∅ (indexed p)) in *.
  assert (Hb' : ∀ k x, order !! k = Some x → x <= e + 1) by (intros k x Hk; specialize (Hb k x Hk); lia).
  assert (Hs' : sane order (e + 1) mid).
  { intros k x Hx. destruct (Hs k x Hx). split; [lia | done]. }
  destruct (bump_all order (e + 1) Hb' (e + 1) (map snd (p_commits p)) mid (le_n _) Hs')
    as (Hs2 & Hmono & Hcommit).
  change (foldl (bump order (e + 1)) mid (map snd (p_commits p))) with (last_uses p) in *.
  split_and!.
  - intros i reader v Hi Hv. assert (Hin : (i, reader) ∈ indexed p).
    { apply list_elem_of_lookup. exists i. apply lookup_zip_Some. split; [|done].
      apply lookup_seq. split; [done|]. by apply lookup_lt_Some in Hi. }
    destruct (Hrec _ Hin v id d Hv Hord) as [H1 H2]. split; intros; apply Hmono; auto.
  - intros state Hst.
    assert (Hin : id ∈ map snd (p_commits p)) by (apply list_elem_of_fmap; by exists (state, id)).
    destruct (Hcommit id d Hin Hord) as (x & Hx & Hle). exists x. split; [done|].
    apply lookup_lt_Some in Hd. subst e. lia.
  - intros x Hx. by apply (Hs2 id x Hx).
Qed.

Lemma scratch_range_spec p i vid r :
  NoDup (p_values p) → p_values p !! i = Some vid → scratch_range p (i, vid) = Some r →
  r_def r = i ∧ r_last r = default i (last_uses p !! vid) ∧ r_def r <= r_last r.
Proof.
  intros Hnd Hi H. unfold scratch_range in H. destruct (get p vid) as [v|]; [|done].
  destruct (op_in _ _); [|done]. injection H as <-.
  assert (Hd : default 0 (order_of (p_values p) !! vid) = i)
    by by rewrite (proj2 (order_of_lookup _ _ _ Hnd) Hi).
  cbn [r_def r_last]. rewrite Hd. split_and!; [done | done |].
  destruct (last_uses p !! vid) as [x|] eqn:Ex; [|done].
  by apply (proj2 (proj2 (last_uses_spec p vid i Hnd Hi))).
Qed.

(** ** The greedy assignment *)

Definition overlap (r1 r2 : range) : Prop := r_def r1 <= r_last r2 ∧ r_def r2 <= r_last r1.

Lemma first_free_spec free d :
  match first_free free d with
  | Some b => ∃ x, free !! b = Some x ∧ x < d
  | None => ∀ b x, free !! b = Some x → d <= x
  end.
Proof.
  induction free as [|e free IH]; cbn [first_free]; [intros b x H; by rewrite lookup_nil in H|].
  destruct (e <? d) eqn:E; bools; cbn.
  - by exists e.
  - destruct (first_free free d) as [b|]; cbn.
    + exact IH.
    + intros [|b] x Hx; simplify_eq/=; [done | by apply (IH b)].
Qed.

(** The state of the loop after the ranges [done]. *)
Record alloc_inv (done : list range) (a : alloc) : Prop := {
  al_names : map fst (a_slots a) = map r_name done;
  al_slot : ∀ i s, (a_slots a).*2 !! i = Some s → s < length (a_free a);
  al_last : ∀ i s r, (a_slots a).*2 !! i = Some s → done !! i = Some r →
              ∃ x, a_free a !! s = Some x ∧ r_last r <= x;
  al_occupant : ∀ s x, a_free a !! s = Some x → ∃ i r, (a_slots a).*2 !! i = Some s
              ∧ done !! i = Some r ∧ r_last r = x;
  al_disjoint : ∀ i j s ri rj, i < j → (a_slots a).*2 !! i = Some s → (a_slots a).*2 !! j = Some s →
              done !! i = Some ri → done !! j = Some rj → r_last ri < r_def rj;
  al_count : a_reused a + length (a_free a) = length done;
  al_clique : ∃ d idx, length idx = length (a_free a) ∧ NoDup idx
              ∧ ∀ i, i ∈ idx → ∃ r, done !! i = Some r ∧ r_def r <= d <= r_last r }.

Lemma slots_length done a : alloc_inv done a → length (a_slots a) = length done.
Proof. intros H. pose proof (al_names _ _ H) as E. apply (f_equal length) in E. by rewrite !length_map in E. Qed.

Lemma alloc_inv_nil : alloc_inv [] (Alloc [] [] 0).
Proof.
  split; cbn; try done; try (intros; by rewrite lookup_nil in *).
  exists 0, []. split_and!; [done | apply NoDup_nil_2 | set_solver].
Qed.

Lemma lookup_snoc_cases {X} (l : list X) x i y :
  (l ++ [x]) !! i = Some y → l !! i = Some y ∨ (i = length l ∧ y = x).
Proof.
  intros H. destruct (decide (i < length l)) as [Hi|Hi].
  - left. by rewrite lookup_app_l in H.
  - right. rewrite lookup_app_r in H by lia. destruct (i - length l) eqn:E; simplify_eq/=.
    split; [lia | done].
Qed.

(** Choosing one index per buffer. *)
Lemma choose_list (n : nat) (P : nat → nat → Prop) :
  (∀ b, b < n → ∃ i, P b i) → ∃ idx, length idx = n ∧ ∀ b, b < n → ∃ i, idx !! b = Some i ∧ P b i.
Proof.
  induction n as [|n IH]; intros H.
  - exists []. split; [done | lia].
  - destruct IH as (idx & Hl & Hi); [intros; apply H; lia|]. destruct (H n) as [i Hn]; [lia|].
    exists (idx ++ [i]). split; [rewrite length_app; cbn; lia|]. intros b Hb.
    destruct (decide (b = n)) as [->|].
    + exists i. split; [|done]. rewrite lookup_app_r by lia. by rewrite Hl, Nat.sub_diag.
    + destruct (Hi b) as (j & Hj & HP); [lia|]. exists j. split; [|done].
      by apply lookup_app_l_Some.
Qed.

Lemma alloc_reuse done a r b x :
  alloc_inv done a → r_def r <= r_last r → a_free a !! b = Some x → x < r_def r →
  alloc_inv (done ++ [r])
    (Alloc (<[b := r_last r]> (a_free a)) (a_slots a ++ [(r_name r, b)]) (S (a_reused a))).
Proof.
  intros H Hr Hb Hx. pose proof (slots_length _ _ H) as Hl.
  pose proof (lookup_lt_Some _ _ _ Hb) as Hbl.
  split; cbn [a_free a_slots a_reused].
  - by rewrite !map_app, (al_names _ _ H).
  - intros i s. rewrite length_insert, fmap_app. intros [Hi|[_ ->]]%lookup_snoc_cases; [|done].
    by eapply al_slot.
  - intros i s r'. rewrite fmap_app. intros [Hi|[Hi ->]]%lookup_snoc_cases Hr'.
    + assert (i < length done).
      { apply lookup_lt_Some in Hi. rewrite length_fmap in Hi. lia. }
      rewrite lookup_app_l in Hr' by done.
      destruct (al_last _ _ H i s r' Hi Hr') as (y & Hy & Hle). destruct (decide (s = b)) as [->|].
      * exists (r_last r). rewrite list_lookup_insert_eq by done. simplify_eq. split; [done | lia].
      * exists y. rewrite list_lookup_insert_ne by done. done.
    + rewrite length_fmap, Hl in Hi. subst i. rewrite list_lookup_middle in Hr' by done.
      simplify_eq. exists (r_last r'). by rewrite list_lookup_insert_eq.
  - intros s y Hy. destruct (decide (s = b)) as [->|].
    + rewrite list_lookup_insert_eq in Hy by done. simplify_eq.
      exists (length done), r. rewrite fmap_app. split_and!; [|by apply list_lookup_middle|done].
      by apply list_lookup_middle; rewrite length_fmap.
    + rewrite list_lookup_insert_ne in Hy by done.
      destruct (al_occupant _ _ H s y Hy) as (i & r' & Hi & Hr' & Hl').
      exists i, r'. rewrite fmap_app. split_and!; [| |done]; by apply lookup_app_l_Some.
  - intros i j s ri rj Hij. rewrite fmap_app. intros Hi Hj Hri Hrj.
    apply lookup_snoc_cases in Hj as [Hj|[Hj ->]].
    + assert (Hjl : j < length done).
      { apply lookup_lt_Some in Hj. rewrite length_fmap in Hj. lia. }
      rewrite lookup_app_l in Hrj, Hri by lia.
      rewrite lookup_app_l in Hi by (rewrite length_fmap; lia).
      by eapply (al_disjoint _ _ H i j).
    + rewrite length_fmap, Hl in Hj. subst j. rewrite list_lookup_middle in Hrj by done.
      simplify_eq. rewrite lookup_app_l in Hri by done.
      rewrite lookup_app_l in Hi by (rewrite length_fmap; lia).
      destruct (al_last _ _ H i b ri Hi Hri) as (y & Hy & Hle). simplify_eq. lia.
  - rewrite length_insert, length_app. cbn. pose proof (al_count _ _ H). lia.
  - rewrite length_insert. destruct (al_clique _ _ H) as (d & idx & Hlen & Hnd & Hcl).
    exists d, idx. split_and!; [done | done |]. intros i Hi.
    destruct (Hcl i Hi) as (r' & Hr' & Hd). exists r'. split; [by apply lookup_app_l_Some | done].
Qed.

(** When every buffer is still live, its occupants and a new range form a clique. *)
Lemma occupants_clique done a r :
  alloc_inv done a → r_def r <= r_last r → (∀ b x, a_free a !! b = Some x → r_def r <= x) →
  (∀ r', r' ∈ done → r_def r' <= r_def r) →
  ∃ idx, length idx = length (a_free a) + 1 ∧ NoDup idx
    ∧ ∀ i, i ∈ idx → ∃ r', (done ++ [r]) !! i = Some r' ∧ r_def r' <= r_def r <= r_last r'.
Proof.
  intros H Hr Hlive Hsorted. pose proof (slots_length _ _ H) as Hl.
  destruct (choose_list (length (a_free a)) (fun b i => ∃ r', (a_slots a).*2 !! i = Some b
      ∧ done !! i = Some r' ∧ r_def r <= r_last r')) as (idx & Hlen & Hidx).
  { intros b Hb. destruct (lookup_lt_is_Some_2 _ _ Hb) as [x Hx].
    destruct (al_occupant _ _ H b x Hx) as (i & r' & Hi & Hr' & Heq).
    exists i, r'. split_and!; try done. rewrite Heq. by eapply Hlive. }
  assert (Hin : ∀ i, i ∈ idx → ∃ b r', b < length (a_free a) ∧ idx !! b = Some i
      ∧ (a_slots a).*2 !! i = Some b ∧ done !! i = Some r' ∧ r_def r <= r_last r').
  { intros i [b Hb]%list_elem_of_lookup_1. pose proof (lookup_lt_Some _ _ _ Hb) as Hlt.
    rewrite Hlen in Hlt. destruct (Hidx b Hlt) as (i' & Hi' & r' & ?). simplify_eq. eauto 10. }
  exists (idx ++ [length done]). split_and!.
  - by rewrite length_app, Hlen.
  - apply NoDup_app. split_and!; [|intros i Hi|apply NoDup_singleton].
    + apply NoDup_alt. intros b1 b2 i H1 H2.
      pose proof (lookup_lt_Some _ _ _ H1). pose proof (lookup_lt_Some _ _ _ H2).
      rewrite Hlen in *. destruct (Hidx b1) as (? & ? & ? & Hs1 & _); [lia|].
      destruct (Hidx b2) as (? & ? & ? & Hs2 & _); [lia|]. congruence.
    + destruct (Hin i Hi) as (b & r' & _ & _ & _ & Hr' & _). apply lookup_lt_Some in Hr'. set_solver by lia.
  - intros i [Hi| ->%list_elem_of_singleton]%elem_of_app.
    + destruct (Hin i Hi) as (b & r' & _ & _ & Hs & Hr' & Hle). exists r'.
      split; [by apply lookup_app_l_Some|]. split; [|done]. apply Hsorted. by eapply list_elem_of_lookup_2.
    + exists r. split; [by apply list_lookup_middle | lia].
Qed.

(** A fresh buffer: every existing occupant is still live. *)
Lemma alloc_fresh done a r :
  alloc_inv done a → r_def r <= r_last r → (∀ b x, a_free a !! b = Some x → r_def r <= x) →
  (∀ r', r' ∈ done → r_def r' <= r_def r) →
  alloc_inv (done ++ [r])
    (Alloc (a_free a ++ [r_last r]) (a_slots a ++ [(r_name r, length (a_free a))]) (a_reused a)).
Proof.
  intros H Hr Hlive Hsorted. pose proof (slots_length _ _ H) as Hl.
  assert (Hold : ∀ i s, (a_slots a).*2 !! i = Some s → i < length done).
  { intros i s Hi. apply lookup_lt_Some in Hi. rewrite length_fmap in Hi. lia. }
  split; cbn [a_free a_slots a_reused].
  - by rewrite !map_app, (al_names _ _ H).
  - intros i s. rewrite length_app, fmap_app. cbn. intros [Hi|[_ ->]]%lookup_snoc_cases; [|lia].
    pose proof (al_slot _ _ H i s Hi). lia.
  - intros i s r'. rewrite fmap_app. intros [Hi|[Hi ->]]%lookup_snoc_cases Hr'.
    + rewrite lookup_app_l in Hr' by eauto.
      destruct (al_last _ _ H i s r' Hi Hr') as (y & Hy & Hle). exists y.
      split; [by apply lookup_app_l_Some | done].
    + rewrite length_fmap, Hl in Hi. subst i. rewrite list_lookup_middle in Hr' by done.
      simplify_eq. exists (r_last r'). split; [by apply list_lookup_middle | done].
  - intros s y [Hy|[-> ->]]%lookup_snoc_cases.
    + destruct (al_occupant _ _ H s y Hy) as (i & r' & Hi & Hr' & Hl').
      exists i, r'. rewrite fmap_app. split_and!; [| |done]; by apply lookup_app_l_Some.
    + exists (length done), r. rewrite fmap_app. split_and!; [|by apply list_lookup_middle|done].
      by apply list_lookup_middle; rewrite length_fmap.
  - intros i j s ri rj Hij. rewrite fmap_app. intros Hi Hj Hri Hrj.
    apply lookup_snoc_cases in Hj as [Hj|[Hj ->]].
    + pose proof (Hold _ _ Hj). rewrite lookup_app_l in Hrj, Hri by lia.
      rewrite lookup_app_l in Hi by (rewrite length_fmap; lia).
      by eapply (al_disjoint _ _ H i j).
    + rewrite length_fmap, Hl in Hj. subst j.
      rewrite lookup_app_l in Hi by (rewrite length_fmap; lia).
      cbn in Hi. pose proof (al_slot _ _ H _ _ Hi). lia.
  - rewrite !length_app. cbn. pose proof (al_count _ _ H). lia.
  - destruct (occupants_clique done a r H Hr Hlive Hsorted) as (idx & Hlen & Hnd & Hcl).
    exists (r_def r), idx. split_and!; [by rewrite length_app, Hlen | done | exact Hcl].
Qed.

Lemma alloc_all l done a :
  alloc_inv done a → (∀ r, r ∈ l → r_def r <= r_last r) → StronglySorted by_def (done ++ l) →
  alloc_inv (done ++ l) (foldl alloc_step a l).
Proof.
  revert done a; induction l as [|r l IH]; intros done a H Hok Hs; cbn [foldl].
  - by rewrite app_nil_r.
  - replace (done ++ r :: l) with ((done ++ [r]) ++ l) in * by by rewrite <- app_assoc.
    apply IH; [| set_solver | done].
    pose proof (first_free_spec (a_free a) (r_def r)) as Hf. unfold alloc_step.
    destruct (first_free (a_free a) (r_def r)) as [b|].
    + destruct Hf as (x & Hx & Hlt). eapply alloc_reuse; try done. apply Hok. left.
    + apply alloc_fresh; [done | apply Hok; left | done |]. intros r' Hr'.
      rewrite <- app_assoc in Hs.
      clear -Hs Hr'. induction done as [|x done IH]; [set_solver|].
      cbn in Hs. apply StronglySorted_inv in Hs as [Hs Hall].
      apply elem_of_cons in Hr' as [->|Hr']; [|auto].
      rewrite Forall_forall in Hall. apply Hall. set_solver.
Qed.

Lemma allocate_inv l :
  (∀ r, r ∈ l → r_def r <= r_last r) → alloc_inv (sorted_ranges l) (allocate (sorted_ranges l)).
Proof.
  intros Hok. unfold allocate. apply (alloc_all (sorted_ranges l) []); cbn [app].
  - apply alloc_inv_nil.
  - intros r Hr. apply Hok. unfold sorted_ranges in Hr. by rewrite merge_sort_Permutation in Hr.
  - apply (StronglySorted_merge_sort by_def).
Qed.

(** Any assignment that separates overlapping ranges uses at least as many
    buffers. *)
Lemma alloc_optimal done a (f : nat → nat) k :
  alloc_inv done a →
  (∀ i j ri rj, i ≠ j → done !! i = Some ri → done !! j = Some rj → overlap ri rj → f i ≠ f j) →
  (∀ i, i < length done → f i < k) → length (a_free a) <= k.
Proof.
  intros H Hf Hk. destruct (al_clique _ _ H) as (d & idx & Hlen & Hnd & Hcl). rewrite <- Hlen.
  rewrite <- (length_map f).
  assert (Hsub : map f idx ⊆+ seq 0 k).
  { apply NoDup_submseteq.
    - apply NoDup_fmap_2_strong; [|done]. intros i j Hi Hj Heq.
      destruct (decide (i = j)) as [->|Hne]; [done|].
      destruct (Hcl i Hi) as (ri & Hri & ?), (Hcl j Hj) as (rj & Hrj & ?).
      exfalso. apply (Hf i j ri rj Hne Hri Hrj); [|done]. unfold overlap. lia.
    - intros s Hs. apply list_elem_of_fmap in Hs as (i & -> & Hi). apply elem_of_seq.
      destruct (Hcl i Hi) as (ri & Hri & _). apply lookup_lt_Some in Hri.
      specialize (Hk i Hri). lia. }
  apply submseteq_length in Hsub. by rewrite length_seq in Hsub.
Qed.

(** ** The scratch plan

    [build_scratch_plan] of [python/pops/codegen/scratch_plan.py], without the
    persistent solver records. *)
Definition RHS_OPS : list string := ["rhs"; "source"; "apply"; "coupled_rate"].
Definition STATE_SCRATCH_OPS : list string :=
  ["local_transform"; "linear_combine"; "solve_local_linear"; "solve_local_nonlinear";
   "solve_coupled_implicit"; "solve_spatial_nonlinear"; "where"].
Definition SCALAR_FIELD_OPS : list string := ["solve_linear"; "scalar_field"; "cell_compare"].
Definition ELLIPTIC_OPS : list string := ["solve_fields"; "solve_fields_from_blocks"].

Inductive family := FState | FRhs | FScalarField | FOperator.
#[global] Instance family_eq_dec : EqDecision family.
Proof. solve_decision. Defined.

Definition scratch_family (op vtype : string) : family :=
  if String.eqb op "linear_source" then FOperator
  else if op_in op RHS_OPS then FRhs
  else if op_in op STATE_SCRATCH_OPS then FState
  else if op_in op SCALAR_FIELD_OPS then FScalarField
  else if String.eqb vtype "scalar_field" then FScalarField else FState.

(** [_vtype_of]: the first node of that name. *)
Definition vtype_of (p : program) (name : string) : string :=
  match List.find (fun v => String.eqb (n_name v) name) (omap (get p) (p_values p)) with
  | Some v => n_vtype v
  | None => "state"
  end.

Definition field_solve_indices (p : program) : list nat :=
  omap (fun '(i, id) => if op_in (op_of p id) ELLIPTIC_OPS then Some i else None) (indexed p).

(** The two sentences of [_reject_reason]: how many buffers blocked, and whether
    the aux note is appended. *)
Inductive reason := Blocked (buffers def_index : nat) (aux : bool) | FreshRequired (def_index : nat) (aux : bool).

Definition reject_reason (r : range) (op : string) (barriers blockers : list nat) : reason :=
  let aux := op_in op RHS_OPS
             && existsb (fun f => (r_def r <=? f) && (f <=? r_last r)) barriers in
  match blockers with
  | [] => FreshRequired (r_def r) aux
  | _ => Blocked (length blockers) (r_def r) aux
  end.

Record reuse := Reuse { ru_scratch : string; ru_op : string; ru_buffer : nat; ru_shares : list string }.
Record rejection := Rejection { rj_scratch : string; rj_op : string; rj_reason : reason }.

(** One scratch of the [reused] loop: the occupants by buffer, the report. *)
Definition reused_step (op_name : string → string) (st : list (nat * list string) * list reuse)
    (t : range * nat) : list (nat * list string) * list reuse :=
  let '(occupants, out) := st in
  let '(r, slot) := t in
  let prior := default [] (dget slot occupants) in
  (dset slot (prior ++ [r_name r]) occupants,
   match prior with
   | [] => out
   | _ => out ++ [Reuse (r_name r) (op_name (r_name r)) slot prior]
   end).

(** One scratch of [_rejected_reuse]: the end of each buffer's occupant, the
    number of buffers, the report. *)
Definition rejected_step (op_name : string → string) (barriers : list nat)
    (st : list (nat * nat) * nat * list rejection) (t : range * nat)
    : list (nat * nat) * nat * list rejection :=
  let '(ends, n_buffers, out) := st in
  let '(r, slot) := t in
  let fresh := n_buffers <=? slot in
  let blockers := map fst (List.filter (fun '(_, e) => r_def r <=? e) ends) in
  (dset slot (r_last r) ends,
   if fresh then slot + 1 else n_buffers,
   if fresh && (0 <? n_buffers)
   then out ++ [Rejection (r_name r) (op_name (r_name r))
                  (reject_reason r (op_name (r_name r)) barriers blockers)]
   else out).

Record scratch_plan := ScratchPlan {
  sp_categories : list family;
  sp_scratch_count : nat;
  sp_buffer_count : nat;
  sp_reused : list reuse;
  sp_rejected : list rejection }.

Definition build_scratch_plan (p : program) : scratch_plan :=
  let liveness := scratch_liveness p in
  let report := buffer_reuse_report p in
  let op_of_name := foldl (fun d r => dset (r_name r) (r_op r) d) [] liveness in
  let op_name n := default EmptyString (dget n op_of_name) in
  let slot r := default 0 (dget (r_name r) (rr_assignment report)) in
  let placed := map (fun r => (r, slot r)) (sorted_ranges liveness) in
  ScratchPlan
    (map (fun r => scratch_family (r_op r) (vtype_of p (r_name r))) liveness)
    (rr_scratch_count report) (rr_buffer_count report)
    (foldl (reused_step op_name) ([], []) placed).2
    (foldl (rejected_step op_name (field_solve_indices p)) ([], 0, []) placed).2.

Definition alloc_slot (a : alloc) (r : range) : nat :=
  match first_free (a_free a) (r_def r) with Some b => b | None => length (a_free a) end.

Fixpoint slots_from (a : alloc) (l : list range) : list nat :=
  match l with [] => [] | r :: l => alloc_slot a r :: slots_from (alloc_step a r) l end.

Lemma length_slots_from a l : length (slots_from a l) = length l.
Proof. revert a; induction l; intros; cbn; auto. Qed.

Lemma slots_from_spec a l :
  a_slots (foldl alloc_step a l) = a_slots a ++ zip (map r_name l) (slots_from a l).
Proof.
  revert a; induction l as [|r l IH]; intros a; cbn; [by rewrite app_nil_r|].
  rewrite IH. unfold alloc_step at 1, alloc_slot.
  destruct (first_free _ _); cbn [a_slots]; by rewrite <- app_assoc.
Qed.

(** With distinct names the assignment dictionary returns the chosen slots. *)
Lemma assignment_lookup (slots : list (string * nat)) name s :
  NoDup (map fst slots) → (name, s) ∈ slots → dget name (assignment_of slots) = Some s.
Proof.
  unfold assignment_of.
  assert (H : ∀ d, NoDup (map fst slots) →
    dget name (foldl (fun d '(n, s) => dset n s d) d slots)
    = match dget name slots with Some s => Some s | None => dget name d end).
  { induction slots as [|[n s'] l IH]; intros d Hnd; [done|]. cbn [map fst] in Hnd.
    apply NoDup_cons in Hnd as [Hn Hnd]. cbn [foldl dget]. rewrite IH by done.
    rewrite dget_dset. case_decide as Heq; [|by destruct (dget name l)]. subst n.
    apply dget_None in Hn. unfold dkeys in Hn. by rewrite Hn. }
  intros Hnd Hin. rewrite H by done. by rewrite (dget_elem name s slots Hnd Hin).
Qed.

Lemma placed_slots l :
  NoDup (map r_name l) →
  map (fun r => (r, default 0 (dget (r_name r) (assignment_of (a_slots (allocate l)))))) l
  = zip l (slots_from (Alloc [] [] 0) l).
Proof.
  intros Hnd. unfold allocate. rewrite slots_from_spec. cbn [a_slots app].
  set (slots := slots_from _ l). pose proof (length_slots_from (Alloc [] [] 0) l) as Hl. fold slots in Hl.
  assert (Hfst : map fst (zip (map r_name l) slots) = map r_name l).
  { change (map fst (zip (map r_name l) slots)) with ((zip (map r_name l) slots).*1).
    apply fst_zip. rewrite length_map. lia. }
  apply list_eq. intros i. rewrite list_lookup_fmap.
  destruct (l !! i) as [r|] eqn:Er; cbn [fmap option_fmap option_map].
  - destruct (lookup_lt_is_Some_2 slots i) as [s Hs].
    { rewrite Hl. by apply lookup_lt_Some in Er. }
    symmetry. rewrite (assignment_lookup _ (r_name r) s).
    + apply lookup_zip_Some. done.
    + by rewrite Hfst.
    + apply list_elem_of_lookup. exists i. apply lookup_zip_Some.
      by rewrite list_lookup_fmap, Er.
  - symmetry. apply lookup_ge_None. apply lookup_ge_None in Er. rewrite length_zip. lia.
Qed.

(** *** Rejections *)

Definition ends_match (free : list nat) (ends : list (nat * nat)) : Prop :=
  dkeys ends = seq 0 (length free) ∧ ∀ b, dget b ends = free !! b.

Definition blocked_by_all (l : list rejection) : Prop :=
  ∀ x, x ∈ l → ∃ n d aux, rj_reason x = Blocked (S n) d aux.

Lemma ends_set free ends b x :
  ends_match free ends → b < length free → ends_match (<[b := x]> free) (dset b x ends).
Proof.
  intros [Hk Hg] Hb. split.
  - rewrite dkeys_dset, Hk, length_insert, decide_True; [done | apply elem_of_seq; lia].
  - intros b'. rewrite dget_dset, Hg. case_decide; subst.
    + by rewrite list_lookup_insert_eq.
    + by rewrite list_lookup_insert_ne.
Qed.

Lemma ends_push free ends x :
  ends_match free ends → ends_match (free ++ [x]) (dset (length free) x ends).
Proof.
  intros [Hk Hg]. split.
  - rewrite dkeys_dset, Hk, decide_False by (rewrite elem_of_seq; lia).
    rewrite length_app. cbn. by rewrite Nat.add_1_r, seq_S.
  - intros b'. rewrite dget_dset, Hg. case_decide; subst.
    + by rewrite list_lookup_middle.
    + destruct (decide (b' < length free)).
      * by rewrite lookup_app_l.
      * rewrite !lookup_ge_None_2; [done | rewrite length_app; cbn; lia | lia].
Qed.

Lemma all_blockers free ends d :
  ends_match free ends → (∀ b x, free !! b = Some x → d <= x) →
  length (map fst (List.filter (fun '(_, e) => d <=? e) ends)) = length free.
Proof.
  intros [Hk Hg] Hd. rewrite length_map.
  assert (Hall : List.filter (fun '(_, e) => d <=? e) ends = ends).
  { assert (Hin : ∀ k e, (k, e) ∈ ends → d <= e).
    { intros k e Hin. apply (Hd k). rewrite <- Hg. apply dget_elem; [|done].
      rewrite Hk. apply NoDup_seq. }
    clear Hk Hg. induction ends as [|[k e] ends IH]; [done|]. cbn.
    rewrite (proj2 (Nat.leb_le d e)) by (apply (Hin k); left). f_equal. apply IH.
    intros k' e' ?. apply (Hin k'). by right. }
  rewrite Hall. apply (f_equal length) in Hk. unfold dkeys in Hk.
  by rewrite length_map, length_seq in Hk.
Qed.

Lemma rejected_fold ops barriers l a ends out :
  ends_match (a_free a) ends → blocked_by_all out → length out = length (a_free a) - 1 →
  let a' := foldl alloc_step a l in
  let '(ends', n, out') := foldl (rejected_step ops barriers) (ends, length (a_free a), out)
                             (zip l (slots_from a l)) in
  n = length (a_free a') ∧ blocked_by_all out' ∧ length out' = length (a_free a') - 1.
Proof.
  revert a ends out; induction l as [|r l IH]; intros a ends out He Hb Hn; cbn [foldl zip zip_with slots_from].
  { done. }
  pose proof (first_free_spec (a_free a) (r_def r)) as Hf.
  assert (Hslot := eq_refl (alloc_slot a r)). assert (Hstep := eq_refl (alloc_step a r)).
  unfold alloc_slot at 2 in Hslot. unfold alloc_step at 2 in Hstep.
  destruct (first_free (a_free a) (r_def r)) as [b|] eqn:Ef;
    rewrite Hslot, Hstep; clear Hslot Hstep; cbn [rejected_step].
  - destruct Hf as (x & Hx & Hlt). apply lookup_lt_Some in Hx as Hbl.
    rewrite (proj2 (Nat.leb_gt _ _)) by lia. cbn [andb].
    set (a1 := Alloc (<[b := r_last r]> (a_free a)) (a_slots a ++ [(r_name r, b)]) (S (a_reused a))).
    specialize (IH a1 (dset b (r_last r) ends) out). cbn [a_free a1] in IH.
    rewrite length_insert in IH. apply IH; [by apply ends_set | done | done].
  - rewrite (proj2 (Nat.leb_le _ _)) by lia. cbn [andb].
    set (a1 := Alloc (a_free a ++ [r_last r]) (a_slots a ++ [(r_name r, length (a_free a))]) (a_reused a)).
    specialize (IH a1 (dset (length (a_free a)) (r_last r) ends)). cbn [a_free a1] in IH.
    rewrite length_app in IH. cbn [length] in IH.
    destruct (0 <? length (a_free a)) eqn:E0; bools.
    + apply IH; [by apply ends_push | | rewrite length_app; cbn; lia].
      intros y [Hy| ->%list_elem_of_singleton]%elem_of_app; [by apply Hb|]. cbn [rj_reason].
      pose proof (all_blockers _ _ (r_def r) He Hf) as Hall. unfold reject_reason.
      destruct (map fst _) as [|b0 bs]; [cbn in Hall; lia|]. cbn [length]. eauto.
    + apply IH; [by apply ends_push | done | lia].
Qed.

(** *** Reuses *)

(** The scratches already placed on buffer [b]. *)
Definition names_on (pre : list (range * nat)) (b : nat) : list string :=
  map (fun t => r_name t.1) (List.filter (fun t => t.2 =? b) pre).

Lemma names_on_app pre t b :
  names_on (pre ++ [t]) b = names_on pre b ++ if t.2 =? b then [r_name t.1] else [].
Proof.
  unfold names_on. rewrite List.filter_app, map_app. cbn. by destruct (t.2 =? b).
Qed.

Lemma names_on_elem pre b name :
  name ∈ names_on pre b → ∃ i r, pre !! i = Some (r, b) ∧ r_name r = name.
Proof.
  unfold names_on. intros ([r s] & -> & [Hin Hs]%list_elem_of_In%filter_In)%list_elem_of_fmap.
  apply list_elem_of_In, list_elem_of_lookup_1 in Hin as [i Hi]. cbn in Hs. bools. subst.
  by exists i, r.
Qed.

Definition reuse_ok (placed : list (range * nat)) (x : reuse) : Prop :=
  ∃ j r, placed !! j = Some (r, ru_buffer x) ∧ r_name r = ru_scratch x
    ∧ ru_shares x = names_on (take j placed) (ru_buffer x).

Lemma reused_fold ops l a pre occ out :
  (∀ b, default [] (dget b occ) = names_on pre b) →
  (∀ b, b < length (a_free a) ↔ names_on pre b ≠ []) →
  length out = a_reused a →
  (∀ x, x ∈ out → reuse_ok (pre ++ zip l (slots_from a l)) x) →
  let out' := (foldl (reused_step ops) (occ, out) (zip l (slots_from a l))).2 in
  length out' = a_reused (foldl alloc_step a l)
  ∧ ∀ x, x ∈ out' → reuse_ok (pre ++ zip l (slots_from a l)) x.
Proof.
  revert a pre occ out; induction l as [|r l IH]; intros a pre occ out Hocc Hne Hlen Hok;
    cbn [foldl zip zip_with slots_from]; [done|].
  set (b := alloc_slot a r) in *. set (a1 := alloc_step a r) in *.
  assert (Hassoc : pre ++ (r, b) :: zip l (slots_from a1 l) = (pre ++ [(r, b)]) ++ zip l (slots_from a1 l))
    by by rewrite <- app_assoc.
  cbn [slots_from zip zip_with] in Hok. fold b a1 in Hok. cbn [reused_step].
  fold (zip l (slots_from a1 l)) in *. rewrite Hocc. rewrite Hassoc in *.
  apply IH.
  - intros b'. rewrite dget_dset, names_on_app. cbn [fst snd]. rewrite Nat.eqb_sym.
    destruct (decide (b' = b)) as [->|Hb].
    + by rewrite Nat.eqb_refl.
    + rewrite (proj2 (Nat.eqb_neq b' b)) by done. by rewrite Hocc, app_nil_r.
  - intros b'. rewrite names_on_app. cbn [fst snd].
    assert (Hfree : length (a_free a1) = Nat.max (length (a_free a)) (S b)).
    { unfold a1, b, alloc_step, alloc_slot. pose proof (first_free_spec (a_free a) (r_def r)) as Hf.
      destruct (first_free (a_free a) (r_def r)) as [c|]; cbn [a_free].
      - destruct Hf as (x & Hx%lookup_lt_Some & _). rewrite length_insert. lia.
      - rewrite length_app. cbn. lia. }
    assert (Hbl : b <= length (a_free a)).
    { unfold b, alloc_slot. pose proof (first_free_spec (a_free a) (r_def r)) as Hf.
      destruct (first_free (a_free a) (r_def r)) as [c|]; [|lia].
      destruct Hf as (x & Hx%lookup_lt_Some & _). lia. }
    rewrite Hfree. destruct (b =? b') eqn:E; bools.
    + subst b'. split; [|lia]. intros _ Hnil. by apply app_nil in Hnil as [_ ?].
    + rewrite app_nil_r, <- Hne. lia.
  - unfold a1, alloc_step. destruct (Hne b) as [H1 H2]. unfold b in *. unfold alloc_slot in *.
    pose proof (first_free_spec (a_free a) (r_def r)) as Hf.
    destruct (first_free (a_free a) (r_def r)) as [c|]; cbn [a_reused].
    + destruct Hf as (x & Hx%lookup_lt_Some & _). specialize (H1 Hx).
      destruct (names_on pre c); [done|]. rewrite length_app. cbn. lia.
    + destruct (names_on pre (length (a_free a))) as [|n ns]; [done|].
      exfalso. assert (length (a_free a) < length (a_free a)); [by apply H2 | lia].
  - intros x Hx. destruct (names_on pre b) as [|n ns] eqn:En; [by apply Hok|].
    apply elem_of_app in Hx as [Hx| ->%list_elem_of_singleton]; [by apply Hok|].
    exists (length pre), r. cbn [ru_buffer ru_scratch ru_shares].
    rewrite <- app_assoc, take_app_length. cbn [app].
    rewrite list_lookup_middle by done. by rewrite En.
Qed.

(** ** Claims *)

(** The ids of the scratches, in definition order. *)
Definition scratch_at (p : program) (r : range) (id : nat) : Prop :=
  ∃ i v, p_values p !! i = Some id ∧ get p id = Some v
    ∧ op_in (n_op v) SCRATCH_OPS = true ∧ r_name r = n_name v ∧ scratch_range p (i, id) = Some r.

Lemma scratch_liveness_elem p r :
  r ∈ scratch_liveness p ↔ ∃ id, scratch_at p r id.
Proof.
  unfold scratch_liveness. rewrite list_elem_of_omap. split.
  - intros ([i id] & Hin & Hr). apply list_elem_of_lookup_1 in Hin as [j Hj].
    apply lookup_zip_Some in Hj as [Hj Hid]. apply lookup_seq in Hj as [-> _]. cbn [Nat.add] in *.
    exists id. unfold scratch_range in Hr. destruct (get p id) as [v|] eqn:Ev; [|done].
    destruct (op_in _ _) eqn:Eop; [|done]. exists j, v. split_and!; try done.
    + by injection Hr as <-.
    + unfold scratch_range. by rewrite Ev, Eop.
  - intros (id & i & v & Hi & _ & _ & _ & Hr). exists (i, id). split; [|done].
    apply list_elem_of_lookup. exists i. apply lookup_zip_Some. split; [|done].
    apply lookup_seq. split; [done|]. by apply lookup_lt_Some in Hi.
Qed.

(** A scratch's live range covers every read of it: each flat node that
    reads it, the end of the body when a node owning a sub-block refers to it,
    and the commit copy after the body. *)
Theorem live_range_covers_reads p r id :
  NoDup (p_values p) → scratch_at p r id →
  p_values p !! r_def r = Some id ∧ r_def r <= r_last r
  ∧ (∀ i reader v, p_values p !! i = Some reader → get p reader = Some v →
       (id ∈ direct_reads v → i <= r_last r)
       ∧ (op_in (n_op v) SUBBLOCK_OPS = true → id ∈ refs p v → length (p_values p) - 1 <= r_last r))
  ∧ (∀ state, (state, id) ∈ p_commits p → length (p_values p) <= r_last r).
Proof.
  intros Hnd (i & v & Hi & _ & _ & _ & Hr).
  destruct (scratch_range_spec p i id r Hnd Hi Hr) as (Hd & Hl & Hle).
  destruct (last_uses_spec p id i Hnd Hi) as (H1 & H2 & _). rewrite Hd, Hl.
  assert (Hat : ∀ n, at_least (last_uses p) id n → n <= default i (last_uses p !! id)).
  { intros n (x & -> & ?). done. }
  split_and!; [done | by rewrite <- Hl, <- Hd | |].
  - intros j reader w Hj Hw. destruct (H1 j reader w Hj Hw) as [Ha Hb]. split; auto.
  - intros state Hst. eauto.
Qed.

(** The dictionary is keyed by name: the buffer of a scratch is the one of its name, and
    only the last scratch of a name is recorded. *)
Definition sole_name (l : list range) (r : range) : Prop := ∀ r', r' ∈ l → r_name r' = r_name r → r' = r.

Lemma dict_lookup (slots : list (string * nat)) : ∀ d name,
  dget name (foldl (fun d '(n, s) => dset n s d) d slots)
  = match dget name (rev slots) with Some s => Some s | None => dget name d end.
Proof.
  induction slots as [|[n s] l IH]; intros d name; [done|]. cbn [foldl rev]. rewrite IH, dget_dset.
  assert (Happ : ∀ a b : list (string * nat), dget name (a ++ b) = match dget name a with Some x => Some x | None => dget name b end).
  { induction a as [|[k v] a IHa]; intros b; [done|]. cbn [app dget]. by case_decide. }
  rewrite Happ. destruct (dget name (rev l)); [done|]. cbn [dget]. repeat case_decide; subst; congruence.
Qed.

Lemma assigned_slot l name s : dget name (assignment_of (a_slots (allocate l))) = Some s →
  ∃ i r, l !! i = Some r ∧ r_name r = name ∧ slots_from (Alloc [] [] 0) l !! i = Some s.
Proof.
  unfold assignment_of. rewrite dict_lookup. destruct (dget name (rev _)) as [x|] eqn:E; [|done]. intros [= ->].
  apply dget_Some_elem, list_elem_of_In, in_rev, list_elem_of_In in E. unfold allocate in E. rewrite slots_from_spec in E. cbn [a_slots app] in E.
  apply list_elem_of_lookup_1 in E as [i Hi]. apply lookup_zip_Some in Hi as [Hn Hs].
  apply list_lookup_fmap_Some in Hn as (r & -> & Hr). by exists i, r.
Qed.

Lemma assigned_some l i r : l !! i = Some r → is_Some (dget (r_name r) (assignment_of (a_slots (allocate l)))).
Proof.
  intros Hi. unfold assignment_of. rewrite dict_lookup. destruct (dget (r_name r) (rev _)) as [x|] eqn:E; [by eexists|]. exfalso.
  apply dget_None in E. apply E. unfold allocate. rewrite slots_from_spec. cbn [a_slots app]. unfold dkeys.
  rewrite map_rev, list_elem_of_In, <- in_rev, <- list_elem_of_In. change (map fst) with (fmap (M:=list) (A:=string * nat) fst). rewrite fst_zip by (rewrite length_map, length_slots_from; lia).
  apply list_elem_of_fmap. exists r. split; [done|]. by apply list_elem_of_lookup_2 in Hi.
Qed.

Lemma omap_NoDup {A B} (f : A → option B) (key : B → nat) (pos : A → nat) (l : list A) :
  NoDup (map pos l) → (∀ t r, t ∈ l → f t = Some r → key r = pos t) → NoDup (omap f l).
Proof.
  intros Hnd Hf. apply (NoDup_fmap_1 key). induction l as [|t l IH]; [constructor|]. cbn [map] in Hnd. apply NoDup_cons in Hnd as [Ht Hnd].
  assert (Hl : NoDup (key <$> omap f l)) by (apply IH; [done|]; intros u r Hu; apply Hf; by right).
  cbn. destruct (f t) as [r|] eqn:E; [|done]. cbn. apply NoDup_cons. split; [|done]. intros (r' & Hk & Hr')%list_elem_of_fmap.
  apply list_elem_of_omap in Hr' as (u & Hu & Eu). apply Ht. apply list_elem_of_fmap. exists u. split; [|done].
  rewrite <- (Hf t r), <- (Hf u r'); [done|by right|done|by left|done].
Qed.

Lemma scratch_liveness_NoDup p : NoDup (p_values p) → NoDup (scratch_liveness p).
Proof.
  intros Hnd. apply (omap_NoDup _ r_def fst).
  - unfold indexed. change (map fst) with (fmap (M:=list) (A:=nat * nat) fst). rewrite fst_zip by (by rewrite length_seq). apply NoDup_seq.
  - intros [i vid] r Hin Hr. apply list_elem_of_lookup_1 in Hin as [j Hj]. apply lookup_zip_Some in Hj as [Hj Hi].
    apply lookup_seq in Hj as [-> _]. by apply (scratch_range_spec p j vid r Hnd Hi Hr).
Qed.

(** C4: the assignment that is returned never gives one buffer to two scratches that are
    live together.  Every scratch has a buffer below the count; of two scratches with the
    same buffer, neither of which shares its name with another scratch (the dictionary
    keeps one entry a name), one is read for the last time before the other is defined.
    The reuses counted are exactly the scratches beyond the buffers, and no assignment
    that separates overlapping live ranges uses fewer buffers. *)
Theorem buffer_reuse_sound_and_optimal p :
  NoDup (p_values p) →
  let live := scratch_liveness p in
  let report := buffer_reuse_report p in
  let buffer r := dget (r_name r) (rr_assignment report) in
  (∀ r, r ∈ live → ∃ s, buffer r = Some s ∧ s < rr_buffer_count report)
  ∧ (∀ r r', r ∈ live → r' ∈ live → sole_name live r → sole_name live r' → r ≠ r' → buffer r = buffer r' →
       r_last r < r_def r' ∨ r_last r' < r_def r)
  ∧ rr_scratch_count report = length live
  ∧ rr_reused report + rr_buffer_count report = rr_scratch_count report
  ∧ (∀ (f : range → nat) k, (∀ r r', r ∈ live → r' ∈ live → r ≠ r' → overlap r r' → f r ≠ f r') →
       (∀ r, r ∈ live → f r < k) → rr_buffer_count report <= k).
Proof.
  intros Hnd live report buffer. set (ranges := sorted_ranges live).
  assert (Hperm : ranges ≡ₚ live) by apply merge_sort_Permutation.
  assert (Hok : ∀ r, r ∈ live → r_def r <= r_last r).
  { intros r (id & Hat)%scratch_liveness_elem. destruct Hat as (i & v & Hi & _ & _ & _ & Hr). by apply (scratch_range_spec p i id r). }
  pose proof (allocate_inv _ Hok) as H. fold ranges in H.
  assert (Hslots : (a_slots (allocate ranges)).*2 = slots_from (Alloc [] [] 0) ranges).
  { unfold allocate. rewrite slots_from_spec. cbn [a_slots app]. apply snd_zip. rewrite length_slots_from, length_map. done. }
  assert (Hplace : ∀ r, r ∈ live → ∃ i r' s, buffer r = Some s ∧ ranges !! i = Some r' ∧ r_name r' = r_name r ∧ (a_slots (allocate ranges)).*2 !! i = Some s).
  { intros r Hr. rewrite <- Hperm in Hr. apply list_elem_of_lookup_1 in Hr as [j Hj]. destruct (assigned_some ranges j r Hj) as [s Hs].
    destruct (assigned_slot ranges _ s Hs) as (i & r' & Hi & Hn & His). exists i, r', s. by rewrite Hslots. }
  split_and!.
  - intros r Hr. destruct (Hplace r Hr) as (i & r' & s & Hs & _ & _ & Hi). exists s. split; [done|]. by apply (al_slot _ _ H i).
  - intros r r' Hr Hr' Hu Hu' Hne E. destruct (Hplace r Hr) as (i & x & s & Hs & Hi & Hn & His), (Hplace r' Hr') as (j & y & t & Ht & Hj & Hm & Hjt).
    assert (s = t) as <- by congruence.
    assert (x = r) as -> by (apply Hu; [rewrite <- Hperm; by eapply list_elem_of_lookup_2|done]).
    assert (y = r') as -> by (apply Hu'; [rewrite <- Hperm; by eapply list_elem_of_lookup_2|done]).
    destruct (decide (i = j)) as [->|Hij]; [congruence|]. destruct (decide (i < j)).
    + left. by eapply (al_disjoint _ _ H i j).
    + right. eapply (al_disjoint _ _ H j i); [lia|done..].
  - cbn. fold live ranges. by rewrite Hperm.
  - apply (al_count _ _ H).
  - intros f k Hf Hk. assert (Hin : ∀ i r, ranges !! i = Some r → r ∈ live) by (intros i r Hi; rewrite <- Hperm; by eapply list_elem_of_lookup_2).
    apply (alloc_optimal ranges (allocate ranges) (fun i => from_option f 0 (ranges !! i))); [exact H| |].
    + intros i j ri rj Hij Hi Hj Ho. rewrite Hi, Hj. apply Hf; [by eapply Hin..| |done]. intros ->. apply Hij.
      eapply NoDup_lookup; [|exact Hi|exact Hj]. rewrite Hperm. by apply scratch_liveness_NoDup.
    + intros i Hi. apply lookup_lt_is_Some in Hi as [r Hr]. rewrite Hr. apply Hk. by eapply Hin.
Qed.

(** For a program with distinct node names, the scratch plan accounts for
    every scratch: the reused list names, for each recycled buffer, earlier
    scratches that are dead before the new definition, and every buffer beyond
    the first was opened because all the existing ones were still live. *)
Theorem scratch_plan_sound p :
  NoDup (p_values p) → NoDup (map r_name (sorted_ranges (scratch_liveness p))) →
  let plan := build_scratch_plan p in
  length (sp_reused plan) + sp_buffer_count plan = sp_scratch_count plan
  ∧ length (sp_rejected plan) = sp_buffer_count plan - 1
  ∧ blocked_by_all (sp_rejected plan)
  ∧ ∀ x name, x ∈ sp_reused plan → name ∈ ru_shares x →
      ∃ r r', r ∈ scratch_liveness p ∧ r' ∈ scratch_liveness p
        ∧ r_name r = name ∧ r_name r' = ru_scratch x ∧ r_last r < r_def r'.
Proof.
  intros Hnd Hnames plan. set (ranges := sorted_ranges (scratch_liveness p)) in *.
  assert (Hok : ∀ r, r ∈ scratch_liveness p → r_def r <= r_last r).
  { intros r (id & Hat)%scratch_liveness_elem. destruct Hat as (i & v & Hi & _ & _ & _ & Hr).
    by apply (scratch_range_spec p i id r). }
  pose proof (allocate_inv _ Hok) as H. fold ranges in H.
  assert (Hslots : (a_slots (allocate ranges)).*2 = slots_from (Alloc [] [] 0) ranges).
  { unfold allocate. rewrite slots_from_spec. cbn [a_slots app]. apply snd_zip.
    rewrite length_slots_from, length_map. done. }
  unfold plan, build_scratch_plan, buffer_reuse_report. fold ranges.
  cbn [sp_reused sp_buffer_count sp_scratch_count sp_rejected rr_assignment rr_scratch_count rr_buffer_count].
  rewrite placed_slots by done. set (ops := fun n => default _ _).
  pose proof (reused_fold ops ranges (Alloc [] [] 0) [] [] []) as Hre. cbn [app] in Hre.
  destruct Hre as [Hlen Hshare];
    [done | intros b; cbn; split; [lia | done] | done | set_solver |].
  pose proof (rejected_fold ops (field_solve_indices p) ranges (Alloc [] [] 0) [] []) as Hrj.
  cbn [a_free length] in Hrj. fold (allocate ranges) in Hlen, Hrj.
  destruct (foldl (rejected_step _ _) _ _) as [[ends n] rej] eqn:Erj.
  destruct Hrj as (_ & Hblk & Hrl); [split; [done | intros b; by rewrite lookup_nil] | set_solver | done |].
  split_and!.
  - rewrite Hlen. apply (al_count _ _ H).
  - exact Hrl.
  - exact Hblk.
  - intros x name Hx Hname. destruct (Hshare x Hx) as (j & r' & Hj & Hn & Hs).
    rewrite Hs in Hname. apply names_on_elem in Hname as (i & r & Hi & Hni).
    apply lookup_take_Some in Hi as [Hi Hij].
    apply lookup_zip_Some in Hi as [Hir His], Hj as [Hjr Hjs]. rewrite <- Hslots in His, Hjs.
    assert (Hin : ∀ k z, ranges !! k = Some z → z ∈ scratch_liveness p).
    { intros k z Hz. apply list_elem_of_lookup_2 in Hz. unfold ranges, sorted_ranges in Hz.
      by rewrite merge_sort_Permutation in Hz. }
    exists r, r'. split_and!; eauto. by eapply (al_disjoint _ _ H i j).
Qed.

(** *** Witnesses *)

Definition ln (name op : string) (inputs : list nat) : node :=
  Node name op "state" "" "" inputs [] None [] None.

(** [k = rhs(U0); a = U0 + k; b = U0 + k + a; v = a + b], with the names of the
    two combinations as parameters. *)
Definition four_scratches (a b : string) : program :=
  Program (list_to_map
    [ (0, ln "U0" "state" []); (1, ln "k" "rhs" [0]); (2, ln a "linear_combine" [0; 1]);
      (3, ln b "linear_combine" [0; 1; 2]); (4, ln "v" "linear_combine" [2; 3]) ])
    [0; 1; 2; 3; 4] [("U"%string, 4)].

Lemma live_range_covers_reads_witness :
  ∃ r, scratch_at (four_scratches "a" "b") r 2 ∧ r_def r <= r_last r ∧ 4 <= r_last r.
Proof.
  assert (Hat : scratch_at (four_scratches "a" "b") (Range "a" "linear_combine" 2 4) 2).
  { exists 2, (ln "a" "linear_combine" [0; 1]). split_and!; vm_compute; reflexivity. }
  assert (Hnd : NoDup (p_values (four_scratches "a" "b"))) by (apply (NoDup_seq 0 5)).
  destruct (live_range_covers_reads _ _ _ Hnd Hat) as (_ & Hle & Hr & _).
  exists (Range "a" "linear_combine" 2 4). split; [exact Hat|]. split; [exact Hle|].
  refine (proj1 (Hr 4 4 (ln "v" "linear_combine" [2; 3]) _ _) _);
    [reflexivity | vm_compute; reflexivity | vm_compute; left].
Defined.

Lemma buffer_reuse_sound_and_optimal_witness :
  let p := four_scratches "a" "b" in
  rr_buffer_count (buffer_reuse_report p) = 3
  ∧ rr_reused (buffer_reuse_report p) + rr_buffer_count (buffer_reuse_report p)
    = rr_scratch_count (buffer_reuse_report p).
Proof.
  split; [vm_compute; reflexivity|].
  apply (buffer_reuse_sound_and_optimal (four_scratches "a" "b")). apply (NoDup_seq 0 5).
Defined.

Lemma scratch_plan_sound_witness :
  let plan := build_scratch_plan (four_scratches "a" "b") in
  length (sp_reused plan) = 1 ∧ blocked_by_all (sp_rejected plan).
Proof.
  split; [vm_compute; reflexivity|].
  apply (scratch_plan_sound (four_scratches "a" "b")); [apply (NoDup_seq 0 5)|].
  vm_compute. repeat constructor; set_solver by done.
Defined.

(** Node names are not distinct by construction, and the reports are keyed
    by name: with two scratches of one name the plan reports, as proven
    disjoint, the sharing of a buffer between two scratches whose live ranges
    overlap, and its counts no longer add up. *)
Theorem duplicate_names_break_the_plan :
  let p := four_scratches "a" "a" in
  let plan := build_scratch_plan p in
  ∃ r1 r2, r1 ∈ scratch_liveness p ∧ r2 ∈ scratch_liveness p ∧ r1 ≠ r2 ∧ overlap r1 r2
    ∧ Reuse "a" "linear_combine" 2 ["a"%string] ∈ sp_reused plan
    ∧ r_name r1 = "a"%string ∧ r_name r2 = "a"%string
    ∧ length (sp_reused plan) + sp_buffer_count plan ≠ sp_scratch_count plan.
Proof.
  exists (Range "a" "linear_combine" 2 4), (Range "a" "linear_combine" 3 4).
  split_and!.
  - vm_compute. right. left.
  - vm_compute. right. right. left.
  - discriminate.
  - vm_compute. lia.
  - vm_compute. left.
  - reflexivity.
  - reflexivity.
  - vm_compute. lia.
Qed.
