(* ===== verification/PyRound.v ===== *)
(** * Python's integer true division and [round]

    [a / b] on integers is the correctly rounded binary64 quotient; [round(x)]
    of a float is the nearest integer, ties to even.  On integers below 2^52
    the composition rounds the exact fraction. *)
From Stdlib Require Import SpecFloat.
From S2P Require Import Prelude Binary64.

(** [a / b] for [0 <= a], [0 < b]. *)
Definition int_truediv (a b : Z) : res float :=
  match a, b with
  | _, Z0 => Err ZeroDivisionError
  | Z0, Zpos _ => Ok (S754_zero false)
  | Zpos m, Zpos n => Ok (SFdiv 53 1024 (S754_finite false m 0) (S754_finite false n 0))
  | _, _ => Err NotImplementedError
  end.

(** The integer nearest to [a / b], ties to even. *)
Definition half_even (a b : Z) : Z :=
  let q := a / b in
  let r := a mod b in
  match Z.compare (2 * r) b with
  | Lt => q
  | Gt => q + 1
  | Eq => if Z.even q then q else q + 1
  end.

(** [round(x)] on a float; infinities and NaN raise. *)
Definition float_round (x : float) : res Z :=
  match x with
  | S754_zero _ => Ok 0
  | S754_finite s m e =>
      let n := if 0 <=? e then Zpos m * 2 ^ e else half_even (Zpos m) (2 ^ (- e)) in
      Ok (if s then - n else n)
  | S754_infinity _ => Err OverflowError
  | S754_nan => Err ValueError
  end.

(** [round(a / b)] *)
Definition round_quotient (a b : Z) : res Z := x ← int_truediv a b; float_round x.

(** ** The exact rounding *)

Lemma half_even_bounds a b : 0 < b → 2 * Z.abs (half_even a b * b - a) <= b.
Proof.
  intros Hb. unfold half_even. pose proof (Z.div_mod a b ltac:(lia)).
  pose proof (Z.mod_pos_bound a b Hb).
  destruct (Z.compare_spec (2 * (a mod b)) b); [destruct (Z.even _)| |]; nia.
Qed.

Lemma half_even_unique a b n : 0 < b → 2 * Z.abs (n * b - a) < b → half_even a b = n.
Proof. intros Hb Hn. pose proof (half_even_bounds a b Hb). nia. Qed.

Lemma half_even_eq a b c d : 0 < b → 0 < d → a * d = c * b → half_even a b = half_even c d.
Proof.
  intros Hb Hd H. unfold half_even.
  pose proof (Z.div_mod a b ltac:(lia)). pose proof (Z.mod_pos_bound a b Hb).
  pose proof (Z.div_mod c d ltac:(lia)). pose proof (Z.mod_pos_bound c d Hd).
  assert (Hq : a / b = c / d).
  { rewrite <- (Z.div_mul_cancel_r a b d), <- (Z.div_mul_cancel_r c d b) by lia.
    by rewrite H, (Z.mul_comm d b). }
  assert (Hr : (a mod b) * d = (c mod d) * b).
  { rewrite <- !Z.mul_mod_distr_r by lia. by rewrite H, (Z.mul_comm d b). }
  rewrite Hq.
  destruct (Z.compare_spec (2 * (a mod b)) b), (Z.compare_spec (2 * (c mod d)) d); try nia; done.
Qed.

Lemma half_even_exact a b k : 0 < b → a = k * b → half_even a b = k.
Proof. intros Hb ->. apply half_even_unique; [done|]. rewrite Z.sub_diag. lia. Qed.

Lemma half_even_mono a c b : 0 < b → a <= c → half_even a b <= half_even c b.
Proof.
  intros Hb H. unfold half_even.
  pose proof (Z.div_mod a b ltac:(lia)). pose proof (Z.mod_pos_bound a b Hb).
  pose proof (Z.div_mod c b ltac:(lia)). pose proof (Z.mod_pos_bound c b Hb).
  assert (a / b <= c / b) by (apply Z.div_le_mono; lia).
  destruct (Z.eq_dec (a / b) (c / b)) as [Heq|Hne].
  - rewrite Heq in *. assert (a mod b <= c mod b) by lia.
    destruct (Z.compare_spec (2 * (a mod b)) b), (Z.compare_spec (2 * (c mod b)) b);
      try destruct (Z.even _); lia.
  - destruct (Z.compare_spec (2 * (a mod b)) b), (Z.compare_spec (2 * (c mod b)) b);
      try destruct (Z.even (a / b)); try destruct (Z.even (c / b)); lia.
Qed.

(** A close enough dyadic approximation [m / 2^t] rounds to the same integer. *)
Lemma half_even_close a b m t :
  0 <= a < 2 ^ 52 → 0 < b → 1 <= t → 2 ^ 52 <= m →
  2 * Z.abs (m * b - a * 2 ^ t) <= b →
  half_even m (2 ^ t) = half_even a b.
Proof.
  intros Ha Hb Ht Hm Hc. set (T := 2 ^ t) in *.
  assert (HT : T = 2 * 2 ^ (t - 1)) by (unfold T; rewrite <- Z.pow_succ_r by lia; f_equal; lia).
  assert (0 < 2 ^ (t - 1)) by (apply Z.pow_pos_nonneg; lia).
  assert (HbT : b < T).
  { destruct (Z.le_gt_cases T b) as [Hle|]; [exfalso|done].
    assert (a * T <= (2 ^ 52 - 1) * b) by (apply Z.mul_le_mono_nonneg; lia).
    assert (2 ^ 52 * b <= m * b) by (apply Z.mul_le_mono_nonneg_r; lia). lia. }
  pose proof (half_even_bounds a b Hb) as Hn. set (n := half_even a b) in *.
  destruct (Z.eq_dec (2 * Z.abs (n * b - a)) b) as [Htie|Hlt].
  - apply half_even_eq; [lia | done |].
    set (k := if decide (0 <= n * b - a) then 2 * n - 1 else 2 * n + 1).
    assert (Hk : 2 * a = k * b) by (unfold k; destruct (decide _); lia).
    assert (Hd : 2 * (m * b - a * T) = b * (2 * m - k * T)) by nia.
    assert (Habs : 2 * Z.abs (m * b - a * T) = b * Z.abs (2 * m - k * T)).
    { rewrite <- (Z.abs_eq b) at 2 by lia. rewrite <- Z.abs_mul, <- Hd, Z.abs_mul. done. }
    assert (Z.abs (2 * m - k * T) <= 1) by nia.
    assert (2 * m - k * T = 0) by lia. nia.
  - apply half_even_unique; [lia|]. apply (Z.mul_lt_mono_pos_r b); [done|].
    assert (Hsum : (n * T - m) * b = T * (n * b - a) + (a * T - m * b)) by ring.
    assert (Habs : Z.abs (n * T - m) * b <= T * Z.abs (n * b - a) + Z.abs (m * b - a * T)).
    { rewrite <- (Z.abs_eq b) at 1 by lia. rewrite <- Z.abs_mul, Hsum.
      eapply Z.le_trans; [apply Z.abs_triangle|].
      rewrite Z.abs_mul, (Z.abs_eq T) by lia. lia. }
    nia.
Qed.

(** ** Correct rounding of the quotient *)

Lemma digits2_bounds p : 2 ^ (Zpos (digits2_pos p) - 1) <= Zpos p < 2 ^ Zpos (digits2_pos p).
Proof.
  induction p as [p IH|p IH|]; cbn [digits2_pos]; [| |cbn; lia];
    rewrite Pos2Z.inj_succ; replace (Z.succ (Zpos (digits2_pos p)) - 1) with (Z.succ (Zpos (digits2_pos p) - 1)) by lia;
    rewrite !Z.pow_succ_r by lia; lia.
Qed.

Lemma Zdigits2_bounds z : 0 < z → 1 <= Zdigits2 z ∧ 2 ^ (Zdigits2 z - 1) <= z < 2 ^ Zdigits2 z.
Proof.
  destruct z; [lia | | lia]. intros _. cbn [Zdigits2]. split; [lia | apply digits2_bounds].
Qed.

Lemma Zdigits2_eq z d : 0 < z → 2 ^ (d - 1) <= z < 2 ^ d → Zdigits2 z = d.
Proof.
  intros Hz [Hl Hu]. destruct (Zdigits2_bounds z Hz) as (H1 & Hl' & Hu').
  assert (2 ^ (d - 1) < 2 ^ Zdigits2 z) as H2 by lia.
  assert (2 ^ (Zdigits2 z - 1) < 2 ^ d) as H3 by lia.
  apply Z.pow_lt_mono_r_iff in H2; [|lia|lia].
  assert (0 <= d) by (destruct (Z.le_gt_cases 0 d); [done|]; rewrite (Z.pow_neg_r 2 d) in Hu by lia; lia).
  apply Z.pow_lt_mono_r_iff in H3; lia.
Qed.

(** The location of a remainder [r] below [b]. *)
Lemma new_location_spec b r : 0 <= r < b →
  new_location b r = if r =? 0 then loc_Exact else loc_Inexact (Z.compare (2 * r) b).
Proof.
  intros Hr. unfold new_location, new_location_even, new_location_odd.
  destruct (r =? 0) eqn:E; destruct (Z.even b) eqn:Hb; rewrite E; try reflexivity. f_equal.
  rewrite <- Z.negb_odd in Hb. apply negb_false_iff, Z.odd_spec in Hb as [k Hk].
  destruct (Z.compare_spec (2 * r + 1) b), (Z.compare_spec (2 * r) b); try done; exfalso; lia.
Qed.

Lemma shr_1_pos q r s : 0 < q →
  shr_1 {| shr_m := q; shr_r := r; shr_s := s |}
  = {| shr_m := q / 2; shr_r := Z.odd q; shr_s := r || s |}.
Proof. intros. rewrite <- Z.div2_div. destruct q as [|[]|]; done || lia. Qed.

(** Rounding a quotient of 53 ([k = 0]) or 54 ([k = 1]) digits to 53. *)
Definition rounded (q : Z) (l : location) (k : Z) : Z :=
  let mrs := fst (shr (shr_record_of_loc q l) 0 k) in
  round_nearest_even (shr_m mrs) (loc_of_shr_record mrs).

Lemma rounded_error q b r k :
  0 <= r < b → 0 < q → 0 <= k <= 1 →
  2 * Z.abs (rounded q (new_location b r) k * (2 ^ k * b) - (q * b + r)) <= 2 ^ k * b
  ∧ q / 2 ^ k <= rounded q (new_location b r) k <= q / 2 ^ k + 1.
Proof.
  intros Hr Hq Hk. rewrite new_location_spec by done. unfold rounded.
  destruct (Z.eq_dec k 0) as [->|Hk1].
  - cbn [shr fst]. change (2 ^ 0) with 1. rewrite Z.div_1_r.
    destruct (r =? 0) eqn:E; bools; cbn [shr_record_of_loc shr_m loc_of_shr_record round_nearest_even].
    { subst. split; [|lia]. rewrite Z.add_0_r, !Z.mul_1_l, Z.sub_diag. lia. }
    destruct (Z.compare_spec (2 * r) b); cbn [shr_record_of_loc shr_m loc_of_shr_record round_nearest_even];
      [destruct (Z.even q)| |]; split; try lia.
  - assert (k = 1) as -> by lia. cbn [shr fst iter_pos]. change (2 ^ 1) with 2.
    pose proof (Z.div_mod q 2 ltac:(lia)) as Hdm. rewrite Zmod_odd in Hdm.
    set (p := q / 2) in *.
    assert (Hsplit : ∀ d, (p + d) * (2 * b) - (q * b + r) = (2 * d - (if Z.odd q then 1 else 0)) * b - r)
      by (intros d; rewrite Hdm at 1; ring).
    pose proof (Hsplit 0) as Hsplit0. rewrite Z.add_0_r in Hsplit0.
    destruct (r =? 0) eqn:E; bools;
      [subst | destruct (Z.compare_spec (2 * r) b)];
      cbn [shr_record_of_loc]; rewrite shr_1_pos by done; fold p;
      destruct (Z.odd q); cbn [orb shr_m loc_of_shr_record round_nearest_even];
      try destruct (Z.even p);
      (split; [first [rewrite Hsplit | rewrite Hsplit0]; lia | lia]).
Qed.

Lemma shr_fexp_digits q e l k :
  0 < q → 2 ^ (52 + k) <= q < 2 ^ (53 + k) → -1000 <= e → 0 <= k <= 1 →
  shr_fexp 53 1024 q e l = (fst (shr (shr_record_of_loc q l) 0 k), e + k).
Proof.
  intros Hq Hd He Hk. unfold shr_fexp.
  rewrite (Zdigits2_eq q (53 + k)) by (try done; by replace (53 + k - 1) with (52 + k) by lia).
  unfold fexp, emin. replace (Z.max (53 + k + e - 53) (3 - 1024 - 53) - e) with k by lia.
  destruct (Z.eq_dec k 0) as [->|]; [cbn; f_equal; lia|].
  assert (k = 1) as -> by lia. done.
Qed.

(** The value of a rounded significand [m] at exponent [e], once normalised. *)
Lemma float_round_scaled m t s :
  0 < m → 1 <= t → s = 0 ∨ s = 1 ∧ Z.even m = true →
  float_round (S754_finite false (Z.to_pos (m / 2 ^ s)) (- t + s)) = Ok (half_even m (2 ^ t)).
Proof.
  intros Hm Ht Hs. cbn [float_round]. f_equal.
  assert (Hdiv : 0 < m / 2 ^ s ∧ m = (m / 2 ^ s) * 2 ^ s).
  { destruct Hs as [->|[-> He]]; [rewrite Z.div_1_r; lia|]. change (2 ^ 1) with 2.
    apply Z.even_spec in He as [c ->]. rewrite (Z.mul_comm 2 c), Z.div_mul by lia. lia. }
  destruct Hdiv as [Hpos Hfac]. rewrite Z2Pos.id by done. set (u := m / 2 ^ s) in *.
  destruct (0 <=? - t + s) eqn:E; bools.
  - assert (s = t) as -> by lia. replace (- t + t) with 0 by lia.
    symmetry. apply half_even_exact; [apply Z.pow_pos_nonneg; lia | lia].
  - apply half_even_eq; [apply Z.pow_pos_nonneg; lia | apply Z.pow_pos_nonneg; lia |].
    rewrite Hfac. rewrite <- Z.mul_assoc, <- Z.pow_add_r by lia. f_equal. f_equal. lia.
Qed.

(** The quotient the division core rounds: 53 or 54 significant digits. *)
Lemma div_core a b :
  0 < a < 2 ^ 52 → 0 < b < 2 ^ 52 →
  let t := Zdigits2 b + 53 - Zdigits2 a in
  SFdiv_core_binary 53 1024 a 0 b 0
  = ((a * 2 ^ t) / b, - t, new_location b ((a * 2 ^ t) mod b))
  ∧ 2 <= t <= 104 ∧ 2 ^ 52 <= (a * 2 ^ t) / b < 2 ^ 54.
Proof.
  intros Ha Hb t.
  destruct (Zdigits2_bounds a ltac:(lia)) as (Ha1 & Hal & Hau).
  destruct (Zdigits2_bounds b ltac:(lia)) as (Hb1 & Hbl & Hbu).
  assert (Zdigits2 a <= 52).
  { assert (H : 2 ^ (Zdigits2 a - 1) < 2 ^ 52) by lia. apply Z.pow_lt_mono_r_iff in H; lia. }
  assert (Zdigits2 b <= 52).
  { assert (H' : 2 ^ (Zdigits2 b - 1) < 2 ^ 52) by lia. apply Z.pow_lt_mono_r_iff in H'; lia. }
  assert (Hup : a * 2 ^ t < 2 ^ (Zdigits2 b + 53)).
  { replace (Zdigits2 b + 53) with (Zdigits2 a + t) by (unfold t; lia).
    rewrite Z.pow_add_r by (unfold t; lia). apply Z.mul_lt_mono_pos_r; [|done].
    apply Z.pow_pos_nonneg; unfold t; lia. }
  assert (Hlo : 2 ^ (Zdigits2 b + 52) <= a * 2 ^ t).
  { replace (Zdigits2 b + 52) with ((Zdigits2 a - 1) + t) by (unfold t; lia).
    rewrite Z.pow_add_r by (unfold t; lia). apply Z.mul_le_mono_nonneg_r; [|done].
    apply Z.pow_nonneg; lia. }
  split_and!; [|unfold t; lia|unfold t; lia| |].
  - unfold SFdiv_core_binary.
    assert (He : Z.min (fexp 53 1024 (Zdigits2 a + 0 - (Zdigits2 b + 0))) (0 - 0) = - t)
      by (unfold fexp, emin, t; lia).
    cbv zeta. rewrite He. replace (0 - 0 - - t) with t by lia.
    destruct t as [|p|p] eqn:Et; [unfold t in Et; lia | | unfold t in Et; lia].
    rewrite Z.shiftl_mul_pow2 by lia.
    unfold Z.div, Z.modulo. destruct (Z.div_eucl (a * 2 ^ Zpos p) b) as [q r]. done.
  - apply Z.div_le_lower_bound; [lia|].
    rewrite Z.pow_add_r in Hlo by lia. nia.
  - apply Z.div_lt_upper_bound; [lia|].
    assert (2 ^ (Zdigits2 b + 53) = 2 ^ (Zdigits2 b - 1) * 2 ^ 54)
      by (rewrite <- Z.pow_add_r by lia; f_equal; lia).
    nia.
Qed.

(** The second normalisation: a carry to 2^53 is shifted once more. *)
Lemma binary_round_aux_value q b r t :
  0 <= r < b → 2 ^ 52 <= q < 2 ^ 54 → 2 <= t <= 104 →
  ∃ m u, 1 <= u ∧ 2 ^ 52 <= m ∧ t - 1 <= u <= t
    ∧ float_round (binary_round_aux 53 1024 false q (- t) (new_location b r)) = Ok (half_even m (2 ^ u))
    ∧ 2 * Z.abs (m * (2 ^ (t - u) * b) - (q * b + r)) <= 2 ^ (t - u) * b.
Proof.
  intros Hr Hq Ht.
  set (k := if decide (q < 2 ^ 53) then 0 else 1).
  assert (Hk : 0 <= k <= 1 ∧ 2 ^ (52 + k) <= q < 2 ^ (53 + k)) by (unfold k; case_decide; lia).
  destruct Hk as [Hk Hqk].
  destruct (rounded_error q b r k Hr ltac:(lia) Hk) as [Herr Hb].
  set (m := rounded q (new_location b r) k) in *.
  assert (Hqd : 2 ^ 52 <= q / 2 ^ k < 2 ^ 53).
  { split; [apply Z.div_le_lower_bound | apply Z.div_lt_upper_bound];
      try (apply Z.pow_pos_nonneg; lia); rewrite <- Z.pow_add_r by lia; rewrite Z.add_comm; lia. }
  exists m, (t - k). replace (t - (t - k)) with k by lia. split_and!; [lia | lia | lia | lia | | done].
  unfold binary_round_aux.
  rewrite (shr_fexp_digits q (- t) _ k) by lia.
  change (round_nearest_even _ _) with m.
  set (s := if decide (m < 2 ^ 53) then 0 else 1).
  assert (Hs : s = 0 ∨ s = 1 ∧ Z.even m = true).
  { unfold s; case_decide; [by left | right]. assert (m = 2 ^ 53) as -> by lia. done. }
  assert (Hs1 : 0 <= s <= 1 ∧ 2 ^ (52 + s) <= m < 2 ^ (53 + s)) by (unfold s; case_decide; lia).
  rewrite (shr_fexp_digits m (- t + k) _ s) by lia.
  assert (Hm : shr_m (fst (shr (shr_record_of_loc m loc_Exact) 0 s)) = m / 2 ^ s).
  { destruct Hs as [->|[-> _]]; cbn [shr fst iter_pos shr_record_of_loc shr_m].
    - by rewrite Z.div_1_r.
    - by rewrite shr_1_pos by lia. }
  rewrite Hm.
  assert (Hpos : 0 < m / 2 ^ s).
  { apply Z.div_str_pos. split; [apply Z.pow_pos_nonneg; lia|]. destruct Hs as [->|[-> _]]; cbn; lia. }
  pose proof (float_round_scaled m (t - k) s ltac:(lia) ltac:(lia) Hs) as Hfr.
  replace (- (t - k) + s) with (- t + k + s) in Hfr by lia.
  destruct (m / 2 ^ s) as [|p|p] eqn:Ep; [lia | | lia].
  destruct (Z.leb_spec (- t + k + s) (1024 - 53)) as [_|]; [exact Hfr | lia].
Qed.

(** Python's [round(a / b)] on integers below 2^52 is the exact rounding. *)
Lemma round_quotient_exact a b :
  0 <= a < 2 ^ 52 → 0 < b < 2 ^ 52 → round_quotient a b = Ok (half_even a b).
Proof.
  intros Ha Hb. unfold round_quotient, int_truediv.
  destruct b as [|n|]; [lia | | lia]. destruct a as [|m|]; [| |lia].
  - done.
  - cbn [mbind res_bind].
    destruct (div_core (Zpos m) (Zpos n)) as (Hcore & Ht & Hq); [lia | lia |].
    set (t := Zdigits2 (Zpos n) + 53 - Zdigits2 (Zpos m)) in *.
    unfold SFdiv. rewrite Hcore.
    destruct (binary_round_aux_value (Zpos m * 2 ^ t / Zpos n) (Zpos n) ((Zpos m * 2 ^ t) mod Zpos n) t)
      as (M & u & Hu & HM & Hut & Hr & Herr); [apply Z.mod_pos_bound; lia | done | done |].
    change (xorb false false) with false. rewrite Hr. f_equal.
    apply half_even_close; [lia | lia | done | done |].
    pose proof (Z.div_mod (Zpos m * 2 ^ t) (Zpos n) ltac:(lia)) as Hdm.
    rewrite (Z.mul_comm (Zpos m * 2 ^ t / Zpos n) (Zpos n)), <- Hdm in Herr.
    assert (Hsplit : 2 ^ t = 2 ^ (t - u) * 2 ^ u) by (rewrite <- Z.pow_add_r by lia; f_equal; lia).
    rewrite Hsplit in Herr. assert (0 < 2 ^ (t - u)) by (apply Z.pow_pos_nonneg; lia).
    assert (Hf : M * (2 ^ (t - u) * Zpos n) - Zpos m * (2 ^ (t - u) * 2 ^ u)
                 = 2 ^ (t - u) * (M * Zpos n - Zpos m * 2 ^ u)) by ring.
    rewrite Hf, Z.abs_mul, (Z.abs_eq (2 ^ (t - u))) in Herr by lia. nia.
Qed.
