(* ===== verification/FloatValid.v ===== *)
(** * Canonical floats

    Conversion from integers, addition, subtraction and multiplication return
    canonical binary64 values: zero, infinities, or a significand normalised at
    its exponent. *)
From Stdlib Require Import SpecFloat.
From S2P Require Import Prelude Binary64 PyRound.

(** The floats Python has: [S754_finite s m e] in canonical form. *)
Definition valid (f : float) : bool := valid_binary 53 1024 f.

Notation fexp64 := (fexp 53 1024).

Lemma fexp_mono x y : x <= y → fexp64 x <= fexp64 y.
Proof. unfold fexp, emin. lia. Qed.

Lemma Zdigits2_div z k : 0 <= k < Zdigits2 z → 0 < z → Zdigits2 (z / 2 ^ k) = Zdigits2 z - k ∧ 0 < z / 2 ^ k.
Proof.
  intros Hk Hz. destruct (Zdigits2_bounds z Hz) as (_ & Hl & Hu).
  assert (0 < 2 ^ k) by (apply Z.pow_pos_nonneg; lia).
  assert (Hl' : 2 ^ (Zdigits2 z - k - 1) <= z / 2 ^ k).
  { apply Z.div_le_lower_bound; [done|]. rewrite <- Z.pow_add_r by lia.
    replace (k + (Zdigits2 z - k - 1)) with (Zdigits2 z - 1) by lia. done. }
  assert (0 < 2 ^ (Zdigits2 z - k - 1)) by (apply Z.pow_pos_nonneg; lia).
  split; [|lia]. apply Zdigits2_eq; [lia|]. split; [done|].
  apply Z.div_lt_upper_bound; [done|]. rewrite <- Z.pow_add_r by lia.
  replace (k + (Zdigits2 z - k)) with (Zdigits2 z) by lia. done.
Qed.

Lemma Zdigits2_mono x y : 0 < x <= y → Zdigits2 x <= Zdigits2 y.
Proof.
  intros [Hx Hxy]. destruct (Zdigits2_bounds x Hx) as (? & Hl & _).
  destruct (Zdigits2_bounds y ltac:(lia)) as (? & _ & Hu).
  assert (H' : 2 ^ (Zdigits2 x - 1) < 2 ^ Zdigits2 y) by lia.
  apply Z.pow_lt_mono_r_iff in H'; lia.
Qed.

(** Shifting right divides. *)
Lemma shr_1_m mrs : 0 <= shr_m mrs → shr_m (shr_1 mrs) = shr_m mrs / 2 ∧ 0 <= shr_m (shr_1 mrs).
Proof.
  destruct mrs as [m r s]. cbn [shr_m]. intros Hm. destruct (Z.eq_dec m 0) as [->|]; [done|].
  rewrite shr_1_pos by lia. cbn [shr_m]. split; [done | apply Z.div_pos; lia].
Qed.

Lemma iter_shr_m p mrs :
  0 <= shr_m mrs → shr_m (SpecFloat.iter_pos shr_1 p mrs) = shr_m mrs / 2 ^ Zpos p ∧ 0 <= shr_m (SpecFloat.iter_pos shr_1 p mrs).
Proof.
  revert mrs. induction p as [p IH|p IH|]; intros mrs Hm;
    [assert (0 < 2 ^ Zpos p) by (apply Z.pow_pos_nonneg; lia)..|]; cbn [SpecFloat.iter_pos].
  - destruct (shr_1_m mrs Hm) as [E1 P1]. destruct (IH _ P1) as [E2 P2]. destruct (IH _ P2) as [E3 P3].
    split; [|done]. rewrite E3, E2, E1, !Z.div_div by lia.
    f_equal. replace (Zpos p~1) with (1 + Zpos p + Zpos p) by lia. rewrite !Z.pow_add_r by lia. ring.
  - destruct (IH _ Hm) as [E2 P2]. destruct (IH _ P2) as [E3 P3].
    split; [|done]. rewrite E3, E2, !Z.div_div by lia.
    f_equal. replace (Zpos p~0) with (Zpos p + Zpos p) by lia. rewrite Z.pow_add_r by lia. ring.
  - destruct (shr_1_m mrs Hm). done.
Qed.

Lemma shr_fexp_m m e l :
  0 <= m → let r := shr_fexp 53 1024 m e l in
  shr_m (fst r) = m / 2 ^ Z.max 0 (fexp64 (Zdigits2 m + e) - e) ∧ snd r = Z.max e (fexp64 (Zdigits2 m + e)).
Proof.
  intros Hm. unfold shr_fexp, shr.
  assert (Hl : shr_m (shr_record_of_loc m l) = m) by (by destruct l as [|[]]).
  destruct (fexp64 (Zdigits2 m + e) - e) as [|p|p] eqn:Ed; cbn [fst snd].
  - rewrite Hl, Z.div_1_r. split; [done | lia].
  - destruct (iter_shr_m p (shr_record_of_loc m l) ltac:(lia)) as [-> _]. rewrite Hl. split; [done | lia].
  - rewrite Hl, Z.div_1_r. split; [done | lia].
Qed.

Lemma round_even_range m l : 0 <= m → m <= round_nearest_even m l <= m + 1.
Proof. destruct l as [|[]]; cbn; try destruct (Z.even m); lia. Qed.

(** Rounding a significand that is long enough for its exponent gives a
    canonical float. *)
Lemma binary_round_aux_valid sx mx ex lx :
  0 < mx → ex <= fexp64 (Zdigits2 mx + ex) → valid (binary_round_aux 53 1024 sx mx ex lx) = true.
Proof.
  intros Hmx Hex. unfold binary_round_aux.
  pose proof (shr_fexp_m mx ex lx ltac:(lia)) as H1. destruct (shr_fexp 53 1024 mx ex lx) as [mrs e1].
  cbn [fst snd] in H1. destruct H1 as [Hm1 He1]. rewrite Z.max_r in Hm1, He1 by lia.
  set (E1 := fexp64 (Zdigits2 mx + ex)) in *. rewrite He1.
  pose proof (Z.div_pos mx (2 ^ (E1 - ex)) ltac:(lia) ltac:(apply Z.pow_pos_nonneg; lia)) as Hpos.
  pose proof (round_even_range (shr_m mrs) (loc_of_shr_record mrs) ltac:(lia)) as Hr.
  set (r := round_nearest_even _ _) in *.
  pose proof (shr_fexp_m r E1 loc_Exact ltac:(lia)) as H2.
  destruct (shr_fexp 53 1024 r E1 loc_Exact) as [mrs2 e2]. cbn [fst snd] in H2. destruct H2 as [Hm2 He2].
  destruct (Z.eq_dec r 0) as [Hr0|Hr0].
  { rewrite Hr0, Z.div_0_l in Hm2 by (apply Z.pow_nonzero; lia). by rewrite Hm2. }
  assert (Hle : E1 <= fexp64 (Zdigits2 r + E1)).
  { destruct (Z.eq_dec (shr_m mrs) 0) as [Hz|Hz].
    - rewrite Hm1 in Hz. apply Z.div_small_iff in Hz; [|apply Z.pow_nonzero; lia].
      assert (Zdigits2 mx <= E1 - ex).
      { destruct (Zdigits2_bounds mx Hmx) as (? & ? & ?).
        assert (H' : 2 ^ (Zdigits2 mx - 1) < 2 ^ (E1 - ex)) by lia.
        apply Z.pow_lt_mono_r_iff in H'; lia. }
      destruct (Zdigits2_bounds r ltac:(lia)). unfold E1, fexp, emin in *. lia.
    - assert (Hd : Zdigits2 mx - (E1 - ex) <= Zdigits2 r).
      { destruct (Z.le_gt_cases (Zdigits2 mx) (E1 - ex)).
        - destruct (Zdigits2_bounds r ltac:(lia)). lia.
        - destruct (Zdigits2_div mx (E1 - ex)) as [<- ?]; [lia | lia|]. apply Zdigits2_mono. lia. }
      unfold E1 at 1. apply fexp_mono. lia. }
  rewrite Z.max_r in Hm2, He2 by lia. set (E2 := fexp64 (Zdigits2 r + E1)) in *.
  assert (HE1 : emin 53 1024 <= E1) by (unfold E1, fexp; lia).
  destruct (Zdigits2_bounds r ltac:(lia)) as [Hd1 _].
  assert (Hshift : 0 <= E2 - E1 < Zdigits2 r) by (unfold E2, fexp in *; lia).
  destruct (Zdigits2_div r (E2 - E1) Hshift ltac:(lia)) as [Hd2 Hp2].
  destruct (shr_m mrs2) as [|m2|m2] eqn:Em; [done | | lia]. subst e2.
  destruct (Z.leb_spec E2 (1024 - 53)); [|done].
  cbn [valid valid_binary]. unfold bounded, canonical_mantissa.
  change (Zpos (digits2_pos m2)) with (Zdigits2 (Zpos m2)). rewrite Hm2, Hd2.
  replace (Zdigits2 r - (E2 - E1) + E2) with (Zdigits2 r + E1) by lia. fold E2.
  rewrite Z.eqb_refl. by apply Z.leb_le.
Qed.

Lemma shl_align_spec mx ex ex' :
  let r := shl_align mx ex ex' in
  if ex' <? ex then fst r = (mx * 2 ^ Z.to_pos (ex - ex'))%positive ∧ snd r = ex' else r = (mx, ex).
Proof.
  unfold shl_align. destruct (Z.ltb_spec ex' ex) as [H|H].
  - destruct (ex' - ex) as [|p|p] eqn:E; [lia | lia|]. replace (ex - ex') with (Zpos p) by lia. cbn [fst snd].
    split; [|done]. clear. cbn [Z.to_pos]. unfold Pos.pow.
    induction p as [|p IH] using Pos.peano_ind; [cbn; lia|].
    rewrite !Pos.iter_succ, IH. lia.
  - destruct (ex' - ex) as [|p|p] eqn:E; [done | done | lia].
Qed.

Lemma binary_normalize_valid m e s : valid (binary_normalize 53 1024 m e s) = true.
Proof.
  assert (Hr : ∀ sx mx, valid (binary_round 53 1024 sx mx e) = true).
  { intros sx mx. unfold binary_round.
    pose proof (shl_align_spec mx e (fexp64 (Zpos (digits2_pos mx) + e))) as H.
    set (E := fexp64 (Zpos (digits2_pos mx) + e)) in *.
    destruct (shl_align mx e E) as [mz ez]. cbn [fst snd] in H.
    destruct (Z.ltb_spec E e) as [Hlt|Hge].
    - destruct H as [-> ->]. apply binary_round_aux_valid; [lia|].
      assert (Hd : Zdigits2 (Zpos (mx * 2 ^ Z.to_pos (e - E))) = Zdigits2 (Zpos mx) + (e - E)).
      { rewrite Pos2Z.inj_mul, Pos2Z.inj_pow, Z2Pos.id by lia.
        destruct (Zdigits2_bounds (Zpos mx) ltac:(lia)) as (? & ? & ?).
        assert (0 < 2 ^ (e - E)) by (apply Z.pow_pos_nonneg; lia).
        apply Zdigits2_eq; [lia|].
        replace (Zdigits2 (Zpos mx) + (e - E) - 1) with ((Zdigits2 (Zpos mx) - 1) + (e - E)) by lia.
        rewrite !Z.pow_add_r by lia. nia. }
      rewrite Hd. unfold E at 1. apply fexp_mono. cbn [Zdigits2]. lia.
    - injection H as -> ->. apply binary_round_aux_valid; [lia | done]. }
  destruct m; cbn [binary_normalize]; [done | apply Hr..].
Qed.

Lemma float_of_Z_valid z : valid (float_of_Z z) = true.
Proof. apply binary_normalize_valid. Qed.

Lemma fadd_valid x y : valid x = true → valid y = true → valid (fadd x y) = true.
Proof.
  destruct x as [[]|[]| |? ? ?], y as [[]|[]| |? ? ?]; intros Hx Hy; try done; apply binary_normalize_valid.
Qed.

Lemma fsub_valid x y : valid x = true → valid y = true → valid (fsub x y) = true.
Proof.
  destruct x as [[]|[]| |? ? ?], y as [[]|[]| |? ? ?]; intros Hx Hy; try done; apply binary_normalize_valid.
Qed.

Lemma fmul_valid x y : valid x = true → valid y = true → valid (fmul x y) = true.
Proof.
  destruct x as [s|s| |s m e], y as [s'|s'| |s' m' e']; intros Hx Hy; try done.
  unfold fmul, SFmul. apply binary_round_aux_valid; [lia|].
  cbn [valid valid_binary] in Hx, Hy. unfold bounded, canonical_mantissa in *.
  apply andb_true_iff in Hx as [Hx%Z.eqb_eq _], Hy as [Hy%Z.eqb_eq _].
  change (Zpos (digits2_pos m)) with (Zdigits2 (Zpos m)) in Hx.
  change (Zpos (digits2_pos m')) with (Zdigits2 (Zpos m')) in Hy.
  destruct (Zdigits2_bounds (Zpos m) ltac:(lia)) as (H1 & H2 & _).
  destruct (Zdigits2_bounds (Zpos m') ltac:(lia)) as (H1' & H2' & _).
  destruct (Zdigits2_bounds (Zpos (m * m')) ltac:(lia)) as (H1'' & _ & H2'').
  assert (Hd : Zdigits2 (Zpos m) + Zdigits2 (Zpos m') - 1 <= Zdigits2 (Zpos (m * m'))).
  { assert (H' : 2 ^ ((Zdigits2 (Zpos m) - 1) + (Zdigits2 (Zpos m') - 1)) < 2 ^ Zdigits2 (Zpos (m * m'))).
    { rewrite Z.pow_add_r by lia. eapply Z.le_lt_trans; [|exact H2''].
      rewrite (Pos2Z.inj_mul m m'). apply Z.mul_le_mono_nonneg; try apply Z.pow_nonneg; lia. }
    apply Z.pow_lt_mono_r_iff in H'; lia. }
  unfold fexp, emin in *. lia.
Qed.
