(* ===== verification/HexFloat.v ===== *)
(** * Hexadecimal floats

    [float.hex] and [float.fromhex] on the texts the sources accept: every
    reader checks [result.hex() == text], so only canonical texts matter.  A
    binary64 value and its text determine each other. *)
From Stdlib Require Import SpecFloat DecimalString DecimalPos DecimalN.
From S2P Require Import Prelude Binary64 FloatValid.




(** ** Printing *)

Definition hex_digit (d : Z) : ascii :=
  ascii_of_nat (Z.to_nat (if d <? 10 then 48 + d else 87 + d)).

(** The [n] low hexadecimal digits of [z]. *)
Fixpoint hex_digits (n : nat) (z : Z) : list ascii :=
  match n with
  | O => []
  | S n => hex_digits n (z / 16) ++ [hex_digit (z mod 16)]
  end.

Definition decimal (n : N) : list ascii := list_ascii_of_string (NilZero.string_of_uint (N.to_uint n)).

(** [%+d] *)
Definition exponent (e : Z) : list ascii :=
  (if e <? 0 then "-"%char else "+"%char) :: decimal (Z.to_N (Z.abs e)).

Definition sign (s : bool) : list ascii := if s then ["-"%char] else [].

(** [float.hex] *)
Definition hex (f : float) : string :=
  string_of_list_ascii
    match f with
    | S754_zero s => sign s ++ list_ascii_of_string "0x0.0p+0"
    | S754_infinity s => sign s ++ list_ascii_of_string "inf"
    | S754_nan => list_ascii_of_string "nan"
    | S754_finite s m e =>
        sign s ++ list_ascii_of_string "0x" ++ hex_digits 1 (Zpos m / 2 ^ 52)
        ++ ["."%char] ++ hex_digits 13 (Zpos m mod 2 ^ 52) ++ ["p"%char] ++ exponent (e + 52)
    end.

(** ** Parsing the canonical form *)

Definition hex_value (c : ascii) : option Z :=
  let n := Z.of_nat (nat_of_ascii c) in
  if (48 <=? n) && (n <=? 57) then Some (n - 48)
  else if (97 <=? n) && (n <=? 102) then Some (n - 87) else None.

Fixpoint parse_hex (acc : Z) (l : list ascii) : option Z :=
  match l with
  | [] => Some acc
  | c :: l => d ← hex_value c; parse_hex (acc * 16 + d) l
  end.

Definition parse_exponent (l : list ascii) : option Z :=
  match l with
  | c :: digits =>
      d ← NilZero.uint_of_string (string_of_list_ascii digits);
      let z := Z.of_N (N.of_uint d) in
      if Ascii.eqb c "-" then Some (- z) else if Ascii.eqb c "+" then Some z else None
  | [] => None
  end.

(** What follows ["0x"]. *)
Definition parse_body (s : bool) (l : list ascii) : option float :=
  if bool_decide (l = list_ascii_of_string "0.0p+0") then Some (S754_zero s)
  else
    match l with
    | d :: dot :: rest =>
        hi ← hex_value d;
        lo ← parse_hex 0 (take 13 rest);
        e ← match drop 13 rest with p :: e => if Ascii.eqb p "p" then parse_exponent e else None
                                  | [] => None end;
        match hi * 2 ^ 52 + lo with
        | Zpos m => if Ascii.eqb dot "." then Some (S754_finite s m (e - 52)) else None
        | _ => None
        end
    | _ => None
    end.

Definition parse (text : string) : option float :=
  match list_ascii_of_string text with
  | c0 :: c1 :: c2 :: l =>
      if Ascii.eqb c0 "-" then
        if Ascii.eqb c1 "0" && Ascii.eqb c2 "x" then parse_body true l else None
      else if Ascii.eqb c0 "0" && Ascii.eqb c1 "x" then parse_body false (c2 :: l) else None
  | _ => None
  end.

(** [result = float.fromhex(text)], then [isfinite(result)] and
    [result.hex() == text]. *)
Definition fromhex (text : string) : option float :=
  match parse text with
  | Some f => if valid f && is_finite f && String.eqb (hex f) text then Some f else None
  | None => None
  end.

Example hex_tenth : hex (SFdiv 53 1024 (float_of_Z 1) (float_of_Z 10)) = "0x1.999999999999ap-4"%string.
Proof. vm_compute. reflexivity. Qed.

(** ** The text determines the value *)

Lemma hex_value_digit d : 0 <= d < 16 → hex_value (hex_digit d) = Some d.
Proof.
  intros H. assert (Hd : d ∈ seqZ 0 16) by (apply elem_of_seqZ; lia). cbn in Hd.
  repeat (apply elem_of_cons in Hd as [->|Hd]; [done|]). by apply elem_of_nil in Hd.
Qed.

Lemma parse_hex_app acc l1 l2 :
  parse_hex acc (l1 ++ l2) = (a ← parse_hex acc l1; parse_hex a l2).
Proof.
  revert acc; induction l1 as [|c l1 IH]; intros acc; cbn; [done|].
  destruct (hex_value c); cbn; [apply IH | done].
Qed.

Lemma parse_hex_digits n z acc :
  0 <= z < 16 ^ Z.of_nat n → parse_hex acc (hex_digits n z) = Some (acc * 16 ^ Z.of_nat n + z).
Proof.
  revert z acc; induction n as [|n IH]; intros z acc Hz.
  - cbn in *. f_equal. lia.
  - rewrite Nat2Z.inj_succ, Z.pow_succ_r in Hz |- * by lia. cbn [hex_digits].
    rewrite parse_hex_app, IH; cbn.
    + rewrite hex_value_digit by (apply Z.mod_pos_bound; lia). cbn. f_equal.
      pose proof (Z.div_mod z 16 ltac:(lia)). lia.
    + split; [apply Z.div_pos; lia | apply Z.div_lt_upper_bound; lia].
Qed.

Lemma length_hex_digits n z : length (hex_digits n z) = n.
Proof. revert z; induction n as [|n IH]; intros z; cbn; [done|]. rewrite length_app, IH. cbn. lia. Qed.

Lemma parse_exponent_print e : parse_exponent (exponent e) = Some e.
Proof.
  unfold exponent, parse_exponent, decimal.
  rewrite string_of_list_ascii_of_string, NilZero.usu.
  - cbn [mbind option_bind]. rewrite Unsigned.of_to.
    destruct (Z.ltb_spec e 0); cbn; f_equal; lia.
  - destruct (Z.to_N _); [done | apply DecimalPos.Unsigned.to_uint_nonnil].
Qed.

Lemma valid_mantissa s m e : valid (S754_finite s m e) = true → Zpos m < 2 ^ 53.
Proof.
  unfold valid, valid_binary, bounded, canonical_mantissa, fexp, emin. intros H.
  apply andb_true_iff in H as [H%Z.eqb_eq _].
  assert (Hd : Zpos m < 2 ^ Zpos (digits2_pos m)).
  { clear. induction m as [m IH|m IH|]; cbn [digits2_pos]; [| |cbn; lia];
      rewrite Pos2Z.inj_succ, Z.pow_succ_r by lia; lia. }
  eapply Z.lt_le_trans; [exact Hd|]. apply Z.pow_le_mono_r; lia.
Qed.

Lemma parse_body_finite s m e :
  Zpos m < 2 ^ 53 →
  parse_body s (hex_digits 1 (Zpos m / 2 ^ 52) ++ ["."%char] ++ hex_digits 13 (Zpos m mod 2 ^ 52)
                ++ ["p"%char] ++ exponent (e + 52)) = Some (S754_finite s m e).
Proof.
  intros Hm. pose proof (Z.div_mod (Zpos m) (2 ^ 52) ltac:(lia)) as Hdm.
  pose proof (Z.mod_pos_bound (Zpos m) (2 ^ 52) ltac:(lia)) as Hlo.
  assert (Hhi : 0 <= Zpos m / 2 ^ 52 < 2) by (split; [apply Z.div_pos; lia | apply Z.div_lt_upper_bound; lia]).
  set (hi := Zpos m / 2 ^ 52) in *. set (lo := Zpos m mod 2 ^ 52) in *.
  change (hex_digits 1 hi) with [hex_digit (hi mod 16)]. rewrite (Z.mod_small hi) by lia.
  unfold parse_body. rewrite bool_decide_false.
  2: { intros Heq%(f_equal length). rewrite !length_app, length_hex_digits in Heq. cbn in Heq. lia. }
  cbn [app]. rewrite hex_value_digit by lia. cbn [mbind option_bind].
  rewrite take_app_length', drop_app_length' by (symmetry; apply length_hex_digits).
  rewrite parse_hex_digits by exact Hlo.
  cbn [mbind option_bind]. rewrite parse_exponent_print, Ascii.eqb_refl. cbn [mbind option_bind].
  replace (hi * 2 ^ 52 + (0 * 16 ^ Z.of_nat 13 + lo)) with (Zpos m) by lia.
  rewrite Ascii.eqb_refl. cbn [mbind option_bind]. do 2 f_equal. lia.
Qed.

Lemma parse_hex_finite f : valid f = true → is_finite f = true → parse (hex f) = Some f.
Proof.
  intros Hv Hf. destruct f as [[]| | |s m e]; try done.
  unfold parse, hex. rewrite list_ascii_of_string_of_list_ascii.
  pose proof (parse_body_finite s m e (valid_mantissa s m e Hv)) as Hb.
  destruct s; cbn [sign app list_ascii_of_string] in *.
  - exact Hb.
  - exact Hb.
Qed.

(** Reading back the text of a finite float gives the float. *)
Lemma fromhex_hex f : valid f = true → is_finite f = true → fromhex (hex f) = Some f.
Proof.
  intros Hv Hf. unfold fromhex. by rewrite parse_hex_finite, Hv, Hf, String.eqb_refl.
Qed.

Lemma fromhex_ok text f :
  fromhex text = Some f → valid f = true ∧ is_finite f = true ∧ text = hex f.
Proof.
  unfold fromhex. destruct (parse text) as [g|]; [|done].
  destruct (valid g && is_finite g && String.eqb (hex g) text) eqn:E; [|done].
  intros [= ->]. apply andb_true_iff in E as [E ->%String.eqb_eq]. apply andb_true_iff in E as [? ?]. auto.
Qed.

Lemma hex_inj f g :
  valid f = true → is_finite f = true → valid g = true → is_finite g = true →
  hex f = hex g → f = g.
Proof.
  intros. enough (Some f = Some g) by congruence.
  rewrite <- !fromhex_hex by done. congruence.
Qed.
