(* ===== verification/Manifest.v ===== *)
(** * Versioned manifest envelopes

    [python/pops/_manifest_protocol.py]: the JSON values of persisted
    manifests, the strict readers and the one envelope they travel in.
    [exact_mapping] compares key sets, so a mapping is read up to key order. *)
From S2P Require Import Prelude Binary64.

(** A JSON value; a mapping is a [dict] with string keys. *)
Inductive json :=
| JNull
| JBool (b : bool)
| JInt (z : Z)
| JFloat (f : float)
| JStr (s : string)
| JList (l : list json)
| JObj (d : list (string * json)).

Definition MANIFEST_PROTOCOL : string := "pops.manifest".
Definition ENVELOPE_KEYS : list string := ["protocol"; "kind"; "schema_version"; "payload"].

(** [set(a) == set(b)] *)
Definition same_keys (a b : list string) : bool :=
  bool_decide (Forall (fun k => k ∈ b) a) && bool_decide (Forall (fun k => k ∈ a) b).

Definition exact_mapping (value : json) (keys : list string) : res (list (string * json)) :=
  match value with
  | JObj d => _ ← require (same_keys (dkeys d) keys) TypeError; Ok d
  | _ => Err TypeError
  end.

Definition strict_int (value : json) (minimum : option Z) : res Z :=
  match value with
  | JInt z =>
      _ ← require (match minimum with Some m => m <=? z | None => true end) ValueError;
      Ok z
  | _ => Err TypeError
  end.

Definition strict_string (value : json) (nonempty : bool) : res string :=
  match value with
  | JStr s => _ ← require (negb (nonempty && String.eqb s EmptyString)) TypeError; Ok s
  | _ => Err TypeError
  end.

(** [row[key]] *)
Definition item (d : list (string * json)) (key : string) : res json :=
  match dget key d with Some v => Ok v | None => Err KeyError end.

(** [int == float], exactly. *)
Definition int_eq_float (z : Z) (f : float) : bool := is_finite f && bool_decide (float_value f = qz z).

(** [int(value)] of a number that is an [int]; [True] is the integer one. *)
Definition as_int (value : json) : option Z :=
  match value with JBool b => Some (Z.b2z b) | JInt z => Some z | _ => None end.

Definition number_eq (a b : json) : bool :=
  match as_int a, as_int b, a, b with
  | Some x, Some y, _, _ => x =? y
  | Some x, _, _, JFloat f => int_eq_float x f
  | _, Some y, JFloat f, _ => int_eq_float y f
  | _, _, JFloat f, JFloat g => feqb f g
  | _, _, _, _ => false
  end.

(** Python's [==]: mappings up to key order, numbers by value. *)
Fixpoint json_eq (a b : json) {struct a} : bool :=
  match a, b with
  | JNull, JNull => true
  | JStr x, JStr y => String.eqb x y
  | JList l, JList m =>
      (fix eqs l m := match l, m with
                      | [], [] => true
                      | x :: l, y :: m => json_eq x y && eqs l m
                      | _, _ => false
                      end) l m
  | JObj d, JObj e =>
      same_keys (dkeys d) (dkeys e)
      && (fix all d := match d with
                       | [] => true
                       | (k, v) :: d => match dget k e with Some w => json_eq v w | None => false end && all d
                       end) d
  | _, _ => number_eq a b
  end.

Definition manifest_envelope (kind : string) (schema_version : Z) (payload : json) : res json :=
  checked_kind ← strict_string (JStr kind) true;
  checked_version ← strict_int (JInt schema_version) (Some 1);
  match payload with
  | JObj d =>
      Ok (JObj [("protocol", JStr MANIFEST_PROTOCOL); ("kind", JStr checked_kind);
                ("schema_version", JInt checked_version); ("payload", JObj d)])
  | _ => Err TypeError
  end.

Definition parse_manifest_envelope (value : json) (kind : string) (schema_version : Z)
    (payload_keys : option (list string)) : res (list (string * json)) :=
  row ← exact_mapping value ENVELOPE_KEYS;
  protocol ← (v ← item row "protocol"; strict_string v true);
  _ ← require (String.eqb protocol MANIFEST_PROTOCOL) ValueError;
  actual_kind ← (v ← item row "kind"; strict_string v true);
  _ ← require (String.eqb actual_kind kind) ValueError;
  actual_version ← (v ← item row "schema_version"; strict_int v None);
  _ ← require (actual_version =? schema_version) ValueError;
  payload ← item row "payload";
  match payload_keys with
  | None => match payload with JObj d => Ok d | _ => Err TypeError end
  | Some keys => exact_mapping payload keys
  end.

(** The duplicate-key hook of [strict_json_loads]. *)
Definition object_pairs (pairs : list (string * json)) : res (list (string * json)) :=
  fold_res (fun result '(key, value) =>
    _ ← require (negb (bool_decide (key ∈ dkeys result))) ValueError;
    Ok (dset key value result)) [] pairs.

(** ** Lemmas *)

Lemma same_keys_spec a b : same_keys a b = true ↔ ∀ k, k ∈ a ↔ k ∈ b.
Proof.
  unfold same_keys. rewrite andb_true_iff, !bool_decide_eq_true, !Forall_forall.
  split; [intros [H1 H2] k; split; auto | intros H; split; intros k; apply H].
Qed.

Lemma same_keys_refl a : same_keys a a = true.
Proof. by apply same_keys_spec. Qed.

Lemma item_cons k k' v d : item ((k', v) :: d) k = if String.eqb k k' then Ok v else item d k.
Proof.
  unfold item. cbn [dget]. destruct (decide (k = k')) as [->|H]; [by rewrite String.eqb_refl|].
  by apply String.eqb_neq in H as ->.
Qed.

Lemma exact_mapping_ok value keys d :
  exact_mapping value keys = Ok d ↔ value = JObj d ∧ ∀ k, k ∈ dkeys d ↔ k ∈ keys.
Proof.
  destruct value; cbn; try (split; [discriminate | by intros [? _]]).
  rewrite <- same_keys_spec. split.
  - intros H. inv_ok. done.
  - intros [[= ->] ->]. done.
Qed.

Lemma exact_mapping_self d keys : dkeys d = keys → exact_mapping (JObj d) keys = Ok d.
Proof. intros <-. cbn. by rewrite same_keys_refl. Qed.

Lemma exact_mapping_item value keys d k :
  exact_mapping value keys = Ok d → k ∈ keys → ∃ v, dget k d = Some v.
Proof.
  intros [_ H]%exact_mapping_ok Hk. destruct (dget k d) eqn:E; [eauto|].
  apply dget_None in E. by apply H in Hk.
Qed.

Lemma strict_string_ok v b s : strict_string v b = Ok s → v = JStr s.
Proof. destruct v; cbn; intros H; inv_ok; done. Qed.

Lemma strict_int_ok v m z :
  strict_int v m = Ok z → v = JInt z ∧ match m with Some m => m <= z | None => True end.
Proof. destruct v; cbn; intros H; inv_ok. destruct m; bools; done. Qed.

Lemma item_ok d k v : item d k = Ok v ↔ dget k d = Some v.
Proof. unfold item. destruct (dget k d); split; congruence. Qed.

(** What a written envelope reads back as. *)
Lemma parse_envelope kind version payload value :
  manifest_envelope kind version (JObj payload) = Ok value →
  parse_manifest_envelope value kind version None = Ok payload.
Proof.
  unfold manifest_envelope, strict_string, strict_int. intros H.
  cbn [andb] in H. destruct (negb (String.eqb kind EmptyString)) eqn:Hk; [|discriminate H].
  cbn [require mbind res_bind] in H. destruct (1 <=? version); [|discriminate H].
  cbn [require mbind res_bind] in H. inv_ok.
  unfold parse_manifest_envelope, exact_mapping.
  change (same_keys _ _) with (same_keys ENVELOPE_KEYS ENVELOPE_KEYS). rewrite same_keys_refl.
  cbn [require mbind res_bind].
  change (item _ "protocol") with (@Ok json (JStr MANIFEST_PROTOCOL)).
  change (item _ "kind") with (@Ok json (JStr kind)).
  change (item _ "schema_version") with (@Ok json (JInt version)).
  change (item _ "payload") with (@Ok json (JObj payload)).
  cbn [mbind res_bind]. unfold strict_string, strict_int. cbn [andb].
  rewrite Hk. cbn [mbind res_bind require].
  by rewrite (String.eqb_refl kind), Z.eqb_refl.
Qed.

Lemma parse_envelope_inv value kind version payload :
  parse_manifest_envelope value kind version None = Ok payload →
  ∃ row, value = JObj row ∧ (∀ k, k ∈ dkeys row ↔ k ∈ ENVELOPE_KEYS)
    ∧ dget "protocol" row = Some (JStr MANIFEST_PROTOCOL) ∧ dget "kind" row = Some (JStr kind)
    ∧ dget "schema_version" row = Some (JInt version) ∧ dget "payload" row = Some (JObj payload).
Proof.
  unfold parse_manifest_envelope. intros H. inv_ok.
  repeat match goal with
  | H : exact_mapping _ _ = Ok _ |- _ => apply exact_mapping_ok in H as [-> ?]
  | H : item _ _ = Ok _ |- _ => apply item_ok in H
  | H : strict_string _ _ = Ok _ |- _ => apply strict_string_ok in H; subst
  | H : strict_int _ _ = Ok _ |- _ => apply strict_int_ok in H as [-> _]
  | H : String.eqb _ _ = true |- _ => apply String.eqb_eq in H; subst
  | H : match ?v with JObj d => Ok d | _ => _ end = Ok _ |- _ => destruct v; inv_ok
  end.
  bools. subst. eauto 10.
Qed.

(** The hook keeps the pairs and refuses a repeated key. *)
Lemma object_pairs_spec pairs : NoDup (dkeys pairs) → object_pairs pairs = Ok pairs.
Proof.
  unfold object_pairs.
  assert (H : ∀ acc, NoDup (dkeys (acc ++ pairs)) →
            fold_res (fun result '(key, value) =>
              _ ← require (negb (bool_decide (key ∈ dkeys result))) ValueError;
              Ok (dset key value result)) acc pairs = Ok (acc ++ pairs)).
  { induction pairs as [|[k v] pairs IH]; intros acc Hn; cbn; [by rewrite app_nil_r|].
    unfold dkeys in Hn. rewrite map_app in Hn. cbn in Hn.
    assert (Hk : k ∉ dkeys acc).
    { apply NoDup_app in Hn as (_ & Hd & _). intros Hk. apply (Hd k Hk). left. }
    rewrite bool_decide_false by done. cbn.
    assert (Hs : dset k v acc = acc ++ [(k, v)]).
    { clear -Hk. induction acc as [|[k1 v1] acc IH]; cbn in *; [done|].
      rewrite decide_False by set_solver. f_equal. apply IH. set_solver. }
    rewrite Hs, IH; [by rewrite <- app_assoc|].
    rewrite <- app_assoc. unfold dkeys. rewrite map_app. cbn. done. }
  intros Hn. by apply (H []).
Qed.

(** Values compared by [==] with themselves: no float, no repeated key. *)
Fixpoint plain (v : json) : bool :=
  match v with
  | JFloat _ => false
  | JList l => forallb plain l
  | JObj d => bool_decide (NoDup (dkeys d)) && forallb (fun '(_, v) => plain v) d
  | _ => true
  end.

Lemma json_eq_refl : ∀ v, plain v = true → json_eq v v = true.
Proof.
  fix IH 1. intros v. destruct v as [| | | | |l|d]; cbn [plain json_eq]; intros H; try done.
  - cbn. apply Z.eqb_refl.
  - cbn. apply Z.eqb_refl.
  - apply String.eqb_refl.
  - induction l as [|w l IHl]; [done|]. cbn [forallb] in H. apply andb_true_iff in H as [Hw Hl].
    rewrite (IH w Hw). by apply IHl.
  - apply andb_true_iff in H as [Hnd%bool_decide_eq_true Hd]. rewrite same_keys_refl. cbn [andb].
    assert (Hget : ∀ k v, (k, v) ∈ d → dget k d = Some v) by (intros; by apply dget_elem).
    revert Hget Hd. generalize d at 2 4 as e. intros e Hget. clear Hnd.
    induction d as [|[k v] d IHd]; [done|]. cbn [forallb]. intros [Hv Hd]%andb_true_iff.
    rewrite (Hget k v) by left. rewrite (IH v Hv). cbn [andb]. apply IHd; [|done].
    intros k' v' Hk'. apply Hget. by right.
Qed.
