(* ===== verification/HistoryPersistence.v ===== *)
(** * History persistence policies

    [python/pops/time/_history/persistence.py]: which slots of a history ring a
    checkpoint stores, which ones a restart recomputes, and the manifest of a
    policy.  Slot 0 is the newest.  Parameters are already resolved to their
    literal values. *)
From Stdlib Require Import Sorting.Sorted.
From stdpp Require Import sorting.
From S2P Require Import Prelude Binary64 PyRound Manifest.

Inductive policy :=
| Dense
| Interval (k : Z)
| Revolve (snapshots : Z).

(** [Interval.__init__], [Revolve.__init__]: a Python [int] (not a [bool]) with
    a lower bound. *)
Definition checked_int (value : json) (minimum : Z) : res Z :=
  match value with
  | JInt z => _ ← require (minimum <=? z) ValueError; Ok z
  | _ => Err ValueError
  end.

Definition mk_interval (k : json) : res policy := Interval <$> checked_int k 1.
Definition mk_revolve (snapshots : json) : res policy := Revolve <$> checked_int snapshots 2.

Definition check_depth (depth : Z) : res Z := _ ← require (1 <=? depth) ValueError; Ok depth.

(** [sorted(set(l))] *)
Definition sorted_set (l : list Z) : list Z := merge_sort Z.le (remove_dups l).

(** *** [_optimal_placement] *)

(** The widest of the adjacent gaps, the first one on a tie. *)
Definition widest (anchors : list Z) : Z * Z :=
  foldl (fun '(widest_lo, widest_gap) '(lo, hi) =>
           if widest_gap <? hi - lo then (lo, hi - lo) else (widest_lo, widest_gap))
    (default 0 (head anchors), -1) (zip anchors (tail anchors)).

Definition split_widest (anchors : list Z) : list Z :=
  let '(widest_lo, widest_gap) := widest anchors in
  let mid := widest_lo + widest_gap / 2 in
  let mid := if bool_decide (mid ∈ anchors) || (mid =? widest_lo) then widest_lo + 1 else mid in
  sorted_set (mid :: anchors).

(** The [while] loop; the fuel is a bound on its iterations. *)
Fixpoint gap_fill (fuel : nat) (anchors : list Z) (snapshots : Z) : option (list Z) :=
  if Z.of_nat (length anchors) <? snapshots then
    match fuel with O => None | S fuel => gap_fill fuel (split_widest anchors) snapshots end
  else Some anchors.

(** [{round(i * (depth - 1) / (snapshots - 1)) for i in range(snapshots)}] *)
Definition base_anchors (depth snapshots : Z) : res (list Z) :=
  map_res (fun i => round_quotient (i * (depth - 1)) (snapshots - 1)) (seqZ 0 snapshots).

Definition optimal_placement (depth snapshots : Z) : res (list Z) :=
  if depth <=? snapshots then Ok (seqZ 0 depth)
  else
    _ ← require (2 <=? snapshots) ValueError;
    anchors ← base_anchors depth snapshots;
    match gap_fill (Z.to_nat depth) (sorted_set anchors) snapshots with
    | Some l => Ok l
    | None => Err RuntimeError
    end.

(** *** The slots *)

Definition stored_slots (p : policy) (depth : Z) : res (list Z) :=
  depth ← check_depth depth;
  match p with
  | Dense => Ok (seqZ 0 depth)
  | Interval k => Ok (sorted_set (0 :: List.filter (fun s => s mod k =? 0) (seqZ 0 depth)))
  | Revolve snapshots => optimal_placement depth snapshots
  end.

Definition recomputed_slots (p : policy) (depth : Z) : res (list Z) :=
  depth ← check_depth depth;
  stored ← stored_slots p depth;
  Ok (List.filter (fun s => bool_decide (s ∉ stored)) (seqZ 0 depth)).

Definition validate_for (p : policy) (depth : Z) : res Z :=
  depth ← check_depth depth;
  match p with
  | Dense => Ok depth
  | Interval k =>
      if depth =? 1 then Ok depth
      else
        _ ← require (negb (depth <=? k)) ValueError;
        _ ← require ((depth - 1) mod k =? 0) ValueError;
        Ok depth
  | Revolve snapshots =>
      if depth =? 1 then Ok depth
      else _ ← require (negb (depth <? snapshots)) ValueError; Ok depth
  end.

Definition degenerate_to_dense (p : policy) (depth : Z) : res bool :=
  depth ← check_depth depth;
  stored ← stored_slots p depth;
  Ok (Z.of_nat (length stored) =? depth).

(** *** Manifests *)

Definition MANIFEST_KIND : string := "history-persistence".
Definition SCHEMA_VERSION : Z := 1.

Definition to_manifest (p : policy) : res json :=
  manifest_envelope MANIFEST_KIND SCHEMA_VERSION
    (JObj match p with
          | Dense => [("policy", JStr "dense")]
          | Interval k => [("policy", JStr "interval"); ("k", JInt k)]
          | Revolve s => [("policy", JStr "revolve"); ("snapshots", JInt s)]
          end).

Definition from_manifest (manifest : json) : res policy :=
  match manifest with
  | JObj _ =>
      envelope ← parse_manifest_envelope manifest MANIFEST_KIND SCHEMA_VERSION None;
      match dget "policy" envelope with
      | None => Err TypeError
      | Some v =>
          kind ← strict_string v true;
          if String.eqb kind "dense" then
            _ ← exact_mapping (JObj envelope) ["policy"]; Ok Dense
          else if String.eqb kind "interval" then
            row ← exact_mapping (JObj envelope) ["policy"; "k"];
            k ← (v ← item row "k"; strict_int v (Some 1));
            mk_interval (JInt k)
          else if String.eqb kind "revolve" then
            row ← exact_mapping (JObj envelope) ["policy"; "snapshots"];
            s ← (v ← item row "snapshots"; strict_int v (Some 2));
            mk_revolve (JInt s)
          else Err ValueError
      end
  | _ => Err TypeError
  end.

(** The argument of [keep_history(checkpoint_policy=...)]. *)
Inductive policy_arg := ArgNone | ArgPolicy (p : policy) | ArgOther.

Definition resolve_history_persistence (arg : policy_arg) : res policy :=
  match arg with
  | ArgNone => Ok Dense
  | ArgPolicy p => Ok p
  | ArgOther => Err TypeError
  end.

(** ** Sorted slot lists *)

Definition increasing (l : list Z) : Prop := StronglySorted Z.lt l.

Lemma increasing_NoDup l : increasing l → NoDup l.
Proof.
  induction 1 as [|x l _ IH Hx]; constructor; [|done].
  intros Hin. rewrite Forall_forall in Hx. specialize (Hx x Hin). lia.
Qed.

Lemma sorted_set_elem x l : x ∈ sorted_set l ↔ x ∈ l.
Proof.
  unfold sorted_set. rewrite (merge_sort_Permutation Z.le). apply elem_of_remove_dups.
Qed.

Lemma sorted_set_increasing l : increasing (sorted_set l).
Proof.
  assert (Hs : StronglySorted Z.le (sorted_set l)) by (apply StronglySorted_merge_sort; apply _).
  assert (Hn : NoDup (sorted_set l)).
  { unfold sorted_set. rewrite (merge_sort_Permutation Z.le). apply NoDup_remove_dups. }
  induction Hs as [|x l' Hs IH Hx]; constructor; inversion Hn; subst; [by apply IH|].
  rewrite Forall_forall in *. intros y Hy. specialize (Hx y Hy).
  destruct (decide (x = y)) as [->|]; [done | lia].
Qed.

Lemma increasing_unique l1 l2 :
  increasing l1 → increasing l2 → (∀ x, x ∈ l1 ↔ x ∈ l2) → l1 = l2.
Proof.
  intros H1. revert l2. induction H1 as [|x l1 H1 IH Hx]; intros l2 H2 Heq.
  - destruct l2 as [|y l2]; [done|]. destruct (not_elem_of_nil y). apply Heq. left.
  - destruct H2 as [|y l2 H2 Hy]; [destruct (not_elem_of_nil x); apply Heq; left|].
    rewrite Forall_forall in Hx, Hy.
    assert (x = y) as ->.
    { destruct (proj1 (elem_of_cons _ _ _) (proj1 (Heq x) ltac:(left))) as [?|Hxy]; [done|].
      destruct (proj1 (elem_of_cons _ _ _) (proj2 (Heq y) ltac:(left))) as [?|Hyx]; [done|].
      specialize (Hx y Hyx). specialize (Hy x Hxy). lia. }
    f_equal. apply IH; [done|]. intros z. split; intros Hz.
    + specialize (Hx z Hz). destruct (proj1 (elem_of_cons _ _ _) (proj1 (Heq z) ltac:(by right))); [lia | done].
    + specialize (Hy z Hz). destruct (proj1 (elem_of_cons _ _ _) (proj2 (Heq z) ltac:(by right))); [lia | done].
Qed.

Lemma sorted_set_id l : increasing l → sorted_set l = l.
Proof.
  intros H. apply increasing_unique; [apply sorted_set_increasing | done | intros x; apply sorted_set_elem].
Qed.

Lemma seqZ_increasing m n : increasing (seqZ m n).
Proof.
  destruct (Z.le_gt_cases 0 n) as [Hn|]; [|rewrite seqZ_nil by lia; constructor].
  revert m. pattern n. apply natlike_ind; [constructor | | done].
  intros x Hx IH m. rewrite seqZ_cons by lia. constructor.
  - replace (Z.pred (Z.succ x)) with x by lia. apply IH.
  - apply Forall_forall. intros y Hy%elem_of_seqZ. lia.
Qed.

(** A function whose consecutive values increase maps [range] to an increasing
    list. *)
Lemma map_seqZ_increasing (f : Z → Z) m n :
  (∀ i, m <= i → i + 1 < m + n → f i < f (i + 1)) → increasing (map f (seqZ m n)).
Proof.
  intros Hf.
  destruct (Z.le_gt_cases 0 n) as [Hn|]; [|rewrite seqZ_nil by lia; constructor].
  assert (Hlt : ∀ d i, 0 <= d → m <= i → i + d + 1 < m + n → f i < f (i + d + 1)).
  { intros d i Hd. pattern d. apply natlike_ind; [| |done].
    - intros. rewrite Z.add_0_r. apply Hf; lia.
    - intros x Hx IH Hi Hb. specialize (IH Hi ltac:(lia)).
      specialize (Hf (i + x + 1) ltac:(lia) ltac:(lia)).
      replace (i + Z.succ x + 1) with (i + x + 1 + 1) by lia. lia. }
  assert (Hgen : ∀ l, increasing l → (∀ i, i ∈ l → m <= i < m + n) → increasing (map f l)).
  { induction 1 as [|x l Hl IH Hx]; intros Hb; cbn; constructor; [apply IH; set_solver|].
    rewrite Forall_forall in *. intros y Hy. apply list_elem_of_In, in_map_iff in Hy as (z & <- & Hz).
    apply list_elem_of_In in Hz. specialize (Hx z Hz).
    pose proof (Hb x ltac:(left)). pose proof (Hb z ltac:(by right)).
    replace z with (x + (z - x - 1) + 1) by lia. apply Hlt; lia. }
  apply Hgen; [apply seqZ_increasing | intros i ?%elem_of_seqZ; lia].
Qed.

(** ** The equispaced placement *)

(** [ceil(a / b)] *)
Definition ceil_div (a b : Z) : Z := (a + b - 1) / b.

Definition anchor (depth snapshots i : Z) : Z := half_even (i * (depth - 1)) (snapshots - 1).

Section Placement.
Context (depth snapshots : Z) (Hs : 2 <= snapshots < depth).
Notation L := (depth - 1).
Notation m := (snapshots - 1).
Notation a := (anchor depth snapshots).

Lemma anchor_gap i : 1 <= a (i + 1) - a i <= ceil_div L m.
Proof.
  unfold anchor, ceil_div.
  pose proof (half_even_bounds (i * L) m ltac:(lia)).
  pose proof (half_even_bounds ((i + 1) * L) m ltac:(lia)).
  pose proof (Z.div_mod L m ltac:(lia)) as Hdm. pose proof (Z.mod_pos_bound L m ltac:(lia)).
  destruct (Z.eq_dec (L mod m) 0) as [Hz|Hz].
  - rewrite (half_even_exact (i * L) m (i * (L / m))) by (lia || nia).
    rewrite (half_even_exact ((i + 1) * L) m ((i + 1) * (L / m))) by (lia || nia).
    assert ((L + m - 1) / m = L / m) as -> by (symmetry; apply (Z.div_unique _ _ _ (m - 1)); lia).
    nia.
  - assert ((L + m - 1) / m = L / m + 1) as ->
      by (symmetry; apply (Z.div_unique _ _ _ (L mod m - 1)); lia).
    set (x := half_even (i * L) m) in *. set (y := half_even ((i + 1) * L) m) in *.
    assert (L - m <= (y - x) * m <= L + m) by lia.
    split; nia.
Qed.

Lemma anchor_first : a 0 = 0.
Proof. apply half_even_exact; lia. Qed.

Lemma anchor_last : a m = L.
Proof. apply half_even_exact; lia. Qed.

Lemma anchor_between x : 0 <= x <= L → ∃ i, 0 <= i <= m ∧ x <= a i < x + ceil_div L m.
Proof.
  intros Hx.
  assert (H : ∀ n, 0 <= n → n <= m → x <= a n → ∃ i, 0 <= i <= m ∧ x <= a i < x + ceil_div L m).
  { intros n Hn. pattern n. apply natlike_ind; [| |done].
    - intros _ H0. rewrite anchor_first in H0. exists 0. rewrite anchor_first. split; [lia|].
      pose proof (anchor_gap 0). lia.
    - intros k Hk IH Hle Hak. destruct (Z.le_gt_cases x (a k)) as [|Hlt]; [apply IH; lia|].
      exists (Z.succ k). split; [lia|]. pose proof (anchor_gap k).
      replace (Z.succ k) with (k + 1) in * by lia. lia. }
  apply (H m); [lia | lia|]. rewrite anchor_last. lia.
Qed.

Lemma anchors_increasing : increasing (map a (seqZ 0 snapshots)).
Proof. apply map_seqZ_increasing. intros i _ _. pose proof (anchor_gap i). lia. Qed.

Lemma anchors_bound x : x ∈ map a (seqZ 0 snapshots) → 0 <= x <= L.
Proof.
  intros Hx. apply list_elem_of_In, in_map_iff in Hx as (i & <- & Hi).
  apply list_elem_of_In, elem_of_seqZ in Hi. rewrite <- anchor_first at 1. rewrite <- anchor_last.
  split; apply half_even_mono; nia.
Qed.

(** The float rounding is exact, no two anchors collide and the gap filling
    does nothing. *)
Lemma optimal_placement_spec :
  m * L < 2 ^ 52 → optimal_placement depth snapshots = Ok (map a (seqZ 0 snapshots)).
Proof.
  intros Hsmall. unfold optimal_placement, base_anchors.
  destruct (Z.leb_spec depth snapshots) as [|_]; [lia|].
  destruct (Z.leb_spec 2 snapshots) as [_|]; [|lia]. cbn [require mbind res_bind].
  rewrite (proj2 (map_res_Forall2 _ _ (map a (seqZ 0 snapshots)))).
  2: { apply Forall2_fmap_r, Forall_Forall2_diag, Forall_forall. intros i Hi%elem_of_seqZ.
       apply round_quotient_exact; [split; nia | nia]. }
  cbn [mbind res_bind].
  rewrite (sorted_set_id _ anchors_increasing).
  destruct (Z.to_nat depth); cbn [gap_fill]; rewrite length_map, length_seqZ;
    by rewrite (proj2 (Z.ltb_ge _ _)) by lia.
Qed.
End Placement.

(** ** Restart reconstruction *)

(** The invariant of a constructed policy. *)
Definition constructed (p : policy) : Prop :=
  match p with Dense => True | Interval k => 1 <= k | Revolve s => 2 <= s end.

(** The largest number of steps a replay takes to reach a slot, plus one. *)
Definition latency (p : policy) (depth : Z) : Z :=
  match p with
  | Dense => 1
  | Interval k => if depth =? 1 then 1 else k
  | Revolve s => if depth <=? s then 1 else ceil_div (depth - 1) (s - 1)
  end.

(** Every slot has a stored anchor at most [w - 1] slots older. *)
Definition covered (depth w : Z) (stored : list Z) : Prop :=
  ∀ x, 0 <= x < depth → ∃ y, y ∈ stored ∧ x <= y < x + w.

(** The ring is reconstructible from the stored slots within [w]. *)
Definition reconstructible (depth w : Z) (stored : list Z) : Prop :=
  increasing stored ∧ (∀ x, x ∈ stored → 0 <= x < depth)
  ∧ 0 ∈ stored ∧ depth - 1 ∈ stored ∧ covered depth w stored.

Lemma range_reconstructible depth : 1 <= depth → reconstructible depth 1 (seqZ 0 depth).
Proof.
  intros Hd. split_and!; [apply seqZ_increasing | intros x ?%elem_of_seqZ; lia | | |].
  1,2: apply elem_of_seqZ; lia.
  intros x Hx. exists x. rewrite elem_of_seqZ. lia.
Qed.

Lemma interval_slots_elem k depth x :
  0 < depth → x ∈ sorted_set (0 :: List.filter (fun s => s mod k =? 0) (seqZ 0 depth)) ↔
  x = 0 ∨ (0 <= x < depth ∧ x mod k = 0).
Proof.
  intros Hd. rewrite sorted_set_elem, elem_of_cons, list_elem_of_In, filter_In.
  rewrite <- list_elem_of_In, elem_of_seqZ, Z.eqb_eq. lia.
Qed.

Lemma interval_reconstructible k depth :
  1 <= k < depth → (depth - 1) mod k = 0 →
  reconstructible depth k (sorted_set (0 :: List.filter (fun s => s mod k =? 0) (seqZ 0 depth))).
Proof.
  intros Hk Hm. pose proof (Z.div_mod (depth - 1) k ltac:(lia)).
  split_and!; [apply sorted_set_increasing | | | |].
  - intros x [->|?]%interval_slots_elem; lia.
  - apply interval_slots_elem; lia.
  - apply interval_slots_elem; lia.
  - intros x Hx. pose proof (Z.div_mod (x + k - 1) k ltac:(lia)).
    pose proof (Z.mod_pos_bound (x + k - 1) k ltac:(lia)).
    exists ((x + k - 1) / k * k). rewrite interval_slots_elem by lia.
    assert ((x + k - 1) / k <= (depth - 1) / k).
    { apply Z.div_le_lower_bound; [lia|].
      destruct (Z.le_gt_cases ((x + k - 1) / k) ((depth - 1) / k)); nia. }
    pose proof (Z.div_pos (x + k - 1) k ltac:(lia) ltac:(lia)).
    split; [right; split; [nia | by apply Z_mod_mult] | lia].
Qed.

Lemma revolve_reconstructible s depth :
  2 <= s < depth → reconstructible depth (ceil_div (depth - 1) (s - 1)) (map (anchor depth s) (seqZ 0 s)).
Proof.
  intros Hs.
  assert (Hin : ∀ i, 0 <= i < s → anchor depth s i ∈ map (anchor depth s) (seqZ 0 s)).
  { intros i Hi. apply list_elem_of_In, in_map. by apply list_elem_of_In, elem_of_seqZ. }
  split_and!; [by apply anchors_increasing | | | |].
  - intros x Hx. apply anchors_bound in Hx; lia.
  - pose proof (Hin 0 ltac:(lia)) as H. by rewrite anchor_first in H by lia.
  - pose proof (Hin (s - 1) ltac:(lia)) as H. by rewrite anchor_last in H by lia.
  - intros x Hx. destruct (anchor_between depth s ltac:(lia) x ltac:(lia)) as (i & Hi & Hb).
    exists (anchor depth s i). split; [apply Hin; lia | done].
Qed.

Lemma validated_slots p depth depth' :
  constructed p → validate_for p depth = Ok depth' → depth * depth < 2 ^ 52 →
  1 <= depth ∧ depth' = depth ∧ ∃ stored, stored_slots p depth = Ok stored
    ∧ reconstructible depth (latency p depth) stored.
Proof.
  intros Hc Hv Hsmall. unfold validate_for, stored_slots, check_depth in *.
  destruct (Z.leb_spec 1 depth) as [Hd|]; [|discriminate Hv].
  cbn [require mbind res_bind] in *. split; [done|].
  destruct p as [|k|s]; cbn [constructed latency] in *.
  - inv_ok. eauto using range_reconstructible.
  - destruct (Z.eqb_spec depth 1) as [->|].
    + inv_ok. split; [done|]. eexists. split; [done|]. destruct (Z.eqb_spec 1 1); [|done].
      replace (sorted_set _) with (seqZ 0 1); [apply (range_reconstructible 1); lia|].
      apply increasing_unique; [apply seqZ_increasing | apply sorted_set_increasing|].
      intros x. rewrite interval_slots_elem, elem_of_seqZ by lia.
      split; [left; lia | intros [->|?]; lia].
    + inv_ok. bools. split; [done|]. eauto using interval_reconstructible with lia.
  - assert (depth' = depth) as -> by (destruct (depth =? 1); inv_ok; done). split; [done|].
    destruct (Z.leb_spec depth s) as [Hle|Hlt].
    + unfold optimal_placement. rewrite (proj2 (Z.leb_le _ _) Hle). eauto using range_reconstructible.
    + rewrite optimal_placement_spec by nia. eauto using revolve_reconstructible with lia.
Qed.

(** A policy accepted by [validate_for] always gives a reconstructible
    ring: [stored_slots] returns a strictly increasing list of slots of the
    ring with the newest and the oldest, each slot has a stored anchor fewer
    than [latency] slots older, and the recomputed slots are exactly the
    others. *)
Theorem restart_is_reconstructible p depth depth' :
  constructed p → validate_for p depth = Ok depth' → depth * depth < 2 ^ 52 →
  depth' = depth ∧ ∃ stored recomputed,
    stored_slots p depth = Ok stored ∧ recomputed_slots p depth = Ok recomputed
    ∧ reconstructible depth (latency p depth) stored
    ∧ (∀ x, x ∈ recomputed ↔ 0 <= x < depth ∧ x ∉ stored).
Proof.
  intros Hc Hv Hsmall.
  destruct (validated_slots p depth depth' Hc Hv Hsmall) as (Hd & -> & stored & Hst & Hr).
  split; [done|]. exists stored. eexists. split_and!; [done | | done |].
  - unfold recomputed_slots, check_depth. rewrite (proj2 (Z.leb_le _ _) Hd).
    cbn [require mbind res_bind]. rewrite Hst. done.
  - intros x. rewrite list_elem_of_In, filter_In, <- list_elem_of_In, elem_of_seqZ, bool_decide_eq_true.
    split; intros [? ?]; split; lia || done.
Qed.

Lemma restart_is_reconstructible_witness :
  constructed (Revolve 4) ∧ validate_for (Revolve 4) 11 = Ok 11 ∧ stored_slots (Revolve 4) 11 = Ok [0; 3; 7; 10]
  ∧ ∃ stored recomputed, stored_slots (Revolve 4) 11 = Ok stored
    ∧ recomputed_slots (Revolve 4) 11 = Ok recomputed ∧ reconstructible 11 4 stored.
Proof.
  split_and!; [cbn; lia | done | vm_compute; reflexivity |].
  destruct (restart_is_reconstructible (Revolve 4) 11 11) as (_ & s & r & H1 & H2 & H3 & _);
    [cbn; lia | done | done |].
  exists s, r. split_and!; done.
Defined.

(** ** Optimality of the placement *)

Lemma covered_length depth w stored :
  1 <= depth → 0 <= w → NoDup stored → (∀ x, x ∈ stored → 0 <= x) → 0 ∈ stored →
  covered depth w stored → depth - 1 <= (Z.of_nat (length stored) - 1) * w.
Proof.
  intros Hd Hw Hn Hpos H0 Hcov.
  destruct (proj1 (elem_of_Permutation stored 0) H0) as [rest Hp].
  assert (Hlen : length stored = S (length rest)) by (by rewrite Hp).
  rewrite Hp, NoDup_cons in Hn. destruct Hn as [Hn0 _].
  assert (Hsub : seqZ 1 (depth - 1) ⊆ flat_map (fun y => seqZ (y - w + 1) w) rest).
  { intros x Hx%elem_of_seqZ. destruct (Hcov x ltac:(lia)) as (y & Hy & Hb).
    apply list_elem_of_In, in_flat_map. exists y. split.
    - rewrite Hp, elem_of_cons in Hy. apply list_elem_of_In. destruct Hy as [->|]; [lia | done].
    - apply list_elem_of_In, elem_of_seqZ. lia. }
  assert (Hle : (length (seqZ 1 (depth - 1)) <= length (flat_map (fun y => seqZ (y - w + 1) w) rest))%nat)
    by (apply submseteq_length, NoDup_submseteq; [apply NoDup_seqZ | done]).
  assert (Hfl : length (flat_map (fun y => seqZ (y - w + 1) w) rest) = (length rest * Z.to_nat w)%nat).
  { clear. induction rest as [|y rest IH]; cbn [flat_map]; [done|].
    rewrite length_app, IH, length_seqZ. cbn. done. }
  rewrite Hfl, length_seqZ in Hle. nia.
Qed.

(** C37: [Revolve] stores exactly its budget of slots and no placement of that
    many slots (or fewer) that keeps the newest one reaches every slot with a
    smaller worst-case replay. *)
Theorem revolve_is_optimal depth snapshots :
  2 <= snapshots < depth → depth * depth < 2 ^ 52 →
  ∃ stored, stored_slots (Revolve snapshots) depth = Ok stored
    ∧ Z.of_nat (length stored) = snapshots
    ∧ covered depth (ceil_div (depth - 1) (snapshots - 1)) stored
    ∧ ∀ other w, NoDup other → (∀ x, x ∈ other → 0 <= x < depth) → 0 ∈ other →
        Z.of_nat (length other) <= snapshots → 0 <= w → covered depth w other →
        ceil_div (depth - 1) (snapshots - 1) <= w.
Proof.
  intros Hs Hsmall. exists (map (anchor depth snapshots) (seqZ 0 snapshots)). split_and!.
  - unfold stored_slots, check_depth. rewrite (proj2 (Z.leb_le 1 depth)) by lia.
    cbn [require mbind res_bind]. apply optimal_placement_spec; nia.
  - rewrite length_map, length_seqZ. lia.
  - apply (revolve_reconstructible snapshots depth Hs).
  - intros other w Hn Hb H0 Hlen Hw Hcov.
    assert (depth - 1 <= (Z.of_nat (length other) - 1) * w)
      by (apply (covered_length depth w other); auto; [lia | intros x Hx; apply Hb in Hx; lia]).
    unfold ceil_div. enough ((depth - 1 + (snapshots - 1) - 1) / (snapshots - 1) < w + 1) by lia.
    apply Z.div_lt_upper_bound; nia.
Qed.

Lemma revolve_is_optimal_witness :
  2 <= 4 < 11 ∧ ∃ stored, stored_slots (Revolve 4) 11 = Ok stored ∧ Z.of_nat (length stored) = 4.
Proof.
  split; [lia|]. destruct (revolve_is_optimal 11 4) as (s & H1 & H2 & _); [lia | done |]. eauto.
Defined.

(** On a ring of at least two slots [Interval(k)] is accepted exactly when
    its slots include the oldest one, and then keeps one slot in [k]. *)
Theorem interval_accepted_iff_oldest_stored k depth stored :
  1 <= k → 2 <= depth → stored_slots (Interval k) depth = Ok stored →
  (validate_for (Interval k) depth = Ok depth ↔ depth - 1 ∈ stored)
  ∧ (∀ x, x ∈ stored ↔ 0 <= x < depth ∧ (k | x)).
Proof.
  intros Hk Hd Hst. unfold stored_slots, validate_for, check_depth in *.
  rewrite (proj2 (Z.leb_le 1 depth)) in * by lia. cbn [require mbind res_bind] in *. inv_ok.
  assert (Hmod : ∀ x, (k | x) ↔ x mod k = 0) by (intros; symmetry; apply Z.mod_divide; lia).
  split.
  - rewrite interval_slots_elem by lia. destruct (Z.eqb_spec depth 1); [lia|].
    destruct (Z.leb_spec depth k) as [Hle|Hlt]; cbn [negb require mbind res_bind].
    + split; [discriminate|]. intros [?|[_ H]]; [lia|]. rewrite Z.mod_small in H by lia. lia.
    + destruct (Z.eqb_spec ((depth - 1) mod k) 0) as [H|H]; cbn [require mbind res_bind].
      * split; [intros; right; split; [lia | done] | done].
      * split; [discriminate | intros [?|[_ ?]]; [lia | done]].
  - intros x. rewrite interval_slots_elem, Hmod by lia.
    split; [intros [->|?]; [split; [lia | by apply Z.mod_0_l; lia] | done] | auto].
Qed.

Lemma interval_accepted_iff_oldest_stored_witness :
  ∃ stored, stored_slots (Interval 3) 10 = Ok stored
    ∧ (validate_for (Interval 3) 10 = Ok 10 ↔ 10 - 1 ∈ stored).
Proof.
  eexists. split; [vm_compute; reflexivity|].
  apply (interval_accepted_iff_oldest_stored 3 10); [lia | lia | vm_compute; reflexivity].
Defined.

(** ** Manifests *)

(** The payload [to_manifest] writes. *)
Definition payload_of (p : policy) : list (string * json) :=
  match p with
  | Dense => [("policy", JStr "dense")]
  | Interval k => [("policy", JStr "interval"); ("k", JInt k)]
  | Revolve s => [("policy", JStr "revolve"); ("snapshots", JInt s)]
  end%string.

Lemma to_manifest_ok p : ∃ row, to_manifest p = Ok (JObj row)
  ∧ row = [("protocol", JStr MANIFEST_PROTOCOL); ("kind", JStr MANIFEST_KIND);
           ("schema_version", JInt SCHEMA_VERSION); ("payload", JObj (payload_of p))]%string.
Proof. by destruct p; eexists; split. Qed.

(** Two mappings over the same two keys are equal when the values are. *)
Lemma dget_two_keys (k1 k2 : string) d v1 v2 :
  (∀ k, k ∈ dkeys d ↔ k ∈ [k1; k2]) → dget k1 d = Some v1 → dget k2 d = Some v2 →
  ∀ k, dget k d = dget k [(k1, v1); (k2, v2)] (V := json).
Proof.
  intros Hk H1 H2 k. cbn. destruct (decide (k = k1)) as [->|]; [done|].
  destruct (decide (k = k2)) as [->|]; [done|].
  apply dget_None. rewrite Hk. set_solver.
Qed.

Ltac open_row := repeat match goal with
  | H : exact_mapping _ _ = Ok _ |- _ => apply exact_mapping_ok in H as [[= ->] ?]
  | H : item _ _ = Ok _ |- _ => apply item_ok in H
  | H : strict_int _ _ = Ok _ |- _ => apply strict_int_ok in H as [-> ?]
  end.

Lemma from_manifest_payload m p :
  from_manifest m = Ok p →
  constructed p ∧ ∃ payload, parse_manifest_envelope m MANIFEST_KIND SCHEMA_VERSION None = Ok payload
    ∧ ∀ k, dget k payload = dget k (payload_of p).
Proof.
  intros H. destruct m; try discriminate H. unfold from_manifest in H.
  destruct (parse_manifest_envelope _ _ _ _) as [payload|] eqn:Ep; [|discriminate H].
  cbn [mbind res_bind] in H. destruct (dget "policy" payload) as [v|] eqn:Ev; [|discriminate H].
  destruct (strict_string v true) as [kind|] eqn:Ek; [|discriminate H].
  apply strict_string_ok in Ek as ->. cbn [mbind res_bind] in H.
  repeat match type of H with
  | (if String.eqb kind ?s then _ else _) = _ => destruct (String.eqb_spec kind s) as [->|_]
  end; [| | |discriminate H]; inv_ok.
  - apply exact_mapping_ok in E as [[= ->] Hk]. split; [done|]. eexists. split; [done|].
    intros k. cbn. case_decide as Hd; [by subst|]. apply dget_None. rewrite Hk. set_solver.
  - open_row. unfold mk_interval in H. cbn in H. inv_ok. cbn in E. inv_ok.
    split; [cbn; by bools|]. eexists. split; [done|]. by apply dget_two_keys.
  - open_row. unfold mk_revolve in H. cbn in H. inv_ok. cbn in E. inv_ok.
    split; [cbn; by bools|]. eexists. split; [done|]. by apply dget_two_keys.
Qed.

(** A manifest read back gives the policy that wrote it; and whatever
    [from_manifest] accepts is a constructed policy, and has, up to key order,
    the entries of that policy's own manifest. *)
Theorem manifest_roundtrip :
  (∀ p, constructed p → (manifest ← to_manifest p; from_manifest manifest) = Ok p)
  ∧ (∀ m p, from_manifest m = Ok p → constructed p ∧
      ∃ row payload row', m = JObj row ∧ to_manifest p = Ok (JObj row')
        ∧ dget "payload" row = Some (JObj payload)
        ∧ (∀ k, k ≠ "payload"%string → dget k row = dget k row')
        ∧ (∀ k, dget k payload = dget k (payload_of p))).
Proof.
  split.
  - intros p Hp. destruct (to_manifest_ok p) as (row & Ht & ->). rewrite Ht. cbn [mbind res_bind].
    unfold from_manifest. rewrite (parse_envelope _ _ (payload_of p) _ Ht). cbn [mbind res_bind].
    destruct p as [|k|s]; [done | |]; apply Z.leb_le in Hp; lazy -[Z.leb];
      repeat (rewrite Hp; lazy -[Z.leb]); done.
  - intros m p (Hc & payload & Hp & Hget)%from_manifest_payload. split; [done|].
    apply parse_envelope_inv in Hp as (row & -> & Hkeys & H1 & H2 & H3 & H4).
    destruct (to_manifest_ok p) as (row' & Ht & ->).
    exists row, payload. eexists. split_and!; [done | done | done | | done].
    intros k Hk. cbn. repeat case_decide; subst; try done.
    apply dget_None. rewrite Hkeys. set_solver.
Qed.

Lemma manifest_roundtrip_witness :
  (manifest ← to_manifest (Revolve 4); from_manifest manifest) = Ok (Revolve 4).
Proof. apply (proj1 manifest_roundtrip). cbn. lia. Defined.
