(* ===== verification/HistoryValidation.v ===== *)
(** * Compile-time validation of history persistence

    [python/pops/time/_history/validation.py]: a policy that recomputes slots is
    accepted only when the committed transition of the ring's owner is a strictly
    affine function of the owner state and [dt], so that replaying the program
    from one stored anchor reproduces the lost slots. *)
From stdpp Require Import sorting.
From S2P Require Import Prelude Binary64 Scalar Coeff PyRound Manifest HistoryPersistence.

(** ** Values, states and programs, as the gate reads them *)

(** [hv_state] is [state_ref], or [attrs[state]] when there is none;
    [hv_brick]: an attribute is a descriptor declaring non-determinism. *)
Record hvalue := HValue {
  hv_op : string;
  hv_inputs : list nat;
  hv_coeffs : list coeff;
  hv_block : option string;
  hv_state : option string;
  hv_history : string;
  hv_scheduled : bool;
  hv_brick : bool;
  hv_blocks : list (string * list nat) }.

Record hstate := HState { hs_state : string; hs_block : string; hs_clock : string }.

(** A compiled persistence record: the physical slot count and the policy,
    [None] when it is not a [HistoryPersistence]. *)
Inductive configured := InvalidRecord | Configured (ring_slots : Z) (p : option policy).

Record hprogram := HProgram {
  hp_heap : gmap nat hvalue;
  hp_values : list nat;
  hp_commits : list (string * nat);
  hp_histories : list (string * Z);
  hp_persistence : list (string * configured);
  hp_stores : list (hstate * nat);
  hp_clock : string }.

Definition KNOWN_DETERMINISTIC_OPS : list string :=
  ["state"; "history"; "store_history"; "linear_combine"; "project"; "solve_fields";
   "solve_fields_from_blocks"; "solve_coupled_implicit"; "rhs"; "apply"; "source";
   "linear_source"; "coupled_rate"; "coupled_rate_out"; "divergence"; "gradient"; "laplacian";
   "apply_laplacian_coeff"; "apply_in"; "apply_out"; "cell_compare"; "scalar_field";
   "rhs_jacvec"; "solve_linear"; "solve_local_linear"; "matrix_free_operator"; "solve_outcome";
   "solve_outcome_component"; "schur_coeffs"; "schur_energy"; "schur_reconstruct";
   "schur_explicit_flux"; "schur_rhs"; "cfl"; "hmin"; "max_wave_speed"; "record_scalar";
   "record_balance_term"; "reduce"; "scalar_op"; "compare"; "while"; "range"; "subcycle";
   "branch"; "synchronize"; "solve_local_nonlinear"; "solve_implicit_source"].

Definition OWNER_AFFINE_OPS : list string := ["state"; "linear_combine"].
Definition AFFINE_REPLAY_PROGRAM_OPS : list string :=
  ["state"; "history"; "store_history"; "linear_combine"].

Definition mem (op : string) (l : list string) : bool := bool_decide (op ∈ l).

Definition WALK_KEYS : list string :=
  ["cond_block"; "body_block"; "true_block"; "false_block"; "apply_block"; "residual_block"].

(** [_walk_ops]; the fuel bounds the nesting of sub-blocks. *)
Fixpoint walk_ops (fuel : nat) (heap : gmap nat hvalue) (values : list nat) : list hvalue :=
  match fuel with
  | O => []
  | S fuel =>
      flat_map (fun i =>
        match heap !! i with
        | None => []
        | Some v =>
            v :: flat_map (fun key => walk_ops fuel heap (default [] (dget key (hv_blocks v)))) WALK_KEYS
        end) values
  end.

Definition program_ops (p : hprogram) : list hvalue :=
  walk_ops (S (size (hp_heap p))) (hp_heap p) (hp_values p).

Definition op_is_nondeterministic (v : hvalue) : bool :=
  negb (mem (hv_op v) KNOWN_DETERMINISTIC_OPS) || hv_brick v.

(** [_effective_inputs]: an exact zero coefficient is the empty polynomial. *)
Definition effective_inputs (v : hvalue) : list nat :=
  if negb (String.eqb (hv_op v) "linear_combine") then hv_inputs v
  else if negb (length (hv_coeffs v) =? length (hv_inputs v))%nat then hv_inputs v
  else map fst (List.filter (fun t => match t.2 with [] => false | _ => true end)
                  (zip (hv_inputs v) (hv_coeffs v))).

Inductive refusal :=
| NotCommitted | LaggedHistory (history : string) | UnprovedOp (op : string)
| AnotherBlock | AnotherState.

Section Visit.
Context (heap : gmap nat hvalue) (owner : hstate).

(** The tests of [visit] on one value. *)
Definition local_refusal (v : hvalue) : option refusal :=
  if String.eqb (hv_op v) "history" then Some (LaggedHistory (hv_history v))
  else if negb (mem (hv_op v) OWNER_AFFINE_OPS) then Some (UnprovedOp (hv_op v))
  else if (match hv_block v with Some b => negb (String.eqb b (hs_block owner)) | None => false end)
  then Some AnotherBlock
  else if String.eqb (hv_op v) "state" && negb (bool_decide (hv_state v = Some (hs_state owner)))
  then Some AnotherState
  else None.

(** [visit], with its [seen] set; [None] when the fuel runs out. *)
Fixpoint visit (fuel : nat) (seen : gset nat) (i : nat) : option (gset nat * option refusal) :=
  if decide (i ∈ seen) then Some (seen, None)
  else
    match fuel with
    | O => None
    | S fuel =>
        match heap !! i with
        | None => Some ({[i]} ∪ seen, Some (UnprovedOp EmptyString))
        | Some v =>
            match local_refusal v with
            | Some reason => Some ({[i]} ∪ seen, Some reason)
            | None =>
                (fix inputs seen l :=
                   match l with
                   | [] => Some (seen, None)
                   | j :: l =>
                       match visit fuel seen j with
                       | Some (seen, None) => inputs seen l
                       | r => r
                       end
                   end) ({[i]} ∪ seen) (effective_inputs v)
            end
        end
    end.

(** The loop over the inputs, on its own. *)
Definition visit_inputs (fuel : nat) := fix inputs seen l : option (gset nat * option refusal) :=
  match l with
  | [] => Some (seen, None)
  | j :: l =>
      match visit fuel seen j with
      | Some (seen, None) => inputs seen l
      | r => r
      end
  end.
End Visit.

Definition owner_affine_refusal (p : hprogram) (owner : hstate) : option refusal :=
  match dget (hs_state owner) (hp_commits p) with
  | None => Some NotCommitted
  | Some committed =>
      match visit (hp_heap p) owner (S (size (hp_heap p))) ∅ committed with
      | Some (_, reason) => reason
      | None => Some (UnprovedOp EmptyString)
      end
  end.

(** [_program_context_refusal]: a value outside the replay vocabulary, or a
    scheduled one. *)
Definition program_context_refusal (p : hprogram) : bool :=
  existsb (fun v => negb (mem (hv_op v) AFFINE_REPLAY_PROGRAM_OPS) || hv_scheduled v) (program_ops p).

(** *** [validate_history_persistence]: the codes and rings of the issues *)

Definition issue : Type := string * string.

Definition string_le (a b : string) : Prop := String.leb a b = true.

#[local] Instance string_le_dec a b : Decision (string_le a b).
Proof. unfold string_le. apply _. Defined.

Definition sort_names (l : list string) : list string := merge_sort string_le l.

Definition sort_items (l : list (string * configured)) : list (string * configured) :=
  merge_sort (fun a b => string_le (fst a) (fst b)) l.

(** [replay_provenance], the comprehension over [_time_history_stores]. *)
Definition replay_provenance (p : hprogram) : list (string * hstate) :=
  foldl (fun d '(state, node) =>
           match hp_heap p !! node with Some v => dset (hv_history v) state d | None => d end)
    [] (hp_stores p).

Definition when (b : bool) (i : issue) : list issue := if b then [i] else [].

(** The issues of a selective policy that is coherent with its ring. *)
Definition selective_issues (p : hprogram) (name : string) : list issue :=
  match dget name (replay_provenance p) with
  | None => [("unqualified_replay_provenance"%string, name)]
  | Some state =>
      when (negb (String.eqb (hs_clock state) (hp_clock p))) ("non_primary_clock_replay"%string, name)
      ++ when (bool_decide (is_Some (owner_affine_refusal p state))) ("non_affine_replay"%string, name)
      ++ when (program_context_refusal p) ("unrestored_replay_context"%string, name)
  end
  ++ when (existsb op_is_nondeterministic (program_ops p)) ("nondeterministic_replay"%string, name).

(** One iteration of the loop. *)
Definition ring_issues (p : hprogram) (item : string * configured) : res (list issue) :=
  let '(name, c) := item in
  match c with
  | InvalidRecord => Ok [("invalid_policy_record"%string, name)]
  | Configured ring_slots policy =>
      if (match dget name (hp_histories p) with
          | Some lag => negb (ring_slots =? lag + 1) | None => false end)
      then Ok [("depth_mismatch"%string, name)]
      else
        match policy with
        | None => Ok [("invalid_policy"%string, name)]
        | Some pol =>
            match validate_for pol ring_slots with
            | Err (ValueError | TypeError) => Ok [("incoherent_policy"%string, name)]
            | Err e => Err e
            | Ok _ =>
                dense ← degenerate_to_dense pol ring_slots;
                Ok (if (dense : bool) then [] else selective_issues p name)
            end
        end
  end.

Definition validate_history_persistence (p : hprogram) : res (list issue) :=
  let history_names := dkeys (hp_histories p) in
  let persistence_names := dkeys (hp_persistence p) in
  let missing := sort_names (List.filter (fun n => bool_decide (n ∉ persistence_names)) history_names) in
  let orphans := sort_names (List.filter (fun n => bool_decide (n ∉ history_names)) persistence_names) in
  let report := map (fun n => ("missing_policy"%string, n)) missing
                ++ map (fun n => ("orphan_policy"%string, n)) orphans in
  match hp_persistence p with
  | [] => Ok report
  | _ =>
      rings ← map_res (ring_issues p) (sort_items (hp_persistence p));
      Ok (report ++ concat rings)
  end.

(** [check_program]; the report tree raises a [ValueError] on any error. *)
Definition check_program (p : hprogram) : res unit :=
  report ← validate_history_persistence p;
  require (match report with [] => true | _ => false end) ValueError.

(** ** The graph walk *)

Section Walk.
Context (heap : gmap nat hvalue) (owner : hstate).

Lemma visit_S fuel seen i :
  visit heap owner (S fuel) seen i =
  if decide (i ∈ seen) then Some (seen, None)
  else match heap !! i with
       | None => Some ({[i]} ∪ seen, Some (UnprovedOp EmptyString))
       | Some v =>
           match local_refusal owner v with
           | Some reason => Some ({[i]} ∪ seen, Some reason)
           | None => visit_inputs heap owner fuel ({[i]} ∪ seen) (effective_inputs v)
           end
       end.
Proof. done. Qed.

(** The values the walk has not seen yet. *)
Definition room (seen : gset nat) : nat := size (dom heap ∖ seen).

Lemma room_mono seen seen' : seen ⊆ seen' → (room seen' <= room seen)%nat.
Proof. intros H. unfold room. apply subseteq_size. set_solver. Qed.

Lemma room_visit seen i : is_Some (heap !! i) → i ∉ seen → (room ({[i]} ∪ seen) < room seen)%nat.
Proof.
  intros Hi Hn. unfold room. apply subset_size. split; [set_solver|].
  intros H. apply elem_of_dom in Hi. set_solver.
Qed.

(** A value that passes the tests and whose effective inputs were visited. *)
Definition accepted (S : gset nat) (x : nat) : Prop :=
  ∃ v, heap !! x = Some v ∧ local_refusal owner v = None ∧ ∀ j, j ∈ effective_inputs v → j ∈ S.

(** What a walk from [seen] to [seen'] with verdict [r] establishes. *)
Definition walked (seen : gset nat) (targets : list nat) (seen' : gset nat) (r : option refusal) : Prop :=
  seen ⊆ seen' ∧ (r = None → (∀ i, i ∈ targets → i ∈ seen') ∧ ∀ x, x ∈ seen' → x ∉ seen → accepted seen' x).

Lemma accepted_mono S S' x : S ⊆ S' → accepted S x → accepted S' x.
Proof. intros H (v & ? & ? & Hj). exists v. split_and!; auto. Qed.

Lemma visit_inputs_spec fuel :
  (∀ seen i seen' r, visit heap owner fuel seen i = Some (seen', r) → walked seen [i] seen' r) →
  ∀ l seen seen' r, visit_inputs heap owner fuel seen l = Some (seen', r) → walked seen l seen' r.
Proof.
  intros IH l. induction l as [|j l IHl]; intros seen seen' r H; cbn in H.
  - injection H as <- <-. split; [done|]. intros _. split; [by intros ? ?%elem_of_nil | done].
  - destruct (visit heap owner fuel seen j) as [[s1 [r1|]]|] eqn:E; [| |discriminate H].
    + injection H as <- <-. apply IH in E as [Hsub _]. split; [done | discriminate].
    + apply IH in E as [Hsub1 H1]. apply IHl in H as [Hsub2 H2]. destruct (H1 eq_refl) as [Hj Hacc1].
      split; [set_solver|]. intros ->. destruct (H2 eq_refl) as [Hl Hacc2]. split.
      * intros i [->|?]%elem_of_cons; [apply Hsub2, Hj; left | by apply Hl].
      * intros x Hx Hn. destruct (decide (x ∈ s1)); [|by apply Hacc2].
        apply (accepted_mono s1); [done | by apply Hacc1].
Qed.

Lemma gate_visit_spec fuel : ∀ seen i seen' r,
  visit heap owner fuel seen i = Some (seen', r) → walked seen [i] seen' r.
Proof.
  induction fuel as [|fuel IH]; intros seen i seen' r H.
  - cbn in H. destruct (decide (i ∈ seen)); [|discriminate H]. injection H as <- <-.
    split; [done|]. intros _. split; [by intros j ->%list_elem_of_singleton | done].
  - rewrite visit_S in H. destruct (decide (i ∈ seen)).
    { injection H as <- <-. split; [done|]. intros _. split; [by intros j ->%list_elem_of_singleton | done]. }
    destruct (heap !! i) as [v|] eqn:Ev; [|injection H as <- <-; split; [set_solver | discriminate]].
    destruct (local_refusal owner v) eqn:El; [injection H as <- <-; split; [set_solver | discriminate]|].
    apply (visit_inputs_spec fuel IH) in H as [Hsub Hw]. split; [set_solver|].
    intros Hr. destruct (Hw Hr) as [Hin Hacc]. split; [intros j ->%list_elem_of_singleton; set_solver|].
    intros x Hx Hn. destruct (decide (x = i)) as [->|]; [|apply Hacc; set_solver].
    exists v. auto.
Qed.

Lemma visit_total fuel : ∀ seen i, (room seen < fuel)%nat → is_Some (visit heap owner fuel seen i).
Proof.
  induction fuel as [|fuel IH]; intros seen i H; [lia|]. rewrite visit_S.
  destruct (decide (i ∈ seen)); [eauto|]. destruct (heap !! i) as [v|] eqn:Ev; [|eauto].
  destruct (local_refusal owner v); [eauto|].
  assert (Hroom : (room ({[i]} ∪ seen) < fuel)%nat).
  { pose proof (room_visit seen i ltac:(eauto) ltac:(done)). lia. }
  generalize dependent ({[i]} ∪ seen). induction (effective_inputs v) as [|j l IHl]; intros s Hs; [cbn; eauto|].
  cbn. destruct (IH s j Hs) as [[s1 [r|]] E]; rewrite E; [eauto|].
  apply IHl. apply gate_visit_spec in E as [Hsub _]. apply room_mono in Hsub. lia.
Qed.
End Walk.

(** ** The committed transition *)

(** One execution of the step: [st] gives each state declaration its value at
    the start, [v] the value of each node (one component of one cell). *)
Definition executes (heap : gmap nat hvalue) (dt : Qc) (st : string → Qc) (v : nat → Qc) : Prop :=
  ∀ i n, heap !! i = Some n →
    (∀ s, hv_op n = "state"%string → hv_state n = Some s → v i = st s)
    ∧ (hv_op n = "linear_combine"%string →
       v i = qsum (zip_with (fun j c => coeff_eval dt c * v j)%Qc (hv_inputs n) (hv_coeffs n))).

(** Values are numbered in definition order and combinations are well formed. *)
Definition ssa (heap : gmap nat hvalue) : Prop :=
  ∀ i n, heap !! i = Some n →
    (∀ j, j ∈ hv_inputs n → (j < i)%nat)
    ∧ (hv_op n = "linear_combine"%string → length (hv_coeffs n) = length (hv_inputs n)).

(** [x] is the owner state times a factor that depends on [dt] only. *)
Definition owner_linear (heap : gmap nat hvalue) (s : string) (i : nat) : Prop :=
  ∀ dt, ∃ gain, ∀ st v, executes heap dt st v → v i = (gain * st s)%Qc.

Lemma combination_gain heap s dt (l : list (nat * coeff)) :
  (∀ j, j ∈ map fst (List.filter (fun t => match t.2 with [] => false | _ => true end) l) →
        ∃ gain, ∀ st v, executes heap dt st v → v j = (gain * st s)%Qc) →
  ∃ gain, ∀ st v, executes heap dt st v →
    qsum (map (fun t => coeff_eval dt t.2 * v t.1)%Qc l) = (gain * st s)%Qc.
Proof.
  induction l as [|[j c] l IH]; intros H.
  - exists 0%Qc. intros. cbn [map]. rewrite qsum_nil. ring.
  - destruct IH as [g Hg].
    { intros j' Hj'. apply H. cbn. destruct c; [done | by right]. }
    destruct c as [|t c].
    + exists g. intros st v Hex. cbn [map fst snd]. rewrite qsum_cons, coeff_eval_nil, (Hg st v Hex). ring.
    + destruct (H j) as [gj Hgj]; [left|].
      exists (coeff_eval dt (t :: c) * gj + g)%Qc. intros st v Hex. cbn [map fst snd].
      rewrite qsum_cons, (Hgj st v Hex), (Hg st v Hex). ring.
Qed.

Lemma owner_affine_linear heap owner (S : gset nat) :
  ssa heap → (∀ x, x ∈ S → accepted heap owner S x) →
  ∀ i, i ∈ S → owner_linear heap (hs_state owner) i.
Proof.
  intros Hssa Hacc i. induction i as [i IH] using (well_founded_induction lt_wf). intros Hi dt.
  destruct (Hacc i Hi) as (n & Hn & Hl & Hin). destruct (Hssa i n Hn) as [Hlt Hlen].
  unfold local_refusal in Hl. destruct (String.eqb (hv_op n) "history"); [discriminate|].
  destruct (mem (hv_op n) OWNER_AFFINE_OPS) eqn:Hop; cbn [negb] in Hl; [|discriminate].
  destruct (match hv_block n with Some _ => _ | None => _ end); [discriminate|].
  unfold mem in Hop. bools.
  apply elem_of_cons in Hop as [Hop|Hop%list_elem_of_singleton].
  - exists 1%Qc. intros st v Hex. rewrite Hop in Hl. cbn [String.eqb andb] in Hl.
    change (String.eqb "state" "state") with true in Hl. cbn [andb] in Hl.
    destruct (bool_decide (hv_state n = Some (hs_state owner))) eqn:Hs; [|discriminate]. bools.
    rewrite (proj1 (Hex i n Hn) _ Hop Hs). ring.
  - specialize (Hlen Hop). unfold effective_inputs in Hin.
    rewrite Hop, String.eqb_refl, Hlen, Nat.eqb_refl in Hin. cbn [negb] in Hin.
    destruct (combination_gain heap (hs_state owner) dt (zip (hv_inputs n) (hv_coeffs n))) as [g Hg].
    { intros j Hj. apply IH; [|by apply Hin]. apply Hlt.
      apply list_elem_of_In, in_map_iff in Hj as ([j' c] & <- & [Hf _]%filter_In).
      apply in_combine_l in Hf. by apply list_elem_of_In. }
    exists g. intros st v Hex. rewrite (proj2 (Hex i n Hn) Hop), <- (Hg st v Hex). f_equal.
    clear. generalize (hv_coeffs n). induction (hv_inputs n) as [|j l IH]; intros [|c cs]; cbn; [done..|].
    by rewrite IH.
Qed.

(** *** The verdict is reachability *)

Section Reach.
Context (heap : gmap nat hvalue) (owner : hstate).

(** Reachable through inputs of non-zero weight. *)
Inductive ereach (i : nat) : nat → Prop :=
| ereach_refl : ereach i i
| ereach_step x v j : ereach i x → heap !! x = Some v → j ∈ effective_inputs v → ereach i j.

Lemma ereach_head i v j x : heap !! i = Some v → j ∈ effective_inputs v → ereach j x → ereach i x.
Proof.
  intros Hi Hj. induction 1 as [|x w k _ IH Hx Hk]; [|by apply (ereach_step _ x w)].
  apply (ereach_step _ i v); [constructor | done | done].
Qed.

Definition passes (x : nat) : Prop := ∃ v, heap !! x = Some v ∧ local_refusal owner v = None.

Lemma visit_refused fuel : ∀ seen i seen' reason,
  visit heap owner fuel seen i = Some (seen', Some reason) → ∃ x, ereach i x ∧ ¬ passes x.
Proof.
  induction fuel as [|fuel IH]; intros seen i seen' reason H.
  - cbn in H. by destruct (decide (i ∈ seen)).
  - rewrite visit_S in H. destruct (decide (i ∈ seen)); [discriminate H|].
    destruct (heap !! i) as [v|] eqn:Ev.
    2: { exists i. split; [constructor|]. intros (v & Hv & _). congruence. }
    destruct (local_refusal owner v) eqn:El.
    { exists i. split; [constructor|]. intros (v' & Hv & ?). simplify_eq. }
    assert (Hl : ∀ j, j ∈ effective_inputs v → j ∈ effective_inputs v) by done.
    revert H Hl. generalize ({[i]} ∪ seen). generalize (effective_inputs v) at 1 2.
    induction l as [|j l IHl]; intros s H Hl; cbn in H; [discriminate H|].
    destruct (visit heap owner fuel s j) as [[s1 [r1|]]|] eqn:E; [| |discriminate H].
    + destruct (IH _ _ _ _ E) as (x & Hx & Hp). exists x. split; [|done].
      apply (ereach_head i v j); [done | apply Hl; left | done].
    + apply (IHl s1 H). intros k Hk. apply Hl. by right.
Qed.

Lemma accepted_reach (S : gset nat) i x :
  (∀ y, y ∈ S → accepted heap owner S y) → i ∈ S → ereach i x → x ∈ S.
Proof.
  intros Hacc Hi. induction 1 as [|x v j _ IH Hx Hj]; [done|].
  destruct (Hacc x IH) as (v' & Hv' & _ & Hin). simplify_eq. auto.
Qed.
End Reach.

(** Every accepted walk gives a set of accepted values closed under inputs. *)
Lemma owner_affine_accepted p owner :
  owner_affine_refusal p owner = None →
  ∃ committed S, dget (hs_state owner) (hp_commits p) = Some committed ∧ committed ∈ S
    ∧ ∀ x, x ∈ S → accepted (hp_heap p) owner S x.
Proof.
  unfold owner_affine_refusal. destruct (dget _ _) as [committed|]; [|discriminate].
  destruct (visit _ _ _ _ _) as [[S r]|] eqn:E; [|discriminate]. intros ->.
  apply gate_visit_spec in E as [_ H]. destruct (H eq_refl) as [Hin Hacc].
  exists committed, S. split_and!; [done | apply Hin; left | intros x Hx; apply Hacc; set_solver].
Qed.

(** The affine gate terminates and refuses exactly the transitions from
    which some value outside the owner-affine vocabulary is reachable through
    inputs of non-zero weight. *)
Theorem owner_affine_refusal_iff p owner :
  owner_affine_refusal p owner = None ↔
  ∃ committed, dget (hs_state owner) (hp_commits p) = Some committed
    ∧ ∀ x, ereach (hp_heap p) committed x → passes (hp_heap p) owner x.
Proof.
  split.
  - intros (committed & S & Hc & Hin & Hacc)%owner_affine_accepted. exists committed. split; [done|].
    intros x Hx. apply (accepted_reach _ owner S) in Hx; [|done..].
    destruct (Hacc x Hx) as (v & ? & ? & _). by exists v.
  - intros (committed & Hc & Hall). unfold owner_affine_refusal. rewrite Hc.
    destruct (visit_total (hp_heap p) owner (S (size (hp_heap p))) ∅ committed) as [[S r] E].
    { unfold room. assert (Hs : dom (hp_heap p) ∖ ∅ = dom (hp_heap p)) by set_solver.
      rewrite Hs, size_dom. lia. }
    rewrite E. destruct r as [reason|]; [|done].
    apply visit_refused in E as (x & Hx & Hp). by destruct Hp; apply Hall.
Qed.

(** ** The gate *)

Lemma issues_nil b i : when b i = [] → b = false.
Proof. by destruct b. Qed.

Lemma selective_issues_nil p name :
  selective_issues p name = [] →
  ∃ state, dget name (replay_provenance p) = Some state ∧ hs_clock state = hp_clock p
    ∧ owner_affine_refusal p state = None ∧ program_context_refusal p = false
    ∧ existsb op_is_nondeterministic (program_ops p) = false.
Proof.
  unfold selective_issues. intros [H Hn%issues_nil]%app_eq_nil.
  destruct (dget name (replay_provenance p)) as [state|]; [|discriminate H].
  apply app_eq_nil in H as [H1%issues_nil [H2%issues_nil H3%issues_nil]%app_eq_nil].
  exists state. bools. split_and!; try done; [by apply String.eqb_eq|].
  destruct (owner_affine_refusal p state); [|done]. destruct H2. eauto.
Qed.

Lemma concat_nil {A} (l : list (list A)) x : concat l = [] → x ∈ l → x = [].
Proof.
  induction l as [|y l IH]; cbn; [by intros _ ?%elem_of_nil|].
  intros [-> Hl]%app_eq_nil [->|Hx]%elem_of_cons; auto.
Qed.

Lemma check_program_rings p :
  check_program p = Ok tt →
  (∀ name, name ∈ dkeys (hp_histories p) ↔ name ∈ dkeys (hp_persistence p))
  ∧ ∀ item, item ∈ hp_persistence p → ring_issues p item = Ok [].
Proof.
  unfold check_program, validate_history_persistence. intros H.
  set (missing := sort_names _) in H. set (orphans := sort_names (List.filter _ (dkeys (hp_persistence p)))) in H.
  assert (Hnames : map (fun n => ("missing_policy"%string, n)) missing
                   ++ map (fun n => ("orphan_policy"%string, n)) orphans = [] →
                   ∀ name, name ∈ dkeys (hp_histories p) ↔ name ∈ dkeys (hp_persistence p)).
  { intros [Hm%map_eq_nil Ho%map_eq_nil]%app_eq_nil name.
    assert (Hf : ∀ (a b : list string), sort_names (List.filter (fun n => bool_decide (n ∉ b)) a) = [] →
                   name ∈ a → name ∈ b).
    { intros a b Hs Ha. destruct (decide (name ∈ b)) as [|Hn]; [done|].
      assert (Hin : name ∈ sort_names (List.filter (fun n => bool_decide (n ∉ b)) a)).
      { unfold sort_names. rewrite (merge_sort_Permutation string_le), list_elem_of_In, filter_In.
        rewrite <- list_elem_of_In, bool_decide_eq_true. done. }
      rewrite Hs in Hin. by apply elem_of_nil in Hin. }
    split; [apply (Hf _ _ Hm) | apply (Hf _ _ Ho)]. }
  destruct (hp_persistence p) as [|it items] eqn:Ep.
  - cbn [mbind res_bind] in H. split; [|by intros ? ?%elem_of_nil].
    apply Hnames. destruct (map _ missing ++ _); [done | discriminate H].
  - inv_ok. match type of E with match ?l with [] => _ | _ => _ end = _ => destruct l eqn:El end; [|discriminate].
    apply app_eq_nil in El as [El Hc]. split; [by apply Hnames|].
    intros item Hi. assert (Hs : item ∈ sort_items (it :: items)).
    { unfold sort_items. by rewrite (merge_sort_Permutation _). }
    apply list_elem_of_lookup in Hs as [k Hk].
    destruct (map_res_lookup _ _ _ _ _ E0 Hk) as (ys & Hy & ->). f_equal.
    apply (concat_nil _ _ Hc). by apply list_elem_of_lookup_2 in Hy.
Qed.

Lemma ring_issues_nil p name c :
  ring_issues p (name, c) = Ok [] →
  ∃ slots pol n dense, c = Configured slots (Some pol)
    ∧ (∀ lag, dget name (hp_histories p) = Some lag → slots = lag + 1)
    ∧ validate_for pol slots = Ok n ∧ degenerate_to_dense pol slots = Ok dense
    ∧ (dense = false → selective_issues p name = []).
Proof.
  unfold ring_issues. intros H. destruct c as [|slots [pol|]]; [discriminate H | |].
  - destruct (match dget name _ with Some _ => _ | None => _ end) eqn:El; [discriminate H|].
    destruct (validate_for pol slots) as [n|e] eqn:Ev; [|by destruct e].
    destruct (degenerate_to_dense pol slots) as [dense|] eqn:Ed; [|discriminate H].
    cbn [mbind res_bind] in H. exists slots, pol, n, dense. split_and!; try done.
    + intros lag Hlag. rewrite Hlag in El. bools. lia.
    + intros ->. by injection H as ->.
  - by destruct (match dget name _ with Some _ => _ | None => _ end).
Qed.

(** C36: When the gate lets a program through, rings and policies match one to
    one; every ring has a typed policy coherent with its depth and is
    reconstructible from its stored slots; and when some slots are recomputed,
    the ring belongs to a primary-clock state whose committed value is, for
    each [dt], the state's value times a constant: one stored slot determines
    the next, in every execution. *)
Theorem check_program_sound p :
  check_program p = Ok tt → ssa (hp_heap p) →
  (∀ slots pol name, (name, Configured slots (Some pol)) ∈ hp_persistence p →
     constructed pol ∧ slots * slots < 2 ^ 52) →
  (∀ name, name ∈ dkeys (hp_histories p) ↔ name ∈ dkeys (hp_persistence p))
  ∧ ∀ name c, (name, c) ∈ hp_persistence p →
    ∃ slots pol stored, c = Configured slots (Some pol)
      ∧ dget name (hp_histories p) = Some (slots - 1)
      ∧ stored_slots pol slots = Ok stored ∧ reconstructible slots (latency pol slots) stored
      ∧ (Z.of_nat (length stored) ≠ slots →
         ∃ state committed, dget name (replay_provenance p) = Some state
           ∧ hs_clock state = hp_clock p
           ∧ dget (hs_state state) (hp_commits p) = Some committed
           ∧ owner_linear (hp_heap p) (hs_state state) committed).
Proof.
  intros [Hnames Hrings]%check_program_rings Hssa Hpol. split; [done|].
  intros name c Hi. specialize (Hrings _ Hi).
  apply ring_issues_nil in Hrings as (slots & pol & n & dense & -> & Hlag & Hv & Hd & Hsel).
  destruct (Hpol _ _ _ Hi) as [Hc Hsmall].
  destruct (validated_slots pol slots n Hc Hv Hsmall) as (H1 & -> & stored & Hst & Hr).
  exists slots, pol, stored. split_and!; try done.
  - assert (Hn : name ∈ dkeys (hp_histories p)).
    { apply Hnames. unfold dkeys. apply list_elem_of_In, in_map_iff.
      exists (name, Configured slots (Some pol)). split; [done | by apply list_elem_of_In]. }
    destruct (dget name (hp_histories p)) as [lag|] eqn:El; [|by apply dget_None in El].
    f_equal. rewrite (Hlag lag eq_refl). lia.
  - intros Hne. unfold degenerate_to_dense, check_depth in Hd.
    rewrite (proj2 (Z.leb_le _ _) H1) in Hd. cbn [require mbind res_bind] in Hd. rewrite Hst in Hd.
    cbn [mbind res_bind] in Hd. injection Hd as Hd.
    destruct (selective_issues_nil p name) as (state & Hp & Hclock & Ha & _).
    { apply Hsel. rewrite <- Hd. by apply Z.eqb_neq. }
    apply owner_affine_accepted in Ha as (committed & S & Hcom & Hin & Hacc).
    exists state, committed. split_and!; try done.
    by apply (owner_affine_linear _ _ S).
Qed.

(** A two-term update [U <- U + dt * U + 0 * U(t - dt)] kept on a ring of five
    slots, two of which are recomputed. *)
Definition toy_owner : hstate := HState "U" "fluid" "main".

Definition toy_program : hprogram := HProgram
  (list_to_map
    [(0%nat, HValue "state" [] [] (Some "fluid") (Some "U") "" false false []);
     (1%nat, HValue "history" [] [] (Some "fluid") (Some "U") "ring" false false []);
     (2%nat, HValue "linear_combine" [0%nat; 1%nat] [[(0, NInt 1); (1, NInt 1)]; []] (Some "fluid") None
               "" false false []);
     (3%nat, HValue "store_history" [0%nat] [] (Some "fluid") (Some "U") "ring" false false [])])%string
  [0%nat; 1%nat; 2%nat; 3%nat] [("U", 2%nat)]%string [("ring", 4)]%string
  [("ring", Configured 5 (Some (Interval 2)))]%string [(toy_owner, 3%nat)] "main"%string.

Lemma toy_ssa : ssa (hp_heap toy_program).
Proof.
  intros i n Hi. apply elem_of_list_to_map_2 in Hi.
  repeat match goal with H : _ ∈ _ :: _ |- _ => apply elem_of_cons in H as [H|H] end;
    [..|by apply elem_of_nil in Hi]; injection Hi as -> ->; (split; [set_solver by lia | done]).
Qed.

Lemma check_program_sound_witness :
  check_program toy_program = Ok tt
  ∧ ∃ committed, dget "U"%string (hp_commits toy_program) = Some committed
      ∧ owner_linear (hp_heap toy_program) "U" committed.
Proof.
  split; [vm_compute; reflexivity|].
  destruct (check_program_sound toy_program) as [_ H]; [vm_compute; reflexivity | apply toy_ssa | |].
  - intros slots pol name Hi. apply list_elem_of_singleton in Hi. injection Hi as -> -> ->.
    split; [cbn; lia | done].
  - destruct (H "ring"%string (Configured 5 (Some (Interval 2)))) as (slots & pol & stored & Hc & _ & Hst & _ & Hr);
      [left|].
    injection Hc as <- <-. vm_compute in Hst. injection Hst as <-.
    destruct Hr as (state & committed & Hp & _ & Hcom & Hl); [cbn; lia|].
    vm_compute in Hp. injection Hp as <-. exists committed. split; [exact Hcom | exact Hl].
Defined.
