(* ===== verification/StepStrategy.v ===== *)
(** * Macro-step strategies

    [python/pops/time/_step/strategy.py]: the four registered step strategies,
    their constructors and runtime controls, and the manifests a restart reads
    them back from. *)
From S2P Require Import Prelude Binary64 FloatValid HexFloat Manifest.

(** ** Numeric arguments *)

Definition fzero : float := SpecFloat.S754_zero false.

(** [float(value)] of an [int] or a [float]. *)
Definition to_float (value : json) : res float :=
  match value with
  | JInt z => let f := float_of_Z z in if is_finite f then Ok f else Err OverflowError
  | JFloat f => Ok f
  | _ => Err TypeError
  end.

Definition positive_float (value : json) : res float :=
  f ← to_float value;
  _ ← require (is_finite f && fltb fzero f) ValueError;
  Ok f.

Definition positive_int (value : json) : res Z :=
  match value with
  | JInt z => _ ← require (0 <? z) ValueError; Ok z
  | _ => Err TypeError
  end.

(** [_controls]: [None] or a mapping with non-empty names. *)
Definition controls_of (value : json) : res (list (string * json)) :=
  match value with
  | JNull => Ok []
  | JObj d => _ ← require (forallb (fun k => negb (String.eqb k EmptyString)) (dkeys d)) TypeError; Ok d
  | _ => Err TypeError
  end.

(** [scalar_data] of a float: a [binary64] literal. *)
Definition scalar_data (f : float) : res json :=
  if is_finite f then Ok (JObj [("kind", JStr "binary64"); ("value", JStr (hex f))]) else Err ValueError.

(** [_binary64] *)
Definition binary64 (value : json) : res float :=
  match value with
  | JObj d =>
      _ ← require (same_keys (dkeys d) ["kind"; "value"]) TypeError;
      match dget "kind" d, dget "value" d with
      | Some (JStr kind), Some (JStr text) =>
          _ ← require (String.eqb kind "binary64") TypeError;
          match fromhex text with Some f => Ok f | None => Err ValueError end
      | _, _ => Err TypeError
      end
  | _ => Err TypeError
  end.

(** ** Strategies *)

Record error_policy := ErrorPolicy {
  dt_init : float; rtol : float; atol : float; dt_min : float; dt_max : float;
  shrink : float; growth : float; max_rejections : Z }.

Inductive strategy :=
| FixedDt (dt : float)
| AdaptiveCFL (cfl : float) (max_dt : option float)
| ErrorControlledDt (policy : error_policy)
| ExternalTimeGrid (grid_id : string).

Definition kind_of (s : strategy) : string :=
  match s with
  | FixedDt _ => "fixed_dt"
  | AdaptiveCFL _ _ => "adaptive_cfl"
  | ErrorControlledDt _ => "error_controlled_dt"
  | ExternalTimeGrid _ => "external_time_grid"
  end.

Definition mk_fixed_dt (dt : json) : res strategy := FixedDt <$> positive_float dt.

(** An absent [max_dt] is [None]. *)
Definition mk_adaptive_cfl (cfl max_dt : json) : res strategy :=
  c ← positive_float cfl;
  match max_dt with
  | JNull => Ok (AdaptiveCFL c None)
  | v => m ← positive_float v; Ok (AdaptiveCFL c (Some m))
  end.

Definition mk_error_controlled (init rt at_ dmin dmax rejections shr gro : json) : res strategy :=
  init ← positive_float init; rt ← positive_float rt; at_ ← positive_float at_;
  dmin ← positive_float dmin; dmax ← positive_float dmax;
  shr ← positive_float shr; gro ← positive_float gro;
  rejections ← positive_int rejections;
  _ ← require (negb (fltb init dmin || fltb dmax init)) ValueError;
  _ ← require (fltb shr (float_of_Z 1)) ValueError;
  _ ← require (fleb (float_of_Z 1) gro) ValueError;
  Ok (ErrorControlledDt (ErrorPolicy init rt at_ dmin dmax shr gro rejections)).

Definition mk_external_grid (grid_id : json) : res strategy :=
  match grid_id with
  | JStr s => _ ← require (negb (String.eqb s EmptyString)) ValueError; Ok (ExternalTimeGrid s)
  | _ => Err ValueError
  end.

(** ** Runtime controls *)

Definition is_numeric (v : json) : bool :=
  match v with JInt _ | JFloat _ => true | _ => false end.

Fixpoint increasing_floats (l : list float) : bool :=
  match l with
  | a :: (b :: _) as l' => negb (fleb b a) && increasing_floats l'
  | _ => true
  end.

(** The values of a runtime grid. *)
Definition grid_values (grid : list json) : res (list float) := map_res to_float grid.

(** The default: no control. *)
Definition no_controls (values : list (string * json)) : res unit :=
  require (match values with [] => true | _ => false end) ValueError.

Definition cfl_controls (values : list (string * json)) : res unit :=
  _ ← require (forallb (fun k => bool_decide (k ∈ ["dt_min"; "dt_max"]%string)) (dkeys values)) ValueError;
  _ ← map_res (fun '(_, v) => positive_float v) values;
  match dget "dt_min" values, dget "dt_max" values with
  | Some lo, Some hi =>
      lo ← to_float lo; hi ← to_float hi;
      require (negb (fltb hi lo)) ValueError
  | _, _ => Ok tt
  end.

Definition grid_controls (grid_id : string) (values : list (string * json)) : res unit :=
  _ ← require (same_keys (dkeys values) [grid_id]) ValueError;
  match dget grid_id values with
  | Some (JList grid) =>
      _ ← require (2 <=? length grid)%nat ValueError;
      _ ← require (forallb is_numeric grid) TypeError;
      floats ← grid_values grid;
      _ ← require (forallb is_finite floats) ValueError;
      require (increasing_floats floats) ValueError
  | _ => Err ValueError
  end.

Definition validate_runtime_controls (s : strategy) (controls : json) : res unit :=
  values ← controls_of controls;
  match s with
  | FixedDt _ | ErrorControlledDt _ => no_controls values
  | AdaptiveCFL _ _ => cfl_controls values
  | ExternalTimeGrid grid_id => grid_controls grid_id values
  end.

(** [runtime_controls_data] *)
Definition control_data (v : json) : res json :=
  match v with
  | JList l => JList <$> map_res (fun item => f ← to_float item; scalar_data f) l
  | v => f ← to_float v; scalar_data f
  end.

Definition runtime_controls_data (controls : list (string * json)) : res (list (string * json)) :=
  map_res (fun '(name, v) => d ← control_data v; Ok (name, d)) controls.

(** [restore_runtime_controls] *)
Definition restore_control (v : json) : res json :=
  match v with
  | JList l => JList <$> map_res (fun item => JFloat <$> binary64 item) l
  | v => JFloat <$> binary64 v
  end.

Definition restore_runtime_controls (payload : json) : res (list (string * json)) :=
  match payload with
  | JObj d => map_res (fun '(name, v) => r ← restore_control v; Ok (name, r)) d
  | _ => Err TypeError
  end.

(** ** Descriptors *)

Definition fixed_dt_data (dt : float) : res json :=
  d ← scalar_data dt; Ok (JObj [("kind", JStr "fixed_dt"); ("dt", d)]).

Definition adaptive_cfl_data (cfl : float) (max_dt : option float) : res json :=
  c ← scalar_data cfl;
  match max_dt with
  | None => Ok (JObj [("kind", JStr "adaptive_cfl"); ("cfl", c)])
  | Some m => m ← scalar_data m;
              Ok (JObj [("kind", JStr "adaptive_cfl"); ("cfl", c); ("max_dt", m)])
  end.

Definition error_controlled_data (p : error_policy) : res json :=
  a ← scalar_data (dt_init p); b ← scalar_data (rtol p); c ← scalar_data (atol p);
  d ← scalar_data (dt_min p); e ← scalar_data (dt_max p);
  f ← scalar_data (shrink p); g ← scalar_data (growth p);
  Ok (JObj [("kind", JStr "error_controlled_dt"); ("dt_init", a); ("rtol", b); ("atol", c);
            ("dt_min", d); ("dt_max", e); ("shrink", f); ("growth", g);
            ("max_rejections", JInt (max_rejections p))]).

Definition external_grid_data (g : string) : res json :=
  Ok (JObj [("kind", JStr "external_time_grid"); ("grid_id", JStr g)]).

Definition to_data (s : strategy) : res json :=
  match s with
  | FixedDt dt => fixed_dt_data dt
  | AdaptiveCFL cfl max_dt => adaptive_cfl_data cfl max_dt
  | ErrorControlledDt p => error_controlled_data p
  | ExternalTimeGrid g => external_grid_data g
  end.

(** [payload.get("kind") == kind] *)
Definition has_kind (d : list (string * json)) (kind : string) : bool :=
  match dget "kind" d with Some (JStr k) => String.eqb k kind | _ => false end.

(** The field of a payload that was checked to have it. *)
Definition binary64_item (d : list (string * json)) (key : string) : res float :=
  v ← item d key; binary64 v.

Definition fixed_dt_from_data (d : list (string * json)) : res strategy :=
  _ ← require (same_keys (dkeys d) ["kind"; "dt"] && has_kind d "fixed_dt") ValueError;
  f ← binary64_item d "dt"; mk_fixed_dt (JFloat f).

Definition adaptive_cfl_from_data (d : list (string * json)) : res strategy :=
  _ ← require (has_kind d "adaptive_cfl"
               && (same_keys (dkeys d) ["kind"; "cfl"] || same_keys (dkeys d) ["kind"; "cfl"; "max_dt"]))
              ValueError;
  c ← binary64_item d "cfl";
  m ← match dget "max_dt" d with Some v => JFloat <$> binary64 v | None => Ok JNull end;
  mk_adaptive_cfl (JFloat c) m.

Definition ERROR_KEYS : list string :=
  ["dt_init"; "rtol"; "atol"; "dt_min"; "dt_max"; "shrink"; "growth"; "kind"; "max_rejections"].

Definition error_controlled_from_data (d : list (string * json)) : res strategy :=
  _ ← require (has_kind d "error_controlled_dt" && same_keys (dkeys d) ERROR_KEYS) ValueError;
  a ← binary64_item d "dt_init"; b ← binary64_item d "rtol"; c ← binary64_item d "atol";
  e ← binary64_item d "dt_min"; f ← binary64_item d "dt_max";
  g ← binary64_item d "shrink"; h ← binary64_item d "growth";
  r ← item d "max_rejections";
  mk_error_controlled (JFloat a) (JFloat b) (JFloat c) (JFloat e) (JFloat f) r (JFloat g) (JFloat h).

Definition external_grid_from_data (d : list (string * json)) : res strategy :=
  _ ← require (same_keys (dkeys d) ["kind"; "grid_id"] && has_kind d "external_time_grid") ValueError;
  g ← item d "grid_id"; mk_external_grid g.

(** [registered_step_strategy_type(kind).from_data(descriptor)] over the four
    registered providers. *)
Definition from_data (kind : string) (d : list (string * json)) : res strategy :=
  if String.eqb kind "fixed_dt" then fixed_dt_from_data d
  else if String.eqb kind "adaptive_cfl" then adaptive_cfl_from_data d
  else if String.eqb kind "error_controlled_dt" then error_controlled_from_data d
  else if String.eqb kind "external_time_grid" then external_grid_from_data d
  else Err ValueError.

(** ** Manifests *)

(** [run_control_payload] of the runtime. *)
Definition run_control_payload (s : strategy) (controls : json) : res json :=
  _ ← validate_runtime_controls s controls;
  d ← to_data s;
  c ← runtime_controls_data (match controls with JObj d => d | _ => [] end);
  Ok (JObj [("strategy", d); ("controls", JObj c)]).

Definition validate_step_strategy_manifest (value : json) : res (strategy * json) :=
  match value with
  | JObj m =>
      _ ← require (same_keys (dkeys m) ["strategy"; "controls"]) TypeError;
      descriptor ← item m "strategy";
      match descriptor with
      | JObj d =>
          match dget "kind" d with
          | Some (JStr kind) =>
              s ← from_data kind d;
              payload ← item m "controls";
              controls ← restore_runtime_controls payload;
              _ ← validate_runtime_controls s (JObj controls);
              data ← to_data s;
              cdata ← runtime_controls_data controls;
              let canonical := JObj [("strategy", data); ("controls", JObj cdata)] in
              _ ← require (json_eq canonical value) ValueError;
              Ok (s, canonical)
          | _ => Err TypeError
          end
      | _ => Err TypeError
      end
  | _ => Err TypeError
  end.

(** ** Well-formed strategies *)

Definition good (f : float) : Prop := valid f = true ∧ is_finite f = true.
Definition positive (f : float) : Prop := good f ∧ fltb fzero f = true.

(** A Python value: every float in it is a canonical binary64. *)
Definition pyvalue (v : json) : Prop := match v with JFloat f => valid f = true | _ => True end.

Definition well_formed (s : strategy) : Prop :=
  match s with
  | FixedDt dt => positive dt
  | AdaptiveCFL cfl max_dt => positive cfl ∧ match max_dt with Some m => positive m | None => True end
  | ErrorControlledDt p =>
      Forall positive [dt_init p; rtol p; atol p; dt_min p; dt_max p; shrink p; growth p]
      ∧ 0 < max_rejections p
      ∧ fltb (dt_init p) (dt_min p) = false ∧ fltb (dt_max p) (dt_init p) = false
      ∧ fltb (shrink p) (float_of_Z 1) = true ∧ fleb (float_of_Z 1) (growth p) = true
  | ExternalTimeGrid g => g ≠ EmptyString
  end.

Lemma to_float_valid v f : pyvalue v → to_float v = Ok f → valid f = true.
Proof. destruct v; cbn; intros Hp H; inv_ok; auto using float_of_Z_valid. Qed.

Lemma positive_float_ok v f : pyvalue v → positive_float v = Ok f → positive f.
Proof.
  unfold positive_float. intros Hp H. inv_ok. bools. split; [split; [|done]|done].
  by apply (to_float_valid v).
Qed.

Lemma positive_float_good f : positive f → positive_float (JFloat f) = Ok f.
Proof. intros [[_ Hf] Hp]. unfold positive_float. cbn [to_float mbind res_bind]. by rewrite Hf, Hp. Qed.

Lemma scalar_data_good f : good f →
  scalar_data f = Ok (JObj [("kind", JStr "binary64"); ("value", JStr (hex f))]).
Proof. intros [_ Hf]. unfold scalar_data. by rewrite Hf. Qed.

Lemma binary64_scalar f : good f →
  binary64 (JObj [("kind", JStr "binary64"); ("value", JStr (hex f))]) = Ok f.
Proof.
  intros [Hv Hf]. unfold binary64. change (same_keys _ _) with true. cbn [require mbind res_bind].
  change (dget "kind" _) with (Some (JStr "binary64")). change (dget "value" _) with (Some (JStr (hex f))).
  cbv iota. rewrite String.eqb_refl. cbn [require mbind res_bind]. by rewrite fromhex_hex.
Qed.

Lemma binary64_ok v f :
  binary64 v = Ok f → good f ∧ ∃ d, v = JObj d ∧ (∀ k, k ∈ dkeys d ↔ k ∈ ["kind"; "value"]%string)
    ∧ dget "kind" d = Some (JStr "binary64") ∧ dget "value" d = Some (JStr (hex f)).
Proof.
  unfold binary64. intros H. destruct v as [| | | | | |d]; try discriminate H.
  destruct (same_keys (dkeys d) _) eqn:Ek; [|discriminate H]. cbn [require mbind res_bind] in H.
  destruct (dget "kind" d) as [[| | | |kind| |]|] eqn:E1; try discriminate H.
  destruct (dget "value" d) as [[| | | |text| |]|] eqn:E2; try discriminate H.
  destruct (String.eqb_spec kind "binary64") as [->|]; [|discriminate H]. cbn [require mbind res_bind] in H.
  destruct (fromhex text) as [g|] eqn:Eh; [|discriminate H]. injection H as ->.
  apply fromhex_ok in Eh as (? & ? & ->). split; [done|].
  exists d. by rewrite same_keys_spec in Ek.
Qed.

Lemma mk_error_ok a b c d e r g h s :
  Forall pyvalue [a; b; c; d; e; g; h] → mk_error_controlled a b c d e r g h = Ok s → well_formed s.
Proof.
  intros Hp. rewrite !Forall_cons in Hp. destruct Hp as (?&?&?&?&?&?&?&_).
  unfold mk_error_controlled. intros Hm. inv_ok.
  repeat match goal with E : positive_float _ = Ok _ |- _ => apply positive_float_ok in E; [|done] end.
  match goal with E : positive_int _ = Ok _ |- _ => destruct r; cbn in E; inv_ok end.
  bools. cbn. rewrite !Forall_cons. by split_and!.
Qed.

(** Evaluates the lookups and key tests on explicit mappings. *)
Ltac dsimp_step :=
  match goal with
  | |- context [dget ?k (?a :: ?d)] =>
      let v := eval lazy -[hex] in (dget k (a :: d)) in change (dget k (a :: d)) with v
  | |- context [same_keys (dkeys (?a :: ?d)) ?b] =>
      let v := eval lazy -[hex] in (same_keys (dkeys (a :: d)) b) in
      change (same_keys (dkeys (a :: d)) b) with v
  | |- context [has_kind ?d ?k] =>
      let v := eval lazy -[hex] in (has_kind d k) in change (has_kind d k) with v
  end.
Ltac dsimp := unfold binary64_item, item;
  repeat (dsimp_step; cbn [andb orb require mbind res_bind fmap res_fmap]);
  cbn [andb orb require mbind res_bind fmap res_fmap].

Ltac read_float := rewrite binary64_scalar by assumption; cbn [mbind res_bind fmap res_fmap].
Ltac make_float := rewrite positive_float_good by assumption; cbn [mbind res_bind fmap res_fmap].

Lemma positive_good f : positive f → good f.
Proof. by intros [? _]. Qed.
#[local] Hint Resolve positive_good : core.

(** The descriptor of a well-formed strategy. *)
Lemma to_data_total s : well_formed s → ∃ d, to_data s = Ok (JObj d).
Proof.
  destruct s as [dt|cfl [m|]|p|g]; cbn [well_formed].
  - intros. unfold to_data, fixed_dt_data, adaptive_cfl_data, error_controlled_data, external_grid_data. rewrite scalar_data_good by auto. cbn. eauto.
  - intros [? ?]. unfold to_data, fixed_dt_data, adaptive_cfl_data, error_controlled_data, external_grid_data. rewrite !scalar_data_good by auto. cbn. eauto.
  - intros [? _]. unfold to_data, fixed_dt_data, adaptive_cfl_data, error_controlled_data, external_grid_data. rewrite !scalar_data_good by auto. cbn. eauto.
  - rewrite !Forall_cons. intros ((?&?&?&?&?&?&?&_)&_).
    unfold to_data, fixed_dt_data, adaptive_cfl_data, error_controlled_data, external_grid_data. rewrite !scalar_data_good by auto. cbn. eauto.
  - cbn. eauto.
Qed.

Lemma from_to_data s d :
  well_formed s → to_data s = Ok (JObj d) →
  from_data (kind_of s) d = Ok s ∧ dget "kind" d = Some (JStr (kind_of s)).
Proof.
  destruct s as [dt|cfl [m|]|p|g]; cbn [well_formed kind_of]; intros Hw.
  - unfold to_data, fixed_dt_data, adaptive_cfl_data, error_controlled_data, external_grid_data. rewrite scalar_data_good by auto. intros [= <-]. split; [|done].
    change (from_data _ ?d) with (fixed_dt_from_data d). unfold fixed_dt_from_data. dsimp.
    pose proof (positive_good _ Hw). read_float. unfold mk_fixed_dt. by make_float.
  - destruct Hw as [Hc Hm]. pose proof (positive_good _ Hc). pose proof (positive_good _ Hm).
    unfold to_data, fixed_dt_data, adaptive_cfl_data, error_controlled_data, external_grid_data. rewrite !scalar_data_good by done. intros [= <-]. split; [|done].
    change (from_data _ ?d) with (adaptive_cfl_from_data d). unfold adaptive_cfl_from_data. dsimp.
    read_float. dsimp. read_float. unfold mk_adaptive_cfl. make_float. by make_float.
  - destruct Hw as [Hc _]. pose proof (positive_good _ Hc).
    unfold to_data, fixed_dt_data, adaptive_cfl_data, error_controlled_data, external_grid_data. rewrite !scalar_data_good by done. intros [= <-]. split; [|done].
    change (from_data _ ?d) with (adaptive_cfl_from_data d). unfold adaptive_cfl_from_data. dsimp.
    read_float. dsimp. unfold mk_adaptive_cfl. by make_float.
  - rewrite !Forall_cons in Hw. destruct p. cbn [dt_init rtol atol dt_min dt_max shrink growth max_rejections] in Hw.
    destruct Hw as ((H1&H2&H3&H4&H5&H6&H7&_)&Hr&Ho1&Ho2&Hs&Hg).
    repeat match goal with Hp : positive ?f |- _ => 
      assert_fails (assert (good f) by assumption); pose proof (positive_good _ Hp) end.
    unfold to_data, fixed_dt_data, adaptive_cfl_data, error_controlled_data, external_grid_data. cbn [dt_init rtol atol dt_min dt_max shrink growth max_rejections].
    rewrite !scalar_data_good by done. intros [= <-]. split; [|done].
    change (from_data _ ?d) with (error_controlled_from_data d). unfold error_controlled_from_data.
    repeat (dsimp; try read_float). unfold mk_error_controlled. repeat make_float.
    unfold positive_int. rewrite (proj2 (Z.ltb_lt _ _) Hr). cbn [require mbind res_bind].
    by rewrite Ho1, Ho2, Hs, Hg.
  - unfold to_data, fixed_dt_data, adaptive_cfl_data, error_controlled_data, external_grid_data. intros [= <-]. split; [|done].
    change (from_data _ ?d) with (external_grid_from_data d). unfold external_grid_from_data. dsimp.
    unfold mk_external_grid. by destruct (String.eqb_spec g EmptyString).
Qed.

(** ** Runtime controls survive a restart *)

Definition num_ok (v : json) : Prop := ∃ f, to_float v = Ok f ∧ good f.
Definition control_ok (v : json) : Prop :=
  match v with JList l => Forall num_ok l | v => num_ok v end.

(** The value a control is restored as. *)
Definition image1 (v : json) : json := match to_float v with Ok f => JFloat f | Err _ => v end.
Definition image (v : json) : json := match v with JList l => JList (map image1 l) | v => image1 v end.
Definition images (d : list (string * json)) : list (string * json) := map (fun '(k, v) => (k, image v)) d.

Lemma to_float_image1 v f : to_float v = Ok f → to_float (image1 v) = Ok f.
Proof. intros H. unfold image1. by rewrite H. Qed.

Lemma num_roundtrip v : num_ok v → ∃ c,
  (f ← to_float v; scalar_data f) = Ok c ∧ binary64 c = Ok (match to_float v with Ok f => f | _ => fzero end)
  ∧ (f ← to_float (image1 v); scalar_data f) = Ok c
  ∧ c = JObj [("kind", JStr "binary64"); ("value", JStr (hex (match to_float v with Ok f => f | _ => fzero end)))].
Proof.
  intros (f & Hf & Hg). rewrite (to_float_image1 v f Hf), Hf. cbn [mbind res_bind].
  rewrite scalar_data_good by done. eexists. split_and!; [done | by apply binary64_scalar | done | done].
Qed.

Lemma control_roundtrip v : control_ok v →
  ∃ c, control_data v = Ok c ∧ restore_control c = Ok (image v) ∧ control_data (image v) = Ok c.
Proof.
  assert (Hscalar : ∀ v, num_ok v → (∀ l, v ≠ JList l) →
            ∃ c, control_data v = Ok c ∧ restore_control c = Ok (image v) ∧ control_data (image v) = Ok c).
  { intros w Hw Hl. destruct (num_roundtrip w Hw) as (c & H1 & H2 & H3 & Hc). exists c.
    destruct Hw as (f & Hf & _).
    assert (Hi : image w = JFloat f).
    { unfold image, image1. rewrite Hf. destruct w; done || by destruct (Hl l). }
    unfold image1 in H3. rewrite Hf in *. rewrite Hi.
    split_and!; [|rewrite Hc in *; cbv beta iota delta [restore_control]; by rewrite H2 | exact H3].
    destruct w; try discriminate Hf; cbv beta iota delta [control_data]; rewrite Hf; exact H1. }
  destruct v as [| | | | |l|]; cbn [control_ok]; try (intros Hw; by apply Hscalar).
  intros Hl.
  assert (H : ∃ cs, map_res (fun item => f ← to_float item; scalar_data f) l = Ok cs
            ∧ map_res (fun item => JFloat <$> binary64 item) cs = Ok (map image1 l)
            ∧ map_res (fun item => f ← to_float item; scalar_data f) (map image1 l) = Ok cs).
  { induction Hl as [|w l Hw Hl (cs & H1 & H2 & H3)]; [by exists []|].
    destruct (num_roundtrip w Hw) as (c & G1 & G2 & G3 & _). exists (c :: cs).
    cbn [map map_res]. rewrite G1, G2, G3, H1, H2, H3. destruct Hw as (f & Hf & _).
    cbn [mbind res_bind fmap res_fmap]. unfold image1. rewrite Hf. done. }
  destruct H as (cs & H1 & H2 & H3). exists (JList cs).
  unfold control_data, restore_control, image. by rewrite H1, H2, H3.
Qed.

Lemma controls_roundtrip d : Forall (fun t => control_ok t.2) d →
  ∃ c, runtime_controls_data d = Ok c ∧ restore_runtime_controls (JObj c) = Ok (images d)
    ∧ runtime_controls_data (images d) = Ok c ∧ dkeys c = dkeys d.
Proof.
  unfold runtime_controls_data, restore_runtime_controls.
  induction 1 as [|[k v] d Hv Hd (c & H1 & H2 & H3 & H4)]; [by exists []|].
  destruct (control_roundtrip v Hv) as (cv & G1 & G2 & G3). exists ((k, cv) :: c).
  cbn [images map map_res]. fold (images d). rewrite G1, G2, G3. cbn [mbind res_bind].
  rewrite H1, H2, H3. split_and!; try done. cbn. f_equal. exact H4.
Qed.

Lemma dkeys_images d : dkeys (images d) = dkeys d.
Proof. induction d as [|[k v] d IH]; cbn in *; [done|]. by f_equal. Qed.

Lemma dget_images k d : dget k (images d) = image <$> dget k d.
Proof. induction d as [|[k' v] d IH]; cbn; [done|]. by case_decide. Qed.

(** What validation says of the values. *)
Lemma positive_float_num v f : pyvalue v → positive_float v = Ok f → num_ok v ∧ positive_float (image1 v) = Ok f.
Proof.
  intros Hp H. pose proof (positive_float_ok v f Hp H) as [Hg _]. unfold positive_float in *.
  destruct (to_float v) as [g|] eqn:E; [|discriminate H].
  rewrite (to_float_image1 v _ E). split; [|exact H]. exists g. split; [done|].
  cbn [mbind res_bind] in H. by inv_ok.
Qed.

Lemma positive_floats_num d fs :
  Forall (fun t => pyvalue t.2) d → map_res (fun '(_, v) => positive_float v) d = Ok fs →
  Forall (fun t => control_ok t.2) d ∧ map_res (fun '(_, v) => positive_float v) (images d) = Ok fs.
Proof.
  intros Hd. revert fs. induction Hd as [|[k v] d Hv Hd IH]; intros fs H; cbn in H; [by inv_ok|].
  inv_ok. destruct (IH _ eq_refl) as [H1 H2].
  assert (Hnl : ∀ l, v ≠ JList l) by (intros l ->; discriminate E).
  destruct (positive_float_num v _ Hv E) as [Hn Hi].
  assert (Him : image v = image1 v) by (destruct v; done || by destruct (Hnl l)).
  split; [constructor; [|done]; destruct v; done || by destruct (Hnl l)|].
  change (images ((k, v) :: d)) with ((k, image v) :: images d). cbn [map_res].
  rewrite Him, Hi. cbn [mbind res_bind]. by rewrite H2.
Qed.

Lemma grid_num l fs :
  Forall pyvalue l → grid_values l = Ok fs → forallb is_finite fs = true →
  Forall num_ok l ∧ grid_values (map image1 l) = Ok fs.
Proof.
  unfold grid_values. intros Hl. revert fs. induction Hl as [|v l Hv Hl IH]; intros fs H Hf; cbn in H; [by inv_ok|].
  inv_ok. cbn in Hf. bools. destruct (IH _ eq_refl) as [H1 H2]; [done|].
  pose proof (to_float_valid v _ Hv E). split; [constructor; [by eexists | done]|].
  cbn. rewrite (to_float_image1 v _ E). cbn. by rewrite H2.
Qed.

(** Every float of a control, including inside a grid, is a canonical one. *)
Definition control_pyvalue (v : json) : Prop :=
  match v with JList l => Forall pyvalue l | v => pyvalue v end.

Lemma controls_of_images d d' : controls_of (JObj d) = Ok d' → d' = d ∧ controls_of (JObj (images d)) = Ok (images d).
Proof.
  unfold controls_of. rewrite dkeys_images. destruct (forallb _ _); cbn [require mbind res_bind]; [|done].
  by intros [= ->].
Qed.

(** Validation of a restored copy of accepted controls. *)
Lemma validate_images s d :
  NoDup (dkeys d) → Forall (fun t => control_pyvalue t.2) d →
  validate_runtime_controls s (JObj d) = Ok tt →
  Forall (fun t => control_ok t.2) d ∧ validate_runtime_controls s (JObj (images d)) = Ok tt.
Proof.
  intros Hnd Hpy. unfold validate_runtime_controls, no_controls, cfl_controls, grid_controls.
  destruct (controls_of (JObj d)) as [d'|] eqn:Ec; [|discriminate].
  apply controls_of_images in Ec as [-> Ei]. rewrite Ei. cbn [mbind res_bind].
  rewrite !dkeys_images, !dget_images.
  assert (Hpy' : Forall (fun t => pyvalue t.2) d).
  { eapply Forall_impl; [exact Hpy|]. intros [k v]. by destruct v. }
  assert (Hempty : ∀ d : list (string * json),
            require (match d with [] => true | _ => false end) ValueError = Ok tt → d = [])
    by (by intros []).
  destruct s as [dt|cfl m|p|g].
  - intros ->%Hempty. by split.
  - intros H. destruct (forallb _ (dkeys d)); [|discriminate H]. cbn [require mbind res_bind] in *.
    destruct (map_res _ d) as [fs|] eqn:Ef; [|discriminate H].
    destruct (positive_floats_num d fs Hpy' Ef) as [Hok Hfs]. rewrite Hfs. split; [done|].
    cbn [mbind res_bind] in *.
    assert (Hget : ∀ k v, dget k d = Some v → to_float (image v) = to_float v).
    { intros k v Hv%dget_Some_elem. rewrite Forall_forall in Hok. specialize (Hok _ Hv). cbn in Hok.
      destruct v as [| | | | |l|]; try done; destruct Hok as (f & Hf & _); unfold image, image1; by rewrite Hf. }
    destruct (dget "dt_min" d) as [lo|] eqn:E1; [|done]. destruct (dget "dt_max" d) as [hi|] eqn:E2; [|done].
    cbn [fmap option_fmap option_map]. by rewrite (Hget _ _ E1), (Hget _ _ E2).
  - intros ->%Hempty. by split.
  - intros H. destruct (same_keys (dkeys d) [g]) eqn:Ek; [|discriminate H]. cbn [require mbind res_bind] in *.
    destruct (dget g d) as [[| | | | |l|]|] eqn:Eg; try discriminate H.
    destruct (2 <=? length l)%nat eqn:E2; [|discriminate H]. cbn [require mbind res_bind] in *.
    destruct (forallb is_numeric l); [|discriminate H]. cbn [require mbind res_bind] in *.
    destruct (grid_values l) as [fs|] eqn:Ef; [|discriminate H]. cbn [require mbind res_bind] in *.
    destruct (forallb is_finite fs) eqn:Efin; [|discriminate H]. cbn [require mbind res_bind] in *.
    assert (Hl : Forall pyvalue l).
    { apply dget_Some_elem in Eg. rewrite Forall_forall in Hpy. apply (Hpy _ Eg). }
    destruct (grid_num l fs Hl Ef Efin) as [Hok Hfs]. split.
    + apply Forall_forall. intros [k v] Hkv. cbn.
      assert (k = g) as ->.
      { apply list_elem_of_singleton. apply (proj1 (same_keys_spec _ _) Ek).
        unfold dkeys. apply list_elem_of_In, in_map_iff. exists (k, v). by rewrite <- list_elem_of_In. }
      apply dget_elem in Hkv; [|done]. rewrite Eg in Hkv. injection Hkv as <-. exact Hok.
    + rewrite dget_images, Eg. change (image <$> Some (JList l)) with (Some (JList (map image1 l))). cbv iota.
      rewrite length_map, E2. cbn [require mbind res_bind].
      assert (Hnum : forallb is_numeric (map image1 l) = true).
      { rewrite forallb_forall. intros w (v & <- & Hv)%in_map_iff. rewrite Forall_forall in Hok.
        apply list_elem_of_In in Hv. destruct (Hok v Hv) as (f & Hf & _). unfold image1. by rewrite Hf. }
      rewrite Hnum, Hfs. cbn [require mbind res_bind]. rewrite Efin. done.
Qed.

(** ** Canonical manifests *)

Lemma scalar_data_plain f c : scalar_data f = Ok c → plain c = true.
Proof. unfold scalar_data. intros H. destruct (is_finite f); [|discriminate H]. by injection H as <-. Qed.

Lemma control_data_plain v c : control_data v = Ok c → plain c = true.
Proof.
  assert (Hs : ∀ w, (f ← to_float w; scalar_data f) = Ok c → plain c = true).
  { intros w H. inv_ok. by eapply scalar_data_plain. }
  destruct v as [| | | | |l|]; cbn [control_data]; try apply Hs.
  intros H. destruct (map_res _ l) as [cs|] eqn:E; [|discriminate H]. injection H as <-. cbn [plain].
  clear Hs. revert cs E. induction l as [|w l IH]; intros cs H; cbn in H; [by inv_ok|].
  destruct (f ← to_float w; scalar_data f) as [c1|] eqn:E1; [|discriminate H]. cbn [mbind res_bind] in H.
  destruct (map_res _ l) as [cs'|] eqn:E2; [|discriminate H]. injection H as <-.
  cbn. rewrite IH by done. assert (plain c1 = true) as ->; [|done].
  destruct (to_float w); [|discriminate E1]. by eapply scalar_data_plain.
Qed.

Lemma controls_data_plain d c :
  NoDup (dkeys d) → runtime_controls_data d = Ok c → plain (JObj c) = true.
Proof.
  intros Hnd H. enough (dkeys c = dkeys d ∧ forallb (fun '(_, v) => plain v) c = true) as [Hk Hp].
  { cbn [plain]. by rewrite Hk, Hp, bool_decide_true. }
  clear Hnd. revert c H. unfold runtime_controls_data. induction d as [|[k v] d IH]; intros c H; cbn in H; [by inv_ok|].
  destruct (control_data v) as [cv|] eqn:E1; [|discriminate H]. cbn [mbind res_bind] in H.
  destruct (map_res _ d) as [cs|] eqn:E2; [|discriminate H]. injection H as <-.
  destruct (IH cs eq_refl) as [Hk Hp]. cbn. rewrite (control_data_plain _ _ E1), Hp.
  split; [f_equal; exact Hk | done].
Qed.

Lemma to_data_plain s d : to_data s = Ok d → plain d = true.
Proof.
  unfold to_data, fixed_dt_data, adaptive_cfl_data, error_controlled_data, external_grid_data. intros H. destruct s as [dt|cfl [m|]|p|g]; inv_ok;
    repeat match goal with E : scalar_data _ = Ok _ |- _ => apply scalar_data_plain in E end;
    cbn [plain forallb]; rewrite ?andb_true_iff, ?bool_decide_eq_true; repeat split; try done;
    vm_compute; repeat constructor; set_solver.
Qed.

(** The controls a run is called with: nothing, or a mapping of Python values. *)
Definition control_mapping (controls : json) : option (list (string * json)) :=
  match controls with JNull => Some [] | JObj d => Some d | _ => None end.

Lemma validate_null s : validate_runtime_controls s JNull = Ok tt → validate_runtime_controls s (JObj []) = Ok tt.
Proof. done. Qed.

Lemma payload_accepted s controls d m :
  well_formed s → control_mapping controls = Some d → NoDup (dkeys d) →
  Forall (fun t => control_pyvalue t.2) d →
  run_control_payload s controls = Ok m → validate_step_strategy_manifest m = Ok (s, m).
Proof.
  intros Hw Hd Hnd Hpy Hm. unfold run_control_payload in Hm.
  destruct (validate_runtime_controls s controls) as [[]|] eqn:Ev; [|discriminate Hm].
  assert (Ev' : validate_runtime_controls s (JObj d) = Ok tt).
  { destruct controls; try discriminate Hd; injection Hd as <-; [by apply validate_null | done]. }
  destruct (validate_images s d Hnd Hpy Ev') as [Hok Hvi].
  destruct (controls_roundtrip d Hok) as (c & H1 & H2 & H3 & _).
  destruct (to_data_total s Hw) as [sd Hsd]. rewrite Hsd in Hm. cbn [mbind res_bind] in Hm.
  assert (Hc : runtime_controls_data (match controls with JObj d => d | _ => [] end) = Ok c).
  { destruct controls; try discriminate Hd; injection Hd as <-; exact H1. }
  rewrite Hc in Hm. cbn [mbind res_bind] in Hm. injection Hm as <-.
  destruct (from_to_data s sd Hw Hsd) as [Hfrom Hkind].
  unfold validate_step_strategy_manifest. dsimp. rewrite Hkind, Hfrom. dsimp.
  rewrite H2. cbn [mbind res_bind]. rewrite Hvi. cbn [mbind res_bind]. rewrite Hsd. cbn [mbind res_bind].
  rewrite H3. cbn [mbind res_bind]. rewrite json_eq_refl; [done|].
  change (plain _) with (bool_decide (NoDup ["strategy"; "controls"]%string)
                         && (plain (JObj sd) && (plain (JObj c) && true))).
  by rewrite (to_data_plain s _ Hsd), (controls_data_plain _ _ Hnd H1).
Qed.

(** Whatever a run writes is accepted at restart: the payload of a
    well-formed strategy and accepted runtime controls is read back as the same
    strategy, through every check, and is its own canonical form. *)
Theorem control_payload_roundtrip s controls d m :
  well_formed s → control_mapping controls = Some d → NoDup (dkeys d) →
  Forall (fun t => control_pyvalue t.2) d →
  run_control_payload s controls = Ok m → validate_step_strategy_manifest m = Ok (s, m).
Proof. apply payload_accepted. Qed.

Definition tenth : float := SpecFloat.SFdiv 53 1024 (float_of_Z 1) (float_of_Z 10).

Lemma control_payload_roundtrip_witness :
  let controls := JObj [("dt_min", JFloat tenth); ("dt_max", JInt 2)] in
  ∃ m, run_control_payload (AdaptiveCFL tenth None) controls = Ok m
    ∧ validate_step_strategy_manifest m = Ok (AdaptiveCFL tenth None, m).
Proof.
  intros controls. eexists. split; [vm_compute; reflexivity|].
  apply (control_payload_roundtrip (AdaptiveCFL tenth None) controls
           [("dt_min", JFloat tenth); ("dt_max", JInt 2)]%string).
  - cbn. split; [|done]. split; [split|]; vm_compute; reflexivity.
  - reflexivity.
  - cbn. repeat constructor; set_solver.
  - repeat constructor; vm_compute; reflexivity.
  - vm_compute. reflexivity.
Defined.

Lemma binary64_pyvalue v f : binary64 v = Ok f → pyvalue (JFloat f).
Proof. by intros [[? _] _]%binary64_ok. Qed.

Lemma binary64_item_pyvalue d k f : binary64_item d k = Ok f → pyvalue (JFloat f).
Proof. unfold binary64_item. intros H. inv_ok. by eapply binary64_pyvalue. Qed.

Lemma from_data_well_formed kind d s : from_data kind d = Ok s → well_formed s.
Proof.
  unfold from_data. intros H.
  repeat match type of H with (if ?b then _ else _) = _ => destruct b; [|] end; [..|discriminate H].
  - unfold fixed_dt_from_data, mk_fixed_dt in H. inv_ok.
    eapply positive_float_ok; [|eassumption]. by eapply binary64_item_pyvalue.
  - unfold adaptive_cfl_from_data, mk_adaptive_cfl in H. inv_ok.
    match goal with E : binary64_item _ _ = Ok _ |- _ => apply binary64_item_pyvalue in E end.
    match goal with E : positive_float (JFloat _) = Ok _ |- _ => apply positive_float_ok in E; [|done] end.
    match goal with E : match dget _ d with Some _ => _ | None => _ end = Ok _ |- _ =>
      destruct (dget _ d) as [v|]; inv_ok end; [|by cbn].
    match goal with E : binary64 v = Ok _ |- _ => apply binary64_pyvalue in E end.
    split; [done|]. by eapply positive_float_ok.
  - unfold error_controlled_from_data in H. inv_ok. eapply mk_error_ok; [|eassumption].
    repeat constructor; by eapply binary64_item_pyvalue.
  - unfold external_grid_from_data, mk_external_grid in H. inv_ok.
    match goal with E : match ?v with JStr _ => _ | _ => _ end = Ok _ |- _ =>
      destruct v as [| | | |g| |]; try discriminate E end. inv_ok.
    cbn. intros ->. done.
Qed.

Lemma manifest_is_a_run m s c :
  validate_step_strategy_manifest m = Ok (s, c) →
  well_formed s ∧ json_eq c m = true
  ∧ ∃ controls, validate_runtime_controls s (JObj controls) = Ok tt
      ∧ run_control_payload s (JObj controls) = Ok c
      ∧ ∃ row payload, m = JObj row ∧ dget "controls" row = Some payload
          ∧ restore_runtime_controls payload = Ok controls.
Proof.
  intros H. destruct m as [| | | | | |m]; try discriminate H. unfold validate_step_strategy_manifest in H.
  destruct (same_keys (dkeys m) _); [|discriminate H]. cbn [require mbind res_bind] in H.
  destruct (item m "strategy") as [[| | | | | |d]|]; try discriminate H. cbn [mbind res_bind] in H.
  destruct (dget "kind" d) as [[| | | |kind| |]|]; try discriminate H.
  destruct (from_data kind d) as [s'|] eqn:Ef; [|discriminate H]. cbn [mbind res_bind] in H.
  destruct (item m "controls") as [payload|] eqn:Ei; [|discriminate H]. cbn [mbind res_bind] in H.
  destruct (restore_runtime_controls payload) as [controls|] eqn:Er; [|discriminate H]. cbn [mbind res_bind] in H.
  destruct (validate_runtime_controls s' (JObj controls)) as [[]|] eqn:Ev; [|discriminate H].
  cbn [mbind res_bind] in H.
  destruct (to_data s') as [data|] eqn:Ed; [|discriminate H]. cbn [mbind res_bind] in H.
  destruct (runtime_controls_data controls) as [cd|] eqn:Ec; [|discriminate H]. cbn [mbind res_bind] in H.
  destruct (json_eq _ _) eqn:Ej in H; [|discriminate H]. cbn [require mbind res_bind] in H. injection H as -> <-.
  split; [by eapply from_data_well_formed|]. split; [exact Ej|].
  exists controls. apply item_ok in Ei.
  split_and!; [done | | by exists m, payload].
  unfold run_control_payload. rewrite Ev, Ed. cbn [mbind res_bind]. by rewrite Ec.
Qed.

Lemma restored_controls payload controls :
  restore_runtime_controls payload = Ok controls →
  ∃ d, payload = JObj d ∧ dkeys controls = dkeys d ∧ Forall (fun t => control_pyvalue t.2) controls.
Proof.
  intros H. destruct payload as [| | | | | |d]; try discriminate H. exists d. split; [done|].
  unfold restore_runtime_controls in H. revert controls H.
  induction d as [|[k v] d IH]; intros controls H; cbn [map_res] in H; [by inv_ok|].
  destruct (restore_control v) as [r|] eqn:Er; [|discriminate H]. cbn [mbind res_bind] in H.
  destruct (map_res _ d) as [rs|] eqn:Em; [|discriminate H]. injection H as <-.
  destruct (IH rs eq_refl) as [Hk Hp]. split; [cbn; f_equal; exact Hk|]. constructor; [|done]. cbn.
  assert (Hs : ∀ w, JFloat <$> binary64 w = Ok r → control_pyvalue r).
  { intros w Hw. inv_ok. by eapply binary64_pyvalue. }
  destruct v as [| | | | |l|]; unfold restore_control in Er; try by apply (Hs _ Er).
  destruct (map_res _ l) as [fs|] eqn:El; [|discriminate Er]. injection Er as <-. cbn. clear -El.
  revert fs El. induction l as [|w l IH]; intros fs H; cbn [map_res] in H; [by inv_ok|].
  destruct (binary64 w) as [f|] eqn:Ef; [|discriminate H]. cbn [fmap res_fmap mbind res_bind] in H.
  destruct (map_res _ l) as [fs'|] eqn:Em; [|discriminate H]. injection H as <-.
  constructor; [by eapply binary64_pyvalue | by apply IH].
Qed.

(** The mapping under ["controls"] has unique keys, as a Python [dict] does. *)
Definition unique_controls (m : json) : Prop :=
  ∀ row d, m = JObj row → dget "controls" row = Some (JObj d) → NoDup (dkeys d).

(** The canonical form is accepted and is its own canonical form. *)
Lemma canonical_idempotent m s c :
  unique_controls m → validate_step_strategy_manifest m = Ok (s, c) →
  validate_step_strategy_manifest c = Ok (s, c).
Proof.
  intros Hu H. apply manifest_is_a_run in H
    as (Hw & _ & controls & _ & Hrun & row & payload & -> & Hget & Hres).
  apply restored_controls in Hres as (d & -> & Hk & Hpy).
  apply (payload_accepted s (JObj controls) controls c Hw); [done | | done | done].
  rewrite Hk. by apply (Hu row d).
Qed.

(** Restart accepts nothing else: an accepted manifest gives a well-formed
    strategy (finite positive parameters, [dt_min <= dt_init <= dt_max],
    [shrink < 1 <= growth]) and controls the strategy accepts, and its canonical
    form is exactly what a run of that strategy with those controls writes. *)
Theorem accepted_manifest_is_a_run m s c :
  validate_step_strategy_manifest m = Ok (s, c) →
  well_formed s ∧ json_eq c m = true
  ∧ ∃ controls, validate_runtime_controls s (JObj controls) = Ok tt
      ∧ run_control_payload s (JObj controls) = Ok c.
Proof.
  intros (Hw & Hj & controls & Hv & Hr & _)%manifest_is_a_run. eauto.
Qed.

Lemma accepted_manifest_is_a_run_witness :
  ∃ m, run_control_payload (FixedDt tenth) JNull = Ok m ∧ well_formed (FixedDt tenth) ∧ json_eq m m = true.
Proof.
  eexists. split; [vm_compute; reflexivity|].
  edestruct accepted_manifest_is_a_run as (H1 & H2 & _); [|split; [exact H1 | exact H2]].
  vm_compute. reflexivity.
Defined.
