(* ===== verification/StepTransaction.v ===== *)
(** * Step transactions: actions, plans and reports

    [python/pops/time/_step/transaction.py] and the actions of
    [time/solve_outcome.py]: what a macro step stages, what its guards do, and
    the report of one complete transaction.  Constructors return [Err] where the
    source raises. *)
From S2P Require Import Prelude StepStrategy.

(** ** Solve actions *)

Definition SOLVE_STATUSES : list string :=
  ["singular"; "breakdown"; "iteration_limit"; "invalid_evaluation"; "capability_failure"; "invalid_input";
   "incompatible_rhs"; "inadmissible_candidate"; "safeguard_failure"].

(** [s.strip() == s], on the ASCII whitespace. *)
Definition is_space (c : ascii) : bool :=
  let n := nat_of_ascii c in ((9 <=? n) && (n <=? 13) || (28 <=? n) && (n <=? 32))%nat.
Definition trimmed (s : string) : bool :=
  match list_ascii_of_string s with
  | [] => true
  | c :: l => negb (is_space c) && negb (is_space (List.last l c))
  end.

Definition nonempty_name (s : string) : bool := negb (String.eqb s EmptyString).
Definition no_duplicates (l : list string) : bool := bool_decide (NoDup l).

(** [residual_name] and [residual_names(values, where, nonempty=...)] *)
Definition residual_name (s : string) : res string :=
  _ ← require (nonempty_name s && trimmed s) ValueError; Ok s.
Definition residual_names (values : list string) (nonempty : bool) : res (list string) :=
  result ← map_res residual_name values;
  _ ← require (negb (nonempty && bool_decide (result = []))) ValueError;
  _ ← require (no_duplicates result) ValueError;
  Ok result.

(** [_statuses] *)
Definition statuses_of (values : list string) : res (list string) :=
  statuses ← residual_names values true;
  _ ← require (forallb (fun s => bool_decide (s ∈ SOLVE_STATUSES)) statuses) ValueError;
  Ok statuses.

Inductive solve_action := FailRun (statuses : list string) | RejectAttempt (statuses : list string).
#[global] Instance solve_action_dec : EqDecision solve_action. Proof. solve_decision. Defined.

Definition mk_action (reject : bool) (statuses : list string) : res solve_action :=
  statuses ← statuses_of statuses; Ok (if reject then RejectAttempt statuses else FailRun statuses).

(** ** Plans *)

Inductive provisional_store :=
| STATES | FIELDS | TOPOLOGY | FLUX_LEDGERS | CACHES | SOLVER_WARM_STARTS | HISTORIES | CLOCKS | SCHEDULES
| CONSUMERS | DIAGNOSTICS | EXTERNAL_EFFECTS.
#[global] Instance provisional_store_dec : EqDecision provisional_store. Proof. solve_decision. Defined.

Definition store_value (s : provisional_store) : string :=
  match s with
  | STATES => "states" | FIELDS => "fields" | TOPOLOGY => "topology" | FLUX_LEDGERS => "flux_ledgers"
  | CACHES => "caches" | SOLVER_WARM_STARTS => "solver_warm_starts" | HISTORIES => "histories"
  | CLOCKS => "clocks" | SCHEDULES => "schedules" | CONSUMERS => "consumers" | DIAGNOSTICS => "diagnostics"
  | EXTERNAL_EFFECTS => "external_effects"
  end.

Definition ALL_PROVISIONAL_STORES : list provisional_store :=
  [STATES; FIELDS; TOPOLOGY; FLUX_LEDGERS; CACHES; SOLVER_WARM_STARTS; HISTORIES; CLOCKS; SCHEDULES; CONSUMERS;
   DIAGNOSTICS; EXTERNAL_EFFECTS].

Inductive guard_role := INVARIANT | ERROR_ESTIMATE.

(** A guard's action: a solve action, or [ProjectAndRecheck(BlockProjection(),
    on_failure)]. *)
Inductive guard_action := Terminal (a : solve_action) | ProjectAndRecheck (on_failure : solve_action).

Record acceptance_guard := AcceptanceGuard { ag_name : string; ag_role : guard_role; ag_action : guard_action }.

Definition mk_guard (name : string) (role : guard_role) (action : guard_action) : res acceptance_guard :=
  _ ← require (nonempty_name name) ValueError; Ok (AcceptanceGuard name role action).

Definition is_projecting (g : acceptance_guard) : bool :=
  match ag_action g with ProjectAndRecheck _ => true | Terminal _ => false end.

Record plan := Plan { pl_strategy : strategy; pl_stores : list provisional_store; pl_guards : list acceptance_guard }.

(** [StepTransactionPlan.__post_init__] *)
Definition mk_plan (s : strategy) (stores : list provisional_store) (guards : list acceptance_guard) : res plan :=
  _ ← require (negb (bool_decide (stores = []))) TypeError;
  _ ← require (bool_decide (NoDup stores)) ValueError;
  _ ← require (no_duplicates (map ag_name guards)) ValueError;
  Ok (Plan s stores guards).

(** [_stores(engine)] and the guards [_projections] may report *)
Definition stores_of (p : option plan) : list string :=
  match p with Some p => map store_value (pl_stores p) | None => [] end.
Definition declared_projections (p : option plan) : list string :=
  match p with Some p => map ag_name (List.filter is_projecting (pl_guards p)) | None => [] end.

(** [_projections(engine)]; [executed] is what the native report protocol
    returned, [None] when the engine has no such protocol. *)
Definition projections_of (p : option plan) (executed : option (list string)) : res (list string) :=
  let declared := declared_projections p in
  match executed with
  | None => _ ← require (bool_decide (declared = [])) TypeError; Ok []
  | Some executed =>
      _ ← require (forallb nonempty_name executed) TypeError;
      _ ← require (no_duplicates executed) ValueError;
      _ ← require (forallb (fun name => bool_decide (name ∈ declared)) executed) RuntimeError;
      Ok (List.filter (fun name => bool_decide (name ∈ executed)) declared)
  end.

(** ** Reports *)

Inductive report_status := ReportAccepted | ReportRejected | ReportFailed.
#[global] Instance report_status_dec : EqDecision report_status. Proof. solve_decision. Defined.

Definition PHASES : list string := ["prepare"; "stage"; "solve"; "synchronize"; "guard"; "effect"; "commit"].

Record report := Report {
  rp_status : report_status;
  rp_phase : string;
  rp_action : string;
  rp_attempts : Z;
  rp_staged : list string;
  rp_committed : list string;
  rp_rolled_back : list string;
  rp_diagnostics : list string;
  rp_projections : list string }.

Definition same_names (a b : list string) : bool :=
  forallb (fun x => bool_decide (x ∈ b)) a && forallb (fun x => bool_decide (x ∈ a)) b.

Definition names_ok (l : list string) : res unit :=
  _ ← require (forallb nonempty_name l) ValueError; require (no_duplicates l) ValueError.

(** [StepTransactionReport.__post_init__] *)
Definition mk_report (r : report) : res report :=
  let accepted := bool_decide (rp_status r = ReportAccepted) in
  _ ← require (bool_decide (rp_phase r ∈ PHASES)) ValueError;
  _ ← require (0 <? rp_attempts r) ValueError;
  _ ← require (negb (accepted && negb (bool_decide (rp_rolled_back r = [])))) ValueError;
  _ ← require (negb (negb accepted && negb (bool_decide (rp_committed r = [])))) ValueError;
  _ ← names_ok (rp_staged r);
  _ ← names_ok (rp_committed r);
  _ ← names_ok (rp_rolled_back r);
  _ ← require (negb (accepted && negb (same_names (rp_committed r) (rp_staged r)))) ValueError;
  _ ← require (negb (negb accepted && negb (same_names (rp_rolled_back r) (rp_staged r)))) ValueError;
  _ ← names_ok (rp_projections r);
  Ok r.

(** ** Reports of a planned step are always well formed *)

Lemma same_names_refl l : same_names l l = true.
Proof.
  unfold same_names. assert (forallb (λ x, bool_decide (x ∈ l)) l = true) as ->; [|done].
  apply forallb_forall. intros x Hx. by apply bool_decide_eq_true, list_elem_of_In.
Qed.

Lemma store_value_inj a b : store_value a = store_value b → a = b.
Proof. by destruct a, b. Qed.

(** What the constructors of a plan and of its guards check. *)
Definition plan_ok (p : option plan) : Prop :=
  match p with
  | None => True
  | Some p => NoDup (pl_stores p) ∧ NoDup (map ag_name (pl_guards p))
              ∧ Forall (λ g, nonempty_name (ag_name g) = true) (pl_guards p)
  end.

Lemma stores_of_ok p : plan_ok p → names_ok (stores_of p) = Ok tt.
Proof.
  destruct p as [p|]; [|done]. intros [Hd _]. unfold names_ok, stores_of, no_duplicates.
  assert (forallb nonempty_name (map store_value (pl_stores p)) = true) as ->.
  { apply forallb_forall. intros x [s' [<- _]]%in_map_iff. by destruct s'. }
  cbn [require mbind res_bind]. rewrite bool_decide_true; [done|].
  apply NoDup_fmap_2; [intros ? ?; apply store_value_inj | done].
Qed.

Lemma NoDup_list_filter {A} (f : A → bool) l : NoDup l → NoDup (List.filter f l).
Proof.
  induction 1 as [|x l Hx _ IH]; [constructor|]. cbn. destruct (f x); [|done]. constructor; [|done].
  intros H. apply Hx. apply list_elem_of_In. apply list_elem_of_In, filter_In in H. tauto.
Qed.

Lemma projections_of_ok p executed names :
  plan_ok p → projections_of p executed = Ok names → names_ok names = Ok tt.
Proof.
  intros Hp H.
  assert (Hne : ∀ g, g ∈ default [] (pl_guards <$> p) → nonempty_name (ag_name g) = true).
  { destruct p as [p|]; [|by intros g Hg%not_elem_of_nil]. intros g Hg. destruct Hp as (_ & _ & Hp). rewrite Forall_forall in Hp. by apply Hp. }
  assert (Hnd : ∀ p', p = Some p' → NoDup (map ag_name (pl_guards p'))) by (by intros p' ->; apply Hp). unfold projections_of in H. destruct executed as [executed|]; inv_ok; [|done].
  assert (Hd : forallb nonempty_name (declared_projections p) = true ∧ NoDup (declared_projections p)).
  { unfold declared_projections. destruct p as [p|]; [|split; [done | constructor]].
    split.
    - apply forallb_forall. intros x [g [<- [Hg _]%filter_In]]%in_map_iff. by apply Hne, list_elem_of_In.
    - specialize (Hnd p eq_refl). clear -Hnd. induction (pl_guards p) as [|g l IH]; [constructor|].
      cbn in *. apply NoDup_cons in Hnd as [Hg Hnd]. destruct (is_projecting g); [|by apply IH]. cbn.
      constructor; [|by apply IH]. intros H. apply Hg. apply list_elem_of_In, in_map_iff in H as (g' & <- & Hf).
      apply filter_In in Hf as [Hin _]. by apply list_elem_of_In, in_map. }
  destruct Hd as [Hn Hd]. unfold names_ok, no_duplicates.
  assert (forallb nonempty_name (List.filter (λ name, bool_decide (name ∈ executed)) (declared_projections p)) = true) as ->.
  { apply forallb_forall. intros x [Hx _]%filter_In. rewrite forallb_forall in Hn. by apply Hn. }
  cbn [require mbind res_bind]. rewrite bool_decide_true; [done|]. by apply NoDup_list_filter.
Qed.

Lemma mk_plan_ok s stores guards p :
  Forall (λ g, nonempty_name (ag_name g) = true) guards → mk_plan s stores guards = Ok p → plan_ok (Some p).
Proof. unfold mk_plan, no_duplicates. intros Hg H. inv_ok. by bools. Qed.

(** The report of an accepted step always passes its own checks. *)
Lemma accepted_report_ok p executed names attempts :
  plan_ok p → projections_of p executed = Ok names → 0 < attempts →
  let r := Report ReportAccepted "commit" "commit" attempts (stores_of p) (stores_of p) [] [] names in
  mk_report r = Ok r.
Proof.
  intros Hp Hn Ha r. pose proof (projections_of_ok p executed names Hp Hn) as Hnames.
  pose proof (stores_of_ok p Hp) as Hs. unfold mk_report, r.
  cbn [rp_status rp_phase rp_attempts rp_rolled_back rp_committed rp_staged rp_projections].
  rewrite (proj2 (Z.ltb_lt _ _)), Hs, Hnames, same_names_refl by done.
  repeat (rewrite bool_decide_true by (done || (vm_compute; repeat (constructor || right)))). done.
Qed.
