(* ===== verification/Temporal.v ===== *)
(** * The temporal restart envelope

    [python/pops/runtime/_temporal_restart.py]: the clock schedule of a program,
    the accepted-boundary cursors derived from it, the controller state and the
    queued proposal, and the state machine that commits them attempt by attempt
    and restores them from a checkpoint.

    Manifest rows are records of their decoded fields; a time is the float its
    canonical hexadecimal text denotes ([HexFloat.hex_inj]). *)
From S2P Require Import Prelude Binary64 FloatValid HexFloat Manifest StepStrategy.

(** ** The program schedule *)

(** [ck_descriptor] is the canonical text of the clock descriptor, and
    [ck_identity] the qualified identity of the clock it decodes to
    ([_clock_identity]). *)
Record clock_row := ClockRow {
  ck_id : string; ck_descriptor : string; ck_identity : string; ck_ticks : Z }.
Record subcycle_row := SubcycleRow { sc_node : Z; sc_parent : string; sc_child : string; sc_count : Z }.

(** The history contract of a [typed_history] provider, as canonical texts and
    the parts its validation reads: the kinds of its state and space, the owner
    of its clock, the clocks of its validity interval and the kind of its
    interpolation. *)
Record provider_contract := ProviderContract {
  pc_owner : string; pc_state : string; pc_state_kind : string; pc_space : string; pc_space_kind : string;
  pc_clock : string; pc_clock_owner : string; pc_validity : string; pc_oldest_clock : string;
  pc_newest_clock : string; pc_interpolation : string; pc_interpolation_kind : option string; pc_depth : Z }.

(** A synchronization relation: its kind, its provider's kind and contract, and
    its interpolation. *)
Record sync_relation := SyncRelation {
  rl_kind : string; rl_provider : string; rl_contract : option provider_contract; rl_interpolation : string }.

Record sync_row := SyncRow { sy_node : Z; sy_source : string; sy_target : string; sy_relation : sync_relation }.
(** [sd_clock] is the identity of the clock in the domain of the typed schedule
    ([_schedule_clock_identity]). *)
Record schedule_row := ScheduleRow { sd_node : Z; sd_clock : string; sd_cache : bool }.
Record history_row := HistoryRow {
  hr_name : string; hr_clock : string; hr_depth : Z; hr_slots : Z; hr_ncomp : option Z;
  hr_state : string; hr_space : string; hr_validity : string; hr_interpolation : string }.

(** [ps_rest]: the canonical text of the descriptive fields the validation only
    checks for shape (owners, points, domains, checkpoint policies). *)
Record schedule := Schedule {
  ps_primary : string;
  ps_clocks : list clock_row;
  ps_subcycles : list subcycle_row;
  ps_syncs : list sync_row;
  ps_schedules : list schedule_row;
  ps_histories : list history_row;
  ps_rest : string }.

#[global] Instance clock_row_dec : EqDecision clock_row. Proof. solve_decision. Defined.
#[global] Instance subcycle_row_dec : EqDecision subcycle_row. Proof. solve_decision. Defined.
#[global] Instance provider_contract_dec : EqDecision provider_contract. Proof. solve_decision. Defined.
#[global] Instance sync_relation_dec : EqDecision sync_relation. Proof. solve_decision. Defined.
#[global] Instance sync_row_dec : EqDecision sync_row. Proof. solve_decision. Defined.
#[global] Instance schedule_row_dec : EqDecision schedule_row. Proof. solve_decision. Defined.
#[global] Instance history_row_dec : EqDecision history_row. Proof. solve_decision. Defined.
#[global] Instance schedule_dec : EqDecision schedule. Proof. solve_decision. Defined.

Definition node_id (z : Z) : res Z := _ ← require (0 <=? z) ValueError; Ok z.
Definition positive_count (z : Z) : res Z := _ ← require (0 <? z) ValueError; Ok z.

(** A node id or a name that must not repeat. *)
Definition fresh {A} `{EqDecision A} (seen : list A) (x : A) : res (list A) :=
  _ ← require (bool_decide (x ∉ seen)) ValueError; Ok (x :: seen).

Definition check_clock (clocks : list (string * Z)) (row : clock_row) : res (list (string * Z)) :=
  _ ← require (String.eqb (ck_id row) (ck_identity row)) ValueError;
  _ ← require (bool_decide (ck_id row ∉ dkeys clocks)) ValueError;
  ticks ← positive_count (ck_ticks row);
  Ok (dset (ck_id row) ticks clocks).

Definition check_subcycle (clocks : list (string * Z))
    (acc : list Z * list (string * (string * Z))) (row : subcycle_row)
    : res (list Z * list (string * (string * Z))) :=
  let '(nodes, relations) := acc in
  node ← node_id (sc_node row);
  nodes ← fresh nodes node;
  count ← positive_count (sc_count row);
  match dget (sc_parent row) clocks, dget (sc_child row) clocks with
  | Some parent_ticks, Some child_ticks =>
      _ ← require (negb (String.eqb (sc_parent row) (sc_child row))) ValueError;
      let relation := (sc_parent row, count) in
      _ ← require (match dget (sc_child row) relations with
                   | Some r => bool_decide (r = relation) | None => true end) ValueError;
      _ ← require (child_ticks =? parent_ticks * count) ValueError;
      Ok (nodes, dset (sc_child row) relation relations)
  | _, _ => Err ValueError
  end.

Definition check_sync (clocks : list (string * Z)) (nodes : list Z) (row : sync_row) : res (list Z) :=
  node ← node_id (sy_node row);
  nodes ← fresh nodes node;
  _ ← require (bool_decide (sy_source row ∈ dkeys clocks) && bool_decide (sy_target row ∈ dkeys clocks)
               && negb (String.eqb (sy_source row) (sy_target row))) ValueError;
  Ok nodes.

Definition check_schedule (clocks : list (string * Z)) (nodes : list Z) (row : schedule_row) : res (list Z) :=
  node ← node_id (sd_node row);
  nodes ← fresh nodes node;
  _ ← require (bool_decide (sd_clock row ∈ dkeys clocks)) ValueError;
  Ok nodes.

Definition check_history (clocks : list (string * Z)) (names : list string) (row : history_row)
    : res (list string) :=
  _ ← require (negb (String.eqb (hr_name row) EmptyString)) ValueError;
  names ← fresh names (hr_name row);
  _ ← require (bool_decide (hr_clock row ∈ dkeys clocks)) ValueError;
  depth ← positive_count (hr_depth row);
  _ ← require (hr_slots row =? depth + 1) ValueError;
  _ ← match hr_ncomp row with Some n => positive_count n | None => Ok 0 end;
  Ok names.

(** [_validate_history_contract_data] *)
Definition validate_history_contract_data (c : provider_contract) : res unit :=
  _ ← require (1 <=? pc_depth c) ValueError;
  _ ← require (String.eqb (pc_owner c) (pc_clock_owner c)) ValueError;
  _ ← require (String.eqb (pc_state_kind c) "state") ValueError;
  _ ← require (String.eqb (pc_space_kind c) "state") ValueError;
  _ ← require (String.eqb (pc_oldest_clock c) (pc_clock c)) ValueError;
  _ ← require (String.eqb (pc_newest_clock c) (pc_clock c)) ValueError;
  require (match pc_interpolation_kind c with
           | None => false | Some kind => negb (String.eqb kind "none") end) ValueError.

(** The retained history a contract speaks of. *)
Definition retains (c : provider_contract) (clock : string) (row : history_row) : bool :=
  String.eqb (hr_state row) (pc_state c) && String.eqb (hr_space row) (pc_space c)
  && (hr_depth row =? pc_depth c) && String.eqb (hr_validity row) (pc_validity c)
  && String.eqb (hr_interpolation row) (pc_interpolation c) && String.eqb (hr_clock row) clock.

(** [validate_synchronization_relation_data], at the descriptor and identity of
    the source clock and the retained histories. *)
Definition validate_relation (relation : sync_relation) (descriptor : option string) (clock : string)
    (histories : list history_row) : res unit :=
  _ ← require (negb (String.eqb (rl_kind relation) EmptyString)) TypeError;
  _ ← require (negb (String.eqb (rl_provider relation) EmptyString)) ValueError;
  if String.eqb (rl_kind relation) "history_interpolation" then
    _ ← require (String.eqb (rl_provider relation) "typed_history") ValueError;
    match rl_contract relation with
    | None => Err ValueError
    | Some contract =>
        _ ← validate_history_contract_data contract;
        _ ← require (String.eqb (rl_interpolation relation) (pc_interpolation contract)) ValueError;
        _ ← require (bool_decide (Some (pc_clock contract) = descriptor)) ValueError;
        require (Nat.eqb (length (List.filter (retains contract clock) histories)) 1) ValueError
    end
  else Ok tt.

(** The last loop of the validation. *)
Definition check_relation (data : schedule) (_ : unit) (row : sync_row) : res unit :=
  validate_relation (sy_relation row)
    (dget (sy_source row) (map (fun c => (ck_id c, ck_descriptor c)) (ps_clocks data)))
    (sy_source row) (ps_histories data).

(** [SampleAndHold.to_data()] *)
Definition SAMPLE_AND_HOLD : sync_relation :=
  SyncRelation "sample_and_hold" "latest_accepted_sample" None EmptyString.

(** [_validate_program_schedule] *)
Definition validate_program_schedule (data : schedule) : res schedule :=
  _ ← require (negb (String.eqb (ps_primary data) EmptyString)) ValueError;
  _ ← require (match ps_clocks data with [] => false | _ => true end) ValueError;
  clocks ← fold_res check_clock [] (ps_clocks data);
  _ ← require (bool_decide (dget (ps_primary data) clocks = Some 1)) ValueError;
  '(_, relations) ← fold_res (check_subcycle clocks) ([], []) (ps_subcycles data);
  _ ← require (same_keys (List.filter (fun c => negb (String.eqb c (ps_primary data))) (dkeys clocks))
                 (dkeys relations)) ValueError;
  _ ← fold_res (check_sync clocks) [] (ps_syncs data);
  _ ← fold_res (check_schedule clocks) [] (ps_schedules data);
  _ ← fold_res (check_history clocks) [] (ps_histories data);
  _ ← fold_res (check_relation data) tt (ps_syncs data);
  Ok data.

(** ** Accepted-boundary cursors *)

Record clock_cursor := ClockCursor { cc_time : float; cc_tick : Z; cc_phase : string }.
Record history_cursor := HistoryCursor {
  hc_clock : string; hc_newest : Z; hc_oldest : Z; hc_valid_lags : Z;
  hc_cold_extended : bool; hc_initialized : bool }.
Record cache_cursor := CacheCursor { ca_clock : string; ca_tick : Z; ca_initialized : bool }.

(** The keys [macro_step], [subcycle:n] and [schedule:n]. *)
Inductive cursor_key := KMacro | KSubcycle (node : Z) | KSchedule (node : Z).

(** A schedule cursor; [so_iteration] and [so_tick] are present on subcycles
    and schedules. *)
Record schedule_cursor := ScheduleCursor {
  so_macro : Z; so_iteration : option Z; so_tick : option Z }.
Record sync_cursor := SyncCursor { sn_macro : Z; sn_source_tick : Z; sn_target_tick : Z }.

Record cursors := Cursors {
  cu_clock : list (string * clock_cursor);
  cu_schedule : list (cursor_key * schedule_cursor);
  cu_sync : list (Z * sync_cursor);
  cu_history : list (string * history_cursor);
  cu_cache : list (Z * cache_cursor) }.

#[global] Instance clock_cursor_dec : EqDecision clock_cursor. Proof. solve_decision. Defined.
#[global] Instance history_cursor_dec : EqDecision history_cursor. Proof. solve_decision. Defined.
#[global] Instance cache_cursor_dec : EqDecision cache_cursor. Proof. solve_decision. Defined.
#[global] Instance cursor_key_dec : EqDecision cursor_key. Proof. solve_decision. Defined.
#[global] Instance schedule_cursor_dec : EqDecision schedule_cursor. Proof. solve_decision. Defined.
#[global] Instance sync_cursor_dec : EqDecision sync_cursor. Proof. solve_decision. Defined.
#[global] Instance cursors_dec : EqDecision cursors. Proof. solve_decision. Defined.

(** [clock_ticks]: the accepted tick of each clock; a validated schedule has
    every clock its rows name. *)
Definition clock_ticks (s : schedule) (macro_step : Z) : list (string * Z) :=
  map (fun row => (ck_id row, macro_step * ck_ticks row)) (ps_clocks s).

Definition tick (s : schedule) (macro_step : Z) (clock : string) : Z :=
  default 0 (dget clock (clock_ticks s macro_step)).

Definition history_cursor_of (s : schedule) (macro_step : Z) (row : history_row) : history_cursor :=
  let t := tick s macro_step (hr_clock row) in
  HistoryCursor (hr_clock row) t (Z.max 0 (t - hr_depth row))
    (if 0 <? macro_step then hr_depth row else 0)
    ((0 <? macro_step) && (t <? hr_depth row)) (0 <? macro_step).

(** [_boundary_cursors] *)
Definition boundary_cursors (program : option schedule) (time : float) (macro_step : Z) : cursors :=
  let macro := (KMacro, ScheduleCursor macro_step None None) in
  match program with
  | None => Cursors [] [macro] [] [] []
  | Some s =>
      Cursors
        (map (fun '(id, t) => (id, ClockCursor time t "accepted")) (clock_ticks s macro_step))
        (macro
         :: map (fun row => (KSubcycle (sc_node row), ScheduleCursor macro_step (Some 0) None)) (ps_subcycles s)
         ++ map (fun row => (KSchedule (sd_node row),
                             ScheduleCursor macro_step None (Some (tick s macro_step (sd_clock row)))))
              (ps_schedules s))
        (map (fun row => (sy_node row, SyncCursor macro_step (tick s macro_step (sy_source row))
                                         (tick s macro_step (sy_target row)))) (ps_syncs s))
        (map (fun row => (hr_name row, history_cursor_of s macro_step row)) (ps_histories s))
        (map (fun row => (sd_node row, CacheCursor (sd_clock row) (tick s macro_step (sd_clock row))
                                         (0 <? macro_step)))
           (List.filter sd_cache (ps_schedules s)))
  end.

(** ** Controller state and queued events *)

Record fixed_grid := FixedGrid { fg_origin : float; fg_steps : Z; fg_time : float; fg_macro : Z }.
Record controller := Controller { ct_last : option float; ct_grid : option fixed_grid }.

(** A queued event; its payload is the proposed [dt]. *)
Record event := Event { ev_kind : string; ev_time : float; ev_cursor : Z; ev_dt : float }.

#[global] Instance fixed_grid_dec : EqDecision fixed_grid. Proof. solve_decision. Defined.
#[global] Instance controller_dec : EqDecision controller. Proof. solve_decision. Defined.
#[global] Instance event_dec : EqDecision event. Proof. solve_decision. Defined.

Definition same_float (x y : float) : bool := bool_decide (x = y).

Definition ERROR_PROPOSAL_KIND : string := "error_controlled_dt.proposal".

(** [math.ulp], exactly. *)
Definition fulp (f : float) : Qc :=
  match f with
  | SpecFloat.S754_finite _ _ e => zpow 2 e
  | _ => zpow 2 (-1074)
  end.

(** Python's [min(a, b)] and [max(a, b)]. *)
Definition fmin (a b : float) : float := if fltb b a then b else a.
Definition qmax (a b : Qc) : Qc := if decide (a <= b)%Qc then b else a.
Definition qabs (a : Qc) : Qc := if decide (0 <= a)%Qc then a else (- a)%Qc.

(** [_validate_controller_state] *)
Definition validate_controller_state (c : controller) : res controller :=
  _ ← require (match ct_last c with
               | Some dt => is_finite dt && fltb fzero dt | None => true end) ValueError;
  _ ← match ct_grid c with
      | None => Ok tt
      | Some g =>
          _ ← require (is_finite (fg_origin g) && is_finite (fg_time g)) ValueError;
          _ ← require ((0 <=? fg_steps g) && (0 <=? fg_macro g)) ValueError;
          require ((fg_steps g <=? fg_macro g)
                   && Bool.eqb (fg_steps g =? 0) (same_float (fg_origin g) (fg_time g))
                   && negb (fltb (fg_time g) (fg_origin g))) ValueError
      end;
  Ok c.

(** [_validate_fixed_grid_clock] *)
Definition validate_fixed_grid_clock (g : fixed_grid) (s : strategy) (time : float) (macro_step : Z) : res unit :=
  match s with
  | FixedDt dt =>
      _ ← require (same_float (fg_time g) time && (fg_macro g =? macro_step)) ValueError;
      let count := qz (fg_steps g) in
      let expected := (float_value (fg_origin g) + count * float_value dt)%Qc in
      let bound := (count * qmax (fulp (fg_origin g)) (fulp time) / qz 2)%Qc in
      require (bool_decide (qabs (float_value time - expected) <= bound)%Qc) ValueError
  | _ => Err ValueError
  end.

(** [_validate_event_queue] *)
Definition validate_event (e : event) : res event :=
  _ ← require (negb (String.eqb (ev_kind e) EmptyString)) ValueError;
  _ ← require (is_finite (ev_time e)) ValueError;
  _ ← require (0 <=? ev_cursor e) ValueError;
  Ok e.

Definition validate_event_queue (events : list event) : res (list event) := map_res validate_event events.

(** [_event] *)
Definition mk_event (kind : string) (time : float) (cursor : Z) (dt : float) : res event :=
  _ ← require (is_finite time) ValueError;
  validate_event (Event kind time cursor dt).

(** [_validate_controller_events] *)
Definition validate_controller_events (events : list event) (s : strategy) (c : controller)
    (time : float) (macro_step : Z) : res unit :=
  _ ← require (negb ((macro_step =? 0) && bool_decide (is_Some (ct_last c)))) ValueError;
  _ ← require (negb ((0 <? macro_step) && bool_decide (ct_last c = None))) ValueError;
  _ ← match ct_grid c with
      | Some g => validate_fixed_grid_clock g s time macro_step | None => Ok tt end;
  match s with
  | ErrorControlledDt policy =>
      match events with
      | [proposal] =>
          _ ← require (String.eqb (ev_kind proposal) ERROR_PROPOSAL_KIND) ValueError;
          _ ← require (ev_cursor proposal =? macro_step + 1) ValueError;
          _ ← require (is_finite (ev_dt proposal) && fltb fzero (ev_dt proposal)) ValueError;
          _ ← require (same_float (ev_time proposal) (fadd time (ev_dt proposal))) ValueError;
          match ct_last c with
          | None =>
              _ ← require (macro_step =? 0) ValueError;
              require (same_float (ev_dt proposal) (dt_init policy)) ValueError
          | Some last =>
              require (same_float (ev_dt proposal) (fmin (dt_max policy) (fmul last (growth policy)))) ValueError
          end
      | _ => Err ValueError
      end
  | _ => require (match events with [] => true | _ => false end) ValueError
  end.

(** ** The state machine *)

Inductive status := Accepted | Rejected | Failed.
#[global] Instance status_dec : EqDecision status. Proof. solve_decision. Defined.

Record stats := Stats { sa_accepted : Z; sa_rejected : Z; sa_failed : Z }.

(** A bound strategy: the descriptor and its canonical manifest. *)
Record bound := Bound { bd_strategy : strategy; bd_manifest : json }.

Record state := State {
  st_strategy : option bound;
  st_program : option schedule;
  st_time : float;
  st_macro : Z;
  st_cursors : cursors;
  st_controller : controller;
  st_queue : list event;
  st_stats : stats;
  st_status : status;
  st_synchronized : bool;
  st_pending : bool }.

(** [TemporalRestartState()] *)
Definition initial : state :=
  State None None fzero 0 (boundary_cursors None fzero 0) (Controller None None) []
    (Stats 0 0 0) Accepted true false.

(** [_clock] *)
Definition clock_of (time : float) (macro_step : Z) : res unit :=
  _ ← require (is_finite time) ValueError;
  require (0 <=? macro_step) ValueError.

Definition require_live_clock (st : state) (time : float) (macro_step : Z) : res unit :=
  require (same_float time (st_time st) && (macro_step =? st_macro st)) RuntimeError.

Definition live (st : state) (time : float) (macro_step : Z) : res unit :=
  _ ← clock_of time macro_step; require_live_clock st time macro_step.

Definition same_strategy (a b : option bound) : bool :=
  match a, b with
  | None, None => true
  | Some a, Some b => json_eq (bd_manifest a) (bd_manifest b)
  | _, _ => false
  end.

(** [self.program_schedule = ...] and the other assignments. *)
Definition set_program (st : state) (p : option schedule) : state :=
  State (st_strategy st) p (st_time st) (st_macro st) (st_cursors st) (st_controller st) (st_queue st)
    (st_stats st) (st_status st) (st_synchronized st) (st_pending st).
Definition set_cursors (st : state) (c : cursors) : state :=
  State (st_strategy st) (st_program st) (st_time st) (st_macro st) c (st_controller st) (st_queue st)
    (st_stats st) (st_status st) (st_synchronized st) (st_pending st).
Definition set_queue (st : state) (q : list event) : state :=
  State (st_strategy st) (st_program st) (st_time st) (st_macro st) (st_cursors st) (st_controller st) q
    (st_stats st) (st_status st) (st_synchronized st) (st_pending st).
Definition set_strategy (st : state) (b : bound) (c : controller) : state :=
  State (Some b) (st_program st) (st_time st) (st_macro st) (st_cursors st) c (st_queue st)
    (st_stats st) (st_status st) (st_synchronized st) (st_pending st).

(** [configure_program]: the schedule is stored before a restored state is
    compared with it, so the state is returned with the outcome. *)
Definition configure_program (st : state) (program : schedule) (time : float) (macro_step : Z)
    : state * res unit :=
  match (_ ← live st time macro_step;
         candidate ← validate_program_schedule program;
         _ ← require (match st_program st with
                      | Some p => bool_decide (candidate = p) | None => true end) RuntimeError;
         Ok candidate) with
  | Err e => (st, Err e)
  | Ok candidate =>
      let st := set_program st (Some candidate) in
      let c := boundary_cursors (Some candidate) time macro_step in
      if st_pending st then
        (st, require (bool_decide (st_cursors st = c)) RuntimeError)
      else (set_cursors st c, Ok tt)
  end.

(** [queue_error_controlled_proposal] *)
Definition queue_proposal (st : state) (dt : float) (time : float) (macro_step : Z) (replace : bool)
    : res (state * event) :=
  _ ← live st time macro_step;
  _ ← require (is_finite dt && fltb fzero dt) ValueError;
  candidate ← mk_event ERROR_PROPOSAL_KIND (fadd time dt) (macro_step + 1) dt;
  match st_queue st with
  | [] =>
      _ ← require (negb replace) RuntimeError;
      Ok (set_queue st [candidate], candidate)
  | head :: rest =>
      if replace then Ok (set_queue st (candidate :: rest), candidate)
      else
        _ ← require (bool_decide (head = candidate)) RuntimeError;
        Ok (st, candidate)
  end.

(** [queued_error_controlled_proposal] *)
Definition queued_proposal (st : state) (time : float) (macro_step : Z) : res (event * float) :=
  _ ← live st time macro_step;
  match st_queue st with
  | [] => Err RuntimeError
  | e :: _ =>
      _ ← require (String.eqb (ev_kind e) ERROR_PROPOSAL_KIND && (ev_cursor e =? macro_step + 1)) RuntimeError;
      _ ← require (same_float (ev_time e) (fadd time (ev_dt e))) RuntimeError;
      Ok (e, ev_dt e)
  end.

(** [begin_run]; [prepared] is the schedule of a prepared-run payload. *)
Definition begin_run (st : state) (manifest : json) (prepared : option schedule) (time : float) (macro_step : Z)
    : state * res unit :=
  match (_ ← clock_of time macro_step;
         '(s, canonical) ← validate_step_strategy_manifest manifest;
         prepared ← match prepared with
                    | Some p => Some <$> validate_program_schedule p | None => Ok None end;
         _ ← require (bool_decide (prepared = st_program st) || bool_decide (prepared = None)) RuntimeError;
         _ ← require_live_clock st time macro_step;
         Ok (Bound s canonical)) with
  | Err e => (st, Err e)
  | Ok candidate =>
      let changed := negb (same_strategy (Some candidate) (st_strategy st)) in
      let st := match st_strategy st with
                | None => if st_pending st then st
                          else set_cursors st (boundary_cursors (st_program st) time macro_step)
                | Some _ => st
                end in
      if st_pending st then (st, require (negb changed) RuntimeError)
      else
        let c := st_controller st in
        let st := set_strategy st candidate (if changed then Controller (ct_last c) None else c) in
        match bd_strategy candidate with
        | ErrorControlledDt policy =>
            if (macro_step =? 0) && bool_decide (ct_last c = None)
               && match st_queue st with [] => true | _ => false end
            then match queue_proposal st (dt_init policy) time macro_step false with
                 | Ok (st, _) => (st, Ok tt) | Err e => (st, Err e) end
            else (st, Ok tt)
        | _ => (st, Ok tt)
        end
  end.

Definition before_attempt (st : state) (time : float) (macro_step : Z) : res unit := live st time macro_step.

Definition before_queued_attempt (st : state) (e : event) (time : float) (macro_step : Z) : res unit :=
  _ ← before_attempt st time macro_step;
  candidate ← validate_event e;
  require (match st_queue st with
           | head :: _ => bool_decide (candidate = head) | [] => false end) RuntimeError.

(** [accept]: every check precedes every assignment. *)
Definition accept (st : state) (before_time : float) (before_step : Z) (time : float) (macro_step : Z)
    (consumed : option event) (grid : option fixed_grid) : res state :=
  _ ← clock_of before_time before_step;
  _ ← clock_of time macro_step;
  _ ← require ((macro_step =? before_step + 1) && negb (fleb time before_time)) RuntimeError;
  controller ← validate_controller_state (Controller (Some (fsub time before_time)) grid);
  _ ← match grid with
      | None => Ok tt
      | Some g =>
          match st_strategy st with
          | Some (Bound (FixedDt dt) _) => validate_fixed_grid_clock g (FixedDt dt) time macro_step
          | _ => Err ValueError
          end
      end;
  queue ← match consumed with
          | None => Ok (st_queue st)
          | Some e =>
              candidate ← validate_event e;
              match st_queue st with
              | head :: rest =>
                  _ ← require (bool_decide (candidate = head)) RuntimeError;
                  _ ← require (same_float (ev_time candidate) time && (ev_cursor candidate =? macro_step))
                        RuntimeError;
                  Ok rest
              | [] => Err RuntimeError
              end
          end;
  let n := st_stats st in
  Ok (State (st_strategy st) (st_program st) time macro_step
        (boundary_cursors (st_program st) time macro_step) controller queue
        (Stats (sa_accepted n + 1) (sa_rejected n) (sa_failed n)) Accepted true false).

(** [_record_unsuccessful], [reject] and [fail] *)
Definition record_unsuccessful (st : state) (outcome : status) (time : float) (macro_step : Z) : res state :=
  _ ← live st time macro_step;
  let n := st_stats st in
  let n := match outcome with
           | Accepted => Stats (sa_accepted n + 1) (sa_rejected n) (sa_failed n)
           | Rejected => Stats (sa_accepted n) (sa_rejected n + 1) (sa_failed n)
           | Failed => Stats (sa_accepted n) (sa_rejected n) (sa_failed n + 1)
           end in
  Ok (State (st_strategy st) (st_program st) (st_time st) (st_macro st) (st_cursors st) (st_controller st)
        (st_queue st) n outcome false false).

Definition reject (st : state) := record_unsuccessful st Rejected.
Definition fail (st : state) := record_unsuccessful st Failed.

(** [cursor_for_clock] *)
Definition cursor_for_clock (st : state) (clock : string) : res clock_cursor :=
  _ ← require (bool_decide (st_status st = Accepted) && st_synchronized st) RuntimeError;
  match dget clock (cu_clock (st_cursors st)) with
  | None => Err RuntimeError
  | Some c =>
      _ ← require (String.eqb (cc_phase c) "accepted" && same_float (cc_time c) (st_time st)) RuntimeError;
      Ok c
  end.

(** ** Checkpoints *)

(** The data of [to_data]; [cp_strategy] is the strategy manifest. *)
Record checkpoint := Checkpoint {
  cp_strategy : json;
  cp_program : option schedule;
  cp_time : float;
  cp_macro : Z;
  cp_cursors : cursors;
  cp_controller : controller;
  cp_queue : list event;
  cp_stats : stats;
  cp_status : status;
  cp_synchronized : bool }.

Definition valid_stats (n : stats) : bool :=
  (0 <=? sa_accepted n) && (0 <=? sa_rejected n) && (0 <=? sa_failed n).

Definition validate_program (p : option schedule) : res (option schedule) :=
  match p with None => Ok None | Some p => Some <$> validate_program_schedule p end.

(** [checkpoint_json] *)
Definition checkpoint_json (st : state) (time : float) (macro_step : Z) : res checkpoint :=
  _ ← live st time macro_step;
  _ ← require (bool_decide (st_status st = Accepted) && st_synchronized st) RuntimeError;
  match st_strategy st with
  | None => Err RuntimeError
  | Some b =>
      _ ← validate_step_strategy_manifest (bd_manifest b);
      _ ← validate_program (st_program st);
      _ ← require (bool_decide (st_cursors st = boundary_cursors (st_program st) time macro_step)) RuntimeError;
      _ ← validate_controller_state (st_controller st);
      events ← validate_event_queue (st_queue st);
      _ ← validate_controller_events events (bd_strategy b) (st_controller st) time macro_step;
      _ ← require (valid_stats (st_stats st)) RuntimeError;
      Ok (Checkpoint (bd_manifest b) (st_program st) (st_time st) (st_macro st) (st_cursors st)
            (st_controller st) (st_queue st) (st_stats st) (st_status st) (st_synchronized st))
  end.

(** [from_json]; [installed] is the schedule of the installed program, when the
    caller names one. *)
Definition from_json (data : checkpoint) (time : float) (macro_step : Z)
    (installed : option (option schedule)) : res state :=
  '(s, canonical) ← validate_step_strategy_manifest (cp_strategy data);
  program ← validate_program (cp_program data);
  _ ← match installed with
      | None => Ok tt
      | Some p => p ← validate_program p; require (bool_decide (program = p)) ValueError
      end;
  _ ← clock_of time macro_step;
  _ ← require (same_float (cp_time data) time && (cp_macro data =? macro_step)) ValueError;
  _ ← require (bool_decide (cp_cursors data = boundary_cursors program time macro_step)) ValueError;
  _ ← require (valid_stats (cp_stats data)) ValueError;
  _ ← require (bool_decide (cp_status data = Accepted) && cp_synchronized data) ValueError;
  controller ← validate_controller_state (cp_controller data);
  events ← validate_event_queue (cp_queue data);
  _ ← validate_controller_events events s controller time macro_step;
  Ok (State (Some (Bound s canonical)) program time macro_step (cp_cursors data) controller events
        (cp_stats data) Accepted true true).

(** ** Attempts *)

(** The part of the state an attempt may not touch before it is accepted. *)
Definition accepted_part (st : state) :=
  (st_strategy st, st_program st, st_time st, st_macro st, st_cursors st, st_controller st, st_queue st).

Lemma live_ok st time macro_step u :
  live st time macro_step = Ok u →
  is_finite time = true ∧ 0 <= macro_step ∧ time = st_time st ∧ macro_step = st_macro st.
Proof.
  unfold live, clock_of, require_live_clock, same_float. intros H. inv_ok. by bools.
Qed.

Lemma live_intro st : is_finite (st_time st) = true → 0 <= st_macro st → live st (st_time st) (st_macro st) = Ok tt.
Proof.
  intros Hf Hm. unfold live, clock_of, require_live_clock, same_float.
  rewrite Hf, (proj2 (Z.leb_le _ _) Hm), bool_decide_true, Z.eqb_refl by done. done.
Qed.

Lemma accept_ok st bt bs t m consumed grid st' :
  accept st bt bs t m consumed grid = Ok st' →
  m = bs + 1 ∧ 0 <= m ∧ is_finite t = true ∧ is_finite bt = true ∧ fleb t bt = false
  ∧ st_strategy st' = st_strategy st ∧ st_program st' = st_program st
  ∧ st_time st' = t ∧ st_macro st' = m
  ∧ st_cursors st' = boundary_cursors (st_program st) t m
  ∧ st_controller st' = Controller (Some (fsub t bt)) grid
  ∧ validate_controller_state (st_controller st') = Ok (st_controller st')
  ∧ st_queue st' = match consumed with None => st_queue st | Some _ => tail (st_queue st) end
  ∧ st_stats st' = Stats (sa_accepted (st_stats st) + 1) (sa_rejected (st_stats st)) (sa_failed (st_stats st))
  ∧ st_status st' = Accepted ∧ st_synchronized st' = true ∧ st_pending st' = false
  ∧ match grid with
    | None => True
    | Some g => ∃ b dt, st_strategy st = Some b ∧ bd_strategy b = FixedDt dt
                  ∧ validate_fixed_grid_clock g (FixedDt dt) t m = Ok tt
    end
  ∧ match consumed with
    | None => True
    | Some e => head (st_queue st) = Some e ∧ ev_time e = t ∧ ev_cursor e = m
    end.
Proof.
  unfold accept, clock_of. intros H. inv_ok. bools.
  assert (Hval : ∀ c c', validate_controller_state c = Ok c' → c' = c).
  { intros c c' Hc. unfold validate_controller_state in Hc. by inv_ok. }
  match goal with E : validate_controller_state _ = Ok _ |- _ => pose proof (Hval _ _ E); subst end.
  cbn. split_and!; try done; try lia.
  - destruct consumed as [e|]; [|by inv_ok].
    destruct (st_queue st) as [|hd rest]; inv_ok; done.
  - destruct grid as [g|]; [|done]. destruct (st_strategy st) as [[[] ?]|]; inv_ok; try done. eauto.
  - destruct consumed as [e|]; [|done]. destruct (st_queue st) as [|hd rest]; inv_ok.
    match goal with E : validate_event e = Ok _ |- _ => unfold validate_event in E; inv_ok end.
    unfold same_float in *. bools. by subst.
Qed.

(** An accepted attempt advances time and the macro step once, publishes the
    cursors of the new boundary and consumes at most the queue head, which named
    exactly that boundary; an unsuccessful attempt leaves every accepted field
    as it was and only counts itself. *)
Theorem attempts_commit_once st bt bs t m consumed grid st' outcome st'' :
  (accept st bt bs t m consumed grid = Ok st' →
     st_macro st' = bs + 1 ∧ fleb (st_time st') bt = false
     ∧ st_cursors st' = boundary_cursors (st_program st') (st_time st') (st_macro st')
     ∧ sa_accepted (st_stats st') = sa_accepted (st_stats st) + 1
     ∧ (st_queue st' = st_queue st
        ∨ ∃ e, st_queue st = e :: st_queue st' ∧ ev_time e = st_time st' ∧ ev_cursor e = st_macro st'))
  ∧ (record_unsuccessful st outcome t m = Ok st'' →
     accepted_part st'' = accepted_part st ∧ st_synchronized st'' = false
     ∧ ∀ time step, checkpoint_json st'' time step = Err RuntimeError
                    ∨ checkpoint_json st'' time step = Err ValueError).
Proof.
  split.
  - intros H. apply accept_ok in H
      as (-> & _ & _ & _ & Hle & _ & Hp & <- & Hm & Hc & _ & _ & Hq & Hs & _ & _ & _ & _ & Hev).
    rewrite Hm, Hp, Hs. split_and!; try done.
    destruct consumed as [e|]; [|by left]. right. destruct Hev as (Hh & Ht & Hcur).
    destruct (st_queue st) as [|hd rest]; [done|]. injection Hh as ->. exists e.
    rewrite Hq. cbn. by rewrite Hcur.
  - unfold record_unsuccessful. intros H. inv_ok. split_and!; [done | done|].
    intros time step. unfold checkpoint_json. cbn [st_status st_synchronized].
    destruct (live _ time step) as [|e] eqn:El; cbn [mbind res_bind].
    + left. by rewrite andb_false_r.
    + unfold live, clock_of, require_live_clock, require in El.
      destruct (is_finite time), (0 <=? step); cbn in El; try (right; congruence).
      destruct (_ && _) in El; [discriminate | left; congruence].
Qed.

(** ** The invariant of reachable envelopes *)

Record wf (st : state) : Prop := Wf {
  wf_program : validate_program (st_program st) = Ok (st_program st);
  wf_cursors : st_cursors st = boundary_cursors (st_program st) (st_time st) (st_macro st);
  wf_time : is_finite (st_time st) = true;
  wf_macro : 0 <= st_macro st;
  wf_stats : valid_stats (st_stats st) = true;
  wf_sync : st_synchronized st = bool_decide (st_status st = Accepted);
  wf_controller : validate_controller_state (st_controller st) = Ok (st_controller st);
  wf_queue : Forall (fun e => validate_event e = Ok e) (st_queue st);
  wf_strategy : ∀ b, st_strategy st = Some b →
    validate_step_strategy_manifest (bd_manifest b) = Ok (bd_strategy b, bd_manifest b) }.

(** One call on the envelope.  [begin_run] may raise while it queues the first
    proposal; a refused [configure_program] of a restored state is final. *)
Inductive step (st : state) : state → Prop :=
| step_configure program time m st' :
    configure_program st program time m = (st', Ok tt) → step st st'
| step_begin manifest prepared time m st' r :
    unique_controls manifest → begin_run st manifest prepared time m = (st', r) → step st st'
| step_queue dt time m replace st' e :
    queue_proposal st dt time m replace = Ok (st', e) → step st st'
| step_accept bt bs time m consumed grid st' :
    accept st bt bs time m consumed grid = Ok st' → step st st'
| step_unsuccessful outcome time m st' :
    outcome ≠ Accepted → record_unsuccessful st outcome time m = Ok st' → step st st'
| step_restart time m installed data st' :
    checkpoint_json st time m = Ok data → from_json data time m installed = Ok st' → step st st'.

Definition reachable (st : state) : Prop := rtc step initial st.

Lemma validate_program_ok p q : validate_program p = Ok q → q = p ∧ validate_program q = Ok q.
Proof.
  destruct p as [p|]; cbn; [|by intros [= <-]].
  destruct (validate_program_schedule p) as [p'|] eqn:E; [|discriminate]. intros [= <-].
  assert (p' = p) as -> by (unfold validate_program_schedule in E; by inv_ok).
  cbn. by rewrite E.
Qed.

Lemma validate_event_ok e e' : validate_event e = Ok e' → e' = e ∧ validate_event e = Ok e.
Proof. intros H. assert (e' = e) as -> by (unfold validate_event in H; by inv_ok). done. Qed.

Lemma validate_queue_ok q q' :
  validate_event_queue q = Ok q' → q' = q ∧ Forall (fun e => validate_event e = Ok e) q.
Proof.
  unfold validate_event_queue. revert q'. induction q as [|e q IH]; intros q' H; cbn in H; [by inv_ok|].
  destruct (validate_event e) as [e'|] eqn:Ee; [|discriminate H]. cbn [mbind res_bind] in H.
  destruct (map_res validate_event q) as [q''|]; [|discriminate H]. injection H as <-.
  apply validate_event_ok in Ee as [-> Ee]. destruct (IH q'' eq_refl) as [-> ?]. auto.
Qed.

Lemma validate_queue_wf q : Forall (fun e => validate_event e = Ok e) q → validate_event_queue q = Ok q.
Proof. unfold validate_event_queue. induction 1 as [|e q He _ IH]; cbn; [done|]. by rewrite He, IH. Qed.

Lemma validate_controller_ok c c' : validate_controller_state c = Ok c' → c' = c ∧ validate_controller_state c = Ok c.
Proof. intros H. assert (c' = c) as -> by (unfold validate_controller_state in H; by inv_ok). done. Qed.

Lemma initial_wf : wf initial.
Proof. by split. Qed.

Lemma queue_proposal_ok st dt time m replace st' e :
  queue_proposal st dt time m replace = Ok (st', e) →
  live st time m = Ok tt ∧ validate_event e = Ok e
  ∧ e = Event ERROR_PROPOSAL_KIND (fadd time dt) (m + 1) dt
  ∧ is_finite dt = true ∧ fltb fzero dt = true
  ∧ st' = set_queue st (e :: tail (st_queue st)).
Proof.
  unfold queue_proposal. intros H.
  destruct (live st time m) as [[]|] eqn:El; [|discriminate H]. cbn [mbind res_bind] in H.
  destruct (is_finite dt && fltb fzero dt) eqn:Ed; [|discriminate H]. cbn [require mbind res_bind] in H.
  destruct (mk_event _ _ _ dt) as [c|] eqn:Ec; [|discriminate H]. cbn [mbind res_bind] in H.
  unfold mk_event in Ec. destruct (is_finite (fadd time dt)); [|discriminate Ec].
  cbn [require mbind res_bind] in Ec. apply validate_event_ok in Ec as [-> Ec]. bools.
  destruct (st_queue st) as [|hd rest] eqn:Eq.
  - destruct replace; [discriminate H|]. injection H as <- <-. split_and!; done.
  - destruct replace; [injection H as <- <-; split_and!; done|].
    destruct (bool_decide _) eqn:Eh in H; [|discriminate H]. injection H as <- <-. bools. subst hd.
    split_and!; try done. destruct st; cbn in *; subst. done.
Qed.

Lemma set_queue_wf st q : wf st → Forall (fun e => validate_event e = Ok e) q → wf (set_queue st q).
Proof. intros [] Hq. by split. Qed.

Lemma queue_proposal_wf st dt time m replace st' e :
  wf st → queue_proposal st dt time m replace = Ok (st', e) → wf st'.
Proof.
  intros Hwf (_ & He & _ & _ & _ & ->)%queue_proposal_ok. apply set_queue_wf; [done|].
  constructor; [done|]. destruct Hwf as [_ _ _ _ _ _ _ Hq _]. by destruct Hq.
Qed.

Lemma set_cursors_wf st : wf st →
  wf (set_cursors st (boundary_cursors (st_program st) (st_time st) (st_macro st))).
Proof. intros []. by split. Qed.

Lemma set_strategy_wf st b c :
  wf st → validate_controller_state c = Ok c →
  validate_step_strategy_manifest (bd_manifest b) = Ok (bd_strategy b, bd_manifest b) →
  wf (set_strategy st b c).
Proof. intros [] Hc Hb. split; try done. cbn. by intros b' [= <-]. Qed.

Lemma drop_grid c : validate_controller_state c = Ok c →
  validate_controller_state (Controller (ct_last c) None) = Ok (Controller (ct_last c) None).
Proof.
  unfold validate_controller_state. cbn. intros H. destruct (match ct_last c with Some _ => _ | None => _ end); [done|].
  discriminate H.
Qed.

Lemma configure_wf st program time m st' :
  wf st → configure_program st program time m = (st', Ok tt) → wf st'.
Proof.
  intros Hwf. unfold configure_program.
  destruct (live st time m) as [[]|] eqn:El; cbn [mbind res_bind]; [|done].
  apply live_ok in El as (Hf & Hm & -> & ->).
  destruct (validate_program_schedule program) as [p|] eqn:Ep; cbn [mbind res_bind]; [|done].
  destruct (require _ _) as [[]|]; cbn [mbind res_bind]; [|done].
  assert (Hp : validate_program (Some p) = Ok (Some p)).
  { apply (validate_program_ok (Some program)). cbn. by rewrite Ep. }
  destruct Hwf. cbn [set_program st_pending st_cursors]. destruct (st_pending st).
  - match goal with |- context [bool_decide ?P] => destruct (bool_decide P) eqn:Hc end;
      intros [<- Hx]%pair_equal_spec; [|discriminate Hx]. bools. by split.
  - intros [= <-]. by split.
Qed.

Lemma begin_run_wf st manifest prepared time m st' r :
  wf st → unique_controls manifest → begin_run st manifest prepared time m = (st', r) → wf st'.
Proof.
  intros Hwf Hu. unfold begin_run.
  destruct (clock_of time m); cbn [mbind res_bind]; [|by intros [= <- _]].
  destruct (validate_step_strategy_manifest manifest) as [[s c]|] eqn:Es; cbn [mbind res_bind]; [|by intros [= <- _]].
  apply canonical_idempotent in Es; [|done].
  destruct (match prepared with Some _ => _ | None => _ end) as [prep|]; cbn [mbind res_bind]; [|by intros [= <- _]].
  destruct (require _ _) as [[]|]; cbn [mbind res_bind]; [|by intros [= <- _]].
  destruct (require_live_clock st time m) as [[]|] eqn:El; cbn [mbind res_bind]; [|by intros [= <- _]].
  unfold require_live_clock, same_float in El. inv_ok. bools. subst time m.
  set (st1 := match st_strategy st with None => _ | Some _ => _ end).
  assert (Hwf1 : wf st1).
  { unfold st1. destruct (st_strategy st); [done|]. destruct (st_pending st); [done | by apply set_cursors_wf]. }
  clearbody st1. destruct (st_pending st1); [by intros [= <- _]|].
  set (st2 := set_strategy st1 _ _).
  assert (Hwf2 : wf st2).
  { apply set_strategy_wf; [done | | done]. pose proof (wf_controller _ Hwf1) as Hc.
    destruct (negb _); [by apply drop_grid | done]. }
  clearbody st2. cbn [bd_strategy].
  destruct s as [| |policy|]; try by intros [= <- _].
  destruct (_ && _ && _); [|by intros [= <- _]].
  destruct (queue_proposal _ _ _ _ _) as [[st3 e]|] eqn:Eq; [|by intros [= <- _]].
  intros [= <- _]. by eapply queue_proposal_wf.
Qed.

(** ** Checkpoint and restart *)

Definition as_restored (st : state) : state :=
  State (st_strategy st) (st_program st) (st_time st) (st_macro st) (st_cursors st) (st_controller st)
    (st_queue st) (st_stats st) Accepted true true.

Lemma checkpoint_ok st time m data :
  checkpoint_json st time m = Ok data →
  ∃ b, st_strategy st = Some b ∧ live st time m = Ok tt
    ∧ st_status st = Accepted ∧ st_synchronized st = true
    ∧ st_cursors st = boundary_cursors (st_program st) time m
    ∧ validate_controller_events (st_queue st) (bd_strategy b) (st_controller st) time m = Ok tt
    ∧ valid_stats (st_stats st) = true
    ∧ data = Checkpoint (bd_manifest b) (st_program st) (st_time st) (st_macro st) (st_cursors st)
               (st_controller st) (st_queue st) (st_stats st) (st_status st) (st_synchronized st).
Proof.
  unfold checkpoint_json. intros H.
  destruct (live st time m) as [[]|] eqn:El; [|discriminate H]. cbn [mbind res_bind] in H.
  destruct (st_strategy st) as [b|]; [|by inv_ok].
  inv_ok. bools. exists b.
  match goal with E : validate_event_queue _ = Ok _ |- _ => apply validate_queue_ok in E as [-> _] end.
  by split_and!.
Qed.

Lemma restore_wf st time m data installed :
  wf st → checkpoint_json st time m = Ok data →
  (installed = None ∨ installed = Some (st_program st)) →
  from_json data time m installed = Ok (as_restored st).
Proof.
  intros Hwf (b & Hb & Hlive & Hst & Hsync & Hcur & Hev & Hn & ->)%checkpoint_ok Hins.
  destruct Hwf as [Hp _ _ _ _ _ Hc Hq Hs]. apply live_ok in Hlive as (Hf & Hm & -> & ->).
  unfold from_json. cbn [cp_strategy cp_program cp_time cp_macro cp_cursors cp_controller cp_queue cp_stats
                           cp_status cp_synchronized].
  rewrite (Hs b Hb). cbn [mbind res_bind]. rewrite Hp. cbn [mbind res_bind].
  assert (Hi : (match installed with
                | None => Ok tt
                | Some p => p ← validate_program p; require (bool_decide (st_program st = p)) ValueError
                end) = Ok tt).
  { destruct Hins as [->| ->]; [done|]. rewrite Hp. cbn [mbind res_bind]. by rewrite bool_decide_true. }
  rewrite Hi. cbn [mbind res_bind]. unfold clock_of, same_float.
  rewrite Hf, (proj2 (Z.leb_le _ _) Hm). cbn [require mbind res_bind].
  rewrite Z.eqb_refl, Hn, Hsync.
  repeat (rewrite bool_decide_true by done; cbn [andb require mbind res_bind]).
  rewrite Hc. cbn [mbind res_bind]. rewrite (validate_queue_wf _ Hq). cbn [mbind res_bind].
  rewrite Hev. cbn [mbind res_bind]. unfold as_restored. rewrite Hb. by destruct b.
Qed.

Lemma accept_wf st bt bs t m consumed grid st' :
  wf st → accept st bt bs t m consumed grid = Ok st' → wf st'.
Proof.
  intros Hwf H. apply accept_ok in H as (_ & Hm & Hf & _ & _ & Hs & Hp & Ht & Hmac & Hc & _ & Hcv & Hq & Hn
    & Hst & Hsy & _ & _ & _).
  destruct Hwf as [Hwp _ _ _ Hws _ _ Hwq Hwst]. split.
  - by rewrite Hp.
  - by rewrite Hc, Hp, Ht, Hmac.
  - by rewrite Ht.
  - by rewrite Hmac.
  - rewrite Hn. unfold valid_stats in *. cbn. bools. rewrite !andb_true_iff, !Z.leb_le. lia.
  - by rewrite Hst, Hsy.
  - done.
  - rewrite Hq. destruct consumed; [|done]. by destruct Hwq.
  - by rewrite Hs.
Qed.

Lemma record_wf st outcome t m st' :
  outcome ≠ Accepted → wf st → record_unsuccessful st outcome t m = Ok st' → wf st'.
Proof.
  unfold record_unsuccessful. intros Ho [] H. inv_ok. split; try done; cbn.
  - unfold valid_stats in *. bools. destruct outcome; cbn; rewrite !andb_true_iff, !Z.leb_le; lia.
  - by destruct outcome.
Qed.

Lemma as_restored_wf st : wf st → wf (as_restored st).
Proof. intros []. by split. Qed.

Lemma from_json_installed data t m installed st' :
  from_json data t m installed = Ok st' → from_json data t m None = Ok st'.
Proof.
  unfold from_json. destruct (validate_step_strategy_manifest _) as [[s c]|]; [|done]. cbn [mbind res_bind].
  destruct (validate_program (cp_program data)); [|done]. cbn [mbind res_bind].
  by destruct (match installed with None => _ | Some _ => _ end) as [[]|].
Qed.

Lemma step_wf st st' : wf st → step st st' → wf st'.
Proof.
  intros Hwf. destruct 1 as [program t m st' H|man prep t m st' r Hu H|dt t m rep st' e H
    |bt bs t m con grid st' H|out t m st' Ho H|t m ins data st' Hc H].
  - by eapply configure_wf.
  - by eapply begin_run_wf.
  - by eapply queue_proposal_wf.
  - by eapply accept_wf.
  - by eapply record_wf.
  - pose proof (restore_wf st t m data None Hwf Hc ltac:(auto)) as Hr.
    apply from_json_installed in H. rewrite Hr in H. injection H as <-. by apply as_restored_wf.
Qed.

Lemma steps_wf st st' : rtc step st st' → wf st → wf st'.
Proof. induction 1 as [|a b c Hab _ IH]; [done|]. intros Ha. apply IH. by eapply step_wf. Qed.

Lemma reachable_wf st : reachable st → wf st.
Proof. intros H. by apply (steps_wf initial), initial_wf. Qed.

(** C18: Every envelope reachable by any interleaving of configurations, runs,
    proposals, accepted and unsuccessful attempts and restarts has the cursors of
    exactly its accepted boundary, is synchronized exactly when its last attempt
    was accepted, and holds only validated schedules, strategies, controller
    states and events. *)
Theorem reachable_boundary st :
  reachable st →
  st_cursors st = boundary_cursors (st_program st) (st_time st) (st_macro st)
  ∧ (st_synchronized st = true ↔ st_status st = Accepted)
  ∧ is_finite (st_time st) = true ∧ 0 <= st_macro st
  ∧ validate_program (st_program st) = Ok (st_program st)
  ∧ validate_controller_state (st_controller st) = Ok (st_controller st)
  ∧ validate_event_queue (st_queue st) = Ok (st_queue st)
  ∧ ∀ b, st_strategy st = Some b → well_formed (bd_strategy b).
Proof.
  intros []%reachable_wf. split_and!; try done.
  - rewrite wf_sync0. apply bool_decide_eq_true.
  - by apply validate_queue_wf.
  - intros b Hb. by destruct (manifest_is_a_run _ _ _ (wf_strategy0 b Hb)) as [? _].
Qed.

(** What the controller of a run does with the envelope, as a function of the
    state alone. *)
Definition behaves_like (st st' : state) : Prop :=
  (∀ bt bs t m consumed grid, accept st bt bs t m consumed grid = accept st' bt bs t m consumed grid)
  ∧ (∀ outcome t m, record_unsuccessful st outcome t m = record_unsuccessful st' outcome t m)
  ∧ (∀ t m, before_attempt st t m = before_attempt st' t m)
  ∧ (∀ e t m, before_queued_attempt st e t m = before_queued_attempt st' e t m)
  ∧ (∀ t m, queued_proposal st t m = queued_proposal st' t m)
  ∧ (∀ dt t m replace, (snd <$> queue_proposal st dt t m replace) = (snd <$> queue_proposal st' dt t m replace))
  ∧ (∀ clock, cursor_for_clock st clock = cursor_for_clock st' clock)
  ∧ (∀ t m, checkpoint_json st t m = checkpoint_json st' t m).

(** C19: Restart is exact: a checkpoint of a reachable envelope is always read
    back, by the program it was written by, into an envelope with the same
    accepted data; reconfiguring it with that program and resuming the run with
    the checkpointed strategy succeeds and changes nothing; and from there every
    next attempt, proposal and checkpoint is the one the uninterrupted envelope
    makes. *)
Theorem restart_is_exact st time m data :
  reachable st → checkpoint_json st time m = Ok data →
  ∃ st' b, from_json data time m (Some (st_program st)) = Ok st'
    ∧ st_strategy st = Some b
    ∧ accepted_part st' = accepted_part st ∧ st_stats st' = st_stats st
    ∧ (∀ program, st_program st = Some program →
         configure_program st' program time m = (st', Ok tt))
    ∧ begin_run st' (bd_manifest b) None time m = (st', Ok tt)
    ∧ behaves_like st' st.
Proof.
  intros Hwf%reachable_wf Hc.
  pose proof (restore_wf st time m data (Some (st_program st)) Hwf Hc ltac:(auto)) as Hr.
  apply checkpoint_ok in Hc as (b & Hb & Hlive & Hst & Hsync & Hcur & _).
  exists (as_restored st), b. split_and!; try done.
  - intros program Hp. unfold configure_program.
    change (live (as_restored st)) with (live st). rewrite Hlive. cbn [mbind res_bind].
    pose proof (wf_program _ Hwf) as Hv. rewrite Hp in Hv. cbn in Hv.
    destruct (validate_program_schedule program) as [p|]; [|discriminate Hv]. injection Hv as ->.
    cbn [mbind res_bind as_restored st_program]. rewrite Hp, bool_decide_true by done.
    cbn [require mbind res_bind set_program st_pending st_cursors as_restored].
    rewrite Hp in Hcur. rewrite bool_decide_true by done. cbn [require]. unfold as_restored. by rewrite Hp.
  - unfold begin_run. unfold live in Hlive. destruct (clock_of time m) as [[]|]; [|discriminate Hlive].
    cbn [mbind res_bind] in *. rewrite (wf_strategy _ Hwf b Hb). cbn [mbind res_bind].
    rewrite orb_true_r. cbn [require mbind res_bind].
    change (require_live_clock (as_restored st)) with (require_live_clock st). rewrite Hlive. cbn [mbind res_bind].
    cbn [as_restored st_strategy st_pending]. rewrite Hb. cbn [st_pending same_strategy bd_manifest].
    assert (json_eq (bd_manifest b) (bd_manifest b) = true) as ->; [|done].
    by destruct (manifest_is_a_run _ _ _ (wf_strategy _ Hwf b Hb)) as (_ & ? & _).
  - split_and!; intros; try done.
    + unfold queue_proposal. change (live (as_restored st)) with (live st).
      cbn [as_restored st_queue]. destruct (live st t m0) as [[]|]; [|done]. cbn [mbind res_bind].
      destruct (require (is_finite dt && fltb fzero dt) ValueError) as [[]|]; [|done]. cbn [mbind res_bind].
      destruct (mk_event _ _ _ _); [|done]. cbn [mbind res_bind].
      destruct (st_queue st); destruct replace; try done. cbn [fmap res_fmap].
      by destruct (bool_decide _).
    + unfold cursor_for_clock. cbn [as_restored st_status st_synchronized st_cursors st_time].
      by rewrite Hst, Hsync.
    + unfold checkpoint_json. change (live (as_restored st)) with (live st).
      cbn [as_restored st_strategy st_program st_time st_macro st_cursors st_controller st_queue st_stats
             st_status st_synchronized]. by rewrite Hst, Hsync.
Qed.

(** A run of the fixed strategy over one primary clock and one subcycled clock
    that keeps a history, sampled one way and interpolated the other. *)
Definition toy_contract : provider_contract :=
  ProviderContract "case" "U" "state" "cells" "state" "main clock" "case" "0..2" "main clock" "main clock"
    "linear" (Some "linear") 2.
Definition toy_schedule : schedule :=
  Schedule "main" [ClockRow "main" "main clock" "main" 1; ClockRow "fast" "fast clock" "fast" 4]
    [SubcycleRow 7 "main" "fast" 4] [SyncRow 9 "fast" "main" SAMPLE_AND_HOLD;
     SyncRow 11 "main" "fast" (SyncRelation "history_interpolation" "typed_history" (Some toy_contract) "linear")]
    [ScheduleRow 3 "fast" true] [HistoryRow "ring" "main" 2 3 None "U" "cells" "0..2" "linear"] "".

Definition toy_manifest : json :=
  match run_control_payload (FixedDt tenth) JNull with Ok m => m | Err _ => JNull end.

(** Configure, begin a run, take one fixed step. *)
Definition toy_run : res state :=
  match configure_program initial toy_schedule fzero 0 with
  | (st, Ok _) =>
      match begin_run st toy_manifest None fzero 0 with
      | (st, Ok _) => accept st fzero 0 tenth 1 None (Some (FixedGrid fzero 1 tenth 1))
      | (_, Err e) => Err e
      end
  | (_, Err e) => Err e
  end.

Definition toy_state : state := match toy_run with Ok st => st | Err _ => initial end.

Lemma toy_reachable : reachable toy_state.
Proof.
  unfold reachable, toy_state. destruct toy_run as [st|] eqn:E; [|apply rtc_refl].
  unfold toy_run in E.
  destruct (configure_program initial toy_schedule fzero 0) as [st1 [[]|]] eqn:E1; [|discriminate E].
  destruct (begin_run st1 toy_manifest None fzero 0) as [st2 [[]|]] eqn:E2; [|discriminate E].
  eapply rtc_l; [by eapply step_configure|]. eapply rtc_l; [eapply step_begin; [|exact E2]|].
  { intros row d Hm Hd. injection Hm as <-. vm_compute in Hd. injection Hd as <-. constructor. }
  apply rtc_once. by eapply step_accept.
Qed.

Lemma restart_is_exact_witness :
  ∃ data st', checkpoint_json toy_state tenth 1 = Ok data
    ∧ from_json data tenth 1 (Some (st_program toy_state)) = Ok st' ∧ behaves_like st' toy_state.
Proof.
  destruct (checkpoint_json toy_state tenth 1) as [data|] eqn:E; [|vm_compute in E; discriminate E].
  destruct (restart_is_exact toy_state tenth 1 data toy_reachable E) as (st' & b & H & _ & _ & _ & _ & _ & Hb).
  exists data, st'. split; [reflexivity | split; [exact H | exact Hb]].
Defined.

Lemma attempts_commit_once_witness :
  let st := match accept toy_state tenth 1 (fadd tenth tenth) 2 None None with Ok st => st | Err _ => initial end in
  st_macro st = 2 ∧ fleb (st_time st) tenth = false
  ∧ ∀ st'', record_unsuccessful toy_state Rejected tenth 1 = Ok st'' → accepted_part st'' = accepted_part toy_state.
Proof.
  intros st. destruct (accept toy_state tenth 1 (fadd tenth tenth) 2 None None) as [st1|] eqn:E;
    [|vm_compute in E; discriminate E].
  destruct (attempts_commit_once toy_state tenth 1 (fadd tenth tenth) 2 None None st1 Rejected toy_state) as [H _].
  destruct (H E) as (Hm & Hle & _). split; [exact Hm | split; [exact Hle|]].
  intros st'' H''.
  destruct (attempts_commit_once toy_state tenth 1 tenth 1 None None st1 Rejected st'') as [_ H2].
  exact (proj1 (H2 H'')).
Defined.

Lemma reachable_boundary_witness :
  st_cursors toy_state = boundary_cursors (st_program toy_state) (st_time toy_state) (st_macro toy_state).
Proof. exact (proj1 (reachable_boundary toy_state toy_reachable)). Defined.

(** ** The clock topology of a validated schedule *)

Definition clock_table (s : schedule) : list (string * Z) := map (fun r => (ck_id r, ck_ticks r)) (ps_clocks s).

Lemma check_clocks_table rows : ∀ acc clocks,
  fold_res check_clock acc rows = Ok clocks → NoDup (dkeys acc) →
  clocks = acc ++ map (fun r => (ck_id r, ck_ticks r)) rows ∧ NoDup (dkeys clocks)
  ∧ ∀ r, r ∈ rows → 0 < ck_ticks r.
Proof.
  induction rows as [|r rows IH]; intros acc clocks H Hnd; cbn [fold_res] in H.
  - injection H as <-. rewrite app_nil_r. split_and!; [done | done | by intros ? ?%elem_of_nil].
  - destruct (check_clock acc r) as [acc'|] eqn:E; [|discriminate H]. cbn [mbind res_bind] in H.
    unfold check_clock, positive_count in E. inv_ok. bools. rewrite dset_fresh in * by done.
    apply IH in H as (-> & Hn & Hp).
    + split_and!; [by rewrite <- app_assoc | done|].
      intros r' [->|?]%elem_of_cons; [done | by apply Hp].
    + unfold dkeys in *. rewrite map_app. cbn. apply NoDup_app. split_and!; [done | | apply NoDup_singleton].
      intros x Hx ->%list_elem_of_singleton. done.
Qed.

Lemma check_subcycles_table clocks rows : ∀ nodes relations nodes' relations',
  fold_res (check_subcycle clocks) (nodes, relations) rows = Ok (nodes', relations') →
  NoDup nodes → NoDup (dkeys relations) →
  NoDup (map sc_node rows ++ nodes)
  ∧ (∀ r, r ∈ rows → 0 < sc_count r
       ∧ ∃ tp tc, dget (sc_parent r) clocks = Some tp ∧ dget (sc_child r) clocks = Some tc
                  ∧ tc = tp * sc_count r)
  ∧ (∀ c p n, dget c relations' = Some (p, n) →
       dget c relations = Some (p, n) ∨ ∃ r, r ∈ rows ∧ sc_child r = c ∧ sc_parent r = p ∧ sc_count r = n).
Proof.
  induction rows as [|r rows IH]; intros nodes relations nodes' relations' H Hnd Hnk; cbn [fold_res] in H.
  - injection H as <- <-. split_and!; [done | by intros ? ?%elem_of_nil | by left].
  - destruct (check_subcycle clocks (nodes, relations) r) as [[n1 r1]|] eqn:E; [|discriminate H].
    cbn [mbind res_bind] in H. unfold check_subcycle, node_id, positive_count, fresh in E.
    destruct (0 <=? sc_node r); [|discriminate E]. cbn [require mbind res_bind] in E.
    destruct (bool_decide (sc_node r ∉ nodes)) eqn:Hf; [|discriminate E]. cbn [require mbind res_bind] in E.
    destruct (0 <? sc_count r) eqn:Hc; [|discriminate E]. cbn [require mbind res_bind] in E.
    destruct (dget (sc_parent r) clocks) as [tp|] eqn:Ep; [|discriminate E].
    destruct (dget (sc_child r) clocks) as [tc|] eqn:Ec; [|discriminate E].
    inv_ok. bools. apply IH in H as (H1 & H2 & H3); [|by constructor | by apply dset_NoDup].
    split_and!.
    + cbn. rewrite (Permutation_cons_append (map sc_node rows ++ nodes)), <- app_assoc.
      by rewrite <- (Permutation_cons_append nodes) in *.
    + intros r' [->|Hr]%elem_of_cons; [|by apply H2]. split; [done|]. by exists tp, tc.
    + intros c p n Hg. apply H3 in Hg as [Hg|(r' & ? & ?)].
      * rewrite dget_dset in Hg. case_decide as Hd; [|by left]. subst c. injection Hg as <- <-.
        right. exists r. split; [left | done].
      * right. exists r'. split; [by right | done].
Qed.

Lemma check_subcycles_children clocks rows : ∀ acc nodes' relations',
  fold_res (check_subcycle clocks) acc rows = Ok (nodes', relations') →
  ∀ c, c ∈ dkeys acc.2 ∨ c ∈ map sc_child rows → c ∈ dkeys relations'.
Proof.
  induction rows as [|r rows IH]; intros acc nodes' relations' H c Hc; cbn [fold_res] in H.
  - injection H as ->. destruct Hc as [?|?%elem_of_nil]; done.
  - destruct (check_subcycle clocks acc r) as [acc'|] eqn:E; [|discriminate H]. cbn [mbind res_bind] in H.
    apply (IH _ _ _ H). destruct acc as [nodes relations]. unfold check_subcycle in E. inv_ok.
    destruct (dget (sc_parent r) clocks), (dget (sc_child r) clocks); try discriminate E. inv_ok.
    cbn [snd map] in *. rewrite dkeys_dset. case_decide; set_solver.
Qed.

(** A validated schedule subcycles every clock but the primary one. *)
Lemma validated_primary s s' r :
  validate_program_schedule s = Ok s' → r ∈ ps_subcycles s → sc_child r ≠ ps_primary s.
Proof.
  unfold validate_program_schedule. intros H Hr Hc. inv_ok.
  assert (Hin : ps_primary s' ∈ dkeys l0).
  { apply (check_subcycles_children _ _ _ _ _ E3). right. rewrite <- Hc. by apply list_elem_of_fmap_2. }
  apply (proj1 (same_keys_spec _ _) E9), filter_elem in Hin as [_ Hne]. by rewrite String.eqb_refl in Hne.
Qed.

Lemma validated_topology s s' :
  validate_program_schedule s = Ok s' →
  NoDup (dkeys (clock_table s)) ∧ dget (ps_primary s) (clock_table s) = Some 1
  ∧ (∀ c t, dget c (clock_table s) = Some t → 0 < t)
  ∧ (∀ r, r ∈ ps_subcycles s → 0 < sc_count r
       ∧ ∃ tp tc, dget (sc_parent r) (clock_table s) = Some tp ∧ dget (sc_child r) (clock_table s) = Some tc
                  ∧ tc = tp * sc_count r)
  ∧ (∀ c, c ∈ dkeys (clock_table s) → c ≠ ps_primary s →
       ∃ r, r ∈ ps_subcycles s ∧ sc_child r = c).
Proof.
  unfold validate_program_schedule. intros H.
  destruct (negb _); [|discriminate H]. cbn [require mbind res_bind] in H.
  destruct (match ps_clocks s with [] => _ | _ => _ end); [|discriminate H]. cbn [require mbind res_bind] in H.
  destruct (fold_res check_clock [] (ps_clocks s)) as [clocks|] eqn:Ec; [|discriminate H]. cbn [mbind res_bind] in H.
  apply check_clocks_table in Ec as (-> & Hnd & Hpos); [|constructor]. cbn [app] in *.
  fold (clock_table s) in *.
  destruct (bool_decide (dget _ _ = Some 1)) eqn:Ep; [|discriminate H]. cbn [require mbind res_bind] in H.
  destruct (fold_res (check_subcycle _) _ _) as [[nodes relations]|] eqn:Es; [|discriminate H].
  cbn [mbind res_bind] in H.
  apply check_subcycles_table in Es as (_ & Hsub & Hrel); [|constructor | constructor].
  destruct (same_keys _ (dkeys relations)) eqn:Ek; [|discriminate H]. rewrite same_keys_spec in Ek.
  bools. split_and!; try done.
  - intros c t Ht%dget_Some_elem. unfold clock_table in Ht.
    apply list_elem_of_In, in_map_iff in Ht as (r & [= <- <-] & Hr). apply Hpos. by apply list_elem_of_In.
  - intros c Hc Hne.
    assert (Hr : c ∈ dkeys relations).
    { apply Ek. apply list_elem_of_In, filter_In. rewrite <- list_elem_of_In. split; [done|].
      apply negb_true_iff. by apply String.eqb_neq. }
    destruct (dget c relations) as [[p n]|] eqn:Eg; [|by apply dget_None in Eg].
    apply Hrel in Eg as [|(r & Hr' & Hch & _)]; [done|]. by exists r.
Qed.

(** [c] runs [n] ticks per macro step through a chain of subcycles from the
    primary clock. *)
Inductive descends (s : schedule) : string → Z → Prop :=
| descends_primary : descends s (ps_primary s) 1
| descends_child r n : r ∈ ps_subcycles s → descends s (sc_parent r) n →
    descends s (sc_child r) (n * sc_count r).

Lemma tick_table s m c : tick s m c = default 0 (dget c (map (fun '(k, t) => (k, m * t)) (clock_table s))).
Proof. unfold tick, clock_ticks, clock_table. by rewrite map_map. Qed.

Lemma tick_clock s m c t : dget c (clock_table s) = Some t → tick s m c = m * t.
Proof.
  rewrite tick_table. induction (clock_table s) as [|[k v] d IH]; cbn; [done|].
  case_decide; [intros [= ->]; done | apply IH].
Qed.

(** In a validated schedule the accepted ticks of every macro step agree
    with the subcycle counts, the primary clock ticks once per step, and, when
    every subcycle count is at least two, each clock descends from the primary
    clock and runs exactly the product of the counts on its chain. *)
Theorem validated_clocks_consistent s s' m :
  validate_program_schedule s = Ok s' →
  tick s m (ps_primary s) = m
  ∧ (∀ r, r ∈ ps_subcycles s → tick s m (sc_child r) = tick s m (sc_parent r) * sc_count r)
  ∧ ((∀ r, r ∈ ps_subcycles s → 2 <= sc_count r) →
     ∀ row, row ∈ ps_clocks s → descends s (ck_id row) (ck_ticks row)).
Proof.
  intros (Hnd & Hp & Hpos & Hsub & Hrel)%validated_topology. split_and!.
  - rewrite (tick_clock s m _ 1 Hp). lia.
  - intros r Hr. destruct (Hsub r Hr) as (_ & tp & tc & H1 & H2 & ->).
    rewrite (tick_clock _ _ _ _ H1), (tick_clock _ _ _ _ H2). lia.
  - intros Hcount.
    assert (Hd : ∀ t, 0 <= t → ∀ c, dget c (clock_table s) = Some t → descends s c t).
    { apply (Zlt_0_ind (fun t => ∀ c, dget c (clock_table s) = Some t → descends s c t)).
      intros t IH Ht c Hc. destruct (decide (c = ps_primary s)) as [->|Hne].
      { rewrite Hp in Hc. injection Hc as <-. constructor. }
      destruct (Hrel c) as (r & Hr & <-); [|done|].
      { apply dget_Some_elem in Hc. unfold dkeys. apply list_elem_of_In, in_map_iff.
        exists (c, t). by rewrite <- list_elem_of_In. }
      destruct (Hsub r Hr) as (Hcp & tp & tc & H1 & H2 & ->). rewrite Hc in H2. injection H2 as ->.
      specialize (Hcount r Hr). pose proof (Hpos _ _ H1). constructor; [done|]. apply IH; [nia | done]. }
    intros row Hrow.
    assert (Hg : dget (ck_id row) (clock_table s) = Some (ck_ticks row)).
    { apply dget_elem; [done|]. unfold clock_table. apply list_elem_of_In, in_map_iff. exists row.
      by rewrite <- list_elem_of_In. }
    apply Hd; [|done]. pose proof (Hpos _ _ Hg). lia.
Qed.

Lemma validated_clocks_consistent_witness :
  tick toy_schedule 5 "fast" = tick toy_schedule 5 "main" * 4 ∧ descends toy_schedule "fast" 4.
Proof.
  destruct (validated_clocks_consistent toy_schedule toy_schedule 5) as (_ & H1 & H2);
    [vm_compute; reflexivity|]. split.
  - apply (H1 (SubcycleRow 7 "main" "fast" 4)). left.
  - apply (H2 ltac:(intros r ->%list_elem_of_singleton; cbn; lia) (ClockRow "fast" "fast clock" "fast" 4)). right. left.
Defined.

(** Two clocks that subcycle each other once per tick. *)
Definition cyclic_schedule : schedule :=
  Schedule "main" [ClockRow "main" "main" "main" 1; ClockRow "a" "a" "a" 3; ClockRow "b" "b" "b" 3]
    [SubcycleRow 1 "a" "b" 1; SubcycleRow 2 "b" "a" 1] [] [] [] "".

(** The topology check does not require a chain to the primary clock: two
    clocks that are each other's child with count one, at any tick rate, are
    accepted although no chain of subcycles reaches them. *)
Theorem clock_cycle_accepted :
  validate_program_schedule cyclic_schedule = Ok cyclic_schedule
  ∧ ∀ n, ¬ descends cyclic_schedule "a" n.
Proof.
  split; [vm_compute; reflexivity|].
  assert (H : ∀ c n, descends cyclic_schedule c n → c = "main"%string).
  { intros c n. induction 1 as [|r n Hr _ IH]; [done|].
    repeat (apply elem_of_cons in Hr as [->|Hr]; [discriminate IH|]). by apply elem_of_nil in Hr. }
  intros n Hn. discriminate (H _ _ Hn).
Qed.

(** The cursor of a retained history stays inside its ring: the window
    [oldest..newest] never exceeds the depth, starts at tick zero until the ring
    is full, and the cold-start flag marks exactly the boundaries where the ring
    claims more lags than the clock has ticked. *)
Theorem history_window_bounds s m row :
  0 <= m → 0 < hr_depth row → 0 <= tick s m (hr_clock row) →
  let c := history_cursor_of s m row in
  0 <= hc_oldest c <= hc_newest c ∧ hc_newest c - hc_oldest c <= hr_depth row
  ∧ (hc_newest c <= hr_depth row → hc_oldest c = 0)
  ∧ (hc_cold_extended c = true ↔ hc_newest c < hc_valid_lags c)
  ∧ (hc_initialized c = true ↔ 0 < m).
Proof.
  intros Hm Hd Ht. unfold history_cursor_of. cbn. set (t := tick s m (hr_clock row)) in *.
  split_and!; try lia.
  all: destruct (Z.ltb_spec 0 m), (Z.ltb_spec t (hr_depth row)); cbn; split; try done; lia.
Qed.

Lemma history_window_bounds_witness :
  hc_newest (history_cursor_of toy_schedule 5 (HistoryRow "ring" "fast" 2 3 None "U" "cells" "0..2" "linear"))
  - hc_oldest (history_cursor_of toy_schedule 5 (HistoryRow "ring" "fast" 2 3 None "U" "cells" "0..2" "linear")) <= 2.
Proof.
  refine (proj1 (proj2 (history_window_bounds toy_schedule 5 (HistoryRow "ring" "fast" 2 3 None "U" "cells" "0..2" "linear") _ _ _)));
    vm_compute; congruence.
Defined.
