(* ===== verification/FloatError.v ===== *)
(** * Rounding errors and order of binary64

    Every finite binary64 value is an integer multiple of 2^-1074; comparisons
    and the error of one addition are stated on that integer. *)
From Stdlib Require Import SpecFloat.
From S2P Require Import Prelude Binary64 PyRound FloatValid.

(** The value of a finite float in units of 2^-1074, and its unit in the last
    place. *)
Definition fint (f : float) : Z :=
  match f with
  | S754_finite s m e => (if s then Zneg m else Zpos m) * 2 ^ (e + 1074)
  | _ => 0
  end.

Definition uint (f : float) : Z :=
  match f with S754_finite _ _ e => 2 ^ (e + 1074) | _ => 1 end.

Lemma valid_finite s m e : valid (S754_finite s m e) = true →
  -1074 <= e ∧ Zpos m < 2 ^ 53 ∧ (e = -1074 ∨ 2 ^ 52 <= Zpos m).
Proof.
  cbn [valid valid_binary]. unfold bounded, canonical_mantissa, fexp, emin.
  intros [H%Z.eqb_eq _]%andb_true_iff.
  pose proof (digits2_bounds m) as [Hl Hu].
  split_and!; [lia | |].
  - eapply Z.lt_le_trans; [exact Hu|]. apply Z.pow_le_mono_r; lia.
  - destruct (Z.eq_dec e (-1074)) as [|Hne]; [by left|right].
    assert (Zpos (digits2_pos m) = 53) as Hd by lia. rewrite Hd in Hl. exact Hl.
Qed.

(** ** Exact values *)

Lemma float_value_fint f : valid f = true → float_value f = (qz (fint f) * zpow 2 (-1074))%Qc.
Proof.
  destruct f as [s| | |s m e]; intros Hv; cbn [float_value fint];
    try (change (qz 0) with 0%Qc; ring).
  destruct (valid_finite _ _ _ Hv) as (He & _).
  rewrite (zpow_shift 2 ltac:(lia) e (-1074)) by lia.
  rewrite qz_mul. replace (e - -1074) with (e + 1074) by lia. ring.
Qed.

(** ** Order *)

Lemma fint_finite_pos s m e : valid (S754_finite s m e) = true →
  0 < 2 ^ (e + 1074) ∧ (if s then fint (S754_finite s m e) < 0 else 0 < fint (S754_finite s m e)).
Proof.
  intros Hv. destruct (valid_finite _ _ _ Hv) as (He & _).
  assert (0 < 2 ^ (e + 1074)) by (apply Z.pow_pos_nonneg; lia). cbn [fint]. destruct s; split; nia.
Qed.

(** Larger exponents dominate, for canonical significands. *)
Lemma exponent_dominates m1 e1 m2 e2 :
  valid (S754_finite false m1 e1) = true → valid (S754_finite false m2 e2) = true →
  e1 < e2 → Zpos m1 * 2 ^ (e1 + 1074) < Zpos m2 * 2 ^ (e2 + 1074).
Proof.
  intros (H1 & Hb1 & _)%valid_finite (H2 & _ & Hb2)%valid_finite He.
  destruct Hb2 as [->|Hb2]; [lia|].
  assert (2 ^ (e2 + 1074) = 2 ^ (e2 - e1) * 2 ^ (e1 + 1074)) as ->
    by (rewrite <- Z.pow_add_r by lia; f_equal; lia).
  assert (0 < 2 ^ (e1 + 1074)) by (apply Z.pow_pos_nonneg; lia).
  assert (2 <= 2 ^ (e2 - e1)) by (change 2 with (2 ^ 1) at 1; apply Z.pow_le_mono_r; lia).
  assert (Hm : Zpos m1 < Zpos m2 * 2 ^ (e2 - e1)).
  { assert (Zpos m2 * 2 <= Zpos m2 * 2 ^ (e2 - e1)) by (apply Z.mul_le_mono_nonneg_l; lia). lia. }
  rewrite Z.mul_assoc. by apply Z.mul_lt_mono_pos_r.
Qed.

Lemma valid_sign s s' m e : valid (S754_finite s m e) = valid (S754_finite s' m e).
Proof. done. Qed.

Lemma compare_magnitudes m1 e1 m2 e2 :
  valid (S754_finite false m1 e1) = true → valid (S754_finite false m2 e2) = true →
  match Z.compare e1 e2 with Lt => Lt | Gt => Gt | Eq => Pos.compare_cont Eq m1 m2 end
  = Z.compare (Zpos m1 * 2 ^ (e1 + 1074)) (Zpos m2 * 2 ^ (e2 + 1074)).
Proof.
  intros H1 H2. destruct (Z.compare_spec e1 e2) as [->|Hlt|Hgt].
  - destruct (valid_finite _ _ _ H2) as (He & _).
    assert (0 < 2 ^ (e2 + 1074)) by (apply Z.pow_pos_nonneg; lia).
    change (Pos.compare_cont Eq m1 m2) with (Pos.compare m1 m2).
    destruct (Pos.compare_spec m1 m2) as [->|?|?]; symmetry;
      [apply Z.compare_refl | apply Z.compare_lt_iff; nia | apply Z.compare_gt_iff; nia].
  - symmetry. apply Z.compare_lt_iff. by apply exponent_dominates.
  - symmetry. apply Z.compare_gt_iff. by apply exponent_dominates.
Qed.

Lemma SFcompare_fint x y :
  valid x = true → is_finite x = true → valid y = true → is_finite y = true →
  SFcompare x y = Some (Z.compare (fint x) (fint y)).
Proof.
  intros Hx Fx Hy Fy. destruct x as [| | |s1 m1 e1], y as [| | |s2 m2 e2]; try discriminate Fx;
    try discriminate Fy; [done | | |].
  - destruct (fint_finite_pos _ _ _ Hy) as [_ Hp]. cbn [SFcompare fint]. f_equal. cbn [fint] in Hp.
    destruct s2; symmetry; [apply Z.compare_gt_iff | apply Z.compare_lt_iff]; lia.
  - destruct (fint_finite_pos _ _ _ Hx) as [_ Hp]. cbn [SFcompare fint]. f_equal. cbn [fint] in Hp.
    destruct s1; symmetry; [apply Z.compare_lt_iff | apply Z.compare_gt_iff]; lia.
  - destruct (fint_finite_pos _ _ _ Hx) as [_ Hpx], (fint_finite_pos _ _ _ Hy) as [_ Hpy].
    cbn [SFcompare]. f_equal. rewrite (valid_sign s1 false) in Hx. rewrite (valid_sign s2 false) in Hy.
    pose proof (compare_magnitudes m1 e1 m2 e2 Hx Hy) as Hc.
    destruct s1, s2; cbn [fint] in *.
    + change (Zneg m1) with (- Zpos m1). change (Zneg m2) with (- Zpos m2).
      rewrite !Z.mul_opp_l, Z.compare_opp.
      rewrite (Z.compare_antisym (Zpos m1 * 2 ^ (e1 + 1074))), <- Hc.
      by destruct (Z.compare e1 e2), (Pos.compare_cont Eq m1 m2).
    + symmetry. apply Z.compare_lt_iff. lia.
    + symmetry. apply Z.compare_gt_iff. lia.
    + exact Hc.
Qed.

Lemma fltb_fint x y :
  valid x = true → is_finite x = true → valid y = true → is_finite y = true →
  fltb x y = (fint x <? fint y).
Proof.
  intros. unfold fltb, SFltb. rewrite SFcompare_fint by done. unfold Z.ltb.
  by destruct (Z.compare (fint x) (fint y)).
Qed.

Lemma fleb_fint x y :
  valid x = true → is_finite x = true → valid y = true → is_finite y = true →
  fleb x y = (fint x <=? fint y).
Proof.
  intros. unfold fleb, SFleb. rewrite SFcompare_fint by done. unfold Z.leb.
  by destruct (Z.compare (fint x) (fint y)).
Qed.

(** The unit in the last place grows with the magnitude. *)
Lemma uint_mono x y :
  valid x = true → valid y = true → Z.abs (fint x) <= Z.abs (fint y) → uint x <= uint y ∨ is_finite y = false.
Proof.
  intros Hx Hy H. destruct x as [| | |s1 m1 e1], y as [| | |s2 m2 e2]; cbn [uint is_finite]; auto;
    try (left; done).
  - left. destruct (valid_finite _ _ _ Hy) as (He & _).
    assert (0 < 2 ^ (e2 + 1074)) by (apply Z.pow_pos_nonneg; lia). lia.
  - left. destruct (valid_finite _ _ _ Hy) as (He & _).
    assert (0 < 2 ^ (e2 + 1074)) by (apply Z.pow_pos_nonneg; lia). lia.
  - left. destruct (valid_finite _ _ _ Hy) as (He & _).
    assert (0 < 2 ^ (e2 + 1074)) by (apply Z.pow_pos_nonneg; lia). lia.
  - exfalso. destruct (fint_finite_pos _ _ _ Hx) as [_ Hp]. destruct s1; cbn [fint] in *; lia.
  - left. destruct (Z.le_gt_cases e1 e2) as [Hle|Hgt]; [apply Z.pow_le_mono_r; lia|exfalso].
    rewrite (valid_sign s1 false) in Hx. rewrite (valid_sign s2 false) in Hy.
    pose proof (exponent_dominates m2 e2 m1 e1 Hy Hx Hgt).
    destruct s1, s2; cbn [fint] in H; lia.
Qed.

(** ** The error of one rounding *)

(** [mrs] is [mx] shifted right [k] times: quotient, last lost bit, and whether
    any earlier lost bit was set. *)
Definition shifted (mx k : Z) (mrs : shr_record) : Prop :=
  shr_m mrs = mx / 2 ^ k
  ∧ shr_r mrs = (0 <? k) && Z.odd (mx / 2 ^ (k - 1))
  ∧ shr_s mrs = (0 <? k) && negb (mx mod 2 ^ (k - 1) =? 0).

Lemma shr_1_shifted mx k mrs : 0 <= mx → 0 <= k → shifted mx k mrs → shifted mx (k + 1) (shr_1 mrs).
Proof.
  intros Hmx Hk (Hm & Hr & Hs). assert (0 < 2 ^ k) by (apply Z.pow_pos_nonneg; lia).
  assert (Hdiv : mx / 2 ^ (k + 1) = mx / 2 ^ k / 2).
  { rewrite Z.pow_add_r, Z.div_div by lia. done. }
  assert (Hs' : shr_r mrs || shr_s mrs = negb (mx mod 2 ^ k =? 0)).
  { rewrite Hr, Hs. destruct (Z.ltb_spec 0 k) as [Hpos|]; cbn [andb orb].
    - assert (0 < 2 ^ (k - 1)) by (apply Z.pow_pos_nonneg; lia).
      assert (Hp : 2 ^ k = 2 ^ (k - 1) * 2) by (replace k with (Z.succ (k - 1)) at 1 by lia; rewrite Z.pow_succ_r by lia; ring).
      assert (Hrem : mx mod 2 ^ k = mx mod 2 ^ (k - 1) + 2 ^ (k - 1) * ((mx / 2 ^ (k - 1)) mod 2))
        by (rewrite Hp; apply Z.rem_mul_r; lia).
      pose proof (Z.mod_pos_bound mx (2 ^ (k - 1)) ltac:(lia)).
      rewrite Hrem, Zmod_odd. destruct (Z.odd (mx / 2 ^ (k - 1))); cbn [orb].
      + symmetry. apply negb_true_iff, Z.eqb_neq. lia.
      + f_equal. f_equal. lia.
    - assert (k = 0) as -> by lia. change (2 ^ 0) with 1. by rewrite Z.mod_1_r. }
  assert (Hdiv0 : 0 <= mx / 2 ^ k) by (apply Z.div_pos; lia).
  unfold shifted. rewrite (proj2 (Z.ltb_lt 0 (k + 1))) by lia. cbn [andb].
  replace (k + 1 - 1) with k by lia. rewrite Hdiv.
  destruct mrs as [m r s]; cbn [shr_m shr_r shr_s] in *. subst m.
  destruct (Z.eq_dec (mx / 2 ^ k) 0) as [Hz|Hz].
  - rewrite Hz. cbn. done.
  - rewrite shr_1_pos by lia. cbn [shr_m shr_r shr_s]. done.
Qed.

Lemma iter_shifted p : ∀ mx k mrs, 0 <= mx → 0 <= k → shifted mx k mrs →
  shifted mx (k + Zpos p) (SpecFloat.iter_pos shr_1 p mrs).
Proof.
  induction p as [p IH|p IH|]; intros mx k mrs Hmx Hk Hs; cbn [SpecFloat.iter_pos].
  - replace (k + Zpos p~1) with (k + 1 + Zpos p + Zpos p) by lia.
    apply IH, IH, shr_1_shifted; lia || done.
  - replace (k + Zpos p~0) with (k + Zpos p + Zpos p) by lia. apply IH, IH; lia || done.
  - by apply shr_1_shifted.
Qed.

Lemma shifted_round mx k mrs :
  0 <= mx → 0 <= k → shifted mx k mrs →
  2 * Z.abs (round_nearest_even (shr_m mrs) (loc_of_shr_record mrs) * 2 ^ k - mx) <= 2 ^ k.
Proof.
  intros Hmx Hk (Hm & Hr & Hs). destruct mrs as [m r s]; cbn [shr_m shr_r shr_s] in *.
  assert (0 < 2 ^ k) by (apply Z.pow_pos_nonneg; lia).
  destruct (Z.eq_dec k 0) as [->|Hk0].
  { cbn in Hr, Hs. subst r s m. cbn [loc_of_shr_record round_nearest_even].
    change (2 ^ 0) with 1. rewrite Z.div_1_r. lia. }
  rewrite (proj2 (Z.ltb_lt 0 k)) in * by lia. cbn [andb] in *.
  assert (0 < 2 ^ (k - 1)) by (apply Z.pow_pos_nonneg; lia).
  assert (Hp : 2 ^ k = 2 ^ (k - 1) * 2) by (replace k with (Z.succ (k - 1)) at 1 by lia; rewrite Z.pow_succ_r by lia; ring).
  pose proof (Z.div_mod mx (2 ^ k) ltac:(lia)) as Hdm. rewrite <- Hm in Hdm.
  assert (Hrem : mx mod 2 ^ k = mx mod 2 ^ (k - 1) + 2 ^ (k - 1) * ((mx / 2 ^ (k - 1)) mod 2))
    by (rewrite Hp; apply Z.rem_mul_r; lia).
  pose proof (Z.mod_pos_bound mx (2 ^ (k - 1)) ltac:(lia)) as Hlow.
  rewrite Zmod_odd, <- Hr in Hrem. set (low := mx mod 2 ^ (k - 1)) in *. set (P := 2 ^ (k - 1)) in *.
  rewrite Hrem, Hp in Hdm. rewrite Hp.
  assert (Hsum : ∀ d, (m + d) * (P * 2) - mx = d * (P * 2) - (low + P * (if r then 1 else 0)))
    by (intros d; rewrite Hdm; ring).
  assert (Hval : ∃ d, round_nearest_even m (loc_of_shr_record {| shr_m := m; shr_r := r; shr_s := s |}) = m + d
            ∧ 2 * Z.abs (d * (P * 2) - (low + P * (if r then 1 else 0))) <= P * 2).
  { destruct r, s; cbn [loc_of_shr_record round_nearest_even].
    - exists 1. split; [done | lia].
    - symmetry in Hs. apply negb_false_iff, Z.eqb_eq in Hs.
      destruct (Z.even m); [exists 0 | exists 1]; (split; [lia | lia]).
    - exists 0. split; [lia | lia].
    - symmetry in Hs. apply negb_false_iff, Z.eqb_eq in Hs. exists 0. split; [lia | lia]. }
  destruct Hval as (d & -> & Hd). rewrite Hsum. exact Hd.
Qed.

Lemma shr_fexp_shifted mx ex :
  0 <= mx → let r := shr_fexp 53 1024 mx ex loc_Exact in
  shifted mx (Z.max 0 (fexp64 (Zdigits2 mx + ex) - ex)) (fst r).
Proof.
  intros Hmx. unfold shr_fexp, shr.
  assert (H0 : shifted mx 0 {| shr_m := mx; shr_r := false; shr_s := false |})
    by (unfold shifted; cbn; by rewrite Z.div_1_r).
  destruct (fexp64 (Zdigits2 mx + ex) - ex) as [|p|p]; cbn [fst shr_record_of_loc]; [exact H0 | | exact H0].
  replace (Z.max 0 (Zpos p)) with (0 + Zpos p) by lia. by apply iter_shifted.
Qed.

(** An error of half a unit at a larger exponent. *)
Lemma half_unit_scaled r mx ex e1 :
  -1074 <= ex → ex <= e1 → 2 * Z.abs (r * 2 ^ (e1 - ex) - mx) <= 2 ^ (e1 - ex) →
  2 * Z.abs (r * 2 ^ (e1 + 1074) - mx * 2 ^ (ex + 1074)) <= 2 ^ (e1 + 1074).
Proof.
  intros He Hle H. assert (0 < 2 ^ (ex + 1074)) by (apply Z.pow_pos_nonneg; lia).
  assert (2 ^ (e1 + 1074) = 2 ^ (e1 - ex) * 2 ^ (ex + 1074)) as -> by (rewrite <- Z.pow_add_r by lia; f_equal; lia).
  assert (r * (2 ^ (e1 - ex) * 2 ^ (ex + 1074)) - mx * 2 ^ (ex + 1074)
          = (r * 2 ^ (e1 - ex) - mx) * 2 ^ (ex + 1074)) as -> by ring.
  rewrite Z.abs_mul, (Z.abs_eq (2 ^ (ex + 1074))) by lia. nia.
Qed.

(** The second shift of a rounded significand is exact. *)
Lemma second_shift_exact r e1 :
  0 <= r → r <= 2 ^ 53 → -1074 <= e1 →
  let '(mrs, e2) := shr_fexp 53 1024 r e1 loc_Exact in
  shr_m mrs * 2 ^ (e2 + 1074) = r * 2 ^ (e1 + 1074) ∧ e1 <= e2.
Proof.
  intros Hr0 Hr53 HE1. pose proof (shr_fexp_m r e1 loc_Exact ltac:(lia)) as H2.
  destruct (shr_fexp 53 1024 r e1 loc_Exact) as [mrs2 e2]. cbn [fst snd] in H2. destruct H2 as [Hm2 He2].
  destruct (Z.eq_dec r (2 ^ 53)) as [Hr2|Hr2].
  - rewrite Hr2 in *. change (Zdigits2 (2 ^ 53)) with 54 in *.
    assert (fexp64 (54 + e1) = e1 + 1) as Hf by (unfold fexp, emin; lia).
    rewrite Hf in *. replace (Z.max e1 (e1 + 1)) with (e1 + 1) in He2 by lia.
    replace (Z.max 0 (e1 + 1 - e1)) with 1 in Hm2 by lia. rewrite Hm2, He2. split; [|lia].
    replace (e1 + 1 + 1074) with (1 + (e1 + 1074)) by lia. rewrite (Z.pow_add_r 2 1) by lia.
    change (2 ^ 53 / 2 ^ 1) with (2 ^ 52). ring.
  - assert (fexp64 (Zdigits2 r + e1) <= e1).
    { destruct (Z.eq_dec r 0) as [->|]; [unfold fexp, emin; cbn; lia|].
      destruct (Zdigits2_bounds r ltac:(lia)) as (? & Hl & _).
      assert (H' : 2 ^ (Zdigits2 r - 1) < 2 ^ 53) by lia.
      apply Z.pow_lt_mono_r_iff in H'; [|lia|lia]. unfold fexp, emin. lia. }
    rewrite Z.max_l in Hm2, He2 by lia. rewrite Hm2, He2, Z.div_1_r. split; [done | lia].
Qed.

(** Rounding [mx * 2^ex]: the error is at most half a unit of the result. *)
Lemma binary_round_aux_error s mx ex :
  0 < mx → -1074 <= ex → ex <= fexp64 (Zdigits2 mx + ex) →
  let z := binary_round_aux 53 1024 s mx ex loc_Exact in
  is_finite z = true →
  2 * Z.abs (fint z - (if s then - mx else mx) * 2 ^ (ex + 1074)) <= uint z.
Proof.
  intros Hmx Hemin Hex. unfold binary_round_aux.
  pose proof (shr_fexp_m mx ex loc_Exact ltac:(lia)) as H1.
  pose proof (shr_fexp_shifted mx ex ltac:(lia)) as Hsh.
  destruct (shr_fexp 53 1024 mx ex loc_Exact) as [mrs e1]. cbn [fst snd] in *.
  destruct H1 as [Hm1 He1]. rewrite Z.max_r in Hm1, He1, Hsh by lia.
  set (E1 := fexp64 (Zdigits2 mx + ex)) in *. subst e1.
  apply shifted_round in Hsh; [|lia|lia].
  pose proof (Z.div_pos mx (2 ^ (E1 - ex)) ltac:(lia) ltac:(apply Z.pow_pos_nonneg; lia)) as Hpos.
  pose proof (round_even_range (shr_m mrs) (loc_of_shr_record mrs) ltac:(lia)) as Hr.
  set (r := round_nearest_even _ _) in *.
  assert (HE1 : -1074 <= E1) by (unfold E1, fexp, emin; lia).
  assert (Hr53 : r <= 2 ^ 53).
  { assert (mx / 2 ^ (E1 - ex) < 2 ^ 53); [|lia]. apply Z.div_lt_upper_bound; [apply Z.pow_pos_nonneg; lia|].
    destruct (Zdigits2_bounds mx Hmx) as (_ & _ & Hu). eapply Z.lt_le_trans; [exact Hu|].
    rewrite <- Z.pow_add_r by lia. apply Z.pow_le_mono_r; [lia|]. unfold E1, fexp, emin in *. lia. }
  assert (Hscale : 2 * Z.abs (r * 2 ^ (E1 + 1074) - mx * 2 ^ (ex + 1074)) <= 2 ^ (E1 + 1074))
    by (apply half_unit_scaled; lia).
  pose proof (second_shift_exact r E1 ltac:(lia) Hr53 HE1) as Hexact.
  destruct (shr_fexp 53 1024 r E1 loc_Exact) as [mrs2 e2].
  destruct Hexact as [Hexact He]. cbv zeta.
  destruct (shr_m mrs2) as [|m2|m2] eqn:Em.
  - intros _. cbn [fint uint].
    assert (0 < 2 ^ (E1 + 1074)) by (apply Z.pow_pos_nonneg; lia). assert (r = 0) as Hr0 by nia.
    exfalso. destruct (Zdigits2_div mx (E1 - ex)) as [_ ?]; [|lia|lia].
    destruct (Zdigits2_bounds mx Hmx). unfold E1, fexp, emin in *. lia.
  - destruct (Z.leb_spec e2 (1024 - 53)); [|intros Hfin; discriminate Hfin]. intros _. cbn [fint uint].
    assert (2 ^ (E1 + 1074) <= 2 ^ (e2 + 1074)) by (apply Z.pow_le_mono_r; lia).
    destruct s; [change (Zneg m2) with (- Zpos m2)|]; lia.
  - intros Hfin; discriminate Hfin.
Qed.

Lemma shl_align_value mx ex ex' : ex' <= ex → Zpos (fst (shl_align mx ex ex')) = Zpos mx * 2 ^ (ex - ex').
Proof.
  intros H. pose proof (shl_align_spec mx ex ex') as Hs. cbv zeta in Hs.
  destruct (Z.ltb_spec ex' ex).
  - destruct Hs as [-> _]. rewrite Pos2Z.inj_mul, Pos2Z.inj_pow, Z2Pos.id by lia. done.
  - rewrite Hs. cbn [fst]. replace (ex - ex') with 0 by lia. lia.
Qed.

Lemma binary_round_error s mx ex :
  -1074 <= ex → let z := binary_round 53 1024 s mx ex in
  is_finite z = true → 2 * Z.abs (fint z - (if s then Zneg mx else Zpos mx) * 2 ^ (ex + 1074)) <= uint z.
Proof.
  intros Hex. unfold binary_round. set (E := fexp64 (Zpos (digits2_pos mx) + ex)).
  pose proof (shl_align_spec mx ex E) as Hs. cbv zeta in Hs.
  assert (HE : -1074 <= E) by (unfold E, fexp, emin; lia).
  destruct (shl_align mx ex E) as [mz ez] eqn:Ea. cbn [fst snd] in Hs. cbv zeta.
  destruct (Z.ltb_spec E ex) as [Hlt|Hge].
  - destruct Hs as [Hmz ->]. intros Hfin.
    assert (Hz : Zpos mz = Zpos mx * 2 ^ (ex - E))
      by (rewrite Hmz, Pos2Z.inj_mul, Pos2Z.inj_pow, Z2Pos.id by lia; done).
    assert (Hd : Zdigits2 (Zpos mz) = Zdigits2 (Zpos mx) + (ex - E)).
    { rewrite Hz. destruct (Zdigits2_bounds (Zpos mx) ltac:(lia)) as (? & ? & ?).
      assert (0 < 2 ^ (ex - E)) by (apply Z.pow_pos_nonneg; lia).
      apply Zdigits2_eq; [lia|].
      replace (Zdigits2 (Zpos mx) + (ex - E) - 1) with ((Zdigits2 (Zpos mx) - 1) + (ex - E)) by lia.
      rewrite !Z.pow_add_r by lia. nia. }
    pose proof (binary_round_aux_error s (Zpos mz) E ltac:(lia) HE) as H. cbv zeta in H.
    assert (Hp : 2 ^ (ex + 1074) = 2 ^ (ex - E) * 2 ^ (E + 1074)) by (rewrite <- Z.pow_add_r by lia; f_equal; lia).
    assert (Hv : (if s then - Zpos mz else Zpos mz) * 2 ^ (E + 1074)
                 = (if s then Zneg mx else Zpos mx) * 2 ^ (ex + 1074)).
    { rewrite Hz, Hp. destruct s; [change (Zneg mx) with (- Zpos mx)|]; ring. }
    rewrite <- Hv. apply H; [|exact Hfin]. rewrite Hd. unfold E at 1. apply fexp_mono. cbn [Zdigits2]. lia.
  - injection Hs as -> ->. intros Hfin.
    pose proof (binary_round_aux_error s (Zpos mx) ex ltac:(lia) Hex) as H. cbv zeta in H.
    destruct s; apply H; done.
Qed.

Lemma binary_normalize_error S e sz :
  -1074 <= e → let z := binary_normalize 53 1024 S e sz in
  is_finite z = true → 2 * Z.abs (fint z - S * 2 ^ (e + 1074)) <= uint z.
Proof.
  intros He. destruct S as [|p|p]; cbn [binary_normalize]; cbv zeta.
  - intros _. cbn [fint uint]. lia.
  - apply (binary_round_error false); done.
  - apply (binary_round_error true); done.
Qed.

Lemma cond_Zopp_value s m : cond_Zopp s (Zpos m) = if s then Zneg m else Zpos m.
Proof. by destruct s. Qed.

Lemma cond_Zopp_align s m e ez : ez <= e → -1074 <= ez →
  cond_Zopp s (Zpos (fst (shl_align m e ez))) * 2 ^ (ez + 1074) = fint (S754_finite s m e).
Proof.
  intros He Hez. pose proof (shl_align_value m e ez He) as Hv.
  assert (Hp : 2 ^ (e + 1074) = 2 ^ (e - ez) * 2 ^ (ez + 1074)) by (rewrite <- Z.pow_add_r by lia; f_equal; lia).
  cbn [fint]. rewrite Hp. destruct s; cbn [cond_Zopp]; rewrite Hv; [change (Zneg m) with (- Zpos m)|]; ring.
Qed.

(** One addition rounds the exact sum by at most half a unit of the result. *)
Lemma fadd_error x y :
  valid x = true → is_finite x = true → valid y = true → is_finite y = true →
  is_finite (fadd x y) = true →
  2 * Z.abs (fint (fadd x y) - (fint x + fint y)) <= uint (fadd x y).
Proof.
  intros Hx Fx Hy Fy. destruct x as [s1| | |s1 m1 e1], y as [s2| | |s2 m2 e2]; try discriminate Fx;
    try discriminate Fy.
  - intros _. by destruct s1, s2.
  - intros _. change (fadd (S754_zero s1) (S754_finite s2 m2 e2)) with (S754_finite s2 m2 e2).
    change (fint (S754_zero s1)) with 0. rewrite Z.add_0_l, Z.sub_diag. cbn [Z.abs].
    destruct (fint_finite_pos _ _ _ Hy) as [? _]. cbn [uint]. lia.
  - intros _. change (fadd (S754_finite s1 m1 e1) (S754_zero s2)) with (S754_finite s1 m1 e1).
    change (fint (S754_zero s2)) with 0. rewrite Z.add_0_r, Z.sub_diag. cbn [Z.abs].
    destruct (fint_finite_pos _ _ _ Hx) as [? _]. cbn [uint]. lia.
  - destruct (valid_finite _ _ _ Hx) as (H1 & _), (valid_finite _ _ _ Hy) as (H2 & _).
    unfold fadd. cbn [SFadd]. set (ez := Z.min e1 e2). intros Hfin.
    pose proof (binary_normalize_error _ ez false ltac:(lia) Hfin) as H.
    rewrite Z.mul_add_distr_r, !cond_Zopp_align in H by lia. exact H.
Qed.

(** ** Subtraction *)

Lemma fsub_fneg x y : fsub x y = fadd x (fneg y).
Proof.
  destruct x as [[]|[]| |s1 m1 e1], y as [[]|[]| |s2 m2 e2]; try done;
    unfold fsub, fadd, fneg, SFsub, SFadd, SFopp; destruct s1; try destruct s2; reflexivity.
Qed.

Lemma fneg_valid x : valid (fneg x) = valid x.
Proof. by destruct x. Qed.

Lemma fneg_finite x : is_finite (fneg x) = is_finite x.
Proof. by destruct x. Qed.

Lemma fint_fneg x : fint (fneg x) = - fint x.
Proof.
  destruct x as [| | |s m e]; try done. cbn [fneg SFopp fint].
  destruct s; cbn [negb]; change (Zneg m) with (- Zpos m); ring.
Qed.

Lemma fsub_error x y :
  valid x = true → is_finite x = true → valid y = true → is_finite y = true →
  is_finite (fsub x y) = true →
  2 * Z.abs (fint (fsub x y) - (fint x - fint y)) <= uint (fsub x y).
Proof.
  intros Hx Fx Hy Fy Hfin. rewrite fsub_fneg in *.
  pose proof (fadd_error x (fneg y) Hx Fx ltac:(by rewrite fneg_valid) ltac:(by rewrite fneg_finite) Hfin) as H.
  rewrite fint_fneg in H. exact H.
Qed.

(** A finite nonzero float is at least one of its units away from zero. *)
Lemma uint_le_fint z : valid z = true → fint z ≠ 0 → uint z <= Z.abs (fint z).
Proof.
  destruct z as [| | |s m e]; intros Hv Hz; try done. cbn [uint fint] in *.
  destruct (valid_finite _ _ _ Hv) as (He & _).
  assert (0 < 2 ^ (e + 1074)) by (apply Z.pow_pos_nonneg; lia). destruct s; nia.
Qed.

Lemma uint_pos z : valid z = true → 0 < uint z.
Proof.
  destruct z as [| | |s m e]; intros Hv; cbn [uint]; try lia.
  destruct (valid_finite _ _ _ Hv) as (He & _). apply Z.pow_pos_nonneg; lia.
Qed.

(** Gradual underflow: the difference of two distinct floats has the sign of
    the exact difference. *)
Lemma fsub_positive x y :
  valid x = true → is_finite x = true → valid y = true → is_finite y = true →
  is_finite (fsub x y) = true → fint y < fint x → 0 < fint (fsub x y).
Proof.
  intros Hx Fx Hy Fy Hfin Hlt. pose proof (fsub_error x y Hx Fx Hy Fy Hfin) as H.
  pose proof (fsub_valid x y Hx Hy) as Hv.
  destruct (Z.eq_dec (fint (fsub x y)) 0) as [Hz|Hz].
  - exfalso. destruct (fsub x y) as [| | |s m e] eqn:E; try discriminate Hfin; cbn [uint fint] in *; [lia|].
    destruct (fint_finite_pos _ _ _ Hv) as [Hp _]. destruct s; nia.
  - pose proof (uint_le_fint _ Hv Hz). pose proof (uint_pos _ Hv). lia.
Qed.

(** ** No overflow below 2^1023 *)

Lemma binary_round_aux_finite s mx ex :
  0 < mx → ex <= fexp64 (Zdigits2 mx + ex) → Zdigits2 mx + ex <= 1023 →
  is_finite (binary_round_aux 53 1024 s mx ex loc_Exact) = true.
Proof.
  intros Hmx Hex Hd. unfold binary_round_aux.
  pose proof (shr_fexp_m mx ex loc_Exact ltac:(lia)) as H1.
  destruct (shr_fexp 53 1024 mx ex loc_Exact) as [mrs e1]. cbn [fst snd] in *.
  destruct H1 as [Hm1 He1]. rewrite Z.max_r in Hm1, He1 by lia.
  set (E1 := fexp64 (Zdigits2 mx + ex)) in *. subst e1.
  pose proof (Z.div_pos mx (2 ^ (E1 - ex)) ltac:(lia) ltac:(apply Z.pow_pos_nonneg; lia)) as Hpos.
  rewrite <- Hm1 in Hpos.
  pose proof (round_even_range (shr_m mrs) (loc_of_shr_record mrs) Hpos) as Hr.
  set (r := round_nearest_even _ _) in *.
  assert (Hr53 : r <= 2 ^ 53).
  { assert (shr_m mrs < 2 ^ 53); [|lia]. rewrite Hm1.
    apply Z.div_lt_upper_bound; [apply Z.pow_pos_nonneg; lia|].
    destruct (Zdigits2_bounds mx Hmx) as (_ & _ & Hu). eapply Z.lt_le_trans; [exact Hu|].
    rewrite <- Z.pow_add_r by lia. apply Z.pow_le_mono_r; [lia|]. unfold E1, fexp, emin in *. lia. }
  pose proof (shr_fexp_m r E1 loc_Exact ltac:(lia)) as H2.
  destruct (shr_fexp 53 1024 r E1 loc_Exact) as [mrs2 e2]. cbn [fst snd] in H2. destruct H2 as [Hm2 He2].
  assert (He : e2 <= 971).
  { assert (Zdigits2 r <= 54).
    { destruct (Z.eq_dec r 0) as [->|]; [done|]. change 54 with (Zdigits2 (2 ^ 53)). apply Zdigits2_mono. lia. }
    unfold E1, fexp, emin in *. lia. }
  pose proof (Z.div_pos r (2 ^ Z.max 0 (fexp64 (Zdigits2 r + E1) - E1)) ltac:(lia) ltac:(apply Z.pow_pos_nonneg; lia)).
  destruct (shr_m mrs2) as [|m2|m2]; [done | | lia]. by rewrite (proj2 (Z.leb_le _ _)).
Qed.

Lemma binary_normalize_finite S e sz :
  -1074 <= e → Z.abs S * 2 ^ (e + 1074) < 2 ^ 2097 → is_finite (binary_normalize 53 1024 S e sz) = true.
Proof.
  intros He. assert (Hr : ∀ s p, Zpos p * 2 ^ (e + 1074) < 2 ^ 2097 → is_finite (binary_round 53 1024 s p e) = true).
  { intros s p Hlt. unfold binary_round. set (E := fexp64 (Zpos (digits2_pos p) + e)).
    assert (Hd : Zdigits2 (Zpos p) + e <= 1023).
    { destruct (Zdigits2_bounds (Zpos p) ltac:(lia)) as (Hd0 & Hl & _).
      assert (0 < 2 ^ (e + 1074)) by (apply Z.pow_pos_nonneg; lia).
      assert (2 ^ (Zdigits2 (Zpos p) - 1) * 2 ^ (e + 1074) < 2 ^ 2097) as Hp
        by (apply Z.le_lt_trans with (Zpos p * 2 ^ (e + 1074)); [by apply Z.mul_le_mono_pos_r | done]).
      rewrite <- Z.pow_add_r in Hp by lia. apply Z.pow_lt_mono_r_iff in Hp; lia. }
    pose proof (shl_align_spec p e E) as Hs. cbv zeta in Hs.
    destruct (shl_align p e E) as [mz ez]. cbn [fst snd] in Hs.
    destruct (Z.ltb_spec E e) as [Hlt'|Hge].
    - destruct Hs as [-> ->].
      assert (HE : -1074 <= E) by (unfold E, fexp, emin; lia).
      assert (Hz : Zdigits2 (Zpos (p * 2 ^ Z.to_pos (e - E))) = Zdigits2 (Zpos p) + (e - E)).
      { rewrite Pos2Z.inj_mul, Pos2Z.inj_pow, Z2Pos.id by lia.
        destruct (Zdigits2_bounds (Zpos p) ltac:(lia)) as (? & ? & ?).
        assert (0 < 2 ^ (e - E)) by (apply Z.pow_pos_nonneg; lia).
        apply Zdigits2_eq; [lia|].
        replace (Zdigits2 (Zpos p) + (e - E) - 1) with ((Zdigits2 (Zpos p) - 1) + (e - E)) by lia.
        rewrite !Z.pow_add_r by lia. nia. }
      apply binary_round_aux_finite; rewrite ?Hz; [lia | | lia].
      unfold E at 1. apply fexp_mono. cbn [Zdigits2]. lia.
    - injection Hs as -> ->. by apply binary_round_aux_finite. }
  destruct S as [|p|p]; cbn [Z.abs binary_normalize]; [done | apply Hr..].
Qed.

Lemma fadd_finite x y :
  valid x = true → is_finite x = true → valid y = true → is_finite y = true →
  Z.abs (fint x + fint y) < 2 ^ 2097 → is_finite (fadd x y) = true.
Proof.
  intros Hx Fx Hy Fy H. destruct x as [s1| | |s1 m1 e1], y as [s2| | |s2 m2 e2]; try discriminate Fx;
    try discriminate Fy; [by destruct s1, s2 | done | done|].
  destruct (valid_finite _ _ _ Hx) as (H1 & _), (valid_finite _ _ _ Hy) as (H2 & _).
  unfold fadd. cbn [SFadd]. set (ez := Z.min e1 e2).
  apply binary_normalize_finite; [lia|]. rewrite <- (Z.abs_eq (2 ^ (ez + 1074))), <- Z.abs_mul by
    (apply Z.pow_nonneg; lia).
  rewrite Z.mul_add_distr_r, !cond_Zopp_align by lia. done.
Qed.
