(* ===== verification/StepControllers.v ===== *)
(** * Step controllers: choosing the next interval

    The numerical half of [python/pops/runtime/_step_strategy.py]: the interval
    each controller prepares, the fixed-grid envelope of [FixedDt], the grid
    cursor of [ExternalTimeGrid] and the proposal of [ErrorControlledDt]. *)
From Stdlib Require Import SpecFloat.
From S2P Require Import Prelude Binary64 PyRound FloatValid HexFloat FloatError Manifest StepStrategy Temporal.

(** [math.ulp] *)
Definition ulp (f : float) : float :=
  match f with
  | S754_finite _ _ e => binary_normalize 53 1024 1 e false
  | S754_zero _ => binary_normalize 53 1024 1 (-1074) false
  | S754_infinity _ => S754_infinity false
  | S754_nan => S754_nan
  end.

Definition fabs (f : float) : float := SFabs f.
Definition fmax (a b : float) : float := if fltb a b then b else a.
Definition four : float := float_of_Z 4.
Definition one : float := float_of_Z 1.

(** [math.isclose(a, b, rel_tol=0.0, abs_tol=tol)] *)
Definition isclose (a b tol : float) : bool :=
  feqb a b || (is_finite a && is_finite b && fleb (fabs (fsub b a)) tol).

(** ** [FixedDt] *)

(** The origin and the step count the next interval continues. *)
Definition grid_cursor (grid : option fixed_grid) (now : float) (macro_step : Z) : res (float * Z) :=
  match grid with
  | None => Ok (now, 0)
  | Some g =>
      _ ← require (same_float (fg_time g) now && (fg_macro g =? macro_step)) RuntimeError;
      Ok (fg_origin g, fg_steps g)
  end.

(** [origin + (count + 1) * dt]; the conversion of the count may overflow. *)
Definition grid_endpoint (origin : float) (count : Z) (dt : float) : float :=
  let n := float_of_Z (count + 1) in
  if is_finite n then fadd origin (fmul n dt) else S754_infinity false.

(** The interval the controller takes. *)
Definition fixed_interval (dt now t_end remaining endpoint : float) : float :=
  if feqb (fadd now dt) t_end then dt
  else if feqb endpoint t_end then remaining
  else
    let d := fmin dt remaining in
    if isclose (fadd now d) t_end (fmul four (fmax (ulp (fadd now d)) (ulp t_end))) then remaining else d.

(** [FixedDtController.prepare_attempts]: the interval and the grid published
    when it is accepted. *)
Definition fixed_prepare (dt : float) (grid : option fixed_grid) (now : float) (macro_step : Z) (t_end : float)
    : res (float * fixed_grid) :=
  let remaining := fsub t_end now in
  _ ← require (fltb fzero remaining) RuntimeError;
  '(origin, count) ← grid_cursor grid now macro_step;
  let step := fixed_interval dt now t_end remaining (grid_endpoint origin count dt) in
  _ ← require (fltb fzero step) RuntimeError;
  _ ← require (fltb now (fadd now step)) RuntimeError;
  let continuous := feqb step dt in
  Ok (step, FixedGrid (if continuous then origin else fadd now step) (if continuous then count + 1 else 0)
              (fadd now step) (macro_step + 1)).

(** ** [ExternalTimeGrid] *)

Definition same_time (left right : float) : bool :=
  let scale := fmax (fmax one (fabs left)) (fabs right) in
  fleb (fabs (fsub left right)) (fmul four (ulp scale)).

(** [bisect.bisect_left] on an increasing grid: the first index whose value is
    not below [x]. *)
Fixpoint bisect_left (grid : list float) (x : float) : nat :=
  match grid with
  | [] => O
  | g :: grid => if fltb g x then S (bisect_left grid x) else O
  end.

(** [ExternalTimeGridController.prepare_attempts]: the interval to the next grid
    point. *)
Definition external_prepare (grid : list float) (now t_end : float) : res float :=
  let index := bisect_left grid now in
  index ← match grid !! index with
          | Some g => if same_time g now then Ok index
                      else match index with
                           | S i => match grid !! i with
                                    | Some g' => if same_time g' now then Ok i else Err RuntimeError
                                    | None => Err RuntimeError end
                           | O => Err RuntimeError end
          | None => match index with
                    | S i => match grid !! i with
                             | Some g' => if same_time g' now then Ok i else Err RuntimeError
                             | None => Err RuntimeError end
                    | O => Err RuntimeError end
          end;
  match grid !! S index with
  | None => Err RuntimeError
  | Some next_time =>
      _ ← require (negb (fltb t_end next_time && negb (same_time next_time t_end))) RuntimeError;
      Ok (fsub next_time now)
  end.

(** ** [AdaptiveCFL] and [ErrorControlledDt] *)

(** [min(caps)] over a non-empty list. *)
Definition fmin_list (x : float) (l : list float) : float := foldl fmin x l.

(** The clamps of [AdaptiveCFLController.prepare_attempts]. *)
Definition cfl_prepare (max_dt : option float) (controls : list (string * float)) (now t_end : float) : float * float :=
  (fmin_list (fsub t_end now)
     (match max_dt with Some m => [m] | None => [] end
      ++ match dget "dt_max" controls with Some m => [m] | None => [] end),
   default fzero (dget "dt_min" controls)).

(** The first proposal of [ErrorControlledDtController.prepare_attempts]. *)
Definition error_proposal (p : error_policy) (next_dt now t_end : float) : float :=
  fmin_list next_dt [dt_max p; fsub t_end now].

(** Its [retry]: the reduced proposal, if one may be made. *)
Definition error_retry (p : error_policy) (proposal : float) (attempts : Z) : option float :=
  if max_rejections p <? attempts then None
  else
    let reduced := fmul proposal (shrink p) in
    if fltb reduced (dt_min p) then None else Some reduced.

(** Its [accept]: the next proposal. *)
Definition error_next (p : error_policy) (proposal : float) : float :=
  fmin (dt_max p) (fmul proposal (growth p)).

(** ** The fixed-grid certificate, on integers *)

Definition unit_value : Qc := zpow 2 (-1074).

Lemma unit_pos : (0 < unit_value)%Qc.
Proof. done. Qed.

Lemma qz_le a b : (qz a <= qz b)%Qc ↔ a <= b.
Proof. unfold Qcle, qz. cbn [this Q2Qc]. rewrite !Qred_correct, <- Zle_Qle. done. Qed.

Lemma qz_unit_le a b : (qz a * unit_value <= qz b * unit_value)%Qc ↔ a <= b.
Proof.
  rewrite <- qz_le. split; intros H.
  - by apply (Qcmult_lt_0_le_reg_r _ _ unit_value unit_pos).
  - apply Qcmult_le_compat_r; [done | apply Qclt_le_weak, unit_pos].
Qed.

Lemma fulp_uint f : valid f = true → fulp f = (qz (uint f) * unit_value)%Qc.
Proof.
  destruct f as [s| | |s m e]; intros Hv; cbn [fulp uint]; try (change (qz 1) with 1%Qc; unfold unit_value; ring).
  destruct (valid_finite _ _ _ Hv) as (He & _).
  unfold unit_value. rewrite (zpow_shift 2 ltac:(lia) e (-1074)) by lia. replace (e - -1074) with (e + 1074) by lia. done.
Qed.

Lemma qmax_units a b : qmax (qz a * unit_value) (qz b * unit_value) = (qz (Z.max a b) * unit_value)%Qc.
Proof.
  unfold qmax. destruct (decide (qz a * unit_value <= qz b * unit_value)%Qc) as [H|H];
    rewrite qz_unit_le in H; f_equal; f_equal; lia.
Qed.

Lemma qabs_units a : qabs (qz a * unit_value) = (qz (Z.abs a) * unit_value)%Qc.
Proof.
  assert (H0 : (qz 0 * unit_value)%Qc = 0%Qc) by (change (qz 0) with 0%Qc; ring).
  unfold qabs. rewrite <- H0. destruct (decide _) as [H|H]; rewrite qz_unit_le in H.
  - by rewrite Z.abs_eq.
  - rewrite Z.abs_neq by lia. rewrite qz_opp. ring.
Qed.

(** The bound the certificate checks: [count] half units of drift. *)
Definition certified (origin time dt : float) (count : Z) : Prop :=
  2 * Z.abs (fint time - (fint origin + count * fint dt)) <= count * Z.max (uint origin) (uint time).

Lemma fixed_grid_clock_certified g dt time macro_step :
  valid (fg_origin g) = true → valid time = true → valid dt = true →
  validate_fixed_grid_clock g (FixedDt dt) time macro_step = Ok tt ↔
  fg_time g = time ∧ fg_macro g = macro_step ∧ certified (fg_origin g) time dt (fg_steps g).
Proof.
  intros Ho Ht Hd. unfold validate_fixed_grid_clock, same_float, certified.
  rewrite !float_value_fint, !fulp_uint by done. fold unit_value. rewrite qmax_units.
  set (w := Z.max (uint (fg_origin g)) (uint time)).
  set (d := fint time - (fint (fg_origin g) + fg_steps g * fint dt)).
  assert (Hval : (qz (fint time) * unit_value
                  - (qz (fint (fg_origin g)) * unit_value + qz (fg_steps g) * (qz (fint dt) * unit_value)))%Qc
                 = (qz d * unit_value)%Qc).
  { unfold d. replace (fint time - (fint (fg_origin g) + fg_steps g * fint dt))
      with (fint time + - (fint (fg_origin g) + fg_steps g * fint dt)) by lia.
    rewrite qz_add, qz_opp, qz_add, qz_mul. ring. }
  assert (Hb : (qz (fg_steps g) * (qz w * unit_value) / qz 2)%Qc = (qz (fg_steps g * w) * unit_value / qz 2)%Qc)
    by (rewrite qz_mul; unfold Qcdiv; ring).
  rewrite Hval, Hb, qabs_units.
  assert (Hle : (qz (Z.abs d) * unit_value <= qz (fg_steps g * w) * unit_value / qz 2)%Qc ↔ 2 * Z.abs d <= fg_steps g * w).
  { rewrite <- (qz_unit_le (2 * Z.abs d)), (qz_mul 2 (Z.abs d)).
    assert (H2 : (0 < qz 2)%Qc) by done. assert (Hinv : qz 2 ≠ 0%Qc) by (by apply qz_neq0).
    assert (Hh : (qz (fg_steps g * w) * unit_value / qz 2 * qz 2)%Qc = (qz (fg_steps g * w) * unit_value)%Qc)
      by (field; done).
    split; intros H.
    - apply (Qcmult_le_compat_r _ _ (qz 2)) in H; [|done]. rewrite Hh in H.
      replace (qz 2 * qz (Z.abs d) * unit_value)%Qc with (qz (Z.abs d) * unit_value * qz 2)%Qc by ring. exact H.
    - apply (Qcmult_lt_0_le_reg_r _ _ (qz 2) H2). rewrite Hh.
      replace (qz (Z.abs d) * unit_value * qz 2)%Qc with (qz 2 * qz (Z.abs d) * unit_value)%Qc by ring. exact H. }
  split.
  - intros H. inv_ok. bools. split_and!; [done | done|]. by apply Hle.
  - intros (Htime & Hmacro & H). rewrite (bool_decide_true (fg_time g = time)) by done.
    rewrite Hmacro, Z.eqb_refl. cbn [andb require mbind res_bind].
    rewrite bool_decide_true; [done|]. by apply Hle.
Qed.

(** ** Every prepared interval is certified *)

(** One continuous interval adds at most half a unit of drift. *)
Lemma certified_step origin now dt time count :
  valid origin = true → is_finite origin = true → valid now = true → is_finite now = true →
  valid dt = true → is_finite dt = true → is_finite (fadd now dt) = true → time = fadd now dt →
  0 <= count → fint origin <= fint now → fint now < fint time →
  certified origin now dt count → certified origin time dt (count + 1).
Proof.
  intros Vo Fo Vn Fn Vd Fd Ff -> Hc Hon Hnt Hcert. unfold certified in *.
  pose proof (fadd_error now dt Vn Fn Vd Fd Ff) as Herr.
  pose proof (fadd_valid now dt Vn Vd) as Vt. set (t := fadd now dt) in *.
  assert (Hu : uint now <= Z.max (uint origin) (uint t)).
  { destruct (Z.le_gt_cases (Z.abs (fint now)) (Z.abs (fint t))) as [Hle|Hgt].
    - destruct (uint_mono now t Vn Vt Hle) as [?|Hf]; [lia | congruence].
    - assert (Hle : Z.abs (fint now) <= Z.abs (fint origin)) by lia.
      destruct (uint_mono now origin Vn Vo Hle) as [?|Hf]; [lia | congruence]. }
  assert (Hsplit : fint t - (fint origin + (count + 1) * fint dt)
                   = (fint t - (fint now + fint dt)) + (fint now - (fint origin + count * fint dt))) by ring.
  rewrite Hsplit.
  assert (count * Z.max (uint origin) (uint now) <= count * Z.max (uint origin) (uint t))
    by (apply Z.mul_le_mono_nonneg_l; lia).
  pose proof (Z.abs_triangle (fint t - (fint now + fint dt)) (fint now - (fint origin + count * fint dt))).
  lia.
Qed.

(** A grid the envelope accepts, between its origin and [now]. *)
Definition good_grid (grid : option fixed_grid) (dt now : float) (macro_step : Z) : Prop :=
  match grid with
  | None => True
  | Some g => good (fg_origin g) ∧ fg_time g = now ∧ fg_macro g = macro_step
      ∧ 0 <= fg_steps g <= macro_step ∧ fint (fg_origin g) <= fint now
      ∧ certified (fg_origin g) now dt (fg_steps g)
  end.

Lemma good_grid_cursor grid dt now macro_step origin count :
  good now → 0 <= macro_step → good_grid grid dt now macro_step →
  grid_cursor grid now macro_step = Ok (origin, count) →
  good origin ∧ 0 <= count <= macro_step ∧ fint origin <= fint now ∧ certified origin now dt count.
Proof.
  intros Hn Hm Hg H. destruct grid as [g|]; cbn in H; inv_ok.
  - destruct Hg as (? & ? & ? & ? & ? & ?). done.
  - split_and!; try done; try lia. unfold certified. lia.
Qed.

Lemma feqb_fint x y :
  valid x = true → valid y = true → is_finite x = true → is_finite y = true → feqb x y = true → fint x = fint y.
Proof.
  intros Hx Hy Fx Fy H. unfold feqb, SFeqb in H. rewrite SFcompare_fint in H by done.
  destruct (Z.compare_spec (fint x) (fint y)); [done | discriminate H..].
Qed.

Lemma fadd_finite_r x y : is_finite x = true → is_finite (fadd x y) = true → is_finite y = true.
Proof. by destruct x, y. Qed.

Lemma fmin_valid x y : valid x = true → valid y = true → valid (fmin x y) = true.
Proof. intros. unfold fmin. by destruct (fltb _ _). Qed.

Lemma fixed_interval_valid dt now t_end endpoint :
  valid dt = true → valid (fsub t_end now) = true →
  valid (fixed_interval dt now t_end (fsub t_end now) endpoint) = true.
Proof.
  intros. unfold fixed_interval. destruct (feqb _ _); [done|]. destruct (feqb _ _); [done|].
  cbv zeta. destruct (isclose _ _ _); [done | by apply fmin_valid].
Qed.

(** What a prepared interval and its grid satisfy. *)
Lemma fixed_prepare_ok dt grid now macro_step t_end d g :
  good now → good t_end → valid dt = true → is_finite dt = true → 0 <= macro_step →
  good_grid grid dt now macro_step → fixed_prepare dt grid now macro_step t_end = Ok (d, g) →
  is_finite (fadd now d) = true →
  let time := fadd now d in
  good time ∧ fint now < fint time ∧ good_grid (Some g) dt time (macro_step + 1)
  ∧ (fg_steps g = 0 ↔ fg_origin g = time).
Proof.
  intros [Vn Fn] [Ve Fe] Vd Fd Hm Hgrid H Ft time. unfold fixed_prepare in H. cbv zeta in H.
  destruct (fltb fzero (fsub t_end now)) eqn:Hrem; [|discriminate H]. cbn [require mbind res_bind] in H.
  destruct (grid_cursor grid now macro_step) as [[origin count]|] eqn:Hcur; [|discriminate H].
  cbn [mbind res_bind] in H.
  set (i := fixed_interval dt now t_end (fsub t_end now) (grid_endpoint origin count dt)) in *.
  destruct (fltb fzero i) eqn:Hpos; [|discriminate H]. cbn [require mbind res_bind] in H.
  destruct (fltb now (fadd now i)) eqn:Hadv; [|discriminate H]. cbn [require mbind res_bind] in H.
  injection H as <- <-. fold time in Hadv, Ft |- *.
  assert (Vi : valid i = true) by (apply fixed_interval_valid; [done | by apply fsub_valid]).
  assert (Fi : is_finite i = true) by (by apply (fadd_finite_r now)).
  assert (Vt : valid time = true) by (by apply fadd_valid).
  assert (Hlt : fint now < fint time) by (by rewrite fltb_fint, Z.ltb_lt in Hadv by done).
  destruct (good_grid_cursor grid dt now macro_step origin count (conj Vn Fn) Hm Hgrid Hcur) as ([Vo Fo] & Hc & Hle & Hcert).
  split; [done | split; [done | split]].
  - cbn [good_grid fg_origin fg_time fg_macro fg_steps]. fold time. destruct (feqb i dt) eqn:Heq.
    + pose proof (feqb_fint i dt Vi Vd Fi Fd Heq) as Hfi.
      split; [done | split; [done | split; [done | split; [lia | split; [lia|]]]]].
      assert (Hcert' : certified origin now i count) by (unfold certified in *; by rewrite Hfi).
      pose proof (certified_step origin now i time count Vo Fo Vn Fn Vi Fi Ft eq_refl ltac:(lia) Hle Hlt Hcert') as Hs.
      unfold certified in *. by rewrite <- Hfi.
    + split; [done | split; [done | split; [done | split; [lia | split; [lia|]]]]]. unfold certified. lia.
  - cbn [fg_steps fg_origin]. fold time. destruct (feqb i dt); [|done]. split; [lia|]. intros Hot. rewrite Hot in Hle. lia.
Qed.

Lemma fixed_certificate dt grid now macro_step t_end d g :
  positive dt → good now → good t_end → 0 <= macro_step → good_grid grid dt now macro_step →
  fixed_prepare dt grid now macro_step t_end = Ok (d, g) →
  is_finite (fadd now d) = true → is_finite (fsub (fadd now d) now) = true →
  let time := fadd now d in
  let state := Controller (Some (fsub time now)) (Some g) in
  validate_controller_state state = Ok state
  ∧ validate_fixed_grid_clock g (FixedDt dt) time (macro_step + 1) = Ok tt
  ∧ good_grid (Some g) dt time (macro_step + 1).
Proof.
  intros [[Vd Fd] _] Hn He Hm Hgrid Hprep Ft Fs time state.
  destruct (fixed_prepare_ok _ _ _ _ _ _ _ Hn He Vd Fd Hm Hgrid Hprep Ft) as ([Vt _] & Hlt & Hg & Hz).
  fold time in Vt, Hlt, Hg, Hz, Ft, Fs. destruct Hn as [Vn Fn].
  destruct Hg as ([Vo Fo] & Ht & Hma & Hst & Hle & Hcert).
  split; [| split; [by apply fixed_grid_clock_certified | done]].
  unfold state, validate_controller_state. cbn [ct_last ct_grid].
  assert (H0 : fltb fzero (fsub time now) = true).
  { rewrite fltb_fint, Z.ltb_lt by (done || by apply fsub_valid). by apply fsub_positive. }
  rewrite Fs, H0. cbn [andb require mbind res_bind].
  rewrite Ht, Fo, Ft. cbn [andb require mbind res_bind].
  rewrite Hma, !(proj2 (Z.leb_le _ _)) by lia. cbn [andb require mbind res_bind].
  assert (Hno : fltb time (fg_origin g) = false).
  { rewrite fltb_fint by done. apply Z.ltb_ge. lia. }
  rewrite Hno. unfold same_float.
  destruct (Z.eqb_spec (fg_steps g) 0) as [H|H].
  - by rewrite (bool_decide_true (fg_origin g = time)) by (by apply Hz).
  - rewrite (bool_decide_false (fg_origin g = time)) by tauto. done.
Qed.

(** Every interval [FixedDt] prepares from a certified grid lands on a
    published grid that the restart envelope accepts: the controller state is
    well formed, the time is within half a unit in the last place per
    uninterrupted step of [origin + steps * dt], and the next interval starts
    from a certified grid again.  So the drift bound the checkpoint checks is
    never exceeded by the controller's own additions, however many steps it
    takes. *)
Theorem fixed_grid_certified dt grid now macro_step t_end d g :
  positive dt → good now → good t_end → 0 <= macro_step → good_grid grid dt now macro_step →
  fixed_prepare dt grid now macro_step t_end = Ok (d, g) →
  is_finite (fadd now d) = true → is_finite (fsub (fadd now d) now) = true →
  let time := fadd now d in
  let state := Controller (Some (fsub time now)) (Some g) in
  validate_controller_state state = Ok state
  ∧ validate_fixed_grid_clock g (FixedDt dt) time (macro_step + 1) = Ok tt
  ∧ good_grid (Some g) dt time (macro_step + 1).
Proof. apply fixed_certificate. Qed.

Lemma fixed_grid_certified_witness :
  let now := tenth in
  let state := Controller (Some (fsub (fadd now tenth) now)) (Some (FixedGrid fzero 2 (fadd now tenth) 2)) in
  validate_controller_state state = Ok state
  ∧ validate_fixed_grid_clock (FixedGrid fzero 2 (fadd now tenth) 2) (FixedDt tenth) (fadd now tenth) (1 + 1) = Ok tt
  ∧ good_grid (Some (FixedGrid fzero 2 (fadd now tenth) 2)) tenth (fadd now tenth) (1 + 1).
Proof.
  apply (fixed_grid_certified tenth (Some (FixedGrid fzero 1 tenth 1)) tenth 1 one tenth
           (FixedGrid fzero 2 (fadd tenth tenth) 2)); try done.
Defined.
