(* ===== verification/GridWalk.v ===== *)
(** * The external time grid

    [ExternalTimeGridController] recovers its index from the native clock at
    every step.  Here: the tolerance of [_same_time] as an exact integer bound,
    and the walk of a whole grid by [t <- fl(t + fl(next - t))]. *)
From Stdlib Require Import SpecFloat.
From S2P Require Import Prelude Binary64 PyRound FloatValid HexFloat FloatError Manifest StepStrategy Temporal StepControllers.

(** ** The tolerance *)

(** A float within half its own unit of a power of two is that power. *)
Lemma power_exact z k :
  valid z = true → is_finite z = true → 0 <= k → 2 * Z.abs (fint z - 2 ^ k) <= uint z → fint z = 2 ^ k.
Proof.
  intros Hv Hf Hk H. assert (0 < 2 ^ k) by (apply Z.pow_pos_nonneg; lia).
  destruct z as [| | |s m e]; try discriminate Hf; [cbn [fint uint] in H; lia|].
  destruct (valid_finite _ _ _ Hv) as (He & _ & Hm). cbn [fint uint] in *.
  assert (HU : 0 < 2 ^ (e + 1074)) by (apply Z.pow_pos_nonneg; lia). set (c := if s then Zneg m else Zpos m) in *.
  destruct (Z.le_gt_cases (e + 1074) k) as [Hle|Hgt].
  - assert (Hp : 2 ^ k = 2 ^ (k - (e + 1074)) * 2 ^ (e + 1074)) by (rewrite <- Z.pow_add_r by lia; f_equal; lia).
    rewrite Hp in H |- *. rewrite <- Z.mul_sub_distr_r, Z.abs_mul, (Z.abs_eq (2 ^ (e + 1074))) in H by lia.
    f_equal. nia.
  - assert (2 ^ k <= 2 ^ (e + 1074)) by (apply Z.pow_le_mono_r; lia).
    exfalso. assert (2 ^ 52 <= Z.abs c) by (unfold c; destruct s; lia).
    assert (Z.abs (c * 2 ^ (e + 1074)) = Z.abs c * 2 ^ (e + 1074)) by (rewrite Z.abs_mul; lia). nia.
Qed.

Lemma valid_exponent s m e : valid (S754_finite s m e) = true → e <= 971.
Proof.
  cbn [valid valid_binary]. unfold bounded. intros [_ H]%andb_true_iff. apply Z.leb_le in H. lia.
Qed.

Lemma uint_power x : valid x = true → is_finite x = true → ∃ k, uint x = 2 ^ k ∧ 0 <= k <= 2045.
Proof.
  destruct x as [| | |s m e]; intros Hv Hf; try discriminate Hf; [by exists 0|].
  exists (e + 1074). destruct (valid_finite _ _ _ Hv) as (? & _). pose proof (valid_exponent _ _ _ Hv). split; [done | lia].
Qed.

Lemma ulp_ok f :
  valid f = true → is_finite f = true →
  valid (ulp f) = true ∧ is_finite (ulp f) = true ∧ fint (ulp f) = uint f.
Proof.
  destruct f as [| | |s m e]; intros Hv Hf; try discriminate Hf; [done|].
  destruct (valid_finite _ _ _ Hv) as (He & _). pose proof (valid_exponent _ _ _ Hv).
  cbn [ulp uint]. assert (Hfin : is_finite (binary_normalize 53 1024 1 e false) = true).
  { apply binary_normalize_finite; [lia|]. rewrite Z.mul_1_l. apply Z.pow_lt_mono_r; lia. }
  split; [apply binary_normalize_valid | split; [done|]].
  apply power_exact; [apply binary_normalize_valid | done | lia|].
  pose proof (binary_normalize_error 1 e false He Hfin) as H0. by rewrite Z.mul_1_l in H0.
Qed.

(** Four units of a scale above one: the product is exact. *)
Lemma four_ulps_ok f :
  valid f = true → is_finite f = true → uint one <= uint f →
  let t := fmul four (ulp f) in valid t = true ∧ is_finite t = true ∧ fint t = 4 * uint f.
Proof.
  intros Hv Hf Hone t. destruct (ulp_ok f Hv Hf) as (Vu & Fu & Hu).
  assert (Vt : valid t = true) by (apply fmul_valid; [apply float_of_Z_valid | done]).
  destruct (uint_power f Hv Hf) as (k & Hk & Hk0). rewrite Hk in *.
  assert (Hk1 : 1022 <= k) by (change (uint one) with (2 ^ 1022) in Hone; apply (Z.pow_le_mono_r_iff 2); lia).
  destruct (ulp f) as [| | |s m e] eqn:Eu; try discriminate Fu; [cbn [fint] in Hu; lia|].
  destruct (valid_finite _ _ _ Vu) as (He & Hm53 & _). cbn [fint] in Hu.
  assert (HU : 0 < 2 ^ (e + 1074)) by (apply Z.pow_pos_nonneg; lia).
  assert (0 < 2 ^ k) by (apply Z.pow_pos_nonneg; lia).
  destruct s; [lia|].
  assert (Hlo : -106 <= e).
  { assert (2 ^ k < 2 ^ (53 + (e + 1074))) as Hlt by (rewrite Z.pow_add_r by lia; nia).
    apply Z.pow_lt_mono_r_iff in Hlt; lia. }
  change four with (S754_finite false (2 ^ 52)%positive (-50)) in *.
  unfold t, fmul in *. cbn [SFmul xorb] in *.
  set (mx := Zpos (2 ^ 52 * m)) in *.
  assert (Hmx : mx * 2 ^ (-50 + e + 1074) = 2 ^ (k + 2)).
  { unfold mx. rewrite Pos2Z.inj_mul, Pos2Z.inj_pow. replace (2 ^ (k + 2)) with (2 ^ k * 4) by (rewrite Z.pow_add_r by lia; ring).
    rewrite <- Hu. assert (2 ^ 52 * 2 ^ (-50 + e + 1074) = 4 * 2 ^ (e + 1074)) by
      (rewrite <- Z.pow_add_r by lia; replace (52 + (-50 + e + 1074)) with (2 + (e + 1074)) by lia; rewrite Z.pow_add_r by lia; ring).
    nia. }
  assert (Hmx0 : 0 < mx) by (unfold mx; lia).
  destruct (Zdigits2_bounds mx Hmx0) as (Hd0 & Hl & _).
  assert (Hd : 53 <= Zdigits2 mx).
  { change 53 with (Zdigits2 (2 ^ 52)). apply Zdigits2_mono. unfold mx. rewrite Pos2Z.inj_mul, Pos2Z.inj_pow. lia. }
  assert (Hd1 : Zdigits2 mx + (-50 + e) <= 1023).
  { assert (HP : 0 < 2 ^ (-50 + e + 1074)) by (apply Z.pow_pos_nonneg; lia).
    assert (2 ^ (Zdigits2 mx - 1) * 2 ^ (-50 + e + 1074) <= 2 ^ (k + 2)) as Hle by nia.
    rewrite <- Z.pow_add_r in Hle by lia. apply Z.pow_le_mono_r_iff in Hle; lia. }
  assert (Hex : -50 + e <= fexp64 (Zdigits2 mx + (-50 + e))) by (unfold fexp, emin; lia).
  assert (Ft : is_finite (binary_round_aux 53 1024 false mx (-50 + e) loc_Exact) = true)
    by (by apply binary_round_aux_finite).
  split; [done | split; [done|]].
  pose proof (binary_round_aux_error false mx (-50 + e) Hmx0 ltac:(lia) Hex Ft) as Herr.
  cbv beta iota zeta in Herr. rewrite Hmx in Herr.
  rewrite (power_exact _ (k + 2) Vt Ft ltac:(lia) Herr), Z.pow_add_r by lia. ring.
Qed.

(** ** [_same_time] as an integer bound *)

Lemma fabs_ok x : valid (fabs x) = valid x ∧ is_finite (fabs x) = is_finite x ∧ fint (fabs x) = Z.abs (fint x)
  ∧ uint (fabs x) = uint x.
Proof.
  destruct x as [| | |s m e]; [done..|]. split; [done | split; [done | split; [|done]]].
  cbn [fabs SFabs fint]. rewrite Z.abs_mul, (Z.abs_eq (2 ^ _)) by (by apply Z.pow_nonneg). by destruct s.
Qed.

Lemma fmax_ok x y :
  good x → good y → good (fmax x y) ∧ fint (fmax x y) = Z.max (fint x) (fint y).
Proof.
  intros [Vx Fx] [Vy Fy]. unfold fmax. rewrite fltb_fint by done.
  destruct (Z.ltb_spec (fint x) (fint y)); (split; [done | lia]).
Qed.

Lemma good_fabs x : good x → good (fabs x).
Proof. destruct (fabs_ok x) as (Hv & Hf & _). unfold good. by rewrite Hv, Hf. Qed.

(** The unit the tolerance is measured in: of one or of the larger time. *)
Definition width (x : float) : Z := Z.max (uint one) (uint x).

Definition time_scale (x y : float) : float := fmax (fmax one (fabs x)) (fabs y).

Lemma uint_fint_mono x y : good x → good y → Z.abs (fint x) <= Z.abs (fint y) → uint x <= uint y.
Proof. intros [Vx Fx] [Vy Fy] H. destruct (uint_mono x y Vx Vy H); [done | congruence]. Qed.

Lemma good_one : good one.
Proof. done. Qed.

(** The scale's unit is the larger of the two widths. *)
Lemma time_scale_ok x y : good x → good y → good (time_scale x y) ∧ uint (time_scale x y) = Z.max (width x) (width y).
Proof.
  intros Hx Hy. unfold time_scale, width.
  destruct (fmax_ok one (fabs x) good_one (good_fabs _ Hx)) as [G1 F1].
  destruct (fmax_ok _ (fabs y) G1 (good_fabs _ Hy)) as [G2 F2]. split; [done|].
  destruct (fabs_ok x) as (_ & _ & Ax & Ux), (fabs_ok y) as (_ & _ & Ay & Uy).
  assert (H1 : 0 < fint one) by done. rewrite F1, Ax, Ay in F2.
  set (s := fmax (fmax one (fabs x)) (fabs y)) in *.
  pose proof (uint_fint_mono one s good_one G2 ltac:(lia)).
  pose proof (uint_fint_mono x s Hx G2 ltac:(lia)). pose proof (uint_fint_mono y s Hy G2 ltac:(lia)).
  assert (uint s = uint one ∨ uint s = uint x ∨ uint s = uint y).
  { unfold s, fmax. destruct (fltb _ (fabs y)); [rewrite Uy; tauto|]. destruct (fltb _ (fabs x)); [rewrite Ux|]; tauto. }
  lia.
Qed.

Lemma same_time_fint x y :
  good x → good y → is_finite (fsub x y) = true →
  same_time x y = (Z.abs (fint (fsub x y)) <=? 4 * Z.max (width x) (width y)).
Proof.
  intros Hx Hy Hs. destruct (time_scale_ok x y Hx Hy) as [[Vs Fs] Hu].
  unfold same_time. fold (time_scale x y).
  destruct (four_ulps_ok (time_scale x y) Vs Fs ltac:(unfold width in *; lia)) as (Vt & Ft & Ht).
  destruct (fabs_ok (fsub x y)) as (Hv & Hf & Ha & _).
  rewrite fleb_fint, Ha, Ht, Hu; try done; rewrite ?Hv, ?Hf; [|done].
  apply fsub_valid; [apply Hx | apply Hy].
Qed.

(** A rounded difference is within a factor of two of the exact one. *)
Lemma fsub_bounds x y :
  good x → good y → is_finite (fsub x y) = true →
  2 * Z.abs (fint x - fint y) <= 3 * Z.abs (fint (fsub x y)) ∧ Z.abs (fint (fsub x y)) <= 2 * Z.abs (fint x - fint y).
Proof.
  intros [Vx Fx] [Vy Fy] Hs. pose proof (fsub_error x y Vx Fx Vy Fy Hs) as H.
  destruct (Z.eq_dec (fint (fsub x y)) 0) as [Hz|Hz].
  - rewrite Hz in *. assert (fint x - fint y = 0); [|lia].
    destruct (fsub x y) as [| | |s m e] eqn:E; try discriminate Hs; cbn [uint fint] in *; [lia|].
    pose proof (fsub_valid x y Vx Vy) as Hv. rewrite E in Hv. destruct (fint_finite_pos _ _ _ Hv) as [? Hp].
    destruct s; cbn [fint] in Hp; lia.
  - pose proof (uint_le_fint _ (fsub_valid x y Vx Vy) Hz). lia.
Qed.

(** Small grids: nothing overflows. *)
Definition moderate (x : float) : Prop := good x ∧ 0 <= fint x < 2 ^ 2096.

Lemma moderate_fsub x y : moderate x → moderate y → is_finite (fsub x y) = true.
Proof.
  intros [[Vx Fx] Hx] [[Vy Fy] Hy]. rewrite fsub_fneg.
  apply fadd_finite; rewrite ?fneg_valid, ?fneg_finite, ?fint_fneg; try done.
  assert (2 ^ 2097 = 2 * 2 ^ 2096) as -> by (by rewrite <- Z.pow_succ_r). lia.
Qed.

Lemma same_time_near x y : moderate x → moderate y → Z.abs (fint x - fint y) <= 2 * Z.max (width x) (width y) →
  same_time x y = true.
Proof.
  intros Hx Hy H. pose proof (moderate_fsub x y Hx Hy) as Hs.
  destruct (fsub_bounds x y (proj1 Hx) (proj1 Hy) Hs). rewrite same_time_fint by (done || apply Hx || apply Hy).
  apply Z.leb_le. lia.
Qed.

Lemma same_time_far x y : moderate x → moderate y → 6 * Z.max (width x) (width y) < Z.abs (fint x - fint y) →
  same_time x y = false.
Proof.
  intros Hx Hy H. pose proof (moderate_fsub x y Hx Hy) as Hs.
  destruct (fsub_bounds x y (proj1 Hx) (proj1 Hy) Hs). rewrite same_time_fint by (done || apply Hx || apply Hy).
  apply Z.leb_gt. lia.
Qed.

(** ** The recovered index *)

Lemma bisect_left_at grid x : ∀ j,
  (j <= length grid)%nat → (∀ k g, (k < j)%nat → grid !! k = Some g → fltb g x = true) →
  (∀ g, grid !! j = Some g → fltb g x = false) → bisect_left grid x = j.
Proof.
  induction grid as [|g grid IH]; intros j Hj Hlow Hat; cbn [length bisect_left] in *; [lia|].
  destruct j as [|j].
  - by rewrite (Hat g eq_refl).
  - rewrite (Hlow O g ltac:(lia) eq_refl). f_equal. apply IH; [lia | | exact Hat].
    intros k h Hk Hl. by apply (Hlow (S k) h ltac:(lia)).
Qed.

Lemma width_mono x y : moderate x → moderate y → fint x <= fint y → width x <= width y.
Proof.
  intros [Gx Hx] [Gy Hy] H. unfold width. pose proof (uint_fint_mono x y Gx Gy ltac:(lia)). lia.
Qed.

Lemma width_pos x : 0 < width x.
Proof. unfold width. change (uint one) with (2 ^ 1022). lia. Qed.

(** Consecutive points are more than eight units apart. *)
Definition spaced (grid : list float) : Prop :=
  ∀ i g g', grid !! i = Some g → grid !! S i = Some g' → fint g + 8 * width g' < fint g'.

(** The native clock is within two units of a grid point. *)
Definition near (now g : float) : Prop := Z.abs (fint now - fint g) <= 2 * width g.

Section grid.
Context (grid : list float) (Hgrid : Forall moderate grid) (Hspaced : spaced grid).

Lemma grid_moderate i g : grid !! i = Some g → moderate g.
Proof. intros H. rewrite Forall_lookup in Hgrid. by apply (Hgrid i). Qed.

Lemma grid_below k : ∀ i g g', (k < i)%nat → grid !! k = Some g → grid !! i = Some g' → fint g + 8 * width g' < fint g'.
Proof.
  intros i. induction i as [|i IH]; intros g g' Hk Hg Hg'; [lia|].
  destruct (Nat.eq_dec k i) as [->|]; [by apply (Hspaced i)|].
  destruct (lookup_lt_is_Some_2 grid i) as [h Hh]; [apply lookup_lt_Some in Hg'; lia|].
  pose proof (IH g h ltac:(lia) Hg Hh). pose proof (Hspaced i h g' Hh Hg').
  pose proof (width_pos h). lia.
Qed.

Lemma moderate_fltb x y : moderate x → moderate y → fltb x y = (fint x <? fint y).
Proof. intros [[] ?] [[] ?]. by apply fltb_fint. Qed.

(** The bisection lands on the point the clock is near to, or just after it. *)
Lemma bisect_near i g now :
  moderate now → near now g → grid !! i = Some g →
  bisect_left grid now = i ∨ bisect_left grid now = S i.
Proof.
  intros Hn Hnear Hg. pose proof (grid_moderate i g Hg) as Mg. unfold near in Hnear. pose proof (width_pos g).
  assert (Hlow : ∀ k h, (k < i)%nat → grid !! k = Some h → fltb h now = true).
  { intros k h Hk Hh. rewrite moderate_fltb by (done || by eapply grid_moderate). apply Z.ltb_lt.
    pose proof (grid_below k i h g Hk Hh Hg). lia. }
  pose proof (lookup_lt_Some _ _ _ Hg).
  destruct (Z.lt_ge_cases (fint g) (fint now)) as [Hlt|Hge]; [right | left]; apply bisect_left_at; try lia.
  - intros k h Hk Hh. destruct (Nat.eq_dec k i) as [->|]; [|apply (Hlow k); [lia | done]].
    rewrite Hg in Hh. injection Hh as <-. rewrite moderate_fltb by done. by apply Z.ltb_lt.
  - intros h Hh. pose proof (grid_moderate _ _ Hh) as Mh. pose proof (Hspaced i g h Hg Hh).
    pose proof (width_pos h). pose proof (width_mono g h Mg Mh ltac:(lia)).
    rewrite moderate_fltb by done. apply Z.ltb_ge. lia.
  - done.
  - intros h Hh. rewrite Hg in Hh. injection Hh as <-. rewrite moderate_fltb by done. by apply Z.ltb_ge.
Qed.

Lemma near_same_time g now : moderate now → moderate g → near now g → same_time g now = true.
Proof. intros Hn Hg Hnear. unfold near in Hnear. apply same_time_near; [done | done | lia]. Qed.

(** The controller steps from the point the clock is near to. *)
Lemma external_prepare_near i g g' now t_end :
  moderate now → near now g → grid !! i = Some g → grid !! S i = Some g' → fltb t_end g' = false →
  external_prepare grid now t_end = Ok (fsub g' now).
Proof.
  intros Hn Hnear Hg Hg' Hend. pose proof (grid_moderate i g Hg) as Mg. pose proof (grid_moderate _ _ Hg') as Mg'.
  pose proof (near_same_time g now Hn Mg Hnear) as Hsame.
  assert (Hfar : same_time g' now = false).
  { pose proof (Hspaced i g g' Hg Hg') as Hsp. unfold near in Hnear. pose proof (width_pos g').
    pose proof (width_mono g g' Mg Mg' ltac:(lia)). apply same_time_far; [done | done|].
    pose proof (width_mono now g' Hn Mg' ltac:(lia)). lia. }
  unfold external_prepare. destruct (bisect_near i g now Hn Hnear Hg) as [-> | ->].
  - rewrite Hg, Hsame. cbn [mbind res_bind]. by rewrite Hg', Hend.
  - rewrite Hg', Hfar, Hg, Hsame. cbn [mbind res_bind]. by rewrite Hg', Hend.
Qed.

Lemma external_prepare_last i g now t_end :
  moderate now → near now g → grid !! i = Some g → length grid = S i →
  external_prepare grid now t_end = Err RuntimeError.
Proof.
  intros Hn Hnear Hg Hlen. pose proof (near_same_time g now Hn (grid_moderate i g Hg) Hnear) as Hsame.
  assert (Hnone : grid !! S i = None) by (apply lookup_ge_None; lia).
  unfold external_prepare. destruct (bisect_near i g now Hn Hnear Hg) as [-> | ->].
  - rewrite Hg, Hsame. cbn [mbind res_bind]. by rewrite Hnone.
  - rewrite Hnone, Hg, Hsame. cbn [mbind res_bind]. by rewrite Hnone.
Qed.
End grid.

(** ** One native step *)

Lemma width_power x : good x → ∃ k, width x = 2 ^ k ∧ 0 <= k.
Proof.
  intros [Vx Fx]. destruct (uint_power x Vx Fx) as (k & Hk & ?). unfold width. rewrite Hk.
  change (uint one) with (2 ^ 1022). destruct (Z.max_spec (2 ^ 1022) (2 ^ k)) as [[_ ->]|[_ ->]]; eauto with lia.
Qed.

(** A value close to a bound of [2^53] units has at most twice that unit. *)
Lemma unit_of_bounded z w k :
  good z → w = 2 ^ k → 0 <= k → 2 * Z.abs (fint z) <= 2 * (2 ^ 53 * w) + uint z → uint z <= 2 * w.
Proof.
  intros [Vz Fz] -> Hk H. destruct z as [| | |s m e]; try discriminate Fz.
  { cbn [uint]. assert (0 < 2 ^ k) by (apply Z.pow_pos_nonneg; lia). lia. }
  destruct (valid_finite _ _ _ Vz) as (He & _ & Hm). cbn [uint fint] in *.
  destruct (Z.le_gt_cases (e + 1074) (k + 1)) as [Hle|Hgt].
  { replace (2 * 2 ^ k) with (2 ^ (k + 1)) by (rewrite Z.pow_add_r by lia; ring). apply Z.pow_le_mono_r; lia. }
  exfalso. assert (2 ^ 52 <= Zpos m) as Hm' by (destruct Hm; lia).
  assert (HU : 2 ^ (e + 1074) = 2 ^ (e + 1074 - k) * 2 ^ k) by (rewrite <- Z.pow_add_r by lia; f_equal; lia).
  assert (2 ^ 2 <= 2 ^ (e + 1074 - k)) by (apply Z.pow_le_mono_r; lia).
  assert (0 < 2 ^ k) by (apply Z.pow_pos_nonneg; lia).
  assert (Ha : Z.abs ((if s then Zneg m else Zpos m) * 2 ^ (e + 1074)) = Zpos m * 2 ^ (e + 1074)).
  { rewrite Z.abs_mul, (Z.abs_eq (2 ^ _)) by (by apply Z.pow_nonneg). by destruct s. }
  rewrite Ha in H. nia.
Qed.

Lemma fint_below x : good x → Z.abs (fint x) <= (2 ^ 53 - 1) * width x.
Proof.
  intros [Vx Fx]. unfold width. destruct x as [| | |s m e]; try discriminate Fx; [done|].
  destruct (valid_finite _ _ _ Vx) as (He & Hm & _). cbn [fint uint].
  rewrite Z.abs_mul, (Z.abs_eq (2 ^ (e + 1074))) by (by apply Z.pow_nonneg).
  assert (0 < 2 ^ (e + 1074)) by (apply Z.pow_pos_nonneg; lia).
  assert (Z.abs (if s then Zneg m else Zpos m) = Zpos m) as -> by (by destruct s). nia.
Qed.

(** Stepping by the rounded interval lands within two units of the target. *)
Lemma step_lands now g' :
  moderate now → moderate g' → fint now + 6 * width g' < fint g' → fint g' <= 2 ^ 2095 →
  let time := fadd now (fsub g' now) in moderate time ∧ near time g'.
Proof.
  intros Hn Hg Hlt Hbig time. pose proof (moderate_fsub g' now Hg Hn) as Fd. set (d := fsub g' now) in *.
  pose proof Hn as [[Vn Fn] Bn]. pose proof Hg as [[Vg Fg] Bg].
  pose proof (fsub_valid g' now Vg Vn) as Vd. fold d in Vd. pose proof (width_pos g').
  pose proof (fsub_error g' now Vg Fg Vn Fn Fd) as Ed. fold d in Ed.
  destruct (width_power g' (proj1 Hg)) as (k & Hk & Hk0).
  pose proof (fint_below g' (proj1 Hg)) as Hb.
  assert (Ud : uint d <= 2 * width g') by (apply (unit_of_bounded d _ k); [done | done | done | lia]).
  assert (Ft : is_finite time = true).
  { apply fadd_finite; try done. assert (2 ^ 2097 = 2 * 2 ^ 2096) by (by rewrite <- Z.pow_succ_r). lia. }
  pose proof (fadd_valid now d Vn Vd) as Vt. fold time in Vt.
  pose proof (fadd_error now d Vn Fn Vd Fd Ft) as Et. fold time in Et.
  assert (Ut : uint time <= 2 * width g') by (apply (unit_of_bounded time _ k); [done | done | done | lia]).
  split; [|unfold near; lia]. split; [done|].
  destruct (uint_power g' Vg Fg) as (j & Hj & Hj0).
  assert (2 ^ j <= 2 ^ 2045) by (apply Z.pow_le_mono_r; lia).
  assert (2 ^ 2095 = 2 ^ 50 * 2 ^ 2045) by (by rewrite <- Z.pow_add_r). assert (2 ^ 2096 = 2 * 2 ^ 2095) by (by rewrite <- Z.pow_succ_r).
  assert (width g' <= 2 ^ 2045) by (unfold width; change (uint one) with (2 ^ 1022); rewrite Hj; pose proof (Z.pow_le_mono_r 2 1022 2045); lia).
  lia.
Qed.

(** ** The walk of a whole grid *)

(** The native clock after each prepared interval, as [_native_attempt] commits
    it: [t <- fl(t + dt)].  [n] steps. *)
Fixpoint external_walk (grid : list float) (n : nat) (now t_end : float) : res (list float) :=
  match n with
  | O => Ok []
  | S n =>
      dt ← external_prepare grid now t_end;
      let time := fadd now dt in
      rest ← external_walk grid n time t_end;
      Ok (time :: rest)
  end.

(** A grid the walk cannot lose: non-negative, below 2^1021, its points more
    than eight units apart, and the final time not before any of them. *)
Definition walkable (grid : list float) (t_end : float) : Prop :=
  Forall (λ g, good g ∧ 0 <= fint g <= 2 ^ 2095 ∧ fltb t_end g = false) grid ∧ spaced grid.

Lemma walkable_moderate grid t_end : walkable grid t_end → Forall moderate grid.
Proof.
  intros [H _]. eapply Forall_impl; [exact H|]. intros g (Hg & [H0 H1] & _). split; [done|]. split; [done|].
  eapply Z.le_lt_trans; [exact H1|]. by apply Z.pow_lt_mono_r.
Qed.

Lemma last_cons_default {A} (x d : A) l : List.last (x :: l) d = List.last l x.
Proof.
  revert x. induction l as [|y l IH]; intros x; [done|]. change (List.last (x :: y :: l) d) with (List.last (y :: l) d).
  rewrite IH. destruct l; [done|]. symmetry. change (List.last (y :: a :: l) x) with (List.last (a :: l) x). 
  clear. revert a y. induction l as [|b l IH]; intros a y; [done|]. exact (IH b y).
Qed.

Lemma walk_from grid t_end i g now :
  walkable grid t_end → grid !! i = Some g → moderate now → near now g →
  ∀ n, (i + n < length grid)%nat → ∃ times,
    external_walk grid n now t_end = Ok times
    ∧ Forall2 (λ g t, same_time g t = true) (take n (drop (S i) grid)) times
    ∧ ∃ last, grid !! (i + n)%nat = Some last ∧ moderate (List.last times now) ∧ near (List.last times now) last.
Proof.
  intros Hw Hg Hn Hnear n. revert i g now Hg Hn Hnear. induction n as [|n IH]; intros i g now Hg Hn Hnear Hi.
  - exists []. cbn. split; [done | split; [constructor|]]. exists g. by rewrite Nat.add_0_r.
  - destruct (lookup_lt_is_Some_2 grid (S i) ltac:(lia)) as [g' Hg'].
    pose proof (walkable_moderate _ _ Hw) as Hmod. destruct Hw as [Hall Hsp].
    pose proof (proj1 (Forall_lookup _ _) Hall _ _ Hg') as (_ & Hb & Hend).
    pose proof (grid_moderate grid Hmod _ _ Hg) as Mg. pose proof (grid_moderate grid Hmod _ _ Hg') as Mg'.
    pose proof (external_prepare_near grid Hmod Hsp i g g' now t_end Hn Hnear Hg Hg' Hend) as Hprep.
    assert (Hlt : fint now + 6 * width g' < fint g').
    { pose proof (Hsp i g g' Hg Hg'). pose proof (width_pos g'). unfold near in Hnear.
      pose proof (width_mono g g' Mg Mg' ltac:(lia)). lia. }
    destruct (step_lands now g' Hn Mg' Hlt ltac:(lia)) as [Mt Nt].
    destruct (IH (S i) g' (fadd now (fsub g' now)) Hg' Mt Nt ltac:(lia)) as (times & Hrun & Hsame & l & Hl & Ml & Nl).
    exists (fadd now (fsub g' now) :: times). split; [|split].
    + cbn [external_walk]. rewrite Hprep. cbn [mbind res_bind]. by rewrite Hrun.
    + rewrite (drop_S grid g' (S i) Hg'). cbn [take]. constructor; [by apply near_same_time | done].
    + exists l. rewrite Nat.add_succ_r. split; [done|].
      by rewrite last_cons_default.
Qed.

(** Started at its first point, [ExternalTimeGrid] walks every point of the
    grid: each of the [length - 1] steps finds the current point from the native
    clock and lands on a time that [_same_time] identifies with the next one,
    although the clock accumulates [fl(t + fl(next - t))] and is never reset;
    after the last point the next preparation reports the grid exhausted. *)
Theorem external_grid_visits_every_point grid first t_end :
  walkable grid t_end → grid !! 0%nat = Some first →
  ∃ times, external_walk grid (length grid - 1) first t_end = Ok times
    ∧ Forall2 (λ g t, same_time g t = true) (drop 1 grid) times
    ∧ external_prepare grid (List.last times first) t_end = Err RuntimeError.
Proof.
  intros Hw Hg. pose proof (walkable_moderate _ _ Hw) as Hmod.
  pose proof (lookup_lt_Some _ _ _ Hg) as Hlen.
  assert (Hnear : near first first) by (unfold near; pose proof (width_pos first); lia).
  destruct (walk_from grid t_end 0 first first Hw Hg (grid_moderate grid Hmod _ _ Hg) Hnear (length grid - 1) ltac:(lia))
    as (times & Hrun & Hsame & l & Hl & Ml & Nl).
  exists times. split; [done | split].
  - rewrite take_ge in Hsame; [done | rewrite length_drop; lia].
  - eapply (external_prepare_last grid Hmod (proj2 Hw)); [done | exact Nl | exact Hl | lia].
Qed.

Lemma external_grid_visits_every_point_witness :
  ∃ times, external_walk [fzero; tenth; one] 2 fzero one = Ok times
    ∧ Forall2 (λ g t, same_time g t = true) [tenth; one] times
    ∧ external_prepare [fzero; tenth; one] (List.last times fzero) one = Err RuntimeError.
Proof.
  apply (external_grid_visits_every_point [fzero; tenth; one] fzero one); [|reflexivity]. split.
  - repeat constructor; vm_compute; done.
  - intros [|[|[|i]]] g g' Hg Hg'; try discriminate Hg; try discriminate Hg';
      injection Hg as <-; injection Hg' as <-; vm_compute; done.
Defined.

(** A grid that starts far before zero is refused half way: after the step
    from -1000.1 to 0.1 the native clock differs from 0.1 by more than four
    units of one, so the next preparation reports that the current time is not
    a declared grid point, although the grid is finite and strictly
    increasing and every step was taken exactly as prepared. *)
Theorem negative_grid_is_lost :
  let g0 := fneg (SpecFloat.SFdiv 53 1024 (float_of_Z 10001) (float_of_Z 10)) in
  let grid := [g0; tenth; one] in
  grid_controls "times" [("times"%string, JList (map JFloat grid))] = Ok tt
  ∧ ∃ dt, external_prepare grid g0 one = Ok dt ∧ external_prepare grid (fadd g0 dt) one = Err RuntimeError.
Proof.
  intros g0 grid. split; [vm_compute; reflexivity|].
  exists (fsub tenth g0). split; vm_compute; reflexivity.
Qed.
