(* ===== verification/EveryDt.v ===== *)
(** * The physical-time lattice of [EveryDt]

    [python/pops/time/_schedule/api.py]: an output cadence on the absolute
    lattice [k * interval], [k >= 1].  The lattice point is rounded from the
    decimal spelling of the interval, a time is due when it sits on the point
    its quotient rounds to, and the step controller is capped at the next
    deadline. *)
From Stdlib Require Import SpecFloat.
From S2P Require Import Prelude Binary64 PyRound FloatValid HexFloat Scalar FloatError Manifest StepStrategy Temporal StepControllers.

(** ** Decimal arithmetic *)

(** The number of decimal digits of a coefficient. *)
Fixpoint count_digits (fuel : nat) (n : Z) : Z :=
  match fuel with
  | O => 0
  | S fuel => if n =? 0 then 0 else 1 + count_digits fuel (n / 10)
  end.
Definition decimal_digits (n : N) : Z := count_digits (S (N.to_nat (N.log2 n))) (Z.of_N n).

(** The result of a decimal operation in a context of [prec] digits, half
    even. *)
Definition context_round (prec : Z) (d : decimal) : decimal :=
  let extra := decimal_digits (dec_coeff d) - prec in
  if extra <=? 0 then d
  else Dec (dec_neg d) (Z.to_N (half_even (Z.of_N (dec_coeff d)) (10 ^ extra))) (dec_exp d + extra).

(** [Decimal * int] in a context of 50 digits. *)
Definition decimal_times (d : decimal) (index : Z) : decimal :=
  context_round 50
    (Dec (xorb (dec_neg d) (index <? 0)) (dec_coeff d * Z.to_N (Z.abs index)) (dec_exp d)).

(** [float(Decimal)]: the nearest binary64. *)
Definition float_of_decimal (d : decimal) : float :=
  match dec_coeff d with
  | N0 => S754_zero (dec_neg d)
  | Npos c =>
      if 0 <=? dec_exp d
      then binary_normalize 53 1024 (cond_Zopp (dec_neg d) (Zpos c * 10 ^ dec_exp d)) 0 (dec_neg d)
      else SFdiv 53 1024 (S754_finite (dec_neg d) c 0) (S754_finite false (Z.to_pos (10 ^ (- dec_exp d))) 0)
  end.

(** [math.floor] of a float; infinities and NaN raise. *)
Definition float_floor (x : float) : res Z :=
  match x with
  | S754_zero _ => Ok 0
  | S754_finite s m e =>
      let v := if s then Zneg m else Zpos m in
      Ok (if 0 <=? e then v * 2 ^ e else v / 2 ^ (- e))
  | S754_infinity _ => Err OverflowError
  | S754_nan => Err ValueError
  end.

(** ** The trigger *)

(** [_canonical_time_hex] *)
Definition canonical_time (text : string) : res float :=
  match fromhex text with Some f => Ok f | None => Err ValueError end.

(** [_same_physical_time] *)
Definition same_physical_time (left right : float) : bool :=
  fleb (fabs (fsub left right)) (fmul four (fmax (ulp left) (ulp right))).

(** [_every_dt_quotient] *)
Definition every_dt_quotient (now interval : float) : res float :=
  q ← py_fdiv now interval; _ ← require (is_finite q) RuntimeError; Ok q.

Section EveryDt.
(** [Decimal(str(x))]: the shortest decimal that reads back as [x]. *)
Context (repr : float → decimal).

(** [_every_dt_lattice_time] *)
Definition lattice_time (index : Z) (interval : float) : float :=
  float_of_decimal (decimal_times (repr interval) index).

(** The due test of [consumer_due] and [consumer_occurrence_evidence]: the index
    of the lattice point, [None] when the time is on none. *)
Definition occurrence_index (interval now : float) : res (option Z) :=
  q ← every_dt_quotient now interval;
  nearest ← float_round q;
  if nearest <? 1 then Ok None
  else
    let target := lattice_time nearest interval in
    Ok (if is_finite target && fleb target now && same_physical_time now target then Some nearest else None).

(** [EveryDt.consumer_due] *)
Definition every_dt_due (interval : float) (at_start : bool) (physical_time_hex : string) : res bool :=
  if at_start then Ok false
  else
    now ← canonical_time physical_time_hex;
    i ← occurrence_index interval now;
    Ok (match i with Some _ => true | None => false end).

(** [EveryDt.consumer_occurrence_evidence] *)
Definition every_dt_evidence (interval : float) (physical_time_hex : string) : res (option Z) :=
  now ← canonical_time physical_time_hex; occurrence_index interval now.

(** The index of the next lattice point. *)
Definition next_index (interval now : float) : res Z :=
  q ← every_dt_quotient now interval;
  nearest ← float_round q;
  let nearest_time := lattice_time nearest interval in
  if (1 <=? nearest) && fleb nearest_time now && same_physical_time now nearest_time
  then Ok (nearest + 1)
  else f ← float_floor q; Ok (Z.max 1 (f + 1)).

(** [EveryDt.consumer_next_deadline] *)
Definition next_deadline (interval : float) (physical_time_hex : string) : res string :=
  now ← canonical_time physical_time_hex;
  index ← next_index interval now;
  let deadline := lattice_time index interval in
  _ ← require (is_finite deadline) OverflowError;
  _ ← require (fltb now deadline) RuntimeError;
  Ok (hex deadline).
End EveryDt.

(** [0.1], whose shortest spelling is [Decimal('0.1')]: three intervals are the
    float written [0.3], not the product [3 * 0.1]. *)
Definition tenth_repr (f : float) : decimal := Dec false 1 (-1).
Definition tenth_interval : float := float_of_decimal (Dec false 1 (-1)).

Example three_tenths :
  lattice_time tenth_repr 3 tenth_interval = float_of_decimal (Dec false 3 (-1))
  ∧ fltb (lattice_time tenth_repr 3 tenth_interval) (fmul (float_of_Z 3) tenth_interval) = true
  ∧ hex (lattice_time tenth_repr 3 tenth_interval) = "0x1.3333333333333p-2"%string
  ∧ occurrence_index tenth_repr tenth_interval (fmul (float_of_Z 3) tenth_interval) = Ok (Some 3)
  ∧ next_deadline tenth_repr tenth_interval (hex (lattice_time tenth_repr 3 tenth_interval))
    = Ok (hex (lattice_time tenth_repr 4 tenth_interval)).
Proof. vm_compute. done. Qed.
