(* ===== verification/Ownership.v ===== *)
(** * Owner paths

    [python/pops/model/ownership.py]: the typed hierarchy that qualifies every
    declaration, clock and event of a program.  A path is either canonical (data
    only, the form that is persisted) or carries the authoring authority of a
    live builder; the authority ranks the providers of the content fingerprint
    of a model definition. *)
From stdpp Require Import sorting.
From S2P Require Import Prelude Binary64 Manifest.

(** ** The topology *)

Inductive OwnerKind :=
| CASE | MODEL_DEFINITION | BLOCK | LAYOUT | DESCRIPTOR | CONSUMER | SHARED.

#[global] Instance OwnerKind_dec : EqDecision OwnerKind.
Proof. solve_decision. Defined.

(** [OwnerKind.value] *)
Definition kind_value (k : OwnerKind) : string :=
  match k with
  | CASE => "case" | MODEL_DEFINITION => "model_definition" | BLOCK => "block" | LAYOUT => "layout"
  | DESCRIPTOR => "descriptor" | CONSUMER => "consumer" | SHARED => "shared"
  end.

Definition OWNER_KINDS : list OwnerKind :=
  [CASE; MODEL_DEFINITION; BLOCK; LAYOUT; DESCRIPTOR; CONSUMER; SHARED].

(** [OwnerKind(value)] *)
Definition kind_of_value (s : string) : option OwnerKind :=
  List.find (fun k => String.eqb (kind_value k) s) OWNER_KINDS.

Definition ROOT_KINDS : list OwnerKind :=
  [CASE; MODEL_DEFINITION; LAYOUT; DESCRIPTOR; CONSUMER; SHARED].

Definition TRANSITIONS (k : OwnerKind) : list OwnerKind :=
  match k with
  | CASE => [BLOCK; LAYOUT; DESCRIPTOR; CONSUMER]
  | BLOCK => [MODEL_DEFINITION; DESCRIPTOR]
  | MODEL_DEFINITION => [DESCRIPTOR; CONSUMER]
  | LAYOUT => [DESCRIPTOR; CONSUMER]
  | DESCRIPTOR => [DESCRIPTOR; CONSUMER]
  | CONSUMER => [DESCRIPTOR]
  | SHARED => [DESCRIPTOR; CONSUMER]
  end.

Record OwnerSegment := Segment { sg_kind : OwnerKind; sg_name : string }.
#[global] Instance OwnerSegment_dec : EqDecision OwnerSegment.
Proof. solve_decision. Defined.

(** [OwnerSegment(kind, name)] *)
Definition mk_segment (kind : OwnerKind) (name : string) : res OwnerSegment :=
  _ ← require (negb (String.eqb name EmptyString)) ValueError; Ok (Segment kind name).

(** The loop over [zip(nodes, nodes[1:])]. *)
Fixpoint transitions_ok (parent : OwnerSegment) (nodes : list OwnerSegment) : bool :=
  match nodes with
  | [] => true
  | child :: nodes => bool_decide (sg_kind child ∈ TRANSITIONS (sg_kind parent)) && transitions_ok child nodes
  end.

(** [OwnerPath._validate_topology]; the constructor has refused an empty path. *)
Definition validate_topology (nodes : list OwnerSegment) : res unit :=
  match nodes with
  | [] => Err IndexError
  | first :: rest =>
      _ ← require (bool_decide (sg_kind first ∈ ROOT_KINDS)) OwnershipError;
      require (transitions_ok first rest) OwnershipError
  end.

(** ** Definition fingerprints *)

Definition in_range (c : ascii) (lo hi : nat) : bool :=
  (lo <=? nat_of_ascii c)%nat && (nat_of_ascii c <=? hi)%nat.
Definition is_lower (c : ascii) : bool := in_range c 97 122.
Definition is_digit (c : ascii) : bool := in_range c 48 57.
(** [[a-z0-9_.-]] and [[0-9a-f]] *)
Definition is_namespace_char (c : ascii) : bool :=
  is_lower c || is_digit c || bool_decide (c ∈ ["_"; "."; "-"]%char).
Definition is_hex_char (c : ascii) : bool := is_digit c || in_range c 97 102.

(** The longest prefix of namespace characters, and the rest. *)
Fixpoint span_namespace (l : list ascii) : list ascii * list ascii :=
  match l with
  | c :: l' =>
      if is_namespace_char c then let '(a, b) := span_namespace l' in (c :: a, b) else ([], l)
  | [] => ([], [])
  end.

Fixpoint strip_prefix (p l : list ascii) : option (list ascii) :=
  match p, l with
  | [], _ => Some l
  | c :: p, d :: l => if decide (c = d) then strip_prefix p l else None
  | _ :: _, [] => None
  end.

(** [_FINGERPRINT_RE.fullmatch]: no namespace character is a colon, so the
    greedy namespace is the only one that can match. *)
Definition fingerprint_match (value : string) : bool :=
  let '(namespace, rest) := span_namespace (list_ascii_of_string value) in
  match namespace, strip_prefix (list_ascii_of_string ":sha256:") rest with
  | c :: _, Some digest => is_lower c && (length digest =? 64)%nat && forallb is_hex_char digest
  | _, _ => false
  end.

(** [_validate_definition_fingerprint] *)
Definition validate_definition_fingerprint (value : string) : res string :=
  _ ← require (fingerprint_match value) ValueError; Ok value.

(** ** Authoring authorities

    An authority is a mutable object shared by every path issued from one
    [OwnerPath.fresh]; it is named by its serial in the environment.  A provider
    is an opaque callable; [call] is what it returns now, [None] when the
    builder behind it is gone.  Recursive providers and the projection cache,
    which only memoises one pass, are left out. *)
Record authority := Authority {
  au_fingerprint : option string;
  au_priority : Z;
  au_providers : list (Z * nat) }.

Record env := Env { e_authorities : gmap nat authority; e_call : nat → option string }.

Definition new_authority : authority := Authority None (-1) [].

Definition bind_fingerprint (a : authority) (fingerprint : string) (priority : Z) : res authority :=
  value ← validate_definition_fingerprint fingerprint;
  Ok (if au_priority a <=? priority then Authority (Some value) priority (au_providers a) else a).

Definition bind_provider (a : authority) (provider : nat) (priority : Z) : authority :=
  Authority (au_fingerprint a) (au_priority a) (au_providers a ++ [(priority, provider)]).

(** The order of [sorted(enumerate(providers), key=(priority, index), reverse=True)]. *)
Definition ranked_before (x y : nat * (Z * nat)) : Prop :=
  y.2.1 < x.2.1 ∨ (x.2.1 = y.2.1 ∧ (y.1 <= x.1)%nat).
#[global] Instance ranked_before_dec : ∀ x y, Decision (ranked_before x y).
Proof. intros x y. unfold ranked_before. apply _. Defined.

Definition ranked (providers : list (Z * nat)) : list (nat * (Z * nat)) :=
  merge_sort ranked_before (imap pair providers).

(** The loop over the ranked providers. *)
Fixpoint first_live (call : nat → option string) (l : list (nat * (Z * nat))) : option string :=
  match l with
  | [] => None
  | (_, (_, provider)) :: l =>
      match call provider with Some value => Some value | None => first_live call l end
  end.

(** [_AuthoringAuthority.fingerprint] *)
Definition fingerprint (call : nat → option string) (a : authority) : res (option string) :=
  match first_live call (ranked (au_providers a)) with
  | Some value => v ← validate_definition_fingerprint value; Ok (Some v)
  | None => Ok (au_fingerprint a)
  end.

(** [_definition_fingerprint_transaction]: a body that raises restores what the
    authority held, and the exception goes on. *)
Definition fingerprint_transaction (saved : authority) (body : authority → authority * option exn)
    : authority * option exn :=
  let '(a, raised) := body saved in
  match raised with None => (a, None) | Some e => (saved, Some e) end.

(** ** Paths *)

Record OwnerPath := Path {
  op_nodes : list OwnerSegment;
  op_authority : option nat;
  op_fingerprint : option string }.
#[global] Instance OwnerPath_dec : EqDecision OwnerPath.
Proof. solve_decision. Defined.

Definition kinds (nodes : list OwnerSegment) : list OwnerKind := map sg_kind nodes.

(** [OwnerPath.contains] *)
Definition contains (p : OwnerPath) (k : OwnerKind) : bool := bool_decide (k ∈ kinds (op_nodes p)).

(** [OwnerPath(...)] *)
Definition mk_path (nodes : list OwnerSegment) (auth : option nat) (fp : option string) : res OwnerPath :=
  _ ← require (match nodes with [] => false | _ => true end) TypeError;
  _ ← validate_topology nodes;
  _ ← match fp with
      | None => Ok tt
      | Some value =>
          _ ← validate_definition_fingerprint value;
          require (bool_decide (MODEL_DEFINITION ∈ kinds nodes)) OwnershipError
      end;
  Ok (Path nodes auth fp).

(** [OwnerPath.root] *)
Definition root (kind : OwnerKind) (name : string) : res OwnerPath :=
  s ← mk_segment kind name; mk_path [s] None None.

(** [OwnerPath.fresh]: issues the next serial. *)
Definition fresh_path (e : env) (kind : OwnerKind) (name : string) : res (OwnerPath * env) :=
  s ← mk_segment kind name;
  let serial := base.fresh (dom (e_authorities e)) in
  p ← mk_path [s] (Some serial) None;
  Ok (p, Env (<[serial := new_authority]> (e_authorities e)) (e_call e)).

Definition is_authoring (p : OwnerPath) : bool := bool_decide (is_Some (op_authority p)).

(** [OwnerPath.kind] and [OwnerPath.name] *)
Definition last_kind (p : OwnerPath) : option OwnerKind := sg_kind <$> last (op_nodes p).
Definition last_name (p : OwnerPath) : option string := sg_name <$> last (op_nodes p).

(** [OwnerPath.child] *)
Definition child (p : OwnerPath) (kind : OwnerKind) (name : string) : res OwnerPath :=
  s ← mk_segment kind name; mk_path (op_nodes p ++ [s]) (op_authority p) (op_fingerprint p).

(** The authority of a path; an issued serial is never removed. *)
Definition authority_of (e : env) (serial : nat) : authority :=
  default new_authority (e_authorities e !! serial).

(** [OwnerPath.definition_fingerprint] *)
Definition definition_fingerprint (e : env) (p : OwnerPath) : res (option string) :=
  match op_fingerprint p, op_authority p with
  | Some value, _ => Ok (Some value)
  | None, Some serial =>
      if contains p MODEL_DEFINITION then fingerprint (e_call e) (authority_of e serial) else Ok None
  | None, None => Ok None
  end.

(** [OwnerPath.require_authoring_root] *)
Definition require_authoring_root (p : OwnerPath) (kind : OwnerKind) (name : option string) : res OwnerPath :=
  _ ← require (is_authoring p) UnresolvedOwnershipError;
  _ ← require ((length (op_nodes p) =? 1)%nat && bool_decide (last_kind p = Some kind)) OwnershipError;
  match name with
  | None => Ok p
  | Some name =>
      _ ← require (negb (String.eqb name EmptyString)) TypeError;
      _ ← require (bool_decide (last_name p = Some name)) OwnershipError;
      Ok p
  end.

(** [OwnerPath._bind_definition_fingerprint] *)
Definition bind_definition_fingerprint (e : env) (p : OwnerPath) (value : string) (priority : Z) : res env :=
  _ ← require_authoring_root p MODEL_DEFINITION None;
  match op_authority p with
  | None => Err RuntimeError
  | Some serial =>
      a ← bind_fingerprint (authority_of e serial) value priority;
      Ok (Env (<[serial := a]> (e_authorities e)) (e_call e))
  end.

(** [OwnerPath._bind_definition_fingerprint_provider] *)
Definition bind_definition_fingerprint_provider (e : env) (p : OwnerPath) (provider : nat) (priority : Z)
    : res env :=
  _ ← require_authoring_root p MODEL_DEFINITION None;
  match op_authority p with
  | None => Err RuntimeError
  | Some serial =>
      Ok (Env (<[serial := bind_provider (authority_of e serial) provider priority]> (e_authorities e)) (e_call e))
  end.

(** [OwnerPath.canonical] *)
Definition canonical (e : env) (p : OwnerPath) : res OwnerPath :=
  if negb (is_authoring p) then Ok p
  else
    fp ← definition_fingerprint e p;
    _ ← require (negb (contains p MODEL_DEFINITION && bool_decide (fp = None))) UnresolvedOwnershipError;
    mk_path (op_nodes p) None fp.

(** [OwnerPath.presentation] *)
Definition presentation (e : env) (p : OwnerPath) : res OwnerPath :=
  fp ← definition_fingerprint e p; mk_path (op_nodes p) None fp.

(** [OwnerPath.instance_of] *)
Definition instance_of (e : env) (p declaration : OwnerPath) : res OwnerPath :=
  _ ← require (bool_decide (last_kind p = Some BLOCK)) OwnershipError;
  _ ← require (negb (contains declaration BLOCK)) DoubleOwnershipError;
  c ← canonical e declaration;
  _ ← require (bool_decide (hd CASE (kinds (op_nodes c)) ∈ [MODEL_DEFINITION; DESCRIPTOR])) OwnershipError;
  fp ← definition_fingerprint e c;
  mk_path (op_nodes p ++ op_nodes c) (op_authority p) fp.

(** ** Data *)

(** [OwnerSegment.to_data] *)
Definition segment_data (s : OwnerSegment) : json :=
  JObj [("kind", JStr (kind_value (sg_kind s))); ("name", JStr (sg_name s))].

Definition option_data (o : option string) : json := match o with Some s => JStr s | None => JNull end.

Definition path_data (p : OwnerPath) : json :=
  JObj [("schema_version", JInt 2); ("nodes", JList (map segment_data (op_nodes p)));
        ("definition_fingerprint", option_data (op_fingerprint p))].

(** [OwnerPath.to_data] *)
Definition to_data (p : OwnerPath) : res json :=
  _ ← require (negb (is_authoring p)) UnresolvedOwnershipError; Ok (path_data p).

(** One turn of the loop over [raw_nodes]. *)
Definition segment_from_data (raw : json) : res OwnerSegment :=
  d ← exact_mapping raw ["kind"; "name"];
  kind ← (v ← item d "kind"; match v with JStr s => Ok s | _ => Err TypeError end);
  kind ← match kind_of_value kind with Some k => Ok k | None => Err ValueError end;
  name ← item d "name";
  match name with JStr n => mk_segment kind n | _ => Err ValueError end.

(** [OwnerPath.from_data] *)
Definition from_data (data : json) : res OwnerPath :=
  d ← exact_mapping data ["schema_version"; "nodes"; "definition_fingerprint"];
  version ← (v ← item d "schema_version"; strict_int v None);
  _ ← require (version =? 2) ValueError;
  raw_fp ← item d "definition_fingerprint";
  fp ← match raw_fp with
       | JNull => Ok None
       | JStr s => v ← validate_definition_fingerprint s; Ok (Some v)
       | _ => Err ValueError
       end;
  raw_nodes ← item d "nodes";
  match raw_nodes with
  | JList (raw :: rest) =>
      nodes ← map_res segment_from_data (raw :: rest);
      mk_path nodes None fp
  | _ => Err TypeError
  end.

(** ** The grammar of owner paths *)

(** What may lead a path: a case, alone or with one block (and its model) or a
    layout below it; a model; a layout; a shared scope; or nothing. *)
Definition HEADS : list (list OwnerKind) :=
  [[]; [CASE]; [CASE; BLOCK]; [CASE; BLOCK; MODEL_DEFINITION]; [CASE; LAYOUT]; [MODEL_DEFINITION];
   [LAYOUT]; [SHARED]].

(** Descriptors and consumers below it, no consumer directly under another;
    [consumer] says whether the node above refuses a consumer. *)
Inductive leaves : bool → list OwnerKind → Prop :=
| leaves_nil b : leaves b []
| leaves_descriptor b l : leaves false l → leaves b (DESCRIPTOR :: l)
| leaves_consumer l : leaves true l → leaves false (CONSUMER :: l).

Inductive owner_grammar : list OwnerKind → Prop :=
| grammar head tail :
    head ∈ HEADS → leaves (bool_decide (last head = Some BLOCK)) tail → head ++ tail ≠ [] →
    owner_grammar (head ++ tail).

(** A well-formed path. *)
Definition well_formed (p : OwnerPath) : Prop :=
  owner_grammar (kinds (op_nodes p))
  ∧ Forall (fun s => sg_name s ≠ EmptyString) (op_nodes p)
  ∧ (∀ fp, op_fingerprint p = Some fp → fingerprint_match fp = true ∧ MODEL_DEFINITION ∈ kinds (op_nodes p)).

(** ** Lemmas: topology *)

(** The transitions below a node, on kinds. *)
Fixpoint chain (parent : OwnerKind) (l : list OwnerKind) : bool :=
  match l with
  | [] => true
  | k :: l => bool_decide (k ∈ TRANSITIONS parent) && chain k l
  end.

Lemma transitions_chain s l : transitions_ok s l = chain (sg_kind s) (kinds l).
Proof. revert s. induction l as [|t l IH]; intros s; cbn; [done|]. by rewrite IH. Qed.

Definition refuses_consumer (k : OwnerKind) : bool := bool_decide (k = BLOCK ∨ k = CONSUMER).

(** Below a node that is neither a case nor a block only leaves can follow. *)
Lemma chain_leaves l : ∀ k, k ≠ CASE → k ≠ BLOCK → chain k l = true ↔ leaves (refuses_consumer k) l.
Proof.
  induction l as [|k' l IH]; intros k Hc Hb; cbn [chain].
  - split; [constructor | done].
  - destruct (decide (k' = DESCRIPTOR)) as [->|Hd]; [|destruct (decide (k' = CONSUMER)) as [->|Hco]].
    + rewrite andb_true_iff, IH by done. split.
      * intros [_ H]. constructor. exact H.
      * intros H. inversion H; subst. split; [by destruct k | done].
    + rewrite andb_true_iff, IH by done. split.
      * intros [H1 H2]. destruct k; try done; by constructor.
      * intros H. inversion H; subst. split; [|done].
        destruct k; done.
    + split.
      * destruct k, k'; done.
      * intros H. inversion H; subst; done.
Qed.

Definition kinds_ok (l : list OwnerKind) : bool :=
  match l with [] => false | k :: l => bool_decide (k ∈ ROOT_KINDS) && chain k l end.

Lemma leaves_head b tail : leaves b tail → tail ≠ [] → kinds_ok tail = true.
Proof.
  intros H Hne. inversion H; subst; [done| |]; cbn [kinds_ok].
  - apply (chain_leaves _ DESCRIPTOR) in H0; [exact H0 | done..].
  - apply (chain_leaves _ CONSUMER) in H0; [exact H0 | done..].
Qed.

Ltac in_heads := apply (bool_decide_unpack _); vm_compute; exact I.

(** The checks accept exactly the grammar. *)
Lemma kinds_ok_grammar l : kinds_ok l = true ↔ owner_grammar l.
Proof.
  split.
  - destruct l as [|k l]; [done|]. cbn [kinds_ok]. intros [Hr Hch]%andb_true_iff.
    assert (Hleaf : ∀ pre k l, pre ++ [k] ∈ HEADS → k ≠ CASE → k ≠ BLOCK → k ≠ CONSUMER →
              chain k l = true → owner_grammar (pre ++ k :: l)).
    { intros pre k' l' Hin H1 H2 H3 Hc. rewrite (cons_middle k' pre l'), app_assoc. constructor; [done| |].
      - rewrite last_snoc, bool_decide_false by congruence. apply chain_leaves in Hc; [|done..].
        unfold refuses_consumer in Hc. by rewrite bool_decide_false in Hc by naive_solver.
      - by destruct pre. }
    assert (Hdesc : ∀ pre l, pre ∈ HEADS → chain DESCRIPTOR l = true → owner_grammar (pre ++ DESCRIPTOR :: l)).
    { intros pre l' Hin Hc. constructor; [done| |by destruct pre]. constructor.
      by apply (chain_leaves l' DESCRIPTOR) in Hc. }
    assert (Hcons : ∀ pre l, pre ∈ HEADS → last pre ≠ Some BLOCK → chain CONSUMER l = true →
              owner_grammar (pre ++ CONSUMER :: l)).
    { intros pre l' Hin Hl Hc. constructor; [done| |by destruct pre]. rewrite bool_decide_false by done.
      constructor. by apply (chain_leaves l' CONSUMER) in Hc. }
    destruct k; try discriminate Hr.
    2,3,6: apply (Hleaf []); [in_heads | done..].
    2: apply (Hdesc []); [in_heads | done].
    2: apply (Hcons []); [in_heads | done..].
    destruct l as [|k l]; [apply (grammar [CASE] []); [in_heads|constructor|done]|].
    cbn [chain] in Hch. apply andb_true_iff in Hch as [Hk Hch].
    destruct k; try discriminate Hk.
    2: by apply (Hleaf [CASE]); [in_heads | ..].
    2: by apply (Hdesc [CASE]); [in_heads | ..].
    2: by apply (Hcons [CASE]); [in_heads | ..].
    destruct l as [|k l]; [apply (grammar [CASE; BLOCK] []); [in_heads|constructor|done]|].
    cbn [chain] in Hch. apply andb_true_iff in Hch as [Hk' Hch].
    destruct k; try discriminate Hk'.
    + by apply (Hleaf [CASE; BLOCK]); [in_heads | ..].
    + by apply (Hdesc [CASE; BLOCK]); [in_heads | ..].
  - intros [head tail Hh Hl Hne].
    assert (Ht : ∀ k, k ≠ BLOCK → k ≠ CONSUMER → leaves false tail → chain k tail = true).
    { intros k H1 H2 H. destruct tail as [|k' t]; [done|]. inversion H; subst; cbn [chain];
        (apply andb_true_iff; split; [by destruct k | by apply chain_leaves]). }
    unfold HEADS in Hh. repeat (apply elem_of_cons in Hh as [->|Hh]); [..|by apply elem_of_nil in Hh];
      cbn [app kinds_ok chain]; try (by apply Ht).
    + by apply (leaves_head false).
    + inversion Hl; subst; cbn; [done|]. by apply (chain_leaves _ DESCRIPTOR).
Qed.

Lemma validate_topology_ok nodes : nodes ≠ [] → validate_topology nodes = Ok tt ↔ owner_grammar (kinds nodes).
Proof.
  intros Hne. rewrite <- kinds_ok_grammar. destruct nodes as [|s l]; [done|]. cbn. rewrite transitions_chain.
  destruct (bool_decide _), (chain _ _); done.
Qed.

Lemma topology_err nodes e : nodes ≠ [] → validate_topology nodes = Err e → e = OwnershipError.
Proof.
  destruct nodes as [|s l]; [done|]. cbn. destruct (bool_decide _), (transitions_ok _ _); cbn; congruence.
Qed.

Definition fingerprint_ok (nodes : list OwnerSegment) (fp : option string) : Prop :=
  ∀ s, fp = Some s → fingerprint_match s = true ∧ MODEL_DEFINITION ∈ kinds nodes.

Lemma mk_path_spec nodes auth fp p :
  mk_path nodes auth fp = Ok p ↔
  p = Path nodes auth fp ∧ owner_grammar (kinds nodes) ∧ fingerprint_ok nodes fp.
Proof.
  unfold mk_path. destruct nodes as [|s l].
  { cbn. split; [done|]. intros (_ & Hg & _). apply kinds_ok_grammar in Hg. done. }
  cbn [require mbind res_bind]. rewrite <- (validate_topology_ok (s :: l)) by done.
  destruct (validate_topology (s :: l)) as [[]|e]; cbn [mbind res_bind]; [|naive_solver].
  unfold fingerprint_ok. destruct fp as [v|]; cbn; [|naive_solver].
  unfold validate_definition_fingerprint. destruct (fingerprint_match v) eqn:Ev; cbn;
    [|split; [done|]; intros (_ & _ & H); destruct (H v eq_refl); congruence].
  case_bool_decide as Hm; cbn.
  - split; [intros [= <-]|by intros (-> & _)]. split_and!; [done..|]. intros ? [= <-]. done.
  - split; [done|]. intros (_ & _ & H). by destruct (H v eq_refl).
Qed.

Lemma mk_segment_ok k n s : mk_segment k n = Ok s ↔ s = Segment k n ∧ n ≠ EmptyString.
Proof.
  unfold mk_segment. destruct (String.eqb n EmptyString) eqn:E; cbn.
  - apply String.eqb_eq in E. naive_solver.
  - apply String.eqb_neq in E. naive_solver.
Qed.

Lemma kinds_app l1 l2 : kinds (l1 ++ l2) = kinds l1 ++ kinds l2.
Proof. apply map_app. Qed.

Lemma kinds_last l : last (kinds l) = sg_kind <$> last l.
Proof. unfold kinds. change (map sg_kind l) with (sg_kind <$> l). apply fmap_last. Qed.

(** Appending one kind, seen from the last one. *)
Lemma chain_snoc l : ∀ k0 k, chain k0 (l ++ [k]) = chain k0 l && bool_decide (k ∈ TRANSITIONS (default k0 (last l))).
Proof.
  induction l as [|k1 l IH]; intros k0 k; cbn [app chain]; [by rewrite andb_true_r|].
  rewrite IH, andb_assoc. do 3 f_equal. destruct l; [done|]. cbn [last].
  by destruct (last_is_Some (o :: l)) as [_ [x ->]].
Qed.

Lemma grammar_snoc l k0 k :
  owner_grammar l → last l = Some k0 → owner_grammar (l ++ [k]) ↔ k ∈ TRANSITIONS k0.
Proof.
  rewrite <- !kinds_ok_grammar. destruct l as [|k1 l]; [done|]. cbn [kinds_ok app]. intros [Hr Hch]%andb_true_iff Hl.
  rewrite chain_snoc, Hr, Hch. cbn [andb].
  assert (default k1 (last l) = k0) as ->; [|by rewrite bool_decide_eq_true].
  destruct l as [|k2 l]; [by injection Hl|]. by rewrite (last_cons_cons k1 k2 l) in Hl; rewrite Hl.
Qed.

(** A block is always directly below the case. *)
Lemma grammar_block l : owner_grammar l → last l = Some BLOCK → l = [CASE; BLOCK].
Proof.
  intros [head tail Hh Hl _]. destruct (last tail) as [k|] eqn:Et.
  - rewrite last_app, Et. intros [= ->]. exfalso. clear Hh. revert Et. generalize dependent (bool_decide (last head = Some BLOCK)).
    induction tail as [|k t IH]; [done|]. intros b Hb. inversion Hb; subst; destruct t; try done;
      rewrite last_cons_cons; eauto.
  - apply last_None in Et as ->. rewrite app_nil_r. unfold HEADS in Hh.
    repeat (apply elem_of_cons in Hh as [->|Hh]); [done..|by apply elem_of_nil in Hh].
Qed.

(** What may hang below a block: a model with its leaves, or descriptors. *)
Lemma grammar_below_block l :
  owner_grammar l → BLOCK ∉ l → hd CASE l ∈ [MODEL_DEFINITION; DESCRIPTOR] → owner_grammar ([CASE; BLOCK] ++ l).
Proof.
  rewrite <- !kinds_ok_grammar. destruct l as [|k l]; [done|]. cbn. intros [_ Hch]%andb_true_iff _ Hk.
  rewrite Hch, andb_true_r. apply bool_decide_eq_true. set_solver.
Qed.

(** ** Lemmas: authorities *)

(** What an environment stores as a fallback was validated. *)
Definition env_ok (e : env) : Prop :=
  ∀ n a fp, e_authorities e !! n = Some a → au_fingerprint a = Some fp → fingerprint_match fp = true.

Lemma fingerprint_valid e serial fp :
  env_ok e → fingerprint (e_call e) (authority_of e serial) = Ok (Some fp) → fingerprint_match fp = true.
Proof.
  intros He. unfold fingerprint, authority_of. destruct (first_live _ _) as [v|].
  - unfold validate_definition_fingerprint. destruct (fingerprint_match v) eqn:E; cbn; [|done]. by intros [= <-].
  - destruct (e_authorities e !! serial) as [a|] eqn:Ea; cbn; [|done]. intros [= H]. by eapply He.
Qed.

Lemma definition_fingerprint_ok e p fp :
  env_ok e → well_formed p → definition_fingerprint e p = Ok fp → fingerprint_ok (op_nodes p) fp.
Proof.
  intros He (_ & _ & Hfp) H s ->. unfold definition_fingerprint in H.
  destruct (op_fingerprint p) as [v|]; [injection H as ->; auto|].
  destruct (op_authority p) as [n|]; [|done]. unfold contains in H. case_bool_decide; [|done].
  split; [|done]. by eapply fingerprint_valid.
Qed.

Lemma bind_keeps_env e p value prio e' :
  env_ok e → bind_definition_fingerprint e p value prio = Ok e' → env_ok e'.
Proof.
  intros He H. unfold bind_definition_fingerprint in H. inv_ok. destruct (op_authority p) as [n|]; [|done].
  inv_ok. intros m a' fp Hm Hfp. cbn in Hm. apply lookup_insert_Some in Hm as [[<- <-]|[_ Hm]]; [|by eapply He].
  unfold bind_fingerprint, validate_definition_fingerprint in E0. inv_ok. destruct (_ <=? _); cbn in Hfp.
  - by injection Hfp as <-.
  - unfold authority_of in Hfp. destruct (e_authorities e !! n) eqn:En; cbn in Hfp; [|done]. by eapply He.
Qed.

Lemma bind_provider_keeps_env e p provider prio e' :
  env_ok e → bind_definition_fingerprint_provider e p provider prio = Ok e' → env_ok e'.
Proof.
  intros He H. unfold bind_definition_fingerprint_provider in H. inv_ok. destruct (op_authority p) as [n|]; [|done].
  inv_ok. intros m a' fp Hm Hfp. cbn in Hm. apply lookup_insert_Some in Hm as [[<- <-]|[_ Hm]]; [|by eapply He].
  cbn in Hfp. unfold authority_of in Hfp. destruct (e_authorities e !! n) eqn:En; cbn in Hfp; [|done]. by eapply He.
Qed.

#[global] Instance ranked_before_total : Total ranked_before.
Proof. intros x y. unfold ranked_before. lia. Qed.
#[global] Instance ranked_before_trans : Transitive ranked_before.
Proof. intros x y z. unfold ranked_before. lia. Qed.

(** The fingerprint of an authority is that of the live provider with the
    highest priority, the newest among equals; the bound fallback only serves
    when no provider is live. *)
Lemma fingerprint_newest_live call a :
  match first_live call (ranked (au_providers a)) with
  | Some value =>
      ∃ i prio provider, au_providers a !! i = Some (prio, provider) ∧ call provider = Some value
        ∧ ∀ j prio' provider', au_providers a !! j = Some (prio', provider') → is_Some (call provider') →
            prio' < prio ∨ (prio' = prio ∧ (j <= i)%nat)
  | None => ∀ prio provider, (prio, provider) ∈ au_providers a → call provider = None
  end.
Proof.
  assert (Hin : ∀ t, t ∈ ranked (au_providers a) ↔ au_providers a !! t.1 = Some t.2).
  { intros [i t]. unfold ranked. rewrite merge_sort_Permutation. rewrite elem_of_lookup_imap. cbn. split.
    - by intros (j & y & [= <- <-] & Hj).
    - intros H. by exists i, t. }
  assert (Hs : StronglySorted ranked_before (ranked (au_providers a))) by (apply StronglySorted_merge_sort; apply _).
  revert Hin Hs. generalize (ranked (au_providers a)). intros l Hin Hs.
  assert (Hlive : match first_live call l with
    | Some value => ∃ t, t ∈ l ∧ call t.2.2 = Some value ∧ ∀ u, u ∈ l → is_Some (call u.2.2) → ranked_before t u
    | None => ∀ t, t ∈ l → call t.2.2 = None end).
  { clear Hin. induction Hs as [|[i [prio provider]] l Hs IH Hf]; cbn; [set_solver|].
    destruct (call provider) as [v|] eqn:Ec.
    - exists (i, (prio, provider)). split; [left|]. split; [done|]. intros u [->|Hu]%elem_of_cons _.
      + unfold ranked_before. lia.
      + rewrite Forall_forall in Hf. auto.
    - destruct (first_live call l) as [v|].
      + destruct IH as (t & Ht & Hc & Hmax). exists t. split; [by right|]. split; [done|].
        intros u [->|Hu]%elem_of_cons; [|auto]. cbn. rewrite Ec. by intros [? ?].
      + intros t [->|Ht]%elem_of_cons; auto. }
  destruct (first_live call l) as [v|].
  - destruct Hlive as ([i [prio provider]] & Ht & Hc & Hmax). exists i, prio, provider.
    split; [by apply Hin in Ht|]. split; [done|]. intros j prio' provider' Hj Hl.
    pose proof (Hmax (j, (prio', provider')) ltac:(by apply Hin) Hl) as H. unfold ranked_before in H. cbn in H. lia.
  - intros prio provider Hp. apply list_elem_of_lookup in Hp as [i Hi].
    apply (Hlive (i, (prio, provider))). by apply Hin.
Qed.

(** ** Lemmas: operations *)

Lemma mk_path_typed nodes auth fp p :
  Forall (fun s => sg_name s ≠ EmptyString) nodes → mk_path nodes auth fp = Ok p →
  well_formed p ∧ op_nodes p = nodes ∧ op_authority p = auth ∧ op_fingerprint p = fp.
Proof. intros Hn (-> & Hg & Hfp)%mk_path_spec. split; [|done]. split; [done|]. split; [done | exact Hfp]. Qed.

Lemma child_ok p k n r :
  well_formed p →
  child p k n = Ok r ↔
  r = Path (op_nodes p ++ [Segment k n]) (op_authority p) (op_fingerprint p) ∧ n ≠ EmptyString
  ∧ ∃ k0, last_kind p = Some k0 ∧ k ∈ TRANSITIONS k0.
Proof.
  intros (Hg & Hn & Hfp). unfold child, last_kind.
  assert (∃ k0, sg_kind <$> last (op_nodes p) = Some k0) as [k0 Hk0].
  { rewrite <- kinds_last. destruct (last _) as [k0|] eqn:E; [eauto|].
    apply last_None in E. rewrite E in Hg. by apply kinds_ok_grammar in Hg. }
  assert (Hs : owner_grammar (kinds (op_nodes p ++ [Segment k n])) ↔ k ∈ TRANSITIONS k0).
  { rewrite kinds_app. apply grammar_snoc; [done | by rewrite kinds_last]. }
  destruct (mk_segment k n) as [s|] eqn:Es; cbn [mbind res_bind].
  - apply mk_segment_ok in Es as [-> Hne]. rewrite mk_path_spec, Hs. split.
    + intros (-> & H & _). eauto 10.
    + intros (-> & _ & k1 & H1 & H2). rewrite Hk0 in H1. injection H1 as <-. split_and!; [done..|].
      intros v Hv. destruct (Hfp v Hv). split; [done|]. rewrite kinds_app. set_solver.
  - split; [done|]. intros (_ & Hne & _). assert (H : mk_segment k n = Ok (Segment k n)) by by apply mk_segment_ok.
    congruence.
Qed.

(** After its guard [canonical] cannot fail. *)
Lemma canonical_ok e p fp :
  env_ok e → well_formed p → is_authoring p = true → definition_fingerprint e p = Ok fp →
  (contains p MODEL_DEFINITION = true → fp ≠ None) → canonical e p = Ok (Path (op_nodes p) None fp).
Proof.
  intros He Hw Ha Hfp Hne. unfold canonical. rewrite Ha. cbn [negb]. rewrite Hfp. cbn [mbind res_bind].
  assert (contains p MODEL_DEFINITION && bool_decide (fp = None) = false) as ->.
  { destruct (contains p MODEL_DEFINITION); [|done]. cbn. apply bool_decide_eq_false. auto. }
  cbn. apply mk_path_spec. destruct Hw as (Hg & Hn & Hp). split_and!; [done..|].
  by apply (definition_fingerprint_ok e).
Qed.

Lemma canonical_typed e p r :
  env_ok e → well_formed p → canonical e p = Ok r →
  well_formed r ∧ op_nodes r = op_nodes p ∧ op_authority r = None.
Proof.
  intros He Hw H. unfold canonical in H. destruct (is_authoring p) eqn:Ea; cbn [negb] in H.
  - inv_ok. apply mk_path_typed in H as (? & ? & ? & _); [done | by apply Hw].
  - injection H as <-. split_and!; [done..|]. unfold is_authoring in Ea. apply bool_decide_eq_false in Ea.
    by apply eq_None_not_Some in Ea.
Qed.

Lemma presentation_typed e p r :
  well_formed p → presentation e p = Ok r → well_formed r ∧ op_nodes r = op_nodes p ∧ op_authority r = None.
Proof. intros Hw H. unfold presentation in H. inv_ok. apply mk_path_typed in H as (? & ? & ? & _); [done|]. by apply Hw. Qed.

Lemma block_nodes p : well_formed p → last_kind p = Some BLOCK → kinds (op_nodes p) = [CASE; BLOCK].
Proof. intros (Hg & _) Hl. apply grammar_block; [done|]. by rewrite kinds_last. Qed.

Lemma instance_typed e p q r :
  env_ok e → well_formed p → well_formed q → instance_of e p q = Ok r →
  well_formed r ∧ op_nodes r = op_nodes p ++ op_nodes q ∧ op_authority r = op_authority p
  ∧ kinds (op_nodes p) = [CASE; BLOCK].
Proof.
  intros He Hp Hq H. unfold instance_of in H. inv_ok. bools.
  match goal with E : canonical e q = Ok ?c |- _ => destruct (canonical_typed e q c He Hq E) as (Hw & Hn & Ha) end.
  apply mk_path_typed in H as (? & -> & -> & _).
  - rewrite Hn. split_and!; [done..|]. by apply block_nodes.
  - rewrite Hn. apply Forall_app. split; [apply Hp | apply Hq].
Qed.

(** The guards of [instance_of] leave nothing for the constructor to refuse. *)
Lemma instance_total e p q c :
  env_ok e → well_formed p → well_formed q → last_kind p = Some BLOCK → contains q BLOCK = false →
  canonical e q = Ok c → hd CASE (kinds (op_nodes q)) ∈ [MODEL_DEFINITION; DESCRIPTOR] →
  instance_of e p q = Ok (Path (op_nodes p ++ op_nodes q) (op_authority p) (op_fingerprint c)).
Proof.
  intros He Hp Hq Hl Hb Hc Hh. destruct (canonical_typed e q c He Hq Hc) as (Hw & Hn & Ha).
  unfold instance_of. rewrite (bool_decide_true _ Hl), Hb, Hc. cbn [negb require mbind res_bind]. rewrite Hn, (bool_decide_true _ Hh). cbn [require mbind res_bind].
  assert (definition_fingerprint e c = Ok (op_fingerprint c)) as ->.
  { unfold definition_fingerprint. rewrite Ha. by destruct (op_fingerprint c). }
  cbn [mbind res_bind]. apply mk_path_spec. split; [done|]. rewrite kinds_app, (block_nodes p Hp Hl). split.
  - apply grammar_below_block; [apply Hq | | done]. unfold contains in Hb. by apply bool_decide_eq_false in Hb.
  - intros v Hv. destruct Hw as (_ & _ & Hw). destruct (Hw v Hv). rewrite Hn in *. split; [done|].
    rewrite kinds_app. set_solver.
Qed.

(** ** Lemmas: data *)

Lemma kind_of_kind_value k : kind_of_value (kind_value k) = Some k.
Proof. by destruct k. Qed.

Lemma kind_of_value_ok s k : kind_of_value s = Some k → kind_value k = s.
Proof. intros [_ H]%find_some. by apply String.eqb_eq. Qed.

Lemma segment_from_to s : sg_name s ≠ EmptyString → segment_from_data (segment_data s) = Ok s.
Proof.
  intros Hn. destruct s as [k n]. unfold segment_from_data, segment_data. cbn [exact_mapping].
  rewrite same_keys_refl. cbn [require mbind res_bind]. rewrite !item_cons. cbn -[mk_segment kind_of_value].
  rewrite kind_of_kind_value. cbn -[mk_segment]. by apply mk_segment_ok.
Qed.

Lemma segment_from_ok raw s :
  segment_from_data raw = Ok s → sg_name s ≠ EmptyString ∧ json_eq (segment_data s) raw = true.
Proof.
  intros H. unfold segment_from_data in H.
  destruct (exact_mapping raw _) as [d|] eqn:Ed; [|discriminate H]. apply exact_mapping_ok in Ed as [-> Hk].
  cbn [mbind res_bind] in H. unfold item in H.
  destruct (dget "kind" d) as [v|] eqn:E1; [|discriminate H]. cbn [mbind res_bind] in H.
  destruct v as [| | | |sk| |]; try discriminate H. cbn [mbind res_bind] in H.
  destruct (kind_of_value sk) as [k|] eqn:Ek; [|discriminate H]. cbn [mbind res_bind] in H.
  destruct (dget "name" d) as [v|] eqn:E2; [|discriminate H]. cbn [mbind res_bind] in H.
  destruct v as [| | | |n| |]; try discriminate H. apply mk_segment_ok in H as [-> Hn].
  split; [done|]. apply kind_of_value_ok in Ek as <-. unfold segment_data. cbn [json_eq sg_kind sg_name].
  apply andb_true_iff. split; [apply same_keys_spec; intros k'; rewrite Hk; set_solver|].
  rewrite E1, E2. cbn [json_eq]. by rewrite !String.eqb_refl.
Qed.

Lemma owner_from_to_data p d : well_formed p → to_data p = Ok d → from_data d = Ok p.
Proof.
  intros (Hg & Hn & Hfp) H. unfold to_data, is_authoring in H. inv_ok. bools.
  assert (Ha : op_authority p = None) by (apply eq_None_not_Some; done).
  destruct p as [nodes auth fp]. cbn in *. subst auth.
  unfold from_data. cbn [exact_mapping]. rewrite same_keys_refl. cbn [require mbind res_bind].
  rewrite !item_cons. cbn -[segment_from_data mk_path map_res option_data].
  assert (Hp : mk_path nodes None fp = Ok (Path nodes None fp)).
  { apply mk_path_spec. split_and!; [done..|]. exact Hfp. }
  assert (match option_data fp with
          | JNull => Ok None
          | JStr s => v ← validate_definition_fingerprint s; Ok (Some v)
          | _ => Err ValueError end = Ok fp) as ->.
  { destruct fp as [v|]; [|done]. cbn. unfold validate_definition_fingerprint.
    destruct (Hfp v eq_refl) as [-> _]. done. }
  cbn [mbind res_bind]. destruct nodes as [|s l]; [by apply kinds_ok_grammar in Hg|].
  assert (Hm : map_res segment_from_data (map segment_data (s :: l)) = Ok (s :: l)).
  { apply map_res_Forall2. change (@map OwnerSegment json) with (@fmap list _ OwnerSegment json).
    rewrite Forall2_fmap_l. apply Forall_Forall2_diag. eapply Forall_impl; [exact Hn|]. intros x. apply segment_from_to. }
  cbn [map map_res] in Hm |- *. rewrite Hm. exact Hp.
Qed.

Lemma json_eq_list l m :
  Forall2 (fun x y => json_eq x y = true) l m → json_eq (JList l) (JList m) = true.
Proof. induction 1 as [|x y l m Hx _ IH]; [done|]. cbn [json_eq] in *. by rewrite Hx. Qed.

Lemma from_data_ok d p :
  from_data d = Ok p → well_formed p ∧ ∃ d', to_data p = Ok d' ∧ json_eq d' d = true.
Proof.
  intros H. unfold from_data in H.
  destruct (exact_mapping d _) as [m|] eqn:Em; [|discriminate H]. apply exact_mapping_ok in Em as [-> Hk].
  cbn [mbind res_bind] in H. unfold item in H.
  destruct (dget "schema_version" m) as [v|] eqn:E1; [|discriminate H]. cbn [mbind res_bind] in H.
  destruct v as [| |z| | | |]; try discriminate H. cbn [strict_int require mbind res_bind] in H.
  destruct (z =? 2) eqn:Ez; [|discriminate H]. apply Z.eqb_eq in Ez as ->. cbn [require mbind res_bind] in H.
  destruct (dget "definition_fingerprint" m) as [v|] eqn:E2; [|discriminate H]. cbn [mbind res_bind] in H.
  destruct (match v with JNull => _ | _ => _ end) as [fp|] eqn:Efp in H; [|discriminate H].
  assert (Hv : v = option_data fp).
  { destruct v; try discriminate Efp; [by injection Efp as <-|]. unfold validate_definition_fingerprint in Efp.
    inv_ok. done. }
  subst v. clear Efp. cbn [mbind res_bind] in H.
  destruct (dget "nodes" m) as [v|] eqn:E3; [|discriminate H]. cbn [mbind res_bind] in H.
  destruct v as [| | | | |[|raw rest]|]; try discriminate H.
  destruct (map_res _ _) as [nodes|] eqn:En in H; [|discriminate H]. cbn [mbind res_bind] in H.
  apply map_res_Forall2 in En.
  assert (Hnames : Forall (fun s => sg_name s ≠ EmptyString) nodes).
  { eapply Forall2_Forall_r in En; [exact En|]. apply Forall_true. intros x y Hy. by apply segment_from_ok in Hy as [? _]. }
  destruct (mk_path_typed _ _ _ _ Hnames H) as (Hw & Hn & Ha & Hf). split; [done|].
  unfold to_data, is_authoring. rewrite Ha. cbn [negb]. rewrite bool_decide_false by (by intros []).
  cbn [negb require mbind res_bind]. eexists. split; [reflexivity|]. unfold path_data. rewrite Hn, Hf.
  assert (Hl : json_eq (JList (map segment_data nodes)) (JList (raw :: rest)) = true).
  { apply json_eq_list. change (@map OwnerSegment json) with (@fmap list _ OwnerSegment json).
    apply Forall2_fmap_l, Forall2_flip. eapply Forall2_impl; [exact En|]. intros x y Hy.
    by apply segment_from_ok in Hy as [_ ?]. }
  remember (JList (map segment_data nodes)) as jl eqn:Ejl. remember (JList (raw :: rest)) as jr eqn:Ejr.
  cbn [json_eq]. apply andb_true_iff. split; [apply same_keys_spec; intros k'; rewrite Hk; set_solver|].
  rewrite E1, E2, E3, Hl. cbn [json_eq number_eq as_int]. rewrite Z.eqb_refl.
  destruct fp; cbn; [by rewrite String.eqb_refl | done].
Qed.

(** ** Properties *)

(** Owner paths are typed: over well-formed paths and an environment whose
    fingerprints were validated, every operation returns a well-formed path of
    the stated shape, a child is refused exactly when its name is empty or its
    kind may not hang below the last node, canonicalisation and presentation
    keep the nodes and drop the authority, and once the guards of an instance
    hold the path the constructor builds is never refused. *)
Theorem owner_operations_typed e p q :
  env_ok e → well_formed p → well_formed q →
  (∀ k n r, child p k n = Ok r → well_formed r ∧ op_authority r = op_authority p)
  ∧ (∀ k n, (∃ r, child p k n = Ok r) ↔
       n ≠ EmptyString ∧ ∃ k0, last_kind p = Some k0 ∧ k ∈ TRANSITIONS k0)
  ∧ (∀ r, canonical e p = Ok r ∨ presentation e p = Ok r →
       well_formed r ∧ op_nodes r = op_nodes p ∧ op_authority r = None)
  ∧ (∀ r, instance_of e p q = Ok r →
       well_formed r ∧ op_authority r = op_authority p ∧ op_nodes r = op_nodes p ++ op_nodes q
       ∧ kinds (op_nodes p) = [CASE; BLOCK])
  ∧ (∀ c, last_kind p = Some BLOCK → contains q BLOCK = false → canonical e q = Ok c →
       hd CASE (kinds (op_nodes q)) ∈ [MODEL_DEFINITION; DESCRIPTOR] → ∃ r, instance_of e p q = Ok r).
Proof.
  intros He Hp Hq. split; [|split; [|split; [|split]]].
  - intros k n r H. unfold child in H. inv_ok. apply mk_segment_ok in E as [-> Hn].
    apply mk_path_typed in H as (? & _ & ? & _); [done|]. apply Forall_app. split; [apply Hp|]. by constructor.
  - intros k n. split.
    + intros [r (_ & H)%child_ok]; done.
    + intros H. eexists. apply child_ok; [done|]. split; [reflexivity | done].
  - intros r [H|H]; [by eapply canonical_typed | by eapply presentation_typed].
  - intros r H. destruct (instance_typed e p q r He Hp Hq H) as (? & ? & ? & ?). done.
  - intros c Hl Hb Hc Hh. eexists. by eapply instance_total.
Qed.

Definition toy_fingerprint : string :=
  "model:sha256:0123456789abcdef0123456789abcdef0123456789abcdef0123456789abcdef".
Definition toy_model : OwnerPath := Path [Segment MODEL_DEFINITION "gas"] (Some 3%nat) None.
Definition toy_block : OwnerPath := Path [Segment CASE "run"; Segment BLOCK "plasma"] (Some 4%nat) None.
Definition toy_env : env :=
  Env {[ 3%nat := Authority None (-1) [(10, 0%nat); (20, 1%nat); (20, 2%nat)] ]}
      (fun n => if (n =? 1)%nat then Some toy_fingerprint else None).

Lemma owner_operations_typed_witness :
  ∃ r, instance_of toy_env toy_block toy_model = Ok r ∧ well_formed r ∧ op_fingerprint r = Some toy_fingerprint.
Proof.
  assert (He : env_ok toy_env).
  { intros n a fp Ha Hf. cbn in Ha. apply lookup_singleton_Some in Ha as [_ <-]. discriminate Hf. }
  assert (Hp : well_formed toy_block).
  { split; [by apply kinds_ok_grammar; vm_compute|]. split; [by repeat constructor | done]. }
  assert (Hq : well_formed toy_model).
  { split; [by apply kinds_ok_grammar; vm_compute|]. split; [by repeat constructor | done]. }
  destruct (owner_operations_typed toy_env toy_block toy_model He Hp Hq) as (_ & _ & _ & Hi & Ht).
  destruct (Ht (Path [Segment MODEL_DEFINITION "gas"] None (Some toy_fingerprint))) as [r Hr];
    [done | done | vm_compute; reflexivity | left |].
  exists r. split; [done|]. split; [by apply Hi|].
  vm_compute in Hr. injection Hr as <-. vm_compute. reflexivity.
Defined.

(** Owner-path data round trips: a well-formed canonical path is read back
    from its data, an authoring path has none, and whatever [from_data] accepts
    is a well-formed canonical path whose own data equals what was read. *)
Theorem owner_data_roundtrip p :
  well_formed p →
  (op_authority p = None ↔ ∃ d, to_data p = Ok d)
  ∧ (∀ d, to_data p = Ok d → from_data d = Ok p)
  ∧ (∀ d q, from_data d = Ok q →
       well_formed q ∧ op_authority q = None ∧ ∃ d', to_data q = Ok d' ∧ json_eq d' d = true).
Proof.
  intros Hp. assert (Hauth : ∀ q, op_authority q = None ↔ ∃ d, to_data q = Ok d).
  { intros q. unfold to_data, is_authoring. rewrite eq_None_not_Some. case_bool_decide; cbn; naive_solver. }
  split; [apply Hauth|]. split; [intros d; by apply owner_from_to_data|].
  intros d q (Hw & d' & Hd & Hj)%from_data_ok. split; [done|]. split; [apply Hauth; eauto | eauto].
Qed.

Lemma owner_data_roundtrip_witness :
  let p := Path [Segment CASE "run"; Segment BLOCK "plasma"; Segment MODEL_DEFINITION "gas"] None
             (Some toy_fingerprint) in
  ∃ d, to_data p = Ok d ∧ from_data d = Ok p.
Proof.
  intros p. assert (Hp : well_formed p).
  { split; [by apply kinds_ok_grammar; vm_compute|]. split; [by repeat constructor|].
    intros fp [= <-]. split; [by vm_compute | set_solver]. }
  destruct (owner_data_roundtrip p Hp) as (Ha & Hr & _).
  destruct (proj1 Ha eq_refl) as [d Hd]. exists d. split; [exact Hd | by apply Hr].
Defined.
