(* ===== verification/Points.v ===== *)
(** * Temporal coordinates

    [python/pops/time/points.py] and [python/pops/time/_cadence.py]: logical
    clocks, exact points of a clock, named stages with one point per partition,
    and the macro-step cadence of a program. *)
From S2P Require Import Prelude SortedKeys Binary64 Scalar Manifest Ownership.

#[global] Instance payload_dec : EqDecision payload.
Proof. solve_decision. Defined.
#[global] Instance literal_dec : EqDecision literal.
Proof. solve_decision. Defined.

(** [_name] *)
Definition point_name (value : json) : res string :=
  match value with
  | JStr s => _ ← require (negb (String.eqb s EmptyString)) ValueError; Ok s
  | _ => Err ValueError
  end.

(** [_offset] *)
Definition offset_of (value : pyval) : res literal :=
  l ← scalar_literal value;
  _ ← require (match l_payload l with
               | PInteger _ | PRational _ | PDecimal _ | PBinary64 _ => true | _ => false end) TypeError;
  _ ← require (bool_decide (l_unit l = None ∧ l_target l = None ∧ l_cpp l = None)) TypeError;
  Ok l.

(** ** Clocks *)

(** The owner of a clock is canonical. *)
Record Clock := MkClock { clk_name : string; clk_owner : option OwnerPath }.
#[global] Instance Clock_dec : EqDecision Clock.
Proof. solve_decision. Defined.

(** [Clock(name, owner)] *)
Definition new_clock (e : env) (name : json) (owner : option OwnerPath) : res Clock :=
  n ← point_name name;
  o ← match owner with
      | None => Ok None
      | Some p => c ← canonical e p; Ok (Some c)
      end;
  Ok (MkClock n o).

(** [Clock.to_data] *)
Definition owner_data (o : option OwnerPath) : json :=
  match o with Some p => path_data p | None => JNull end.
Definition clock_fields (c : Clock) : list (string * json) :=
  [("schema_version", JInt 1); ("name", JStr (clk_name c));
   ("owner", owner_data (clk_owner c))].
Definition clock_data (c : Clock) : json := JObj (clock_fields c).

(** [Clock.qualified_id]: [digest] is the hexadecimal SHA-256 of the canonical
    text of the data. *)
Definition qualified_id (digest : json → string) (c : Clock) : string :=
  "pops.clock.v1::sha256:" +:+ digest (clock_data c).

Definition owner_from_data (raw : json) : res (option OwnerPath) :=
  match raw with JNull => Ok None | v => p ← from_data v; Ok (Some p) end.

(** [Clock.from_data]: the owner is read canonical, so [new_clock] does not
    consult an authority; [!=] is Python's, a version [True] passes. *)
Definition clock_from_data (e : env) (data : json) : res Clock :=
  d ← exact_mapping data ["schema_version"; "name"; "owner"];
  version ← item d "schema_version";
  _ ← require (json_eq version (JInt 1)) ValueError;
  raw_owner ← item d "owner";
  owner ← owner_from_data raw_owner;
  name ← item d "name";
  c ← new_clock e name owner;
  _ ← require (json_eq (clock_data c) (JObj d)) ValueError;
  Ok c.

(** ** Points *)

Record TimePoint := MkTime { tp_clock : Clock; tp_offset : literal; tp_step : Z }.
#[global] Instance TimePoint_dec : EqDecision TimePoint.
Proof. solve_decision. Defined.

(** [TimePoint(clock, offset, step=step)] *)
Definition new_time_point (clock : Clock) (offset : pyval) (step : Z) : res TimePoint :=
  o ← offset_of offset; Ok (MkTime clock o step).

(** The key [("named", name)] or [("fresh", identity)] of a stage. *)
Inductive stage_key := Named (name : string) | Fresh (identity : Z).
#[global] Instance stage_key_dec : EqDecision stage_key.
Proof. solve_decision. Defined.

Record StagePoint := MkStage {
  sp_name : string;
  sp_coordinates : list (string * TimePoint);
  sp_key : stage_key }.
#[global] Instance StagePoint_dec : EqDecision StagePoint.
Proof. solve_decision. Defined.

(** [StagePoint(name, partitions, identity=identity)]; [partitions] is a [dict],
    so its keys are distinct. *)
Definition new_stage_point (name : string) (partitions : list (string * TimePoint)) (identity : option Z)
    : res StagePoint :=
  n ← point_name (JStr name);
  _ ← require (match identity with Some i => 0 <=? i | None => true end) ValueError;
  _ ← require (match partitions with [] => false | _ => true end) TypeError;
  _ ← map_res (fun t => point_name (JStr t.1)) partitions;
  Ok (MkStage n (sort_keys partitions) (match identity with None => Named n | Some i => Fresh i end)).

(** [StagePoint.__eq__]: the name is a label ([compare=False]). *)
Definition stage_eq (a b : StagePoint) : bool :=
  bool_decide (sp_coordinates a = sp_coordinates b ∧ sp_key a = sp_key b).

(** [StagePoint.identity] *)
Definition stage_identity (s : StagePoint) : option Z :=
  match sp_key s with Fresh i => Some i | Named _ => None end.

(** [StagePoint.time_for] *)
Definition time_for (s : StagePoint) (partition : string) : res TimePoint :=
  p ← point_name (JStr partition);
  match dget p (sp_coordinates s) with Some t => Ok t | None => Err KeyError end.

(** [StagePoint.time] *)
Definition stage_time (s : StagePoint) : res TimePoint :=
  match sp_coordinates s with
  | [] => Err IndexError
  | (_, first) :: rest => _ ← require (forallb (fun t => bool_decide (t.2 = first)) rest) ValueError; Ok first
  end.

Inductive point := AtTime (t : TimePoint) | AtStage (s : StagePoint).

Definition point_eq (a b : point) : bool :=
  match a, b with
  | AtTime s, AtTime t => bool_decide (s = t)
  | AtStage s, AtStage t => stage_eq s t
  | _, _ => false
  end.

(** [point_clock]: the set of the partitions' clocks must be a singleton. *)
Definition point_clock (p : point) : res Clock :=
  match p with
  | AtTime t => Ok (tp_clock t)
  | AtStage s =>
      match sp_coordinates s with
      | [] => Err ValueError
      | (_, first) :: rest =>
          _ ← require (forallb (fun t => bool_decide (tp_clock t.2 = tp_clock first)) rest) ValueError;
          Ok (tp_clock first)
      end
  end.

(** ** The program cadence *)

Record ProgramCadence := Cadence { pc_substeps : Z; pc_stride : Z }.

(** [_positive_int] of the cadence: an exact [int]. *)
Definition cadence_int (value : json) : res Z :=
  match value with
  | JInt z => _ ← require (1 <=? z) ValueError; Ok z
  | _ => Err TypeError
  end.

(** [ProgramCadence(substeps, stride)] *)
Definition new_cadence (substeps stride : json) : res ProgramCadence :=
  s ← cadence_int substeps; t ← cadence_int stride; Ok (Cadence s t).

Definition cadence_default (c : ProgramCadence) : bool := (pc_substeps c =? 1) && (pc_stride c =? 1).

(** [ProgramCadence.to_data] and [from_data] *)
Definition cadence_data (c : ProgramCadence) : json :=
  JObj [("schema_version", JInt 1); ("substeps", JInt (pc_substeps c)); ("stride", JInt (pc_stride c))].

Definition cadence_from_data (data : json) : res ProgramCadence :=
  d ← exact_mapping data ["schema_version"; "substeps"; "stride"];
  version ← item d "schema_version";
  _ ← require (match version with JInt z => z =? 1 | _ => false end) ValueError;
  s ← item d "substeps";
  t ← item d "stride";
  new_cadence s t.

(** ** Lemmas *)

Lemma point_name_ok v n : point_name v = Ok n ↔ v = JStr n ∧ n ≠ EmptyString.
Proof.
  destruct v as [| | | |s| |]; cbn; try naive_solver.
  destruct (String.eqb s EmptyString) eqn:E; cbn.
  - apply String.eqb_eq in E. naive_solver.
  - apply String.eqb_neq in E. naive_solver.
Qed.

Lemma offset_exact v l :
  offset_of v = Ok l → l_unit l = None ∧ l_target l = None ∧ l_cpp l = None ∧ ∃ n, to_python l = Ok n.
Proof.
  unfold offset_of. intros H. inv_ok. bools. destruct_and!. split_and!; [done..|].
  unfold to_python. destruct (l_payload l); try done; eauto.
Qed.

(** A stage holds distinct partitions in order, each at an exact point. *)
Lemma stage_partitions name parts i s p :
  NoDup (dkeys parts) → new_stage_point name parts i = Ok s → p ≠ EmptyString →
  time_for s p = match dget p parts with Some t => Ok t | None => Err KeyError end.
Proof.
  intros Hnd H Hp. unfold new_stage_point in H. inv_ok. unfold time_for. cbn [sp_coordinates].
  rewrite (proj2 (point_name_ok (JStr p) p)) by done. cbn [mbind res_bind].
  assert (dget p (sort_keys parts) = dget p parts) as ->; [|done].
  assert (Hs : NoDup (dkeys (sort_keys parts))).
  { assert (Hp' : sort_keys parts ≡ₚ parts).
    { clear. induction parts as [|[k v] d IH]; [done|]. unfold sort_keys in *. cbn [foldr]. rewrite <- IH at 2.
      generalize (foldr (λ '(k, v) d, insert_key k v d) [] d). clear. intros d.
      induction d as [|[k' v'] d IH]; cbn; [done|]. destruct (String.leb k k'); [done|]. rewrite IH. constructor. }
    unfold dkeys. change (@map (string * TimePoint) string) with (@fmap list _ (string * TimePoint) string).
    by rewrite Hp'. }
  destruct (dget p parts) as [t|] eqn:Ed.
  - apply dget_elem; [done|]. apply sort_keys_elem. by apply dget_Some_elem.
  - apply dget_None. apply dget_None in Ed. intros [[k v] [-> Hin]]%list_elem_of_fmap. apply Ed.
    apply list_elem_of_fmap. exists (k, v). split; [done|]. by apply (sort_keys_elem parts) in Hin.
Qed.

(** The clocks of a stage agree exactly when it has one clock. *)
Lemma point_clock_stage s c :
  sp_coordinates s ≠ [] →
  point_clock (AtStage s) = Ok c ↔ ∀ n t, (n, t) ∈ sp_coordinates s → tp_clock t = c.
Proof.
  cbn. destruct (sp_coordinates s) as [|[n0 t0] rest]; [done|]. intros _.
  assert (Hrest : forallb (fun t => bool_decide (tp_clock t.2 = tp_clock t0)) rest = true
                  ↔ ∀ n t, (n, t) ∈ rest → tp_clock t = tp_clock t0).
  { rewrite forallb_forall. setoid_rewrite <- list_elem_of_In. setoid_rewrite bool_decide_eq_true. split.
    - intros H n t Hin. apply (H (n, t) Hin).
    - intros H [n t] Hin. apply (H n t Hin). }
  destruct (forallb _ rest); cbn.
  - split.
    + intros [= <-] n t [[= -> ->]|Hin]%elem_of_cons; [done|]. by apply (proj1 Hrest eq_refl n).
    + intros H. f_equal. by apply (H n0); left.
  - split; [done|]. intros H. exfalso. assert (Hf : false = true); [|done]. apply Hrest. intros n t Hin.
    rewrite (H n0 t0) by left. apply (H n). by right.
Qed.

Definition clock_ok (c : Clock) : Prop :=
  clk_name c ≠ EmptyString ∧ ∀ p, clk_owner c = Some p → well_formed p ∧ op_authority p = None.

Lemma canonical_id e p : op_authority p = None → canonical e p = Ok p.
Proof. intros H. unfold canonical, is_authoring. rewrite H. by rewrite bool_decide_false by (by intros []). Qed.

Lemma new_clock_ok e name owner c :
  env_ok e → (∀ p, owner = Some p → well_formed p) → new_clock e name owner = Ok c → clock_ok c.
Proof.
  intros He Ho H. unfold new_clock in H. inv_ok. apply point_name_ok in E as [-> Hn]. split; [done|].
  cbn. intros p ->. destruct owner as [q|]; [|done]. inv_ok.
  match goal with E : canonical e q = Ok ?c |- _ => destruct (canonical_typed e q c He (Ho q eq_refl) E) as (? & _ & ?) end.
  done.
Qed.


Lemma path_data_plain p : plain (path_data p) = true.
Proof.
  unfold path_data. cbn [plain forallb]. rewrite bool_decide_true.
  2: { repeat constructor; set_solver. }
  cbn [andb]. rewrite andb_true_r. apply andb_true_iff. split; [|by destruct (op_fingerprint p)].
  apply forallb_forall. intros v [s [<- _]]%in_map_iff. unfold segment_data. cbn [plain forallb].
  rewrite bool_decide_true; [done|]. repeat constructor; set_solver.
Qed.

Lemma clock_data_plain c : plain (clock_data c) = true.
Proof.
  change (plain (clock_data c)) with (bool_decide (NoDup ["schema_version"; "name"; "owner"]%string)
                                      && (plain (owner_data (clk_owner c)) && true)).
  rewrite bool_decide_true by (repeat constructor; set_solver).
  destruct (clk_owner c); cbn [owner_data]; [by rewrite path_data_plain | done].
Qed.

Lemma owner_from_to o :
  (∀ p, o = Some p → well_formed p ∧ op_authority p = None) → owner_from_data (owner_data o) = Ok o.
Proof.
  intros Ho. destruct o as [p|]; [|done]. destruct (Ho p eq_refl) as [Hw Ha].
  assert (Hd : to_data p = Ok (path_data p)).
  { unfold to_data, is_authoring. rewrite Ha. by rewrite bool_decide_false by (by intros []). }
  cbn [owner_data]. unfold owner_from_data, path_data. fold (path_data p). by rewrite (owner_from_to_data p _ Hw Hd).
Qed.

Lemma owner_from_ok v o :
  owner_from_data v = Ok o →
  (∀ p, o = Some p → well_formed p ∧ op_authority p = None) ∧ json_eq (owner_data o) v = true.
Proof.
  intros H. assert (Hp : ∀ v, v ≠ JNull → owner_from_data v = Ok o → ∃ p, from_data v = Ok p ∧ o = Some p).
  { intros w Hw. unfold owner_from_data. destruct w; try done; intros H'; inv_ok; eauto. }
  assert (v = JNull ∨ v ≠ JNull) as [->|Hv] by (destruct v; (by left) || by right).
  - injection H as <-. done.
  - destruct (Hp v Hv H) as (p & (Hw & d & Hd & Hj)%from_data_ok & ->).
    unfold to_data in Hd. inv_ok. split; [|done]. intros ? [= <-]. split; [done|].
    unfold is_authoring in *. bools. by apply eq_None_not_Some.
Qed.

(** What a clock writes reads back as that clock. *)
Lemma clock_from_to e c : clock_ok c → clock_from_data e (clock_data c) = Ok c.
Proof.
  intros [Hn Ho]. unfold clock_from_data.
  unfold clock_data at 2. rewrite (exact_mapping_self (clock_fields c)) by done. cbn [mbind res_bind].
  fold (clock_data c). unfold clock_fields. rewrite !item_cons. cbn -[new_clock json_eq owner_from_data owner_data].
  rewrite owner_from_to by done. cbn [mbind res_bind].
  assert (new_clock e (JStr (clk_name c)) (clk_owner c) = Ok c) as ->.
  { unfold new_clock. rewrite (proj2 (point_name_ok (JStr (clk_name c)) (clk_name c))) by done. cbn [mbind res_bind].
    destruct c as [n o]. cbn in *. destruct o as [p|]; [|done]. destruct (Ho p eq_refl) as [_ Ha].
    by rewrite (canonical_id e p Ha). }
  cbn [mbind res_bind]. change (JObj [("schema_version", JInt 1); _; _]) with (clock_data c).
  by rewrite json_eq_refl by apply clock_data_plain.
Qed.

(** Nothing else is a clock. *)
Lemma clock_from_ok e d c : clock_from_data e d = Ok c → clock_ok c ∧ json_eq (clock_data c) d = true.
Proof.
  intros H. unfold clock_from_data in H.
  destruct (exact_mapping d _) as [m|] eqn:Em; [|discriminate H]. apply exact_mapping_ok in Em as [-> _].
  cbn [mbind res_bind] in H. inv_ok. split; [|done].
  match goal with E : owner_from_data _ = Ok ?o |- _ => apply owner_from_ok in E as [Ho _] end.
  match goal with E : new_clock _ _ _ = Ok c |- _ => unfold new_clock in E end. inv_ok.
  match goal with E : point_name _ = Ok _ |- _ => apply point_name_ok in E as [-> Hn] end. split; [done|].
  match goal with E : match ?o with Some _ => _ | None => _ end = Ok _ |- _ => destruct o as [p|]; [|by injection E as <-] end.
  destruct (Ho p eq_refl) as [Hw Ha].
  match goal with E : _ = Ok _ |- _ => rewrite (canonical_id e p Ha) in E; injection E as <- end.
  intros ? [= <-]. done.
Qed.

(** Cadences round trip: data read back is a cadence of positive integers. *)
Lemma cadence_roundtrip c :
  1 <= pc_substeps c → 1 <= pc_stride c → cadence_from_data (cadence_data c) = Ok c.
Proof.
  intros H1 H2. unfold cadence_from_data, cadence_data. rewrite exact_mapping_self by done.
  cbn [mbind res_bind]. rewrite !item_cons. cbn. destruct c as [s t]. cbn in *.
  unfold new_cadence, cadence_int. rewrite (proj2 (Z.leb_le 1 s) H1), (proj2 (Z.leb_le 1 t) H2). done.
Qed.

Lemma cadence_from_ok d c :
  cadence_from_data d = Ok c → 1 <= pc_substeps c ∧ 1 <= pc_stride c ∧ json_eq (cadence_data c) d = true.
Proof.
  intros H. unfold cadence_from_data in H.
  destruct (exact_mapping d _) as [m|] eqn:Em; [|discriminate H]. apply exact_mapping_ok in Em as [-> Hk].
  cbn [mbind res_bind] in H. unfold item in H.
  destruct (dget "schema_version" m) as [v|] eqn:E1; [|discriminate H]. cbn [mbind res_bind] in H.
  destruct v as [| |z| | | |]; try discriminate H. destruct (z =? 1) eqn:Ez; [|discriminate H].
  apply Z.eqb_eq in Ez as ->. cbn [require mbind res_bind] in H.
  destruct (dget "substeps" m) as [s|] eqn:E2; [|discriminate H].
  destruct (dget "stride" m) as [t|] eqn:E3; [|discriminate H]. cbn [mbind res_bind] in H.
  unfold new_cadence, cadence_int in H. destruct s as [| |s| | | |]; try discriminate H.
  destruct (1 <=? s) eqn:Es; [|discriminate H]. destruct t as [| |t| | | |]; try discriminate H.
  destruct (1 <=? t) eqn:Et; [|discriminate H]. injection H as <-. bools. split_and!; [done..|].
  unfold cadence_data. cbn [json_eq]. apply andb_true_iff. split.
  { apply same_keys_spec. intros k. rewrite Hk. set_solver. }
  rewrite E1, E2, E3. cbn. by rewrite !Z.eqb_refl.
Qed.
