(* ===== verification/Schedule.v ===== *)
(** * Typed schedules

    [python/pops/time/_schedule]: a domain owns the coordinate of a cadence, a
    trigger says when it is due, an off policy what a read in between observes;
    a schedule lowers to the strict IR the code generator and the restart
    manifest consume.  Subclasses written outside the package are not
    modelled. *)
From S2P Require Import Prelude Binary64 Scalar Manifest Ownership Points EveryDt.

(** ** The lowering IR ([ir.py]) *)

Inductive ScheduleTimeline := ACCEPTED_STEP | STAGE | CLOCK_TICK | AMR_LEVEL.
Inductive ScheduleDueKind := ALWAYS | CACHE_PERIOD | MACRO_STEP_ZERO | AT_END | PROGRAM_PREDICATE.
Inductive ScheduleAction := EFFECTIVE_DT | STORE | ZERO | ACCUMULATE_DT | RESTORE | ERROR.
Inductive ScheduleComment := SKIP.

#[global] Instance ScheduleTimeline_dec : EqDecision ScheduleTimeline. Proof. solve_decision. Defined.
#[global] Instance ScheduleDueKind_dec : EqDecision ScheduleDueKind. Proof. solve_decision. Defined.
#[global] Instance ScheduleAction_dec : EqDecision ScheduleAction. Proof. solve_decision. Defined.
#[global] Instance ScheduleComment_dec : EqDecision ScheduleComment. Proof. solve_decision. Defined.

(** The condition of [When]: a Python bool, a program value (its id and vtype),
    or something else. *)
Inductive condition := CondBool (b : bool) | CondValue (id : nat) (vtype : string) | CondOther.

(** The stage identity is the JSON text of the stage's data; it is represented
    by the stage, which that data determines. *)
Record ScheduleDomainIR := DomainIR {
  di_timeline : ScheduleTimeline;
  di_clock : string;
  di_stage : option StagePoint;
  di_level : option Z }.
Record ScheduleDueIR := DueIR {
  du_kind : ScheduleDueKind;
  du_period : option Z;
  du_predicate : option condition }.
Record ScheduleOffIR := OffIR {
  of_before : list ScheduleAction;
  of_after : list ScheduleAction;
  of_off : list ScheduleAction;
  of_comment : option ScheduleComment }.
Record ScheduleLoweringIR := LoweringIR {
  lo_domain : ScheduleDomainIR;
  lo_due : ScheduleDueIR;
  lo_off : ScheduleOffIR }.

Definition is_none {A} (o : option A) : bool := match o with None => true | Some _ => false end.

(** [ScheduleDomainIR.__post_init__] *)
Definition mk_domain_ir (timeline : ScheduleTimeline) (clock : string) (stage : option StagePoint)
    (level : option Z) : res ScheduleDomainIR :=
  _ ← require (negb (String.eqb clock EmptyString)) ValueError;
  _ ← require (match timeline with STAGE => negb (is_none stage) | _ => is_none stage end) ValueError;
  _ ← require (match timeline, level with
               | AMR_LEVEL, Some l => 0 <=? l | AMR_LEVEL, None => false
               | _, l => is_none l end) ValueError;
  Ok (DomainIR timeline clock stage level).

(** [ScheduleDueIR.__post_init__] *)
Definition mk_due_ir (kind : ScheduleDueKind) (period : option Z) (predicate : option condition)
    : res ScheduleDueIR :=
  _ ← match kind with
      | CACHE_PERIOD =>
          _ ← require (match period with Some p => 0 <? p | None => false end) ValueError;
          require (is_none predicate) ValueError
      | PROGRAM_PREDICATE =>
          _ ← require (is_none period) ValueError; require (negb (is_none predicate)) ValueError
      | _ => _ ← require (is_none period) ValueError; require (is_none predicate) ValueError
      end;
  Ok (DueIR kind period predicate).

Definition subset (l allowed : list ScheduleAction) : bool := bool_decide (Forall (fun a => a ∈ allowed) l).
Definition empty {A} (l : list A) : bool := match l with [] => true | _ => false end.

(** [ScheduleOffIR.__post_init__] *)
Definition mk_off_ir (before after off : list ScheduleAction) (comment : option ScheduleComment)
    : res ScheduleOffIR :=
  _ ← require (bool_decide (NoDup before) && subset before [EFFECTIVE_DT]) ValueError;
  _ ← require (bool_decide (NoDup after) && subset after [STORE]) ValueError;
  _ ← require (bool_decide (NoDup off) && subset off [ZERO; ACCUMULATE_DT; RESTORE; ERROR]) ValueError;
  _ ← require (negb (negb (is_none comment) && negb (empty (before ++ after ++ off)))) ValueError;
  _ ← require (negb (bool_decide (ERROR ∈ off) && negb (length off =? 1)%nat)) ValueError;
  _ ← require (negb (bool_decide (ZERO ∈ off) && negb (length off =? 1)%nat)) ValueError;
  _ ← require (Bool.eqb (bool_decide (ACCUMULATE_DT ∈ off)) (bool_decide (EFFECTIVE_DT ∈ before))) ValueError;
  Ok (OffIR before after off comment).

Definition no_plan (o : ScheduleOffIR) : bool :=
  empty (of_before o) && empty (of_after o) && empty (of_off o) && is_none (of_comment o).

(** [ScheduleLoweringIR.__post_init__] *)
Definition mk_lowering_ir (domain : ScheduleDomainIR) (due : ScheduleDueIR) (off : ScheduleOffIR)
    : res ScheduleLoweringIR :=
  _ ← require (negb (bool_decide (du_kind due = ALWAYS) && negb (no_plan off))) ValueError;
  Ok (LoweringIR domain due off).

(** ** Domains ([domains.py]) *)

(** An event channel; its owner is canonical. *)
Record EventHandle := MkEvent { eh_owner : OwnerPath; eh_local : string }.
#[global] Instance EventHandle_dec : EqDecision EventHandle. Proof. solve_decision. Defined.

(** [EventHandle.__post_init__] *)
Definition new_event (e : env) (owner : OwnerPath) (local_id : string) : res EventHandle :=
  o ← canonical e owner;
  _ ← require (negb (String.eqb local_id EmptyString)) ValueError;
  Ok (MkEvent o local_id).

Inductive domain :=
| AcceptedStep (clock : Clock) (at_ : option point)
| Attempt (clock : Clock) (at_ : option point)
| Stage (clock : Clock) (at_ : StagePoint)
| ClockTick (clock : Clock) (at_ : option point)
| AMRLevel (clock : Clock) (at_ : option point) (level : Z)
| Event (clock : Clock) (at_ : option point) (event : EventHandle)
| WallOutput (clock : Clock) (at_ : option point).

Definition domain_clock (d : domain) : Clock :=
  match d with
  | AcceptedStep c _ | Attempt c _ | Stage c _ | ClockTick c _ | AMRLevel c _ _ | Event c _ _
  | WallOutput c _ => c
  end.
Definition domain_at (d : domain) : option point :=
  match d with
  | AcceptedStep _ a | Attempt _ a | ClockTick _ a | AMRLevel _ a _ | Event _ a _ | WallOutput _ a => a
  | Stage _ s => Some (AtStage s)
  end.

(** [_point] of the domains. *)
Definition check_point (at_ : option point) (clock : Clock) : res unit :=
  match at_ with
  | None => Ok tt
  | Some p => c ← point_clock p; require (bool_decide (c = clock)) ValueError
  end.

(** The [__post_init__] of a domain. *)
Definition new_domain (d : domain) : res domain :=
  _ ← check_point (domain_at d) (domain_clock d);
  _ ← match d with AMRLevel _ _ level => require (0 <=? level) ValueError | _ => Ok tt end;
  Ok d.

(** What a consumer sees of the runtime. *)
Record moment := Moment {
  mo_accepted : Z; mo_attempt : Z; mo_time : string; mo_tick : Z; mo_wall : Z;
  mo_stage : option StagePoint; mo_level : option Z; mo_events : list EventHandle;
  mo_start : bool; mo_end : bool }.

Definition option_stage_eq (o : option StagePoint) (s : StagePoint) : bool :=
  match o with Some t => stage_eq t s | None => false end.

(** [consumer_coordinate] of each domain. *)
Definition consumer_coordinate (d : domain) (m : moment) : option Z :=
  match d with
  | AcceptedStep _ _ => Some (mo_accepted m)
  | Attempt _ _ => Some (mo_attempt m)
  | Stage _ s => if option_stage_eq (mo_stage m) s then Some (mo_accepted m) else None
  | ClockTick _ _ => Some (mo_tick m)
  | AMRLevel _ _ l => if bool_decide (mo_level m = Some l) then Some (mo_accepted m) else None
  | Event _ _ e => if bool_decide (e ∈ mo_events m) then Some (mo_accepted m) else None
  | WallOutput _ _ => Some (mo_wall m)
  end.

Section Schedules.
(** The hash of a clock's canonical data and the spelling of a float. *)
Context (digest : json → string) (repr : float → decimal).

(** [native_schedule_domain] of each domain. *)
Definition native_schedule_domain (d : domain) : res ScheduleDomainIR :=
  match d with
  | AcceptedStep c _ => mk_domain_ir ACCEPTED_STEP (qualified_id digest c) None None
  | Stage c s => mk_domain_ir STAGE (qualified_id digest c) (Some s) None
  | ClockTick c _ => mk_domain_ir CLOCK_TICK (qualified_id digest c) None None
  | AMRLevel c _ l => mk_domain_ir AMR_LEVEL (qualified_id digest c) None (Some l)
  | Attempt _ _ | Event _ _ _ | WallOutput _ _ => Err NotImplementedError
  end.

(** ** Triggers ([api.py]) *)

Inductive trigger :=
| Always (d : domain)
| Every (d : domain) (n : Z)
| EveryDt (d : domain) (interval : float)
| AtStart (d : domain)
| AtEnd (d : domain)
| When (d : domain) (cond : condition).

Definition trigger_domain (t : trigger) : domain :=
  match t with Always d | Every d _ | EveryDt d _ | AtStart d | AtEnd d | When d _ => d end.

(** [Every.__post_init__] and [EveryDt.__post_init__] on the resolved value. *)
Definition new_every (d : domain) (n : json) : res trigger :=
  match n with
  | JInt z => _ ← require (0 <? z) ValueError; Ok (Every d z)
  | _ => Err ValueError
  end.

Definition canonical_binary64 (value : json) : res float :=
  number ← match value with
           | JInt z => let f := float_of_Z z in if is_finite f then Ok f else Err OverflowError
           | JFloat f => Ok f
           | _ => Err TypeError
           end;
  _ ← require (is_finite number && fltb (SpecFloat.S754_zero false) number) ValueError;
  Ok number.

Definition new_every_dt (d : domain) (interval : json) : res trigger :=
  x ← canonical_binary64 interval; Ok (EveryDt d x).

(** [native_schedule_due] of each trigger. *)
Definition native_schedule_due (t : trigger) : res ScheduleDueIR :=
  match t with
  | Always _ => mk_due_ir ALWAYS None None
  | Every _ n => mk_due_ir CACHE_PERIOD (Some n) None
  | EveryDt _ _ => Err NotImplementedError
  | AtStart _ => mk_due_ir MACRO_STEP_ZERO None None
  | AtEnd _ => mk_due_ir AT_END None None
  | When _ c => mk_due_ir PROGRAM_PREDICATE None (Some c)
  end.

(** [is_always]; [EveryDt] answers without asking for a lowering. *)
Definition trigger_is_always (t : trigger) : res bool :=
  match t with
  | EveryDt _ _ => Ok false
  | t => due ← native_schedule_due t; Ok (bool_decide (du_kind due = ALWAYS))
  end.

(** [consumer_due] of each trigger. *)
Definition consumer_due (t : trigger) (coordinate : Z) (m : moment) : res bool :=
  match t with
  | Always _ => Ok (negb (mo_start m))
  | Every _ n => Ok (negb (mo_start m) && (coordinate mod n =? 0))
  | EveryDt _ x => every_dt_due repr x (mo_start m) (mo_time m)
  | AtStart _ => Ok (mo_start m)
  | AtEnd _ => Ok (negb (mo_start m) && mo_end m)
  | When _ c =>
      if mo_start m then Ok false
      else match c with CondBool b => Ok b | _ => Err TypeError end
  end.

Definition consumer_may_fire_at_start (t : trigger) : bool :=
  match t with AtStart _ => true | _ => false end.

(** ** Off policies *)

Inductive off_policy := Hold | Skip | Zero | AccumulateDt | ErrorOff.

(** [native_schedule_off] of each policy. *)
Definition native_schedule_off (o : off_policy) : res ScheduleOffIR :=
  match o with
  | Hold => mk_off_ir [] [STORE] [RESTORE] None
  | Skip => mk_off_ir [] [] [] (Some SKIP)
  | Zero => mk_off_ir [] [] [ZERO] None
  | AccumulateDt => mk_off_ir [EFFECTIVE_DT] [STORE] [ACCUMULATE_DT; RESTORE] None
  | ErrorOff => mk_off_ir [] [] [ERROR] None
  end.

Definition CACHE_ACTIONS : list ScheduleAction := [EFFECTIVE_DT; STORE; ACCUMULATE_DT; RESTORE].

(** [OffPolicy.needs_cache] *)
Definition off_needs_cache (o : off_policy) : res bool :=
  plan ← native_schedule_off o;
  Ok (existsb (fun a => bool_decide (a ∈ CACHE_ACTIONS)) (of_before plan ++ of_after plan ++ of_off plan)).

(** ** Schedules *)

Record schedule := MkSchedule { sch_trigger : trigger; sch_off : option off_policy }.

(** [Schedule.__post_init__] *)
Definition new_schedule (t : trigger) (off : option off_policy) : res schedule :=
  always ← trigger_is_always t;
  _ ← require (negb (always && negb (is_none off))) ValueError;
  Ok (MkSchedule t off).

Definition schedule_domain (s : schedule) : domain := trigger_domain (sch_trigger s).
Definition schedule_clock (s : schedule) : Clock := domain_clock (schedule_domain s).

(** [Schedule.native_schedule_ir] *)
Definition native_schedule_ir (s : schedule) : res ScheduleLoweringIR :=
  domain ← native_schedule_domain (schedule_domain s);
  due ← native_schedule_due (sch_trigger s);
  off ← match sch_off s with None => mk_off_ir [] [] [] None | Some o => native_schedule_off o end;
  mk_lowering_ir domain due off.

(** [Schedule.validate_site] *)
Definition validate_site (s : schedule) (clock : Clock) (at_ : point) : res unit :=
  _ ← require (bool_decide (schedule_clock s = clock)) ValueError;
  match domain_at (schedule_domain s) with
  | None => Ok tt
  | Some p => require (point_eq p at_) ValueError
  end.

(** [schedule_lowering_cache_required] *)
Definition lowering_cache_required (l : ScheduleLoweringIR) (retained_output : bool) : bool :=
  let cache_actions :=
    if retained_output then List.filter (fun a => bool_decide (a ∉ [STORE; RESTORE])) CACHE_ACTIONS
    else CACHE_ACTIONS in
  existsb (fun a => bool_decide (a ∈ cache_actions)) (of_before (lo_off l) ++ of_after (lo_off l) ++ of_off (lo_off l)).

(** [native_schedule_cache_required] *)
Definition native_schedule_cache_required (s : schedule) (retained_output : bool) : res bool :=
  l ← native_schedule_ir s; Ok (lowering_cache_required l retained_output).

(** The helpers [always], [every], ... on accepted steps. *)
Definition always (c : Clock) : res schedule := new_schedule (Always (AcceptedStep c None)) None.
Definition every (n : json) (c : Clock) : res schedule :=
  t ← new_every (AcceptedStep c None) n; new_schedule t None.
Definition every_dt (interval : json) (c : Clock) : res schedule :=
  t ← new_every_dt (AcceptedStep c None) interval; new_schedule t None.
Definition when (cond : condition) (c : Clock) : res schedule := new_schedule (When (AcceptedStep c None) cond) None.
Definition on_start (c : Clock) : res schedule := new_schedule (AtStart (AcceptedStep c None)) None.
Definition on_end (c : Clock) : res schedule := new_schedule (AtEnd (AcceptedStep c None)) None.
End Schedules.

(** ** Lowering *)

(** What the constructors check of a schedule. *)
Definition schedule_ok (s : schedule) : Prop :=
  match sch_trigger s with Every _ n => 0 < n | Always _ => sch_off s = None | _ => True end
  ∧ match schedule_domain s with AMRLevel _ _ l => 0 <= l | _ => True end.

(** The domains and triggers that have a native lowering. *)
Definition lowerable (s : schedule) : bool :=
  match schedule_domain s with Attempt _ _ | Event _ _ _ | WallOutput _ _ => false | _ => true end
  && match sch_trigger s with EveryDt _ _ => false | _ => true end.

Definition domain_ir (digest : json → string) (d : domain) : ScheduleDomainIR :=
  let id := qualified_id digest (domain_clock d) in
  match d with
  | Stage _ s => DomainIR STAGE id (Some s) None
  | ClockTick _ _ => DomainIR CLOCK_TICK id None None
  | AMRLevel _ _ l => DomainIR AMR_LEVEL id None (Some l)
  | _ => DomainIR ACCEPTED_STEP id None None
  end.
Definition due_ir (t : trigger) : ScheduleDueIR :=
  match t with
  | Always _ | EveryDt _ _ => DueIR ALWAYS None None
  | Every _ n => DueIR CACHE_PERIOD (Some n) None
  | AtStart _ => DueIR MACRO_STEP_ZERO None None
  | AtEnd _ => DueIR AT_END None None
  | When _ c => DueIR PROGRAM_PREDICATE None (Some c)
  end.
Definition off_ir (o : option off_policy) : ScheduleOffIR :=
  match o with
  | None => OffIR [] [] [] None
  | Some Hold => OffIR [] [STORE] [RESTORE] None
  | Some Skip => OffIR [] [] [] (Some SKIP)
  | Some Zero => OffIR [] [] [ZERO] None
  | Some AccumulateDt => OffIR [EFFECTIVE_DT] [STORE] [ACCUMULATE_DT; RESTORE] None
  | Some ErrorOff => OffIR [] [] [ERROR] None
  end.

Lemma qualified_id_nonempty digest c : String.eqb (qualified_id digest c) EmptyString = false.
Proof. done. Qed.

(** A constructed schedule lowers exactly when its domain and trigger are
    native, and no validator of the IR ever refuses it. *)
Lemma native_schedule_ir_spec digest s :
  schedule_ok s →
  native_schedule_ir digest s =
  if lowerable s
  then Ok (LoweringIR (domain_ir digest (schedule_domain s)) (due_ir (sch_trigger s)) (off_ir (sch_off s)))
  else Err NotImplementedError.
Proof.
  intros [Ht Hd]. unfold native_schedule_ir, lowerable.
  assert (Hdom : native_schedule_domain digest (schedule_domain s) =
    match schedule_domain s with Attempt _ _ | Event _ _ _ | WallOutput _ _ => Err NotImplementedError
    | d => Ok (domain_ir digest d) end).
  { destruct (schedule_domain s); cbn -[qualified_id]; unfold mk_domain_ir; rewrite ?qualified_id_nonempty; try done.
    cbn. by rewrite (proj2 (Z.leb_le 0 level) Hd). }
  assert (Hdue : native_schedule_due (sch_trigger s) =
    match sch_trigger s with EveryDt _ _ => Err NotImplementedError | t => Ok (due_ir t) end).
  { destruct (sch_trigger s); try done. cbn. unfold mk_due_ir. by rewrite (proj2 (Z.ltb_lt 0 n) Ht). }
  assert (Hoff : match sch_off s with None => mk_off_ir [] [] [] None | Some o => native_schedule_off o end
                 = Ok (off_ir (sch_off s))).
  { destruct (sch_off s) as [[]|]; vm_compute; reflexivity. }
  assert (Hlow : mk_lowering_ir (domain_ir digest (schedule_domain s)) (due_ir (sch_trigger s)) (off_ir (sch_off s))
    = if match sch_trigger s with EveryDt _ _ => false | _ => true end
      then Ok (LoweringIR (domain_ir digest (schedule_domain s)) (due_ir (sch_trigger s)) (off_ir (sch_off s)))
      else mk_lowering_ir (domain_ir digest (schedule_domain s)) (due_ir (sch_trigger s)) (off_ir (sch_off s))).
  { destruct (sch_trigger s); try done. by rewrite Ht. }
  rewrite Hdom. destruct (schedule_domain s); cbn [mbind res_bind andb]; try done;
    rewrite Hdue; destruct (sch_trigger s); cbn [mbind res_bind]; try done; by rewrite Hoff.
Qed.

(** C34: Lowering is typed: a schedule the constructors accept lowers to exactly
    one IR value or is refused as not implemented, never by a validator of the
    IR; what it lowers to is re-accepted by every validator; an [Always] trigger
    lowers to the empty plan; and the node cache is required exactly by [Hold]
    and [AccumulateDt], for an operation that retains its own output exactly by
    [AccumulateDt]. *)
Theorem schedule_lowering_typed digest t off s :
  new_schedule t off = Ok s → schedule_ok s →
  (native_schedule_ir digest s = Err NotImplementedError ↔ lowerable s = false)
  ∧ (lowerable s = true →
     ∃ l, native_schedule_ir digest s = Ok l
       ∧ mk_domain_ir (di_timeline (lo_domain l)) (di_clock (lo_domain l)) (di_stage (lo_domain l))
           (di_level (lo_domain l)) = Ok (lo_domain l)
       ∧ mk_due_ir (du_kind (lo_due l)) (du_period (lo_due l)) (du_predicate (lo_due l)) = Ok (lo_due l)
       ∧ mk_off_ir (of_before (lo_off l)) (of_after (lo_off l)) (of_off (lo_off l)) (of_comment (lo_off l))
         = Ok (lo_off l)
       ∧ mk_lowering_ir (lo_domain l) (lo_due l) (lo_off l) = Ok l
       ∧ (trigger_is_always t = Ok true → no_plan (lo_off l) = true)
       ∧ (native_schedule_cache_required digest s false = Ok true ↔ off = Some Hold ∨ off = Some AccumulateDt)
       ∧ (native_schedule_cache_required digest s true = Ok true ↔ off = Some AccumulateDt)).
Proof.
  intros Hnew Hok. unfold new_schedule in Hnew. destruct (trigger_is_always t) as [is_always|] eqn:Ea; [|discriminate Hnew].
  cbn [mbind res_bind] in Hnew. destruct (negb (is_always && negb (is_none off))) eqn:Eo; [|discriminate Hnew].
  injection Hnew as <-.
  pose proof (native_schedule_ir_spec digest _ Hok) as Hir. unfold native_schedule_cache_required.
  rewrite Hir. split; [destruct (lowerable _); split; done|]. intros Hl. rewrite Hl.
  eexists. split; [reflexivity|]. cbn [lo_domain lo_due lo_off sch_trigger sch_off mbind res_bind] in *.
  destruct Hok as [Ht Hd]. cbn [sch_trigger sch_off] in Ht, Hd.
  assert (Hdue : mk_due_ir (du_kind (due_ir t)) (du_period (due_ir t)) (du_predicate (due_ir t)) = Ok (due_ir t)).
  { destruct t; try done. cbn. unfold mk_due_ir. by rewrite (proj2 (Z.ltb_lt 0 n) Ht). }
  split; [|split; [exact Hdue|split; [|split; [|split; [|split]]]]].
  - unfold lowerable in Hl. apply andb_true_iff in Hl as [Hl _].
    destruct (schedule_domain _); try discriminate Hl; try done. cbn. unfold mk_domain_ir. rewrite qualified_id_nonempty.
    cbn. by rewrite (proj2 (Z.leb_le 0 level) Hd).
  - destruct off as [[]|]; vm_compute; reflexivity.
  - apply andb_true_iff in Hl as [_ Hl]. destruct t; try done. by rewrite Ht.
  - intros [= ->]. destruct off; [done | reflexivity].
  - destruct off as [[]|]; vm_compute; split; try done; try (by left); try (by right); intros [[=]|[=]].
  - destruct off as [[]|]; vm_compute; split; try done; intros [=].
Qed.

Definition toy_clock : Clock := MkClock "main" None.

Lemma schedule_lowering_typed_witness :
  ∃ s, new_schedule (Every (AcceptedStep toy_clock None) 4) (Some Hold) = Ok s
       ∧ native_schedule_cache_required (fun _ => "00"%string) s false = Ok true.
Proof.
  eexists. split; [vm_compute; reflexivity|].
  destruct (schedule_lowering_typed (fun _ => "00"%string) (Every (AcceptedStep toy_clock None) 4) (Some Hold)
              (MkSchedule (Every (AcceptedStep toy_clock None) 4) (Some Hold))) as (_ & H);
    [vm_compute; reflexivity | split; cbn; [lia | done] |].
  destruct (H ltac:(vm_compute; reflexivity)) as (l & _ & _ & _ & _ & _ & _ & Hc & _). apply Hc. by left.
Defined.
