(* ===== verification/NativeSchedule.v ===== *)
(** * The native schedule runtime

    [include/pops/runtime/program/clock_schedule.hpp], [cache_manager.hpp] and
    the schedule seam of [program_context.hpp]: the logical clocks of an
    installed program, the stack of active subcycles, the coordinate of a
    schedule domain and the per-node cache the emitted guards use.  A C++
    exception is [RuntimeError]; counts and steps are unbounded integers, the
    64-bit overflow checks of the source are kept. *)
From S2P Require Import Prelude Binary64.

Definition INT64_MAX : Z := 2 ^ 63 - 1.

(** [checked_multiply_] and [checked_add_] *)
Definition checked_multiply (a b : Z) : res Z :=
  _ ← require (negb ((a <? 0) || (b <=? 0) || (negb (a =? 0) && (INT64_MAX / a <? b)))) RuntimeError;
  Ok (a * b).
Definition checked_add (a b : Z) : res Z :=
  _ ← require (negb ((a <? 0) || (b <? 0) || (INT64_MAX - a <? b))) RuntimeError; Ok (a + b).

(** ** Logical clocks *)

(** [ClockScheduleState::Frame]; [fr_next] is the number of started ticks. *)
Record frame := Frame { fr_parent : string; fr_child : string; fr_count : Z; fr_next : Z }.

(** [ClockScheduleState]; the innermost frame is last. *)
Record clocks := Clocks {
  nc_primary : string;
  nc_relations : gmap string (string * Z);
  nc_frames : list frame }.

Definition set_frames (c : clocks) (f : list frame) : clocks := Clocks (nc_primary c) (nc_relations c) f.

(** [configure_primary_clock] *)
Definition configure_primary (c : clocks) (clock : string) : res clocks :=
  _ ← require (negb (String.eqb clock EmptyString)) RuntimeError;
  _ ← require (String.eqb (nc_primary c) EmptyString || String.eqb (nc_primary c) clock) RuntimeError;
  Ok (Clocks clock (nc_relations c) (nc_frames c)).

(** [ticks_per_macro_]; the fuel bounds the chain of parents. *)
Fixpoint ticks_from (fuel : nat) (c : clocks) (visiting : list string) (clock : string) : res Z :=
  match fuel with
  | O => Err RuntimeError
  | S fuel =>
      _ ← require (negb (String.eqb clock EmptyString) && negb (String.eqb (nc_primary c) EmptyString)) RuntimeError;
      if String.eqb clock (nc_primary c) then Ok 1
      else
        _ ← require (bool_decide (clock ∉ visiting)) RuntimeError;
        match nc_relations c !! clock with
        | None => Err RuntimeError
        | Some (parent, count) =>
            t ← ticks_from fuel c (clock :: visiting) parent; checked_multiply t count
        end
  end.

Definition clock_fuel (c : clocks) : nat := S (S (size (nc_relations c))).

Definition ticks_per_macro (c : clocks) (clock : string) : res Z := ticks_from (clock_fuel c) c [] clock.

Definition valid_relation (parent child : string) (count : Z) : bool :=
  negb (String.eqb parent EmptyString) && negb (String.eqb child EmptyString) && negb (String.eqb parent child)
  && (0 <? count).

(** [declare_relation] *)
Definition declare_relation (c : clocks) (parent child : string) (count : Z) : res clocks :=
  _ ← require (valid_relation parent child count) RuntimeError;
  _ ← require (match nc_relations c !! child with
               | Some r => bool_decide (r = (parent, count)) | None => true end) RuntimeError;
  let c := Clocks (nc_primary c) (<[child := (parent, count)]> (nc_relations c)) (nc_frames c) in
  _ ← ticks_per_macro c child;
  Ok c.

Definition active_clock (c : clocks) : string :=
  match last (nc_frames c) with Some f => fr_child f | None => nc_primary c end.

(** [begin_], the constructor of a [SubcycleScope] *)
Definition begin_subcycle (c : clocks) (parent child : string) (count : Z) : res clocks :=
  _ ← require (valid_relation parent child count) RuntimeError;
  c ← declare_relation c parent child count;
  _ ← require (String.eqb (active_clock c) parent) RuntimeError;
  Ok (set_frames c (nc_frames c ++ [Frame parent child count 0])).

(** Updating the innermost frame; the scope's depth must be the top. *)
Definition at_top (c : clocks) (f : frame → res frame) : res clocks :=
  match last (nc_frames c) with
  | None => Err RuntimeError
  | Some top => top ← f top; Ok (set_frames c (removelast (nc_frames c) ++ [top]))
  end.

(** [iteration_] *)
Definition iteration (c : clocks) (index : Z) : res clocks :=
  at_top c (fun f =>
    _ ← require ((index =? fr_next f) && (0 <=? index) && (index <? fr_count f)) RuntimeError;
    Ok (Frame (fr_parent f) (fr_child f) (fr_count f) (fr_next f + 1))).

(** [finish_] *)
Definition finish (c : clocks) : res clocks :=
  match last (nc_frames c) with
  | None => Err RuntimeError
  | Some f =>
      _ ← require (fr_next f =? fr_count f) RuntimeError; Ok (set_frames c (removelast (nc_frames c)))
  end.

(** The loop of [active_tick_] over the frames. *)
Definition tick_step (acc : string * Z) (f : frame) : res (string * Z) :=
  let '(active, tick) := acc in
  _ ← require (String.eqb (fr_parent f) active && (0 <? fr_next f) && (fr_next f <=? fr_count f)) RuntimeError;
  t ← checked_multiply tick (fr_count f);
  t ← checked_add t (fr_next f - 1);
  Ok (fr_child f, t).

(** [active_tick_] *)
Definition active_tick (c : clocks) (clock : string) (macro_step : Z) : res (option Z) :=
  _ ← require ((0 <=? macro_step) && negb (String.eqb (nc_primary c) EmptyString)) RuntimeError;
  '(active, tick) ← fold_res tick_step (nc_primary c, macro_step) (nc_frames c);
  Ok (if String.eqb active clock then Some tick else None).

(** [ScheduleDomainKind] with its payload as the generated call passes it:
    the stage text (empty when absent) and the level ([-1] when absent). *)
Inductive domain_kind := kAcceptedStep | kStage | kClockTick | kAmrLevel.

(** [coordinate] *)
Definition coordinate (c : clocks) (kind : domain_kind) (clock : string) (has_stage : bool)
    (required_level current_level macro_step : Z) : res (option Z) :=
  tick ← active_tick c clock macro_step;
  match tick with
  | None => Ok None
  | Some tick =>
      match kind with
      | kAcceptedStep => _ ← require (negb has_stage && (required_level =? -1)) RuntimeError; Ok (Some macro_step)
      | kStage => _ ← require (has_stage && (required_level =? -1)) RuntimeError; Ok (Some macro_step)
      | kClockTick => _ ← require (negb has_stage && (required_level =? -1)) RuntimeError; Ok (Some tick)
      | kAmrLevel =>
          _ ← require (negb has_stage && (0 <=? required_level)) RuntimeError;
          Ok (if current_level =? required_level then Some tick else None)
      end
  end.

(** [schedule_is_due], [schedule_at_start] and [schedule_domain_occurs] on the
    coordinate; [%] truncates, the coordinate is never negative. *)
Definition is_due (node every_n : Z) (coord : option Z) : res bool :=
  _ ← require ((0 <=? node) && (0 <? every_n)) ValueError;
  Ok (match coord with Some v => Z.rem v every_n =? 0 | None => false end).
Definition at_start (coord : option Z) : bool := match coord with Some v => v =? 0 | None => false end.
Definition occurs (coord : option Z) : bool := match coord with Some _ => true | None => false end.

(** ** The node cache *)

Section Cache.
Context {V : Type}.

(** [CacheSlot]: a slot created by the accumulator holds no value. *)
Record slot := Slot { sl_value : option V; sl_last : Z; sl_dt : float; sl_valid : bool }.
Definition empty_slot : slot := Slot None (-1) (SpecFloat.S754_zero false) false.

Definition slot_of (c : gmap Z slot) (node : Z) : slot := default empty_slot (c !! node).

(** [store] *)
Definition store (c : gmap Z slot) (node : Z) (value : V) (macro_step : Z) : gmap Z slot :=
  <[node := Slot (Some value) macro_step (SpecFloat.S754_zero false) true]> c.

(** [restore_into] *)
Definition restore_into (c : gmap Z slot) (node : Z) : res V :=
  match c !! node with
  | None => Err RuntimeError
  | Some s =>
      _ ← require (sl_valid s) RuntimeError;
      match sl_value s with Some v => Ok v | None => Err RuntimeError end
  end.

(** [accumulate_dt] *)
Definition accumulate_dt (c : gmap Z slot) (node : Z) (dt : float) : gmap Z slot :=
  let s := slot_of c node in
  <[node := Slot (sl_value s) (sl_last s) (fadd (sl_dt s) dt) (sl_valid s)]> c.

(** [effective_dt]: the interval, and the accumulator reset. *)
Definition effective_dt (c : gmap Z slot) (node : Z) (dt_now : float) : float * gmap Z slot :=
  let s := slot_of c node in
  (fadd dt_now (sl_dt s), <[node := Slot (sl_value s) (sl_last s) (SpecFloat.S754_zero false) (sl_valid s)]> c).
End Cache.
Arguments slot : clear implicits.
Notation cache V := (gmap Z (slot V)).

(** ** Subcycles as the generated code runs them *)

(** A nest of loops [for i < count] on child clocks, outermost first. *)
Definition nest := list (string * Z).

Section Nest.
Context (macro_step : Z).

(** One loop: every iteration records the active tick of its clock, runs the
    inner loops, and the scope is closed. *)
Fixpoint run_nest (parent : string) (loops : nest) (c : clocks) : res (list Z * clocks) :=
  match loops with
  | [] => t ← active_tick c parent macro_step; Ok (match t with Some t => [t] | None => [] end, c)
  | (child, count) :: loops =>
      c ← begin_subcycle c parent child count;
      '(ticks, c) ← fold_res (fun acc i =>
          let '(ticks, c) := acc in
          c ← iteration c (Z.of_nat i);
          '(inner, c) ← run_nest child loops c;
          Ok (ticks ++ inner, c)) ([], c) (seq 0 (Z.to_nat count));
      c ← finish c;
      Ok (ticks, c)
  end.
End Nest.

Definition nest_ticks (loops : nest) : Z := foldr (fun l t => l.2 * t) 1 loops.

(** ** Lemmas: clocks *)

Lemma checked_multiply_ok a b : 0 <= a → 0 < b → a * b <= INT64_MAX → checked_multiply a b = Ok (a * b).
Proof.
  intros Ha Hb H. unfold checked_multiply.
  assert ((a <? 0) || (b <=? 0) || (negb (a =? 0) && (INT64_MAX / a <? b)) = false) as ->; [|done].
  rewrite !orb_false_iff, andb_false_iff, negb_false_iff. split_and!; [lia..|].
  destruct (Z.eqb_spec a 0); [by left|right]. apply Z.ltb_ge. apply Z.div_le_lower_bound; lia.
Qed.

Lemma checked_multiply_inv a b c : checked_multiply a b = Ok c → c = a * b ∧ 0 <= a ∧ 0 < b ∧ a * b <= INT64_MAX.
Proof.
  unfold checked_multiply. intros H. inv_ok. bools.
  repeat match goal with E : _ && _ = false |- _ => apply andb_false_iff in E end.
  split; [done|]. split; [done|]. split; [done|].
  destruct (Z.eq_dec a 0) as [->|Ha]; [unfold INT64_MAX; lia|].
  match goal with E : _ ∨ _ |- _ => destruct E as [E|E]; bools; [done|] end.
  pose proof (Z.mul_div_le INT64_MAX a ltac:(lia)). nia.
Qed.

Lemma checked_add_ok a b : 0 <= a → 0 <= b → a + b <= INT64_MAX → checked_add a b = Ok (a + b).
Proof.
  intros Ha Hb H. unfold checked_add.
  assert ((a <? 0) || (b <? 0) || (INT64_MAX - a <? b) = false) as ->; [|done].
  rewrite !orb_false_iff. lia.
Qed.

(** More relations and more fuel keep what a chain already gave. *)
Lemma ticks_from_mono fuel : ∀ fuel' c c' visiting visiting' clock t,
  (fuel <= fuel')%nat → nc_primary c = nc_primary c' → nc_relations c ⊆ nc_relations c' → visiting' ⊆ visiting →
  ticks_from fuel c visiting clock = Ok t → ticks_from fuel' c' visiting' clock = Ok t.
Proof.
  induction fuel as [|fuel IH]; intros fuel' c c' visiting visiting' clock t Hf Hp Hr Hv H; [done|].
  destruct fuel' as [|fuel']; [lia|]. cbn [ticks_from] in *. rewrite <- Hp.
  destruct (negb _ && _); [|discriminate H]. cbn [require mbind res_bind] in *.
  destruct (String.eqb clock _); [done|].
  case_bool_decide as Hin; [|discriminate H]. rewrite bool_decide_true by set_solver. cbn [require mbind res_bind] in *.
  destruct (nc_relations c !! clock) as [[parent count]|] eqn:E; [|discriminate H].
  rewrite (lookup_weaken _ _ _ _ E Hr).
  destruct (ticks_from fuel c (clock :: visiting) parent) as [tp|] eqn:Et; [|discriminate H].
  rewrite (IH fuel' c c' (clock :: visiting) (clock :: visiting') _ tp ltac:(lia) Hp Hr ltac:(set_solver) Et). done.
Qed.

(** Every declared clock has a validated chain to the primary clock. *)
Definition installed (c : clocks) : Prop :=
  ∀ child r, nc_relations c !! child = Some r → ∃ t, ticks_per_macro c child = Ok t.

Lemma declare_installed c parent child count c' :
  installed c → declare_relation c parent child count = Ok c' →
  installed c' ∧ nc_relations c' !! child = Some (parent, count)
  ∧ nc_primary c' = nc_primary c ∧ nc_frames c' = nc_frames c ∧ nc_relations c ⊆ nc_relations c'.
Proof.
  intros Hi H. unfold declare_relation in H. inv_ok.
  match goal with E : match nc_relations c !! child with _ => _ end = true |- _ => rename E into Er end.
  assert (Hsub : nc_relations c ⊆ <[child := (parent, count)]> (nc_relations c)).
  { destruct (nc_relations c !! child) as [r|] eqn:E; [|by apply insert_subseteq].
    apply bool_decide_eq_true in Er as ->. by rewrite insert_id. }
  split; [|cbn; by rewrite lookup_insert_eq].
  intros child' r Hc. cbn in Hc. destruct (decide (child' = child)) as [->|Hne]; [eauto|].
  rewrite lookup_insert_ne in Hc by done. destruct (Hi _ _ Hc) as [t Ht]. exists t.
  eapply ticks_from_mono; [| | | |exact Ht]; [|done|done|done].
  unfold clock_fuel. cbn. apply map_subseteq_size in Hsub. lia.
Qed.

(** The state of an active stack: its innermost clock and that clock's tick. *)
Definition active_at (c : clocks) (macro_step : Z) (clock : string) (tick : Z) : Prop :=
  0 <= macro_step ∧ nc_primary c ≠ EmptyString ∧ 0 <= tick
  ∧ fold_res tick_step (nc_primary c, macro_step) (nc_frames c) = Ok (clock, tick).

Lemma active_at_tick c m clock tick : active_at c m clock tick → active_tick c clock m = Ok (Some tick).
Proof.
  intros (Hm & Hp & _ & H). unfold active_tick.
  apply Z.leb_le in Hm. apply String.eqb_neq in Hp. rewrite Hm, Hp, H. cbn. by rewrite String.eqb_refl.
Qed.

(** The innermost clock of the stack is the one the fold ends on. *)
Lemma active_at_clock c m clock tick : active_at c m clock tick → active_clock c = clock.
Proof.
  intros (_ & _ & _ & H). unfold active_clock.
  destruct (nc_frames c) as [|f l _] eqn:E using rev_ind; [by injection H|].
  rewrite last_snoc. rewrite fold_res_app in H. destruct (fold_res _ _ l) as [[a t]|]; [|discriminate H].
  cbn in H. inv_ok. done.
Qed.

(** Pushing a frame whose loop is at its [i]-th iteration. *)
Lemma active_at_push c m clock tick child count i :
  active_at c m clock tick → 0 <= i < count → (tick + 1) * count <= INT64_MAX →
  active_at (set_frames c (nc_frames c ++ [Frame clock child count (i + 1)])) m child (tick * count + i).
Proof.
  intros (Hm & Hp & Ht & H) Hi Hmax. split; [done|]. split; [done|]. split; [nia|].
  cbn [nc_primary nc_frames set_frames]. rewrite fold_res_app, H. cbn.
  rewrite String.eqb_refl. rewrite (proj2 (Z.ltb_lt 0 (i + 1))), (proj2 (Z.leb_le (i + 1) count)) by lia.
  cbn. rewrite checked_multiply_ok by nia. cbn. rewrite checked_add_ok by nia. cbn. do 3 f_equal. lia.
Qed.

(** The relations of a nest of loops, as the installation declared them. *)
Fixpoint declared (c : clocks) (parent : string) (loops : nest) : Prop :=
  match loops with
  | [] => True
  | (child, count) :: loops =>
      valid_relation parent child count = true ∧ nc_relations c !! child = Some (parent, count)
      ∧ declared c child loops
  end.

Lemma declare_again c parent child count :
  installed c → valid_relation parent child count = true → nc_relations c !! child = Some (parent, count) →
  declare_relation c parent child count = Ok c.
Proof.
  intros Hi Hv Hr. unfold declare_relation. rewrite Hv, Hr, bool_decide_true by done. cbn [require mbind res_bind].
  rewrite insert_id by done. destruct (Hi _ _ Hr) as [t Ht]. destruct c as [p r f]. cbn in *. by rewrite Ht.
Qed.

Lemma installed_frames c fs : installed c → installed (set_frames c fs).
Proof.
  intros Hi child r Hr. destruct (Hi child r Hr) as [t Ht]. exists t.
  eapply ticks_from_mono; [| | | |exact Ht]; done.
Qed.

Lemma declared_frames c fs loops : ∀ parent, declared c parent loops → declared (set_frames c fs) parent loops.
Proof. induction loops as [|[child count] loops IH]; cbn; [done|]. intros parent (? & ? & ?). auto. Qed.

Lemma nest_ticks_pos c loops : ∀ parent, declared c parent loops → 0 < nest_ticks loops.
Proof.
  induction loops as [|[child count] loops IH]; intros parent H; cbn; [lia|]. destruct H as (Hv & _ & H).
  specialize (IH _ H). unfold valid_relation in Hv. bools. unfold nest_ticks in IH. nia.
Qed.

Definition ticks_between (first count : Z) : list Z := map (fun i => first + Z.of_nat i) (seq 0 (Z.to_nat count)).

Lemma ticks_between_app first n m :
  0 <= n → 0 <= m → ticks_between first n ++ ticks_between (first + n) m = ticks_between first (n + m).
Proof.
  intros Hn Hm. unfold ticks_between. rewrite Z2Nat.inj_add, seq_app, map_app by done. f_equal.
  rewrite Nat.add_0_l, <- (Nat.add_0_r (Z.to_nat n)), <- fmap_add_seq.
  change (@fmap list _ nat nat) with (@map nat nat). rewrite map_map. apply map_ext. intros i. lia.
Qed.

Lemma set_frames_frames c fs gs : set_frames (set_frames c fs) gs = set_frames c gs.
Proof. done. Qed.

Lemma removelast_snoc {A} (l : list A) x : removelast (l ++ [x]) = l.
Proof. rewrite removelast_app by done. cbn. by rewrite app_nil_r. Qed.

Lemma iteration_top c fs parent child count i :
  0 <= i < count →
  iteration (set_frames c (fs ++ [Frame parent child count i])) i =
  Ok (set_frames c (fs ++ [Frame parent child count (i + 1)])).
Proof.
  intros Hi. unfold iteration, at_top. cbn [nc_frames set_frames]. rewrite last_snoc. cbn [fr_next fr_count fr_parent fr_child].
  rewrite Z.eqb_refl, (proj2 (Z.leb_le 0 i)), (proj2 (Z.ltb_lt i count)) by lia. cbn [andb require mbind res_bind].
  by rewrite removelast_snoc.
Qed.

Lemma begin_top c parent child count :
  installed c → valid_relation parent child count = true → nc_relations c !! child = Some (parent, count) →
  active_clock c = parent →
  begin_subcycle c parent child count = Ok (set_frames c (nc_frames c ++ [Frame parent child count 0])).
Proof.
  intros Hi Hv Hr Ha. unfold begin_subcycle. rewrite Hv. cbn [require mbind res_bind].
  rewrite declare_again by done. cbn [mbind res_bind]. by rewrite Ha, String.eqb_refl.
Qed.

Lemma finish_top c fs parent child count :
  finish (set_frames c (fs ++ [Frame parent child count count])) = Ok (set_frames c fs).
Proof.
  unfold finish. cbn [nc_frames set_frames]. rewrite last_snoc. cbn [fr_next fr_count]. rewrite Z.eqb_refl.
  cbn [require mbind res_bind]. by rewrite removelast_snoc.
Qed.

(** The turns [i .. count) of one loop, its inner loops being as specified. *)
Lemma loop_ticks m loops c fs parent child count tick K :
  (∀ c' t, nc_frames c' ≠ [] → active_at c' m child t → (t + 1) * K <= INT64_MAX → installed c' →
     declared c' child loops → run_nest m child loops c' = Ok (ticks_between (t * K) K, c')) →
  0 < K → installed c → declared c child loops →
  active_at (set_frames c fs) m parent tick → ((tick + 1) * count) * K <= INT64_MAX →
  ∀ n i acc, (Z.of_nat i + Z.of_nat n = count) →
  fold_res (fun acc i =>
      let '(ticks, c) := acc in
      c ← iteration c (Z.of_nat i);
      '(inner, c) ← run_nest m child loops c;
      Ok (ticks ++ inner, c))
    (acc, set_frames c (fs ++ [Frame parent child count (Z.of_nat i)])) (seq i n)
  = Ok (acc ++ ticks_between ((tick * count + Z.of_nat i) * K) (Z.of_nat n * K),
        set_frames c (fs ++ [Frame parent child count count])).
Proof.
  intros Hrun HK Hi Hd Ha Hmax. assert (Ht : 0 <= tick) by apply Ha.
  induction n as [|n IH]; intros i acc Hn; cbn [seq fold_res].
  - assert (Z.of_nat i = count) as <- by lia. rewrite Z.mul_0_l. cbn. by rewrite app_nil_r.
  - rewrite iteration_top by lia. cbn [mbind res_bind].
    assert (Hle : (tick + 1) * count * 1 <= (tick + 1) * count * K) by (apply Z.mul_le_mono_nonneg_l; nia).
    pose proof (active_at_push _ _ _ _ child count (Z.of_nat i) Ha ltac:(lia) ltac:(lia)) as Hp.
    cbn [nc_frames set_frames] in Hp. rewrite set_frames_frames in Hp.
    rewrite (Hrun _ (tick * count + Z.of_nat i)); [| |done| |by apply installed_frames|by apply declared_frames].
    2: { cbn. by destruct fs. }
    2: { nia. }
    cbn [mbind res_bind]. replace (Z.of_nat i + 1) with (Z.of_nat (S i)) by lia.
    rewrite IH by lia. rewrite <- app_assoc. do 3 f_equal.
    replace (Z.of_nat (S n) * K) with (K + Z.of_nat n * K) by lia.
    rewrite <- ticks_between_app by nia. do 2 f_equal. lia.
Qed.

(** A nest below the active clock ticks its innermost clock through a whole
    block of consecutive ticks and leaves the stack as it was. *)
Lemma run_nest_ticks m loops : ∀ c parent tick,
  installed c → declared c parent loops → active_at c m parent tick →
  (tick + 1) * nest_ticks loops <= INT64_MAX →
  run_nest m parent loops c = Ok (ticks_between (tick * nest_ticks loops) (nest_ticks loops), c).
Proof.
  induction loops as [|[child count] loops IH]; intros c parent tick Hi Hd Ha Hmax.
  - cbn [run_nest nest_ticks foldr]. rewrite (active_at_tick _ _ _ _ Ha). change (ticks_between (tick * 1) 1) with [tick * 1 + 0].
    by rewrite Z.mul_1_r, Z.add_0_r.
  - pose proof (nest_ticks_pos c _ _ Hd) as Hpos. destruct Hd as (Hv & Hr & Hd).
    pose proof (nest_ticks_pos c _ _ Hd) as HK. cbn [nest_ticks foldr snd] in Hmax, Hpos |- *. fold (nest_ticks loops) in *.
    assert (Hcount : 0 < count) by (unfold valid_relation in Hv; bools; done).
    cbn [run_nest]. rewrite begin_top by (done || by eapply active_at_clock). cbn [mbind res_bind].
    pose proof (loop_ticks m loops c (nc_frames c) parent child count tick (nest_ticks loops)) as Hl.
    assert (Hc : set_frames c (nc_frames c) = c) by by destruct c. rewrite Hc in Hl.
    change (Frame parent child count 0) with (Frame parent child count (Z.of_nat 0)).
    rewrite (Hl ltac:(intros; by apply IH) HK Hi Hd Ha ltac:(rewrite <- Z.mul_assoc; exact Hmax) (Z.to_nat count) 0%nat [] ltac:(lia)).
    cbn [mbind res_bind app]. rewrite finish_top. cbn [mbind res_bind]. rewrite Hc, Z2Nat.id by lia.
    do 2 f_equal. f_equal. cbn [Z.of_nat]. ring.
Qed.

Lemma child_ticks c parent child count :
  installed c → nc_relations c !! child = Some (parent, count) → child ≠ nc_primary c →
  ∃ t, ticks_per_macro c parent = Ok t ∧ ticks_per_macro c child = Ok (t * count).
Proof.
  intros Hi Hr Hne. destruct (Hi _ _ Hr) as [tc Htc]. rewrite Htc. unfold ticks_per_macro, clock_fuel in Htc.
  remember (S (size (nc_relations c))) as fuel eqn:Ef. cbn [ticks_from] in Htc. destruct (negb _ && _); [|discriminate Htc]. cbn [require mbind res_bind] in Htc.
  apply String.eqb_neq in Hne. rewrite Hne, Hr in Htc. rewrite (bool_decide_true (child ∉ [])) in Htc by (by intros ?%elem_of_nil).
  cbn [require mbind res_bind] in Htc.
  destruct (ticks_from _ c [child] parent) as [t|] eqn:Et; [|discriminate Htc]. cbn [mbind res_bind] in Htc.
  apply checked_multiply_inv in Htc as (-> & _). exists t. split; [|done].
  eapply ticks_from_mono; [| | | |exact Et]; [unfold clock_fuel; lia|done|done|].
  intros x Hx. by apply elem_of_nil in Hx.
Qed.

(** [ticks_per_macro] of the innermost clock of a nest is the product of the
    counts. *)
Lemma declared_ticks c loops : ∀ parent t,
  installed c → declared c parent loops → Forall (fun l => l.1 ≠ nc_primary c) loops →
  ticks_per_macro c parent = Ok t →
  ticks_per_macro c (default parent (fst <$> last loops)) = Ok (t * nest_ticks loops).
Proof.
  induction loops as [|[child count] loops IH]; intros parent t Hi Hd Hne Ht; [by rewrite Z.mul_1_r|].
  destruct Hd as (Hv & Hr & Hd). inversion Hne; subst.
  destruct (child_ticks c parent child count Hi Hr) as (t' & Ht' & Hc); [done|].
  rewrite Ht in Ht'. injection Ht' as <-.
  replace (default parent (fst <$> last ((child, count) :: loops))) with (default child (fst <$> last loops)).
  - rewrite (IH child (t * count)) by done. cbn [nest_ticks foldr snd]. fold (nest_ticks loops). f_equal. ring.
  - destruct loops; [done|]. by rewrite last_cons_cons; destruct (last_is_Some (p :: loops)) as [_ [? ->]].
Qed.

(** ** Properties *)

(** C33: The generated subcycle loops tick logical clocks exactly: in macro step
    [m] a nest of declared subcycles opens and closes its frames in stack order
    without an error, ticks its innermost clock through the whole block
    [m * K, ..., m * K + K - 1] once each and in order, and [K] is the
    [ticks_per_macro] of that clock; over the first [n] macro steps every tick
    below [n * K] occurs exactly once. *)
Theorem subcycle_ticks_enumerate c loops m :
  installed c → nc_frames c = [] → nc_primary c ≠ EmptyString → 0 <= m →
  declared c (nc_primary c) loops → Forall (fun l => l.1 ≠ nc_primary c) loops →
  (m + 1) * nest_ticks loops <= INT64_MAX →
  let K := nest_ticks loops in
  run_nest m (nc_primary c) loops c = Ok (ticks_between (m * K) K, c)
  ∧ ticks_per_macro c (default (nc_primary c) (fst <$> last loops)) = Ok K
  ∧ ∀ n, Z.of_nat n <= m + 1 →
      mbind (M := list) (fun i => match run_nest (Z.of_nat i) (nc_primary c) loops c with
                                  | Ok (ticks, _) => ticks | Err _ => [] end) (seq 0 n)
      = ticks_between 0 (Z.of_nat n * K).
Proof.
  intros Hi Hf Hp Hm Hd Hne Hmax K. pose proof (nest_ticks_pos c _ _ Hd) as HK. fold K in HK.
  assert (Hrun : ∀ i, 0 <= i <= m → run_nest i (nc_primary c) loops c = Ok (ticks_between (i * K) K, c)).
  { intros i Hi'. apply run_nest_ticks; [done..| |fold K; nia]. split; [lia|]. split; [done|]. split; [lia|].
    by rewrite Hf. }
  split; [apply Hrun; lia|]. split.
  - rewrite (declared_ticks c loops _ 1) by (done || (unfold ticks_per_macro, clock_fuel; cbn [ticks_from];
      apply String.eqb_neq in Hp; rewrite Hp; cbn; by rewrite String.eqb_refl)). f_equal. unfold K. lia.
  - induction n as [|n IH]; intros Hn; [done|]. rewrite seq_S, bind_app, IH by lia. cbn. rewrite (Hrun (Z.of_nat n)) by lia.
    rewrite app_nil_r. replace (Z.of_nat (S n) * K) with (Z.of_nat n * K + K) by lia.
    rewrite <- ticks_between_app by nia. done.
Qed.

Definition toy_clocks : clocks :=
  Clocks "main" (<["fast" := ("main", 2)]> {[ "faster" := ("fast", 3) ]}) [].

Lemma subcycle_ticks_enumerate_witness :
  run_nest 5 "main" [("fast", 2); ("faster", 3)] toy_clocks = Ok ([30; 31; 32; 33; 34; 35], toy_clocks).
Proof.
  assert (Hi : installed toy_clocks).
  { intros child r Hr. cbn in Hr. apply lookup_insert_Some in Hr as [[<- <-]|[_ Hr]].
    - exists 2. vm_compute. reflexivity.
    - apply lookup_singleton_Some in Hr as [<- <-]. exists 6. vm_compute. reflexivity. }
  destruct (subcycle_ticks_enumerate toy_clocks [("fast", 2); ("faster", 3)]%string 5 Hi) as (H & _);
    [done | done | lia | vm_compute; done | repeat constructor; done | vm_compute; done | exact H].
Defined.
