(* ===== verification/ScheduleEmit.v ===== *)
(** * Emitting scheduled nodes

    [python/pops/codegen/program_emit_schedule.py] and the schedule gate of
    [program_lowerability.py]: the statements a node emitted are wrapped in the
    due test and the off policy of its schedule.  The emitted C++ is a tree of
    statements; [exec] runs it on the native schedule runtime. *)
From S2P Require Import Prelude Binary64 Manifest Ownership Points EveryDt Schedule NativeSchedule.

(** [_AUX_OUTPUT_OPS] *)
Definition AUX_OUTPUT_OPS : list string := ["solve_fields"; "solve_fields_from_blocks"].

(** What the wrap reads of a node. *)
Record snode := SNode {
  sn_id : Z; sn_op : string; sn_clock : Clock; sn_point : point; sn_schedule : option schedule }.

Definition is_aux (v : snode) : bool := bool_decide (sn_op v ∈ AUX_OUTPUT_OPS).

(** ** The emitted statements *)

(** The arguments of a schedule call. *)
Record domain_args := Args {
  ar_kind : domain_kind; ar_clock : string; ar_stage : option StagePoint; ar_level : Z }.

Inductive due_test :=
| Occurs (a : domain_args)
| IsDue (node period : Z) (a : domain_args)
| AtStartTest (a : domain_args)
| Predicate (a : domain_args) (cond : nat).

(** One statement line: a line the operation emitted, or a schedule action. *)
Inductive line {L : Type} :=
| Body (l : L)
| EffectiveDt (node : Z)
| StoreScratch (node : Z)
| ZeroScratch
| AccumulateDtLine (node : Z)
| RestoreScratch (node : Z)
| SchedulerError.
Arguments line : clear implicits.

(** The lines of a node: unguarded ones, then at most one guard
    [if (ctx.schedule_decision(node, due, cache_backed)) { ... } else { ... }]. *)
Record guard (L : Type) := Guard {
  gd_node : Z; gd_due : due_test; gd_cached : bool; gd_skip_comment : bool;
  gd_then : list (line L); gd_else : list (line L) }.
Arguments Guard {L}. Arguments gd_node {L}. Arguments gd_due {L}. Arguments gd_cached {L}.
Arguments gd_skip_comment {L}. Arguments gd_then {L}. Arguments gd_else {L}.
Record emitted (L : Type) := Emitted { em_lines : list (line L); em_guard : option (guard L) }.
Arguments Emitted {L}. Arguments em_lines {L}. Arguments em_guard {L}.

Section Emit.
Context (digest : json → string).

(** [_lower_schedule_ir]; the stage text of the node determines its point. *)
Definition lower_schedule_ir (v : snode) (sched : schedule) : res ScheduleLoweringIR :=
  _ ← validate_site sched (sn_clock v) (sn_point v);
  lowered ← native_schedule_ir digest sched;
  _ ← match di_timeline (lo_domain lowered) with
      | STAGE =>
          match sn_point v with
          | AtStage s => require (bool_decide (di_stage (lo_domain lowered) = Some s)) ValueError
          | AtTime _ => Err ValueError
          end
      | _ => Ok tt
      end;
  _ ← require (negb (bool_decide (du_kind (lo_due lowered) = AT_END))) NotImplementedError;
  _ ← match du_kind (lo_due lowered) with
      | PROGRAM_PREDICATE =>
          match du_predicate (lo_due lowered) with
          | Some (CondValue _ vtype) => require (String.eqb vtype "bool") NotImplementedError
          | _ => Err NotImplementedError
          end
      | _ => Ok tt
      end;
  Ok lowered.

(** [_schedule_domain_args] *)
Definition schedule_domain_args (d : ScheduleDomainIR) : domain_args :=
  Args (match di_timeline d with
        | ACCEPTED_STEP => kAcceptedStep | STAGE => kStage | CLOCK_TICK => kClockTick | AMR_LEVEL => kAmrLevel end)
    (di_clock d) (di_stage d) (default (-1) (di_level d)).

(** [_schedule_due_expression]; [tokens] are the predicates emitted before. *)
Definition schedule_due_expression (v : snode) (l : ScheduleLoweringIR) (tokens : list nat) : res due_test :=
  let a := schedule_domain_args (lo_domain l) in
  match du_kind (lo_due l) with
  | ALWAYS => Ok (Occurs a)
  | CACHE_PERIOD => Ok (IsDue (sn_id v) (default 0 (du_period (lo_due l))) a)
  | MACRO_STEP_ZERO => Ok (AtStartTest a)
  | PROGRAM_PREDICATE =>
      match du_predicate (lo_due l) with
      | Some (CondValue id _) => _ ← require (bool_decide (id ∈ tokens)) ValueError; Ok (Predicate a id)
      | _ => Err NotImplementedError
      end
  | AT_END => Err NotImplementedError
  end.

Context {L : Type}.

(** [_schedule_action_line]; an empty text is no line. *)
Definition schedule_action_line (v : snode) (action : ScheduleAction) : list (line L) :=
  match action with
  | EFFECTIVE_DT => [EffectiveDt (sn_id v)]
  | STORE => if is_aux v then [] else [StoreScratch (sn_id v)]
  | ZERO => [ZeroScratch]
  | ACCUMULATE_DT => [AccumulateDtLine (sn_id v)]
  | RESTORE => if is_aux v then [] else [RestoreScratch (sn_id v)]
  | ERROR => [SchedulerError]
  end.

Definition action_lines (v : snode) (actions : list ScheduleAction) : list (line L) :=
  flat_map (schedule_action_line v) actions.

(** [_emit_schedule_wrap] on the lines the node emitted. *)
Definition emit_schedule_wrap (v : snode) (tokens : list nat) (body : list L) (output_setup_end : option nat)
    : res (emitted L) :=
  match sn_schedule v with
  | None => Ok (Emitted (map Body body) None)
  | Some sched =>
      lowering ← lower_schedule_ir v sched;
      if bool_decide (du_kind (lo_due lowering) = ALWAYS)
         && bool_decide (di_timeline (lo_domain lowering) = ACCEPTED_STEP)
      then Ok (Emitted (map Body body) None)
      else
        let policy := lo_off lowering in
        let skip := negb (is_none (of_comment policy)) in
        _ ← require (negb (negb (is_aux v) && skip)) NotImplementedError;
        due ← schedule_due_expression v lowering tokens;
        let cache_backed := negb (is_aux v) && bool_decide (STORE ∈ of_after policy)
                            && bool_decide (RESTORE ∈ of_off policy) in
        _ ← require (negb (is_aux v && existsb (fun a => bool_decide (a ∈ [ZERO; ACCUMULATE_DT]))
                             (of_after policy ++ of_off policy))) NotImplementedError;
        '(setup, guarded) ←
          (if is_aux v then Ok ([], body)
           else
             match output_setup_end with
             | Some e =>
                 _ ← require ((0 <? e)%nat && (e <=? length body)%nat) NotImplementedError;
                 Ok (take e body, drop e body)
             | None => Err NotImplementedError
             end);
        Ok (Emitted (map Body setup)
              (Some (Guard (sn_id v) due cache_backed skip
                       (action_lines v (of_before policy) ++ map Body guarded ++ action_lines v (of_after policy))
                       (action_lines v (of_off policy)))))
  end.
End Emit.

(** ** Running the emitted statements *)

Section Exec.
(** [V] is the output of the node (a scratch field, or the provider registry of
    a field solve), [Cx] what a line sees of its macro step; [run] is the
    meaning of an operation's line and [zero] the zero field. *)
Context {L V Cx : Type} (run : L → Cx → V → V) (zero : V).

(** A macro step as the schedule seam sees it. *)
Record native_step := Step {
  ns_clocks : clocks; ns_macro : Z; ns_level : Z; ns_predicate : nat → bool; ns_dt : float; ns_context : Cx }.

Definition args_coordinate (s : native_step) (a : domain_args) : res (option Z) :=
  coordinate (ns_clocks s) (ar_kind a) (ar_clock a) (negb (is_none (ar_stage a))) (ar_level a) (ns_level s) (ns_macro s).

Definition exec_due (s : native_step) (t : due_test) : res bool :=
  match t with
  | Occurs a => c ← args_coordinate s a; Ok (occurs c)
  | IsDue node period a =>
      _ ← require ((0 <=? node) && (0 <? period)) ValueError;
      c ← args_coordinate s a; is_due node period c
  | AtStartTest a => c ← args_coordinate s a; Ok (at_start c)
  | Predicate a cond => c ← args_coordinate s a; Ok (occurs c && ns_predicate s cond)
  end.

(** The output, the cache, and the intervals [cache_effective_dt] returned. *)
Record machine := Machine { ma_out : V; ma_cache : cache V; ma_effective : list float }.

Definition exec_line (s : native_step) (m : machine) (l : line L) : res machine :=
  match l with
  | Body l => Ok (Machine (run l (ns_context s) (ma_out m)) (ma_cache m) (ma_effective m))
  | EffectiveDt node =>
      let '(eff, c) := effective_dt (ma_cache m) node (ns_dt s) in
      Ok (Machine (ma_out m) c (ma_effective m ++ [eff]))
  | StoreScratch node => Ok (Machine (ma_out m) (store (ma_cache m) node (ma_out m) (ns_macro s)) (ma_effective m))
  | ZeroScratch => Ok (Machine zero (ma_cache m) (ma_effective m))
  | AccumulateDtLine node => Ok (Machine (ma_out m) (accumulate_dt (ma_cache m) node (ns_dt s)) (ma_effective m))
  | RestoreScratch node => v ← restore_into (ma_cache m) node; Ok (Machine v (ma_cache m) (ma_effective m))
  | SchedulerError => Err RuntimeError
  end.

Definition exec_lines (s : native_step) (m : machine) (l : list (line L)) : res machine := fold_res (exec_line s) m l.

(** One macro step of the node. *)
Definition exec (e : emitted L) (m : machine) (s : native_step) : res machine :=
  m ← exec_lines s m (em_lines e);
  match em_guard e with
  | None => Ok m
  | Some g =>
      _ ← require (0 <=? gd_node g) ValueError;
      due ← exec_due s (gd_due g);
      exec_lines s m (if (due : bool) then gd_then g else gd_else g)
  end.

(** The machines after consecutive macro steps; the first error stops the run. *)
Fixpoint exec_steps (e : emitted L) (m : machine) (steps : list native_step) : list (res machine) :=
  match steps with
  | [] => []
  | s :: steps =>
      match exec e m s with
      | Ok m => Ok m :: exec_steps e m steps
      | Err x => [Err x]
      end
  end.

(** ** The specification: what a policy observes *)

(** The value after each step, from whether the step is due, the value the
    operation would compute and the cleared output; [held] is the last value
    computed. *)
Fixpoint observe (p : option off_policy) (held : option V) (l : list (bool * (V * V))) : list (res V) :=
  match l with
  | [] => []
  | (true, (fresh, _)) :: l => Ok fresh :: observe p (Some fresh) l
  | (false, (_, cleared)) :: l =>
      match p with
      | None => Ok cleared :: observe p held l
      | Some Zero => Ok zero :: observe p held l
      | Some Hold | Some AccumulateDt =>
          match held with Some v => Ok v :: observe p held l | None => [Err RuntimeError] end
      | Some ErrorOff => [Err RuntimeError]
      | Some Skip => [Err NotImplementedError]
      end
  end.

(** The provider registry after each step of a field solve: a due step runs the solve on
    it; a step that is not due leaves the generation it holds, or refuses. *)
Fixpoint observe_field (solve : Cx → V → V) (p : option off_policy) (o : V) (l : list (bool * Cx)) : list (res V) :=
  match l with
  | [] => []
  | (true, cx) :: l => Ok (solve cx o) :: observe_field solve p (solve cx o) l
  | (false, _) :: l =>
      match p with
      | Some ErrorOff => [Err RuntimeError]
      | _ => Ok o :: observe_field solve p o l
      end
  end.

(** The intervals an [AccumulateDt] node is given at its due steps: the step
    plus everything skipped since the last one. *)
Fixpoint windows (skipped : float) (l : list (bool * float)) : list float :=
  match l with
  | [] => []
  | (true, dt) :: l => fadd dt skipped :: windows (SpecFloat.S754_zero false) l
  | (false, dt) :: l => windows (fadd skipped dt) l
  end.

(** ** Lemmas *)

(** [AccumulateDt] is observed as [Hold] is. *)
Lemma accumulate_dt_reads_like_hold held l : observe (Some AccumulateDt) held l = observe (Some Hold) held l.
Proof.
  revert held. induction l as [|[[] [f c]] l IH]; intros held; cbn; [done | by rewrite IH|].
  destruct held; [by rewrite IH | done].
Qed.


Definition run_body (lines : list L) (cx : Cx) (v : V) : V := fold_left (fun v l => run l cx v) lines v.

Lemma exec_body s lines : ∀ m, exec_lines s m (map Body lines) =
  Ok (Machine (run_body lines (ns_context s) (ma_out m)) (ma_cache m) (ma_effective m)).
Proof. unfold exec_lines. induction lines as [|l lines IH]; intros m; cbn; [by destruct m|]. rewrite IH. done. Qed.

Lemma exec_lines_app s l1 l2 m : exec_lines s m (l1 ++ l2) = (m ← exec_lines s m l1; exec_lines s m l2).
Proof. apply fold_res_app. Qed.

Lemma exec_lines_cons s l ls m : exec_lines s m (l :: ls) = (m ← exec_line s m l; exec_lines s m ls).
Proof. done. Qed.

Lemma exec_lines_nil s m : exec_lines s m [] = Ok m.
Proof. done. Qed.

Lemma lower_schedule_ir_parts digest v sched l :
  schedule_ok sched → lower_schedule_ir digest v sched = Ok l →
  lo_off l = off_ir (sch_off sched) ∧ lo_due l = due_ir (sch_trigger sched) ∧ lowerable sched = true.
Proof.
  intros Hok H. unfold lower_schedule_ir in H. inv_ok.
  match goal with E : native_schedule_ir digest sched = Ok _ |- _ =>
    rewrite (native_schedule_ir_spec digest sched Hok) in E; destruct (lowerable sched); [|discriminate E];
    by injection E as <- end.
Qed.

(** What the wrap emits for a scratch node with a policy. *)
Lemma emitted_guard digest v sched tokens body n (e : emitted L) (g : guard L) :
  sn_schedule v = Some sched → schedule_ok sched → is_aux v = false →
  emit_schedule_wrap digest v tokens body (Some n) = Ok e → em_guard e = Some g →
  em_lines e = map Body (take n body) ∧ sch_off sched ≠ Some Skip ∧ gd_node g = sn_id v
    ∧ gd_then g = action_lines v (of_before (off_ir (sch_off sched))) ++ map Body (drop n body)
                  ++ action_lines v (of_after (off_ir (sch_off sched)))
    ∧ gd_else g = action_lines v (of_off (off_ir (sch_off sched))).
Proof.
  intros Hs Hok Haux He Hg. unfold emit_schedule_wrap in He. rewrite Hs in He.
  destruct (lower_schedule_ir digest v sched) as [l|] eqn:El; [|discriminate He]. cbn [mbind res_bind] in He.
  destruct (lower_schedule_ir_parts _ _ _ _ Hok El) as [Hoff _].
  rewrite Hoff, Haux in He. destruct (_ && _) in He; [injection He as <-; discriminate Hg|].
  cbn [negb andb] in He.
  destruct (negb (negb (is_none _))) eqn:Eskip in He; [|discriminate He]. cbn [require mbind res_bind] in He.
  destruct (schedule_due_expression v l tokens) as [due|]; [|discriminate He]. cbn [require mbind res_bind] in He.
  destruct ((0 <? n)%nat && (n <=? length body)%nat); [|discriminate He]. cbn [require mbind res_bind] in He. injection He as <-.
  cbn in Hg. injection Hg as <-. cbn. split; [done|]. split; [|done].
  intros Hsk. by rewrite Hsk in Eskip.
Qed.

Definition refuses (p : option off_policy) : bool := match p with Some ErrorOff => true | _ => false end.

(** What it emits for a field solve: the whole body is guarded, and of the policies only
    the refusal leaves a line. *)
Lemma emitted_field digest v sched tokens body setup_end (e : emitted L) (g : guard L) :
  sn_schedule v = Some sched → schedule_ok sched → is_aux v = true →
  emit_schedule_wrap digest v tokens body setup_end = Ok e → em_guard e = Some g →
  em_lines e = [] ∧ gd_node g = sn_id v ∧ sch_off sched ≠ Some Zero ∧ sch_off sched ≠ Some AccumulateDt
    ∧ gd_then g = map Body body
    ∧ gd_else g = (if refuses (sch_off sched) then [SchedulerError] else []).
Proof.
  intros Hs Hok Haux He Hg. unfold emit_schedule_wrap in He. rewrite Hs in He.
  destruct (lower_schedule_ir digest v sched) as [l|] eqn:El; [|discriminate He]. cbn [mbind res_bind] in He.
  destruct (lower_schedule_ir_parts _ _ _ _ Hok El) as [Hoff _].
  rewrite Hoff, Haux in He. destruct (_ && _) in He; [injection He as <-; discriminate Hg|].
  cbn [negb andb require mbind res_bind] in He.
  destruct (schedule_due_expression v l tokens) as [due|]; [|discriminate He]. cbn [mbind res_bind] in He.
  destruct (sch_off sched) as [[]|]; cbn in He; try discriminate He; injection He as <-; cbn in Hg; injection Hg as <-;
    cbn; rewrite ?Haux, ?app_nil_r; done.
Qed.

(** A guard is left out for an always-due node on accepted steps only. *)
Lemma emitted_unguarded digest v sched tokens body setup_end (e : emitted L) :
  sn_schedule v = Some sched → schedule_ok sched →
  emit_schedule_wrap digest v tokens body setup_end = Ok e → em_guard e = None →
  em_lines e = map Body body ∧ (∃ d, sch_trigger sched = Always d) ∧ sch_off sched = None.
Proof.
  intros Hs Hok He Hg. unfold emit_schedule_wrap in He. rewrite Hs in He.
  destruct (lower_schedule_ir digest v sched) as [l|] eqn:El; [|discriminate He]. cbn [mbind res_bind] in He.
  destruct (lower_schedule_ir_parts _ _ _ _ Hok El) as (_ & Hdue & Hlow).
  destruct (_ && _) eqn:Ea in He.
  - injection He as <-. bools. split; [done|]. destruct Hok as [Ht _]. rewrite Hdue in *.
    unfold lowerable in Hlow. bools. destruct (sch_trigger sched); try done. eauto.
  - inv_ok. done.
Qed.

Lemma emitted_needs_setup digest v sched tokens body (e : emitted L) :
  sn_schedule v = Some sched → is_aux v = false →
  emit_schedule_wrap digest v tokens body None = Ok e → em_guard e = None.
Proof.
  intros Hs Haux He. unfold emit_schedule_wrap in He. rewrite Hs, Haux in He.
  destruct (lower_schedule_ir digest v sched) as [l|]; [|discriminate He]. cbn [mbind res_bind] in He.
  destruct (_ && _) in He; [by injection He as <-|]. by inv_ok.
Qed.

(** ** Running a guarded scratch node *)

Section Scratch.
Context (v : snode) (sched : schedule) (setup guarded : list L).

(** The setup clears the scratch whatever it held. *)
Definition clears : Prop := ∀ cx o o', run_body setup cx o = run_body setup cx o'.
Definition cleared (cx : Cx) : V := run_body setup cx zero.
Definition fresh (cx : Cx) : V := run_body guarded cx (cleared cx).

(** The cache slot of the node holds the last value computed. *)
Definition holds (c : cache V) (held : option V) : Prop :=
  match held with
  | Some v' => ∃ last dt, c !! sn_id v = Some (Slot (Some v') last dt true)
  | None => ∀ s, c !! sn_id v = Some s → sl_valid s = false
  end.

Definition skipped (c : cache V) : float := sl_dt (slot_of c (sn_id v)).

Lemma holds_accumulate c held dt : holds c held → holds (accumulate_dt c (sn_id v) dt) held.
Proof.
  intros H. unfold accumulate_dt, slot_of, holds in *. destruct held as [v'|].
  - destruct H as (last & d & H). rewrite H, lookup_insert_eq. cbn. eauto.
  - intros s. rewrite lookup_insert_eq. intros [= <-]. cbn. destruct (c !! sn_id v) as [s|] eqn:E; cbn; auto.
Qed.

Lemma restore_holds c held :
  holds c held → restore_into c (sn_id v) = match held with Some v' => Ok v' | None => Err RuntimeError end.
Proof.
  unfold holds, restore_into. destruct held as [v'|].
  - intros (last & d & ->). done.
  - intros H. destruct (c !! sn_id v) as [s|]; [|done]. by rewrite (H s eq_refl).
Qed.

Context (e : emitted L) (g : guard L).
Context (Haux : is_aux v = false) (Hid : 0 <= sn_id v) (Hguard : em_guard e = Some g) (Hnode : gd_node g = sn_id v).
Context (Hsetup : em_lines e = map Body setup) (Hskip : sch_off sched ≠ Some Skip).
Context (Hthen : gd_then g = action_lines v (of_before (off_ir (sch_off sched))) ++ map Body guarded
                             ++ action_lines v (of_after (off_ir (sch_off sched)))).
Context (Helse : gd_else g = action_lines v (of_off (off_ir (sch_off sched)))).
Context (Hclears : clears).

Lemma exec_guarded m s (due : bool) :
  exec_due s (gd_due g) = Ok due →
  exec e m s = exec_lines s (Machine (cleared (ns_context s)) (ma_cache m) (ma_effective m))
                 (if due then gd_then g else gd_else g).
Proof.
  intros Hd. unfold exec. rewrite Hsetup, exec_body. cbn [mbind res_bind]. rewrite Hguard, Hnode.
  rewrite (proj2 (Z.leb_le 0 (sn_id v)) Hid). cbn [require mbind res_bind]. rewrite Hd. cbn [mbind res_bind].
  unfold cleared. by rewrite (Hclears _ (ma_out m) zero).
Qed.

(** A due step computes the fresh value, stores it where the policy caches, and
    hands [AccumulateDt] its interval. *)
Lemma exec_due_step m s :
  exec_due s (gd_due g) = Ok true →
  ∃ m', exec e m s = Ok m' ∧ ma_out m' = fresh (ns_context s)
    ∧ (sch_off sched = Some Hold ∨ sch_off sched = Some AccumulateDt → holds (ma_cache m') (Some (fresh (ns_context s))))
    ∧ (sch_off sched = Some AccumulateDt →
       ma_effective m' = ma_effective m ++ [fadd (ns_dt s) (skipped (ma_cache m))]
       ∧ skipped (ma_cache m') = SpecFloat.S754_zero false).
Proof.
  intros Hd. rewrite (exec_guarded m s true Hd), Hthen.
  assert (Hst : ∀ c : cache V, skipped (store c (sn_id v) (fresh (ns_context s)) (ns_macro s)) = SpecFloat.S754_zero false
            ∧ holds (store c (sn_id v) (fresh (ns_context s)) (ns_macro s)) (Some (fresh (ns_context s)))).
  { intros c. unfold skipped, slot_of, store, holds. rewrite lookup_insert_eq. cbn. eauto. }
  destruct (sch_off sched) as [[]|] eqn:Eo; cbn [off_ir of_before of_after action_lines flat_map schedule_action_line app];
    rewrite ?Haux.
  all: repeat (first [rewrite exec_lines_cons | rewrite exec_body | rewrite exec_lines_nil | rewrite exec_lines_app];
               cbn [exec_line effective_dt ma_cache ma_out ma_effective mbind res_bind]).
  all: try done; eexists; (split; [reflexivity|]); cbn [ma_out ma_cache ma_effective];
    (split; [done|]); (split; [intros [|]; try done; apply Hst | intros [=]]).
  split; [done | apply Hst].
Qed.

(** A step that is not due observes the policy. *)
Lemma exec_off_step m s held :
  exec_due s (gd_due g) = Ok false →
  (sch_off sched = Some Hold ∨ sch_off sched = Some AccumulateDt → holds (ma_cache m) held) →
  match sch_off sched with
  | None => ∃ m', exec e m s = Ok m' ∧ ma_out m' = cleared (ns_context s)
  | Some Zero => ∃ m', exec e m s = Ok m' ∧ ma_out m' = zero
  | Some Hold | Some AccumulateDt =>
      match held with
      | Some v' => ∃ m', exec e m s = Ok m' ∧ ma_out m' = v' ∧ holds (ma_cache m') held
          ∧ (sch_off sched = Some AccumulateDt →
             ma_effective m' = ma_effective m ∧ skipped (ma_cache m') = fadd (skipped (ma_cache m)) (ns_dt s))
      | None => exec e m s = Err RuntimeError
      end
  | Some ErrorOff => exec e m s = Err RuntimeError
  | Some Skip => False
  end.
Proof.
  intros Hd Hh. rewrite (exec_guarded m s false Hd), Helse.
  destruct (sch_off sched) as [[]|] eqn:Eo; cbn [off_ir of_off action_lines flat_map schedule_action_line app];
    rewrite ?Haux; cbn [exec_lines fold_res exec_line ma_cache ma_out ma_effective mbind res_bind app].
  - rewrite (restore_holds (ma_cache m) held) by auto. destruct held as [v'|]; cbn; [|done].
    eexists. split; [reflexivity|]. cbn. split; [done|]. split; [by apply Hh; left | done].
  - done.
  - cbn. eauto.
  - pose proof (holds_accumulate (ma_cache m) held (ns_dt s) (Hh ltac:(by right))) as Ha.
    rewrite (restore_holds _ held Ha). destruct held as [v'|]; cbn; [|done].
    eexists. split; [reflexivity|]. cbn. split; [done|]. split; [done|]. intros _. split; [done|].
    unfold skipped, accumulate_dt, slot_of. by rewrite lookup_insert_eq.
  - done.
  - cbn. eauto.
Qed.

(** The outputs of a run are what the policy observes. *)
Lemma steps_observe steps : ∀ m dues held,
  Forall2 (fun s b => exec_due s (gd_due g) = Ok b) steps dues →
  (sch_off sched = Some Hold ∨ sch_off sched = Some AccumulateDt → holds (ma_cache m) held) →
  map (fmap ma_out) (exec_steps e m steps)
  = observe (sch_off sched) held (zip dues (map (fun s => (fresh (ns_context s), cleared (ns_context s))) steps)).
Proof.
  induction steps as [|s steps IH]; intros m dues held Hd Hh; inversion Hd as [|? b ? dues' Hb Hrest]; subst; [done|].
  cbn [exec_steps map zip zip_with observe]. destruct b.
  - destruct (exec_due_step m s Hb) as (m' & -> & Ho & Hc & _). cbn [map fmap res_fmap]. rewrite Ho. f_equal.
    by apply IH.
  - pose proof (exec_off_step m s held Hb Hh) as Hoff.
    destruct (sch_off sched) as [[]|] eqn:Eo; try destruct held as [v'|]; try done.
    all: try (rewrite Hoff; done).
    all: destruct Hoff as (m' & -> & Hrest'); cbn [map fmap res_fmap].
    1, 4: destruct Hrest' as (-> & Hm & _); f_equal; by apply IH.
    all: rewrite Hrest'; f_equal; apply IH; [done | by intros [|]].
Qed.

(** The intervals of an [AccumulateDt] run are its windows. *)
Lemma steps_windows steps : ∀ m m' dues held,
  sch_off sched = Some AccumulateDt →
  Forall2 (fun s b => exec_due s (gd_due g) = Ok b) steps dues → holds (ma_cache m) held →
  fold_res (exec e) m steps = Ok m' →
  ma_effective m' = ma_effective m ++ windows (skipped (ma_cache m)) (zip dues (map ns_dt steps)).
Proof.
  induction steps as [|s steps IH]; intros m m' dues held Ho Hd Hh H; inversion Hd as [|? b ? dues' Hb Hrest]; subst.
  - injection H as <-. cbn. by rewrite app_nil_r.
  - cbn [fold_res map zip zip_with windows] in *. destruct b.
    + destruct (exec_due_step m s Hb) as (m1 & E & _ & Hc & Hw). rewrite E in H. cbn [mbind res_bind] in H.
      destruct (Hw Ho) as [He Hs]. rewrite (IH m1 m' dues' _ Ho Hrest (Hc ltac:(by right)) H), He, Hs.
      by rewrite <- app_assoc.
    + pose proof (exec_off_step m s held Hb ltac:(auto)) as Hoff. rewrite Ho in Hoff. destruct held as [v'|].
      * destruct Hoff as (m1 & E & _ & Hm & Hw). rewrite E in H. cbn [mbind res_bind] in H.
        destruct (Hw eq_refl) as [He Hs]. by rewrite (IH m1 m' dues' _ Ho Hrest Hm H), He, Hs.
      * rewrite Hoff in H. discriminate H.
Qed.
End Scratch.

(** A field solve observes its policy. *)
Lemma steps_observe_field p body (e : emitted L) g steps : ∀ m dues,
  em_lines e = [] → em_guard e = Some g → 0 <= gd_node g → gd_then g = map Body body →
  gd_else g = (if refuses p then [SchedulerError] else []) →
  Forall2 (fun s b => exec_due s (gd_due g) = Ok b) steps dues →
  map (fmap ma_out) (exec_steps e m steps) = observe_field (run_body body) p (ma_out m) (zip dues (map ns_context steps)).
Proof.
  induction steps as [|s steps IH]; intros m dues Hl Hg Hid Ht He Hd; inversion Hd as [|? b ? dues' Hb Hrest]; subst; [done|].
  assert (Hx : exec e m s = exec_lines s m (if b then gd_then g else gd_else g)).
  { unfold exec. rewrite Hl, Hg. cbn [exec_lines fold_res mbind res_bind].
    rewrite (proj2 (Z.leb_le 0 (gd_node g)) Hid). cbn [require mbind res_bind]. by rewrite Hb. }
  cbn [exec_steps map zip zip_with observe_field]. rewrite Hx. destruct b.
  - rewrite Ht, exec_body. cbn [map fmap res_fmap ma_out]. f_equal. by apply IH.
  - rewrite He. destruct (refuses p) eqn:Ep.
    + by destruct p as [[]|].
    + cbn [exec_lines fold_res map fmap res_fmap].
      replace (match p with Some ErrorOff => _ | _ => _ end)
        with (Ok (ma_out m) :: observe_field (run_body body) p (ma_out m) (zip dues' (map ns_context steps)))
        by (destruct p as [[]|]; done). f_equal. by apply IH.
Qed.

Lemma steps_unguarded body (e : emitted L) steps : ∀ m,
  em_lines e = map Body body → em_guard e = None →
  map (fmap ma_out) (exec_steps e m steps)
  = observe_field (run_body body) None (ma_out m) (map (fun s => (true, ns_context s)) steps).
Proof.
  induction steps as [|s steps IH]; intros m Hl Hg; [done|]. cbn [exec_steps map observe_field].
  assert (exec e m s = Ok (Machine (run_body body (ns_context s) (ma_out m)) (ma_cache m) (ma_effective m))) as ->
    by (unfold exec; rewrite Hl, exec_body, Hg; done).
  cbn [map fmap res_fmap ma_out]. f_equal. by apply IH.
Qed.

(** C32: The emitted statements implement the off policy, for the policies other than
    [AccumulateDt].  Over any run of macro steps: a node emitted without a guard is always
    due, has no policy, and computes at each step.  The registry of a guarded field solve
    is recomputed on due steps and keeps its generation on the others, where [Error]
    refuses ([Hold], [Skip] and no policy keep it; [Zero] is never emitted).  A guarded
    scratch node, whose setup lines clear the scratch, outputs the fresh value when the
    step is due; otherwise the last value computed ([Hold]; the refusal before the first
    one), zero ([Zero]), the cleared scratch (no policy) or the refusal ([Error]);
    [Skip] is never emitted. *)
Theorem scheduled_node_observes_policy digest v sched tokens body setup_end e m0 steps :
  sn_schedule v = Some sched → schedule_ok sched → 0 <= sn_id v → sch_off sched ≠ Some AccumulateDt →
  emit_schedule_wrap digest v tokens body setup_end = Ok e →
  match em_guard e with
  | None =>
      (∃ d, sch_trigger sched = Always d) ∧ sch_off sched = None
      ∧ map (fmap ma_out) (exec_steps e m0 steps)
        = observe_field (run_body body) None (ma_out m0) (map (fun s => (true, ns_context s)) steps)
  | Some g => ∀ dues, Forall2 (fun s b => exec_due s (gd_due g) = Ok b) steps dues →
      if is_aux v then
        sch_off sched ≠ Some Zero
        ∧ map (fmap ma_out) (exec_steps e m0 steps)
          = observe_field (run_body body) (sch_off sched) (ma_out m0) (zip dues (map ns_context steps))
      else
        ∃ n, setup_end = Some n ∧ sch_off sched ≠ Some Skip
        ∧ ∀ held, clears (take n body) → holds v (ma_cache m0) held →
          map (fmap ma_out) (exec_steps e m0 steps)
          = observe (sch_off sched) held
              (zip dues (map (fun s => (fresh (take n body) (drop n body) (ns_context s),
                                        cleared (take n body) (ns_context s))) steps))
  end.
Proof.
  intros Hs Hok Hid Hacc He. destruct (em_guard e) as [g|] eqn:Hg.
  - intros dues Hd. destruct (is_aux v) eqn:Haux.
    + destruct (emitted_field _ _ _ _ _ _ _ _ Hs Hok Haux He Hg) as (Hl & Hn & Hz & _ & Ht & Hel).
      split; [done|]. apply (steps_observe_field _ _ _ g); try done. by rewrite Hn.
    + destruct setup_end as [n|]; [|by rewrite (emitted_needs_setup _ _ _ _ _ _ Hs Haux He) in Hg].
      destruct (emitted_guard _ _ _ _ _ _ _ _ Hs Hok Haux He Hg) as (Hl & Hskip & Hn & Ht & Hel).
      exists n. split; [done|]. split; [done|]. intros held Hc Hh. by eapply steps_observe.
  - destruct (emitted_unguarded _ _ _ _ _ _ _ Hs Hok He Hg) as (Hl & Hd & Ho).
    split; [done|]. split; [done|]. by apply steps_unguarded.
Qed.

(** What [AccumulateDt] does, on a scratch node: the machine computes at each due step the
    step plus every interval skipped since the last one, and no line of the node reads it;
    the outputs are those of [Hold]. *)
Theorem accumulate_dt_is_discarded digest v sched tokens body n e g m0 steps dues held :
  sn_schedule v = Some sched → schedule_ok sched → is_aux v = false → 0 <= sn_id v → sch_off sched = Some AccumulateDt →
  emit_schedule_wrap digest v tokens body (Some n) = Ok e → em_guard e = Some g →
  clears (take n body) → holds v (ma_cache m0) held →
  Forall2 (fun s b => exec_due s (gd_due g) = Ok b) steps dues →
  let values := map (fun s => (fresh (take n body) (drop n body) (ns_context s),
                               cleared (take n body) (ns_context s))) steps in
  map (fmap ma_out) (exec_steps e m0 steps) = observe (Some Hold) held (zip dues values)
  ∧ ∀ m, fold_res (exec e) m0 steps = Ok m →
      ma_effective m = ma_effective m0 ++ windows (skipped v (ma_cache m0)) (zip dues (map ns_dt steps)).
Proof.
  intros Hs Hok Haux Hid Hacc He Hg Hc Hh Hd values.
  destruct (emitted_guard _ _ _ _ _ _ _ _ Hs Hok Haux He Hg) as (Hl & Hskip & Hn & Ht & Hel). split.
  - rewrite <- accumulate_dt_reads_like_hold, <- Hacc. by eapply steps_observe.
  - intros m Hm. by eapply steps_windows.
Qed.
End Exec.
Arguments native_step : clear implicits.
Arguments machine : clear implicits.

(** ** [Every(n)] on accepted steps *)

(** The macro steps [first, first + 1, ...]. *)
Fixpoint indices (first : Z) (count : nat) : list Z :=
  match count with O => [] | S k => first :: indices (first + 1) k end.

(** The steps of a program whose primary clock is active; [ctx] and [dt] are
    what each one sees. *)
Definition macro_steps {Cx} (c : clocks) (first : Z) (count : nat) (dt : Z → float) (ctx : Z → Cx)
    : list (native_step Cx) :=
  map (fun i => Step c i (-1) (fun _ => false) (dt i) (ctx i)) (indices first count).

Definition every_due (n first : Z) (count : nat) : list bool := map (fun i => i mod n =? 0) (indices first count).

Lemma indices_from first count i : i ∈ indices first count → first <= i.
Proof.
  revert first. induction count as [|k IH]; intros first; cbn; [by intros ?%elem_of_nil|].
  intros [->|H]%elem_of_cons; [lia|]. specialize (IH _ H). lia.
Qed.

Lemma every_exec_due {Cx} c clock node n first count dt (ctx : Z → Cx) :
  nc_frames c = [] → nc_primary c = clock → clock ≠ EmptyString → 0 <= node → 0 < n → 0 <= first →
  Forall2 (fun s b => exec_due s (IsDue node n (Args kAcceptedStep clock None (-1))) = Ok b)
    (macro_steps c first count dt ctx) (every_due n first count).
Proof.
  intros Hf <- Hp Hid Hn H0. unfold macro_steps, every_due.
  change (@map Z (native_step Cx)) with (@fmap list _ Z (native_step Cx)).
  change (@map Z bool) with (@fmap list _ Z bool). rewrite Forall2_fmap. apply Forall_Forall2_diag.
  apply Forall_forall. intros i Hi%indices_from. cbn.
  rewrite (proj2 (Z.leb_le 0 node) Hid), (proj2 (Z.ltb_lt 0 n) Hn).
  cbn [andb require mbind res_bind]. unfold args_coordinate, coordinate, active_tick. cbn [ns_clocks ns_macro ns_level].
  apply String.eqb_neq in Hp. rewrite Hp, Hf, (proj2 (Z.leb_le 0 i)) by lia. cbn. rewrite String.eqb_refl. cbn.
  unfold is_due. rewrite (proj2 (Z.leb_le 0 node) Hid), (proj2 (Z.ltb_lt 0 n) Hn). cbn.
  rewrite Z.rem_mod_nonneg by lia. done.
Qed.

Lemma div_same first n : 0 < n → first mod n ≠ 0 → (first - 1) / n = first / n.
Proof.
  intros Hn H. pose proof (Z.div_mod first n ltac:(lia)). pose proof (Z.mod_pos_bound first n Hn).
  symmetry. apply (Z.div_unique_pos _ _ _ (first mod n - 1)); lia.
Qed.

(** Sample and hold: what a hold observes under [Every n]. *)
Lemma observe_every {V} (zero : V) (F C : Z → V) n p count : ∀ first held,
  0 < n → p = Hold ∨ p = AccumulateDt →
  first mod n = 0 ∨ held = Some (F (n * ((first - 1) / n))) →
  observe zero (Some p) held (zip (every_due n first count) (map (fun i => (F i, C i)) (indices first count)))
  = map (fun i => Ok (F (n * (i / n)))) (indices first count).
Proof.
  unfold every_due. induction count as [|k IH]; intros first held Hn Hp Hh; [done|].
  cbn [indices map zip zip_with observe]. pose proof (Z.div_mod first n ltac:(lia)) as Hdm.
  destruct (first mod n =? 0) eqn:E; bools.
  - assert (Hq : n * (first / n) = first) by lia. rewrite Hq. f_equal. apply IH; [done..|].
    right. by rewrite Z.add_simpl_r, Hq.
  - destruct Hh as [Hh|Hh]; [done|]. subst held. rewrite (div_same first n Hn E).
    assert (Hrec := IH (first + 1) (Some (F (n * (first / n)))) Hn Hp ltac:(right; by rewrite Z.add_simpl_r)).
    destruct Hp as [->| ->]; f_equal; exact Hrec.
Qed.

(** An [Every n] schedule on accepted steps is always emitted for a scratch
    node with its setup boundary. *)
Lemma every_emitted {L} digest v clock n p tokens (body : list L) e :
  sn_schedule v = Some (MkSchedule (Every (AcceptedStep clock None) n) (Some p)) → sn_clock v = clock → 0 < n →
  p = Hold ∨ p = AccumulateDt → is_aux v = false → (0 < e <= length body)%nat →
  ∃ em g, emit_schedule_wrap digest v tokens body (Some e) = Ok em ∧ em_guard em = Some g
    ∧ gd_due g = IsDue (sn_id v) n (Args kAcceptedStep (qualified_id digest clock) None (-1)).
Proof.
  intros Hs Hc Hn Hp Haux He. unfold emit_schedule_wrap. rewrite Hs.
  assert (Hl : lower_schedule_ir digest v (MkSchedule (Every (AcceptedStep clock None) n) (Some p))
               = Ok (LoweringIR (DomainIR ACCEPTED_STEP (qualified_id digest clock) None None)
                       (DueIR CACHE_PERIOD (Some n) None) (off_ir (Some p)))).
  { unfold lower_schedule_ir, validate_site. cbn [schedule_clock schedule_domain domain_clock trigger_domain sch_trigger domain_at].
    rewrite bool_decide_true by done. cbn [require mbind res_bind].
    rewrite (native_schedule_ir_spec digest (MkSchedule (Every (AcceptedStep clock None) n) (Some p))) by done. done. }
  rewrite Hl. cbn [mbind res_bind lo_due lo_domain lo_off du_kind di_timeline]. rewrite bool_decide_false by done.
  cbn [andb]. rewrite Haux. assert (is_none (of_comment (off_ir (Some p))) = true) as -> by by destruct Hp as [->| ->].
  cbn -[take drop of_off of_after Nat.ltb Nat.leb]. rewrite (proj2 (Nat.ltb_lt 0 e)), (proj2 (Nat.leb_le e (length body))) by lia.
  cbn -[take drop of_off of_after]. do 2 eexists. split; [reflexivity|]. split; [reflexivity|]. done.
Qed.

(** [Every(n)] with a hold is sample-and-hold: on accepted steps the schedule
    is always emitted, its run never fails from an empty cache, and the output
    at macro step [i] is the value computed at the last multiple of [n]. *)
Theorem every_holds_last_sample {L V Cx} (run : L → Cx → V → V) (zero : V) digest v clock n p tokens body s
    c m0 count dt (ctx : Z → Cx) :
  sn_schedule v = Some (MkSchedule (Every (AcceptedStep clock None) n) (Some p)) → sn_clock v = clock → 0 < n →
  p = Hold ∨ p = AccumulateDt → is_aux v = false → 0 <= sn_id v → (0 < s <= length body)%nat →
  clears run (take s body) → nc_frames c = [] → nc_primary c = qualified_id digest clock →
  ma_cache m0 !! sn_id v = None →
  ∃ e, emit_schedule_wrap digest v tokens body (Some s) = Ok e
    ∧ map (fmap ma_out) (exec_steps run zero e m0 (macro_steps c 0 count dt ctx))
      = map (fun i => Ok (fresh run zero (take s body) (drop s body) (ctx (n * (i / n))))) (indices 0 count).
Proof.
  intros Hs Hc Hn Hp Haux Hid Hb Hcl Hf Hpr Hm.
  destruct (every_emitted digest v clock n p tokens body s Hs Hc Hn Hp Haux Hb) as (e & g & He & Hg & Hd).
  exists e. split; [done|].
  assert (Hok : schedule_ok (MkSchedule (Every (AcceptedStep clock None) n) (Some p))) by (split; cbn; done).
  destruct (emitted_guard _ _ _ _ _ _ _ _ Hs Hok Haux He Hg) as (Hl & Hskip & Hnode & Ht & Hel).
  pose proof (every_exec_due c _ (sn_id v) n 0 count dt ctx Hf Hpr ltac:(done) Hid Hn ltac:(lia)) as Hdue.
  rewrite <- Hd in Hdue.
  rewrite (steps_observe run zero v _ _ _ e g Haux Hid Hg Hnode Hl Hskip Ht Hel Hcl _ m0 _ None Hdue).
  - cbn [sch_off]. unfold macro_steps. rewrite map_map. cbn [ns_context].
    rewrite <- (observe_every zero (fun i => fresh run zero (take s body) (drop s body) (ctx i))
                  (fun i => cleared run zero (take s body) (ctx i)) n p count 0 None); [done..|]. by left.
  - intros _ sl. by rewrite Hm.
Qed.

(** ** A concrete node: its setup clears the scratch, its body adds the context. *)

Definition toy_run (line : bool) (cx v : Z) : Z := if line then v + cx else 0.
Definition toy_digest (j : json) : string := "00".
Definition toy_node : snode :=
  SNode 7 "rhs" toy_clock (AtTime (MkTime toy_clock (Scalar.Literal (Scalar.PInteger 0) None None None) 0))
    (Some (MkSchedule (Every (AcceptedStep toy_clock None) 3) (Some AccumulateDt))).
Definition toy_emitted : emitted bool :=
  match emit_schedule_wrap toy_digest toy_node [] [false; true] (Some 1%nat) with
  | Ok e => e | Err _ => Emitted [] None end.
Definition native_clocks : clocks := Clocks (qualified_id toy_digest toy_clock) ∅ [].
Definition toy_dt (i : Z) : float := float_of_Z (i + 1).
Definition toy_machine : machine Z := Machine 55 ∅ [].

(** The same node held, and a field solve scheduled with [Skip]. *)
Definition toy_held : snode :=
  SNode 7 "rhs" toy_clock (sn_point toy_node) (Some (MkSchedule (Every (AcceptedStep toy_clock None) 3) (Some Hold))).
Definition toy_field : snode :=
  SNode 7 "solve_fields" toy_clock (sn_point toy_node) (Some (MkSchedule (Every (AcceptedStep toy_clock None) 3) (Some Skip))).
Definition toy_wrap (v : snode) : emitted bool :=
  match emit_schedule_wrap toy_digest v [] [false; true] (Some 1%nat) with Ok e => e | Err _ => Emitted [] None end.

Lemma toy_due :
  Forall2 (fun s b => exec_due s (IsDue 7 3 (Args kAcceptedStep (qualified_id toy_digest toy_clock) None (-1))) = Ok b)
    (macro_steps native_clocks 0 5 toy_dt (fun i => 100 + i)) (every_due 3 0 5).
Proof. apply every_exec_due; done || lia. Qed.

Lemma scheduled_node_observes_policy_witness :
  map (fmap ma_out) (exec_steps toy_run 0 (toy_wrap toy_held) toy_machine
                       (macro_steps native_clocks 0 5 toy_dt (fun i => 100 + i)))
  = [Ok 100; Ok 100; Ok 100; Ok 103; Ok 103]
  ∧ map (fmap ma_out) (exec_steps toy_run 0 (toy_wrap toy_field) toy_machine
                       (macro_steps native_clocks 0 5 toy_dt (fun i => 100 + i)))
  = [Ok 100; Ok 100; Ok 100; Ok 103; Ok 103].
Proof.
  split.
  - pose proof (scheduled_node_observes_policy toy_run 0 toy_digest toy_held
      (MkSchedule (Every (AcceptedStep toy_clock None) 3) (Some Hold)) [] [false; true] (Some 1%nat)
      (toy_wrap toy_held) toy_machine (macro_steps native_clocks 0 5 toy_dt (fun i => 100 + i))
      eq_refl ltac:(split; cbn; lia) ltac:(cbn; lia) ltac:(discriminate) ltac:(vm_compute; reflexivity)) as H.
    destruct (H _ toy_due) as (n & En & _ & Ho). injection En as <-.
    rewrite (Ho None ltac:(intros cx o o'; reflexivity) ltac:(by intros s)). vm_compute. reflexivity.
  - pose proof (scheduled_node_observes_policy toy_run 0 toy_digest toy_field
      (MkSchedule (Every (AcceptedStep toy_clock None) 3) (Some Skip)) [] [false; true] (Some 1%nat)
      (toy_wrap toy_field) toy_machine (macro_steps native_clocks 0 5 toy_dt (fun i => 100 + i))
      eq_refl ltac:(split; cbn; lia) ltac:(cbn; lia) ltac:(discriminate) ltac:(vm_compute; reflexivity)) as H.
    destruct (H _ toy_due) as (_ & Ho). rewrite Ho. vm_compute. reflexivity.
Defined.

Lemma every_holds_last_sample_witness :
  map (fmap ma_out) (exec_steps toy_run 0 toy_emitted toy_machine
                       (macro_steps native_clocks 0 5 toy_dt (fun i => 100 + i)))
  = [Ok 100; Ok 100; Ok 100; Ok 103; Ok 103].
Proof.
  destruct (every_holds_last_sample toy_run 0 toy_digest toy_node toy_clock 3 AccumulateDt [] [false; true] 1%nat
              native_clocks toy_machine 5 toy_dt (fun i => 100 + i)) as (e & He & H);
    [reflexivity | reflexivity | lia | by right | vm_compute; reflexivity | cbn; lia | cbn; lia
     | intros cx o o'; reflexivity | reflexivity | reflexivity | reflexivity |].
  vm_compute in He. injection He as <-. exact H.
Defined.
