(* ===== verification/Authoring.v ===== *)
(** * The program builder

    [python/pops/time/_program]: the choke point through which every operation
    appends a node, the authoring regions of bodies, the operations that open a
    body (control flow and the post-reflux phase of [authoring.py], the local
    nonlinear solve of [local.py], the time-step bound of [dt_bound.py]), the
    clock crossing ([clocks.py]), the scheduled call ([calls.py]), the commit of
    endpoints, and the structural validation of a finished program
    ([region_validation.py], [passes.py]).

    A callback of a control-flow operation is the list of the calls it makes; it
    may name any object made before, its own loop variable and objects leaked
    from other bodies included.  An object is named by its creation order; a
    name never created stands for a value of another program.  A call that
    raises leaves the program as it was (AuthoringTransaction), so a run is the
    calls that succeed. *)
From stdpp Require Import pretty.
From S2P Require Import Prelude Binary64 Scalar Manifest Ownership Points EveryDt Schedule.
#[local] Open Scope nat_scope.

(** ** Nodes *)

(** The name and the complete structure of a state or rate space. *)
Record space := Space { sp_state : string; sp_structure : option string }.
#[global] Instance space_dec : EqDecision space. Proof. solve_decision. Defined.

(** [ProgramValue]: [v_obj] is the object's identity, [v_clock] the clock of its
    point, [v_request] the text of the solve request in [attrs].  [v_subs] holds
    the recorded bodies in [attrs]: key, region, nodes and result; a closed body is never
    written again, so it is a list of records. *)
Inductive node := Node {
  v_obj : nat; v_id : nat; v_vtype : string; v_op : string; v_inputs : list nat;
  v_name : string; v_block : option string; v_space : option space; v_context : option string;
  v_region : nat; v_state : option string; v_point : point; v_clock : Clock;
  v_schedule : option schedule; v_history : option string;
  v_count : Z; v_parent : option Clock; v_request : option string;
  v_subs : list (string * (nat * list node * nat)) }.

(** What a call passes to [_new] next to the operation and its inputs. *)
Record spec := Spec {
  s_name : option string; s_block : option string; s_space : option space; s_context : option string;
  s_state : option string; s_inherit : bool; s_point : option point; s_history : option string;
  s_count : Z; s_parent : option Clock; s_subs : list (string * (nat * list node * nat)) }.

(** One list of [_recording], with its region once it has one. *)
Record frame := Frame { fr_region : option nat; fr_nodes : list node }.

(** A [TimeState] or its endpoint. *)
Definition state_key : Type := string * string * Clock.

(** [p_issued] is [_issued_values] in creation order; [p_recording] has the
    innermost list first; [p_imports] holds pairs (destination, source);
    [p_states] the time states with their space and current value; [p_post_commits] and
    [p_post_recording] belong to [after_synchronization], and [p_dt_bound] is the body of
    the time-step bound: its region, nodes and result. *)
Record program := Program {
  p_clock : Clock; p_issued : list node; p_values : list node; p_recording : list frame;
  p_next_id : nat; p_next_region : nat; p_imports : list (nat * nat);
  p_states : list (state_key * (option space * option nat));
  p_commits : list (string * nat); p_frozen : bool;
  p_post_commits : list (string * nat); p_post_recording : bool;
  p_dt_bound : option (nat * list node * nat) }.

Definition new_program (clock : Clock) : program := Program clock [] [] [] 0 1 [] [] [] false [] false None.

Definition set_nodes (p : program) issued values recording : program :=
  Program (p_clock p) issued values recording (p_next_id p) (p_next_region p) (p_imports p) (p_states p)
    (p_commits p) (p_frozen p) (p_post_commits p) (p_post_recording p) (p_dt_bound p).
Definition set_recording (p : program) recording : program := set_nodes p (p_issued p) (p_values p) recording.
Definition set_next_id (p : program) n : program :=
  Program (p_clock p) (p_issued p) (p_values p) (p_recording p) n (p_next_region p) (p_imports p) (p_states p)
    (p_commits p) (p_frozen p) (p_post_commits p) (p_post_recording p) (p_dt_bound p).
Definition set_region (p : program) n imports : program :=
  Program (p_clock p) (p_issued p) (p_values p) (p_recording p) (p_next_id p) n imports (p_states p)
    (p_commits p) (p_frozen p) (p_post_commits p) (p_post_recording p) (p_dt_bound p).
Definition set_states (p : program) states : program :=
  Program (p_clock p) (p_issued p) (p_values p) (p_recording p) (p_next_id p) (p_next_region p) (p_imports p) states
    (p_commits p) (p_frozen p) (p_post_commits p) (p_post_recording p) (p_dt_bound p).
Definition set_commits (p : program) commits post_commits : program :=
  Program (p_clock p) (p_issued p) (p_values p) (p_recording p) (p_next_id p) (p_next_region p) (p_imports p)
    (p_states p) commits (p_frozen p) post_commits (p_post_recording p) (p_dt_bound p).
Definition set_post_recording (p : program) b : program :=
  Program (p_clock p) (p_issued p) (p_values p) (p_recording p) (p_next_id p) (p_next_region p) (p_imports p)
    (p_states p) (p_commits p) (p_frozen p) (p_post_commits p) b (p_dt_bound p).
Definition set_dt (p : program) bound : program :=
  Program (p_clock p) (p_issued p) (p_values p) (p_recording p) (p_next_id p) (p_next_region p) (p_imports p)
    (p_states p) (p_commits p) (p_frozen p) (p_post_commits p) (p_post_recording p) bound.

(** ** Regions and provenance ([value_validation.py], [api.py]) *)

Definition TOP_LEVEL_REGION : nat := 0.

(** [_guard_mutable] *)
Definition guard_mutable (p : program) : res unit := require (negb (p_frozen p)) RuntimeError.

(** [_allow_region_capture] *)
Definition allow_region_capture (p : program) (source destination : nat) : program :=
  set_region p (p_next_region p) ((destination, source) :: p_imports p).

(** [_current_region]: the innermost list gets a token when it has none. *)
Definition current_region (p : program) : nat * program :=
  match p_recording p with
  | [] => (TOP_LEVEL_REGION, p)
  | f :: fs =>
      match fr_region f with
      | Some r => (r, p)
      | None =>
          let r := p_next_region p in
          (r, set_recording (set_region p (S r) (p_imports p)) (Frame (Some r) (fr_nodes f) :: fs))
      end
  end.

(** [require_owned] *)
Definition require_owned (p : program) (s : nat) : res node :=
  match p_issued p !! s with Some v => Ok v | None => Err ValueError end.

Definition require_vtype (v : node) (vtype : string) : res unit :=
  require (String.eqb (v_vtype v) vtype) ValueError.

(** [require_top_level] *)
Definition require_top_level (p : program) (s : nat) : res node :=
  v ← require_owned p s; _ ← require (v_region v =? TOP_LEVEL_REGION) ValueError; Ok v.

(** [require_region] *)
Definition require_region (p : program) (s : nat) (region : nat) (vtype : option string) (allow : list nat)
    : res node :=
  v ← require_owned p s;
  _ ← match vtype with Some t => require_vtype v t | None => Ok tt end;
  _ ← require (bool_decide (s ∈ allow) || (v_region v =? region)) ValueError;
  Ok v.

Definition region_visible (p : program) (region source : nat) : bool :=
  (source =? region)
  || (negb (region =? TOP_LEVEL_REGION) && (source =? TOP_LEVEL_REGION))
  || bool_decide ((region, source) ∈ p_imports p).

(** [validate_input_regions] *)
Fixpoint validate_input_regions (p : program) (inputs : list nat) (region : nat) : res unit :=
  match inputs with
  | [] => Ok tt
  | s :: inputs =>
      v ← require_owned p s;
      _ ← require (region_visible p region (v_region v)) ValueError;
      validate_input_regions p inputs region
  end.

(** A completed top-level matrix-free operator may be read from any clock. *)
Definition prepared_operator (v : node) : bool :=
  String.eqb (v_vtype v) "matrix_free_op" && String.eqb (v_op v) "matrix_free_operator"
  && (v_region v =? TOP_LEVEL_REGION).

(** [validate_input_clocks] *)
Fixpoint validate_input_clocks (p : program) (inputs : list nat) (expected : Clock) (synchronize : bool) : res unit :=
  match inputs with
  | [] => Ok tt
  | s :: inputs =>
      v ← require_owned p s;
      _ ← require (prepared_operator v || bool_decide (v_clock v = expected) || synchronize) ValueError;
      validate_input_clocks p inputs expected synchronize
  end.

(** [require_compatible_spaces] *)
Definition require_compatible_spaces (left right : option space) (typed_pair : bool) : res unit :=
  _ ← require (negb (typed_pair && negb (Bool.eqb (is_none left) (is_none right)))) ValueError;
  match left, right with
  | Some l, Some r =>
      _ ← require (String.eqb (sp_state l) (sp_state r)) ValueError;
      match sp_structure l, sp_structure r with
      | Some a, Some b => require (String.eqb a b) ValueError
      | _, _ => Ok tt
      end
  | _, _ => Ok tt
  end.

(** ** Appending and replacing nodes ([operations.py]) *)

(** [TimePoint(clock, step=step)] *)
Definition zero_offset : literal := Literal (PInteger 0) None None None.
Definition time_point (c : Clock) (step : Z) : point := AtTime (MkTime c zero_offset step).

(** A new node joins the innermost recorded list, or the flat list. *)
Definition append_node (p : program) (v : node) : program :=
  match p_recording p with
  | [] => set_nodes p (p_issued p ++ [v]) (p_values p ++ [v]) []
  | f :: fs => set_nodes p (p_issued p ++ [v]) (p_values p) (Frame (fr_region f) (fr_nodes f ++ [v]) :: fs)
  end.

(** The one state reference of the inputs, when they agree. *)
Definition inherited_state (values : list node) : option string :=
  match remove_dups (omap v_state values) with [r] => Some r | _ => None end.

(** [_new] *)
Definition new_node (p : program) (vtype op : string) (inputs : list nat) (a : spec) : res (program * nat) :=
  _ ← guard_mutable p;
  let '(region, p) := current_region p in
  _ ← validate_input_regions p inputs region;
  values ← map_res (require_owned p) inputs;
  let at_ := match s_point a, values with
             | Some at_, _ => at_ | None, v :: _ => v_point v | None, [] => time_point (p_clock p) 0%Z end in
  clock ← point_clock at_;
  _ ← validate_input_clocks p inputs clock (String.eqb op "synchronize");
  let vid := p_next_id p in
  name ← match s_name a with
         | None => Ok (op +:+ pretty vid)
         | Some n => _ ← require (negb (String.eqb n EmptyString)) ValueError; Ok n
         end;
  let state := match s_state a with
               | Some r => Some r
               | None => if s_inherit a then inherited_state values else None end in
  let obj := length (p_issued p) in
  Ok (append_node (set_next_id p (S vid))
        (Node obj vid vtype op inputs name (s_block a) (s_space a) (s_context a) region state at_ clock None
           (s_history a) (s_count a) (s_parent a) None (s_subs a)), obj).

(** The last node with the SSA id, in the recorded lists from the innermost and
    then in the flat list. *)
Definition find_id (id : nat) (l : list node) : option node := List.find (fun v => v_id v =? id) (rev l).
Fixpoint find_recorded (id : nat) (fs : list frame) : option node :=
  match fs with
  | [] => None
  | f :: fs => match find_id id (fr_nodes f) with Some v => Some v | None => find_recorded id fs end
  end.

(** [_canonical_value] *)
Definition canonical_value (p : program) (v : node) : node :=
  match find_recorded (v_id v) (p_recording p) with
  | Some c => c
  | None => default v (find_id (v_id v) (p_values p))
  end.

(** The first node with the SSA id, replaced in place. *)
Fixpoint replace_in (l : list node) (r : node) : option (list node) :=
  match l with
  | [] => None
  | v :: l => if v_id v =? v_id r then Some (r :: l) else cons v <$> replace_in l r
  end.
Fixpoint replace_recorded (fs : list frame) (r : node) : option (list frame) :=
  match fs with
  | [] => None
  | f :: fs =>
      match replace_in (fr_nodes f) r with
      | Some l => Some (Frame (fr_region f) l :: fs)
      | None => cons f <$> replace_recorded fs r
      end
  end.

(** What [_replace_value] may change. *)
Record change := Change {
  c_schedule : option schedule; c_name : option string; c_point : option point; c_space : option (option space) }.

Definition changed (p : program) (v : node) (c : change) : res node :=
  clock ← match c_point c with None => Ok (v_clock v) | Some at_ => point_clock at_ end;
  Ok (Node (length (p_issued p)) (v_id v) (v_vtype v) (v_op v) (v_inputs v) (default (v_name v) (c_name c))
        (v_block v) (default (v_space v) (c_space c)) (v_context v) (v_region v) (v_state v)
        (default (v_point v) (c_point c)) clock
        (match c_schedule c with Some s => Some s | None => v_schedule v end)
        (v_history v) (v_count v) (v_parent v) (v_request v) (v_subs v)).

(** The commits and the time-step bound follow a replaced node. *)
Definition followed (p : program) (r : node) (commits : list (string * nat)) : list (string * nat) :=
  map (fun kv => match p_issued p !! kv.2 with
                 | Some w => if v_id w =? v_id r then (kv.1, v_obj r) else kv
                 | None => kv end) commits.
Definition followed_bound (p : program) (r : node) : option (nat * list node * nat) :=
  '(region, nodes, out) ← p_dt_bound p;
  Some (region, nodes, match p_issued p !! out with
                       | Some w => if v_id w =? v_id r then v_obj r else out
                       | None => out end).

(** [_replace_value] *)
Definition replace_value (p : program) (s : nat) (c : change) : res (program * nat) :=
  _ ← guard_mutable p;
  v ← require_owned p s;
  r ← changed p (canonical_value p v) c;
  let issued := p_issued p ++ [r] in
  let p' := set_dt (set_commits p (followed p r (p_commits p)) (followed p r (p_post_commits p)))
              (followed_bound p r) in
  match replace_recorded (p_recording p) r with
  | Some fs => Ok (set_nodes p' issued (p_values p) fs, v_obj r)
  | None =>
      match replace_in (p_values p) r with
      | Some l => Ok (set_nodes p' issued l (p_recording p), v_obj r)
      | None => Err ValueError
      end
  end.

(** ** Control flow ([authoring.py]) *)

(** A callback: it makes calls and returns an object. *)
Definition callback : Type := program → res (program * nat).

(** [_record]: the nodes the callback appends, in a region of its own; the loop
    variable may come from another body. *)
Definition record (p : program) (x : node) (fn : callback) : res (program * (nat * list node * nat)) :=
  let destination := p_next_region p in
  let p := set_region p (S destination) (p_imports p) in
  let p := if (v_region x =? TOP_LEVEL_REGION) || (v_region x =? destination) then p
           else allow_region_capture p (v_region x) destination in
  '(p, out) ← fn (set_recording p (Frame (Some destination) [] :: p_recording p));
  match p_recording p with
  | f :: fs => Ok (set_recording p fs, (destination, fr_nodes f, out))
  | [] => Err RuntimeError
  end.

(** [_record_branch_arm]: the region is the one the first node of the arm got. *)
Definition record_branch_arm (p : program) (fn : callback) : res (program * (option nat * list node * nat)) :=
  '(p, out) ← fn (set_recording p (Frame None [] :: p_recording p));
  match p_recording p with
  | f :: fs => Ok (set_recording p fs, (fr_region f, fr_nodes f, out))
  | [] => Err RuntimeError
  end.

(** [_region_for_block] on a closed list. *)
Definition region_for_block (p : program) (region : option nat) : nat * program :=
  match region with
  | Some r => (r, p)
  | None => (p_next_region p, set_region p (S (p_next_region p)) (p_imports p))
  end.

Definition same_block (a b : node) : res unit := require (bool_decide (v_block a = v_block b)) ValueError.
Definition not_recording (p : program) : res unit :=
  require (match p_recording p with [] => true | _ => false end) NotImplementedError.

(** A node after [x] in its block and space, as the loops pass it to [_new]. *)
Definition control_spec (x : node) (name : option string) (count : Z)
    (subs : list (string * (nat * list node * nat))) : spec :=
  Spec name (v_block x) (v_space x) None None true None None count None subs.

(** The result of a loop body. *)
Definition loop_result (p : program) (x : node) (region out : nat) : res node :=
  y ← require_owned p out;
  _ ← require_vtype y "state";
  _ ← same_block y x;
  _ ← require_region p out region (Some "state") [v_obj x];
  _ ← require_compatible_spaces (v_space x) (v_space y) true;
  Ok y.

(** [range] *)
Definition range_ (p : program) (s : nat) (count : Z) (fn : callback) : res (program * nat) :=
  _ ← require (0 <=? count)%Z ValueError;
  x ← require_top_level p s;
  _ ← require_vtype x "state";
  _ ← not_recording p;
  '(p, (region, nodes, out)) ← record p x fn;
  _ ← loop_result p x region out;
  new_node p "state" "range" [s] (control_spec x None count [("body_block", (region, nodes, out))]).

(** [static_range]: the body is authored once per iteration, in place. *)
Fixpoint unrolled (p : program) (x : node) (region s : nat) (bodies : list callback) : res (program * nat) :=
  match bodies with
  | [] => Ok (p, s)
  | fn :: bodies =>
      '(p, out) ← fn p;
      _ ← loop_result p x region out;
      unrolled p x region out bodies
  end.
Definition static_range (p : program) (s : nat) (bodies : list callback) : res (program * nat) :=
  x ← require_owned p s;
  _ ← require_vtype x "state";
  let '(region, p) := current_region p in
  _ ← validate_input_regions p [s] region;
  unrolled p x region s bodies.

(** [while_] *)
Definition while_ (p : program) (s : nat) (cond_fn body_fn : callback) : res (program * nat) :=
  x ← require_top_level p s;
  _ ← require_vtype x "state";
  _ ← not_recording p;
  '(p, (cond_region, cond_nodes, cond)) ← record p x cond_fn;
  _ ← require_region p cond cond_region (Some "bool") [];
  '(p, (region, nodes, out)) ← record p x body_fn;
  _ ← loop_result p x region out;
  new_node p "state" "while" [s]
    (control_spec x None 0 [("cond_block", (cond_region, cond_nodes, cond)); ("body_block", (region, nodes, out))]).

(** [subcycle] *)
Definition subcycle (p : program) (s : nat) (clock within : Clock) (count : Z) (fn : callback) (name : option string)
    : res (program * nat) :=
  x ← require_owned p s;
  _ ← require (String.eqb (v_vtype x) "state") TypeError;
  _ ← require (negb (bool_decide (clock = within))) ValueError;
  _ ← require (bool_decide (v_clock x = clock)) ValueError;
  _ ← require (0 <? count)%Z ValueError;
  let '(parent_region, p) := current_region p in
  '(p, (region, nodes, out)) ← record p x fn;
  let p := if parent_region =? 0 then p else allow_region_capture p parent_region region in
  y ← require_owned p out;
  _ ← require (String.eqb (v_vtype y) "state") TypeError;
  _ ← require (bool_decide (v_block y = v_block x ∧ v_state y = v_state x)) ValueError;
  _ ← require (bool_decide (v_clock y = clock)) ValueError;
  _ ← require_region p out region (Some "state") [s];
  _ ← require_compatible_spaces (v_space x) (v_space y) true;
  new_node p "state" "subcycle" [s]
    (Spec name (v_block x) (v_space x) None (v_state x) true (Some (time_point clock count)) None count (Some within)
       [("body_block", (region, nodes, out))]).

(** [_require_branch_compatible] *)
Definition branch_compatible (a b : node) : res unit :=
  _ ← require (String.eqb (v_vtype a) (v_vtype b)) ValueError;
  _ ← same_block a b;
  _ ← require (bool_decide (v_clock a = v_clock b) && point_eq (v_point a) (v_point b)) ValueError;
  _ ← require (bool_decide (v_space a = v_space b)) ValueError;
  _ ← require (bool_decide (v_state a = v_state b)) ValueError;
  require (bool_decide (v_context a = v_context b)) ValueError.

(** The checks of one arm's result. *)
Definition arm_result (p : program) (parent_region region out : nat) : res node :=
  y ← require_owned p out;
  _ ← require (bool_decide (v_region y ∈ [0; region; parent_region])) ValueError;
  _ ← validate_input_regions p [out] region;
  Ok y.

(** [branch] *)
Definition branch (p : program) (condition : nat) (when_true when_false : callback) (name : option string)
    : res (program * nat) :=
  c ← require_owned p condition;
  _ ← require_vtype c "bool";
  let '(parent_region, p) := current_region p in
  _ ← validate_input_regions p [condition] parent_region;
  '(p, (true_token, true_nodes, true_out)) ← record_branch_arm p when_true;
  '(p, (false_token, false_nodes, false_out)) ← record_branch_arm p when_false;
  let '(true_region, p) := region_for_block p true_token in
  let '(false_region, p) := region_for_block p false_token in
  let p := if parent_region =? 0 then p
           else allow_region_capture (allow_region_capture p parent_region true_region) parent_region false_region in
  t ← arm_result p parent_region true_region true_out;
  f ← arm_result p parent_region false_region false_out;
  _ ← branch_compatible t f;
  _ ← require (bool_decide (v_clock c = v_clock t)) ValueError;
  new_node p (v_vtype t) "branch" [condition]
    (Spec name (v_block t) (v_space t) (v_context t) (v_state t) false (Some (v_point t)) None 0 None
       [("true_block", (true_region, true_nodes, true_out)); ("false_block", (false_region, false_nodes, false_out))]).

(** ** Local solves ([local.py]) *)

Definition RESIDUAL_LOCAL_OPS : list string := ["state"; "source"; "implicit_source"; "apply"; "linear_combine"].

(** The placeholders of the iterate and of the frozen guess, then the residual. *)
Definition residual_body (x : node) (fn : callback) : callback := fun p =>
  let placeholder := fun name => control_spec x (Some name) 0 [] in
  '(p, _) ← new_node p "state" "state" [] (placeholder "newton_iterate");
  '(p, _) ← new_node p "state" "state" [] (placeholder "newton_guess");
  fn p.

(** [_solve_local_nonlinear]: the node of the solve, which the outcome it returns
    is read from. *)
Definition solve_local_nonlinear (p : program) (s : nat) (fn : callback) (name : option string) : res (program * nat) :=
  x ← require_owned p s;
  _ ← require_vtype x "state";
  _ ← require_top_level p s;
  _ ← not_recording p;
  '(p, (token, nodes, out)) ← record_branch_arm p (residual_body x fn);
  let '(region, p) := region_for_block p token in
  r ← require_region p out region (Some "state") [];
  _ ← require_compatible_spaces (v_space x) (v_space r) true;
  _ ← require (forallb (fun w => bool_decide (v_op w ∈ RESIDUAL_LOCAL_OPS)) nodes) ValueError;
  new_node p "state" "solve_local_nonlinear" [s] (control_spec x name 0 [("residual_block", (region, nodes, out))]).

(** ** The time-step bound ([dt_bound.py]) *)

Definition DT_BOUND_OPS : list string :=
  ["state"; "solve_fields"; "reduce"; "compare"; "cfl"; "hmin"; "max_wave_speed"; "scalar_op"].

Definition cfl_spec : spec := Spec (Some "cfl") None None None None true None None 0 None [].

(** [set_dt_bound] *)
Definition set_dt_bound (p : program) (fn : callback) : res (program * nat) :=
  _ ← guard_mutable p;
  _ ← require (match p_dt_bound p with None => true | Some _ => false end) ValueError;
  _ ← not_recording p;
  '(p, (token, nodes, out)) ← record_branch_arm p (fun p => '(p, _) ← new_node p "scalar" "cfl" [] cfl_spec; fn p);
  let '(region, p) := region_for_block p token in
  _ ← require_region p out region (Some "scalar") [];
  _ ← require (forallb (fun w => bool_decide (v_op w ∈ DT_BOUND_OPS)) nodes) ValueError;
  Ok (set_dt p (Some (region, nodes, out)), out).

(** ** The post-reflux phase ([authoring.py]) *)

Definition POST_SYNC_FORBIDDEN_OPS : list string :=
  ["rhs"; "diffusive_rhs"; "source"; "implicit_source"; "apply"; "subcycle"; "range"; "while"; "solve_fields";
   "solve_fields_from_blocks"; "solve_local_linear"; "solve_local_nonlinear"; "solve_spatial_nonlinear";
   "solve_coupled_implicit"; "solve_linear"; "condensed_coeffs"; "condensed_rhs"; "condensed_reconstruct";
   "condensed_energy"; "laplacian"; "gradient"; "divergence"; "apply_laplacian_coeff"; "store_history";
   "post_synchronization"; "matrix_free_operator"; "coupled_rate"].

(** No forbidden operation in the nodes [_post_sync_ops] yields. *)
Fixpoint post_sync_legal (v : node) : bool :=
  negb (bool_decide (v_op v ∈ POST_SYNC_FORBIDDEN_OPS))
  && match v with
     | Node _ _ _ _ _ _ _ _ _ _ _ _ _ _ _ _ _ _ subs =>
         forallb (fun sub =>
           let '(key, (_, nodes, _)) := sub in
           negb (bool_decide (key ∈ ["cond_block"; "body_block"; "true_block"; "false_block"]))
           || forallb post_sync_legal nodes) subs
     end.

(** [_record_post_sync] *)
Definition record_post_sync (p : program) (fn : callback) : res (program * (nat * list node)) :=
  let region := p_next_region p in
  let p := set_recording (set_region p (S region) (p_imports p)) (Frame (Some region) [] :: p_recording p) in
  '(p, _) ← fn (set_post_recording p true);
  match p_recording p with
  | f :: fs => Ok (set_recording (set_post_recording p false) fs, (region, fr_nodes f))
  | [] => Err RuntimeError
  end.

(** [after_synchronization]: the body returns nothing, so the result recorded with
    it is never read. *)
Definition after_synchronization (p : program) (fn : callback) (name : option string) : res (program * nat) :=
  _ ← require (match p_recording p with [] => true | _ => false end) ValueError;
  _ ← require (negb (existsb (fun v => String.eqb (v_op v) "post_synchronization") (p_values p))) ValueError;
  '(p, (region, nodes)) ← record_post_sync p fn;
  _ ← require (forallb post_sync_legal nodes) ValueError;
  new_node p "unit" "post_synchronization" []
    (Spec name None None None None true None None 0 None [("body_block", (region, nodes, 0))]).

(** ** Clock crossings ([clocks.py]) *)

(** [synchronize] with [SampleAndHold()]. *)
Definition synchronize (p : program) (s : nat) (at_ : point) (name : option string) : res (program * nat) :=
  x ← require_owned p s;
  _ ← match at_ with AtStage st => _ ← stage_time st; Ok tt | AtTime _ => Ok tt end;
  target ← point_clock at_;
  _ ← require (negb (bool_decide (v_clock x = target))) ValueError;
  new_node p (v_vtype x) "synchronize" [s]
    (Spec name (v_block x) (v_space x) (v_context x) (v_state x) true (Some at_) None 0 None []).

(** ** Time states and commits ([time_handles.py], [commit_validation.py]) *)

Definition state_value_spec (key : state_key) (sp : option space) : spec :=
  let '(block, state, clock) := key in
  Spec (Some block) (Some block) sp None (Some state) true (Some (time_point clock 0)) None 0 None [].

(** [_time_state] and the value of [TimeState.n]. *)
Definition time_state (p : program) (key : state_key) (sp : option space) : res program :=
  match dget key (p_states p) with
  | Some (prior, _) => _ ← require_compatible_spaces prior sp true; Ok p
  | None => Ok (set_states p (dset key (sp, None) (p_states p)))
  end.
Definition current_time_value (p : program) (key : state_key) : res (program * nat) :=
  match dget key (p_states p) with
  | None => Err ValueError
  | Some (sp, None) =>
      '(p, obj) ← new_node p "state" "state" [] (state_value_spec key sp);
      Ok (set_states p (dset key (sp, Some obj) (p_states p)), obj)
  | Some (sp, Some obj) =>
      v ← require_owned p obj;
      let current := if p_frozen p then obj else v_obj (canonical_value p v) in
      Ok (set_states p (dset key (sp, Some current) (p_states p)), current)
  end.

(** One entry of [validate_commit_many]. *)
Definition validate_commit (p : program) (entry : state_key * nat) : res (string * nat) :=
  let '((block, state, clock), s) := entry in
  sp ← match dget (block, state, clock) (p_states p) with Some (sp, _) => Ok sp | None => Err ValueError end;
  v ← require_owned p s;
  _ ← require (bool_decide (v_vtype v ∈ ["state"; "scalar_field"])) TypeError;
  _ ← require (p_post_recording p || (v_region v =? TOP_LEVEL_REGION)) ValueError;
  _ ← require (bool_decide (v_clock v = clock)) ValueError;
  _ ← require (point_eq (v_point v) (time_point clock 1)) ValueError;
  _ ← require_compatible_spaces sp (v_space v) true;
  _ ← require (bool_decide (v_block v = Some block)) ValueError;
  _ ← require (bool_decide (state ∉ dkeys (if p_post_recording p then p_post_commits p else p_commits p))) ValueError;
  Ok (state, s).

(** [commit_many] *)
Definition commit_many (p : program) (mapping : list (state_key * nat)) : res program :=
  _ ← guard_mutable p;
  _ ← require (match mapping with [] => false | _ => true end) ValueError;
  validated ← map_res (validate_commit p) mapping;
  Ok (if p_post_recording p then set_commits p (p_commits p) (dupdate (p_post_commits p) validated)
      else set_commits p (dupdate (p_commits p) validated) (p_post_commits p)).

(** ** Operator calls ([calls.py]) *)

Section Calls.
(** The hash of a clock's canonical data. *)
Context (digest : json → string).

(** [_validate_scheduled_reads] *)
Fixpoint validate_scheduled_reads (values : list node) : res unit :=
  match values with
  | [] => Ok tt
  | v :: values =>
      _ ← match v_schedule v with
          | None => Ok tt
          | Some s =>
              always ← trigger_is_always (sch_trigger s);
              require (negb (negb always && is_none (sch_off s))) ValueError
          end;
      validate_scheduled_reads values
  end.

(** The predicate of [When]: a value of this program is named by its SSA id. *)
Definition predicate_value (p : program) (id : nat) : res node :=
  match List.find (fun v => v_id v =? id) (p_issued p) with Some v => Ok v | None => Err ValueError end.

(** [_validate_schedule_contract] *)
Definition validate_schedule_contract (p : program) (s : schedule) (values : list node) (cacheable : bool) : res unit :=
  let expected := match values with v :: _ => v_clock v | [] => p_clock p end in
  _ ← require (forallb (fun v => bool_decide (v_clock v = expected)) values) ValueError;
  _ ← require (bool_decide (schedule_clock s = expected)) ValueError;
  due ← native_schedule_due (sch_trigger s);
  _ ← match du_kind due, du_predicate due with
      | PROGRAM_PREDICATE, Some (CondValue id _) =>
          c ← predicate_value p id;
          _ ← require (v_region c =? TOP_LEVEL_REGION) ValueError;
          _ ← require (String.eqb (v_vtype c) "bool" && existsb (fun v => v_id v =? id) (p_values p)) ValueError;
          require (bool_decide (v_clock c = schedule_clock s)) ValueError
      | _, _ => Ok tt
      end;
  cached ← native_schedule_cache_required digest s false;
  require (negb cached || cacheable) ValueError.

(** [_call] of an operator that lowers to one node; [output] is the space of its
    signature. *)
Definition call_operator (p : program) (vtype op : string) (inputs : list nat) (a : spec) (output : option space)
    (sched : option schedule) (cacheable : bool) : res (program * nat) :=
  values ← map_res (require_owned p) inputs;
  _ ← validate_scheduled_reads values;
  _ ← match sched with Some s => validate_schedule_contract p s values cacheable | None => Ok tt end;
  '(p, obj) ← new_node p vtype op inputs a;
  v ← require_owned p obj;
  _ ← match sched with Some s => validate_site s (v_clock v) (v_point v) | None => Ok tt end;
  replace_value p obj (Change sched None None (Some output)).

(** ** Scripts *)

(** The operations that record bodies or cross clocks have calls of their own; the
    spatial solve has none here. *)
Definition CONTROL_OPS : list string :=
  ["range"; "while"; "subcycle"; "branch"; "synchronize"; "solve_local_nonlinear"; "post_synchronization";
   "solve_spatial_nonlinear"].

(** A call of the builder.  [Node_] stands for the operations that end in [_new]
    with the given arguments; [Rename] is [value] of a node. *)
Inductive call :=
| State_ (key : state_key) (sp : option space)
| Node_ (vtype op : string) (inputs : list nat) (a : spec)
| Call_ (vtype op : string) (inputs : list nat) (a : spec) (output : option space) (sched : option schedule)
    (cacheable : bool)
| Rename (s : nat) (name : string) (at_ : option point)
| Synchronize (s : nat) (at_ : point) (name : option string)
| Range (s : nat) (count : Z) (body : list call * nat)
| StaticRange (s : nat) (bodies : list (list call * nat))
| While (s : nat) (cond body : list call * nat)
| Subcycle (s : nat) (clock within : Clock) (count : Z) (body : list call * nat) (name : option string)
| Branch (condition : nat) (when_true when_false : list call * nat) (name : option string)
| SolveLocal (s : nat) (residual : list call * nat) (name : option string)
| SetDtBound (builder : list call * nat)
| AfterSynchronization (body : list call) (name : option string)
| Commit (mapping : list (state_key * nat)).

(** Ordinary operations carry no bodies. *)
Definition ordinary (op : string) (a : spec) : res unit :=
  require (bool_decide (op ∉ CONTROL_OPS) && match s_subs a with [] => true | _ => false end) TypeError.

Fixpoint run_call (c : call) (p : program) : res (program * nat) :=
  let run_body := fun (body : list call * nat) (p : program) =>
    p ← (fix run_all (cs : list call) (p : program) : res program :=
           match cs with [] => Ok p | c :: cs => '(p, _) ← run_call c p; run_all cs p end) body.1 p;
    Ok (p, body.2) in
  match c with
  | State_ key sp => p ← time_state p key sp; current_time_value p key
  | Node_ vtype op inputs a => _ ← ordinary op a; new_node p vtype op inputs a
  | Call_ vtype op inputs a output sched cacheable =>
      _ ← ordinary op a; call_operator p vtype op inputs a output sched cacheable
  | Rename s name at_ =>
      _ ← require (negb (String.eqb name EmptyString)) ValueError;
      replace_value p s (Change None (Some name) at_ None)
  | Synchronize s at_ name => synchronize p s at_ name
  | Range s count body => range_ p s count (run_body body)
  | StaticRange s bodies => static_range p s (map run_body bodies)
  | While s cond body => while_ p s (run_body cond) (run_body body)
  | Subcycle s clock within count body name => subcycle p s clock within count (run_body body) name
  | Branch condition t f name => branch p condition (run_body t) (run_body f) name
  | SolveLocal s residual name => solve_local_nonlinear p s (run_body residual) name
  | SetDtBound builder => set_dt_bound p (run_body builder)
  | AfterSynchronization body name => after_synchronization p (run_body (body, 0)) name
  | Commit mapping => p ← commit_many p mapping; Ok (p, 0)
  end.

Definition run_calls (cs : list call) (p : program) : res program :=
  fold_res (fun p c => '(p, _) ← run_call c p; Ok p) p cs.
End Calls.

(** ** Structural validation ([region_validation.py]) *)

Fixpoint check_all {A} (f : A → res unit) (l : list A) : res unit :=
  match l with [] => Ok tt | x :: l => _ ← f x; check_all f l end.

Definition sub_of (v : node) (key : string) : res (nat * list node * nat) :=
  match dget key (v_subs v) with Some s => Ok s | None => Err KeyError end.

(** The result of a body: recorded in it, or an input of the loop. *)
Definition check_result (p : program) (v : node) (key : string) (allow : list nat) : res unit :=
  '(region, _, out) ← sub_of v key; _ ← require_region p out region None allow; Ok tt.

(** The result of an arm may also be a top-level value or one next to the
    branch. *)
Definition check_arm (p : program) (v : node) (key : string) : res unit :=
  '(region, _, out) ← sub_of v key;
  r ← require_owned p out;
  _ ← require_region p out region None (if bool_decide (v_region r ∈ [0; v_region v]) then [out] else []);
  Ok tt.

(** The commits of the post-reflux phase are values of its body. *)
Definition check_post_commits (p : program) (v : node) : res unit :=
  '(region, _, _) ← sub_of v "body_block";
  check_all (fun kv => _ ← require_region p kv.2 region None []; Ok tt) (p_post_commits p).

(** The results a node with bodies names.  A matrix-free operator may have no apply
    body yet. *)
Definition check_results (p : program) (v : node) : res unit :=
  if String.eqb (v_op v) "while" then
    _ ← check_result p v "cond_block" []; check_result p v "body_block" (v_inputs v)
  else if String.eqb (v_op v) "range" || String.eqb (v_op v) "subcycle" then
    check_result p v "body_block" (v_inputs v)
  else if String.eqb (v_op v) "branch" then
    _ ← check_arm p v "true_block"; check_arm p v "false_block"
  else if String.eqb (v_op v) "matrix_free_operator" then
    match dget "apply_block" (v_subs v) with Some _ => check_result p v "apply_block" [] | None => Ok tt end
  else if String.eqb (v_op v) "solve_local_nonlinear" || String.eqb (v_op v) "solve_spatial_nonlinear" then
    check_result p v "residual_block" []
  else if String.eqb (v_op v) "post_synchronization" then check_post_commits p v
  else Ok tt.

(** The predicate of [When], if it is a program value. *)
Definition check_predicate (p : program) (v : node) : res unit :=
  match v_schedule v with
  | Some (MkSchedule (When _ (CondValue id _)) _) =>
      c ← predicate_value p id; require (v_region c =? TOP_LEVEL_REGION) ValueError
  | _ => Ok tt
  end.

Section Validate.
(** The rechecks of a node that carries a solve request and of a spatial solve: no
    call here makes such a node, and nothing is assumed of what they decide. *)
Context (validate_solve_request_node validate_spatial_commit : program → node → res unit).

Definition check_request (p : program) (v : node) : res unit :=
  match v_request v with Some _ => validate_solve_request_node p v | None => Ok tt end.

(** [_block_region] on the bodies of a node; the region recorded with a body is
    the hint. *)
Fixpoint check_subs (p : program) (v : node) : res unit :=
  match v with
  | Node _ _ _ _ _ _ _ _ _ _ _ _ _ _ _ _ _ _ subs =>
      check_all (fun sub =>
        let '(_, (region, nodes, _)) := sub in
        _ ← require (negb (region =? TOP_LEVEL_REGION)) ValueError;
        _ ← require (forallb (fun n => v_region n =? region) nodes) ValueError;
        check_all (fun n =>
          _ ← require_owned p (v_obj n);
          _ ← check_request p n;
          _ ← validate_input_regions p (v_inputs n) region;
          check_subs p n) nodes) subs
  end.

(** [_block_region] on one body. *)
Definition check_block (p : program) (region : nat) (nodes : list node) : res unit :=
  _ ← require (negb (region =? TOP_LEVEL_REGION)) ValueError;
  _ ← require (forallb (fun n => v_region n =? region) nodes) ValueError;
  check_all (fun n =>
    _ ← require_owned p (v_obj n);
    _ ← check_request p n;
    _ ← validate_input_regions p (v_inputs n) region;
    check_subs p n) nodes.

(** The body of the loop over the flat list. *)
Definition check_value (p : program) (v : node) : res unit :=
  _ ← (if String.eqb (v_op v) "solve_spatial_nonlinear" then validate_spatial_commit p v else Ok tt);
  _ ← check_request p v;
  _ ← require_top_level p (v_obj v);
  _ ← validate_input_regions p (v_inputs v) 0;
  _ ← check_predicate p v;
  _ ← check_subs p v;
  check_results p v.

(** [validate_program_regions] *)
Definition validate_program_regions (p : program) : res unit :=
  _ ← check_all (check_value p) (p_values p);
  _ ← check_all (fun kv => _ ← require_top_level p kv.2; Ok tt) (p_commits p);
  match p_dt_bound p with
  | None => Ok tt
  | Some (region, nodes, out) =>
      _ ← check_block p region nodes; _ ← require_region p out region None []; Ok tt
  end.

(** ** [Program.validate] ([passes.py]), up to the history gate *)

(** [_validate_block]: the ids seen in front of a body are visible in it. *)
Fixpoint validate_block (p : program) (block : list node) (seen : list nat) : res unit :=
  match block with
  | [] => Ok tt
  | v :: block =>
      _ ← check_all (fun s =>
            i ← require_owned p s;
            require (bool_decide (v_id i ∈ seen) || bool_decide ((v_region v, v_region i) ∈ p_imports p)) ValueError)
            (v_inputs v);
      validate_block p block (v_id v :: seen)
  end.

(** The bodies of a node the loop looks into, and whether they see the flat list: the
    residual of a local solve must not. *)
Definition validated_keys (v : node) : list (string * bool) :=
  if String.eqb (v_op v) "while" then [("cond_block", true); ("body_block", true)]
  else if String.eqb (v_op v) "range" || String.eqb (v_op v) "subcycle"
          || String.eqb (v_op v) "post_synchronization" then [("body_block", true)]
  else if String.eqb (v_op v) "branch" then [("true_block", true); ("false_block", true)]
  else if String.eqb (v_op v) "matrix_free_operator" then
    match dget "apply_block" (v_subs v) with Some _ => [("apply_block", true)] | None => [] end
  else if String.eqb (v_op v) "solve_spatial_nonlinear" then [("residual_block", true)]
  else if String.eqb (v_op v) "solve_local_nonlinear" then [("residual_block", false)] else [].

Fixpoint validate_values (p : program) (values : list node) (seen : list nat) : res unit :=
  match values with
  | [] => Ok tt
  | v :: values =>
      _ ← check_all (fun s => i ← require_owned p s; require (bool_decide (v_id i ∈ seen)) ValueError) (v_inputs v);
      let seen := v_id v :: seen in
      _ ← check_all (fun '(key, open) =>
            '(_, nodes, _) ← sub_of v key; validate_block p nodes (if open : bool then seen else [])) (validated_keys v);
      validate_values p values seen
  end.

Definition validate (p : program) : res unit :=
  _ ← validate_program_regions p;
  _ ← require (match p_commits p with [] => false | _ => true end) ValueError;
  validate_values p (p_values p) [].
End Validate.
