(* ===== verification/AuthoringSound.v ===== *)
(** * Authored programs are well formed

    The invariant of the program builder (Authoring): what holds of every node
    ever issued, of the open bodies and of the bodies already closed, and that
    every call preserves it.  What the structural validator accepts of the
    programs the builder produces follows from it. *)
From stdpp Require Import sorting.
From S2P Require Import Prelude Binary64 Scalar Manifest Ownership Points EveryDt Schedule Authoring.
#[local] Open Scope nat_scope.

(** ** Walking the bodies *)

(** A node and everything recorded below it, as [_walk] of the temporal
    manifest visits it. *)
Fixpoint walk (v : node) : list node :=
  v :: match v with
       | Node _ _ _ _ _ _ _ _ _ _ _ _ _ _ _ _ _ _ subs =>
           flat_map (fun sub => let '(_, (_, nodes, _)) := sub in flat_map walk nodes) subs
       end.
Definition walk_all (l : list node) : list node := flat_map walk l.

Definition sub_nodes (subs : list (string * (nat * list node * nat))) : list node :=
  flat_map (fun sub => sub.2.1.2) subs.

Lemma flat_map_flat_map {A B C} (f : B → list C) (g : A → list B) l :
  flat_map f (flat_map g l) = flat_map (fun x => flat_map f (g x)) l.
Proof. induction l as [|x l IH]; cbn; [done|]. by rewrite flat_map_app, IH. Qed.

Lemma walk_eq v : walk v = v :: walk_all (sub_nodes (v_subs v)).
Proof.
  destruct v as [? ? ? ? ? ? ? ? ? ? ? ? ? ? ? ? ? ? subs]. unfold walk_all, sub_nodes. cbn.
  rewrite flat_map_flat_map. f_equal. induction subs as [|[k [[r ns] out]] subs IH]; cbn; [done|]. by rewrite IH.
Qed.

Lemma walk_all_app l1 l2 : walk_all (l1 ++ l2) = walk_all l1 ++ walk_all l2.
Proof. apply flat_map_app. Qed.

(** Induction over a node and the nodes of its bodies. *)
Lemma node_induction (P : node → Prop) :
  (∀ v, Forall P (sub_nodes (v_subs v)) → P v) → ∀ v, P v.
Proof.
  intros H. fix F 1. intros v. apply H. destruct v as [? ? ? ? ? ? ? ? ? ? ? ? ? ? ? ? ? ? subs]. cbn.
  induction subs as [|[k [[r ns] out]] subs IH]; cbn; [constructor|].
  apply Forall_app. split; [|exact IH]. clear IH. induction ns as [|m ns IHn]; constructor; [apply F | exact IHn].
Qed.

(** ** The invariant *)

(** How a program grows during a call. *)
Record extends (p q : program) : Prop := Extends {
  e_issued : ∃ l, p_issued q = p_issued p ++ l;
  e_id : p_next_id p <= p_next_id q;
  e_region : p_next_region p <= p_next_region q;
  e_imports : ∀ x, x ∈ p_imports p → x ∈ p_imports q;
  e_recording : Forall2 (fun f g => fr_region f = None ∨ fr_region g = fr_region f) (p_recording p) (p_recording q) }.

Definition known (p : program) (v : node) : Prop := p_issued p !! v_obj v = Some v.

(** What the order of a body depends on. *)
Definition signature (v : node) : nat * nat * list nat := (v_id v, v_region v, v_inputs v).

(** In a body, what a node reads of the same body comes before it. *)
Definition ordered (p : program) (ns : list node) : Prop :=
  ∀ pre id r inputs post, map signature ns = pre ++ (id, r, inputs) :: post → ∀ s, s ∈ inputs →
    ∃ w, p_issued p !! s = Some w ∧ (v_region w = r → v_id w ∈ map (fun x => x.1.1) pre).

Definition block_ok (p : program) (r : nat) (ns : list node) : Prop :=
  0 < r < p_next_region p ∧ (∀ n, n ∈ ns → known p n ∧ v_region n = r) ∧ ordered p ns.

(** A subcycle leaves its parent's clock, a synchronization its source's. *)
Definition clock_facts (p : program) (v : node) : Prop :=
  (v_op v = "subcycle" → ∃ parent, v_parent v = Some parent ∧ parent ≠ v_clock v ∧ (0 < v_count v)%Z)
  ∧ (v_op v = "synchronize" → ∃ s w, v_inputs v = [s] ∧ p_issued p !! s = Some w ∧ v_clock w ≠ v_clock v).

Record facts (steady : bool) (p : program) (v : node) : Prop := Facts {
  f_id : v_id v < p_next_id p;
  f_region : v_region v < p_next_region p;
  f_inputs : ∀ s, s ∈ v_inputs v →
    ∃ w, p_issued p !! s = Some w ∧ v_id w < v_id v ∧ region_visible p (v_region v) (v_region w) = true;
  f_subs : ∀ key r ns out, (key, (r, ns, out)) ∈ v_subs v → block_ok p r ns ∧ ∀ n, n ∈ ns → v_id n < v_id v;
  f_results : v_op v ≠ "post_synchronization" → check_results p v = Ok tt;
  f_keys : ∀ key open, (key, open) ∈ validated_keys v → ∃ sub, sub_of v key = Ok sub;
  f_request : v_request v = None ∧ v_op v ≠ "solve_spatial_nonlinear";
  f_predicate : check_predicate p v = Ok tt;
  f_clock : steady = true → clock_facts p v }.

Definition frame_ok (p : program) (f : frame) : Prop :=
  match fr_region f with
  | None => fr_nodes f = []
  | Some r => block_ok p r (fr_nodes f)
              ∧ ∀ s v, p_issued p !! s = Some v → v_region v = r → v_id v ∈ map v_id (fr_nodes f)
  end.

(** The body of the time-step bound is closed, with a result of its own. *)
Definition dt_ok (p : program) : Prop :=
  match p_dt_bound p with
  | None => True
  | Some (r, ns, out) => block_ok p r ns ∧ ∃ w, p_issued p !! out = Some w ∧ v_region w = r
  end.

Definition recorded (p : program) : list node := flat_map fr_nodes (p_recording p).

(** One id has one region. *)
Definition one_region (p : program) : Prop :=
  ∀ s s' v w, p_issued p !! s = Some v → p_issued p !! s' = Some w → v_id v = v_id w → v_region v = v_region w.

(** [pending]: closed bodies whose node is not made yet. *)
Record invariant (steady : bool) (pending : list node) (p : program) : Prop := Invariant {
  i_issued : ∀ s v, p_issued p !! s = Some v → v_obj v = s ∧ facts steady p v;
  i_values : ∀ v, v ∈ p_values p → known p v ∧ v_region v = 0;
  i_sorted : StronglySorted lt (map v_id (p_values p));
  i_top : ∀ s v, p_issued p !! s = Some v → v_region v = 0 → v_id v ∈ map v_id (p_values p);
  i_frames : ∀ f, f ∈ p_recording p → frame_ok p f;
  i_distinct : NoDup (omap fr_region (p_recording p));
  i_commits : ∀ k s, (k, s) ∈ p_commits p → ∃ v, p_issued p !! s = Some v ∧ v_region v = 0;
  i_next : 0 < p_next_region p;
  i_imports : ∀ d s, (d, s) ∈ p_imports p → d ≠ 0 ∧ s ≠ 0;
  i_regions : one_region p;
  i_dt : dt_ok p;
  i_pending : ∀ n, n ∈ pending → known p n;
  i_walk : NoDup (map v_id (walk_all (p_values p ++ recorded p ++ pending))) }.

(** ** Growth *)

Lemma extends_refl p : extends p p.
Proof.
  split; [exists []; by rewrite app_nil_r | done | done | done|].
  induction (p_recording p); constructor; auto.
Qed.

Lemma extends_trans p q r : extends p q → extends q r → extends p r.
Proof.
  intros [[l1 H1] H2 H3 H4 H5] [[l2 G1] G2 G3 G4 G5].
  split; [exists (l1 ++ l2); by rewrite G1, H1, app_assoc | lia | lia | auto |].
  revert H5 G5. generalize (p_recording p) (p_recording q) (p_recording r). intros a b c H G. revert c G.
  induction H as [|f g a b Hf _ IH]; intros c G; inversion G as [|? h ? c' Hg Hrest]; subst; constructor; [|auto].
  destruct Hf as [|Hf]; [by left|]. destruct Hg as [Hg|Hg]; [left; congruence | right; congruence].
Qed.

Lemma issued_mono p q s v : extends p q → p_issued p !! s = Some v → p_issued q !! s = Some v.
Proof. intros [[l ->] _ _ _ _] H. by apply lookup_app_l_Some. Qed.

Lemma known_mono p q v : extends p q → known p v → known q v.
Proof. apply issued_mono. Qed.

Lemma visible_mono p q a b : extends p q → region_visible p a b = true → region_visible q a b = true.
Proof.
  intros [_ _ _ He _]. unfold region_visible. rewrite !orb_true_iff, !bool_decide_eq_true. intros [?|?]; auto.
Qed.

Lemma owned_mono p q s v : extends p q → require_owned p s = Ok v → require_owned q s = Ok v.
Proof.
  unfold require_owned. intros E H. destruct (p_issued p !! s) eqn:El; [|discriminate H].
  by rewrite (issued_mono p q s _ E El).
Qed.

Lemma require_region_mono p q s r t allow v :
  extends p q → require_region p s r t allow = Ok v → require_region q s r t allow = Ok v.
Proof.
  intros E. unfold require_region. destruct (require_owned p s) as [w|] eqn:Ew; [|done].
  by rewrite (owned_mono p q s w E Ew).
Qed.

Lemma ordered_mono p q ns : extends p q → ordered p ns → ordered q ns.
Proof.
  intros E H pre id r inputs post Hn s Hs. destruct (H pre id r inputs post Hn s Hs) as (w & Hw & ?). exists w.
  split; [by eapply issued_mono | done].
Qed.

Lemma block_mono p q r ns : extends p q → block_ok p r ns → block_ok q r ns.
Proof.
  intros E (Hr & Hn & Ho). split_and!; [destruct E; lia | destruct E; lia | | by eapply ordered_mono].
  intros n Hin. destruct (Hn n Hin). split; [by eapply known_mono | done].
Qed.

Lemma result_mono p q v key allow :
  extends p q → check_result p v key allow = Ok tt → check_result q v key allow = Ok tt.
Proof.
  intros E. unfold check_result. destruct (sub_of v key) as [[[r ns] o]|]; [|done]. cbn.
  destruct (require_region p o r None allow) as [w|] eqn:R; [|done].
  by rewrite (require_region_mono p q _ _ _ _ _ E R).
Qed.

Lemma arm_mono p q v key : extends p q → check_arm p v key = Ok tt → check_arm q v key = Ok tt.
Proof.
  intros E. unfold check_arm. destruct (sub_of v key) as [[[r ns] o]|]; [|done]. cbn.
  destruct (require_owned p o) as [w|] eqn:W; [|done]. rewrite (owned_mono p q _ _ E W). cbn.
  destruct (require_region p o r None _) as [u|] eqn:R; [|done].
  by rewrite (require_region_mono p q _ _ _ _ _ E R).
Qed.

Lemma both_ok (a b : res unit) : (_ ← a; b) = Ok tt ↔ a = Ok tt ∧ b = Ok tt.
Proof. destruct a as [[]|]; cbn; naive_solver. Qed.

Lemma results_mono p q v :
  extends p q → v_op v ≠ "post_synchronization" → check_results p v = Ok tt → check_results q v = Ok tt.
Proof.
  intros E Ho%String.eqb_neq. unfold check_results. rewrite Ho. repeat case_match; try discriminate;
    rewrite ?both_ok; intuition eauto using result_mono, arm_mono.
Qed.

Lemma dt_mono p q : extends p q → p_dt_bound q = p_dt_bound p → dt_ok p → dt_ok q.
Proof.
  intros E Hd. unfold dt_ok. rewrite Hd. destruct (p_dt_bound p) as [[[r ns] out]|]; [|done].
  intros (Hb & w & Hw & Hr). split; [by eapply block_mono|]. exists w. split; [by eapply issued_mono | done].
Qed.

Lemma predicate_mono p q v : extends p q → check_predicate p v = Ok tt → check_predicate q v = Ok tt.
Proof.
  intros [[l El] _ _ _ _]. unfold check_predicate. destruct (v_schedule v) as [[[] ]|]; try done.
  destruct cond; try done. unfold predicate_value. rewrite El. clear.
  induction (p_issued p) as [|w ws IH]; cbn; [done|]. destruct (v_id w =? id); [done | exact IH].
Qed.

Lemma facts_mono steady p q v : extends p q → facts steady p v → facts steady q v.
Proof.
  intros E [H1 H2 H3 H4 H5 H6 HR H7 H8]. split; try done.
  - destruct E; lia.
  - destruct E; lia.
  - intros s Hs. destruct (H3 s Hs) as (w & ? & ? & ?). exists w.
    split_and!; [by eapply issued_mono | done | by eapply visible_mono].
  - intros key r ns out Hin. destruct (H4 key r ns out Hin). split; [by eapply block_mono | done].
  - intros Ho. eapply results_mono; [exact E | exact Ho | by apply H5].
  - by eapply predicate_mono.
  - intros Hs. destruct (H8 Hs) as [Hc Hy]. split; [done|]. intros Ho. destruct (Hy Ho) as (s & w & ? & ? & ?).
    exists s, w. split_and!; [done | by eapply issued_mono | done].
Qed.

(** ** Regions *)

Lemma signature_ids ns : map (fun x => x.1.1) (map signature ns) = map v_id ns.
Proof. rewrite map_map. done. Qed.

Lemma input_regions_ok p inputs r :
  validate_input_regions p inputs r = Ok tt ↔
  ∀ s, s ∈ inputs → ∃ w, p_issued p !! s = Some w ∧ region_visible p r (v_region w) = true.
Proof.
  induction inputs as [|s inputs IH]; cbn [validate_input_regions]; [split; [intros _ s Hs; by apply elem_of_nil in Hs | done]|].
  unfold require_owned. destruct (p_issued p !! s) as [w|] eqn:E; cbn.
  - unfold require. destruct (region_visible p r (v_region w)) eqn:V; cbn.
    + rewrite IH. split; intros H t Ht.
      * apply elem_of_cons in Ht as [->|Ht]; [by exists w | by apply H].
      * apply H. by right.
    + split; [done|]. intros H. destruct (H s) as (u & ? & ?); [left | congruence].
  - split; [done|]. intros H. destruct (H s) as (u & ? & _); [left | congruence].
Qed.

Lemma input_clocks_ok p inputs c sync :
  validate_input_clocks p inputs c sync = Ok tt →
  ∀ s, s ∈ inputs → ∃ w, p_issued p !! s = Some w ∧ (prepared_operator w = true ∨ v_clock w = c ∨ sync = true).
Proof.
  induction inputs as [|s inputs IH]; cbn; intros H t Ht; [by apply elem_of_nil in Ht|].
  unfold require_owned in H. destruct (p_issued p !! s) as [w|] eqn:E; [|discriminate H]. cbn in H. inv_ok.
  apply elem_of_cons in Ht as [->|Ht]; [|by apply IH]. exists w. split; [done|].
  match goal with B : _ || _ = true |- _ => rewrite !orb_true_iff, bool_decide_eq_true in B; tauto end.
Qed.

Lemma owned_ok p s v : require_owned p s = Ok v ↔ p_issued p !! s = Some v.
Proof. unfold require_owned. destruct (p_issued p !! s); naive_solver. Qed.

Section Steps.
Context (steady : bool).

Lemma walk_known pending p : invariant steady pending p → ∀ v, known p v → ∀ n, n ∈ walk v → known p n.
Proof.
  intros I v. induction v as [v IH] using node_induction. intros Hv n Hn. rewrite walk_eq in Hn.
  apply elem_of_cons in Hn as [->|Hn]; [done|]. unfold walk_all in Hn.
  apply list_elem_of_In, in_flat_map in Hn as (m & Hm & Hn). apply list_elem_of_In in Hm, Hn.
  rewrite Forall_forall in IH. apply (IH m Hm); [|done].
  apply list_elem_of_In, in_flat_map in Hm as ([k [[r ns] o]] & Hk & Hm). apply list_elem_of_In in Hk, Hm.
  destruct (i_issued _ _ _ I _ _ Hv) as [_ F]. destruct (f_subs _ _ _ F _ _ _ _ Hk) as [(_ & Hb & _) _].
  by apply Hb.
Qed.

Lemma listed_known pending p v :
  invariant steady pending p → v ∈ p_values p ++ recorded p ++ pending → known p v.
Proof.
  intros I. rewrite !elem_of_app. intros [H|[H|H]].
  - by apply (i_values _ _ _ I).
  - apply list_elem_of_In, in_flat_map in H as (f & Hf & H). apply list_elem_of_In in Hf, H.
    pose proof (i_frames _ _ _ I f Hf) as F. unfold frame_ok in F. destruct (fr_region f).
    + by apply F.
    + rewrite F in H. by apply elem_of_nil in H.
  - by apply (i_pending _ _ _ I).
Qed.

Lemma walk_ids pending p n :
  invariant steady pending p → n ∈ walk_all (p_values p ++ recorded p ++ pending) → v_id n < p_next_id p.
Proof.
  intros I Hn. apply list_elem_of_In, in_flat_map in Hn as (v & Hv & Hn). apply list_elem_of_In in Hv, Hn.
  pose proof (walk_known _ _ I v (listed_known _ _ _ I Hv) n Hn) as K.
  by apply (i_issued _ _ _ I) in K as [_ [? _ _ _ _ _ _ _]].
Qed.

(** Nodes of the lists with one id are one node. *)
Lemma listed_unique pending p v w :
  invariant steady pending p → v ∈ p_values p ++ recorded p ++ pending → w ∈ p_values p ++ recorded p ++ pending →
  v_id v = v_id w → v = w.
Proof.
  intros I Hv Hw E. pose proof (i_walk _ _ _ I) as N. revert N Hv Hw. generalize (p_values p ++ recorded p ++ pending).
  intros l N. induction l as [|u l IH]; intros Hv Hw; [by apply elem_of_nil in Hv|].
  assert (Hin : ∀ x, x ∈ l → v_id x ∈ map v_id (walk_all l)).
  { intros x Hx. apply list_elem_of_fmap. exists x. split; [done|]. apply list_elem_of_In, in_flat_map. exists x.
    split; [by apply list_elem_of_In|]. apply list_elem_of_In. rewrite walk_eq. left. }
  change (NoDup (map v_id (walk u ++ walk_all l))) in N. rewrite map_app in N. apply NoDup_app in N as (N1 & N2 & N3).
  assert (Hu : ∀ x, x ∈ l → v_id x = v_id u → False).
  { intros x Hx Ex. apply (N2 (v_id u)); [rewrite walk_eq; left | rewrite <- Ex; by apply Hin]. }
  apply elem_of_cons in Hv as [->|Hv]; apply elem_of_cons in Hw as [->|Hw]; try done.
  - by destruct (Hu w Hw).
  - by destruct (Hu v Hv).
  - by apply IH.
Qed.

Lemma facts_all p q :
  extends p q → p_issued q = p_issued p →
  (∀ s v, p_issued p !! s = Some v → v_obj v = s ∧ facts steady p v) →
  ∀ s v, p_issued q !! s = Some v → v_obj v = s ∧ facts steady q v.
Proof. intros E Ei H s v. rewrite Ei. intros Hs. destruct (H s v Hs). split; [done | by eapply facts_mono]. Qed.

Lemma frame_mono p q f : extends p q → p_issued q = p_issued p → frame_ok p f → frame_ok q f.
Proof.
  intros E Ei. unfold frame_ok. destruct (fr_region f); [|done]. intros [H1 H2]. rewrite Ei.
  split; [by eapply block_mono | done].
Qed.

(** The region of the innermost list exists once it is asked for. *)
Definition region_is (p : program) (r : nat) : Prop :=
  match p_recording p with [] => r = 0 | f :: _ => fr_region f = Some r end.

Lemma current_region_sound pending p r q :
  invariant steady pending p → current_region p = (r, q) →
  invariant steady pending q ∧ extends p q ∧ region_is q r ∧ r < p_next_region q
  ∧ p_issued q = p_issued p ∧ p_frozen q = p_frozen p ∧ p_clock q = p_clock p.
Proof.
  intros I H. unfold current_region in H. unfold region_is. destruct (p_recording p) as [|f fs] eqn:Er.
  { injection H as <- <-. rewrite Er. split_and!; auto using extends_refl. apply (i_next _ _ _ I). }
  destruct (fr_region f) as [r'|] eqn:Ef.
  { injection H as <- <-. rewrite Er. split_and!; auto using extends_refl.
    assert (Hf : frame_ok p f) by (apply (i_frames _ _ _ I); rewrite Er; left).
    unfold frame_ok in Hf. rewrite Ef in Hf. destruct Hf as [[? _] _]. lia. }
  injection H as <- <-. set (q := set_recording _ _).
  assert (E : extends p q).
  { split; cbn; [exists []; by rewrite app_nil_r | lia | lia | done|]. rewrite Er. constructor; [by left|].
    clear. induction fs; constructor; auto. }
  assert (Hn : fr_nodes f = []).
  { assert (Hf : frame_ok p f) by (apply (i_frames _ _ _ I); rewrite Er; left). unfold frame_ok in Hf. by rewrite Ef in Hf. }
  split_and!; try done; [|cbn; lia].
  destruct I as [I1 I2 I3 I4 I5 I6 I7 I8 I9 IR ID I10 I11].
  assert (Hb : ∀ s v, p_issued p !! s = Some v → v_region v < p_next_region p).
  { intros s v Hs. destruct (I1 s v Hs) as [_ [? ? ? ? ? ? ? ? ?]]. done. }
  split; cbn; try done.
  - by apply (facts_all p q).
  - intros g [->|Hg]%elem_of_cons.
    + unfold frame_ok. cbn. rewrite Hn. split.
      * split_and!; cbn; [lia | lia | by intros ? ?%elem_of_nil |]. intros pre ? ? ? ? Heq. by destruct pre.
      * intros s v Hs Hv. specialize (Hb s v Hs). lia.
    + apply (frame_mono p); [done | done |]. apply I5. rewrite Er. by right.
  - rewrite Er in I6. cbn in I6. rewrite Ef in I6. constructor; [|done].
    intros (g & Hg & Hgr)%list_elem_of_omap.
    assert (Hf : frame_ok p g) by (apply I5; rewrite Er; by right).
    unfold frame_ok in Hf. rewrite Hgr in Hf. destruct Hf as [[? _] _]. lia.
  - lia.
  - by apply (dt_mono p q).
  - unfold recorded in *. cbn. rewrite Er in I11. exact I11.
Qed.

Lemma not_recorded_region p r f fs :
  NoDup (omap fr_region (p_recording p)) → p_recording p = f :: fs → fr_region f = Some r →
  ∀ g, g ∈ fs → fr_region g ≠ Some r.
Proof.
  intros N E Ef g Hg Hr. rewrite E in N. cbn in N. rewrite Ef in N. apply NoDup_cons in N as [N _].
  apply N. apply list_elem_of_omap. by exists g.
Qed.

Lemma StronglySorted_snoc l x : StronglySorted lt l → (∀ y, y ∈ l → y < x) → StronglySorted lt (l ++ [x]).
Proof.
  induction 1 as [|y l Hl IH Hy]; intros Hx; cbn; [repeat constructor|]. constructor.
  - apply IH. intros z Hz. apply Hx. by right.
  - apply Forall_app. split; [done|]. constructor; [apply Hx; left | constructor].
Qed.

Lemma ordered_snoc p ns v :
  ordered p ns →
  (∀ s, s ∈ v_inputs v → ∃ w, p_issued p !! s = Some w ∧ (v_region w = v_region v → v_id w ∈ map v_id ns)) →
  ordered p (ns ++ [v]).
Proof.
  intros H Hv pre id r inputs post E s Hs. rewrite map_app in E. cbn in E.
  destruct post as [|x post _] using rev_ind.
  - apply app_inj_tail in E as [<- Es]. injection Es as <- <- <-. rewrite signature_ids. by apply Hv.
  - rewrite app_comm_cons, app_assoc in E. apply app_inj_tail in E as [E _]. by apply (H pre id r inputs post).
Qed.

Lemma frame_lookup f p r : frame_ok p f → fr_region f = Some r →
  block_ok p r (fr_nodes f) ∧ ∀ s v, p_issued p !! s = Some v → v_region v = r → v_id v ∈ map v_id (fr_nodes f).
Proof. intros H E. unfold frame_ok in H. by rewrite E in H. Qed.

Lemma in_ids v l : v ∈ l → v_id v ∈ map v_id l.
Proof. intros H. apply list_elem_of_fmap. by exists v. Qed.

(** The frames after a node joined the innermost one. *)
Lemma append_frames p q f fs v :
  (∀ g, g ∈ f :: fs → frame_ok p g) → NoDup (omap fr_region (f :: fs)) → extends p q →
  p_issued q = p_issued p ++ [v] → fr_region f = Some (v_region v) → facts steady q v → known q v →
  ∀ g, g ∈ Frame (fr_region f) (fr_nodes f ++ [v]) :: fs → frame_ok q g.
Proof.
  intros Hf Hd E Ei Er F K g [->|Hg]%elem_of_cons.
  - unfold frame_ok. cbn. rewrite Er.
    destruct (frame_lookup f p _ (Hf f (list_elem_of_here _ _)) Er) as [Hb Hn].
    assert (Hall : ∀ s w, p_issued q !! s = Some w → v_region w = v_region v → v_id w ≠ v_id v →
                     v_id w ∈ map v_id (fr_nodes f)).
    { intros s w. rewrite Ei. intros [Hs|[_ Hs]]%lookup_app_Some ? ?; [by apply (Hn s)|].
      apply list_lookup_singleton_Some in Hs as [_ <-]. done. }
    destruct (block_mono _ _ _ _ E Hb) as (H1 & H2 & H3). split.
    + split_and!; [lia | lia | |].
      * intros n [Hn'| ->%list_elem_of_singleton]%elem_of_app; [by apply H2 | done].
      * apply ordered_snoc; [done|]. intros s Hs. destruct (f_inputs _ _ _ F s Hs) as (w & Hw & Hlt & _).
        exists w. split; [done|]. intros Hreg. apply (Hall s w); [done | done | lia].
    + intros s w Hs Hreg. rewrite map_app. apply elem_of_app.
      destruct (decide (v_id w = v_id v)) as [->|Hne]; [right; left | left; by apply (Hall s)].
  - pose proof (Hf g (list_elem_of_further _ _ _ Hg)) as Hg'. unfold frame_ok in *.
    destruct (fr_region g) as [r|] eqn:Eg; [|done]. destruct Hg' as [Hb Hn]. split; [by eapply block_mono|].
    intros s w. rewrite Ei. intros [Hs|[_ Hs]]%lookup_app_Some Hreg; [by apply (Hn s)|].
    apply list_lookup_singleton_Some in Hs as [_ <-]. exfalso. cbn in Hd. rewrite Er in Hd.
    apply NoDup_cons in Hd as [Hd _]. apply Hd. apply list_elem_of_omap. exists g. split; [done | congruence].
Qed.

Lemma walk_all_perm l1 l2 : l1 ≡ₚ l2 → walk_all l1 ≡ₚ walk_all l2.
Proof. apply Permutation_flat_map. Qed.

Lemma walk_append pending l v l' :
  l' ≡ₚ v :: l ++ pending →
  walk_all l' ≡ₚ v :: walk_all (l ++ sub_nodes (v_subs v) ++ pending).
Proof.
  intros H. rewrite (walk_all_perm _ _ H). change (walk_all (v :: l ++ pending)) with (walk v ++ walk_all (l ++ pending)).
  rewrite walk_eq. cbn. constructor. rewrite !walk_all_app, !(assoc_L (++)). apply Permutation_app_tail.
  apply Permutation_app_comm.
Qed.

(** A program with one more object. *)
Record added (p q : program) (v : node) : Prop := Added {
  ad_obj : v_obj v = length (p_issued p);
  ad_issued : p_issued q = p_issued p ++ [v];
  ad_region : p_next_region q = p_next_region p;
  ad_imports : p_imports q = p_imports p }.

Lemma added_issued p q v s w :
  added p q v → p_issued q !! s = Some w → p_issued p !! s = Some w ∨ (s = v_obj v ∧ w = v).
Proof.
  intros [Ho Ei _ _]. rewrite Ei. intros [Hs|[Hle Hs]]%lookup_app_Some; [by left|].
  apply list_lookup_singleton_Some in Hs as [? <-]. right. split; [lia | done].
Qed.

Lemma added_self p q v : added p q v → p_issued q !! v_obj v = Some v.
Proof. intros [Ho Ei _ _]. rewrite Ei, Ho. by apply list_lookup_middle. Qed.

Lemma added_region p q v :
  one_region p → added p q v → (∀ s w, p_issued p !! s = Some w → v_id w = v_id v → v_region w = v_region v) →
  one_region q.
Proof.
  intros H A Hv s s' x y Hx Hy E.
  destruct (added_issued _ _ _ _ _ A Hx) as [Hx'|[_ ->]], (added_issued _ _ _ _ _ A Hy) as [Hy'|[_ ->]]; [..|done].
  - by apply (H s s').
  - by apply (Hv s).
  - symmetry. by apply (Hv s').
Qed.

(** The fields of the invariant that only see the objects. *)
Lemma added_kept pending p q v :
  invariant steady pending p → added p q v → extends p q → facts steady q v →
  (∀ s w, p_issued q !! s = Some w → v_obj w = s ∧ facts steady q w)
  ∧ (∀ w, known p w → known q w) ∧ 0 < p_next_region q ∧ (∀ d s, (d, s) ∈ p_imports q → d ≠ 0 ∧ s ≠ 0).
Proof.
  intros I A E Fv. split_and!.
  - intros s w Hs. destruct (added_issued _ _ _ _ _ A Hs) as [Hs'|[-> ->]]; [|done].
    destruct (i_issued _ _ _ I s w Hs'). split; [done | by eapply facts_mono].
  - intros w. by apply known_mono.
  - rewrite (ad_region _ _ _ A). apply (i_next _ _ _ I).
  - rewrite (ad_imports _ _ _ A). apply (i_imports _ _ _ I).
Qed.

Lemma append_top pending p q v :
  invariant steady (sub_nodes (v_subs v) ++ pending) p → added p q v → extends p q → facts steady q v →
  v_id v = p_next_id p → p_commits q = p_commits p → p_dt_bound q = p_dt_bound p →
  p_recording p = [] → p_recording q = [] → p_values q = p_values p ++ [v] → v_region v = 0 →
  invariant steady pending q.
Proof.
  intros I A E Fv Hid Ec Ed Er Qr Qv Hr. destruct (added_kept _ _ _ _ I A E Fv) as (Hfacts & Hknown & Hn & Him).
  assert (Hnew : v_id v ∉ map v_id (walk_all (p_values p ++ recorded p ++ sub_nodes (v_subs v) ++ pending))).
  { intros (n & En & Hin)%list_elem_of_fmap. apply (walk_ids _ _ _ I) in Hin. lia. }
  destruct I as [I1 I2 I3 I4 I5 I6 I7 I8 I9 IR ID I10 I11]. split; rewrite ?Qv, ?Qr; try done.
  - intros w [Hw| ->%list_elem_of_singleton]%elem_of_app; [|split; [by apply added_self with p | done]].
    destruct (I2 w Hw). auto.
  - rewrite map_app. apply StronglySorted_snoc; [done|]. intros y (w & -> & Hw)%list_elem_of_fmap.
    destruct (I2 w Hw) as [K _]. destruct (I1 _ _ K) as [_ F]. pose proof (f_id _ _ _ F). lia.
  - intros s w Hs Hw. rewrite map_app. apply elem_of_app.
    destruct (added_issued _ _ _ _ _ A Hs) as [Hs'|[-> ->]]; [left; by apply (I4 s) | right; left].
  - by intros g ?%elem_of_nil.
  - constructor.
  - rewrite Ec. intros k s Hk. destruct (I7 k s Hk) as (w & Hw & ?). exists w. split; [by eapply issued_mono | done].
  - apply (added_region p q v IR A). intros s w Hs Hi. destruct (I1 s w Hs) as [_ F]. pose proof (f_id _ _ _ F). lia.
  - by apply (dt_mono p q).
  - intros n Hin. apply Hknown, I10, elem_of_app. by right.
  - unfold recorded in *. rewrite Qr. rewrite Er in *. rewrite (walk_append pending (p_values p) v).
    + cbn. by constructor.
    + by rewrite <- app_assoc, Permutation_middle.
Qed.

Lemma append_recorded pending p q v f fs :
  invariant steady (sub_nodes (v_subs v) ++ pending) p → added p q v → extends p q → facts steady q v →
  v_id v = p_next_id p → p_commits q = p_commits p → p_dt_bound q = p_dt_bound p →
  p_recording p = f :: fs → fr_region f = Some (v_region v) →
  p_recording q = Frame (fr_region f) (fr_nodes f ++ [v]) :: fs → p_values q = p_values p →
  invariant steady pending q.
Proof.
  intros I A E Fv Hid Ec Ed Er Hr Qr Qv. destruct (added_kept _ _ _ _ I A E Fv) as (Hfacts & Hknown & Hn & Him).
  assert (Hnew : v_id v ∉ map v_id (walk_all (p_values p ++ recorded p ++ sub_nodes (v_subs v) ++ pending))).
  { intros (n & En & Hin)%list_elem_of_fmap. apply (walk_ids _ _ _ I) in Hin. lia. }
  destruct I as [I1 I2 I3 I4 I5 I6 I7 I8 I9 IR ID I10 I11]. rewrite Er in I5, I6.
  destruct (frame_lookup f p _ (I5 f (list_elem_of_here _ _)) Hr) as [[Hpos _] _].
  split; rewrite ?Qv; try done.
  - intros w Hw. destruct (I2 w Hw). auto.
  - intros s w Hs Hw. destruct (added_issued _ _ _ _ _ A Hs) as [Hs'|[-> ->]]; [by apply (I4 s) | lia].
  - rewrite Qr. apply (append_frames p q f fs v); try done; [apply (ad_issued _ _ _ A) | by apply added_self with p].
  - by rewrite Qr.
  - rewrite Ec. intros k s Hk. destruct (I7 k s Hk) as (w & Hw & ?). exists w. split; [by eapply issued_mono | done].
  - apply (added_region p q v IR A). intros s w Hs Hi. destruct (I1 s w Hs) as [_ F]. pose proof (f_id _ _ _ F). lia.
  - by apply (dt_mono p q).
  - intros n Hin. apply Hknown, I10, elem_of_app. by right.
  - unfold recorded in *. rewrite Qr. rewrite Er in *. cbn [flat_map fr_nodes] in *.
    rewrite (walk_append pending (p_values p ++ fr_nodes f ++ flat_map fr_nodes fs) v).
    + cbn. rewrite <- !app_assoc in *. by constructor.
    + rewrite <- !app_assoc. cbn. by rewrite !(assoc_L (++) _ _ (v :: _)), <- Permutation_middle, <- !app_assoc.
Qed.

(** Appending a node with fresh identities. *)
Lemma append_sound pending p v :
  invariant steady (sub_nodes (v_subs v) ++ pending) p → region_is p (v_region v) →
  v_obj v = length (p_issued p) → v_id v = p_next_id p →
  let q := append_node (set_next_id p (S (v_id v))) v in
  (extends p q → facts steady q v) →
  invariant steady pending q ∧ extends p q ∧ p_issued q !! v_obj v = Some v.
Proof.
  intros I Hr Ho Hid q Hf.
  assert (A : added p q v).
  { split; [done | unfold q, append_node; cbn; by destruct (p_recording p)..]. }
  assert (Ek : p_next_id q = S (p_next_id p) ∧ p_commits q = p_commits p ∧ p_dt_bound q = p_dt_bound p).
  { unfold q, append_node. cbn. rewrite Hid. by destruct (p_recording p). }
  destruct Ek as (Ek & Ec & Ed).
  assert (E : extends p q).
  { destruct A as [_ Ei Eg Em]. split; [by exists [v] | lia | lia | by rewrite Em |]. unfold q, append_node. cbn.
    destruct (p_recording p) as [|f fs]; cbn; [done|]. constructor; [by right|]. clear. induction fs; constructor; auto. }
  specialize (Hf E). split_and!; [|done | by apply added_self with p].
  unfold region_is in Hr. destruct (p_recording p) as [|f fs] eqn:Er.
  - apply (append_top pending p q v); try done; unfold q, append_node; cbn; by rewrite Er.
  - apply (append_recorded pending p q v f fs); try done; unfold q, append_node; cbn; by rewrite Er.
Qed.

(** ** Making a node *)

(** What a call owes for the node it asks for. *)
Record spec_ok (p : program) (op : string) (inputs : list nat) (a : spec) : Prop := SpecOk {
  so_blocks : ∀ key r ns out, (key, (r, ns, out)) ∈ s_subs a → block_ok p r ns;
  so_keys : ∀ v, v_op v = op → v_subs v = s_subs a →
    ∀ key open, (key, open) ∈ validated_keys v → is_Some (dget key (s_subs a));
  so_results : op ≠ "post_synchronization" → ∀ v, v_op v = op → v_inputs v = inputs → v_subs v = s_subs a →
    region_is p (v_region v) → check_results p v = Ok tt;
  so_spatial : op ≠ "solve_spatial_nonlinear";
  so_subcycle : steady = true → op = "subcycle" → ∃ at_ clock parent, s_point a = Some at_
    ∧ point_clock at_ = Ok clock ∧ s_parent a = Some parent ∧ parent ≠ clock ∧ (0 < s_count a)%Z;
  so_synchronize : steady = true → op = "synchronize" → ∃ at_ clock s w, s_point a = Some at_
    ∧ point_clock at_ = Ok clock ∧ inputs = [s] ∧ p_issued p !! s = Some w ∧ v_clock w ≠ clock }.

Lemma ordinary_ok p op inputs a : ordinary op a = Ok tt → spec_ok p op inputs a ∧ s_subs a = [].
Proof.
  unfold ordinary, require. destruct (bool_decide (op ∉ CONTROL_OPS)) eqn:Ho; [|done].
  destruct (s_subs a) as [|? ?] eqn:Hs; [|done]. intros _. apply bool_decide_eq_true in Ho. unfold CONTROL_OPS in Ho.
  assert (Hne : ∀ k, k ∈ CONTROL_OPS → String.eqb op k = false).
  { intros k Hk. destruct (String.eqb_spec op k) as [->|]; done. }
  assert (Hall : Forall (fun k => String.eqb op k = false) CONTROL_OPS) by (by apply Forall_forall).
  unfold CONTROL_OPS in Hall. rewrite !Forall_cons in Hall. destruct Hall as (E1 & E2 & E3 & E4 & E5 & E6 & E7 & E8 & _).
  split; [|done]. split; rewrite ?Hs.
  - by intros ? ? ? ? ?%elem_of_nil.
  - intros v Hop Hv key open. unfold validated_keys. rewrite Hop, E1, E2, E3, E4, E6, E7, E8, Hv. cbn.
    case_match; by intros ?%elem_of_nil.
  - intros _ v Hop _ Hv _. unfold check_results. rewrite Hop, E1, E2, E3, E4, E6, E7, E8, Hv. cbn. by case_match.
  - intros ->. set_solver.
  - intros _ ->. set_solver.
  - intros _ ->. set_solver.
Qed.

Lemma spec_ok_mono p q op inputs a :
  extends p q → (∀ r, region_is q r → region_is p r) → spec_ok p op inputs a → spec_ok q op inputs a.
Proof.
  intros E Hr [H1 H2 H3 HS H4 H5]. split; try done.
  - intros key r ns out Hin. eapply block_mono, H1; [done | exact Hin].
  - intros Ho v ? ? ? Hreg. eapply results_mono; [exact E | congruence |]. apply H3; try done. by apply Hr.
  - intros Hs Ho. destruct (H5 Hs Ho) as (at_ & c & s & w & ? & ? & ? & ? & ?).
    exists at_, c, s, w. split_and!; try done. by eapply issued_mono.
Qed.

Lemma owned_all p inputs values : map_res (require_owned p) inputs = Ok values →
  ∀ s, s ∈ inputs → ∃ w, p_issued p !! s = Some w ∧ w ∈ values.
Proof.
  intros H s [i Hi]%list_elem_of_lookup_1. destruct (map_res_lookup _ _ _ _ _ H Hi) as (w & Hw & Ho).
  unfold require_owned in Ho. destruct (p_issued p !! s) as [u|]; [|discriminate Ho]. injection Ho as ->.
  exists w. split; [done|]. by eapply list_elem_of_lookup_2.
Qed.

Lemma append_next p v : p_next_id (append_node p v) = p_next_id p.
Proof. unfold append_node. by destruct (p_recording p). Qed.

Lemma new_node_sound pending p vtype op inputs a q obj :
  invariant steady (sub_nodes (s_subs a) ++ pending) p →
  (∀ r p', current_region p = (r, p') → spec_ok p' op inputs a) →
  new_node p vtype op inputs a = Ok (q, obj) →
  invariant steady pending q ∧ extends p q ∧ ∃ v, p_issued q !! obj = Some v.
Proof.
  intros I Hspec H. unfold new_node in H. destruct (guard_mutable p); [|discriminate H]. cbn [mbind res_bind] in H.
  destruct (current_region p) as [region p1] eqn:Ec.
  destruct (current_region_sound _ p region p1 I Ec) as (I1 & E1 & Hr1 & Hlt & _). specialize (Hspec _ _ eq_refl).
  destruct (validate_input_regions p1 inputs region) as [[]|] eqn:Hregions; [|discriminate H]. cbn [mbind res_bind] in H.
  destruct (map_res (require_owned p1) inputs) as [values|] eqn:Hvalues; [|discriminate H]. cbn [mbind res_bind] in H.
  set (at_ := match s_point a, values with
              | Some at_, _ => at_ | None, v :: _ => v_point v | None, [] => time_point (p_clock p1) 0%Z end) in H.
  destruct (point_clock at_) as [clock|] eqn:Hclock; [|discriminate H]. cbn [mbind res_bind] in H.
  destruct (validate_input_clocks p1 inputs clock (String.eqb op "synchronize")) as [[]|]; [|discriminate H].
  cbn [mbind res_bind] in H. inv_ok.
  match goal with |- context [append_node _ ?v] => set (n := v) end.
  pose proof (proj1 (input_regions_ok _ _ _) Hregions) as Hin.
  assert (Hid : ∀ s w, p_issued p1 !! s = Some w → v_id w < p_next_id p1).
  { intros s w Hs. destruct (i_issued _ _ _ I1 s w Hs) as [_ [? ? ? ? ? ? ? ? ?]]. done. }
  destruct (append_sound pending p1 n I1 Hr1 eq_refl eq_refl) as (I2 & E2 & Hn).
  { intros E2. destruct Hspec as [S1 S2 S3 SS S4 S5]. split; cbn [n v_id v_region v_inputs v_subs v_op]; try done.
    - rewrite append_next. cbn. lia.
    - destruct E2 as [_ _ He _ _]. cbn [p_next_region set_next_id] in He. change (S (v_id n)) with (S (p_next_id p1)) in He. lia.
    - intros s Hs. destruct (Hin s Hs) as (w & Hw & Hv). exists w. split_and!; [by eapply issued_mono | by apply (Hid s) |].
      by eapply visible_mono.
    - intros key r ns out Hk. specialize (S1 _ _ _ _ Hk). split; [by eapply block_mono|].
      intros m Hm. destruct S1 as (_ & Hb & _). destruct (Hb m Hm) as [K _]. by apply (Hid _ _ K).
    - intros Ho. apply (results_mono p1); [done | done |]. by apply S3.
    - intros key open Hk. destruct (S2 n eq_refl eq_refl key open Hk) as [sub Hsub]. exists sub. unfold sub_of. cbn.
      by rewrite Hsub.
    - intros Hst. split; cbn.
      + intros ->. destruct (S4 Hst eq_refl) as (at' & c & parent & Ha & Hc & Hp & Hne & Hct). exists parent.
        unfold at_ in Hclock. rewrite Ha, Hc in Hclock. injection Hclock as <-. done.
      + intros ->. destruct (S5 Hst eq_refl) as (at' & c & s & w & Ha & Hc & Hi & Hw & Hne). exists s, w.
        unfold at_ in Hclock. rewrite Ha, Hc in Hclock. injection Hclock as <-.
        split_and!; [done | by eapply issued_mono | done]. }
  split_and!; [done | by eapply extends_trans | by exists n].
Qed.

(** ** Replacing a node in place *)

Lemma replace_in_spec l r l' : replace_in l r = Some l' →
  ∃ pre w post, l = pre ++ w :: post ∧ v_id w = v_id r ∧ l' = pre ++ r :: post.
Proof.
  revert l'. induction l as [|v l IH]; intros l' H; cbn in H; [discriminate H|].
  destruct (Nat.eqb_spec (v_id v) (v_id r)) as [E|E].
  - injection H as <-. by exists [], v, l.
  - destruct (replace_in l r) as [l1|]; [|discriminate H]. injection H as <-.
    destruct (IH l1 eq_refl) as (pre & w & post & -> & ? & ->). by exists (v :: pre), w, post.
Qed.

Lemma replace_recorded_spec fs r fs' : replace_recorded fs r = Some fs' →
  ∃ pre f post l, fs = pre ++ f :: post ∧ replace_in (fr_nodes f) r = Some l
    ∧ fs' = pre ++ Frame (fr_region f) l :: post.
Proof.
  revert fs'. induction fs as [|f fs IH]; intros fs' H; cbn in H; [discriminate H|].
  destruct (replace_in (fr_nodes f) r) as [l|] eqn:El.
  - injection H as <-. by exists [], f, fs, l.
  - destruct (replace_recorded fs r) as [fs1|]; [|discriminate H]. injection H as <-.
    destruct (IH fs1 eq_refl) as (pre & g & post & l & -> & ? & ->). by exists (f :: pre), g, post, l.
Qed.

Lemma find_id_Some id l v : find_id id l = Some v → v ∈ l ∧ v_id v = id.
Proof.
  unfold find_id. intros H. apply List.find_some in H as [H E]. apply Nat.eqb_eq in E.
  split; [|done]. apply in_rev in H. by apply list_elem_of_In.
Qed.

Lemma find_id_None id l : find_id id l = None → ∀ v, v ∈ l → v_id v ≠ id.
Proof.
  unfold find_id. intros H v Hv E. pose proof (List.find_none _ _ H v) as N. cbn in N.
  apply Nat.eqb_neq in N; [done|]. rewrite <- in_rev. by apply list_elem_of_In.
Qed.

Lemma find_recorded_Some id fs v : find_recorded id fs = Some v → v ∈ flat_map fr_nodes fs ∧ v_id v = id.
Proof.
  induction fs as [|f fs IH]; cbn; [done|]. destruct (find_id id (fr_nodes f)) as [w|] eqn:E.
  - intros [= ->]. apply find_id_Some in E as [? ?]. split; [apply elem_of_app; by left | done].
  - intros H. destruct (IH H). split; [apply elem_of_app; by right | done].
Qed.

Lemma find_recorded_None id fs : find_recorded id fs = None → ∀ v, v ∈ flat_map fr_nodes fs → v_id v ≠ id.
Proof.
  induction fs as [|f fs IH]; cbn; [intros _ v Hv; by apply elem_of_nil in Hv|].
  destruct (find_id id (fr_nodes f)) as [w|] eqn:E; [done|].
  intros H v [Hv|Hv]%elem_of_app; [by apply (find_id_None _ _ E) | by apply IH].
Qed.

(** The canonical record of an id is the one the lists hold. *)
Lemma canonical_listed pending p v w :
  invariant steady pending p → w ∈ p_values p ++ recorded p → v_id w = v_id v → canonical_value p v = w.
Proof.
  intros I Hw E. unfold canonical_value.
  assert (Hu : ∀ c, c ∈ p_values p ++ recorded p → v_id c = v_id v → c = w).
  { intros c Hc Ec. apply (listed_unique pending p); try done; try congruence;
      rewrite (assoc_L (++)); apply elem_of_app; by left. }
  destruct (find_recorded (v_id v) (p_recording p)) as [c|] eqn:Ef.
  { apply find_recorded_Some in Ef as [? ?]. apply Hu; [apply elem_of_app; by right | done]. }
  apply elem_of_app in Hw as [Hw|Hw].
  2:{ by destruct (find_recorded_None _ _ Ef w Hw). }
  destruct (find_id (v_id v) (p_values p)) as [c|] eqn:Ei; cbn.
  - apply find_id_Some in Ei as [? ?]. apply Hu; [apply elem_of_app; by left | done].
  - by destruct (find_id_None _ _ Ei w Hw).
Qed.

(** The fields a replacement keeps. *)
Definition same_shape (r w : node) : Prop :=
  v_id r = v_id w ∧ v_region r = v_region w ∧ v_inputs r = v_inputs w ∧ v_subs r = v_subs w ∧ v_op r = v_op w
  ∧ v_request r = v_request w.

Lemma results_shape p r w : same_shape r w → check_results p w = Ok tt → check_results p r = Ok tt.
Proof.
  intros (_ & H1 & H2 & H3 & H4 & _). unfold check_results, check_post_commits, check_result, check_arm, sub_of.
  by rewrite H1, H2, H3, H4.
Qed.

Lemma walk_replace pre post r w :
  same_shape r w → map v_id (walk_all (pre ++ r :: post)) = map v_id (walk_all (pre ++ w :: post)).
Proof.
  intros (H1 & _ & _ & H4 & _). rewrite !walk_all_app. change (walk_all (r :: post)) with (walk r ++ walk_all post).
  change (walk_all (w :: post)) with (walk w ++ walk_all post). rewrite !walk_eq, H4, !map_app. cbn. by rewrite H1.
Qed.

Lemma signature_replace pre post r w :
  same_shape r w → map signature (pre ++ r :: post) = map signature (pre ++ w :: post).
Proof. intros (H1 & H2 & H3 & _). rewrite !map_app. cbn. unfold signature at 2 4. by rewrite H1, H2, H3. Qed.

Lemma ids_replace pre post r w :
  same_shape r w → map v_id (pre ++ r :: post) = map v_id (pre ++ w :: post).
Proof. intros (H1 & _). rewrite !map_app. cbn. by rewrite H1. Qed.

Lemma block_replace p region pre post r w :
  same_shape r w → known p r → block_ok p region (pre ++ w :: post) → block_ok p region (pre ++ r :: post).
Proof.
  intros S K (H1 & H2 & H3). split_and!; [lia | lia | |].
  - intros n. rewrite elem_of_app, elem_of_cons. destruct S as (_ & S & _).
    intros [?|[->|?]]; [apply H2; set_solver | | apply H2; set_solver].
    split; [done|]. rewrite S. apply H2. set_solver.
  - unfold ordered in *. by rewrite (signature_replace pre post r w S).
Qed.

(** [r] takes the place of [w], in the flat list or in an open one. *)
Definition swapped (p q : program) (w r : node) : Prop :=
  (∃ pre post, p_values p = pre ++ w :: post ∧ p_values q = pre ++ r :: post ∧ p_recording q = p_recording p)
  ∨ (p_values q = p_values p ∧ ∃ fs f fs' pre post, p_recording p = fs ++ f :: fs' ∧ fr_nodes f = pre ++ w :: post
       ∧ p_recording q = fs ++ Frame (fr_region f) (pre ++ r :: post) :: fs').

Lemma swapped_listed p q w r : swapped p q w r → w ∈ p_values p ++ recorded p.
Proof.
  unfold recorded. intros [(pre & post & -> & _)|(_ & fs & f & fs' & pre & post & -> & Hf & _)]; [set_solver|].
  rewrite flat_map_app. cbn. rewrite Hf. set_solver.
Qed.

Lemma swapped_extends p q w r : swapped p q w r → added p q r → p_next_id q = p_next_id p → extends p q.
Proof.
  intros W [_ Ei Eg Em] Ek. split; [by exists [r] | lia | lia | by rewrite Em |].
  destruct W as [(? & ? & _ & _ & ->)|(_ & fs & f & fs' & pre & post & -> & _ & ->)].
  - clear. induction (p_recording p); constructor; auto.
  - apply Forall2_app; [clear; induction fs; constructor; auto|]. constructor; [by right|].
    clear. induction fs'; constructor; auto.
Qed.

Lemma swapped_ids p q w r : swapped p q w r → same_shape r w → map v_id (p_values q) = map v_id (p_values p).
Proof. intros [(pre & post & -> & -> & _)|[-> _]] S; [by apply ids_replace | done]. Qed.

Lemma swapped_walk p q w r pending : swapped p q w r → same_shape r w →
  map v_id (walk_all (p_values q ++ recorded q ++ pending)) = map v_id (walk_all (p_values p ++ recorded p ++ pending)).
Proof.
  intros W S. unfold recorded.
  destruct W as [(pre & post & -> & -> & ->)|(-> & fs & f & fs' & pre & post & -> & Hf & ->)].
  - rewrite <- !app_assoc. cbn. by apply walk_replace.
  - rewrite !flat_map_app. cbn. rewrite Hf, <- !app_assoc. cbn.
    rewrite !(assoc_L (++) (p_values p)), !(assoc_L (++) _ pre). by apply walk_replace.
Qed.

Lemma swapped_facts p q w r :
  extends p q → facts steady p w → same_shape r w → check_predicate p r = Ok tt → (steady = true → clock_facts p r) →
  facts steady q r.
Proof.
  intros E Fw S Hpred Hclk. pose proof S as (S1 & S2 & S3 & S4 & S5 & S6).
  destruct (facts_mono _ _ _ _ E Fw) as [F1 F2 F3 F4 F5 F6 FR F7 F8].
  split; rewrite ?S1, ?S2, ?S3, ?S4, ?S5, ?S6; try done.
  - intros Ho. apply (results_shape q r w); [done | by apply F5].
  - intros key open Hk. unfold validated_keys in Hk. rewrite S4, S5 in Hk. destruct (F6 key open Hk) as [sub Hs].
    exists sub. unfold sub_of in *. by rewrite S4.
  - by eapply predicate_mono.
  - intros Hs. destruct (Hclk Hs) as [Hc Hy]. split; [done|]. intros Hop. destruct (Hy Hop) as (s & u & ? & ? & ?).
    exists s, u. split_and!; [done | by eapply issued_mono | done].
Qed.

Lemma swapped_frames p q w r :
  swapped p q w r → added p q r → extends p q → same_shape r w → known p w →
  (∀ f, f ∈ p_recording p → frame_ok p f) → ∀ f, f ∈ p_recording q → frame_ok q f.
Proof.
  intros W A E S Kw H.
  assert (Hframe : ∀ g, frame_ok p g → frame_ok q g).
  { intros g Hg. unfold frame_ok in *. destruct (fr_region g) as [rg|]; [|done]. destruct Hg as [Hb Hn].
    split; [by eapply block_mono|]. intros s u Hs Hu.
    destruct (added_issued _ _ _ _ _ A Hs) as [Hs'|[_ ->]]; [by apply (Hn s)|].
    destruct S as (S1 & S2 & _). rewrite S1. apply (Hn _ _ Kw). congruence. }
  intros g Hg. destruct W as [(pre & post & _ & _ & Hq)|(_ & fs & f & fs' & pre & post & Hp & Hf & Hq)].
  { apply Hframe, H. by rewrite <- Hq. }
  rewrite Hq, elem_of_app, elem_of_cons in Hg.
  destruct Hg as [Hg|[->|Hg]]; [apply Hframe, H; rewrite Hp; set_solver | | apply Hframe, H; rewrite Hp; set_solver].
  assert (Hok : frame_ok q f) by (apply Hframe, H; rewrite Hp; set_solver).
  unfold frame_ok in *. cbn. destruct (fr_region f) as [rg|]; [|rewrite Hf in Hok; by destruct pre].
  destruct Hok as [Hb Hn]. rewrite Hf in *.
  split; [apply (block_replace q rg pre post r w); [done | by apply added_self with p | done]|].
  intros s u Hs Hu. rewrite (ids_replace pre post r w) by done. by apply (Hn s).
Qed.

(** The time-step bound follows a replacement. *)
Lemma dt_followed p q r w :
  extends p q → one_region p → dt_ok p → known p w → known q r → v_id r = v_id w → v_region r = v_region w →
  p_dt_bound q = followed_bound p r → dt_ok q.
Proof.
  intros E U D Kw Kr Hid Hr Hq. unfold dt_ok in *. rewrite Hq. unfold followed_bound.
  destruct (p_dt_bound p) as [[[region ns] out]|]; [|done]. cbn. destruct D as (Hb & u & Hu & Hreg).
  split; [by eapply block_mono|]. rewrite Hu. destruct (Nat.eqb_spec (v_id u) (v_id r)) as [Hi|].
  - exists r. split; [done|]. rewrite Hr, <- Hreg. symmetry. apply (U _ _ _ _ Hu Kw). congruence.
  - exists u. split; [by eapply issued_mono | done].
Qed.

(** What replacing [w] by [r] keeps, whichever list held [w]. *)
Lemma replaced_sound pending p q r w :
  invariant steady pending p → swapped p q w r → same_shape r w → added p q r → p_next_id q = p_next_id p →
  (∀ k s, (k, s) ∈ p_commits q → (k, s) ∈ p_commits p
     ∨ (s = v_obj r ∧ ∃ s' w', (k, s') ∈ p_commits p ∧ p_issued p !! s' = Some w' ∧ v_id w' = v_id r)) →
  p_dt_bound q = followed_bound p r →
  check_predicate p r = Ok tt → (steady = true → clock_facts p r) →
  invariant steady pending q ∧ extends p q ∧ p_issued q !! v_obj r = Some r.
Proof.
  intros I W S A Ek Hcom Hbound Hpred Hclk. pose proof (swapped_extends _ _ _ _ W A Ek) as E.
  pose proof (swapped_listed _ _ _ _ W) as Hw.
  assert (Kw : known p w).
  { apply (listed_known pending p w I). rewrite (assoc_L (++)). apply elem_of_app. by left. }
  destruct (i_issued _ _ _ I _ _ Kw) as [_ Fw]. pose proof (swapped_facts _ _ _ _ E Fw S Hpred Hclk) as Fr.
  destruct (added_kept _ _ _ _ I A E Fr) as (Hfacts & Hknown & Hn & Him).
  pose proof (added_self _ _ _ A) as Hr. split_and!; try done.
  pose proof (fun x y => listed_unique pending p x y I) as Huniq. destruct I as [I1 I2 I3 I4 I5 I6 I7 I8 I9 IR ID I10 I11].
  split; rewrite ?(swapped_ids _ _ _ _ W S); try done.
  - intros u Hu. destruct W as [(pre & post & Hv & Hq & _)|[Hq _]]; rewrite Hq in Hu; [|destruct (I2 u Hu); auto].
    assert (Hor : u = r ∨ u ∈ p_values p) by (rewrite Hv; set_solver). destruct Hor as [->|Hup]; [|destruct (I2 u Hup); auto].
    split; [done|]. destruct S as (_ & -> & _). apply (I2 w). rewrite Hv. set_solver.
  - intros s u Hs Hu. destruct (added_issued _ _ _ _ _ A Hs) as [Hs'|[-> ->]]; [by apply (I4 s)|].
    destruct S as (-> & S2 & _). apply (I4 _ _ Kw). congruence.
  - by apply (swapped_frames p q w r).
  - destruct W as [(pre & post & _ & _ & ->)|(_ & fs & f & fs' & pre & post & Hp & Hf & ->)]; [done|].
    rewrite Hp in I6. rewrite omap_app in *. exact I6.
  - intros k s Hk. destruct (Hcom k s Hk) as [Hk'|(-> & s' & w' & Hk' & Hw' & Hid')].
    { destruct (I7 k s Hk') as (u & Hu & ?). exists u. split; [by eapply issued_mono | done]. }
    exists r. split; [done|]. destruct (I7 k s' Hk') as (u & Hu & Hu0). rewrite Hw' in Hu. injection Hu as <-.
    pose proof (I4 _ _ Hw' Hu0) as Hin. apply list_elem_of_fmap in Hin as (x & Hx & Hxin).
    assert (x = w) as -> by (apply (Huniq x w); [set_solver | set_solver | destruct S; congruence]).
    destruct S as (_ & -> & _). by apply I2.
  - apply (added_region p q r IR A). intros s u Hs Hu. destruct S as (S1 & S2 & _). rewrite S2.
    apply (IR _ _ _ _ Hs Kw). congruence.
  - destruct S as (S1 & S2 & _). by apply (dt_followed p q r w).
  - intros n Hin. by apply Hknown, I10.
  - by rewrite (swapped_walk _ _ _ _ pending W S).
Qed.

(** What [_replace_value] does to the lists. *)
Lemma changed_shape p v c r : changed p v c = Ok r →
  same_shape r v ∧ v_obj r = length (p_issued p) ∧ (c_point c = None → v_clock r = v_clock v)
  ∧ v_parent r = v_parent v ∧ v_count r = v_count v
  ∧ v_schedule r = match c_schedule c with Some x => Some x | None => v_schedule v end.
Proof.
  unfold changed. intros Er. destruct (c_point c); [destruct (point_clock _); [|discriminate Er]|];
    injection Er as <-; repeat split; done.
Qed.

Lemma canonical_value_id p v : v_id (canonical_value p v) = v_id v.
Proof.
  unfold canonical_value. destruct (find_recorded _ _) as [u|] eqn:Ef; [by apply find_recorded_Some in Ef as [_ ?]|].
  destruct (find_id _ _) as [u|] eqn:Ei; [by apply find_id_Some in Ei as [_ ?] | done].
Qed.

Lemma replace_value_swaps p s c q obj : replace_value p s c = Ok (q, obj) →
  ∃ v r w, p_issued p !! s = Some v ∧ changed p (canonical_value p v) c = Ok r ∧ v_obj r = obj
    ∧ swapped p q w r ∧ v_id w = v_id r ∧ added p q r ∧ p_next_id q = p_next_id p
    ∧ p_commits q = followed p r (p_commits p) ∧ p_dt_bound q = followed_bound p r.
Proof.
  unfold replace_value. intros H. inv_ok.
  match goal with O : require_owned _ _ = Ok _ |- _ => apply owned_ok in O; rename O into Ev end.
  match goal with C : changed _ _ _ = Ok ?r |- _ => rename C into Er; pose proof (changed_shape _ _ _ _ Er) as (_ & Ho & _) end.
  destruct (replace_recorded _ _) as [fs'|] eqn:Ef.
  - injection H as <- <-. apply replace_recorded_spec in Ef as (pre & f & post & l & Hp & Hl & ->).
    apply replace_in_spec in Hl as (pre' & w & post' & Hf & Hw & ->). eexists _, _, w. split_and!; try done.
    right. split; [done|]. by exists pre, f, post, pre', post'.
  - destruct (replace_in _ _) as [l|] eqn:El; [|discriminate H]. injection H as <- <-.
    apply replace_in_spec in El as (pre' & w & post' & Hf & Hw & ->). eexists _, _, w. split_and!; try done.
    left. by exists pre', post'.
Qed.

Lemma replace_sound pending p s c q obj :
  invariant steady pending p → replace_value p s c = Ok (q, obj) →
  (∀ sched v, c_schedule c = Some sched → v_schedule v = Some sched → check_predicate p v = Ok tt) →
  (steady = true → c_point c = None) →
  invariant steady pending q ∧ extends p q ∧ ∃ v, p_issued q !! obj = Some v.
Proof.
  intros I H Hsched Hpoint.
  destruct (replace_value_swaps _ _ _ _ _ H) as (v & r & w & Ev & Er & <- & W & Hwid & A & Ek & Ec & Ed).
  destruct (changed_shape _ _ _ _ Er) as (S & _ & Hclock & Hparent & Hcount & Hschedule).
  pose proof (swapped_listed _ _ _ _ W) as Hw.
  assert (Hcan : canonical_value p v = w).
  { apply (canonical_listed pending p v w I Hw). destruct S as (S1 & _). pose proof (canonical_value_id p v). congruence. }
  rewrite Hcan in *. destruct (i_issued _ _ _ I (v_obj w) w) as [_ Fw].
  { apply (listed_known pending p w I). rewrite (assoc_L (++)). apply elem_of_app. by left. }
  destruct (replaced_sound pending p q r w I W S A Ek) as (I' & E' & Hr).
  - rewrite Ec. intros k s0 ([k' s'] & Hk & Hin)%list_elem_of_fmap. cbn in Hk.
    destruct (p_issued p !! s') as [w'|] eqn:Ew'; [|injection Hk as -> ->; by left].
    destruct (Nat.eqb_spec (v_id w') (v_id r)) as [Hid'|]; injection Hk as -> ->; [|by left].
    right. split; [done|]. by exists s', w'.
  - exact Ed.
  - destruct (c_schedule c) as [sched|] eqn:Es; [by apply (Hsched sched)|].
    pose proof (f_predicate _ _ _ Fw) as Fp. unfold check_predicate in *. by rewrite Hschedule.
  - intros Hs. specialize (Hclock (Hpoint Hs)). destruct (f_clock _ _ _ Fw Hs) as [Hc Hy]. unfold clock_facts.
    destruct S as (_ & _ & S3 & _ & -> & _). by rewrite Hparent, Hclock, Hcount, S3.
  - split_and!; try done. by exists r.
Qed.

(** ** Bookkeeping that makes no node *)

Lemma inv_grow pending p q :
  invariant steady pending p → p_issued q = p_issued p → p_values q = p_values p → p_recording q = p_recording p →
  p_next_id q = p_next_id p → p_next_region p <= p_next_region q →
  (∀ x, x ∈ p_imports p → x ∈ p_imports q) → (∀ d s, (d, s) ∈ p_imports q → d ≠ 0 ∧ s ≠ 0) →
  (∀ k s, (k, s) ∈ p_commits q → ∃ v, p_issued p !! s = Some v ∧ v_region v = 0) →
  p_dt_bound q = p_dt_bound p ∨ dt_ok q →
  invariant steady pending q ∧ extends p q.
Proof.
  intros I Ei Ev Er Ek Eg Em Hd Hc Ht.
  assert (E : extends p q).
  { split; [exists []; by rewrite Ei, app_nil_r | lia | lia | done |]. rewrite Er. clear.
    induction (p_recording p); constructor; auto. }
  split; [|done]. destruct I as [I1 I2 I3 I4 I5 I6 I7 I8 I9 IR ID I10 I11].
  split; rewrite ?Ei, ?Ev, ?Er; try done.
  - rewrite <- Ei. by apply (facts_all p q).
  - intros v Hv. destruct (I2 v Hv). split; [by eapply known_mono | done].
  - intros f Hf. apply (frame_mono p); [done | done |]. by apply I5.
  - lia.
  - intros s s'. rewrite Ei. apply IR.
  - destruct Ht as [Ht|?]; [by apply (dt_mono p q) | done].
  - intros n Hn. apply (known_mono _ _ _ E). by apply I10.
  - unfold recorded. by rewrite Er.
Qed.

(** A callback keeps the invariant. *)
Definition sound (fn : callback) : Prop :=
  ∀ pending p q out, invariant steady pending p → fn p = Ok (q, out) → invariant steady pending q ∧ extends p q.

(** Opening a list: with the next region, or with none yet. *)
Lemma push_sound pending p q token :
  invariant steady pending p → p_issued q = p_issued p → p_values q = p_values p → p_next_id q = p_next_id p →
  (token = None ∧ p_next_region q = p_next_region p ∨ token = Some (p_next_region p) ∧ p_next_region q = S (p_next_region p)) →
  (∀ x, x ∈ p_imports p → x ∈ p_imports q) → (∀ d s, (d, s) ∈ p_imports q → d ≠ 0 ∧ s ≠ 0) →
  p_commits q = p_commits p → p_dt_bound q = p_dt_bound p → p_recording q = Frame token [] :: p_recording p →
  invariant steady pending q.
Proof.
  intros I Ei Ev Ek Ht Em Hd Hc Edt Er.
  destruct (inv_grow pending p (set_recording q (p_recording p)) I) as [[I1 I2 I3 I4 I5 I6 I7 I8 I9 IR ID I10 I11] _]; cbn; try done.
  { destruct Ht as [[_ ?]|[_ ?]]; lia. }
  { rewrite Hc. apply (i_commits _ _ _ I). }
  { by left. }
  cbn in *. split; try done.
  - intros s v Hs. destruct (I1 s v Hs) as [? []]. split; [done|]. by split.
  - intros f Hf. rewrite Er in Hf. apply elem_of_cons in Hf as [->|Hf]; [|exact (I5 f Hf)].
    unfold frame_ok. cbn. destruct Ht as [[-> _]|[-> Hn]]; [done|]. split.
    + split_and!; [apply (i_next _ _ _ I) | lia | by intros ? ?%elem_of_nil |].
      intros pre ? ? ? ? Heq. by destruct pre.
    + intros s v Hs Hv. rewrite Ei in Hs. destruct (i_issued _ _ _ I s v Hs) as [_ F].
      pose proof (f_region _ _ _ F). lia.
  - rewrite Er. cbn. destruct Ht as [[-> _]|[-> _]]; [done|]. constructor; [|done].
    intros (g & Hg & Hgr)%list_elem_of_omap. pose proof (i_frames _ _ _ I g Hg) as F. unfold frame_ok in F.
    rewrite Hgr in F. destruct F as [[? _] _]. lia.
  - unfold recorded in *. rewrite Er. exact I11.
Qed.

(** Closing the innermost list leaves its nodes pending. *)
Lemma pop_sound pending p f fs :
  invariant steady pending p → p_recording p = f :: fs →
  invariant steady (fr_nodes f ++ pending) (set_recording p fs).
Proof.
  intros I Er. pose proof (fun n => listed_known pending p n I) as Hk.
  destruct I as [I1 I2 I3 I4 I5 I6 I7 I8 I9 IR ID I10 I11]. split; cbn; try done.
  - intros s v Hs. destruct (I1 s v Hs) as [? []]. split; [done|]. by split.
  - intros g Hg. apply I5. rewrite Er. by right.
  - rewrite Er in I6. cbn in I6. destruct (fr_region f); [by apply NoDup_cons in I6 as [_ ?] | done].
  - intros n [Hn|Hn]%elem_of_app; [|by apply I10]. apply Hk. unfold recorded. rewrite Er. set_solver.
  - unfold recorded in *. cbn. rewrite Er in I11. cbn in I11. rewrite <- !app_assoc in I11.
    assert (P : p_values p ++ fr_nodes f ++ flat_map fr_nodes fs ++ pending
                ≡ₚ p_values p ++ flat_map fr_nodes fs ++ fr_nodes f ++ pending).
    { apply Permutation_app_head, Permutation_app_swap_app. }
    apply walk_all_perm, (fmap_Permutation v_id), NoDup_Permutation_proper in P. by apply P in I11.
Qed.

Lemma inv_pending l1 l2 p : l1 ≡ₚ l2 → invariant steady l1 p → invariant steady l2 p.
Proof.
  intros P [I1 I2 I3 I4 I5 I6 I7 I8 I9 IR ID I10 I11]. split; try done.
  - intros n Hn. apply I10. by rewrite P.
  - assert (Q : p_values p ++ recorded p ++ l1 ≡ₚ p_values p ++ recorded p ++ l2) by (by rewrite P).
    apply walk_all_perm, (fmap_Permutation v_id), NoDup_Permutation_proper in Q. by apply Q in I11.
Qed.

Lemma imports_ok pending p (x : node) d :
  invariant steady pending p → d ≠ 0 → v_region x ≠ 0 →
  ∀ d' s, (d', s) ∈ (d, v_region x) :: p_imports p → d' ≠ 0 ∧ s ≠ 0.
Proof. intros I Hd Hx d' s [[= -> ->]|H]%elem_of_cons; [done | by apply (i_imports _ _ _ I d' s)]. Qed.

(** ** Bodies *)

(** After the callback of an opened list, the list is closed. *)
Lemma closed_body pending p p1 q f fs token :
  invariant steady pending q → extends p1 q → p_recording p1 = Frame token [] :: p_recording p →
  p_issued p1 = p_issued p → p_next_id p1 = p_next_id p → p_next_region p <= p_next_region p1 →
  (∀ x, x ∈ p_imports p → x ∈ p_imports p1) → p_recording q = f :: fs →
  invariant steady (fr_nodes f ++ pending) (set_recording q fs) ∧ extends p (set_recording q fs)
  ∧ (token = None ∨ fr_region f = token)
  ∧ match fr_region f with Some r => block_ok q r (fr_nodes f) | None => fr_nodes f = [] end.
Proof.
  intros I [[l El] Ek Eg Em Er] Hr1 Ei1 Ek1 Eg1 Em1 Hr. rewrite Hr1, Hr in Er. apply Forall2_cons in Er as [Hf Hfs].
  split_and!.
  - by apply pop_sound.
  - split; cbn; [exists l; by rewrite El, Ei1 | lia | lia | auto | done].
  - destruct Hf as [Hf|Hf]; [by left | by right].
  - assert (F : frame_ok q f) by (apply (i_frames _ _ _ I); rewrite Hr; left).
    unfold frame_ok in F. destruct (fr_region f); [by destruct F | done].
Qed.

Lemma record_sound pending p x fn q r ns out :
  invariant steady pending p → sound fn → record p x fn = Ok (q, (r, ns, out)) →
  invariant steady (ns ++ pending) q ∧ extends p q ∧ block_ok q r ns.
Proof.
  intros I Hfn H. unfold record in H. set (p1 := if _ : bool then _ else _) in H.
  destruct (fn (set_recording p1 (Frame (Some (p_next_region p)) [] :: p_recording p1))) as [[p3 o]|] eqn:Ef;
    [|discriminate H].
  cbn [mbind res_bind] in H. pose proof (i_next _ _ _ I) as Hn.
  assert (Hp1 : p_issued p1 = p_issued p ∧ p_values p1 = p_values p ∧ p_next_id p1 = p_next_id p
    ∧ p_next_region p1 = S (p_next_region p) ∧ (∀ y, y ∈ p_imports p → y ∈ p_imports p1)
    ∧ (∀ d s, (d, s) ∈ p_imports p1 → d ≠ 0 ∧ s ≠ 0) ∧ p_commits p1 = p_commits p ∧ p_recording p1 = p_recording p
    ∧ p_dt_bound p1 = p_dt_bound p).
  { unfold p1. destruct (_ || _) eqn:Ex; cbn; split_and!; try done.
    - apply (i_imports _ _ _ I).
    - intros y Hy. by right.
    - apply orb_false_iff in Ex as [Ex _]. apply Nat.eqb_neq in Ex. apply (imports_ok pending p); [done | lia | done]. }
  destruct Hp1 as (A1 & A2 & A3 & A4 & A5 & A6 & A7 & A8 & A9).
  assert (I2 : invariant steady pending (set_recording p1 (Frame (Some (p_next_region p)) [] :: p_recording p1))).
  { apply (push_sound pending p _ (Some (p_next_region p))); cbn; try done; [by right | by rewrite A8]. }
  destruct (Hfn _ _ _ _ I2 Ef) as [I3 E3].
  destruct (p_recording p3) as [|f fs] eqn:Er; [discriminate H|]. injection H as <- <- <- <-.
  destruct (closed_body pending p _ p3 f fs (Some (p_next_region p)) I3 E3) as (I4 & E4 & Ht & Hb); cbn; try done;
    [by rewrite A8 | lia |].
  split_and!; try done. destruct Ht as [Ht|Ht]; [done|]. rewrite Ht in Hb. exact Hb.
Qed.

Lemma arm_sound pending p fn q token ns out :
  invariant steady pending p → sound fn → record_branch_arm p fn = Ok (q, (token, ns, out)) →
  invariant steady (ns ++ pending) q ∧ extends p q
  ∧ match token with Some r => block_ok q r ns | None => ns = [] end.
Proof.
  intros I Hfn H. unfold record_branch_arm in H.
  destruct (fn (set_recording p (Frame None [] :: p_recording p))) as [[p3 o]|] eqn:Ef; [|discriminate H].
  cbn [mbind res_bind] in H.
  assert (I2 : invariant steady pending (set_recording p (Frame None [] :: p_recording p))).
  { apply (push_sound pending p _ None); cbn; try done; [by left | apply (i_imports _ _ _ I)]. }
  destruct (Hfn _ _ _ _ I2 Ef) as [I3 E3].
  destruct (p_recording p3) as [|f fs] eqn:Er; [discriminate H|]. injection H as <- <- <- <-.
  destruct (closed_body pending p _ p3 f fs None I3 E3) as (I4 & E4 & _ & Hb); cbn; try done.
Qed.

(** The region of a closed arm. *)
Lemma region_for_block_sound pending p token ns r q :
  invariant steady pending p → match token with Some r => block_ok p r ns | None => ns = [] end →
  region_for_block p token = (r, q) →
  invariant steady pending q ∧ extends p q ∧ block_ok q r ns.
Proof.
  intros I Hb H. unfold region_for_block in H. destruct token as [r'|]; injection H as <- <-.
  { split_and!; [done | apply extends_refl | done..]. }
  pose proof (i_next _ _ _ I). subst ns.
  destruct (inv_grow pending p (set_region p (S (p_next_region p)) (p_imports p)) I) as [I' E']; cbn; try done;
    [lia | | | by left |].
  - apply (i_imports _ _ _ I).
  - apply (i_commits _ _ _ I).
  - split_and!; [done | done |]. split_and!; cbn; [lia | lia | by intros ? ?%elem_of_nil |].
    intros pre ? ? ? ? Heq. by destruct pre.
Qed.

Lemma capture_sound pending p source destination :
  invariant steady pending p → destination ≠ 0 → source ≠ 0 →
  invariant steady pending (allow_region_capture p source destination)
  ∧ extends p (allow_region_capture p source destination).
Proof.
  intros I Hd Hs. apply inv_grow; cbn; try done; [intros x Hx; by right | | apply (i_commits _ _ _ I) | by left].
  intros d s [[= -> ->]|H]%elem_of_cons; [done | by apply (i_imports _ _ _ I d s)].
Qed.

(** ** Operations *)

Lemma make_sound pending p vtype op inputs a q obj :
  invariant steady (sub_nodes (s_subs a) ++ pending) p →
  (∀ p', extends p p' → spec_ok p' op inputs a) →
  new_node p vtype op inputs a = Ok (q, obj) →
  invariant steady pending q ∧ extends p q ∧ ∃ v, p_issued q !! obj = Some v.
Proof.
  intros I Hspec. apply new_node_sound; [done|]. intros r p' H. apply Hspec.
  by destruct (current_region_sound _ _ _ _ I H) as (_ & ? & _).
Qed.

Lemma ordinary_sound pending p vtype op inputs a q obj :
  invariant steady pending p → ordinary op a = Ok tt → new_node p vtype op inputs a = Ok (q, obj) →
  invariant steady pending q ∧ extends p q ∧ ∃ v, p_issued q !! obj = Some v.
Proof.
  intros I Ho. destruct (ordinary_ok p op inputs a Ho) as [_ Hs]. apply make_sound; [by rewrite Hs|].
  intros p' _. by apply ordinary_ok.
Qed.

Lemma region_untyped p s r t allow v : require_region p s r t allow = Ok v → require_region p s r None allow = Ok v.
Proof.
  unfold require_region. destruct (require_owned p s) as [w|]; [|done]. cbn.
  destruct t; [|done]. destruct (require_vtype w _) as [[]|]; [|done]. done.
Qed.

Lemma check_result_ok p v key allow region ns out w :
  dget key (v_subs v) = Some (region, ns, out) → require_region p out region None allow = Ok w →
  check_result p v key allow = Ok tt.
Proof. intros H R. unfold check_result, sub_of. rewrite H. cbn. by rewrite R. Qed.

Lemma loop_result_ok p x region out y :
  loop_result p x region out = Ok y → require_region p out region None [v_obj x] = Ok y.
Proof.
  unfold loop_result. intros H. inv_ok.
  match goal with R : require_region _ _ _ _ _ = Ok ?w, O : require_owned _ _ = Ok ?y |- _ =>
    apply region_untyped in R; unfold require_region in R |- *; rewrite O in R |- *; cbn in R |- * end.
  inv_ok. done.
Qed.

(** A loop over [x] with one closed body. *)
Lemma loop_spec_ok p p' x s region ns out y name count :
  extends p p' → p_issued p !! s = Some x → v_obj x = s → block_ok p region ns →
  loop_result p x region out = Ok y →
  spec_ok p' "range" [s] (control_spec x name count [("body_block", (region, ns, out))]).
Proof.
  intros E Hx Ho Hb Hl. apply loop_result_ok in Hl. rewrite Ho in Hl.
  split; cbn [s_subs control_spec]; try done.
  - intros key r ns' out' [= -> -> -> ->]%list_elem_of_singleton. by eapply block_mono.
  - intros v Hop _ key open. unfold validated_keys. rewrite Hop. cbn. intros [= -> ->]%list_elem_of_singleton. by eexists.
  - intros _ v Hop Hi Hs _. unfold check_results. rewrite Hop. cbn. rewrite Hi.
    eapply check_result_ok; [rewrite Hs; reflexivity | by eapply require_region_mono].
Qed.

Lemma lookup_obj pending p s v : invariant steady pending p → p_issued p !! s = Some v → v_obj v = s.
Proof. intros I H. by destruct (i_issued _ _ _ I _ _ H). Qed.

Lemma top_level_ok p s v : require_top_level p s = Ok v → p_issued p !! s = Some v ∧ v_region v = 0.
Proof. unfold require_top_level. intros H. inv_ok. bools. by rewrite owned_ok in *. Qed.

(** A result of [make_sound] after what came before. *)
Lemma after pending p q r obj :
  extends p q → (invariant steady pending r ∧ extends q r ∧ ∃ v, p_issued r !! obj = Some v) →
  invariant steady pending r ∧ extends p r.
Proof. intros E (I & E' & _). split; [done | by eapply extends_trans]. Qed.

(** The last step of an operation: [N] makes the node, [E] is what came before. *)
Ltac make_node pending E N :=
  refine (after pending _ _ _ _ E (make_sound pending _ _ _ _ _ _ _ _ _ N)); [cbn; rewrite ?app_nil_r|].

Lemma range_sound s count fn : sound fn → sound (fun p => range_ p s count fn).
Proof.
  intros Hfn pending p q obj I H. unfold range_ in H. inv_ok.
  match goal with T : require_top_level _ _ = Ok _ |- _ => apply top_level_ok in T as [Hx _] end.
  match goal with R : record _ _ _ = Ok _, N : new_node _ _ _ _ _ = _ |- _ =>
    destruct (record_sound pending _ _ _ _ _ _ _ I Hfn R) as (I1 & X1 & Hb); make_node pending X1 N; [done|] end.
  intros p' X'. eapply loop_spec_ok; [exact X' | by eapply issued_mono | exact (lookup_obj _ _ _ _ I Hx) | exact Hb | eassumption].
Qed.

Lemma while_sound s cond_fn body_fn : sound cond_fn → sound body_fn → sound (fun p => while_ p s cond_fn body_fn).
Proof.
  intros Hc Hfn pending p q obj I H. unfold while_ in H. inv_ok.
  match goal with T : require_top_level _ _ = Ok _ |- _ => apply top_level_ok in T as [Hx _] end.
  match goal with R : record p _ cond_fn = Ok _ |- _ =>
    destruct (record_sound pending _ _ _ _ _ _ _ I Hc R) as (I1 & X1 & Hb1) end.
  match goal with R : record _ _ body_fn = Ok _ |- _ =>
    destruct (record_sound _ _ _ _ _ _ _ _ I1 Hfn R) as (I2 & X2 & Hb2) end.
  match goal with N : new_node _ _ _ _ _ = _ |- _ => make_node pending (extends_trans _ _ _ X1 X2) N end.
  { revert I2. rewrite (assoc_L (++)). apply inv_pending. apply Permutation_app_tail, Permutation_app_comm. }
  intros p' X'. match goal with C : require_region _ _ _ _ _ = Ok _, L : loop_result _ _ _ _ = Ok _ |- _ =>
    apply region_untyped in C; apply loop_result_ok in L; rewrite (lookup_obj _ _ _ _ I Hx) in L;
    rename C into Hcond; rename L into Hloop end.
  split; cbn [s_subs control_spec]; try done.
  - intros key r ns' out' Hin. repeat (apply elem_of_cons in Hin as [Hin|Hin]; [injection Hin as -> -> -> ->|]).
    + exact (block_mono _ _ _ _ (extends_trans _ _ _ X2 X') Hb1).
    + exact (block_mono _ _ _ _ X' Hb2).
    + by apply elem_of_nil in Hin.
  - intros v Hop _ key open Hin. unfold validated_keys in Hin. rewrite Hop in Hin. cbn in Hin.
    repeat (apply elem_of_cons in Hin as [[= -> ->]|Hin]; [by eexists|]). by apply elem_of_nil in Hin.
  - intros _ v Hop Hi Hs _. unfold check_results. rewrite Hop. cbn. rewrite Hi.
    apply both_ok. split.
    + eapply check_result_ok; [by rewrite Hs | exact (require_region_mono _ _ _ _ _ _ _ (extends_trans _ _ _ X2 X') Hcond)].
    + eapply check_result_ok; [by rewrite Hs | exact (require_region_mono _ _ _ _ _ _ _ X' Hloop)].
Qed.

Lemma maybe_capture_sound pending p source destination q :
  invariant steady pending p → destination ≠ 0 →
  q = (if source =? 0 then p else allow_region_capture p source destination) →
  invariant steady pending q ∧ extends p q.
Proof.
  intros I Hd ->. destruct (Nat.eqb_spec source 0); [split; [done | apply extends_refl] | by apply capture_sound].
Qed.

(** A node with one closed body and an input of its own as possible result. *)
Lemma body_spec_ok p op s a region ns out y :
  op = "range" ∨ op = "subcycle" → s_subs a = [("body_block", (region, ns, out))] →
  block_ok p region ns → require_region p out region None [s] = Ok y →
  (steady = true → op = "subcycle" → ∃ at_ clock parent, s_point a = Some at_
    ∧ point_clock at_ = Ok clock ∧ s_parent a = Some parent ∧ parent ≠ clock ∧ (0 < s_count a)%Z) →
  spec_ok p op [s] a.
Proof.
  intros Hop Hs Hb Hout Hsub. split; try done; rewrite ?Hs.
  - by intros key r ns' out' [= -> -> -> ->]%list_elem_of_singleton.
  - intros v Hv _ key open. unfold validated_keys. rewrite Hv.
    destruct Hop as [-> | ->]; cbn; intros [= -> ->]%list_elem_of_singleton; by eexists.
  - intros _ v Hv Hi Hsubs _. unfold check_results. rewrite Hv.
    assert (Hr : check_result p v "body_block" (v_inputs v) = Ok tt).
    { rewrite Hi. eapply check_result_ok; [by rewrite Hsubs | exact Hout]. }
    by destruct Hop as [-> | ->].
  - by destruct Hop as [-> | ->].
  - intros _ ->. by destruct Hop.
Qed.

Lemma subcycle_sound s clock within count fn name :
  sound fn → sound (fun p => subcycle p s clock within count fn name).
Proof.
  intros Hfn pending p q obj I H. unfold subcycle in H. destruct (current_region p) as [parent p1] eqn:Ec.
  destruct (current_region_sound pending p parent p1 I Ec) as (I1 & X1 & _). inv_ok. bools.
  match goal with R : record _ _ _ = Ok _ |- _ =>
    destruct (record_sound pending _ _ _ _ _ _ _ I1 Hfn R) as (I2 & X2 & Hb) end.
  match goal with N : new_node ?p3 _ _ _ (Spec _ _ _ _ _ _ _ _ _ _ [(_, (?r, _, _))]) = _ |- _ =>
    assert (Hr : r ≠ 0) by (destruct Hb; lia);
    destruct (maybe_capture_sound _ _ _ _ p3 I2 Hr eq_refl) as [I3 X3];
    rename N into Hn end.
  make_node pending (extends_trans _ _ _ (extends_trans _ _ _ X1 X2) X3) Hn; [exact I3|].
  match goal with R : require_region _ _ _ _ _ = Ok _ |- _ => apply region_untyped in R; rename R into Hout end.
  intros p' X'. eapply body_spec_ok; [by right | reflexivity | | by eapply require_region_mono |].
  - eapply block_mono; [|exact Hb]. by eapply extends_trans.
  - intros _ _. eexists _, clock, within. split_and!; done.
Qed.

Lemma region_is_mono p q r : extends p q → region_is p r → region_is q r.
Proof.
  intros [_ _ _ _ H]. unfold region_is. destruct H as [|f g fs gs Hf _]; [done|].
  intros Hr. destruct Hf as [Hf|Hf]; congruence.
Qed.

Lemma region_is_unique p r r' : region_is p r → region_is p r' → r = r'.
Proof. unfold region_is. destruct (p_recording p); congruence. Qed.

Lemma arm_result_ok p q v key parent region ns out y :
  extends p q → arm_result p parent region out = Ok y → dget key (v_subs v) = Some (region, ns, out) →
  v_region v = parent → check_arm q v key = Ok tt.
Proof.
  intros E H Hs <-. unfold arm_result in H. inv_ok. bools. unfold check_arm, sub_of. rewrite Hs. cbn.
  match goal with O : require_owned p out = Ok ?w |- _ => pose proof (owned_mono p q _ _ E O) as Ho end.
  unfold require_region. rewrite Ho. cbn. case_bool_decide as Hd; [done|].
  assert (Hr : v_region y = region).
  { case_bool_decide; set_solver. }
  by rewrite Hr, Nat.eqb_refl.
Qed.

Lemma branch_spec_ok p q condition a parent tr tns tout t fr fns fout f :
  extends p q → region_is p parent → block_ok p tr tns → block_ok p fr fns →
  arm_result p parent tr tout = Ok t → arm_result p parent fr fout = Ok f →
  s_subs a = [("true_block", (tr, tns, tout)); ("false_block", (fr, fns, fout))] →
  spec_ok q "branch" [condition] a.
Proof.
  intros E Hp Ht Hf At Af Hs. split; try done; rewrite ?Hs.
  - intros key r ns' out' Hin. repeat (apply elem_of_cons in Hin as [Hin|Hin]; [injection Hin as -> -> -> ->; by eapply block_mono|]).
    by apply elem_of_nil in Hin.
  - intros v Hop _ key open Hin. unfold validated_keys in Hin. rewrite Hop in Hin. cbn in Hin.
    repeat (apply elem_of_cons in Hin as [[= -> ->]|Hin]; [by eexists|]). by apply elem_of_nil in Hin.
  - intros _ v Hop Hi Hsubs Hr. unfold check_results. rewrite Hop. cbn.
    assert (Hv : v_region v = parent) by (eapply region_is_unique; [exact Hr | by eapply region_is_mono]).
    apply both_ok. split.
    + eapply arm_result_ok; [exact E | exact At | by rewrite Hsubs | done].
    + eapply arm_result_ok; [exact E | exact Af | by rewrite Hsubs | done].
Qed.

Lemma branch_sound condition t f name : sound t → sound f → sound (fun p => branch p condition t f name).
Proof.
  intros Ht Hf pending p q obj I H. unfold branch in H. destruct (current_region p) as [parent p1] eqn:Ec.
  destruct (current_region_sound pending p parent p1 I Ec) as (I1 & X1 & Hreg & _).
  destruct (require_owned p condition) as [c|]; [|discriminate H]. cbn [mbind res_bind] in H.
  destruct (require_vtype c "bool"); [|discriminate H]. cbn [mbind res_bind] in H.
  destruct (validate_input_regions _ _ _); [|discriminate H]. cbn [mbind res_bind] in H.
  destruct (record_branch_arm p1 t) as [[p2 [[tt_ tns] tout]]|] eqn:Et; [|discriminate H]. cbn [mbind res_bind] in H.
  destruct (arm_sound _ _ _ _ _ _ _ I1 Ht Et) as (I2 & X2 & Hb2).
  destruct (record_branch_arm p2 f) as [[p3 [[ft_ fns] fout]]|] eqn:Ef; [|discriminate H]. cbn [mbind res_bind] in H.
  destruct (arm_sound _ _ _ _ _ _ _ I2 Hf Ef) as (I3 & X3 & Hb3).
  assert (Hb2' : match tt_ with Some r => block_ok p3 r tns | None => tns = [] end).
  { destruct tt_; [by eapply block_mono | done]. }
  destruct (region_for_block p3 tt_) as [tr p4] eqn:E4.
  destruct (region_for_block_sound _ _ _ _ _ _ I3 Hb2' E4) as (I4 & X4 & B4).
  assert (Hb3' : match ft_ with Some r => block_ok p4 r fns | None => fns = [] end).
  { destruct ft_; [by eapply block_mono | done]. }
  destruct (region_for_block p4 ft_) as [fr p5] eqn:E5.
  destruct (region_for_block_sound _ _ _ _ _ _ I4 Hb3' E5) as (I5 & X5 & B5).
  pose proof (block_mono _ _ _ _ X5 B4) as B4'. set (p6 := if _ : bool then _ else _) in H.
  assert (C6 : invariant steady (fns ++ tns ++ pending) p6 ∧ extends p5 p6).
  { unfold p6. destruct (Nat.eqb_spec parent 0); [split; [done | apply extends_refl]|].
    destruct (capture_sound _ p5 parent tr I5) as [J1 Y1]; [destruct B4; lia | done |].
    destruct (capture_sound _ _ parent fr J1) as [J2 Y2]; [destruct B5; lia | done |].
    split; [exact J2 | by eapply extends_trans]. }
  destruct C6 as [I6 X6]. clearbody p6.
  assert (X : extends p1 p6) by (eauto 6 using extends_trans).
  inv_ok. make_node pending (extends_trans _ _ _ X1 X) H.
  { revert I6. rewrite (assoc_L (++)). apply inv_pending. apply Permutation_app_tail, Permutation_app_comm. }
  match goal with T : arm_result p6 parent tr _ = Ok _, F : arm_result p6 parent fr _ = Ok _ |- _ =>
    intros p' X'; eapply branch_spec_ok; [exact X' | | | | exact T | exact F | reflexivity] end.
  - exact (region_is_mono _ _ _ X Hreg).
  - exact (block_mono _ _ _ _ X6 B4').
  - exact (block_mono _ _ _ _ X6 B5).
Qed.

Lemma unrolled_sound x region bodies :
  Forall sound bodies → ∀ s, sound (fun p => unrolled p x region s bodies).
Proof.
  induction 1 as [|fn bodies Hfn _ IH]; intros s pending p q obj I H; cbn in H.
  { injection H as <- <-. split; [done | apply extends_refl]. }
  destruct (fn p) as [[p1 out]|] eqn:Ef; [|discriminate H]. cbn [mbind res_bind] in H.
  destruct (Hfn _ _ _ _ I Ef) as [I1 X1].
  destruct (loop_result p1 x region out); [|discriminate H]. cbn [mbind res_bind] in H.
  destruct (IH _ _ _ _ _ I1 H) as [I2 X2]. split; [done | by eapply extends_trans].
Qed.

Lemma static_range_sound s bodies : Forall sound bodies → sound (fun p => static_range p s bodies).
Proof.
  intros Hb pending p q obj I H. unfold static_range in H. destruct (current_region p) as [region p1] eqn:Ec.
  destruct (current_region_sound pending p region p1 I Ec) as (I1 & X1 & _). inv_ok.
  match goal with H : unrolled _ _ _ _ _ = Ok _ |- _ => destruct (unrolled_sound _ _ _ Hb _ _ _ _ _ I1 H) as [I2 X2] end.
  split; [done | by eapply extends_trans].
Qed.

Lemma synchronize_sound s at_ name : sound (fun p => synchronize p s at_ name).
Proof.
  intros pending p q obj I H. unfold synchronize in H. inv_ok. bools.
  match goal with O : require_owned _ _ = Ok ?v, N : new_node _ _ _ _ _ = _ |- _ =>
    apply owned_ok in O; make_node pending (extends_refl p) N; [exact I|]; rename O into Hx end.
  intros p' X'. split; cbn; try done.
  - by intros ? ? ? ? ?%elem_of_nil.
  - intros v Hv _ key open. unfold validated_keys. rewrite Hv. by intros ?%elem_of_nil.
  - intros _ v Hv _ _ _. unfold check_results. by rewrite Hv.
  - intros _ _. do 4 eexists. split_and!; try done. by eapply issued_mono.
Qed.

Lemma set_states_sound pending p states :
  invariant steady pending p → invariant steady pending (set_states p states) ∧ extends p (set_states p states).
Proof. intros I. apply inv_grow; try done; [apply (i_imports _ _ _ I) | apply (i_commits _ _ _ I) | by left]. Qed.

Lemma state_sound key sp : sound (fun p => p ← time_state p key sp; current_time_value p key).
Proof.
  intros pending p q obj I H. destruct (time_state p key sp) as [p1|] eqn:Et; [|discriminate H].
  cbn [mbind res_bind] in H.
  assert (J : invariant steady pending p1 ∧ extends p p1).
  { unfold time_state in Et. destruct (dget key (p_states p)) as [[prior o]|]; inv_ok;
      [split; [done | apply extends_refl] | by apply set_states_sound]. }
  destruct J as [I1 X1]. unfold current_time_value in H.
  destruct (dget key (p_states p1)) as [[sp' [cur|]]|]; [| |discriminate H].
  - inv_ok. match goal with |- invariant _ _ (set_states _ ?st) ∧ _ =>
      destruct (set_states_sound pending p1 st I1) as [I2 X2] end.
    split; [done | by eapply extends_trans].
  - destruct (new_node p1 "state" "state" [] (state_value_spec key sp')) as [[p2 o]|] eqn:N; [|discriminate H].
    cbn [mbind res_bind] in H. injection H as <- <-.
    assert (Ho : ordinary "state" (state_value_spec key sp') = Ok tt) by (by destruct key as [[] ?]).
    destruct (ordinary_sound pending p1 _ _ _ _ _ _ I1 Ho N) as (I2 & X2 & _).
    match goal with |- invariant _ _ (set_states _ ?st) ∧ _ =>
      destruct (set_states_sound pending p2 st I2) as [I3 X3] end.
    split; [done|]. eauto using extends_trans.
Qed.

(** Forgetting a closed body that no node will hold. *)
Lemma inv_drop l pending p : invariant steady (l ++ pending) p → invariant steady pending p.
Proof.
  intros [I1 I2 I3 I4 I5 I6 I7 I8 I9 IR ID I10 I11]. split; try done.
  - intros n Hn. apply I10, elem_of_app. by right.
  - assert (P : p_values p ++ recorded p ++ l ++ pending ≡ₚ l ++ p_values p ++ recorded p ++ pending).
    { by rewrite (assoc_L (++) (p_values p)), Permutation_app_swap_app, <- (assoc_L (++) (p_values p)). }
    apply walk_all_perm, (fmap_Permutation v_id), NoDup_Permutation_proper in P. apply P in I11.
    change (NoDup (map v_id (walk_all (l ++ p_values p ++ recorded p ++ pending)))) in I11.
    rewrite walk_all_app, map_app in I11. by apply NoDup_app in I11 as (_ & _ & ?).
Qed.

(** A callback behind a first node without bodies. *)
Lemma first_node_sound vtype op a fn :
  ordinary op a = Ok tt → sound fn → sound (fun p => '(p, _) ← new_node p vtype op [] a; fn p).
Proof.
  intros Ho Hfn pending p q out I H. destruct (new_node p vtype op [] a) as [[p1 o]|] eqn:N; [|discriminate H].
  cbn [mbind res_bind] in H. destruct (ordinary_sound pending p _ _ _ _ _ _ I Ho N) as (I1 & X1 & _).
  destruct (Hfn _ _ _ _ I1 H) as [I2 X2]. split; [done | by eapply extends_trans].
Qed.

Lemma residual_body_sound x fn : sound fn → sound (residual_body x fn).
Proof. intros Hfn. unfold residual_body. by do 2 (apply first_node_sound; [done|]). Qed.

Lemma solve_local_sound s fn name : sound fn → sound (fun p => solve_local_nonlinear p s fn name).
Proof.
  intros Hfn pending p q obj I H. unfold solve_local_nonlinear in H. inv_ok.
  match goal with R : record_branch_arm _ _ = Ok (?p1, (?t, ?ns, ?o)) |- _ =>
    destruct (arm_sound pending _ _ _ _ _ _ I (residual_body_sound _ _ Hfn) R) as (I1 & X1 & Hb);
    destruct (region_for_block p1 t) as [r p2] eqn:Er;
    destruct (region_for_block_sound _ _ _ ns _ _ I1 Hb Er) as (I2 & X2 & Hb2) end.
  inv_ok. make_node pending (extends_trans _ _ _ X1 X2) H; [exact I2|].
  match goal with R : require_region _ _ _ _ _ = Ok _ |- _ => apply region_untyped in R; rename R into Hout end.
  intros p' X'. split; cbn [s_subs control_spec]; try done.
  - intros key r' ns' out' [= -> -> -> ->]%list_elem_of_singleton. by eapply block_mono.
  - intros v Hop _ key open. unfold validated_keys. rewrite Hop. cbn. intros [= -> ->]%list_elem_of_singleton. by eexists.
  - intros _ v Hop Hi Hs _. unfold check_results. rewrite Hop. cbn.
    eapply check_result_ok; [by rewrite Hs | by eapply require_region_mono].
Qed.

Lemma set_dt_bound_sound fn : sound fn → sound (fun p => set_dt_bound p fn).
Proof.
  intros Hfn pending p q obj I H. unfold set_dt_bound in H. inv_ok.
  match goal with R : record_branch_arm _ _ = Ok (?p1, (?t, ?ns, ?o)) |- _ =>
    destruct (arm_sound pending _ _ _ _ _ _ I (first_node_sound "scalar" "cfl" cfl_spec fn eq_refl Hfn) R)
      as (I1 & X1 & Hb);
    destruct (region_for_block p1 t) as [r p2] eqn:Er;
    destruct (region_for_block_sound _ _ _ ns _ _ I1 Hb Er) as (I2 & X2 & Hb2);
    apply inv_drop in I2 end.
  inv_ok.
  match goal with R : require_region _ _ _ _ _ = Ok ?w |- _ => unfold require_region in R; rename R into Hout end.
  inv_ok. bools.
  match goal with |- invariant _ _ ?q ∧ _ => destruct (inv_grow pending p2 q I2) as [I3 X3] end; try done.
  - apply (i_imports _ _ _ I2).
  - apply (i_commits _ _ _ I2).
  - right. cbn. split; [done|]. match goal with O : require_owned _ _ = Ok ?w |- _ => exists w; apply owned_ok in O end.
    split; [done|]. match goal with B : bool_decide (_ ∈ []) || _ = true |- _ => cbn in B; by apply Nat.eqb_eq in B end.
  - split; [done|]. eauto using extends_trans.
Qed.

Lemma set_post_sound pending p b :
  invariant steady pending p → invariant steady pending (set_post_recording p b) ∧ extends p (set_post_recording p b).
Proof. intros I. apply inv_grow; try done; [apply (i_imports _ _ _ I) | apply (i_commits _ _ _ I) | by left]. Qed.

Lemma record_post_sync_sound pending p fn q r ns :
  invariant steady pending p → sound fn → record_post_sync p fn = Ok (q, (r, ns)) →
  invariant steady (ns ++ pending) q ∧ extends p q ∧ block_ok q r ns.
Proof.
  intros I Hfn H. unfold record_post_sync in H. set (p1 := set_post_recording _ true) in H.
  destruct (fn p1) as [[p2 o]|] eqn:Ef; [|discriminate H]. cbn [mbind res_bind] in H.
  assert (I1 : invariant steady pending p1).
  { apply (push_sound pending p _ (Some (p_next_region p))); cbn; try done; [by right | apply (i_imports _ _ _ I)]. }
  destruct (Hfn _ _ _ _ I1 Ef) as [I2 X2].
  destruct (p_recording p2) as [|f fs] eqn:Er; [discriminate H|]. injection H as <- <- <-.
  destruct (set_post_sound _ p2 false I2) as [I3 X3].
  destruct (closed_body pending p p1 (set_post_recording p2 false) f fs (Some (p_next_region p)) I3
              (extends_trans _ _ _ X2 X3)) as (I4 & X4 & [Ht|Ht] & Hb); cbn; try done; [lia|].
  rewrite Ht in Hb. split_and!; [exact I4 | exact X4 | exact Hb].
Qed.

Lemma after_synchronization_sound fn name : sound fn → sound (fun p => after_synchronization p fn name).
Proof.
  intros Hfn pending p q obj I H. unfold after_synchronization in H. inv_ok.
  match goal with R : record_post_sync _ _ = Ok _ |- _ =>
    destruct (record_post_sync_sound pending _ _ _ _ _ I Hfn R) as (I1 & X1 & Hb) end.
  make_node pending X1 H; [exact I1|]. intros p' X'. split; cbn [s_subs]; try done.
  - intros key r' ns' out' [= -> -> -> ->]%list_elem_of_singleton. by eapply block_mono.
  - intros v Hop _ key open. unfold validated_keys. rewrite Hop. cbn. intros [= -> ->]%list_elem_of_singleton. by eexists.
Qed.

(** A scheduled predicate is a value of the flat program. *)
Lemma schedule_contract_ok digest p s values cacheable v :
  validate_schedule_contract digest p s values cacheable = Ok tt → v_schedule v = Some s →
  check_predicate p v = Ok tt.
Proof.
  intros H Hv. unfold check_predicate. rewrite Hv. destruct s as [[ | | | | |d c] off]; try done. destruct c; try done.
  unfold validate_schedule_contract in H. inv_ok.
  match goal with D : native_schedule_due _ = Ok ?due |- _ =>
    unfold native_schedule_due, mk_due_ir in D; cbn in D; injection D as <- end.
  cbn [du_kind du_predicate] in *. inv_ok.
  cbn. unfold require. by match goal with R : (_ =? _) = true |- _ => rewrite R end.
Qed.

Lemma call_operator_sound digest vtype op inputs a output sched cacheable :
  sound (fun p => _ ← ordinary op a; call_operator digest p vtype op inputs a output sched cacheable).
Proof.
  intros pending p q obj I H. unfold call_operator in H. inv_ok.
  match goal with O : ordinary op a = Ok tt, N : new_node p _ _ _ _ = Ok _ |- _ =>
    destruct (ordinary_sound pending p _ _ _ _ _ _ I O N) as (I1 & X1 & _) end.
  apply (after pending p _ q obj X1). apply (replace_sound pending _ _ _ _ _ I1 H); [|done].
  cbn. intros s v -> Hv. apply (predicate_mono p); [done|].
  by match goal with V : validate_schedule_contract _ _ _ _ _ = Ok tt |- _ => apply (schedule_contract_ok _ _ _ _ _ v V) end.
Qed.

Lemma dset_elem {K V} `{EqDecision K} (k : K) (v : V) d k' v' :
  (k', v') ∈ dset k v d → (k', v') = (k, v) ∨ (k', v') ∈ d.
Proof.
  induction d as [|[k1 v1] d IH]; cbn; [set_solver|].
  destruct (decide (k = k1)) as [->|]; rewrite !elem_of_cons; naive_solver.
Qed.

Lemma dupdate_elem {K V} `{EqDecision K} (items : list (K * V)) k v :
  ∀ d, (k, v) ∈ dupdate d items → (k, v) ∈ items ∨ (k, v) ∈ d.
Proof.
  unfold dupdate. induction items as [|[k1 v1] items IH]; intros d H; cbn in *; [by right|].
  destruct (IH _ H) as [?|H']; [left; by right|]. destruct (dset_elem _ _ _ _ _ H') as [->|?]; [left; left | by right].
Qed.

Lemma commit_sound mapping : sound (fun p => p ← commit_many p mapping; Ok (p, 0)).
Proof.
  intros pending p q obj I H. unfold commit_many in H. inv_ok.
  match goal with M : map_res _ _ = Ok _ |- _ => rename M into Hv end.
  destruct (p_post_recording p) eqn:Epost.
  { apply inv_grow; try done; [apply (i_imports _ _ _ I) | apply (i_commits _ _ _ I) | by left]. }
  apply inv_grow; try done; [apply (i_imports _ _ _ I) | | by left]. cbn. intros k s [Hk|Hk]%dupdate_elem.
  - apply list_elem_of_lookup_1 in Hk as [i Hi]. apply map_res_Forall2 in Hv.
    destruct (Forall2_lookup_r _ _ _ _ _ Hv Hi) as ([[[block state] clock] s'] & _ & He).
    unfold validate_commit in He. rewrite Epost in He. inv_ok. bools.
    match goal with O : require_owned p _ = Ok ?v |- _ => apply owned_ok in O; exists v end.
    split; [done | by apply Nat.eqb_eq].
  - by apply (i_commits _ _ _ I k s).
Qed.

(** ** Scripts *)

(** The calls of the callbacks of a call. *)
Definition sub_calls (c : call) : list call :=
  match c with
  | Range _ _ body | Subcycle _ _ _ _ body _ | SolveLocal _ body _ | SetDtBound body => body.1
  | AfterSynchronization body _ => body
  | StaticRange _ bodies => flat_map fst bodies
  | While _ a b | Branch _ a b _ => a.1 ++ b.1
  | _ => []
  end.

Lemma call_induction (P : call → Prop) : (∀ c, Forall P (sub_calls c) → P c) → ∀ c, P c.
Proof.
  intros H. fix F 1. intros c. apply H.
  assert (L : ∀ cs : list call, (∀ f : ∀ c, P c, Forall P cs)).
  { intros cs f. induction cs; constructor; [apply f | done]. }
  destruct c as [| | | | | ? ? [cs ?]|? bodies|? [c1 ?] [c2 ?]|? ? ? ? [cs ?] ?|? [c1 ?] [c2 ?] ?|? [cs ?] ?|[cs ?]|cs ?|]; cbn; try constructor.
  - induction cs; constructor; [apply F | done].
  - induction bodies as [|[cs ?] bodies IH]; cbn; [constructor|]. apply Forall_app. split; [|exact IH].
    clear IH. induction cs; constructor; [apply F | done].
  - apply Forall_app. split; [induction c1 | induction c2]; constructor; try apply F; done.
  - induction cs; constructor; [apply F | done].
  - apply Forall_app. split; [induction c1 | induction c2]; constructor; try apply F; done.
  - induction cs; constructor; [apply F | done].
  - induction cs; constructor; [apply F | done].
  - induction cs; constructor; [apply F | done].
Qed.

(** No node is moved to another point ([Program.value] with [at]). *)
Fixpoint no_repoint (c : call) : bool :=
  match c with
  | Rename _ _ at_ => is_none at_
  | Range _ _ body | Subcycle _ _ _ _ body _ | SolveLocal _ body _ | SetDtBound body => forallb no_repoint body.1
  | AfterSynchronization body _ => forallb no_repoint body
  | StaticRange _ bodies => forallb (fun body => forallb no_repoint body.1) bodies
  | While _ a b | Branch _ a b _ => forallb no_repoint a.1 && forallb no_repoint b.1
  | _ => true
  end.

Lemma no_repoint_sub c : no_repoint c = true → ∀ d, d ∈ sub_calls c → no_repoint d = true.
Proof.
  destruct c as [| | | | | ? ? [cs ?]|? bodies|? [c1 ?] [c2 ?]|? ? ? ? [cs ?] ?|? [c1 ?] [c2 ?] ?|? [cs ?] ?|[cs ?]|cs ?|]; cbn;
    rewrite ?andb_true_iff, ?forallb_forall; intros H d Hd; try set_solver;
    rewrite ?list_elem_of_In in *; try naive_solver.
  - apply in_flat_map in Hd as (b & Hb & Hd). specialize (H b Hb). rewrite forallb_forall in H. by apply H.
  - apply in_app_or in Hd as [?|?]; naive_solver.
  - apply in_app_or in Hd as [?|?]; naive_solver.
Qed.

Lemma body_sound (run : call → callback) (body : list call * nat) :
  Forall (fun c => sound (run c)) body.1 →
  sound (fun p =>
    p ← (fix run_all (cs : list call) (p : program) : res program :=
           match cs with [] => Ok p | c :: cs => '(p, _) ← run c p; run_all cs p end) body.1 p;
    Ok (p, body.2)).
Proof.
  destruct body as [cs o]. cbn. intros H. induction H as [|c cs Hc _ IH]; intros pending p q out I E; cbn in E.
  { injection E as <- <-. split; [done | apply extends_refl]. }
  destruct (run c p) as [[p1 o1]|] eqn:Er; [|discriminate E]. cbn [mbind res_bind] in E.
  destruct (Hc _ _ _ _ I Er) as [I1 X1]. destruct (IH _ _ _ _ I1 E) as [I2 X2].
  split; [done | by eapply extends_trans].
Qed.

Lemma run_call_sound digest c : (steady = true → no_repoint c = true) → sound (run_call digest c).
Proof.
  induction c as [c IH] using call_induction. intros Hn.
  assert (Hsub : Forall (fun d => sound (run_call digest d)) (sub_calls c)).
  { rewrite Forall_forall in IH |- *. intros d Hd. apply IH; [done|]. intros Hs.
    by apply (no_repoint_sub c (Hn Hs)). }
  clear IH. destruct c; cbn [sub_calls] in Hsub; rewrite ?Forall_app in Hsub.
  - exact (state_sound key sp).
  - intros pending p q obj I H. cbn in H. inv_ok.
    match goal with O : ordinary _ _ = Ok tt |- _ => by destruct (ordinary_sound pending p _ _ _ _ _ _ I O H) as (? & ? & _) end.
  - exact (call_operator_sound digest vtype op inputs a output sched cacheable).
  - intros pending p q obj I H. cbn in H. inv_ok.
    destruct (replace_sound pending p _ _ _ _ I H) as (? & ? & _); try done.
    cbn. intros Hs. specialize (Hn Hs). cbn in Hn. by destruct at_.
  - exact (synchronize_sound s at_ name).
  - apply (range_sound s count). by apply body_sound.
  - apply (static_range_sound s). apply Forall_map, Forall_forall. intros b Hb. apply body_sound.
    rewrite Forall_forall in Hsub |- *. intros d Hd. apply Hsub. apply list_elem_of_In, in_flat_map. exists b.
    split; by apply list_elem_of_In.
  - destruct Hsub. apply (while_sound s); by apply body_sound.
  - apply (subcycle_sound s clock within count _ name). by apply body_sound.
  - destruct Hsub. apply (branch_sound condition _ _ name); by apply body_sound.
  - apply (solve_local_sound s _ name). by apply body_sound.
  - apply set_dt_bound_sound. by apply body_sound.
  - apply (after_synchronization_sound _ name). by apply (body_sound (run_call digest) (body, 0)).
  - exact (commit_sound mapping).
Qed.

Lemma new_program_sound clock : invariant steady [] (new_program clock).
Proof.
  split; cbn; try done; try (by intros ? ?%elem_of_nil); try (by intros ? ? ?%elem_of_nil); try lia; constructor.
Qed.

Lemma run_calls_sound digest cs p q :
  (steady = true → forallb no_repoint cs = true) → invariant steady [] p → run_calls digest cs p = Ok q →
  invariant steady [] q ∧ extends p q.
Proof.
  unfold run_calls. revert p. induction cs as [|c cs IH]; intros p Hn I H; cbn in H.
  { injection H as <-. split; [done | apply extends_refl]. }
  destruct (run_call digest c p) as [[p1 o]|] eqn:E; [|discriminate H]. cbn [mbind res_bind] in H.
  destruct (run_call_sound digest c) with (pending := @nil node) (p := p) (q := p1) (out := o) as [I1 X1]; try done.
  { intros Hs. apply (andb_true_iff (no_repoint c)) in Hn as [? ?]; done. }
  destruct (IH p1) as [I2 X2]; try done.
  { intros Hs. apply (andb_true_iff (no_repoint c)) in Hn as [? ?]; done. }
  split; [done | by eapply extends_trans].
Qed.
End Steps.

(** ** The validator *)

Lemma check_all_ok {A} (f : A → res unit) l : check_all f l = Ok tt ↔ ∀ x, x ∈ l → f x = Ok tt.
Proof.
  induction l as [|x l IH]; cbn; [split; [intros _ x Hx; by apply elem_of_nil in Hx | done]|].
  rewrite both_ok, IH. split; [intros [? ?] y [->|?]%elem_of_cons; auto | intros H; split; [apply H; left | intros y ?; apply H; by right]].
Qed.

(** No node of the residual of a local solve reads a value of the flat program. *)
Definition residuals_closed (p : program) : Prop :=
  ∀ v region ns out n s w, v ∈ p_values p → v_op v = "solve_local_nonlinear" →
    sub_of v "residual_block" = Ok (region, ns, out) → n ∈ ns → s ∈ v_inputs n →
    p_issued p !! s = Some w → v_region w ≠ 0.

(** What the post-reflux phase commits was made in its body. *)
Definition post_commits_inside (p : program) : Prop :=
  ∀ v region ns out k s, v ∈ p_values p → v_op v = "post_synchronization" →
    sub_of v "body_block" = Ok (region, ns, out) → (k, s) ∈ p_post_commits p →
    ∃ w, p_issued p !! s = Some w ∧ v_region w = region.

Section Validated.
Context (p : program) (I : invariant false [] p).

Lemma body_of v key r ns out : known p v → (key, (r, ns, out)) ∈ v_subs v →
  block_ok p r ns ∧ ∀ n, n ∈ ns → v_id n < v_id v.
Proof. intros K H. destruct (i_issued _ _ _ I _ _ K) as [_ F]. by apply (f_subs _ _ _ F key r ns out). Qed.

Lemma sub_of_elem v key sub : sub_of v key = Ok sub → (key, sub) ∈ v_subs v.
Proof. unfold sub_of. destruct (dget key (v_subs v)) eqn:E; [|done]. intros [= ->]. by apply dget_Some_elem. Qed.

Lemma inputs_visible v : known p v → validate_input_regions p (v_inputs v) (v_region v) = Ok tt.
Proof.
  intros K. destruct (i_issued _ _ _ I _ _ K) as [_ F]. apply input_regions_ok. intros s Hs.
  destruct (f_inputs _ _ _ F s Hs) as (w & ? & _ & ?). by exists w.
Qed.

Lemma known_owned v : known p v → require_owned p (v_obj v) = Ok v.
Proof. intros K. by apply owned_ok. Qed.

Section Rechecks.
Context (request_ok spatial_ok : program → node → res unit).

Lemma no_request v : known p v → check_request request_ok p v = Ok tt.
Proof.
  intros K. destruct (i_issued _ _ _ I _ _ K) as [_ F]. destruct (f_request _ _ _ F) as [H _]. unfold check_request. by rewrite H.
Qed.

(** A body passes when what its nodes hold does. *)
Lemma check_block_ok region ns :
  block_ok p region ns → (∀ n, n ∈ ns → known p n → check_subs request_ok p n = Ok tt) →
  check_block request_ok p region ns = Ok tt.
Proof.
  intros ((Hr & _) & Hn & _) Hsub. unfold check_block.
  replace (region =? TOP_LEVEL_REGION) with false by (symmetry; apply Nat.eqb_neq; unfold TOP_LEVEL_REGION; lia).
  replace (forallb (fun n => v_region n =? region) ns) with true; cbn.
  2:{ symmetry. apply forallb_forall. intros n Hin'. apply Nat.eqb_eq, Hn. by apply list_elem_of_In. }
  apply check_all_ok. intros n Hin. destruct (Hn n Hin) as [Kn Rn].
  rewrite (known_owned n Kn). cbn. rewrite (no_request n Kn). cbn. rewrite <- Rn, (inputs_visible n Kn). cbn. by apply Hsub.
Qed.

Lemma check_subs_ok v : known p v → check_subs request_ok p v = Ok tt.
Proof.
  induction v as [v IH] using node_induction. intros K.
  assert (G : ∀ sub, sub ∈ v_subs v → check_block request_ok p sub.2.1.1 sub.2.1.2 = Ok tt).
  { intros [key [[r ns] out]] Hin. destruct (body_of _ _ _ _ _ K Hin) as [Hb _]. cbn. apply check_block_ok; [done|].
    intros n Hin' Kn. rewrite Forall_forall in IH. apply IH; [|done]. apply list_elem_of_In, in_flat_map.
    exists (key, (r, ns, out)). split; by apply list_elem_of_In. }
  destruct v. apply check_all_ok. intros [key [[r ns] out]] Hin. exact (G _ Hin).
Qed.

Lemma commits_ok : check_all (fun kv => _ ← require_top_level p kv.2; Ok tt) (p_commits p) = Ok tt.
Proof.
  apply check_all_ok. intros [k s] H. destruct (i_commits _ _ _ I k s H) as (v & Hv & Hr).
  unfold require_top_level. apply owned_ok in Hv. cbn. rewrite Hv. cbn. by rewrite Hr.
Qed.

Lemma in_region s region : (_ ← require_region p s region None []; Ok tt) = Ok tt ↔
  ∃ w, p_issued p !! s = Some w ∧ v_region w = region.
Proof.
  unfold require_region, require_owned. destruct (p_issued p !! s) as [w|]; cbn; [|naive_solver].
  unfold require. destruct (Nat.eqb_spec (v_region w) region); cbn; naive_solver.
Qed.

Lemma dt_bound_ok :
  match p_dt_bound p with
  | None => Ok tt
  | Some (region, nodes, out) => _ ← check_block request_ok p region nodes; _ ← require_region p out region None []; Ok tt
  end = Ok tt.
Proof.
  pose proof (i_dt _ _ _ I) as D. unfold dt_ok in D. destruct (p_dt_bound p) as [[[r ns] out]|]; [|done].
  destruct D as [Hb Hw]. rewrite (check_block_ok r ns Hb) by (intros; by apply check_subs_ok).
  by apply in_region.
Qed.

Lemma check_value_ok v : v ∈ p_values p →
  check_value request_ok spatial_ok p v = Ok tt
  ↔ (v_op v = "post_synchronization" → check_post_commits p v = Ok tt).
Proof.
  intros Hv. destruct (i_values _ _ _ I v Hv) as [K R]. destruct (i_issued _ _ _ I _ _ K) as [_ F].
  unfold check_value. destruct (f_request _ _ _ F) as [_ ->%String.eqb_neq]. cbn. rewrite (no_request v K). cbn.
  unfold require_top_level. rewrite (known_owned v K). cbn. rewrite R. cbn. rewrite <- R at 1.
  rewrite (inputs_visible v K), (f_predicate _ _ _ F), (check_subs_ok v K). cbn.
  destruct (decide (v_op v = "post_synchronization")) as [Ho|Ho].
  - unfold check_results. rewrite Ho. cbn. naive_solver.
  - rewrite (f_results _ _ _ F Ho). naive_solver.
Qed.

Lemma regions_ok : validate_program_regions request_ok spatial_ok p = Ok tt ↔ post_commits_inside p.
Proof.
  unfold validate_program_regions. rewrite !both_ok, commits_ok, dt_bound_ok, check_all_ok.
  assert (E : ∀ v, v ∈ p_values p → v_op v = "post_synchronization" →
    check_post_commits p v = Ok tt ↔ ∀ region ns out, sub_of v "body_block" = Ok (region, ns, out) →
      ∀ k s, (k, s) ∈ p_post_commits p → ∃ w, p_issued p !! s = Some w ∧ v_region w = region).
  { intros v Hv Ho. destruct (i_values _ _ _ I v Hv) as [K _]. destruct (i_issued _ _ _ I _ _ K) as [_ F].
    destruct (f_keys _ _ _ F "body_block" true) as [[[r ns] out] Hs]; [unfold validated_keys; rewrite Ho; left|].
    unfold check_post_commits. rewrite Hs. cbn. rewrite check_all_ok. split.
    - intros H r' ns' out' [= <- <- <-] k s Hk. apply in_region. exact (H (k, s) Hk).
    - intros H [k s] Hk. apply in_region. by apply (H r ns out eq_refl k s). }
  split.
  - intros [H _] v r ns out k s Hv Ho Hs Hk. eapply (proj1 (E v Hv Ho)); [|exact Hs | exact Hk].
    by apply (proj1 (check_value_ok v Hv) (H v Hv)).
  - intros H. split_and!; try done. intros v Hv. apply check_value_ok; [done|]. intros Ho. apply E; [done..|].
    intros r ns out Hs k s. by apply (H v r ns out k s).
Qed.

End Rechecks.

Lemma validate_block_ok region (outer : list nat) (block : list node) : ∀ pre : list node,
  block_ok p region (pre ++ block) →
  (∀ n s w, n ∈ block → s ∈ v_inputs n → p_issued p !! s = Some w → v_region w = 0 → v_id w ∈ outer) →
  ∀ seen : list nat, (∀ id, id ∈ outer ∨ id ∈ map v_id pre → id ∈ seen) → validate_block p block seen = Ok tt.
Proof.
  induction block as [|v block IH]; intros pre Hb Ho seen Hs; cbn [validate_block]; [done|].
  apply both_ok. split.
  - apply check_all_ok. intros s Hin. destruct Hb as (_ & Hn & Hord). destruct (Hn v) as [K R]; [set_solver|].
    destruct (i_issued _ _ _ I _ _ K) as [_ F]. destruct (f_inputs _ _ _ F s Hin) as (w & Hw & _ & Hvis).
    pose proof Hw as Hw'. apply owned_ok in Hw'. rewrite Hw'. cbn.
    destruct (Hord (map signature pre) (v_id v) (v_region v) (v_inputs v) (map signature block)) with (s := s)
      as (w' & Hw2 & Hreg); [by rewrite map_app | done |].
    rewrite Hw in Hw2. injection Hw2 as <-. rewrite signature_ids in Hreg.
    unfold region_visible in Hvis. rewrite !orb_true_iff in Hvis. unfold require.
    destruct Hvis as [[Hsame|Htop]|Himp].
    + apply Nat.eqb_eq in Hsame. rewrite bool_decide_eq_true_2; [done|]. apply Hs. right. by apply Hreg.
    + apply andb_true_iff in Htop as [_ Htop]. apply Nat.eqb_eq in Htop.
      rewrite bool_decide_eq_true_2; [done|]. apply Hs. left. apply (Ho v s w); [left | done..].
    + by rewrite Himp, orb_true_r.
  - apply (IH (pre ++ [v])).
    + by rewrite <- app_assoc.
    + intros n s w Hn. apply Ho. by right.
    + intros id [Hid|Hid]; [right; apply Hs; by left|]. rewrite map_app in Hid.
      apply elem_of_app in Hid as [?| ->%list_elem_of_singleton]; [right; apply Hs; by right | left].
Qed.

(** What an accepted body reads was listed before it, or is of an imported region. *)
Lemma validate_block_reads block : ∀ seen, validate_block p block seen = Ok tt →
  ∀ n s w, n ∈ block → s ∈ v_inputs n → p_issued p !! s = Some w →
    v_id w ∈ seen ∨ v_id w ∈ map v_id block ∨ (v_region n, v_region w) ∈ p_imports p.
Proof.
  induction block as [|v block IH]; intros seen H n s w Hn Hs Hw; [by apply elem_of_nil in Hn|].
  cbn [validate_block] in H. apply both_ok in H as [Hv H]. apply elem_of_cons in Hn as [->|Hn].
  - rewrite check_all_ok in Hv. specialize (Hv s Hs). apply owned_ok in Hw. rewrite Hw in Hv. cbn in Hv. inv_ok.
    match goal with B : _ || _ = true |- _ => rewrite orb_true_iff, !bool_decide_eq_true in B; tauto end.
  - destruct (IH _ H n s w Hn Hs Hw) as [[->|?]%elem_of_cons|[?|?]]; cbn; rewrite elem_of_cons; auto.
Qed.

(** A residual passes on its own exactly when it reads nothing of the flat
    program. *)
Lemma residual_ok region ns :
  block_ok p region ns →
  validate_block p ns [] = Ok tt ↔
  ∀ n s w, n ∈ ns → s ∈ v_inputs n → p_issued p !! s = Some w → v_region w ≠ 0.
Proof.
  intros Hb. split.
  - intros H n s w Hn Hs Hw Hz. destruct (validate_block_reads _ _ H n s w Hn Hs Hw) as [Hin|[Hin|Hin]].
    + by apply elem_of_nil in Hin.
    + apply list_elem_of_fmap in Hin as (m & Hm & Hin). destruct Hb as ((Hr & _) & Hns & _).
      destruct (Hns m Hin) as [Km Rm]. pose proof (i_regions _ _ _ I _ _ _ _ Hw Km Hm). lia.
    + destruct (i_imports _ _ _ I _ _ Hin). congruence.
  - intros H. apply (validate_block_ok region [] ns []); [done | | set_solver].
    intros n s w Hn Hs Hw Hz. by destruct (H n s w Hn Hs Hw).
Qed.

(** What a top-level node or a node of one of its bodies reads of the flat list
    was listed before it. *)
Lemma seen_before pre v post id w :
  p_values p = pre ++ v :: post → id <= v_id v → v_id w < id → known p w → v_region w = 0 →
  v_id w ∈ map v_id pre.
Proof.
  intros E Hid Hlt K R. pose proof (i_top _ _ _ I _ _ K R) as Hin. rewrite E, map_app in Hin. cbn in Hin.
  apply elem_of_app in Hin as [?|Hin]; [done|]. pose proof (i_sorted _ _ _ I) as S. rewrite E, map_app in S. cbn in S.
  apply StronglySorted_app_1_r in S. apply StronglySorted_inv in S as [_ S]. rewrite Forall_forall in S.
  apply elem_of_cons in Hin as [Heq|Hin]; [lia|]. specialize (S _ Hin). lia.
Qed.

(** A body that sees the flat list passes. *)
Lemma open_body_ok pre v post key region ns out (seen : list nat) :
  p_values p = pre ++ v :: post → known p v → sub_of v key = Ok (region, ns, out) →
  (∀ id, id ∈ map v_id pre → id ∈ seen) → validate_block p ns (v_id v :: seen) = Ok tt.
Proof.
  intros E K Hsub%sub_of_elem Hs. destruct (body_of v key region ns out K Hsub) as [Hb Hlt].
  apply (validate_block_ok region (map v_id pre) ns []); [done | | set_solver].
  intros n s w Hn Hin Hw Hr. destruct Hb as (_ & Hb & _). destruct (Hb n Hn) as [Kn _].
  destruct (i_issued _ _ _ I _ _ Kn) as [_ Fn]. destruct (f_inputs _ _ _ Fn s Hin) as (w' & Hw' & Hlt' & _).
  rewrite Hw in Hw'. injection Hw' as <-. specialize (Hlt n Hn).
  apply (seen_before pre v post (v_id n) w); try done; [lia|]. unfold known. by rewrite (lookup_obj _ _ _ _ _ I Hw).
Qed.

Lemma top_inputs_ok pre v post (seen : list nat) :
  p_values p = pre ++ v :: post → (∀ id, id ∈ map v_id pre → id ∈ seen) →
  check_all (fun s => i ← require_owned p s; require (bool_decide (v_id i ∈ seen)) ValueError) (v_inputs v) = Ok tt.
Proof.
  intros E Hs. destruct (i_values _ _ _ I v) as [K R]; [rewrite E; set_solver|]. destruct (i_issued _ _ _ I _ _ K) as [_ F].
  apply check_all_ok. intros s Hin. destruct (f_inputs _ _ _ F s Hin) as (w & Hw & Hlt & Hvis).
  pose proof Hw as Hw'. apply owned_ok in Hw'. rewrite Hw'. cbn. unfold require.
  rewrite bool_decide_eq_true_2; [done|]. apply Hs.
  assert (Kw : known p w) by (unfold known; by rewrite (lookup_obj _ _ _ _ _ I Hw)).
  apply (seen_before pre v post (v_id v) w); try done. unfold region_visible in Hvis. rewrite R in Hvis.
  rewrite !orb_true_iff, bool_decide_eq_true in Hvis. destruct Hvis as [[Hv|Hv]|Hv]; [by apply Nat.eqb_eq in Hv | done |].
  by destruct (i_imports _ _ _ I _ _ Hv).
Qed.

Lemma closed_keys v key : (key, false) ∈ validated_keys v → v_op v = "solve_local_nonlinear" ∧ key = "residual_block".
Proof.
  unfold validated_keys.
  repeat (match goal with |- context [if ?b then _ else _] => destruct b eqn:? | |- context [match ?o with _ => _ end] =>
            destruct o end; try (intros Hin; repeat (apply elem_of_cons in Hin as [Hin|Hin]; [discriminate Hin|]);
                                 by apply elem_of_nil in Hin)).
  intros [= ->]%list_elem_of_singleton. split; [by apply String.eqb_eq | done].
Qed.

Lemma validate_values_ok post : ∀ pre, p_values p = pre ++ post →
  ∀ seen, (∀ id, id ∈ map v_id pre → id ∈ seen) →
  validate_values p post seen = Ok tt ↔
  ∀ v region ns out, v ∈ post → v_op v = "solve_local_nonlinear" →
    sub_of v "residual_block" = Ok (region, ns, out) → validate_block p ns [] = Ok tt.
Proof.
  induction post as [|v post IH]; intros pre E seen Hs; cbn [validate_values].
  { split; [by intros _ ? ? ? ? ?%elem_of_nil | done]. }
  destruct (i_values _ _ _ I v) as [K R]; [rewrite E; set_solver|]. destruct (i_issued _ _ _ I _ _ K) as [_ F].
  rewrite !both_ok, (top_inputs_ok pre v post seen E Hs), check_all_ok, (IH (pre ++ [v])); [| by rewrite <- app_assoc |].
  2:{ intros id Hid. rewrite map_app in Hid. apply elem_of_app in Hid as [?| ->%list_elem_of_singleton]; [right; by apply Hs | left]. }
  split.
  - intros (_ & H1 & H2) u region ns out [->|Hu]%elem_of_cons Ho Hsub; [|by eapply H2].
    specialize (H1 ("residual_block", false)). cbn in H1. rewrite Hsub in H1. cbn in H1. apply H1.
    unfold validated_keys. rewrite Ho. left.
  - intros H. split_and!; [done | |]; [|intros u region ns out Hu; apply H; by right].
    intros [key open] Hk. destruct (f_keys _ _ _ F key open Hk) as [[[r ns] out] Hsub]. rewrite Hsub. cbn.
    destruct open; [by apply (open_body_ok pre v post key r ns out)|].
    apply closed_keys in Hk as [Ho ->]. apply (H v r ns out); [left | done..].
Qed.
End Validated.

(** C6: take a program the builder produced from an empty one by any sequence of
    the calls of [call], nested in any way and naming any objects: time states,
    nodes without bodies, operator calls, renames, clock crossings, ranges, loops,
    subcycles, branches, local nonlinear solves, the time-step bound, the
    post-reflux phase and commits.  The structural validator accepts it exactly
    when it commits an endpoint, no residual of a local solve reads a value of the
    flat program, and what the post-reflux phase commits was made in that phase. *)
Theorem authored_program_validates request_ok spatial_ok digest clock cs p :
  run_calls digest cs (new_program clock) = Ok p →
  validate request_ok spatial_ok p = Ok tt
  ↔ p_commits p ≠ [] ∧ residuals_closed p ∧ post_commits_inside p.
Proof.
  intros H. destruct (run_calls_sound false digest cs (new_program clock) p) as [I _]; [done | by apply new_program_sound | done |].
  unfold validate. rewrite !both_ok, regions_ok, (validate_values_ok p I _ []) by (done || by intros id ?%elem_of_nil).
  assert (C : (∀ v region ns out, v ∈ p_values p → v_op v = "solve_local_nonlinear" →
                 sub_of v "residual_block" = Ok (region, ns, out) → validate_block p ns [] = Ok tt) ↔ residuals_closed p).
  { assert (B : ∀ v region ns out, v ∈ p_values p → sub_of v "residual_block" = Ok (region, ns, out) → block_ok p region ns).
    { intros v region ns out Hv Hsub%sub_of_elem. destruct (i_values _ _ _ I v Hv) as [K _]. by eapply body_of. }
    split.
    - intros G v region ns out n s w Hv Ho Hsub. apply (residual_ok p I region ns); [by eapply B | by eapply G].
    - intros G v region ns out Hv Ho Hsub. apply (residual_ok p I region ns); [by eapply B|].
      intros n s w. by eapply G. }
  rewrite C. destruct (p_commits p) as [|kv kvs]; cbn; [|naive_solver]. split; [by intros (_ & ? & _) | by intros [? _]].
Qed.

(** ** A program with every control-flow operation *)

Definition macro_clock : Clock := MkClock "macro" None.
Definition fast_clock : Clock := MkClock "fast" None.
Definition plasma_spec : spec := Spec None (Some "plasma") None None None true None None 0 None [].
Definition sample_calls : list call :=
  [State_ ("plasma", "U", macro_clock) None;
   Node_ "bool" "compare" [0] plasma_spec;
   Synchronize 0 (time_point fast_clock 0) None;
   Subcycle 2 fast_clock macro_clock 4 ([Node_ "state" "axpy" [2] plasma_spec], 3) (Some "fast_cycle");
   Synchronize 4 (time_point macro_clock 1) None;
   Range 5 2 ([Node_ "state" "axpy" [5] plasma_spec], 6);
   Branch 1 ([Node_ "state" "axpy" [7] plasma_spec], 8) ([], 7) None;
   Rename 9 "advanced" None;
   Call_ "rhs" "rhs" [0] plasma_spec None (Some (MkSchedule (Every (AcceptedStep macro_clock None) 2%Z) (Some Hold))) true;
   Commit [("plasma", "U", macro_clock, 10)];
   SolveLocal 0 ([Node_ "state" "source" [13] plasma_spec; Node_ "state" "linear_combine" [13; 14; 15] plasma_spec], 16) None;
   SetDtBound ([Node_ "scalar" "max_wave_speed" [] plasma_spec; Node_ "scalar" "scalar_op" [18; 19] plasma_spec], 20);
   AfterSynchronization [Node_ "state" "local_transform" [10] plasma_spec; Commit [("plasma", "U", macro_clock, 21)]] None].
Definition built (cs : list call) : program :=
  match run_calls (fun _ => EmptyString) cs (new_program macro_clock) with Ok p => p | Err _ => new_program macro_clock end.

(** The rechecks of solve requests are never asked. *)
Definition no_recheck (_ : program) (_ : node) : res unit := Err ValueError.

Lemma authored_program_validates_witness :
  map v_op (p_values (built sample_calls))
    = ["state"; "compare"; "synchronize"; "subcycle"; "synchronize"; "range"; "branch"; "rhs"; "solve_local_nonlinear";
       "post_synchronization"]
  ∧ validate no_recheck no_recheck (built sample_calls) = Ok tt
  ∧ residuals_closed (built sample_calls) ∧ post_commits_inside (built sample_calls).
Proof.
  assert (V : validate no_recheck no_recheck (built sample_calls) = Ok tt) by (by vm_compute).
  split; [by vm_compute|]. split; [exact V|].
  apply (authored_program_validates no_recheck no_recheck (fun _ => EmptyString) macro_clock sample_calls
           (built sample_calls)); [by vm_compute | exact V].
Defined.

(** A residual that closes over a value of the flat program can be authored; the
    validator refuses the program. *)
Lemma closing_residual_refused :
  let p := built [State_ ("plasma", "U", macro_clock) None;
                  Node_ "state" "axpy" [0]
                    (Spec None (Some "plasma") None None None true (Some (time_point macro_clock 1)) None 0 None []);
                  Commit [("plasma", "U", macro_clock, 1)];
                  SolveLocal 0 ([Node_ "state" "linear_combine" [2; 0] plasma_spec], 4) None] in
  map v_op (p_values p) = ["state"; "axpy"; "solve_local_nonlinear"] ∧ validate no_recheck no_recheck p = Err ValueError.
Proof. by vm_compute. Qed.

(** So is a post-reflux phase that commits a value made before it. *)
Lemma outer_post_commit_refused :
  let p := built [State_ ("plasma", "U", macro_clock) None;
                  Node_ "state" "axpy" [0]
                    (Spec None (Some "plasma") None None None true (Some (time_point macro_clock 1)) None 0 None []);
                  Commit [("plasma", "U", macro_clock, 1)];
                  AfterSynchronization [Commit [("plasma", "U", macro_clock, 1)]] None] in
  map v_op (p_values p) = ["state"; "axpy"; "post_synchronization"] ∧ validate no_recheck no_recheck p = Err ValueError.
Proof. by vm_compute. Qed.

(** ** Committing one endpoint twice in a call *)

(** [commit_many] looks for an earlier commit only among those of earlier calls:
    two endpoints of one state on different clocks pass together, and the later
    entry of the mapping replaces the other. *)
Definition both_clocks : list call :=
  [State_ ("plasma", "U", macro_clock) None; State_ ("plasma", "U", fast_clock) None;
   Node_ "state" "axpy" [0] (Spec None (Some "plasma") None None None true (Some (time_point macro_clock 1)) None 0 None []);
   Node_ "state" "axpy" [1] (Spec None (Some "plasma") None None None true (Some (time_point fast_clock 1)) None 0 None [])].

Lemma commit_overwritten :
  (p ← run_calls (fun _ => EmptyString) (both_clocks ++ [Commit [("plasma", "U", macro_clock, 2); ("plasma", "U", fast_clock, 3)]])
         (new_program macro_clock);
   Ok (p_commits p)) = Ok [("U", 3)]
  ∧ run_calls (fun _ => EmptyString)
      (both_clocks ++ [Commit [("plasma", "U", macro_clock, 2)]; Commit [("plasma", "U", fast_clock, 3)]])
      (new_program macro_clock) = Err ValueError.
Proof. by vm_compute. Qed.
