(* ===== verification/TemporalManifest.v ===== *)
(** * The temporal manifest of a program

    [python/pops/time/_program/temporal_manifest.py]: the clock schedule derived
    from an authored program, persisted next to its checkpoints; its rows are
    those the restart envelope (Temporal) validates.  A manifest built from an
    authored program is one the restart accepts unless a subcycle advances the
    primary clock, and its tick counts are the products of the subcycle counts
    down to the clock.  Synchronizations are those of [SampleAndHold]. *)
From S2P Require Import Prelude Binary64 SortedKeys Scalar Manifest Ownership Points EveryDt Schedule Authoring AuthoringSound Temporal.

(** ** Histories *)

(** The compared fields of a [HistoryContract], and the canonical text of its
    interpolation. *)
Record contract := Contract {
  hk_depth : Z; hk_clock : Clock; hk_state : string; hk_space : option space; hk_interpolation : string }.

(** The canonical texts of the descriptive data of the rows: a clock's
    descriptor, the state and space of a history, its validity and its
    interpolation without and with a contract, and what no check reads. *)
Record texts := Texts {
  tx_clock : Clock → string; tx_state : string → option string → string; tx_space : option space → string;
  tx_validity : Z → option contract → string; tx_exact : string; tx_rest : program → string }.

(** The history tables of the program: [_histories], [_histories_ncomp],
    [_history_state_refs], [_history_spaces], the keys of
    [_time_history_configs] and [_history_contracts]. *)
Record tables := Tables {
  ht_depths : list (string * Z); ht_ncomp : list (string * Z); ht_states : list (string * string);
  ht_spaces : list (string * space); ht_configs : list state_key; ht_contracts : list (state_key * contract) }.

(** ** Walking the program *)

(** The sets and rows the first loop fills. *)
Record scan := Scan {
  sn_clocks : list Clock; sn_parents : list (Clock * (Clock * Z)); sn_subcycles : list subcycle_row;
  sn_syncs : list sync_row; sn_schedules : list schedule_row }.

(** [set.add] *)
Definition set_add {A} `{EqDecision A} (x : A) (s : list A) : list A := if bool_decide (x ∈ s) then s else s ++ [x].

Definition node_key (v : node) : Z := Z.of_nat (v_id v).

Section Build.
(** The hash of canonical data, the local names of block and state handles, and
    the canonical text of the descriptive fields. *)
Context (digest : json → string) (block_name state_name : string → string) (describe : texts).

Definition clock_id (c : Clock) : string := qualified_id digest c.

(** The body of the loop over the nodes. *)
Definition scan_crossing (p : program) (a : scan) (v : node) : res scan :=
  let a := Scan (set_add (v_clock v) (sn_clocks a)) (sn_parents a) (sn_subcycles a) (sn_syncs a) (sn_schedules a) in
  if String.eqb (v_op v) "subcycle" then
    match v_parent v with
    | None => Err KeyError
    | Some parent =>
        let relation := (parent, v_count v) in
        _ ← require (match dget (v_clock v) (sn_parents a) with
                     | Some prior => bool_decide (prior = relation) | None => true end) ValueError;
        Ok (Scan (set_add parent (sn_clocks a)) (dset (v_clock v) relation (sn_parents a))
              (sn_subcycles a ++ [SubcycleRow (node_key v) (clock_id parent) (clock_id (v_clock v)) (v_count v)])
              (sn_syncs a) (sn_schedules a))
    end
  else if String.eqb (v_op v) "synchronize" then
    match v_inputs v with
    | [] => Err IndexError
    | s :: _ =>
        w ← require_owned p s;
        Ok (Scan (set_add (v_clock w) (sn_clocks a)) (sn_parents a) (sn_subcycles a)
              (sn_syncs a ++ [SyncRow (node_key v) (clock_id (v_clock w)) (clock_id (v_clock v)) SAMPLE_AND_HOLD]) (sn_schedules a))
    end
  else Ok a.

Definition RETAINED_OPS : list string := ["solve_fields"; "solve_fields_from_blocks"].

Definition scan_schedule (a : scan) (v : node) : res scan :=
  match v_schedule v with
  | None => Ok a
  | Some s =>
      _ ← validate_site s (v_clock v) (v_point v);
      cached ← native_schedule_cache_required digest s (bool_decide (v_op v ∈ RETAINED_OPS));
      Ok (Scan (set_add (schedule_clock s) (sn_clocks a)) (sn_parents a) (sn_subcycles a) (sn_syncs a)
            (sn_schedules a ++ [ScheduleRow (node_key v) (clock_id (schedule_clock s)) cached]))
  end.

Definition scan_node (p : program) (a : scan) (v : node) : res scan :=
  a ← scan_crossing p a v; scan_schedule a v.

(** ** Ticks *)

(** [resolve]; the fuel stands for Python's stack, and running out of it for
    [RecursionError]. *)
Fixpoint resolve (fuel : nat) (parents : list (Clock * (Clock * Z))) (visiting : list Clock)
    (ticks : list (Clock * Z)) (clock : Clock) : res (list (Clock * Z) * Z) :=
  match fuel with
  | O => Err RuntimeError
  | S fuel =>
      match dget clock ticks with
      | Some known => Ok (ticks, known)
      | None =>
          _ ← require (bool_decide (clock ∉ visiting)) ValueError;
          match dget clock parents with
          | None => Err ValueError
          | Some (parent, count) =>
              '(ticks, t) ← resolve fuel parents (clock :: visiting) ticks parent;
              Ok (dset clock (t * count) ticks, t * count)
          end
      end
  end.

(** One recursion per declared relation is enough. *)
Definition resolve_all (primary : Clock) (parents : list (Clock * (Clock * Z))) (clocks : list Clock)
    : res (list (Clock * Z)) :=
  fold_res (fun ticks c => '(ticks, _) ← resolve (S (length parents)) parents [] ticks c; Ok ticks)
    [(primary, 1)] clocks.

(** ** History rows *)

Definition history_name (key : state_key) : string :=
  let '(block, state, _) := key in block_name block +:+ "." +:+ state_name state.

(** [history_clocks] at a name. *)
Definition ring_clocks (p : program) (h : tables) (nodes : list node) (name : string) : list Clock :=
  remove_dups (
    map v_clock (List.filter (fun v => bool_decide (v_history v = Some name)) nodes)
    ++ map (fun kv => kv.1.2) (List.filter (fun kv => bool_decide (kv.1 ∈ ht_configs h ∧ history_name kv.1 = name)) (p_states p))).

(** [_history_contracts] *)
Definition history_contracts (h : tables) : res (list (string * contract)) :=
  fold_res (fun result kv =>
    _ ← require (bool_decide (history_name kv.1 ∉ dkeys result)) ValueError;
    Ok (dset (history_name kv.1) kv.2 result)) [] (ht_contracts h).

Definition history_row_of (p : program) (h : tables) (nodes : list node) (typed : list (string * contract))
    (entry : string * Z) : res history_row :=
  let '(name, depth) := entry in
  match ring_clocks p h nodes name with
  | [clock] =>
      _ ← match dget name typed with
          | None => Ok tt
          | Some c =>
              require (bool_decide (hk_depth c = depth ∧ hk_clock c = clock
                                    ∧ dget name (ht_states h) = Some (hk_state c)
                                    ∧ hk_space c = dget name (ht_spaces h))) RuntimeError
          end;
      Ok (HistoryRow name (clock_id clock) depth (depth + 1) (dget name (ht_ncomp h))
            (tx_state describe name (dget name (ht_states h))) (tx_space describe (dget name (ht_spaces h)))
            (tx_validity describe depth (dget name typed))
            (match dget name typed with Some c => hk_interpolation c | None => tx_exact describe end))
  | _ => Err ValueError
  end.

(** ** [build_temporal_manifest] *)

(** [sorted(rows, key=...)] is stable. *)
Fixpoint insert_row {A} (key : A → Z) (x : A) (l : list A) : list A :=
  match l with
  | [] => [x]
  | y :: l => if key x <=? key y then x :: y :: l else y :: insert_row key x l
  end.
Definition sort_rows {A} (key : A → Z) (l : list A) : list A := foldr (insert_row key) [] l.

(** [_clock_data]; the descriptor decodes to the clock it was written from. *)
Definition clock_data (ticks : list (Clock * Z)) (kv : string * Clock) : clock_row :=
  ClockRow kv.1 (tx_clock describe kv.2) (clock_id kv.2) (default 0 (dget kv.2 ticks)).

Definition build_temporal_manifest (p : program) (h : tables) : res Temporal.schedule :=
  let nodes := walk_all (p_values p) in
  a ← fold_res (scan_node p) (Scan [p_clock p] [] [] [] []) nodes;
  let clocks := foldl (fun cs kv => set_add kv.1.2 cs) (sn_clocks a) (p_states p) in
  ticks ← resolve_all (p_clock p) (sn_parents a) clocks;
  typed ← history_contracts h;
  rows ← map_res (history_row_of p h nodes typed) (sort_keys (ht_depths h));
  Ok (Temporal.Schedule (clock_id (p_clock p))
        (map (clock_data ticks) (sort_keys (map (fun c => (clock_id c, c)) clocks)))
        (sort_rows sc_node (sn_subcycles a)) (sort_rows sy_node (sn_syncs a)) (sort_rows sd_node (sn_schedules a))
        rows (tx_rest describe p)).
End Build.

(** ** Sorting *)

Lemma insert_row_perm {A} (key : A → Z) x l : insert_row key x l ≡ₚ x :: l.
Proof.
  induction l as [|y l IH]; cbn; [done|]. destruct (key x <=? key y); [done|]. rewrite IH. apply Permutation_swap.
Qed.

Lemma sort_rows_perm {A} (key : A → Z) l : sort_rows key l ≡ₚ l.
Proof. induction l as [|x l IH]; cbn; [done|]. by rewrite insert_row_perm, IH. Qed.

Lemma set_add_elem {A} `{EqDecision A} (x y : A) s : y ∈ set_add x s ↔ y = x ∨ y ∈ s.
Proof. unfold set_add. case_bool_decide; set_solver. Qed.

Lemma set_add_NoDup {A} `{EqDecision A} (x : A) s : NoDup s → NoDup (set_add x s).
Proof.
  intros N. unfold set_add. case_bool_decide; [done|]. apply NoDup_app. split_and!; [done | set_solver | apply NoDup_singleton].
Qed.

(** ** The walk over the nodes *)

Section Scanned.
Context (digest : json → string) (p : program).
Let clock_id := clock_id digest.

(** What the loop has collected: over [done], and over [sdone] for schedules. *)
Record scanned (done sdone : list node) (a : scan) : Prop := Scanned {
  sk_clocks : NoDup (sn_clocks a);
  sk_primary : p_clock p ∈ sn_clocks a;
  sk_nodes : ∀ v, v ∈ done → v_clock v ∈ sn_clocks a;
  sk_parents : ∀ c parent count, dget c (sn_parents a) = Some (parent, count) →
    parent ∈ sn_clocks a
    ∧ ∃ v, v ∈ done ∧ v_op v = "subcycle" ∧ v_clock v = c ∧ v_parent v = Some parent ∧ v_count v = count;
  sk_related : ∀ v, v ∈ done → v_op v = "subcycle" → ∃ parent, v_parent v = Some parent
    ∧ dget (v_clock v) (sn_parents a) = Some (parent, v_count v);
  sk_subcycles : Forall2 (fun r v => ∃ parent, v_parent v = Some parent
      ∧ r = SubcycleRow (node_key v) (clock_id parent) (clock_id (v_clock v)) (v_count v))
    (sn_subcycles a) (List.filter (fun v => String.eqb (v_op v) "subcycle") done);
  sk_syncs : Forall2 (fun r v => ∃ s rest w, v_inputs v = s :: rest ∧ p_issued p !! s = Some w
      ∧ v_clock w ∈ sn_clocks a ∧ r = SyncRow (node_key v) (clock_id (v_clock w)) (clock_id (v_clock v)) SAMPLE_AND_HOLD)
    (sn_syncs a) (List.filter (fun v => String.eqb (v_op v) "synchronize") done);
  sk_schedules : Forall2 (fun r v => ∃ s cached, v_schedule v = Some s ∧ schedule_clock s ∈ sn_clocks a
      ∧ r = ScheduleRow (node_key v) (clock_id (schedule_clock s)) cached)
    (sn_schedules a) (List.filter (fun v => negb (is_none (v_schedule v))) sdone) }.

Lemma scanned_nil : scanned [] [] (Scan [p_clock p] [] [] [] []).
Proof.
  split; cbn; try done; try (by intros ? ?%elem_of_nil); [apply NoDup_singleton | set_solver | constructor..].
Qed.

Lemma filter_snoc {A} (f : A → bool) l x : List.filter f (l ++ [x]) = List.filter f l ++ if f x then [x] else [].
Proof. rewrite List.filter_app. cbn. by destruct (f x). Qed.

(** More clocks keep what was collected. *)
Lemma scanned_clocks done sdone a cs :
  scanned done sdone a → NoDup cs → (∀ c, c ∈ sn_clocks a → c ∈ cs) →
  scanned done sdone (Scan cs (sn_parents a) (sn_subcycles a) (sn_syncs a) (sn_schedules a)).
Proof.
  intros [S1 S2 S3 S4 S5 S6 S7 S8] N H. split; cbn; auto.
  - intros c parent count Hp. destruct (S4 _ _ _ Hp). auto.
  - eapply Forall2_impl; [exact S7|]. intros r v (s & rest & w & ? & ? & ? & ?). exists s, rest, w. auto.
  - eapply Forall2_impl; [exact S8|]. intros r v (s & cached & ? & ? & ?). exists s, cached. auto.
Qed.

Lemma scanned_add done sdone a c :
  scanned done sdone a →
  scanned done sdone (Scan (set_add c (sn_clocks a)) (sn_parents a) (sn_subcycles a) (sn_syncs a) (sn_schedules a)).
Proof.
  intros S. apply scanned_clocks; [done | by apply set_add_NoDup, (sk_clocks _ _ _ S) |].
  intros x Hx. apply set_add_elem. by right.
Qed.

Lemma scan_crossing_ok done sdone a v a' :
  scanned done sdone a → scan_crossing digest p a v = Ok a' → scanned (done ++ [v]) sdone a'.
Proof.
  intros S H. apply (scanned_add _ _ _ (v_clock v)) in S. unfold scan_crossing in H.
  set (cs := set_add (v_clock v) (sn_clocks a)) in *.
  assert (Hv : v_clock v ∈ cs) by (apply set_add_elem; by left). clearbody cs.
  destruct (String.eqb_spec (v_op v) "subcycle") as [Ho|Ho].
  - destruct (v_parent v) as [parent|] eqn:Ep; [|discriminate H]. inv_ok.
    apply (scanned_add _ _ _ parent) in S. cbn in *. destruct S as [S1 S2 S3 S4 S5 S6 S7 S8].
    split; cbn in *; try done; rewrite ?filter_snoc, ?Ho, ?app_nil_r; try done.
    + intros w [?| ->%list_elem_of_singleton]%elem_of_app; [auto | apply set_add_elem; by right].
    + intros c q count. rewrite dget_dset. case_decide as Hc.
      * intros [= <- <-]. split; [apply set_add_elem; by left|]. exists v. split_and!; try done. set_solver.
      * intros Hq. destruct (S4 _ _ _ Hq) as [? (w & ? & ?)]. split; [done|]. exists w. split; [set_solver | done].
    + intros w [Hw| ->%list_elem_of_singleton]%elem_of_app Hop.
      * destruct (S5 w Hw Hop) as (q & Hq & Hd). exists q. split; [done|]. rewrite dget_dset. case_decide as Hc; [|done].
        rewrite Hc in Hd. match goal with R : match _ with _ => _ end = true |- _ => rewrite Hd in R; apply bool_decide_eq_true in R end.
        congruence.
      * exists parent. split; [done|]. by rewrite dget_dset, decide_True.
    + apply Forall2_app; [done|]. constructor; [by exists parent | constructor].
  - destruct (String.eqb_spec (v_op v) "synchronize") as [Hy|Hy].
    + destruct (v_inputs v) as [|s rest] eqn:Ei; [discriminate H|]. inv_ok.
      match goal with O : require_owned _ _ = Ok ?w |- _ => apply owned_ok in O; rename O into Hw end.
      apply (scanned_add _ _ _ (v_clock a0)) in S. cbn in *. destruct S as [S1 S2 S3 S4 S5 S6 S7 S8].
      split; cbn in *; try done; rewrite ?filter_snoc, ?Hy, ?app_nil_r; try done.
      * intros w [?| ->%list_elem_of_singleton]%elem_of_app; [auto | apply set_add_elem; by right].
      * intros c q count Hq. destruct (S4 _ _ _ Hq) as [? (w & ? & ?)]. split; [done|]. exists w. split; [set_solver | done].
      * intros w [Hin| ->%list_elem_of_singleton]%elem_of_app Hop; [by apply S5 | congruence].
      * apply Forall2_app; [done|]. constructor; [|constructor]. exists s, rest, a0. split_and!; try done.
        apply set_add_elem. by left.
    + injection H as <-. destruct S as [S1 S2 S3 S4 S5 S6 S7 S8].
      split; cbn in *; try done; rewrite ?filter_snoc; try done.
      * intros w [?| ->%list_elem_of_singleton]%elem_of_app; auto.
      * intros c q count Hq. destruct (S4 _ _ _ Hq) as [? (w & ? & ?)]. split; [done|]. exists w. split; [set_solver | done].
      * intros w [Hin| ->%list_elem_of_singleton]%elem_of_app Hop; [by apply S5 | congruence].
      * apply String.eqb_neq in Ho. by rewrite Ho, app_nil_r.
      * apply String.eqb_neq in Hy. by rewrite Hy, app_nil_r.
Qed.

Lemma scan_schedule_ok done sdone a v a' :
  scanned done sdone a → scan_schedule digest a v = Ok a' → scanned done (sdone ++ [v]) a'.
Proof.
  intros S H. unfold scan_schedule in H. destruct (v_schedule v) as [s|] eqn:Es.
  - inv_ok. apply (scanned_add _ _ _ (schedule_clock s)) in S. destruct S as [S1 S2 S3 S4 S5 S6 S7 S8].
    split; cbn in *; try done. rewrite filter_snoc, Es. cbn. apply Forall2_app; [done|]. constructor; [|constructor].
    eexists s, _. split_and!; try done. apply set_add_elem. by left.
  - injection H as <-. destruct S as [S1 S2 S3 S4 S5 S6 S7 S8]. split; try done. by rewrite filter_snoc, Es, app_nil_r.
Qed.

Lemma scan_nodes_ok nodes : ∀ done a a',
  scanned done done a → fold_res (scan_node digest p) a nodes = Ok a' → scanned (done ++ nodes) (done ++ nodes) a'.
Proof.
  induction nodes as [|v nodes IH]; intros done a a' S H; cbn in H.
  { injection H as <-. by rewrite app_nil_r. }
  inv_ok. rewrite (cons_middle v done nodes), app_assoc. eapply IH; [|exact H].
  match goal with N : scan_node _ _ a v = Ok _ |- _ => unfold scan_node in N end. inv_ok.
  eapply scan_schedule_ok; [|eassumption]. by eapply scan_crossing_ok.
Qed.

Lemma scan_states_ok done sdone a states :
  scanned done sdone a →
  let cs := foldl (fun cs (kv : state_key * (option space * option nat)) => set_add kv.1.2 cs) (sn_clocks a) states in
  scanned done sdone (Scan cs (sn_parents a) (sn_subcycles a) (sn_syncs a) (sn_schedules a))
  ∧ ∀ kv, kv ∈ states → kv.1.2 ∈ cs.
Proof.
  intros S cs.
  assert (H : NoDup cs ∧ (∀ c, c ∈ sn_clocks a → c ∈ cs) ∧ ∀ kv, kv ∈ states → kv.1.2 ∈ cs).
  { unfold cs. pose proof (sk_clocks _ _ _ S) as N. clear S. revert N. generalize (sn_clocks a). clear.
    induction states as [|kv states IH]; intros l N; cbn.
    { split_and!; [done | done | by intros ? ?%elem_of_nil]. }
    destruct (IH (set_add kv.1.2 l)) as (H1 & H2 & H3); [by apply set_add_NoDup|]. split_and!; [done | |].
    - intros c Hc. apply H2, set_add_elem. by right.
    - intros x [->|Hx]%elem_of_cons; [apply H2, set_add_elem; by left | by apply H3]. }
  destruct H as (H1 & H2 & H3). split; [by apply scanned_clocks | done].
Qed.
End Scanned.

(** ** Ticks *)

(** A clock whose declared parents lead to the primary one in [n] steps. *)
Inductive reaches (primary : Clock) (parents : list (Clock * (Clock * Z))) : nat → Clock → Z → Prop :=
| reaches_primary : reaches primary parents 0 primary 1
| reaches_parent n c parent count t :
    c ≠ primary → dget c parents = Some (parent, count) → reaches primary parents n parent t →
    reaches primary parents (S n) c (t * count).

Section Resolve.
Context (primary : Clock) (parents : list (Clock * (Clock * Z))).

Lemma reaches_unique n c t : reaches primary parents n c t → ∀ m u, reaches primary parents m c u → n = m ∧ t = u.
Proof.
  induction 1 as [|n c parent count t Hc Hd _ IH]; intros m u H; inversion H; subst; try done.
  match goal with H1 : dget c parents = Some _ |- _ => rewrite Hd in H1; injection H1 as <- <- end.
  match goal with R : reaches _ _ _ parent _ |- _ => by destruct (IH _ _ R) as [-> ->] end.
Qed.

(** What the tick table holds. *)
Definition ticks_ok (ticks : list (Clock * Z)) : Prop :=
  dget primary ticks = Some 1 ∧ ∀ c t, dget c ticks = Some t → ∃ n, reaches primary parents n c t.

Lemma resolve_sound fuel : ∀ visiting ticks c ticks' t,
  ticks_ok ticks → resolve fuel parents visiting ticks c = Ok (ticks', t) →
  ticks_ok ticks' ∧ dget c ticks' = Some t ∧ (∀ x u, dget x ticks = Some u → dget x ticks' = Some u)
  ∧ ∀ x, x ∈ visiting → dget x ticks' = dget x ticks.
Proof.
  induction fuel as [|fuel IH]; intros visiting ticks c ticks' t Hok H; [discriminate H|]. cbn in H.
  destruct (dget c ticks) as [known|] eqn:Ek.
  { injection H as <- <-. split_and!; try done; apply Hok. }
  inv_ok. bools. destruct (dget c parents) as [[parent count]|] eqn:Ep; [|discriminate H]. inv_ok.
  match goal with R : resolve _ _ _ _ _ = Ok _ |- _ => destruct (IH _ _ _ _ _ Hok R) as ((P & N) & Hd & Hold & Hkeep) end.
  assert (Hc : c ≠ primary) by (intros ->; destruct Hok as [Hp _]; congruence).
  destruct (N _ _ Hd) as (n & Hn). split_and!.
  - split; [rewrite dget_dset, decide_False; congruence|]. intros x u. rewrite dget_dset. case_decide as Hx; [|apply N].
    intros [= <-]. subst x. exists (S n). by apply reaches_parent with parent.
  - by rewrite dget_dset, decide_True.
  - intros x u Hx. rewrite dget_dset, decide_False; [by apply Hold | congruence].
  - intros x Hx. rewrite dget_dset, decide_False; [apply Hkeep; by right | set_solver].
Qed.

(** The recursion is no deeper than the relations. *)
Lemma resolve_fuel fuel : ∀ visiting ticks c,
  NoDup visiting → (∀ x, x ∈ visiting → x ∈ dkeys parents) → (length parents < fuel + length visiting)%nat →
  resolve fuel parents visiting ticks c ≠ Err RuntimeError.
Proof.
  induction fuel as [|fuel IH]; intros visiting ticks c N Hin Hlt.
  { pose proof (submseteq_length _ _ (NoDup_submseteq _ _ N Hin)) as Hle. unfold dkeys in Hle.
    rewrite length_map in Hle. lia. }
  cbn. destruct (dget c ticks); [done|]. case_bool_decide as Hc; [|done]. cbn [require mbind res_bind].
  destruct (dget c parents) as [[parent count]|] eqn:Ep; [|done].
  destruct (resolve fuel parents (c :: visiting) ticks parent) as [[ticks' t]|e] eqn:E; cbn; [done|].
  intros [= ->]. revert E. apply IH; [by constructor | | cbn; lia].
  intros x [->|Hx]%elem_of_cons; [|by apply Hin]. apply dget_Some_elem in Ep. apply list_elem_of_fmap.
  by exists (c, (parent, count)).
Qed.

(** A clock that reaches the primary one resolves. *)
Lemma resolve_complete fuel : ∀ visiting ticks n c t,
  ticks_ok ticks → reaches primary parents n c t → (∀ x, x ∈ visiting → ∃ m u, reaches primary parents m x u ∧ (n < m)%nat) →
  resolve fuel parents visiting ticks c ≠ Err RuntimeError →
  ∃ ticks', resolve fuel parents visiting ticks c = Ok (ticks', t).
Proof.
  induction fuel as [|fuel IH]; intros visiting ticks n c t Hok Hr Hv Hf; [done|]. cbn in *.
  destruct (dget c ticks) as [known|] eqn:Ek.
  { destruct (proj2 Hok _ _ Ek) as (m & Hm). destruct (reaches_unique _ _ _ Hr _ _ Hm) as [_ ->]. by exists ticks. }
  assert (Hin : c ∉ visiting).
  { intros Hin. destruct (Hv c Hin) as (m & u & Hm & Hlt). destruct (reaches_unique _ _ _ Hr _ _ Hm) as [? _]. lia. }
  rewrite (bool_decide_eq_true_2 _ Hin) in *. cbn [require mbind res_bind] in *.
  inversion Hr as [|n' c' parent count t' Hc Hd Hp]; subst; [destruct Hok; congruence|]. rewrite Hd in *.
  destruct (IH (c :: visiting) ticks n' parent t') as [ticks' E]; try done.
  - intros x [->|Hx]%elem_of_cons; [exists (S n'), (t' * count); split; [done | lia]|].
    destruct (Hv x Hx) as (m & u & ? & ?). exists m, u. split; [done | lia].
  - intros E. by rewrite E in Hf.
  - rewrite E. cbn. by eexists.
Qed.

Lemma resolve_errors fuel : ∀ visiting ticks c e,
  resolve fuel parents visiting ticks c = Err e → e = ValueError ∨ e = RuntimeError.
Proof.
  induction fuel as [|fuel IH]; intros visiting ticks c e H; cbn in H; [right; congruence|].
  destruct (dget c ticks); [done|]. case_bool_decide; cbn in H; [|left; congruence].
  destruct (dget c parents) as [[parent count]|]; [|left; congruence].
  destruct (resolve fuel parents (c :: visiting) ticks parent) as [[ticks' t]|e'] eqn:E; [done|].
  injection H as <-. by eapply IH.
Qed.

Lemma resolve_total ticks c e :
  ticks_ok ticks → resolve (S (length parents)) parents [] ticks c = Err e →
  e = ValueError ∧ ∀ n t, ¬ reaches primary parents n c t.
Proof.
  intros Hok E.
  assert (Hf : resolve (S (length parents)) parents [] ticks c ≠ Err RuntimeError).
  { apply resolve_fuel; [constructor | by intros x ?%elem_of_nil | cbn; lia]. }
  split.
  - destruct (resolve_errors _ _ _ _ _ E) as [?| ->]; [done|]. by rewrite E in Hf.
  - intros n t Hr. destruct (resolve_complete (S (length parents)) [] ticks n c t Hok Hr) as [ticks' E']; [by intros x ?%elem_of_nil | done |].
    congruence.
Qed.

Lemma resolve_all_sound clocks : ∀ ticks ticks',
  ticks_ok ticks →
  fold_res (fun ticks c => '(ticks, _) ← resolve (S (length parents)) parents [] ticks c; Ok ticks) ticks clocks = Ok ticks' →
  ticks_ok ticks' ∧ (∀ x u, dget x ticks = Some u → dget x ticks' = Some u)
  ∧ ∀ c, c ∈ clocks → is_Some (dget c ticks').
Proof.
  induction clocks as [|c clocks IH]; intros ticks ticks' Hok H; cbn [fold_res] in H.
  { injection H as <-. split_and!; [done | done | by intros c ?%elem_of_nil]. }
  inv_ok. match goal with R : resolve _ _ _ _ _ = Ok _ |- _ =>
    destruct (resolve_sound _ _ _ _ _ _ Hok R) as (Hok1 & Hd & Hold & _) end.
  destruct (IH _ _ Hok1 H) as (? & Hold' & Hall). split_and!; [done | auto |].
  intros x [->|Hx]%elem_of_cons; [eexists; by apply Hold' | by apply Hall].
Qed.

Lemma start_ok : ticks_ok [(primary, 1)].
Proof.
  split; cbn; [by rewrite decide_True|]. intros c t. case_decide as H; [|done]. intros [= <-]. subst c.
  exists 0%nat. constructor.
Qed.
End Resolve.

(** Tick resolution terminates within one recursion per relation and decides
    the nesting: when every clock in use reaches the primary clock through its
    declared parents, each gets the product of the counts on its way; otherwise
    (an undeclared clock or a cycle) the result is a [ValueError]. *)
Theorem resolve_all_decides primary parents clocks :
  match resolve_all primary parents clocks with
  | Ok ticks => ∀ c, c ∈ clocks → ∃ n t, dget c ticks = Some t ∧ reaches primary parents n c t
  | Err e => e = ValueError ∧ ∃ c, c ∈ clocks ∧ ∀ n t, ¬ reaches primary parents n c t
  end.
Proof.
  destruct (resolve_all primary parents clocks) as [ticks|e] eqn:E; unfold resolve_all in E.
  - intros c Hc. destruct (resolve_all_sound _ _ _ _ _ (start_ok primary parents) E) as ((_ & H) & _ & Hall).
    destruct (Hall c Hc) as [t Ht]. destruct (H c t Ht) as [n Hn]. by exists n, t.
  - revert E. generalize (start_ok primary parents). generalize [(primary, 1)].
    induction clocks as [|c clocks IH]; intros ticks Hok E; cbn [fold_res] in E; [done|].
    destruct (resolve _ _ _ _ _) as [[ticks' t]|e'] eqn:R; cbn [mbind res_bind] in E.
    + destruct (resolve_sound _ _ _ _ _ _ _ _ Hok R) as (Hok' & _). destruct (IH _ Hok' E) as (? & x & Hx & ?).
      split; [done|]. exists x. split; [by right | done].
    + injection E as <-. destruct (resolve_total _ _ _ _ _ Hok R). split; [done|]. exists c. split; [left | done].
Qed.

(** ** What the restart envelope accepts *)

Lemma node_ok z : 0 <= z → node_id z = Ok z.
Proof. intros H. unfold node_id. by rewrite (proj2 (Z.leb_le _ _) H). Qed.
Lemma count_ok z : 0 < z → positive_count z = Ok z.
Proof. intros H. unfold positive_count. by rewrite (proj2 (Z.ltb_lt _ _) H). Qed.
Lemma fresh_ok {A} `{EqDecision A} (l : list A) x : x ∉ l → fresh l x = Ok (x :: l).
Proof. intros H. unfold fresh. by rewrite (bool_decide_eq_true_2 _ H). Qed.

Lemma clocks_accepted rows : ∀ acc,
  NoDup (map ck_id rows) →
  (∀ r, r ∈ rows → ck_id r ∉ dkeys acc ∧ 0 < ck_ticks r ∧ ck_identity r = ck_id r) →
  fold_res check_clock acc rows = Ok (acc ++ map (fun r => (ck_id r, ck_ticks r)) rows).
Proof.
  induction rows as [|r rows IH]; intros acc N H; cbn [fold_res map]; [by rewrite app_nil_r|].
  cbn in N. apply NoDup_cons in N as [Hr N]. destruct (H r) as (Hf & Hp & Hi); [left|].
  assert (E : check_clock acc r = Ok (acc ++ [(ck_id r, ck_ticks r)])).
  { unfold check_clock. rewrite Hi, String.eqb_refl. cbn [require mbind res_bind]. rewrite bool_decide_true by done. rewrite count_ok by done. cbn. by rewrite dset_fresh. }
  rewrite E. cbn [mbind res_bind]. rewrite IH; [by rewrite <- app_assoc | done |].
  intros x Hx. destruct (H x) as [Hx1 ?]; [by right|]. split; [|done]. unfold dkeys in *. rewrite map_app. cbn.
  rewrite elem_of_app, list_elem_of_singleton. intros [?|Heq]; [done|]. apply Hr. rewrite <- Heq.
  apply list_elem_of_fmap. by exists x.
Qed.

(** A loop over rows with distinct keys that adds each key to those seen. *)
Lemma keyed_accepted {A K} `{EqDecision K} (check : list K → A → res (list K)) (key : A → K) rows : ∀ seen,
  NoDup (map key rows) → (∀ r, r ∈ rows → key r ∉ seen) →
  (∀ r seen, r ∈ rows → key r ∉ seen → check seen r = Ok (key r :: seen)) →
  is_ok (fold_res check seen rows) = true.
Proof.
  induction rows as [|r rows IH]; intros seen N Hs Hc; cbn [fold_res]; [done|].
  cbn in N. apply NoDup_cons in N as [Hr N]. rewrite Hc; [|left | apply Hs; left]. cbn [mbind res_bind].
  apply IH; [done | | intros; apply Hc; [by right | done]].
  intros x Hx [Heq|Hin]%elem_of_cons; [|by apply (Hs x); [right|]]. apply Hr. rewrite <- Heq.
  apply list_elem_of_fmap. by exists x.
Qed.

(** What a subcycle row owes the clock table. *)
Definition row_ok (clocks : list (string * Z)) (r : subcycle_row) : Prop :=
  0 <= sc_node r ∧ 0 < sc_count r ∧ sc_parent r ≠ sc_child r
  ∧ ∃ t, dget (sc_parent r) clocks = Some t ∧ dget (sc_child r) clocks = Some (t * sc_count r).

Lemma subcycles_accepted clocks (all rows : list subcycle_row) : ∀ nodes relations,
  NoDup (map sc_node rows) → (∀ r, r ∈ rows → sc_node r ∉ nodes) →
  (∀ r, r ∈ rows → r ∈ all ∧ row_ok clocks r) →
  (∀ r r', r ∈ all → r' ∈ all → sc_child r = sc_child r' → (sc_parent r, sc_count r) = (sc_parent r', sc_count r')) →
  (∀ k rel, dget k relations = Some rel → ∃ r, r ∈ all ∧ sc_child r = k ∧ rel = (sc_parent r, sc_count r)) →
  ∃ nodes' relations', fold_res (check_subcycle clocks) (nodes, relations) rows = Ok (nodes', relations')
    ∧ ∀ k, k ∈ dkeys relations' ↔ k ∈ dkeys relations ∨ k ∈ map sc_child rows.
Proof.
  induction rows as [|r rows IH]; intros nodes relations N Hn Hr Hcons Hrel; cbn [fold_res map].
  { exists nodes, relations. split; [done|]. intros k. set_solver. }
  cbn in N. apply NoDup_cons in N as [Hr1 N]. destruct (Hr r) as [Hall (H1 & H2 & H3 & t & H4 & H5)]; [left|].
  destruct (IH (sc_node r :: nodes) (dset (sc_child r) (sc_parent r, sc_count r) relations)) as (nodes' & relations' & E & Hk);
    [done | | intros; apply Hr; by right | done | |].
  - intros x Hx [Heq|Hin]%elem_of_cons; [|by apply (Hn x); [right|]]. apply Hr1. rewrite <- Heq.
    apply list_elem_of_fmap. by exists x.
  - intros k rel. rewrite dget_dset. case_decide as Hkey; [|apply Hrel]. intros [= <-]. by exists r.
  - exists nodes', relations'. split.
    + assert (Er : check_subcycle clocks (nodes, relations) r
                   = Ok (sc_node r :: nodes, dset (sc_child r) (sc_parent r, sc_count r) relations)).
      { unfold check_subcycle. rewrite (node_ok _ H1), (count_ok _ H2). cbn [mbind res_bind].
        rewrite fresh_ok by (apply Hn; left). cbn [mbind res_bind]. rewrite H4, H5.
        rewrite (proj2 (String.eqb_neq _ _) H3). cbn [negb require mbind res_bind].
        destruct (dget (sc_child r) relations) as [rel|] eqn:Ed; [|by rewrite Z.eqb_refl].
        destruct (Hrel _ _ Ed) as (r' & ? & ? & ->). rewrite bool_decide_true by (by apply Hcons).
        by rewrite Z.eqb_refl. }
      by rewrite Er.
    + intros k. rewrite Hk, dkeys_dset, elem_of_cons. case_decide; rewrite ?elem_of_app, ?list_elem_of_singleton; naive_solver.
Qed.

(** ** Accepted manifests *)

(** The history tables as the history API fills them. *)
Record tables_ok (h : tables) : Prop := TablesOk {
  to_names : NoDup (dkeys (ht_depths h));
  to_depths : ∀ name depth, (name, depth) ∈ ht_depths h → name ≠ EmptyString ∧ 0 < depth;
  to_ncomp : ∀ name n, dget name (ht_ncomp h) = Some n → 0 < n }.

Section Accepted.
Context (digest : json → string) (block_name state_name : string → string) (describe : texts).
Context (p : program) (a : scan) (cs : list Clock) (ticks : list (Clock * Z)).
Let nodes := walk_all (p_values p).
Let clock_id := clock_id digest.
Context (I : invariant true [] p) (S : scanned digest p nodes nodes (Scan cs (sn_parents a) (sn_subcycles a) (sn_syncs a) (sn_schedules a))).
Context (T : ∀ c, c ∈ cs → ∃ n t, dget c ticks = Some t ∧ reaches (p_clock p) (sn_parents a) n c t).
Context (D : NoDup (map clock_id cs)).
Context (Hprimary : ∀ v, v ∈ nodes → v_op v = "subcycle" → v_clock v ≠ p_clock p).

Lemma clock_id_inj c c' : c ∈ cs → c' ∈ cs → clock_id c = clock_id c' → c = c'.
Proof.
  revert D. clear. induction cs as [|x l IH]; intros N; [by intros ?%elem_of_nil|].
  cbn in N. apply NoDup_cons in N as [Hx N]. intros [->|Hc]%elem_of_cons [->|Hc']%elem_of_cons E; [done | | |by apply IH].
  - destruct Hx. rewrite E. apply list_elem_of_fmap. by exists c'.
  - destruct Hx. rewrite <- E. apply list_elem_of_fmap. by exists c.
Qed.

Lemma node_facts v : v ∈ nodes → facts true p v.
Proof.
  intros (u & Hu & Hv)%list_elem_of_In%in_flat_map. apply list_elem_of_In in Hu, Hv.
  pose proof (walk_known _ _ _ I u (listed_known _ _ _ u I ltac:(set_solver)) v Hv) as K.
  by apply (i_issued _ _ _ I) in K as [_ ?].
Qed.

Lemma nodes_NoDup : NoDup (map node_key nodes).
Proof.
  pose proof (i_walk _ _ _ I) as N. rewrite !walk_all_app, !map_app in N. apply NoDup_app in N as (N & _ & _).
  unfold node_key. fold nodes in N. change (map v_id nodes) with (v_id <$> nodes) in N.
  change (NoDup ((fun v => Z.of_nat (v_id v)) <$> nodes)). rewrite (list_fmap_compose v_id Z.of_nat).
  by apply NoDup_fmap_2; [intros x y ?; lia|].
Qed.

Lemma rows_NoDup {R} (rows : list R) (key : R → Z) (f : node → bool) (P : R → node → Prop) :
  Forall2 P rows (List.filter f nodes) → (∀ r v, P r v → key r = node_key v) → NoDup (map key (sort_rows key rows)).
Proof.
  intros F H. assert (N : NoDup (map key rows)).
  { rewrite (Forall2_keys P key node_key _ _ F H). apply filter_NoDup_map, nodes_NoDup. }
  change (NoDup (key <$> sort_rows key rows)). by rewrite sort_rows_perm.
Qed.

(** The clock table. *)
Definition clock_rows : list clock_row :=
  map (clock_data digest describe ticks) (sort_keys (map (fun c => (clock_id c, c)) cs)).
Definition table : list (string * Z) := map (fun r => (ck_id r, ck_ticks r)) clock_rows.

Lemma clock_rows_ids : map ck_id clock_rows ≡ₚ map clock_id cs.
Proof.
  unfold clock_rows. rewrite map_map. cbn.
  change (fst <$> sort_keys (map (fun c => (clock_id c, c)) cs) ≡ₚ map clock_id cs). rewrite sort_keys_perm.
  change (map fst (map (fun c => (clock_id c, c)) cs) ≡ₚ map clock_id cs). by rewrite map_map.
Qed.

Lemma table_keys : dkeys table ≡ₚ map clock_id cs.
Proof. unfold table, dkeys. rewrite map_map. exact clock_rows_ids. Qed.

Lemma table_NoDup : NoDup (dkeys table).
Proof. by rewrite table_keys. Qed.

Lemma in_table c : c ∈ cs → clock_id c ∈ dkeys table.
Proof. intros H. rewrite table_keys. apply list_elem_of_fmap. by exists c. Qed.

Lemma table_lookup c t : c ∈ cs → dget c ticks = Some t → dget (clock_id c) table = Some t.
Proof.
  intros Hc Ht. apply (dget_elem _ _ _ table_NoDup). unfold table, clock_rows. rewrite map_map. cbn.
  apply list_elem_of_fmap. exists (clock_id c, c). cbn. rewrite Ht. split; [done|].
  rewrite sort_keys_perm. apply list_elem_of_fmap. by exists c.
Qed.

Lemma counts_positive n c t : reaches (p_clock p) (sn_parents a) n c t → 0 < t.
Proof.
  induction 1 as [|n c parent count t Hc Hd _ IH]; [done|].
  destruct (sk_parents _ _ _ _ _ S _ _ _ Hd) as [_ (v & Hv & Hop & _ & _ & <-)].
  destruct (f_clock _ _ _ (node_facts v Hv) eq_refl) as [Hf _]. destruct (Hf Hop) as (? & _ & _ & ?). nia.
Qed.

Lemma rows_positive r : r ∈ clock_rows → 0 < ck_ticks r.
Proof.
  intros ([k c] & -> & Hin)%list_elem_of_fmap. rewrite sort_keys_perm in Hin.
  apply list_elem_of_fmap in Hin as (c' & [= -> ->] & Hc). destruct (T c' Hc) as (n & t & Ht & Hn). cbn. rewrite Ht.
  by eapply counts_positive.
Qed.

Lemma rows_identity r : r ∈ clock_rows → ck_identity r = ck_id r.
Proof.
  intros ([k c] & -> & Hin)%list_elem_of_fmap. rewrite sort_keys_perm in Hin.
  by apply list_elem_of_fmap in Hin as (c' & [= -> ->] & _).
Qed.

(** The rows of the subcycles. *)
Definition is_row (r : subcycle_row) (v : node) : Prop :=
  ∃ parent, v_parent v = Some parent ∧ r = SubcycleRow (node_key v) (clock_id parent) (clock_id (v_clock v)) (v_count v).

Lemma subcycle_of r : r ∈ sort_rows sc_node (sn_subcycles a) → ∃ v, v ∈ nodes ∧ v_op v = "subcycle" ∧ is_row r v.
Proof.
  rewrite sort_rows_perm. intros H. destruct (Forall2_left _ _ _ _ (sk_subcycles _ _ _ _ _ S) H) as (v & Hv & Hr).
  apply filter_elem in Hv as [Hv Ho]. exists v. split_and!; [done | by apply String.eqb_eq | done].
Qed.

Lemma subcycle_row_ok r : r ∈ sort_rows sc_node (sn_subcycles a) → row_ok table r.
Proof.
  intros (v & Hv & Ho & parent & Hp & ->)%subcycle_of. unfold row_ok. cbn.
  destruct (f_clock _ _ _ (node_facts v Hv) eq_refl) as [Hf _]. destruct (Hf Ho) as (parent' & Hp' & Hne & Hpos).
  rewrite Hp in Hp'. injection Hp' as <-.
  destruct (sk_related _ _ _ _ _ S v Hv Ho) as (parent' & Hp' & Hd). rewrite Hp in Hp'. injection Hp' as <-.
  destruct (sk_parents _ _ _ _ _ S _ _ _ Hd) as [Hin _]. pose proof (sk_nodes _ _ _ _ _ S v Hv) as Hc. cbn in *.
  split_and!; [unfold node_key; lia | done | intros E; by apply clock_id_inj in E |].
  destruct (T _ Hc) as (n & t & Ht & Hr). destruct (T _ Hin) as (m & u & Hu & Hru). exists u.
  split; [by apply table_lookup|]. rewrite (table_lookup _ _ Hc Ht). f_equal.
  inversion Hr as [|n' c' q count t' Hcp Hd' Hq]; subst; [by destruct (Hprimary v Hv Ho)|].
  rewrite Hd in Hd'. injection Hd' as <- <-. by destruct (reaches_unique _ _ _ _ _ Hru _ _ Hq) as [_ ->].
Qed.

Lemma subcycles_consistent r r' :
  r ∈ sort_rows sc_node (sn_subcycles a) → r' ∈ sort_rows sc_node (sn_subcycles a) → sc_child r = sc_child r' →
  (sc_parent r, sc_count r) = (sc_parent r', sc_count r').
Proof.
  intros (v & Hv & Ho & q & Hq & ->)%subcycle_of (v' & Hv' & Ho' & q' & Hq' & ->)%subcycle_of E. cbn in *.
  apply clock_id_inj in E; [|by apply (sk_nodes _ _ _ _ _ S)..].
  destruct (sk_related _ _ _ _ _ S v Hv Ho) as (w & Hw & Hd).
  destruct (sk_related _ _ _ _ _ S v' Hv' Ho') as (w' & Hw' & Hd'). cbn in *. rewrite E in Hd. rewrite Hd in Hd'. congruence.
Qed.

(** The related clocks are all but the primary one. *)
Lemma related_clocks k :
  (k ∈ dkeys table ∧ k ≠ clock_id (p_clock p)) ↔ k ∈ map sc_child (sort_rows sc_node (sn_subcycles a)).
Proof.
  rewrite table_keys. split.
  - intros [(c & -> & Hc)%list_elem_of_fmap Hne]. destruct (T c Hc) as (n & t & _ & Hr).
    inversion Hr as [|n' c' q count t' Hcp Hd Hq]; subst; [done|].
    destruct (sk_parents _ _ _ _ _ S _ _ _ Hd) as [_ (v & Hv & Ho & <- & Hp & _)].
    assert (Hf : v ∈ List.filter (fun v => String.eqb (v_op v) "subcycle") nodes).
    { apply filter_elem. split; [done|]. by apply String.eqb_eq. }
    destruct (Forall2_right _ _ _ _ (sk_subcycles _ _ _ _ _ S) Hf) as (r & Hrow & q' & _ & ->).
    apply list_elem_of_fmap. eexists. split; [|by rewrite sort_rows_perm]. done.
  - intros (r & -> & (v & Hv & Ho & q & _ & ->)%subcycle_of)%list_elem_of_fmap. cbn.
    pose proof (sk_nodes _ _ _ _ _ S v Hv) as Hc. cbn in Hc. split; [apply list_elem_of_fmap; by exists (v_clock v)|].
    intros E. apply clock_id_inj in E; [by apply (Hprimary v Hv Ho) | done | apply (sk_primary _ _ _ _ _ S)].
Qed.

Lemma subcycles_ok : ∃ seen relations,
  fold_res (check_subcycle table) ([], []) (sort_rows sc_node (sn_subcycles a)) = Ok (seen, relations)
  ∧ same_keys (List.filter (fun c => negb (String.eqb c (clock_id (p_clock p)))) (dkeys table)) (dkeys relations) = true.
Proof.
  destruct (subcycles_accepted table (sort_rows sc_node (sn_subcycles a)) (sort_rows sc_node (sn_subcycles a)) [] [])
    as (seen & relations & E & Hk).
  - apply (rows_NoDup _ _ _ _ (sk_subcycles _ _ _ _ _ S)). by intros r v (q & _ & ->).
  - by intros r _ ?%elem_of_nil.
  - intros r Hr. split; [done | by apply subcycle_row_ok].
  - apply subcycles_consistent.
  - done.
  - exists seen, relations. split; [done|]. apply same_keys_spec. intros k.
    rewrite filter_elem, Hk, <- related_clocks, negb_true_iff, String.eqb_neq.
    split; [intros H; by right | intros [H|H]; [by apply elem_of_nil in H | done]].
Qed.

Lemma syncs_ok : is_ok (fold_res (check_sync table) [] (sort_rows sy_node (sn_syncs a))) = true.
Proof.
  apply (keyed_accepted _ sy_node).
  - apply (rows_NoDup _ _ _ _ (sk_syncs _ _ _ _ _ S)). by intros r v (s & rest & w & _ & _ & _ & ->).
  - by intros r _ ?%elem_of_nil.
  - intros r seen Hr Hs. rewrite sort_rows_perm in Hr.
    destruct (Forall2_left _ _ _ _ (sk_syncs _ _ _ _ _ S) Hr) as (v & Hv & s & rest & w & Hi & Hw & Hc & ->).
    apply filter_elem in Hv as [Hv Ho]. apply String.eqb_eq in Ho. cbn in *.
    destruct (f_clock _ _ _ (node_facts v Hv) eq_refl) as [_ Hf]. destruct (Hf Ho) as (s' & w' & Hi' & Hw' & Hne).
    rewrite Hi in Hi'. injection Hi' as -> ->. rewrite Hw in Hw'. injection Hw' as <-.
    pose proof (sk_nodes _ _ _ _ _ S v Hv) as Hcv. cbn in Hcv.
    unfold check_sync. cbn. rewrite node_ok by (unfold node_key; lia). cbn [mbind res_bind]. rewrite fresh_ok by done.
    cbn [mbind res_bind]. rewrite !bool_decide_true by (by apply in_table).
    rewrite (proj2 (String.eqb_neq _ _)); [done|]. intros E. by apply clock_id_inj in E.
Qed.

Lemma schedules_ok : is_ok (fold_res (check_schedule table) [] (sort_rows sd_node (sn_schedules a))) = true.
Proof.
  apply (keyed_accepted _ sd_node).
  - apply (rows_NoDup _ _ _ _ (sk_schedules _ _ _ _ _ S)). by intros r v (s & cached & _ & _ & ->).
  - by intros r _ ?%elem_of_nil.
  - intros r seen Hr Hs. rewrite sort_rows_perm in Hr.
    destruct (Forall2_left _ _ _ _ (sk_schedules _ _ _ _ _ S) Hr) as (v & Hv & s & cached & _ & Hc & ->). cbn in *.
    unfold check_schedule. cbn. rewrite node_ok by (unfold node_key; lia). cbn [mbind res_bind]. rewrite fresh_ok by done.
    cbn [mbind res_bind]. by rewrite bool_decide_true by (by apply in_table).
Qed.

Lemma ring_in h name c :
  (∀ kv, kv ∈ p_states p → kv.1.2 ∈ cs) → c ∈ ring_clocks block_name state_name p h nodes name → c ∈ cs.
Proof.
  intros Hstates. unfold ring_clocks. rewrite elem_of_remove_dups, elem_of_app. intros [H|H].
  - apply list_elem_of_fmap in H as (v & -> & Hv). apply filter_elem in Hv as [Hv _]. by apply (sk_nodes _ _ _ _ _ S).
  - apply list_elem_of_fmap in H as (kv & -> & Hkv). apply filter_elem in Hkv as [Hkv _]. by apply Hstates.
Qed.

Lemma histories_ok h typed rows :
  (∀ kv, kv ∈ p_states p → kv.1.2 ∈ cs) → tables_ok h →
  map_res (history_row_of digest block_name state_name describe p h nodes typed) (sort_keys (ht_depths h)) = Ok rows →
  is_ok (fold_res (check_history table) [] rows) = true.
Proof.
  intros Hstates [H1 H2 H3] E%map_res_Forall2.
  assert (Hrow : ∀ e r, history_row_of digest block_name state_name describe p h nodes typed e = Ok r →
    ∃ c t1 t2 t3 t4, c ∈ cs ∧ r = HistoryRow e.1 (clock_id c) e.2 (e.2 + 1) (dget e.1 (ht_ncomp h)) t1 t2 t3 t4).
  { intros [name depth] r Hr. unfold history_row_of in Hr.
    destruct (ring_clocks block_name state_name p h nodes name) as [|c [|? ?]] eqn:Ec; try discriminate Hr. inv_ok.
    eexists c, _, _, _, _. split; [|done]. apply (ring_in h name); [done|]. rewrite Ec. left. }
  apply (keyed_accepted _ hr_name).
  - rewrite <- (Forall2_keys _ fst hr_name _ _ E).
    + change (NoDup (fst <$> sort_keys (ht_depths h))). rewrite sort_keys_perm. exact H1.
    + intros e r Hr. by destruct (Hrow e r Hr) as (c & ? & ? & ? & ? & _ & ->).
  - by intros r _ ?%elem_of_nil.
  - intros r seen Hr Hs. destruct (Forall2_right _ _ _ _ E Hr) as ([name depth] & He & Hrd).
    rewrite sort_keys_perm in He. destruct (H2 _ _ He) as [Hne Hpos].
    destruct (Hrow _ _ Hrd) as (c & ? & ? & ? & ? & Hc & ->). cbn in *. unfold check_history. cbn.
    rewrite (proj2 (String.eqb_neq _ _) Hne). cbn [negb require mbind res_bind]. rewrite fresh_ok by done.
    cbn [mbind res_bind]. rewrite bool_decide_true by (by apply in_table). cbn [require mbind res_bind].
    rewrite (count_ok _ Hpos). cbn [mbind res_bind]. rewrite Z.eqb_refl. cbn [require mbind res_bind].
    destruct (dget name (ht_ncomp h)) as [n|] eqn:En; [|done]. by rewrite (count_ok n) by (by apply (H3 name)).
Qed.

(** Sampling names its provider. *)
Lemma relations_ok m : fold_res (check_relation m) tt (sort_rows sy_node (sn_syncs a)) = Ok tt.
Proof.
  assert (H : ∀ r, r ∈ sort_rows sy_node (sn_syncs a) → sy_relation r = SAMPLE_AND_HOLD).
  { intros r Hr. rewrite sort_rows_perm in Hr.
    by destruct (Forall2_left _ _ _ _ (sk_syncs _ _ _ _ _ S) Hr) as (v & _ & s & rest & w & _ & _ & _ & ->). }
  induction (sort_rows sy_node (sn_syncs a)) as [|r rows IH]; cbn [fold_res]; [done|].
  assert (E : check_relation m tt r = Ok tt) by (unfold check_relation; by rewrite (H r) by left).
  rewrite E. cbn [mbind res_bind]. apply IH. intros x Hx. apply H. by right.
Qed.

Lemma manifest_accepted h typed rows rest :
  (∀ kv, kv ∈ p_states p → kv.1.2 ∈ cs) → tables_ok h →
  map_res (history_row_of digest block_name state_name describe p h nodes typed) (sort_keys (ht_depths h)) = Ok rows →
  let m := Temporal.Schedule (clock_id (p_clock p)) clock_rows (sort_rows sc_node (sn_subcycles a))
             (sort_rows sy_node (sn_syncs a)) (sort_rows sd_node (sn_schedules a)) rows rest in
  validate_program_schedule m = Ok m.
Proof.
  intros Hstates Hh Hrows m. unfold validate_program_schedule, m. cbn [ps_primary ps_clocks ps_subcycles ps_syncs ps_schedules ps_histories].
  assert (Hp : p_clock p ∈ cs) by apply (sk_primary _ _ _ _ _ S).
  replace (negb (String.eqb (clock_id (p_clock p)) EmptyString)) with true by done. cbn [require mbind res_bind].
  assert (Hne : match clock_rows with [] => false | _ => true end = true).
  { pose proof (in_table _ Hp) as Hin. unfold table in Hin. destruct clock_rows; [by apply elem_of_nil in Hin | done]. }
  rewrite Hne. cbn [require mbind res_bind].
  rewrite clocks_accepted; [| | intros r Hr; split_and!; [by intros ?%elem_of_nil | by apply rows_positive | by apply rows_identity]].
  2:{ pose proof table_NoDup as N. unfold table, dkeys in N. by rewrite map_map in N. }
  cbn [app mbind res_bind]. fold table.
  destruct (T _ Hp) as (n & t & Ht & Hr). rewrite (table_lookup _ _ Hp Ht).
  destruct (reaches_unique _ _ _ _ _ (reaches_primary _ _) _ _ Hr) as [_ <-]. rewrite bool_decide_true by done. cbn [require mbind res_bind].
  destruct subcycles_ok as (seen & relations & -> & Hsame). cbn [mbind res_bind]. rewrite Hsame. cbn [require mbind res_bind].
  pose proof syncs_ok as Hy. destruct (fold_res (check_sync table) [] _); [|done]. cbn [mbind res_bind].
  pose proof schedules_ok as Hd. destruct (fold_res (check_schedule table) [] _); [|done]. cbn [mbind res_bind].
  pose proof (histories_ok _ _ _ Hstates Hh Hrows) as Hi.
  destruct (fold_res (check_history table) [] rows); [|done]. cbn [mbind res_bind]. by rewrite relations_ok.
Qed.
End Accepted.

(** A manifest the restart accepts has no subcycle of the primary clock. *)
Lemma manifest_primary digest p nodes a m v :
  scanned digest p nodes nodes a → validate_program_schedule m = Ok m →
  ps_primary m = clock_id digest (p_clock p) → ps_subcycles m = sort_rows sc_node (sn_subcycles a) →
  v ∈ nodes → v_op v = "subcycle" → v_clock v ≠ p_clock p.
Proof.
  intros S Hv Hp Hs Hin Ho Hc.
  assert (Hf : v ∈ List.filter (fun v => String.eqb (v_op v) "subcycle") nodes).
  { apply filter_elem. split; [done|]. by apply String.eqb_eq. }
  destruct (Forall2_right _ _ _ _ (sk_subcycles _ _ _ _ _ S) Hf) as (r & Hrow & parent & _ & Hr).
  apply (validated_primary m m r Hv); [by rewrite Hs, sort_rows_perm | by rewrite Hr, Hp; cbn; rewrite Hc].
Qed.

(** C7: take a program authored by calls none of which moves a value to another
    point, history tables with distinct non-empty names, positive depths and
    positive component counts, and the temporal manifest built from them, where
    the hash tells the clocks in use apart.  The restart validator accepts that
    manifest exactly when no subcycle of the program advances the primary clock. *)
Theorem authored_manifest_restarts digest block_name state_name describe clock calls p h m :
  run_calls digest calls (new_program clock) = Ok p → forallb no_repoint calls = true →
  build_temporal_manifest digest block_name state_name describe p h = Ok m →
  NoDup (map ck_id (ps_clocks m)) → tables_ok h →
  validate_program_schedule m = Ok m
  ↔ ∀ v, v ∈ walk_all (p_values p) → v_op v = "subcycle" → v_clock v ≠ p_clock p.
Proof.
  intros Hrun Hpoint Hb Hdistinct Hh.
  destruct (run_calls_sound true digest calls (new_program clock) p) as [I _]; [done | by apply new_program_sound | done |].
  unfold build_temporal_manifest in Hb. inv_ok.
  match goal with F : fold_res (scan_node _ _) _ _ = Ok ?a |- _ =>
    pose proof (scan_nodes_ok digest p _ [] _ _ (scanned_nil digest p) F) as S0;
    destruct (scan_states_ok digest p _ _ _ (p_states p) S0) as [S Hstates] end.
  match goal with R : resolve_all _ ?parents ?clocks = Ok _ |- _ =>
    pose proof (resolve_all_decides (p_clock p) parents clocks) as T; rewrite R in T end.
  split; [intros Hm v; by apply (manifest_primary _ _ _ _ _ v S Hm)|]. intros Hprimary. eapply manifest_accepted; try done.
  change (NoDup (map ck_id (clock_rows digest describe (foldl (fun cs kv => set_add kv.1.2 cs) (sn_clocks a) (p_states p)) a0))) in Hdistinct.
  by rewrite clock_rows_ids in Hdistinct.
Qed.

(** A hash that tells clocks apart by name, and one history of depth two. *)
Definition name_digest (data : json) : string :=
  match data with JObj [_; (_, JStr name); _] => name | _ => EmptyString end.
Definition sample_tables : tables :=
  Tables [("plasma.U", 2)] [("plasma.U", 3)] [("plasma.U", "U")] [] [("plasma", "U", macro_clock)]
    [("plasma", "U", macro_clock, Contract 2 macro_clock "U" None "linear")].
Definition sample_texts : texts :=
  Texts clk_name (fun name state => default ("scalar-history:" +:+ name) state) (fun _ => "cells")
    (fun _ _ => "0..2") "exact" (fun _ => EmptyString).
Definition sample_manifest : Temporal.schedule :=
  Temporal.Schedule (clock_id name_digest macro_clock)
    [ClockRow (clock_id name_digest fast_clock) "fast" (clock_id name_digest fast_clock) 4;
     ClockRow (clock_id name_digest macro_clock) "macro" (clock_id name_digest macro_clock) 1]
    [SubcycleRow 4 (clock_id name_digest macro_clock) (clock_id name_digest fast_clock) 4]
    [SyncRow 2 (clock_id name_digest macro_clock) (clock_id name_digest fast_clock) SAMPLE_AND_HOLD;
     SyncRow 5 (clock_id name_digest fast_clock) (clock_id name_digest macro_clock) SAMPLE_AND_HOLD]
    [ScheduleRow 10 (clock_id name_digest macro_clock) true] [HistoryRow "plasma.U" (clock_id name_digest macro_clock) 2 3 (Some 3) "U" "cells" "0..2" "linear"]
    EmptyString.

Lemma authored_manifest_restarts_witness :
  build_temporal_manifest name_digest id id sample_texts (built sample_calls) sample_tables = Ok sample_manifest
  ∧ validate_program_schedule sample_manifest = Ok sample_manifest.
Proof.
  assert (B : build_temporal_manifest name_digest id id sample_texts (built sample_calls) sample_tables
              = Ok sample_manifest) by (by vm_compute).
  split; [exact B|].
  apply (authored_manifest_restarts name_digest id id sample_texts macro_clock sample_calls
           (built sample_calls) sample_tables sample_manifest).
  - by vm_compute.
  - by vm_compute.
  - exact B.
  - by apply (bool_decide_eq_true_1 _); vm_compute.
  - split; cbn.
    + apply NoDup_singleton.
    + intros name depth [= -> ->]%list_elem_of_singleton. split; [done | lia].
    + intros name n H. case_decide; [injection H as <-; lia | discriminate H].
  - assert (F : forallb (fun v => negb (String.eqb (v_op v) "subcycle") || bool_decide (v_clock v ≠ macro_clock))
                  (walk_all (p_values (built sample_calls))) = true) by (by vm_compute).
    rewrite forallb_forall in F. intros v Hv Ho. apply list_elem_of_In, F in Hv. rewrite Ho in Hv.
    by apply bool_decide_eq_true in Hv.
Defined.

(** A subcycle may name the primary clock as its child.  Building the manifest
    resolves the primary clock first and never looks at that relation; the restart
    validator refuses the manifest. *)
Definition primary_child : list call :=
  [State_ ("plasma", "U", macro_clock) None;
   Subcycle 0 macro_clock fast_clock 4 ([Node_ "state" "axpy" [0%nat] plasma_spec], 1%nat) None;
   Synchronize 2 (time_point fast_clock 0) None;
   Subcycle 3 fast_clock macro_clock 2 ([Node_ "state" "axpy" [3%nat] plasma_spec], 4%nat) None;
   Synchronize 5 (time_point macro_clock 1) None;
   Commit [("plasma", "U", macro_clock, 6%nat)]].

Lemma primary_subcycle_refused :
  validate no_recheck no_recheck (built primary_child) = Ok tt
  ∧ (m ← build_temporal_manifest name_digest id id sample_texts (built primary_child) (Tables [] [] [] [] [] []);
     validate_program_schedule m) = Err ValueError
  ∧ is_ok (build_temporal_manifest name_digest id id sample_texts (built primary_child) (Tables [] [] [] [] [] [])) = true.
Proof. by vm_compute. Qed.
