(* ===== verification/Consumers.v ===== *)
(** * Consumers, cursors and their graph

    [python/pops/output/_consumer_contracts.py]: the failure actions, the cursors
    that record the last committed sample of every consumer, and the graph of
    consumers with the order in which an accepted step serves them.  The order is
    Kahn's algorithm on a heap of identifiers; a checkpoint depends on every
    other consumer of its clock. *)
From Stdlib Require Import SpecFloat.
From S2P Require Import Prelude SortedKeys Binary64 Scalar Manifest Ownership Points EveryDt Schedule.

(** ** Canonical text *)

(** The ASCII characters [str.strip] removes. *)
Definition py_space (c : ascii) : bool :=
  let n := N_of_ascii c in ((9 <=? n) && (n <=? 13) || (28 <=? n) && (n <=? 32))%N.

(** [_text]: non-empty, and [value.strip() == value]. *)
Definition is_text (s : string) : bool :=
  match list_ascii_of_string s with
  | [] => false
  | c :: l => negb (py_space c) && negb (py_space (List.last l c))
  end.

(** ** Failure actions and parallel modes *)

Inductive ConsumerKind := DIAGNOSTIC | SCIENTIFIC_OUTPUT | CHECKPOINT | MONITOR.
Inductive ParallelMode := SERIAL | ROOT | COLLECTIVE | PER_RANK.
#[global] Instance kind_dec : EqDecision ConsumerKind. Proof. solve_decision. Defined.
#[global] Instance mode_dec : EqDecision ParallelMode. Proof. solve_decision. Defined.

Inductive failure_action := FailRun | Retry (max_attempts : nat) | SkipSampleReported.
#[global] Instance action_dec : EqDecision failure_action. Proof. solve_decision. Defined.

(** [Retry.__post_init__] *)
Definition mk_retry (max_attempts : Z) : res failure_action :=
  _ ← require (2 <=? max_attempts) ValueError; Ok (Retry (Z.to_nat max_attempts)).

(** ** Cursors *)

Record ScheduleCursor := Cursor { kc_consumer : string; kc_last : option string; kc_samples : Z }.
#[global] Instance cursor_dec : EqDecision ScheduleCursor. Proof. solve_decision. Defined.

(** [ScheduleCursor.__post_init__] *)
Definition mk_cursor (consumer : string) (last : option string) (samples : Z) : res ScheduleCursor :=
  _ ← require (is_text consumer) TypeError;
  _ ← require (match last with Some t => is_text t | None => true end) TypeError;
  _ ← require (0 <=? samples) TypeError;
  Ok (Cursor consumer last samples).

(** [ConsumerCursorSet]: rows sorted by consumer. *)
Definition cursor_set : Type := list (string * ScheduleCursor).

Definition keyed (rows : list ScheduleCursor) : list (string * ScheduleCursor) := map (fun r => (kc_consumer r, r)) rows.

(** [ConsumerCursorSet.__init__] *)
Definition mk_cursor_set (rows : list ScheduleCursor) : res cursor_set :=
  _ ← require (bool_decide (NoDup (map kc_consumer rows))) ValueError; Ok (sort_keys (keyed rows)).

(** [for_consumer] *)
Definition for_consumer (s : cursor_set) (consumer : string) : res ScheduleCursor :=
  _ ← require (is_text consumer) TypeError;
  match dget consumer s with Some c => Ok c | None => mk_cursor consumer None 0 end.

(** [replace] *)
Definition replace_cursor (s : cursor_set) (c : ScheduleCursor) : res cursor_set :=
  mk_cursor_set (map snd (dset (kc_consumer c) c s)).

(** ** The graph *)

(** A handle: its qualified identifier and the rest of its identity. *)
Record handle := Handle { hd_id : string; hd_rest : string }.
#[global] Instance handle_dec : EqDecision handle. Proof. solve_decision. Defined.

(** A quantity a consumer reads; its identity is the token of its data.  A field
    read through a [FieldContext] is not modelled. *)
Record ConsumerQuantity := Quantity {
  qt_identity : string; qt_reference : string; qt_resource : string; qt_layout : string; qt_levels : list Z }.

(** [_DIAGNOSTIC_COLLECTIVES] *)
Definition DIAGNOSTIC_COLLECTIVES : list (string * option string) :=
  [("sum", Some "global_sum"); ("abs_sum", Some "global_sum"); ("sum_sq", Some "global_sum");
   ("min", Some "global_min"); ("max", Some "global_max"); ("abs_max", Some "global_max");
   ("step_change_l2", Some "global_sum"); ("accepted_balance", None)].

(** A diagnostic quantity and the reductions of its execution plan. *)
Record DiagnosticQuantity := Diagnostic { dq_quantity : ConsumerQuantity; dq_reductions : list string }.

(** [sorted] on strings. *)
Definition sorted_names (l : list string) : list string := map fst (sort_keys (map (fun x => (x, tt)) l)).

(** [diagnostic_collective_operations] of a validated plan. *)
Definition diagnostic_collective_operations (reductions : list string) : list string :=
  sorted_names (remove_dups (omap (fun r => mjoin (dget r DIAGNOSTIC_COLLECTIVES)) reductions)).

(** [ConsumerManifest]; the writer and operation data are the [consumer_data] of
    their providers. *)
Record manifest := Manifest {
  cm_handle : handle; cm_kind : ConsumerKind; cm_quantities : list ConsumerQuantity; cm_schedule : schedule;
  cm_uri : string; cm_format : option json; cm_mode : ParallelMode; cm_diagnostics : list DiagnosticQuantity;
  cm_dependencies : list handle; cm_action : failure_action; cm_operation : option json }.

Definition cm_id (m : manifest) : string := hd_id (cm_handle m).
Definition cm_clock (m : manifest) : Clock := schedule_clock (cm_schedule m).

(** The dependencies in [ConsumerManifest.__post_init__]: sorted, unique, not the
    consumer itself. *)
Definition mk_dependencies (self : handle) (deps : list handle) : res (list handle) :=
  let sorted := map snd (sort_keys (map (fun d => (hd_id d, d)) deps)) in
  _ ← require (bool_decide (NoDup sorted)) ValueError;
  _ ← require (bool_decide (self ∉ sorted)) ValueError;
  Ok sorted.

Definition with_dependencies (m : manifest) (deps : list handle) : manifest :=
  Manifest (cm_handle m) (cm_kind m) (cm_quantities m) (cm_schedule m) (cm_uri m) (cm_format m) (cm_mode m)
    (cm_diagnostics m) deps (cm_action m) (cm_operation m).
Definition set_dependencies (m : manifest) (deps : list handle) : res manifest :=
  deps ← mk_dependencies (cm_handle m) deps;
  Ok (with_dependencies m deps).

Record graph := Graph { gr_nodes : list manifest; gr_topology : list manifest }.

(** [heapq] on strings: [heappop] removes the smallest item. *)
Fixpoint pop_min (l : list string) : option (string * list string) :=
  match l with
  | [] => None
  | x :: l =>
      match pop_min l with
      | None => Some (x, [])
      | Some (y, rest) => if String.leb x y then Some (x, l) else Some (y, x :: rest)
      end
  end.

(** One follower of the consumer taken from the heap. *)
Definition release (acc : list (string * Z) * list string) (follower : string) : list (string * Z) * list string :=
  let '(indegree, ready) := acc in
  let d := default 0 (dget follower indegree) - 1 in
  (dset follower d indegree, if d =? 0 then follower :: ready else ready).

(** The loop of [ConsumerGraph.__init__]: one iteration per consumer. *)
Fixpoint kahn (fuel : nat) (followers : list (string * list string)) (indegree : list (string * Z))
    (ready : list string) : list string :=
  match fuel, pop_min ready with
  | S fuel, Some (current, ready) =>
      let '(indegree, ready) := fold_left release (sorted_names (default [] (dget current followers))) (indegree, ready) in
      current :: kahn fuel followers indegree ready
  | _, _ => []
  end.

Definition by_id (nodes : list manifest) : list (string * manifest) := map (fun m => (cm_id m, m)) nodes.

(** [dependency.qualified_id not in by_id or by_id[...].handle != dependency] *)
Definition exact_dependency (nodes : list manifest) (d : handle) : bool :=
  match dget (hd_id d) (by_id nodes) with Some n => bool_decide (cm_handle n = d) | None => false end.

Definition add_follower (nodes : list manifest) (m : manifest) (followers : list (string * list string)) (d : handle)
    : res (list (string * list string)) :=
  _ ← require (exact_dependency nodes d) ValueError;
  Ok (dset (hd_id d) (default [] (dget (hd_id d) followers) ++ [cm_id m]) followers).

Definition follower_table (nodes : list manifest) : res (list (string * list string)) :=
  fold_res (fun t m => fold_res (add_follower nodes m) t (cm_dependencies m)) (map (fun m => (cm_id m, [])) nodes) nodes.

Definition indegrees (nodes : list manifest) : list (string * Z) :=
  map (fun m => (cm_id m, Z.of_nat (length (cm_dependencies m)))) nodes.

(** [ConsumerGraph.__init__] *)
Definition mk_graph (supplied : list manifest) : res graph :=
  let nodes := map snd (sort_keys (by_id supplied)) in
  _ ← require (bool_decide (NoDup (map cm_id nodes))) ValueError;
  followers ← follower_table nodes;
  let ready := map fst (List.filter (fun row => row.2 =? 0) (indegrees nodes)) in
  let order := kahn (length nodes) followers (indegrees nodes) ready in
  topology ← map_res (fun id => match dget id (by_id nodes) with Some m => Ok m | None => Err KeyError end) order;
  _ ← require (length topology =? length nodes)%nat ValueError;
  Ok (Graph nodes topology).

(** The dependencies [resolve] derives: a checkpoint follows every other consumer
    of its clock. *)
Definition checkpoint_dependencies (resolved : list manifest) (m : manifest) : res manifest :=
  if bool_decide (cm_kind m = CHECKPOINT)
  then set_dependencies m
         (remove_dups (cm_dependencies m ++ map cm_handle
           (List.filter (fun row => bool_decide (cm_kind row <> CHECKPOINT) && bool_decide (cm_clock row = cm_clock m)) resolved)))
  else Ok m.

(** The end of [ConsumerGraph.resolve] on authored consumers. *)
Definition resolve_graph (resolved : list manifest) : res graph :=
  ordered ← map_res (checkpoint_dependencies resolved) resolved; mk_graph ordered.

(** ** The order of the graph

    The specification of the order: always the least consumer whose dependencies
    have been served, until none is left. *)
Section Order.
Context (ids : list string) (deps : string → list string).

Definition available (served : list string) (x : string) : Prop :=
  x ∈ ids ∧ x ∉ served ∧ ∀ y, y ∈ deps x → y ∈ served.

Inductive greedy : list string → list string → Prop :=
| greedy_stop served : (∀ x, ¬ available served x) → greedy served []
| greedy_next served x l :
    available served x → (∀ z, available served z → String.leb x z = true) → greedy (served ++ [x]) l →
    greedy served (x :: l).

(** A listing of all consumers in which every dependency comes first. *)
Definition linearization (l : list string) : Prop :=
  NoDup l ∧ (∀ x, x ∈ l ↔ x ∈ ids) ∧ ∀ l1 x l2, l = l1 ++ x :: l2 → ∀ y, y ∈ deps x → y ∈ l1.

Lemma greedy_NoDup served l : greedy served l → NoDup served → NoDup (served ++ l).
Proof.
  induction 1 as [|served x l (_ & Hx & _) _ _ IH]; intros Hnd; [by rewrite app_nil_r|].
  rewrite cons_middle, (assoc_L app). apply IH, NoDup_app; split_and!; [done| |apply NoDup_singleton].
  intros z Hz ->%list_elem_of_singleton. done.
Qed.

Lemma greedy_ids served l x : greedy served l → x ∈ l → x ∈ ids.
Proof. induction 1 as [|served y l [Hy _] _ _ IH]; [by intros []%elem_of_nil|]. intros [->|]%elem_of_cons; auto. Qed.

Lemma greedy_before served l : greedy served l →
  ∀ l1 x l2, l = l1 ++ x :: l2 → available (served ++ l1) x ∧ ∀ z, available (served ++ l1) z → String.leb x z = true.
Proof.
  induction 1 as [|served x l Ha Hleast _ IH]; intros l1 y l2 E; [by destruct l1|].
  destruct l1 as [|x1 l1]; injection E as -> ->; [by rewrite app_nil_r|].
  rewrite cons_middle, (assoc_L app). by eapply IH.
Qed.

Lemma greedy_stuck served l : greedy served l → ∀ x, ¬ available (served ++ l) x.
Proof. induction 1 as [|served x l _ _ _ IH]; [by rewrite app_nil_r|]. by rewrite cons_middle, (assoc_L app). Qed.

(** Nothing is left out when some order exists: the first consumer of it that
    was not served would be available. *)
Lemma greedy_complete l order : greedy [] l → linearization order → ∀ x, x ∈ ids → x ∈ l.
Proof.
  intros Hg (_ & Hall & Hord). pose proof (greedy_stuck _ _ Hg) as Hstuck. cbn in Hstuck.
  assert (H : ∀ l1 l2, order = l1 ++ l2 → ∀ x, x ∈ l1 → x ∈ l); cycle 1.
  { intros x Hx. apply (H order []); [by rewrite app_nil_r | by apply Hall]. }
  induction l1 as [|x l1 IH] using rev_ind; intros l2 E y; [by intros []%elem_of_nil|].
  rewrite <- app_assoc in E. rewrite elem_of_app, list_elem_of_singleton. intros [Hy| ->]; [by eapply IH|].
  destruct (decide (x ∈ l)) as [|Hn]; [done|]. exfalso. apply (Hstuck x). split_and!; [|done|].
  - apply Hall. rewrite E, elem_of_app. right. left.
  - intros z Hz. eapply IH; [exact E|]. by eapply Hord.
Qed.

(** *** Kahn's algorithm *)

Context (followers : list (string * list string)).
Context (Hdeps : ∀ x, x ∈ ids → NoDup (deps x)).
Context (Hfoll : ∀ y x, y ∈ ids → x ∈ default [] (dget y followers) ↔ x ∈ ids ∧ y ∈ deps x).
Context (Hfnd : ∀ y, y ∈ ids → NoDup (default [] (dget y followers))).

Definition unserved (served : list string) (x : string) : list string := filter (fun y => y ∉ served) (deps x).

(** The tables of the loop after [served]. *)
Record serving (served : list string) (indegree : list (string * Z)) (ready : list string) : Prop := {
  sv_nodup : NoDup ready;
  sv_degree : ∀ x, x ∈ ids → default 0 (dget x indegree) = Z.of_nat (length (unserved served x));
  sv_ready : ∀ x, x ∈ ready ↔ available served x }.

Lemma pop_min_None l : pop_min l = None ↔ l = [].
Proof. destruct l as [|x l]; cbn; [done|]. destruct (pop_min l) as [[y rest]|]; [destruct (String.leb x y)|]; done. Qed.

Lemma leb_trans x y z : String.leb x y = true → String.leb y z = true → String.leb x z = true.
Proof.
  unfold String.leb. revert y z; induction x as [|a x IH]; intros [|b y] [|c z]; cbn; try done.
  unfold Ascii.compare. intros H1 H2.
  destruct (N.compare_spec (N_of_ascii a) (N_of_ascii b)) as [E1|E1|E1]; try done;
    destruct (N.compare_spec (N_of_ascii b) (N_of_ascii c)) as [E2|E2|E2]; try done;
    destruct (N.compare_spec (N_of_ascii a) (N_of_ascii c)) as [E3|E3|E3]; try done; try lia.
  eapply IH; eauto.
Qed.

Lemma leb_refl x : String.leb x x = true.
Proof. destruct (String.leb_total x x); done. Qed.

Lemma pop_min_Some l x rest : pop_min l = Some (x, rest) → l ≡ₚ x :: rest ∧ ∀ z, z ∈ l → String.leb x z = true.
Proof.
  revert x rest; induction l as [|a l IH]; intros x rest; cbn; [done|].
  destruct (pop_min l) as [[y r]|] eqn:E.
  - destruct (IH y r eq_refl) as [Hp Hm]. destruct (String.leb a y) eqn:L; intros [= <- <-]; split.
    + done.
    + intros z [->|Hz]%elem_of_cons; [apply leb_refl|]. eapply leb_trans; [exact L | auto].
    + rewrite Hp. apply Permutation_swap.
    + intros z [->|Hz]%elem_of_cons; [|auto]. by destruct (String.leb_total a y); congruence.
  - intros [= <- <-]. apply pop_min_None in E as ->. split; [done|]. intros z ->%list_elem_of_singleton. apply leb_refl.
Qed.

Lemma unserved_zero served x : length (unserved served x) = 0%nat ↔ ∀ y, y ∈ deps x → y ∈ served.
Proof.
  unfold unserved. rewrite length_zero_iff_nil. split.
  - intros E y Hy. destruct (decide (y ∈ served)) as [|Hn]; [done|].
    assert (Hin : y ∈ filter (λ y, y ∉ served) (deps x)) by (by apply list_elem_of_filter). rewrite E in Hin. by apply elem_of_nil in Hin.
  - intros H. destruct (filter _ _) as [|y l] eqn:E; [done|]. exfalso.
    assert (Hin : y ∈ y :: l) by left. rewrite <- E in Hin. apply list_elem_of_filter in Hin as [Hn Hy]. auto.
Qed.

Lemma filter_drops (c : string) l : NoDup l →
  (length (filter (λ y, y ≠ c) l) + (if decide (c ∈ l) then 1 else 0) = length l)%nat.
Proof.
  induction 1 as [|y l Hy Hl IH]; [done|]. rewrite filter_cons.
  destruct (decide (y ≠ c)) as [Hne|Heq]; cbn [length].
  - rewrite <- IH. destruct (decide (c ∈ l)), (decide (c ∈ y :: l)); try lia; rewrite elem_of_cons in *; naive_solver.
  - assert (y = c) as -> by (destruct (decide (y = c)); tauto). rewrite decide_False in IH by done.
    rewrite decide_True by left. lia.
Qed.

Lemma unserved_snoc served c x : x ∈ ids → c ∉ served →
  (length (unserved (served ++ [c]) x) + (if decide (c ∈ deps x) then 1 else 0) = length (unserved served x))%nat.
Proof.
  intros Hx Hc. unfold unserved.
  replace (filter (λ y, y ∉ served ++ [c]) (deps x)) with (filter (λ y, y ≠ c) (filter (λ y, y ∉ served) (deps x))).
  - rewrite <- (filter_drops c (filter _ (deps x))) by (by apply NoDup_filter, Hdeps). f_equal.
    destruct (decide (c ∈ deps x)) as [Hin|Hn].
    + by rewrite decide_True by (by apply list_elem_of_filter).
    + rewrite decide_False; [done|]. by intros [_ ?]%list_elem_of_filter.
  - rewrite list_filter_filter. apply list_filter_iff. intros y. rewrite elem_of_app, list_elem_of_singleton. tauto.
Qed.

(** The followers of one consumer lose one dependency, and those left with none
    are ready. *)
Lemma release_all fs : NoDup fs → ∀ indegree ready indegree' ready',
  fold_left release fs (indegree, ready) = (indegree', ready') →
  (∀ x, default 0 (dget x indegree') = default 0 (dget x indegree) - (if decide (x ∈ fs) then 1 else 0))
  ∧ (∀ x, x ∈ ready' ↔ x ∈ ready ∨ x ∈ fs ∧ default 0 (dget x indegree) = 1)
  ∧ (NoDup ready → (∀ x, x ∈ fs → x ∉ ready) → NoDup ready').
Proof.
  induction 1 as [|f fs Hf _ IH]; intros indegree ready indegree' ready'; cbn [fold_left].
  { intros [= <- <-]. split_and!; [intros x; rewrite decide_False by apply not_elem_of_nil; lia| |done].
    intros x. rewrite elem_of_nil. tauto. }
  cbn [release]. set (d := default 0 (dget f indegree) - 1). intros (H1 & H2 & H3)%IH.
  assert (Hget : ∀ x, default 0 (dget x (dset f d indegree)) = if decide (x = f) then d else default 0 (dget x indegree)).
  { intros x. rewrite dget_dset. by case_decide. }
  split_and!.
  - intros x. rewrite H1, Hget. destruct (decide (x = f)) as [->|Hne].
    + rewrite decide_False, decide_True by (done || left). unfold d. lia.
    + destruct (decide (x ∈ fs)), (decide (x ∈ f :: fs)); try lia; rewrite elem_of_cons in *; tauto.
  - intros x. rewrite H2, Hget, elem_of_cons. destruct (Z.eqb_spec d 0) as [Hd|Hd]; destruct (decide (x = f)) as [->|Hne];
      rewrite ?elem_of_cons; unfold d in *; try tauto; intuition lia.
  - intros Hnd Hdis. apply H3.
    + destruct (d =? 0); [|done]. apply NoDup_cons. split; [apply Hdis; left | done].
    + intros x Hx. destruct (d =? 0); [|apply Hdis; by right]. rewrite not_elem_of_cons. split; [congruence|].
      apply Hdis. by right.
Qed.

Lemma sorted_names_perm l : sorted_names l ≡ₚ l.
Proof. unfold sorted_names. change (map fst) with (fmap (M := list) (@fst string unit)). rewrite sort_keys_perm.
  change (map fst (map (λ x, (x, tt)) l) ≡ₚ l). by rewrite map_map, map_id. Qed.

(** One iteration keeps the tables. *)
Lemma serving_next served indegree ready c rest indegree' ready' :
  serving served indegree ready → (∀ x, x ∈ served → ∀ y, y ∈ deps x → y ∈ served) →
  pop_min ready = Some (c, rest) →
  fold_left release (sorted_names (default [] (dget c followers))) (indegree, rest) = (indegree', ready') →
  serving (served ++ [c]) indegree' ready'.
Proof.
  intros [Hnd Hdeg Hready] Hcl (Hp & _)%pop_min_Some Hrel.
  assert (Hc : available served c) by (apply Hready; rewrite Hp; left). destruct Hc as (Hcid & Hcs & Hcd).
  assert (Hfs : ∀ x, x ∈ sorted_names (default [] (dget c followers)) ↔ x ∈ ids ∧ c ∈ deps x).
  { intros x. by rewrite sorted_names_perm, Hfoll. }
  rewrite Hp in Hnd. apply NoDup_cons in Hnd as [Hcr Hnd].
  assert (Hrest : ∀ x, x ∈ rest ↔ available served x ∧ x ≠ c).
  { intros x. rewrite <- Hready, Hp, elem_of_cons. split; [intros; split; [tauto | congruence] | tauto]. }
  apply release_all in Hrel as (H1 & H2 & H3); [|rewrite sorted_names_perm; by apply Hfnd].
  split.
  - apply H3; [done|]. intros x [_ Hx]%Hfs [(_ & _ & Ha) _]%Hrest. by apply Hcs, Ha.
  - intros x Hx. rewrite H1, Hdeg by done. pose proof (unserved_snoc served c x Hx Hcs).
    destruct (decide (c ∈ deps x)) as [Hd|Hd].
    + rewrite decide_True by (by apply Hfs). lia.
    + rewrite decide_False by (rewrite Hfs; tauto). lia.
  - intros x. rewrite H2, Hrest, Hfs. unfold available. split.
    + intros [((Hx & Hs & Hd) & Hne)|[[Hx Hcx] Hone]].
      * split_and!; [done|rewrite not_elem_of_app, list_elem_of_singleton; done|]. intros y Hy. apply elem_of_app; auto.
      * rewrite Hdeg in Hone by done. split_and!; [done| |].
        -- rewrite not_elem_of_app, list_elem_of_singleton. split; [intros Hs; by apply Hcs, (Hcl x)|]. intros ->. by apply Hcs, Hcd.
        -- apply unserved_zero. pose proof (unserved_snoc served c x Hx Hcs). rewrite decide_True in * by done. lia.
    + intros (Hx & Hs & Hd). apply not_elem_of_app in Hs as [Hs Hxc]. rewrite list_elem_of_singleton in Hxc.
      destruct (decide (c ∈ deps x)) as [Hcx|Hcx].
      * right. split; [done|]. rewrite Hdeg by done. apply unserved_zero in Hd. pose proof (unserved_snoc served c x Hx Hcs).
        rewrite decide_True in * by done. lia.
      * left. split_and!; [done..| |done]. intros y Hy. pose proof (Hd y Hy) as Hin.
        apply elem_of_app in Hin as [|Hin%list_elem_of_singleton]; [done|subst; tauto].
Qed.

(** The loop serves in greedy order, and one iteration per consumer is enough. *)
Lemma kahn_greedy fuel : ∀ served indegree ready,
  serving served indegree ready → (∀ x, x ∈ served → ∀ y, y ∈ deps x → y ∈ served) →
  NoDup served → (∀ x, x ∈ served → x ∈ ids) → (length ids <= fuel + length served)%nat →
  greedy served (kahn fuel followers indegree ready).
Proof.
  induction fuel as [|fuel IH]; intros served indegree ready Hs Hcl Hnd Hsub Hfuel.
  { apply greedy_stop. intros x (Hx & Hn & _). apply Hn.
    by rewrite (submseteq_length_Permutation served ids) by (first [by apply NoDup_submseteq | done]). }
  cbn [kahn]. destruct (pop_min ready) as [[c rest]|] eqn:Epop; cycle 1.
  { apply pop_min_None in Epop as ->. apply greedy_stop. intros x Hx%(sv_ready _ _ _ Hs). by apply elem_of_nil in Hx. }
  destruct (fold_left release _ _) as [indegree' ready'] eqn:Erel.
  pose proof (serving_next _ _ _ _ _ _ _ Hs Hcl Epop Erel) as Hs'.
  apply pop_min_Some in Epop as [Hp Hmin].
  assert (Hc : available served c) by (apply (sv_ready _ _ _ Hs); rewrite Hp; left).
  destruct Hc as (Hcid & Hcs & Hcd). apply greedy_next; [done| |].
  - intros z Hz%(sv_ready _ _ _ Hs). auto.
  - apply (IH _ _ _ Hs').
    + intros x [Hx|Hx%list_elem_of_singleton]%elem_of_app y Hy; subst; apply elem_of_app; left; eauto.
    + apply NoDup_app; split_and!; [done| |apply NoDup_singleton]. intros z Hz ->%list_elem_of_singleton. done.
    + intros x [Hx|Hx%list_elem_of_singleton]%elem_of_app; subst; auto.
    + rewrite length_app. cbn. lia.
Qed.
End Order.

(** *** The tables of a graph *)

(** What [ConsumerManifest] ensures of its dependencies. *)
Definition dependencies_ok (m : manifest) : Prop :=
  NoDup (cm_dependencies m) ∧ cm_handle m ∉ cm_dependencies m.

(** Every dependency of [m] is the handle of a consumer of [l]. *)
Definition served_by (l : list manifest) (m : manifest) : Prop :=
  ∀ d, d ∈ cm_dependencies m → ∃ n, n ∈ l ∧ cm_handle n = d.

Definition in_order (l : list manifest) : Prop := ∀ l1 m l2, l = l1 ++ m :: l2 → served_by l1 m.

Section Tables.
Context (nodes : list manifest) (Hids : NoDup (map cm_id nodes)).

Definition dep_ids (x : string) : list string :=
  match dget x (by_id nodes) with Some m => map hd_id (cm_dependencies m) | None => [] end.

Definition push (t : list (string * list string)) (e : string * string) : list (string * list string) :=
  dset e.1 (default [] (dget e.1 t) ++ [e.2]) t.
Definition edges_of (m : manifest) : list (string * string) := map (fun d => (hd_id d, cm_id m)) (cm_dependencies m).
Definition edges : list (string * string) := concat (map edges_of nodes).

Lemma by_id_keys : dkeys (by_id nodes) = map cm_id nodes.
Proof. unfold by_id, dkeys. by rewrite map_map. Qed.

Lemma by_id_Some x m : dget x (by_id nodes) = Some m ↔ m ∈ nodes ∧ cm_id m = x.
Proof.
  split.
  - intros H%dget_Some_elem. by apply list_elem_of_fmap in H as (m' & [= -> ->] & Hm).
  - intros [Hm <-]. apply dget_elem; [by rewrite by_id_keys|]. apply list_elem_of_fmap. by exists m.
Qed.

Lemma same_id m n : m ∈ nodes → n ∈ nodes → cm_id m = cm_id n → m = n.
Proof.
  intros Hm Hn E. assert (H1 : dget (cm_id m) (by_id nodes) = Some m) by (by apply by_id_Some).
  assert (H2 : dget (cm_id m) (by_id nodes) = Some n) by (by apply by_id_Some). congruence.
Qed.

Lemma exact_dependency_iff d : exact_dependency nodes d = true ↔ ∃ n, n ∈ nodes ∧ cm_handle n = d.
Proof.
  unfold exact_dependency. split.
  - destruct (dget (hd_id d) (by_id nodes)) as [n|] eqn:E; [|done]. intros H%bool_decide_eq_true. apply by_id_Some in E as [Hn _]. eauto.
  - intros (n & Hn & <-). assert (E : dget (hd_id (cm_handle n)) (by_id nodes) = Some n) by (by apply by_id_Some).
    rewrite E. by apply bool_decide_eq_true.
Qed.

Lemma add_followers m ds t :
  fold_res (add_follower nodes m) t ds
  = if forallb (exact_dependency nodes) ds then Ok (fold_left push (map (fun d => (hd_id d, cm_id m)) ds) t) else Err ValueError.
Proof.
  revert t; induction ds as [|d ds IH]; intros t; [done|].
  cbn [fold_res forallb map fold_left]. unfold add_follower.
  destruct (exact_dependency nodes d); [apply IH | done].
Qed.

Lemma follower_fold l t :
  fold_res (fun t m => fold_res (add_follower nodes m) t (cm_dependencies m)) t l
  = if forallb (fun m => forallb (exact_dependency nodes) (cm_dependencies m)) l
    then Ok (fold_left push (concat (map edges_of l)) t) else Err ValueError.
Proof.
  revert t; induction l as [|m l IH]; intros t; [done|].
  cbn [fold_res map concat forallb]. rewrite add_followers, fold_left_app.
  destruct (forallb (exact_dependency nodes) (cm_dependencies m)); [apply IH | done].
Qed.

Lemma push_all es t y :
  default [] (dget y (fold_left push es t)) = default [] (dget y t) ++ map snd (filter (λ e, e.1 = y) es).
Proof.
  revert t; induction es as [|[a b] es IH]; intros t; cbn [fold_left]; [by rewrite app_nil_r|].
  rewrite IH. unfold push at 1. cbn [fst snd]. rewrite dget_dset, filter_cons. cbn [fst].
  destruct (decide (y = a)) as [->|Hne].
  - rewrite decide_True by done. cbn. by rewrite <- app_assoc.
  - rewrite decide_False by congruence. done.
Qed.

Lemma edges_elem y x : (y, x) ∈ edges ↔ x ∈ map cm_id nodes ∧ y ∈ dep_ids x.
Proof.
  unfold edges, dep_ids. rewrite list_elem_of_In, in_concat. split.
  - intros (l & (m & <- & Hm%list_elem_of_In)%in_map_iff & (d & [= <- <-] & Hd%list_elem_of_In)%in_map_iff).
    split; [apply list_elem_of_fmap; eauto|]. rewrite (proj2 (by_id_Some _ m)) by done. apply list_elem_of_fmap; eauto.
  - intros [(m & -> & Hm)%list_elem_of_fmap Hy]. rewrite (proj2 (by_id_Some _ m)) in Hy by done.
    apply list_elem_of_fmap in Hy as (d & -> & Hd). exists (edges_of m). split; apply in_map_iff.
    + exists m. by rewrite <- list_elem_of_In.
    + exists d. by rewrite <- list_elem_of_In.
Qed.

Context (Hdeps : ∀ m, m ∈ nodes → NoDup (cm_dependencies m)) (Hexact : ∀ m, m ∈ nodes → served_by nodes m).

Lemma dep_ids_NoDup x : NoDup (dep_ids x).
Proof.
  unfold dep_ids. destruct (dget x (by_id nodes)) as [m|] eqn:E; [|apply NoDup_nil_2]. apply by_id_Some in E as [Hm _].
  apply NoDup_fmap_2_strong; [|by apply Hdeps]. intros d e Hd He Hde.
  destruct (Hexact m Hm d Hd) as (n & Hn & <-), (Hexact m Hm e He) as (k & Hk & <-). f_equal. by apply same_id.
Qed.

Lemma dep_ids_closed x y : y ∈ dep_ids x → y ∈ map cm_id nodes.
Proof.
  unfold dep_ids. destruct (dget x (by_id nodes)) as [m|] eqn:E; [|by intros []%elem_of_nil]. apply by_id_Some in E as [Hm _].
  intros (d & -> & Hd)%list_elem_of_fmap. destruct (Hexact m Hm d Hd) as (n & Hn & <-). apply list_elem_of_fmap. by exists n.
Qed.

Lemma edges_of_NoDup m : m ∈ nodes → NoDup (edges_of m).
Proof.
  intros Hm. pose proof (dep_ids_NoDup (cm_id m)) as H. unfold dep_ids in H. rewrite (proj2 (by_id_Some _ m)) in H by done.
  unfold edges_of. apply (NoDup_fmap_1 fst). change (NoDup (map fst (map (λ d, (hd_id d, cm_id m)) (cm_dependencies m)))).
  by rewrite map_map.
Qed.

Lemma edges_NoDup : NoDup edges.
Proof.
  unfold edges. assert (H : ∀ l, l ⊆ nodes → NoDup (map cm_id l) → NoDup (concat (map edges_of l))); [|by apply H].
  induction l as [|m l IH]; cbn; intros Hsub Hnd; [apply NoDup_nil_2|]. apply NoDup_cons in Hnd as [Hm Hnd].
  apply NoDup_app; split_and!.
  - apply edges_of_NoDup, Hsub. left.
  - intros e (d & -> & Hd)%list_elem_of_fmap (l' & (n & <- & Hn)%in_map_iff & (d' & [= E1 E2] & _)%in_map_iff)%list_elem_of_In%in_concat.
    apply Hm. rewrite <- E2. apply list_elem_of_fmap. exists n. by rewrite list_elem_of_In.
  - apply IH; [|done]. intros x Hx. apply Hsub. by right.
Qed.

Lemma follower_rows t : follower_table nodes = Ok t →
  (∀ y x, x ∈ default [] (dget y t) ↔ x ∈ map cm_id nodes ∧ y ∈ dep_ids x) ∧ (∀ y, NoDup (default [] (dget y t))).
Proof.
  unfold follower_table. rewrite follower_fold. destruct (forallb _ nodes); intros [= <-].
  assert (E : ∀ y, default [] (dget y (fold_left push edges (map (fun m => (cm_id m, [])) nodes)))
                   = map snd (filter (λ e, e.1 = y) edges)).
  { intros y. rewrite push_all. destruct (dget y (map _ nodes)) as [l|] eqn:E; [|done].
    apply dget_Some_elem, list_elem_of_fmap in E as (m & [= -> ->] & _). done. }
  split; intros y; fold edges; rewrite E.
  - intros x. rewrite <- edges_elem. split.
    + intros ([y' x'] & -> & [Hy Hin]%list_elem_of_filter)%list_elem_of_fmap. cbn in *. by subst.
    + intros H. apply list_elem_of_fmap. exists (y, x). split; [done|]. by apply list_elem_of_filter.
  - apply NoDup_fmap_2_strong; [|apply NoDup_filter, edges_NoDup].
    intros [y1 x1] [y2 x2] [H1 _]%list_elem_of_filter [H2 _]%list_elem_of_filter; cbn in *. congruence.
Qed.

Lemma degree_row x : x ∈ map cm_id nodes → default 0 (dget x (indegrees nodes)) = Z.of_nat (length (dep_ids x)).
Proof.
  intros (m & -> & Hm)%list_elem_of_fmap. unfold dep_ids. rewrite (proj2 (by_id_Some _ m)) by done.
  rewrite (dget_elem (cm_id m) (Z.of_nat (length (cm_dependencies m))) (indegrees nodes)).
  - cbn. by rewrite length_map.
  - unfold indegrees, dkeys. by rewrite map_map.
  - apply list_elem_of_fmap. by exists m.
Qed.

Definition first_ready : list string := map fst (List.filter (fun row => row.2 =? 0) (indegrees nodes)).

Lemma unserved_first x : unserved dep_ids [] x = dep_ids x.
Proof.
  unfold unserved. induction (dep_ids x) as [|y l IH]; [done|]. rewrite filter_cons_True by apply not_elem_of_nil. by rewrite IH.
Qed.

Lemma serving_first : serving (map cm_id nodes) dep_ids [] (indegrees nodes) first_ready.
Proof.
  split.
  - unfold first_ready. apply filter_NoDup_map. unfold indegrees. by rewrite map_map.
  - intros x Hx. by rewrite unserved_first, degree_row.
  - intros x. assert (Hrow : x ∈ first_ready ↔ x ∈ map cm_id nodes ∧ length (dep_ids x) = 0%nat).
    { unfold first_ready. split.
      - intros ([x' n] & -> & [Hr Hz]%filter_elem)%list_elem_of_fmap. cbn in *. apply Z.eqb_eq in Hz as ->.
        apply list_elem_of_fmap in Hr as (m & [= -> Hlen] & Hm).
        assert (Hin : cm_id m ∈ map cm_id nodes) by (apply list_elem_of_fmap; eauto). split; [done|].
        unfold dep_ids. rewrite (proj2 (by_id_Some _ m)), length_map by done. lia.
      - intros [(m & -> & Hm)%list_elem_of_fmap Hz]. unfold dep_ids in Hz. rewrite (proj2 (by_id_Some _ m)), length_map in Hz by done.
        apply list_elem_of_fmap. exists (cm_id m, Z.of_nat (length (cm_dependencies m))). split; [done|].
        apply filter_elem. rewrite Hz. split; [|done]. rewrite <- Hz. apply list_elem_of_fmap. by exists m. }
    rewrite Hrow, <- (unserved_first x), unserved_zero. unfold available. pose proof (not_elem_of_nil x). tauto.
Qed.

(** The order of the graph, and the consumers it names. *)
Lemma graph_greedy t : follower_table nodes = Ok t →
  greedy (map cm_id nodes) dep_ids [] (kahn (length nodes) t (indegrees nodes) first_ready).
Proof.
  intros [Hf Hfn]%follower_rows. apply kahn_greedy; try done.
  - intros x _. apply dep_ids_NoDup.
  - apply serving_first.
  - by intros x Hx%elem_of_nil.
  - apply NoDup_nil_2.
  - by intros x Hx%elem_of_nil.
  - rewrite length_map. lia.
Qed.

Lemma topology_rows order : (∀ x, x ∈ order → x ∈ map cm_id nodes) →
  ∃ top, map_res (fun id => match dget id (by_id nodes) with Some m => Ok m | None => Err KeyError end) order = Ok top
    ∧ map cm_id top = order ∧ ∀ m, m ∈ top → m ∈ nodes.
Proof.
  induction order as [|x order IH]; intros H; cbn.
  { exists []. split_and!; [done..|]. by intros m Hm%elem_of_nil. }
  destruct IH as (top & E & Hids' & Hsub); [intros y Hy; apply H; by right|].
  assert (Hx : x ∈ map cm_id nodes) by (apply H; left). apply list_elem_of_fmap in Hx as (m & -> & Hm).
  rewrite (proj2 (by_id_Some _ m)) by done. cbn. rewrite E. cbn. exists (m :: top). cbn. rewrite Hids'.
  split_and!; [done..|]. intros n [->|Hn]%elem_of_cons; auto.
Qed.
End Tables.

(** Serving in id order and serving consumers are the same. *)
Lemma served_ids nodes l m : NoDup (map cm_id nodes) → (∀ n, n ∈ nodes → served_by nodes n) → m ∈ nodes →
  (∀ n, n ∈ l → n ∈ nodes) →
  served_by l m ↔ ∀ y, y ∈ dep_ids nodes (cm_id m) → y ∈ map cm_id l.
Proof.
  intros Hids Hexact Hm Hl. unfold dep_ids. rewrite (proj2 (by_id_Some _ Hids _ m)) by done. split.
  - intros H y (d & -> & Hd)%list_elem_of_fmap. destruct (H d Hd) as (n & Hn & <-). apply list_elem_of_fmap. by exists n.
  - intros H d Hd. destruct (Hexact m Hm d Hd) as (n & Hn & <-). exists n. split; [|done].
    assert (Hin : cm_id n ∈ map cm_id l) by (apply H, list_elem_of_fmap; by exists (cm_handle n)).
    apply list_elem_of_fmap in Hin as (k & Hk & Hkl). by rewrite (same_id nodes Hids n k); auto.
Qed.

Lemma sorted_nodes_perm supplied : map snd (sort_keys (by_id supplied)) ≡ₚ supplied.
Proof.
  change (map snd) with (fmap (M := list) (@snd string manifest)). rewrite sort_keys_perm.
  change (map snd (by_id supplied) ≡ₚ supplied). unfold by_id. by rewrite map_map, map_id.
Qed.

Lemma map_split {A B} (f : A → B) l k1 y k2 :
  map f l = k1 ++ y :: k2 → ∃ l1 x l2, l = l1 ++ x :: l2 ∧ map f l1 = k1 ∧ f x = y.
Proof.
  revert k1; induction l as [|a l IH]; intros [|b k1]; cbn; intros E; simplify_eq.
  - by exists [], a, l.
  - destruct (IH k1 ltac:(done)) as (l1 & x & l2 & -> & <- & <-). by exists (a :: l1), x, l2.
Qed.

Section Graph.
Context (nodes : list manifest) (Hids : NoDup (map cm_id nodes)) (Hdeps : ∀ m, m ∈ nodes → NoDup (cm_dependencies m)).

Lemma follower_table_ok : (∃ t, follower_table nodes = Ok t) ↔ ∀ m, m ∈ nodes → served_by nodes m.
Proof.
  unfold follower_table. rewrite follower_fold. destruct (forallb _ nodes) eqn:E; split; try by eauto; try by intros [].
  - intros _ m Hm d Hd. apply exact_dependency_iff; [done|]. rewrite forallb_forall in E.
    pose proof (E m (proj1 (list_elem_of_In _ _) Hm)) as E'. rewrite forallb_forall in E'. by apply E', list_elem_of_In.
  - intros H. exfalso. revert E. apply not_false_iff_true, forallb_forall. intros m Hm%list_elem_of_In.
    apply forallb_forall. intros d Hd%list_elem_of_In. apply exact_dependency_iff; [done|]. by apply (H m).
Qed.

Lemma follower_table_err e : follower_table nodes = Err e → e = ValueError.
Proof. unfold follower_table. rewrite follower_fold. by destruct (forallb _ nodes); intros [= <-]. Qed.

Lemma in_order_exact l : l ≡ₚ nodes → in_order l → ∀ m, m ∈ nodes → served_by nodes m.
Proof.
  intros Hp H m Hm d Hd. rewrite <- Hp in Hm. apply list_elem_of_split in Hm as (l1 & l2 & El).
  destruct (H l1 m l2 El d Hd) as (n & Hn & <-). exists n. split; [|done]. rewrite <- Hp, El, elem_of_app. by left.
Qed.

Context (Hexact : ∀ m, m ∈ nodes → served_by nodes m).

Lemma in_order_linearization l : l ≡ₚ nodes → in_order l → linearization (map cm_id nodes) (dep_ids nodes) (map cm_id l).
Proof.
  intros Hp H. split_and!.
  - change (NoDup (cm_id <$> l)). by rewrite Hp.
  - intros x. change (x ∈ cm_id <$> l ↔ x ∈ cm_id <$> nodes). by rewrite Hp.
  - intros k1 x k2 (l1 & m & l2 & El & <- & <-)%map_split y. revert y. apply (served_ids nodes); [done..| | |by eapply H].
    + rewrite <- Hp, El, elem_of_app. right. left.
    + intros n Hn. rewrite <- Hp, El, elem_of_app. by left.
Qed.

Context (t : list (string * list string)) (top : list manifest).
Context (Ht : follower_table nodes = Ok t).
Context (Htop : map cm_id top = kahn (length nodes) t (indegrees nodes) (first_ready nodes)) (Hsub : ∀ m, m ∈ top → m ∈ nodes).

Lemma top_greedy : greedy (map cm_id nodes) (dep_ids nodes) [] (map cm_id top).
Proof. rewrite Htop. by apply graph_greedy. Qed.

Lemma top_NoDup : NoDup (map cm_id top).
Proof. pose proof (greedy_NoDup _ _ _ _ top_greedy NoDup_nil_2) as H. exact H. Qed.

Lemma top_perm : length top = length nodes → top ≡ₚ nodes.
Proof.
  intros Hl. apply submseteq_length_Permutation; [|lia]. apply NoDup_submseteq; [|done].
  apply (NoDup_fmap_1 cm_id). exact top_NoDup.
Qed.

Lemma top_in_order : in_order top.
Proof.
  intros l1 m l2 El. assert (Hm : m ∈ nodes) by (apply Hsub; rewrite El, elem_of_app; right; left).
  apply (served_ids nodes); [done..|intros n Hn; apply Hsub; rewrite El, elem_of_app; by left|].
  destruct (greedy_before _ _ _ _ top_greedy (map cm_id l1) (cm_id m) (map cm_id l2)) as [(_ & _ & H) _]; [|exact H].
  by rewrite El, map_app.
Qed.

Lemma top_least l1 m l2 n : top = l1 ++ m :: l2 → n ∈ nodes → n ∉ l1 → served_by l1 n → String.leb (cm_id m) (cm_id n) = true.
Proof.
  intros El Hn Hn1 Hs. assert (H1 : ∀ k, k ∈ l1 → k ∈ nodes) by (intros k Hk; apply Hsub; rewrite El, elem_of_app; by left).
  destruct (greedy_before _ _ _ _ top_greedy (map cm_id l1) (cm_id m) (map cm_id l2)) as [_ H]; [by rewrite El, map_app|].
  apply H. split_and!; [apply list_elem_of_fmap; eauto| |by apply (served_ids nodes)].
  intros (k & Hk & Hk1)%list_elem_of_fmap. by rewrite (same_id nodes Hids n k) in Hn1; auto.
Qed.

Lemma top_complete l : l ≡ₚ nodes → in_order l → length top = length nodes.
Proof.
  intros Hp Ho. assert (Hall : ∀ x, x ∈ map cm_id nodes → x ∈ map cm_id top).
  { eapply greedy_complete; [exact top_greedy | by eapply in_order_linearization]. }
  apply Nat.le_antisymm.
  - apply submseteq_length, NoDup_submseteq; [apply (NoDup_fmap_1 cm_id), top_NoDup | done].
  - rewrite <- (length_map cm_id nodes), <- (length_map cm_id top). by apply submseteq_length, NoDup_submseteq.
Qed.
End Graph.

(** What [mk_graph] computes: a failure is a [ValueError], a graph holds the
    supplied consumers in the order of Kahn's algorithm. *)
Lemma mk_graph_spec supplied : Forall dependencies_ok supplied →
  let nodes := map snd (sort_keys (by_id supplied)) in
  match mk_graph supplied with
  | Ok g => gr_nodes g = nodes ∧ NoDup (map cm_id nodes) ∧ (∀ m, m ∈ nodes → served_by nodes m)
      ∧ (∃ t, follower_table nodes = Ok t
          ∧ map cm_id (gr_topology g) = kahn (length nodes) t (indegrees nodes) (first_ready nodes))
      ∧ (∀ m, m ∈ gr_topology g → m ∈ nodes) ∧ length (gr_topology g) = length nodes
  | Err e => e = ValueError ∧ (NoDup (map cm_id nodes) → ¬ ∃ l, l ≡ₚ nodes ∧ in_order l)
  end.
Proof.
  intros Hok nodes. assert (Hdeps : ∀ m, m ∈ nodes → NoDup (cm_dependencies m)).
  { intros m. unfold nodes. rewrite sorted_nodes_perm. intros Hm. rewrite Forall_forall in Hok. by apply Hok. }
  unfold mk_graph. fold nodes. case_bool_decide as Hnd; [|done]. cbn [require mbind res_bind].
  destruct (follower_table nodes) as [t|e] eqn:Ht; cbn [mbind res_bind]; cycle 1.
  { apply follower_table_err in Ht as Herr. split; [done|]. intros _ (l & Hp & Ho).
    destruct (proj2 (follower_table_ok nodes Hnd)) as [t Ht']; [by eapply in_order_exact | congruence]. }
  assert (Hexact : ∀ m, m ∈ nodes → served_by nodes m) by (apply (proj1 (follower_table_ok nodes Hnd)); eauto).
  fold (first_ready nodes). pose proof (graph_greedy nodes Hnd Hdeps Hexact t Ht) as Hg.
  destruct (topology_rows nodes Hnd (kahn (length nodes) t (indegrees nodes) (first_ready nodes))) as (top & E & Htop & Hsub).
  { intros x Hx. by eapply greedy_ids. }
  rewrite E. cbn [mbind res_bind]. destruct (Nat.eqb_spec (length top) (length nodes)) as [Hl|Hl]; cbn; [by eauto 10|].
  split; [done|]. intros _ (l & Hp & Ho). apply Hl. by eapply (top_complete nodes Hnd Hdeps Hexact t).
Qed.

(** The order of a graph that was built. *)
Lemma mk_graph_order supplied g : Forall dependencies_ok supplied → mk_graph supplied = Ok g →
  NoDup (map cm_id supplied) ∧ gr_nodes g ≡ₚ supplied ∧ gr_topology g ≡ₚ supplied ∧ in_order (gr_topology g)
  ∧ ∀ l1 m l2, gr_topology g = l1 ++ m :: l2 →
      ∀ n, n ∈ supplied → n ∉ l1 → served_by l1 n → String.leb (cm_id m) (cm_id n) = true.
Proof.
  intros Hok Hg. pose proof (mk_graph_spec supplied Hok) as H. cbn zeta in H. rewrite Hg in H.
  pose proof (sorted_nodes_perm supplied) as Hp. set (nodes := map snd (sort_keys (by_id supplied))) in *.
  assert (Hdeps : ∀ m, m ∈ nodes → NoDup (cm_dependencies m)).
  { intros m. rewrite Hp. intros Hm. rewrite Forall_forall in Hok. by apply Hok. }
  destruct H as (Hn & Hnd & Hexact & (t & Ht & Htop) & Hsub & Hl).
  pose proof (top_perm nodes Hnd Hdeps Hexact t _ Ht Htop Hsub Hl) as Hperm. split_and!.
  - change (NoDup (cm_id <$> supplied)). by rewrite <- Hp.
  - by rewrite Hn.
  - by etrans.
  - by apply (top_in_order nodes Hnd Hdeps Hexact t).
  - intros l1 m l2 El n Hn'. rewrite <- Hp in Hn'. by eapply (top_least nodes Hnd Hdeps Hexact t).
Qed.

(** C16: The graph serves its consumers in the one order its specification allows:
    building it succeeds exactly when identifiers are unique and some listing of
    the consumers puts every dependency before its dependents - so never on a
    cycle, an unknown or an inexact dependency - and fails with [ValueError]
    only; the topology then is such a listing, and at every place it takes the
    least identifier whose dependencies have been served, so it does not depend
    on the order of declaration. *)
Theorem consumer_graph_order supplied :
  Forall dependencies_ok supplied →
  (is_ok (mk_graph supplied) = true ↔ NoDup (map cm_id supplied) ∧ ∃ l, l ≡ₚ supplied ∧ in_order l)
  ∧ (∀ e, mk_graph supplied = Err e → e = ValueError)
  ∧ (∀ g, mk_graph supplied = Ok g →
      gr_nodes g ≡ₚ supplied ∧ gr_topology g ≡ₚ supplied ∧ in_order (gr_topology g)
      ∧ ∀ l1 m l2, gr_topology g = l1 ++ m :: l2 →
          ∀ n, n ∈ supplied → n ∉ l1 → served_by l1 n → String.leb (cm_id m) (cm_id n) = true).
Proof.
  intros Hok. pose proof (mk_graph_spec supplied Hok) as H. pose proof (mk_graph_order supplied) as Hord.
  cbn zeta in H. pose proof (sorted_nodes_perm supplied) as Hp.
  destruct (mk_graph supplied) as [g|e]; cbn [is_ok].
  - destruct (Hord g Hok eq_refl) as (Hnd & Hrest). split_and!; [|done|by intros g' [= <-]].
    split; [|done]. intros _. split; [done|]. exists (gr_topology g). by destruct Hrest as (_ & ? & ? & _).
  - destruct H as [-> Hno]. split_and!; [|by intros e [= <-]|done]. split; [done|]. intros [Hnd (l & Hl & Ho)].
    exfalso. apply Hno; [change (NoDup (cm_id <$> map snd (sort_keys (by_id supplied)))); by rewrite Hp|].
    exists l. split; [by rewrite Hp | done].
Qed.

(** *** Checkpoints *)

Lemma set_dependencies_ok m ds n : set_dependencies m ds = Ok n →
  n = with_dependencies m (cm_dependencies n)
  ∧ (∀ d, d ∈ cm_dependencies n ↔ d ∈ ds) ∧ dependencies_ok n.
Proof.
  unfold set_dependencies, mk_dependencies. intros H. inv_ok. bools. cbn [cm_dependencies cm_handle with_dependencies].
  split_and!; try done. intros d. change (map snd) with (fmap (M := list) (@snd string handle)). rewrite sort_keys_perm.
  change (d ∈ map snd (map (λ d, (hd_id d, d)) ds) ↔ d ∈ ds). by rewrite map_map, map_id.
Qed.

(** A manifest before and after [resolve] derived its dependencies. *)
Definition same_consumer (m n : manifest) : Prop := cm_handle n = cm_handle m ∧ cm_kind n = cm_kind m ∧ cm_schedule n = cm_schedule m.

Lemma checkpoint_dependencies_ok resolved m n : dependencies_ok m → checkpoint_dependencies resolved m = Ok n →
  same_consumer m n ∧ dependencies_ok n
  ∧ (cm_kind m = CHECKPOINT → ∀ d, d ∈ cm_dependencies n ↔ d ∈ cm_dependencies m
      ∨ ∃ k, k ∈ resolved ∧ cm_kind k ≠ CHECKPOINT ∧ cm_clock k = cm_clock m ∧ cm_handle k = d)
  ∧ (cm_kind m ≠ CHECKPOINT → n = m).
Proof.
  intros Hm. unfold checkpoint_dependencies. case_bool_decide as Hk; [|intros [= <-]; done].
  intros (E & Hd & Hok)%set_dependencies_ok. split_and!; [by rewrite E|done| |done].
  intros _ d. rewrite Hd, elem_of_remove_dups, elem_of_app. f_equiv. split.
  - intros (k & -> & [Hin Hb]%filter_elem)%list_elem_of_fmap. bools. eauto.
  - intros (k & Hin & Hk' & Hc & <-). apply list_elem_of_fmap. exists k. split; [done|]. apply filter_elem. split; [done|].
    by rewrite !bool_decide_true.
Qed.

(** A checkpoint authenticates the cursors of everything its clock publishes:
    in the graph [resolve] builds, every consumer of a clock that is not a
    checkpoint is served before each checkpoint of that clock, and the declared
    dependencies of every consumer are still honoured. *)
Theorem checkpoint_is_last_on_its_clock resolved g :
  Forall dependencies_ok resolved → resolve_graph resolved = Ok g →
  (∀ m, m ∈ resolved → ∃ l1 n l2, gr_topology g = l1 ++ n :: l2 ∧ same_consumer m n ∧ served_by l1 m
    ∧ (cm_kind m = CHECKPOINT → ∀ k, k ∈ resolved → cm_kind k ≠ CHECKPOINT → cm_clock k = cm_clock m →
        ∃ k', k' ∈ l1 ∧ same_consumer k k'))
  ∧ length (gr_topology g) = length resolved.
Proof.
  intros Hok H. unfold resolve_graph in H. inv_ok.
  match goal with E : map_res _ _ = Ok ?o |- _ => rename o into ordered; pose proof (map_res_length _ _ _ E) as Hlen; apply map_res_Forall2 in E; rename E into F end.
  rewrite Forall_forall in Hok.
  assert (Hord : Forall dependencies_ok ordered).
  { apply Forall_forall. intros n Hn. destruct (Forall2_right _ _ _ _ F Hn) as (m & Hm & E).
    by apply (checkpoint_dependencies_ok resolved m n); [apply Hok|]. }
  destruct (mk_graph_order ordered g Hord H) as (Hnd & _ & Hperm & Ho & _). split; [|by rewrite Hperm].
  assert (Hsame : ∀ m n, m ∈ resolved → checkpoint_dependencies resolved m = Ok n → same_consumer m n).
  { intros m n Hm E. by apply (checkpoint_dependencies_ok resolved m n); [apply Hok|]. }
  intros m Hm. destruct (Forall2_left _ _ _ _ F Hm) as (n & Hn & En).
  pose proof (Hsame m n Hm En) as Hmn. apply checkpoint_dependencies_ok in En as (_ & _ & Hck & Hother); [|by apply Hok].
  rewrite <- Hperm in Hn. apply list_elem_of_split in Hn as (l1 & l2 & El). pose proof (Ho l1 n l2 El) as Hserved.
  exists l1, n, l2. split_and!; [done|done| |].
  - intros d Hd. apply Hserved. destruct (decide (cm_kind m = CHECKPOINT)) as [Hk|Hk]; [apply Hck; auto|]. by rewrite Hother.
  - intros Hk k Hkin Hkk Hc. destruct (Hserved (cm_handle k)) as (k' & Hk' & Eh); [apply Hck; eauto 10|].
    exists k'. split; [done|]. destruct (Forall2_left _ _ _ _ F Hkin) as (k2 & Hk2 & Ek2).
    pose proof (Hsame k k2 Hkin Ek2) as Hs. enough (k' = k2) as -> by done.
    assert (Hin : k' ∈ ordered) by (rewrite <- Hperm, El, elem_of_app; by left).
    apply (same_id ordered Hnd); [done..|]. unfold cm_id. rewrite Eh. by destruct Hs as [-> _].
Qed.

(** A run with two outputs, a monitor that follows one of them, and a checkpoint
    declared first. *)
Definition toy_consumer (id : string) (kind : ConsumerKind) (deps : list string) : manifest :=
  Manifest (Handle id "case") kind [] (MkSchedule (Always (AcceptedStep toy_clock None)) None) ("file:" ++ id)%string None SERIAL []
    (map (fun d => Handle d "case") deps) FailRun None.
Definition toy_consumers : list manifest :=
  [toy_consumer "a.restart" CHECKPOINT []; toy_consumer "m.live" MONITOR ["z.fields"];
   toy_consumer "z.fields" SCIENTIFIC_OUTPUT []; toy_consumer "b.energy" DIAGNOSTIC []].

Example toy_topology :
  map cm_id <$> (gr_topology <$> resolve_graph toy_consumers) = Ok ["b.energy"; "z.fields"; "m.live"; "a.restart"].
Proof. vm_compute. reflexivity. Qed.

(** Two consumers that follow each other have no order. *)
Example cycle_refused :
  mk_graph [toy_consumer "a" MONITOR ["b"]; toy_consumer "b" MONITOR ["a"]] = Err ValueError.
Proof. vm_compute. reflexivity. Qed.

Lemma consumer_graph_order_witness :
  Forall dependencies_ok toy_consumers ∧ is_ok (mk_graph toy_consumers) = true
  ∧ NoDup (map cm_id toy_consumers) ∧ ∃ l, l ≡ₚ toy_consumers ∧ in_order l.
Proof.
  assert (H : Forall dependencies_ok toy_consumers).
  { apply (bool_decide_unpack _). vm_compute. exact I. }
  split; [exact H|]. split; [vm_compute; reflexivity|]. apply (proj1 (consumer_graph_order toy_consumers H)).
  vm_compute. reflexivity.
Defined.

Lemma checkpoint_is_last_on_its_clock_witness :
  match resolve_graph toy_consumers with
  | Ok g => Forall dependencies_ok toy_consumers ∧ length (gr_topology g) = 4%nat
  | Err _ => False
  end.
Proof.
  assert (H : Forall dependencies_ok toy_consumers).
  { apply (bool_decide_unpack _). vm_compute. exact I. }
  destruct (resolve_graph toy_consumers) as [g|e] eqn:E; [|vm_compute in E; discriminate].
  split; [exact H|]. exact (proj2 (checkpoint_is_last_on_its_clock toy_consumers g H E)).
Defined.
