(* ===== verification/ConsumerPlanning.v ===== *)
(** * Planning the effects of an accepted step

    [python/pops/runtime/_consumer_planning.py] and [_consumer_effects.py]: which
    consumers of a clock are due, what they read of the runtime, and the effects
    with the cursor each commits.  Consumers that read a field through a
    [FieldContext] are not modelled. *)
From Stdlib Require Import SpecFloat.
From stdpp Require Import sorting.
From S2P Require Import Prelude SortedKeys Binary64 FloatValid HexFloat Scalar Manifest Temporal FloatError StepControllers Points EveryDt Schedule Consumers.

(** ** Moments *)

(** [ConsumerMoment]: the point of its clock and what the triggers see. *)
Record ConsumerMoment := CMoment { cmo_point : TimePoint; cmo_view : moment }.

Definition cmo_clock (m : ConsumerMoment) : Clock := tp_clock (cmo_point m).

(** The part of a [RuntimePlanBundle] planning reads. *)
Record FieldAccess := Access { ac_resource : string; ac_space : string }.
Record RuntimeCall := Call { ca_layout : string; ca_reads : list FieldAccess; ca_writes : list FieldAccess }.
Record CollectiveRow := CollectiveOf { cl_identity : string; cl_resource : string; cl_operation : string }.
Record RuntimePlan := Plan {
  pn_identity : string; pn_communicator : string; pn_calls : list RuntimeCall; pn_collectives : list CollectiveRow }.

(** ** Due consumers *)

(** [_schedule_coordinate] *)
Definition schedule_coordinate (m : manifest) (mo : ConsumerMoment) : option Z :=
  if bool_decide (cm_clock m = cmo_clock mo)
  then consumer_coordinate (schedule_domain (cm_schedule m)) (cmo_view mo) else None.

(** What identifies one logical occurrence: the lattice index of the trigger, or
    the coordinate and point with the evidence of the domain. *)
Inductive domain_evidence :=
| NoDomainEvidence | StageEvidence (stage : option StagePoint) | LevelEvidence (level : option Z)
| EventEvidence (event : EventHandle).
Inductive evidence :=
| PhysicalLattice (index : Z)
| AtPoint (coordinate : option Z) (point : TimePoint) (domain : domain_evidence).

(** [consumer_occurrence_evidence] of the domains. *)
Definition domain_occurrence_evidence (d : domain) (mo : moment) : domain_evidence :=
  match d with
  | Stage _ _ => StageEvidence (mo_stage mo)
  | AMRLevel _ _ _ => LevelEvidence (mo_level mo)
  | Event _ _ e => EventEvidence e
  | _ => NoDomainEvidence
  end.

(** The payload hashed into an occurrence. *)
Record occurrence := Occurrence { oc_consumer : string; oc_schedule : schedule; oc_evidence : evidence }.

Section Due.
Context (repr : float → decimal).

(** [_is_due] *)
Definition is_due (m : manifest) (mo : ConsumerMoment) : res bool :=
  match schedule_coordinate m mo with
  | None => Ok false
  | Some coordinate =>
      match sch_trigger (cm_schedule m), consumer_due repr (sch_trigger (cm_schedule m)) coordinate (cmo_view mo) with
      | When _ _, Err TypeError => Err ValueError
      | _, due => due
      end
  end.

(** [_occurrence], before it is hashed. *)
Definition occurrence_of (m : manifest) (mo : ConsumerMoment) : res occurrence :=
  let at_point := AtPoint (schedule_coordinate m mo) (cmo_point mo)
                    (domain_occurrence_evidence (schedule_domain (cm_schedule m)) (cmo_view mo)) in
  ev ← match sch_trigger (cm_schedule m) with
       | EveryDt _ interval =>
           index ← every_dt_evidence repr interval (mo_time (cmo_view mo));
           Ok (match index with Some i => PhysicalLattice i | None => at_point end)
       | _ => Ok at_point
       end;
  Ok (Occurrence (cm_id m) (cm_schedule m) ev).

(** [consumer_next_deadline] of each trigger. *)
Definition trigger_next_deadline (t : trigger) (time : string) : res (option string) :=
  match t with EveryDt _ interval => s ← next_deadline repr interval time; Ok (Some s) | _ => Ok None end.

(** One consumer in [next_consumer_deadline]. *)
Definition consumer_deadline (moments : list ConsumerMoment) (m : manifest) : res (option float) :=
  match find (fun mo => bool_decide (cmo_clock mo = cm_clock m)) moments with
  | None => Ok None
  | Some mo =>
      text ← trigger_next_deadline (sch_trigger (cm_schedule m)) (mo_time (cmo_view mo));
      match text with
      | None => Ok None
      | Some text =>
          deadline ← (match fromhex text with Some f => Ok f | None => Err ValueError end);
          now ← (match fromhex (mo_time (cmo_view mo)) with Some f => Ok f | None => Err ValueError end);
          _ ← require (is_finite deadline && String.eqb (hex deadline) text && fltb now deadline) ValueError;
          Ok (Some deadline)
      end
  end.

(** [next_consumer_deadline] *)
Definition next_consumer_deadline (g : graph) (moments : list ConsumerMoment) : res (option float) :=
  _ ← require (bool_decide (NoDup (map cmo_clock moments))) ValueError;
  deadlines ← map_res (consumer_deadline moments) (gr_nodes g);
  Ok (match omap id deadlines with [] => None | x :: l => Some (fmin_list x l) end).
End Due.

(** ** Resources *)

(** [_consumer_resource_rows]: a quantity with the collectives its provider
    executes. *)
Definition consumer_resource_rows (m : manifest) : list (ConsumerQuantity * list string) :=
  let expected := if bool_decide (cm_mode m = ROOT ∨ cm_mode m = COLLECTIVE) then ["gather"] else [] in
  map (fun q => (q, expected)) (cm_quantities m)
  ++ map (fun d => (dq_quantity d, diagnostic_collective_operations (dq_reductions d))) (cm_diagnostics m).

(** [ConsumerResourceBinding] *)
Record binding := Binding {
  bd_quantity : string; bd_reference : string; bd_resource : string; bd_layout : string; bd_levels : list Z;
  bd_spaces : list string; bd_collectives : list string }.

Definition set_names (l : list string) : list string := sorted_names (remove_dups l).

(** [ConsumerResourceBinding.__post_init__] *)
Definition mk_binding (b : binding) : res binding :=
  _ ← require (forallb is_text [bd_reference b; bd_resource b; bd_layout b]) TypeError;
  _ ← require (bool_decide (StronglySorted Z.lt (bd_levels b)) && forallb (Z.leb 0) (bd_levels b)) ValueError;
  _ ← require (forallb (fun names => bool_decide (names = set_names names)
                                     && forallb (fun n => negb (String.eqb n EmptyString)) names)
                 [bd_spaces b; bd_collectives b]) ValueError;
  _ ← require (negb (bool_decide (bd_spaces b = []))) ValueError;
  Ok b.

Definition supports_singleton_collective (m : manifest) : bool :=
  match cm_operation m with
  | Some (JObj d) => match dget "supports_singleton_collective" d with Some (JBool b) => b | _ => false end
  | _ => false
  end.

(** One row of [_resource_bindings]. *)
Definition resource_binding (plan : RuntimePlan) (row : ConsumerQuantity * list string) : res binding :=
  let (q, expected) := row in
  let accesses :=
    List.filter (fun a => String.eqb (ac_resource a) (qt_resource q))
      (concat (map (fun c => if String.eqb (ca_layout c) (qt_layout q) then ca_reads c ++ ca_writes c else [])
                 (pn_calls plan))) in
  _ ← require (negb (bool_decide (length accesses = 0%nat))) ValueError;
  let rows := List.filter (fun r => String.eqb (cl_resource r) (qt_resource q) && bool_decide (cl_operation r ∈ expected))
                (pn_collectives plan) in
  _ ← require (forallb (fun operation => bool_decide (operation ∈ map cl_operation rows)) expected) ValueError;
  mk_binding (Binding (qt_identity q) (qt_reference q) (qt_resource q) (qt_layout q) (qt_levels q)
                (set_names (map ac_space accesses)) (sorted_names (map cl_identity rows))).

(** [_resource_bindings] *)
Definition resource_bindings (plan : RuntimePlan) (m : manifest) : res (list binding) :=
  let serial := String.eqb (pn_communicator plan) "serial" in
  _ ← require (negb (bool_decide (cm_kind m = SCIENTIFIC_OUTPUT ∨ cm_kind m = MONITOR)
                     && bool_decide (cm_mode m = SERIAL) && negb serial)) ValueError;
  _ ← require (negb (negb (bool_decide (cm_mode m = SERIAL)) && serial && negb (supports_singleton_collective m))) ValueError;
  map_res (resource_binding plan) (consumer_resource_rows m).

(** [_coverage_active] and the checks of the report: one row per quantity, no
    target twice. *)
Definition coverage_row (id : string) (b : binding) : string * list string :=
  (("consumer-quantity:" ++ id ++ ":" ++ bd_quantity b)%string,
   ("runtime-resource:" ++ bd_resource b ++ "@" ++ bd_layout b)%string
   :: map (fun c => ("runtime-collective:" ++ c)%string) (bd_collectives b)).
Definition coverage_active (bindings : list (string * list binding)) : res (list (string * list string)) :=
  let rows := concat (map (fun row => map (coverage_row row.1) row.2) bindings) in
  _ ← require (forallb (fun row => bool_decide (NoDup row.2)) rows) ValueError;
  _ ← require (bool_decide (NoDup (map fst rows))) ValueError;
  Ok (sort_keys rows).

(** ** Effects ([_consumer_effects.py]) *)

(** [ConsumerPayload]; its field resolutions are empty without a [FieldContext]. *)
Record ConsumerPayload := Payload { py_runtime : string; py_occurrence : string; py_resources : list binding }.

(** [PublicationTarget] *)
Record PublicationTarget := Target {
  tg_uri : string; tg_format : option json; tg_operation : option json; tg_mode : ParallelMode }.
Definition mk_target (t : PublicationTarget) : res PublicationTarget :=
  _ ← require (is_text (tg_uri t)) TypeError;
  _ ← require (negb (bool_decide (is_Some (tg_format t)) && bool_decide (is_Some (tg_operation t)))) ValueError;
  Ok t.

Record AcceptedSideEffect := Effect {
  ef_ordinal : Z; ef_consumer : string; ef_manifest : string; ef_target : PublicationTarget; ef_payload : ConsumerPayload;
  ef_action : failure_action; ef_before : ScheduleCursor; ef_after : ScheduleCursor }.

(** The tokens of the identities: the SHA-256 of the canonical data of a value. *)
Record identities := Identities {
  id_occurrence : occurrence → string; id_manifest : manifest → string; id_payload : ConsumerPayload → string;
  id_effect : AcceptedSideEffect → string; id_graph : graph → string }.

(** [AcceptedSideEffect.__post_init__] *)
Definition mk_effect (e : AcceptedSideEffect) : res AcceptedSideEffect :=
  _ ← require (0 <=? ef_ordinal e) TypeError;
  _ ← require (is_text (ef_consumer e)) TypeError;
  _ ← require (String.eqb (kc_consumer (ef_before e)) (ef_consumer e)
               && String.eqb (kc_consumer (ef_after e)) (ef_consumer e)) ValueError;
  _ ← require (bool_decide (kc_last (ef_after e) = Some (py_occurrence (ef_payload e)))
               && (kc_samples (ef_after e) =? kc_samples (ef_before e) + 1)) ValueError;
  Ok e.

Record EffectPlan := EffPlan {
  ep_graph : string; ep_runtime : string; ep_effects : list AcceptedSideEffect; ep_coverage : list (string * list string) }.

Definition contiguous (l : list Z) : Prop := l = map Z.of_nat (seq 0 (length l)).

Section Plans.
Context (I : identities) (repr : float → decimal).

(** [EffectPlan.__post_init__] *)
Definition mk_effect_plan (p : EffectPlan) : res EffectPlan :=
  _ ← require (bool_decide (contiguous (map ef_ordinal (ep_effects p)))) ValueError;
  _ ← require (bool_decide (NoDup (map (fun e => id_payload I (ef_payload e)) (ep_effects p)))) ValueError;
  Ok p.

(** One consumer of the loop of [plan_accepted_side_effects]. *)
Definition plan_consumer (plan : RuntimePlan) (bindings : list (string * list binding)) (mo : ConsumerMoment)
    (cursors : cursor_set) (effects : list AcceptedSideEffect) (m : manifest) : res (list AcceptedSideEffect) :=
  due ← is_due repr m mo;
  if negb due then Ok effects
  else
    o ← occurrence_of repr m mo;
    let token := id_occurrence I o in
    before ← for_consumer cursors (cm_id m);
    if bool_decide (kc_last before = Some token) then Ok effects
    else
      resources ← (match dget (cm_id m) bindings with Some b => Ok b | None => Err KeyError end);
      after ← mk_cursor (cm_id m) (Some token) (kc_samples before + 1);
      target ← mk_target (Target (cm_uri m) (cm_format m) (cm_operation m) (cm_mode m));
      e ← mk_effect (Effect (Z.of_nat (length effects)) (cm_id m) (id_manifest I m) target
                       (Payload (pn_identity plan) token resources) (cm_action m) before after);
      Ok (effects ++ [e]).

(** [plan_accepted_side_effects] *)
Definition plan_accepted_side_effects (plan : RuntimePlan) (g : graph) (mo : ConsumerMoment) (cursors : cursor_set)
    : res EffectPlan :=
  let active := List.filter (fun m => bool_decide (cm_clock m = cmo_clock mo)) (gr_nodes g) in
  bindings ← map_res (fun m => b ← resource_bindings plan m; Ok (cm_id m, b)) active;
  coverage ← coverage_active bindings;
  effects ← fold_res (plan_consumer plan bindings mo cursors) [] (gr_topology g);
  mk_effect_plan (EffPlan (id_graph I g) (pn_identity plan) effects coverage).

(** The cursors an accepted plan leaves. *)
Definition commit_cursors (cursors : cursor_set) (effects : list AcceptedSideEffect) : res cursor_set :=
  fold_res (fun s e => replace_cursor s (ef_after e)) cursors effects.
End Plans.

(** ** Cursors *)

Definition cursors_ok (s : cursor_set) : Prop := Forall (fun row => row.1 = kc_consumer row.2) s ∧ NoDup (dkeys s).

Lemma dget_perm {V} k (d d' : list (string * V)) : d ≡ₚ d' → NoDup (dkeys d) → dget k d = dget k d'.
Proof.
  intros Hp Hn. assert (Hn' : NoDup (dkeys d')) by (unfold dkeys; change (NoDup (fst <$> d')); by rewrite <- Hp).
  destruct (dget k d') as [v|] eqn:E.
  - apply dget_elem; [done|]. rewrite Hp. by apply dget_Some_elem.
  - apply dget_None. apply dget_None in E. unfold dkeys. change (k ∉ fst <$> d). by rewrite Hp.
Qed.

Lemma keyed_rows s : Forall (fun row => row.1 = kc_consumer row.2) s → keyed (map snd s) = s.
Proof. unfold keyed. induction 1 as [|[k c] s Hk _ IH]; cbn; [done|]. cbn in Hk. by rewrite IH, <- Hk. Qed.

Lemma dset_keyed k c s : k = kc_consumer c → Forall (fun row => row.1 = kc_consumer row.2) s →
  Forall (fun row => row.1 = kc_consumer row.2) (dset k c s).
Proof. intros Hk. induction 1 as [|[k' c'] s Hc Hs IH]; cbn; [by constructor|].
  cbn in Hc. case_decide; constructor; cbn; congruence || done.
Qed.

(** Replacing a cursor always succeeds and changes that cursor alone. *)
Lemma replace_cursor_ok s c : cursors_ok s → ∃ s', replace_cursor s c = Ok s' ∧ cursors_ok s'
  ∧ ∀ k, dget k s' = if decide (k = kc_consumer c) then Some c else dget k s.
Proof.
  intros [Hk Hn]. unfold replace_cursor, mk_cursor_set. set (rows := dset (kc_consumer c) c s).
  assert (Hrows : Forall (fun row => row.1 = kc_consumer row.2) rows) by (by apply dset_keyed).
  assert (Hnd : NoDup (dkeys rows)) by (by apply dset_NoDup).
  assert (Hids : map kc_consumer (map snd rows) = dkeys rows).
  { unfold dkeys. rewrite map_map. clear Hnd. induction Hrows as [|[k d] l E _ IH]; cbn; [done|]. cbn in E. by rewrite IH, E. }
  rewrite Hids, bool_decide_true, (keyed_rows rows Hrows) by done. cbn. exists (sort_keys rows). split_and!; [done| |].
  - split; [by apply Forall_sort|]. unfold dkeys. change (NoDup (fst <$> sort_keys rows)). by rewrite sort_keys_perm.
  - intros k. rewrite <- (dget_perm k rows) by (done || by rewrite sort_keys_perm). unfold rows. apply dget_dset.
Qed.

Lemma for_consumer_id s id c : cursors_ok s → for_consumer s id = Ok c → kc_consumer c = id.
Proof.
  intros [Hk _]. unfold for_consumer, mk_cursor. intros H. inv_ok. destruct (dget id s) as [c'|] eqn:E1; inv_ok; [|done].
  apply dget_Some_elem in E1. rewrite Forall_forall in Hk. by symmetry; apply (Hk _ E1).
Qed.

Lemma for_consumer_text s id c : for_consumer s id = Ok c → is_text id = true.
Proof. unfold for_consumer. by destruct (is_text id). Qed.

(** Committing effects of distinct consumers. *)
Lemma commit_cursors_ok es : ∀ s, cursors_ok s → Forall (fun e => kc_consumer (ef_after e) = ef_consumer e) es →
  NoDup (map ef_consumer es) →
  ∃ s', commit_cursors s es = Ok s' ∧ cursors_ok s' ∧ (∀ e, e ∈ es → dget (ef_consumer e) s' = Some (ef_after e))
    ∧ ∀ k, k ∉ map ef_consumer es → dget k s' = dget k s.
Proof.
  unfold commit_cursors. induction es as [|e es IH]; intros s Hs Hes Hn; cbn.
  { exists s. split_and!; try done. by intros e He%elem_of_nil. }
  apply Forall_cons in Hes as [He Hes]. apply NoDup_cons in Hn as [Hfresh Hn].
  destruct (replace_cursor_ok s (ef_after e) Hs) as (s1 & -> & Hs1 & Hget). cbn.
  destruct (IH s1 Hs1 Hes Hn) as (s' & -> & Hs' & Hin & Hout). exists s'. split_and!; [done|done| |].
  - intros e' [->|He']%elem_of_cons; [|auto]. rewrite Hout, Hget, He by done. by rewrite decide_True.
  - intros k [Hk Hk']%not_elem_of_cons. rewrite Hout, Hget, He, decide_False by done. done.
Qed.

(** ** What a plan holds *)

Section Planned.
Context (I : identities) (repr : float → decimal) (plan : RuntimePlan) (mo : ConsumerMoment) (cursors : cursor_set).

(** Nothing is left to do for a consumer that is not due, or whose last committed
    sample is this occurrence. *)
Definition settled (m : manifest) : Prop :=
  is_due repr m mo = Ok false
  ∨ (is_due repr m mo = Ok true ∧ ∃ o c, occurrence_of repr m mo = Ok o ∧ for_consumer cursors (cm_id m) = Ok c
      ∧ kc_last c = Some (id_occurrence I o)).

(** The effect of a due consumer: the exact next sample. *)
Definition next_sample (m : manifest) (e : AcceptedSideEffect) : Prop :=
  is_due repr m mo = Ok true ∧ ef_consumer e = cm_id m ∧ ef_action e = cm_action m
  ∧ ef_target e = Target (cm_uri m) (cm_format m) (cm_operation m) (cm_mode m)
  ∧ for_consumer cursors (cm_id m) = Ok (ef_before e)
  ∧ ∃ o, occurrence_of repr m mo = Ok o ∧ kc_last (ef_before e) ≠ Some (id_occurrence I o)
      ∧ ef_after e = Cursor (cm_id m) (Some (id_occurrence I o)) (kc_samples (ef_before e) + 1)
      ∧ py_occurrence (ef_payload e) = id_occurrence I o ∧ py_runtime (ef_payload e) = pn_identity plan.

Inductive planned : list manifest → list AcceptedSideEffect → Prop :=
| planned_nil : planned [] []
| planned_settled m l es : settled m → planned l es → planned (m :: l) es
| planned_sample m l e es : next_sample m e → planned l es → planned (m :: l) (e :: es).

Lemma plan_fold bindings l : ∀ acc es,
  fold_res (plan_consumer I repr plan bindings mo cursors) acc l = Ok es → ∃ new, es = acc ++ new ∧ planned l new.
Proof.
  induction l as [|m l IH]; intros acc es H; cbn in H; inv_ok.
  { exists []. rewrite app_nil_r. split; [done | constructor]. }
  destruct (IH _ _ H) as (new & -> & Hnew). match goal with E : plan_consumer _ _ _ _ _ _ _ _ = _ |- _ => rename E into Hm end.
  unfold plan_consumer in Hm. inv_ok. match goal with E : is_due _ _ _ = Ok ?d |- _ => rename E into Hdue; destruct d end; cbn in Hm; inv_ok; cycle 1.
  { exists new. split; [done|]. by apply planned_settled; [left|]. }
  case_bool_decide as Hlast; inv_ok.
  { exists new. split; [done|]. apply planned_settled; [|done]. right. eauto 10. }
  match goal with E : mk_effect _ = _ |- _ => unfold mk_effect in E; inv_ok end.
  match goal with E : mk_target _ = _ |- _ => unfold mk_target in E; inv_ok end.
  match goal with E : mk_cursor _ _ _ = _ |- _ => unfold mk_cursor in E; inv_ok end.
  rewrite <- app_assoc. eexists. split; [reflexivity|]. apply planned_sample; [|done].
  unfold next_sample; cbn. split_and!; try done. eauto 10.
Qed.

Lemma settled_fold bindings l acc : Forall settled l →
  fold_res (plan_consumer I repr plan bindings mo cursors) acc l = Ok acc.
Proof.
  induction 1 as [|m l Hm _ IH]; cbn; [done|].
  assert (E : plan_consumer I repr plan bindings mo cursors acc m = Ok acc); [|by rewrite E].
  unfold plan_consumer. destruct Hm as [->|(-> & o & c & Ho & Hc & Hl)]; [done|]. cbn. rewrite Ho. cbn. rewrite Hc. cbn.
  by rewrite bool_decide_true.
Qed.

Lemma planned_elem l es e : planned l es → e ∈ es → ∃ m, m ∈ l ∧ next_sample m e.
Proof.
  induction 1 as [|m l es _ _ IH|m l e' es Hm _ IH]; [by intros []%elem_of_nil| |].
  - intros He. destruct (IH He) as (n & Hn & Hs). exists n. split; [by right | done].
  - intros [->|He]%elem_of_cons; [exists m; split; [left | done]|]. destruct (IH He) as (n & Hn & Hs). exists n. split; [by right | done].
Qed.

Lemma planned_consumers l es : planned l es → sublist (map ef_consumer es) (map cm_id l).
Proof. induction 1 as [|m l es _ _ IH|m l e es (_ & Hid & _) _ IH]; cbn; [constructor|by constructor|]. rewrite Hid. by constructor. Qed.

Lemma planned_id l es x : planned l es → x ∈ map ef_consumer es → x ∈ map cm_id l.
Proof. intros H%planned_consumers Hx. by eapply elem_of_sublist. Qed.

Lemma planned_NoDup l es : planned l es → NoDup (map cm_id l) → NoDup (map ef_consumer es).
Proof. intros H%planned_consumers Hn. by eapply sublist_NoDup. Qed.
End Planned.

Lemma plan_planned I repr plan g mo cursors p : plan_accepted_side_effects I repr plan g mo cursors = Ok p →
  planned I repr plan mo cursors (gr_topology g) (ep_effects p).
Proof.
  intros H. unfold plan_accepted_side_effects, mk_effect_plan in H. inv_ok. cbn.
  by match goal with E : fold_res _ _ _ = Ok _ |- _ => apply plan_fold in E as (es & -> & Hp) end.
Qed.

(** The consumers of a sample are of the clock of its moment. *)
Lemma next_sample_clock I repr plan mo cursors m e : next_sample I repr plan mo cursors m e → cm_clock m = cmo_clock mo.
Proof. intros [H _]. unfold is_due, schedule_coordinate in H. by case_bool_decide. Qed.

(** After the cursors of a plan are committed, every consumer is settled. *)
Lemma settled_after I repr plan mo cursors cursors' l es :
  planned I repr plan mo cursors l es → NoDup (map cm_id l) →
  (∀ e, e ∈ es → dget (ef_consumer e) cursors' = Some (ef_after e)) →
  (∀ x, x ∈ map cm_id l → x ∉ map ef_consumer es → dget x cursors' = dget x cursors) →
  Forall (settled I repr mo cursors') l.
Proof.
  induction 1 as [|m l es Hm Hl IH|m l e es Hm Hl IH]; intros Hn Hin Hout; [constructor| |].
  - apply NoDup_cons in Hn as [Hfresh Hn]. constructor; [|apply IH; [done..|intros x Hx; apply Hout; by right]].
    destruct Hm as [Hm|(Hd & o & c & Ho & Hc & Hlast)]; [by left|]. right. split; [done|]. exists o, c. split_and!; try done.
    unfold for_consumer in *. rewrite Hout; [done|left|]. intros Hx. by apply Hfresh, (planned_id _ _ _ _ _ _ _ _ Hl).
  - apply NoDup_cons in Hn as [Hfresh Hn]. constructor.
    + destruct Hm as (Hd & Hid & _ & _ & Hc & o & Ho & _ & Haft & _). right. split; [done|]. exists o, (ef_after e).
      split_and!; [done| |by rewrite Haft]. apply for_consumer_text in Hc.
      unfold for_consumer. rewrite Hc, <- Hid, Hin by left. done.
    + apply IH; [done|intros e' He'; apply Hin; by right|]. intros x Hx Hx'. apply Hout; [by right|].
      destruct Hm as (_ & Hid & _). rewrite map_cons, Hid. apply not_elem_of_cons. split; [by intros ->|done].
Qed.

(** C15: Every due sample is published once: a plan holds exactly the consumers
    that are due at the moment and whose last committed sample is another
    occurrence, in the order of the graph, each with the exact next sample as
    its cursor and ordinals counting from zero; committing the plan advances
    those cursors and no other; and planning the same moment again then plans
    nothing. *)
Theorem samples_planned_once I repr plan g mo cursors p :
  cursors_ok cursors → NoDup (map cm_id (gr_topology g)) →
  plan_accepted_side_effects I repr plan g mo cursors = Ok p →
  planned I repr plan mo cursors (gr_topology g) (ep_effects p)
  ∧ map ef_ordinal (ep_effects p) = map Z.of_nat (seq 0 (length (ep_effects p)))
  ∧ ∃ cursors', commit_cursors cursors (ep_effects p) = Ok cursors' ∧ cursors_ok cursors'
    ∧ (∀ e, e ∈ ep_effects p → dget (ef_consumer e) cursors' = Some (ef_after e))
    ∧ (∀ x, x ∉ map ef_consumer (ep_effects p) → dget x cursors' = dget x cursors)
    ∧ ∃ p', plan_accepted_side_effects I repr plan g mo cursors' = Ok p' ∧ ep_effects p' = [].
Proof.
  intros Hc Hn H. pose proof (plan_planned _ _ _ _ _ _ _ H) as Hp. unfold plan_accepted_side_effects in *. inv_ok.
  unfold mk_effect_plan in H. inv_ok. bools. cbn [ep_effects] in *.
  match goal with E : fold_res _ _ _ = Ok ?l |- _ => rename l into es; clear E end.
  split_and!; [done|by match goal with E : contiguous _ |- _ => unfold contiguous in E; rewrite length_map in E end|].
  destruct (commit_cursors_ok es cursors Hc) as (c' & Hcommit & Hc' & Hin & Hout).
  { apply Forall_forall. intros e He. destruct (planned_elem _ _ _ _ _ _ _ _ Hp He) as (m & _ & (_ & Hid & _ & _ & _ & o & _ & _ & -> & _)).
    by rewrite Hid. }
  { by eapply planned_NoDup. }
  exists c'. split_and!; [done..|].
  cbn [mbind res_bind]. match goal with E : coverage_active _ = Ok _ |- _ => rewrite E; cbn [mbind res_bind] end.
  rewrite settled_fold; [eexists; split; reflexivity|].
  eapply settled_after; [done..|]. auto.
Qed.

(** ** The next deadline *)

Definition finite_float (x : float) : Prop := valid x = true ∧ is_finite x = true.

Lemma fmin_least a b : finite_float a → finite_float b →
  finite_float (fmin a b) ∧ fmin a b ∈ [a; b] ∧ fint (fmin a b) = Z.min (fint a) (fint b).
Proof.
  intros [Ha Fa] [Hb Fb]. unfold fmin. rewrite fltb_fint by done.
  destruct (Z.ltb_spec (fint b) (fint a)); split_and!; try done; try lia; set_solver.
Qed.

Lemma fmin_list_least l : ∀ x, Forall finite_float (x :: l) →
  finite_float (fmin_list x l) ∧ fmin_list x l ∈ x :: l ∧ Forall (fun y => fint (fmin_list x l) <= fint y) (x :: l).
Proof.
  induction l as [|y l IH]; intros x [Hx Hl]%Forall_cons; cbn.
  { split_and!; [done | left | by repeat constructor]. }
  apply Forall_cons in Hl as [Hy Hl]. destruct (fmin_least x y Hx Hy) as (Hf & Hin & Hmin).
  destruct (IH (fmin x y)) as (H1 & H2 & H3); [by constructor|]. fold (fmin_list (fmin x y) l).
  apply Forall_cons in H3 as [H3 H4]. rewrite Hmin in H3. split_and!; [done| |].
  - apply elem_of_cons in H2 as [E|H2]; [|by do 2 right]. rewrite E. set_solver.
  - repeat constructor; try lia. done.
Qed.

(** A consumer of one of the moments whose trigger owns the physical time [d]. *)
Definition hard_deadline (repr : float → decimal) (moments : list ConsumerMoment) (m : manifest) (d : float) : Prop :=
  ∃ mo dom interval text now, mo ∈ moments ∧ cmo_clock mo = cm_clock m
    ∧ sch_trigger (cm_schedule m) = EveryDt dom interval
    ∧ next_deadline repr interval (mo_time (cmo_view mo)) = Ok text
    ∧ fromhex text = Some d ∧ fromhex (mo_time (cmo_view mo)) = Some now ∧ fltb now d = true.

Lemma consumer_deadline_ok repr moments m r : consumer_deadline repr moments m = Ok r →
  match r with
  | Some d => finite_float d ∧ hard_deadline repr moments m d
  | None => ∀ mo dom interval, mo ∈ moments → cmo_clock mo = cm_clock m → sch_trigger (cm_schedule m) ≠ EveryDt dom interval
  end.
Proof.
  unfold consumer_deadline. destruct (find _ moments) as [mo|] eqn:Ef; cycle 1.
  { intros [= <-] mo dom interval Hmo%list_elem_of_In Hc _. pose proof (find_none _ _ Ef mo Hmo) as H. cbn in H. by rewrite bool_decide_true in H. }
  apply find_some in Ef as [Hmo%list_elem_of_In Hclock%bool_decide_eq_true].
  intros H. inv_ok. match goal with E : trigger_next_deadline _ _ _ = Ok ?t |- _ => rename E into Ht; destruct t as [text|] end; inv_ok.
  - destruct (fromhex text) as [d|] eqn:Ed; inv_ok. destruct (fromhex (mo_time _)) as [now|] eqn:En; inv_ok. bools.
    apply fromhex_ok in Ed as Hd. destruct Hd as (Hv & Hf & _). split; [done|].
    destruct (sch_trigger (cm_schedule m)) as [|?|dom x| | |] eqn:Etr; cbn in Ht; inv_ok; simplify_eq.
    by repeat eexists.
  - intros mo' dom interval _ _ E. rewrite E in Ht. cbn in Ht. by inv_ok.
Qed.

(** The step controller is capped at the earliest output deadline: what
    [next_consumer_deadline] returns is the next lattice point of some consumer
    whose clock has a moment, strictly after the accepted time, and no other
    such consumer has an earlier one; without a physical-time consumer there is
    no cap. *)
Theorem deadline_is_earliest repr g moments r :
  next_consumer_deadline repr g moments = Ok r →
  (∀ d0, r = Some d0 → ∃ m, m ∈ gr_nodes g ∧ hard_deadline repr moments m d0)
  ∧ (∀ m mo dom interval, m ∈ gr_nodes g → mo ∈ moments → cmo_clock mo = cm_clock m →
      sch_trigger (cm_schedule m) = EveryDt dom interval →
      ∃ d0 d, r = Some d0 ∧ hard_deadline repr moments m d ∧ fleb d0 d = true).
Proof.
  unfold next_consumer_deadline. intros H. inv_ok.
  match goal with E : map_res _ _ = Ok ?l |- _ => rename l into rows; apply map_res_Forall2 in E; rename E into F end.
  assert (Hfin : Forall finite_float (omap id rows)).
  { apply Forall_forall. intros d (o & Ho & Hd)%list_elem_of_omap. cbn in Hd. subst o.
    destruct (Forall2_right _ _ _ _ F Ho) as (m & _ & E). by apply consumer_deadline_ok in E as [? _]. }
  destruct (omap id rows) as [|x l] eqn:El.
  - split; [done|]. intros m mo dom interval Hm Hmo Hc Ht. exfalso.
    destruct (Forall2_left _ _ _ _ F Hm) as (o & Ho & E). apply consumer_deadline_ok in E. destruct o as [d|]; [|by eapply E].
    assert (Hd : d ∈ omap id rows) by (apply list_elem_of_omap; by exists (Some d)). rewrite El in Hd. by apply elem_of_nil in Hd.
  - destruct (fmin_list_least l x Hfin) as ([Hv Hf] & Hin & Hleast). split.
    + intros d0 [= <-]. rewrite <- El in Hin. apply list_elem_of_omap in Hin as (o & Ho & Hd). cbn in Hd. subst o.
      destruct (Forall2_right _ _ _ _ F Ho) as (m & Hm & E). exists m. split; [done|]. by apply consumer_deadline_ok in E as [_ ?].
    + intros m mo dom interval Hm Hmo Hc Ht. destruct (Forall2_left _ _ _ _ F Hm) as (o & Ho & E).
      apply consumer_deadline_ok in E. destruct o as [d|]; [|by destruct (E mo dom interval)]. destruct E as [[Vd Fd] Hhard].
      exists (fmin_list x l), d. split_and!; [done..|]. rewrite fleb_fint by done. apply Z.leb_le.
      assert (Hd : d ∈ omap id rows) by (apply list_elem_of_omap; by exists (Some d)). rewrite El in Hd.
      rewrite Forall_forall in Hleast. by apply Hleast.
Qed.

(** ** A run *)

Definition toy_identities : identities := Identities
  (fun o => (oc_consumer o ++ "@" ++ match oc_evidence o with
     | PhysicalLattice i => "k" ++ string_of_list_ascii (HexFloat.decimal (Z.to_N i))
     | AtPoint c _ _ => "n" ++ string_of_list_ascii (HexFloat.decimal (Z.to_N (default 0 c))) end)%string)
  cm_uri py_occurrence ef_consumer (fun _ => "graph"%string).
Definition toy_runtime_plan : RuntimePlan := Plan "plan" "serial" [] [].
Definition toy_view (step : Z) (time : string) : moment := Moment step 0 time step step None None [] false false.
Definition toy_moment (step : Z) (time : string) : ConsumerMoment :=
  CMoment (MkTime toy_clock (Literal (PInteger 0) None None None) step) (toy_view step time).

(** The first accepted step publishes the four consumers, the checkpoint last. *)
Example toy_plan :
  (g ← resolve_graph toy_consumers;
   p ← plan_accepted_side_effects toy_identities tenth_repr toy_runtime_plan g (toy_moment 1 "0x1.0000000000000p-2") [];
   Ok (map (fun e => (ef_ordinal e, ef_consumer e, kc_last (ef_after e), kc_samples (ef_after e))) (ep_effects p)))
  = Ok [(0, "b.energy", Some "b.energy@n1", 1); (1, "z.fields", Some "z.fields@n1", 1);
        (2, "m.live", Some "m.live@n1", 1); (3, "a.restart", Some "a.restart@n1", 1)].
Proof. vm_compute. reflexivity. Qed.

Lemma samples_planned_once_witness :
  match resolve_graph toy_consumers with
  | Ok g =>
      match plan_accepted_side_effects toy_identities tenth_repr toy_runtime_plan g (toy_moment 1 "0x1.0000000000000p-2") [] with
      | Ok p => length (ep_effects p) = 4%nat ∧ map ef_ordinal (ep_effects p) = [0; 1; 2; 3]
      | Err _ => False
      end
  | Err _ => False
  end.
Proof.
  destruct (resolve_graph toy_consumers) as [g|e] eqn:Eg; [|vm_compute in Eg; discriminate].
  destruct (plan_accepted_side_effects toy_identities tenth_repr toy_runtime_plan g (toy_moment 1 "0x1.0000000000000p-2") [])
    as [p|e] eqn:Ep; [|vm_compute in Eg; injection Eg as <-; vm_compute in Ep; discriminate].
  assert (Hl : length (ep_effects p) = 4%nat).
  { vm_compute in Eg. injection Eg as <-. vm_compute in Ep. injection Ep as <-. reflexivity. }
  assert (Hn : NoDup (map cm_id (gr_topology g))).
  { vm_compute in Eg. injection Eg as <-. apply (bool_decide_unpack _). vm_compute. exact I. }
  split; [exact Hl|].
  destruct (samples_planned_once toy_identities tenth_repr toy_runtime_plan g (toy_moment 1 "0x1.0000000000000p-2") [] p)
    as (_ & Ho & _); [split; constructor | exact Hn | exact Ep|].
  rewrite Ho, Hl. reflexivity.
Defined.

(** Two physical-time outputs: [0.1] from [0.25] is due at [0.3]. *)
Definition toy_lattice_consumer (id : string) : manifest :=
  Manifest (Handle id "case") SCIENTIFIC_OUTPUT [] (MkSchedule (EveryDt (AcceptedStep toy_clock None) tenth_interval) None)
    ("file:" ++ id)%string None SERIAL [] [] FailRun None.
Definition toy_lattice_graph : graph :=
  Graph [toy_lattice_consumer "a"; toy_consumer "b" MONITOR []] [toy_lattice_consumer "a"; toy_consumer "b" MONITOR []].

Lemma deadline_is_earliest_witness :
  ∃ d0, next_consumer_deadline tenth_repr toy_lattice_graph [toy_moment 1 "0x1.0000000000000p-2"] = Ok (Some d0)
    ∧ hex d0 = "0x1.3333333333333p-2"%string
    ∧ ∃ m, m ∈ gr_nodes toy_lattice_graph ∧ hard_deadline tenth_repr [toy_moment 1 "0x1.0000000000000p-2"] m d0.
Proof.
  destruct (next_consumer_deadline tenth_repr toy_lattice_graph [toy_moment 1 "0x1.0000000000000p-2"]) as [[d0|]|] eqn:E;
    [|vm_compute in E; discriminate..].
  exists d0. split; [reflexivity|]. split.
  - vm_compute in E. injection E as <-. vm_compute. reflexivity.
  - exact (proj1 (deadline_is_earliest tenth_repr toy_lattice_graph _ _ E) d0 eq_refl).
Defined.
