(* ===== verification/ConsumerTransaction.v ===== *)
(** * The consumer transaction

    [python/pops/runtime/_consumer_transaction.py]: the temporaries of an accepted
    step are prepared, then published or discarded together.  Writers are an
    interface: their operations may return, raise an [Exception], which the
    transaction handles, or be interrupted by another [BaseException], which it
    does not; the state of the transaction survives both. *)
From S2P Require Import Prelude SortedKeys Manifest Consumers ConsumerPlanning.

(** ** Receipts *)

Record PublicationReceipt := Receipt {
  rc_effect : string; rc_payload : string; rc_publisher : string; rc_artifact : string; rc_mode : ParallelMode;
  rc_ranks : list (Z * string) }.

Fixpoint insert_rank (r : Z * string) (l : list (Z * string)) : list (Z * string) :=
  match l with
  | [] => [r]
  | r' :: l' => if (r.1 <? r'.1) || ((r.1 =? r'.1) && String.leb r.2 r'.2) then r :: l else r' :: insert_rank r l'
  end.

(** [PublicationReceipt.__post_init__] *)
Definition mk_receipt (r : PublicationReceipt) : res PublicationReceipt :=
  _ ← require (is_text (rc_publisher r) && is_text (rc_artifact r)) TypeError;
  let rows := match rc_ranks r with [] => [(0, rc_artifact r)] | rows => rows end in
  _ ← require (forallb (fun row => (0 <=? row.1) && is_text row.2) rows) TypeError;
  let normalized := foldr insert_rank [] rows in
  _ ← require (bool_decide (NoDup (map fst normalized))) ValueError;
  _ ← (if bool_decide (rc_mode r = PER_RANK)
       then require (bool_decide (contiguous (map fst normalized))) ValueError
       else require (bool_decide (normalized = [(0, rc_artifact r)])) ValueError);
  Ok (Receipt (rc_effect r) (rc_payload r) (rc_publisher r) (rc_artifact r) (rc_mode r) normalized).

(** ** Reports *)

Inductive phase := PreparePhase | PublishPhase.

(** The failures [_discard] and [_rollback] report. *)
Inductive cleanup_failure := DiscardFailed (e : exn) | RollbackFailed (e : exn) | RecoveryFailed (e : exn).

(** A line of [diagnostics]: the failed cleanup of a consumer, the error the
    transaction failed with; after acceptance, a release that failed, a seal that
    failed as a whole, a recovery authority the registry refused, an accepted
    report that is gone. *)
Inductive diagnostic :=
| CleanupOf (consumer : option string) (failures : list cleanup_failure)
| ErrorOf (e : option exn)
| FinalizeOf (consumer : string) (e : option exn)
| SealOf (e : option exn)
| RecoveryRefused
| LostReport.

Record SkippedSampleReport := Skipped { sk_effect : string; sk_consumer : string; sk_phase : phase; sk_attempts : nat; sk_reason : option exn }.

Inductive report_state := Accepted | Rejected | Failed.
Record report := Report {
  rt_status : report_state; rt_cursors : cursor_set; rt_staged : list string; rt_published : list PublicationReceipt;
  rt_skipped : list SkippedSampleReport; rt_rolled_back : list string; rt_diagnostics : list diagnostic }.

(** An [Exception]; [ConsumerPublicationError] carries a report. *)
Inductive error := Exn (e : exn) | PublicationError (consumer : option string) (r : report).
Definition error_kind (e : error) : exn := match e with Exn e => e | PublicationError _ _ => RuntimeError end.

Inductive outcome (A : Type) := Returned (a : A) | Raised (e : error) | Interrupted.
Arguments Returned {A} a.
Arguments Raised {A} e.
Arguments Interrupted {A}.

(** ** Methods: the state survives exceptions *)

Definition M (S A : Type) : Type := S → outcome A * S.

Section Methods.
Context {S : Type}.

Definition ret {A} (a : A) : M S A := fun s => (Returned a, s).
Definition raise {A} (e : error) : M S A := fun s => (Raised e, s).
Definition interrupt {A} : M S A := fun s => (Interrupted, s).
Definition bind {A B} (m : M S A) (f : A → M S B) : M S B := fun s =>
  match m s with
  | (Returned a, s) => f a s
  | (Raised e, s) => (Raised e, s)
  | (Interrupted, s) => (Interrupted, s)
  end.
Definition lift {A} (r : res A) : M S A := match r with Ok a => ret a | Err e => raise (Exn e) end.

(** [try: ... except Exception as error: ...]; a [BaseException] goes through. *)
Definition attempt {A} (m : M S A) : M S (A + error) := fun s =>
  match m s with
  | (Returned a, s) => (Returned (inl a), s)
  | (Raised e, s) => (Returned (inr e), s)
  | (Interrupted, s) => (Interrupted, s)
  end.

(** [except BaseException]; [None] is an interruption. *)
Definition attempt_all {A} (m : M S A) : M S (A + option error) := fun s =>
  match m s with
  | (Returned a, s) => (Returned (inl a), s)
  | (Raised e, s) => (Returned (inr (Some e)), s)
  | (Interrupted, s) => (Returned (inr None), s)
  end.
End Methods.

(** The body of a method: [x <- m ; f]. *)
Declare Scope method_scope.
Delimit Scope method_scope with method.
Notation "x <- m ; f" := (bind m (fun x => f)) (at level 100, m at next level, right associativity) : method_scope.

(** The [_state] of a transaction. *)
Inductive tx_status := Preparing | Staged | IsAccepted | IsRejected | IsFailed | Sealed.
#[global] Instance tx_status_dec : EqDecision tx_status. Proof. solve_decision. Defined.
#[global] Instance cleanup_failure_dec : EqDecision cleanup_failure. Proof. solve_decision. Defined.

(** ** Writers *)

(** [ConsumerPublisher] and [PreparedPublication] over a world [W]: [H] are the
    prepared publications, [R] the recovery authorities.  [None] is an object of
    another type than the protocol asks.  A writer that prepares a checkpoint reads
    the cursors its runtime shows at that moment, the first argument. *)
Class Publisher (W H R : Type) := {
  pub_prepare : cursor_set → AcceptedSideEffect → W → outcome (option H) * W;
  pub_effect : H → string;
  pub_payload : H → string;
  pub_publish : H → W → outcome (option PublicationReceipt) * W;
  pub_discard : H → W → outcome unit * W;
  pub_rollback : H → W → outcome unit * W;
  pub_finalize : H → W → outcome (option unit) * W;
  pub_recoveries : H → W → outcome (option (list R)) }.

Section Transaction.
Context {W H R : Type} `{!EqDecision R} `{!Publisher W H R} (I : identities) (shown : cursor_set).

(** [ConsumerTransaction]. *)
Record transaction := Transaction {
  tx_plan : EffectPlan;
  tx_initial : cursor_set;
  tx_prepared : list (AcceptedSideEffect * H * nat);
  tx_accepted : list (AcceptedSideEffect * H * PublicationReceipt);
  tx_updates : list ScheduleCursor;
  tx_skipped : list SkippedSampleReport;
  tx_finalize : list (AcceptedSideEffect * H * PublicationReceipt);
  tx_recoveries : list R;
  tx_state : tx_status }.

Definition set_prepared p t := Transaction (tx_plan t) (tx_initial t) p (tx_accepted t) (tx_updates t) (tx_skipped t) (tx_finalize t) (tx_recoveries t) (tx_state t).
Definition set_accepted a t := Transaction (tx_plan t) (tx_initial t) (tx_prepared t) a (tx_updates t) (tx_skipped t) (tx_finalize t) (tx_recoveries t) (tx_state t).
Definition set_updates u t := Transaction (tx_plan t) (tx_initial t) (tx_prepared t) (tx_accepted t) u (tx_skipped t) (tx_finalize t) (tx_recoveries t) (tx_state t).
Definition set_skipped s t := Transaction (tx_plan t) (tx_initial t) (tx_prepared t) (tx_accepted t) (tx_updates t) s (tx_finalize t) (tx_recoveries t) (tx_state t).
Definition set_finalize f t := Transaction (tx_plan t) (tx_initial t) (tx_prepared t) (tx_accepted t) (tx_updates t) (tx_skipped t) f (tx_recoveries t) (tx_state t).
Definition set_recoveries r t := Transaction (tx_plan t) (tx_initial t) (tx_prepared t) (tx_accepted t) (tx_updates t) (tx_skipped t) (tx_finalize t) r (tx_state t).
Definition set_state s t := Transaction (tx_plan t) (tx_initial t) (tx_prepared t) (tx_accepted t) (tx_updates t) (tx_skipped t) (tx_finalize t) (tx_recoveries t) s.

(** *** Methods of the object *)

Definition get : M (transaction * W) transaction := fun s => (Returned s.1, s).
Definition modify (f : transaction → transaction) : M (transaction * W) unit := fun s => (Returned tt, (f s.1, s.2)).
Definition call {A} (op : W → outcome A * W) : M (transaction * W) A := fun s => let '(r, w) := op s.2 in (r, (s.1, w)).

Local Open Scope method_scope.

(** *** Preparation *)

Definition token (e : AcceptedSideEffect) : string := id_effect I e.
Definition tokens (t : transaction) : list string := map token (ep_effects (tx_plan t)).

(** [_attempt_limit] *)
Definition attempt_limit (e : AcceptedSideEffect) : nat := match ef_action e with Retry n => n | _ => 1 end.

(** [_validate_prepared] *)
Definition validate_prepared (e : AcceptedSideEffect) (p : option H) : M (transaction * W) H :=
  match p with
  | None => raise (Exn TypeError)
  | Some h =>
      if String.eqb (pub_effect h) (token e) && String.eqb (pub_payload h) (id_payload I (ef_payload e))
      then ret h else raise (Exn ValueError)
  end.

(** The loop of [_prepare_one] with [fuel] attempts left. *)
Fixpoint prepare_loop (fuel : nat) (e : AcceptedSideEffect) (attempts : nat) (last : option exn)
    : M (transaction * W) (option H * nat * option exn) :=
  match fuel with
  | O => ret (None, attempts, last)
  | S fuel =>
      r <- attempt (p <- call (pub_prepare shown e); validate_prepared e p);
      match r with
      | inl h => ret (Some h, S attempts, None)
      | inr error => prepare_loop fuel e (S attempts) (Some (error_kind error))
      end
  end.

(** [_prepare_one] *)
Definition prepare_one (e : AcceptedSideEffect) (start_attempt : nat) : M (transaction * W) (option H * nat * option exn) :=
  prepare_loop (attempt_limit e - start_attempt) e start_attempt None.

(** *** Cleanup *)

(** [if not any(value is recovery ...)] *)
Definition retain (known : list R) (r : R) : list R := if bool_decide (r ∈ known) then known else known ++ [r].

(** [_retain_recoveries] *)
Definition retain_recoveries (h : H) : M (transaction * W) (list cleanup_failure) :=
  r <- attempt (recoveries <- call (fun w => (pub_recoveries h w, w));
                match recoveries with
                | None => raise (Exn TypeError)
                | Some l => modify (fun t => set_recoveries (fold_left retain l (tx_recoveries t)) t)
                end);
  match r with inl _ => ret [] | inr e => ret [RecoveryFailed (error_kind e)] end.

(** [_discard]; [None] is no failure. *)
Definition discard (h : H) : M (transaction * W) (list cleanup_failure) :=
  r <- attempt (call (pub_discard h));
  recovery <- retain_recoveries h;
  ret (match r with inl _ => [] | inr e => [DiscardFailed (error_kind e)] end ++ recovery).

(** [_rollback] *)
Definition rollback (h : H) : M (transaction * W) (list cleanup_failure) :=
  r <- attempt (call (pub_rollback h));
  recovery <- retain_recoveries h;
  ret (match r with inl _ => [] | inr e => [RollbackFailed (error_kind e)] end ++ recovery).

(** The loop shared by [_discard_staged] and [_rollback_accepted]. *)
Fixpoint cleanup_rows {X} (clean : H → M (transaction * W) (list cleanup_failure)) (rows : list (AcceptedSideEffect * H * X))
    : M (transaction * W) (list string * list diagnostic) :=
  match rows with
  | [] => ret ([], [])
  | (e, h, _) :: rows =>
      failure <- clean h;
      rest <- cleanup_rows clean rows;
      ret (match failure with [] => (token e :: rest.1, rest.2)
           | _ => (rest.1, CleanupOf (Some (ef_consumer e)) failure :: rest.2) end)
  end.

(** [_discard_staged] *)
Definition discard_staged : M (transaction * W) (list string * list diagnostic) :=
  t <- get; r <- cleanup_rows discard (reverse (tx_prepared t)); _ <- modify (set_prepared []); ret r.

(** [_rollback_accepted] *)
Definition rollback_rows : M (transaction * W) (list string * list diagnostic) :=
  t <- get; r <- cleanup_rows rollback (reverse (tx_accepted t));
  _ <- modify (fun t => set_updates [] (set_accepted [] t)); ret r.

(** [_failed]: the exception to raise. *)
Definition failed (e : AcceptedSideEffect) (error : option exn) (cursors : cursor_set) (diagnostics : list diagnostic)
    (rolled_back : list string) : M (transaction * W) ConsumerTransaction.error :=
  r <- discard_staged;
  t <- get;
  _ <- modify (set_state IsFailed);
  ret (PublicationError (Some (ef_consumer e))
         (Report Failed cursors (tokens t) [] (tx_skipped t) (rolled_back ++ r.1) (diagnostics ++ r.2 ++ [ErrorOf error]))).

(** [_prepare_all] *)
Fixpoint prepare_all (effects : list AcceptedSideEffect) : M (transaction * W) unit :=
  match effects with
  | [] => ret tt
  | e :: effects =>
      r <- prepare_one e 0;
      let '(prepared, attempts, error) := r in
      match prepared with
      | Some h => _ <- modify (fun t => set_prepared (tx_prepared t ++ [(e, h, attempts)]) t); prepare_all effects
      | None =>
          if bool_decide (ef_action e = SkipSampleReported)
          then _ <- modify (fun t => set_skipped (tx_skipped t ++ [Skipped (token e) (ef_consumer e) PreparePhase attempts error]) t);
               prepare_all effects
          else t <- get; err <- failed e error (tx_initial t) [] []; raise err
      end
  end.

(** [ConsumerTransaction.__init__] *)
Definition fresh_transaction (p : EffectPlan) (cursors : cursor_set) : transaction :=
  Transaction p cursors [] [] [] [] [] [] Preparing.
Definition stale (cursors : cursor_set) (e : AcceptedSideEffect) : bool :=
  match for_consumer cursors (ef_consumer e) with Ok c => negb (bool_decide (c = ef_before e)) | Err _ => true end.
Definition new_transaction (p : EffectPlan) (cursors : cursor_set) (w : W) : outcome transaction * W :=
  if existsb (stale cursors) (ep_effects p) then (Raised (Exn ValueError), w)
  else match bind (prepare_all (ep_effects p)) (fun _ => modify (set_state Staged)) (fresh_transaction p cursors, w) with
       | (Returned _, (t, w)) => (Returned t, w)
       | (Raised e, (_, w)) => (Raised e, w)
       | (Interrupted, (_, w)) => (Interrupted, w)
       end.

(** *** Publication *)

(** The body of the [try] of [accept]. *)
Definition publish_checked (e : AcceptedSideEffect) (h : H) : M (transaction * W) PublicationReceipt :=
  receipt <- call (pub_publish h);
  match receipt with
  | None => raise (Exn TypeError)
  | Some r =>
      if negb (String.eqb (rc_effect r) (token e) && String.eqb (rc_payload r) (id_payload I (ef_payload e)))
      then raise (Exn ValueError)
      else if negb (bool_decide (rc_mode r = tg_mode (ef_target e))) then raise (Exn ValueError)
      else ret r
  end.

Definition is_retry (e : AcceptedSideEffect) : bool := match ef_action e with Retry _ => true | _ => false end.

(** The [except] of [accept] up to the decision of its action: the publication is
    rolled back, and prepared again when its action has attempts left. *)
Definition compensate (e : AcceptedSideEffect) (h : H) (attempts : nat) (error : error)
    : M (transaction * W) (list cleanup_failure * (option H * nat * option exn)) :=
  cleanup <- rollback h;
  again <- (if bool_decide (cleanup = []) && is_retry e && (attempts <? attempt_limit e)%nat
            then prepare_one e attempts else ret (None, attempts, Some (error_kind error)));
  ret (cleanup, again).

(** The failure path of [accept]: the pending and the accepted publications are
    undone. *)
Definition abandon {A} (e : AcceptedSideEffect) (error : option exn) (pending : list (AcceptedSideEffect * H * nat))
    (cleanup : list cleanup_failure) (rolled_back : list string) : M (transaction * W) A :=
  _ <- modify (fun t => set_prepared (tx_prepared t ++ pending) t);
  accepted <- rollback_rows;
  t <- get;
  err <- failed e error (tx_initial t) (match cleanup with [] => [] | _ => [CleanupOf None cleanup] end ++ accepted.2)
           (rolled_back ++ accepted.1);
  raise err.

(** The [while pending] loop of [accept]. *)
Fixpoint accept_loop (fuel : nat) (pending : list (AcceptedSideEffect * H * nat)) (cursors : cursor_set)
    (published : list PublicationReceipt) : M (transaction * W) (cursor_set * list PublicationReceipt) :=
  match fuel, pending with
  | _, [] => ret (cursors, published)
  | O, _ => raise (Exn RuntimeError)
  | S fuel, (e, h, attempts) :: pending =>
      r <- attempt (publish_checked e h);
      match r with
      | inl receipt =>
          _ <- modify (fun t => set_accepted (tx_accepted t ++ [(e, h, receipt)]) t);
          cursors <- lift (replace_cursor cursors (ef_after e));
          accept_loop fuel pending cursors (published ++ [receipt])
      | inr error =>
          again <- compensate e h attempts error;
          let '(cleanup, (replacement, attempts, error)) := again in
          let rolled_back := match cleanup with [] => [token e] | _ => [] end in
          match replacement with
          | Some h => accept_loop fuel ((e, h, attempts) :: pending) cursors published
          | None =>
              if bool_decide (ef_action e = SkipSampleReported)
              then
                _ <- modify (fun t => set_skipped (tx_skipped t ++ [Skipped (token e) (ef_consumer e) PublishPhase attempts error]) t);
                match cleanup with
                | [] => accept_loop fuel pending cursors published
                | _ => abandon e error pending cleanup []
                end
              else abandon e error pending cleanup rolled_back
          end
      end
  end.

(** The publications and re-preparations that [accept] can make. *)
Definition accept_fuel (pending : list (AcceptedSideEffect * H * nat)) : nat :=
  list_sum (map (fun '(e, _, attempts) => S (attempt_limit e - attempts)) pending).

Definition already_resolved {A} : M (transaction * W) A := raise (Exn RuntimeError).

(** [accept] *)
Definition accept : M (transaction * W) report :=
  t <- get;
  if negb (bool_decide (tx_state t = Staged)) then already_resolved
  else
    _ <- modify (set_prepared []);
    r <- accept_loop (accept_fuel (tx_prepared t)) (tx_prepared t) (tx_initial t) [];
    _ <- modify (set_state IsAccepted);
    _ <- modify (fun t => set_updates (map (fun '(e, _, _) => ef_after e) (tx_accepted t)) t);
    t <- get;
    ret (Report Accepted r.1 (tokens t) r.2 (tx_skipped t) [] []).

(** The end of [reject] and [rollback_accepted]. *)
Definition resolve_undone (r : list string * list diagnostic) : M (transaction * W) report :=
  _ <- modify (set_state (match r.2 with [] => IsRejected | _ => IsFailed end));
  t <- get;
  let rep := Report (match r.2 with [] => Rejected | _ => Failed end) (tx_initial t) (tokens t) [] (tx_skipped t) r.1 r.2 in
  match r.2 with [] => ret rep | _ => raise (PublicationError None rep) end.

(** [reject] *)
Definition reject : M (transaction * W) report :=
  t <- get;
  if negb (bool_decide (tx_state t = Staged)) then already_resolved
  else r <- discard_staged; resolve_undone r.

(** [rollback_accepted] *)
Definition rollback_accepted : M (transaction * W) report :=
  t <- get;
  if negb (bool_decide (tx_state t = IsAccepted)) then already_resolved
  else r <- rollback_rows; resolve_undone r.

(** [cursor_updates] *)
Definition cursor_updates (t : transaction) : res (list ScheduleCursor) :=
  _ ← require (bool_decide (tx_state t = IsAccepted ∨ tx_state t = Sealed)) RuntimeError; Ok (tx_updates t).

(** One release of [seal]: a failed one stays pending. *)
Definition release_one (h : H) : M (transaction * W) (list (option exn)) :=
  r <- attempt_all (x <- call (pub_finalize h); match x with Some tt => ret tt | None => raise (Exn TypeError) end);
  recovery <- retain_recoveries h;
  ret (match r with inl _ => [] | inr e => [error_kind <$> e] end
       ++ map (fun f => match f with DiscardFailed e | RollbackFailed e | RecoveryFailed e => Some e end) recovery).

Fixpoint seal_loop (rows : list (AcceptedSideEffect * H * PublicationReceipt))
    : M (transaction * W) (list (AcceptedSideEffect * H * PublicationReceipt) * list diagnostic) :=
  match rows with
  | [] => ret ([], [])
  | (e, h, r) :: rows =>
      failures <- release_one h;
      rest <- seal_loop rows;
      ret (match failures with [] => rest | _ => ((e, h, r) :: rest.1, map (FinalizeOf (ef_consumer e)) failures ++ rest.2) end)
  end.

(** [seal] *)
Definition seal : M (transaction * W) (list diagnostic) :=
  t <- get;
  _ <- (if bool_decide (tx_state t = IsAccepted)
        then modify (fun t => set_state Sealed (set_accepted [] (set_finalize (tx_accepted t) t)))
        else if bool_decide (tx_state t = Sealed) then ret tt else already_resolved);
  t <- get;
  r <- seal_loop (tx_finalize t);
  _ <- modify (set_finalize r.1);
  ret r.2.

(** [abort] *)
Definition abort : M (transaction * W) (option report) :=
  t <- get;
  match tx_state t with
  | Staged => r <- reject; ret (Some r)
  | IsAccepted => r <- rollback_accepted; ret (Some r)
  | _ => ret None
  end.
End Transaction.
