(* ===== verification/ConsumerAtomic.v ===== *)
(** * Accepted publications are all or nothing

    What a writer promises about the artifacts of its publications, and what the
    consumer transaction makes of it: an accepted transaction leaves exactly the
    published artifacts, a failed or rejected one none, and every artifact it
    could not remove is reported. *)
From S2P Require Import Prelude SortedKeys Manifest EveryDt Consumers ConsumerPlanning ConsumerTransaction.

(** ** The contract of a writer *)

(** The artifact of a publication: none, a private temporary, or published. *)
Inductive artifact := Absent | Temporary | Visible.
#[global] Instance artifact_dec : EqDecision artifact. Proof. solve_decision. Defined.

(** The documented promises of [ConsumerPublisher] and [PreparedPublication]:
    preparing makes one fresh temporary that authenticates its effect, and
    leaves nothing when it fails; an operation touches its own artifact only;
    [discard] removes a temporary and [rollback] also a published artifact when
    they return; releasing changes no artifact. *)
Class PublisherLaws {W H R : Type} `{!EqDecision H} `{!Publisher W H R} (I : identities) (art : W → H → artifact) := {
  prepare_fresh c e w h w' : pub_prepare c e w = (Returned (Some h), w') →
    art w h = Absent ∧ art w' h = Temporary ∧ (∀ k, k ≠ h → art w' k = art w k)
    ∧ pub_effect h = id_effect I e ∧ pub_payload h = id_payload I (ef_payload e);
  prepare_nothing c e w r w' : pub_prepare c e w = (r, w') → (∀ h, r ≠ Returned (Some h)) → r ≠ Interrupted →
    ∀ k, art w' k = art w k;
  publish_own h w r w' k : pub_publish h w = (r, w') → k ≠ h → art w' k = art w k;
  publish_visible h w r w' : pub_publish h w = (Returned (Some r), w') → art w' h = Visible;
  discard_own h w r w' k : pub_discard h w = (r, w') → k ≠ h → art w' k = art w k;
  discard_absent h w w' : pub_discard h w = (Returned tt, w') → art w h = Temporary → art w' h = Absent;
  rollback_own h w r w' k : pub_rollback h w = (r, w') → k ≠ h → art w' k = art w k;
  rollback_absent h w w' : pub_rollback h w = (Returned tt, w') → art w' h = Absent;
  finalize_own h w r w' k : pub_finalize h w = (r, w') → art w' k = art w k }.

Section Atomic.
Context {W H R : Type} `{!EqDecision H} `{!EqDecision R} `{!Publisher W H R} (I : identities) (art : W → H → artifact).
Context `{!PublisherLaws I art}.

Notation transaction := (@transaction H R).
Notation M := (M (transaction * W)).

(** ** Triples

    What a method guarantees when it returns and when it raises; nothing is said
    of an interrupted one. *)
Definition triple {A} (P : transaction → W → Prop) (m : M A) (Q : A → transaction → W → Prop)
    (E : error → transaction → W → Prop) : Prop :=
  ∀ t w, P t w → match m (t, w) with
                 | (Returned a, (t', w')) => Q a t' w'
                 | (Raised e, (t', w')) => E e t' w'
                 | (Interrupted, _) => True
                 end.

Definition never : error → transaction → W → Prop := fun _ _ _ => False.

Lemma triple_bind {A B} P (m : M A) (f : A → M B) Q Q' E :
  triple P m Q' E → (∀ a, triple (Q' a) (f a) Q E) → triple P (bind m f) Q E.
Proof.
  intros Hm Hf t w HP. unfold bind. specialize (Hm t w HP). destruct (m (t, w)) as [[a|e|] [t' w']]; try done. by apply Hf.
Qed.

Lemma triple_ret {A} (P : transaction → W → Prop) (a : A) E : triple P (ret a) (fun b t w => b = a ∧ P t w) E.
Proof. by intros t w HP. Qed.

Lemma triple_raise {A} (P : transaction → W → Prop) e Q (E : error → transaction → W → Prop) :
  (∀ t w, P t w → E e t w) → triple P (raise (A := A) e) Q E.
Proof. intros H' t w HP. by apply H'. Qed.

Lemma triple_get (P : transaction → W → Prop) E : triple P get (fun a t w => a = t ∧ P t w) E.
Proof. by intros t w HP. Qed.

Lemma triple_modify (P : transaction → W → Prop) f (Q : unit → transaction → W → Prop) E :
  (∀ t w, P t w → Q tt (f t) w) → triple P (modify f) Q E.
Proof. intros H' t w HP. by apply H'. Qed.

Lemma triple_conseq {A} P P' (m : M A) (Q Q' : A → transaction → W → Prop) (E E' : error → transaction → W → Prop) :
  triple P' m Q' E' → (∀ t w, P t w → P' t w) → (∀ a t w, Q' a t w → Q a t w) → (∀ e t w, E' e t w → E e t w) →
  triple P m Q E.
Proof. intros Hm HP HQ HE t w Ht. specialize (Hm t w (HP t w Ht)). destruct (m (t, w)) as [[a|e|] [t' w']]; auto. Qed.

Lemma triple_attempt {A} P (m : M A) (Q : A → transaction → W → Prop) (E : error → transaction → W → Prop)
    (Q' : A + error → transaction → W → Prop) E' :
  triple P m Q E → (∀ a t w, Q a t w → Q' (inl a) t w) → (∀ e t w, E e t w → Q' (inr e) t w) → triple P (attempt m) Q' E'.
Proof. intros Hm HQ HE t w Ht. specialize (Hm t w Ht). unfold attempt. destruct (m (t, w)) as [[a|e|] [t' w']]; auto. Qed.

Lemma triple_call {A} P (op : W → outcome A * W) (Q : A → transaction → W → Prop) (E : error → transaction → W → Prop) :
  (∀ t w r w', P t w → op w = (r, w') →
     match r with Returned a => Q a t w' | Raised e => E e t w' | Interrupted => True end) →
  triple P (call op) Q E.
Proof. intros H' t w Ht. unfold call; cbn. destruct (op w) as [r w'] eqn:Eop. specialize (H' t w r w' Ht Eop). by destruct r. Qed.

(** ** Ownership *)

Context (a0 : H → artifact) (shown : cursor_set).

(** The publications the transaction owns as temporaries and as published
    artifacts, and those it could not remove; every other artifact is as it was
    at the beginning. *)
Record owns (w : W) (T V L : list H) : Prop := {
  ow_nodup : NoDup (T ++ V);
  ow_temporary : ∀ h, h ∈ T → art w h = Temporary;
  ow_visible : ∀ h, h ∈ V → art w h = Visible;
  ow_before : ∀ h, h ∈ T ++ V ++ L → a0 h = Absent;
  ow_rest : ∀ h, h ∉ T ++ V ++ L → art w h = a0 h }.

Lemma owns_perm w T T' V V' L : owns w T V L → T ≡ₚ T' → V ≡ₚ V' → owns w T' V' L.
Proof.
  intros [H1 H2 H3 H4 H5] HT HV. split.
  - by rewrite <- HT, <- HV.
  - intros h. rewrite <- HT. auto.
  - intros h. rewrite <- HV. auto.
  - intros h. rewrite <- HT, <- HV. auto.
  - intros h. rewrite <- HT, <- HV. auto.
Qed.

(** A publication in the hands of its writer: its artifact is not known. *)
Record inflight (w : W) (h : H) (T V L : list H) : Prop := {
  if_nodup : NoDup (h :: T ++ V);
  if_temporary : ∀ k, k ∈ T → art w k = Temporary;
  if_visible : ∀ k, k ∈ V → art w k = Visible;
  if_before : ∀ k, k ∈ h :: T ++ V ++ L → a0 k = Absent;
  if_rest : ∀ k, k ∉ h :: T ++ V ++ L → art w k = a0 k }.

Lemma inflight_temporary w h T V L : owns w (h :: T) V L → inflight w h T V L.
Proof. intros [H1 H2 H3 H4 H5]. split; try done. intros k Hk. apply H2. by right. Qed.

Lemma inflight_visible w h T V L : owns w T (h :: V) L → inflight w h T V L.
Proof.
  intros [H1 H2 H3 H4 H5]. split; [by rewrite Permutation_middle|done|intros k Hk; apply H3; by right| |].
  - intros k Hk. apply H4. set_solver.
  - intros k Hk. apply H5. set_solver.
Qed.

(** An operation on it changes no other artifact. *)
Lemma inflight_change w w' h T V L : inflight w h T V L → (∀ k, k ≠ h → art w' k = art w k) → inflight w' h T V L.
Proof.
  intros [H1 H2 H3 H4 H5] Hk. pose proof H1 as [Hh _]%NoDup_cons. split; try done.
  - intros k Hin. rewrite Hk by (intros ->; set_solver). auto.
  - intros k Hin. rewrite Hk by (intros ->; set_solver). auto.
  - intros k Hin. rewrite Hk by set_solver. auto.
Qed.

(** It is gone, or lost. *)
Lemma inflight_drop w h T V L (lost : bool) :
  inflight w h T V L → (lost = false → art w h = Absent) → owns w T V ((if lost then [h] else []) ++ L).
Proof.
  intros [H1 H2 H3 H4 H5] Ha. pose proof H1 as [Hh H1']%NoDup_cons. split; try done.
  - intros k Hin. apply H4. destruct lost; set_solver.
  - intros k Hin. destruct (decide (k = h)) as [->|Hne].
    + destruct lost; [set_solver|]. rewrite Ha by done. symmetry. apply H4. left.
    + apply H5. destruct lost; set_solver.
Qed.

(** It is published. *)
Lemma inflight_publish w h T V L : inflight w h T V L → art w h = Visible → owns w T (V ++ [h]) L.
Proof.
  intros [H1 H2 H3 H4 H5] Ha. split; try done.
  - assert (Hp : h :: T ++ V ≡ₚ T ++ V ++ [h]) by (rewrite (Permutation_app_comm V [h]); apply Permutation_middle).
    by rewrite <- Hp.
  - intros k [Hin| ->%list_elem_of_singleton]%elem_of_app; auto.
  - intros k Hin. apply H4. set_solver.
  - intros k Hin. apply H5. set_solver.
Qed.

(** A fresh temporary. *)
Lemma owns_prepare w w' h T V L :
  owns w T V L → art w h = Absent → art w' h = Temporary → (∀ k, k ≠ h → art w' k = art w k) → owns w' (h :: T) V L.
Proof.
  intros [H1 H2 H3 H4 H5] Ha Ht Hk.
  assert (HhT : h ∉ T) by (intros Hin; specialize (H2 h Hin); congruence).
  assert (HhV : h ∉ V) by (intros Hin; specialize (H3 h Hin); congruence).
  split.
  - cbn. apply NoDup_cons. split; [set_solver | done].
  - intros k [->|Hin]%elem_of_cons; [done|]. rewrite Hk by congruence. auto.
  - intros k Hin. rewrite Hk by congruence. auto.
  - intros k [->|Hin]%elem_of_cons; [|auto]. destruct (decide (h ∈ L)); [apply H4; set_solver|]. rewrite <- H5 by set_solver. done.
  - intros k Hin. rewrite Hk by set_solver. apply H5. set_solver.
Qed.

(** ** Operations *)

(** The transaction is [t0] but for the recoveries it retains. *)
Definition framed (t0 t : transaction) : Prop := t = set_recoveries (tx_recoveries t) t0.

Lemma framed_refl t : framed t t.
Proof. by destruct t. Qed.

Definition held (t0 : transaction) (T V L : list H) (t : transaction) (w : W) : Prop := framed t0 t ∧ owns w T V L.

(** What a cleanup that failed leaves behind. *)
Definition lost (failure : list cleanup_failure) (h : H) : list H := match failure with [] => [] | _ => [h] end.

Lemma lost_if f h : lost f h = if bool_decide (f = []) then [] else [h].
Proof. by destruct f. Qed.

Lemma retain_triple t0 h (P : W → Prop) :
  triple (fun t w => framed t0 t ∧ P w) (retain_recoveries h) (fun _ t w => framed t0 t ∧ P w) never.
Proof.
  intros t w [Hf HP]. unfold retain_recoveries, bind, attempt, call; cbn.
  destruct (pub_recoveries h w) as [[l|]|e|]; cbn; try done. split; [|done]. rewrite Hf. by destruct t0.
Qed.

(** A cleanup operation and what it does to the artifacts. *)
Lemma cleanup_triple t0 h (op : W → outcome unit * W) (f : error → cleanup_failure) (P : W → Prop) (Q : list cleanup_failure → W → Prop) :
  (∀ w r w', P w → op w = (r, w') → match r with Returned _ => Q [] w' ∧ (∀ l, Q l w') | Raised e => ∀ l, Q (f e :: l) w' | Interrupted => True end) →
  triple (fun t w => framed t0 t ∧ P w)
    (bind (attempt (call op)) (fun r => bind (retain_recoveries h) (fun rec =>
       ret (match r with inl _ => [] | inr e => [f e] end ++ rec))))
    (fun l t w => framed t0 t ∧ Q l w) never.
Proof.
  intros Hop t w [Hf HP]. unfold bind at 1, attempt, call; cbn. destruct (op w) as [[u|e|] w'] eqn:Eop; cbn; [| |done].
  - destruct (Hop _ _ _ HP Eop) as [HQ HQ']. pose proof (retain_triple t0 h (eq w') t w' (conj Hf eq_refl)) as Hr.
    unfold bind. destruct (retain_recoveries h (t, w')) as [[l|e'|] [t' w'']]; try done. destruct Hr as [? <-]. cbn. auto.
  - specialize (Hop _ _ _ HP Eop). cbn in Hop. pose proof (retain_triple t0 h (eq w') t w' (conj Hf eq_refl)) as Hr.
    unfold bind. destruct (retain_recoveries h (t, w')) as [[l|e'|] [t' w'']]; try done. destruct Hr as [? <-]. cbn. auto.
Qed.

Definition held_inflight (t0 : transaction) (h : H) (T V L : list H) (t : transaction) (w : W) : Prop :=
  framed t0 t ∧ inflight w h T V L.

Lemma cleaned w w' h T V L (f : error → cleanup_failure) (r : outcome unit) :
  inflight w h T V L → (∀ k, k ≠ h → art w' k = art w k) → (r = Returned tt → art w' h = Absent) →
  match r with
  | Returned _ => owns w' T V (lost [] h ++ L) ∧ (∀ l, owns w' T V (lost l h ++ L))
  | Raised e => ∀ l, owns w' T V (lost (f e :: l) h ++ L)
  | Interrupted => True
  end.
Proof.
  intros Hi Hk Ha. pose proof (inflight_change w w' h T V L Hi Hk) as Hi'.
  assert (Hlost : owns w' T V ([h] ++ L)) by exact (inflight_drop w' h T V L true Hi' ltac:(done)).
  destruct r as [[]|e|]; try done.
  assert (Hgone : owns w' T V ([] ++ L)) by exact (inflight_drop w' h T V L false Hi' (fun _ => Ha eq_refl)).
  split; [done|]. by intros [|? l].
Qed.

Lemma discard_triple t0 h T V L :
  triple (held t0 (h :: T) V L) (discard h) (fun f => held t0 T V (lost f h ++ L)) never.
Proof.
  apply (cleanup_triple t0 h (pub_discard h) (fun e => DiscardFailed (error_kind e)) (fun w => owns w (h :: T) V L)
           (fun f w => owns w T V (lost f h ++ L))).
  intros w r w' Ho E. apply (cleaned w w'); [by apply inflight_temporary|intros k; by eapply discard_own|].
  intros ->. eapply discard_absent; [exact E | apply (ow_temporary _ _ _ _ Ho); left].
Qed.

Lemma rollback_triple t0 h T V L :
  triple (held_inflight t0 h T V L) (rollback h) (fun f => held t0 T V (lost f h ++ L)) never.
Proof.
  apply (cleanup_triple t0 h (pub_rollback h) (fun e => RollbackFailed (error_kind e)) (fun w => inflight w h T V L)
           (fun f w => owns w T V (lost f h ++ L))).
  intros w r w' Hi E. apply (cleaned w w'); [done|intros k; by eapply rollback_own|].
  intros ->. by eapply rollback_absent.
Qed.

(** The cleanup loops: every diagnostic names one publication that may be left. *)
Definition handles {X} (rows : list (AcceptedSideEffect * H * X)) : list H := map (fun row => row.1.2) rows.
Definition cleanup_count (l : list diagnostic) : nat :=
  length (List.filter (fun d => match d with CleanupOf _ _ => true | _ => false end) l).

(** [clean] takes its publications from the list [focus] picks. *)
Lemma cleanup_rows_triple {X} t0 (clean : H → M (list cleanup_failure))
    (T : list H → list H) (V : list H → list H) :
  (∀ h l L, triple (held t0 (T (h :: l)) (V (h :: l)) L) (clean h) (fun f => held t0 (T l) (V l) (lost f h ++ L)) never) →
  ∀ (rows : list (AcceptedSideEffect * H * X)) L,
  triple (held t0 (T (handles rows)) (V (handles rows)) L) (cleanup_rows I clean rows)
    (fun r t w => ∃ L', held t0 (T []) (V []) (L' ++ L) t w ∧ length L' = cleanup_count r.2
       ∧ cleanup_count r.2 = length r.2 ∧ (r.2 = [] → r.1 = map (fun row => token I row.1.1) rows)) never.
Proof.
  intros Hclean rows. induction rows as [|[[e h] x] rows IH]; intros L; cbn [cleanup_rows handles map fst snd].
  { intros t w Hh. by exists []. }
  eapply triple_bind; [apply Hclean|]. intros f. eapply triple_bind; [apply IH|]. intros [rolled diags] t w.
  intros (L' & Hh & Hlen & Hc & Hr). cbn in *. destruct f as [|x0 f]; cbn.
  - exists L'. split_and!; try done. intros E. by rewrite Hr.
  - exists (L' ++ [h]). rewrite <- app_assoc. split_and!; [done| |lia|done]. rewrite length_app. cbn. lia.
Qed.

Lemma handles_reverse {X} (rows : list (AcceptedSideEffect * H * X)) : handles (reverse rows) ≡ₚ handles rows.
Proof. unfold handles. change (map (fun row => row.1.2) (reverse rows)) with ((fun row => row.1.2) <$> reverse rows). by rewrite reverse_Permutation. Qed.

Lemma held_perm t0 T T' V V' L t w : held t0 T V L t w → T ≡ₚ T' → V ≡ₚ V' → held t0 T' V' L t w.
Proof. intros [Hf Ho] HT HV. split; [done|]. by eapply owns_perm. Qed.

(** [_discard_staged] and [_rollback_accepted]. *)
Definition cleared (t0 : transaction) (T V L : list H) (r : list string * list diagnostic) (t : transaction) (w : W) : Prop :=
  ∃ L', held t0 T V (L' ++ L) t w ∧ length L' = cleanup_count r.2 ∧ cleanup_count r.2 = length r.2.

Lemma discard_staged_triple t0 V L :
  triple (held t0 (handles (tx_prepared t0)) V L) (discard_staged I) (cleared (set_prepared [] t0) [] V L) never.
Proof.
  intros t w Hh. assert (Hp : tx_prepared t = tx_prepared t0) by (destruct Hh as [-> _]; by destruct t0).
  revert t w Hh Hp. intros t w Hh Hp. unfold discard_staged, bind at 1, get. cbn [fst].
  pose proof (cleanup_rows_triple t0 discard (fun l => l) (fun _ => V) ltac:(intros; apply discard_triple)
                (reverse (tx_prepared t0)) L t w) as Hc.
  rewrite Hp. unfold bind. destruct (cleanup_rows I discard (reverse (tx_prepared t0)) (t, w)) as [[r|e|] [t' w']].
  - destruct Hc as (L' & [Hf Ho] & Hl & Hc & _); [eapply held_perm; [exact Hh|by rewrite handles_reverse|done]|].
    exists L'. split_and!; [|done..]. split; [|done]. rewrite Hf. by destruct t0.
  - apply Hc. eapply held_perm; [exact Hh|by rewrite handles_reverse|done].
  - done.
Qed.

Lemma rollback_rows_triple t0 T L :
  triple (held t0 T (handles (tx_accepted t0)) L) (rollback_rows I) (cleared (set_updates [] (set_accepted [] t0)) T [] L) never.
Proof.
  intros t w Hh. assert (Hp : tx_accepted t = tx_accepted t0) by (destruct Hh as [-> _]; by destruct t0).
  unfold rollback_rows, bind at 1, get. cbn [fst].
  assert (Hclean : ∀ h l L, triple (held t0 T (h :: l) L) (rollback h) (fun f => held t0 T l (lost f h ++ L)) never).
  { intros h l L'. eapply triple_conseq; [apply (rollback_triple t0 h T l L')| |done..]. intros t1 w1 [Hf Ho].
    split; [done|]. by apply inflight_visible. }
  pose proof (cleanup_rows_triple t0 rollback (fun _ => T) (fun l => l) Hclean (reverse (tx_accepted t0)) L t w) as Hc.
  rewrite Hp. unfold bind. destruct (cleanup_rows I rollback (reverse (tx_accepted t0)) (t, w)) as [[r|e|] [t' w']].
  - destruct Hc as (L' & [Hf Ho] & Hl & Hc & _); [eapply held_perm; [exact Hh|done|by rewrite handles_reverse]|].
    exists L'. split_and!; [|done..]. split; [|done]. rewrite Hf. by destruct t0.
  - apply Hc. eapply held_perm; [exact Hh|done|by rewrite handles_reverse].
  - done.
Qed.

(** The report of a failed transaction. *)
Definition undone (initial : cursor_set) (e : error) (t : transaction) (w : W) : Prop :=
  ∃ c r L, e = PublicationError c r ∧ rt_status r = Failed ∧ rt_cursors r = initial ∧ rt_published r = []
    ∧ tx_state t = IsFailed ∧ tx_prepared t = [] ∧ tx_accepted t = []
    ∧ owns w [] [] L ∧ length L = cleanup_count (rt_diagnostics r).

Lemma cleanup_count_app l1 l2 : cleanup_count (l1 ++ l2) = (cleanup_count l1 + cleanup_count l2)%nat.
Proof. unfold cleanup_count. by rewrite List.filter_app, length_app. Qed.

Lemma failed_triple t0 e error cursors diagnostics rolled_back V L :
  triple (held t0 (handles (tx_prepared t0)) V L) (failed I e error cursors diagnostics rolled_back)
    (fun er t w => ∃ r L', er = PublicationError (Some (ef_consumer e)) r
       ∧ held (set_state IsFailed (set_prepared [] t0)) [] V (L' ++ L) t w
       ∧ rt_status r = Failed ∧ rt_cursors r = cursors ∧ rt_published r = []
       ∧ cleanup_count (rt_diagnostics r) = (cleanup_count diagnostics + length L')%nat) never.
Proof.
  eapply triple_bind; [apply discard_staged_triple|]. intros [rolled diags] t w (L' & [Hf Ho] & Hl & Hc).
  cbn. eexists _, L'. split_and!; [reflexivity| |done|done|done|].
  - split; [|done]. rewrite Hf. by destruct t0.
  - cbn [rt_diagnostics fst snd] in *. rewrite !cleanup_count_app. change (cleanup_count [ErrorOf error]) with 0%nat. lia.
Qed.

Lemma abandon_triple {A} t0 e error pending cleanup rolled_back h Q :
  tx_prepared t0 = [] →
  triple (held t0 (handles pending) (handles (tx_accepted t0)) (lost cleanup h))
    (abandon (A := A) I e error pending cleanup rolled_back) Q (undone (tx_initial t0)).
Proof.
  intros Hprep. unfold abandon.
  eapply triple_bind; [apply (triple_modify _ _ (fun _ => held (set_prepared pending t0) (handles pending)
                                (handles (tx_accepted t0)) (lost cleanup h)))|].
  { intros t w [Hf Ho]. split; [|done]. unfold framed. rewrite Hf. cbn. by rewrite Hprep. }
  intros u. eapply triple_bind.
  { eapply triple_conseq; [apply (rollback_rows_triple (set_prepared pending t0) (handles pending) (lost cleanup h))
      |by intros t w Hh|intros r t w Hc; exact Hc|by intros ? ? ? []]. }
  intros [rolled diags] t w (L1 & [Hf Ho] & Hl & Hc). cbn [bind get]. unfold bind, get. cbn [fst snd].
  assert (Hi : tx_initial t = tx_initial t0) by (rewrite Hf; by destruct t0). rewrite Hi.
  pose proof (failed_triple (set_updates [] (set_accepted [] (set_prepared pending t0))) e error (tx_initial t0)
    (match cleanup with [] => [] | _ => [CleanupOf None cleanup] end ++ diags) (rolled_back ++ rolled) [] (L1 ++ lost cleanup h) t w) as Hfail.
  cbn [fst snd] in *. destruct (failed I e error (tx_initial t0) _ _ (t, w)) as [[er|er|] [t' w']].
  - destruct Hfail as (r & L' & -> & [Hf' Ho'] & Hs & Hcur & Hpub & Hcount); [by split|]. unfold raise.
    exists (Some (ef_consumer e)), r, (L' ++ L1 ++ lost cleanup h). split_and!; try done; try (rewrite Hf'; by destruct t0).
    rewrite Hcount, !length_app, cleanup_count_app. cbn [fst snd] in *. rewrite Hl. destruct cleanup; cbn [lost cleanup_count List.filter length]; lia.
  - by destruct Hfail.
  - done.
Qed.

(** ** Preparing and publishing *)

(** The result of [_prepare_one]: a fresh temporary that took one of the attempts
    left, or nothing new. *)
Definition prepared_as (t0 : transaction) (e : AcceptedSideEffect) (start : nat) (T V L : list H)
    (r : option H * nat * option exn) (t : transaction) (w : W) : Prop :=
  let '(p, attempts, _) := r in
  match p with
  | Some h => held t0 (h :: T) V L t w ∧ (start < attempts <= attempt_limit e)%nat
  | None => held t0 T V L t w
  end.

Lemma prepare_call_triple t0 e T V L :
  triple (held t0 T V L) (bind (call (pub_prepare shown e)) (validate_prepared I e)) (fun h => held t0 (h :: T) V L)
    (fun _ => held t0 T V L).
Proof.
  intros t w [Hf Ho]. unfold bind, call. cbn. destruct (pub_prepare shown e w) as [[[h|]|er|] w'] eqn:Ep.
  - destruct (prepare_fresh _ _ _ _ _ Ep) as (Ha & Ht & Hk & He & Hp). unfold validate_prepared, token.
    rewrite He, Hp, !String.eqb_refl. cbn. split; [done|]. by eapply owns_prepare.
  - cbn. split; [done|]. destruct Ho as [H1 H2 H3 H4 H5].
    pose proof (prepare_nothing _ _ _ _ _ Ep ltac:(done) ltac:(done)) as Hk. split; try done; intros k Hin; rewrite Hk; auto.
  - cbn. split; [done|]. destruct Ho as [H1 H2 H3 H4 H5].
    pose proof (prepare_nothing _ _ _ _ _ Ep ltac:(done) ltac:(done)) as Hk. split; try done; intros k Hin; rewrite Hk; auto.
  - done.
Qed.

Lemma prepare_loop_triple t0 e start T V L fuel : ∀ attempts last,
  (start <= attempts)%nat → (attempts + fuel <= Nat.max start (attempt_limit e))%nat →
  triple (held t0 T V L) (prepare_loop I shown fuel e attempts last) (prepared_as t0 e start T V L) never.
Proof.
  induction fuel as [|fuel IH]; intros attempts last Hs Hl; cbn [prepare_loop]; [by intros t w Hh|].
  eapply triple_bind.
  { eapply (triple_attempt _ _ _ _ (fun r => match r with inl h => held t0 (h :: T) V L | inr _ => held t0 T V L end));
      [apply prepare_call_triple|done|done]. }
  intros [h|er]; [|apply IH; lia]. intros t w Hh. cbn. split; [done | lia].
Qed.

Lemma prepare_one_triple t0 e start T V L :
  triple (held t0 T V L) (prepare_one I shown e start) (prepared_as t0 e start T V L) never.
Proof. apply prepare_loop_triple; lia. Qed.

Lemma publish_triple t0 e h T V L :
  triple (held t0 (h :: T) V L) (publish_checked I e h) (fun _ => held t0 T (V ++ [h]) L) (fun _ => held_inflight t0 h T V L).
Proof.
  intros t w [Hf Ho]. unfold publish_checked, bind, call. cbn. destruct (pub_publish h w) as [r w'] eqn:Ep.
  assert (Hi : inflight w' h T V L).
  { eapply inflight_change; [by apply inflight_temporary|]. intros k. by eapply publish_own. }
  destruct r as [[r|]|er|]; cbn; try done.
  destruct (negb _); [done|]. destruct (negb _); [done|]. split; [done|]. apply inflight_publish; [done|].
  by eapply publish_visible.
Qed.

(** ** The loop of [accept] *)

Definition row_effects {X} (rows : list (AcceptedSideEffect * H * X)) : list AcceptedSideEffect := map (fun row => row.1.1) rows.

(** Every effect handled so far is published, or its sample is skipped as its
    action allows and reported. *)
Definition accounted (done : list AcceptedSideEffect) (t : transaction) : Prop :=
  row_effects (tx_accepted t) `sublist_of` done
  ∧ ∀ e, e ∈ done → e ∈ row_effects (tx_accepted t)
      ∨ (ef_action e = SkipSampleReported ∧ token I e ∈ map sk_effect (tx_skipped t)).

(** The invariant of the loop. *)
Record accepting (t0 : transaction) (done : list AcceptedSideEffect) (pending : list (AcceptedSideEffect * H * nat))
    (cursors : cursor_set) (published : list PublicationReceipt) (t : transaction) (w : W) : Prop := {
  ac_prepared : tx_prepared t = [];
  ac_initial : tx_initial t = tx_initial t0;
  ac_plan : tx_plan t = tx_plan t0;
  ac_owns : owns w (handles pending) (handles (tx_accepted t)) [];
  ac_published : published = map snd (tx_accepted t);
  ac_cursors : commit_cursors (tx_initial t0) (row_effects (tx_accepted t)) = Ok cursors;
  ac_cursors_ok : cursors_ok cursors;
  ac_accounted : accounted done t;
  ac_skipped : tx_skipped t0 `prefix_of` tx_skipped t }.

Lemma commit_snoc s es e c : commit_cursors s es = Ok c → commit_cursors s (es ++ [e]) = replace_cursor c (ef_after e).
Proof.
  unfold commit_cursors. revert s; induction es as [|x es IH]; intros s; cbn.
  { intros [= <-]. by destruct (replace_cursor s (ef_after e)). }
  intros Hc. destruct (replace_cursor s (ef_after x)); cbn in *; [|done]. by apply IH.
Qed.

Lemma accounted_publish done t e h r : accounted done t →
  accounted (done ++ [e]) (set_accepted (tx_accepted t ++ [(e, h, r)]) t).
Proof.
  intros [Hs Hin]. unfold accounted, row_effects in *. cbn. rewrite map_app. split; [by apply sublist_app|].
  intros x [Hx| ->%list_elem_of_singleton]%elem_of_app.
  - destruct (Hin x Hx) as [Hacc|Hskip]; [left | by right]. apply elem_of_app. by left.
  - left. apply elem_of_app. right. left.
Qed.

Lemma accounted_skip done t e n err : accounted done t → ef_action e = SkipSampleReported →
  accounted (done ++ [e]) (set_skipped (tx_skipped t ++ [Skipped (token I e) (ef_consumer e) PublishPhase n err]) t).
Proof.
  intros [Hs Hin] Ha. unfold accounted, row_effects in *. cbn. rewrite map_app. split; [by apply sublist_inserts_r|].
  intros x [Hx| ->%list_elem_of_singleton]%elem_of_app.
  - destruct (Hin x Hx) as [Hacc|[Hact Htok]]; [by left | right]. split; [done|]. apply elem_of_app. by left.
  - right. split; [done|]. apply elem_of_app. right. left.
Qed.

(** One publication that succeeded. *)
Lemma accepting_publish t0 done e h n pending cursors cursors' published r t w :
  replace_cursor cursors (ef_after e) = Ok cursors' → cursors_ok cursors' →
  accepting t0 done ((e, h, n) :: pending) cursors published t w →
  ∀ w', owns w' (handles pending) (handles (tx_accepted t) ++ [h]) [] →
  accepting t0 (done ++ [e]) pending cursors' (published ++ [r]) (set_accepted (tx_accepted t ++ [(e, h, r)]) t) w'.
Proof.
  intros Hr Hok [H1 H2 H3 H4 H5 H6 H7 H8 H9] w' Ho. split; cbn; try done.
  - unfold handles in *. by rewrite map_app.
  - by rewrite H5, map_app.
  - unfold row_effects in *. rewrite map_app. cbn. by rewrite (commit_snoc _ _ _ _ H6).
  - by apply accounted_publish.
Qed.

(** The state at the [except] of one publication. *)
Lemma accepting_held t0 done e h n pending cursors published t w :
  accepting t0 done ((e, h, n) :: pending) cursors published t w →
  held t (h :: handles pending) (handles (tx_accepted t)) [] t w.
Proof. intros [H1 H2 H3 H4 H5 H6 H7 H8 H9]. split; [apply framed_refl | done]. Qed.

Lemma accepting_framed t0 done rows rows' cursors published t t' w w' :
  accepting t0 done rows cursors published t w → framed t t' → owns w' (handles rows') (handles (tx_accepted t)) [] →
  accepting t0 done rows' cursors published t' w'.
Proof. intros [H1 H2 H3 H4 H5 H6 H7 H8 H9] -> Ho. destruct t. by split. Qed.

(** One publication that failed, up to the decision to try again. *)
Lemma accept_failure_triple (t0 : transaction) e h n (pending : list (AcceptedSideEffect * H * nat)) error (t1 : transaction) :
  tx_prepared t1 = [] → tx_initial t1 = tx_initial t0 →
  triple (held_inflight t1 h (handles pending) (handles (tx_accepted t1)) [])
    (compensate I shown e h n error)
    (fun r t w => let '(cleanup, (replacement, attempts, _)) := r in
       match replacement with
       | Some h' => cleanup = [] ∧ (n < attempts <= attempt_limit e)%nat
           ∧ held t1 (h' :: handles pending) (handles (tx_accepted t1)) [] t w
       | None => held t1 (handles pending) (handles (tx_accepted t1)) (lost cleanup h) t w
       end) (undone (tx_initial t0)).
Proof.
  intros Hp Hi. unfold compensate.
  apply (triple_bind _ _ _ _ (fun f => held t1 (handles pending) (handles (tx_accepted t1)) (lost f h))).
  { eapply triple_conseq; [apply rollback_triple|done| |by intros ? ? ? []]. intros f t w. cbn beta. by rewrite app_nil_r. }
  intros cleanup. destruct (bool_decide (cleanup = []) && is_retry e && (n <? attempt_limit e)%nat) eqn:Eb.
  - bools. subst cleanup. cbn [lost]. eapply triple_bind.
    { eapply triple_conseq; [apply (prepare_one_triple t1 e n)|by intros t w Hh; exact Hh|by intros r t w Hh; exact Hh|by intros ? ? ? []]. }
    intros [[[h'|] m] er] t w Hh; cbn in *; [|done]. by destruct Hh.
  - intros t w Hh. done.
Qed.

(** One sample skipped. *)
Lemma accepting_skip t0 done e h n pending cursors published k err t t' w w' :
  accepting t0 done ((e, h, n) :: pending) cursors published t w → framed t t' → ef_action e = SkipSampleReported →
  owns w' (handles pending) (handles (tx_accepted t)) [] →
  accepting t0 (done ++ [e]) pending cursors published
    (set_skipped (tx_skipped t' ++ [Skipped (token I e) (ef_consumer e) PublishPhase k err]) t') w'.
Proof.
  intros [H1 H2 H3 H4 H5 H6 H7 H8 H9] -> Hact Ho. apply (accounted_skip done t e k err) in H8; [|done]. destruct t.
  split; try done. by apply prefix_app_r.
Qed.

(** Giving up, from any state that still holds its publications. *)
Lemma abandon_from {A} initial (t : transaction) w e error pending cleanup rolled_back h (Q : A → transaction → W → Prop) :
  tx_prepared t = [] → tx_initial t = initial →
  owns w (handles pending) (handles (tx_accepted t)) (lost cleanup h) →
  match abandon (A := A) I e error pending cleanup rolled_back (t, w) with
  | (Returned a, (t', w')) => Q a t' w'
  | (Raised e, (t', w')) => undone initial e t' w'
  | (Interrupted, _) => True
  end.
Proof. intros Hp <- Ho. apply (abandon_triple t e error pending cleanup rolled_back h Q Hp). split; [apply framed_refl | done]. Qed.

Lemma accept_loop_triple t0 all fuel : ∀ done pending cursors published,
  done ++ row_effects pending = all → (accept_fuel pending <= fuel)%nat →
  triple (accepting t0 done pending cursors published) (accept_loop I shown fuel pending cursors published)
    (fun r => accepting t0 all [] r.1 r.2) (undone (tx_initial t0)).
Proof.
  induction fuel as [|fuel IH]; intros done [|[[e h] n] pending] cursors published Hall Hfuel t w Ha;
    try (cbn in Hfuel; lia); try (cbn; by rewrite app_nil_r in Hall; subst).
  cbn [accept_loop]. change (S (attempt_limit e - n) + accept_fuel pending <= S fuel)%nat in Hfuel. cbn [row_effects map fst] in Hall.
  rewrite cons_middle, (assoc_L app) in Hall.
  pose proof (publish_triple t e h (handles pending) (handles (tx_accepted t)) [] t w (accepting_held _ _ _ _ _ _ _ _ _ _ Ha)) as Hpub.
  unfold bind at 1, attempt. destruct (publish_checked I e h (t, w)) as [[r|er|] [t1 w1]]; [| |done].
  - destruct Hpub as [Hf Ho]. unfold bind at 1, modify. cbn [fst snd].
    destruct (replace_cursor_ok cursors (ef_after e) (ac_cursors_ok _ _ _ _ _ _ _ Ha)) as (c' & Hc & Hok & _).
    rewrite Hc. cbn [lift]. unfold bind, ret. apply (IH (done ++ [e])); [done|lia|].
    assert (Ha1 : accepting t0 done ((e, h, n) :: pending) cursors published t w) by exact Ha. rewrite Hf.
    destruct t as [p c pr acc u sk fz rec st]. cbn in *.
    destruct (accepting_publish _ _ _ _ _ _ _ _ _ r _ _ Hc Hok Ha1 w1 Ho) as [H1 H2 H3 H4 H5 H6 H7 H8 H9]. by split.
  - assert (Hp : tx_prepared t = [] ∧ tx_initial t = tx_initial t0) by (by destruct Ha).
    pose proof (accept_failure_triple t0 e h n pending er t (proj1 Hp) (proj2 Hp) t1 w1 Hpub) as Hfail.
    unfold bind at 1. destruct (compensate I shown e h n er (t1, w1)) as [[[cleanup [[repl m] err]]|er'|] [t2 w2]]; [|done|done].
    destruct repl as [h'|].
    + destruct Hfail as (_ & Hm & [Hf Ho]). apply (IH done); [by rewrite <- Hall, <- (assoc_L app)|change (S (attempt_limit e - m) + accept_fuel pending <= fuel)%nat; lia|].
      by eapply accepting_framed.
    + destruct Hfail as [Hf Ho]. case_bool_decide as Hskip.
      * unfold bind, modify. cbn [fst snd]. destruct cleanup as [|f cleanup].
        -- apply (IH (done ++ [e])); [done|lia|]. by eapply accepting_skip.
        -- apply (abandon_from _ _ _ _ _ _ _ _ h); rewrite Hf; destruct t; by destruct Hp.
      * apply (abandon_from _ _ _ _ _ _ _ _ h); rewrite Hf; destruct t; by destruct Hp.
Qed.

(** ** The constructor *)

(** The state while the effects of the plan are prepared. *)
Record preparing (p : EffectPlan) (cursors : cursor_set) (done : list AcceptedSideEffect) (t : transaction) (w : W) : Prop := {
  pr_plan : tx_plan t = p;
  pr_initial : tx_initial t = cursors;
  pr_accepted : tx_accepted t = [];
  pr_owns : owns w (handles (tx_prepared t)) [] [];
  pr_sublist : row_effects (tx_prepared t) `sublist_of` done;
  pr_accounted : ∀ e, e ∈ done → e ∈ row_effects (tx_prepared t)
    ∨ (ef_action e = SkipSampleReported ∧ token I e ∈ map sk_effect (tx_skipped t)) }.

Lemma preparing_held p cursors done t w : preparing p cursors done t w → held t (handles (tx_prepared t)) [] [] t w.
Proof. intros [H1 H2 H3 H4 H5 H6]. split; [apply framed_refl | done]. Qed.

(** A sample that cannot be prepared fails the transaction. *)
Lemma fail_from initial (t : transaction) w e err (Q : unit → transaction → W → Prop) : tx_initial t = initial → tx_accepted t = [] →
  owns w (handles (tx_prepared t)) [] [] →
  match bind get (fun t => bind (failed I e err (tx_initial t) [] []) (fun er => raise (A := unit) er)) (t, w) with
  | (Returned a, (t', w')) => Q a t' w'
  | (Raised er, (t', w')) => undone initial er t' w'
  | (Interrupted, _) => True
  end.
Proof.
  intros <- Hacc Ho. unfold bind, get. cbn [fst snd].
  pose proof (failed_triple t e err (tx_initial t) [] [] [] [] t w (conj (framed_refl t) Ho)) as Hf.
  destruct (failed I e err (tx_initial t) [] [] (t, w)) as [[er|er|] [t' w']]; [|done|done].
  destruct Hf as (r & L' & -> & [Hfr Ho'] & Hs & Hc & Hpub & Hcount). cbn.
  exists (Some (ef_consumer e)), r, L'. rewrite app_nil_r in Ho'. split_and!; try done; rewrite Hfr; by destruct t.
Qed.

Lemma prepare_all_triple p cursors effects : ∀ done,
  triple (preparing p cursors done) (prepare_all I shown effects) (fun _ => preparing p cursors (done ++ effects)) (undone cursors).
Proof.
  induction effects as [|e effects IH]; intros done t w Hp; cbn [prepare_all]; [by rewrite app_nil_r|].
  pose proof (prepare_one_triple t e 0 (handles (tx_prepared t)) [] [] t w (preparing_held _ _ _ _ _ Hp)) as Hone.
  unfold bind at 1. destruct (prepare_one I shown e 0 (t, w)) as [[[[[h|] n] err]|er|] [t1 w1]]; [| |done..].
  - destruct Hone as [[-> Ho] _]. unfold bind, modify. cbn [fst snd].
    replace (done ++ e :: effects) with ((done ++ [e]) ++ effects) by (by rewrite <- app_assoc). apply IH.
    destruct Hp as [H1 H2 H3 H4 H5 H6]. destruct t as [pl c pr acc u sk fz rec st]. cbn in *. subst. split; cbn; try done.
    + unfold handles. rewrite map_app. eapply owns_perm; [exact Ho| |done]. apply Permutation_cons_append.
    + unfold row_effects in *. rewrite map_app. by apply sublist_app.
    + intros x [Hx| ->%list_elem_of_singleton]%elem_of_app; unfold row_effects in *; rewrite map_app, elem_of_app.
      * destruct (H6 x Hx); tauto.
      * left. right. left.
  - destruct Hone as [-> Ho]. destruct Hp as [H1 H2 H3 H4 H5 H6]. destruct t as [pl c pr acc u sk fz rec st]. cbn in *. subst.
    case_bool_decide as Hskip.
    + unfold bind, modify. cbn [fst snd].
    replace (done ++ e :: effects) with ((done ++ [e]) ++ effects) by (by rewrite <- app_assoc). apply IH. split; cbn; try done.
      * by apply sublist_inserts_r.
      * intros x [Hx| ->%list_elem_of_singleton]%elem_of_app; rewrite map_app, elem_of_app.
        -- destruct (H6 x Hx) as [|[]]; tauto.
        -- right. split; [done|]. right. left.
    + by apply (fail_from _ _ _ _ _ (fun _ => preparing p cursors (done ++ e :: effects))).
Qed.

(** A transaction of the plan that holds its temporaries. *)
Definition staged (p : EffectPlan) (cursors : cursor_set) (t : transaction) (w : W) : Prop :=
  preparing p cursors (ep_effects p) t w ∧ tx_state t = Staged.

(** A transaction whose publications are visible. *)
Definition published_all (p : EffectPlan) (cursors : cursor_set) (rep : report) (t : transaction) (w : W) : Prop :=
  tx_state t = IsAccepted ∧ tx_initial t = cursors ∧ tx_prepared t = []
  ∧ rt_status rep = Accepted ∧ rt_diagnostics rep = [] ∧ rt_published rep = map snd (tx_accepted t)
  ∧ owns w [] (handles (tx_accepted t)) []
  ∧ row_effects (tx_accepted t) `sublist_of` ep_effects p
  ∧ (∀ e, e ∈ ep_effects p → e ∈ row_effects (tx_accepted t)
      ∨ (ef_action e = SkipSampleReported ∧ token I e ∈ map sk_effect (rt_skipped rep)))
  ∧ commit_cursors cursors (row_effects (tx_accepted t)) = Ok (rt_cursors rep)
  ∧ tx_updates t = map ef_after (row_effects (tx_accepted t)).

Lemma owns_start w : (∀ h, art w h = a0 h) → owns w [] [] [].
Proof. intros H'. split; [apply NoDup_nil_2|set_solver..|auto]. Qed.

Lemma new_transaction_spec p cursors w : (∀ h, art w h = a0 h) →
  match new_transaction (R := R) I shown p cursors w with
  | (Returned t, w') => staged p cursors t w'
  | (Raised e, w') => (e = Exn ValueError ∧ w' = w) ∨ ∃ t, undone cursors e t w'
  | (Interrupted, _) => True
  end.
Proof.
  intros Hw. unfold new_transaction. destruct (existsb _ _); [by left|].
  assert (Hp : preparing p cursors [] (fresh_transaction p cursors) w).
  { split; cbn; try done; [by apply owns_start|]. by intros e He%elem_of_nil. }
  pose proof (prepare_all_triple p cursors (ep_effects p) [] _ _ Hp) as Hall. unfold bind, modify.
  destruct (prepare_all I shown (ep_effects p) (fresh_transaction p cursors, w)) as [[[]|e|] [t' w']]; [|right; eauto|done].
  cbn. split; [|done]. destruct Hall as [H1 H2 H3 H4 H5 H6]. by split.
Qed.

Lemma accept_spec p cursors : cursors_ok cursors →
  triple (staged p cursors) (accept I shown) (published_all p cursors) (undone cursors).
Proof.
  intros Hok t w [[H1 H2 H3 H4 H5 H6] Hst]. unfold accept. unfold bind at 1, get. cbn [fst snd].
  rewrite Hst, bool_decide_true by done. cbn [negb]. unfold bind at 1, modify at 1. cbn [fst snd]. set (t0 := set_prepared [] t).
  assert (Ha : accepting t0 [] (tx_prepared t) (tx_initial t) [] t0 w).
  { destruct t as [pl c pr acc u sk fz rec st]. cbn in *. subst. split; cbn; try done; split; cbn; try done.
    by intros e He%elem_of_nil. }
  pose proof (accept_loop_triple t0 (row_effects (tx_prepared t)) (accept_fuel (tx_prepared t)) [] (tx_prepared t) (tx_initial t) []
    eq_refl (Nat.le_refl _) t0 w Ha) as Hloop.
  unfold bind at 1. destruct (accept_loop I shown _ _ _ _ (t0, w)) as [[[c pub]|e|] [t' w']]; [| |done]; cycle 1.
  { by replace (tx_initial t0) with cursors in Hloop by (subst; by destruct t). }
  destruct Hloop as [A1 A2 A3 A4 A5 A6 A7 [A8 A9] [l A10]]. unfold bind, get, ret. cbn in *.
  destruct t as [pl c0 pr acc u sk fz rec st], t' as [pl' c' pr' acc' u' sk' fz' rec' st']. cbn in *. subst.
  split_and!; cbn; try done.
  - by etrans.
  - intros e [He|[Hact Htok]]%H6; [by apply A9|]. right. split; [done|]. rewrite map_app. apply elem_of_app. by left.
  - by rewrite map_map; apply map_ext; intros [[]].
Qed.

(** An error whose report says that something may be left behind. *)
Definition dirty (e : error) : Prop :=
  match e with PublicationError _ r => (0 < cleanup_count (rt_diagnostics r))%nat | Exn _ => False end.

(** [reject] and [rollback_accepted] end in the same way. *)
Definition withdrawn (cursors : cursor_set) (rep : report) (t : transaction) (w : W) : Prop :=
  rt_status rep = Rejected ∧ rt_cursors rep = cursors ∧ rt_published rep = [] ∧ tx_state t = IsRejected ∧ owns w [] [] []
  ∧ tx_prepared t = [] ∧ tx_accepted t = [].

Lemma resolve_undone_spec t0 r :
  triple (cleared t0 [] [] [] r) (resolve_undone I r)
    (fun rep t w => tx_prepared t0 = [] → tx_accepted t0 = [] → withdrawn (tx_initial t0) rep t w)
    (fun e t w => tx_prepared t0 = [] → tx_accepted t0 = [] → undone (tx_initial t0) e t w ∧ dirty e).
Proof.
  intros t w (L & [Hf Ho] & Hl & Hc). rewrite app_nil_r in Ho. destruct r as [rolled diags]. cbn in *.
  unfold resolve_undone, bind, modify, get. cbn [fst snd]. rewrite Hf. destruct t0 as [pl c pr acc u sk fz rec st].
  destruct diags as [|d diags]; cbn.
  - intros -> ->. destruct L as [|h L]; [|by rewrite Hc in Hl]. by split_and!.
  - intros -> ->. split; [eexists None, _, L; by split_and! | change (0 < cleanup_count (d :: diags))%nat; unfold cleanup_count; rewrite Hc; cbn; lia].
Qed.

Definition undone_dirty (cursors : cursor_set) (e : error) (t : transaction) (w : W) : Prop := undone cursors e t w ∧ dirty e.

Lemma reject_spec p cursors : triple (staged p cursors) (reject I) (withdrawn cursors) (undone_dirty cursors).
Proof.
  intros t w [[H1 H2 H3 H4 H5 H6] Hst]. unfold reject, bind at 1, get. cbn [fst snd].
  rewrite Hst, bool_decide_true by done. cbn [negb].
  assert (Ht : triple (held t (handles (tx_prepared t)) [] []) (bind (discard_staged I) (resolve_undone I)) (withdrawn cursors)
                 (undone_dirty cursors)); [|by apply Ht; split; [apply framed_refl|]].
  eapply triple_bind.
  - eapply triple_conseq; [apply discard_staged_triple|done|intros r t' w' Hr; exact Hr|by intros ? ? ? []].
  - intros r. eapply triple_conseq; [apply resolve_undone_spec|done| |]; subst; destruct t; cbn in *; subst;
      intros e t1 w1 Hu; by apply Hu.
Qed.

Lemma rollback_spec p cursors rep :
  triple (published_all p cursors rep) (rollback_accepted I) (withdrawn cursors) (undone_dirty cursors).
Proof.
  intros t w (Hst & Hi & Hprep & _ & _ & _ & Ho & _). unfold rollback_accepted, bind at 1, get. cbn [fst snd].
  rewrite Hst, bool_decide_true by done. cbn [negb].
  assert (Ht : triple (held t [] (handles (tx_accepted t)) []) (bind (rollback_rows I) (resolve_undone I)) (withdrawn cursors)
                 (undone_dirty cursors)); [|by apply Ht; split; [apply framed_refl|]].
  eapply triple_bind.
  - eapply triple_conseq; [apply rollback_rows_triple|done|intros r t' w' Hr; exact Hr|by intros ? ? ? []].
  - intros r. eapply triple_conseq; [apply resolve_undone_spec|done| |]; subst; destruct t; cbn in *; subst;
      intros e t1 w1 Hu; by apply Hu.
Qed.

(** [abort] withdraws a transaction that is staged or accepted. *)
Lemma abort_spec (P : transaction → W → Prop) cursors :
  (triple P (reject I) (withdrawn cursors) (undone_dirty cursors) ∧ ∀ t w, P t w → tx_state t = Staged)
  ∨ (triple P (rollback_accepted I) (withdrawn cursors) (undone_dirty cursors) ∧ ∀ t w, P t w → tx_state t = IsAccepted) →
  triple P (abort I) (fun r t w => ∃ rep, r = Some rep ∧ withdrawn cursors rep t w) (undone_dirty cursors).
Proof.
  intros HP t w Hw. unfold abort. unfold bind at 1, get. cbn [fst snd].
  destruct HP as [[Ht Hst]|[Ht Hst]]; rewrite (Hst t w Hw); unfold bind, ret; specialize (Ht t w Hw).
  - destruct (reject I (t, w)) as [[rep|e|] [t' w']]; eauto.
  - destruct (rollback_accepted I (t, w)) as [[rep|e|] [t' w']]; eauto.
Qed.
End Atomic.

(** ** The claims *)

Section Claims.
Context {W H R : Type} `{!EqDecision H} `{!EqDecision R} `{!Publisher W H R} (I : identities) (art : W → H → artifact).
Context `{!PublisherLaws I art}.

(** The cursors shown to the writers while the transaction is staged, and when it is accepted. *)
Context (shown shown' : cursor_set).

(** Every artifact is as before but for as many as the report's cleanup
    diagnostics. *)
Definition restored (w0 w : W) (diagnostics : list diagnostic) : Prop :=
  ∃ L, length L = cleanup_count diagnostics ∧ ∀ h, h ∉ L → art w h = art w0 h.

Lemma undone_restored w0 cursors e (t : transaction (H := H) (R := R)) w : undone art (art w0) cursors e t w →
  ∃ c rep, e = PublicationError c rep ∧ rt_status rep = Failed ∧ rt_cursors rep = cursors ∧ rt_published rep = []
    ∧ tx_state t = IsFailed ∧ restored w0 w (rt_diagnostics rep).
Proof.
  intros (c & r & L & -> & H1 & H2 & H3 & H4 & _ & _ & [_ _ _ _ Hrest] & Hl). exists c, r. split_and!; try done.
  exists L. split; [done|]. intros h Hh. apply Hrest. set_solver.
Qed.

(** C14: An accepted transaction publishes all or nothing.  From any world [w0]:
    when [accept] returns, exactly the publications it accepted are visible and
    every other artifact is as before the preparation; every effect of the plan
    is published, in order, or its sample is skipped as its action allows and
    reported; and the cursors are advanced by exactly the published effects.
    When [accept] raises, the transaction has failed, the cursors are the initial
    ones, nothing is published, and every artifact it could not remove has a
    diagnostic in the report. *)
Theorem accept_all_or_nothing p cursors w0 t w r (t' : transaction (H := H) (R := R)) w' :
  cursors_ok cursors → new_transaction I shown p cursors w0 = (Returned t, w) → accept I shown' (t, w) = (r, (t', w')) →
  match r with
  | Returned rep =>
      rt_status rep = Accepted ∧ rt_diagnostics rep = [] ∧ rt_published rep = map snd (tx_accepted t')
      ∧ (∀ h, art w' h = if bool_decide (h ∈ handles (tx_accepted t')) then Visible else art w0 h)
      ∧ row_effects (tx_accepted t') `sublist_of` ep_effects p
      ∧ (∀ e, e ∈ ep_effects p → e ∈ row_effects (tx_accepted t')
          ∨ (ef_action e = SkipSampleReported ∧ token I e ∈ map sk_effect (rt_skipped rep)))
      ∧ commit_cursors cursors (row_effects (tx_accepted t')) = Ok (rt_cursors rep)
      ∧ cursor_updates t' = Ok (map ef_after (row_effects (tx_accepted t')))
  | Raised (PublicationError _ rep) =>
      rt_status rep = Failed ∧ rt_cursors rep = cursors ∧ rt_published rep = [] ∧ tx_state t' = IsFailed
      ∧ restored w0 w' (rt_diagnostics rep)
  | Raised (Exn _) => False
  | Interrupted => True
  end.
Proof.
  intros Hok Hnew Hacc. pose proof (new_transaction_spec I art (art w0) shown p cursors w0 (fun _ => eq_refl)) as Hs.
  rewrite Hnew in Hs. pose proof (accept_spec I art (art w0) shown' p cursors Hok t w Hs) as Ha. rewrite Hacc in Ha.
  destruct r as [rep|e|]; [| |done].
  - destruct Ha as (A1 & A2 & A3 & A4 & A5 & A6 & Ho & A7 & A8 & A9 & A10). split_and!; try done.
    + intros h. case_bool_decide as Hin; [by apply (ow_visible _ _ _ _ _ _ Ho)|].
      apply (ow_rest _ _ _ _ _ _ Ho). rewrite app_nil_r. done.
    + unfold cursor_updates. rewrite bool_decide_true by (by left). by rewrite A10.
  - apply undone_restored in Ha as (c & rep & -> & Ha). done.
Qed.

(** A transaction that is not kept leaves nothing.  When the constructor
    raises, or [abort] is called on the staged transaction or on the accepted
    one, every artifact is as before the preparation but for those the report's
    diagnostics name, the cursors are the initial ones, and [abort] returns
    without an error exactly a clean rejection. *)
Theorem abort_leaves_nothing p cursors w0 :
  cursors_ok cursors →
  (∀ e w, new_transaction (R := R) I shown p cursors w0 = (Raised e, w) →
     (e = Exn ValueError ∧ w = w0)
     ∨ ∃ c rep, e = PublicationError c rep ∧ rt_cursors rep = cursors ∧ rt_published rep = [] ∧ restored w0 w (rt_diagnostics rep))
  ∧ (∀ t w t1 w1 r t2 w2, new_transaction I shown p cursors w0 = (Returned t, w) →
       (t1, w1) = (t, w) ∨ (∃ rep, accept I shown' (t, w) = (Returned rep, (t1, w1))) →
       abort I (t1, w1) = (r, (t2, w2)) →
       match r with
       | Returned (Some rep) => rt_status rep = Rejected ∧ rt_cursors rep = cursors ∧ tx_state (R := R) t2 = IsRejected
           ∧ ∀ h, art w2 h = art w0 h
       | Raised (PublicationError _ rep) => rt_status rep = Failed ∧ rt_cursors rep = cursors
           ∧ restored w0 w2 (rt_diagnostics rep)
       | Returned None | Raised (Exn _) => False
       | Interrupted => True
       end).
Proof.
  intros Hok. pose proof (new_transaction_spec (R := R) I art (art w0) shown p cursors w0 (fun _ => eq_refl)) as Hs. split.
  - intros e w Hnew. rewrite Hnew in Hs. destruct Hs as [Hs|[t Hs]]; [by left|]. right.
    apply undone_restored in Hs as (c & rep & -> & _ & Hc & Hp & _ & Hr). eauto 10.
  - intros t w t1 w1 r t2 w2 Hnew Hreach Habort. rewrite Hnew in Hs.
    assert (Ha : match abort I (t1, w1) with
                 | (Returned a, (t', w')) => ∃ rep, a = Some rep ∧ withdrawn art (art w0) cursors rep t' w'
                 | (Raised e, (t', w')) => undone_dirty art (art w0) cursors e t' w'
                 | (Interrupted, _) => True end).
    { destruct Hreach as [[= -> ->]|(rep & Hacc)].
      - apply (abort_spec I art (art w0) (staged I art (art w0) p cursors)); [|done]. left. split; [by apply reject_spec|].
        by intros ? ? [_ ?].
      - pose proof (accept_spec I art (art w0) shown' p cursors Hok t w Hs) as Ha. rewrite Hacc in Ha.
        apply (abort_spec I art (art w0) (published_all I art (art w0) p cursors rep)); [|done]. right.
        split; [by apply rollback_spec|]. by intros ? ? [? _]. }
    rewrite Habort in Ha. destruct r as [a|e|]; [| |done].
    + destruct Ha as (rep & -> & H1 & H2 & H3 & H4 & Ho & _). split_and!; try done.
      intros h. apply (ow_rest _ _ _ _ _ _ Ho). by apply not_elem_of_nil.
    + destruct Ha as [Ha _]. apply undone_restored in Ha as (c & rep & -> & H1 & H2 & H3 & H4 & H5). done.
Qed.
End Claims.

(** ** The loop of [accept] ends *)

Section Ends.
Context {W H R : Type} `{!EqDecision R} `{!Publisher W H R} (I : identities) (shown : cursor_set).

Lemma prepare_loop_attempts e fuel : ∀ attempts last s h m err s',
  prepare_loop (W := W) (H := H) (R := R) I shown fuel e attempts last s = (Returned (Some h, m, err), s') →
  (attempts < m <= attempts + fuel)%nat.
Proof.
  induction fuel as [|fuel IH]; intros attempts last s h m err s'; cbn [prepare_loop]; [done|].
  unfold bind at 1, attempt. destruct (bind (call (pub_prepare shown e)) _ s) as [[h'|er|] s1]; [|intros E%IH; lia|done].
  unfold ret. intros [= <- <- <- <-]. lia.
Qed.

Lemma compensate_attempts e h n error s cleanup h' m err s' :
  compensate (W := W) (R := R) I shown e h n error s = (Returned (cleanup, (Some h', m, err)), s') → (n < m <= attempt_limit e)%nat.
Proof.
  unfold compensate, bind. destruct (rollback h s) as [[c|er|] s1]; try done.
  destruct (bool_decide (c = []) && is_retry e && (n <? attempt_limit e)%nat) eqn:Eb; [|done]. bools.
  destruct (prepare_one I shown e n s1) as [[[[p m'] er]|er|] s2] eqn:Ep; try done. intros [= <- -> <- <- <-].
  apply prepare_loop_attempts in Ep. lia.
Qed.

Lemma bind_ext {S A B} (m : M S A) (f g : A → M S B) s :
  (∀ a s, f a s = g a s) → bind m f s = bind m g s.
Proof. intros Hfg. unfold bind. by destruct (m s) as [[a|e|] s']. Qed.

(** [accept] ends: each pass of its loop publishes the next sample or uses one
    of the attempts its action has left, so the passes of [accept_fuel] - one per
    prepared sample plus its remaining attempts - are always enough, whatever
    the writers do, and more never change the outcome. *)
Theorem accept_ends fuel : ∀ (pending : list (AcceptedSideEffect * H * nat)) cursors published (s : transaction (R := R) * W),
  (accept_fuel pending <= fuel)%nat →
  accept_loop I shown fuel pending cursors published s = accept_loop I shown (accept_fuel pending) pending cursors published s.
Proof.
  assert (Hany : ∀ f1 (f2 : nat) (pending : list (AcceptedSideEffect * H * nat)) cursors published (s : transaction (R := R) * W),
    (accept_fuel pending <= f1)%nat → (accept_fuel pending <= f2)%nat →
    accept_loop I shown f1 pending cursors published s = accept_loop I shown f2 pending cursors published s); [|by intros; apply Hany].
  induction f1 as [|f1 IH]; intros [|f2] [|[[e h] n] pending] cursors published s H1 H2; try done; try (cbn in H1, H2; lia).
  change (S (attempt_limit e - n) + accept_fuel pending <= S f1)%nat in H1.
  change (S (attempt_limit e - n) + accept_fuel pending <= S f2)%nat in H2.
  assert (Htail : ∀ c p s, accept_loop I shown f1 pending c p s = accept_loop I shown f2 pending c p s) by (intros; apply IH; lia).
  cbn [accept_loop]. apply bind_ext. intros [r|er] s1.
  - do 2 (apply bind_ext; intros ? ?). apply Htail.
  - unfold bind. destruct (compensate I shown e h n er s1) as [[[cleanup [[[h'|] m] err]]|er'|] s2] eqn:Ec; [| |done..].
    + apply compensate_attempts in Ec. apply IH.
      * change (S (attempt_limit e - m) + accept_fuel pending <= f1)%nat. lia.
      * change (S (attempt_limit e - m) + accept_fuel pending <= f2)%nat. lia.
    + case_bool_decide; [|done]. destruct cleanup; [apply Htail | done].
Qed.
End Ends.

(** ** A file writer

    Publications are numbered files; the script says what the next publications
    do. *)
Inductive toy_event := ToyFails | ToyInterrupts.
Definition toy_handle : Type := nat * (string * string).
Record toy_world := ToyWorld { tw_files : list (toy_handle * artifact); tw_script : list (option toy_event) }.

Definition toy_art (w : toy_world) (h : toy_handle) : artifact := default Absent (dget h (tw_files w)).
Definition toy_set (h : toy_handle) (a : artifact) (w : toy_world) : toy_world := ToyWorld (dset h a (tw_files w)) (tw_script w).
Definition toy_next (w : toy_world) : nat := S (list_max (map fst (dkeys (tw_files w)))).

Definition toy_prepare (c : cursor_set) (e : AcceptedSideEffect) (w : toy_world) : outcome (option toy_handle) * toy_world :=
  let h := (toy_next w, (id_effect toy_identities e, id_payload toy_identities (ef_payload e))) in
  (Returned (Some h), toy_set h Temporary w).
Definition toy_publish (h : toy_handle) (w : toy_world) : outcome (option PublicationReceipt) * toy_world :=
  let w' := ToyWorld (tw_files w) (tail (tw_script w)) in
  match head (tw_script w) with
  | Some (Some ToyFails) => (Raised (Exn RuntimeError), toy_set h Visible w')
  | Some (Some ToyInterrupts) => (Interrupted, w')
  | _ => (Returned (Some (Receipt h.2.1 h.2.2 "files" "file" SERIAL [(0, "file"%string)])), toy_set h Visible w')
  end.

#[global] Instance toy_publisher : Publisher toy_world toy_handle nat := {
  pub_prepare := toy_prepare;
  pub_effect h := h.2.1;
  pub_payload h := h.2.2;
  pub_publish := toy_publish;
  pub_discard h w := (Returned tt, toy_set h Absent w);
  pub_rollback h w := (Returned tt, toy_set h Absent w);
  pub_finalize _ w := (Returned (Some tt), w);
  pub_recoveries _ _ := Returned (Some []) }.

Lemma toy_art_set h a w k : toy_art (toy_set h a w) k = if decide (k = h) then a else toy_art w k.
Proof. unfold toy_art, toy_set. cbn. rewrite dget_dset. by case_decide. Qed.

Lemma toy_next_fresh w x : toy_art w (toy_next w, x) = Absent.
Proof.
  unfold toy_art. match goal with |- context [@dget ?A ?B ?D ?k ?d] => destruct (@dget A B D k d) as [a|] eqn:E end; [exfalso|done].
  apply dget_Some_elem in E. assert (Hin : In (toy_next w) (map fst (dkeys (tw_files w)))).
  { apply in_map_iff. exists (toy_next w, x). split; [done|]. apply in_map_iff. exists ((toy_next w, x), a).
    split; [done|]. by apply list_elem_of_In. }
  pose proof (proj1 (list_max_le (map fst (dkeys (tw_files w))) _) (Nat.le_refl _)) as Hmax.
  rewrite List.Forall_forall in Hmax. specialize (Hmax _ Hin). unfold toy_next in Hmax. lia.
Qed.

#[global] Instance toy_laws : PublisherLaws toy_identities toy_art.
Proof.
  split; cbn.
  - intros c e w h w' [= <- <-]. split_and!; [apply toy_next_fresh|by rewrite toy_art_set, decide_True| |done|done].
    intros k Hk. rewrite toy_art_set. by case_decide.
  - intros c e w r w' [= <- <-] Hn. by destruct (Hn _ eq_refl).
  - intros h w r w' k. unfold toy_publish. destruct (head (tw_script w)) as [[[]|]|]; intros [= <- <-] Hk;
      rewrite ?toy_art_set; try case_decide; done.
  - intros h w r w'. unfold toy_publish. destruct (head (tw_script w)) as [[[]|]|]; intros [= <- <-];
      by rewrite toy_art_set, decide_True.
  - intros h w r w' k [= <- <-] Hk. rewrite toy_art_set. by case_decide.
  - intros h w w' [= <-] _. by rewrite toy_art_set, decide_True.
  - intros h w r w' k [= <- <-] Hk. rewrite toy_art_set. by case_decide.
  - intros h w w' [= <-]. by rewrite toy_art_set, decide_True.
  - by intros h w r w' k [= <- <-].
Qed.

(** The plan of the first accepted step of the toy run. *)
Definition toy_effect_plan : EffectPlan :=
  match (g ← resolve_graph toy_consumers;
         plan_accepted_side_effects toy_identities tenth_repr toy_runtime_plan g (toy_moment 1 "0x1.0000000000000p-2") []) with
  | Ok p => p
  | Err _ => EffPlan "" "" [] []
  end.

Definition toy_start (script : list (option toy_event)) : toy_world := ToyWorld [] script.
Definition toy_accept (script : list (option toy_event)) : outcome report * (transaction (H := toy_handle) (R := nat) * toy_world) :=
  match new_transaction toy_identities [] toy_effect_plan [] (toy_start script) with
  | (Returned t, w) => accept toy_identities [] (t, w)
  | (_, w) => (Interrupted, (fresh_transaction toy_effect_plan [], w))
  end.
Definition toy_artifacts (w : toy_world) : list artifact := map snd (tw_files w).

Example toy_accepts :
  match toy_accept [] with
  | (Returned rep, (_, w)) => toy_artifacts w = [Visible; Visible; Visible; Visible]
      ∧ map fst (rt_cursors rep) = ["a.restart"; "b.energy"; "m.live"; "z.fields"]
  | _ => False
  end.
Proof. vm_compute. done. Qed.

(** The third publication fails: the first two are withdrawn. *)
Example toy_fails :
  match toy_accept [None; None; Some ToyFails] with
  | (Raised (PublicationError c rep), (_, w)) => c = Some "m.live" ∧ toy_artifacts w = [Absent; Absent; Absent; Absent]
      ∧ rt_cursors rep = [] ∧ rt_diagnostics rep = [ErrorOf (Some RuntimeError)]
  | _ => False
  end.
Proof. vm_compute. done. Qed.

Lemma accept_all_or_nothing_witness :
  match new_transaction (R := nat) toy_identities [] toy_effect_plan [] (toy_start [None; None; Some ToyFails]) with
  | (Returned t, w) =>
      match accept toy_identities [] (t, w) with
      | (Raised (PublicationError _ rep), (t', w')) =>
          cursors_ok [] ∧ rt_cursors rep = [] ∧ restored toy_art (toy_start [None; None; Some ToyFails]) w' (rt_diagnostics rep)
      | _ => False
      end
  | _ => False
  end.
Proof.
  destruct (new_transaction (R := nat) toy_identities [] toy_effect_plan [] (toy_start [None; None; Some ToyFails])) as [[t|e|] w] eqn:En;
    [|vm_compute in En; discriminate..].
  destruct (accept toy_identities [] (t, w)) as [r [t' w']] eqn:Ea.
  assert (Hok : cursors_ok []) by (split; constructor).
  pose proof (accept_all_or_nothing toy_identities toy_art [] [] toy_effect_plan [] (toy_start [None; None; Some ToyFails]) t w r t' w'
                Hok En Ea) as Hall.
  vm_compute in En. injection En as <- <-. vm_compute in Ea. injection Ea as <- <- <-. split; [exact Hok|].
  destruct Hall as (_ & Hc & _ & _ & Hr). split; [exact Hc | exact Hr].
Defined.

Lemma abort_leaves_nothing_witness :
  match new_transaction (R := nat) toy_identities [] toy_effect_plan [] (toy_start []) with
  | (Returned t, w) =>
      match abort toy_identities (t, w) with
      | (Returned (Some rep), (t2, w2)) => cursors_ok [] ∧ rt_status rep = Rejected ∧ ∀ h, toy_art w2 h = toy_art (toy_start []) h
      | _ => False
      end
  | _ => False
  end.
Proof.
  assert (Hok : cursors_ok []) by (split; constructor).
  destruct (new_transaction (R := nat) toy_identities [] toy_effect_plan [] (toy_start [])) as [[t|e|] w] eqn:En;
    [|vm_compute in En; discriminate..].
  destruct (abort toy_identities (t, w)) as [r [t2 w2]] eqn:Ea.
  pose proof (proj2 (abort_leaves_nothing (R := nat) toy_identities toy_art [] [] toy_effect_plan [] (toy_start []) Hok) t w t w r t2 w2
                En (or_introl eq_refl) Ea) as Hall.
  vm_compute in En. injection En as <- <-. vm_compute in Ea. injection Ea as <- <- <-.
  destruct Hall as (Hs & _ & _ & Hr). split; [exact Hok|]. split; [exact Hs | exact Hr].
Defined.

Lemma accept_ends_witness :
  match new_transaction (R := nat) toy_identities [] toy_effect_plan [] (toy_start []) with
  | (Returned t, w) =>
      (accept_fuel (tx_prepared t) <= 100)%nat
      ∧ accept_loop toy_identities [] 100 (tx_prepared t) [] [] (t, w)
        = accept_loop toy_identities [] (accept_fuel (tx_prepared t)) (tx_prepared t) [] [] (t, w)
  | _ => False
  end.
Proof.
  destruct (new_transaction (R := nat) toy_identities [] toy_effect_plan [] (toy_start [])) as [[t|e|] w] eqn:En;
    [|vm_compute in En; discriminate..].
  assert (Hf : (accept_fuel (tx_prepared t) <= 100)%nat).
  { vm_compute in En. injection En as <- <-. vm_compute. lia. }
  split; [exact Hf|]. exact (accept_ends toy_identities [] 100 (tx_prepared t) [] [] (t, w) Hf).
Defined.

(** An interruption strands what was published.  A [BaseException] that leaves
    the second [publish] passes through [accept], which has already emptied the
    list of prepared publications and never marks the transaction accepted:
    [abort] then reports a clean rejection without removing anything, so one
    artifact stays visible and two temporaries stay behind while no cursor
    advances. *)
Theorem interrupted_publication_is_stranded :
  match toy_accept [None; Some ToyInterrupts] with
  | (Interrupted, (t, w)) =>
      tx_state t = Staged ∧ tx_prepared t = []
      ∧ match abort toy_identities (t, w) with
        | (Returned (Some rep), (_, w')) =>
            rt_status rep = Rejected ∧ rt_diagnostics rep = [] ∧ rt_rolled_back rep = [] ∧ rt_cursors rep = []
            ∧ toy_artifacts w' = [Visible; Temporary; Temporary; Temporary]
        | _ => False
        end
  | _ => False
  end.
Proof. vm_compute. done. Qed.
