(* ===== verification/ConsumerPrepared.v ===== *)
(** * Who was prepared with which cursors

    A writer that prepares a publication sees the cursors its runtime shows at that
    moment.  The publications of a constructed transaction were prepared with the
    cursors shown to the constructor; an accepted transaction publishes these, or
    those a [Retry] prepared again with the cursors shown to [accept]. *)
From S2P Require Import Prelude Manifest EveryDt Consumers ConsumerPlanning ConsumerTransaction.

Section Prepared.
Context {W H R : Type} `{!EqDecision R} `{!Publisher W H R} (I : identities) (shown : cursor_set).

Notation transaction := (@transaction H R).
Notation M := (M (transaction * W)).

(** The writer made the publication for the effect while these cursors were shown. *)
Definition prepared_with (c : cursor_set) (e : AcceptedSideEffect) (h : H) : Prop :=
  ∃ w w', pub_prepare c e w = (Returned (Some h), w').

(** ** Methods that leave the rows of a transaction alone *)

Definition rows_kept {A} (m : M A) : Prop :=
  ∀ s, tx_prepared (m s).2.1 = tx_prepared s.1 ∧ tx_accepted (m s).2.1 = tx_accepted s.1.

Lemma kept_ret {A} (a : A) : rows_kept (ret a).
Proof. done. Qed.
Lemma kept_raise {A} e : rows_kept (raise (A := A) e).
Proof. done. Qed.
Lemma kept_lift {A} (r : res A) : rows_kept (lift r).
Proof. by destruct r. Qed.
Lemma kept_modify f : (∀ t, tx_prepared (f t) = tx_prepared t ∧ tx_accepted (f t) = tx_accepted t) → rows_kept (modify f).
Proof. intros Hf s. apply Hf. Qed.
Lemma kept_call {A} (op : W → outcome A * W) : rows_kept (call op).
Proof. intros [t w]. unfold call. cbn. by destruct (op w). Qed.
Lemma kept_bind {A B} (m : M A) (f : A → M B) : rows_kept m → (∀ a, rows_kept (f a)) → rows_kept (bind m f).
Proof.
  intros Hm Hf s. unfold bind. specialize (Hm s). destruct (m s) as [[a|e|] s']; [|done..].
  destruct Hm as [<- <-]. apply Hf.
Qed.
Lemma kept_attempt {A} (m : M A) : rows_kept m → rows_kept (attempt m).
Proof. intros Hm s. specialize (Hm s). unfold attempt. by destruct (m s) as [[a|e|] s']. Qed.

Create HintDb rows.
#[local] Hint Resolve kept_ret kept_raise kept_lift kept_call : rows.

Lemma kept_retain h : rows_kept (retain_recoveries h).
Proof.
  apply kept_bind; [|intros []; auto with rows]. apply kept_attempt, kept_bind; [auto with rows|].
  intros [l|]; [by apply kept_modify | auto with rows].
Qed.

Lemma kept_rollback h : rows_kept (rollback h).
Proof.
  apply kept_bind; [apply kept_attempt; auto with rows|]. intros r. apply kept_bind; [apply kept_retain | auto with rows].
Qed.

Lemma kept_validate e p : rows_kept (validate_prepared I e p).
Proof. destruct p as [h|]; cbn; [|auto with rows]. destruct (_ && _); auto with rows. Qed.

Lemma kept_prepare e fuel : ∀ attempts last, rows_kept (prepare_loop I shown fuel e attempts last).
Proof.
  induction fuel as [|fuel IH]; intros attempts last; cbn [prepare_loop]; [auto with rows|]. apply kept_bind.
  - apply kept_attempt, kept_bind; [auto with rows|]. intros p. apply kept_validate.
  - intros [h|er]; [auto with rows | apply IH].
Qed.

Lemma kept_publish e h : rows_kept (publish_checked I e h).
Proof.
  apply kept_bind; [auto with rows|]. intros [r|]; [|auto with rows]. destruct (negb _); [auto with rows|].
  destruct (negb _); auto with rows.
Qed.

Lemma kept_compensate e h n er : rows_kept (compensate I shown e h n er).
Proof.
  apply kept_bind; [apply kept_rollback|]. intros c. apply kept_bind; [|auto with rows].
  destruct (_ && _); [apply kept_prepare | auto with rows].
Qed.

(** ** Preparation *)

Lemma prepare_made e fuel : ∀ attempts last s h m err s',
  prepare_loop (R := R) I shown fuel e attempts last s = (Returned (Some h, m, err), s') → prepared_with shown e h.
Proof.
  induction fuel as [|fuel IH]; intros attempts last s h m err s'; cbn [prepare_loop]; [done|].
  unfold bind at 1, attempt, bind at 1, call. destruct (pub_prepare shown e s.2) as [[p|er|] w] eqn:Ep; [|apply IH|done].
  destruct p as [h0|]; cbn [validate_prepared]; [|apply IH]. destruct (_ && _); cbn; [|apply IH].
  intros [= <- <- <- <-]. by eexists _, _.
Qed.

(** The rows of a transaction whose writers saw [c]. *)
Definition prepared_rows (c : cursor_set) (t : transaction) : Prop := ∀ e h n, (e, h, n) ∈ tx_prepared t → prepared_with c e h.

Lemma prepare_all_made effects : ∀ s u s', prepare_all I shown effects s = (Returned u, s') →
  prepared_rows shown s.1 → prepared_rows shown s'.1 ∧ tx_accepted s'.1 = tx_accepted s.1.
Proof.
  induction effects as [|e effects IH]; intros s u s'; cbn [prepare_all]; [by intros [= <- <-]|].
  unfold bind at 1. pose proof (kept_prepare e (attempt_limit e - 0) 0 None s) as [Hp Ha]. fold (prepare_one I shown e 0) in *.
  destruct (prepare_one I shown e 0 s) as [[[[p m] err]|er|] s1] eqn:Eone; [|done..]. cbn [fst snd] in *. destruct p as [h|].
  - unfold bind, modify. intros Hrun Hs. destruct (IH _ _ _ Hrun) as [H1 H2]; [|by rewrite H2; cbn; rewrite Ha].
    intros e0 h0 n0. cbn. rewrite Hp, elem_of_app, list_elem_of_singleton. intros [Hin|[= -> -> ->]]; [by eapply Hs|].
    by eapply prepare_made.
  - case_bool_decide.
    + unfold bind, modify. intros Hrun Hs. destruct (IH _ _ _ Hrun) as [H1 H2]; [|by rewrite H2; cbn; rewrite Ha].
      intros e0 h0 n0. cbn. rewrite Hp. apply Hs.
    + unfold bind, get. cbn [fst snd]. by destruct (failed _ _ _ _ _ _ _) as [[er|er|] s2].
Qed.

(** The publications of a new transaction were prepared with the cursors shown. *)
Lemma new_transaction_made p cursors w t w' : new_transaction I shown p cursors w = (Returned t, w') →
  prepared_rows shown t ∧ tx_accepted t = [].
Proof.
  unfold new_transaction. destruct (existsb _ _); [done|]. unfold bind, modify.
  destruct (prepare_all I shown (ep_effects p) (fresh_transaction p cursors, w)) as [[u|er|] [t1 w1]] eqn:E; [|done..].
  intros [= <- <-]. destruct (prepare_all_made _ _ _ _ E) as [H1 H2]; [by intros e h n ?%elem_of_nil|]. by split.
Qed.

(** ** Acceptance *)

(** An accepted row was pending, or was prepared again by its [Retry]. *)
Definition row_made (pending : list (AcceptedSideEffect * H * nat)) (e : AcceptedSideEffect) (h : H) : Prop :=
  (∃ n, (e, h, n) ∈ pending) ∨ (is_retry e = true ∧ prepared_with shown e h).

Lemma row_made_cons e0 h0 h1 m n pending e h : (h1 = h0 ∨ (is_retry e0 = true ∧ prepared_with shown e0 h1)) →
  row_made ((e0, h1, m) :: pending) e h → row_made ((e0, h0, n) :: pending) e h.
Proof.
  intros Hh [[k [[= -> -> ->]|Hin]%elem_of_cons]|Hr]; [|left; exists k; by right|by right].
  destruct Hh as [->|Hh]; [left; exists n; by left | by right].
Qed.

Lemma row_made_tail x pending e h : row_made pending e h → row_made (x :: pending) e h.
Proof. intros [[k Hin]|Hr]; [left; exists k; by right | by right]. Qed.

Lemma compensate_made e h n er s cleanup h' m err s' :
  compensate I shown e h n er s = (Returned (cleanup, (Some h', m, err)), s') → is_retry e = true ∧ prepared_with shown e h'.
Proof.
  unfold compensate, bind. destruct (rollback h s) as [[c|er'|] s1]; try done.
  destruct (bool_decide (c = []) && is_retry e && (n <? attempt_limit e)%nat) eqn:Eb; [|done]. bools.
  destruct (prepare_one I shown e n s1) as [[[[p m'] er']|er'|] s2] eqn:Ep; try done. intros [= <- -> <- <- <-].
  split; [done|]. by eapply prepare_made.
Qed.

Lemma abandon_never_returns {A} e err pending cleanup rolled s (a : A) s' : abandon I e err pending cleanup rolled s ≠ (Returned a, s').
Proof.
  unfold abandon, bind, modify, get. cbn [fst snd].
  match goal with |- context [rollback_rows I ?s0] => destruct (rollback_rows I s0) as [[r|er|] s1]; try done end.
  cbn [fst snd]. match goal with |- context [failed I e ?a ?b ?c ?d ?s0] => by destruct (failed I e a b c d s0) as [[x|er|] s2] end.
Qed.

Lemma accept_loop_made fuel : ∀ pending cursors published s r s',
  accept_loop I shown fuel pending cursors published s = (Returned r, s') →
  ∀ e h x, (e, h, x) ∈ tx_accepted s'.1 → (e, h, x) ∈ tx_accepted s.1 ∨ row_made pending e h.
Proof.
  induction fuel as [|fuel IH]; intros [|[[e0 h0] n] pending] cursors published s r s'; try (intros [= <- <-]; by left).
  cbn [accept_loop]. unfold bind at 1, attempt. pose proof (kept_publish e0 h0 s) as [_ Ha].
  destruct (publish_checked I e0 h0 s) as [[rec|er|] s1] eqn:Epub; cbn [snd] in Ha; [| |done].
  - unfold bind at 1, modify. unfold bind at 1. destruct (replace_cursor cursors (ef_after e0)) as [c|]; cbn [lift ret raise]; [|done].
    intros Hrun e h x Hin. destruct (IH _ _ _ _ _ _ Hrun e h x Hin) as [Hold|Hnew]; [|right; by apply row_made_tail].
    cbn in Hold. rewrite Ha, elem_of_app, list_elem_of_singleton in Hold. destruct Hold as [?|[= -> -> ->]]; [by left|].
    right. left. exists n. by left.
  - unfold bind at 1. pose proof (kept_compensate e0 h0 n er s1) as [_ Hc].
    destruct (compensate I shown e0 h0 n er s1) as [[[cleanup [[[h'|] m] err]]|er'|] s2] eqn:Ec; cbn [snd] in Hc; [| |done..].
    + intros Hrun e h x Hin. destruct (IH _ _ _ _ _ _ Hrun e h x Hin) as [Hold|Hnew]; [left; by rewrite Hc, Ha in Hold|].
      right. eapply row_made_cons; [|exact Hnew]. right. by eapply compensate_made.
    + case_bool_decide; [|by intros ?%abandon_never_returns]. unfold bind, modify.
      destruct cleanup; [|by intros ?%abandon_never_returns]. intros Hrun e h x Hin.
      destruct (IH _ _ _ _ _ _ Hrun e h x Hin) as [Hold|Hnew]; [left; cbn in Hold; by rewrite Hc, Ha in Hold|].
      right. by apply row_made_tail.
Qed.

(** What an accepted transaction publishes was prepared before, or by a retry with
    the cursors shown now. *)
Lemma accept_made t w rep t' w' : accept I shown (t, w) = (Returned rep, (t', w')) → tx_accepted t = [] →
  ∀ e h x, (e, h, x) ∈ tx_accepted t' → row_made (tx_prepared t) e h.
Proof.
  unfold accept. unfold bind at 1, get. cbn [fst snd]. destruct (negb _); [done|]. unfold bind at 1, modify. unfold bind at 1. cbn [fst snd].
  destruct (accept_loop _ _ _ _ _ _ _) as [[r|er|] [t1 w1]] eqn:E; [|done..]. intros [= <- <- <-] Ht e h x Hin. cbn in Hin.
  destruct (accept_loop_made _ _ _ _ _ _ _ E e h x Hin) as [Hold|?]; [|done]. cbn in Hold. rewrite Ht in Hold. by apply elem_of_nil in Hold.
Qed.
End Prepared.
