(* ===== verification/ConsumerRuntime.v ===== *)
(** * Firing consumers at an accepted step

    [python/pops/runtime/_runtime_instance.py]: the moments of the clocks, the
    transactions that stage their effects, acceptance, compensation and release,
    and the step envelope in which they happen.  One transaction per clock. *)
From Stdlib Require Import SpecFloat.
From S2P Require Import Prelude SortedKeys Binary64 HexFloat Scalar Manifest StepStrategy StepTransaction Temporal Points EveryDt Schedule Consumers ConsumerPlanning ConsumerTransaction.

Local Open Scope method_scope.

(** ** Moments *)

(** [_moments]: one per clock of the graph, in the order of the clock hashes; the
    accepted envelope holds the cursors of the clocks, and [ConsumerMoment] checks
    the values it is given. *)
Definition clock_moment (digest : json → string) (st : state) (accepted_step attempt : Z) (at_start at_end : bool)
    (clock : Clock) : res ConsumerMoment :=
  cursor ← cursor_for_clock st (qualified_id digest clock);
  _ ← require ((0 <=? accepted_step) && (0 <=? attempt) && (0 <=? cc_tick cursor)) TypeError;
  _ ← require (is_finite (cc_time cursor) && negb (fltb (cc_time cursor) (SpecFloat.S754_zero false))) ValueError;
  Ok (CMoment (MkTime clock (Literal (PInteger 0) None None None) (cc_tick cursor))
        (Moment accepted_step attempt (hex (cc_time cursor)) (cc_tick cursor) accepted_step None None [] at_start at_end)).
Definition moments (digest : json → string) (g : graph) (st : state) (accepted_step attempt : Z) (at_start at_end : bool)
    : res (list ConsumerMoment) :=
  let clocks := remove_dups (map cm_clock (gr_nodes g)) in
  map_res (fun row => clock_moment digest st accepted_step attempt at_start at_end row.2)
    (sort_keys (map (fun c => (qualified_id digest c, c)) clocks)).

(** ** The checkpoint of an accepted step *)

(** The guards of [_stage_consumers], and the cursors a checkpoint will record. *)
Definition checkpoint_override (g : graph) (cursors : cursor_set) (effects : list AcceptedSideEffect) : res (option cursor_set) :=
  let checkpoint_ids := map cm_id (List.filter (fun m => bool_decide (cm_kind m = CHECKPOINT)) (gr_nodes g)) in
  let is_checkpoint := fun e => bool_decide (ef_consumer e ∈ checkpoint_ids) in
  match List.filter is_checkpoint effects with
  | [] => Ok None
  | checkpoints =>
      _ ← require ((length checkpoints =? 1)%nat && match last effects with Some e => is_checkpoint e | None => false end) ValueError;
      _ ← require (negb (existsb (fun e => bool_decide (ef_action e = SkipSampleReported)) effects)) ValueError;
      predicted ← commit_cursors cursors effects;
      Ok (Some predicted)
  end.

Section Runtime.
Context {W H R : Type} `{!EqDecision R} `{!Publisher W H R} (I : identities) (repr : float → decimal) (digest : json → string).

Notation transaction := (@transaction H R).

(** The identity of a quarantine authority, [None] for another object. *)
Context (recovery_id : R → option string).

(** ** Recoveries *)

Definition registry : Type := list (string * (R * option nat)).

(** One authority in [_retain_consumer_recoveries]. *)
Definition retain_authority (index : option nat) (acc : registry * list diagnostic) (r : R) : registry * list diagnostic :=
  let '(reg, failures) := acc in
  match recovery_id r with
  | None => (reg, failures ++ [RecoveryRefused])
  | Some id =>
      match dget id reg with
      | Some (existing, _) => (reg, if bool_decide (existing = r) then failures else failures ++ [RecoveryRefused])
      | None => (dset id (r, index) reg, failures)
      end
  end.
Definition retain_consumer_recoveries (reg : registry) (recoveries : list R) (index : option nat) : registry * list diagnostic :=
  fold_left (retain_authority index) recoveries (reg, []).

(** ** The runtime *)

(** [_PendingConsumerFinalization] *)
Record pending_finalization := Pending { pf_transaction : transaction; pf_index : nat; pf_base : list diagnostic }.

(** What [RuntimeInstance] keeps for its consumers. *)
Record runtime := Runtime {
  ru_plan : RuntimePlan; ru_graph : graph; ru_attempt : Z; ru_cursors : cursor_set; ru_reports : list report;
  ru_pending : list pending_finalization; ru_registry : registry; ru_override : option cursor_set }.

Definition set_ru_cursors c r := Runtime (ru_plan r) (ru_graph r) (ru_attempt r) c (ru_reports r) (ru_pending r) (ru_registry r) (ru_override r).
Definition set_ru_attempt a r := Runtime (ru_plan r) (ru_graph r) a (ru_cursors r) (ru_reports r) (ru_pending r) (ru_registry r) (ru_override r).
Definition set_ru_reports l r := Runtime (ru_plan r) (ru_graph r) (ru_attempt r) (ru_cursors r) l (ru_pending r) (ru_registry r) (ru_override r).
Definition set_ru_pending p r := Runtime (ru_plan r) (ru_graph r) (ru_attempt r) (ru_cursors r) (ru_reports r) p (ru_registry r) (ru_override r).
Definition set_ru_registry g r := Runtime (ru_plan r) (ru_graph r) (ru_attempt r) (ru_cursors r) (ru_reports r) (ru_pending r) g (ru_override r).
Definition set_ru_override o r := Runtime (ru_plan r) (ru_graph r) (ru_attempt r) (ru_cursors r) (ru_reports r) (ru_pending r) (ru_registry r) o.

(** The cursors a checkpoint writer reads:
    [self._checkpoint_cursor_override or self._consumer_cursors]. *)
Definition shown_cursors (r : runtime) : cursor_set := default (ru_cursors r) (ru_override r).

Definition get_runtime : M (runtime * W) runtime := fun s => (Returned s.1, s).
Definition update (f : runtime → runtime) : M (runtime * W) unit := fun s => (Returned tt, (f s.1, s.2)).
Definition update_world (f : W → W) : M (runtime * W) unit := fun s => (Returned tt, (s.1, f s.2)).

(** A method of a transaction; the object changes even when it raises. *)
Definition on {A} (m : M (transaction * W) A) (t : transaction) : M (runtime * W) (transaction * (A + option error)) :=
  fun s => match m (t, s.2) with
           | (Returned a, (t, w)) => (Returned (t, inl a), (s.1, w))
           | (Raised e, (t, w)) => (Returned (t, inr (Some e)), (s.1, w))
           | (Interrupted, (t, w)) => (Returned (t, inr None), (s.1, w))
           end.

(** Raises again what was caught; [None] is an interruption. *)
Definition reraise {A} (e : option error) : M (runtime * W) A := match e with Some e => raise e | None => interrupt end.

(** [_retain_consumer_recoveries] of a transaction. *)
Definition retain_from (t : transaction) (index : option nat) : M (runtime * W) (list diagnostic) :=
  r <- get_runtime;
  let '(reg, failures) := retain_consumer_recoveries (ru_registry r) (tx_recoveries t) index in
  _ <- update (set_ru_registry reg);
  ret failures.

(** [_abort_consumers] on the reversed transactions: the first failure. *)
Fixpoint abort_all (ts : list transaction) (failure : option (option error)) : M (runtime * W) (option (option error)) :=
  match ts with
  | [] => ret failure
  | t :: ts =>
      r <- on (abort I) t;
      let failure := match failure, r.2 with None, inr e => Some e | _, _ => failure end in
      refused <- retain_from r.1 None;
      abort_all ts (match failure, refused with None, _ :: _ => Some (Some (Exn RuntimeError)) | _, _ => failure end)
  end.
Definition abort_consumers (ts : list transaction) : M (runtime * W) (option (option error)) := abort_all (reverse ts) None.

(** The [except BaseException] around the transactions. *)
Definition compensate_all {A} (ts : list transaction) (error : option error) : M (runtime * W) A :=
  cleanup <- abort_consumers ts;
  match cleanup with Some e => reraise e | None => reraise error end.

(** The constructor of one transaction; the publisher sees the runtime. *)
Definition construct (p : EffectPlan) : M (runtime * W) transaction := fun s =>
  match new_transaction I (shown_cursors s.1) p (ru_cursors s.1) s.2 with
  | (Returned t, w) => (Returned t, (s.1, w))
  | (Raised e, w) => (Raised e, (s.1, w))
  | (Interrupted, w) => (Interrupted, (s.1, w))
  end.

(** The staging loop of [_stage_consumers]. *)
Fixpoint stage_all (plans : list EffectPlan) (staged : list transaction) : M (runtime * W) (list transaction) :=
  match plans with
  | [] => _ <- update (set_ru_override None); ret staged
  | p :: plans =>
      r <- attempt_all (construct p);
      match r with
      | inl t => stage_all plans (staged ++ [t])
      | inr e => res <- attempt_all (compensate_all staged e);
                 _ <- update (set_ru_override None);
                 match res with inl ts => ret ts | inr e => reraise e end
      end
  end.

(** [_stage_consumers] on the moments of the step. *)
Definition stage_consumers (ms : list ConsumerMoment) : M (runtime * W) (list transaction) :=
  r <- get_runtime;
  plans <- lift (map_res (fun mo => plan_accepted_side_effects I repr (ru_plan r) (ru_graph r) mo (ru_cursors r)) ms);
  let plans := List.filter (fun p => negb (bool_decide (length (ep_effects p) = 0%nat))) plans in
  override <- lift (checkpoint_override (ru_graph r) (ru_cursors r) (concat (map ep_effects plans)));
  _ <- update (match override with Some o => set_ru_override (Some o) | None => id end);
  stage_all plans [].

(** The [accept] of every transaction; those already accepted keep their state
    when a later one raises. *)
Fixpoint accept_all (ts : list transaction) : M (runtime * W) (list transaction * (list report + option error)) :=
  match ts with
  | [] => ret ([], inl [])
  | t :: ts =>
      rt <- get_runtime;
      r <- on (accept I (shown_cursors rt)) t;
      match r.2 with
      | inr e => ret (r.1 :: ts, inr e)
      | inl rep =>
          rest <- accept_all ts;
          ret (r.1 :: rest.1, match rest.2 with inl reps => inl (rep :: reps) | inr e => inr e end)
      end
  end.

(** The cursor updates of [_accept_consumers]. *)
Definition apply_updates (cursors : cursor_set) (ts : list transaction) : res cursor_set :=
  fold_res (fun c t => updates ← cursor_updates t; fold_res replace_cursor c updates) cursors ts.

(** [_consumer_seal_diagnostics]: the sealed transaction and what it reports. *)
Definition consumer_seal (t : transaction) : M (runtime * W) (transaction * list diagnostic) :=
  r <- on seal t; ret (r.1, match r.2 with inl ds => ds | inr e => [SealOf (error_kind <$> e)] end).

Definition with_diagnostics (rep : report) (ds : list diagnostic) : report :=
  Report (rt_status rep) (rt_cursors rep) (rt_staged rep) (rt_published rep) (rt_skipped rep) (rt_rolled_back rep) ds.

(** One owner sealed: its diagnostics and whether it stays pending. *)
Definition seal_owner (t : transaction) (index : nat) : M (runtime * W) (transaction * list diagnostic) :=
  r <- consumer_seal t;
  refused <- retain_from r.1 (Some index);
  ret (r.1, r.2 ++ refused).
Definition still_pending (t : transaction) (ds : list diagnostic) : bool :=
  negb (bool_decide (length ds = 0%nat)) || negb (bool_decide (length (tx_finalize t) = 0%nat)).

(** The loop of [_seal_consumer_reports]. *)
Fixpoint seal_all (rows : list (transaction * report)) (index : nat)
    : M (runtime * W) (list report * list pending_finalization) :=
  match rows with
  | [] => ret ([], [])
  | (t, rep) :: rows =>
      r <- seal_owner t index;
      rest <- seal_all rows (S index);
      ret (with_diagnostics rep (rt_diagnostics rep ++ r.2) :: rest.1,
           (if still_pending r.1 r.2 then [Pending r.1 index (rt_diagnostics rep)] else []) ++ rest.2)
  end.
Definition seal_consumer_reports (ts : list transaction) (reports : list report) : M (runtime * W) (list report) :=
  r <- get_runtime;
  sealed <- seal_all (zip ts reports) (length (ru_reports r));
  _ <- update (set_ru_pending (ru_pending r ++ sealed.2));
  ret sealed.1.

(** [_retry_consumer_finalizers] *)
Fixpoint retry_all (owners : list pending_finalization) (reports : list report)
    : M (runtime * W) (list report * list pending_finalization * list diagnostic) :=
  match owners with
  | [] => ret (reports, [], [])
  | o :: owners =>
      r <- seal_owner (pf_transaction o) (pf_index o);
      let '(reports, extra) := match reports !! pf_index o with
                               | Some rep => (<[pf_index o := with_diagnostics rep (pf_base o ++ r.2)]> reports, [])
                               | None => (reports, [LostReport]) end in
      rest <- retry_all owners reports;
      ret (rest.1.1, (if still_pending r.1 (r.2 ++ extra) then [Pending r.1 (pf_index o) (pf_base o)] else []) ++ rest.1.2,
           r.2 ++ rest.2)
  end.
Definition retry_consumer_finalizers : M (runtime * W) (list diagnostic) :=
  r <- get_runtime;
  res <- retry_all (ru_pending r) (ru_reports r);
  _ <- update (fun r => set_ru_pending res.1.2 (set_ru_reports res.1.1 r));
  ret res.2.

(** The acceptance both callers share: the sealed reports of the transactions. *)
Definition accept_consumers (ts : list transaction) : M (runtime * W) (list transaction * (list report * cursor_set + option error)) :=
  r <- get_runtime;
  acc <- accept_all ts;
  ret (acc.1, match acc.2 with
              | inr e => inr e
              | inl reps => match apply_updates (ru_cursors r) acc.1 with Ok c => inl (reps, c) | Err e => inr (Some (Exn e)) end
              end).

Definition publish_reports (ts : list transaction) (reps : list report) (cursors : cursor_set) : M (runtime * W) unit :=
  sealed <- seal_consumer_reports ts reps;
  _ <- update (set_ru_cursors cursors);
  _ <- update (fun r => set_ru_reports (ru_reports r ++ sealed) r);
  _ <- retry_consumer_finalizers;
  ret tt.

(** [_fire_consumers] *)
Definition fire_consumers (ms : list ConsumerMoment) : M (runtime * W) (list report) :=
  _ <- retry_consumer_finalizers;
  ts <- stage_consumers ms;
  acc <- accept_consumers ts;
  match acc.2 with
  | inr e => compensate_all acc.1 e
  | inl (reps, cursors) =>
      r <- get_runtime;
      _ <- publish_reports acc.1 reps cursors;
      r' <- get_runtime;
      ret (drop (length (ru_reports r)) (ru_reports r'))
  end.

(** ** The step envelope *)

(** The last report of the executor, by identity and content; [None] is [None]. *)
Definition report_object : Type := nat * StepTransaction.report.

(** The engine and the Python attributes of the executor the envelope saves: the
    native step-transaction protocol, the controller that advances, the accepted
    temporal envelope, the step controller and [_last_step_transaction_report], which
    may be set to an object that exists or to a new one; and the values of the stores
    of [_step_transaction_plan]. *)
Class StepEngine (E : Type) := {
  se_begin : W → outcome unit * W;
  se_advance : W → outcome Z * W;
  se_commit : W → outcome unit * W;
  se_finalize : W → outcome unit * W;
  se_rollback : W → outcome unit * W;
  se_temporal : W → option state;
  se_macro_step : W → Z;
  se_controller : W → E;
  se_restore : option state → E → W → W;
  se_set_stats : stats → W → W;
  se_last : W → option report_object;
  se_set_last : option report_object → W → W;
  se_new_report : StepTransaction.report → W → W;
  se_stores : W → list string }.

Context `{!StepEngine E}.

(** [str(error)]; [None] is an interruption. *)
Context (error_text : option error → string).

Definition native {A} (op : W → outcome A * W) : M (runtime * W) A := fun s => let '(r, w) := op s.2 in (r, (s.1, w)).

Definition step_moments (at_end : bool) : M (runtime * W) (list ConsumerMoment) := fun s =>
  let '(r, w) := s in
  match se_temporal w with
  | None => if bool_decide (length (gr_nodes (ru_graph r)) = 0%nat) then (Returned [], s) else (Raised (Exn RuntimeError), s)
  | Some st => lift (moments digest (ru_graph r) st (se_macro_step w) (ru_attempt r) false at_end) s
  end.

(** The attempts are counted and the consumers of the new moments staged. *)
Definition stage_step (attempts : Z) (at_end : bool) : M (runtime * W) (list transaction) :=
  _ <- update (fun r => set_ru_attempt (ru_attempt r + attempts) r);
  ms <- step_moments at_end;
  stage_consumers ms.

(** [_restore_unsuccessful_attempt_stats] on one temporal envelope: the counters
    the restored envelope shall have, if any. *)
Definition unsuccessful_stats (accepted failed restored : option state) : res (option stats) :=
  match accepted, failed with
  | Some a, Some f =>
      match restored with
      | None => Err RuntimeError
      | Some r =>
          let counter := fun get : stats → Z =>
            _ ← require ((0 <=? get (st_stats a)) && (0 <=? get (st_stats f)) && (0 <=? get (st_stats r))) RuntimeError;
            _ ← require (negb (get (st_stats f) <? get (st_stats a))) RuntimeError;
            Ok (get (st_stats r) + get (st_stats f) - get (st_stats a)) in
          rejected ← counter sa_rejected;
          failures ← counter sa_failed;
          Ok (Some (Stats (sa_accepted (st_stats r)) rejected failures))
      end
  | _, _ => Ok None
  end.
Definition restore_unsuccessful_attempt_stats (accepted failed : option state) (w : W) : W :=
  match unsuccessful_stats accepted failed (se_temporal w) with Ok (Some n) => se_set_stats n w | _ => w end.

(** [_restore_step_envelope] on the runtime. *)
Definition restore_runtime (r0 r : runtime) : runtime :=
  set_ru_override (ru_override r0) (set_ru_attempt (ru_attempt r0) (set_ru_cursors (ru_cursors r0) (set_ru_reports (ru_reports r0) r))).

(** [failure_report is snapshot[...]] *)
Definition same_object (a b : option report_object) : bool :=
  match a, b with
  | None, None => true
  | Some (i, _), Some (j, _) => (i =? j)%nat
  | _, _ => false
  end.

(** The report built for a step that fails in [phase] after [attempts]; [None] when the
    report the attempt left is kept. *)
Definition failure_report (phase : string) (attempts : Z) (before left : option report_object) (stores : list string)
    (text : string) : option (res StepTransaction.report) :=
  let stale := same_object left before in
  if stale || bool_decide (phase ∈ ["effect"; "commit"])
  then Some (mk_report (StepTransaction.Report ReportFailed phase "fail_run" attempts stores [] stores [text]
               (if stale then [] else match left with Some (_, rep) => rp_projections rep | None => [] end)))
  else None.

(** The [except BaseException] before native finalization: effects, engine and
    envelope are withdrawn, in this order, but for the counters of unsuccessful
    attempts; the last report then says what failed. *)
Definition withdraw {A} (r0 : runtime) (w0 : W) (phase : string) (attempts : Z) (ts : list transaction) (error : option error)
    : M (runtime * W) A :=
  failed <- (fun s => (Returned (se_temporal s.2), s));
  left <- (fun s => (Returned (se_last s.2), s));
  cleanup <- abort_consumers ts;
  _ <- attempt_all (native se_rollback);
  _ <- update (restore_runtime r0);
  _ <- update_world (fun w => restore_unsuccessful_attempt_stats (se_temporal w0) failed
                                (se_set_last (se_last w0) (se_restore (se_temporal w0) (se_controller w0) w)));
  stores <- (fun s => (Returned (se_stores s.2), s));
  _ <- match failure_report phase attempts (se_last w0) left stores (error_text error) with
       | Some (Ok rep) => update_world (se_new_report rep)
       | Some (Err x) => raise (Exn x)
       | None => match left with Some _ => update_world (se_set_last left) | None => ret tt end
       end;
  match cleanup with Some e => reraise e | None => reraise error end.

(** One statement of the [try] block; [fail] is its [except]. *)
Definition guarded {A B} (m : M (runtime * W) A) (fail : option error → M (runtime * W) B) (k : A → M (runtime * W) B)
    : M (runtime * W) B :=
  r <- attempt_all m;
  match r with inl a => k a | inr e => fail e end.

(** The [try] block from [commit] on. *)
Definition commit_step (r0 : runtime) (w0 : W) (attempts : Z) (ts : list transaction) : M (runtime * W) Z :=
  guarded (native se_commit) (withdraw r0 w0 "commit" attempts ts) (fun _ =>
  acc <- accept_consumers ts;
  match acc.2 with
  | inr e => withdraw r0 w0 "effect" attempts acc.1 e
  | inl (reps, cursors) =>
      guarded (native se_finalize) (withdraw r0 w0 "commit" attempts acc.1) (fun _ =>
      _ <- publish_reports acc.1 reps cursors;
      ret attempts)
  end).

(** [_accepted_step_transaction_body], without a [before_begin] hook. *)
Definition accepted_step (at_end : bool) : M (runtime * W) Z :=
  _ <- retry_consumer_finalizers;
  s0 <- (fun s => (Returned s, s));
  let '(r0, w0) := s0 in
  guarded (native se_begin) (withdraw r0 w0 "prepare" 1 []) (fun _ =>
  guarded (native se_advance) (withdraw r0 w0 "solve" 1 []) (fun attempts =>
  guarded (if 0 <? attempts then ret tt else raise (Exn RuntimeError)) (withdraw r0 w0 "solve" attempts []) (fun _ =>
  guarded (stage_step attempts at_end) (withdraw r0 w0 "effect" attempts []) (commit_step r0 w0 attempts)))).
End Runtime.
