(* ===== verification/ConsumerStep.v ===== *)
(** * A step fires its consumers as one transaction

    The transactions of several clocks share one world.  Each owns its
    publications, whatever it does touches them alone, and together they are
    withdrawn or kept: the firing of consumers and the step envelope are atomic. *)
From S2P Require Import Prelude SortedKeys Scalar Manifest EveryDt Consumers ConsumerPlanning ConsumerTransaction ConsumerAtomic ConsumerPrepared ConsumerRuntime.

Section Group.
Context {W H R : Type} `{!EqDecision H} `{!EqDecision R} `{!Publisher W H R} (I : identities) (art : W → H → artifact).
Context `{!PublisherLaws I art}.

Notation transaction := (@transaction H R).

(** ** One transaction in a shared world *)

(** The publications a transaction holds, and the world without them. *)
Definition own (t : transaction) : list H := handles (tx_prepared t) ++ handles (tx_accepted t).
Definition base (w : W) (X : list H) (h : H) : artifact := if bool_decide (h ∈ X) then Absent else art w h.

Definition live_staged (cursors : cursor_set) (p : EffectPlan) (t : transaction) (w : W) : Prop :=
  staged I art (base w (own t)) p cursors t w.
Definition live_accepted (cursors : cursor_set) (p : EffectPlan) (rep : report) (t : transaction) (w : W) : Prop :=
  published_all I art (base w (own t)) p cursors rep t w.
Definition dead (t : transaction) : Prop := own t = [] ∧ (tx_state t = IsFailed ∨ tx_state t = IsRejected).
Definition alive (cursors : cursor_set) (t : transaction) (w : W) : Prop :=
  (∃ p, live_staged cursors p t w) ∨ (∃ p rep, live_accepted cursors p rep t w) ∨ dead t.

Lemma owns_rebase a0 w w' T V L :
  owns art a0 w T V L → (∀ h, h ∈ T ++ V → art w' h = art w h) → owns art (base w' (T ++ V)) w' T V [].
Proof.
  intros [H1 H2 H3 H4 H5] Hsame. unfold base. split; [done| | | |].
  - intros h Hh. rewrite Hsame; [auto|]. apply elem_of_app. by left.
  - intros h Hh. rewrite Hsame; [auto|]. apply elem_of_app. by right.
  - intros h Hh. rewrite app_nil_r in Hh. by rewrite bool_decide_true.
  - intros h Hh. rewrite app_nil_r in Hh. by rewrite bool_decide_false.
Qed.

Lemma staged_rebase a0 w w' cursors p t : staged I art a0 p cursors t w → (∀ h, h ∈ own t → art w' h = art w h) →
  live_staged cursors p t w'.
Proof.
  intros [[H1 H2 H3 H4 H5 H6] Hst] Hsame. unfold live_staged. split; [|done]. split; try done.
  unfold own in *. rewrite H3 in *. by eapply owns_rebase.
Qed.

Lemma accepted_rebase a0 w w' cursors p rep t : published_all I art a0 p cursors rep t w →
  (∀ h, h ∈ own t → art w' h = art w h) → live_accepted cursors p rep t w'.
Proof.
  intros (H1 & H2 & H3 & H4 & H5 & H6 & Ho & H7 & H8 & H9 & H10) Hsame. unfold live_accepted, published_all. split_and!; try done.
  unfold own in *. rewrite H3 in *. by eapply (owns_rebase a0 w w' [] (handles (tx_accepted t)) []).
Qed.

Lemma alive_frame cursors t w w' : alive cursors t w → (∀ h, h ∈ own t → art w' h = art w h) → alive cursors t w'.
Proof.
  intros [[p Hs]|[(p & rep & Hs)|Hd]] Hsame.
  - left. exists p. by eapply staged_rebase.
  - right. left. exists p, rep. by eapply accepted_rebase.
  - by right; right.
Qed.

(** What it owns is there, once. *)
Lemma alive_owns cursors t w : alive cursors t w → NoDup (own t) ∧ ∀ h, h ∈ own t → art w h ≠ Absent.
Proof.
  intros [[p [[H1 H2 H3 Ho H5 H6] _]]|[(p & rep & (H1 & H2 & H3 & _ & _ & _ & Ho & _))|[Hd _]]].
  - unfold own in *. rewrite H3 in *. cbn in *. split; [by apply (ow_nodup _ _ _ _ _ _ Ho)|].
    intros h Hh. rewrite app_nil_r in Hh. by rewrite (ow_temporary _ _ _ _ _ _ Ho).
  - unfold own in *. rewrite H3 in *. split; [by apply (ow_nodup _ _ _ _ _ _ Ho)|]. intros h Hh. by rewrite (ow_visible _ _ _ _ _ _ Ho).
  - rewrite Hd. split; [apply NoDup_nil_2|]. by intros h []%elem_of_nil.
Qed.

(** An operation of the transaction: it replaced what it owned. *)
Definition touches (cursors : cursor_set) (t : transaction) (w : W) (t' : transaction) (w' : W) : Prop :=
  alive cursors t' w' ∧ (∀ h, h ∈ own t' → base w (own t) h = Absent) ∧ ∀ h, h ∉ own t' → art w' h = base w (own t) h.

(** An error after which nothing is left behind. *)
Definition clean (e : error) : Prop :=
  match e with PublicationError _ r => cleanup_count (rt_diagnostics r) = 0%nat | Exn e => e ≠ RuntimeError end.

Lemma undone_touches cursors e t w t' w' : undone art (base w (own t)) cursors e t' w' → clean e → touches cursors t w t' w'.
Proof.
  intros (c & r & L & -> & _ & _ & _ & Hst & Hp & Ha & Ho & Hl) Hc. cbn in Hc. rewrite Hc in Hl.
  destruct L; [|done]. assert (Hown : own t' = []) by (unfold own; by rewrite Hp, Ha).
  unfold touches. rewrite Hown. split_and!; [by right; right; split; [|left]| |].
  - by intros h []%elem_of_nil.
  - intros h Hh. by apply (ow_rest _ _ _ _ _ _ Ho).
Qed.

Lemma accept_touches shown cursors p t w r t' w' : cursors_ok cursors → live_staged cursors p t w → accept I shown (t, w) = (r, (t', w')) →
  match r with
  | Returned rep => touches cursors t w t' w' ∧ live_accepted cursors p rep t' w'
  | Raised e => clean e → touches cursors t w t' w'
  | Interrupted => True
  end.
Proof.
  intros Hok Hs Ha. pose proof (accept_spec I art (base w (own t)) shown p cursors Hok t w Hs) as Hacc. rewrite Ha in Hacc.
  destruct r as [rep|e|]; [|by apply undone_touches|done].
  assert (Hl : live_accepted cursors p rep t' w') by (eapply accepted_rebase; [exact Hacc | done]).
  destruct Hacc as (H1 & H2 & H3 & _ & _ & _ & Ho & _). split; [|done]. split_and!; [by right; left; exists p, rep| |].
  - unfold own at 1. rewrite H3. intros h Hh. apply (ow_before _ _ _ _ _ _ Ho). by rewrite app_nil_r.
  - unfold own at 1. rewrite H3. intros h Hh. apply (ow_rest _ _ _ _ _ _ Ho). by rewrite app_nil_r.
Qed.

Lemma abort_touches cursors t w r t' w' : alive cursors t w → abort I (t, w) = (r, (t', w')) →
  match r with
  | Returned _ => touches cursors t w t' w' ∧ dead t'
  | Raised e => ¬ clean e
  | Interrupted => True
  end.
Proof.
  intros Hal Ha.
  assert (Hcase : dead t ∨ match abort I (t, w) with
    | (Returned a, (t', w')) => ∃ rep, a = Some rep ∧ withdrawn art (base w (own t)) cursors rep t' w'
    | (Raised e, (t', w')) => undone_dirty art (base w (own t)) cursors e t' w'
    | (Interrupted, _) => True end).
  { destruct Hal as [[p Hs]|[(p & rep & Hs)|Hd]]; [right|right|by left].
    - apply (abort_spec I art (base w (own t)) (staged I art (base w (own t)) p cursors)); [|done]. left.
      split; [by apply reject_spec|]. by intros ? ? [_ ?].
    - apply (abort_spec I art (base w (own t)) (published_all I art (base w (own t)) p cursors rep)); [|done]. right.
      split; [by apply rollback_spec|]. by intros ? ? [? _]. }
  destruct Hcase as [Hd|Hspec].
  - destruct Hd as [Hown Hst]. assert (Hr : r = Returned None ∧ t' = t ∧ w' = w).
    { unfold abort, bind, get, ret in Ha. cbn in Ha. destruct Hst as [Hst|Hst]; rewrite Hst in Ha; by injection Ha as <- <- <-. }
    destruct Hr as (-> & -> & ->). split; [|by split]. unfold touches. rewrite Hown. split_and!; [by right; right; split| |].
    + by intros h []%elem_of_nil.
    + done.
  - rewrite Ha in Hspec. destruct r as [a|e|]; [| |done].
    + destruct Hspec as (rep & -> & H1 & H2 & H3 & H4 & Ho & Hp & Hacc).
      assert (Hown : own t' = []) by (unfold own; by rewrite Hp, Hacc). assert (Hd : dead t') by (split; [done | by right]).
      split; [|done]. unfold touches. rewrite Hown. split_and!; [by right; right|by intros h []%elem_of_nil|].
      intros h Hh. by apply (ow_rest _ _ _ _ _ _ Ho).
    + destruct Hspec as [_ Hdirty]. destruct e as [e|c rep]; cbn in *; [done | lia].
Qed.

(** ** Several transactions *)

(** Everything the transactions own was absent at the beginning, and everything
    else is as it was. *)
Record group (cursors : cursor_set) (a0 : H → artifact) (ts : list transaction) (w : W) : Prop := {
  gr_nodup : NoDup (concat (map own ts));
  gr_before : ∀ h, h ∈ concat (map own ts) → a0 h = Absent;
  gr_rest : ∀ h, h ∉ concat (map own ts) → art w h = a0 h;
  gr_alive : Forall (fun t => alive cursors t w) ts }.

Lemma concat_own l1 t l2 : concat (map own (l1 ++ t :: l2)) ≡ₚ own t ++ concat (map own (l1 ++ l2)).
Proof. rewrite !map_app, !concat_app. cbn. rewrite !(assoc_L app). by rewrite (Permutation_app_comm (own t)). Qed.

Lemma concat_elem t ts h : t ∈ ts → h ∈ own t → h ∈ concat (map own ts).
Proof. rewrite !list_elem_of_In. intros Ht Hh. apply in_concat. exists (own t). split; [by apply in_map | done]. Qed.

(** The others do not see what one transaction does. *)
Lemma touches_others cursors a0 l1 t l2 w t' w' :
  group cursors a0 (l1 ++ t :: l2) w → touches cursors t w t' w' →
  ∀ h, h ∈ concat (map own (l1 ++ l2)) → h ∉ own t' ∧ art w' h = art w h.
Proof.
  intros [Hn _ _ Hal] (_ & Habs & Hrest) h Hh. rewrite concat_own in Hn. apply NoDup_app in Hn as (_ & Hdis & _).
  assert (Hht : h ∉ own t) by (intros Hin; by apply (Hdis h)).
  assert (Hne : art w h ≠ Absent).
  { rewrite list_elem_of_In, in_concat in Hh. destruct Hh as (x & (s & <- & Hs)%in_map_iff & Hx).
    rewrite Forall_forall in Hal. apply (alive_owns cursors s w); [|by apply list_elem_of_In]. apply Hal.
    rewrite <- list_elem_of_In in Hs. rewrite elem_of_app in Hs. set_solver. }
  assert (Hb : base w (own t) h = art w h) by (unfold base; by rewrite bool_decide_false).
  assert (Hh' : h ∉ own t') by (intros Hin; apply Hne; rewrite <- Hb; by apply Habs).
  split; [done|]. by rewrite Hrest.
Qed.

Lemma group_step cursors a0 l1 t l2 w t' w' :
  group cursors a0 (l1 ++ t :: l2) w → touches cursors t w t' w' → group cursors a0 (l1 ++ t' :: l2) w'.
Proof.
  intros Hg Ht. pose proof (touches_others _ _ _ _ _ _ _ _ Hg Ht) as Hoth. destruct Hg as [Hn Hb Hr Hal], Ht as (Hal' & Habs & Hrest).
  rewrite concat_own in Hn. apply NoDup_app in Hn as (Hn1 & Hdis & Hn2).
  assert (Hbt : ∀ h, h ∈ own t → a0 h = Absent) by (intros h Hh; apply Hb; rewrite concat_own, elem_of_app; by left).
  assert (Hbo : ∀ h, h ∈ concat (map own (l1 ++ l2)) → a0 h = Absent) by (intros h Hh; apply Hb; rewrite concat_own, elem_of_app; by right).
  assert (Hro : ∀ h, h ∉ own t → h ∉ concat (map own (l1 ++ l2)) → art w h = a0 h).
  { intros h H1 H2. apply Hr. rewrite concat_own, elem_of_app. tauto. }
  assert (Hbase : ∀ h, h ∉ concat (map own (l1 ++ l2)) → base w (own t) h = a0 h).
  { intros h Hh. unfold base. case_bool_decide as Hin; [symmetry; auto | auto]. }
  split.
  - rewrite concat_own. apply NoDup_app. split_and!; [by apply (alive_owns _ _ _ Hal')| |done]. intros h Hh Hin. by apply (Hoth h).
  - intros h. rewrite concat_own, elem_of_app. intros [Hh|Hh]; [|auto]. rewrite <- Hbase; [auto|]. intros Hin. by apply (Hoth h).
  - intros h. rewrite concat_own, elem_of_app. intros Hh. rewrite Hrest by tauto. apply Hbase. tauto.
  - rewrite Forall_forall in *. intros s. rewrite elem_of_app, elem_of_cons. intros Hs.
    assert (Hcase : s = t' ∨ s ∈ l1 ++ l2) by (rewrite elem_of_app; tauto). destruct Hcase as [->|Hin]; [done|].
    eapply alive_frame; [apply Hal; rewrite elem_of_app, elem_of_cons; rewrite elem_of_app in Hin; tauto|].
    intros h Hh. apply Hoth. by eapply concat_elem.
Qed.

(** A dead transaction can be forgotten. *)
Lemma group_drop cursors a0 l1 t l2 w : group cursors a0 (l1 ++ t :: l2) w → dead t → group cursors a0 (l1 ++ l2) w.
Proof.
  intros [Hn Hb Hr Hal] [Hown _].
  assert (Hp : concat (map own (l1 ++ t :: l2)) ≡ₚ concat (map own (l1 ++ l2))) by (rewrite concat_own, Hown; done).
  split.
  - by rewrite <- Hp.
  - intros h. rewrite <- Hp. auto.
  - intros h. rewrite <- Hp. auto.
  - rewrite Forall_forall in *. intros s Hs. apply Hal. rewrite elem_of_app, elem_of_cons. rewrite elem_of_app in Hs. tauto.
Qed.

(** Nothing owned, nothing changed. *)
Lemma group_nil cursors a0 w : group cursors a0 [] w ↔ ∀ h, art w h = a0 h.
Proof.
  split; [intros [_ _ Hr _] h; apply Hr, not_elem_of_nil|]. intros Hr. split; cbn; [apply NoDup_nil_2|by intros h []%elem_of_nil|auto|constructor].
Qed.

(** A new transaction joins. *)
Lemma group_new shown cursors a0 ts w p t w' :
  group cursors a0 ts w → new_transaction I shown p cursors w = (Returned t, w') →
  group cursors a0 (ts ++ [t]) w' ∧ live_staged cursors p t w'
  ∧ ∀ h, h ∈ concat (map own ts) → art w' h = art w h.
Proof.
  intros [Hn Hb Hr Hal] Hnew. pose proof (new_transaction_spec (R := R) I art (art w) shown p cursors w (fun _ => eq_refl)) as Hs.
  rewrite Hnew in Hs. assert (Hl : live_staged cursors p t w') by (eapply staged_rebase; [exact Hs | done]).
  assert (Hown : own t = handles (tx_prepared t)) by (unfold own; destruct Hs as [[_ _ -> _ _ _] _]; apply app_nil_r).
  destruct Hs as [[_ _ _ Ho _ _] _].
  assert (Habs : ∀ h, h ∈ own t → art w h = Absent).
  { intros h Hh. apply (ow_before _ _ _ _ _ _ Ho). rewrite elem_of_app. left. by rewrite <- Hown. }
  assert (Hout : ∀ h, h ∉ own t → art w' h = art w h).
  { intros h Hh. apply (ow_rest _ _ _ _ _ _ Ho). rewrite !app_nil_r. by rewrite <- Hown. }
  assert (Hne : ∀ h, h ∈ concat (map own ts) → h ∉ own t).
  { intros h Hh Hin. rewrite list_elem_of_In, in_concat in Hh. destruct Hh as (x & (s & <- & Hs)%in_map_iff & Hx).
    rewrite Forall_forall in Hal. apply (proj2 (alive_owns cursors s w (Hal s (proj2 (list_elem_of_In _ _) Hs))) h); [by apply list_elem_of_In|auto]. }
  assert (Hc : concat (map own (ts ++ [t])) = concat (map own ts) ++ own t).
  { rewrite map_app, concat_app. cbn. by rewrite app_nil_r. }
  split_and!; [|done|auto]. split; rewrite ?Hc.
  - apply NoDup_app. split_and!; [done|auto|]. rewrite Hown. pose proof (ow_nodup _ _ _ _ _ _ Ho) as Hnd. by rewrite app_nil_r in Hnd.
  - intros h [Hh|Hh]%elem_of_app; [auto|]. destruct (decide (h ∈ concat (map own ts))); [auto|]. rewrite <- Hr by done. auto.
  - intros h [H1 H2]%not_elem_of_app. rewrite Hout by done. auto.
  - rewrite Forall_app, Forall_singleton. split; [|by left; exists p]. rewrite Forall_forall in *. intros s Hs.
    eapply alive_frame; [by apply Hal|]. intros h Hh. apply Hout, Hne. by eapply concat_elem.
Qed.

Lemma group_ext cursors a0 ts w w' : group cursors a0 ts w → (∀ h, art w' h = art w h) → group cursors a0 ts w'.
Proof.
  intros [Hn Hb Hr Hal] Hw. split; [done|done|intros h Hh; rewrite Hw; auto|].
  eapply Forall_impl; [exact Hal|]. intros t Ht. eapply alive_frame; [exact Ht | auto].
Qed.

Lemma group_perm cursors a0 ts ts' w : group cursors a0 ts w → ts ≡ₚ ts' → group cursors a0 ts' w.
Proof.
  intros [Hn Hb Hr Hal] Hp. assert (Hc : concat (map own ts) ≡ₚ concat (map own ts')).
  { clear Hn Hb Hr Hal. induction Hp as [|x l l' Hp IH|x y l|l1 l2 l3 Hp1 IH1 Hp2 IH2]; cbn; [done|by apply Permutation_app_head| |by etrans].
    rewrite !(assoc_L app). apply Permutation_app_tail, Permutation_app_comm. }
  split.
  - by rewrite <- Hc.
  - intros h. rewrite <- Hc. auto.
  - intros h. rewrite <- Hc. auto.
  - by rewrite <- Hp.
Qed.

(** ** Abortion, staging and acceptance *)

Context (recovery_id : R → option string).

Notation runtime := (@runtime H R).

(** Only the registry of recoveries changed. *)
Definition same_runtime (r r' : runtime) : Prop := r' = set_ru_registry (ru_registry r') r.

(** The override of the cursors shown may have changed too. *)
Definition same_but_shown (r r' : runtime) : Prop := r' = set_ru_override (ru_override r') (set_ru_registry (ru_registry r') r).

Lemma same_runtime_shown r r' : same_runtime r r' → same_but_shown r r'.
Proof. intros ->. by destruct r. Qed.

Lemma same_runtime_refl r : same_runtime r r.
Proof. by destruct r. Qed.
Lemma same_runtime_trans r1 r2 r3 : same_runtime r1 r2 → same_runtime r2 r3 → same_runtime r1 r3.
Proof. unfold same_runtime. intros -> ->. by destruct r1. Qed.

Lemma retain_from_spec (t : transaction) index (r : runtime) (w : W) : ∃ failures r',
  retain_from recovery_id t index (r, w) = (Returned failures, (r', w)) ∧ same_runtime r r'.
Proof.
  unfold retain_from, bind, get_runtime, update, ret. cbn. destruct (retain_consumer_recoveries _ _ _ _) as [reg failures].
  eexists _, _. split; [reflexivity|]. by destruct r.
Qed.

(** A failure that may hide something left behind. *)
Definition bad (f : option (option error)) : Prop :=
  match f with None => False | Some None => True | Some (Some e) => ¬ clean e end.

(** [abort] raises only with a failed cleanup in its report. *)
Lemma cleanup_never_raises h s e s' : discard h s ≠ (Raised e, s') ∧ rollback h s ≠ (Raised e, s').
Proof.
  assert (Hret : ∀ s e s', retain_recoveries h s ≠ (Raised e, s')).
  { intros [t w] e' s1. unfold retain_recoveries, bind, attempt, call. cbn. by destruct (pub_recoveries h w) as [[l|]|e1|]. }
  unfold discard, rollback, bind, attempt, call. split; [destruct (pub_discard h s.2) as [[?|?|] ?]|destruct (pub_rollback h s.2) as [[?|?|] ?]];
    cbn; try done; match goal with |- context [retain_recoveries h ?s1] => pose proof (Hret s1); destruct (retain_recoveries h s1) as [[?|?|] ?] end;
    naive_solver.
Qed.

Lemma cleanup_rows_count {X} (clean : H → M (transaction * W) (list cleanup_failure)) (rows : list (AcceptedSideEffect * H * X)) :
  (∀ h s e s', clean h s ≠ (Raised e, s')) → ∀ s,
  match cleanup_rows I clean rows s with
  | (Returned r, _) => cleanup_count r.2 = length r.2
  | (Raised _, _) => False
  | (Interrupted, _) => True
  end.
Proof.
  intros Hc. induction rows as [|[[e h] x] rows IH]; intros s; cbn [cleanup_rows]; [done|]. unfold bind.
  destruct (clean h s) as [[f|er|] s1] eqn:E; [|by apply Hc in E|done].
  specialize (IH s1). destruct (cleanup_rows I clean rows s1) as [[[a ds]|er|] s2]; try done. cbn in *.
  destruct f; cbn; [done|]. unfold cleanup_count in *. cbn. by rewrite IH.
Qed.

Lemma resolve_raises r (s s' : transaction * W) e : cleanup_count r.2 = length r.2 → resolve_undone I r s = (Raised e, s') → ¬ clean e.
Proof.
  destruct r as [a [|d ds]]; cbn -[cleanup_count]; intros Hc; unfold resolve_undone, bind, modify, get, ret, raise; cbn -[cleanup_count]; [done|].
  intros [= <- <-]. cbn -[cleanup_count]. lia.
Qed.

Lemma undo_raises (m : M (transaction * W) (list string * list diagnostic)) s e s' :
  match m s with (Returned r, _) => cleanup_count r.2 = length r.2 | (Raised _, _) => False | _ => True end →
  bind m (resolve_undone I) s = (Raised e, s') → ¬ clean e.
Proof.
  intros Hm. unfold bind. destruct (m s) as [[r|er|] s1]; [|done|done]. by apply resolve_raises.
Qed.

Lemma loops_count s :
  match discard_staged I s with (Returned r, _) => cleanup_count r.2 = length r.2 | (Raised _, _) => False | _ => True end
  ∧ match rollback_rows I s with (Returned r, _) => cleanup_count r.2 = length r.2 | (Raised _, _) => False | _ => True end.
Proof.
  unfold discard_staged, rollback_rows, bind, get, modify, ret. cbn [fst snd]. split.
  - pose proof (cleanup_rows_count discard (reverse (tx_prepared s.1)) (fun h s e s' => proj1 (cleanup_never_raises h s e s')) s) as Hc.
    by destruct (cleanup_rows I discard (reverse (tx_prepared s.1)) s) as [[r|er|] s1].
  - pose proof (cleanup_rows_count rollback (reverse (tx_accepted s.1)) (fun h s e s' => proj2 (cleanup_never_raises h s e s')) s) as Hc.
    by destruct (cleanup_rows I rollback (reverse (tx_accepted s.1)) s) as [[r|er|] s1].
Qed.

Lemma abort_raises t w e s' : abort I (t, w) = (Raised e, s') → ¬ clean e.
Proof.
  unfold abort. unfold bind at 1, get. cbn [fst snd]. destruct (tx_state t) eqn:Est; try done.
  - assert (E : reject I (t, w) = bind (discard_staged I) (resolve_undone I) (t, w)).
    { unfold reject. unfold bind at 1, get. cbn [fst snd]. by rewrite Est, bool_decide_true. }
    unfold bind. rewrite E. destruct (bind _ _ _) as [[rep|er|] s1] eqn:Eb; try done. intros [= <- <-].
    exact (undo_raises _ _ _ _ (proj1 (loops_count (t, w))) Eb).
  - assert (E : rollback_accepted I (t, w) = bind (rollback_rows I) (resolve_undone I) (t, w)).
    { unfold rollback_accepted. unfold bind at 1, get. cbn [fst snd]. by rewrite Est, bool_decide_true. }
    unfold bind. rewrite E. destruct (bind _ _ _) as [[rep|er|] s1] eqn:Eb; try done. intros [= <- <-].
    exact (undo_raises _ _ _ _ (proj2 (loops_count (t, w))) Eb).
Qed.

Lemma abort_all_spec cursors a0 ts : ∀ failure r w res r' w',
  abort_all I recovery_id ts failure (r, w) = (res, (r', w')) →
  same_runtime r r' ∧ ∃ f, res = Returned f
    ∧ (failure = None ∨ bad failure → f = None ∨ bad f)
    ∧ (f = None → failure = None ∧ (group cursors a0 ts w → ∀ h, art w' h = a0 h)).
Proof.
  induction ts as [|t ts IH]; intros failure r w res r' w'; cbn [abort_all].
  { intros [= <- <- <-]. split; [apply same_runtime_refl|]. exists failure. split_and!; [done|done|].
    intros ->. split; [done|]. intros Hg. by eapply group_nil. }
  unfold bind at 1, on. cbn [fst snd]. destruct (abort I (t, w)) as [o [t1 w1]] eqn:Ea.
  set (caught := match o with Returned a => inl a | Raised e => inr (Some e) | Interrupted => inr None end : option report + option error).
  assert (Hon : (match o with Returned a => (Returned (t1, inl a), (r, w1)) | Raised e => (Returned (t1, inr (Some e)), (r, w1))
                 | Interrupted => (Returned (t1, inr None), (r, w1)) end : outcome (transaction * (option report + option error)) * (runtime * W))
                = (Returned (t1, caught), (r, w1))) by (unfold caught; by destruct o).
  rewrite Hon. cbn [fst snd]. clear Hon.
  set (failure1 := match failure, caught with None, inr e => Some e | _, _ => failure end).
  destruct (retain_from_spec t1 None r w1) as (refused & r1 & Hret & Hr1). unfold bind at 1. rewrite Hret.
  set (failure2 := match failure1, refused with None, _ :: _ => Some (Some (Exn RuntimeError)) | _, _ => failure1 end).
  intros Hrest. destruct (IH failure2 r1 w1 res r' w' Hrest) as (Hr & f & -> & Hbad & Hnone).
  split; [by eapply same_runtime_trans|]. exists f. split_and!; [done| |].
  - intros Hf. apply Hbad. unfold failure2, failure1, caught. destruct Hf as [->|Hf]; [|destruct failure; [by right|done]].
    destruct o as [a|e|]; [|right; cbn; by eapply abort_raises|by right]. destruct refused; [by left|]. right. cbn. by intros [].
  - intros Hf. destruct (Hnone Hf) as [E2 Hgroup]. unfold failure2, failure1, caught in E2.
    destruct failure as [?|]; [by destruct refused|]. split; [done|]. intros Hg.
    destruct o as [a|e|]; [|by destruct refused..]. apply Hgroup.
    destruct (abort_touches cursors t w _ t1 w1 ltac:(by pose proof (gr_alive _ _ _ _ Hg) as [? _]%Forall_cons) Ea) as [Ht Hd].
    eapply (group_drop cursors a0 []); [|exact Hd]. by eapply (group_step cursors a0 []).
Qed.

(** An error that claims nothing is left. *)
Definition clean_err (e : option error) : Prop := match e with Some e => clean e | None => False end.

Lemma compensate_spec {A} cursors a0 ts err r w (res : outcome A) r' w' :
  compensate_all I recovery_id ts err (r, w) = (res, (r', w')) → (clean_err err → group cursors a0 ts w) →
  same_runtime r r' ∧ match res with
    | Returned _ => False
    | Raised e => clean e → ∀ h, art w' h = a0 h
    | Interrupted => True
    end.
Proof.
  unfold compensate_all, bind, abort_consumers. destruct (abort_all I recovery_id (reverse ts) None (r, w)) as [o [r1 w1]] eqn:Ea.
  destruct (abort_all_spec cursors a0 (reverse ts) None r w o r1 w1 Ea) as (Hr & f & -> & Hbad & Hnone).
  destruct f as [e|].
  - intros Hre Hg. destruct (Hbad (or_introl eq_refl)) as [|Hb]; [done|].
    destruct e as [e|]; cbn in Hre; injection Hre as <- <- <-; [|done]. split; [done|]. cbn in Hb. done.
  - intros Hre Hg. destruct err as [e|]; cbn in Hre; injection Hre as <- <- <-; [|done]. split; [done|]. intros Hc.
    apply Hnone; [done|]. eapply group_perm; [by apply Hg | by rewrite reverse_Permutation].
Qed.

Lemma live_staged_frame cursors p t w w' : live_staged cursors p t w → (∀ h, h ∈ own t → art w' h = art w h) → live_staged cursors p t w'.
Proof. apply staged_rebase. Qed.

Lemma staged_frame cursors ps ts w w' : Forall2 (fun p t => live_staged cursors p t w) ps ts →
  (∀ h, h ∈ concat (map own ts) → art w' h = art w h) → Forall2 (fun p t => live_staged cursors p t w') ps ts.
Proof.
  induction 1 as [|p t ps ts Hs _ IH]; intros Hsame; constructor.
  - eapply live_staged_frame; [exact Hs|]. intros h Hh. apply Hsame. cbn. apply elem_of_app. by left.
  - apply IH. intros h Hh. apply Hsame. cbn. apply elem_of_app. by right.
Qed.

(** A constructor that raises cleanly changed nothing. *)
Lemma construct_raised shown p cursors w e w' : new_transaction (R := R) I shown p cursors w = (Raised e, w') → clean e →
  ∀ h, art w' h = art w h.
Proof.
  intros Hnew Hc. pose proof (new_transaction_spec (R := R) I art (art w) shown p cursors w (fun _ => eq_refl)) as Hs. rewrite Hnew in Hs.
  destruct Hs as [[-> ->]|(t & c & r & L & -> & _ & _ & _ & _ & _ & _ & Ho & Hl)]; [done|]. cbn in Hc. rewrite Hc in Hl.
  destruct L; [|done]. intros h. apply (ow_rest _ _ _ _ _ _ Ho). apply not_elem_of_nil.
Qed.

(** The staging loop: every plan has its transaction, prepared with the cursors that
    are shown, or nothing is left. *)
Lemma stage_all_spec shown cursors a0 plans : ∀ done staged r w res r' w',
  stage_all I recovery_id plans staged (r, w) = (res, (r', w')) →
  ru_cursors r = cursors → shown_cursors r = shown → group cursors a0 staged w →
  Forall2 (fun p t => live_staged cursors p t w) done staged → Forall (prepared_rows shown) staged →
  same_but_shown r r' ∧ match res with
    | Returned ts => ru_override r' = None ∧ group cursors a0 ts w' ∧ Forall2 (fun p t => live_staged cursors p t w') (done ++ plans) ts
        ∧ Forall (prepared_rows shown) ts
    | Raised e => clean e → ∀ h, art w' h = a0 h
    | Interrupted => True
    end.
Proof.
  induction plans as [|p plans IH]; intros done staged r w res r' w'; cbn [stage_all].
  { unfold bind, update, ret. cbn. intros [= <- <- <-] Hc Hs Hg Hl Hp. split; [by destruct r|]. by rewrite app_nil_r. }
  intros Hrun Hc Hs Hg Hl Hp. unfold bind at 1, attempt_all at 1, construct in Hrun. cbn [fst snd] in Hrun. rewrite Hc, Hs in Hrun.
  assert (Hfail : ∀ err w1, (clean_err err → group cursors a0 staged w1) →
    bind (attempt_all (compensate_all (A := list transaction) I recovery_id staged err))
      (fun res => bind (update (set_ru_override None)) (fun _ => match res with inl ts => ret ts | inr e => reraise e end)) (r, w1) = (res, (r', w')) →
    same_but_shown r r' ∧ match res with Returned _ => False | Raised e => clean e → ∀ h, art w' h = a0 h | Interrupted => True end).
  { intros err w1 Hg1. unfold bind at 1, attempt_all at 1.
    destruct (compensate_all (A := list transaction) I recovery_id staged err (r, w1)) as [o [r2 w2]] eqn:Ec.
    destruct (compensate_spec cursors a0 staged err r w1 o r2 w2 Ec Hg1) as [Hr Ho].
    unfold bind, update, reraise. cbn [fst snd]. rewrite Hr.
    destruct o as [ts|e'|]; [done|intros [= <- <- <-]; split; [by destruct r | done]|intros [= <- <- <-]; split; [by destruct r | done]]. }
  destruct (new_transaction I shown p cursors w) as [[t|e|] w1] eqn:En.
  - destruct (group_new shown cursors a0 staged w p t w1 Hg En) as (Hg1 & Hl1 & Hsame).
    destruct (IH (done ++ [p]) _ _ _ _ _ _ Hrun Hc Hs Hg1) as [Hr Hres].
    { apply Forall2_app; [by eapply staged_frame | by constructor]. }
    { apply Forall_app_2; [done|]. apply Forall_singleton. by eapply new_transaction_made. }
    split; [done|]. by rewrite <- app_assoc in Hres.
  - assert (Hg1 : clean_err (Some e) → group cursors a0 staged w1).
    { intros Hcl. eapply group_ext; [exact Hg|]. by eapply construct_raised. }
    destruct (Hfail _ w1 Hg1 Hrun) as [Hr Ho]. split; [done|]. by destruct res.
  - destruct (Hfail None w1 ltac:(done) Hrun) as [Hr Ho]. split; [done|]. by destruct res.
Qed.

(** Every transaction accepted its plan. *)
Inductive kept (cursors : cursor_set) (w : W) : list EffectPlan → list transaction → list report → Prop :=
| kept_nil : kept cursors w [] [] []
| kept_cons p t rep ps ts reps : live_accepted cursors p rep t w → kept cursors w ps ts reps →
    kept cursors w (p :: ps) (t :: ts) (rep :: reps).

Lemma accept_all_spec cursors a0 ts : cursors_ok cursors → ∀ plans pre r w res r' w',
  accept_all I ts (r, w) = (res, (r', w')) → group cursors a0 (pre ++ ts) w →
  Forall2 (fun p t => live_staged cursors p t w) plans ts →
  r' = r ∧ ∃ ts' out, res = Returned (ts', out) ∧ match out with
    | inl reps => group cursors a0 (pre ++ ts') w' ∧ kept cursors w' plans ts' reps
        ∧ ∀ h, h ∈ concat (map own pre) → art w' h = art w h
    | inr e => clean_err e → group cursors a0 (pre ++ ts') w'
    end.
Proof.
  intros Hok. induction ts as [|t ts IH]; intros plans pre r w res r' w'; cbn [accept_all].
  { intros [= <- <- <-] Hg Hl. apply Forall2_nil_inv_r in Hl as ->. split; [done|]. exists [], (inl []). split_and!; [done|done|constructor|done]. }
  intros Hrun Hg Hl. apply Forall2_cons_inv_r in Hl as (p & ps & Hp & Hl & ->).
  unfold bind at 1, get_runtime in Hrun. cbn [fst snd] in Hrun.
  unfold bind at 1, on in Hrun. cbn [fst snd] in Hrun. destruct (accept I (shown_cursors r) (t, w)) as [o [t1 w1]] eqn:Ea.
  pose proof (accept_touches _ cursors p t w o t1 w1 Hok Hp Ea) as Ht. destruct o as [rep|e|]; cbn [fst snd] in Hrun.
  - destruct Ht as [Ht Hacc]. pose proof (touches_others _ _ _ _ _ _ _ _ Hg Ht) as Hoth.
    unfold bind in Hrun. destruct (accept_all I ts (r, w1)) as [o2 [r2 w2]] eqn:Erest.
    destruct (IH ps (pre ++ [t1]) r w1 o2 r2 w2 Erest) as (-> & ts' & out & -> & Hout).
    { rewrite <- app_assoc. by eapply group_step. }
    { eapply staged_frame; [exact Hl|]. intros h Hh. apply Hoth. rewrite map_app, concat_app, elem_of_app. by right. }
    cbn [ret fst snd] in Hrun. injection Hrun as <- <- <-. split; [done|]. exists (t1 :: ts').
    rewrite <- app_assoc in Hout. destruct out as [reps|e]; eexists; (split; [reflexivity|]).
    + destruct Hout as (Hg2 & Hk & Hsame). split_and!; [done| |].
      * constructor; [|done]. eapply accepted_rebase; [exact Hacc|]. intros h Hh. apply Hsame.
        rewrite map_app, concat_app, elem_of_app. right. cbn. by rewrite app_nil_r.
      * intros h Hh. rewrite Hsame; [apply Hoth|]; rewrite map_app, concat_app, elem_of_app; by left.
    + done.
  - injection Hrun as <- <- <-. split; [done|]. eexists _, _. split; [reflexivity|]. cbn. intros Hc. eapply group_step; [exact Hg | auto].
  - injection Hrun as <- <- <-. split; [done|]. eexists _, _. split; [reflexivity|]. by cbn.
Qed.
(** What the accepted transactions publish was prepared before, or by a retry with the
    cursors shown now. *)
Lemma accept_all_made ts : ∀ r w ts' reps s', accept_all I ts (r, w) = (Returned (ts', inl reps), s') →
  Forall (fun t => tx_accepted t = []) ts →
  Forall2 (fun t t' => ∀ e h x, (e, h, x) ∈ tx_accepted t' → row_made (shown_cursors r) (tx_prepared t) e h) ts ts'.
Proof.
  induction ts as [|t ts IH]; intros r w ts' reps s'; cbn [accept_all]; [intros [= <- <- <-] _; constructor|].
  intros Hrun [Ht Hts]%Forall_cons. unfold bind at 1, get_runtime in Hrun. cbn [fst snd] in Hrun. unfold bind at 1, on in Hrun. cbn [fst snd] in Hrun.
  destruct (accept I (shown_cursors r) (t, w)) as [[rep|e|] [t1 w1]] eqn:Ea; cbn [fst snd] in Hrun; [|discriminate Hrun..].
  unfold bind in Hrun. destruct (accept_all I ts (r, w1)) as [[[ts2 out]|e|] s2] eqn:E; [|discriminate Hrun..].
  cbn [ret fst snd] in Hrun. destruct out as [reps2|e]; [|discriminate Hrun]. injection Hrun as <- <- <-.
  constructor; [by eapply accept_made|]. by eapply IH.
Qed.
End Group.
