(* ===== verification/ConsumerFire.v ===== *)
(** * Firing is atomic

    Releasing, sealing and retrying never disturb what was accepted; with the
    transactions of [ConsumerStep] this makes the firing of consumers and the step
    envelope all or nothing. *)
From S2P Require Import Prelude SortedKeys Manifest EveryDt Consumers ConsumerPlanning ConsumerTransaction ConsumerAtomic ConsumerPrepared ConsumerRuntime ConsumerStep.

Section Release.
Context {W H R : Type} `{!EqDecision R} `{!Publisher W H R}.
Context (recovery_id : R → option string).

(** What an observer compares of two worlds; he does not see a release. *)
Context (sees : W → W → Prop) `{!PreOrder sees} (finalize_sees : ∀ h w, sees w (pub_finalize h w).2).

Notation transaction := (@transaction H R).
Notation runtime := (@runtime H R).

(** ** Releases are not seen *)

Definition keeps {A} (m : M (transaction * W) A) : Prop := ∀ s, sees s.2 (m s).2.2.

Lemma keeps_ret {A} (a : A) : keeps (ret a).
Proof. by intros s. Qed.
Lemma keeps_raise {A} e : keeps (raise (A := A) e).
Proof. by intros s. Qed.
Lemma keeps_get : keeps get.
Proof. by intros s. Qed.
Lemma keeps_modify f : keeps (modify f).
Proof. by intros s. Qed.
Lemma keeps_call {A} (op : W → outcome A * W) : (∀ w, sees w (op w).2) → keeps (call op).
Proof. intros Hop [t w]. unfold call. cbn. specialize (Hop w). by destruct (op w). Qed.
Lemma keeps_bind {A B} (m : M (transaction * W) A) (f : A → M (transaction * W) B) :
  keeps m → (∀ a, keeps (f a)) → keeps (bind m f).
Proof.
  intros Hm Hf s. specialize (Hm s). unfold bind. destruct (m s) as [[a|e|] s']; cbn in *; [|done..].
  etrans; [exact Hm | apply Hf].
Qed.
Lemma keeps_attempt {A} (m : M (transaction * W) A) : keeps m → keeps (attempt m) ∧ keeps (attempt_all m).
Proof. intros Hm. split; intros s; specialize (Hm s); unfold attempt, attempt_all; by destruct (m s) as [[a|e|] s']. Qed.

Lemma keeps_retain h : keeps (retain_recoveries h).
Proof.
  apply keeps_bind; [|intros []; apply keeps_ret]. apply keeps_attempt, keeps_bind; [by apply keeps_call|].
  intros [l|]; [apply keeps_modify | apply keeps_raise].
Qed.

Lemma keeps_release h : keeps (release_one h).
Proof.
  apply keeps_bind; [|intros r; apply keeps_bind; [apply keeps_retain | intros; apply keeps_ret]].
  apply keeps_attempt, keeps_bind; [|intros [[]|]; [apply keeps_ret | apply keeps_raise]].
  apply keeps_call, finalize_sees.
Qed.

Lemma keeps_seal_loop rows : keeps (seal_loop rows).
Proof.
  induction rows as [|[[e h] r] rows IH]; cbn [seal_loop]; [apply keeps_ret|]. apply keeps_bind; [apply keeps_release|].
  intros f. apply keeps_bind; [done|]. intros rest. destruct f; apply keeps_ret.
Qed.

Lemma keeps_seal : keeps seal.
Proof.
  apply keeps_bind; [apply keeps_get|]. intros t. apply keeps_bind.
  { repeat case_bool_decide; [apply keeps_modify|apply keeps_ret|apply keeps_raise]. }
  intros _. apply keeps_bind; [apply keeps_get|]. intros t'. apply keeps_bind; [apply keeps_seal_loop|]. intros r.
  apply keeps_bind; [apply keeps_modify | intros _; apply keeps_ret].
Qed.

(** ** What sealing leaves *)

(** A report but for its diagnostics. *)
Definition strip (rep : report) : report := with_diagnostics rep [].

Lemma strip_with rep ds : strip (with_diagnostics rep ds) = strip rep.
Proof. done. Qed.

(** Nothing accepted changed: at most diagnostics, owners waiting for their
    release and retained recoveries. *)
Definition same_accepted (r r' : runtime) : Prop :=
  ru_plan r' = ru_plan r ∧ ru_graph r' = ru_graph r ∧ ru_attempt r' = ru_attempt r ∧ ru_cursors r' = ru_cursors r
  ∧ map strip (ru_reports r') = map strip (ru_reports r) ∧ ru_override r' = ru_override r.

#[global] Instance same_accepted_preorder : PreOrder same_accepted.
Proof.
  split; [by intros r|]. intros r1 r2 r3 (A1 & A2 & A3 & A4 & A5 & A6) (B1 & B2 & B3 & B4 & B5 & B6).
  split_and!; by etrans.
Qed.

Lemma same_runtime_accepted r r' : same_runtime r r' → same_accepted r r'.
Proof. intros ->. done. Qed.

(** A method of the runtime that always returns and is not seen. *)
Definition quiet {A} (m : M (runtime * W) A) (Q : A → runtime → runtime → Prop) : Prop :=
  ∀ r w, ∃ a r' w', m (r, w) = (Returned a, (r', w')) ∧ sees w w' ∧ Q a r r'.

Lemma quiet_bind {A B} (m : M (runtime * W) A) (f : A → M (runtime * W) B) Q (Q' : B → runtime → runtime → Prop) :
  quiet m Q → (∀ a r0, quiet (f a) (fun b r1 r2 => Q a r0 r1 → Q' b r0 r2)) → quiet (bind m f) Q'.
Proof.
  intros Hm Hf r w. destruct (Hm r w) as (a & r1 & w1 & E & Hk & HQ). destruct (Hf a r r1 w1) as (b & r2 & w2 & E' & Hk' & HQ').
  exists b, r2, w2. unfold bind. rewrite E. split_and!; [done|by etrans|auto].
Qed.

Lemma quiet_ret {A} (a : A) (Q : A → runtime → runtime → Prop) : (∀ r, Q a r r) → quiet (ret a) Q.
Proof. intros HQ r w. by exists a, r, w. Qed.
Lemma quiet_get (Q : runtime → runtime → runtime → Prop) : (∀ r, Q r r r) → quiet get_runtime Q.
Proof. intros HQ r w. by exists r, r, w. Qed.
Lemma quiet_update f (Q : unit → runtime → runtime → Prop) : (∀ r, Q tt r (f r)) → quiet (update f) Q.
Proof. intros HQ r w. by exists tt, (f r), w. Qed.
Lemma quiet_conseq {A} (m : M (runtime * W) A) (Q Q' : A → runtime → runtime → Prop) :
  quiet m Q → (∀ a r r', Q a r r' → Q' a r r') → quiet m Q'.
Proof. intros Hm HQ r w. destruct (Hm r w) as (a & r' & w' & ? & ? & ?). exists a, r', w'. auto. Qed.

Lemma quiet_seal (t : transaction) : quiet (consumer_seal t) (fun _ => eq).
Proof.
  intros r w. pose proof (keeps_seal (t, w)) as Hk. unfold consumer_seal, bind, on, ret. cbn [fst snd].
  destruct (seal (t, w)) as [[ds|e|] [t' w']]; cbn in *; eauto 10.
Qed.

Lemma quiet_retain (t : transaction) index : quiet (retain_from recovery_id t index) (fun _ => same_runtime).
Proof. intros r w. destruct (retain_from_spec recovery_id t index r w) as (f & r' & E & Hr). by exists f, r', w. Qed.

Lemma quiet_owner (t : transaction) index : quiet (seal_owner recovery_id t index) (fun _ => same_accepted).
Proof.
  eapply quiet_bind; [apply quiet_seal|]. intros a r0. eapply quiet_bind; [apply quiet_retain|].
  intros f r1. apply quiet_ret. intros r2 Hr ->. by apply same_runtime_accepted.
Qed.

Lemma quiet_seal_all rows : ∀ index, quiet (seal_all recovery_id rows index)
  (fun a r r' => same_accepted r r' ∧ map strip a.1 = map (fun row => strip row.2) rows).
Proof.
  induction rows as [|[t rep] rows IH]; intros index; cbn [seal_all]; [by apply quiet_ret|].
  eapply quiet_bind; [apply quiet_owner|]. intros a r0. eapply quiet_bind; [apply IH|]. intros rest r1.
  apply quiet_ret. intros r2 [Hr2 Hrest] Hr1. cbn. rewrite Hrest. split; [by etrans | done].
Qed.

Lemma quiet_reports ts reps : length ts = length reps → quiet (seal_consumer_reports recovery_id ts reps)
  (fun a r r' => same_accepted r r' ∧ map strip a = map strip reps).
Proof.
  intros Hl. eapply quiet_bind; [apply (quiet_get (fun a r r' => r' = r)); done|]. intros r r0.
  eapply quiet_bind; [apply quiet_seal_all|]. intros a r1.
  eapply quiet_bind; [apply (quiet_update _ (fun _ r r' => same_accepted r r')); done|]. intros [] r2.
  apply quiet_ret. intros r3 Hr3 [Hr2 Ha] ->. split; [by etrans|]. rewrite Ha. clear -Hl.
  revert reps Hl. induction ts as [|t ts IH]; intros [|rep reps] [=]; cbn; [done|]. by rewrite IH.
Qed.

Lemma strip_replace (reports : list report) i rep ds : reports !! i = Some rep →
  map strip (<[i := with_diagnostics rep ds]> reports) = map strip reports.
Proof.
  intros Hi. change (strip <$> <[i := with_diagnostics rep ds]> reports = strip <$> reports). rewrite list_fmap_insert.
  apply list_insert_id. rewrite list_lookup_fmap, Hi. done.
Qed.

Lemma quiet_retry_all owners : ∀ reports, quiet (retry_all recovery_id owners reports)
  (fun a r r' => same_accepted r r' ∧ map strip a.1.1 = map strip reports).
Proof.
  induction owners as [|o owners IH]; intros reports; cbn [retry_all]; [by apply quiet_ret|].
  eapply quiet_bind; [apply quiet_owner|]. intros a r0. destruct (reports !! pf_index o) as [rep|] eqn:E.
  - eapply quiet_bind; [apply IH|]. intros rest r1. apply quiet_ret. intros r2 [Hr2 Hrest] Hr1. cbn.
    rewrite Hrest, strip_replace by done. split; [by etrans | done].
  - eapply quiet_bind; [apply IH|]. intros rest r1. apply quiet_ret. intros r2 [Hr2 Hrest] Hr1. cbn. split; [by etrans | done].
Qed.

Lemma quiet_retry : quiet (retry_consumer_finalizers recovery_id) (fun _ => same_accepted).
Proof.
  intros r w. unfold retry_consumer_finalizers, bind, get_runtime, update, ret. cbn [fst snd].
  destruct (quiet_retry_all (ru_pending r) (ru_reports r) r w) as (a & r1 & w1 & E & Hk & (A1 & A2 & A3 & A4 & A5 & A6) & Ha).
  rewrite E. cbn [fst snd]. eexists _, _, w1. split; [reflexivity|]. split; [done|]. by split_and!.
Qed.

(** What an acceptance adds. *)
Definition adds (cursors : cursor_set) (reps : list report) (r r' : runtime) : Prop :=
  ru_plan r' = ru_plan r ∧ ru_graph r' = ru_graph r ∧ ru_attempt r' = ru_attempt r ∧ ru_cursors r' = cursors
  ∧ map strip (ru_reports r') = map strip (ru_reports r) ++ map strip reps ∧ ru_override r' = ru_override r.

Lemma quiet_publish ts reps cursors : length ts = length reps →
  quiet (publish_reports recovery_id ts reps cursors) (fun _ => adds cursors reps).
Proof.
  intros Hl. eapply quiet_bind; [by apply quiet_reports|]. intros sealed r0.
  eapply quiet_bind; [apply (quiet_update _ (fun _ r r' => r' = set_ru_cursors cursors r)); done|]. intros [] r1.
  eapply quiet_bind; [apply (quiet_update _ (fun _ r r' => r' = set_ru_reports (ru_reports r ++ sealed) r)); done|]. intros [] r2.
  eapply quiet_bind; [apply quiet_retry|]. intros ds r3.
  apply quiet_ret. intros r4 (A1 & A2 & A3 & A4 & A5 & A6) -> -> [(B1 & B2 & B3 & B4 & B5 & B6) Hs]. unfold adds in *. cbn in *.
  rewrite A1, A2, A3, A4, A5, A6, map_app, Hs, B5. done.
Qed.
End Release.

Section Fire.
Context {W H R : Type} `{!EqDecision H} `{!EqDecision R} `{!Publisher W H R} (I : identities) (art : W → H → artifact).
Context `{!PublisherLaws I art}.
Context (recovery_id : R → option string).

Notation transaction := (@transaction H R).
Notation runtime := (@runtime H R).

(** Every artifact as it was. *)
Definition same_art (w w' : W) : Prop := ∀ h, art w' h = art w h.

#[global] Instance same_art_preorder : PreOrder same_art.
Proof. split; [by intros w h|]. intros w1 w2 w3 H1 H2 h. by rewrite H2, H1. Qed.

Lemma release_art h w : same_art w (pub_finalize h w).2.
Proof. intros k. destruct (pub_finalize h w) as [r w'] eqn:E. by eapply finalize_own. Qed.

(** ** The cursors of what was kept *)

Definition rows_of (ts : list transaction) : list (AcceptedSideEffect * H * PublicationReceipt) := concat (map tx_accepted ts).

Lemma replace_all_ok cs : ∀ c, cursors_ok c → ∃ c', fold_res replace_cursor c cs = Ok c' ∧ cursors_ok c'.
Proof.
  induction cs as [|x cs IH]; intros c Hc; cbn; [eauto|]. destruct (replace_cursor_ok c x Hc) as (c1 & -> & Hc1 & _). by apply IH.
Qed.

Lemma commit_updates c es : commit_cursors c es = fold_res replace_cursor c (map ef_after es).
Proof. unfold commit_cursors. revert c. induction es as [|e es IH]; intros c; cbn; [done|]. destruct (replace_cursor c (ef_after e)); cbn; auto. Qed.

Lemma kept_updates cursors w ps ts reps : kept I art cursors w ps ts reps → ∀ c, cursors_ok c →
  ∃ c', apply_updates c ts = Ok c' ∧ commit_cursors c (row_effects (rows_of ts)) = Ok c' ∧ cursors_ok c'.
Proof.
  induction 1 as [|p t rep ps ts reps Ht _ IH]; intros c Hc; [by exists c|].
  destruct Ht as (Hst & _ & _ & _ & _ & _ & _ & _ & _ & _ & Hu).
  assert (Hup : cursor_updates t = Ok (tx_updates t)) by (unfold cursor_updates; by rewrite bool_decide_true by (by left)).
  destruct (replace_all_ok (tx_updates t) c Hc) as (c1 & E1 & Hc1).
  assert (Hone : apply_updates c (t :: ts) = apply_updates c1 ts).
  { unfold apply_updates. cbn. rewrite Hup. cbn. by rewrite E1. }
  rewrite Hone.
  destruct (IH c1 Hc1) as (c' & E & Ecommit & Hc'). exists c'. split; [done|]. split; [|done].
  rewrite commit_updates in *. unfold rows_of in *. cbn [map concat]. unfold row_effects in *. rewrite !map_app.
  unfold row_effects in Hu. rewrite fold_res_app, <- Hu, E1. done.
Qed.

(** What the kept transactions published. *)
Record published_by (a0 : H → artifact) (ps : list EffectPlan) (reps : list report)
    (rows : list (AcceptedSideEffect * H * PublicationReceipt)) (w : W) : Prop := {
  pb_artifacts h : art w h = if bool_decide (h ∈ handles rows) then Visible else a0 h;
  pb_sublist : row_effects rows `sublist_of` concat (map ep_effects ps);
  pb_accounted e : e ∈ concat (map ep_effects ps) → e ∈ row_effects rows
    ∨ (ef_action e = SkipSampleReported ∧ token I e ∈ map sk_effect (concat (map rt_skipped reps)));
  pb_receipts : concat (map rt_published reps) = map snd rows;
  pb_accepted : Forall (eq Accepted) (map rt_status reps) }.

Lemma kept_rows cursors w ps ts reps : kept I art cursors w ps ts reps →
  concat (map own ts) = handles (rows_of ts) ∧ length ts = length reps
  ∧ (∀ h, h ∈ handles (rows_of ts) → art w h = Visible)
  ∧ row_effects (rows_of ts) `sublist_of` concat (map ep_effects ps)
  ∧ (∀ e, e ∈ concat (map ep_effects ps) → e ∈ row_effects (rows_of ts)
       ∨ (ef_action e = SkipSampleReported ∧ token I e ∈ map sk_effect (concat (map rt_skipped reps))))
  ∧ concat (map rt_published reps) = map snd (rows_of ts)
  ∧ Forall (eq Accepted) (map rt_status reps).
Proof.
  unfold rows_of, handles, row_effects.
  induction 1 as [|p t rep ps ts reps Ht _ (I1 & I2 & I3 & I4 & I5 & I6 & I7)]; cbn [map concat length].
  { split_and!; try done; by intros ? []%elem_of_nil. }
  destruct Ht as (_ & _ & Hp & Hs & Hd & Hpub & Ho & Hsub & Hacc & _). rewrite !map_app. split_and!.
  - rewrite I1. unfold own, handles. by rewrite Hp.
  - by rewrite I2.
  - intros h [Hh|Hh]%elem_of_app; [by apply (ow_visible _ _ _ _ _ _ Ho) | auto].
  - by apply sublist_app.
  - intros e. rewrite !elem_of_app. intros [He|He].
    + destruct (Hacc e He) as [|[]]; [by left; left|]. right. split; [done|]. by left.
    + destruct (I5 e He) as [|[]]; [by left; right|]. right. split; [done|]. by right.
  - by rewrite Hpub, I6.
  - by constructor.
Qed.

Lemma kept_published cursors a0 w ps ts reps : group I art cursors a0 ts w → kept I art cursors w ps ts reps →
  published_by a0 ps reps (rows_of ts) w.
Proof.
  intros Hg Hk. apply kept_rows in Hk as (I1 & I2 & I3 & I4 & I5 & I6 & I7). split; try done.
  intros h. case_bool_decide as Hin; [auto|]. apply (gr_rest _ _ _ _ _ _ Hg). by rewrite I1.
Qed.

(** ** Staging and accepting *)

Lemma concat_filter plans :
  concat (map ep_effects (List.filter (fun p => negb (bool_decide (length (ep_effects p) = 0%nat))) plans)) = concat (map ep_effects plans).
Proof.
  induction plans as [|p plans IH]; cbn; [done|]. case_bool_decide as Hl; cbn; rewrite IH; [|done]. by destruct (ep_effects p).
Qed.

(** The cursors shown while the effects are staged: the override of a checkpoint, or
    those the runtime shows anyway. *)
Definition staging_cursors (r : runtime) (effects : list AcceptedSideEffect) (c : cursor_set) : Prop :=
  ∃ override, checkpoint_override (ru_graph r) (ru_cursors r) effects = Ok override ∧ c = default (shown_cursors r) override.

Lemma stage_consumers_spec repr ms (r : runtime) w res (r' : runtime) w' :
  stage_consumers I repr recovery_id ms (r, w) = (res, (r', w')) →
  same_but_shown r r' ∧ match res with
    | Returned ts => ru_override r' = None
        ∧ ∃ plans, map_res (fun mo => plan_accepted_side_effects I repr (ru_plan r) (ru_graph r) mo (ru_cursors r)) ms = Ok plans
        ∧ group I art (ru_cursors r) (art w) ts w'
        ∧ Forall2 (fun p t => live_staged I art (ru_cursors r) p t w')
            (List.filter (fun p => negb (bool_decide (length (ep_effects p) = 0%nat))) plans) ts
        ∧ ∃ c, staging_cursors r (concat (map ep_effects plans)) c ∧ Forall (prepared_rows c) ts
    | Raised e => clean e → ∀ h, art w' h = art w h
    | Interrupted => True
    end.
Proof.
  unfold stage_consumers. unfold bind at 1, get_runtime. cbn [fst snd]. unfold bind at 1.
  destruct (map_res _ ms) as [plans|e] eqn:Ep; cbn [lift ret raise]; [|intros [= <- <- <-]; split; [by destruct r | done]].
  unfold bind at 1. rewrite concat_filter. destruct (checkpoint_override _ _ _) as [o|e] eqn:Eo; cbn [lift ret raise]; [|intros [= <- <- <-]; split; [by destruct r | done]].
  unfold bind, update. cbn [fst snd]. set (r1 := match o with Some o => set_ru_override (Some o) | None => id end r). intros Hs.
  assert (Hc : ru_cursors r1 = ru_cursors r) by (unfold r1; by destruct o).
  destruct (stage_all_spec I art recovery_id (shown_cursors r1) (ru_cursors r) (art w) _ [] [] r1 w res r' w' Hs Hc eq_refl) as [Hr Hres].
  - by apply group_nil.
  - constructor.
  - constructor.
  - split; [rewrite Hr; unfold r1; destruct o; by destruct r|]. destruct res as [ts|e|]; [|done..].
    destruct Hres as (Hn & Hg & Hl & Hp). split; [done|]. exists plans. split_and!; [done..|]. exists (shown_cursors r1). split; [|done].
    exists o. split; [done|]. unfold r1. by destruct o.
Qed.

(** A publication made while the cursors [c] were shown, or by a retry while [c'] were. *)
Definition published_with (c c' : cursor_set) (e : AcceptedSideEffect) (h : H) : Prop :=
  prepared_with c e h ∨ (is_retry e = true ∧ prepared_with c' e h).

Lemma live_staged_fresh cursors w ps (ts : list transaction) : Forall2 (fun p t => live_staged I art cursors p t w) ps ts →
  Forall (fun t => tx_accepted t = []) ts.
Proof. induction 1 as [|p t ps ts Hs _ IH]; constructor; [|done]. by destruct Hs as [[_ _ -> _ _ _] _]. Qed.

Lemma rows_published c c' (ts ts' : list transaction) : Forall (prepared_rows c) ts →
  Forall2 (fun t t' => ∀ e h x, (e, h, x) ∈ tx_accepted t' → row_made c' (tx_prepared t) e h) ts ts' →
  ∀ e h x, (e, h, x) ∈ rows_of ts' → published_with c c' e h.
Proof.
  intros Hp. induction 1 as [|t t' ts ts' Ht _ IH]; intros e h x; unfold rows_of; cbn; [by intros ?%elem_of_nil|].
  apply Forall_cons in Hp as [Hp1 Hp]. rewrite elem_of_app. intros [Hin|Hin]; [|by eapply IH].
  destruct (Ht e h x Hin) as [[n Hn]|Hr]; [left; by eapply Hp1 | by right].
Qed.

Lemma accept_consumers_spec (r : runtime) w ps ts a0 res (r' : runtime) w' : cursors_ok (ru_cursors r) →
  accept_consumers I ts (r, w) = (res, (r', w')) → group I art (ru_cursors r) a0 ts w →
  Forall2 (fun p t => live_staged I art (ru_cursors r) p t w) ps ts →
  r' = r ∧ ∃ ts' out, res = Returned (ts', out) ∧ match out with
    | inl (reps, cursors') => group I art (ru_cursors r) a0 ts' w' ∧ length ts' = length reps
        ∧ published_by a0 ps reps (rows_of ts') w'
        ∧ commit_cursors (ru_cursors r) (row_effects (rows_of ts')) = Ok cursors' ∧ cursors_ok cursors'
        ∧ ∀ c e h x, Forall (prepared_rows c) ts → (e, h, x) ∈ rows_of ts' → published_with c (shown_cursors r) e h
    | inr e => clean_err e → group I art (ru_cursors r) a0 ts' w'
    end.
Proof.
  intros Hok Hrun Hg Hl. unfold accept_consumers, bind, get_runtime in Hrun. cbn [fst snd] in Hrun.
  destruct (accept_all I ts (r, w)) as [o [r1 w1]] eqn:Ea.
  destruct (accept_all_spec I art (ru_cursors r) a0 ts Hok ps [] r w o r1 w1 Ea Hg Hl) as (-> & ts' & out & -> & Hout).
  cbn [ret fst snd] in Hrun. injection Hrun as <- <- <-. split; [done|]. exists ts'. destruct out as [reps|e]; [|by eexists].
  destruct Hout as (Hg' & Hk & _). destruct (kept_updates _ _ _ _ _ Hk (ru_cursors r) Hok) as (c & -> & Hc & Hcok).
  eexists. split; [reflexivity|]. split_and!; [done|by apply kept_rows in Hk as (_ & ? & _)|by apply (kept_published (ru_cursors r))|done|done|].
  intros c0 e h x Hp. eapply rows_published; [exact Hp|]. eapply accept_all_made; [exact Ea | by eapply live_staged_fresh].
Qed.

(** ** Firing *)

Lemma published_same a0 ps ps' reps reps' rows w :
  concat (map ep_effects ps) = concat (map ep_effects ps') → map strip reps = map strip reps' →
  published_by a0 ps reps rows w → published_by a0 ps' reps' rows w.
Proof.
  intros Hp Hs [H1 H2 H3 H4 H5].
  assert (Hall : ∀ A (f : report → A), (∀ rep, f (strip rep) = f rep) → map f reps' = map f reps).
  { intros A f Hf. rewrite <- (map_ext _ _ Hf reps), <- (map_ext _ _ Hf reps'), <- !(map_map strip f). by rewrite Hs. }
  rewrite Hp in *. split; try done.
  - by rewrite (Hall _ rt_skipped) by done.
  - by rewrite (Hall _ rt_published) by done.
  - by rewrite (Hall _ rt_status) by done.
Qed.

(** The outcome of [_fire_consumers] at the moments [ms]. *)
Definition fire_outcome repr (ms : list ConsumerMoment) (r : runtime) (w : W) (out : outcome (list report)) (r' : runtime) (w' : W) : Prop :=
  match out with
  | Returned reps => ∃ plans rows,
      map_res (fun mo => plan_accepted_side_effects I repr (ru_plan r) (ru_graph r) mo (ru_cursors r)) ms = Ok plans
      ∧ published_by (art w) plans reps rows w'
      ∧ commit_cursors (ru_cursors r) (row_effects rows) = Ok (ru_cursors r')
      ∧ map strip (ru_reports r') = map strip (ru_reports r ++ reps) ∧ ru_override r' = None
      ∧ ∃ c, staging_cursors r (concat (map ep_effects plans)) c
          ∧ ∀ e h x, (e, h, x) ∈ rows → published_with c (ru_cursors r) e h
  | _ => ru_cursors r' = ru_cursors r ∧ map strip (ru_reports r') = map strip (ru_reports r)
      ∧ match out with Raised e => clean e → ∀ h, art w' h = art w h | _ => True end
  end.

Lemma fire_spec repr ms (r : runtime) w out (r' : runtime) w' :
  cursors_ok (ru_cursors r) →
  fire_consumers I repr recovery_id ms (r, w) = (out, (r', w')) →
  fire_outcome repr ms r w out r' w'.
Proof.
  intros Hok Hrun. unfold fire_outcome. unfold fire_consumers in Hrun. unfold bind at 1 in Hrun.
  destruct (quiet_retry recovery_id same_art release_art r w) as (ds & r1 & w1 & E1 & Hw1 & Hr1). rewrite E1 in Hrun. clear E1.
  destruct Hr1 as (P1 & P2 & P3 & P4 & P5 & P6). unfold bind at 1 in Hrun.
  destruct (stage_consumers I repr recovery_id ms (r1, w1)) as [o [r2 w2]] eqn:E2.
  destruct (stage_consumers_spec _ _ _ _ _ _ _ E2) as [Hr2 Hs]. rewrite P1, P2, P4 in Hs.
  assert (Hsame : ru_cursors r2 = ru_cursors r ∧ map strip (ru_reports r2) = map strip (ru_reports r)) by (by rewrite Hr2; cbn; rewrite P4, P5).
  destruct o as [ts|e|].
  2: { injection Hrun as <- <- <-. destruct Hsame. split_and!; [done|done|]. intros Hc h. rewrite Hs, Hw1; done. }
  2: { injection Hrun as <- <- <-. by destruct Hsame. }
  destruct Hs as (Hn2 & plans & Hplans & Hg & Hl & c0 & Hc0 & Hp0). unfold bind at 1 in Hrun. destruct Hsame as [Hcur Hrep]. rewrite <- Hcur in Hok.
  destruct (accept_consumers I ts (r2, w2)) as [o [r3 w3]] eqn:E3.
  destruct (accept_consumers_spec r2 w2 _ ts (art w1) o r3 w3 Hok E3 ltac:(by rewrite Hcur) ltac:(by rewrite Hcur)) as (-> & ts' & acc & -> & Hacc).
  cbn [fst snd] in Hrun. destruct acc as [[reps c]|e].
  - destruct Hacc as (_ & Hlen & Hpub & Hcommit & Hcok & Hmade). unfold bind, get_runtime in Hrun. cbn [fst snd] in Hrun.
    destruct (quiet_publish recovery_id same_art release_art ts' reps c Hlen r2 w3) as ([] & r4 & w4 & E4 & Hw4 & Hadd). rewrite E4 in Hrun. cbn [fst snd ret] in Hrun.
    injection Hrun as <- <- <-. destruct Hadd as (_ & _ & _ & Hc & Hadd & Hno). exists plans, (rows_of ts').
    assert (Hnew : map strip reps = map strip (drop (length (ru_reports r2)) (ru_reports r4))).
    { change (strip <$> reps = strip <$> drop (length (ru_reports r2)) (ru_reports r4)). rewrite fmap_drop.
      change (strip <$> ru_reports r4) with (map strip (ru_reports r4)). rewrite Hadd, drop_app_length'; [done|]. by rewrite length_map. }
    split_and!; [done| |by rewrite Hc, <- Hcur|by rewrite Hadd, Hrep, map_app, <- Hnew|by rewrite Hno|].
    2: { exists c0. split.
         - destruct Hc0 as (o & Ho & ->). exists o. rewrite P2, P4 in Ho. split; [done|]. unfold shown_cursors. by rewrite P4, P6.
         - intros e h x Hin. pose proof (Hmade c0 e h x Hp0 Hin) as Hm. unfold shown_cursors in Hm. by rewrite Hn2, Hcur in Hm. }
    eapply (published_same (art w)); [apply concat_filter|exact Hnew|]. destruct Hpub as [Q1 Q2 Q3 Q4 Q5]. split; try done.
    intros h. by rewrite Hw4, Q1, Hw1.
  - destruct (compensate_spec I art recovery_id (ru_cursors r2) (art w1) ts' e r2 w3 out r' w' Hrun Hacc) as [Hr Hout].
    rewrite Hr. destruct out as [reps|e'|]; [done| |]; split_and!; try done. intros Hc h. by rewrite Hout, Hw1.
Qed.

(** Firing the consumers of a step is atomic over all its clocks.  When
    [_fire_consumers] returns, exactly the publications it reports are visible and
    every other artifact is as before; every planned effect is published, or its
    sample is skipped as its action allows and reported; the cursors are advanced
    by exactly the published effects and the accepted reports are recorded.  When
    it does not, cursors and recorded reports are those of before; and when it
    raises an error that reports no failed cleanup, so is every artifact. *)
Theorem fire_is_atomic repr ms (r : runtime) w out (r' : runtime) w' :
  cursors_ok (ru_cursors r) →
  fire_consumers I repr recovery_id ms (r, w) = (out, (r', w')) →
  fire_outcome repr ms r w out r' w'.
Proof. apply fire_spec. Qed.
End Fire.
