(* ===== verification/ConsumerEnvelope.v ===== *)
(** * The step envelope is atomic

    [_accepted_step_transaction_body]: the engine advances, the consumers of the
    new moments are staged, accepted and released.  A step that does not return
    leaves the accepted runtime and the temporal envelope of before, and with a clean
    error the artifacts; only the counters of unsuccessful attempts survive, and the
    last report is one of failure. *)
From S2P Require Import Prelude Manifest Points EveryDt Schedule StepStrategy StepTransaction Temporal Consumers ConsumerPlanning ConsumerTransaction ConsumerAtomic ConsumerPrepared ConsumerRuntime ConsumerStep ConsumerFire.

(** ** The contract of the engine *)

Definition with_stats (n : stats) (st : state) : state :=
  State (st_strategy st) (st_program st) (st_time st) (st_macro st) (st_cursors st) (st_controller st) (st_queue st)
    n (st_status st) (st_synchronized st) (st_pending st).

(** A report that does not tell of a success. *)
Definition reports_failure (o : option report_object) : Prop :=
  ∃ i rep, o = Some (i, rep) ∧ rp_status rep ≠ ReportAccepted ∧ rp_committed rep = [].

(** The native protocol and the controller do not touch the artifacts of the
    consumers; a controller returns the positive count of its report, and when it raises
    it has recorded a failure, or not yet replaced the last report; what the envelope
    restores is there again; stores and projections have names, as the constructors of
    plans and reports check; releasing an artifact does not touch the envelope. *)
Class EngineLaws {W H R E : Type} (art : W → H → artifact) `{!Publisher W H R} `{!StepEngine (W := W) E} := {
  begin_art w : same_art art w (se_begin w).2;
  advance_art w : same_art art w (se_advance w).2;
  commit_art w : same_art art w (se_commit w).2;
  finalize_art w : same_art art w (se_finalize w).2;
  rollback_art w : same_art art w (se_rollback w).2;
  restore_art t c w : same_art art w (se_restore t c w);
  stats_art n w : same_art art w (se_set_stats n w);
  restore_temporal t c w : se_temporal (se_restore t c w) = t;
  restore_controller t c w : se_controller (se_restore t c w) = c;
  stats_temporal n w : se_temporal (se_set_stats n w) = with_stats n <$> se_temporal w;
  stats_controller n w : se_controller (se_set_stats n w) = se_controller w;
  release_temporal (h : H) w : se_temporal (pub_finalize h w).2 = se_temporal w;
  release_controller (h : H) w : se_controller (pub_finalize h w).2 = se_controller w;
  begin_last w : se_last (se_begin w).2 = se_last w;
  advance_last w : match (se_advance w).1 with
    | Returned n => 0 < n
    | _ => se_last (se_advance w).2 = se_last w ∨ reports_failure (se_last (se_advance w).2)
    end;
  set_last_last w0 w : se_last (se_set_last (se_last w0) w) = se_last w0;
  set_last_art o w : same_art art w (se_set_last o w);
  set_last_temporal o w : se_temporal (se_set_last o w) = se_temporal w;
  set_last_controller o w : se_controller (se_set_last o w) = se_controller w;
  new_report_last rep w : mk_report rep = Ok rep → ∃ i, se_last (se_new_report rep w) = Some (i, rep);
  new_report_art rep w : same_art art w (se_new_report rep w);
  new_report_temporal rep w : se_temporal (se_new_report rep w) = se_temporal w;
  new_report_controller rep w : se_controller (se_new_report rep w) = se_controller w;
  stats_last n w : se_last (se_set_stats n w) = se_last w;
  release_last (h : H) w : se_last (pub_finalize h w).2 = se_last w;
  stores_named w : names_ok (se_stores w) = Ok tt;
  projections_named w i rep : se_last w = Some (i, rep) → names_ok (rp_projections rep) = Ok tt }.

Section Envelope.
Context {W H R E : Type} `{!EqDecision H} `{!EqDecision R} `{!Publisher W H R} (I : identities) (art : W → H → artifact).
Context `{!PublisherLaws I art} `{!StepEngine (W := W) E} `{!EngineLaws (R := R) art}.
Context (recovery_id : R → option string) (error_text : option error → string).

Notation transaction := (@transaction H R).
Notation runtime := (@runtime H R).

(** What a release must leave alone. *)
Definition same_world (w w' : W) : Prop :=
  same_art art w w' ∧ se_temporal w' = se_temporal w ∧ se_controller w' = se_controller w ∧ se_last w' = se_last w.

#[local] Instance same_world_preorder : PreOrder same_world.
Proof.
  split; [by intros w|]. intros w1 w2 w3 (A1 & A2 & A3 & A4) (B1 & B2 & B3 & B4). split_and!; try by etrans.
Qed.






(** ** The report of a failed step *)




(** ** Staging *)









End Envelope.

(** ** A run *)

(** The file writer of [ConsumerAtomic] beside an engine that makes one native
    attempt per step and ends at time zero. *)
Record toy_run := ToyRun { tr_files : toy_world; tr_temporal : option state; tr_last : option report_object }.

Definition beside {A} (op : toy_world → outcome A * toy_world) (s : toy_run) : outcome A * toy_run :=
  let '(r, w) := op (tr_files s) in (r, ToyRun w (tr_temporal s) (tr_last s)).

#[global] Instance run_publisher : Publisher toy_run toy_handle nat := {
  pub_prepare c e := beside (pub_prepare c e);
  pub_effect h := h.2.1;
  pub_payload h := h.2.2;
  pub_publish h := beside (toy_publish h);
  pub_discard h := beside (pub_discard (Publisher := toy_publisher) h);
  pub_rollback h := beside (pub_rollback (Publisher := toy_publisher) h);
  pub_finalize _ s := (Returned (Some tt), s);
  pub_recoveries _ _ := Returned (Some []) }.

Definition run_art (s : toy_run) : toy_handle → artifact := toy_art (tr_files s).

Lemma beside_split {A} (op : toy_world → outcome A * toy_world) s r s' : beside op s = (r, s') →
  op (tr_files s) = (r, tr_files s').
Proof. unfold beside. destruct (op (tr_files s)) as [r0 w0]. by intros [= <- <-]. Qed.

#[global] Instance run_laws : PublisherLaws toy_identities run_art.
Proof.
  unfold run_art. split.
  - intros c e w h w' E%(beside_split (toy_prepare c e)). exact (prepare_fresh (PublisherLaws := toy_laws) _ _ _ _ _ E).
  - intros c e w r w' E%(beside_split (toy_prepare c e)). exact (prepare_nothing (PublisherLaws := toy_laws) _ _ _ _ _ E).
  - intros h w r w' k E%(beside_split (toy_publish h)). exact (publish_own (PublisherLaws := toy_laws) _ _ _ _ k E).
  - intros h w r w' E%(beside_split (toy_publish h)). exact (publish_visible (PublisherLaws := toy_laws) _ _ _ _ E).
  - intros h w r w' k E%(beside_split (pub_discard h)). exact (discard_own (PublisherLaws := toy_laws) _ _ _ _ k E).
  - intros h w w' E%(beside_split (pub_discard h)). exact (discard_absent (PublisherLaws := toy_laws) _ _ _ E).
  - intros h w r w' k E%(beside_split (pub_rollback h)). exact (rollback_own (PublisherLaws := toy_laws) _ _ _ _ k E).
  - intros h w w' E%(beside_split (pub_rollback h)). exact (rollback_absent (PublisherLaws := toy_laws) _ _ _ E).
  - by intros h w r w' k [= <- <-].
Qed.

(** Nothing quarantined, and no text for errors. *)
Definition toy_recovery (n : nat) : option string := None.
Definition toy_text (e : option error) : string := "error".

Definition toy_digest (j : json) : string := "clock".
Definition toy_cursor (step : Z) : clock_cursor := ClockCursor fzero step "accepted".
Definition toy_temporal (step : Z) (n : stats) : state :=
  State None None fzero step (Cursors [(qualified_id toy_digest toy_clock, toy_cursor step)] [] [] [] [])
    (Controller None None) [] n Temporal.Accepted true false.

(** The report of an accepted step of three attempts. *)
Definition toy_accepted : StepTransaction.report :=
  StepTransaction.Report ReportAccepted "commit" "commit" 3 ["states"] ["states"] [] [] [].

(** The last report, where its projections have names. *)
Definition last_named (o : option report_object) : option report_object :=
  match o with
  | Some (i, rep) => match names_ok (rp_projections rep) with Ok _ => o | Err _ => None end
  | None => None
  end.

Lemma last_named_idem o : last_named (last_named o) = last_named o.
Proof. destruct o as [[i rep]|]; [|done]. cbn. destruct (names_ok _) eqn:En; cbn; [by rewrite En|done]. Qed.

(** The controller needs three attempts, and reports them accepted. *)
#[global] Instance run_engine : StepEngine (W := toy_run) unit := {
  se_begin s := (Returned tt, s);
  se_advance s := (Returned 3, ToyRun (tr_files s) (Some (toy_temporal 1 (Stats 1 2 0))) (Some (1%nat, toy_accepted)));
  se_commit s := (Returned tt, s);
  se_finalize s := (Returned tt, s);
  se_rollback s := (Returned tt, s);
  se_temporal := tr_temporal;
  se_macro_step s := match tr_temporal s with Some st => st_macro st | None => 0 end;
  se_controller _ := tt;
  se_restore t _ s := ToyRun (tr_files s) t (tr_last s);
  se_set_stats n s := ToyRun (tr_files s) (with_stats n <$> tr_temporal s) (tr_last s);
  se_last s := last_named (tr_last s);
  se_set_last o s := ToyRun (tr_files s) (tr_temporal s) o;
  se_new_report rep s := ToyRun (tr_files s) (tr_temporal s) (Some (2%nat, rep));
  se_stores _ := ["states"] }.

Lemma mk_report_names rep : mk_report rep = Ok rep → names_ok (rp_projections rep) = Ok tt.
Proof. unfold mk_report. intros Hmk. inv_ok. repeat match goal with u : unit |- _ => destruct u end. done. Qed.

#[global] Instance run_engine_laws : EngineLaws (R := nat) run_art.
Proof.
  split; unfold same_art; try done.
  - intros t c w. by destruct c.
  - intros w0 w. apply last_named_idem.
  - intros rep w Hmk%mk_report_names. exists 2%nat. cbn. by rewrite Hmk.
  - intros w i rep. cbn. destruct (tr_last w) as [[k rep']|]; cbn; [|done].
    destruct (names_ok (rp_projections rep')) as [[]|] eqn:En; [|done]. by intros [= <- <-].
Qed.

Definition toy_runtime : runtime (H := toy_handle) (R := nat) :=
  match resolve_graph toy_consumers with
  | Ok g => Runtime toy_runtime_plan g 0 [] [] [] [] None
  | Err _ => Runtime toy_runtime_plan (Graph [] []) 0 [] [] [] [] None
  end.
Definition toy_before (script : list (option toy_event)) : toy_run := ToyRun (toy_start script) (Some (toy_temporal 0 (Stats 0 0 0))) None.
Definition toy_step (script : list (option toy_event)) : outcome Z * (runtime (H := toy_handle) (R := nat) * toy_run) :=
  accepted_step toy_identities tenth_repr toy_digest toy_recovery toy_text false (toy_runtime, toy_before script).

Example toy_step_returns :
  match toy_step [] with
  | (Returned n, (r, w)) => n = 3 ∧ ru_attempt r = 3 ∧ length (ru_reports r) = 1%nat
      ∧ map fst (ru_cursors r) = ["a.restart"; "b.energy"; "m.live"; "z.fields"]
      ∧ toy_artifacts (tr_files w) = [Visible; Visible; Visible; Visible]
  | _ => False
  end.
Proof. vm_compute. done. Qed.

(** The same firing outside an envelope, on the files alone. *)
Definition toy_files_runtime (script : list (option toy_event)) : outcome (list report) * (runtime (H := toy_handle) (R := nat) * toy_world) :=
  fire_consumers toy_identities tenth_repr toy_recovery [toy_moment 1 "0x1.0000000000000p-2"] (toy_runtime, toy_start script).

(** The definitions of the run are unfolded before those of the program. *)
#[local] Strategy expand [toy_step toy_files_runtime].


Lemma fire_is_atomic_witness :
  match toy_files_runtime [] with
  | (Returned reps, (r, w)) => cursors_ok (ru_cursors toy_runtime) ∧ length reps = 1%nat
      ∧ ∃ plans rows, published_by toy_identities toy_art (toy_art (toy_start [])) plans reps rows w
  | _ => False
  end.
Proof.
  destruct (toy_files_runtime []) as [out [r w]] eqn:E.
  assert (Hok : cursors_ok (ru_cursors toy_runtime)) by (vm_compute; split; constructor).
  pose proof (fire_is_atomic (R := nat) toy_identities toy_art toy_recovery tenth_repr
    [toy_moment 1 "0x1.0000000000000p-2"] toy_runtime (toy_start []) out r w Hok E) as Hfire.
  vm_compute in E. injection E as <- <- <-. destruct Hfire as (plans & rows & _ & Hpub & _ & _).
  split; [exact Hok|]. split; [vm_compute; reflexivity|]. exists plans, rows. exact Hpub.
Defined.
