(* ===== verification/ConsumerCheckpoint.v ===== *)
(** * What a checkpoint records

    A checkpoint of an accepted step is prepared before the step is accepted, while the
    runtime shows the cursors the step will leave.  When the step is accepted these are
    the cursors it has, and what is published was prepared with them, unless a [Retry]
    prepared it again. *)
From S2P Require Import Prelude SortedKeys Binary64 Scalar Manifest Points EveryDt Schedule StepStrategy Temporal Consumers ConsumerPlanning ConsumerTransaction ConsumerAtomic ConsumerPrepared ConsumerRuntime ConsumerStep ConsumerFire ConsumerEnvelope.

(** ** One moment per clock *)

Lemma moments_clocks digest g st step attempt at_start at_end ms : moments digest g st step attempt at_start at_end = Ok ms →
  map cmo_clock ms ≡ₚ remove_dups (map cm_clock (gr_nodes g)).
Proof.
  unfold moments. set (clocks := remove_dups _). intros H%map_res_Forall2.
  apply (Forall2_keys _ snd cmo_clock) in H.
  - rewrite <- H. change (snd <$> sort_keys (map (fun c => (qualified_id digest c, c)) clocks) ≡ₚ clocks).
    rewrite sort_keys_perm. change (map snd (map (fun c => (qualified_id digest c, c)) clocks) ≡ₚ clocks).
    by rewrite map_map, map_id.
  - intros [q c] mo Hmo. unfold clock_moment in Hmo. inv_ok. done.
Qed.

Section Checkpoint.
Context (I : identities) (repr : float → decimal) (plan : RuntimePlan) (g : graph) (cursors : cursor_set).
Context (Hnodes : NoDup (map cm_id (gr_topology g))).

Notation plan_at := (fun mo => plan_accepted_side_effects I repr plan g mo cursors).

(** The consumer of an effect, and its clock. *)
Lemma effect_consumer ms plans e : map_res plan_at ms = Ok plans → e ∈ concat (map ep_effects plans) →
  ∃ m mo, m ∈ gr_topology g ∧ mo ∈ ms ∧ ef_consumer e = cm_id m ∧ cm_clock m = cmo_clock mo.
Proof.
  intros H%map_res_Forall2 He. apply list_elem_of_In, in_concat in He as (es & (p & <- & Hp)%in_map_iff & He).
  apply list_elem_of_In in Hp, He. destruct (Forall2_right _ _ _ _ H Hp) as (mo & Hmo & Hplan).
  apply plan_planned in Hplan. destruct (planned_elem _ _ _ _ _ _ _ _ Hplan He) as (m & Hm & Hs).
  exists m, mo. split_and!; [done|done|by destruct Hs as (_ & ? & _)|by eapply next_sample_clock].
Qed.

(** Over all clocks, every consumer has one sample. *)
Lemma effects_distinct ms : ∀ plans, map_res plan_at ms = Ok plans → NoDup (map cmo_clock ms) →
  NoDup (map ef_consumer (concat (map ep_effects plans))).
Proof.
  induction ms as [|mo ms IH]; intros plans H Hn; cbn in H; inv_ok; cbn; [constructor|].
  apply NoDup_cons in Hn as [Hfresh Hn]. rewrite map_app. apply NoDup_app. split_and!.
  - eapply planned_NoDup; [by eapply plan_planned | done].
  - match goal with E : plan_accepted_side_effects _ _ _ _ _ _ = Ok ?y |- _ => rename E into Hp, y into p end.
    match goal with E : map_res _ ms = Ok ?l |- _ => rename E into Hps, l into ps end.
    intros x (e & -> & He)%list_elem_of_fmap (e' & Hx & He')%list_elem_of_fmap.
    destruct (planned_elem _ _ _ _ _ _ _ _ (plan_planned _ _ _ _ _ _ _ Hp) He) as (m & Hm & Hs).
    destruct (effect_consumer _ _ _ Hps He') as (m' & mo' & Hm' & Hmo' & Hid & Hclock).
    assert (m = m') as <-.
    { apply (same_id (gr_topology g)); [done..|]. destruct Hs as (_ & Hid' & _). congruence. }
    apply Hfresh. apply next_sample_clock in Hs. rewrite <- Hs, Hclock. apply list_elem_of_fmap. by exists mo'.
  - by apply IH.
Qed.
End Checkpoint.

Lemma sublist_all {A} (l k : list A) : k `sublist_of` l → NoDup l → (∀ x, x ∈ l → x ∈ k) → k = l.
Proof.
  induction 1 as [|x k l Hs IH|x k l Hs IH]; [done| |]; intros [Hx Hn]%NoDup_cons Hall.
  - f_equal. apply IH; [done|]. intros y Hy. pose proof (Hall y ltac:(by right)) as [->|]%elem_of_cons; done.
  - destruct Hx. eapply sublist_subseteq; [exact Hs|]. apply Hall. left.
Qed.

(** The guards of the checkpoint: none of its effects may be skipped. *)
Lemma override_commits g cursors effects predicted : checkpoint_override g cursors effects = Ok (Some predicted) →
  commit_cursors cursors effects = Ok predicted ∧ ∀ e, e ∈ effects → ef_action e ≠ SkipSampleReported.
Proof.
  unfold checkpoint_override. destruct (List.filter _ effects) as [|c l]; [done|]. intros H. inv_ok. bools. split; [done|].
  intros e He Ha. match goal with E : existsb _ _ = false |- _ => rename E into Hx end.
  rewrite <- not_true_iff_false, existsb_exists in Hx. apply Hx. exists e. rewrite <- list_elem_of_In. split; [done|].
  by apply bool_decide_true.
Qed.

Section Records.
Context {W H R : Type} `{!EqDecision H} `{!EqDecision R} `{!Publisher W H R} (I : identities) (art : W → H → artifact).
Context `{!PublisherLaws I art}.
Context (recovery_id : R → option string).

(** C13: A checkpoint records the cursors the accepted step leaves.  When the effects of
    a step include a checkpoint and the firing returns, every planned effect was
    published, the cursors of the runtime are those predicted from the plan, and the
    writer of each published effect prepared it while it was shown exactly these
    cursors; but a publication whose action is [Retry] may have been prepared again
    after a failure, and then its writer was shown the cursors of before the step. *)
Theorem checkpoint_records_final_cursors repr digest st step attempt at_start at_end ms plans predicted
    (r : runtime (H := H) (R := R)) w reps r' w' :
  cursors_ok (ru_cursors r) → NoDup (map cm_id (gr_topology (ru_graph r))) →
  moments digest (ru_graph r) st step attempt at_start at_end = Ok ms →
  map_res (fun mo => plan_accepted_side_effects I repr (ru_plan r) (ru_graph r) mo (ru_cursors r)) ms = Ok plans →
  checkpoint_override (ru_graph r) (ru_cursors r) (concat (map ep_effects plans)) = Ok (Some predicted) →
  fire_consumers I repr recovery_id ms (r, w) = (Returned reps, (r', w')) →
  ru_cursors r' = predicted
  ∧ ∃ rows, row_effects rows = concat (map ep_effects plans) ∧ published_by I art (art w) plans reps rows w'
    ∧ ∀ e h x, (e, h, x) ∈ rows →
        prepared_with (ru_cursors r') e h ∨ (is_retry e = true ∧ prepared_with (ru_cursors r) e h).
Proof.
  intros Hok Hg Hms Hplans Hover Hfire. pose proof (override_commits _ _ _ _ Hover) as [Hcommit Hskip].
  destruct (fire_spec I art recovery_id repr ms r w _ r' w' Hok Hfire)
    as (plans' & rows & Hp & Hpub & Hc & _ & _ & c & (o & Ho & ->) & Hmade). rewrite Hplans in Hp. injection Hp as <-.
  assert (Hall : row_effects rows = concat (map ep_effects plans)).
  { apply sublist_all; [by apply (pb_sublist _ _ _ _ _ _ _ Hpub)| |].
    - eapply (NoDup_fmap_1 ef_consumer), effects_distinct; [exact Hg | exact Hplans|].
      rewrite (moments_clocks _ _ _ _ _ _ _ _ Hms). apply NoDup_remove_dups.
    - intros e He. destruct (pb_accounted _ _ _ _ _ _ _ Hpub e He) as [|[Ha _]]; [done|]. by apply Hskip in Ha. }
  rewrite Hall, Hcommit in Hc. injection Hc as ->. split; [done|]. exists rows. split_and!; [done..|].
  rewrite Hover in Ho. injection Ho as <-. exact Hmade.
Qed.
End Records.

(** The firing of the toy run at the moments of its first step. *)
Definition toy_moments : res (list ConsumerMoment) :=
  moments toy_digest (ru_graph toy_runtime) (toy_temporal 1 (Stats 1 0 0)) 1 1 false false.
Definition toy_plans (ms : list ConsumerMoment) : res (list EffectPlan) :=
  map_res (fun mo => plan_accepted_side_effects toy_identities tenth_repr (ru_plan toy_runtime) (ru_graph toy_runtime) mo
                       (ru_cursors toy_runtime)) ms.
Definition toy_override (plans : list EffectPlan) : res (option cursor_set) :=
  checkpoint_override (ru_graph toy_runtime) (ru_cursors toy_runtime) (concat (map ep_effects plans)).
Definition toy_fire (ms : list ConsumerMoment) : outcome (list report) * (runtime (H := toy_handle) (R := nat) * toy_world) :=
  fire_consumers toy_identities tenth_repr toy_recovery ms (toy_runtime, toy_start []).
#[local] Strategy expand [toy_moments toy_plans toy_override toy_fire].

Lemma checkpoint_records_final_cursors_witness :
  match toy_moments with
  | Ok ms =>
      match toy_plans ms with
      | Ok plans =>
          match toy_override plans, toy_fire ms with
          | Ok (Some predicted), (Returned _, (r', _)) =>
              ru_cursors r' = predicted ∧ map fst predicted = ["a.restart"; "b.energy"; "m.live"; "z.fields"]
          | _, _ => False
          end
      | Err _ => False
      end
  | Err _ => False
  end.
Proof.
  destruct toy_moments as [ms|] eqn:Ems; [|vm_compute in Ems; discriminate].
  destruct (toy_plans ms) as [plans|] eqn:Ep; [|vm_compute in Ems; injection Ems as <-; vm_compute in Ep; discriminate].
  destruct (toy_override plans) as [[predicted|]|] eqn:Eo;
    [|vm_compute in Ems; injection Ems as <-; vm_compute in Ep; injection Ep as <-; vm_compute in Eo; discriminate..].
  destruct (toy_fire ms) as [[reps|e|] [r' w']] eqn:Ef;
    [|vm_compute in Ems; injection Ems as <-; vm_compute in Ef; discriminate..].
  assert (Hok : cursors_ok (ru_cursors toy_runtime)) by (vm_compute; split; constructor).
  assert (Hn : NoDup (map cm_id (gr_topology (ru_graph toy_runtime)))).
  { apply (bool_decide_unpack _). vm_compute. exact Logic.I. }
  pose proof (checkpoint_records_final_cursors (R := nat) toy_identities toy_art toy_recovery tenth_repr toy_digest (toy_temporal 1 (Stats 1 0 0)) 1 1 false false ms plans predicted toy_runtime (toy_start []) reps r' w'
    Hok Hn Ems Ep Eo Ef) as [Hfinal _].
  split; [exact Hfinal|]. vm_compute in Ems. injection Ems as <-. vm_compute in Ep. injection Ep as <-.
  vm_compute in Eo. injection Eo as <-. vm_compute. reflexivity.
Defined.

(** ** A checkpoint that is retried *)

(** The file writer of the toy run, with a log of the consumers shown with each
    preparation. *)
Record toy_log := ToyLog { tl_files : toy_world; tl_prepared : list (string * list string) }.
Definition logged {A} (op : toy_world → outcome A * toy_world) (s : toy_log) : outcome A * toy_log :=
  let '(r, w) := op (tl_files s) in (r, ToyLog w (tl_prepared s)).
Definition log_publisher : Publisher toy_log toy_handle nat := {|
  pub_prepare c e s := logged (toy_prepare c e) (ToyLog (tl_files s) (tl_prepared s ++ [(ef_consumer e, map fst c)]));
  pub_effect h := h.2.1;
  pub_payload h := h.2.2;
  pub_publish h := logged (toy_publish h);
  pub_discard h := logged (pub_discard (Publisher := toy_publisher) h);
  pub_rollback h := logged (pub_rollback (Publisher := toy_publisher) h);
  pub_finalize _ s := (Returned (Some tt), s);
  pub_recoveries _ _ := Returned (Some []) |}.

Definition retried_checkpoint : manifest :=
  Manifest (Handle "a.restart" "case") CHECKPOINT [] (MkSchedule (Always (AcceptedStep toy_clock None)) None) "file:a.restart"
    None SERIAL [] [] (Retry 2) None.
Definition retried_graph : graph :=
  match resolve_graph [retried_checkpoint] with Ok g => g | Err _ => Graph [] [] end.
Definition retried_runtime : runtime (H := toy_handle) (R := nat) :=
  Runtime toy_runtime_plan retried_graph 0 [] [] [] [] None.
Definition retried_fire (script : list (option toy_event)) : outcome (list report) * (runtime (H := toy_handle) (R := nat) * toy_log) :=
  fire_consumers (Publisher0 := log_publisher) toy_identities tenth_repr toy_recovery [toy_moment 1 "0x1.0000000000000p-2"]
    (retried_runtime, ToyLog (toy_start script) []).

(** The first publication of a checkpoint with [Retry] fails: it is prepared again after
    the override is gone, so the checkpoint that is published records no sample of the
    step, while the accepted cursors have its own. *)
Theorem retried_checkpoint_records_old_cursors :
  match retried_fire [Some ToyFails] with
  | (Returned reps, (r', s')) => map rt_status reps = [Accepted] ∧ map fst (ru_cursors r') = ["a.restart"]
      ∧ tl_prepared s' = [("a.restart", ["a.restart"]); ("a.restart", [])]
      ∧ toy_artifacts (tl_files s') = [Absent; Visible]
  | _ => False
  end.
Proof. vm_compute. done. Qed.
