(* ===== verification/JsonText.v ===== *)
(** * Compact JSON texts

    [json.dumps(node, ensure_ascii=False, separators=(",", ":"))] and
    [json.loads] on the nodes of the collective transport: strings, booleans and
    arrays.  A text is its list of UTF-8 bytes.  Every reader re-encodes the
    value and compares the bytes, so only the texts [dumps] writes matter. *)
From S2P Require Import Prelude.

Inductive tree := TStr (s : string) | TBool (b : bool) | TList (l : list tree).

(** The induction principle with the hypothesis for every element. *)
Fixpoint tree_ind' (P : tree → Prop) (Hs : ∀ s, P (TStr s)) (Hb : ∀ b, P (TBool b))
    (Hl : ∀ l, Forall P l → P (TList l)) (t : tree) : P t :=
  match t with
  | TStr s => Hs s
  | TBool b => Hb b
  | TList l => Hl l ((fix go l : Forall P l :=
      match l with
      | [] => Forall_nil_2 P
      | t :: l => Forall_cons_2 P t l (tree_ind' P Hs Hb Hl t) (go l)
      end) l)
  end.

(** ** Printing *)

Definition quote : ascii := ascii_of_nat 34.
Definition backslash : ascii := ascii_of_nat 92.

Definition low_hex (n : nat) : ascii := ascii_of_nat (if (n <? 10)%nat then 48 + n else 87 + n)%nat.

(** The escape of one character; the five short escapes, then [\u00XX]. *)
Definition escape (c : ascii) : list ascii :=
  let n := nat_of_ascii c in
  if (n =? 34)%nat then [backslash; quote]
  else if (n =? 92)%nat then [backslash; backslash]
  else if (n =? 10)%nat then [backslash; "n"%char]
  else if (n =? 13)%nat then [backslash; "r"%char]
  else if (n =? 9)%nat then [backslash; "t"%char]
  else if (n =? 12)%nat then [backslash; "f"%char]
  else if (n =? 8)%nat then [backslash; "b"%char]
  else if (n <? 32)%nat then [backslash; "u"%char; "0"%char; "0"%char; low_hex (n / 16); low_hex (n mod 16)]
  else [c].

Definition print_string (s : string) : list ascii :=
  quote :: (mbind (M := list) escape (list_ascii_of_string s)) ++ [quote].

Fixpoint dumps (t : tree) : list ascii :=
  match t with
  | TStr s => print_string s
  | TBool b => list_ascii_of_string (if b then "true" else "false")
  | TList l =>
      "["%char :: (match l with
                   | [] => []
                   | t :: l => dumps t ++ (fix go l := match l with
                                                       | [] => []
                                                       | t :: l => ","%char :: dumps t ++ go l end) l
                   end) ++ ["]"%char]
  end.

(** ** Parsing *)

Definition low_value (c : ascii) : option nat :=
  let n := nat_of_ascii c in
  if ((48 <=? n) && (n <=? 57))%nat then Some (n - 48)%nat
  else if ((97 <=? n) && (n <=? 102))%nat then Some (n - 87)%nat else None.

(** The one-letter escapes. *)
Definition unescape (c : ascii) : option ascii :=
  let n := nat_of_ascii c in
  if (n =? 34)%nat || (n =? 92)%nat then Some c
  else if (n =? 110)%nat then Some (ascii_of_nat 10)
  else if (n =? 114)%nat then Some (ascii_of_nat 13)
  else if (n =? 116)%nat then Some (ascii_of_nat 9)
  else if (n =? 102)%nat then Some (ascii_of_nat 12)
  else if (n =? 98)%nat then Some (ascii_of_nat 8)
  else None.

(** The characters up to the closing quote, and what follows it. *)
Fixpoint parse_chars (l : list ascii) : option (list ascii * list ascii) :=
  match l with
  | [] => None
  | c :: rest =>
      if Ascii.eqb c quote then Some ([], rest)
      else if Ascii.eqb c backslash then
        match rest with
        | d :: rest' =>
            if Ascii.eqb d "u" then
              match rest' with
              | z0 :: z1 :: h :: lo :: rest'' =>
                  if Ascii.eqb z0 "0" && Ascii.eqb z1 "0" then
                    h ← low_value h; lo ← low_value lo;
                    '(cs, out) ← parse_chars rest'';
                    Some (ascii_of_nat (16 * h + lo) :: cs, out)
                  else None
              | _ => None
              end
            else e ← unescape d; '(cs, out) ← parse_chars rest'; Some (e :: cs, out)
        | [] => None
        end
      else '(cs, out) ← parse_chars rest; Some (c :: cs, out)
  end.

(** Drops a literal prefix. *)
Fixpoint strip (prefix l : list ascii) : option (list ascii) :=
  match prefix, l with
  | [], _ => Some l
  | p :: prefix, c :: l => if Ascii.eqb p c then strip prefix l else None
  | _, [] => None
  end.

Fixpoint parse_tree (fuel : nat) (l : list ascii) : option (tree * list ascii) :=
  match fuel with
  | O => None
  | S fuel =>
      match l with
      | [] => None
      | c :: rest =>
          if Ascii.eqb c quote then
            '(cs, out) ← parse_chars rest; Some (TStr (string_of_list_ascii cs), out)
          else if Ascii.eqb c "[" then
            match rest with
            | d :: out => if Ascii.eqb d "]" then Some (TList [], out)
                          else '(t, out) ← parse_tree fuel rest;
                               '(ts, out) ← parse_items fuel out; Some (TList (t :: ts), out)
            | [] => None
            end
          else
            match strip (list_ascii_of_string "true") l with
            | Some out => Some (TBool true, out)
            | None => out ← strip (list_ascii_of_string "false") l; Some (TBool false, out)
            end
      end
  end
with parse_items (fuel : nat) (l : list ascii) : option (list tree * list ascii) :=
  match fuel with
  | O => None
  | S fuel =>
      match l with
      | [] => None
      | c :: out =>
          if Ascii.eqb c "]" then Some ([], out)
          else if Ascii.eqb c "," then
            '(t, out) ← parse_tree fuel out; '(ts, out) ← parse_items fuel out; Some (t :: ts, out)
          else None
      end
  end.

(** [json.loads]: the whole text is one value. *)
Definition loads (l : list ascii) : option tree :=
  match parse_tree (S (length l)) l with
  | Some (t, []) => Some t
  | _ => None
  end.

(** ** The round trip *)

Lemma parse_escape c cs out rest :
  parse_chars rest = Some (cs, out) → parse_chars (escape c ++ rest) = Some (c :: cs, out).
Proof.
  destruct c as [[] [] [] [] [] [] [] []]; intros H;
    match goal with |- context [escape ?c] => let e := eval vm_compute in (escape c) in change (escape c) with e end;
    cbn [app parse_chars]; rewrite H; reflexivity.
Qed.

Lemma parse_print s rest : parse_chars (mbind (M := list) escape s ++ quote :: rest) = Some (s, rest).
Proof.
  induction s as [|c s IH]; [done|]. cbn [mbind list_bind]. rewrite <- app_assoc. by apply parse_escape.
Qed.

Definition items_text (l : list tree) : list ascii := mbind (M := list) (fun t => ","%char :: dumps t) l.

Lemma dumps_list t l :
  dumps (TList (t :: l)) = "["%char :: dumps t ++ items_text l ++ ["]"%char].
Proof.
  cbn [dumps]. f_equal. by rewrite app_assoc.
Qed.

Lemma dumps_head t : ∃ c l, dumps t = c :: l ∧ Ascii.eqb c "]" = false.
Proof.
  destruct t as [s|[]|[|t l]]; (do 2 eexists; split; reflexivity).
Qed.

Lemma parse_dumps t :
  ∀ fuel rest, (length (dumps t) < fuel)%nat → parse_tree fuel (dumps t ++ rest) = Some (t, rest).
Proof.
  induction t as [s|b|l IH] using tree_ind'; intros [|fuel] rest Hf; try lia.
  - cbn [dumps]. unfold print_string. cbn [app parse_tree]. rewrite Ascii.eqb_refl.
    rewrite <- app_assoc. cbn [app]. rewrite parse_print. cbn. by rewrite string_of_list_ascii_of_string.
  - by destruct b.
  - assert (Hitems : ∀ l, Forall (λ t, ∀ fuel rest, (length (dumps t) < fuel)%nat →
                                    parse_tree fuel (dumps t ++ rest) = Some (t, rest)) l →
        ∀ fuel rest, (length (items_text l) < fuel)%nat →
        parse_items fuel (items_text l ++ "]"%char :: rest) = Some (l, rest)).
    { clear. induction 1 as [|t l Ht _ IH]; intros [|fuel] rest Hf; try lia; [done|].
      cbn [items_text mbind list_bind app length] in *. rewrite length_app in Hf.
      cbn [parse_items]. change (Ascii.eqb "," "]") with false. change (Ascii.eqb "," ",") with true. cbv iota.
      rewrite <- app_assoc. rewrite Ht by lia. cbn [mbind option_bind].
      by rewrite (IH fuel) by (unfold items_text; lia). }
    destruct l as [|t l]; [by destruct fuel|].
    rewrite dumps_list in *. cbn [app length] in *. rewrite !length_app in Hf. inversion_clear IH as [|? ? Ht Hl].
    destruct (dumps_head t) as (c & tl & Hc & Hne). cbn [parse_tree].
    change (Ascii.eqb "[" quote) with false. change (Ascii.eqb "[" "[") with true. cbv iota.
    rewrite <- !app_assoc. cbn [app]. pose proof (Ht fuel (items_text l ++ "]"%char :: rest) ltac:(lia)) as Hd.
    rewrite Hc in *. cbn [app] in *. rewrite Hne, Hd. cbn [mbind option_bind].
    by rewrite (Hitems l Hl fuel) by lia.
Qed.

Lemma loads_dumps t : loads (dumps t) = Some t.
Proof.
  unfold loads. rewrite <- (app_nil_r (dumps t)) at 2. by rewrite parse_dumps by lia.
Qed.

Lemma dumps_inj t u : dumps t = dumps u → t = u.
Proof. intros H. assert (Some t = Some u) by (by rewrite <- !loads_dumps, H). congruence. Qed.
