(* ===== verification/Collectives.v ===== *)
(** * Collective transport of control values

    [python/pops/_native_collectives.py]: the canonical text of a control
    value, its reader, the framed byte collectives and the authority checks of
    a communicator.  The byte collectives themselves are compiled code: they are
    arguments. *)
From Stdlib Require Import DecimalString DecimalZ.
From S2P Require Import Prelude SortedKeys Binary64 FloatValid HexFloat JsonText.

Notation bytes := (list ascii).

(** A Python value handed to the transport; [COther] is any value of a type
    the transport does not know. *)
Inductive cvalue :=
| CNone
| CBool (b : bool)
| CInt (z : Z)
| CFloat (f : float)
| CStr (s : string)
| CBytes (b : bytes)
| CTuple (l : list cvalue)
| CList (l : list cvalue)
| CMap (d : list (string * cvalue))
| COther.

Fixpoint cvalue_ind' (P : cvalue → Prop) (Hn : P CNone) (Hb : ∀ b, P (CBool b)) (Hz : ∀ z, P (CInt z))
    (Hf : ∀ f, P (CFloat f)) (Hs : ∀ s, P (CStr s)) (Hy : ∀ b, P (CBytes b))
    (Ht : ∀ l, Forall P l → P (CTuple l)) (Hl : ∀ l, Forall P l → P (CList l))
    (Hm : ∀ d, Forall (λ kv, P kv.2) d → P (CMap d)) (Ho : P COther) (v : cvalue) : P v :=
  let rec := cvalue_ind' P Hn Hb Hz Hf Hs Hy Ht Hl Hm Ho in
  let list := fix go l : Forall P l :=
    match l with [] => Forall_nil_2 P | v :: l => Forall_cons_2 P v l (rec v) (go l) end in
  match v with
  | CNone => Hn | CBool b => Hb b | CInt z => Hz z | CFloat f => Hf f | CStr s => Hs s | CBytes b => Hy b
  | CTuple l => Ht l (list l) | CList l => Hl l (list l)
  | CMap d => Hm d ((fix go d : Forall (λ kv, P kv.2) d :=
      match d with
      | [] => Forall_nil_2 _
      | kv :: d => Forall_cons_2 (λ kv, P kv.2) kv d (rec kv.2) (go d)
      end) d)
  | COther => Ho
  end.

(** ** Texts *)

(** [str(int)] *)
Definition int_text (z : Z) : string := NilZero.string_of_int (Z.to_int z).

(** [int(text, 10)] followed by the check [str(value) == text]. *)
Definition text_int (text : string) : option Z :=
  match NilZero.int_of_string text with
  | Some d => if String.eqb (int_text (Z.of_int d)) text then Some (Z.of_int d) else None
  | None => None
  end.

(** ** Encoding *)

(** One row of a mapping. *)
Definition encode_row '((key, node) : string * res tree) : res tree :=
  _ ← require (negb (String.eqb key EmptyString)) TypeError;
  node ← node;
  Ok (TList [TStr key; node]).

(** [_encode_node] *)
Fixpoint encode_node (v : cvalue) : res tree :=
  match v with
  | CNone => Ok (TList [TStr "none"])
  | CBool b => Ok (TList [TStr "bool"; TBool b])
  | CInt z => Ok (TList [TStr "int"; TStr (int_text z)])
  | CFloat f => _ ← require (is_finite f) ValueError; Ok (TList [TStr "float"; TStr (hex f)])
  | CStr s => Ok (TList [TStr "str"; TStr s])
  | CBytes _ => Err TypeError
  | CTuple l => l ← map_res encode_node l; Ok (TList [TStr "tuple"; TList l])
  | CList l => l ← map_res encode_node l; Ok (TList [TStr "list"; TList l])
  | CMap d =>
      rows ← map_res encode_row (sort_keys (map (fun '(k, v) => (k, encode_node v)) d));
      Ok (TList [TStr "map"; TList rows])
  | COther => Err TypeError
  end.

(** The rows of a mapping, in strictly increasing order of their keys. *)
Fixpoint decode_rows (decode : tree → res cvalue) (previous : option string) (rows : list tree)
    : res (list (string * cvalue)) :=
  match rows with
  | [] => Ok []
  | TList [TStr key; node] :: rows =>
      _ ← require (negb (String.eqb key EmptyString)) ValueError;
      _ ← require (match previous with Some p => negb (String.leb key p) | None => true end) ValueError;
      v ← decode node;
      rest ← decode_rows decode (Some key) rows;
      Ok ((key, v) :: rest)
  | _ :: _ => Err ValueError
  end.

(** [_decode_node] *)
Fixpoint decode_node (t : tree) : res cvalue :=
  match t with
  | TList (TStr tag :: rest) =>
      match rest with
      | [] => if String.eqb tag "none" then Ok CNone else Err ValueError
      | [TBool b] => if String.eqb tag "bool" then Ok (CBool b) else Err ValueError
      | [TStr s] =>
          if String.eqb tag "int" then match text_int s with Some z => Ok (CInt z) | None => Err ValueError end
          else if String.eqb tag "float" then match fromhex s with Some f => Ok (CFloat f) | None => Err ValueError end
          else if String.eqb tag "str" then Ok (CStr s) else Err ValueError
      | [TList l] =>
          if String.eqb tag "tuple" then CTuple <$> map_res decode_node l
          else if String.eqb tag "list" then CList <$> map_res decode_node l
          else if String.eqb tag "map" then CMap <$> decode_rows decode_node None l
          else Err ValueError
      | _ => Err ValueError
      end
  | _ => Err ValueError
  end.

(** [encode_value] and [decode_value] *)
Definition encode_value (v : cvalue) : res bytes := dumps <$> encode_node v.

Definition decode_value (payload : bytes) : res cvalue :=
  match payload with
  | [] => Err TypeError
  | _ =>
      match loads payload with
      | None => Err ValueError
      | Some node =>
          v ← decode_node node;
          again ← encode_value v;
          _ ← require (bool_decide (again = payload)) ValueError;
          Ok v
      end
  end.

(** ** Frames *)

Definition FRAME_OK : ascii := ascii_of_nat 0.
Definition FRAME_ERROR : ascii := ascii_of_nat 1.

Definition exn_name (e : exn) : string :=
  match e with
  | TypeError => "TypeError" | ValueError => "ValueError" | KeyError => "KeyError" | AttributeError => "AttributeError" | IndexError => "IndexError"
  | RuntimeError => "RuntimeError" | NotImplementedError => "NotImplementedError"
  | OverflowError => "OverflowError" | ZeroDivisionError => "ZeroDivisionError"
  | CoefficientLiteralError => "CoefficientLiteralError" | StepAttemptRejected => "StepAttemptRejected"
  | OwnershipError => "OwnershipError" | UnresolvedOwnershipError => "UnresolvedOwnershipError"
  | DoubleOwnershipError => "DoubleOwnershipError" | MissingOwnershipError => "MissingOwnershipError"
  | AmbiguousReferenceError => "AmbiguousReferenceError" | IdentityCollisionError => "IdentityCollisionError"
  end.

(** [_value_frame]; the message after the type name is not kept. *)
Definition value_frame (v : cvalue) : bytes :=
  match encode_value v with
  | Ok payload => FRAME_OK :: payload
  | Err e => FRAME_ERROR :: list_ascii_of_string (exn_name e)
  end.

(** [_bytes_frame] *)
Definition bytes_frame (v : cvalue) : bytes :=
  match v with
  | CBytes payload => FRAME_OK :: payload
  | _ => FRAME_ERROR :: list_ascii_of_string (exn_name TypeError)
  end.

(** [_frame_error(frame) is not None] *)
Definition frame_error (frame : bytes) : bool :=
  match frame with
  | c :: _ => negb (Ascii.eqb c FRAME_OK)
  | [] => true
  end.

(** ** Communicators *)

Inductive comm_type := NativeWorld | ObserverLane | ForeignObject.
#[global] Instance comm_type_dec : EqDecision comm_type. Proof. solve_decision. Defined.

Record communicator := Communicator {
  cm_type : comm_type; cm_identity : string; cm_active : bool; cm_rank : Z; cm_size : Z }.

Definition WORLD_IDENTITY : string := "MPI_COMM_WORLD".

Definition require_communicator (c : communicator) (allow_world : bool) : res communicator :=
  _ ← match cm_type c with
      | NativeWorld =>
          _ ← require allow_world TypeError;
          require (negb (String.eqb (cm_identity c) "serial") && String.eqb (cm_identity c) WORLD_IDENTITY) ValueError
      | ObserverLane => require (String.prefix (WORLD_IDENTITY +:+ "/") (cm_identity c)) ValueError
      | ForeignObject => Err TypeError
      end;
  _ ← require (cm_active c) ValueError;
  _ ← require (negb ((cm_size c <? 1) || (cm_rank c <? 0) || (cm_size c <=? cm_rank c))) ValueError;
  Ok c.

Definition require_world (c : communicator) : res communicator :=
  native ← require_communicator c true;
  _ ← require (bool_decide (cm_type native = NativeWorld)) TypeError;
  Ok native.

(** ** The collectives

    [allgather] is [native.allgather_bytes] ([None]: not a tuple), [bcast] is
    [native.broadcast_bytes], [gather] is [native.gather_bytes]. *)
Section Native.
Context (allgather : bytes → option (list bytes)) (bcast : bytes → Z → bytes) (gather : bytes → Z → option (list bytes)).

Definition checked_frames (n : Z) (frames : option (list bytes)) : res (list bytes) :=
  match frames with
  | None => Err RuntimeError
  | Some frames =>
      _ ← require (Z.of_nat (length frames) =? n) RuntimeError;
      _ ← require (negb (existsb frame_error frames)) RuntimeError;
      Ok (map tail frames)
  end.

Definition allgather_value (c : communicator) (v : cvalue) : res (list cvalue) :=
  native ← require_communicator c true;
  payloads ← checked_frames (cm_size native) (allgather (value_frame v));
  map_res decode_value payloads.

Definition allgather_bytes (c : communicator) (payload : cvalue) : res (list bytes) :=
  native ← require_communicator c true;
  checked_frames (cm_size native) (allgather (bytes_frame payload)).

Definition broadcast_value (c : communicator) (v : cvalue) (root : Z) : res cvalue :=
  native ← require_communicator c true;
  let frame := if cm_rank native =? root then value_frame v else [] in
  let result := bcast frame root in
  _ ← require (negb (frame_error result)) RuntimeError;
  decode_value (tail result).

Definition broadcast_bytes (c : communicator) (payload : cvalue) (root : Z) : res bytes :=
  native ← require_communicator c true;
  let frame := if cm_rank native =? root then bytes_frame payload else [] in
  let result := bcast frame root in
  _ ← require (negb (frame_error result)) RuntimeError;
  Ok (tail result).

Definition gather_bytes (c : communicator) (payload : cvalue) (root : Z) : res (option (list bytes)) :=
  native ← require_communicator c true;
  let frames := gather (bytes_frame payload) root in
  if negb (cm_rank native =? root) then
    match frames with Some _ => Err RuntimeError | None => Ok None end
  else Some <$> checked_frames (cm_size native) frames.
End Native.

(** ** Mapping order *)

Definition key_le (a b : string) : Prop := String.leb a b = true.

(** Consecutive keys are strictly increasing, as the reader checks. *)
Fixpoint increasing_keys (previous : option string) (keys : list string) : Prop :=
  match keys with
  | [] => True
  | k :: keys => match previous with Some p => String.leb k p = false | None => True end ∧ increasing_keys (Some k) keys
  end.

Lemma leb_strict a b : key_le a b → a ≠ b → String.leb b a = false.
Proof.
  intros H Hne. destruct (String.leb b a) eqn:E; [|done]. exfalso. by apply Hne, String.leb_antisym.
Qed.

Lemma insert_key_increasing {V} k (v : V) d : ∀ previous,
  k ∉ dkeys d → match previous with Some p => String.leb k p = false | None => True end →
  increasing_keys previous (dkeys d) → increasing_keys previous (dkeys (insert_key k v d)).
Proof.
  induction d as [|[k' v'] d IH]; intros previous Hk Hp Hd; cbn; [done|].
  cbn in Hk. apply not_elem_of_cons in Hk as [Hne Hk]. destruct Hd as [Hp' Hd].
  destruct (String.leb k k') eqn:E; cbn.
  - split; [done|]. split; [by apply leb_strict | done].
  - split; [done|]. by apply IH.
Qed.

Lemma sort_keys_increasing {V} (d : list (string * V)) :
  NoDup (dkeys d) → increasing_keys None (dkeys (sort_keys d)).
Proof.
  induction d as [|[k v] d IH]; [done|]. cbn. intros [Hk Hd]%NoDup_cons. unfold sort_keys in *. cbn [foldr].
  apply insert_key_increasing; [|done | by apply IH].
  intros [[k' v'] [-> H]]%list_elem_of_fmap. apply (sort_keys_elem d) in H. apply Hk.
  apply list_elem_of_fmap. by exists (k', v').
Qed.

(** Inserting below every key only prepends. *)
Lemma insert_key_below {V} k (v : V) d :
  increasing_keys (Some k) (dkeys d) → insert_key k v d = (k, v) :: d.
Proof.
  destruct d as [|[k' v'] d]; cbn; [done|]. intros [H _].
  destruct (String.leb k k') eqn:E; [done|]. by destruct (String.leb_total k k') as [?|?]; congruence.
Qed.

Lemma sort_keys_id {V} (d : list (string * V)) : ∀ p, increasing_keys p (dkeys d) → sort_keys d = d.
Proof.
  induction d as [|[k v] d IH]; intros p H; [done|]. destruct H as [_ H]. unfold sort_keys in *. cbn [foldr].
  rewrite (IH (Some k) H). by apply insert_key_below.
Qed.

(** ** The value every reader gets *)

(** Mappings in key order. *)
Fixpoint canon (v : cvalue) : cvalue :=
  match v with
  | CTuple l => CTuple (map canon l)
  | CList l => CList (map canon l)
  | CMap d => CMap (sort_keys (map (λ '(k, v), (k, canon v)) d))
  | v => v
  end.

(** A Python value: canonical floats and dictionaries without repeated keys. *)
Fixpoint pyobject (v : cvalue) : Prop :=
  match v with
  | CFloat f => valid f = true
  | CTuple l | CList l => foldr (λ v P, pyobject v ∧ P) True l
  | CMap d => NoDup (dkeys d) ∧ foldr (λ '(_, v) P, pyobject v ∧ P) True d
  | _ => True
  end.

Lemma int_of_text d : d ≠ Decimal.Pos Decimal.Nil → d ≠ Decimal.Neg Decimal.Nil →
  NilZero.int_of_string (NilZero.string_of_int d) = Some d.
Proof. apply NilZero.isi. Qed.

Lemma text_int_text z : text_int (int_text z) = Some z.
Proof.
  unfold text_int, int_text. rewrite int_of_text.
  - by rewrite DecimalZ.of_to, String.eqb_refl.
  - destruct z as [|p|p]; cbn; try done. intros H. injection H as H. by apply (DecimalPos.Unsigned.to_uint_nonnil p).
  - destruct z as [|p|p]; cbn; try done. intros H. injection H as H. by apply (DecimalPos.Unsigned.to_uint_nonnil p).
Qed.

Lemma foldr_and {A} (P : A → Prop) l : foldr (λ x Q, P x ∧ Q) True l ↔ Forall P l.
Proof. induction l as [|x l IH]; cbn; [by split|]. by rewrite Forall_cons, IH. Qed.

Definition reads_back (v : cvalue) : Prop :=
  pyobject v → ∀ t, encode_node v = Ok t → decode_node t = Ok (canon v) ∧ encode_node (canon v) = Ok t.

Lemma list_reads_back l ts :
  Forall reads_back l → Forall pyobject l → map_res encode_node l = Ok ts →
  map_res decode_node ts = Ok (map canon l) ∧ map_res encode_node (map canon l) = Ok ts.
Proof.
  intros Hl Hp H. apply map_res_Forall2 in H.
  induction H as [|v t l ts Hv _ IH]; [done|].
  apply Forall_cons in Hl as [Hv' Hl], Hp as [Hp' Hp]. destruct (Hv' Hp' t Hv) as [Hd He].
  destruct (IH Hl Hp) as [IHd IHe]. cbn [map map_res]. by rewrite Hd, He, IHd, IHe.
Qed.

Lemma rows_read_back d : ∀ previous rows,
  Forall (λ kv, reads_back kv.2) d → Forall (λ kv, pyobject kv.2) d → increasing_keys previous (dkeys d) →
  map_res encode_row (map (λ '(k, v), (k, encode_node v)) d) = Ok rows →
  decode_rows decode_node previous rows = Ok (map (λ '(k, v), (k, canon v)) d)
  ∧ map_res encode_row (map (λ '(k, v), (k, encode_node (canon v))) d) = Ok rows.
Proof.
  induction d as [|[k v] d IH]; intros previous rows Hd Hp Hk H; [cbn in H; by inv_ok|].
  apply Forall_cons in Hd as [Hv Hd], Hp as [Hpv Hp]. destruct Hk as [Hprev Hk].
  cbn [map map_res encode_row] in H |- *.
  destruct (String.eqb k EmptyString) eqn:Ek; [discriminate H|]. cbn [negb require mbind res_bind] in H |- *.
  destruct (encode_node v) as [t|] eqn:Et; [|discriminate H]. cbn [mbind res_bind] in H.
  match type of H with context [map_res encode_row ?l] => destruct (map_res encode_row l) as [ts|] eqn:Ets end;
    [|discriminate H]. cbn [mbind res_bind] in H. injection H as <-.
  destruct (Hv Hpv t Et) as [Hdec Henc]; cbn [snd fst] in *. destruct (IH (Some k) ts Hd Hp Hk eq_refl) as [IHd IHe].
  rewrite Henc. cbn [mbind res_bind decode_rows]. rewrite Ek, IHe. cbn [negb require mbind res_bind]. cbn [snd] in *.
  split; [|done]. destruct previous as [p|]; [rewrite Hprev|]; cbn [negb require mbind res_bind];
    by rewrite Hdec, IHd.
Qed.

Lemma pyobject_map d : pyobject (CMap d) ↔ NoDup (dkeys d) ∧ Forall (λ kv, pyobject kv.2) d.
Proof.
  cbn [pyobject]. rewrite <- foldr_and.
  assert (∀ (Q : Prop), foldr (λ '(_, v) P, pyobject v ∧ P) Q d ↔ foldr (λ x P, pyobject x.2 ∧ P) Q d) as H.
  { intros Q. induction d as [|[k v] d IH]; [done|]. cbn. by rewrite IH. }
  by rewrite H.
Qed.

Lemma encoded_reads_back v : reads_back v.
Proof.
  induction v as [|b|z|f|s|b|l IH|l IH|d IH|] using cvalue_ind'; intros Hp t Ht; cbn [encode_node] in Ht;
    try discriminate Ht.
  - injection Ht as <-. done.
  - injection Ht as <-. done.
  - injection Ht as <-. split; [|done]. cbn. by rewrite text_int_text.
  - destruct (is_finite f) eqn:Ef; [|discriminate Ht]. injection Ht as <-. split; [|cbn; by rewrite Ef].
    cbn. by rewrite fromhex_hex.
  - injection Ht as <-. done.
  - destruct (map_res encode_node l) as [ts|] eqn:E; [|discriminate Ht]. injection Ht as <-.
    cbn [pyobject] in Hp. apply foldr_and in Hp.
    destruct (list_reads_back l ts IH Hp E) as [Hd He]. cbn [decode_node canon encode_node].
    rewrite He. split; [|done]. cbn. by rewrite Hd.
  - destruct (map_res encode_node l) as [ts|] eqn:E; [|discriminate Ht]. injection Ht as <-.
    cbn [pyobject] in Hp. apply foldr_and in Hp.
    destruct (list_reads_back l ts IH Hp E) as [Hd He]. cbn [decode_node canon encode_node].
    rewrite He. split; [|done]. cbn. by rewrite Hd.
  - rewrite sort_keys_map in Ht.
    destruct (map_res encode_row _) as [rows|] eqn:E; [|discriminate Ht]. injection Ht as <-.
    apply pyobject_map in Hp as [Hn Hp].
    pose proof (sort_keys_increasing d Hn) as Hinc.
    destruct (rows_read_back (sort_keys d) None rows (Forall_sort _ _ IH) (Forall_sort _ _ Hp) Hinc E) as [Hd He].
    cbn [canon]. rewrite sort_keys_map. split.
    + cbn [decode_node]. cbn. by rewrite Hd.
    + cbn [encode_node]. rewrite (sort_keys_id _ None) by (by rewrite !dkeys_map).
      rewrite map_map. rewrite (map_ext _ (λ '(k, v), (k, encode_node (canon v)))) by (by intros []). by rewrite He.
Qed.

Lemma dumps_nonempty t : dumps t ≠ [].
Proof. destruct (dumps_head t) as (c & l & -> & _). done. Qed.

Lemma decode_encoded v payload :
  pyobject v → encode_value v = Ok payload → decode_value payload = Ok (canon v) ∧ encode_value (canon v) = Ok payload.
Proof.
  unfold encode_value. intros Hp H. destruct (encode_node v) as [t|] eqn:Et; [|discriminate H]. injection H as <-.
  destruct (encoded_reads_back v Hp t Et) as [Hd He]. rewrite He. split; [|done].
  unfold decode_value. destruct (dumps t) eqn:Ed; [by destruct (dumps_nonempty t)|]. rewrite <- Ed, loads_dumps.
  unfold encode_value. rewrite Hd. cbn [mbind res_bind]. rewrite He. cbn. by rewrite bool_decide_true.
Qed.

(** C35: the control-value transport: what a rank encodes, every rank reads back
    as the same value with its mappings in key order; and a payload is accepted
    only if it is byte for byte the encoding of the value it is read as, so no
    two payloads are read as one value. *)
Theorem control_values_roundtrip v payload :
  (pyobject v → encode_value v = Ok payload →
     decode_value payload = Ok (canon v) ∧ encode_value (canon v) = Ok payload)
  ∧ (decode_value payload = Ok v → encode_value v = Ok payload).
Proof.
  split; [apply decode_encoded|]. unfold decode_value. intros H.
  destruct payload; [discriminate H|]. destruct (loads _); [|discriminate H]. inv_ok. by bools; subst.
Qed.

Lemma control_values_roundtrip_witness :
  let v := CMap [("rank", CInt 3); ("error", CTuple [CNone; CFloat (float_of_Z 2)])] in
  let sorted := CMap [("error", CTuple [CNone; CFloat (float_of_Z 2)]); ("rank", CInt 3)] in
  ∃ payload, encode_value v = Ok payload ∧ decode_value payload = Ok sorted ∧ encode_value sorted = Ok payload.
Proof.
  eexists. split; [reflexivity|].
  apply (control_values_roundtrip (CMap [("rank", CInt 3); ("error", CTuple [CNone; CFloat (float_of_Z 2)])]) _).
  - split; [|repeat split]. apply (bool_decide_unpack _). vm_compute. exact I.
  - reflexivity.
Defined.

(** ** Every rank takes the same branch *)

Lemma require_communicator_ok c b native : require_communicator c b = Ok native → native = c.
Proof. unfold require_communicator. intros H. by inv_ok. Qed.

Lemma value_frame_error v : frame_error (value_frame v) = negb (is_ok (encode_value v)).
Proof. unfold value_frame. by destruct (encode_value v). Qed.

Lemma value_frame_ok v : is_ok (encode_value v) = true → encode_value v = Ok (tail (value_frame v)).
Proof. unfold value_frame. by destruct (encode_value v). Qed.

Lemma checked_value_frames vs :
  checked_frames (Z.of_nat (length vs)) (Some (map value_frame vs))
  = if forallb (λ v, is_ok (encode_value v)) vs then Ok (map (λ v, tail (value_frame v)) vs) else Err RuntimeError.
Proof.
  unfold checked_frames. rewrite length_map, Z.eqb_refl. cbn [require mbind res_bind]. rewrite map_map.
  assert (negb (existsb frame_error (map value_frame vs)) = forallb (λ v, is_ok (encode_value v)) vs) as ->;
    [|by destruct (forallb _ _)].
  induction vs as [|v vs IH]; [done|]. cbn [map existsb forallb].
  by rewrite negb_orb, IH, value_frame_error, negb_involutive.
Qed.

Lemma decode_frames vs :
  Forall pyobject vs → forallb (λ v, is_ok (encode_value v)) vs = true →
  map_res decode_value (map (λ v, tail (value_frame v)) vs) = Ok (map canon vs).
Proof.
  induction 1 as [|v vs Hv _ IH]; [done|]. cbn [forallb]. intros [He Hall]%andb_true_iff.
  cbn [map map_res]. destruct (decode_encoded v _ Hv (value_frame_ok v He)) as [-> _]. by rewrite (IH Hall).
Qed.

Lemma gathered_values allgather c v vs :
  Forall pyobject vs → is_ok (require_communicator c true) = true → cm_size c = Z.of_nat (length vs) →
  allgather (value_frame v) = Some (map value_frame vs) →
  allgather_value allgather c v
  = if forallb (λ v, is_ok (encode_value v)) vs then Ok (map canon vs) else Err RuntimeError.
Proof.
  intros Hv Hc Hn Hg. unfold allgather_value. destruct (require_communicator c true) as [native|] eqn:Ec; [|done].
  apply require_communicator_ok in Ec as ->. cbn [mbind res_bind]. rewrite Hg, Hn, checked_value_frames.
  destruct (forallb _ vs) eqn:E; [|done]. cbn [mbind res_bind]. by apply decode_frames.
Qed.

(** In an all-gather over a native transport that delivers the frames of
    the ranks in rank order, a rank returns the values of all ranks (mappings in
    key order) when every one of them could be encoded, and raises
    [RuntimeError] otherwise: the branch does not depend on the rank, so no
    rank continues with a result another rank did not get. *)
Theorem allgather_agrees allgather c v vs :
  Forall pyobject vs → is_ok (require_communicator c true) = true → cm_size c = Z.of_nat (length vs) →
  allgather (value_frame v) = Some (map value_frame vs) →
  allgather_value allgather c v
  = if forallb (λ v, is_ok (encode_value v)) vs then Ok (map canon vs) else Err RuntimeError.
Proof. apply gathered_values. Qed.

Lemma allgather_agrees_witness :
  let vs := [CInt 1; CBytes []] in
  allgather_value (λ _, Some (map value_frame vs)) (Communicator NativeWorld WORLD_IDENTITY true 1 2) (CInt 1)
  = Err RuntimeError.
Proof.
  apply (allgather_agrees (λ _, Some (map value_frame [CInt 1; CBytes []]))
           (Communicator NativeWorld WORLD_IDENTITY true 1 2) (CInt 1) [CInt 1; CBytes []]); try reflexivity.
  repeat constructor.
Defined.
