(* ===== verification/AttemptErrors.v ===== *)
(** * Attempt errors and the collective decision

    The first part of [python/pops/runtime/_step_strategy.py]: how an exception
    of one native attempt is read, and how the ranks of a distributed run turn
    their local results into one decision before anything is published. *)
From S2P Require Import Prelude Manifest JsonText Collectives StepTransaction.

(** An exception of an attempt.  The attributes are what
    [getattr(error, name)] gives, called when callable and converted with [str]
    or [int]; [None] when missing or when reading it raises. *)
Record error := Error {
  er_rejected : bool;
  er_type : string;
  er_message : string;
  er_status : option string;
  er_phase : option string;
  er_detail : option string;
  er_disposition : option string;
  er_code : option Z;
  er_notes : list string }.

(** [RuntimeError(message)] and the other plain exceptions *)
Definition plain_error (e : exn) (message : string) : error :=
  Error false (exn_name e) message None None None None None [].

(** [needle in text] *)
Definition contains (needle text : string) : bool :=
  match String.index 0 needle text with Some _ => true | None => false end.

(** [_phase] *)
Definition phase_of (e : error) : string :=
  match er_phase e with
  | Some value =>
      if bool_decide (value ∈ PHASES) then value
      else if String.eqb value "native_evaluation" then "stage" else "solve"
  | None =>
      default "solve"%string
        (List.find (fun phase => contains (" during " +:+ phase +:+ ":") (er_message e)) PHASES)
  end.

(** [_attempt_error_record] *)
Definition attempt_error_record (e : error) : cvalue :=
  let rejected {A} (f : A → cvalue) (x : A) := if er_rejected e then f x else CNone in
  CMap [("kind", CStr (if er_rejected e then "reject" else "fail"));
        ("type", CStr (er_type e));
        ("message", CStr (er_message e));
        ("status", rejected CStr (default "invalid_evaluation" (er_status e)));
        ("phase", CStr (phase_of e));
        ("detail", rejected CStr (default (er_message e) (er_detail e)));
        ("disposition", rejected CStr (default "reject" (er_disposition e)));
        ("reason_code", rejected CInt (default 0 (er_code e)))]%string.

Definition ERROR_KEYS : list string :=
  ["kind"; "type"; "message"; "status"; "phase"; "detail"; "disposition"; "reason_code"].

(** The fields the decision reads are strings, integers and [None]. *)
Definition scalar_eqb (a b : cvalue) : bool :=
  match a, b with
  | CNone, CNone => true
  | CStr a, CStr b => String.eqb a b
  | CInt a, CInt b => a =? b
  | _, _ => false
  end.
Definition scalar_str (v : cvalue) : string :=
  match v with CStr s => s | CInt z => int_text z | _ => "None" end.

Definition field (d : list (string * cvalue)) (key : string) : cvalue := default CNone (dget key d).

(** The loop over the gathered rows: the failures with their ranks, or the
    message of the first invalid envelope. *)
Fixpoint gathered_failures (rank : Z) (rows : list cvalue) : (list (Z * list (string * cvalue))) + string :=
  match rows with
  | [] => inl []
  | row :: rows =>
      match row with
      | CMap d =>
          if same_keys (dkeys d) ["rank"; "error"] && scalar_eqb (field d "rank") (CInt rank) then
            match field d "error" with
            | CNone => gathered_failures (rank + 1) rows
            | CMap e =>
                if same_keys (dkeys e) ERROR_KEYS then
                  match gathered_failures (rank + 1) rows with
                  | inl failures => inl ((rank, e) :: failures)
                  | inr m => inr m
                  end
                else inr ("collective step attempt returned an invalid error envelope on rank " +:+ int_text rank)
            | _ => inr ("collective step attempt returned an invalid error envelope on rank " +:+ int_text rank)
            end
          else inr "collective step attempt returned an invalid rank envelope"%string
      | _ => inr "collective step attempt returned an invalid rank envelope"%string
      end
  end.

(** The controls two rejections must share. *)
Definition controls_of (e : list (string * cvalue)) : list cvalue :=
  [field e "status"; field e "phase"; field e "disposition"; field e "reason_code"].
Definition same_controls (a b : list (string * cvalue)) : bool :=
  forallb (fun '(x, y) => scalar_eqb x y) (zip (controls_of a) (controls_of b)).

Definition is_kind (kind : string) (f : Z * list (string * cvalue)) : bool :=
  scalar_eqb (field f.2 "kind") (CStr kind).

(** [len({controls of the rejections}) > 1] *)
Definition rejection_divergent (failures : list (Z * list (string * cvalue))) : bool :=
  match List.filter (is_kind "reject") failures with
  | [] => false
  | f :: rest => negb (forallb (fun g => same_controls f.2 g.2) rest)
  end.

Definition diagnostics_of (failures : list (Z * list (string * cvalue))) : string :=
  String.concat "; " (map (fun '(rank, e) =>
    "rank " +:+ int_text rank +:+ " " +:+ scalar_str (field e "type") +:+ ": " +:+ scalar_str (field e "message"))
    failures).

Definition code_of (v : cvalue) : Z := match v with CInt z => z | _ => 0 end.

(** What [_collective_attempt_error] returns for the gathered rows. *)
Definition decide_rows (rows : list cvalue) : option error :=
  match gathered_failures 0 rows with
  | inr message => Some (plain_error RuntimeError message)
  | inl [] => None
  | inl ((first :: others) as failures) =>
      let fatal := List.filter (is_kind "fail") failures in
      let selected := match fatal with f :: _ => f | [] => first end in
      let diagnostics := diagnostics_of failures in
      let phase := scalar_str (field selected.2 "phase") in
      if negb (bool_decide (fatal = [])) || negb (length failures =? length rows)%nat || rejection_divergent failures
      then Some (plain_error RuntimeError ("collective step attempt failed during " +:+ phase +:+ ": " +:+ diagnostics))
      else
        match field selected.2 "status", field selected.2 "disposition" with
        | CStr status, CStr disposition =>
            if negb (bool_decide (status ∈ SOLVE_STATUSES)) then
              Some (plain_error RuntimeError
                      ("collective step attempt returned an invalid rejection status on rank " +:+ int_text selected.1))
            else if negb (bool_decide (disposition ∈ ["retry"; "reject"])) then
              Some (plain_error RuntimeError
                      ("collective step attempt returned an invalid rejection disposition on rank "
                         +:+ int_text selected.1))
            else
              Some (Error true "StepAttemptRejected"
                      ("collective step attempt rejected during " +:+ phase +:+ ": " +:+ diagnostics)
                      (Some status) (Some phase) (Some diagnostics) (Some disposition)
                      (Some (code_of (field selected.2 "reason_code"))) [])
        | _, _ =>
            Some (plain_error RuntimeError
                    ("collective step attempt returned an invalid rejection status on rank " +:+ int_text selected.1))
        end
  end.

(** The envelope a rank contributes. *)
Definition rank_row (rank : Z) (local : option error) : cvalue :=
  CMap [("rank", CInt rank); ("error", match local with None => CNone | Some e => attempt_error_record e end)]%string.

(** [_collective_attempt_error]; [world] is [_attempt_world(engine)], already
    authenticated by [require_world], and [allgather] its native byte
    collective.  The gather itself may raise. *)
Definition collective_attempt_error (allgather : bytes → option (list bytes)) (world : option communicator)
    (local : option error) : res (option error) :=
  match world with
  | None => Ok local
  | Some c =>
      if cm_size c =? 1 then Ok local
      else
        rows ← allgather_value allgather c (rank_row (cm_rank c) local);
        Ok (decide_rows rows)
  end.

(** ** The gathered rows *)

Definition error_fields (e : error) : list (string * cvalue) :=
  match canon (attempt_error_record e) with CMap d => d | _ => [] end.

Lemma canon_record e : canon (attempt_error_record e) = CMap (error_fields e).
Proof. done. Qed.

Lemma error_fields_get e :
  let rejected {A} (f : A → cvalue) (x : A) := if er_rejected e then f x else CNone in
  field (error_fields e) "kind" = CStr (if er_rejected e then "reject" else "fail")
  ∧ field (error_fields e) "status" = rejected CStr (default "invalid_evaluation" (er_status e))
  ∧ field (error_fields e) "phase" = CStr (phase_of e)
  ∧ field (error_fields e) "disposition" = rejected CStr (default "reject" (er_disposition e))
  ∧ field (error_fields e) "reason_code" = rejected CInt (default 0 (er_code e))
  ∧ same_keys (dkeys (error_fields e)) ERROR_KEYS = true.
Proof.
  destruct e as [[] ty me st ph de di co no]; repeat split; unfold error_fields, attempt_error_record;
    generalize (phase_of (Error true ty me st ph de di co no)), (phase_of (Error false ty me st ph de di co no));
    intros p q; vm_compute; reflexivity.
Qed.

Fixpoint rows_from (k : Z) (locals : list (option error)) : list cvalue :=
  match locals with [] => [] | e :: locals => rank_row k e :: rows_from (k + 1) locals end.

Fixpoint failures_from (k : Z) (locals : list (option error)) : list (Z * list (string * cvalue)) :=
  match locals with
  | [] => []
  | Some e :: locals => (k, error_fields e) :: failures_from (k + 1) locals
  | None :: locals => failures_from (k + 1) locals
  end.

Lemma length_rows k locals : length (rows_from k locals) = length locals.
Proof. revert k. induction locals as [|e locals IH]; intros k; cbn; [done | by rewrite IH]. Qed.

Lemma record_transport e :
  pyobject (attempt_error_record e) ∧ is_ok (encode_node (attempt_error_record e)) = true.
Proof.
  destruct e as [[] ty me st ph de di co no]; unfold attempt_error_record;
    generalize (phase_of (Error true ty me st ph de di co no)), (phase_of (Error false ty me st ph de di co no));
    intros p q; (split; [|vm_compute; reflexivity]); cbn [pyobject];
    (split; [apply (bool_decide_unpack _); vm_compute; exact I | cbn; tauto]).
Qed.

Lemma row_transport k local :
  pyobject (rank_row k local) ∧ is_ok (encode_value (rank_row k local)) = true.
Proof.
  unfold rank_row, encode_value. destruct local as [e|].
  - destruct (record_transport e) as [Hp He]. destruct (encode_node (attempt_error_record e)) as [t|] eqn:Et; [|done].
    split.
    + cbn [pyobject]. split; [apply (bool_decide_unpack _); vm_compute; exact I|]. cbn [foldr]. by split; [|split].
    + cbn [encode_node map]. rewrite Et. reflexivity.
  - split; [|reflexivity]. cbn [pyobject]. split; [apply (bool_decide_unpack _); vm_compute; exact I | cbn; tauto].
Qed.

Lemma rows_transport locals : ∀ k,
  Forall pyobject (rows_from k locals) ∧ forallb (λ v, is_ok (encode_value v)) (rows_from k locals) = true.
Proof.
  induction locals as [|e locals IH]; intros k; [by split|]. cbn [rows_from forallb].
  destruct (row_transport k e) as [Hp He], (IH (k + 1)) as [Hps Hes]. rewrite He, Hes. split; [by constructor | done].
Qed.

Lemma gathered_rows locals : ∀ k, gathered_failures k (map canon (rows_from k locals)) = inl (failures_from k locals).
Proof.
  induction locals as [|[e|] locals IH]; intros k; [done|..]; cbn [rows_from map].
  - assert (canon (rank_row k (Some e)) = CMap [("error", CMap (error_fields e)); ("rank", CInt k)]%string) as -> by done.
    cbn [gathered_failures failures_from].
    replace (same_keys (dkeys _) ["rank"; "error"]) with true by (symmetry; vm_compute; reflexivity).
    change (field _ "rank") with (CInt k). change (field _ "error") with (CMap (error_fields e)).
    cbn [scalar_eqb andb]. rewrite Z.eqb_refl. destruct (error_fields_get e) as (_ & _ & _ & _ & _ & ->). by rewrite IH.
  - change (canon (rank_row k None)) with (CMap [("error", CNone); ("rank", CInt k)]%string).
    cbn [gathered_failures failures_from].
    replace (same_keys _ _) with true by (symmetry; vm_compute; reflexivity).
    change (field _ "rank") with (CInt k). change (field _ "error") with CNone.
    cbn [scalar_eqb andb]. rewrite Z.eqb_refl. by rewrite IH.
Qed.

(** The gather of one distributed attempt: every rank decides on the same rows. *)
Lemma collective_rows allgather c r local locals :
  is_ok (require_communicator c true) = true → cm_size c = Z.of_nat (length locals) → cm_size c ≠ 1 → cm_rank c = r →
  allgather (value_frame (rank_row r local)) = Some (map value_frame (rows_from 0 locals)) →
  collective_attempt_error allgather (Some c) local = Ok (decide_rows (map canon (rows_from 0 locals))).
Proof.
  intros Hc Hn H1 Hr Hg. unfold collective_attempt_error. rewrite (proj2 (Z.eqb_neq _ _) H1), Hr.
  destruct (rows_transport locals 0) as [Hp He].
  rewrite (gathered_values allgather c _ (rows_from 0 locals)); try done; [by rewrite He | by rewrite length_rows].
Qed.

(** ** The decision *)

(** The controls of a rejection, as the record carries them. *)
Definition controls (e : error) : string * string * string * Z :=
  (default "invalid_evaluation"%string (er_status e), phase_of e, default "reject"%string (er_disposition e),
   default 0 (er_code e)).

Lemma same_controls_iff e f :
  er_rejected e = true → er_rejected f = true →
  same_controls (error_fields e) (error_fields f) = true ↔ controls e = controls f.
Proof.
  intros He Hf. unfold same_controls, controls_of, controls.
  destruct (error_fields_get e) as (_ & -> & -> & -> & -> & _), (error_fields_get f) as (_ & -> & -> & -> & -> & _).
  rewrite He, Hf. cbn [zip zip_with forallb scalar_eqb].
  rewrite !andb_true_iff, !String.eqb_eq, Z.eqb_eq. split; [intros (-> & -> & -> & -> & _); done|].
  intros [= -> -> -> ->]. done.
Qed.

(** Every rank rejected the attempt, with the controls of [e]. *)
Definition unanimous (locals : list (option error)) (e : error) : Prop :=
  Forall (λ local, ∃ f, local = Some f ∧ er_rejected f = true ∧ controls f = controls e) locals
  ∧ default "invalid_evaluation"%string (er_status e) ∈ SOLVE_STATUSES
  ∧ default "reject"%string (er_disposition e) ∈ ["retry"; "reject"]%string.

Lemma failures_nil locals k : failures_from k locals = [] ↔ Forall (λ l, l = None) locals.
Proof.
  revert k. induction locals as [|[e|] locals IH]; intros k; cbn.
  - by split.
  - split; [done|]. intros [? _]%Forall_cons. done.
  - rewrite IH, Forall_cons. tauto.
Qed.

Lemma failures_length locals k : (length (failures_from k locals) <= length locals)%nat.
Proof. revert k. induction locals as [|[e|] locals IH]; intros k; cbn; [lia | specialize (IH (k + 1)); lia..]. Qed.

Lemma failures_all locals k :
  length (failures_from k locals) = length locals ↔ Forall is_Some locals.
Proof.
  revert k. induction locals as [|[e|] locals IH]; intros k; cbn.
  - by split.
  - rewrite Forall_cons, <- (IH (k + 1)). split; [intros [= ?]; eauto | intros [_ ->]; done].
  - pose proof (failures_length locals (k + 1)). split; [lia|]. intros [[? [=]] _]%Forall_cons.
Qed.

Lemma filter_fail locals k :
  List.filter (is_kind "fail") (failures_from k locals) = [] ↔
  Forall (λ l, match l with Some e => er_rejected e = true | None => True end) locals.
Proof.
  revert k. induction locals as [|[e|] locals IH]; intros k; cbn [failures_from List.filter].
  - by split.
  - rewrite Forall_cons. unfold is_kind at 1. destruct (error_fields_get e) as (Hk & _). cbn [snd]. rewrite Hk.
    destruct (er_rejected e); cbn.
    + rewrite <- (IH (k + 1)). tauto.
    + split; [done | by intros [? _]].
  - rewrite Forall_cons. rewrite <- (IH (k + 1)). tauto.
Qed.

Lemma filter_reject locals k :
  Forall (λ l, ∃ e, l = Some e ∧ er_rejected e = true) locals →
  List.filter (is_kind "reject") (failures_from k locals) = failures_from k locals.
Proof.
  intros H. revert k. induction H as [|l locals (e & -> & He) _ IH]; intros k; [done|].
  cbn [failures_from List.filter]. unfold is_kind at 1. destruct (error_fields_get e) as (Hk & _). cbn [snd].
  rewrite Hk, He. cbn. by rewrite IH.
Qed.

Lemma all_same_controls e locals k :
  er_rejected e = true → Forall (λ l, ∃ f, l = Some f ∧ er_rejected f = true) locals →
  forallb (λ g, same_controls (error_fields e) g.2) (failures_from k locals) = true ↔
  Forall (λ l, ∃ f, l = Some f ∧ er_rejected f = true ∧ controls f = controls e) locals.
Proof.
  intros He H. revert k. induction H as [|l locals (f & -> & Hf) _ IH]; intros k; [by split|].
  cbn [failures_from forallb snd]. rewrite andb_true_iff, Forall_cons, (IH (k + 1)), same_controls_iff by done.
  split.
  - intros [Hc ?]. split; [|done]. by exists f.
  - intros [(g & [= <-] & _ & Hc) ?]. by split.
Qed.

Lemma phase_of_known e : phase_of e ∈ PHASES.
Proof.
  assert (Hin : ∀ p, bool_decide (p ∈ PHASES) = true → p ∈ PHASES) by (intros p H; by apply bool_decide_eq_true in H).
  unfold phase_of. destruct (er_phase e) as [value|].
  - destruct (bool_decide (value ∈ PHASES)) eqn:E; [by apply Hin|].
    destruct (String.eqb value "native_evaluation"); by apply Hin.
  - destruct (List.find _ PHASES) as [p|] eqn:E; [|by apply Hin].
    apply find_some in E as [Hp _]. by apply list_elem_of_In.
Qed.

Lemma phase_of_Some e p : er_phase e = Some p → p ∈ PHASES → phase_of e = p.
Proof. intros He Hp. unfold phase_of. by rewrite He, bool_decide_true. Qed.

(** The decision when every rank rejected alike. *)
Lemma decide_unanimous e0 locals :
  er_rejected e0 = true →
  Forall (λ l, ∃ f, l = Some f ∧ er_rejected f = true ∧ controls f = controls e0) locals →
  ∃ d, decide_rows (map canon (rows_from 0 (Some e0 :: locals))) = Some d
    ∧ if bool_decide (default "invalid_evaluation"%string (er_status e0) ∈ SOLVE_STATUSES)
         && bool_decide (default "reject"%string (er_disposition e0) ∈ ["retry"; "reject"]%string)
      then er_rejected d = true ∧ controls d = controls e0 else er_rejected d = false.
Proof.
  intros He0 Hall. set (all := Some e0 :: locals).
  assert (Hrej : Forall (λ l, ∃ f, l = Some f ∧ er_rejected f = true) all).
  { constructor; [by exists e0|]. eapply Forall_impl; [exact Hall|]. intros l (f & ? & ? & ?). by exists f. }
  unfold decide_rows. rewrite gathered_rows.
  assert (Hf : List.filter (is_kind "fail") (failures_from 0 all) = []).
  { apply filter_fail. eapply Forall_impl; [exact Hrej|]. by intros l (f & -> & ?). }
  assert (Hlen : length (failures_from 0 all) = length all).
  { apply failures_all. eapply Forall_impl; [exact Hrej|]. intros l (f & -> & ?). eauto. }
  assert (Hdiv : rejection_divergent (failures_from 0 all) = false).
  { unfold rejection_divergent. rewrite filter_reject by done. cbn [all failures_from snd].
    apply negb_false_iff, all_same_controls; [done | | done]. by inversion_clear Hrej. }
  assert (HF : failures_from 0 all = (0, error_fields e0) :: failures_from 1 locals) by done.
  rewrite HF in Hf, Hlen, Hdiv |- *. cbv beta iota zeta.
  rewrite Hf, Hdiv, length_map, length_rows, Hlen, Nat.eqb_refl. rewrite bool_decide_true by done. cbn [negb orb snd fst].
  destruct (error_fields_get e0) as (_ & -> & -> & -> & -> & _). rewrite He0.
  destruct (bool_decide (_ ∈ SOLVE_STATUSES)); cbn [negb andb]; [|by eexists].
  destruct (bool_decide (_ ∈ ["retry"; "reject"]%string)); cbn [negb]; [|by eexists].
  eexists. split; [done|]. split; [done|]. unfold controls.
  by rewrite (phase_of_Some (Error _ _ _ _ _ _ _ _ _) (phase_of e0)) by (done || apply phase_of_known).
Qed.

Lemma decide_rejected locals d :
  decide_rows (map canon (rows_from 0 locals)) = Some d → er_rejected d = true →
  ∃ e0 rest, locals = Some e0 :: rest ∧ er_rejected e0 = true
    ∧ Forall (λ l, ∃ f, l = Some f ∧ er_rejected f = true ∧ controls f = controls e0) rest.
Proof.
  unfold decide_rows. rewrite gathered_rows, length_map, length_rows. intros H Hd.
  destruct (failures_from 0 locals) as [|first others] eqn:Ef; [discriminate H|].
  destruct (negb (bool_decide _) || _ || _) eqn:Eb; [injection H as <-; discriminate Hd|].
  apply orb_false_iff in Eb as [[Efat Elen]%orb_false_iff Ediv].
  apply negb_false_iff in Efat, Elen. apply bool_decide_eq_true in Efat. apply Nat.eqb_eq in Elen.
  rewrite <- Ef in *. apply filter_fail in Efat. apply failures_all in Elen.
  assert (Hrej : Forall (λ l, ∃ f, l = Some f ∧ er_rejected f = true) locals).
  { rewrite Forall_forall in *. intros l Hl. destruct (Elen l Hl) as [f ->]. exists f. split; [done|].
    by apply (Efat (Some f)). }
  destruct locals as [|[e0|] rest]; [discriminate Ef | | apply Forall_cons in Elen as [[? [=]] _]].
  pose proof Hrej as Hrej'. apply Forall_cons in Hrej' as [(f & [= <-] & He0) Hrest].
  exists e0, rest. split; [done | split; [done|]].
  unfold rejection_divergent in Ediv. rewrite filter_reject in Ediv by done. cbn [failures_from snd] in Ediv.
  apply negb_false_iff in Ediv. by apply all_same_controls in Ediv.
Qed.

(** C17: the ranks of a distributed attempt agree before anything is published.
    Every rank computes one and the same decision [d] from the gathered local
    results.  [d] is "no error" exactly when no rank failed; it is a rejection,
    which lets the controller retry, exactly when every rank rejected with one
    solve status, phase, disposition and reason code; in particular a mixed
    success and rejection, or one fatal rank, fails the run on every rank. *)
Theorem collective_decision_agrees locals :
  (2 <= length locals)%nat → ∃ d,
  (∀ allgather c local,
     is_ok (require_communicator c true) = true → cm_size c = Z.of_nat (length locals) →
     allgather (value_frame (rank_row (cm_rank c) local)) = Some (map value_frame (rows_from 0 locals)) →
     collective_attempt_error allgather (Some c) local = Ok d)
  ∧ (d = None ↔ Forall (λ l, l = None) locals)
  ∧ (∀ e, d = Some e → er_rejected e = true → unanimous locals e)
  ∧ (∀ e, unanimous locals e → ∃ e', d = Some e' ∧ er_rejected e' = true ∧ controls e' = controls e).
Proof.
  intros Hlen. exists (decide_rows (map canon (rows_from 0 locals))). split; [|split; [|split]].
  - intros allgather c local Hc Hn Hg. by apply (collective_rows allgather c (cm_rank c) local locals); try lia.
  - unfold decide_rows. rewrite gathered_rows, <- (failures_nil locals 0).
    destruct (failures_from 0 locals); [by split|]. split; [|done].
    intros H. destruct (_ || _ || _); [done|]. destruct (field _ _); try done. destruct (field _ _); try done.
    by repeat (destruct (negb _)).
  - intros e He Hr. destruct (decide_rejected locals e He Hr) as (e0 & rest & -> & He0 & Hall).
    destruct (decide_unanimous e0 rest He0 Hall) as (d & Hd & Hctl). rewrite He in Hd. injection Hd as <-.
    destruct (bool_decide _) eqn:E1, (bool_decide (default "reject"%string _ ∈ _)) eqn:E2; cbn [andb] in Hctl;
      try congruence. destruct Hctl as [_ Hctl].
    apply bool_decide_eq_true in E1, E2. unfold unanimous. rewrite Hctl.
    unfold controls in Hctl. injection Hctl as Hs _ Hdi _. rewrite Hs, Hdi. split; [|by split].
    constructor; [by exists e0 | done].
  - intros e (Hall & Hs & Hdi). destruct locals as [|l rest]; [cbn in Hlen; lia|].
    apply Forall_cons in Hall as [(e0 & -> & He0 & Hc) Hall].
    assert (Hall0 : Forall (λ l, ∃ f, l = Some f ∧ er_rejected f = true ∧ controls f = controls e0) rest)
      by (eapply Forall_impl; [exact Hall|]; intros l (f & ? & ? & ?); exists f; by rewrite Hc).
    destruct (decide_unanimous e0 rest He0 Hall0) as (d & Hd & Hctl).
    assert (Hc' := Hc). unfold controls in Hc'. injection Hc' as Hs' _ Hd' _.
    rewrite Hs', Hd', !bool_decide_true in Hctl by done. destruct Hctl as [? Hctl]. exists d. by rewrite Hctl.
Qed.

Definition toy_rejection : error :=
  Error true "StepAttemptRejected" "no convergence" (Some "iteration_limit") (Some "solve") None (Some "retry") (Some 7) [].

Lemma collective_decision_agrees_witness :
  ∃ d,
  (∀ allgather c local,
     is_ok (require_communicator c true) = true → cm_size c = 2 →
     allgather (value_frame (rank_row (cm_rank c) local))
     = Some (map value_frame (rows_from 0 [Some toy_rejection; None])) →
     collective_attempt_error allgather (Some c) local = Ok d)
  ∧ (d = None ↔ Forall (λ l, l = None) [Some toy_rejection; None])
  ∧ (∀ e, d = Some e → er_rejected e = true → unanimous [Some toy_rejection; None] e)
  ∧ (∀ e, unanimous [Some toy_rejection; None] e → ∃ e', d = Some e' ∧ er_rejected e' = true ∧ controls e' = controls e).
Proof. apply (collective_decision_agrees [Some toy_rejection; None]). cbn. lia. Defined.
