(* ===== verification/StepRuntime.v ===== *)
(** * Step execution

    The execution half of [python/pops/runtime/_step_strategy.py]: one native
    attempt between the restart envelope and the native engine, the prepared
    attempt sequences of the four controllers, their bounded retries, and the
    step of a prepared run.  The native engine is compiled code: the interface
    [Native]; [NativeLaws] is what the drivers rely on. *)
From S2P Require Import Prelude SortedKeys Binary64 FloatValid HexFloat FloatError Manifest StepStrategy Temporal StepControllers Collectives StepTransaction AttemptErrors.

(** [native.time()], [macro_step()], [step(dt)], [step_cfl(cfl, max_dt,
    min_dt)] and [_consume_step_projections()]. *)
Class Native (N : Type) := {
  native_time : N → float;
  native_macro_step : N → Z;
  native_step : float → N → N * option error;
  native_step_cfl : float → float → float → N → N * option error;
  native_projections : N → option (list string) }.

(** An accepted step adds its interval to the clock; a rejected one restores
    the clock. *)
Class NativeLaws (N : Type) `{Native N} := {
  step_commits : ∀ dt n n', native_step dt n = (n', None) →
    native_time n' = fadd (native_time n) dt ∧ native_macro_step n' = native_macro_step n + 1;
  step_restores : ∀ dt n n' e, native_step dt n = (n', Some e) → er_rejected e = true →
    native_time n' = native_time n ∧ native_macro_step n' = native_macro_step n;
  step_cfl_restores : ∀ cfl max_dt min_dt n n' e, native_step_cfl cfl max_dt min_dt n = (n', Some e) →
    er_rejected e = true → native_time n' = native_time n ∧ native_macro_step n' = native_macro_step n }.

(** The live controller; [sc_grid] is used by [FixedDt], [sc_next] by
    [ErrorControlledDt], [sc_times] by [ExternalTimeGrid]. *)
Record step_controller := StepController {
  sc_strategy : strategy;
  sc_controls : list (string * float);
  sc_times : list float;
  sc_grid : option fixed_grid;
  sc_next : float;
  sc_attempts : Z }.

Definition set_grid (c : step_controller) (g : option fixed_grid) : step_controller :=
  StepController (sc_strategy c) (sc_controls c) (sc_times c) g (sc_next c) (sc_attempts c).
Definition set_next (c : step_controller) (f : float) : step_controller :=
  StepController (sc_strategy c) (sc_controls c) (sc_times c) (sc_grid c) f (sc_attempts c).
Definition set_attempts (c : step_controller) (n : Z) : step_controller :=
  StepController (sc_strategy c) (sc_controls c) (sc_times c) (sc_grid c) (sc_next c) n.

(** An exception of the Python code itself; its message is not kept, and none
    of these messages names a phase. *)
Definition raised (e : exn) : error := plain_error e EmptyString.

(** ** Materialization *)

(** The controls a controller keeps: the floats of [AdaptiveCFL]'s mapping. *)
Definition float_controls (controls : list (string * json)) : res (list (string * float)) :=
  map_res (fun '(name, v) => f ← to_float v; Ok (name, f)) controls.

(** [materialize_step_controller] with the four registered factories. *)
Definition materialize_step_controller (s : strategy) (controls : json) : res step_controller :=
  _ ← validate_runtime_controls s controls;
  values ← StepStrategy.controls_of controls;
  match s with
  | FixedDt _ => Ok (StepController s [] [] None fzero 0)
  | AdaptiveCFL _ _ => cs ← float_controls values; Ok (StepController s cs [] None fzero 0)
  | ErrorControlledDt p => Ok (StepController s [] [] None (dt_init p) 0)
  | ExternalTimeGrid grid_id =>
      match dget grid_id values with
      | Some (JList grid) => times ← map_res to_float grid; Ok (StepController s [] times None fzero 0)
      | _ => Err KeyError
      end
  end.

(** [restore_temporal_state] *)
Definition restore_temporal_state (c : step_controller) (temporal : option state) : res step_controller :=
  match sc_strategy c, temporal with
  | FixedDt _, Some st => Ok (set_grid c (ct_grid (st_controller st)))
  | FixedDt _, None => Ok (set_grid c None)
  | ErrorControlledDt _, Some st =>
      if st_pending st then
        '(_, proposal) ← queued_proposal st (st_time st) (st_macro st); Ok (set_next c proposal)
      else Ok c
  | _, _ => Ok c
  end.

#[global] Instance error_policy_dec : EqDecision error_policy. Proof. solve_decision. Defined.
#[global] Instance strategy_dec : EqDecision strategy. Proof. solve_decision. Defined.

(** [matches]: the same descriptor and the same controls, up to their order. *)
Definition matches (c : step_controller) (s : strategy) (controls : json) : bool :=
  bool_decide (sc_strategy c = s)
  && match materialize_step_controller s controls with
     | Ok c' => bool_decide (sort_keys (sc_controls c) = sort_keys (sc_controls c')) && bool_decide (sc_times c = sc_times c')
     | Err _ => false
     end.

(** ** Attempt sequences *)

(** The closures of one prepared sequence. *)
Inductive prepared :=
| PreparedFixed (step : float) (grid : fixed_grid) (now : float) (macro_step : Z)
| PreparedCfl (cfl max_dt min_dt : float)
| PreparedError (policy : error_policy) (proposal : float) (queued : option event)
| PreparedGrid (interval : float).

(** [_PreparedStepAttempts]; [sq_strategy] is its controller's descriptor. *)
Record sequence := Sequence {
  sq_strategy : strategy;
  sq_prepared : prepared;
  sq_attempts : Z;
  sq_accepted : bool }.

Definition set_prepared (sq : sequence) (p : prepared) : sequence :=
  Sequence (sq_strategy sq) p (sq_attempts sq) (sq_accepted sq).

Section Runtime.
Context {N : Type} `{!Native N}.

Record engine := Engine {
  en_native : N;
  en_temporal : option state;
  en_controller : option step_controller;
  en_plan : option plan;
  en_report : option report }.

Definition set_native (en : engine) (n : N) : engine :=
  Engine n (en_temporal en) (en_controller en) (en_plan en) (en_report en).
Definition set_temporal (en : engine) (st : state) : engine :=
  Engine (en_native en) (Some st) (en_controller en) (en_plan en) (en_report en).
Definition set_controller (en : engine) (c : step_controller) : engine :=
  Engine (en_native en) (en_temporal en) (Some c) (en_plan en) (en_report en).
Definition set_report (en : engine) (r : report) : engine :=
  Engine (en_native en) (en_temporal en) (en_controller en) (en_plan en) (Some r).

Definition now (en : engine) : float := native_time (en_native en).
Definition macro (en : engine) : Z := native_macro_step (en_native en).

(** The world of the run, and the native byte all-gather of its [k]-th attempt. *)
Context (world : option communicator) (allgather : Z → bytes → option (list bytes)).

(** The engine's live controller, or a new one restored from the envelope:
    [_controller]. *)
Definition controller_for (en : engine) (s : strategy) (controls : json) : res (step_controller * engine) :=
  _ ← validate_runtime_controls s controls;
  match en_controller en with
  | Some c =>
      if matches c s controls then Ok (c, en)
      else
        c ← materialize_step_controller s controls;
        c ← restore_temporal_state c (en_temporal en);
        Ok (c, set_controller en c)
  | None =>
      c ← materialize_step_controller s controls;
      c ← restore_temporal_state c (en_temporal en);
      Ok (c, set_controller en c)
  end.

(** The queued event of the first [ErrorControlledDt] attempt. *)
Definition prepare_proposal (en : engine) (proposal : float) : res (option event * engine) :=
  match en_temporal en with
  | None => Ok (None, en)
  | Some st =>
      match st_queue st with
      | [] => '(st, e) ← queue_proposal st proposal (now en) (macro en) false; Ok (Some e, set_temporal en st)
      | _ :: _ =>
          '(e, queued) ← queued_proposal st (now en) (macro en);
          if same_float proposal queued then Ok (Some e, en)
          else '(st, e) ← queue_proposal st proposal (now en) (macro en) true; Ok (Some e, set_temporal en st)
      end
  end.

(** [prepare_attempts] of the four controllers. *)
Definition prepare_attempts (c : step_controller) (en : engine) (t_end : float) : res (sequence * engine) :=
  let sequence p := Sequence (sc_strategy c) p 0 false in
  match sc_strategy c with
  | FixedDt dt =>
      let grid := match en_temporal en with Some st => ct_grid (st_controller st) | None => sc_grid c end in
      '(step, accepted) ← fixed_prepare dt grid (now en) (macro en) t_end;
      Ok (sequence (PreparedFixed step accepted (now en) (macro en)), en)
  | AdaptiveCFL cfl max_dt =>
      let '(max_dt, min_dt) := cfl_prepare max_dt (sc_controls c) (now en) t_end in
      Ok (sequence (PreparedCfl cfl max_dt min_dt), en)
  | ErrorControlledDt p =>
      let proposal := error_proposal p (sc_next c) (now en) t_end in
      '(queued, en) ← prepare_proposal en proposal;
      Ok (sequence (PreparedError p proposal queued), en)
  | ExternalTimeGrid _ =>
      interval ← external_prepare (sc_times c) (now en) t_end;
      Ok (sequence (PreparedGrid interval), en)
  end.

(** [prepare_step_attempts] *)
Definition prepare_step_attempts (en : engine) (s : strategy) (t_end : float) (controls : json)
    : res (sequence * engine) :=
  '(c, en) ← controller_for en s controls;
  prepare_attempts c en t_end.

(** [_native_attempt]: the engine afterwards, and the exception it raises. *)
Definition native_attempt (k : Z) (en : engine) (advance : N → N * option error)
    (queued : option event) (grid : option fixed_grid) : engine * option error :=
  let before_time := now en in
  let before_step := macro en in
  match (match en_temporal en, queued with
         | None, _ => Ok tt
         | Some st, None => before_attempt st before_time before_step
         | Some st, Some e => before_queued_attempt st e before_time before_step
         end) with
  | Err x => (en, Some (raised x))
  | Ok _ =>
      let '(n, local) := advance (en_native en) in
      let en := set_native en n in
      match collective_attempt_error (allgather k) world local with
      | Err x => (en, Some (raised x))
      | Ok (Some e) =>
          match en_temporal en with
          | None => (en, Some e)
          | Some st =>
              match (if er_rejected e then reject else fail) st before_time before_step with
              | Ok st => (set_temporal en st, Some e)
              | Err x => (en, Some (raised x))
              end
          end
      | Ok None =>
          match en_temporal en with
          | None => (en, None)
          | Some st =>
              match accept st before_time before_step (now en) (macro en) queued grid with
              | Ok st => (set_temporal en st, None)
              | Err x => (en, Some (raised x))
              end
          end
      end
  end.

(** The [attempt] closure of a sequence. *)
Definition attempt (k : Z) (p : prepared) (en : engine) : engine * option error :=
  match p with
  | PreparedFixed step grid _ _ => native_attempt k en (native_step step) None (Some grid)
  | PreparedCfl cfl max_dt min_dt => native_attempt k en (native_step_cfl cfl max_dt min_dt) None None
  | PreparedError _ proposal queued => native_attempt k en (native_step proposal) queued None
  | PreparedGrid interval => native_attempt k en (native_step interval) None None
  end.

(** [execute] *)
Definition execute (sq : sequence) (en : engine) : sequence * engine * option error :=
  if sq_accepted sq then (sq, en, Some (raised RuntimeError))
  else
    let sq := Sequence (sq_strategy sq) (sq_prepared sq) (sq_attempts sq + 1) false in
    let '(en, e) := attempt (sq_attempts sq) (sq_prepared sq) en in
    (sq, en, e).

(** [_record_failure]: building the report may itself raise. *)
Definition record_failure (en : engine) (e : error) (attempts : Z) : engine * option error :=
  let stores := stores_of (en_plan en) in
  match (projections ← projections_of (en_plan en) (native_projections (en_native en));
         mk_report (Report (if er_rejected e then ReportRejected else ReportFailed) (phase_of e)
                      (if er_rejected e then "reject_attempt" else "fail_run") attempts stores [] stores
                      (er_message e :: er_notes e) projections)) with
  | Ok r => (set_report en r, None)
  | Err x => (en, Some (raised x))
  end.

(** [_stop_retry]; the note is added to the exception itself. *)
Definition add_note (e : error) (reason : string) : error :=
  Error (er_rejected e) (er_type e) (er_message e) (er_status e) (er_phase e) (er_detail e) (er_disposition e)
    (er_code e) (er_notes e ++ ["retry stopped: " +:+ reason]).

Definition stop_retry (sq : sequence) (en : engine) (e : error) (reason : string) : engine * error :=
  let e := add_note e reason in
  let '(en, raising) := record_failure en e (sq_attempts sq) in
  (en, default e raising).

Definition TERMINAL_STATUSES : list string := ["capability_failure"; "invalid_input"; "incompatible_rhs"].

(** The [retry] closure of [ErrorControlledDt]: [None] is [False]. *)
Definition retry_proposal (p : error_policy) (proposal : float) (attempts : Z) (en : engine)
    : res (option (prepared * engine)) :=
  match error_retry p proposal attempts with
  | None => Ok None
  | Some reduced =>
      match en_temporal en with
      | None => Ok (Some (PreparedError p reduced None, en))
      | Some st =>
          '(st, e) ← queue_proposal st reduced (now en) (macro en) true;
          Ok (Some (PreparedError p reduced (Some e), set_temporal en st))
      end
  end.

(** [retry]: [None] when the sequence may be executed again, otherwise the
    exception that leaves the loop. *)
Definition retry (sq : sequence) (en : engine) (e : error) : sequence * engine * option error :=
  match sq_prepared sq with
  | PreparedError p proposal _ =>
      if sq_accepted sq || negb (er_rejected e) then (sq, en, Some e)
      else
        let status := default EmptyString (er_status e) in
        if bool_decide (status ∈ TERMINAL_STATUSES) then
          let '(en, e) := stop_retry sq en e ("failure category " +:+ status +:+ " is not repaired by shrinking dt") in
          (sq, en, Some e)
        else if max_rejections p <? sq_attempts sq then
          let '(en, e) := stop_retry sq en e ("finite retry budget exhausted after " +:+ int_text (sq_attempts sq)
                                                +:+ " attempt(s), budget=" +:+ int_text (max_rejections p)) in
          (sq, en, Some e)
        else
          match retry_proposal p proposal (sq_attempts sq) en with
          | Err x => (sq, en, Some (raised x))
          | Ok None =>
              let '(en, e) := stop_retry sq en e "controller cannot make a permitted retry proposal" in
              (sq, en, Some e)
          | Ok (Some (p, en)) => (set_prepared sq p, en, None)
          end
  | _ => (sq, en, Some e)
  end.

(** The controller an [accept] closure publishes to. *)
Definition accepting_controller (sq : sequence) (en : engine) : res step_controller :=
  match en_controller en with
  | Some c => _ ← require (bool_decide (sc_strategy c = sq_strategy sq)) RuntimeError; Ok c
  | None => Ok (StepController (sq_strategy sq) [] [] None fzero 0)
  end.

(** The [accept] closures. *)
Definition publish (sq : sequence) (en : engine) : res engine :=
  match sq_prepared sq with
  | PreparedFixed step grid before before_step =>
      current ← accepting_controller sq en;
      _ ← require (feqb (now en) (fadd before step) && (macro en =? before_step + 1)) RuntimeError;
      let current := set_attempts (set_grid current (Some grid)) (sq_attempts sq) in
      Ok (match en_controller en with Some _ => set_controller en current | None => en end)
  | PreparedError p proposal _ =>
      current ← accepting_controller sq en;
      let current := set_attempts (set_next current (error_next p proposal)) (sq_attempts sq) in
      let en := match en_controller en with Some _ => set_controller en current | None => en end in
      match en_temporal en with
      | None => Ok en
      | Some st =>
          '(st, _) ← queue_proposal st (sc_next current) (now en) (macro en) false;
          Ok (set_temporal en st)
      end
  | PreparedCfl _ _ _ | PreparedGrid _ => Ok en
  end.

(** [accept] *)
Definition accept_sequence (sq : sequence) (en : engine) : sequence * engine * option error :=
  if sq_accepted sq then (sq, en, Some (raised RuntimeError))
  else
    match publish sq en with
    | Err x => (sq, en, Some (raised x))
    | Ok en => (Sequence (sq_strategy sq) (sq_prepared sq) (sq_attempts sq) true, en, None)
    end.

(** [run_prepared_step_attempt] *)
Definition run_prepared_step_attempt (sq : sequence) (en : engine) : sequence * engine * option error :=
  let fail sq en e :=
    let '(en, raising) := record_failure en e (sq_attempts sq) in (sq, en, Some (default e raising)) in
  match execute sq en with
  | (sq, en, Some e) => fail sq en e
  | (sq, en, None) =>
      match accept_sequence sq en with
      | (sq, en, Some e) => fail sq en e
      | (sq, en, None) =>
          let en := match en_controller en with
                    | Some c => set_controller en (set_attempts c (sq_attempts sq)) | None => en end in
          let stores := stores_of (en_plan en) in
          match (projections ← projections_of (en_plan en) (native_projections (en_native en));
                 mk_report (Report ReportAccepted "commit" "commit" (sq_attempts sq) stores stores [] [] projections)) with
          | Ok r => (sq, set_report en r, None)
          | Err x => (sq, en, Some (raised x))
          end
      end
  end.

(** The loop of [PreparedProgramRun.run_step]; [None]: out of fuel. *)
Fixpoint run_step (fuel : nat) (sq : sequence) (en : engine) : option (sequence * engine * option error) :=
  match fuel with
  | O => None
  | S fuel =>
      match run_prepared_step_attempt sq en with
      | (sq, en, Some e) =>
          if er_rejected e then
            match retry sq en e with
            | (sq, en, None) => run_step fuel sq en
            | done => Some done
            end
          else Some (sq, en, Some e)
      | done => Some done
      end
  end.

(** ** Retries *)

(** What a permitted retry is. *)
Lemma retry_continues sq en e sq' en' :
  retry sq en e = (sq', en', None) →
  ∃ p proposal queued queued',
    sq_prepared sq = PreparedError p proposal queued
    ∧ sq' = set_prepared sq (PreparedError p (fmul proposal (shrink p)) queued')
    ∧ fltb (fmul proposal (shrink p)) (dt_min p) = false
    ∧ sq_attempts sq <= max_rejections p ∧ sq_accepted sq = false
    ∧ er_rejected e = true ∧ default EmptyString (er_status e) ∉ TERMINAL_STATUSES
    ∧ retry_proposal p proposal (sq_attempts sq) en = Ok (Some (PreparedError p (fmul proposal (shrink p)) queued', en')).
Proof.
  unfold retry. destruct (sq_prepared sq) as [| |p proposal queued|]; try done.
  destruct (sq_accepted sq) eqn:Ea; cbn [orb]; [done|].
  destruct (er_rejected e) eqn:Er; cbn [negb]; [|done].
  destruct (bool_decide _) eqn:Et; [by destruct (stop_retry _ _ _ _)|].
  destruct (Z.ltb_spec (max_rejections p) (sq_attempts sq)); [by destruct (stop_retry _ _ _ _)|].
  destruct (retry_proposal _ _ _ _) as [[[p' en1]|]|] eqn:Ep; [| by destruct (stop_retry _ _ _ _) | done].
  intros Heq. injection Heq as <- <-.
  assert (∃ q, p' = PreparedError p (fmul proposal (shrink p)) q
            ∧ fltb (fmul proposal (shrink p)) (dt_min p) = false) as (q & -> & Hmin).
  { unfold retry_proposal, error_retry in Ep. destruct (max_rejections p <? sq_attempts sq); [done|].
    destruct (fltb (fmul proposal (shrink p)) (dt_min p)) eqn:Em; [done|].
    destruct (en_temporal en); [|injection Ep as <- _; by eexists].
    destruct (queue_proposal _ _ _ _ _) as [[st e']|]; [|done]. injection Ep as <- _. by eexists. }
  exists p, proposal, queued, q. bools. by split_and!.
Qed.

Lemma execute_attempts sq en sq' en' r :
  execute sq en = (sq', en', r) →
  sq_attempts sq' <= Z.max (sq_attempts sq) (sq_attempts sq + 1) ∧ sq_prepared sq' = sq_prepared sq
  ∧ (sq_accepted sq = false → sq_attempts sq' = sq_attempts sq + 1 ∧ sq_accepted sq' = false).
Proof.
  unfold execute. destruct (sq_accepted sq) eqn:Ea; [intros [= <- _ _]; split_and!; [lia | done | done]|].
  destruct (attempt _ _ _). intros [= <- _ _]. cbn. split_and!; [lia | done | done].
Qed.

Lemma accept_sequence_attempts sq en sq' en' r :
  accept_sequence sq en = (sq', en', r) →
  sq_attempts sq' = sq_attempts sq ∧ sq_prepared sq' = sq_prepared sq ∧ (r ≠ None → sq' = sq).
Proof.
  unfold accept_sequence. destruct (sq_accepted sq); [by intros [= <- _ <-]|].
  destruct (publish sq en); intros [= <- _ <-]; done.
Qed.

Lemma run_attempt_attempts sq en sq' en' r :
  sq_accepted sq = false → run_prepared_step_attempt sq en = (sq', en', r) →
  sq_attempts sq' = sq_attempts sq + 1 ∧ sq_prepared sq' = sq_prepared sq.
Proof.
  intros Ha. unfold run_prepared_step_attempt. destruct (execute sq en) as [[sq1 en1] [e|]] eqn:Ex.
  - apply execute_attempts in Ex as (_ & Hp & Hn). destruct (Hn Ha) as [Hn' _].
    destruct (record_failure _ _ _). by intros [= <- _ _].
  - apply execute_attempts in Ex as (_ & Hp & Hn). destruct (Hn Ha) as [Hn' _].
    destruct (accept_sequence sq1 en1) as [[sq2 en2] [e|]] eqn:Ec; apply accept_sequence_attempts in Ec as (Hq & Hp' & _).
    + destruct (record_failure _ _ _). intros [= <- _ _]. by rewrite Hq, Hp'.
    + destruct (mbind _ _); intros [= <- _ _]; by rewrite Hq, Hp'.
Qed.

Definition retry_budget (sq : sequence) : Z :=
  match sq_prepared sq with PreparedError p _ _ => max_rejections p | _ => 0 end.

(** The proposal executed last is the first one or one above the floor. *)
Definition proposal_kept (sq sq' : sequence) : Prop :=
  match sq_prepared sq, sq_prepared sq' with
  | PreparedError p f _, PreparedError p' f' _ => p' = p ∧ (f' = f ∨ fltb f' (dt_min p) = false)
  | p, p' => p' = p
  end.

Lemma retry_sequence sq en e sq' en' e' : retry sq en e = (sq', en', Some e') → sq' = sq.
Proof.
  unfold retry. destruct (sq_prepared sq) as [| |p proposal queued|]; try (by intros [= <- _ _]).
  destruct (_ || _); [by intros [= <- _ _]|].
  destruct (bool_decide _); [destruct (stop_retry _ _ _ _); by intros [= <- _ _]|].
  destruct (_ <? _); [destruct (stop_retry _ _ _ _); by intros [= <- _ _]|].
  destruct (retry_proposal _ _ _ _) as [[[p' en1]|]|]; [done | | by intros [= <- _ _]].
  destruct (stop_retry _ _ _ _); by intros [= <- _ _].
Qed.

Lemma run_step_terminates fuel : ∀ sq en,
  sq_accepted sq = false → retry_budget sq + 1 - sq_attempts sq <= Z.of_nat fuel → (0 < fuel)%nat →
  ∃ sq' en' r, run_step fuel sq en = Some (sq', en', r)
    ∧ sq_attempts sq + 1 <= sq_attempts sq' <= Z.max (sq_attempts sq + 1) (retry_budget sq + 1)
    ∧ proposal_kept sq sq'.
Proof.
  induction fuel as [|fuel IH]; intros sq en Ha Hf Hpos; [lia|]. cbn [run_step].
  destruct (run_prepared_step_attempt sq en) as [[sq1 en1] r] eqn:Er.
  pose proof (run_attempt_attempts _ _ _ _ _ Ha Er) as [Hn Hp].
  assert (Hkept : proposal_kept sq sq1).
  { unfold proposal_kept. rewrite Hp. destruct (sq_prepared sq); auto. }
  destruct r as [e|]; [|do 3 eexists; split_and!; [done | lia | lia | done]].
  destruct (er_rejected e); [|do 3 eexists; split_and!; [done | lia | lia | done]].
  destruct (retry sq1 en1 e) as [[sq2 en2] [e'|]] eqn:Et.
  - apply retry_sequence in Et as ->. do 3 eexists. split_and!; [done | lia | lia | done].
  - apply retry_continues in Et as (p & proposal & q & q' & Hp1 & -> & Hmin & Hle & Hac & _).
    assert (Hb : retry_budget sq = max_rejections p) by (unfold retry_budget; rewrite <- Hp, Hp1; done).
    destruct (IH (set_prepared sq1 (PreparedError p (fmul proposal (shrink p)) q')) en2) as (sq' & en' & r & Hr & Hbound & Hk).
    + done.
    + cbn [set_prepared retry_budget sq_prepared sq_attempts]. lia.
    + lia.
    + do 3 eexists. split; [exact Hr|]. cbn [set_prepared retry_budget sq_prepared sq_attempts] in Hbound.
      split; [lia|]. unfold proposal_kept in *. cbn [set_prepared sq_prepared] in Hk. rewrite <- Hp, Hp1.
      destruct (sq_prepared sq'); try done. destruct Hk as [-> [->|?]]; auto.
Qed.

(** ** Rollback *)

(** The native all-gather delivers the rows of all ranks, this one's included,
    in rank order. *)
Definition faithful : Prop :=
  match world with
  | None => True
  | Some c =>
      is_ok (require_communicator c true) = true
      ∧ ∀ k local, cm_size c = 1 ∨ ∃ locals,
          cm_size c = Z.of_nat (length locals) ∧ cm_size c ≠ 1 ∧ local ∈ locals
          ∧ allgather k (value_frame (rank_row (cm_rank c) local)) = Some (map value_frame (rows_from 0 locals))
  end.

Lemma collective_rejected k local e :
  faithful → collective_attempt_error (allgather k) world local = Ok (Some e) → er_rejected e = true →
  ∃ f, local = Some f ∧ er_rejected f = true.
Proof.
  intros Hf H Hr. unfold faithful in Hf. destruct world as [c|]; [|injection H as ->; by eexists].
  destruct Hf as [Hc Hg]. destruct (Hg k local) as [H1|(locals & Hn & H1 & Hin & Ha)].
  - unfold collective_attempt_error in H. rewrite H1 in H. injection H as ->. by eexists.
  - rewrite (collective_rows (allgather k) c (cm_rank c) local locals) in H by done. injection H as H.
    destruct (decide_rejected locals e H Hr) as (e0 & rest & -> & He0 & Hall).
    apply elem_of_cons in Hin as [->|Hin]; [by eexists|].
    rewrite Forall_forall in Hall. destruct (Hall _ Hin) as (f & -> & ? & _). by eexists.
Qed.

(** What a rejected attempt may not change: the native clock, the live
    controller and the accepted part of the envelope but its queue. *)
Definition boundary_part (st : state) :=
  (st_strategy st, st_program st, st_time st, st_macro st, st_cursors st, st_controller st).

Definition same_boundary (en en' : engine) : Prop :=
  now en' = now en ∧ macro en' = macro en ∧ en_controller en' = en_controller en ∧ en_plan en' = en_plan en
  ∧ boundary_part <$> en_temporal en' = boundary_part <$> en_temporal en.

#[global] Instance same_boundary_preorder : PreOrder same_boundary.
Proof.
  split; [intros x; by split_and!|].
  intros x y z (? & ? & ? & ? & ?) (? & ? & ? & ? & ?). split_and!; congruence.
Qed.

Context `{!NativeLaws N}.

Lemma native_attempt_rejected k en advance queued grid en' e :
  faithful →
  (∀ n n' e, advance n = (n', Some e) → er_rejected e = true →
     native_time n' = native_time n ∧ native_macro_step n' = native_macro_step n) →
  native_attempt k en advance queued grid = (en', Some e) → er_rejected e = true → same_boundary en en'.
Proof.
  intros Hf Hadv. unfold native_attempt. destruct (match en_temporal en with Some _ => _ | None => _ end);
    [|by intros [= <- <-]].
  destruct (advance (en_native en)) as [n local] eqn:Ea.
  change (en_temporal (set_native en n)) with (en_temporal en).
  destruct (collective_attempt_error _ _ _) as [[e1|]|] eqn:Ec; [| |by intros [= <- <-]].
  - destruct (en_temporal en) as [st|] eqn:Et.
    + destruct ((if er_rejected e1 then reject else fail) st (now en) (macro en)) as [st1|] eqn:Er;
        [|by intros [= <- <-]].
      intros [= <- <-] Hrej. rewrite Hrej in Er.
      destruct (collective_rejected _ _ _ Hf Ec Hrej) as (f & -> & Hfr). destruct (Hadv _ _ _ Ea Hfr) as [Ht Hm].
      split_and!; try done. cbn. rewrite Et. cbn. unfold reject, record_unsuccessful in Er. by inv_ok.
    + intros [= <- <-] Hrej. destruct (collective_rejected _ _ _ Hf Ec Hrej) as (f & -> & Hfr).
      destruct (Hadv _ _ _ Ea Hfr) as [Ht Hm]. split_and!; done.
  - destruct (en_temporal en) as [st|]; [|done]. destruct (accept _ _ _ _ _ _ _); [done | by intros [= <- <-]].
Qed.

Lemma attempt_rejected k p en en' e :
  faithful → attempt k p en = (en', Some e) → er_rejected e = true → same_boundary en en'.
Proof.
  intros Hf. destruct p; cbn [attempt]; apply native_attempt_rejected; try done; intros n n' e'.
  - apply step_restores.
  - apply step_cfl_restores.
  - apply step_restores.
  - apply step_restores.
Qed.

Lemma record_failure_boundary en e n en' r :
  record_failure en e n = (en', r) → same_boundary en en' ∧ (∀ x, r = Some x → er_rejected x = false).
Proof. unfold record_failure. destruct (mbind _ _); intros [= <- <-]; (split; [split_and!; done | by intros x [= <-]]). Qed.

Lemma run_attempt_rejected sq en sq' en' e :
  faithful → run_prepared_step_attempt sq en = (sq', en', Some e) → er_rejected e = true → same_boundary en en'.
Proof.
  intros Hf. unfold run_prepared_step_attempt. destruct (execute sq en) as [[sq1 en1] [e1|]] eqn:Ex.
  - destruct (record_failure en1 e1 _) as [en2 r] eqn:Er. apply record_failure_boundary in Er as [Hb Hr].
    intros [= <- <- <-] Hrej. destruct r as [x|]; cbn in Hrej; [by rewrite (Hr x) in Hrej|].
    transitivity en1; [|done]. unfold execute in Ex. destruct (sq_accepted sq); [by injection Ex as <- <- <-|].
    destruct (attempt _ _ en) as [en0 r0] eqn:Ea. injection Ex as <- <- ->. by eapply attempt_rejected.
  - destruct (accept_sequence sq1 en1) as [[sq2 en2] [e2|]] eqn:Ec.
    + destruct (record_failure en2 e2 _) as [en3 r] eqn:Er. apply record_failure_boundary in Er as [Hb Hr].
      intros [= <- <- <-] Hrej. destruct r as [x|]; cbn in Hrej; [by rewrite (Hr x) in Hrej|].
      unfold accept_sequence in Ec. destruct (sq_accepted sq1); [by injection Ec as <- <- <-|].
      destruct (publish sq1 en1); [done|]. by injection Ec as <- <- <-.
    + destruct (mbind _ _); [done|]. by intros [= <- <- <-].
Qed.

Lemma queue_proposal_boundary st dt t m replace st' e :
  queue_proposal st dt t m replace = Ok (st', e) → boundary_part st' = boundary_part st.
Proof. by intros (_ & _ & _ & _ & _ & ->)%queue_proposal_ok. Qed.

Lemma retry_boundary sq en e sq' en' r :
  retry sq en e = (sq', en', r) → same_boundary en en'.
Proof.
  unfold retry. destruct (sq_prepared sq) as [| |p proposal queued|]; try by intros [= <- <- <-].
  assert (Hstop : ∀ reason en1 e1, stop_retry sq en e reason = (en1, e1) → same_boundary en en1).
  { intros reason en1 e1. unfold stop_retry. destruct (record_failure _ _ _) eqn:Er.
    apply record_failure_boundary in Er as [Hb _]. by intros [= <- <-]. }
  destruct (_ || _); [by intros [= <- <- <-]|].
  destruct (bool_decide _); [destruct (stop_retry _ _ _ _) eqn:Es; intros [= <- <- <-]; by eapply Hstop|].
  destruct (_ <? _); [destruct (stop_retry _ _ _ _) eqn:Es; intros [= <- <- <-]; by eapply Hstop|].
  destruct (retry_proposal _ _ _ _) as [[[p' en1]|]|] eqn:Ep; [| |by intros [= <- <- <-]].
  - intros [= <- <- <-]. unfold retry_proposal in Ep. destruct (error_retry _ _ _) as [reduced|]; [|done].
    destruct (en_temporal en) as [st|] eqn:Et; [|by injection Ep as <- <-].
    destruct (queue_proposal _ _ _ _ _) as [[st1 e1]|] eqn:Eq; [|done]. injection Ep as <- <-.
    split_and!; try done. cbn. rewrite Et. cbn. f_equal. by eapply queue_proposal_boundary.
  - destruct (stop_retry _ _ _ _) eqn:Es; intros [= <- <- <-]; by eapply Hstop.
Qed.

Lemma run_step_rejected fuel : ∀ sq en sq' en' e,
  faithful → run_step fuel sq en = Some (sq', en', Some e) → er_rejected e = true → same_boundary en en'.
Proof.
  induction fuel as [|fuel IH]; intros sq en sq' en' e Hf H Hrej; [done|]. cbn [run_step] in H.
  destruct (run_prepared_step_attempt sq en) as [[sq1 en1] [e1|]] eqn:Er; [|done].
  destruct (er_rejected e1) eqn:Hr1; [|injection H as <- <- <-; congruence].
  pose proof (run_attempt_rejected _ _ _ _ _ Hf Er Hr1) as H1.
  destruct (retry sq1 en1 e1) as [[sq2 en2] [e2|]] eqn:Et; apply retry_boundary in Et.
  - injection H as <- <- <-. by transitivity en1.
  - transitivity en1; [done|]. transitivity en2; [done|]. by eapply IH.
Qed.

(** ** An accepted [FixedDt] step *)

(** The collective decision "no error" needs a local success. *)
Lemma collective_success k local :
  collective_attempt_error (allgather k) world local = Ok None → world = None → local = None.
Proof. intros H ->. by injection H as ->. Qed.

(** The state between two [FixedDt] steps: the envelope and the native engine
    agree on the clock, the grid is certified, the controller is the live one. *)
Record fixed_ready (dt : float) (en : engine) (st : state) : Prop := FixedReady {
  fr_temporal : en_temporal en = Some st;
  fr_wf : wf st;
  fr_strategy : ∃ b, st_strategy st = Some b ∧ bd_strategy b = FixedDt dt;
  fr_queue : st_queue st = [];
  fr_time : st_time st = now en;
  fr_macro : st_macro st = macro en;
  fr_good : good (now en);
  fr_dt : positive dt;
  fr_grid : good_grid (ct_grid (st_controller st)) dt (now en) (macro en);
  fr_controller : ∃ c, en_controller en = Some c ∧ sc_strategy c = FixedDt dt;
  fr_plan : plan_ok (en_plan en) }.

Lemma accept_fixed st dt b bt t g :
  st_strategy st = Some b → bd_strategy b = FixedDt dt → 0 <= st_macro st →
  is_finite bt = true → is_finite t = true → fleb t bt = false →
  validate_controller_state (Controller (Some (fsub t bt)) (Some g)) = Ok (Controller (Some (fsub t bt)) (Some g)) →
  validate_fixed_grid_clock g (FixedDt dt) t (st_macro st + 1) = Ok tt →
  ∃ st', accept st bt (st_macro st) t (st_macro st + 1) None (Some g) = Ok st'.
Proof.
  intros Hb Hs Hm Hfb Hft Hle Hc Hg. unfold accept, clock_of.
  rewrite Hfb, Hft, Hle, Z.eqb_refl, !(proj2 (Z.leb_le _ _)) by lia. cbn [require mbind res_bind andb negb].
  rewrite Hc. cbn [mbind res_bind]. rewrite Hb. destruct b as [s man]. cbn [bd_strategy] in Hs. rewrite Hs, Hg.
  cbn [mbind res_bind]. by eexists.
Qed.

(** An accepted envelope of a strategy without queued proposals can always be
    written. *)
Lemma accepted_checkpoint st b last :
  wf st → st_strategy st = Some b → match bd_strategy b with ErrorControlledDt _ => False | _ => True end →
  st_status st = Accepted → st_queue st = [] → 0 < st_macro st → ct_last (st_controller st) = Some last →
  match ct_grid (st_controller st) with
  | Some g => validate_fixed_grid_clock g (bd_strategy b) (st_time st) (st_macro st) = Ok tt
  | None => True end →
  ∃ data, checkpoint_json st (st_time st) (st_macro st) = Ok data.
Proof.
  intros [Hp Hcur Hf Hm Hst Hsy Hc Hq Hstr] Hb Hne Hs Hqueue Hpos Hlast Hgrid. unfold checkpoint_json.
  rewrite live_intro, Hs, Hsy, Hs by done. rewrite bool_decide_true by done. cbn [andb require mbind res_bind].
  rewrite Hb, (Hstr b Hb), Hp. cbn [mbind res_bind]. rewrite Hcur, bool_decide_true by done.
  cbn [require mbind res_bind]. rewrite Hc, Hqueue. cbn [mbind res_bind validate_event_queue map_res].
  unfold validate_controller_events. rewrite Hlast, (proj2 (Z.eqb_neq _ _)), (proj2 (Z.ltb_lt _ _)) by lia.
  rewrite (bool_decide_false (Some last = None)) by done. cbn [andb negb require mbind res_bind].
  destruct (ct_grid (st_controller st)) as [g|]; [rewrite Hgrid|]; cbn [mbind res_bind];
    destruct (bd_strategy b); try done; cbn [require mbind res_bind]; rewrite Hst; by eexists.
Qed.

Lemma feqb_refl x : good x → feqb x x = true.
Proof. intros [Hv Hf]. unfold feqb, SpecFloat.SFeqb. rewrite SFcompare_fint by done. by rewrite Z.compare_refl. Qed.

Lemma fleb_before x y : good x → good y → fint x < fint y → fleb y x = false.
Proof. intros [] [] Hlt. rewrite fleb_fint by done. by apply Z.leb_gt. Qed.

(** What [prepare_attempts] of [FixedDt] returns on a ready engine. *)
Lemma prepare_fixed dt en st c t_end sq en0 :
  fixed_ready dt en st → sc_strategy c = FixedDt dt → prepare_attempts c en t_end = Ok (sq, en0) →
  ∃ step g, fixed_prepare dt (ct_grid (st_controller st)) (now en) (macro en) t_end = Ok (step, g)
    ∧ sq = Sequence (FixedDt dt) (PreparedFixed step g (now en) (macro en)) 0 false ∧ en0 = en.
Proof.
  intros Hr Hc. unfold prepare_attempts. rewrite Hc, (fr_temporal _ _ _ Hr). intros Hprep.
  destruct (fixed_prepare _ _ _ _ _) as [[step g]|] eqn:Ep; [|discriminate Hprep]. injection Hprep as <- <-. by exists step, g.
Qed.

(** An attempt whose native step succeeds installs the accepted envelope. *)
Lemma attempt_accepts en st step n st1 g :
  en_temporal en = Some st → world = None → st_time st = now en → st_macro st = macro en →
  is_finite (now en) = true → 0 <= macro en → native_step step (en_native en) = (n, None) →
  accept st (now en) (macro en) (native_time n) (native_macro_step n) None (Some g) = Ok st1 →
  native_attempt 1 en (native_step step) None (Some g) = (set_temporal (set_native en n) st1, None).
Proof.
  intros Ht Hw Htime Hmacro Hf Hm Hstep Hacc. unfold native_attempt. rewrite Ht. unfold before_attempt.
  rewrite <- Htime, <- Hmacro, live_intro by (by rewrite ?Htime, ?Hmacro).
  rewrite Hstep. unfold collective_attempt_error. rewrite Hw.
  change (en_temporal (set_native en n)) with (en_temporal en). rewrite Ht.
  change (now (set_native en n)) with (native_time n). change (macro (set_native en n)) with (native_macro_step n).
  by rewrite Htime, Hmacro, Hacc.
Qed.

(** Publishing an accepted fixed step. *)
Lemma fixed_publish dt step g t m en c :
  en_controller en = Some c → sc_strategy c = FixedDt dt → now en = fadd t step → macro en = m + 1 →
  good (fadd t step) →
  publish (Sequence (FixedDt dt) (PreparedFixed step g t m) 1 false) en
  = Ok (set_controller en (set_attempts (set_grid c (Some g)) 1)).
Proof.
  intros Hc Hcs Ht Hm Hf. unfold publish, accepting_controller. cbn [sq_prepared sq_strategy].
  rewrite Hc, Hcs, bool_decide_true by done. cbn [require mbind res_bind].
  rewrite Ht, Hm, feqb_refl, Z.eqb_refl by exact Hf. cbn. by rewrite ?Hc.
Qed.

Lemma fixed_step dt en st step g t_end n :
  fixed_ready dt en st → world = None → good t_end →
  fixed_prepare dt (ct_grid (st_controller st)) (now en) (macro en) t_end = Ok (step, g) →
  native_step step (en_native en) = (n, None) →
  is_finite (native_time n) = true → is_finite (fsub (native_time n) (now en)) = true →
  is_ok (projections_of (en_plan en) (native_projections n)) = true →
  let sq := Sequence (FixedDt dt) (PreparedFixed step g (now en) (macro en)) 0 false in
  ∃ sq' en' st' data, run_step 1 sq en = Some (sq', en', None) ∧ fixed_ready dt en' st'
    ∧ en_native en' = n ∧ now en' = fadd (now en) step ∧ macro en' = macro en + 1
    ∧ checkpoint_json st' (now en') (macro en') = Ok data.
Proof.
  intros [Ht Hwf (b & Hb & Hbs) Hq Htime Hmacro Hgood Hdt Hgrid (c & Hc & Hcs) Hplan] Hw He Hprep Hstep Hf1 Hf2 Hpr sq.
  destruct (step_commits _ _ _ Hstep) as [Hnt Hnm]. rewrite Hnt in Hf1, Hf2.
  fold (now en) in Hnt, Hf1, Hf2. fold (macro en) in Hnm. set (t := fadd (now en) step) in *.
  pose proof (wf_macro _ Hwf) as Hm0. rewrite Hmacro in Hm0.
  destruct (fixed_certificate dt _ (now en) (macro en) t_end step g Hdt Hgood He Hm0 Hgrid Hprep Hf1 Hf2) as (Hctl & Hclk & Hg').
  destruct (fixed_prepare_ok dt _ (now en) (macro en) t_end step g Hgood He (proj1 (proj1 Hdt)) (proj2 (proj1 Hdt)) Hm0 Hgrid Hprep Hf1)
    as (Hgt & Hlt & _ & _). fold t in Hctl, Hclk, Hg', Hgt, Hlt.
  destruct (accept_fixed st dt b (now en) t g Hb Hbs) as [st1 Hacc];
    [by rewrite Hmacro | apply Hgood | done | by apply fleb_before | done | by rewrite Hmacro |].
  rewrite Hmacro in Hacc. set (en1 := set_temporal (set_native en n) st1).
  assert (Hattempt : native_attempt 1 en (native_step step) None (Some g) = (en1, None)).
  { apply (attempt_accepts en st); try done; [apply Hgood|]. by rewrite Hnt, Hnm. }
  set (sq1 := Sequence (FixedDt dt) (PreparedFixed step g (now en) (macro en)) 1 true).
  set (en2 := set_controller en1 (set_attempts (set_grid c (Some g)) 1)).
  assert (Hpub : publish (Sequence (FixedDt dt) (PreparedFixed step g (now en) (macro en)) 1 false) en1 = Ok en2).
  { by apply fixed_publish. }
  destruct (projections_of (en_plan en) (native_projections n)) as [names|] eqn:En; [|done].
  pose proof (accepted_report_ok (en_plan en) _ names 1 Hplan En ltac:(lia)) as Hrep. cbv zeta in Hrep.
  eexists sq1, _, st1.
  pose proof (accept_ok _ _ _ _ _ _ _ _ Hacc) as (_ & _ & _ & _ & _ & Hs1 & _ & Ht1 & Hm1 & _ & Hc1 & _ & Hq1 & _ & Hst1 & _).
  assert (Hwf1 : wf st1) by (by eapply accept_wf).
  destruct (accepted_checkpoint st1 b (fsub t (now en)) Hwf1) as [data Hdata].
  { by rewrite Hs1. } { by rewrite Hbs. } { done. } { by rewrite Hq1. } { rewrite Hm1. lia. } { by rewrite Hc1. }
  { rewrite Hc1, Hbs, Ht1, Hm1. exact Hclk. }
  rewrite Ht1, Hm1 in Hdata. exists data.
  split; [|split; [|split; [|split; [|split]]]].
  - cbn [run_step]. unfold run_prepared_step_attempt, execute, sq. cbn [sq_accepted sq_attempts sq_prepared sq_strategy attempt].
    change (0 + 1) with 1. rewrite Hattempt. unfold accept_sequence. cbn [sq_accepted]. rewrite Hpub. cbn [sq_attempts sq_prepared sq_strategy].
    change (en_controller en2) with (Some (set_attempts (set_grid c (Some g)) 1)).
    match goal with |- context [projections_of ?a ?b] =>
      change (projections_of a b) with (projections_of (en_plan en) (native_projections n)) end.
    rewrite En. cbn [mbind res_bind].
    match type of Hrep with mk_report ?r = _ => match goal with |- context [mk_report ?r'] => change r' with r end end.
    rewrite Hrep. done.
  - split; try done.
    + exists b. by rewrite Hs1.
    + by rewrite Hq1.
    + rewrite Ht1. symmetry. exact Hnt.
    + rewrite Hm1. symmetry. exact Hnm.
    + change (good (native_time n)). by rewrite Hnt.
    + change (good_grid (ct_grid (st_controller st1)) dt (native_time n) (native_macro_step n)).
      by rewrite Hc1, Hnt, Hnm.
    + eexists. by split.
  - done.
  - exact Hnt.
  - exact Hnm.
  - change (checkpoint_json st1 (native_time n) (native_macro_step n) = Ok data). by rewrite Hnt, Hnm.
Qed.
End Runtime.

(** ** Claims *)

(** C10: a step of a prepared run always ends: whatever the native engine, the
    collective and the envelope answer, the loop executes at least one and at
    most [max_rejections + 1] attempts of [ErrorControlledDt], exactly one of
    the other strategies, and never a retried interval below [dt_min]. *)
Theorem attempts_are_bounded {N : Type} `{!Native N} world allgather (sq : sequence) (en : engine) :
  sq_attempts sq = 0 → sq_accepted sq = false → 0 <= retry_budget sq →
  ∃ sq' en' r, run_step world allgather (S (Z.to_nat (retry_budget sq))) sq en = Some (sq', en', r)
    ∧ 1 <= sq_attempts sq' <= retry_budget sq + 1 ∧ proposal_kept sq sq'.
Proof.
  intros H0 Ha Hb. destruct (run_step_terminates world allgather (S (Z.to_nat (retry_budget sq))) sq en Ha)
    as (sq' & en' & r & Hr & Hn & Hk); [lia | lia|].
  exists sq', en', r. split; [done|]. split; [lia | done].
Qed.

(** C11: a rejected step changes nothing the run has accepted: after any number
    of rejected and retried attempts, when the rejection finally leaves the
    step, the native clock, the live controller and the strategy, schedule,
    boundary, cursors and controller state of the restart envelope are those
    from before the step. *)
Theorem rejected_step_changes_nothing {N : Type} `{!Native N} `{!NativeLaws N} world allgather fuel
    (sq : sequence) (en : engine) sq' en' e :
  faithful world allgather → run_step world allgather fuel sq en = Some (sq', en', Some e) → er_rejected e = true →
  same_boundary en en'.
Proof. intros Hf Hr He. by eapply run_step_rejected. Qed.

(** C9: [FixedDt] keeps its promise: from a ready engine, preparing a step and
    running it, with a native engine that accepts the prepared interval, always
    succeeds in one attempt, advances the clock by that interval, can be
    checkpointed at once, and leaves the engine ready for the next step. *)
Theorem fixed_step_commits {N : Type} `{!Native N} `{!NativeLaws N} allgather dt (en : engine) st c t_end sq en0 step g n :
  fixed_ready dt en st → good t_end → sc_strategy c = FixedDt dt →
  prepare_attempts c en t_end = Ok (sq, en0) → sq_prepared sq = PreparedFixed step g (now en) (macro en) →
  native_step step (en_native en) = (n, None) →
  is_finite (native_time n) = true → is_finite (fsub (native_time n) (now en)) = true →
  is_ok (projections_of (en_plan en) (native_projections n)) = true →
  ∃ sq' en' st' data, run_step None allgather 1 sq en0 = Some (sq', en', None) ∧ fixed_ready dt en' st'
    ∧ en_native en' = n ∧ now en' = fadd (now en) step ∧ macro en' = macro en + 1
    ∧ checkpoint_json st' (now en') (macro en') = Ok data.
Proof.
  intros Hr He Hc Hprep Hsq Hstep Hf1 Hf2 Hp.
  destruct (prepare_fixed dt en st c t_end sq en0 Hr Hc Hprep) as (step' & g' & Hfix & -> & ->).
  cbn [sq_prepared] in Hsq. injection Hsq as -> ->.
  by apply (fixed_step None allgather dt en st step g t_end n).
Qed.

(** ** A toy native engine *)

(** It accepts or raises what its script says. *)
Record toy := Toy { ty_time : float; ty_macro : Z; ty_script : list error }.

Definition toy_step (dt : float) (n : toy) : toy * option error :=
  match ty_script n with
  | e :: script => (Toy (ty_time n) (ty_macro n) script, Some e)
  | [] => (Toy (fadd (ty_time n) dt) (ty_macro n + 1) [], None)
  end.

#[global] Instance toy_native : Native toy := {
  native_time := ty_time; native_macro_step := ty_macro; native_step := toy_step;
  native_step_cfl := fun _ max_dt _ n => toy_step max_dt n; native_projections := fun _ => Some [] }.

#[global] Instance toy_laws : NativeLaws toy.
Proof.
  assert (Hr : ∀ dt n n' e, toy_step dt n = (n', Some e) → ty_time n' = ty_time n ∧ ty_macro n' = ty_macro n).
  { intros dt [t m [|x s]] n' e; cbn; [done|]. by intros [= <- _]. }
  split; cbn; [|eauto..]. intros dt [t m [|x s]] n'; cbn; [|done]. by intros [= <-].
Qed.

Definition toy_policy : error_policy :=
  let q a b := SpecFloat.SFdiv 53 1024 (float_of_Z a) (float_of_Z b) in
  ErrorPolicy (q 1 100) (q 1 1000) (q 1 1000) (q 1 1000) (q 1 10) (q 1 2) (q 5 4) 3.

Definition fresh_run (s : strategy) : engine :=
  let manifest := match run_control_payload s JNull with Ok m => m | Err _ => JNull end in
  Engine (Toy fzero 0 []) (Some (begin_run initial manifest None fzero 0).1) None None None.

Definition toy_drive (s : strategy) (t_end : float) (en : engine) : option engine :=
  match prepare_step_attempts en s t_end JNull with
  | Ok (sq, en) =>
      match run_step None (fun _ _ => None) 5 sq en with Some (_, en, None) => Some en | _ => None end
  | Err _ => None
  end.

Definition toy_checkpoint (en : engine) : option (res checkpoint) :=
  st ← en_temporal en; Some (checkpoint_json st (now en) (macro en)).

Lemma attempts_are_bounded_witness :
  let sq := Sequence (ErrorControlledDt toy_policy) (PreparedError toy_policy tenth None) 0 false in
  let en := Engine (Toy fzero 0 [toy_rejection; toy_rejection]) None None None None in
  ∃ sq' en' r, run_step None (λ _ _, None) 4 sq en = Some (sq', en', r)
    ∧ 1 <= sq_attempts sq' <= 3 + 1 ∧ proposal_kept sq sq'.
Proof.
  apply (attempts_are_bounded None (λ _ _, None)
           (Sequence (ErrorControlledDt toy_policy) (PreparedError toy_policy tenth None) 0 false)
           (Engine (Toy fzero 0 [toy_rejection; toy_rejection]) None None None None)); try reflexivity.
  vm_compute. discriminate.
Defined.

Lemma rejected_step_changes_nothing_witness :
  let sq := Sequence (FixedDt tenth) (PreparedFixed tenth (FixedGrid fzero 1 tenth 1) fzero 0) 0 false in
  let en := Engine (Toy fzero 0 [toy_rejection]) None None None None in
  ∃ sq' en', run_step None (λ _ _, None) 1 sq en = Some (sq', en', Some toy_rejection) ∧ same_boundary en en'.
Proof.
  eexists _, _. split; [vm_compute; reflexivity|].
  eapply (rejected_step_changes_nothing None (λ _ _, None) 1
           (Sequence (FixedDt tenth) (PreparedFixed tenth (FixedGrid fzero 1 tenth 1) fzero 0) 0 false)
           (Engine (Toy fzero 0 [toy_rejection]) None None None None)); [exact I | vm_compute; reflexivity | reflexivity].
Defined.

Definition toy_controller : step_controller := StepController (FixedDt tenth) [] [] None fzero 0.

Definition fresh_state : state :=
  match en_temporal (fresh_run (FixedDt tenth)) with Some st => st | None => initial end.
Definition ready_engine : engine := Engine (Toy fzero 0 []) (Some fresh_state) (Some toy_controller) None None.

Lemma toy_fixed_ready : fixed_ready tenth ready_engine fresh_state.
Proof.
  assert (Hwf : wf fresh_state).
  { apply (begin_run_wf initial (match run_control_payload (FixedDt tenth) JNull with Ok m => m | Err _ => JNull end)
             None fzero 0 fresh_state (begin_run initial (match run_control_payload (FixedDt tenth) JNull with Ok m => m | Err _ => JNull end)
             None fzero 0).2); [apply initial_wf | | reflexivity].
    intros row d Hm Hd. injection Hm as <-. vm_compute in Hd. injection Hd as <-. constructor. }
  split; [vm_compute; reflexivity | exact Hwf | | vm_compute; reflexivity .. | | | | | done].
  all: try (eexists; split; vm_compute; reflexivity).
  all: by vm_compute.
Qed.

Lemma fixed_step_commits_witness :
  let n := Toy (fadd fzero tenth) 1 [] in
  let sq := Sequence (FixedDt tenth) (PreparedFixed tenth (FixedGrid fzero 1 (fadd fzero tenth) 1) fzero 0) 0 false in
  ∃ sq' en' st' data, run_step None (λ _ _, None) 1 sq ready_engine = Some (sq', en', None) ∧ fixed_ready tenth en' st'
    ∧ en_native en' = n ∧ now en' = fadd (now ready_engine) tenth ∧ macro en' = macro ready_engine + 1
    ∧ checkpoint_json st' (now en') (macro en') = Ok data.
Proof.
  apply (fixed_step_commits (λ _ _, None) tenth ready_engine fresh_state toy_controller (float_of_Z 1)
           (Sequence (FixedDt tenth) (PreparedFixed tenth (FixedGrid fzero 1 (fadd fzero tenth) 1) fzero 0) 0 false)
           ready_engine tenth (FixedGrid fzero 1 (fadd fzero tenth) 1) (Toy (fadd fzero tenth) 1 []));
    [apply toy_fixed_ready | by split | reflexivity | vm_compute; reflexivity | reflexivity..].
Defined.

(** After two accepted [ErrorControlledDt] steps (first interval 0.01,
    growth 1.25, no rejection) the envelope refuses its own checkpoint: the
    queued proposal was computed from the interval the controller proposed, and
    the validation recomputes it from the difference of the two rounded clock
    values. *)
Theorem error_controlled_checkpoint_refused :
  let s := ErrorControlledDt toy_policy in
  (en ← toy_drive s (float_of_Z 10) (fresh_run s); en ← toy_drive s (float_of_Z 10) en; toy_checkpoint en)
  = Some (Err ValueError).
Proof. vm_compute. reflexivity. Qed.
