(* ===== verification/Bytes.v ===== *)
(** * Bytes, text and sorted encodings

    What the identity encoders use of Python's [bytes], [str] and [list.sort]:
    big-endian integers, UTF-8, and a stable sort by a key. *)
From stdpp Require Import sorting.
From S2P Require Import Prelude.

(** A byte is an integer of [0, 256); a text is the list of its code points. *)
Notation bytes := (list Z).
Notation text := (list Z).
Definition is_byte (b : Z) : Prop := 0 <= b < 256.

(** ** Big-endian integers *)

(** [argument.to_bytes(n, "big")] of an integer that fits. *)
Fixpoint to_bytes (n : nat) (z : Z) : bytes :=
  match n with
  | O => []
  | S n => z / 256 ^ Z.of_nat n mod 256 :: to_bytes n z
  end.

Definition of_bytes (l : bytes) : Z := fold_left (fun acc b => 256 * acc + b) l 0.

Lemma to_bytes_length n z : length (to_bytes n z) = n.
Proof. induction n; cbn; auto. Qed.

Lemma to_bytes_byte n z : Forall is_byte (to_bytes n z).
Proof. induction n; cbn; constructor; [apply Z.mod_pos_bound; lia | done]. Qed.

Lemma of_bytes_acc l : ∀ acc, fold_left (fun acc b => 256 * acc + b) l acc = acc * 256 ^ Z.of_nat (length l) + of_bytes l.
Proof.
  unfold of_bytes. induction l as [|b l IH]; intros acc; cbn [fold_left length]; [cbn; lia|].
  rewrite IH, (IH (256 * 0 + b)), Nat2Z.inj_succ, Z.pow_succ_r by lia. lia.
Qed.

Lemma of_to_bytes n z : of_bytes (to_bytes n z) = z mod 256 ^ Z.of_nat n.
Proof.
  induction n as [|n IH]; [by rewrite Z.mod_1_r|].
  cbn [to_bytes]. unfold of_bytes. cbn [fold_left]. rewrite of_bytes_acc, to_bytes_length, IH.
  rewrite Nat2Z.inj_succ, Z.pow_succ_r by lia. set (p := 256 ^ Z.of_nat n). assert (0 < p) by (apply Z.pow_pos_nonneg; lia).
  rewrite (Z.mul_comm 256 p), Z.rem_mul_r by lia. lia.
Qed.

Lemma to_bytes_inj n y z :
  0 <= y < 256 ^ Z.of_nat n → 0 <= z < 256 ^ Z.of_nat n → to_bytes n y = to_bytes n z → y = z.
Proof. intros Hy Hz H. apply (f_equal of_bytes) in H. rewrite !of_to_bytes, !Z.mod_small in H; lia. Qed.

(** The bytes a native writer takes with shifts and a cast to eight bits. *)
Definition shifted_bytes (n : nat) (z : Z) : bytes :=
  map (fun i => Z.land (Z.shiftr z (8 * Z.of_nat i)) 255) (reverse (seq 0 n)).

Lemma shifted_to_bytes n z : shifted_bytes n z = to_bytes n z.
Proof.
  unfold shifted_bytes. induction n as [|n IH]; [done|].
  rewrite seq_S, reverse_app. cbn. f_equal; [|exact IH].
  rewrite Z.shiftr_div_pow2 by lia. change 255 with (Z.ones 8). rewrite Z.land_ones by lia.
  rewrite Z.pow_mul_r by lia. done.
Qed.

(** A tag above [k] bits. *)
Lemma lor_prefix m a k : 0 <= a < 2 ^ k → 0 <= k → Z.lor (Z.shiftl m k) a = m * 2 ^ k + a.
Proof.
  intros Ha Hk. destruct (decide (a = 0)) as [->|Hne]; [rewrite Z.lor_0_r, Z.shiftl_mul_pow2 by done; lia|].
  rewrite <- Z.shiftl_mul_pow2 by done. symmetry. apply Z.add_nocarry_lor.
  apply Z.bits_inj'. intros n Hn. rewrite Z.land_spec, Z.bits_0. destruct (decide (n < k)).
  - by rewrite Z.shiftl_spec_low.
  - rewrite (Z.bits_above_log2 a n); [apply andb_false_r | lia|].
    apply Z.log2_lt_pow2; [lia|].
    eapply Z.lt_le_trans; [apply Ha|]. apply Z.pow_le_mono_r; lia.
Qed.

(** ** UTF-8 *)

Definition is_surrogate (c : Z) : bool := (0xD800 <=? c) && (c <=? 0xDFFF).

(** [str.encode("utf-8")] of one character; a [str] has no other codes than
    those of [0, 0x10FFFF]. *)
Definition utf8_char (c : Z) : res bytes :=
  if (c <? 0) || (0x10FFFF <? c) then Err ValueError
  else if c <? 0x80 then Ok [c]
  else if c <? 0x800 then Ok [0xC0 + c / 64; 0x80 + c mod 64]
  else if is_surrogate c then Err ValueError
  else if c <? 0x10000 then Ok [0xE0 + c / 4096; 0x80 + c / 64 mod 64; 0x80 + c mod 64]
  else Ok [0xF0 + c / 262144; 0x80 + c / 4096 mod 64; 0x80 + c / 64 mod 64; 0x80 + c mod 64].

Definition utf8 (s : text) : res bytes := l ← map_res utf8_char s; Ok (concat l).

Lemma utf8_cons c s b : utf8 (c :: s) = Ok b ↔ ∃ x y, utf8_char c = Ok x ∧ utf8 s = Ok y ∧ b = x ++ y.
Proof.
  unfold utf8. cbn. destruct (utf8_char c) as [x|]; cbn; [|by split; [|intros (? & ? & ? & _)]].
  destruct (map_res utf8_char s) as [l|]; cbn; [|by split; [|intros (? & ? & _ & ? & _)]].
  split; [intros [= <-]; eauto|]. intros (? & ? & [= <-] & [= <-] & ->). done.
Qed.

Ltac utf8_cases := unfold utf8_char in *; repeat case_match; bools; simplify_eq; cbn in *.

(** A character ends where its bytes say. *)
Lemma utf8_char_prefix c d x y r r' :
  utf8_char c = Ok x → utf8_char d = Ok y → x ++ r = y ++ r' → c = d ∧ r = r'.
Proof.
  intros Hx Hy E. utf8_cases; simplify_eq; try (Z.to_euclidean_division_equations; lia);
    split; try done; Z.to_euclidean_division_equations; lia.
Qed.

(** The four lengths. *)
Lemma utf8_char_spec c x : utf8_char c = Ok x ↔
  (0 <= c < 128 ∧ x = [c])
  ∨ (128 <= c < 2048 ∧ x = [192 + c / 64; 128 + c mod 64])
  ∨ (2048 <= c < 65536 ∧ is_surrogate c = false ∧ x = [224 + c / 4096; 128 + c / 64 mod 64; 128 + c mod 64])
  ∨ (65536 <= c <= 1114111 ∧ x = [240 + c / 262144; 128 + c / 4096 mod 64; 128 + c / 64 mod 64; 128 + c mod 64]).
Proof.
  assert (Hs : is_surrogate c = true → 2048 <= c < 65536) by (unfold is_surrogate; intros H; bools; lia).
  unfold utf8_char. repeat case_match; bools; split; intros H'; try (destruct_or! H'; destruct_and?; try lia; try congruence);
    simplify_eq; try (by (left + (right; left) + (right; right; left) + (right; right; right)); split_and!; try lia);
    try (exfalso; destruct_or?; bools; lia).
  all: try match goal with H : (_ || _) = true |- _ => apply orb_true_iff in H as [?|?]; bools; lia end.
Qed.

Lemma utf8_char_nonempty c x : utf8_char c = Ok x → x ≠ [].
Proof. intros H. by utf8_cases. Qed.

Lemma utf8_char_bytes c x : utf8_char c = Ok x → Forall is_byte x.
Proof.
  unfold is_byte. intros H. utf8_cases; repeat constructor; try (Z.to_euclidean_division_equations; lia); lia.
Qed.

Lemma utf8_inj s t x : utf8 s = Ok x → utf8 t = Ok x → s = t.
Proof.
  revert t x. induction s as [|c s IH]; intros t x E1 E2.
  - destruct t as [|d t]; [done|]. injection E1 as <-. apply utf8_cons in E2 as (a & b & Ha & _ & E).
    by apply utf8_char_nonempty in Ha; destruct a.
  - apply utf8_cons in E1 as (a & b & Ha & Hb & ->). destruct t as [|d t].
    + injection E2 as E2. by apply utf8_char_nonempty in Ha; destruct a.
    + apply utf8_cons in E2 as (a' & b' & Ha' & Hb' & E).
      destruct (utf8_char_prefix c d a a' b b') as [-> ->]; try done. f_equal. by apply (IH t b').
Qed.

Lemma utf8_bytes s x : utf8 s = Ok x → Forall is_byte x.
Proof.
  revert x. induction s as [|c s IH]; intros x E; [by injection E as <-|].
  apply utf8_cons in E as (a & b & Ha & Hb & ->).
  apply Forall_app. split; [by eapply utf8_char_bytes | auto].
Qed.

(** ** Stable sort *)

Section Sort.
Context {A : Type} (le : A → A → bool).

Fixpoint sort_insert (x : A) (l : list A) : list A :=
  match l with
  | [] => [x]
  | y :: l' => if le x y then x :: l else y :: sort_insert x l'
  end.
(** [sorted(l, key=...)] for the order of the keys. *)
Definition isort (l : list A) : list A := foldr sort_insert [] l.

Lemma sort_insert_perm x l : sort_insert x l ≡ₚ x :: l.
Proof. induction l as [|y l IH]; cbn; [done|]. destruct (le x y); [done|]. rewrite IH. apply Permutation_swap. Qed.

Lemma isort_perm l : isort l ≡ₚ l.
Proof. induction l as [|x l IH]; cbn; [done|]. by rewrite sort_insert_perm, IH. Qed.

Lemma isort_length l : length (isort l) = length l.
Proof. by rewrite isort_perm. Qed.

Context (le_trans : ∀ x y z, le x y = true → le y z = true → le x z = true).
Context (le_total : ∀ x y, le x y = false → le y x = true).

Lemma sort_insert_sorted x l : StronglySorted le l → StronglySorted le (sort_insert x l).
Proof.
  induction 1 as [|y l Hl IH Hy]; cbn; [repeat constructor|]. destruct (le x y) eqn:E.
  - constructor; [by constructor|]. constructor; [by rewrite E|].
    eapply Forall_impl; [exact Hy|]. intros z Hz. apply Is_true_true. eapply le_trans; [done | by apply Is_true_true].
  - constructor; [done|]. rewrite sort_insert_perm. constructor; [by apply Is_true_true, le_total | done].
Qed.

Lemma isort_sorted l : StronglySorted le (isort l).
Proof. induction l as [|x l IH]; cbn; [constructor | by apply sort_insert_sorted]. Qed.

(** The sort of a list whose elements the order separates does not depend on
    its order. *)
Lemma isort_unique l m :
  l ≡ₚ m → (∀ x y, x ∈ l → y ∈ l → le x y = true → le y x = true → x = y) → isort l = isort m.
Proof.
  intros P H. apply (StronglySorted_unique_strong le); try apply isort_sorted; [|by rewrite !isort_perm].
  intros x y Hx Hy ?%Is_true_true ?%Is_true_true. rewrite isort_perm in Hx, Hy. rewrite <- P in Hy. auto.
Qed.
End Sort.

Lemma isort_map {A B} (le : A → A → bool) (le' : B → B → bool) (f : A → B) l :
  (∀ a b, le' (f a) (f b) = le a b) → isort le' (map f l) = map f (isort le l).
Proof.
  intros H. assert (Hi : ∀ x l, sort_insert le' (f x) (map f l) = map f (sort_insert le x l)).
  { intros x m. induction m as [|y m IH]; cbn; [done|]. rewrite H. destruct (le x y); cbn; [done | by rewrite IH]. }
  induction l as [|x l IH]; cbn; [done|]. unfold isort in *. by rewrite IH, Hi.
Qed.

(** ** The length-first order of encodings *)

(** The order of Python's [bytes] and of [std::lexicographical_compare]. *)
Fixpoint bytes_leb (x y : bytes) : bool :=
  match x, y with
  | [], _ => true
  | _ :: _, [] => false
  | a :: x, b :: y => (a <? b) || ((a =? b) && bytes_leb x y)
  end.

(** [key=lambda item: (len(item), item)] *)
Definition shorter (x y : bytes) : bool :=
  (length x <? length y)%nat || ((length x =? length y)%nat && bytes_leb x y).

Lemma bytes_leb_trans x y z : bytes_leb x y = true → bytes_leb y z = true → bytes_leb x z = true.
Proof.
  revert y z. induction x as [|a x IH]; intros [|b y] [|c z]; cbn; try done.
  intros [Hab|[Hab Hxy]%andb_true_iff]%orb_true_iff [Hbc|[Hbc Hyz]%andb_true_iff]%orb_true_iff; bools; subst;
    apply orb_true_iff; rewrite andb_true_iff, Z.ltb_lt, Z.eqb_eq; try (left; lia). right. eauto.
Qed.

Lemma bytes_leb_total x y : bytes_leb x y = false → bytes_leb y x = true.
Proof.
  revert y. induction x as [|a x IH]; intros [|b y]; cbn; try done.
  destruct (a <? b) eqn:E; [done|]. bools. cbn. destruct (a =? b) eqn:E2; bools; cbn.
  - subst. intros H. rewrite Z.ltb_irrefl, Z.eqb_refl. cbn. auto.
  - intros _. by rewrite (proj2 (Z.ltb_lt b a)) by lia.
Qed.

Lemma bytes_leb_antisym x y : bytes_leb x y = true → bytes_leb y x = true → x = y.
Proof.
  revert y. induction x as [|a x IH]; intros [|b y]; cbn; try done.
  intros [H|[H Hxy]%andb_true_iff]%orb_true_iff [H'|[H' Hyx]%andb_true_iff]%orb_true_iff; bools; try lia.
  subst. f_equal. auto.
Qed.

Lemma shorter_trans x y z : shorter x y = true → shorter y z = true → shorter x z = true.
Proof.
  unfold shorter. rewrite !orb_true_iff, !andb_true_iff, !Nat.ltb_lt, !Nat.eqb_eq.
  intros [?|[? ?]] [?|[? ?]]; try (left; lia). right. split; [lia|]. eapply bytes_leb_trans; eauto.
Qed.

Lemma shorter_total x y : shorter x y = false → shorter y x = true.
Proof.
  unfold shorter. intros [H1 H2]%orb_false_iff. bools. apply orb_true_iff. rewrite andb_true_iff, Nat.ltb_lt, Nat.eqb_eq.
  destruct (decide (length y < length x)%nat); [by left|]. right. split; [lia|].
  apply andb_false_iff in H2 as [H2|H2]; bools; [lia | by apply bytes_leb_total].
Qed.

Lemma shorter_antisym x y : shorter x y = true → shorter y x = true → x = y.
Proof.
  unfold shorter. rewrite !orb_true_iff, !andb_true_iff, !Nat.ltb_lt, !Nat.eqb_eq.
  intros [?|[? ?]] [?|[? ?]]; try lia. by apply bytes_leb_antisym.
Qed.

(** [any(left == right for left, right in zip(items, items[1:]))] *)
Fixpoint adjacent_equal (l : list bytes) : bool :=
  match l with
  | x :: rest => match rest with y :: _ => bool_decide (x = y) | [] => false end || adjacent_equal rest
  | [] => false
  end.

(** In a sorted list the neighbours tell whether an element is repeated. *)
Lemma adjacent_NoDup l : StronglySorted shorter l → adjacent_equal l = false ↔ NoDup l.
Proof.
  induction 1 as [|x l Hl IH Hx]; cbn; [by split; [constructor|]|]. rewrite orb_false_iff, IH, NoDup_cons.
  enough (match l with y :: _ => bool_decide (x = y) | [] => false end = false ↔ x ∉ l) by tauto.
  destruct l as [|y l]; [split; [intros _ []%elem_of_nil | done]|]. rewrite bool_decide_eq_false.
  split; [|by intros H ->; apply H; left]. intros Hxy [->|Hin]%elem_of_cons; [done|].
  apply StronglySorted_inv in Hl as [_ Hy]. apply Forall_cons in Hx as [Hx _]. rewrite Forall_forall in Hy.
  apply Hxy, shorter_antisym; apply Is_true_true; auto.
Qed.
