(* ===== verification/CanonicalCbor.v ===== *)
(** * Canonical bytes of an identity

    [python/pops/identity/encoding.py]: the deterministic CBOR encoding every
    identity hashes.  The encoder walks Python objects, so containers are cells
    of a heap that may be shared or cyclic; the values it accepts are the finite
    trees the heap unfolds to, and the encoding decides their equality. *)
From stdpp Require Import sorting.
From S2P Require Import Prelude Binary64 Bytes.

(** ** Objects *)

(** A Python object the encoder meets: an immutable value, or a reference to a
    container of the heap.  Any other object is opaque. *)
Inductive object :=
| ONone
| OBool (b : bool)
| OInt (z : Z)
| OStr (s : text)
| OBytes (b : bytes)
| OFloat (f : float)
| OOpaque
| ORef (r : positive).

(** A list or tuple, a dictionary and a set, in iteration order; a dictionary key
    that is not a string is [None]. *)
Inductive container :=
| CList (items : list object)
| CDict (entries : list (option text * object))
| CSet (items : list object).

Notation heap := (gmap positive container).

(** ** The encoder *)

Definition INT64_MIN : Z := - Z.shiftl 1 63.
Definition INT64_MAX : Z := Z.shiftl 1 63 - 1.
Definition SET_TAG : bytes := [0xd9; 0x01; 0x02].

(** [_head] *)
Definition head (major argument : Z) : res bytes :=
  let prefix := Z.shiftl major 5 in
  if argument <? 24 then Ok [Z.lor prefix argument]
  else if argument <=? 0xFF then Ok [Z.lor prefix 24; argument]
  else if argument <=? 0xFFFF then Ok (Z.lor prefix 25 :: to_bytes 2 argument)
  else if argument <=? 0xFFFFFFFF then Ok (Z.lor prefix 26 :: to_bytes 4 argument)
  else if argument <=? 0xFFFFFFFFFFFFFFFF then Ok (Z.lor prefix 27 :: to_bytes 8 argument)
  else Err OverflowError.

Definition len {A} (l : list A) : Z := Z.of_nat (length l).

Definition encode_int (z : Z) : res bytes :=
  _ ← require (negb ((z <? INT64_MIN) || (INT64_MAX <? z))) OverflowError;
  if 0 <=? z then head 0 z else head 1 (-1 - z).

Definition encode_str (s : text) : res bytes :=
  encoded ← utf8 s; h ← head 3 (len encoded); Ok (h ++ encoded).

Definition encode_bytes (b : bytes) : res bytes := h ← head 2 (len b); Ok (h ++ b).

(** The order of the entries of a map. *)
Definition entry_leb (x y : bytes * bytes) : bool := shorter x.1 y.1.

(** What the containers do with the bytes of their members. *)
Definition build_list (items : list bytes) : res bytes := h ← head 4 (len items); Ok (h ++ concat items).
Definition build_dict (entries : list (bytes * bytes)) : res bytes :=
  h ← head 5 (len entries); Ok (h ++ concat (map (fun e => e.1 ++ e.2) (isort entry_leb entries))).
Definition build_set (items : list bytes) : res bytes :=
  let items := isort shorter items in
  _ ← require (negb (adjacent_equal items)) ValueError;
  h ← head 4 (len items); Ok (SET_TAG ++ h ++ concat items).

(** One turn of the loop of [_encode_dict]. *)
Definition encode_entry {A} (encode : A → res bytes) (e : option text * A) : res (bytes * bytes) :=
  match e.1 with
  | None => Err TypeError
  | Some key => key_bytes ← encode_str key; item_bytes ← encode e.2; Ok (key_bytes, item_bytes)
  end.

Section Encode.
Context (h : heap).

(** [_encode], [_encode_container], [_encode_dict] and [_encode_set]; [active] are
    the containers being encoded, one level of [fuel] for each. *)
Fixpoint encode (fuel : nat) (active : gset positive) (value : object) : res bytes :=
  match value with
  | ONone => Ok [0xf6]
  | OBool false => Ok [0xf4]
  | OBool true => Ok [0xf5]
  | OInt z => encode_int z
  | OStr s => encode_str s
  | OBytes b => encode_bytes b
  | OFloat _ => Err TypeError
  | OOpaque => Err TypeError
  | ORef r =>
      match h !! r with
      | None => Err TypeError
      | Some c =>
          _ ← require (bool_decide (r ∉ active)) ValueError;
          let active := {[r]} ∪ active in
          match fuel with
          | O => Err RuntimeError
          | S fuel =>
              match c with
              | CList items => l ← map_res (encode fuel active) items; build_list l
              | CDict entries => l ← map_res (encode_entry (encode fuel active)) entries; build_dict l
              | CSet items => l ← map_res (encode fuel active) items; build_set l
              end
          end
      end
  end.

(** [canonical_bytes] *)
Definition canonical_bytes (value : object) : res bytes := encode (size h) ∅ value.
End Encode.

(** ** Values *)

(** What an object is when its containers are read: a finite tree. *)
Inductive value :=
| VNone
| VBool (b : bool)
| VInt (z : Z)
| VStr (s : text)
| VBytes (b : bytes)
| VFloat (f : float)
| VOpaque
| VList (items : list value)
| VDict (entries : list (option text * value))
| VSet (items : list value).

Fixpoint value_rank (v : value) : nat :=
  match v with
  | VList l | VSet l => S (list_sum (map value_rank l))
  | VDict d => S (list_sum (map (fun e => value_rank e.2) d))
  | _ => O
  end.

(** The encoding of a tree. *)
Fixpoint enc (v : value) : res bytes :=
  match v with
  | VNone => Ok [0xf6]
  | VBool false => Ok [0xf4]
  | VBool true => Ok [0xf5]
  | VInt z => encode_int z
  | VStr s => encode_str s
  | VBytes b => encode_bytes b
  | VFloat _ => Err TypeError
  | VOpaque => Err TypeError
  | VList items => l ← map_res enc items; build_list l
  | VDict entries => l ← map_res (encode_entry enc) entries; build_dict l
  | VSet items => l ← map_res enc items; build_set l
  end.

(** An object reads as a tree; a dictionary has distinct keys. *)
Inductive reads (h : heap) : object → value → Prop :=
| reads_none : reads h ONone VNone
| reads_bool b : reads h (OBool b) (VBool b)
| reads_int z : reads h (OInt z) (VInt z)
| reads_str s : reads h (OStr s) (VStr s)
| reads_bytes b : reads h (OBytes b) (VBytes b)
| reads_float f : reads h (OFloat f) (VFloat f)
| reads_opaque : reads h OOpaque VOpaque
| reads_lost r : h !! r = None → reads h (ORef r) VOpaque
| reads_list r items l : h !! r = Some (CList items) → Forall2 (reads h) items l → reads h (ORef r) (VList l)
| reads_dict r entries d : h !! r = Some (CDict entries) →
    Forall2 (fun e e' => e'.1 = e.1 ∧ reads h e.2 e'.2) entries d → reads h (ORef r) (VDict d)
| reads_set r items l : h !! r = Some (CSet items) → Forall2 (reads h) items l → reads h (ORef r) (VSet l).

(** The heap of a Python program: the keys of a dictionary are distinct. *)
Definition dicts_ok (h : heap) : Prop := ∀ r d, h !! r = Some (CDict d) → NoDup (map fst d).

Fixpoint distinct_keys (v : value) : Prop :=
  match v with
  | VList l | VSet l => foldr and True (map distinct_keys l)
  | VDict d => NoDup (map fst d) ∧ foldr and True (map (fun e => distinct_keys e.2) d)
  | _ => True
  end.

(** Equal up to the order of dictionaries and sets. *)
Inductive same : value → value → Prop :=
| same_none : same VNone VNone
| same_bool b : same (VBool b) (VBool b)
| same_int z : same (VInt z) (VInt z)
| same_str s : same (VStr s) (VStr s)
| same_bytes b : same (VBytes b) (VBytes b)
| same_float f : same (VFloat f) (VFloat f)
| same_list l m : Forall2 same l m → same (VList l) (VList m)
| same_dict d e e' : NoDup (map fst d) → e' ≡ₚ e → Forall2 (fun x y => x.1 = y.1 ∧ same x.2 y.2) d e' →
    same (VDict d) (VDict e)
| same_set l m m' : m' ≡ₚ m → Forall2 same l m' → same (VSet l) (VSet m).

(** ** Induction on values *)

Lemma Forall_and_fold {A} (P : A → Prop) l : foldr and True (map P l) ↔ Forall P l.
Proof. induction l as [|x l IH]; cbn; [by split|]. by rewrite IH, Forall_cons. Qed.

Lemma value_nested_ind (P : value → Prop) :
  P VNone → (∀ b, P (VBool b)) → (∀ z, P (VInt z)) → (∀ s, P (VStr s)) → (∀ b, P (VBytes b)) → (∀ f, P (VFloat f)) →
  P VOpaque → (∀ l, Forall P l → P (VList l)) → (∀ d, Forall (fun e => P e.2) d → P (VDict d)) →
  (∀ l, Forall P l → P (VSet l)) → ∀ v, P v.
Proof.
  intros H1 H2 H3 H4 H5 H6 H7 Hl Hd Hs. fix IH 1. 
  intros [|b|z|s|b|f| |l|d|l];
    [exact H1|exact (H2 b)|exact (H3 z)|exact (H4 s)|exact (H5 b)|exact (H6 f)|exact H7|apply Hl|apply Hd|apply Hs].
  - induction l as [|x l IHl]; constructor; [apply IH | exact IHl].
  - induction d as [|[k x] d IHd]; constructor; [apply IH | exact IHd].
  - induction l as [|x l IHl]; constructor; [apply IH | exact IHl].
Qed.

Lemma list_sum_cons x l : list_sum (x :: l) = (x + list_sum l)%nat.
Proof. done. Qed.

Lemma rank_member l x : x ∈ l → (value_rank x < S (list_sum (map value_rank l)))%nat.
Proof.
  induction l as [|y l IH]; intros Hx; [by apply elem_of_nil in Hx|]. apply elem_of_cons in Hx as [->|Hx]; cbn [map]; rewrite list_sum_cons; [lia|].
  specialize (IH Hx). lia.
Qed.

Lemma rank_entry (d : list (option text * value)) e :
  e ∈ d → (value_rank e.2 < S (list_sum (map (fun e => value_rank e.2) d)))%nat.
Proof.
  induction d as [|y d IH]; intros Hx; [by apply elem_of_nil in Hx|]. apply elem_of_cons in Hx as [->|Hx]; cbn [map]; rewrite list_sum_cons; [lia|].
  specialize (IH Hx). lia.
Qed.

(** ** Reading an object *)

Lemma Forall2_functional {A B} (R : A → B → Prop) l xs ys :
  Forall (fun y => ∀ x y', R x y → R x y' → y = y') xs → Forall2 R l xs → Forall2 R l ys → xs = ys.
Proof.
  intros F H. revert ys. induction H as [|x y l xs Hxy _ IH]; intros ys H'; invert H'; [done|].
  apply Forall_cons in F as [F1 F2]. f_equal; eauto.
Qed.

Lemma reads_functional h o v v' : reads h o v → reads h o v' → v = v'.
Proof.
  revert o v'. induction v as [|b|z|s|b|f| |l IH|d IH|l IH] using value_nested_ind; intros o v' H H'; invert H;
    invert H'; simplify_eq; try done; f_equal.
  - eapply Forall2_functional; [|done..]. eapply Forall_impl; [exact IH|]. cbn. eauto.
  - eapply (Forall2_functional (fun e e' => e'.1 = e.1 ∧ reads h e.2 e'.2)); [|done..].
    eapply Forall_impl; [exact IH|]. cbn. intros [k x] Hx [k1 o1] [k2 x2] [E1 R1] [E2 R2]. cbn in *. subst. f_equal. eauto.
  - eapply Forall2_functional; [|done..]. eapply Forall_impl; [exact IH|]. cbn. eauto.
Qed.

Lemma reads_distinct h o v : dicts_ok h → reads h o v → distinct_keys v.
Proof.
  intros Hh. revert o. induction v as [|b|z|s|b|f| |l IH|d IH|l IH] using value_nested_ind; intros o H; invert H; cbn; try done;
    rewrite Forall_forall in IH; match goal with F : Forall2 _ _ _ |- _ => rename F into HF end.
  - apply Forall_and_fold, Forall_forall. intros x Hx. destruct (Forall2_right _ _ _ x HF Hx) as (o' & _ & Ho). eauto.
  - split.
    + rewrite <- (Forall2_keys _ fst fst _ _ HF); [by eapply Hh|]. by intros ?? [-> _].
    + apply Forall_and_fold, Forall_forall. intros x Hx. destruct (Forall2_right _ _ _ x HF Hx) as (o' & _ & _ & Ho). eauto.
  - apply Forall_and_fold, Forall_forall. intros x Hx. destruct (Forall2_right _ _ _ x HF Hx) as (o' & _ & Ho). eauto.
Qed.

(** ** The encoder on a heap *)

Lemma map_res_cons_ok {A B} (f : A → res B) x l ys :
  map_res f (x :: l) = Ok ys → ∃ y ys', f x = Ok y ∧ map_res f l = Ok ys' ∧ ys = y :: ys'.
Proof.
  cbn. destruct (f x) as [y|]; cbn; [|done]. destruct (map_res f l) as [ys'|]; cbn; [|done]. intros [= <-]. eauto.
Qed.

Lemma map_res_ext2 {A B C} (f : A → res C) (g : B → res C) l m :
  Forall2 (fun x y => f x = g y) l m → map_res f l = map_res g m.
Proof. induction 1 as [|x y l m E _ IH]; cbn; [done|]. by rewrite E, IH. Qed.

Lemma Forall2_impl_elem {A B} (P Q : A → B → Prop) l m :
  (∀ x y, y ∈ m → P x y → Q x y) → Forall2 P l m → Forall2 Q l m.
Proof. intros H F. induction F as [|x y l m Hxy _ IH]; constructor; [apply H; [left | done] | apply IH; intros; apply H; [by right | done]]. Qed.

Lemma map_res_err {A B} (f : A → res B) l e : map_res f l = Err e → ∃ x, x ∈ l ∧ f x = Err e.
Proof.
  induction l as [|x l IH]; cbn; [done|]. destruct (f x) eqn:E; cbn.
  - destruct (map_res f l); cbn; [done|]. intros [= ->]. destruct IH as (y & Hy & Ey); [done|]. exists y. split; [by right | done].
  - intros [= ->]. exists x. split; [left | done].
Qed.

Lemma encode_entry_ext {A B} (f : A → res bytes) (g : B → res bytes) e e' :
  e'.1 = e.1 → f e.2 = g e'.2 → encode_entry f e = encode_entry g e'.
Proof. unfold encode_entry. by intros -> ->. Qed.

(** The levels of fuel left are the containers not being encoded. *)
Definition enough (h : heap) (fuel : nat) (active : gset positive) : Prop :=
  active ⊆ dom h ∧ (size h <= fuel + size active)%nat.

Lemma enough_step h fuel active r c : enough h fuel active → h !! r = Some c → r ∉ active →
  ∃ fuel', fuel = S fuel' ∧ enough h fuel' ({[r]} ∪ active).
Proof.
  intros [Hd Hf] Hr Hn. assert (Hrd : r ∈ dom h) by (apply elem_of_dom; eauto).
  assert (Hs : size ({[r]} ∪ active) = S (size active)).
  { rewrite size_union by set_solver. by rewrite size_singleton. }
  assert (Hle : (size ({[r]} ∪ active) <= size h)%nat).
  { rewrite <- (size_dom h). apply subseteq_size. set_solver. }
  destruct fuel as [|fuel]; [lia|]. exists fuel. split; [done|]. split; [set_solver | lia].
Qed.

Lemma encode_reads h fuel : ∀ active o v, enough h fuel active → reads h o v →
  (∀ r w, r ∈ active → reads h (ORef r) w → (value_rank v < value_rank w)%nat) → encode h fuel active o = enc v.
Proof.
  induction fuel as [fuel IH] using lt_wf_ind. intros active o v Hf H Hrank.
  assert (Hcell : ∀ r, o = ORef r → r ∉ active).
  { intros r -> Hr. specialize (Hrank r v Hr H). lia. }
  assert (Hmember : ∀ fuel' r o' v', fuel = S fuel' → o = ORef r → enough h fuel' ({[r]} ∪ active) → reads h o' v' →
            (value_rank v' < value_rank v)%nat → encode h fuel' ({[r]} ∪ active) o' = enc v').
  { intros fuel' r o' v' -> -> Hf' H' Hlt. apply IH; [lia|done..|]. intros r' w [->%elem_of_singleton|Hr']%elem_of_union Hw.
    - by rewrite (reads_functional _ _ _ _ Hw H).
    - specialize (Hrank _ _ Hr' Hw). lia. }
  destruct H as [| | | | | | |r Hr|r items l Hr Hl|r d e Hr Hl|r items l Hr Hl]; try (by destruct fuel); [by destruct fuel; cbn; rewrite Hr|..];
    destruct (enough_step _ _ _ _ _ Hf Hr (Hcell r eq_refl)) as (fuel' & Hfuel & Hf'); subst fuel;
    cbn [encode enc]; rewrite Hr; rewrite bool_decide_true by auto; cbn [require mbind res_bind].
  - erewrite map_res_ext2; [done|]. apply (Forall2_impl_elem (reads h)); [|done]. intros o' v' Hv' Hr'.
    eapply Hmember; eauto. by apply rank_member.
  - erewrite map_res_ext2; [done|]. eapply Forall2_impl_elem; [|exact Hl]. intros e1 e2 He [E R].
    apply encode_entry_ext; [done|]. eapply Hmember; eauto. by apply rank_entry.
  - erewrite map_res_ext2; [done|]. apply (Forall2_impl_elem (reads h)); [|done]. intros o' v' Hv' Hr'.
    eapply Hmember; eauto. by apply rank_member.
Qed.

Lemma map_res_reads h (f : object → res bytes) items l :
  (∀ o b, f o = Ok b → ∃ v, reads h o v) → map_res f items = Ok l → ∃ vs, Forall2 (reads h) items vs.
Proof.
  intros Hf H%map_res_Forall2. induction H as [|o b items l Ho _ (vs & IH)]; [by exists []|].
  destruct (Hf o b Ho) as (v & Hv). exists (v :: vs). by constructor.
Qed.

Lemma map_entries_reads h (f : object → res bytes) (d : list (option text * object)) l :
  (∀ o b, f o = Ok b → ∃ v, reads h o v) → map_res (encode_entry f) d = Ok l →
  ∃ vs, Forall2 (fun e e' => e'.1 = e.1 ∧ reads h e.2 e'.2) d vs.
Proof.
  intros Hf H%map_res_Forall2. induction H as [|[k o] b items l Ho _ (vs & IH)]; [by exists []|].
  unfold encode_entry in Ho. cbn in Ho. destruct k as [k|]; [|done]. inv_ok. destruct (Hf _ _ E0) as (v & Hv).
  exists ((Some k, v) :: vs). by constructor.
Qed.

Lemma encode_ok_reads h fuel : ∀ active o b, encode h fuel active o = Ok b → ∃ v, reads h o v.
Proof.
  induction fuel as [|fuel IH]; intros active o b H; destruct o as [|p|z|s|x|f| |r]; cbn in H;
    try (eexists; by constructor); destruct (h !! r) as [c|] eqn:Hr; try done; inv_ok; destruct c as [items|d|items]; inv_ok;
    match goal with F : map_res _ _ = Ok _ |- _ => rename F into HF end.
  - apply (map_res_reads h) in HF as (vs & Hvs); [|by eauto]. eexists. by eapply reads_list.
  - apply (map_entries_reads h) in HF as (vs & Hvs); [|by eauto]. eexists. by eapply reads_dict.
  - apply (map_res_reads h) in HF as (vs & Hvs); [|by eauto]. eexists. by eapply reads_set.
Qed.

(** The encoder never runs out of fuel: no container is entered twice. *)
Lemma head_error major a e : head major a = Err e → e = OverflowError.
Proof. unfold head. repeat case_match; congruence. Qed.

Lemma encode_str_error s e : encode_str s = Err e → e = ValueError ∨ e = OverflowError.
Proof.
  unfold encode_str, utf8. destruct (map_res utf8_char s) eqn:E; cbn.
  - destruct (head 3 _) eqn:E'; cbn; [done|]. intros [= ->]. right. by apply head_error in E'.
  - intros [= ->]. left. apply map_res_err in E as (c & _ & Hc). revert Hc. unfold utf8_char. repeat case_match; congruence.
Qed.

Lemma build_error (f : res bytes) (g : bytes → res bytes) e :
  (∀ x, ∃ y, g x = Ok y) → (b ← f; g b) = Err e → f = Err e.
Proof. intros Hg. destruct f as [x|]; cbn; [|done]. destruct (Hg x) as (y & ->). done. Qed.

Lemma encode_total h fuel : ∀ active o e, enough h fuel active → encode h fuel active o = Err e → e ≠ RuntimeError.
Proof.
  induction fuel as [fuel IH] using lt_wf_ind. intros active o e Hf H.
  assert (Hhead : ∀ m a, head m a = Err e → e ≠ RuntimeError) by (intros m a ->%head_error; done).
  destruct o as [|[]|z|s|b|f| |r]; try (destruct fuel; cbn in H; congruence).
  - assert (H' : encode_int z = Err e) by (by destruct fuel). unfold encode_int in H'.
    destruct (_ || _); cbn in H'; [congruence|]. destruct (0 <=? z); eauto.
  - assert (H' : encode_str s = Err e) by (by destruct fuel). apply encode_str_error in H' as [-> | ->]; done.
  - assert (H' : encode_bytes b = Err e) by (by destruct fuel). unfold encode_bytes in H'.
    apply build_error in H'; [eauto | eauto].
  - destruct (h !! r) as [c|] eqn:Hr; [|destruct fuel; cbn in H; rewrite Hr in H; congruence].
    destruct (decide (r ∈ active)) as [Hin|Hin].
    { destruct fuel; cbn in H; rewrite Hr, bool_decide_false in H by auto; cbn in H; congruence. }
    destruct (enough_step _ _ _ _ _ Hf Hr Hin) as (fuel' & -> & Hf'). cbn [encode] in H.
    rewrite Hr, bool_decide_true in H by done. cbn [require mbind res_bind] in H.
    assert (IH' : ∀ o' e', encode h fuel' ({[r]} ∪ active) o' = Err e' → e' ≠ RuntimeError) by (intros o' e'; apply IH; [lia | done]).
    destruct c as [items|d|items].
    + destruct (map_res _ items) as [l|e'] eqn:E; cbn in H.
      * unfold build_list in H. apply build_error in H; eauto.
      * apply map_res_err in E as (o' & _ & Ho'). injection H as <-. eauto.
    + destruct (map_res _ d) as [l|e'] eqn:E; cbn in H.
      * unfold build_dict in H. apply build_error in H; eauto.
      * apply map_res_err in E as ([k o'] & _ & Ho'). injection H as <-. unfold encode_entry in Ho'; cbn in Ho'.
        destruct k as [k|]; [|congruence]. destruct (encode_str k) eqn:Ek; cbn in Ho'.
        -- destruct (encode _ _ _ o') eqn:Eo; cbn in Ho'; [done|]. injection Ho' as <-. eauto.
        -- injection Ho' as <-. apply encode_str_error in Ek as [-> | ->]; done.
    + destruct (map_res _ items) as [l|e'] eqn:E; cbn in H.
      * unfold build_set in H. destruct (adjacent_equal _); cbn in H; [congruence|]. apply build_error in H; eauto.
      * apply map_res_err in E as (o' & _ & Ho'). injection H as <-. eauto.
Qed.

Lemma enough_start h : enough h (size h) ∅.
Proof. split; [set_solver|]. rewrite size_empty. lia. Qed.

Lemma canonical_reads h o v : reads h o v → canonical_bytes h o = enc v.
Proof. intros H. apply encode_reads; [apply enough_start | done|]. intros r w []%elem_of_empty. Qed.

Lemma canonical_bytes_ok h o b : canonical_bytes h o = Ok b ↔ ∃ v, reads h o v ∧ enc v = Ok b.
Proof.
  split; [|by intros (v & Hv & <-); apply canonical_reads].
  intros H. destruct (encode_ok_reads _ _ _ _ _ H) as (v & Hv). exists v. split; [done|].
  by rewrite <- (canonical_reads _ _ _ Hv).
Qed.

(** C28: the encoder always ends, whatever the sharing and the cycles of the
    containers: an object that reads as a finite tree gets exactly the encoding
    (or the exception) of the tree, and one that does not — a container that
    reaches itself — is refused.  It never returns bytes for anything else and
    never runs out of the depth the heap provides. *)
Theorem encoder_terminates h o :
  (∀ v, reads h o v → canonical_bytes h o = enc v)
  ∧ ((∀ v, ¬ reads h o v) → ∃ e, canonical_bytes h o = Err e)
  ∧ canonical_bytes h o ≠ Err RuntimeError.
Proof.
  split; [intros v; apply canonical_reads|]. split.
  - intros Hn. destruct (canonical_bytes h o) as [b|e] eqn:E; [|eauto].
    apply canonical_bytes_ok in E as (v & Hv & _). by destruct (Hn v).
  - intros E. by apply (encode_total h _ ∅ o RuntimeError (enough_start h) E).
Qed.

(** ** Prefixes *)

(** The first byte of a head and how many follow. *)
Lemma head_shape m a x : 0 <= a → head m a = Ok x →
  ∃ k n, x = m * 32 + k :: to_bytes n a ∧ 0 <= k < 28 ∧ 0 <= a < 256 ^ Z.of_nat n + (if (n =? 0)%nat then 23 else 0)
    ∧ ((k = a ∧ n = 0%nat ∧ k < 24) ∨ (k = 24 ∧ n = 1%nat) ∨ (k = 25 ∧ n = 2%nat) ∨ (k = 26 ∧ n = 4%nat) ∨ (k = 27 ∧ n = 8%nat)).
Proof.
  intros Ha H. unfold head in H. change 32 with (2 ^ 5).
  destruct (a <? 24) eqn:E1; [|destruct (a <=? 255) eqn:E2; [|destruct (a <=? 65535) eqn:E3;
    [|destruct (a <=? 4294967295) eqn:E4; [|destruct (a <=? 18446744073709551615) eqn:E5; [|done]]]]]; bools; injection H as <-;
    rewrite lor_prefix by lia.
  - exists a, 0%nat. cbn. split_and!; try done; try lia.
  - exists 24, 1%nat. cbn. rewrite Z.div_1_r, Z.mod_small by lia. split_and!; try done; try lia.
  - exists 25, 2%nat. cbn -[to_bytes]. split_and!; try done; try lia.
  - exists 26, 4%nat. cbn -[to_bytes]. split_and!; try done; try lia.
  - exists 27, 8%nat. cbn -[to_bytes]. split_and!; try done; try lia.
Qed.

Lemma app_length_inj {A} (x y r r' : list A) : length x = length y → x ++ r = y ++ r' → x = y ∧ r = r'.
Proof. intros Hl E. by apply app_inj_1. Qed.

Lemma head_prefix m m' a a' x y r r' : 0 <= a → 0 <= a' → head m a = Ok x → head m' a' = Ok y → x ++ r = y ++ r' →
  m = m' ∧ a = a' ∧ x = y ∧ r = r'.
Proof.
  intros Ha Ha' Hx Hy E. destruct (head_shape _ _ _ Ha Hx) as (k & n & -> & Hk & Hn & Hs).
  destruct (head_shape _ _ _ Ha' Hy) as (k' & n' & -> & Hk' & Hn' & Hs'). injection E as Ek E.
  assert (m = m' ∧ k = k') as [<- <-] by lia. assert (n = n') as <- by lia.
  apply app_length_inj in E as [E ->]; [|by rewrite !to_bytes_length].
  assert (a = a') as <-; [|done]. destruct n as [|n]; [lia|].
  apply (to_bytes_inj (S n)); [cbn [Nat.eqb] in Hn; lia | cbn [Nat.eqb] in Hn'; lia | done].
Qed.

(** ** Encodings are prefix-free *)

(** The major type of an encoding is in its first byte. *)
Definition major_of (v : value) : Z :=
  match v with
  | VInt z => if 0 <=? z then 0 else 1
  | VBytes _ => 2
  | VStr _ => 3
  | VList _ => 4
  | VDict _ => 5
  | VSet _ => 6
  | _ => 7
  end.

Lemma head_major m a x : 0 <= a → head m a = Ok x → ∃ b l, x = b :: l ∧ b / 32 = m.
Proof.
  intros Ha Hx. destruct (head_shape _ _ _ Ha Hx) as (k & n & -> & Hk & _).
  eexists _, _. split; [done|]. rewrite Z.add_comm, Z.div_add, Z.div_small by lia. lia.
Qed.

Lemma len_nonneg {A} (l : list A) : 0 <= len l.
Proof. unfold len. lia. Qed.
Lemma len_eq {A B} (l : list A) (m : list B) : len l = len m ↔ length l = length m.
Proof. unfold len. lia. Qed.
#[local] Hint Resolve len_nonneg : core.

Lemma head_app_major m a x s : 0 <= a → head m a = Ok x → ∃ b l, x ++ s = b :: l ∧ b / 32 = m.
Proof. intros Ha (b & l & -> & Hb)%head_major; [|done]. by exists b, (l ++ s). Qed.

Lemma enc_major v x : enc v = Ok x → ∃ b l, x = b :: l ∧ b / 32 = major_of v.
Proof.
  destruct v as [|[]|z|s|b|f| |l|d|l]; cbn; intros H; try done; try (by injection H as <-; eexists _, _).
  - unfold encode_int in H. inv_ok. bools. unfold INT64_MIN, INT64_MAX in *.
    destruct (0 <=? z) eqn:E0; bools; eapply head_major; try exact H; lia.
  - unfold encode_str in H. inv_ok. eauto using head_app_major.
  - unfold encode_bytes in H. inv_ok. eauto using head_app_major.
  - unfold build_list in H. inv_ok. eauto using head_app_major.
  - unfold build_dict in H. inv_ok. eauto using head_app_major.
  - unfold build_set in H. inv_ok. by eexists _, _.
Qed.

Definition splits (x y : bytes) : Prop := ∀ r r', x ++ r = y ++ r' → x = y ∧ r = r'.

Lemma head_splits m a x s m' a' y t : 0 <= a → 0 <= a' → head m a = Ok x → head m' a' = Ok y →
  (a = a' → splits s t) → splits (x ++ s) (y ++ t).
Proof.
  intros Ha Ha' Hx Hy Hst r r'. rewrite <- !app_assoc. intros E.
  destruct (head_prefix _ _ _ _ _ _ _ _ Ha Ha' Hx Hy E) as (<- & <- & <- & E').
  destruct (Hst eq_refl _ _ E') as [-> ->]. done.
Qed.

Lemma same_length_splits x y : length x = length y → splits x y.
Proof. intros Hl r r'. by apply app_length_inj. Qed.

Lemma concat_map_splits {A} (g : A → bytes) xs ys r r' : length xs = length ys →
  (∀ a b, a ∈ xs → b ∈ ys → ∀ r r', g a ++ r = g b ++ r' → a = b ∧ r = r') →
  concat (map g xs) ++ r = concat (map g ys) ++ r' → xs = ys ∧ r = r'.
Proof.
  revert ys. induction xs as [|x xs IH]; intros [|y ys] Hl H E; try done. cbn in E. rewrite <- !app_assoc in E.
  destruct (H x y ltac:(left) ltac:(left) _ _ E) as [<- E']. destruct (IH ys) as [<- <-]; try done; [by injection Hl|].
  intros a b Ha Hb. apply H; by right.
Qed.

Lemma encode_str_splits s t x y : encode_str s = Ok x → encode_str t = Ok y → splits x y.
Proof.
  unfold encode_str. intros Hx Hy. inv_ok. eapply head_splits; eauto. intros Hl%len_eq. by apply same_length_splits.
Qed.

Lemma encoded_member l xs x : map_res enc l = Ok xs → x ∈ xs → ∃ v, v ∈ l ∧ enc v = Ok x.
Proof. intros H%map_res_Forall2 Hx. exact (Forall2_right _ _ _ x H Hx). Qed.

Lemma encoded_entry {A} (f : A → res bytes) d xs x : map_res (encode_entry f) d = Ok xs → x ∈ xs →
  ∃ k v, (Some k, v) ∈ d ∧ encode_str k = Ok x.1 ∧ f v = Ok x.2.
Proof.
  intros H%map_res_Forall2 Hx. destruct (Forall2_right _ _ _ x H Hx) as ([[k|] v] & Hin & He); [|done].
  unfold encode_entry in He; cbn in He. inv_ok. eauto.
Qed.

(** Equal encodings of containers have equal members, in the order written. *)
Lemma build_list_members xs ys x y r r' : build_list xs = Ok x → build_list ys = Ok y →
  (∀ a b, a ∈ xs → b ∈ ys → splits a b) → x ++ r = y ++ r' → xs = ys ∧ r = r'.
Proof.
  unfold build_list. intros Hx Hy H. inv_ok. rewrite <- !app_assoc. intros Er.
  eapply head_prefix in Er as (_ & Hl%len_eq & _ & Er); [|by auto..].
  rewrite <- (map_id xs), <- (map_id ys) in Er. eapply concat_map_splits in Er; [done..|]. intros u v Hu Hv. by apply H.
Qed.

Lemma build_dict_members xs ys x y r r' : build_dict xs = Ok x → build_dict ys = Ok y →
  (∀ a b, a ∈ xs → b ∈ ys → splits a.1 b.1) → (∀ a b, a ∈ xs → b ∈ ys → splits a.2 b.2) → x ++ r = y ++ r' →
  isort entry_leb xs = isort entry_leb ys ∧ r = r'.
Proof.
  unfold build_dict. intros Hx Hy H1 H2. inv_ok. rewrite <- !app_assoc. intros Er.
  eapply head_prefix in Er as (_ & Hl%len_eq & _ & Er); [|by auto..].
  eapply concat_map_splits in Er; [done|by rewrite !isort_perm|]. intros [a1 a2] [b1 b2] Ha Hb q q'. rewrite isort_perm in Ha, Hb.
  cbn. rewrite <- !app_assoc. intros E'%(H1 _ _ Ha Hb). cbn in E'. destruct E' as [-> E'%(H2 _ _ Ha Hb)]. cbn in E'.
  by destruct E' as [-> ->].
Qed.

Lemma build_set_inv xs x : build_set xs = Ok x →
  ∃ y, build_list (isort shorter xs) = Ok y ∧ x = SET_TAG ++ y ∧ NoDup xs.
Proof.
  unfold build_set. intros H. inv_ok. bools. unfold build_list.
  match goal with Hh : head 4 _ = Ok _ |- _ => rewrite Hh end. eexists. split; [done|]. split; [done|].
  match goal with Ha : adjacent_equal _ = false |- _ => apply adjacent_NoDup in Ha; [by rewrite isort_perm in Ha|] end.
  apply isort_sorted; [apply shorter_trans | apply shorter_total].
Qed.

Lemma splits_major v w x y : enc v = Ok x → enc w = Ok y → (major_of v = major_of w → splits x y) → splits x y.
Proof.
  intros (bx & lx & Ex & Mx)%enc_major (b' & l' & Ey & My)%enc_major H r r' E. apply H; [|done].
  rewrite Ex, Ey in E. injection E as -> _. congruence.
Qed.

Lemma encode_int_splits y z x x' : (0 <=? y) = (0 <=? z) → encode_int y = Ok x → encode_int z = Ok x' → splits x x'.
Proof.
  unfold encode_int. intros Es Hx Hy. inv_ok. rewrite <- Es in *.
  destruct (0 <=? y) eqn:Ey; symmetry in Es; bools; intros r r' Er;
    [assert (0 <= y ∧ 0 <= z) as [Hp Hq] by lia | assert (0 <= -1 - y ∧ 0 <= -1 - z) as [Hp Hq] by lia];
    by destruct (head_prefix _ _ _ _ _ _ _ _ Hp Hq Hx Hy Er) as (_ & _ & -> & ->).
Qed.

Lemma enc_splits v : ∀ w x y, enc v = Ok x → enc w = Ok y → splits x y.
Proof.
  induction v as [|b|z|s|b|f| |l IH|d IH|l IH] using value_nested_ind; intros w x y Hx Hy; try rewrite Forall_forall in IH;
    apply (splits_major _ _ _ _ Hx Hy); intros M; destruct w as [|b'|z'|s'|b'|f'| |l'|d'|l']; cbn in M;
    try done; try (by destruct (0 <=? _)); cbn in Hx, Hy; try done;
    try (by apply same_length_splits; destruct_all bool; simplify_eq).
  - eapply encode_int_splits; [|done..]. by destruct (0 <=? z), (0 <=? z').
  - by eapply encode_str_splits.
  - unfold encode_bytes in *. inv_ok. eapply head_splits; eauto. intros Hl%len_eq. by apply same_length_splits.
  - destruct (map_res enc l) as [xs|] eqn:Exs, (map_res enc l') as [ys|] eqn:Eys; try done; cbn in Hx, Hy. intros r r' Er.
    destruct (build_list_members xs ys x y r r') as [<- <-]; try done; [|split; congruence].
    intros e e' (v & Hv & Ev)%(encoded_member _ _ _ Exs) (v' & _ & Ev')%(encoded_member _ _ _ Eys); eauto.
  - destruct (map_res _ d) as [xs|] eqn:Exs, (map_res _ d') as [ys|] eqn:Eys; try done; cbn in Hx, Hy. intros r r' Er.
    destruct (build_dict_members xs ys x y r r') as [Es <-]; try done.
    + intros e e' (k & v & Hv & Ek & Ev)%(encoded_entry _ _ _ _ Exs) (k' & v' & _ & Ek' & Ev')%(encoded_entry _ _ _ _ Eys).
      by eapply encode_str_splits.
    + intros e e' (k & v & Hv & Ek & Ev)%(encoded_entry _ _ _ _ Exs) (k' & v' & _ & Ek' & Ev')%(encoded_entry _ _ _ _ Eys).
      by apply (IH (Some k, v) Hv v').
    + by apply app_inv_tail in Er.
  - destruct (map_res enc l) as [xs|] eqn:Exs, (map_res enc l') as [ys|] eqn:Eys; try done; cbn in Hx, Hy.
    apply build_set_inv in Hx as (x' & Hx & -> & _), Hy as (y' & Hy & -> & _). intros r r' Er. rewrite <- !app_assoc in Er.
    apply (inj (app SET_TAG)) in Er.
    destruct (build_list_members (isort shorter xs) (isort shorter ys) x' y' r r') as [Es <-]; try done.
    + intros e e'. rewrite !isort_perm.
      intros (v & Hv & Ev)%(encoded_member _ _ _ Exs) (v' & _ & Ev')%(encoded_member _ _ _ Eys); eauto.
    + by apply app_inv_tail in Er as ->.
Qed.

(** ** Equal bytes are equal values *)

Lemma Forall2_perm {A B} (R : A → B → Prop) l xs ys : Forall2 R l xs → ys ≡ₚ xs → ∃ m, m ≡ₚ l ∧ Forall2 R m ys.
Proof.
  intros H P. revert l H. induction P as [|y ys xs _ IH|y z ys|ys zs xs _ IH1 _ IH2]; intros l H.
  - by exists l; invert H.
  - apply Forall2_cons_inv_r in H as (x & l' & Hx & Hl & ->). destruct (IH l' Hl) as (m & Pm & Hm). exists (x :: m).
    split; [by rewrite Pm | by constructor].
  - apply Forall2_cons_inv_r in H as (u & l' & Hu & Hl & ->). apply Forall2_cons_inv_r in Hl as (v & l & Hv & Hl & ->).
    exists (v :: u :: l). split; [constructor | by repeat constructor].
  - destruct (IH2 l H) as (m & Pm & Hm). destruct (IH1 m Hm) as (m' & Pm' & Hm'). exists m'. split; [by rewrite Pm' | done].
Qed.

Lemma map_res_perm {A B} (f : A → res B) l xs ys : map_res f l = Ok xs → ys ≡ₚ xs → ∃ m, m ≡ₚ l ∧ map_res f m = Ok ys.
Proof.
  intros H%map_res_Forall2 P. destruct (Forall2_perm _ _ _ _ H P) as (m & Pm & Hm%map_res_Forall2). eauto.
Qed.

Lemma map_res_zip {A B} (f g : A → res B) (R : A → A → Prop) l m xs :
  map_res f l = Ok xs → map_res g m = Ok xs → (∀ a b x, a ∈ l → f a = Ok x → g b = Ok x → R a b) → Forall2 R l m.
Proof.
  intros Hl%map_res_Forall2 Hm%map_res_Forall2 H. revert m Hm. induction Hl as [|a x l xs Ha _ IH]; intros m Hm; invert Hm; constructor.
  - eapply H; [left|done..].
  - apply IH; [|done]. intros ? ? ? ?. apply H. by right.
Qed.

Lemma isort_eq_perm {A} (le : A → A → bool) xs ys : isort le xs = isort le ys → xs ≡ₚ ys.
Proof. intros E. by rewrite <- (isort_perm le xs), E, isort_perm. Qed.

Lemma encode_int_inj y z x : encode_int y = Ok x → encode_int z = Ok x → (0 <=? y) = (0 <=? z) → y = z.
Proof.
  unfold encode_int. intros Hx Hy Es. inv_ok. rewrite <- Es in *.
  destruct (0 <=? y) eqn:Ey; symmetry in Es; bools;
    [assert (0 <= y ∧ 0 <= z) as [Hp Hq] by lia | assert (0 <= -1 - y ∧ 0 <= -1 - z) as [Hp Hq] by lia];
    destruct (head_prefix _ _ _ _ _ _ [] [] Hp Hq Hx Hy eq_refl) as (_ & ? & _); lia.
Qed.

Lemma head_len_inj {A} m (s t : list A) x y a b :
  head m (len s) = Ok x → head m (len t) = Ok y → x ++ a = y ++ b → a = b.
Proof. intros Hx Hy E. by destruct (head_prefix _ _ _ _ _ _ _ _ (len_nonneg s) (len_nonneg t) Hx Hy E) as (_ & _ & _ & ->). Qed.

Lemma encode_str_inj s t x : encode_str s = Ok x → encode_str t = Ok x → s = t.
Proof.
  unfold encode_str. destruct (utf8 s) as [bs|] eqn:Es, (utf8 t) as [bt|] eqn:Et; cbn; try done.
  destruct (head 3 (len bs)) as [u|] eqn:Hu, (head 3 (len bt)) as [u'|] eqn:Hu'; cbn; try done. intros [= <-] [= E].
  eapply head_len_inj in E; [|done..]. subst. by eapply utf8_inj.
Qed.

Lemma encode_bytes_inj s t x : encode_bytes s = Ok x → encode_bytes t = Ok x → s = t.
Proof.
  unfold encode_bytes. destruct (head 2 (len s)) as [u|] eqn:Hu, (head 2 (len t)) as [u'|] eqn:Hu'; cbn; try done.
  intros [= <-] [= E]. by eapply head_len_inj in E.
Qed.

Lemma same_build_list l m x : build_list l = Ok x → build_list m = Ok x → (∀ a b, a ∈ l → b ∈ m → splits a b) → l = m.
Proof. intros Hx Hy H. by destruct (build_list_members _ _ _ _ [] [] Hx Hy H eq_refl). Qed.

Lemma enc_inj v : ∀ w x, distinct_keys v → enc v = Ok x → enc w = Ok x → same v w.
Proof.
  induction v as [|b|z|s|b|f| |l IH|d IH|l IH] using value_nested_ind; intros w x Hd Hx Hy; try rewrite Forall_forall in IH;
    assert (M : major_of w = major_of _) by
      (destruct (enc_major _ _ Hx) as (? & ? & -> & <-), (enc_major _ _ Hy) as (? & ? & [= <- <-] & <-); reflexivity);
    destruct w as [|b'|z'|s'|b'|f'| |l'|d'|l']; cbn in M; try done; try (by destruct (0 <=? _)); cbn in Hx, Hy; try done;
    try (by destruct_all bool; simplify_eq); try (by destruct_all bool; simplify_eq; constructor).
  - assert ((0 <=? z) = (0 <=? z')) by (by destruct (0 <=? z), (0 <=? z')). rewrite (encode_int_inj z z' x); constructor || done.
  - rewrite (encode_str_inj s s' x); constructor || done.
  - rewrite (encode_bytes_inj b b' x); constructor || done.
  - destruct (map_res enc l) as [xs|] eqn:Exs, (map_res enc l') as [ys|] eqn:Eys; try done; cbn in Hx, Hy.
    assert (xs = ys) as <-.
    { eapply same_build_list; [done..|].
      intros e e' (v & Hv & Ev)%(encoded_member _ _ _ Exs) (v' & _ & Ev')%(encoded_member _ _ _ Eys). by eapply enc_splits. }
    cbn in Hd. apply Forall_and_fold in Hd. rewrite Forall_forall in Hd. constructor.
    eapply map_res_zip; [done..|]. intros a b e Ha Ea Eb. by eapply IH; [..|exact Ea|]; auto.
  - destruct (map_res _ d) as [xs|] eqn:Exs, (map_res _ d') as [ys|] eqn:Eys; try done; cbn in Hx, Hy.
    destruct (build_dict_members xs ys x x [] []) as [Es _]; try done.
    { intros e e' (k & v & Hv & Ek & Ev)%(encoded_entry _ _ _ _ Exs) (k' & v' & _ & Ek' & Ev')%(encoded_entry _ _ _ _ Eys).
      by eapply encode_str_splits. }
    { intros e e' (k & v & Hv & Ek & Ev)%(encoded_entry _ _ _ _ Exs) (k' & v' & _ & Ek' & Ev')%(encoded_entry _ _ _ _ Eys).
      by eapply enc_splits. }
    apply isort_eq_perm in Es. destruct (map_res_perm _ _ _ _ Eys Es) as (m & Pm & Hm).
    cbn in Hd. destruct Hd as [Hk Hd]. apply Forall_and_fold in Hd. rewrite Forall_forall in Hd.
    apply (same_dict d d' m); [done..|]. eapply map_res_zip; [done..|].
    intros [[k|] a] [[k'|] b] [kb vb] Ha Ea Eb; try done; unfold encode_entry in Ea, Eb; cbn in Ea, Eb. inv_ok.
    split; [cbn; f_equal; by eapply encode_str_inj|]. eapply (IH (Some k, a)); eauto.
  - destruct (map_res enc l) as [xs|] eqn:Exs, (map_res enc l') as [ys|] eqn:Eys; try done; cbn in Hx, Hy.
    apply build_set_inv in Hx as (x' & Hx & -> & _), Hy as (y' & Hy & E%(inj (app SET_TAG)) & _). subst y'.
    assert (Es : isort shorter xs = isort shorter ys).
    { eapply same_build_list; [done..|]. intros e e'. rewrite !isort_perm.
      intros (v & Hv & Ev)%(encoded_member _ _ _ Exs) (v' & _ & Ev')%(encoded_member _ _ _ Eys). by eapply enc_splits. }
    apply isort_eq_perm in Es. destruct (map_res_perm _ _ _ _ Eys Es) as (m & Pm & Hm).
    cbn in Hd. apply Forall_and_fold in Hd. rewrite Forall_forall in Hd. apply (same_set l l' m); [done|].
    eapply map_res_zip; [done..|]. intros a b e Ha Ea Eb. by eapply IH; [..|exact Ea|]; auto.
Qed.

(** ** Equal values have equal bytes *)

Lemma map_res_same {A B} (f g : A → res B) (R : A → A → Prop) l m xs :
  Forall2 R l m → (∀ a b x, a ∈ l → R a b → f a = Ok x → g b = Ok x) → map_res f l = Ok xs → map_res g m = Ok xs.
Proof.
  intros F. revert xs. induction F as [|a b l m Hab _ IH]; intros xs H Hl; cbn in *; inv_ok; [done|].
  rewrite (H a b a0) by (done || left). rewrite (IH a1); [done| |done]. intros ? ? ? ?. apply H. by right.
Qed.

Lemma perm_map_res {A B} (f : A → res B) l m xs : map_res f l = Ok xs → m ≡ₚ l → ∃ ys, ys ≡ₚ xs ∧ map_res f m = Ok ys.
Proof.
  intros H%map_res_Forall2 P. assert (F : Forall2 (flip (fun x y => f x = Ok y)) xs l) by (by apply Forall2_flip).
  destruct (Forall2_perm _ _ _ _ F P) as (ys & Py & Fy). exists ys. split; [done|]. apply map_res_Forall2. by apply Forall2_flip.
Qed.

Lemma entry_keys_NoDup {A} (f : A → res bytes) d xs :
  NoDup (map fst d) → map_res (encode_entry f) d = Ok xs → NoDup (map fst xs).
Proof.
  revert xs. induction d as [|[k v] d IH]; intros xs Hd H; cbn in H; [by injection H as <-; constructor|].
  apply NoDup_cons in Hd as [Hk Hd]. destruct (encode_entry f (k, v)) as [e|] eqn:Ee; cbn in H; [|done].
  destruct (map_res (encode_entry f) d) as [ys|] eqn:Ey; cbn in H; [|done]. injection H as <-. cbn. constructor; [|by apply IH].
  intros (y & Hy & Hin)%list_elem_of_fmap. destruct (encoded_entry _ _ _ _ Ey Hin) as (k' & v' & Hd' & Hk' & _).
  unfold encode_entry in Ee. cbn in Ee. destruct k as [k|]; [|done]. inv_ok. cbn in *. subst.
  apply Hk, list_elem_of_fmap. exists (Some k', v'). split; [|done]. cbn. f_equal. by eapply encode_str_inj.
Qed.

Lemma NoDup_keys_inj {A B} (l : list (A * B)) x y : NoDup (map fst l) → x ∈ l → y ∈ l → x.1 = y.1 → x = y.
Proof.
  induction l as [|z l IH]; cbn; intros N Hx Hy E; [by apply elem_of_nil in Hx|]. apply NoDup_cons in N as [Hz N].
  apply elem_of_cons in Hx as [->|Hx], Hy as [->|Hy]; auto; exfalso; apply Hz, list_elem_of_fmap; eauto.
Qed.

Lemma entry_leb_trans x y z : entry_leb x y = true → entry_leb y z = true → entry_leb x z = true.
Proof. apply shorter_trans. Qed.
Lemma entry_leb_total x y : entry_leb x y = false → entry_leb y x = true.
Proof. apply shorter_total. Qed.

Lemma build_dict_perm xs ys : NoDup (map fst xs) → xs ≡ₚ ys → build_dict xs = build_dict ys.
Proof.
  intros N P. unfold build_dict, len. rewrite (Permutation_length P).
  rewrite (isort_unique entry_leb entry_leb_trans entry_leb_total xs ys); [done..|].
  intros x y Hx Hy H1 H2. apply (NoDup_keys_inj xs); [done..|]. by apply shorter_antisym.
Qed.

Lemma build_set_perm xs ys : xs ≡ₚ ys → build_set xs = build_set ys.
Proof.
  intros P. unfold build_set. rewrite (isort_unique shorter shorter_trans shorter_total xs ys); [done..|].
  intros x y _ _. apply shorter_antisym.
Qed.

Lemma same_enc v : ∀ w x, same v w → enc v = Ok x → enc w = Ok x.
Proof.
  induction v as [|b|z|s|b|f| |l IH|d IH|l IH] using value_nested_ind; intros w x Hs Hx; invert Hs; try done; cbn in Hx |- *;
    rewrite Forall_forall in IH.
  - destruct (map_res enc l) as [xs|] eqn:Exs; [|done]. erewrite map_res_same; [exact Hx|done| |exact Exs]. eauto.
  - destruct (map_res (encode_entry enc) d) as [xs|] eqn:Exs; [|done]. cbn in Hx.
    assert (He' : map_res (encode_entry enc) e' = Ok xs).
    { eapply map_res_same; [done| |exact Exs]. intros [k a] [k' b] y Ha [Ek Hab] Ea. cbn in *. subst k'.
      unfold encode_entry in *. cbn in *. destruct k as [k|]; [|done]. destruct (encode_str k); cbn in *; [|done].
      destruct (enc a) eqn:Ea'; cbn in *; [|done]. by rewrite (IH _ Ha b _ Hab Ea'). }
    destruct (perm_map_res _ _ e _ He') as (ys & Py & ->); [by symmetry|]. cbn.
    rewrite <- (build_dict_perm xs ys); [done| |done]. by eapply entry_keys_NoDup.
  - destruct (map_res enc l) as [xs|] eqn:Exs; [|done]. cbn in Hx.
    assert (Hm' : map_res enc m' = Ok xs) by (eapply map_res_same; [done| |exact Exs]; eauto).
    destruct (perm_map_res _ _ m _ Hm') as (ys & Py & ->); [by symmetry|]. cbn. by rewrite (build_set_perm ys xs).
Qed.

(** C25: the canonical bytes decide equality.  Two Python objects that can be
    encoded, wherever their containers live and however they are shared, get the
    same bytes exactly when they read as the same value up to the order of
    dictionaries and sets; and no encoding is a proper prefix of another, so
    that concatenated encodings are read back in one way. *)
Theorem canonical_bytes_decide h h' o o' b b' (Hh : dicts_ok h) (Hb : canonical_bytes h o = Ok b)
    (Hb' : canonical_bytes h' o' = Ok b') :
  (b = b' ↔ ∃ v v', reads h o v ∧ reads h' o' v' ∧ same v v')
  ∧ (∀ r r', b ++ r = b' ++ r' → b = b' ∧ r = r').
Proof.
  apply canonical_bytes_ok in Hb as (v & Hv & Ev), Hb' as (v' & Hv' & Ev'). split; [|by eapply enc_splits].
  split.
  - intros <-. exists v, v'. split_and!; [done..|]. eapply enc_inj; [by eapply reads_distinct|done..].
  - intros (w & w' & Hw & Hw' & Hs).
    rewrite (reads_functional _ _ _ _ Hw Hv), (reads_functional _ _ _ _ Hw' Hv') in Hs.
    rewrite (same_enc _ _ _ Hs Ev) in Ev'. by injection Ev'.
Qed.

(** ** The goldens of the test suite *)

Definition ascii_text (s : string) : text := map (fun c => Z.of_nat (nat_of_ascii c)) (list_ascii_of_string s).

Example golden_scalars :
  map (canonical_bytes ∅) [ONone; OBool true; OInt 23; OInt 24; OInt (-1); OInt (-25); OBytes (ascii_text "PoPS"); OStr [0xe9];
                          OStr [0x6771; 0x4eac]; OInt INT64_MAX; OInt (INT64_MAX + 1); OStr [0xd800]]
  = [Ok [0xf6]; Ok [0xf5]; Ok [0x17]; Ok [0x18; 0x18]; Ok [0x20]; Ok [0x38; 0x18]; Ok [0x44; 0x50; 0x6f; 0x50; 0x53];
     Ok [0x62; 0xc3; 0xa9]; Ok [0x66; 0xe6; 0x9d; 0xb1; 0xe4; 0xba; 0xac];
     Ok [0x1b; 0x7f; 0xff; 0xff; 0xff; 0xff; 0xff; 0xff; 0xff]; Err OverflowError; Err ValueError].
Proof. vm_compute. reflexivity. Qed.

(** [{"é": 3, "aa": 2, "b": 1}] and [{"b": 1, "aa": 2, "é": 3}], a list that
    contains itself, and a shared set. *)
Definition golden_heap : heap :=
  {[ 1%positive := CDict [(Some [0xe9], OInt 3); (Some (ascii_text "aa"), OInt 2); (Some (ascii_text "b"), OInt 1)];
     2%positive := CDict [(Some (ascii_text "b"), OInt 1); (Some (ascii_text "aa"), OInt 2); (Some [0xe9], OInt 3)];
     3%positive := CList [OInt 1; ORef 3];
     4%positive := CSet [OInt 3; OInt 1; OInt 2];
     5%positive := CList [ORef 4; ORef 4] ]}.

Example golden_containers :
  map (fun r => canonical_bytes golden_heap (ORef r)) [1; 3; 5]%positive
  = [Ok [0xa3; 0x61; 0x62; 1; 0x62; 0x61; 0x61; 2; 0x62; 0xc3; 0xa9; 3]; Err ValueError;
     Ok [0x82; 0xd9; 1; 2; 0x83; 1; 2; 3; 0xd9; 1; 2; 0x83; 1; 2; 3]].
Proof. vm_compute. reflexivity. Qed.

Lemma canonical_bytes_decide_witness :
  ∃ b, canonical_bytes golden_heap (ORef 1) = Ok b ∧ canonical_bytes golden_heap (ORef 2) = Ok b
       ∧ ∃ v v', reads golden_heap (ORef 1) v ∧ reads golden_heap (ORef 2) v' ∧ same v v'.
Proof.
  assert (Hd : dicts_ok golden_heap).
  { intros r d H. unfold golden_heap in H. rewrite !lookup_insert_Some, lookup_singleton_Some in H.
    destruct H as [[_ H]|[_ [[_ H]|[_ [[_ H]|[_ [[_ H]|[_ [_ H]]]]]]]]]; try discriminate H; injection H as <-; vm_compute;
      repeat constructor; set_solver. }
  exists [0xa3; 0x61; 0x62; 1; 0x62; 0x61; 0x61; 2; 0x62; 0xc3; 0xa9; 3].
  assert (E1 : canonical_bytes golden_heap (ORef 1) = Ok [0xa3; 0x61; 0x62; 1; 0x62; 0x61; 0x61; 2; 0x62; 0xc3; 0xa9; 3])
    by (vm_compute; reflexivity).
  assert (E2 : canonical_bytes golden_heap (ORef 2) = Ok [0xa3; 0x61; 0x62; 1; 0x62; 0x61; 0x61; 2; 0x62; 0xc3; 0xa9; 3])
    by (vm_compute; reflexivity).
  split; [exact E1|]. split; [exact E2|].
  exact (proj1 (proj1 (canonical_bytes_decide _ _ _ _ _ _ Hd E1 E2)) eq_refl).
Defined.
