(* ===== verification/NativeIdentity.v ===== *)
(** * The native identity encoder

    [include/pops/core/identity/canonical_value.hpp] and the conversion of
    [python/bindings/core/init/init_identity.cpp]: the C++ twin of the Python
    encoder.  Both produce the same bytes. *)
From stdpp Require Import sorting.
From S2P Require Import Prelude Bytes CanonicalCbor.

(** ** Values *)

(** [CanonicalValue]; a [std::string] is its bytes. *)
Inductive native :=
| NNull
| NBool (b : bool)
| NInt (z : Z)
| NText (s : bytes)
| NBytes (b : bytes)
| NArray (items : list native)
| NMap (entries : list (bytes * native))
| NSet (items : list native).

(** ** [valid_utf8] *)

(** The inner loop over the continuation bytes, with the bytes left. *)
Fixpoint continuation (trailing : nat) (code : Z) (data : bytes) : option (Z * bytes) :=
  match trailing, data with
  | O, _ => Some (code, data)
  | S _, [] => None
  | S trailing, next :: data =>
      if negb (Z.land next 0xc0 =? 0x80) then None
      else continuation trailing (Z.lor (Z.shiftl code 6) (Z.land next 0x3f)) data
  end.

(** What the first byte of a sequence of several announces: how many bytes
    follow, its own bits, the least code that needs the length. *)
Definition leading (first : Z) : option (nat * Z * Z) :=
  if (0xc2 <=? first) && (first <=? 0xdf) then Some (1%nat, Z.land first 0x1f, 0x80)
  else if (0xe0 <=? first) && (first <=? 0xef) then Some (2%nat, Z.land first 0x0f, 0x800)
  else if (0xf0 <=? first) && (first <=? 0xf4) then Some (3%nat, Z.land first 0x07, 0x10000)
  else None.

(** The test after a sequence of several bytes. *)
Definition bad_code (code minimum : Z) : bool :=
  (code <? minimum) || (0x10ffff <? code) || ((0xd800 <=? code) && (code <=? 0xdfff)).

(** The outer loop; each turn reads a byte. *)
Fixpoint utf8_loop (fuel : nat) (data : bytes) : bool :=
  match data, fuel with
  | [], _ => true
  | _ :: _, O => false
  | first :: data, S fuel =>
      if first <=? 0x7f then utf8_loop fuel data
      else match leading first with
           | None => false
           | Some (trailing, code, minimum) =>
               match continuation trailing code data with
               | None => false
               | Some (code, data) => if bad_code code minimum then false else utf8_loop fuel data
               end
           end
  end.
Definition valid_utf8 (value : bytes) : bool := utf8_loop (length value) value.

(** ** [encode_into] *)

(** Casts to [std::uint8_t] and [std::uint64_t]. *)
Definition u8 (z : Z) : Z := z mod 2 ^ 8.
Definition u64 (z : Z) : Z := z mod 2 ^ 64.

(** [append_uint]: the bytes it appends. *)
Definition append_uint (major value : Z) : bytes :=
  let prefix := u8 (Z.shiftl major 5) in
  if value <? 24 then [u8 (Z.lor prefix value)]
  else if value <=? 0xff then [u8 (Z.lor prefix 24); u8 value]
  else if value <=? 0xffff then u8 (Z.lor prefix 25) :: shifted_bytes 2 value
  else if value <=? 0xffffffff then u8 (Z.lor prefix 26) :: shifted_bytes 4 value
  else u8 (Z.lor prefix 27) :: shifted_bytes 8 value.

Definition append_text (text : bytes) : res bytes :=
  _ ← require (valid_utf8 text) ValueError; Ok (append_uint 3 (u64 (len text)) ++ text).

(** The bytes [encode_into] appends; the entries of a map are encoded after they
    are sorted. *)
Fixpoint encode_into (value : native) : res bytes :=
  match value with
  | NNull => Ok [0xf6]
  | NBool b => Ok [if b then 0xf5 else 0xf4]
  | NInt integer => Ok (if 0 <=? integer then append_uint 0 (u64 integer) else append_uint 1 (u64 (- (integer + 1))))
  | NText text => append_text text
  | NBytes b => Ok (append_uint 2 (u64 (len b)) ++ b)
  | NArray items => l ← map_res encode_into items; Ok (append_uint 4 (u64 (len items)) ++ concat l)
  | NMap entries =>
      entries ← map_res (fun e => key ← append_text e.1; Ok (key, encode_into e.2)) entries;
      let entries := isort (fun a b => shorter a.1 b.1) entries in
      _ ← require (negb (adjacent_equal (map fst entries))) ValueError;
      l ← map_res (fun e => item ← e.2; Ok (e.1 ++ item)) entries;
      Ok (append_uint 5 (u64 (len entries)) ++ concat l)
  | NSet items =>
      items ← map_res encode_into items;
      let items := isort shorter items in
      _ ← require (negb (adjacent_equal items)) ValueError;
      Ok (append_uint 6 258 ++ append_uint 4 (u64 (len items)) ++ concat items)
  end.

(** ** [from_python] *)

(** One turn of the loop over a dictionary. *)
Definition native_entry {A} (from_python : A → res native) (e : option text * A) : res (bytes * native) :=
  match e.1 with
  | None => Err TypeError
  | Some key => k ← utf8 key; v ← from_python e.2; Ok (k, v)
  end.

Section FromPython.
Context (h : heap).

Fixpoint from_python (fuel : nat) (active : gset positive) (value : object) : res native :=
  match value with
  | ONone => Ok NNull
  | OBool b => Ok (NBool b)
  | OInt z => _ ← require ((- 2 ^ 63 <=? z) && (z <? 2 ^ 63)) OverflowError; Ok (NInt z)
  | OStr s => text ← utf8 s; Ok (NText text)
  | OBytes b => Ok (NBytes b)
  | OFloat _ => Err TypeError
  | OOpaque => Err TypeError
  | ORef r =>
      match h !! r with
      | None => Err TypeError
      | Some c =>
          _ ← require (bool_decide (r ∉ active)) ValueError;
          let active := {[r]} ∪ active in
          match fuel with
          | O => Err RuntimeError
          | S fuel =>
              match c with
              | CDict entries =>
                  l ← map_res (native_entry (from_python fuel active)) entries; Ok (NMap l)
              | CList items => l ← map_res (from_python fuel active) items; Ok (NArray l)
              | CSet items => l ← map_res (from_python fuel active) items; Ok (NSet l)
              end
          end
      end
  end.

(** [_identity_canonical_bytes] *)
Definition native_bytes (value : object) : res bytes := n ← from_python (size h) ∅ value; encode_into n.
End FromPython.

(** ** Heads *)

Lemma u8_small z : 0 <= z < 256 → u8 z = z.
Proof. intros H. unfold u8. by rewrite Z.mod_small. Qed.

Lemma append_uint_head major value : 0 <= major < 8 → 0 <= value < 2 ^ 64 → head major value = Ok (append_uint major value).
Proof.
  intros Hm Hv. unfold head, append_uint.
  assert (Hp : ∀ a, 0 <= a < 32 → u8 (Z.lor (u8 (Z.shiftl major 5)) a) = Z.lor (Z.shiftl major 5) a).
  { intros a Ha. assert (Hs : u8 (Z.shiftl major 5) = Z.shiftl major 5) by (rewrite Z.shiftl_mul_pow2 by lia; apply u8_small; lia).
    rewrite Hs. apply u8_small. rewrite lor_prefix by lia. lia. }
  destruct (value <? 24) eqn:E1; [bools; by rewrite Hp by lia|].
  destruct (value <=? 255) eqn:E2; [bools; by rewrite Hp, u8_small by lia|].
  destruct (value <=? 65535) eqn:E3; [bools; by rewrite Hp, shifted_to_bytes by lia|].
  destruct (value <=? 4294967295) eqn:E4; [bools; by rewrite Hp, shifted_to_bytes by lia|].
  bools. rewrite Hp, shifted_to_bytes by lia. by rewrite (proj2 (Z.leb_le value _)) by lia.
Qed.

(** ** UTF-8 *)

(** The bits of a byte, by enumeration. *)
Lemma byte_bits (P : Z → bool) : forallb P (map Z.of_nat (seq 0 256)) = true → ∀ b, is_byte b → P b = true.
Proof.
  intros H b Hb. rewrite forallb_forall in H. apply H, in_map_iff. exists (Z.to_nat b). unfold is_byte in Hb.
  split; [lia|]. apply in_seq. lia.
Qed.

Lemma continuation_byte next : is_byte next → (Z.land next 0xc0 =? 0x80) = (128 <=? next) && (next <=? 191).
Proof.
  intros Hb. apply eqb_prop. revert next Hb. apply (byte_bits (fun next => eqb (Z.land next 0xc0 =? 0x80) ((128 <=? next) && (next <=? 191)))).
  vm_compute. reflexivity.
Qed.

Lemma leading_bits first : is_byte first →
  leading first =
    if (194 <=? first) && (first <=? 223) then Some (1%nat, first - 192, 128)
    else if (224 <=? first) && (first <=? 239) then Some (2%nat, first - 224, 2048)
    else if (240 <=? first) && (first <=? 244) then Some (3%nat, first - 240, 65536) else None.
Proof.
  intros Hb. apply (bool_decide_eq_true_1 _). revert first Hb. apply (byte_bits (fun first => bool_decide (leading first = _))).
  vm_compute. reflexivity.
Qed.

Lemma continuation_S trailing code next data : is_byte next → 0 <= code →
  continuation (S trailing) code (next :: data)
  = if (128 <=? next) && (next <=? 191) then continuation trailing (code * 64 + (next - 128)) data else None.
Proof.
  intros Hb Hc. cbn [continuation]. rewrite continuation_byte by done. destruct (_ && _) eqn:E; [|done]. cbn. f_equal. bools.
  change 63 with (Z.ones 6). rewrite Z.land_ones, lor_prefix; [|apply Z.mod_pos_bound; lia|lia|lia].
  change (2 ^ 6) with 64. Z.to_euclidean_division_equations. lia.
Qed.

Ltac bytes_arith := Z.to_euclidean_division_equations; lia.

(** A sequence the loop accepts is the encoding of its code. *)
Lemma sequence_accepted first data n code0 minimum code rest : Forall is_byte (first :: data) →
  leading first = Some (n, code0, minimum) → continuation n code0 data = Some (code, rest) → bad_code code minimum = false →
  ∃ x, utf8_char code = Ok (first :: x) ∧ data = x ++ rest.
Proof.
  intros [Hf Hd]%Forall_cons. rewrite leading_bits by done. unfold bad_code, is_byte in *. intros Hl Hc Hbad.
  apply orb_false_iff in Hbad as [[Hmin Hmax]%orb_false_iff Hsur]. bools.
  repeat case_match; bools; simplify_eq.
  - destruct data as [|b1 data]; [done|]. apply Forall_cons in Hd as [Hb1 Hd].
    rewrite continuation_S in Hc by (done || lia). case_match; bools; [|done]. injection Hc as <- <-.
    exists [b1]. split; [|done]. apply utf8_char_spec. right; left. split; [lia|]. repeat f_equal; bytes_arith.
  - destruct data as [|b1 [|b2 data]]; [done|by cbn in Hc; case_match|]. apply Forall_cons in Hd as [Hb1 [Hb2 Hd]%Forall_cons].
    do 2 (rewrite continuation_S in Hc by (done || lia); case_match; bools; [|done]). injection Hc as <- <-.
    exists [b1; b2]. split; [|done]. apply utf8_char_spec. right; right; left. split; [lia|]. split; [done|].
    repeat f_equal; bytes_arith.
  - destruct data as [|b1 [|b2 [|b3 data]]]; [done|by cbn in Hc; case_match|by cbn in Hc; repeat case_match|].
    apply Forall_cons in Hd as [Hb1 [Hb2 [Hb3 Hd]%Forall_cons]%Forall_cons].
    do 3 (rewrite continuation_S in Hc by (done || lia); case_match; bools; [|done]). injection Hc as <- <-.
    exists [b1; b2; b3]. split; [|done]. apply utf8_char_spec. right; right; right. split; [lia|]. repeat f_equal; bytes_arith.
Qed.

Lemma tail_byte z : is_byte (128 + z mod 64) ∧ (128 <=? 128 + z mod 64) && (128 + z mod 64 <=? 191) = true.
Proof.
  pose proof (Z.mod_pos_bound z 64 ltac:(lia)). unfold is_byte. rewrite andb_true_iff, !Z.leb_le. lia.
Qed.

Lemma continuation_tail trailing code z data : 0 <= code →
  continuation (S trailing) code (128 + z mod 64 :: data) = continuation trailing (code * 64 + z mod 64) data.
Proof.
  intros Hc. destruct (tail_byte z) as [Hb Ht]. rewrite continuation_S, Ht by done. f_equal. lia.
Qed.

(** The encoding of a code beyond ASCII is a sequence the loop accepts. *)
Lemma sequence_encoded c x rest : 128 <= c → utf8_char c = Ok x →
  ∃ first y n code0 minimum, x = first :: y ∧ 0x7f < first
    ∧ leading first = Some (n, code0, minimum) ∧ continuation n code0 (y ++ rest) = Some (c, rest) ∧ bad_code c minimum = false.
Proof.
  intros Hc [[? _]|[[Hr ->]|[(Hr & Hs & ->)|[Hr ->]]]]%utf8_char_spec; [lia| | |]; unfold bad_code;
    eexists _, _, _, _, _; (split; [done|]); (split; [Z.to_euclidean_division_equations; lia|]);
    (rewrite leading_bits by (unfold is_byte; bytes_arith)).
  - rewrite (proj2 (andb_true_iff _ _)) by (rewrite !Z.leb_le; bytes_arith). split; [done|]. cbn [app].
    rewrite continuation_tail by bytes_arith. cbn [continuation]. split; [f_equal; f_equal; bytes_arith|].
    rewrite !orb_false_iff, !Z.ltb_ge. split; [lia|]. apply andb_false_iff. rewrite Z.leb_gt. lia.
  - rewrite (proj2 (andb_false_iff _ _)) by (rewrite !Z.leb_gt; bytes_arith).
    rewrite (proj2 (andb_true_iff _ _)) by (rewrite !Z.leb_le; bytes_arith). split; [done|]. cbn [app].
    do 2 rewrite continuation_tail by bytes_arith. cbn [continuation]. split; [f_equal; f_equal; bytes_arith|].
    unfold is_surrogate in Hs. rewrite Hs, !orb_false_iff, !Z.ltb_ge. lia.
  - rewrite (proj2 (andb_false_iff _ _)) by (rewrite !Z.leb_gt; bytes_arith).
    rewrite (proj2 (andb_false_iff _ _)) by (rewrite !Z.leb_gt; bytes_arith).
    rewrite (proj2 (andb_true_iff _ _)) by (rewrite !Z.leb_le; bytes_arith). split; [done|]. cbn [app].
    do 3 rewrite continuation_tail by bytes_arith. cbn [continuation]. split; [f_equal; f_equal; bytes_arith|].
    rewrite !orb_false_iff, !Z.ltb_ge. split; [lia|]. apply andb_false_iff. rewrite !Z.leb_gt. lia.
Qed.

Lemma utf8_loop_spec fuel : ∀ data, Forall is_byte data → (length data <= fuel)%nat →
  utf8_loop fuel data = true ↔ ∃ s, utf8 s = Ok data.
Proof.
  induction fuel as [|fuel IH]; intros [|first data] Hb Hl; cbn in Hl; try lia; try (split; [by exists [] | done]).
  cbn [utf8_loop]. pose proof Hb as [Hf Hd]%Forall_cons. destruct (first <=? 127) eqn:Ea; bools.
  - rewrite IH by (done || lia). split; intros (s & Hs).
    + exists (first :: s). apply utf8_cons. exists [first], data. split; [|done]. apply utf8_char_spec. left. unfold is_byte in Hf. split; [lia | done].
    + destruct s as [|c s]; [done|]. apply utf8_cons in Hs as (x & y & Hx & Hy & E). destruct (decide (128 <= c)) as [Hc|Hc].
      * destruct (sequence_encoded c x y Hc Hx) as (f & z & n & c0 & mi & -> & Hlt & _). injection E as <- _. lia.
      * apply utf8_char_spec in Hx as [[? ->]|Hx]; [|destruct_or! Hx; destruct_and?; lia]. injection E as <- ->. by exists s.
  - split.
    + destruct (leading first) as [[[n code0] minimum]|] eqn:El; [|done].
      destruct (continuation n code0 data) as [[code rest]|] eqn:Ec; [|done]. destruct (bad_code code minimum) eqn:Eb; [done|].
      destruct (sequence_accepted _ _ _ _ _ _ _ Hb El Ec Eb) as (x & Hx & ->). apply Forall_app in Hd as [_ Hr].
      rewrite length_app in Hl. rewrite IH by (done || lia). intros (s & Hs). exists (code :: s). apply utf8_cons.
      exists (first :: x), rest. done.
    + intros ([|c s] & Hs); [done|]. apply utf8_cons in Hs as (x & y & Hx & Hy & E). destruct (decide (128 <= c)) as [Hc|Hc].
      * destruct (sequence_encoded c x y Hc Hx) as (f & z & n & c0 & mi & -> & _ & Hlead & Hcont & Hbad). injection E as <- ->.
        rewrite Hlead, Hcont, Hbad. apply Forall_app in Hd as [_ Hd]. rewrite length_app in Hl. apply IH; [done|lia|]. by exists s.
      * apply utf8_char_spec in Hx as [[? ->]|Hx]; [|destruct_or! Hx; destruct_and?; lia]. injection E as <- _. lia.
Qed.

(** The native validator accepts exactly the UTF-8 encodings: no overlong form,
    no surrogate, no code above 0x10ffff, no truncated sequence. *)
Theorem valid_utf8_exact data (Hb : Forall is_byte data) : valid_utf8 data = true ↔ ∃ s, utf8 s = Ok data.
Proof. by apply utf8_loop_spec. Qed.

(** U+20AC, and a surrogate. *)
Lemma valid_utf8_exact_witness : (∃ s, utf8 s = Ok [0xe2; 0x82; 0xac]) ∧ ¬ ∃ s, utf8 s = Ok [0xed; 0xa0; 0x80].
Proof.
  assert (H1 : Forall is_byte [0xe2; 0x82; 0xac]) by (repeat (apply Forall_cons; split; [unfold is_byte; lia|]); by apply Forall_nil).
  assert (H2 : Forall is_byte [0xed; 0xa0; 0x80]) by (repeat (apply Forall_cons; split; [unfold is_byte; lia|]); by apply Forall_nil).
  split; [by apply (valid_utf8_exact _ H1) | by intros H%(valid_utf8_exact _ H2)].
Defined.

(** ** Parity *)

(** Lengths fit in [std::size_t], as those of every object in memory do. *)
Definition fits {A} (l : list A) : Prop := len l < 2 ^ 64.
Definition text_fits (s : text) : Prop := ∀ b, utf8 s = Ok b → fits b.
Definition object_fits (o : object) : Prop :=
  match o with OStr s => text_fits s | OBytes b => fits b | _ => True end.
Definition container_fits (c : container) : Prop :=
  match c with
  | CList items | CSet items => fits items ∧ Forall object_fits items
  | CDict entries => fits entries ∧ Forall (fun e => default True (text_fits <$> e.1) ∧ object_fits e.2) entries
  end.
Definition heap_fits (h : heap) : Prop := ∀ r c, h !! r = Some c → container_fits c.

Lemma u64_len {A} (l : list A) : fits l → u64 (len l) = len l.
Proof. intros H. unfold u64. rewrite Z.mod_small; [done|]. unfold fits in H. pose proof (len_nonneg l). lia. Qed.

Lemma head_len {A} m (l : list A) : 0 <= m < 8 → fits l → head m (len l) = Ok (append_uint m (u64 (len l))).
Proof. intros Hm Hl. rewrite u64_len by done. apply append_uint_head; [done|]. pose proof (len_nonneg l). unfold fits in Hl. lia. Qed.

Lemma encode_str_native s b : text_fits s → utf8 s = Ok b →
  encode_str s = Ok (append_uint 3 (u64 (len b)) ++ b) ∧ append_text b = Ok (append_uint 3 (u64 (len b)) ++ b).
Proof.
  intros Hf Hs. unfold encode_str, append_text. rewrite Hs. cbn. rewrite head_len by (lia || by apply Hf).
  split; [done|]. rewrite (proj2 (valid_utf8_exact b (utf8_bytes _ _ Hs))) by eauto. done.
Qed.

Lemma encode_int_native z b : encode_int z = Ok b ↔
  (- 2 ^ 63 <=? z) && (z <? 2 ^ 63) = true ∧ encode_into (NInt z) = Ok b.
Proof.
  unfold encode_int. cbn [encode_into]. change INT64_MIN with (- 2 ^ 63). change INT64_MAX with (2 ^ 63 - 1).
  rewrite andb_true_iff, Z.leb_le, Z.ltb_lt. destruct (_ || _) eqn:E; cbn.
  - split; [done|]. intros [? _]. apply orb_true_iff in E as [E|E]; bools; lia.
  - bools. unfold u64. replace (-1 - z) with (- (z + 1)) by lia.
    destruct (0 <=? z) eqn:E0; bools; rewrite Z.mod_small by lia; rewrite append_uint_head by lia; (split; [|tauto]); intros Hb;
      (split; [lia | exact Hb]).
Qed.

Lemma map_res_map {A B C} (f : B → res C) (g : A → B) l : map_res f (map g l) = map_res (fun x => f (g x)) l.
Proof. induction l as [|x l IH]; cbn; [done|]. by rewrite IH. Qed.

Lemma map_res_total {A B} (f : A → B) l : map_res (fun x => Ok (f x)) l = Ok (map f l).
Proof. induction l as [|x l IH]; cbn; [done|]. by rewrite IH. Qed.

(** What the native map sorts. *)
Definition keyed (e : bytes * native) : res (bytes * res bytes) := key ← append_text e.1; Ok (key, encode_into e.2).

(** The native map writes what the Python dictionary does. *)
Lemma encode_map_native ns es : fits es → NoDup (map fst es) →
  map_res keyed ns = Ok (map (fun e => (e.1, Ok e.2)) es) →
  encode_into (NMap ns) = build_dict es.
Proof.
  intros Hf N H. cbn [encode_into]. change (map_res _ ns) with (map_res keyed ns). rewrite H. cbn [mbind res_bind].
  rewrite (isort_map entry_leb) by done. rewrite map_map.
  assert (Hs : adjacent_equal (map fst (isort entry_leb es)) = false).
  { apply adjacent_NoDup; [|by rewrite isort_perm]. apply (StronglySorted_fmap fst entry_leb shorter); [done|].
    apply isort_sorted; [apply entry_leb_trans | apply entry_leb_total]. }
  cbn [fst]. change (map (fun x => x.1) (isort entry_leb es)) with (map fst (isort entry_leb es)). rewrite Hs. cbn [negb require mbind res_bind].
  rewrite map_res_map. cbn [snd fst mbind res_bind]. rewrite map_res_total. cbn [mbind res_bind].
  unfold build_dict. rewrite head_len by (lia || done). cbn. unfold len. by rewrite length_map, isort_length.
Qed.

Lemma encode_array_native ns xs : fits xs → map_res encode_into ns = Ok xs → encode_into (NArray ns) = build_list xs.
Proof.
  intros Hf H. cbn [encode_into]. rewrite H. cbn. unfold build_list. rewrite head_len by (lia || done).
  unfold len. by rewrite (map_res_length _ _ _ H).
Qed.

Lemma encode_set_native ns xs : fits xs → map_res encode_into ns = Ok xs → encode_into (NSet ns) = build_set xs.
Proof.
  intros Hf H. cbn [encode_into]. rewrite H. cbn [mbind res_bind]. unfold build_set. destruct (adjacent_equal _); [done|]. cbn [negb require mbind res_bind].
  assert (Hf' : fits (isort shorter xs)) by (unfold fits, len; by rewrite isort_length).
  rewrite head_len by (lia || done). done.
Qed.

Lemma map_res_compose {A B C} (f : A → res C) (g : A → res B) (k : B → res C) l xs :
  map_res f l = Ok xs → (∀ a x, a ∈ l → f a = Ok x → ∃ n, g a = Ok n ∧ k n = Ok x) →
  ∃ ns, map_res g l = Ok ns ∧ map_res k ns = Ok xs.
Proof.
  intros Hl%map_res_Forall2 H. induction Hl as [|a x l xs Ha _ IH]; [by exists []|].
  destruct (H a x ltac:(left) Ha) as (n & Hn & Hk). destruct IH as (ns & Hns & Hks).
  { intros ? ? ?. apply H. by right. }
  exists (n :: ns). cbn. by rewrite Hn, Hns, Hk, Hks.
Qed.

Lemma map_res_decompose {A B C} (f : A → res C) (g : A → res B) (k : B → res C) l ns xs :
  (∀ a n x, a ∈ l → g a = Ok n → k n = Ok x → ∃ y, f a = Ok y) → map_res g l = Ok ns → map_res k ns = Ok xs →
  ∃ ys, map_res f l = Ok ys.
Proof.
  intros H Hg%map_res_Forall2. revert xs. induction Hg as [|a n l ns Ha _ IH]; intros xs Hk; cbn in Hk; [by exists []|].
  destruct (k n) as [x|] eqn:Ek; [|done]. destruct (map_res k ns) as [zs|] eqn:Ez; [|done]. cbn in Hk.
  destruct (H a n x ltac:(left) Ha Ek) as (y & Hy). destruct (IH ltac:(intros ? ? ? ?; apply H; by right) zs eq_refl) as (ys & Hys).
  exists (y :: ys). cbn. by rewrite Hy, Hys.
Qed.

Lemma map_res_then {A B C} (f : A → res B) (g : B → C) l xs :
  map_res f l = Ok xs → map_res (fun a => y ← f a; Ok (g y)) l = Ok (map g xs).
Proof.
  intros H%map_res_Forall2. induction H as [|a y l ys Ha _ IH]; cbn; [done|]. by rewrite Ha, IH.
Qed.

Section Parity.
Context (h : heap) (Hfits : heap_fits h) (Hdicts : dicts_ok h).

Definition is_ref (o : object) : bool := match o with ORef _ => true | _ => false end.

Lemma parity_atom fuel active o b : is_ref o = false → object_fits o →
  encode h fuel active o = Ok b ↔ ∃ n, from_python h fuel active o = Ok n ∧ encode_into n = Ok b.
Proof.
  intros Hr Ho. destruct o as [|p|z|s|x|f| |r]; try done;
    destruct fuel; cbn [encode from_python]; cbn [object_fits] in Ho;
    try (split; [done | by intros (? & ? & _)]);
    try (split; [intros [= <-]; by (eexists; split; [reflexivity|]) | intros (? & [= <-] & [= <-]); done]).
  1,2: destruct p; (split; [intros [= <-]; by (eexists; split; [reflexivity|]) | intros (? & [= <-] & H); exact H]).
  1,2: rewrite encode_int_native; destruct (_ && _); cbn [require mbind res_bind];
    [split; [intros [_ H]; by exists (NInt z) | by intros (? & [= <-] & H)] | split; [by intros [? _] | by intros (? & ? & _)]].
  1,2: unfold encode_str; destruct (utf8 s) as [e|] eqn:Es; cbn; [|by split; [|intros (? & ? & _)]];
       destruct (encode_str_native s e Ho Es) as [E1 E2]; unfold encode_str in E1; rewrite Es in E1; cbn in E1; rewrite E1;
       (split; [intros [= <-]; by (eexists; split; [reflexivity|]) | intros (? & [= <-] & H); cbn in H; congruence]).
  1,2: unfold encode_bytes; rewrite head_len by (lia || done); cbn;
       (split; [intros [= <-]; by (eexists; split; [reflexivity|]) | intros (? & [= <-] & H); done]).
Qed.

Lemma entry_forward {A} (f : A → res bytes) (g : A → res native) (e : option text * A) y :
  default True (text_fits <$> e.1) → (∀ b, f e.2 = Ok b → ∃ n, g e.2 = Ok n ∧ encode_into n = Ok b) →
  (x ← encode_entry f e; Ok (x.1, Ok x.2)) = Ok y → ∃ n, native_entry g e = Ok n ∧ keyed n = Ok y.
Proof.
  destruct e as [[k|] v]; cbn; [|done]. intros Hk Hg. unfold encode_entry, native_entry, keyed; cbn.
  destruct (utf8 k) as [kt|] eqn:Ekt; [|by unfold encode_str; rewrite Ekt].
  destruct (encode_str_native k kt Hk Ekt) as [-> E2]. cbn. destruct (f v) as [vb|] eqn:Ev; [|done]. cbn. intros [= <-].
  destruct (Hg vb eq_refl) as (n & -> & Hn). exists (kt, n). split; [done|]. cbn. by rewrite E2, Hn.
Qed.

Lemma parity_forward fuel : ∀ active o b, object_fits o → encode h fuel active o = Ok b →
  ∃ n, from_python h fuel active o = Ok n ∧ encode_into n = Ok b.
Proof.
  induction fuel as [|fuel IH]; intros active o b Ho H;
    (destruct (is_ref o) eqn:Hr; [|by apply parity_atom]); destruct o as [| | | | | | |r]; try done; cbn in H |- *;
    (destruct (h !! r) as [c|] eqn:Hc; [|done]); destruct (bool_decide (r ∉ active)); cbn in H |- *; try done.
  pose proof (Hfits _ _ Hc) as Hfc. destruct c as [items|d|items]; cbn in Hfc; destruct Hfc as [Hlen Hall]; rewrite Forall_forall in Hall.
  - destruct (map_res _ items) as [xs|] eqn:Exs; [|done]. cbn in H. pose proof (map_res_length _ _ _ Exs) as Hl.
    destruct (map_res_compose _ (from_python h fuel ({[r]} ∪ active)) encode_into _ _ Exs) as (ns & Hns & Hx); [eauto|].
    rewrite Hns. cbn [mbind res_bind]. exists (NArray ns). split; [done|].
    rewrite (encode_array_native ns xs); [done| |done]. unfold fits, len in *. by rewrite Hl.
  - destruct (map_res _ d) as [es|] eqn:Ees; [|done]. cbn in H. pose proof (map_res_length _ _ _ Ees) as Hl.
    apply (map_res_then _ (fun e => (e.1, Ok e.2))) in Ees as Ees'.
    destruct (map_res_compose _ (native_entry (from_python h fuel ({[r]} ∪ active))) keyed _ _ Ees') as (ns & Hns & Hx).
    { intros e y He Hy. destruct (Hall _ He) as [Hk Hv]. eapply entry_forward; eauto. }
    rewrite Hns. cbn [mbind res_bind]. exists (NMap ns). split; [done|].
    rewrite (encode_map_native ns es); [done| | |done]; [unfold fits, len in *; by rewrite Hl|].
    eapply entry_keys_NoDup, Ees. by eapply Hdicts.
  - destruct (map_res _ items) as [xs|] eqn:Exs; [|done]. cbn in H. pose proof (map_res_length _ _ _ Exs) as Hl.
    destruct (map_res_compose _ (from_python h fuel ({[r]} ∪ active)) encode_into _ _ Exs) as (ns & Hns & Hx); [eauto|].
    rewrite Hns. cbn [mbind res_bind]. exists (NSet ns). split; [done|].
    rewrite (encode_set_native ns xs); [done| |done]. unfold fits, len in *. by rewrite Hl.
Qed.

(** The entries of a map the native encoder accepts are all encoded. *)
Lemma map_accepted ns b : encode_into (NMap ns) = Ok b →
  ∀ e, e ∈ ns → ∃ key item, append_text e.1 = Ok key ∧ encode_into e.2 = Ok item.
Proof.
  cbn [encode_into]. change (map_res _ ns) with (map_res keyed ns). destruct (map_res keyed ns) as [es|] eqn:Ees; [|done]. cbn [mbind res_bind].
  destruct (adjacent_equal _); [done|]. cbn [negb require mbind res_bind]. destruct (map_res _ (isort _ es)) as [l|] eqn:El; [|done].
  intros _ e He. apply map_res_Forall2 in Ees, El. destruct (Forall2_left _ _ _ e Ees He) as (y & Hy & Ey).
  rewrite <- (isort_perm (fun a b : bytes * res bytes => shorter a.1 b.1)) in Hy. destruct (Forall2_left _ _ _ y El Hy) as (x & _ & Ex).
  unfold keyed in Ey. destruct (append_text e.1) as [key|]; [|done]. cbn in Ey. injection Ey as <-. cbn in Ex.
  destruct (encode_into e.2) as [item|]; [|done]. eauto.
Qed.

Lemma map_res_all {A B} (k : A → res B) l xs : map_res k l = Ok xs → ∀ a, a ∈ l → ∃ x, k a = Ok x.
Proof. intros H%map_res_Forall2 a Ha. destruct (Forall2_left _ _ _ a H Ha) as (x & _ & Hx). eauto. Qed.

Lemma map_res_encoded {A B} (f : A → res bytes) (g : A → res B) l ns : map_res g l = Ok ns →
  (∀ a n, a ∈ l → n ∈ ns → g a = Ok n → ∃ y, f a = Ok y) → ∃ ys, map_res f l = Ok ys.
Proof.
  intros Hg%map_res_Forall2 H. apply map_res_ok. intros a Ha. destruct (Forall2_left _ _ _ a Hg Ha) as (n & Hn & En). eauto.
Qed.

Lemma parity_backward fuel : ∀ active o n b, object_fits o → from_python h fuel active o = Ok n → encode_into n = Ok b →
  ∃ b', encode h fuel active o = Ok b'.
Proof.
  induction fuel as [|fuel IH]; intros active o n b Ho Hn Hb;
    (destruct (is_ref o) eqn:Hr; [|exists b; apply parity_atom; eauto]); destruct o as [| | | | | | |r]; try done; cbn in Hn |- *;
    (destruct (h !! r) as [c|] eqn:Hc; [|done]); destruct (bool_decide (r ∉ active)); cbn in Hn |- *; try done.
  pose proof (Hfits _ _ Hc) as Hfc. destruct c as [items|d|items]; cbn in Hfc; destruct Hfc as [Hlen Hall]; rewrite Forall_forall in Hall.
  - destruct (map_res _ items) as [ns|] eqn:Ens; [|done]. injection Hn as <-. cbn in Hb.
    destruct (map_res encode_into ns) as [ys|] eqn:Eys; [|done]. pose proof (map_res_all _ _ _ Eys) as Hk.
    destruct (map_res_encoded (encode h fuel ({[r]} ∪ active)) _ _ _ Ens) as (xs & Exs).
    { intros a x Ha Hx Ex. destruct (Hk x Hx) as (y & Hy). eauto. }
    rewrite Exs. cbn. unfold build_list. pose proof (map_res_length _ _ _ Exs). rewrite head_len; [by eexists|lia|].
    unfold fits, len in *. congruence.
  - destruct (map_res _ d) as [ns|] eqn:Ens; [|done]. injection Hn as <-. pose proof (map_accepted _ _ Hb) as Hk.
    assert (∃ es, map_res (encode_entry (encode h fuel ({[r]} ∪ active))) d = Ok es) as (es & Ees).
    { apply map_res_ok. intros [k v] Ha. destruct (map_res_all _ _ _ Ens _ Ha) as (e & He). destruct (Hall _ Ha) as [Hfk Hfv].
      apply map_res_Forall2 in Ens. destruct (Forall2_left _ _ _ _ Ens Ha) as (e' & Hin & He'). rewrite He in He'. injection He' as <-.
      destruct (Hk e Hin) as (key & item & Hkey & Hitem). unfold native_entry in He. cbn in He, Hfk, Hfv. destruct k as [k|]; [|done].
      destruct (utf8 k) as [kt|] eqn:Ekt; [|done]. cbn in He. destruct (from_python h fuel _ v) as [m|] eqn:Em; [|done]. injection He as <-.
      unfold encode_entry. cbn. destruct (encode_str_native k kt Hfk Ekt) as [-> _]. cbn.
      destruct (IH _ _ _ _ Hfv Em Hitem) as (b' & ->). cbn. eauto. }
    rewrite Ees. cbn. unfold build_dict. pose proof (map_res_length _ _ _ Ees). rewrite head_len; [by eexists|lia|].
    unfold fits, len in *. congruence.
  - destruct (map_res _ items) as [ns|] eqn:Ens; [|done]. injection Hn as <-. pose proof Hb as Hb'. cbn in Hb'.
    destruct (map_res encode_into ns) as [ys|] eqn:Eys; [|done]. pose proof (map_res_all _ _ _ Eys) as Hk.
    destruct (map_res_encoded (encode h fuel ({[r]} ∪ active)) _ _ _ Ens) as (xs & Exs).
    { intros a x Ha Hx Ex. destruct (Hk x Hx) as (y & Hy). eauto. }
    rewrite Exs. cbn. destruct (map_res_compose _ (from_python h fuel ({[r]} ∪ active)) encode_into _ _ Exs) as (ns' & Hns & Hx).
    { intros a x Ha. apply parity_forward. auto. }
    rewrite Ens in Hns. injection Hns as <-. rewrite (encode_set_native ns xs) in Hb; [eauto| |done].
    pose proof (map_res_length _ _ _ Exs). unfold fits, len in *. congruence.
Qed.
End Parity.

(** C26: the Python encoder and the native one agree: from any object of a Python
    heap both produce the same bytes, or neither produces any. *)
Theorem native_encoder_agrees h o b (Hfits : heap_fits h) (Hdicts : dicts_ok h) (Ho : object_fits o) :
  native_bytes h o = Ok b ↔ canonical_bytes h o = Ok b.
Proof.
  unfold native_bytes, canonical_bytes.
  assert (Hf : ∀ c, encode h (size h) ∅ o = Ok c → (n ← from_python h (size h) ∅ o; encode_into n) = Ok c).
  { intros c (n & -> & Hn)%parity_forward; done. }
  split; [|apply Hf]. intros H. destruct (from_python h (size h) ∅ o) as [n|] eqn:En; [|done]. cbn in H.
  destruct (parity_backward h Hfits Hdicts _ _ _ _ _ Ho En H) as (b' & Hb'). rewrite Hb'.
  pose proof (Hf _ Hb') as Hc. cbn in Hc. congruence.
Qed.

Lemma native_encoder_agrees_witness :
  native_bytes golden_heap (ORef 1) = Ok [0xa3; 0x61; 0x62; 1; 0x62; 0x61; 0x61; 2; 0x62; 0xc3; 0xa9; 3].
Proof.
  assert (Hcell : ∀ r c, golden_heap !! r = Some c →
    (match c with CDict d => bool_decide (NoDup (map fst d)) | _ => true end)
    && bool_decide (len (match c with CList l | CSet l => map (fun _ => tt) l | CDict d => map (fun _ => tt) d end) <= 16) = true
    ∧ (c = CDict [(Some [0xe9], OInt 3); (Some (ascii_text "aa"), OInt 2); (Some (ascii_text "b"), OInt 1)]
       ∨ c = CDict [(Some (ascii_text "b"), OInt 1); (Some (ascii_text "aa"), OInt 2); (Some [0xe9], OInt 3)]
       ∨ c = CList [OInt 1; ORef 3] ∨ c = CSet [OInt 3; OInt 1; OInt 2] ∨ c = CList [ORef 4; ORef 4])).
  { intros r c H. unfold golden_heap in H. rewrite !lookup_insert_Some, lookup_singleton_Some in H.
    destruct H as [[_ <-]|[_ [[_ <-]|[_ [[_ <-]|[_ [[_ <-]|[_ [_ <-]]]]]]]]]; (split; [vm_compute; reflexivity | tauto]). }
  apply (native_encoder_agrees golden_heap (ORef 1) _).
  - intros r c H. destruct (Hcell r c H) as [_ [-> | [-> | [-> | [-> | ->]]]]]; cbn; split; try done; repeat constructor;
      try (intros b E; vm_compute in E; injection E as <-; done).
  - intros r d H. destruct (Hcell r _ H) as [[Hd _]%andb_true_iff _]. by apply bool_decide_eq_true in Hd.
  - exact I.
  - vm_compute. reflexivity.
Defined.

(** A map built in native code with the keys and values of a dictionary. *)
Lemma encode_map_values d ns y :
  Forall2 (fun e n => ∃ k, e.1 = Some k ∧ utf8 k = Ok n.1 ∧ text_fits k ∧ ∀ b, enc e.2 = Ok b → encode_into n.2 = Ok b) d ns →
  NoDup (map fst d) → fits d → enc (VDict d) = Ok y → encode_into (NMap ns) = Ok y.
Proof.
  intros F N Hd Hy. cbn [enc] in Hy. destruct (map_res (encode_entry enc) d) as [es|] eqn:Ees; [|done]. cbn [mbind res_bind] in Hy.
  rewrite (encode_map_native ns es); [done| | |].
  - pose proof (map_res_length _ _ _ Ees). unfold fits, len in *. congruence.
  - by eapply entry_keys_NoDup.
  - clear N Hd Hy. revert es Ees. induction F as [|[o v] [t n] d ns (k & Ho & Hk & Hf & Hv) _ IH]; intros es Ees.
    { by injection Ees as <-. }
    cbn in Ho. subst o. apply map_res_cons_ok in Ees as (e & es' & He & Hes & ->). cbn in Hk, Hv.
    destruct (encode_str_native k t Hf Hk) as [Ek Ea]. unfold encode_entry in He. cbn in He. rewrite Ek in He. cbn in He.
    destruct (enc v) as [vb|] eqn:Ev; [|done]. cbn in He. injection He as <-.
    cbn [map_res map]. rewrite (IH es' Hes). unfold keyed at 1. cbn. by rewrite Ea, (Hv vb eq_refl).
Qed.
