(* ===== verification/Sha256.v ===== *)
(** * SHA-256

    [include/pops/core/identity/sha256.hpp]: the digest of canonical bytes, on
    32-bit words.  Python's [hashlib.sha256] computes the same function. *)
From S2P Require Import Prelude HexFloat Bytes.

(** ** Words *)

Definition u32 (z : Z) : Z := z mod 2 ^ 32.
Definition is_word (w : Z) : Prop := 0 <= w < 2 ^ 32.

Definition kSha256Round : list Z :=
  concat [[0x428a2f98; 0x71374491; 0xb5c0fbcf; 0xe9b5dba5]; [0x3956c25b; 0x59f111f1; 0x923f82a4; 0xab1c5ed5];
          [0xd807aa98; 0x12835b01; 0x243185be; 0x550c7dc3]; [0x72be5d74; 0x80deb1fe; 0x9bdc06a7; 0xc19bf174];
          [0xe49b69c1; 0xefbe4786; 0x0fc19dc6; 0x240ca1cc]; [0x2de92c6f; 0x4a7484aa; 0x5cb0a9dc; 0x76f988da];
          [0x983e5152; 0xa831c66d; 0xb00327c8; 0xbf597fc7]; [0xc6e00bf3; 0xd5a79147; 0x06ca6351; 0x14292967];
          [0x27b70a85; 0x2e1b2138; 0x4d2c6dfc; 0x53380d13]; [0x650a7354; 0x766a0abb; 0x81c2c92e; 0x92722c85];
          [0xa2bfe8a1; 0xa81a664b; 0xc24b8b70; 0xc76c51a3]; [0xd192e819; 0xd6990624; 0xf40e3585; 0x106aa070];
          [0x19a4c116; 0x1e376c08; 0x2748774c; 0x34b0bcb5]; [0x391c0cb3; 0x4ed8aa4a; 0x5b9cca4f; 0x682e6ff3];
          [0x748f82ee; 0x78a5636f; 0x84c87814; 0x8cc70208]; [0x90befffa; 0xa4506ceb; 0xbef9a3f7; 0xc67178f2]].

Definition rotate_right (value bits : Z) : Z := Z.lor (Z.shiftr value bits) (u32 (Z.shiftl value (32 - bits))).

(** ** Blocks *)

(** The first sixteen words of a block, each from four bytes. *)
Fixpoint load_words (n : nat) (block : bytes) : list Z :=
  match n, block with
  | S n, b0 :: b1 :: b2 :: b3 :: block =>
      Z.lor (Z.lor (Z.lor (Z.shiftl b0 24) (Z.shiftl b1 16)) (Z.shiftl b2 8)) b3 :: load_words n block
  | _, _ => []
  end.

(** [words[i]] from the words before it. *)
Definition next_word (words : list Z) : Z :=
  let i := length words in
  let at_ k := nth (i - k) words 0 in
  let s0 := Z.lxor (Z.lxor (rotate_right (at_ 15%nat) 7) (rotate_right (at_ 15%nat) 18)) (Z.shiftr (at_ 15%nat) 3) in
  let s1 := Z.lxor (Z.lxor (rotate_right (at_ 2%nat) 17) (rotate_right (at_ 2%nat) 19)) (Z.shiftr (at_ 2%nat) 10) in
  u32 (at_ 16%nat + s0 + at_ 7%nat + s1).
Definition message_schedule (block : bytes) : list Z :=
  Nat.iter 48 (fun words => words ++ [next_word words]) (load_words 16 block).

(** The registers [a] to [h]. *)
Record registers := Regs { ra : Z; rb : Z; rc : Z; rd : Z; re : Z; rf : Z; rg : Z; rh : Z }.

Definition round (r : registers) (kw : Z * Z) : registers :=
  let '(Regs a b c d e f g h) := r in
  let sigma1 := Z.lxor (Z.lxor (rotate_right e 6) (rotate_right e 11)) (rotate_right e 25) in
  let choose := Z.lxor (Z.land e f) (Z.land (2 ^ 32 - 1 - e) g) in
  let first := u32 (h + sigma1 + choose + kw.1 + kw.2) in
  let sigma0 := Z.lxor (Z.lxor (rotate_right a 2) (rotate_right a 13)) (rotate_right a 22) in
  let majority := Z.lxor (Z.lxor (Z.land a b) (Z.land a c)) (Z.land b c) in
  let second := u32 (sigma0 + majority) in
  Regs (u32 (first + second)) a b c (u32 (d + first)) e f g.

(** [sha256_block] *)
Definition sha256_block (state : registers) (block : bytes) : registers :=
  let r := fold_left round (zip kSha256Round (message_schedule block)) state in
  Regs (u32 (ra state + ra r)) (u32 (rb state + rb r)) (u32 (rc state + rc r)) (u32 (rd state + rd r))
       (u32 (re state + re r)) (u32 (rf state + rf r)) (u32 (rg state + rg r)) (u32 (rh state + rh r)).

(** ** Messages *)

(** [while (padded.size() % 64 != 56) padded.push_back(0)]; [fuel] turns. *)
Fixpoint pad_zeros (fuel : nat) (padded : bytes) : bytes :=
  match fuel with
  | O => padded
  | S fuel => if (length padded mod 64 =? 56)%nat then padded else pad_zeros fuel (padded ++ [0])
  end.
Definition pad_message (input : bytes) : bytes :=
  let bit_size := (Z.of_nat (length input) * 8) mod 2 ^ 64 in
  pad_zeros 64 (input ++ [0x80]) ++ shifted_bytes 8 bit_size.

(** The loop over the blocks of 64 bytes. *)
Fixpoint hash_blocks (fuel : nat) (state : registers) (padded : bytes) : registers :=
  match fuel, padded with
  | _, [] => state
  | O, _ => state
  | S fuel, _ => hash_blocks fuel (sha256_block state (take 64 padded)) (drop 64 padded)
  end.

Definition initial_state : registers :=
  Regs 0x6a09e667 0xbb67ae85 0x3c6ef372 0xa54ff53a 0x510e527f 0x9b05688c 0x1f83d9ab 0x5be0cd19.

Definition sha256_state (input : bytes) : registers :=
  let padded := pad_message input in hash_blocks (length padded) initial_state padded.

Definition words_of (r : registers) : list Z := [ra r; rb r; rc r; rd r; re r; rf r; rg r; rh r].

(** [hashlib.sha256(input).digest()] *)
Definition sha256 (input : bytes) : bytes := flat_map (to_bytes 4) (words_of (sha256_state input)).

(** ** Hexadecimal text *)

(** [sha256_hex] *)
Definition sha256_hex (input : bytes) : string :=
  string_of_list_ascii
    (flat_map (fun word => map (fun i => hex_digit (Z.land (Z.shiftr word (4 * Z.of_nat i)) 0xf)) (reverse (seq 0 8)))
       (words_of (sha256_state input))).

(** [bytes.hex()] *)
Definition bytes_hex (b : bytes) : string :=
  string_of_list_ascii (flat_map (fun x => [hex_digit (x / 16); hex_digit (x mod 16)]) b).

(** [sha256_hex_bytes], without its check of the length; [bytes.fromhex] of an
    even number of lowercase digits. *)
Fixpoint unhex (l : list ascii) : option bytes :=
  match l with
  | [] => Some []
  | a :: b :: l =>
      x ← hex_value a; y ← hex_value b; rest ← unhex l;
      Some (Z.lor (Z.shiftl x 4) y :: rest)
  | [_] => None
  end.
Definition sha256_hex_bytes (hex : string) : res bytes :=
  _ ← require (String.length hex =? 64)%nat RuntimeError;
  match unhex (list_ascii_of_string hex) with Some b => Ok b | None => Err RuntimeError end.

Example sha256_abc :
  sha256_hex [97; 98; 99] = "ba7816bf8f01cfea414140de5dae2223b00361a396177a9cb410ff61f20015ad"%string
  ∧ sha256_hex [] = "e3b0c44298fc1c149afbf4c8996fb92427ae41e4649b934ca495991b7852b855"%string
  ∧ sha256_hex (repeat 97 64) = "ffe054fe7ae0cb6dc65c3af9b61d5209f439851db43d0ba5997337df154668eb"%string.
Proof. vm_compute. repeat split. Qed.

(** ** Padding *)

Lemma pad_zeros_spec fuel padded :
  ∃ z, pad_zeros fuel padded = padded ++ repeat 0 z ∧ (z <= fuel)%nat
    ∧ (((length padded + z) mod 64 = 56)%nat ∨ (z = fuel ∧ ∀ k, (k < fuel)%nat → ((length padded + k) mod 64 ≠ 56)%nat)).
Proof.
  revert padded. induction fuel as [|fuel IH]; intros padded; cbn [pad_zeros].
  - exists 0%nat. rewrite app_nil_r. split_and!; [done|lia|]. right. split; [done|]. lia.
  - destruct (length padded mod 64 =? 56)%nat eqn:E; bools.
    + exists 0%nat. rewrite app_nil_r, Nat.add_0_r. split_and!; [done|lia|by left].
    + destruct (IH (padded ++ [0])) as (z & Hz & Hle & Hd). rewrite length_app in Hd; cbn [length] in Hd.
      exists (S z). rewrite Hz, <- app_assoc. cbn [app repeat]. split_and!; [done|lia|].
      replace (length padded + S z)%nat with (length padded + 1 + z)%nat by lia. destruct Hd as [Hd|[-> Hd]]; [by left|].
      right. split; [done|]. intros [|k] Hk; [by rewrite Nat.add_0_r|].
      replace (length padded + S k)%nat with (length padded + 1 + k)%nat by lia. apply Hd. lia.
Qed.

(** The loop stops within a block. *)
Lemma pad_message_blocks input : (length (pad_message input) mod 64 = 0)%nat.
Proof.
  unfold pad_message. rewrite length_app, shifted_to_bytes, to_bytes_length.
  destruct (pad_zeros_spec 64 (input ++ [0x80])) as (z & -> & _ & Hz). rewrite length_app, repeat_length.
  set (n := length (input ++ [0x80])) in *.
  assert (Hfull : ∀ k q, (n + k = 56 + q * 64)%nat → ((n + k) mod 64 = 56)%nat) by (intros k q ->; by rewrite Nat.Div0.mod_add).
  destruct Hz as [Hz|[-> Hz]]; [by rewrite Nat.Div0.add_mod, Hz|].
  exfalso. pose proof (Nat.div_mod_eq n 64). pose proof (Nat.mod_upper_bound n 64 ltac:(lia)).
  destruct (decide (n mod 64 <= 56)%nat).
  - apply (Hz (56 - n mod 64)%nat ltac:(lia)), (Hfull _ (n / 64)%nat). lia.
  - apply (Hz (120 - n mod 64)%nat ltac:(lia)), (Hfull _ (n / 64 + 1)%nat). lia.
Qed.

(** ** Words *)

Lemma u32_word z : is_word (u32 z).
Proof. unfold is_word, u32. apply Z.mod_pos_bound. lia. Qed.

Lemma block_words state block : Forall is_word (words_of (sha256_block state block)).
Proof. repeat constructor; apply u32_word. Qed.

Lemma hash_words fuel : ∀ state padded, Forall is_word (words_of state) → Forall is_word (words_of (hash_blocks fuel state padded)).
Proof. induction fuel as [|fuel IH]; intros state [|b padded] H; cbn; try done. apply IH, block_words. Qed.

Lemma state_words input : Forall is_word (words_of (sha256_state input)).
Proof. apply hash_words. repeat constructor; unfold is_word; cbn; lia. Qed.

(** ** Hexadecimal *)

Lemma unhex_hex b : Forall is_byte b → unhex (flat_map (fun x => [hex_digit (x / 16); hex_digit (x mod 16)]) b) = Some b.
Proof.
  unfold is_byte. induction 1 as [|x b Hx _ IH]; cbn [flat_map app unhex]; [done|].
  rewrite !hex_value_digit by (Z.to_euclidean_division_equations; lia). cbn [mbind option_bind]. rewrite IH. cbn. do 2 f_equal.
  rewrite lor_prefix; [|apply Z.mod_pos_bound; lia|lia]. change (2 ^ 4) with 16. Z.to_euclidean_division_equations. lia.
Qed.

(** The digits of a byte of a word. *)
Lemma nibble_low w k : 0 <= k → w / 256 ^ k mod 256 mod 16 = w / 2 ^ (8 * k) mod 16.
Proof.
  intros Hk. rewrite Z.pow_mul_r by lia. change (2 ^ 8) with 256.
  generalize (w / 256 ^ k). intros y. Z.to_euclidean_division_equations; lia.
Qed.

Lemma nibble_high w k : 0 <= k → w / 256 ^ k mod 256 / 16 = w / 2 ^ (8 * k + 4) mod 16.
Proof.
  intros Hk. rewrite Z.pow_add_r, Z.pow_mul_r by lia. change (2 ^ 8) with 256. change (2 ^ 4) with 16.
  rewrite <- Z.div_div by lia. generalize (w / 256 ^ k). intros y. Z.to_euclidean_division_equations; lia.
Qed.

Lemma word_hex w : is_word w →
  map (fun i => hex_digit (Z.land (Z.shiftr w (4 * Z.of_nat i)) 0xf)) (reverse (seq 0 8))
  = flat_map (fun x => [hex_digit (x / 16); hex_digit (x mod 16)]) (to_bytes 4 w).
Proof.
  intros Hw. assert (Hn : ∀ k, 0 <= k → Z.land (Z.shiftr w k) 15 = w / 2 ^ k mod 16).
  { intros k Hk. rewrite Z.shiftr_div_pow2 by done. change 15 with (Z.ones 4). by rewrite Z.land_ones by lia. }
  cbn -[Z.land Z.shiftr Z.div Z.modulo hex_digit Z.mul]. rewrite !Hn by lia. unfold is_word in Hw.
  repeat (apply (f_equal2 cons); [apply (f_equal hex_digit); symmetry|]); try done; first [apply (nibble_high w 3) | apply (nibble_high w 2) | apply (nibble_high w 1) | apply (nibble_high w 0)
    | apply (nibble_low w 3) | apply (nibble_low w 2) | apply (nibble_low w 1) | apply (nibble_low w 0)]; lia.
Qed.

Lemma flat_map_map {A B C} (f : B → list C) (g : A → list B) l : flat_map f (flat_map g l) = flat_map (fun x => flat_map f (g x)) l.
Proof. induction l as [|x l IH]; cbn; [done|]. by rewrite flat_map_app, IH. Qed.

Lemma sha256_bytes m : Forall is_byte (sha256 m).
Proof. unfold sha256. apply Forall_flat_map, Forall_forall. intros w _. apply to_bytes_byte. Qed.

Lemma sha256_length m : length (sha256 m) = 32%nat.
Proof. unfold sha256. destruct (sha256_state m). cbn [words_of flat_map]. rewrite !length_app, !to_bytes_length. done. Qed.

Lemma sha256_hex_bytes_hex m : sha256_hex m = bytes_hex (sha256 m).
Proof.
  unfold sha256_hex, bytes_hex, sha256. f_equal. rewrite flat_map_map. pose proof (state_words m) as H.
  induction H as [|w l Hw _ IH]; cbn [flat_map]; [done|]. by rewrite word_hex, IH.
Qed.

Lemma string_length_list l : String.length (string_of_list_ascii l) = length l.
Proof. induction l as [|c l IH]; cbn; auto. Qed.

Lemma bytes_hex_length b : String.length (bytes_hex b) = (2 * length b)%nat.
Proof.
  unfold bytes_hex. rewrite string_length_list. induction b as [|x b IH]; cbn [flat_map app length]; [done|]. rewrite IH. lia.
Qed.

(** Every message is padded to whole blocks, and its digest has exactly 32
    bytes, which the native conversion reads back from the hexadecimal text; the
    text is the [hex()] of the digest. *)
Theorem sha256_digest m :
  (length (pad_message m) mod 64 = 0)%nat
  ∧ length (sha256 m) = 32%nat ∧ Forall is_byte (sha256 m)
  ∧ sha256_hex m = bytes_hex (sha256 m)
  ∧ sha256_hex_bytes (sha256_hex m) = Ok (sha256 m).
Proof.
  split_and!; [apply pad_message_blocks | apply sha256_length | apply sha256_bytes | apply sha256_hex_bytes_hex|].
  rewrite sha256_hex_bytes_hex. unfold sha256_hex_bytes. rewrite bytes_hex_length, sha256_length. cbn [Nat.mul Nat.eqb Nat.add require mbind res_bind].
  unfold bytes_hex. rewrite list_ascii_of_string_of_list_ascii, unhex_hex by apply sha256_bytes. done.
Qed.

(** Digests are compared, not computed, in the proofs that follow. *)
#[global] Arguments sha256 : simpl never.
