(* ===== verification/Identity.v ===== *)
(** * Typed identities

    [python/pops/identity/digest.py] and [artifact.py]: domain-separated digests
    of canonical bytes, their printed tokens, and the chain of identities from a
    semantic definition to the installed binaries. *)
From Stdlib Require Import DecimalString DecimalN.
From S2P Require Import Prelude Binary64 HexFloat Bytes CanonicalCbor NativeIdentity Sha256 Ownership.

(** ** [Identity] *)

Record Identity := Ident { i_domain : string; i_version : Z; i_algorithm : string; i_digest : bytes }.

Definition ALGORITHM : string := "sha256".
Definition PROTOCOL : string := "pops.identity".

(** [_DOMAIN_RE.fullmatch] *)
Definition domain_match (value : string) : bool :=
  match list_ascii_of_string value with
  | c :: rest => is_lower c && forallb is_namespace_char rest
  | [] => false
  end.

(** [_domain] and [_schema_version] *)
Definition check_domain (value : string) : res string := _ ← require (domain_match value) ValueError; Ok value.
Definition check_version (value : Z) : res Z :=
  _ ← require (1 <=? value) ValueError;
  _ ← require (value <=? Z.shiftl 1 63 - 1) OverflowError;
  Ok value.

(** [Identity.__post_init__] *)
Definition mk_identity (domain : string) (version : Z) (algorithm : string) (digest : bytes) : res Identity :=
  domain ← check_domain domain;
  version ← check_version version;
  _ ← require (String.eqb algorithm ALGORITHM) ValueError;
  _ ← require (length digest =? 32)%nat ValueError;
  Ok (Ident domain version algorithm digest).

(** ** Tokens *)

(** [Identity.token] *)
Definition token_ascii (i : Identity) : list ascii :=
  list_ascii_of_string "pops." ++ list_ascii_of_string (i_domain i) ++ list_ascii_of_string ".v"
  ++ decimal (Z.to_N (i_version i)) ++ [":"%char] ++ list_ascii_of_string (i_algorithm i) ++ [":"%char]
  ++ list_ascii_of_string (bytes_hex (i_digest i)).
Definition token (i : Identity) : string := string_of_list_ascii (token_ascii i).

(** The longest prefix of characters of a class, and the rest. *)
Fixpoint span (p : ascii → bool) (l : list ascii) : list ascii * list ascii :=
  match l with
  | c :: l' => if p c then let '(a, b) := span p l' in (c :: a, b) else ([], l)
  | [] => ([], [])
  end.

(** [int] of text of the form [[1-9][0-9]*]. *)
Definition parse_version (l : list ascii) : option Z :=
  match l with
  | c :: _ =>
      if negb (Ascii.eqb c "0") && forallb is_digit l
      then d ← NilZero.uint_of_string (string_of_list_ascii l); Some (Z.of_N (N.of_uint d))
      else None
  | [] => None
  end.

(** The first two groups of [_TOKEN_RE] in the text before the colon: the greedy
    domain leaves the last [.v] with its digits. *)
Definition split_version (l : list ascii) : option (string * Z) :=
  let '(digits, before) := span is_digit (reverse l) in
  domain ← strip_prefix ["v"; "."]%char before;
  version ← parse_version (reverse digits);
  let domain := string_of_list_ascii (reverse domain) in
  if domain_match domain then Some (domain, version) else None.

(** [_TOKEN_RE.fullmatch] *)
Definition token_match (l : list ascii) : option (string * Z * list ascii) :=
  l ← strip_prefix (list_ascii_of_string "pops.") l;
  let '(head, rest) := span is_namespace_char l in
  p ← split_version head;
  hex ← strip_prefix (list_ascii_of_string ":sha256:") rest;
  if (length hex =? 64)%nat && forallb is_hex_char hex then Some (p.1, p.2, hex) else None.

(** [Identity.from_token] *)
Definition from_token (value : string) : res Identity :=
  match token_match (list_ascii_of_string value) with
  | None => Err ValueError
  | Some (domain, version, hex) =>
      match unhex hex with
      | Some digest => mk_identity domain version ALGORITHM digest
      | None => Err ValueError
      end
  end.

(** ** [make_identity] *)

(** The envelope that is hashed. *)
Definition envelope (domain : string) (version : Z) (payload : value) : value :=
  VDict [(Some (ascii_text "protocol"), VStr (ascii_text PROTOCOL)); (Some (ascii_text "domain"), VStr (ascii_text domain));
         (Some (ascii_text "schema_version"), VInt version); (Some (ascii_text "payload"), payload)].

Definition make_identity (domain : string) (payload : value) (version : Z) : res Identity :=
  domain ← check_domain domain;
  version ← check_version version;
  encoded ← enc (envelope domain version payload);
  mk_identity domain version ALGORITHM (sha256 encoded).

(** [Identity.to_data] *)
Definition identity_data (i : Identity) : value :=
  VDict [(Some (ascii_text "domain"), VStr (ascii_text (i_domain i))); (Some (ascii_text "schema_version"), VInt (i_version i));
         (Some (ascii_text "algorithm"), VStr (ascii_text (i_algorithm i))); (Some (ascii_text "digest"), VBytes (i_digest i))].

(** A text as a string, when it is ASCII; the domains and the algorithm are. *)
Definition text_string (t : text) : option string :=
  if forallb (fun c => (0 <=? c) && (c <? 128)) t then Some (string_of_list_ascii (map (fun c => ascii_of_nat (Z.to_nat c)) t)) else None.
Definition string_item (v : value) : option string := match v with VStr t => text_string t | _ => None end.

(** [Identity.from_data]; the checks of [__post_init__] in their order. *)
Definition from_data (data : value) : res Identity :=
  match data with
  | VDict d =>
      let required := map (fun k => Some (ascii_text k)) ["domain"; "schema_version"; "algorithm"; "digest"] in
      _ ← require (forallb (fun k => bool_decide (k ∈ map fst d)) required
                   && forallb (fun k => bool_decide (k ∈ required)) (map fst d)) TypeError;
      let item key := default VNone (dget (Some (ascii_text key)) d) in
      match string_item (item "domain") with
      | Some domain =>
          _ ← check_domain domain;
          match item "schema_version" with
          | VInt version =>
              _ ← check_version version;
              match string_item (item "algorithm"), item "digest" with
              | Some algorithm, VBytes digest => mk_identity domain version algorithm digest
              | _, _ => Err ValueError
              end
          | _ => Err ValueError
          end
      | None => Err ValueError
      end
  | _ => Err TypeError
  end.

(** ** Artifacts *)

Definition ARTIFACT_SCHEMA_VERSION : Z := 1.

(** [_require_identity] *)
Definition require_identity (i : Identity) (domain : string) : res Identity :=
  _ ← require (String.eqb (i_domain i) domain) TypeError; Ok i.

(** The compile decisions of an artifact; the mappings and sequences are values. *)
Record compile_spec := CompileSpec {
  cs_target : text; cs_backend : text; cs_precision : text; cs_abi : text; cs_toolchain : text;
  cs_routes : list (option text * value); cs_components : list (option text * value);
  cs_flags : list value; cs_libraries : list value; cs_codegen : text }.

Definition spec_data (semantic : Identity) (c : compile_spec) : value :=
  VDict [(Some (ascii_text "semantic"), identity_data semantic); (Some (ascii_text "target"), VStr (cs_target c));
         (Some (ascii_text "backend"), VStr (cs_backend c)); (Some (ascii_text "precision"), VStr (cs_precision c));
         (Some (ascii_text "abi"), VStr (cs_abi c)); (Some (ascii_text "toolchain"), VStr (cs_toolchain c));
         (Some (ascii_text "routes"), VDict (cs_routes c)); (Some (ascii_text "components"), VDict (cs_components c));
         (Some (ascii_text "flags"), VList (cs_flags c)); (Some (ascii_text "libraries"), VList (cs_libraries c));
         (Some (ascii_text "codegen_version"), VStr (cs_codegen c))].

Definition nonempty (s : text) : bool := match s with [] => false | _ => true end.

(** [artifact_spec_identity] *)
Definition artifact_spec_identity (semantic : Identity) (c : compile_spec) : res Identity :=
  semantic ← require_identity semantic "semantic";
  _ ← require (forallb nonempty [cs_target c; cs_backend c; cs_precision c; cs_abi c; cs_toolchain c; cs_codegen c]) TypeError;
  make_identity "artifact-spec" (spec_data semantic c) ARTIFACT_SCHEMA_VERSION.

(** [binary_identity] of the bytes of the file: the digest is updated block by
    block, which hashes their concatenation. *)
Definition binary_data (content : bytes) : value :=
  VDict [(Some (ascii_text "algorithm"), VStr (ascii_text "sha256")); (Some (ascii_text "content_digest"), VBytes (sha256 content));
         (Some (ascii_text "size"), VInt (len content))].
Definition binary_identity (content : bytes) : res Identity :=
  make_identity "binary" (binary_data content) ARTIFACT_SCHEMA_VERSION.

(** [artifact_identity] *)
Definition artifact_data (spec binary : Identity) : value :=
  VDict [(Some (ascii_text "spec"), identity_data spec); (Some (ascii_text "binary"), identity_data binary)].
Definition artifact_identity (spec binary : Identity) : res Identity :=
  spec ← require_identity spec "artifact-spec";
  binary ← require_identity binary "binary";
  make_identity "artifact" (artifact_data spec binary) ARTIFACT_SCHEMA_VERSION.

(** [binary_bundle_identity]; the names are those of a mapping. *)
Definition binary_bundle_identity (components : list (text * Identity)) : res Identity :=
  _ ← require (match components with [] => false | _ => true end) TypeError;
  payload ← map_res (fun c => _ ← require (nonempty c.1) TypeError; i ← require_identity c.2 "binary"; Ok (Some c.1, identity_data i)) components;
  make_identity "binary" (VDict [(Some (ascii_text "components"), VDict payload)]) ARTIFACT_SCHEMA_VERSION.

(** [binary_identity_token] of [sha256.hpp]. *)
Definition binary_identity_token (digest : bytes) (size : Z) : res string :=
  _ ← require ((length digest =? 32)%nat && (0 <=? size)) RuntimeError;
  let payload := NMap [(ascii_text "algorithm", NText (ascii_text "sha256")); (ascii_text "content_digest", NBytes digest);
                       (ascii_text "size", NInt size)] in
  let envelope := NMap [(ascii_text "protocol", NText (ascii_text "pops.identity")); (ascii_text "domain", NText (ascii_text "binary"));
                        (ascii_text "schema_version", NInt 1); (ascii_text "payload", payload)] in
  encoded ← encode_into envelope;
  Ok ("pops.binary.v1:sha256:" ++ sha256_hex encoded)%string.

(** ** Reading a token *)

Lemma span_app p l c r : forallb p l = true → p c = false → span p (l ++ c :: r) = (l, c :: r).
Proof.
  intros Hl Hc. induction l as [|x l IH]; cbn in *; [by rewrite Hc|]. apply andb_true_iff in Hl as [-> Hl]. by rewrite IH.
Qed.

Lemma span_spec p l a b : span p l = (a, b) → l = a ++ b ∧ forallb p a = true.
Proof.
  revert a b. induction l as [|x l IH]; intros a b; cbn; [by intros [= <- <-]|].
  destruct (p x) eqn:E; [|by intros [= <- <-]]. destruct (span p l) as [a' b'] eqn:Es. intros [= <- <-].
  destruct (IH a' b' eq_refl) as [-> H]. cbn. by rewrite E.
Qed.

Lemma strip_prefix_app p l : strip_prefix p (p ++ l) = Some l.
Proof. induction p as [|c p IH]; cbn; [done|]. by rewrite decide_True. Qed.

Lemma strip_prefix_Some p l r : strip_prefix p l = Some r → l = p ++ r.
Proof.
  revert l. induction p as [|c p IH]; intros l; cbn; [by intros [= ->]|]. destruct l as [|d l]; [done|].
  case_decide as E; [|done]. subst. intros H. cbn. f_equal. auto.
Qed.

(** Decimal text without leading zeros. *)
Definition no_leading_zero (d : Decimal.uint) : bool := match d with Decimal.D0 _ | Decimal.Nil => false | _ => true end.

Lemma nzhead_no_zero d : Decimal.nzhead d ≠ Decimal.Nil → no_leading_zero (Decimal.nzhead d) = true.
Proof. induction d; cbn; auto; done. Qed.

Lemma to_uint_no_zero n : (0 < n)%N → no_leading_zero (N.to_uint n) = true.
Proof.
  intros Hn. pose proof (DecimalN.Unsigned.to_of (N.to_uint n)) as H. rewrite DecimalN.Unsigned.of_to in H.
  assert (Hz : Decimal.nzhead (N.to_uint n) ≠ Decimal.Nil).
  { intros E. unfold Decimal.unorm in H. rewrite E in H. apply (f_equal N.of_uint) in H. rewrite DecimalN.Unsigned.of_to in H. cbn in H. lia. }
  assert (E : Decimal.unorm (N.to_uint n) = Decimal.nzhead (N.to_uint n)) by (by unfold Decimal.unorm; destruct (Decimal.nzhead _)).
  rewrite H, E. by apply nzhead_no_zero.
Qed.

Lemma digits_of_uint d : forallb is_digit (list_ascii_of_string (NilEmpty.string_of_uint d)) = true.
Proof. induction d; cbn; auto. Qed.

Lemma digit_cases c : is_digit c = true → c ∈ ["0"; "1"; "2"; "3"; "4"; "5"; "6"; "7"; "8"; "9"]%char.
Proof.
  intros H. assert (Hall : forallb (fun n => negb (is_digit (ascii_of_nat n))
      || bool_decide (ascii_of_nat n ∈ ["0"; "1"; "2"; "3"; "4"; "5"; "6"; "7"; "8"; "9"]%char)) (seq 0 256) = true) by (vm_compute; reflexivity).
  rewrite forallb_forall in Hall. specialize (Hall (nat_of_ascii c)). rewrite ascii_nat_embedding, H in Hall. cbn [negb orb] in Hall.
  eapply bool_decide_eq_true_1, Hall, in_seq. pose proof (nat_ascii_bounded c). lia.
Qed.

(** Text of digits is the text of a number. *)
Lemma uint_of_digits l : forallb is_digit l = true →
  ∃ d, NilEmpty.uint_of_string (string_of_list_ascii l) = Some d ∧ list_ascii_of_string (NilEmpty.string_of_uint d) = l.
Proof.
  induction l as [|c l IH]; cbn; [by exists Decimal.Nil|]. intros [Hc Hl]%andb_true_iff. destruct (IH Hl) as (d & Hd & Ed).
  apply digit_cases in Hc. repeat (apply elem_of_cons in Hc as [->|Hc]; [cbn; rewrite Hd; cbn; eexists; split; [done|]; cbn; by rewrite Ed|]).
  by apply elem_of_nil in Hc.
Qed.

Lemma unorm_no_zero d : no_leading_zero d = true → Decimal.unorm d = d.
Proof. by destruct d. Qed.

Lemma string_of_no_zero d : no_leading_zero d = true → NilZero.string_of_uint d = NilEmpty.string_of_uint d.
Proof. by destruct d. Qed.

Lemma first_digit d : no_leading_zero d = true →
  ∃ c l, list_ascii_of_string (NilEmpty.string_of_uint d) = c :: l ∧ Ascii.eqb c "0" = false.
Proof. by destruct d; intros H; try done; eexists _, _. Qed.

Lemma parse_version_decimal z : 0 < z → parse_version (decimal (Z.to_N z)) = Some z ∧ forallb is_digit (decimal (Z.to_N z)) = true.
Proof.
  intros Hz. unfold decimal, parse_version. pose proof (to_uint_no_zero (Z.to_N z) ltac:(lia)) as H.
  rewrite string_of_no_zero by done. destruct (first_digit _ H) as (c & l & E & Ec).
  pose proof (digits_of_uint (N.to_uint (Z.to_N z))) as Hd. rewrite E in Hd |- *. rewrite Hd, Ec. cbn [negb andb]. split; [|done].
  rewrite <- E, string_of_list_ascii_of_string, <- string_of_no_zero, NilZero.usu by (done || by destruct (N.to_uint _)).
  cbn [mbind option_bind]. rewrite DecimalN.Unsigned.of_to. f_equal. lia.
Qed.

Lemma no_zero_text d c l : list_ascii_of_string (NilEmpty.string_of_uint d) = c :: l → Ascii.eqb c "0" = false → no_leading_zero d = true.
Proof. destruct d; cbn; intros [= <- <-]; done. Qed.

Lemma parse_version_Some l z : parse_version l = Some z → 1 <= z ∧ decimal (Z.to_N z) = l ∧ forallb is_digit l = true.
Proof.
  unfold parse_version. destruct l as [|c l]; [done|]. destruct (Ascii.eqb c "0") eqn:E0; [done|]. cbn [negb andb].
  destruct (forallb is_digit (c :: l)) eqn:Hd; [|done]. destruct (uint_of_digits _ Hd) as (d & Hu & Ed).
  pose proof (no_zero_text _ _ _ Ed E0) as Hn.
  assert (Hz : NilZero.uint_of_string (string_of_list_ascii (c :: l)) = Some d) by exact Hu.
  rewrite Hz. cbn [mbind option_bind]. intros [= <-]. split; [|split; [|done]].
  - assert (0 < N.of_uint d)%N; [|lia]. destruct (N.of_uint d) eqn:E; [|lia].
    apply (f_equal N.to_uint) in E. rewrite DecimalN.Unsigned.to_of, unorm_no_zero in E by done. subst. done.
  - unfold decimal. rewrite N2Z.id, DecimalN.Unsigned.to_of, unorm_no_zero, string_of_no_zero by done. done.
Qed.

Lemma hex_value_Some c d : hex_value c = Some d → hex_digit d = c ∧ 0 <= d < 16.
Proof.
  intros H. assert (Hall : forallb (fun n => match hex_value (ascii_of_nat n) with
      | Some d => bool_decide (hex_digit d = ascii_of_nat n) && (0 <=? d) && (d <? 16) | None => true end) (seq 0 256) = true)
    by (vm_compute; reflexivity).
  rewrite forallb_forall in Hall. specialize (Hall (nat_of_ascii c)). rewrite ascii_nat_embedding, H in Hall.
  assert (Hin : In (nat_of_ascii c) (seq 0 256)) by (apply in_seq; pose proof (nat_ascii_bounded c); lia).
  specialize (Hall Hin). bools. done.
Qed.

Lemma unhex_Some b : ∀ l, unhex l = Some b →
  flat_map (fun x => [hex_digit (x / 16); hex_digit (x mod 16)]) b = l ∧ Forall is_byte b ∧ length l = (2 * length b)%nat.
Proof.
  induction b as [|x b IH]; intros [|c [|d l]] H; cbn in H; try done.
  - destruct (hex_value c), (hex_value d), (unhex l); done.
  - destruct (hex_value c) as [u|] eqn:Ec; [|done]. destruct (hex_value d) as [v|] eqn:Ed; [|done].
    destruct (unhex l) as [b'|] eqn:El; [|done]. cbn in H. injection H as <- <-.
    apply hex_value_Some in Ec as [<- Hu], Ed as [<- Hv]. destruct (IH l El) as (<- & Hb & Hl).
    rewrite lor_prefix by lia. change (2 ^ 4) with 16. cbn [flat_map app]. split_and!.
    + repeat f_equal; bytes_arith.
    + constructor; [unfold is_byte; lia | done].
    + cbn [length]. rewrite Hl. lia.
Qed.

Lemma hex_digit_char d : 0 <= d < 16 → is_hex_char (hex_digit d) = true.
Proof.
  intros H. assert (Hall : forallb (fun n => is_hex_char (hex_digit (Z.of_nat n))) (seq 0 16) = true) by (vm_compute; reflexivity).
  rewrite forallb_forall in Hall. rewrite <- (Z2Nat.id d) by lia. apply Hall, in_seq. lia.
Qed.

(** ** Identities that exist *)

Record valid_identity (i : Identity) : Prop := {
  vi_domain : domain_match (i_domain i) = true;
  vi_version : 1 <= i_version i <= 2 ^ 63 - 1;
  vi_algorithm : i_algorithm i = ALGORITHM;
  vi_length : length (i_digest i) = 32%nat;
  vi_bytes : Forall is_byte (i_digest i) }.

Lemma mk_identity_ok domain version algorithm digest i : Forall is_byte digest →
  mk_identity domain version algorithm digest = Ok i ↔ i = Ident domain version algorithm digest ∧ valid_identity i.
Proof.
  intros Hb. unfold mk_identity, check_domain, check_version. change (Z.shiftl 1 63) with (2 ^ 63). split.
  - intros H. inv_ok. bools. split; [done|]. split; cbn; try done. by apply String.eqb_eq.
  - intros [-> [Hd Hv Ha Hl _]]. cbn in *. rewrite Hd. cbn. rewrite (proj2 (Z.leb_le 1 version)), (proj2 (Z.leb_le version _)) by lia. cbn.
    rewrite (proj2 (String.eqb_eq _ _) Ha), Hl. done.
Qed.

Lemma domain_chars s : domain_match s = true → forallb is_namespace_char (list_ascii_of_string s) = true.
Proof.
  unfold domain_match. destruct (list_ascii_of_string s) as [|c l]; [done|]. intros [Hc Hl]%andb_true_iff. cbn. rewrite Hl.
  unfold is_namespace_char. by rewrite Hc.
Qed.

Lemma digit_namespace l : forallb is_digit l = true → forallb is_namespace_char l = true.
Proof.
  rewrite !forallb_forall. intros H c Hc. unfold is_namespace_char. rewrite (H c Hc). by rewrite orb_true_r.
Qed.

Lemma forallb_reverse {A} (p : A → bool) l : forallb p l = true → forallb p (reverse l) = true.
Proof.
  rewrite !forallb_forall. intros H x Hx. apply H. apply list_elem_of_In. rewrite <- elem_of_reverse. by apply list_elem_of_In.
Qed.

Lemma split_version_print domain version : domain_match domain = true → 0 < version →
  split_version (list_ascii_of_string domain ++ list_ascii_of_string ".v" ++ decimal (Z.to_N version)) = Some (domain, version).
Proof.
  intros Hd Hv. destruct (parse_version_decimal version Hv) as [Hp Hdig]. unfold split_version.
  rewrite !reverse_app. change (reverse (list_ascii_of_string ".v")) with ["v"; "."]%char. rewrite <- app_assoc. cbn [app].
  rewrite span_app by (done || by apply forallb_reverse). cbn [strip_prefix]. rewrite !decide_True by done. cbn [mbind option_bind].
  rewrite !reverse_involutive, Hp. cbn [mbind option_bind]. by rewrite string_of_list_ascii_of_string, Hd.
Qed.

Lemma token_match_print i : valid_identity i →
  token_match (token_ascii i) = Some (i_domain i, i_version i, list_ascii_of_string (bytes_hex (i_digest i))).
Proof.
  intros [Hd Hv Ha Hl Hb]. unfold token_match, token_ascii. rewrite strip_prefix_app. cbn [mbind option_bind].
  set (hex := list_ascii_of_string (bytes_hex (i_digest i))).
  assert (E : list_ascii_of_string (i_domain i) ++ list_ascii_of_string ".v" ++ decimal (Z.to_N (i_version i)) ++ [":"%char]
              ++ list_ascii_of_string (i_algorithm i) ++ [":"%char] ++ hex
              = (list_ascii_of_string (i_domain i) ++ list_ascii_of_string ".v" ++ decimal (Z.to_N (i_version i)))
                ++ ":"%char :: (list_ascii_of_string "sha256:" ++ hex)) by (rewrite Ha, <- !app_assoc; done).
  rewrite E, span_app.
  - rewrite split_version_print by (done || lia). cbn [mbind option_bind].
    change (":"%char :: list_ascii_of_string "sha256:" ++ hex) with (list_ascii_of_string ":sha256:" ++ hex).
    rewrite strip_prefix_app. cbn [mbind option_bind]. unfold hex.
    assert (Hlen : length (list_ascii_of_string (bytes_hex (i_digest i))) = 64%nat).
    { rewrite <- string_length_list, string_of_list_ascii_of_string, bytes_hex_length, Hl. done. }
    rewrite Hlen. unfold bytes_hex. rewrite list_ascii_of_string_of_list_ascii. cbn [Nat.eqb andb].
    rewrite (proj2 (forallb_forall _ _)); [done|]. intros c (x & Hx & Hc)%in_flat_map.
    rewrite Forall_forall in Hb. specialize (Hb x (proj2 (list_elem_of_In _ _) Hx)). destruct Hc as [<-|[<-|[]]]; apply hex_digit_char;
      unfold is_byte in Hb; bytes_arith.
  - rewrite !forallb_app, domain_chars by done. cbn [andb]. apply digit_namespace.
    by destruct (parse_version_decimal (i_version i) ltac:(lia)).
  - done.
Qed.

Lemma split_version_Some l domain version : split_version l = Some (domain, version) →
  l = list_ascii_of_string domain ++ list_ascii_of_string ".v" ++ decimal (Z.to_N version) ∧ 1 <= version ∧ domain_match domain = true.
Proof.
  unfold split_version. destruct (span is_digit (reverse l)) as [digits before] eqn:Es. apply span_spec in Es as [El _].
  destruct (strip_prefix _ before) as [d|] eqn:Ep; [|done]. apply strip_prefix_Some in Ep. cbn [mbind option_bind].
  destruct (parse_version (reverse digits)) as [v|] eqn:Ev; [|done]. apply parse_version_Some in Ev as (Hv & Hdec & _). cbn [mbind option_bind].
  destruct (domain_match _) eqn:Hd; [|done]. intros [= <- <-]. split; [|done].
  rewrite list_ascii_of_string_of_list_ascii, Hdec. subst before. apply (f_equal reverse) in El.
  rewrite reverse_involutive, !reverse_app in El. rewrite El, <- app_assoc. done.
Qed.

Lemma token_match_Some l domain version hex : token_match l = Some (domain, version, hex) →
  l = list_ascii_of_string "pops." ++ list_ascii_of_string domain ++ list_ascii_of_string ".v" ++ decimal (Z.to_N version)
      ++ list_ascii_of_string ":sha256:" ++ hex
  ∧ length hex = 64%nat.
Proof.
  unfold token_match. destruct (strip_prefix _ l) as [m|] eqn:El; [|done]. apply strip_prefix_Some in El. cbn [mbind option_bind].
  destruct (span is_namespace_char m) as [head rest] eqn:Es. apply span_spec in Es as [Em _].
  destruct (split_version head) as [[d v]|] eqn:Eh; [|done]. apply split_version_Some in Eh as (Eh & _ & _). cbn [mbind option_bind].
  destruct (strip_prefix _ rest) as [x|] eqn:Er; [|done]. apply strip_prefix_Some in Er. cbn [mbind option_bind].
  destruct (_ && _) eqn:E; [|done]. bools. cbn. intros [= <- <- <-]. subst. by rewrite <- !app_assoc.
Qed.

Lemma from_token_print i : valid_identity i → from_token (token i) = Ok i.
Proof.
  intros Hi. unfold from_token, token. rewrite list_ascii_of_string_of_list_ascii, token_match_print by done.
  unfold bytes_hex. rewrite list_ascii_of_string_of_list_ascii, unhex_hex by apply Hi.
  apply mk_identity_ok; [apply Hi|]. pose proof (vi_algorithm i Hi). destruct i as [d v a b]. cbn in *. subst a. done.
Qed.

Lemma token_inj i j : valid_identity i → valid_identity j → token i = token j → i = j.
Proof. intros Hi%from_token_print Hj%from_token_print E. rewrite E in Hi. congruence. Qed.

(** C29: identities and their printed tokens are the same thing: [from_token] reads
    back every valid identity from its token, and a text it accepts is exactly
    the token of the valid identity it returns. *)
Theorem identity_token_roundtrip :
  (∀ i, valid_identity i → from_token (token i) = Ok i)
  ∧ (∀ text i, from_token text = Ok i → valid_identity i ∧ token i = text).
Proof.
  split; [apply from_token_print|].
  intros text i H. unfold from_token in H. destruct (token_match _) as [[[domain version] hex]|] eqn:Em; [|done].
  apply token_match_Some in Em as [Et _]. destruct (unhex hex) as [digest|] eqn:Eh; [|done].
  apply unhex_Some in Eh as (Eh & Hb & _). apply mk_identity_ok in H as [-> Hv]; [|done]. split; [done|].
  unfold token, token_ascii. cbn [i_domain i_version i_algorithm i_digest]. rewrite <- (string_of_list_ascii_of_string text), Et.
  unfold bytes_hex. rewrite list_ascii_of_string_of_list_ascii, Eh. done.
Qed.

(** ** What an identity identifies *)

Lemma ascii_text_inj s t : ascii_text s = ascii_text t → s = t.
Proof.
  unfold ascii_text. intros H. rewrite <- (string_of_list_ascii_of_string s), <- (string_of_list_ascii_of_string t). f_equal.
  revert H. generalize (list_ascii_of_string s) (list_ascii_of_string t). intros l. induction l as [|c l IH]; intros [|d m]; cbn; try done.
  intros [= Hc Hl]. f_equal; [|auto]. apply Nat2Z.inj in Hc. rewrite <- (ascii_nat_embedding c), Hc. apply ascii_nat_embedding.
Qed.

(** Dictionaries written with the same keys in the same order are equal entry by
    entry. *)
Lemma perm_same_keys {A B} (l m : list (A * B)) : NoDup (map fst l) → l ≡ₚ m → map fst l = map fst m → l = m.
Proof.
  revert m. induction l as [|x l IH]; intros [|y m] N P E; try done.
  cbn in E, N. injection E as E El. apply NoDup_cons in N as [Hx N].
  assert (Hin : y ∈ x :: l) by (rewrite P; left). apply elem_of_cons in Hin as [->|Hin].
  - f_equal. apply IH; [done| |done]. by apply Permutation_cons_inv in P.
  - exfalso. apply Hx. rewrite E. by apply list_elem_of_fmap_2.
Qed.

Lemma same_entries d e : same (VDict d) (VDict e) → map fst d = map fst e → Forall2 (fun x y => same x.2 y.2) d e.
Proof.
  intros H E. invert H. match goal with F : Forall2 _ d ?x, P : ?x ≡ₚ e |- _ => rename x into e'; rename F into HF; rename P into HP end.
  assert (Hk : map fst d = map fst e') by (eapply Forall2_keys; [exact HF | by intros x y [? _]]).
  rewrite (perm_same_keys e' e) in HF; [|by rewrite <- Hk|done|by rewrite <- Hk].
  eapply Forall2_impl; [exact HF|]. by intros x y [_ ?].
Qed.

Lemma same_refl v x : enc v = Ok x → distinct_keys v → same v v.
Proof. intros H D. by eapply enc_inj. Qed.

Definition messages_differ (x y : bytes) : Prop := sha256 x = sha256 y → x = y.

Lemma make_identity_ok domain payload version i : make_identity domain payload version = Ok i ↔
  ∃ x, enc (envelope domain version payload) = Ok x ∧ i = Ident domain version ALGORITHM (sha256 x)
       ∧ domain_match domain = true ∧ 1 <= version <= 2 ^ 63 - 1.
Proof.
  unfold make_identity, check_domain, check_version. change (Z.shiftl 1 63) with (2 ^ 63). split.
  - intros H. inv_ok. bools. eexists. split; [done|]. apply mk_identity_ok in H as [-> Hv]; [|apply sha256_bytes]. done.
  - intros (x & Hx & -> & Hd & Hv). rewrite Hd. cbn [require mbind res_bind].
    rewrite (proj2 (Z.leb_le 1 version)), (proj2 (Z.leb_le version _)) by lia. cbn [require mbind res_bind]. rewrite Hx. cbn [mbind res_bind].
    apply mk_identity_ok; [apply sha256_bytes|]. split; [done|]. split; cbn; try done; apply sha256_bytes.
Qed.

(** The literal keys of a record are distinct. *)
Ltac nodup_keys := cbn [map fst]; refine (bool_decide_eq_true_1 _ _); vm_compute; reflexivity.

Lemma envelope_distinct domain version payload : distinct_keys payload → distinct_keys (envelope domain version payload).
Proof.
  intros H. unfold envelope. cbn [distinct_keys]. split; [|by cbn].
  nodup_keys.
Qed.

Lemma envelope_same d v p d' v' p' : same (envelope d v p) (envelope d' v' p') → d = d' ∧ v = v' ∧ same p p'.
Proof.
  intros H. apply same_entries in H; [|done].
  apply Forall2_cons in H as [_ [H1 [H2 [H3 _]%Forall2_cons]%Forall2_cons]%Forall2_cons]. cbn in H1, H2, H3. invert H1. invert H2.
  split_and!; [by apply ascii_text_inj | done | done].
Qed.

Lemma make_identity_inj d p v d' p' v' i : distinct_keys p → make_identity d p v = Ok i → make_identity d' p' v' = Ok i →
  (∀ x y, enc (envelope d v p) = Ok x → enc (envelope d' v' p') = Ok y → messages_differ x y) →
  d = d' ∧ v = v' ∧ same p p'.
Proof.
  intros Hp (x & Hx & -> & _)%make_identity_ok (y & Hy & E%(f_equal i_digest) & _)%make_identity_ok Hfree. cbn in E.
  rewrite <- (Hfree x y Hx Hy E) in Hy. apply envelope_same. eapply enc_inj; [by apply envelope_distinct|done..].
Qed.

Lemma make_identity_valid d p v i : make_identity d p v = Ok i → valid_identity i.
Proof.
  intros (x & _ & -> & Hd & Hv)%make_identity_ok. split; cbn; try done; apply sha256_bytes.
Qed.

(** An identity identifies its domain, its schema version and its payload.  Two
    identities with one token have the same domain and version, and, unless the
    two messages that were hashed are a collision of SHA-256, the same payload up
    to the order of dictionaries and sets; and such payloads have one identity. *)
Theorem identity_identifies d p v i d' p' v' i' (Hp : distinct_keys p)
    (Hi : make_identity d p v = Ok i) (Hi' : make_identity d' p' v' = Ok i') :
  (token i = token i' → d = d' ∧ v = v'
     ∧ ∀ x y, enc (envelope d v p) = Ok x → enc (envelope d' v' p') = Ok y → messages_differ x y → same p p')
  ∧ (d = d' → v = v' → same p p' → i = i').
Proof.
  split.
  - intros E%token_inj; [|by eapply make_identity_valid..]. subst i'.
    pose proof Hi as (x & Hx & Ei & _)%make_identity_ok. pose proof Hi' as (y & Hy & Ei' & _)%make_identity_ok.
    assert (d = d' ∧ v = v') as [<- <-] by (rewrite Ei in Ei'; split; [by apply (f_equal i_domain) in Ei' | by apply (f_equal i_version) in Ei']). split_and!; [done..|].
    intros x' y' Hx' Hy' Hd. apply (make_identity_inj _ _ _ _ _ _ _ Hp Hi Hi').
    intros u w Hu Hw. rewrite Hx' in Hu. rewrite Hy' in Hw. injection Hu as <-. by injection Hw as <-.
  - intros <- <- Hs. apply make_identity_ok in Hi as (x & Hx & -> & _), Hi' as (y & Hy & -> & _). do 2 f_equal.
    assert (He : same (envelope d v p) (envelope d v p')).
    { unfold envelope. eapply same_dict; [|reflexivity|]; [nodup_keys|]. repeat (constructor; [by split; [|constructor]|]).
      constructor; [by split | constructor]. }
    rewrite (same_enc _ _ _ He Hx) in Hy. by injection Hy.
Qed.

(** Two orders of one dictionary. *)
Lemma identity_identifies_witness :
  let p := VDict [(Some (ascii_text "b"), VInt 2); (Some (ascii_text "aa"), VNone)] in
  let q := VDict [(Some (ascii_text "aa"), VNone); (Some (ascii_text "b"), VInt 2)] in
  ∃ i, make_identity "case" p 1 = Ok i ∧ make_identity "case" q 1 = Ok i.
Proof.
  intros p q. destruct (make_identity "case" p 1) as [i|] eqn:Hi; [|vm_compute in Hi; discriminate].
  destruct (make_identity "case" q 1) as [j|] eqn:Hj; [|vm_compute in Hj; discriminate]. exists i. split; [done|]. f_equal. symmetry.
  assert (Hp : distinct_keys p) by (split; [nodup_keys | done]).
  apply (proj2 (identity_identifies "case" p 1 i "case" q 1 j Hp Hi Hj)); [done|done|].
  eapply same_dict; [nodup_keys|apply perm_swap|]. repeat constructor.
Defined.

(** ** The identities of a build *)

Lemma same_bytes_inv a b : same (VBytes a) (VBytes b) → a = b.
Proof. by inversion 1. Qed.

Lemma identity_data_inj i j : same (identity_data i) (identity_data j) → i = j.
Proof.
  intros H. apply same_entries in H; [|done].
  apply Forall2_cons in H as [H1 [H2 [H3 [H4 _]%Forall2_cons]%Forall2_cons]%Forall2_cons]. cbn in H1, H2, H3, H4.
  destruct i, j; cbn in *. inversion H1; inversion H2; inversion H3; inversion H4; subst. f_equal; by apply ascii_text_inj.
Qed.

Lemma identity_data_distinct i : distinct_keys (identity_data i).
Proof. split; [nodup_keys | by cbn]. Qed.

Lemma text_string_ascii s : forallb is_namespace_char (list_ascii_of_string s) = true → text_string (ascii_text s) = Some s.
Proof.
  intros H. assert (Hall : forallb (fun n => negb (is_namespace_char (ascii_of_nat n)) || (n <? 128)%nat) (seq 0 256) = true) by (vm_compute; reflexivity).
  rewrite forallb_forall in Hall, H. unfold text_string, ascii_text.
  assert (Hb : forallb (fun c => (0 <=? c) && (c <? 128)) (map (fun c => Z.of_nat (nat_of_ascii c)) (list_ascii_of_string s)) = true).
  { apply forallb_forall. intros z (c & <- & Hc)%in_map_iff. specialize (Hall (nat_of_ascii c)).
    rewrite ascii_nat_embedding, (H c Hc) in Hall. cbn [negb orb] in Hall.
    assert (nat_of_ascii c < 128)%nat by (apply Nat.ltb_lt, Hall, in_seq; pose proof (nat_ascii_bounded c); lia).
    apply andb_true_iff. split; [apply Z.leb_le | apply Z.ltb_lt]; lia. }
  rewrite Hb, map_map. f_equal. rewrite (map_ext _ id); [by rewrite List.map_id, string_of_list_ascii_of_string|].
  intros c. by rewrite Nat2Z.id, ascii_nat_embedding.
Qed.

Lemma text_string_Some t s : text_string t = Some s → ascii_text s = t.
Proof.
  unfold text_string, ascii_text. destruct (forallb _ t) eqn:H; [|done]. intros [= <-]. rewrite list_ascii_of_string_of_list_ascii, map_map.
  rewrite forallb_forall in H. rewrite <- (List.map_id t) at 2. apply map_ext_in. intros c Hc. specialize (H c Hc). bools.
  rewrite nat_ascii_embedding by lia. cbn. lia.
Qed.

Lemma mk_identity_shape domain version algorithm digest i :
  mk_identity domain version algorithm digest = Ok i → i = Ident domain version algorithm digest.
Proof. unfold mk_identity, check_domain, check_version. intros H. by inv_ok. Qed.

Lemma item_Some key d v : v ≠ VNone → default VNone (dget (Some (ascii_text key)) d) = v → dget (Some (ascii_text key)) d = Some v.
Proof. intros Hv. destruct (dget _ d); cbn; congruence. Qed.

Lemma from_data_print i : valid_identity i → from_data (identity_data i) = Ok i.
Proof.
  intros Hv. pose proof Hv as [Hd [Hver Hmax] Ha Hl Hb]. unfold from_data, identity_data.
  match goal with |- context [require ?b _] => replace b with true by (vm_compute; reflexivity) end. cbn [require mbind res_bind].
  set (d := [_; _; _; _]).
  assert (E1 : dget (Some (ascii_text "domain")) d = Some (VStr (ascii_text (i_domain i)))) by reflexivity.
  assert (E2 : dget (Some (ascii_text "schema_version")) d = Some (VInt (i_version i))) by reflexivity.
  assert (E3 : dget (Some (ascii_text "algorithm")) d = Some (VStr (ascii_text (i_algorithm i)))) by reflexivity.
  assert (E4 : dget (Some (ascii_text "digest")) d = Some (VBytes (i_digest i))) by reflexivity.
  rewrite E1, E2, E3, E4. cbn [from_option id string_item]. rewrite text_string_ascii by (by apply domain_chars).
  unfold check_domain, check_version. rewrite Hd. cbn [require mbind res_bind]. change (Z.shiftl 1 63) with (2 ^ 63).
  rewrite (proj2 (Z.leb_le 1 _) Hver), (proj2 (Z.leb_le _ _) Hmax). cbn [require mbind res_bind]. rewrite Ha.
  assert (text_string (ascii_text ALGORITHM) = Some ALGORITHM) as -> by (vm_compute; reflexivity).
  destruct i. cbn in *. subst. by apply mk_identity_ok.
Qed.

(** The data of an identity and the identity are the same thing. *)
Lemma identity_data_roundtrip :
  (∀ i, valid_identity i → from_data (identity_data i) = Ok i)
  ∧ (∀ d i, NoDup (map fst d) → from_data (VDict d) = Ok i → ∃ e, e ≡ₚ d ∧ VDict e = identity_data i).
Proof.
  split; [apply from_data_print|]. intros d i Hn H. unfold from_data in H.
  destruct (forallb _ _ && forallb _ (map fst d)) eqn:Hk; [|done]. cbn [require mbind res_bind] in H. apply andb_true_iff in Hk as [_ Hk].
  destruct (default VNone (dget (Some (ascii_text "domain")) d)) as [| | |t1| | | | | |] eqn:E1; try done. cbn [string_item] in H.
  destruct (text_string t1) as [domain|] eqn:T1; [|done]. destruct (check_domain domain); [|done]. cbn [mbind res_bind] in H.
  destruct (default VNone (dget (Some (ascii_text "schema_version")) d)) as [| |version| | | | | | |] eqn:E2; try done.
  destruct (check_version version); [|done]. cbn [mbind res_bind] in H.
  destruct (default VNone (dget (Some (ascii_text "algorithm")) d)) as [| | |t3| | | | | |] eqn:E3; try done. cbn [string_item] in H.
  destruct (text_string t3) as [algorithm|] eqn:T3; [|done].
  destruct (default VNone (dget (Some (ascii_text "digest")) d)) as [| | | |digest| | | | |] eqn:E4; try done.
  apply item_Some in E1, E2, E3, E4; try done. apply mk_identity_shape in H as ->. apply text_string_Some in T1, T3.
  subst t1 t3. exists [(Some (ascii_text "domain"), VStr (ascii_text domain)); (Some (ascii_text "schema_version"), VInt version);
    (Some (ascii_text "algorithm"), VStr (ascii_text algorithm)); (Some (ascii_text "digest"), VBytes digest)]. split; [|done].
  apply NoDup_Permutation; [apply (NoDup_fmap_1 fst); change (fmap fst) with (@map (option text * value) _ fst); nodup_keys | by apply (NoDup_fmap_1 fst)|].
  intros [k v]. split.
  - rewrite !elem_of_cons, elem_of_nil. intros [[= -> ->]|[[= -> ->]|[[= -> ->]|[[= -> ->]|[]]]]]; by apply dget_Some_elem.
  - intros Hin. pose proof (dget_elem _ _ _ Hn Hin) as E. rewrite forallb_forall in Hk.
    assert (Hr : In k (map fst d)) by (apply list_elem_of_In; by apply (list_elem_of_fmap_2 fst) in Hin).
    apply Hk, bool_decide_eq_true_1 in Hr. cbn [map] in Hr. rewrite !elem_of_cons, elem_of_nil in Hr.
    destruct Hr as [->|[->|[->|[->|[]]]]]; [rewrite E1 in E|rewrite E2 in E|rewrite E3 in E|rewrite E4 in E]; injection E as <-;
      rewrite !elem_of_cons; auto.
Qed.

(** An artifact: what it was compiled from and how, and the emitted bytes. *)
Record build := Build { b_semantic : Identity; b_spec : compile_spec; b_content : bytes }.

(** The three identities of [artifact.py], composed. *)
Definition build_identity (b : build) : res Identity :=
  spec ← artifact_spec_identity (b_semantic b) (b_spec b);
  binary ← binary_identity (b_content b);
  artifact_identity spec binary.

(** The messages that are hashed for it. *)
Definition hashed (b : build) (x : bytes) : Prop :=
  x = b_content b
  ∨ enc (envelope "binary" ARTIFACT_SCHEMA_VERSION (binary_data (b_content b))) = Ok x
  ∨ enc (envelope "artifact-spec" ARTIFACT_SCHEMA_VERSION (spec_data (b_semantic b) (b_spec b))) = Ok x
  ∨ ∃ spec binary, artifact_spec_identity (b_semantic b) (b_spec b) = Ok spec ∧ binary_identity (b_content b) = Ok binary
      ∧ enc (envelope "artifact" ARTIFACT_SCHEMA_VERSION (artifact_data spec binary)) = Ok x.

Lemma build_identity_ok b i : build_identity b = Ok i → ∃ spec binary,
  artifact_spec_identity (b_semantic b) (b_spec b) = Ok spec ∧ binary_identity (b_content b) = Ok binary
  ∧ make_identity "artifact-spec" (spec_data (b_semantic b) (b_spec b)) ARTIFACT_SCHEMA_VERSION = Ok spec
  ∧ make_identity "artifact" (artifact_data spec binary) ARTIFACT_SCHEMA_VERSION = Ok i.
Proof.
  unfold build_identity. destruct (artifact_spec_identity _ _) as [spec|] eqn:Es; [|done]. cbn [mbind res_bind].
  destruct (binary_identity _) as [binary|] eqn:Eb; [|done]. cbn [mbind res_bind]. unfold artifact_identity, require_identity. intros H.
  exists spec, binary. split_and!; [done|done| |].
  - unfold artifact_spec_identity, require_identity in Es. destruct (String.eqb _ _); cbn [require mbind res_bind] in Es; [|done].
    by destruct (forallb _ _).
  - destruct (String.eqb (i_domain spec) _); cbn [require mbind res_bind] in H; [|done]. by destruct (String.eqb _ _).
Qed.

Lemma binary_data_distinct content : distinct_keys (binary_data content).
Proof. split; [nodup_keys | by cbn]. Qed.

Lemma artifact_data_distinct spec binary : distinct_keys (artifact_data spec binary).
Proof.
  split; [nodup_keys|]. cbn [map foldr snd]. split; [apply identity_data_distinct|]. split; [apply identity_data_distinct | done].
Qed.

Lemma artifact_data_inj s b s' b' : same (artifact_data s b) (artifact_data s' b') → s = s' ∧ b = b'.
Proof.
  intros H. apply same_entries in H; [|done]. apply Forall2_cons in H as [H1 [H2 _]%Forall2_cons]. cbn [snd] in H1, H2.
  by apply identity_data_inj in H1, H2.
Qed.

Lemma binary_data_inj c c' : same (binary_data c) (binary_data c') → sha256 c = sha256 c'.
Proof.
  intros H. apply same_entries in H; [|done]. apply Forall2_cons in H as [_ [H _]%Forall2_cons]. cbn [snd] in H.
  by apply same_bytes_inv in H.
Qed.

(** The compile decisions of two builds agree field by field, mappings up to their order. *)
Record same_decisions (c d : compile_spec) : Prop := SameDecisions {
  sd_target : cs_target c = cs_target d;
  sd_backend : cs_backend c = cs_backend d;
  sd_precision : cs_precision c = cs_precision d;
  sd_abi : cs_abi c = cs_abi d;
  sd_toolchain : cs_toolchain c = cs_toolchain d;
  sd_routes : same (VDict (cs_routes c)) (VDict (cs_routes d));
  sd_components : same (VDict (cs_components c)) (VDict (cs_components d));
  sd_flags : Forall2 same (cs_flags c) (cs_flags d);
  sd_libraries : Forall2 same (cs_libraries c) (cs_libraries d);
  sd_codegen : cs_codegen c = cs_codegen d }.

(** The mappings of a build, nested ones included, are Python mappings. *)
Definition decisions_distinct (c : compile_spec) : Prop :=
  distinct_keys (VDict (cs_routes c)) ∧ distinct_keys (VDict (cs_components c))
  ∧ distinct_keys (VList (cs_flags c)) ∧ distinct_keys (VList (cs_libraries c)).

Lemma spec_data_distinct i c : decisions_distinct c → distinct_keys (spec_data i c).
Proof.
  intros (Hr & Hc & Hf & Hl). split; [nodup_keys|]. cbn [map foldr snd]. split_and!; try done. apply identity_data_distinct.
Qed.

Lemma same_str_inv a b : same (VStr a) (VStr b) → a = b.
Proof. by inversion 1. Qed.
Lemma same_list_inv l m : same (VList l) (VList m) → Forall2 same l m.
Proof. by inversion 1. Qed.

Lemma spec_data_inj i c j d : same (spec_data i c) (spec_data j d) → i = j ∧ same_decisions c d.
Proof.
  intros H%same_entries; [|done]. repeat match goal with F : Forall2 _ (_ :: _) (_ :: _) |- _ => apply Forall2_cons in F as [? ?] end.
  cbn [snd] in *. split; [by apply identity_data_inj|]. by split; (apply same_str_inv || apply same_list_inv || idtac).
Qed.

(** C27: the identity of an artifact binds everything the artifact is made of.  Two
    builds with one artifact token have, unless two of the messages hashed for
    them collide, the same semantic identity, the same binary bytes, and the same
    target, backend, precision, ABI, toolchain, routes, components, flags, libraries and
    code generator version, mappings up to their order. *)
Theorem artifact_identity_binds b b' i i' (Hd : decisions_distinct (b_spec b))
    (Hb : build_identity b = Ok i) (Hb' : build_identity b' = Ok i') (Ht : token i = token i')
    (Hfree : ∀ x y, hashed b x → hashed b' y → messages_differ x y) :
  b_content b = b_content b' ∧ same_decisions (b_spec b) (b_spec b') ∧ b_semantic b = b_semantic b'.
Proof.
  destruct (build_identity_ok _ _ Hb) as (s & n & Hs & Hn & Ms & Mi), (build_identity_ok _ _ Hb') as (s' & n' & Hs' & Hn' & Ms' & Mi').
  apply token_inj in Ht; [|by eapply make_identity_valid..]. subst i'.
  destruct (make_identity_inj _ _ _ _ _ _ _ (artifact_data_distinct s n) Mi Mi') as (_ & _ & [<- <-]%artifact_data_inj).
  { intros x y Hx Hy. apply Hfree; right; right; right; eauto 10. }
  destruct (make_identity_inj _ _ _ _ _ _ _ (binary_data_distinct (b_content b)) Hn Hn') as (_ & _ & Hc%binary_data_inj).
  { intros x y Hx Hy. apply Hfree; right; left; done. }
  destruct (make_identity_inj _ _ _ _ _ _ _ (spec_data_distinct (b_semantic b) _ Hd) Ms Ms') as (_ & _ & [Hsem Hspec]%spec_data_inj).
  { intros x y Hx Hy. apply Hfree; right; right; left; done. }
  split; [by apply Hfree; [left|left|]|]. by split.
Qed.

(** The messages of a build, computed, and whether they collide. *)
Definition messages (b : build) : list bytes :=
  let envelopes :=
    [enc (envelope "binary" ARTIFACT_SCHEMA_VERSION (binary_data (b_content b)));
     enc (envelope "artifact-spec" ARTIFACT_SCHEMA_VERSION (spec_data (b_semantic b) (b_spec b)));
     spec ← artifact_spec_identity (b_semantic b) (b_spec b); binary ← binary_identity (b_content b);
     enc (envelope "artifact" ARTIFACT_SCHEMA_VERSION (artifact_data spec binary))] in
  b_content b :: omap (fun r => match r with Ok x => Some x | Err _ => None end) envelopes.
Definition collision_free (l m : list bytes) : bool :=
  forallb (fun x => forallb (fun y => bool_decide (x = y) || negb (bool_decide (sha256 x = sha256 y))) m) l.

Lemma hashed_messages b x : hashed b x → x ∈ messages b.
Proof.
  unfold messages. rewrite elem_of_cons, list_elem_of_omap. intros [->|[H|[H|(s & n & Hs & Hn & H)]]]; [by left|right..]; exists (Ok x); (split; [|done]);
    rewrite !elem_of_cons; [left|right; left|right; right; left]; [done..|]. by rewrite Hs, Hn.
Qed.

Lemma collision_free_spec l m x y : collision_free l m = true → x ∈ l → y ∈ m → messages_differ x y.
Proof.
  unfold collision_free. rewrite forallb_forall. intros H Hx%list_elem_of_In Hy%list_elem_of_In E. specialize (H x Hx).
  rewrite forallb_forall in H. specialize (H y Hy). rewrite E, (bool_decide_true (sha256 y = sha256 y)), orb_false_r in H by done. by apply bool_decide_eq_true_1 in H.
Qed.

(** One binary whose routes were listed in two orders. *)
Definition sample_build (routes : list (option text * value)) : build :=
  let word s := ascii_text s in
  Build (Ident "semantic" 1 ALGORITHM (repeat 7 32))
    (CompileSpec (word "cpu") (word "openmp") (word "double") (word "c++20") (word "gcc") routes [] [VStr (word "-O2")] [] (word "3"))
    [1; 2; 3].

Lemma artifact_identity_binds_witness :
  let b := sample_build [(Some (ascii_text "flux"), VInt 1); (Some (ascii_text "source"), VInt 2)] in
  let c := sample_build [(Some (ascii_text "source"), VInt 2); (Some (ascii_text "flux"), VInt 1)] in
  b_content b = b_content c ∧ same_decisions (b_spec b) (b_spec c) ∧ b_semantic b = b_semantic c.
Proof.
  intros b c. destruct (build_identity b) as [i|] eqn:Hb; [|vm_compute in Hb; discriminate].
  assert (Hc : build_identity c = Ok i) by (rewrite <- Hb; vm_compute; reflexivity).
  assert (Hd : decisions_distinct (b_spec b)) by (repeat (first [split | nodup_keys | done])).
  apply (artifact_identity_binds b c i i Hd Hb Hc eq_refl).
  intros x y Hx%hashed_messages Hy%hashed_messages. eapply collision_free_spec; [|exact Hx|exact Hy]. vm_compute. reflexivity.
Defined.

Lemma ascii_fits s : (String.length s < 1000)%nat → utf8 (ascii_text s) = Ok (ascii_text s) → text_fits (ascii_text s).
Proof.
  intros Hl E b Hb. rewrite E in Hb. injection Hb as <-. unfold fits, len, ascii_text. rewrite length_map.
  rewrite <- (string_of_list_ascii_of_string s), string_length_list in Hl. lia.
Qed.

Lemma native_text s : (String.length s < 1000)%nat → utf8 (ascii_text s) = Ok (ascii_text s) →
  ∀ b, enc (VStr (ascii_text s)) = Ok b → encode_into (NText (ascii_text s)) = Ok b.
Proof.
  intros Hl E b H. cbn [enc encode_into] in *. destruct (encode_str_native _ _ (ascii_fits s Hl E) E) as [E1 ->]. by rewrite <- E1.
Qed.

Lemma native_int z b : enc (VInt z) = Ok b → encode_into (NInt z) = Ok b.
Proof. intros H. by apply encode_int_native in H as [_ H]. Qed.

Lemma native_bytes_value x b : fits x → enc (VBytes x) = Ok b → encode_into (NBytes x) = Ok b.
Proof. intros Hf. cbn [enc encode_into]. unfold encode_bytes. by rewrite head_len by (lia || done). Qed.

(** The entry of a literal key. *)
Ltac literal_key := eexists; split; [reflexivity|]; split; [vm_compute; reflexivity|]; split;
  [apply ascii_fits; [cbn; lia | vm_compute; reflexivity]|].

(** The native runtime computes the token Python does: for every binary that
    Python identifies, [binary_identity_token] of its digest and size is the
    token of [binary_identity]. *)
Theorem native_binary_token content i (Hi : binary_identity content = Ok i) :
  binary_identity_token (sha256 content) (len content) = Ok (token i).
Proof.
  unfold binary_identity in Hi. apply make_identity_ok in Hi as (x & Hx & -> & _). unfold binary_identity_token. rewrite sha256_length.
  rewrite (proj2 (Z.leb_le 0 _)) by apply len_nonneg. cbn [Nat.eqb andb require mbind res_bind].
  match goal with |- context [encode_into ?n] => assert (Hn : encode_into n = Ok x) end.
  - eapply encode_map_values; [..|exact Hx]; [|nodup_keys|done]. repeat (apply Forall2_cons; split); [..|by apply Forall2_nil]; literal_key.
    + apply native_text; [cbn; lia | vm_compute; reflexivity].
    + apply native_text; [cbn; lia | vm_compute; reflexivity].
    + intros b. apply native_int.
    + intros b. apply encode_map_values; [|nodup_keys|done]. repeat (apply Forall2_cons; split); [..|by apply Forall2_nil]; literal_key.
      * apply native_text; [cbn; lia | vm_compute; reflexivity].
      * intros c. apply native_bytes_value. unfold fits, len. rewrite sha256_length. lia.
      * intros c. apply native_int.
  - rewrite Hn. cbn [mbind res_bind]. f_equal. rewrite sha256_hex_bytes_hex. unfold token, token_ascii.
    cbn [i_domain i_version i_algorithm i_digest]. change (decimal (Z.to_N ARTIFACT_SCHEMA_VERSION)) with (list_ascii_of_string "1").
    rewrite <- (string_of_list_ascii_of_string (bytes_hex (sha256 x))) at 1. done.
Qed.

Lemma native_binary_token_witness : ∃ i, binary_identity [1; 2; 3] = Ok i ∧ binary_identity_token (sha256 [1; 2; 3]) 3 = Ok (token i).
Proof.
  destruct (binary_identity [1; 2; 3]) as [i|] eqn:Hi; [|vm_compute in Hi; discriminate]. exists i. split; [done|].
  exact (native_binary_token [1; 2; 3] i Hi).
Defined.
