(* ===== verification/SemanticIdentity.v ===== *)
(** * Semantic identities

    [python/pops/identity/semantic.py]: the projection of scientific payloads to
    the values that are hashed.  Floats become their hexadecimal text and sets
    sorted sequences; of a Program, the names that only present it are dropped. *)
From stdpp Require Import sorting.
From S2P Require Import Prelude Binary64 FloatValid HexFloat Bytes CanonicalCbor NativeIdentity Sha256 Ownership Identity.

(** ** [semantic_value] *)

(** [{"binary64": value.hex()}] *)
Definition binary64_value (f : float) : value := VDict [(Some (ascii_text "binary64"), VStr (ascii_text (hex f)))].

(** [key=lambda item: (len(canonical_bytes(item)), canonical_bytes(item))] *)
Definition with_bytes (v : value) : res (bytes * value) := b ← enc v; Ok (b, v).
Definition bytes_first (x y : bytes * value) : bool := shorter x.1 y.1.
Definition sort_values (items : list value) : res (list value) :=
  l ← map_res with_bytes items; Ok (map snd (isort bytes_first l)).

Definition key_ok (key : option text) : bool := match key with Some k => nonempty k | None => false end.

Fixpoint semantic_value (v : value) : res value :=
  match v with
  | VNone | VBool _ | VInt _ | VStr _ | VBytes _ => Ok v
  | VFloat f => Ok (binary64_value f)
  | VOpaque => Err TypeError
  | VDict d =>
      _ ← require (forallb (fun e => key_ok e.1) d) TypeError;
      l ← map_res (fun e => x ← semantic_value e.2; Ok (e.1, x)) d; Ok (VDict l)
  | VList items => l ← map_res semantic_value items; Ok (VList l)
  | VSet items => l ← map_res semantic_value items; l ← sort_values l; Ok (VList l)
  end.

(** [semantic_identity]; the schema version is generated with the release. *)
Definition semantic_identity (SEMANTIC_SCHEMA_VERSION : Z) (payload : value) : res Identity :=
  v ← semantic_value payload; make_identity "semantic" v SEMANTIC_SCHEMA_VERSION.

(** The values it returns: no float, no set, no opaque object, no empty key. *)
Fixpoint plain (v : value) : Prop :=
  match v with
  | VFloat _ | VOpaque | VSet _ => False
  | VList l => foldr and True (map plain l)
  | VDict d => forallb (fun e => key_ok e.1) d = true ∧ foldr and True (map (fun e => plain e.2) d)
  | _ => True
  end.

(** ** Lemmas *)

Lemma map_res_id {A} (f : A → res A) l : Forall (fun x => f x = Ok x) l → map_res f l = Ok l.
Proof. induction 1 as [|x l Hx _ IH]; cbn; [done|]. by rewrite Hx, IH. Qed.

Lemma semantic_plain v : plain v → semantic_value v = Ok v.
Proof.
  induction v as [|b|z|s|b|f| |l IH|d IH|l IH] using value_nested_ind; cbn; try done.
  - intros H%Forall_and_fold. rewrite map_res_id; [done|]. rewrite Forall_forall in *. auto.
  - intros [Hk H%Forall_and_fold]. rewrite Hk. cbn [require mbind res_bind]. rewrite map_res_id; [done|]. rewrite Forall_forall in *.
    intros [k x] Hx. pose proof (IH _ Hx (H _ Hx)) as E. cbn in E |- *. by rewrite E.
Qed.

Lemma sort_values_perm items l : sort_values items = Ok l → l ≡ₚ items.
Proof.
  unfold sort_values. destruct (map_res with_bytes items) as [bs|] eqn:E; [|done]. cbn. intros [= <-].
  rewrite isort_perm. apply map_res_Forall2 in E. clear -E. induction E as [|v [b w] items bs Hv _ IH]; cbn; [done|].
  unfold with_bytes in Hv. destruct (enc v); [|done]. cbn in Hv. injection Hv as _ <-. by rewrite IH.
Qed.

Lemma Forall_of_map_res {A B} (f : A → res B) (P : B → Prop) l xs :
  map_res f l = Ok xs → (∀ a x, a ∈ l → f a = Ok x → P x) → Forall P xs.
Proof.
  intros H%map_res_Forall2 HP. rewrite Forall_forall. intros x Hx. destruct (Forall2_right _ _ _ x H Hx) as (a & Ha & E). eauto.
Qed.

Lemma semantic_value_plain v : ∀ w, semantic_value v = Ok w → plain w.
Proof.
  induction v as [|b|z|s|b|f| |l IH|d IH|l IH] using value_nested_ind; intros w H; cbn in H; try (by injection H as <-); try done;
    rewrite Forall_forall in IH.
  - destruct (map_res _ l) as [xs|] eqn:E; [|done]. injection H as <-. apply Forall_and_fold. eapply Forall_of_map_res; [done|]. intros a x Ha Ex. exact (IH a Ha x Ex).
  - destruct (forallb _ d) eqn:Hk; [|done]. cbn in H. destruct (map_res _ d) as [xs|] eqn:E; [|done]. injection H as <-. split.
    + apply forallb_forall. intros e He%list_elem_of_In. apply map_res_Forall2 in E.
      destruct (Forall2_right _ _ _ e E He) as ([k x] & Hin & Ex). rewrite forallb_forall in Hk. specialize (Hk _ (proj1 (list_elem_of_In _ _) Hin)).
      cbn in Ex, Hk. destruct (semantic_value x); [|done]. by injection Ex as <-.
    + apply Forall_and_fold. eapply Forall_of_map_res; [exact E|]. intros [k x] y Hx Ey. cbn in Ey.
      destruct (semantic_value x) eqn:Es; [|done]. injection Ey as <-. by eapply (IH _ Hx).
  - destruct (map_res _ l) as [xs|] eqn:E; [|done]. cbn in H. destruct (sort_values xs) as [ys|] eqn:Ey; [|done]. injection H as <-.
    apply Forall_and_fold. rewrite (sort_values_perm _ _ Ey). eapply Forall_of_map_res; [done|]. intros a x Ha Ex. exact (IH a Ha x Ex).
Qed.

Lemma semantic_distinct v : ∀ w, distinct_keys v → semantic_value v = Ok w → distinct_keys w.
Proof.
  induction v as [|b|z|s|b|f| |l IH|d IH|l IH] using value_nested_ind; intros w Hd H; cbn in H; try (by injection H as <-); try done;
    try rewrite Forall_forall in IH.
  - injection H as <-. split; [nodup_keys | done].
  - destruct (map_res _ l) as [xs|] eqn:E; [|done]. injection H as <-. cbn in Hd. apply Forall_and_fold in Hd. rewrite Forall_forall in Hd.
    apply Forall_and_fold. eapply Forall_of_map_res; [done|]. intros a x Ha Ex. exact (IH a Ha x (Hd a Ha) Ex).
  - destruct (forallb _ d) eqn:Hk; [|done]. cbn in H. destruct (map_res _ d) as [xs|] eqn:E; [|done]. injection H as <-.
    cbn in Hd. destruct Hd as [Hn Hd%Forall_and_fold]. rewrite Forall_forall in Hd. split.
    + apply map_res_Forall2 in E. rewrite <- (Forall2_keys _ fst fst _ _ E); [done|]. intros [k x] y. cbn.
      destruct (semantic_value x); [|done]. by intros [= <-].
    + apply Forall_and_fold. eapply Forall_of_map_res; [exact E|]. intros [k x] y Hx Ey. cbn in Ey.
      destruct (semantic_value x) eqn:Es; [|done]. injection Ey as <-. eapply (IH _ Hx); [by apply (Hd _ Hx) | done].
  - destruct (map_res _ l) as [xs|] eqn:E; [|done]. cbn in H. destruct (sort_values xs) as [ys|] eqn:Ey; [|done]. injection H as <-.
    cbn in Hd. apply Forall_and_fold in Hd. rewrite Forall_forall in Hd.
    apply Forall_and_fold. rewrite (sort_values_perm _ _ Ey). eapply Forall_of_map_res; [done|]. intros a x Ha Ex. exact (IH a Ha x (Hd a Ha) Ex).
Qed.

(** ** The order of sets and dictionaries *)

Lemma map_res_related {A B} (f : A → res B) (R : A → A → Prop) (S : B → B → Prop) l m xs :
  Forall2 R l m → map_res f l = Ok xs → (∀ a b x, a ∈ l → R a b → f a = Ok x → ∃ y, f b = Ok y ∧ S x y) →
  ∃ ys, map_res f m = Ok ys ∧ Forall2 S xs ys.
Proof.
  intros F. revert xs. induction F as [|a b l m Hab _ IH]; intros xs Hl H.
  - injection Hl as <-. exists []. by split; [|constructor].
  - apply map_res_cons_ok in Hl as (x & xs' & Hx & Hxs & ->). destruct (H a b x ltac:(left) Hab Hx) as (y & Hy & Hxy).
    destruct (IH xs' Hxs ltac:(intros ? ? ? ?; apply H; by right)) as (ys & Hys & HF). exists (y :: ys). cbn. rewrite Hy, Hys. by split; [|constructor].
Qed.

Lemma with_bytes_ok v x : with_bytes v = Ok x ↔ enc v = Ok x.1 ∧ x.2 = v.
Proof.
  unfold with_bytes. destruct (enc v) as [b|]; cbn; [|by split; [|intros []]].
  destruct x as [b' v']. cbn. split; [by intros [= -> ->] | intros [[= ->] ->]; done].
Qed.

Lemma with_bytes_all items bs : map_res with_bytes items = Ok bs → Forall (fun x => enc x.2 = Ok x.1) bs ∧ map snd bs = items.
Proof.
  intros H%map_res_Forall2. induction H as [|v x items bs Hx _ [IH1 IH2]]; [by split|].
  apply with_bytes_ok in Hx as [Hx <-]. cbn. split; [by constructor | by rewrite IH2].
Qed.

Lemma Forall2_map_eq {A B} (f : A → B) l m : map f l = map f m → Forall2 (fun x y => f x = f y) l m.
Proof. revert m. induction l as [|x l IH]; intros [|y m] E; try done. injection E as E1 E2. constructor; auto. Qed.

Lemma sort_values_same xs ys ys' zs : Forall distinct_keys xs → Forall2 same xs ys' → ys' ≡ₚ ys → sort_values xs = Ok zs →
  ∃ zs', sort_values ys = Ok zs' ∧ Forall2 same zs zs'.
Proof.
  intros Hd F P. unfold sort_values. destruct (map_res with_bytes xs) as [bs|] eqn:Eb; [|done]. cbn. intros [= <-].
  destruct (map_res_related with_bytes same (fun x y => x.1 = y.1) _ _ _ F Eb) as (bs' & Eb' & HF).
  { intros a b x Ha Hab [Hx <-]%with_bytes_ok. exists (x.1, b). split; [|done]. apply with_bytes_ok. split; [|done]. by eapply same_enc. }
  destruct (perm_map_res _ _ ys _ Eb') as (bs'' & P'' & ->); [by symmetry|]. cbn. eexists. split; [done|].
  assert (Ef : map fst (isort bytes_first bs) = map fst (isort bytes_first bs'')).
  { rewrite <- !(isort_map bytes_first shorter fst) by done. apply isort_unique; [apply shorter_trans|apply shorter_total| |].
    - assert (map fst bs = map fst bs') as ->; [|by rewrite P'']. clear -HF. induction HF; cbn; congruence.
    - intros x y _ _. apply shorter_antisym. }
  apply Forall2_map_eq in Ef. apply Forall2_fmap_2. destruct (with_bytes_all _ _ Eb) as [H1 E1], (with_bytes_all _ _ Eb') as [H2 _].
  assert (H1' : Forall (fun x => enc x.2 = Ok x.1 ∧ distinct_keys x.2) (isort bytes_first bs)).
  { rewrite isort_perm. subst xs. apply Forall_and. split; [done|]. exact (proj1 (Forall_fmap _ _ _) Hd). }
  assert (H2' : Forall (fun x => enc x.2 = Ok x.1) (isort bytes_first bs'')) by (by rewrite isort_perm, P'').
  clear -Ef H1' H2'. revert H1' H2'. induction Ef as [|x y l m E _ IH]; intros H1 H2; constructor.
  - apply Forall_cons in H1 as [[H1 Hd] _], H2 as [H2 _]. rewrite <- E in H2. by eapply enc_inj.
  - apply Forall_cons in H1 as [_ H1], H2 as [_ H2]. auto.
Qed.

Lemma forallb_keys_perm (d e : list (option text * value)) : map fst d ≡ₚ map fst e →
  forallb (fun e => key_ok e.1) d = forallb (fun e => key_ok e.1) e.
Proof.
  intros P. assert (H : ∀ l : list (option text * value), forallb (fun e => key_ok e.1) l = forallb key_ok (map fst l))
    by (intros l; induction l as [|x l IH]; cbn; congruence).
  rewrite !H. apply eq_bool_prop_intro. rewrite !Is_true_true, !forallb_forall. split; intros Hf x Hx%list_elem_of_In;
    apply Hf, list_elem_of_In; [by rewrite P | by rewrite <- P].
Qed.

Lemma semantic_same v : ∀ v' w, distinct_keys v → same v v' → semantic_value v = Ok w → ∃ w', semantic_value v' = Ok w' ∧ same w w'.
Proof.
  induction v as [|b|z|s|b|f| |l IH|d IH|l IH] using value_nested_ind; intros v' w Hd Hs H; invert Hs; cbn in H |- *;
    try (injection H as <-; eexists; split; [done|]; by constructor); try done; try rewrite Forall_forall in IH.
  - injection H as <-. eexists. split; [done|]. eapply same_dict; [nodup_keys|reflexivity|]. repeat constructor.
  - destruct (map_res _ l) as [xs|] eqn:Exs; [|done]. injection H as <-. cbn in Hd. apply Forall_and_fold in Hd. rewrite Forall_forall in Hd.
    destruct (map_res_related _ same same _ _ _ H1 Exs) as (ys & -> & F); [intros a b x Ha; exact (IH a Ha b x (Hd a Ha))|].
    eexists. split; [done|]. by constructor.
  - destruct (forallb _ d) eqn:Hk; [|done]. cbn in H. destruct (map_res _ d) as [xs|] eqn:Exs; [|done]. injection H as <-.
    destruct Hd as [Hn Hd%Forall_and_fold]. rewrite Forall_forall in Hd.
    destruct (map_res_related _ _ (fun x y => x.1 = y.1 ∧ same x.2 y.2) _ _ _ H3 Exs) as (ys & Eys & F).
    { intros [k a] [k' b] y Ha [E Hab] Ey. cbn in *. subst k'. destruct (semantic_value a) as [a'|] eqn:Ea; [|done]. injection Ey as <-.
      destruct (IH _ Ha b a' (Hd _ Ha) Hab Ea) as (b' & -> & Hb). cbn. eauto. }
    destruct (perm_map_res _ _ e _ Eys) as (zs & Pz & Ez); [by symmetry|].
    rewrite <- (forallb_keys_perm d e), Hk.
    + cbn [require mbind res_bind]. rewrite Ez. cbn [mbind res_bind]. eexists. split; [done|]. apply (same_dict _ _ ys); [|by symmetry|done].
      apply map_res_Forall2 in Exs. rewrite <- (Forall2_keys _ fst fst _ _ Exs); [done|]. intros [k x] y. cbn.
      destruct (semantic_value x); [|done]. by intros [= <-].
    + rewrite (Forall2_keys _ fst fst _ _ H3) by (by intros x y [? _]). by apply Permutation_map.
  - destruct (map_res _ l) as [xs|] eqn:Exs; [|done]. cbn in H. destruct (sort_values xs) as [zs|] eqn:Ez; [|done]. injection H as <-.
    cbn in Hd. apply Forall_and_fold in Hd. rewrite Forall_forall in Hd.
    destruct (map_res_related _ same same _ _ _ H2 Exs) as (ys & Eys & F); [intros a b x Ha; exact (IH a Ha b x (Hd a Ha))|].
    destruct (perm_map_res _ _ m _ Eys) as (ys' & Py & ->); [by symmetry|]. cbn [mbind res_bind].
    destruct (sort_values_same xs ys' ys zs) as (zs' & -> & Fz); [|done|by symmetry|done|].
    { eapply Forall_of_map_res; [exact Exs|]. intros a x Ha Ex. by eapply semantic_distinct; [apply (Hd a Ha)|]. }
    eexists. split; [done|]. by constructor.
Qed.

(** C30: the normalisation of a semantic payload.  It returns a value without floats,
    sets or opaque objects, which it leaves alone when it meets it again; the
    result does not depend on the order of sets and dictionaries; and two
    canonical finite floats are told apart. *)
Theorem semantic_value_normalises v w (Hd : distinct_keys v) (Hv : semantic_value v = Ok w) :
  plain w ∧ semantic_value w = Ok w
  ∧ (∀ v', same v v' → ∃ w', semantic_value v' = Ok w' ∧ same w w')
  ∧ (∀ f g, valid f = true → valid g = true → is_finite f = true → is_finite g = true →
       semantic_value (VFloat f) = semantic_value (VFloat g) → f = g).
Proof.
  pose proof (semantic_value_plain v w Hv) as Hp. split_and!; [done|by apply semantic_plain| |].
  - intros v' Hs. by eapply semantic_same.
  - intros f g Hf Hg Ff Fg E. cbn in E. unfold binary64_value in E. injection E as E. apply ascii_text_inj in E.
    pose proof (fromhex_hex f Hf Ff) as H1. rewrite E, fromhex_hex in H1 by done. congruence.
Qed.

(** Every set is hashed as a list and every float as a mapping: a tagged mapping
    and a float, or a set and its sorted list, have one semantic identity. *)
Lemma semantic_value_collides :
  semantic_value (VFloat (float_of_Z 1)) = semantic_value (VDict [(Some (ascii_text "binary64"), VStr (ascii_text "0x1.0000000000000p+0"))])
  ∧ semantic_value (VSet [VInt 2; VInt 1]) = semantic_value (VList [VInt 1; VInt 2]).
Proof. split; vm_compute; reflexivity. Qed.

Lemma semantic_value_normalises_witness :
  ∃ w, semantic_value (VDict [(Some (ascii_text "x"), VSet [VFloat (float_of_Z 2); VInt 7])]) = Ok w ∧ plain w ∧ semantic_value w = Ok w.
Proof.
  exists (VDict [(Some (ascii_text "x"), VList [VInt 7; binary64_value (float_of_Z 2)])]).
  assert (E : semantic_value (VDict [(Some (ascii_text "x"), VSet [VFloat (float_of_Z 2); VInt 7])])
              = Ok (VDict [(Some (ascii_text "x"), VList [VInt 7; binary64_value (float_of_Z 2)])])) by (vm_compute; reflexivity).
  split; [exact E|].
  assert (Hd : distinct_keys (VDict [(Some (ascii_text "x"), VSet [VFloat (float_of_Z 2); VInt 7])])) by (split; [nodup_keys | done]).
  destruct (semantic_value_normalises _ _ Hd E) as (H1 & H2 & _). by split.
Defined.

(** ** Programs *)

Definition field (key : string) : option text := Some (ascii_text key).
Definition BLOCK_KEYS : list (option text) := map field ["cond_block"; "body_block"; "apply_block"; "residual_block"].
Definition NODE_KEYS : list (option text) := map field ["id"; "vtype"; "op"; "block"; "state"; "point"; "inputs"; "attrs"].
Definition NODE_OPTIONAL : list (option text) := map field ["space"; "field_context"].

(** [set(row) == ...] and [expected.issubset(row)] *)
Definition subset (a b : list (option text)) : bool := forallb (fun k => bool_decide (k ∈ b)) a.

(** [{key: row[key] for key in keys}] of keys that are there, and of those that
    may be. *)
Definition select (keys : list (option text)) (d : list (option text * value)) : list (option text * value) :=
  omap (fun k => v ← dget k d; Some (k, v)) keys.

Definition is_none (v : value) : bool := match v with VNone => true | _ => false end.

(** [[_semantic_node(node) for node in block]]; the elements of a text or of a
    dictionary are no nodes. *)
Definition each_node (f : value → res value) (block : value) : res (list value) :=
  match block with
  | VList nodes | VSet nodes => map_res f nodes
  | VStr [] | VBytes [] | VDict [] => Ok []
  | _ => Err TypeError
  end.

(** The loop of [_semantic_node] over the bodies, where they stand in [attrs]. *)
Definition semantic_attr (f : value → res value) (x : option text * value) : res (option text * value) :=
  if bool_decide (x.1 ∈ BLOCK_KEYS) && negb (is_none x.2) then l ← each_node f x.2; Ok (x.1, VList l) else Ok x.

Definition semantic_entry (f : value → res value) (e : option text * value) : res (option text * value) :=
  if bool_decide (e.1 = field "attrs") then
    match e.2 with VDict a => a ← map_res (semantic_attr f) a; Ok (e.1, VDict a) | _ => Err AttributeError end
  else Ok e.

(** [_semantic_node] *)
Fixpoint semantic_node (row : value) : res value :=
  match row with
  | VDict d =>
      _ ← require (subset (field "name" :: NODE_KEYS) (map fst d)
                   && subset (map fst d) (field "name" :: NODE_KEYS ++ NODE_OPTIONAL)) TypeError;
      d ← map_res (semantic_entry semantic_node) d;
      Ok (VDict (select (NODE_KEYS ++ NODE_OPTIONAL) d))
  | _ => Err TypeError
  end.

(** Python's [==] on the projected values, which hold no other objects. *)
Definition as_number (v : value) : option (Z + float) :=
  match v with VBool b => Some (inl (Z.b2z b)) | VInt z => Some (inl z) | VFloat f => Some (inr f) | _ => None end.
Definition number_equal (a b : Z + float) : bool :=
  match a, b with
  | inl x, inl y => x =? y
  | inr f, inr g => feqb f g
  | inl x, inr f | inr f, inl x => is_finite f && bool_decide (float_value f = qz x)
  end.
Fixpoint py_equal (a b : value) {struct a} : bool :=
  match a, b with
  | VNone, VNone => true
  | VStr s, VStr t => bool_decide (s = t)
  | VBytes s, VBytes t => bool_decide (s = t)
  | VList l, VList m =>
      (fix go l m := match l, m with [], [] => true | x :: l, y :: m => py_equal x y && go l m | _, _ => false end) l m
  | VDict d, VDict e =>
      subset (map fst e) (map fst d)
      && (fix go d := match d with [] => true | x :: d => match dget x.1 e with Some w => py_equal x.2 w | None => false end && go d end) d
  | VSet l, VSet m =>
      (length l =? length m)%nat
      && (fix go l := match l with [] => true | x :: l => existsb (fun y => py_equal x y) m && go l end) l
  | _, _ => match as_number a, as_number b with Some x, Some y => number_equal x y | _, _ => false end
  end.

Definition same_keyset (a b : list (option text)) : bool := subset a b && subset b a.
Definition get_equals (key : string) (d : list (option text * value)) (v : value) : bool :=
  py_equal (default VNone (dget (field key) d)) v.

(** [_drop_program_presentation] *)
Definition is_program_clock (d : list (option text * value)) (owner : value) : bool :=
  same_keyset (map fst d) (map field ["schema_version"; "name"; "owner"])
  && get_equals "schema_version" d (VInt 1) && get_equals "owner" d owner.
Definition is_stage_point (d : list (option text * value)) : bool :=
  (same_keyset (map fst d) (map field ["schema_version"; "name"; "partitions"])
   || same_keyset (map fst d) (map field ["schema_version"; "name"; "partitions"; "identity"]))
  && get_equals "schema_version" d (VInt 1)
  && match dget (field "partitions") d with Some (VDict _) => true | _ => false end.

Fixpoint drop_program_presentation (v owner : value) {struct v} : value :=
  match v with
  | VDict d =>
      if negb (is_none owner) && py_equal v owner then VNone
      else
        let clock := is_program_clock d owner in
        let stage := is_stage_point d in
        VDict (omap (fun e =>
                 if stage && bool_decide (e.1 = field "name") then None
                 else Some (e.1, if clock && bool_decide (e.1 = field "owner") then VNone else drop_program_presentation e.2 owner)) d)
  | VList l => VList (map (fun x => drop_program_presentation x owner) l)
  | _ => v
  end.

Definition PROGRAM_KEYS : list (option text) := map field ["version"; "clock"; "nodes"; "commits"; "block_order"].
Definition PROGRAM_COPIED : list (option text) :=
  map field ["histories"; "history_contracts"; "history_persistence"; "step_transaction"; "cadence"; "cell_local_time";
             "post_synchronization_commits"].

Definition semantic_nodes (v : value) : res value := l ← each_node semantic_node v; Ok (VList l).

(** The projection of [dt_bound]. *)
Definition semantic_bound (v : value) : res value :=
  match v with
  | VDict d =>
      _ ← require (same_keyset (map fst d) (map field ["nodes"; "result"])) TypeError;
      nodes ← semantic_nodes (default VNone (dget (field "nodes") d));
      Ok (VDict [(field "nodes", nodes); (field "result", default VNone (dget (field "result") d))])
  | _ => Err TypeError
  end.

(** [program_semantic_data] of the serialized Program. *)
Definition program_semantic_data (serialized : list (option text * value)) : res value :=
  let keys := map fst serialized in
  _ ← require (subset (field "name" :: PROGRAM_KEYS) keys
               && subset keys (field "name" :: PROGRAM_KEYS ++ field "dt_bound" :: PROGRAM_COPIED)) TypeError;
  match dget (field "clock") serialized with
  | Some (VDict clock) =>
      nodes ← semantic_nodes (default VNone (dget (field "nodes") serialized));
      bound ← match dget (field "dt_bound") serialized with
              | Some b => x ← semantic_bound b; Ok [(field "dt_bound", x)]
              | None => Ok []
              end;
      let result := select (map field ["version"; "clock"]) serialized ++ [(field "nodes", nodes)]
                    ++ select (map field ["commits"; "block_order"]) serialized ++ select PROGRAM_COPIED serialized ++ bound in
      semantic_value (drop_program_presentation (VDict result) (default VNone (dget (field "owner") clock)))
  | _ => Err AttributeError
  end.

(** ** Models *)

(** [{key: row[key] for key in sorted(keys)}] *)
Definition take (keys : list (option text)) (row : list (option text * value)) : res (list (option text * value)) :=
  map_res (fun k => match dget k row with Some v => Ok (k, v) | None => Err KeyError end) keys.

(** [{name: {...} for name, row in rows.items()}] *)
Definition take_rows (keys : list string) (rows : value) : res value :=
  match rows with
  | VDict d =>
      l ← map_res (fun e => match e.2 with
                            | VDict row => r ← take (map field keys) row; Ok (e.1, VDict r)
                            | _ => Err TypeError
                            end) d;
      Ok (VDict l)
  | _ => Err AttributeError
  end.

Definition space_rows (rows : value) (state : bool) : res value :=
  take_rows (if state
             then ["centering"; "clock"; "components"; "domain"; "frame"; "layout"; "representation"; "roles"; "sampling"; "storage";
                   "support"; "units"; "value_shape"]
             else ["centering"; "clock"; "components"; "domain"; "frame"; "layout"; "representation"; "sampling"; "support"; "units";
                   "value_shape"]) rows.
Definition aux_rows : value → res value :=
  take_rows ["aux_kind"; "centering"; "clock"; "frame"; "representation"; "unit"].
Definition parameter_rows : value → res value := take_rows ["domain"; "kind"; "storage"; "unit"].

Definition MANIFEST_KEYS : list (option text) :=
  map field ["schema_version"; "name"; "owner_path"; "state_spaces"; "field_spaces"; "params"; "params_utilization"; "aux"; "provider_pack";
             "has_eigenvalues"; "wave_speed_provider"; "operators"; "operator_aliases"; "operator_bindings"; "capabilities"; "native_routes";
             "native_catalog"; "abi_requirements"; "expressions"].
Definition OPERATOR_KEYS : list (option text) :=
  map field ["id"; "name"; "kind"; "qid"; "handle"; "signature"; "inputs"; "output"; "capabilities"; "requirements"; "lowering_route";
             "provenance"].
Definition OPERATOR_SEMANTIC : list (option text) :=
  map field ["id"; "name"; "kind"; "handle"; "signature"; "capabilities"; "requirements"].
Definition OPERATOR_DIGESTS : list (option text) := map field ["body_hash"; "content_hash"].

(** The row of an operator, with the digests it has. *)
Definition operator_row (row : value) : res value :=
  match row with
  | VDict d =>
      let digests := List.filter (fun k => bool_decide (k ∈ map fst d)) OPERATOR_DIGESTS in
      _ ← require (same_keyset (map fst d) (OPERATOR_KEYS ++ digests)) TypeError;
      r ← take (OPERATOR_SEMANTIC ++ digests) d; Ok (VDict r)
  | _ => Err TypeError
  end.

(** [model_semantic_data] of the module's manifest and hash.  The rows of a
    manifest are dictionaries. *)
Definition model_semantic_data (manifest : list (option text * value)) (module_hash : value) : res value :=
  _ ← require (same_keyset (map fst manifest) MANIFEST_KEYS) TypeError;
  let item key := default VNone (dget (field key) manifest) in
  operators ← each_node operator_row (item "operators");
  state ← space_rows (item "state_spaces") true;
  fields ← space_rows (item "field_spaces") false;
  aux ← aux_rows (item "aux");
  parameters ← parameter_rows (item "params");
  semantic_value (VDict
    [(field "owner", item "owner_path");
     (field "spaces", VDict [(field "state", state); (field "field", fields); (field "aux", aux)]);
     (field "parameters", parameters);
     (field "providers", item "provider_pack");
     (field "operators", VList operators);
     (field "operator_aliases", item "operator_aliases");
     (field "operator_bindings", item "operator_bindings");
     (field "has_eigenvalues", item "has_eigenvalues");
     (field "wave_speed_provider", item "wave_speed_provider");
     (field "expressions", item "expressions");
     (field "component_digests", VDict [(field "module", module_hash)])]).

(** What a model offers: its own payload ([_semantic_data]), or the manifest of its
    module. *)
Inductive semantic_model :=
| Protocol (payload : value)
| Manifest (manifest : list (option text * value)) (module_hash : value).

Definition model_data (m : semantic_model) : res value :=
  match m with
  | Protocol (VDict d) => _ ← require (bool_decide (field "kind" ∈ map fst d)) TypeError; semantic_value (VDict d)
  | Protocol _ => Err TypeError
  | Manifest manifest module_hash => model_semantic_data manifest module_hash
  end.

(** [semantic_identity_of] of exactly one authority: a snapshot by the identity it
    carries, a model, or the serialization of a Program. *)
Definition semantic_identity_of (SEMANTIC_SCHEMA_VERSION : Z) (snapshot : option Identity) (model : option semantic_model)
    (program : option (list (option text * value))) : res Identity :=
  match snapshot, model, program with
  | Some i, None, None => require_identity i "semantic"
  | None, Some m, None => d ← model_data m; semantic_identity SEMANTIC_SCHEMA_VERSION d
  | None, None, Some p => d ← program_semantic_data p; semantic_identity SEMANTIC_SCHEMA_VERSION d
  | _, _, _ => Err TypeError
  end.
