(* ===== verification/SemanticNames.v ===== *)
(** * Names do not identify a Program

    What [program_semantic_data] of [python/pops/identity/semantic.py] drops: the names of
    a Program, of its nodes, of its stage points and of the owner of its clock.  A Program
    under another presentation is given by a relation on serialized data that does not
    mention the projection. *)
From S2P Require Import Prelude Bytes CanonicalCbor NativeIdentity Sha256 Identity SemanticIdentity.

(** ** Another presentation *)

(** The keys of [OwnerPath.to_data] and of [StagePoint.to_data]. *)
Definition OWNER_KEYS : list (option text) := map field ["schema_version"; "nodes"; "definition_fingerprint"].
Definition stage_data (d : list (option text * value)) : Prop :=
  (map fst d ≡ₚ map field ["schema_version"; "name"; "partitions"]
   ∨ map fst d ≡ₚ map field ["schema_version"; "name"; "partitions"; "identity"])
  ∧ dget (field "schema_version") d = Some (VInt 1) ∧ ∃ p, dget (field "partitions") d = Some (VDict p).

(** The attributes that hold the nodes of a loop body, of the condition of a loop, of an
    operator and of a residual. *)
Definition BODIES : list (option text) := map field ["body_block"; "cond_block"; "residual_block"; "apply_block"].

Definition scalar (v : value) : Prop := match v with VDict _ | VList _ => False | _ => True end.

Section Presentation.
(** The owner path of the Program's clock, before and after. *)
Context (o o' : list (option text * value)).

(** The same data of two presentations of a Program. *)
Inductive shows : value → value → Prop :=
| shows_owner d d' : py_equal (VDict d) (VDict o) = true → py_equal (VDict d') (VDict o') = true → shows (VDict d) (VDict d')
| shows_stage d d' : py_equal (VDict d) (VDict o) = false → py_equal (VDict d') (VDict o') = false → stage_data d →
    Forall2 shows_unnamed d d' → shows (VDict d) (VDict d')
| shows_dict d d' : py_equal (VDict d) (VDict o) = false → py_equal (VDict d') (VDict o') = false →
    Forall2 shows_entry d d' → shows (VDict d) (VDict d')
| shows_list l l' : Forall2 shows l l' → shows (VList l) (VList l')
| shows_scalar v : scalar v → shows v v
with shows_entry : option text * value → option text * value → Prop :=
| entry_shows k v v' : shows v v' → shows_entry (k, v) (k, v')
with shows_unnamed : option text * value → option text * value → Prop :=
| unnamed_name v v' : shows_unnamed (field "name", v) (field "name", v')
| unnamed_other k v v' : k ≠ field "name" → shows v v' → shows_unnamed (k, v) (k, v').

(** A serialized node under another name, and the nodes of its bodies. *)
Inductive renamed : value → value → Prop :=
| renamed_node d d' : Forall2 renamed_entry d d' → renamed (VDict d) (VDict d')
with renamed_entry : option text * value → option text * value → Prop :=
| renamed_name v v' : renamed_entry (field "name", v) (field "name", v')
| renamed_attrs a a' : field "nodes" ∉ map fst a → Forall2 renamed_attr a a' → renamed_entry (field "attrs", VDict a) (field "attrs", VDict a')
| renamed_other k v v' : k ≠ field "name" → k ≠ field "attrs" → shows v v' → renamed_entry (k, v) (k, v')
with renamed_attr : option text * value → option text * value → Prop :=
| renamed_body k l l' : k ∈ BODIES → Forall2 renamed l l' → renamed_attr (k, VList l) (k, VList l')
| renamed_no_body k : k ∈ BODIES → renamed_attr (k, VNone) (k, VNone)
| renamed_value k v v' : k ∉ BODIES → shows v v' → renamed_attr (k, v) (k, v').

(** The serialization of a Program under another presentation. *)
Inductive presented_bound : option text * value → option text * value → Prop :=
| bound_nodes l l' : Forall2 renamed l l' → presented_bound (field "nodes", VList l) (field "nodes", VList l')
| bound_other k v v' : k ≠ field "nodes" → shows v v' → presented_bound (k, v) (k, v').
Inductive presented_entry : option text * value → option text * value → Prop :=
| presented_name v v' : presented_entry (field "name", v) (field "name", v')
| presented_nodes l l' : Forall2 renamed l l' → presented_entry (field "nodes", VList l) (field "nodes", VList l')
| presented_dt_bound b b' : Forall2 presented_bound b b' → presented_entry (field "dt_bound", VDict b) (field "dt_bound", VDict b')
| presented_clock c c' : shows (VDict c) (VDict c') → dget (field "owner") c = Some (VDict o) → dget (field "owner") c' = Some (VDict o') →
    presented_entry (field "clock", VDict c) (field "clock", VDict c')
| presented_other k v v' : k ∉ map field ["name"; "nodes"; "dt_bound"; "clock"] → shows v v' → presented_entry (k, v) (k, v').
Definition presented (s s' : list (option text * value)) : Prop := Forall2 presented_entry s s'.

(** ** Dictionaries *)

Definition entrywise (R : option text → value → value → Prop) (e e' : option text * value) : Prop := e.1 = e'.1 ∧ R e.1 e.2 e'.2.

Lemma entrywise_keys R d d' : Forall2 (entrywise R) d d' → map fst d = map fst d'.
Proof. intros H. eapply Forall2_keys; [exact H|]. by intros x y [? _]. Qed.

Lemma entrywise_dget R k d d' : Forall2 (entrywise R) d d' →
  (dget k d = None ∧ dget k d' = None) ∨ ∃ v v', dget k d = Some v ∧ dget k d' = Some v' ∧ R k v v'.
Proof.
  induction 1 as [|[k1 v1] [k2 v2] d d' [E HR] _ IH]; [by left|]. cbn in E, HR. subst k2. cbn. case_decide; [|done]. subst. right. eauto.
Qed.

Lemma shows_entry_spec e e' : shows_entry e e' ↔ entrywise (fun _ => shows) e e'.
Proof. split; [by inversion 1|]. destruct e, e'. intros [E H]. cbn in *. subst. by constructor. Qed.

Lemma shows_unnamed_spec e e' : shows_unnamed e e' ↔ entrywise (fun k v v' => k ≠ field "name" → shows v v') e e'.
Proof.
  split; [by inversion 1; subst|]. destruct e as [k v], e' as [k' v']. intros [E H]. cbn in *. subst k'.
  destruct (decide (k = field "name")) as [->|Hk]; [constructor|]. constructor; auto.
Qed.

Lemma Forall2_spec {A B} (P Q : A → B → Prop) l m : (∀ x y, P x y ↔ Q x y) → Forall2 P l m → Forall2 Q l m.
Proof. intros H F. eapply Forall2_impl; [exact F|]. intros x y. apply H. Qed.

Lemma field_inj a b : field a = field b → a = b.
Proof. intros [= E]. by apply ascii_text_inj. Qed.

(** ** Dropping the presentation *)

Lemma shows_equal v v' : shows v v' → py_equal v (VDict o) = py_equal v' (VDict o').
Proof. intros H. inversion H as [d d' E E'|d d' E E'|d d' E E'| |w Hw]; subst; try congruence; [done|by destruct v']. Qed.

Lemma shows_int v v' z : shows v v' → py_equal v (VInt z) = py_equal v' (VInt z).
Proof. by inversion 1. Qed.

Lemma shows_is_dict v v' : shows v v' → match v with VDict _ => true | _ => false end = match v' with VDict _ => true | _ => false end.
Proof. by inversion 1. Qed.

Lemma keyset_perm (d : list (option text * value)) l : map fst d ≡ₚ l → same_keyset (map fst d) l = true.
Proof.
  intros P. unfold same_keyset, subset. apply andb_true_iff. split; apply forallb_forall; intros k Hk%list_elem_of_In; apply bool_decide_eq_true.
  - by rewrite <- P.
  - by rewrite P.
Qed.

Lemma stage_data_point d : stage_data d → is_stage_point d = true.
Proof.
  intros (Hk & Hv & p & Hp). unfold is_stage_point, get_equals. rewrite Hv, Hp. cbn [default py_equal as_number number_equal]. rewrite !andb_true_r.
  destruct Hk as [Hk|Hk]; rewrite (keyset_perm _ _ Hk); [done|apply orb_true_r].
Qed.

Section Drop.
Context (d d' : list (option text * value)).
Context (named : bool) (Hd : Forall2 (entrywise (fun k v v' => (named = true → k ≠ field "name") → shows v v')) d d').

Lemma drop_get key z : key ≠ "name" → get_equals key d (VInt z) = get_equals key d' (VInt z).
Proof.
  intros Hk. unfold get_equals. destruct (entrywise_dget _ (field key) d d' Hd) as [[-> ->]|(v & v' & -> & -> & H)]; [done|]. cbn [default from_option id].
  apply shows_int, H. intros _ E%field_inj. done.
Qed.

Lemma drop_stage : is_stage_point d = is_stage_point d'.
Proof.
  unfold is_stage_point. rewrite (entrywise_keys _ d d' Hd), (drop_get "schema_version") by done. f_equal.
  destruct (entrywise_dget _ (field "partitions") d d' Hd) as [[-> ->]|(v & v' & -> & -> & H)]; [done|].
  rewrite <- (shows_is_dict v v'); [by destruct v|]. apply H. intros _ E%field_inj. done.
Qed.

Lemma drop_clock : is_program_clock d (VDict o) = is_program_clock d' (VDict o').
Proof.
  unfold is_program_clock. rewrite (entrywise_keys _ d d' Hd), (drop_get "schema_version") by done. f_equal. unfold get_equals.
  destruct (entrywise_dget _ (field "owner") d d' Hd) as [[-> ->]|(v & v' & -> & -> & H)]; [done|]. cbn [default from_option id].
  apply shows_equal, H. intros _ E%field_inj. done.
Qed.
End Drop.

Lemma omap_Forall2 {A B C} (f : A → option C) (g : B → option C) l m : Forall2 (fun x y => f x = g y) l m → omap f l = omap g m.
Proof. induction 1 as [|x y l m E _ IH]; [done|]. cbn. by rewrite E, IH. Qed.

Lemma map_Forall2 {A B C} (f : A → C) (g : B → C) l m : Forall2 (fun x y => f x = g y) l m → map f l = map g m.
Proof. induction 1 as [|x y l m E _ IH]; [done|]. cbn. by rewrite E, IH. Qed.

Lemma Forall2_with_left {A B} (P : A → B → Prop) l m : Forall2 P l m → Forall2 (fun x y => x ∈ l ∧ P x y) l m.
Proof.
  induction 1 as [|x y l m H _ IH]; constructor; [split; [left|done]|]. eapply Forall2_impl; [exact IH|]. intros a b [? ?]. split; [by right|done].
Qed.

Lemma shows_drop v : ∀ v', shows v v' → drop_program_presentation v (VDict o) = drop_program_presentation v' (VDict o').
Proof.
  induction v as [|b|z|s|b|f| |l IH|d IH|l IH] using value_nested_ind; intros v' H; try (inversion H; subst; done); try rewrite Forall_forall in IH.
  - inversion H as [| | |? l' F|]; subst; [|done]. cbn [drop_program_presentation]. f_equal. apply Forall2_with_left in F.
    apply map_Forall2. eapply Forall2_impl; [exact F|]. intros x y [Hx Hs]. by apply IH.
  - inversion H as [? d' E E'|? d' E E' Hst F|? d' E E' F| |]; subst; [| | |done]; cbn [drop_program_presentation is_none negb andb]; rewrite E, E'; [done| |].
    + apply (Forall2_spec _ _ _ _ shows_unnamed_spec) in F.
      assert (F' : Forall2 (entrywise (fun k v v' => (true = true → k ≠ field "name") → shows v v')) d d').
      { eapply Forall2_impl; [exact F|]. intros x y [? Hx]. split; [done|]. auto. }
      rewrite <- (drop_stage d d' true F'), <- (drop_clock d d' true F'), (stage_data_point d Hst). cbn [andb]. f_equal. apply omap_Forall2.
      apply Forall2_with_left in F. eapply Forall2_impl; [exact F|]. intros x y [Hx [Ek Hs]]. rewrite <- Ek. case_bool_decide as En; [done|].
      f_equal. f_equal. destruct (_ && _); [done|]. by apply IH; [|apply Hs].
    + apply (Forall2_spec _ _ _ _ shows_entry_spec) in F.
      assert (F' : Forall2 (entrywise (fun k v v' => (false = true → k ≠ field "name") → shows v v')) d d').
      { eapply Forall2_impl; [exact F|]. intros x y [? Hx]. by split. }
      rewrite <- (drop_stage d d' false F'), <- (drop_clock d d' false F'). f_equal. apply omap_Forall2.
      apply Forall2_with_left in F. eapply Forall2_impl; [exact F|]. intros x y [Hx [Ek Hs]]. rewrite <- Ek. destruct (_ && _); [done|].
      f_equal. f_equal. destruct (_ && _); [done|]. by apply IH.
Qed.

(** ** The projection *)

(** Two results: both values, related, or one exception. *)
Definition agrees {A B} (R : A → B → Prop) (a : res A) (b : res B) : Prop :=
  match a, b with Ok x, Ok y => R x y | Err x, Err y => x = y | _, _ => False end.

Lemma agrees_bind {A B C D} (R : A → B → Prop) (S : C → D → Prop) a b (f : A → res C) (g : B → res D) :
  agrees R a b → (∀ x y, R x y → agrees S (f x) (g y)) → agrees S (x ← a; f x) (y ← b; g y).
Proof. destruct a, b; cbn; intros Hr H; try done; by apply H. Qed.

Lemma map_res_agrees {A B C D} (R : C → D → Prop) (f : A → res C) (g : B → res D) l m :
  Forall2 (fun x y => agrees R (f x) (g y)) l m → agrees (Forall2 R) (map_res f l) (map_res g m).
Proof.
  induction 1 as [|x y l m H _ IH]; [constructor|]. cbn [map_res]. eapply agrees_bind; [exact H|]. intros a b Hab.
  eapply agrees_bind; [exact IH|]. intros k n F. by constructor.
Qed.

Hypothesis owner_keys : map fst o = OWNER_KEYS.
Hypothesis owner_keys' : map fst o' = OWNER_KEYS.

Lemma not_owner (d e : list (option text * value)) k : map fst e = OWNER_KEYS → k ∈ OWNER_KEYS → k ∉ map fst d → py_equal (VDict d) (VDict e) = false.
Proof.
  intros He Hk Hd. cbn [py_equal]. apply andb_false_iff. left. apply not_true_is_false. unfold subset. rewrite forallb_forall. intros H.
  rewrite He in H. specialize (H k (proj1 (list_elem_of_In _ _) Hk)). by apply bool_decide_eq_true in H.
Qed.

Lemma not_owner_extra (d e : list (option text * value)) k : map fst e = OWNER_KEYS → k ∉ OWNER_KEYS → k ∈ map fst d → py_equal (VDict d) (VDict e) = false.
Proof.
  intros He Hk Hd. cbn [py_equal]. apply andb_false_iff. right. induction d as [|[k' v] d IH]; [by apply elem_of_nil in Hd|].
  cbn [map fst] in Hd. apply elem_of_cons in Hd as [<-|Hd]; [|rewrite IH by done; apply andb_false_r]. cbn [fst].
  destruct (dget k e) eqn:Ek; [|done]. apply dget_Some_elem in Ek. destruct Hk. rewrite <- He. by apply (list_elem_of_fmap_2 fst) in Ek.
Qed.

Lemma bodies_keys k : k ∈ BODIES ↔ k ∈ BLOCK_KEYS.
Proof. unfold BODIES, BLOCK_KEYS. cbn. rewrite !elem_of_cons, elem_of_nil. tauto. Qed.

Section Node.
Context (f : value → res value).

Lemma each_node_agrees l l' : Forall2 (fun x y => agrees shows (f x) (f y)) l l' →
  agrees (Forall2 shows) (each_node f (VList l)) (each_node f (VList l')).
Proof. apply map_res_agrees. Qed.

Lemma semantic_attr_agrees x y : renamed_attr x y → (∀ v v', (value_rank v < value_rank x.2)%nat → renamed v v' → agrees shows (f v) (f v')) →
  agrees shows_entry (semantic_attr f x) (semantic_attr f y).
Proof.
  intros H IH. inversion H as [k l l' Hk F|k Hk|k v v' Hk Hs]; subst; unfold semantic_attr; cbn [fst snd].
  - apply bodies_keys in Hk. rewrite (bool_decide_true (k ∈ BLOCK_KEYS)) by done. cbn [andb is_none negb].
    eapply agrees_bind; [apply each_node_agrees; apply Forall2_with_left in F; eapply Forall2_impl; [exact F|]|].
    + intros v v' [Hv Hr]. apply IH; [|done]. cbn. by apply rank_member.
    + intros m m' Hm. cbn. constructor. by constructor.
  - rewrite andb_false_r. cbn. constructor. by constructor.
  - rewrite bodies_keys in Hk. rewrite bool_decide_false by done. cbn. by constructor.
Qed.

Lemma semantic_entry_agrees x y : renamed_entry x y → (∀ v v', (value_rank v < value_rank x.2)%nat → renamed v v' → agrees shows (f v) (f v')) →
  agrees (entrywise (fun k v v' => k ≠ field "name" → shows v v')) (semantic_entry f x) (semantic_entry f y).
Proof.
  intros H IH. inversion H as [v v'|a a' Hn F|k v v' Hk Ha Hs]; subst; unfold semantic_entry; cbn [fst snd].
  - rewrite bool_decide_false by (by intros E%field_inj). by split.
  - rewrite bool_decide_true by done.
    assert (Hkeys : map fst a = map fst a') by (eapply Forall2_keys; [exact F|]; by inversion 1).
    assert (Hres : ∀ l m : list (option text * value), map_res (semantic_attr f) l = Ok m → map fst m = map fst l).
    { intros l m E%map_res_Forall2. symmetry. eapply Forall2_keys; [exact E|]. intros u w. unfold semantic_attr.
      destruct (_ && _); [|by intros [= <-]]. destruct (each_node f u.2); [|done]. by intros [= <-]. }
    destruct (map_res (semantic_attr f) a) as [m|x] eqn:Em, (map_res (semantic_attr f) a') as [m'|x'] eqn:Em';
      pose proof (map_res_agrees shows_entry (semantic_attr f) (semantic_attr f) a a') as Hm; rewrite Em, Em' in Hm; cbn in Hm |- *;
      (assert (Hg : Forall2 (fun u w => agrees shows_entry (semantic_attr f u) (semantic_attr f w)) a a'); [|specialize (Hm Hg)]); try done;
      try (apply Forall2_with_left in F; eapply Forall2_impl; [exact F|]; intros u w [Hu Hr]; apply semantic_attr_agrees; [done|];
           intros v v' Hv; apply IH; pose proof (rank_entry _ _ Hu); cbn; lia).
    split; [done|]. intros _. apply shows_dict; [apply (not_owner m o (field "nodes") owner_keys)|apply (not_owner m' o' (field "nodes") owner_keys')|done];
      try (unfold OWNER_KEYS; cbn; rewrite !elem_of_cons; tauto); [by rewrite (Hres _ _ Em)|by rewrite (Hres _ _ Em'), <- Hkeys].
  - rewrite bool_decide_false by done. by split.
Qed.
End Node.

Lemma select_shows keys d d' : field "name" ∉ keys → Forall2 (entrywise (fun k v v' => k ≠ field "name" → shows v v')) d d' →
  Forall2 shows_entry (select keys d) (select keys d').
Proof.
  intros Hk F. unfold select. induction keys as [|k keys IH]; [constructor|]. apply not_elem_of_cons in Hk as [Hk Hrest]. cbn.
  destruct (entrywise_dget _ k d d' F) as [[-> ->]|(v & v' & -> & -> & H)]; cbn; [by apply IH|]. constructor; [|by apply IH].
  constructor. apply H. congruence.
Qed.

Lemma select_keys keys (d : list (option text * value)) k : k ∈ map fst (select keys d) ↔ k ∈ keys ∧ k ∈ map fst d.
Proof.
  unfold select. induction keys as [|k' keys IH]; cbn; [rewrite elem_of_nil; tauto|]. rewrite elem_of_cons.
  destruct (dget k' d) as [v|] eqn:E; cbn; rewrite ?elem_of_cons, IH.
  - apply dget_Some_elem, (list_elem_of_fmap_2 fst) in E. cbn in E. split; [intros [->|?]; tauto|intros [[->|?] ?]; tauto].
  - apply dget_None in E. split; [tauto|]. intros [[->|?] ?]; tauto.
Qed.

Lemma semantic_node_agrees v : ∀ v', renamed v v' → agrees shows (semantic_node v) (semantic_node v').
Proof.
  induction v as [v IH] using (induction_ltof1 _ value_rank). unfold ltof in IH. intros v' H. inversion H as [d d' F]; subst. cbn [semantic_node].
  assert (Hkeys : map fst d = map fst d') by (eapply Forall2_keys; [exact F|]; by inversion 1). rewrite <- Hkeys.
  destruct (_ && _) eqn:Eq; [|done]. cbn [require mbind res_bind]. apply andb_true_iff in Eq as [Hsub _].
  assert (Hid : field "id" ∈ map fst d).
  { unfold subset in Hsub. rewrite forallb_forall in Hsub. specialize (Hsub (field "id") ltac:(by right; left)). by apply bool_decide_eq_true in Hsub. }
  assert (Hres : ∀ l m : list (option text * value), map_res (semantic_entry semantic_node) l = Ok m → map fst m = map fst l).
  { intros l m E%map_res_Forall2. symmetry. eapply Forall2_keys; [exact E|]. intros u w. unfold semantic_entry.
    destruct (bool_decide _); [|by intros [= <-]]. destruct u.2; try done. destruct (map_res _ _); [|done]. by intros [= <-]. }
  assert (Hg : agrees (Forall2 (entrywise (fun k v v' => k ≠ field "name" → shows v v')))
    (map_res (semantic_entry semantic_node) d) (map_res (semantic_entry semantic_node) d')).
  { apply map_res_agrees. apply Forall2_with_left in F. eapply Forall2_impl; [exact F|]. intros x y [Hx Hr].
    apply semantic_entry_agrees; [done|]. intros w w' Hw. apply IH. pose proof (rank_entry _ _ Hx). cbn. lia. }
  destruct (map_res _ d) as [m|] eqn:Em, (map_res _ d') as [m'|] eqn:Em'; cbn [agrees mbind res_bind] in Hg |- *; try done.
  assert (Hin : ∀ n, map fst n = map fst d → field "id" ∈ map fst (select (NODE_KEYS ++ NODE_OPTIONAL) n)).
  { intros n Hn. apply select_keys. rewrite Hn. split; [by left|done]. }
  apply shows_dict; [apply (not_owner_extra _ o (field "id") owner_keys)|apply (not_owner_extra _ o' (field "id") owner_keys')|].
  1,3: apply (bool_decide_unpack _); by vm_compute.
  - apply Hin, (Hres _ _ Em).
  - apply Hin. by rewrite (Hres _ _ Em'), <- Hkeys.
  - apply select_shows; [apply (bool_decide_unpack _); by vm_compute|done].
Qed.

Lemma semantic_nodes_agrees l l' : Forall2 renamed l l' → agrees shows (semantic_nodes (VList l)) (semantic_nodes (VList l')).
Proof.
  intros F. unfold semantic_nodes. eapply agrees_bind; [apply each_node_agrees; eapply Forall2_impl; [exact F|]; apply semantic_node_agrees|].
  intros m m' Hm. cbn. by constructor.
Qed.

(** ** The data of a Program *)

Lemma entry_dget_bound k d d' : Forall2 presented_bound d d' →
  (dget k d = None ∧ dget k d' = None) ∨ ∃ v v', dget k d = Some v ∧ dget k d' = Some v' ∧ presented_bound (k, v) (k, v').
Proof.
  induction 1 as [|[k1 v1] [k2 v2] d d' HR _ IH]; [by left|]. assert (k2 = k1) as -> by (by inversion HR). cbn. case_decide; [|done]. subst. right. eauto.
Qed.

Lemma entry_dget k d d' : presented d d' →
  (dget k d = None ∧ dget k d' = None) ∨ ∃ v v', dget k d = Some v ∧ dget k d' = Some v' ∧ presented_entry (k, v) (k, v').
Proof.
  induction 1 as [|[k1 v1] [k2 v2] d d' HR _ IH]; [by left|]. assert (k2 = k1) as -> by (by inversion HR). cbn. case_decide; [|done]. subst. right. eauto.
Qed.

Lemma semantic_bound_agrees b b' : Forall2 presented_bound b b' → agrees shows (semantic_bound (VDict b)) (semantic_bound (VDict b')).
Proof.
  intros F. cbn [semantic_bound]. rewrite (Forall2_keys _ fst fst _ _ F) by (by inversion 1).
  destruct (same_keyset _ _) eqn:Eq; [|done]. cbn [require mbind res_bind].
  assert (Hn : ∀ k, k ∈ map field ["nodes"; "result"] → k ∈ map fst b').
  { unfold same_keyset, subset in Eq. apply andb_true_iff in Eq as [_ Eq]. rewrite forallb_forall in Eq. intros k Hk%list_elem_of_In.
    by apply Eq, bool_decide_eq_true in Hk. }
  destruct (entry_dget_bound (field "nodes") _ _ F) as [[_ Hnone]|(v & v' & -> & -> & Hv)].
  { apply dget_None in Hnone. destruct Hnone. apply Hn. by left. }
  destruct (entry_dget_bound (field "result") _ _ F) as [[_ Hnone]|(r & r' & -> & -> & Hr)].
  { apply dget_None in Hnone. destruct Hnone. apply Hn. right. by left. }
  inversion Hv as [l l' Fl|]; subst; [|congruence]. inversion Hr as [? ? ? Ex|k ? ? Hk Hs]; subst. cbn [default from_option id].
  eapply agrees_bind; [by apply semantic_nodes_agrees|]. intros x y Hxy. cbn.
  apply shows_dict; [apply (not_owner_extra _ o (field "result") owner_keys)|apply (not_owner_extra _ o' (field "result") owner_keys')|].
  1-4: apply (bool_decide_unpack _); by vm_compute.
  repeat constructor; done.
Qed.

Lemma select_presented keys s s' : (∀ k, k ∈ keys → k ∉ map field ["name"; "nodes"; "dt_bound"]) → presented s s' →
  Forall2 shows_entry (select keys s) (select keys s').
Proof.
  intros Hk F. unfold select. induction keys as [|k keys IH]; [constructor|]. cbn.
  specialize (IH ltac:(intros k' Hk'; apply Hk; by right)). specialize (Hk k ltac:(left)).
  destruct (entry_dget k _ _ F) as [[-> ->]|(v & v' & -> & -> & H)]; cbn; [done|]. constructor; [|done].
  inversion H; subst; try (exfalso; apply Hk; cbn; rewrite !elem_of_cons; tauto); by constructor.
Qed.
End Presentation.

(** C31: a presentation does not identify a Program.  Take two serializations that differ
    in the names of the Program, of nodes at any depth of the bodies of loops,
    operators and residuals, and of stage points, and in the owner path of the Program's
    clock wherever it stands: they have one semantic data, and so one semantic identity, or
    are refused alike. *)
Theorem program_names_dropped version o o' s s' (Ho : map fst o = OWNER_KEYS) (Ho' : map fst o' = OWNER_KEYS) (Hs : presented o o' s s') :
  program_semantic_data s = program_semantic_data s'
  ∧ semantic_identity_of version None None (Some s) = semantic_identity_of version None None (Some s').
Proof.
  assert (H : program_semantic_data s = program_semantic_data s'); [|split; [done|]; unfold semantic_identity_of; by rewrite H].
  unfold program_semantic_data. rewrite (Forall2_keys _ fst fst _ _ Hs) by (by inversion 1). destruct (_ && _) eqn:Eq; [|done]. cbn [require mbind res_bind].
  assert (Hin : ∀ k, k ∈ field "name" :: PROGRAM_KEYS → k ∈ map fst s').
  { apply andb_true_iff in Eq as [Eq _]. unfold subset in Eq. rewrite forallb_forall in Eq. intros k Hk%list_elem_of_In. by apply Eq, bool_decide_eq_true in Hk. }
  destruct (entry_dget o o' (field "clock") _ _ Hs) as [[_ Hnone]|(c & c' & Ec & Ec' & Hc)].
  { apply dget_None in Hnone. destruct Hnone. apply Hin. right. right. by left. }
  rewrite Ec, Ec'. inversion Hc as [|? ? F E|? ? F E|k k' Hsc Hoc Hoc'|? ? ? Hk]; subst; [|exfalso; apply Hk; cbn; rewrite !elem_of_cons; tauto].
  rewrite Hoc, Hoc'. cbn [default from_option id].
  destruct (entry_dget o o' (field "nodes") _ _ Hs) as [[_ Hnone]|(n & n' & -> & -> & Hn)].
  { apply dget_None in Hnone. destruct Hnone. apply Hin. right. right. right. by left. }
  inversion Hn as [|l l' Fl| | |? ? ? Hk]; subst; [|exfalso; apply Hk; cbn; rewrite !elem_of_cons; tauto]. cbn [default from_option id].
  pose proof (semantic_nodes_agrees o o' Ho Ho' l l' Fl) as Hns. destruct (semantic_nodes (VList l)) as [ns|], (semantic_nodes (VList l')) as [ns'|]; cbn in Hns; try done; [|by subst].
  cbn [mbind res_bind].
  assert (Hb : agrees (Forall2 (shows_entry o o'))
    (match dget (field "dt_bound") s with Some b => x ← semantic_bound b; Ok [(field "dt_bound", x)] | None => Ok [] end)
    (match dget (field "dt_bound") s' with Some b => x ← semantic_bound b; Ok [(field "dt_bound", x)] | None => Ok [] end)).
  { destruct (entry_dget o o' (field "dt_bound") _ _ Hs) as [[-> ->]|(b & b' & -> & -> & Hb)]; [constructor|].
    inversion Hb as [| |e e' Fe| |? ? ? Hk]; subst; [|exfalso; apply Hk; cbn; rewrite !elem_of_cons; tauto].
    eapply agrees_bind; [apply (semantic_bound_agrees o o' Ho Ho' e e' Fe)|]. intros x y Hxy. cbn. by constructor; [constructor|]. }
  destruct (match dget (field "dt_bound") s with Some _ => _ | None => _ end) as [bound|], (match dget (field "dt_bound") s' with Some _ => _ | None => _ end) as [bound'|];
    cbn in Hb; try done; [|by subst]. cbn [mbind res_bind]. f_equal. apply (shows_drop o o').
  assert (Hver : ∀ (x : list (option text * value)) t, map fst x = map fst s' → field "version" ∈ map fst (select (map field ["version"; "clock"]) x ++ t)).
  { intros x t Hx. rewrite map_app, elem_of_app. left. apply select_keys. rewrite Hx. split; [by left|]. apply Hin. right. by left. }
  apply shows_dict; [apply (not_owner_extra _ o (field "version") Ho)|apply (not_owner_extra _ o' (field "version") Ho')|].
  1,3: apply (bool_decide_unpack _); by vm_compute.
  - apply Hver. eapply Forall2_keys; [exact Hs|]. by inversion 1.
  - by apply Hver.
  - repeat apply Forall2_app; try (apply select_presented; [|done]; apply Forall_forall, (bool_decide_unpack _); by vm_compute); [|done].
    by constructor; [constructor|].
Qed.

(** ** A Program under two names *)

Definition sample_owner (name : string) : list (option text * value) :=
  [(field "schema_version", VInt 2);
   (field "nodes", VList [VDict [(field "kind", VStr (ascii_text "program")); (field "name", VStr (ascii_text name))]]);
   (field "definition_fingerprint", VNone)].
Definition sample_clock (name : string) : value :=
  VDict [(field "schema_version", VInt 1); (field "name", VStr (ascii_text "macro")); (field "owner", VDict (sample_owner name))].
Definition sample_point (program label : string) : value :=
  VDict [(field "schema_version", VInt 1); (field "name", VStr (ascii_text label)); (field "partitions", VDict [(field "all", sample_clock program)])].
Definition sample_node (id : Z) (name op : string) (point : value) (attrs : list (option text * value)) : value :=
  VDict [(field "id", VInt id); (field "name", VStr (ascii_text name)); (field "vtype", VStr (ascii_text "state")); (field "op", VStr (ascii_text op));
         (field "block", VNone); (field "state", VNone); (field "point", point); (field "inputs", VList []); (field "attrs", VDict attrs)].
Definition sample_program (name label inner : string) (key : string) : list (option text * value) :=
  [(field "name", VStr (ascii_text name)); (field "version", VInt 4); (field "clock", sample_clock name);
   (field "nodes", VList [sample_node 0 label "loop" (sample_point name label) [(field key, VList [sample_node 1 inner "rhs" VNone []])]]);
   (field "commits", VList []); (field "block_order", VList [])].

(** The names of the nodes in the arms of a branch are not dropped: [_semantic_node]
    does not enter [true_block] and [false_block], which [_serialize_node] fills. *)
Lemma branch_arm_names_kept :
  program_semantic_data (sample_program "p" "a" "x" "true_block") ≠ program_semantic_data (sample_program "p" "a" "y" "true_block").
Proof. by vm_compute. Qed.

Ltac presentation := repeat first
  [ apply shows_scalar; exact I
  | apply shows_owner; [vm_compute; reflexivity|vm_compute; reflexivity]
  | apply shows_stage; [vm_compute; reflexivity|vm_compute; reflexivity|split; [left; reflexivity|split; [vm_compute; reflexivity|eexists; vm_compute; reflexivity]]|]
  | apply shows_dict; [vm_compute; reflexivity|vm_compute; reflexivity|]
  | apply shows_list | apply unnamed_name | apply unnamed_other; [intros E%field_inj; discriminate E|] | apply entry_shows
  | apply renamed_node | apply renamed_name | apply renamed_attrs; [apply (bool_decide_unpack _); vm_compute; exact I|]
  | apply renamed_other; [intros E%field_inj; discriminate E|intros E%field_inj; discriminate E|]
  | apply renamed_body; [apply (bool_decide_unpack _); vm_compute; exact I|]
  | apply presented_name | apply presented_nodes | apply presented_clock; [|vm_compute; reflexivity|vm_compute; reflexivity]
  | apply presented_other; [apply (bool_decide_unpack _); vm_compute; exact I|]
  | constructor ].

Lemma program_names_dropped_witness :
  program_semantic_data (sample_program "p" "a" "x" "residual_block") = program_semantic_data (sample_program "q" "b" "y" "residual_block")
  ∧ ∃ w, program_semantic_data (sample_program "p" "a" "x" "residual_block") = Ok w.
Proof.
  split; [|eexists; vm_compute; reflexivity].
  apply (program_names_dropped 1 (sample_owner "p") (sample_owner "q") (sample_program "p" "a" "x" "residual_block") (sample_program "q" "b" "y" "residual_block"));
    [reflexivity|reflexivity|].
  unfold presented, sample_program, sample_node, sample_point, sample_clock. presentation.
Defined.
