(* ===== verification/Handles.v ===== *)
(** * Declaration handles

    [python/pops/model/handles.py] and [BlockHandle] of [problem/handles.py]:
    owner-qualified references to declarations, their printed ids, their canonical
    data and its strict reader, and their resolution. *)
From Stdlib Require Import DecimalString DecimalN.
From S2P Require Import Prelude Binary64 HexFloat Manifest Ownership.

(** What the subclasses of [Handle] add to it.  States, fields and the Case's
    operators add metadata that does not identify them, if anything. *)
Inductive variant :=
| Plain
| Param (param_kind : string)
| Operator (registered_operator_name : string)
| Block (model_owner_path : OwnerPath).

(** A handle with its slots; an instance refers to the declaration it qualifies and
    to the block that selects it. *)
Inductive handle :=
| Handle (owner_path : OwnerPath) (local_id kind : string) (schema_version : Z) (extra : variant)
    (declaration_ref block_ref : option handle).

Definition owner_path (h : handle) : OwnerPath := let 'Handle o _ _ _ _ _ _ := h in o.
Definition local_id (h : handle) : string := let 'Handle _ l _ _ _ _ _ := h in l.
Definition handle_kind (h : handle) : string := let 'Handle _ _ k _ _ _ _ := h in k.
Definition handle_version (h : handle) : Z := let 'Handle _ _ _ v _ _ _ := h in v.
Definition extra (h : handle) : variant := let 'Handle _ _ _ _ x _ _ := h in x.
Definition declaration_ref (h : handle) : option handle := let 'Handle _ _ _ _ _ d _ := h in d.
Definition block_ref (h : handle) : option handle := let 'Handle _ _ _ _ _ _ b := h in b.

#[global] Instance variant_eq_dec : EqDecision variant.
Proof. solve_decision. Defined.

Definition PARAM_KINDS : list string := ["runtime"; "const"; "derived"].

(** [Handle.__init__] *)
Definition mk_handle (owner : OwnerPath) (local_id kind : string) (version : Z) (x : variant) : res handle :=
  _ ← require (negb (String.eqb local_id "")) ValueError;
  _ ← require (negb (String.eqb kind "")) ValueError;
  _ ← require (1 <=? version) ValueError;
  Ok (Handle owner local_id kind version x None None).

(** [ParamHandle.__init__], [OperatorHandle.__init__] and [BlockHandle.__init__] *)
Definition param_handle (owner : OwnerPath) (name param_kind : string) (version : Z) : res handle :=
  _ ← require (bool_decide (param_kind ∈ PARAM_KINDS)) ValueError;
  mk_handle owner name "parameter" version (Param param_kind).
Definition operator_handle (owner : OwnerPath) (name kind : string) (version : Z) (registered : option string) : res handle :=
  let target := default name registered in
  h ← mk_handle owner name kind version (Operator target);
  _ ← require (negb (String.eqb target "")) ValueError;
  Ok h.
Definition block_handle (owner : OwnerPath) (name : string) (model_owner : OwnerPath) (version : Z) : res handle :=
  mk_handle owner name "block" version (Block model_owner).

(** [is_resolved], [is_instance] *)
Definition is_resolved (h : handle) : bool := negb (is_authoring (owner_path h)).
Definition is_instance (h : handle) : bool := bool_decide (is_Some (declaration_ref h)).

(** ** Printed ids *)

(** [quote(text, safe="")] of the UTF-8 bytes of a text. *)
Definition unreserved (c : ascii) : bool :=
  is_lower c || in_range c 65 90 || is_digit c || bool_decide (c ∈ ["_"; "."; "-"; "~"]%char).
Definition HEX : list ascii := list_ascii_of_string "0123456789ABCDEF".
Definition quote_char (c : ascii) : list ascii :=
  if unreserved c then [c]
  else let n := nat_of_ascii c in ["%"%char; nth (n / 16) HEX "0"%char; nth (n mod 16) HEX "0"%char].
Definition quote (s : string) : list ascii := flat_map quote_char (list_ascii_of_string s).

(** [OwnerPath.__str__] *)
Definition segment_chars (fp : option string) (node : OwnerSegment) : list ascii :=
  list_ascii_of_string (kind_value (sg_kind node)) ++ ":"%char :: quote (sg_name node)
  ++ match fp with
     | Some value => if bool_decide (sg_kind node = MODEL_DEFINITION) then "@"%char :: quote value else []
     | None => []
     end.
Fixpoint join (sep : list ascii) (parts : list (list ascii)) : list ascii :=
  match parts with [] => [] | [x] => x | x :: rest => x ++ sep ++ join sep rest end.
Definition owner_chars (p : OwnerPath) : list ascii :=
  join ["/"%char] (map (segment_chars (op_fingerprint p)) (op_nodes p))
  ++ match op_authority p with
     | Some serial => list_ascii_of_string "#authoring=" ++ decimal (N.of_nat serial)
     | None => []
     end.

(** [qualified_id] of a handle and of its subclasses. *)
Definition COLONS : list ascii := [":"; ":"]%char.
Definition suffix_chars (x : variant) : list ascii :=
  match x with
  | Plain | Block _ => []
  | Param k => COLONS ++ list_ascii_of_string "param-kind" ++ COLONS ++ quote k
  | Operator target => COLONS ++ list_ascii_of_string "target" ++ COLONS ++ quote target
  end.
Definition qualified_chars (h : handle) : list ascii :=
  list_ascii_of_string "pops.handle.v" ++ decimal (Z.to_N (handle_version h)) ++ COLONS ++ owner_chars (owner_path h)
  ++ COLONS ++ quote (handle_kind h) ++ COLONS ++ quote (local_id h) ++ suffix_chars (extra h).
Definition qualified_id (h : handle) : string := string_of_list_ascii (qualified_chars h).

(** ** Canonical data *)

(** The [canonical_identity] of the subclasses, which set the final [qualified_id]
    in the mapping of the base class. *)
Fixpoint canonical_identity (e : env) (h : handle) : res json :=
  let 'Handle owner local kind version x declaration block := h in
  data ← to_data owner;
  let base := [("kind", JStr kind); ("local_id", JStr local); ("owner_path", data); ("qualified_id", JStr (qualified_id h));
               ("schema_version", JInt version)] in
  refs ← match declaration, block with
         | None, _ => Ok []
         | Some _, None => Err RuntimeError
         | Some d, Some b =>
             _ ← require (is_resolved d && is_resolved b) UnresolvedOwnershipError;
             d ← canonical_identity e d; b ← canonical_identity e b;
             Ok [("declaration_ref", d); ("block_ref", b)]
         end;
  more ← match x with
         | Plain => Ok []
         | Param k => Ok [("handle_type", JStr "parameter"); ("param_kind", JStr k)]
         | Operator target => Ok [("registered_operator_name", JStr target)]
         | Block m => m ← canonical e m; m ← to_data m; Ok [("handle_type", JStr "block"); ("model_owner_path", m)]
         end;
  Ok (JObj (base ++ refs ++ more)).

Definition IDENTITY_KEYS : list string := ["kind"; "local_id"; "owner_path"; "qualified_id"; "schema_version"].
Definition REF_KEYS : list string := ["declaration_ref"; "block_ref"].
Definition ALLOWED_SHAPES : list (list string) :=
  [IDENTITY_KEYS; IDENTITY_KEYS ++ ["registered_operator_name"]; IDENTITY_KEYS ++ ["handle_type"; "model_owner_path"];
   IDENTITY_KEYS ++ ["handle_type"; "param_kind"]; IDENTITY_KEYS ++ REF_KEYS;
   IDENTITY_KEYS ++ ["registered_operator_name"] ++ REF_KEYS; IDENTITY_KEYS ++ ["handle_type"; "param_kind"] ++ REF_KEYS].

(** Arguments that a constructor checks. *)
Definition text_arg (v : json) : res string := match v with JStr s => Ok s | _ => Err ValueError end.
Definition int_arg (v : json) : res Z := match v with JInt z => Ok z | _ => Err ValueError end.
Definition param_kind_arg (v : json) : res string :=
  match v with JStr s => Ok s | JList _ | JObj _ => Err TypeError | _ => Err ValueError end.

(** The handle without its references. *)
Definition bare_from_data (d : list (string * json)) : res handle :=
  data ← item d "owner_path"; owner ← from_data data;
  kind ← item d "kind"; local ← item d "local_id"; version ← item d "schema_version";
  match dget "handle_type" d with
  | Some t =>
      if json_eq t (JStr "block") then
        _ ← require (json_eq kind (JStr "block")) ValueError;
        model ← item d "model_owner_path"; model ← from_data model;
        local ← text_arg local; version ← int_arg version; block_handle owner local model version
      else if json_eq t (JStr "parameter") then
        _ ← require (json_eq kind (JStr "parameter")) ValueError;
        k ← item d "param_kind"; k ← param_kind_arg k;
        local ← text_arg local; version ← int_arg version; param_handle owner local k version
      else Err ValueError
  | None =>
      local ← text_arg local; kind ← text_arg kind; version ← int_arg version;
      match dget "registered_operator_name" d with
      | Some JNull => operator_handle owner local kind version None
      | Some v => target ← text_arg v; operator_handle owner local kind version (Some target)
      | None => mk_handle owner local kind version Plain
      end
  end.

Definition with_refs (h d b : handle) : handle :=
  let 'Handle owner local kind version x _ _ := h in Handle owner local kind version x (Some d) (Some b).

(** [Handle.from_canonical_identity] *)
Fixpoint from_canonical_identity (e : env) (data : json) : res handle :=
  match data with
  | JObj d =>
      let read := map (fun entry => (entry.1, from_canonical_identity e entry.2)) d in
      _ ← require (existsb (same_keys (dkeys d)) ALLOWED_SHAPES) TypeError;
      h ← bare_from_data d;
      h ← match dget "declaration_ref" read with
          | Some declaration =>
              declaration ← declaration;
              block ← match dget "block_ref" read with Some block => block | None => Err KeyError end;
              Ok (with_refs h declaration block)
          | None => Ok h
          end;
      again ← canonical_identity e h;
      _ ← require (json_eq again (JObj d)) ValueError;
      Ok h
  | _ => Err TypeError
  end.

(** ** Resolution *)

(** [_with_owner] with both references. *)
Definition with_owner (h : handle) (owner : OwnerPath) (declaration block : option handle) : handle :=
  let 'Handle _ local kind version x _ _ := h in Handle owner local kind version x declaration block.

(** [_resolved] of a handle and of a block. *)
Fixpoint resolved (e : env) (h : handle) (owner : option OwnerPath) : res handle :=
  let 'Handle path local kind version x declaration block := h in
  target ← match owner with None => canonical e path | Some o => Ok o end;
  _ ← require (negb (is_authoring target)) UnresolvedOwnershipError;
  declaration ← match declaration with Some d => d ← resolved e d None; Ok (Some d) | None => Ok None end;
  block ← match block with Some b => b ← resolved e b None; Ok (Some b) | None => Ok None end;
  x ← match x with Block m => m ← canonical e m; Ok (Block m) | _ => Ok x end;
  Ok (Handle target local kind version x declaration block).

(** [_identity], the value of [__eq__] and [__hash__]: the subclasses append one
    item, which does not say which subclass it comes from. *)
Definition identity_item (x : variant) : option (string + OwnerPath) :=
  match x with Plain => None | Param k | Operator k => Some (inl k) | Block m => Some (inr m) end.
Definition identity_tuple (h : handle) : Z * OwnerPath * string * string * option (string + OwnerPath) :=
  (handle_version h, owner_path h, handle_kind h, local_id h, identity_item (extra h)).
Definition handle_eq (a b : handle) : bool := bool_decide (identity_tuple a = identity_tuple b).

(** [BlockHandle.instance_owner_path] and [accepts] *)
Definition instance_owner_path (e : env) (block : handle) : res OwnerPath :=
  match extra block with
  | Block model => c ← child (owner_path block) BLOCK (local_id block); instance_of e c model
  | _ => Err TypeError
  end.
Definition accepts (e : env) (block declaration : handle) : res bool :=
  match extra block with
  | Block model =>
      expected ← if is_resolved declaration then canonical e model else Ok model;
      Ok (bool_decide (owner_path declaration = expected))
  | _ => Err TypeError
  end.

(** ** Printed ids are unambiguous *)

Definition quoted (c : ascii) : bool := unreserved c || Ascii.eqb c "%".
Definition stops (x : list ascii) : Prop := match x with [] => True | c :: _ => quoted c = false end.

(** Two texts part before either ends. *)
Fixpoint parts (x y : list ascii) : bool :=
  match x, y with c :: x, d :: y => if Ascii.eqb c d then parts x y else true | _, _ => false end.

Lemma parts_differ a b x y : parts a b = true → a ++ x ≠ b ++ y.
Proof.
  revert b. induction a as [|c a IH]; intros [|d b] H; try done. cbn in *. destruct (Ascii.eqb c d) eqn:E.
  - intros [= _ H2]. by apply (IH b).
  - intros [= -> _]. by rewrite Ascii.eqb_refl in E.
Qed.

Lemma all_ascii (p : ascii → bool) : forallb (fun n => p (ascii_of_nat n)) (seq 0 256) = true → ∀ c, p c = true.
Proof.
  rewrite forallb_forall. intros H c. rewrite <- (ascii_nat_embedding c). apply H, in_seq. pose proof (nat_ascii_bounded c). lia.
Qed.

Lemma quote_char_parts c d : c = d ∨ parts (quote_char c) (quote_char d) = true.
Proof.
  assert (H : ∀ c, forallb (fun n => Ascii.eqb c (ascii_of_nat n) || parts (quote_char c) (quote_char (ascii_of_nat n))) (seq 0 256) = true)
    by (apply all_ascii; vm_compute; reflexivity).
  specialize (all_ascii (fun d => Ascii.eqb c d || parts (quote_char c) (quote_char d)) (H c) d) as Hd. cbn in Hd.
  apply orb_true_iff in Hd as [Hd%Ascii.eqb_eq|Hd]; auto.
Qed.

Lemma quote_char_quoted c : forallb quoted (quote_char c) = true.
Proof. revert c. apply all_ascii. vm_compute. reflexivity. Qed.

Lemma quote_char_cons c : ∃ d l, quote_char c = d :: l ∧ quoted d = true.
Proof. pose proof (quote_char_quoted c) as H. unfold quote_char in *. destruct (unreserved c); cbn in H; apply andb_true_iff in H as [H _]; eauto. Qed.

Lemma quote_inj s : ∀ t x y, stops x → stops y → quote s ++ x = quote t ++ y → s = t ∧ x = y.
Proof.
  unfold quote. induction s as [|c s IH]; intros [|d t] x y Hx Hy H; cbn in H; [done|..].
  - destruct (quote_char_cons d) as (d' & l & E & Hd). rewrite E in H. cbn in H. subst x. cbn in Hx. congruence.
  - destruct (quote_char_cons c) as (c' & l & E & Hc). rewrite E in H. cbn in H. subst y. cbn in Hy. congruence.
  - rewrite <- !app_assoc in H. destruct (quote_char_parts c d) as [<-|Hp].
    + apply app_inv_head in H. destruct (IH t x y Hx Hy H) as [-> ->]. done.
    + by apply parts_differ in H.
Qed.

(** A separator that does not occur before it. *)
Lemma split_at (c : ascii) a : ∀ b x y, c ∉ a → c ∉ b → a ++ c :: x = b ++ c :: y → a = b ∧ x = y.
Proof.
  induction a as [|d a IH]; intros [|f b] x y Ha Hb H; cbn in H.
  - by injection H.
  - injection H as -> _. destruct Hb. left.
  - injection H as -> _. destruct Ha. left.
  - injection H as -> H. rewrite !not_elem_of_cons in *. destruct (IH b x y) as [-> ->]; [tauto..|done].
Qed.

Lemma decimal_digits_only n c : c ∈ decimal n → is_digit c = true.
Proof.
  unfold decimal. assert (H : ∀ d, forallb is_digit (list_ascii_of_string (NilEmpty.string_of_uint d)) = true) by (induction d; cbn; auto).
  assert (Hf : ∀ d, forallb is_digit (list_ascii_of_string (NilZero.string_of_uint d)) = true) by (intros d; pose proof (H d); by destruct d).
  intros Hc. specialize (Hf (N.to_uint n)). rewrite forallb_forall in Hf. by apply Hf, list_elem_of_In.
Qed.

Lemma to_uint_not_nil n : N.to_uint n ≠ Decimal.Nil.
Proof. intros E. pose proof (f_equal N.of_uint E) as H. rewrite DecimalN.Unsigned.of_to in H. cbn in H. by subst n. Qed.

Lemma decimal_injective n m : decimal n = decimal m → n = m.
Proof.
  unfold decimal. intros H. apply (f_equal string_of_list_ascii) in H. rewrite !string_of_list_ascii_of_string in H.
  apply (f_equal NilZero.uint_of_string) in H. rewrite !NilZero.usu in H by apply to_uint_not_nil.
  injection H as H. apply (f_equal N.of_uint) in H. by rewrite !DecimalN.Unsigned.of_to in H.
Qed.

Lemma colon_not_digit n : ":"%char ∉ decimal n.
Proof. by intros H%decimal_digits_only. Qed.

Lemma kind_value_inj k k' : kind_value k = kind_value k' → k = k'.
Proof. by destruct k, k'. Qed.

Lemma colon_not_kind k : ":"%char ∉ list_ascii_of_string (kind_value k).
Proof. apply (bool_decide_unpack _). by destruct k; vm_compute. Qed.

(** What may follow a segment. *)
Definition follows (x : list ascii) : Prop := ∃ c l, x = c :: l ∧ c ∈ ["/"; "#"; ":"]%char.

Lemma follows_stops x : follows x → stops x.
Proof. intros (c & l & -> & Hc). cbn. rewrite !elem_of_cons, elem_of_nil in Hc. by destruct Hc as [->|[->|[->|[]]]]. Qed.

Lemma segment_inj fp fp' n n' x y : follows x → follows y → segment_chars fp n ++ x = segment_chars fp' n' ++ y →
  n = n' ∧ (sg_kind n = MODEL_DEFINITION → fp = fp') ∧ x = y.
Proof.
  intros Hx Hy. destruct n as [k s], n' as [k' s']. unfold segment_chars. cbn [sg_kind sg_name]. rewrite <- !app_assoc. cbn [app].
  intros H. apply split_at in H as [Hk H]; [|apply colon_not_kind..].
  apply (f_equal string_of_list_ascii) in Hk. rewrite !string_of_list_ascii_of_string in Hk. apply kind_value_inj in Hk as <-.
  rewrite <- !app_assoc in H. apply quote_inj in H as [<- H].
  - destruct (decide (k = MODEL_DEFINITION)) as [Hk|Hk].
    + rewrite (bool_decide_true _ Hk) in H. destruct fp as [v|], fp' as [v'|]; cbn in H.
      * injection H as H. apply quote_inj in H as [<- H]; [done|by apply follows_stops..].
      * destruct Hy as (c & l & -> & Hc). injection H as <- _. rewrite !elem_of_cons, elem_of_nil in Hc. by destruct Hc as [|[|[|[]]]].
      * destruct Hx as (c & l & -> & Hc). injection H as -> _. rewrite !elem_of_cons, elem_of_nil in Hc. by destruct Hc as [|[|[|[]]]].
      * done.
    + rewrite (bool_decide_false _ Hk) in H. split; [done|]. split; [done|]. by destruct fp, fp'.
  - destruct fp; [case_bool_decide|]; cbn; [done|by apply follows_stops..].
  - destruct fp'; [case_bool_decide|]; cbn; [done|by apply follows_stops..].
Qed.

Lemma segments_inj fp fp' l : ∀ l' x y, l ≠ [] → l' ≠ [] →
  (∃ c r, x = c :: r ∧ c ∈ ["#"; ":"]%char) → (∃ c r, y = c :: r ∧ c ∈ ["#"; ":"]%char) →
  join ["/"%char] (map (segment_chars fp) l) ++ x = join ["/"%char] (map (segment_chars fp') l') ++ y →
  l = l' ∧ (MODEL_DEFINITION ∈ kinds l → fp = fp') ∧ x = y.
Proof.
  set (tail := fun fp (l : list OwnerSegment) x => match l with [] => x | _ => "/"%char :: join ["/"%char] (map (segment_chars fp) l) ++ x end).
  assert (Hjoin : ∀ fp n l x, join ["/"%char] (map (segment_chars fp) (n :: l)) ++ x = segment_chars fp n ++ tail fp l x).
  { intros f n m z. destruct m; [done|]. cbn [map join tail app]. by rewrite <- !app_assoc. }
  assert (Hf : ∀ fp l x, (∃ c r, x = c :: r ∧ c ∈ ["#"; ":"]%char) → follows (tail fp l x)).
  { intros f m z (c & r & -> & Hc). destruct m; eexists _, _; (split; [reflexivity|]); [|left].
    rewrite !elem_of_cons, elem_of_nil in *. tauto. }
  induction l as [|n l IH]; intros [|n' l'] x y Hl Hl' Hx Hy H; try done.
  rewrite !Hjoin in H. apply segment_inj in H as (<- & Hm & H); [|by apply Hf..].
  assert (Hc : ∀ z, (∃ c r, z = c :: r ∧ c ∈ ["#"; ":"]%char) → ∀ w, z ≠ "/"%char :: w).
  { intros z (c & r & -> & Hin) w [= -> ->]. rewrite !elem_of_cons, elem_of_nil in Hin. by destruct Hin as [|[|[]]]. }
  unfold tail in H. destruct l as [|m l], l' as [|m' l'].
  - split; [done|]. split; [|done]. cbn. rewrite elem_of_cons, elem_of_nil. intros [E|[]]. auto.
  - by apply Hc in H.
  - symmetry in H. by apply Hc in H.
  - injection H as H. destruct (IH (m' :: l') x y) as (<- & Hm' & Hxy); [done..|]. split; [done|]. split; [|done].
    cbn [kinds map]. rewrite elem_of_cons. intros [E|E]; [auto | by apply Hm'].
Qed.

Lemma owner_chars_inj p q x y : well_formed p → well_formed q →
  owner_chars p ++ ":"%char :: x = owner_chars q ++ ":"%char :: y → p = q ∧ x = y.
Proof.
  intros (Gp & _ & Fp) (Gq & _ & Fq). unfold owner_chars. rewrite <- !app_assoc. intros H.
  assert (Hne : ∀ l, owner_grammar (kinds l) → l ≠ []) by (intros [|n l] G; [by apply kinds_ok_grammar in G | done]).
  assert (Hs : ∀ (a : option nat) z, ∃ c r,
    match a with Some serial => list_ascii_of_string "#authoring=" ++ decimal (N.of_nat serial) | None => [] end ++ ":"%char :: z = c :: r
    ∧ c ∈ ["#"; ":"]%char).
  { intros [n|] z; eexists _, _; (split; [reflexivity|]); rewrite !elem_of_cons; auto. }
  apply segments_inj in H as (Hn & Hfp & H); [|by apply Hne|by apply Hne|apply Hs..].
  assert (op_authority p = op_authority q ∧ x = y) as [Ha ->].
  { destruct (op_authority p) as [n|], (op_authority q) as [m|]; cbn [app] in H.
    - rewrite <- !app_assoc in H. apply app_inv_head in H. apply split_at in H as [Hd ->]; [|apply colon_not_digit..].
      apply decimal_injective, Nat2N.inj in Hd as ->. done.
    - done.
    - done.
    - by injection H. }
  split; [|done]. destruct p as [np ap fp], q as [nq aq fq]. cbn in *. subst. f_equal.
  destruct fp as [v|]; [apply Hfp; by destruct (Fp v eq_refl)|]. destruct fq as [v|]; [|done]. apply Hfp. by destruct (Fq v eq_refl).
Qed.

(** What a printed id shows of a subclass. *)
Definition shown (x : variant) : variant := match x with Block _ => Plain | _ => x end.

Lemma suffix_inj x y : suffix_chars x = suffix_chars y → shown x = shown y.
Proof.
  assert (Hq : ∀ s t, quote s = quote t → s = t).
  { intros s t H. apply (quote_inj s t [] []); [done..|]. by rewrite !app_nil_r. }
  destruct x as [|k|t|m], y as [|k'|t'|m']; cbn; try done; intros [= H]; apply Hq in H; congruence.
Qed.

Lemma suffix_stops x : stops (suffix_chars x).
Proof. by destruct x. Qed.

Lemma qualified_id_inj a b : well_formed (owner_path a) → well_formed (owner_path b) → 1 <= handle_version a → 1 <= handle_version b →
  qualified_id a = qualified_id b →
  owner_path a = owner_path b ∧ handle_kind a = handle_kind b ∧ local_id a = local_id b
  ∧ handle_version a = handle_version b ∧ shown (extra a) = shown (extra b).
Proof.
  intros Ha Hb Hva Hvb. unfold qualified_id. intros H. apply (f_equal list_ascii_of_string) in H. rewrite !list_ascii_of_string_of_list_ascii in H.
  unfold qualified_chars, COLONS in H. apply app_inv_head in H. cbn [app] in H.
  apply split_at in H as [Hv H]; [|apply colon_not_digit..]. injection H as H.
  apply owner_chars_inj in H as [Ho H]; [|done..]. injection H as H.
  apply quote_inj in H as [Hk H]; [|done..]. injection H as H.
  apply quote_inj in H as [Hl H]; [|apply suffix_stops..]. apply suffix_inj in H.
  apply decimal_injective in Hv. split_and!; [done..| |done]. lia.
Qed.

(** A printed id names one declaration.  Two handles with one [qualified_id] have
    the same owner, authoring serial and definition fingerprint included, the same
    kind, name and schema version, and the same kind of parameter or target of an
    operator: no name can imitate the separators of the id. *)
Theorem qualified_id_unambiguous a b (Ha : well_formed (owner_path a)) (Hb : well_formed (owner_path b))
    (Hva : 1 <= handle_version a) (Hvb : 1 <= handle_version b) :
  qualified_id a = qualified_id b ↔
  owner_path a = owner_path b ∧ handle_kind a = handle_kind b ∧ local_id a = local_id b
  ∧ handle_version a = handle_version b ∧ shown (extra a) = shown (extra b).
Proof.
  split; [by apply qualified_id_inj|]. intros (Ho & Hk & Hl & Hv & Hx). unfold qualified_id, qualified_chars. rewrite Ho, Hk, Hl, Hv.
  do 6 f_equal. by destruct (extra a), (extra b); cbn in *; try done; injection Hx as <-.
Qed.

(** Names that try to look like an id. *)
Lemma qualified_id_unambiguous_witness :
  let owner := Path [Segment CASE "run"] None None in
  let a := Handle owner "x::target::y" "state" 1 Plain None None in
  let b := Handle owner "x" "state" 1 (Operator "y") None None in
  well_formed owner ∧ qualified_id a ≠ qualified_id b.
Proof.
  intros owner a b. assert (Hw : well_formed owner).
  { split; [by apply kinds_ok_grammar; vm_compute|]. split; [by repeat constructor | done]. }
  split; [exact Hw|]. intros H. apply (qualified_id_unambiguous a b Hw Hw) in H as (_ & _ & H & _); [|cbn; lia..]. discriminate H.
Defined.

(** Equality does not say which subclass the last item belongs to: an operator whose
    kind is "parameter" and whose target is called "runtime" equals a parameter. *)
Lemma operator_equals_parameter owner :
  let op := Handle owner "p" "parameter" 1 (Operator "runtime") None None in
  let param := Handle owner "p" "parameter" 1 (Param "runtime") None None in
  operator_handle owner "p" "parameter" 1 (Some "runtime") = Ok op ∧ param_handle owner "p" "runtime" 1 = Ok param
  ∧ handle_eq op param = true ∧ op ≠ param.
Proof. split_and!; [done|done| |done]. unfold handle_eq. by rewrite bool_decide_true. Qed.

(** ** Canonical data *)

(** A handle that a registry has resolved. *)
Fixpoint canonical_handle (h : handle) : Prop :=
  let 'Handle owner local kind version x declaration block := h in
  well_formed owner ∧ op_authority owner = None ∧ local ≠ EmptyString ∧ kind ≠ EmptyString ∧ 1 <= version
  ∧ match x with
    | Plain => True
    | Param k => kind = "parameter" ∧ k ∈ PARAM_KINDS
    | Operator target => target ≠ EmptyString
    | Block m => kind = "block" ∧ well_formed m ∧ op_authority m = None ∧ declaration = None
    end
  ∧ match declaration, block with
    | None, None => True
    | Some d, Some b => canonical_handle d ∧ canonical_handle b
    | _, _ => False
    end.

Lemma handle_nested_ind (P : handle → Prop) :
  (∀ o l k v x d b, (∀ h, d = Some h → P h) → (∀ h, b = Some h → P h) → P (Handle o l k v x d b)) → ∀ h, P h.
Proof.
  intros H. fix IH 1. intros [o l k v x d b]. apply H.
  - destruct d as [d|]; intros h E; [injection E as <-; apply IH | discriminate E].
  - destruct b as [b|]; intros h E; [injection E as <-; apply IH | discriminate E].
Qed.

Lemma canonical_path p : op_authority p = None → to_data p = Ok (path_data p) ∧ is_authoring p = false.
Proof.
  intros H. unfold to_data, is_authoring. rewrite H. rewrite bool_decide_false by (by intros []). done.
Qed.

Lemma canonical_self e p : op_authority p = None → canonical e p = Ok p.
Proof. intros H. unfold canonical. by rewrite (proj2 (canonical_path p H)). Qed.

Lemma owner_data_plain p : plain (path_data p) = true.
Proof.
  unfold path_data. cbn [plain]. apply andb_true_iff. split; [vm_compute; reflexivity|]. cbn [forallb plain].
  rewrite andb_true_r. cbn [andb]. apply andb_true_iff. split; [|by destruct (op_fingerprint p)].
  apply forallb_forall. intros v (s & <- & _)%in_map_iff. unfold segment_data. cbn [plain].
  apply andb_true_iff. by split; [vm_compute|].
Qed.

Lemma dkeys_app {V} (a b : list (string * V)) : dkeys (a ++ b) = dkeys a ++ dkeys b.
Proof. apply map_app. Qed.

(** What the readers see in the data of a handle. *)
Section Print.
Context (e : env).

Definition base_data (h : handle) : list (string * json) :=
  [("kind", JStr (handle_kind h)); ("local_id", JStr (local_id h)); ("owner_path", path_data (owner_path h));
   ("qualified_id", JStr (qualified_id h)); ("schema_version", JInt (handle_version h))].
Definition extra_data (x : variant) : list (string * json) :=
  match x with
  | Plain => []
  | Param k => [("handle_type", JStr "parameter"); ("param_kind", JStr k)]
  | Operator target => [("registered_operator_name", JStr target)]
  | Block m => [("handle_type", JStr "block"); ("model_owner_path", path_data m)]
  end.

Lemma canonical_handle_resolved h : canonical_handle h → is_resolved h = true.
Proof. destruct h as [o ? ? ? ? ? ?]. intros (_ & Ha & _). unfold is_resolved. cbn [owner_path]. by rewrite (proj2 (canonical_path _ Ha)). Qed.

Lemma canonical_identity_shape h : canonical_handle h →
  (declaration_ref h = None ∧ canonical_identity e h = Ok (JObj (base_data h ++ [] ++ extra_data (extra h))))
  ∨ (∃ d b, declaration_ref h = Some d ∧ block_ref h = Some b ∧ canonical_handle d ∧ canonical_handle b
       ∧ canonical_identity e h = (dd ← canonical_identity e d; bb ← canonical_identity e b;
           Ok (JObj (base_data h ++ [("declaration_ref", dd); ("block_ref", bb)] ++ extra_data (extra h))))).
Proof.
  destruct h as [o l k v x d b]. cbn [canonical_handle]. intros (Ho & Ha & _ & _ & _ & Hx & Hr).
  cbn [canonical_identity declaration_ref block_ref extra]. rewrite (proj1 (canonical_path o Ha)). cbn [mbind res_bind].
  assert (Hmore : (match x with
       | Plain => Ok [] | Param k => Ok [("handle_type", JStr "parameter"); ("param_kind", JStr k)]
       | Operator target => Ok [("registered_operator_name", JStr target)]
       | Block m => m ← canonical e m; m ← to_data m; Ok [("handle_type", JStr "block"); ("model_owner_path", m)]
       end) = Ok (extra_data x)).
  { destruct x as [|p|t|m]; try done. destruct Hx as (_ & _ & Hma & _). rewrite (canonical_self e m Hma). cbn [mbind res_bind].
    by rewrite (proj1 (canonical_path m Hma)). }
  rewrite Hmore. destruct d as [d|], b as [b|]; try done.
  - right. destruct Hr as [Hd Hb]. exists d, b. split_and!; [done..|].
    rewrite (canonical_handle_resolved d Hd), (canonical_handle_resolved b Hb). cbn [andb require mbind res_bind].
    destruct (canonical_identity e d); [|done]. cbn [mbind res_bind]. by destruct (canonical_identity e b).
  - by left.
Qed.

Lemma bare_from_print h refs : canonical_handle h → refs = [] ∨ (∃ d b, refs = [("declaration_ref", d); ("block_ref", b)]) →
  bare_from_data (base_data h ++ refs ++ extra_data (extra h))
  = Ok (Handle (owner_path h) (local_id h) (handle_kind h) (handle_version h) (extra h) None None).
Proof.
  destruct h as [o l k v x dr br]. cbn [canonical_handle owner_path local_id handle_kind handle_version extra].
  intros (Ho & Ha & Hl & Hk & Hv & Hx & _) Hr. unfold bare_from_data, item, base_data.
  cbn [owner_path local_id handle_kind handle_version extra].
  assert (Hread : ∀ p, well_formed p → op_authority p = None → from_data (path_data p) = Ok p)
    by (intros p Hp Hpa; by apply owner_from_to_data; [|apply canonical_path]).
  assert (E : ∀ key : string, key ∈ ["handle_type"; "registered_operator_name"; "model_owner_path"; "param_kind"] →
    dget key (base_data (Handle o l k v x dr br) ++ refs ++ extra_data x) = dget key (extra_data x)).
  { intros key Hkey. rewrite !elem_of_cons, elem_of_nil in Hkey.
    destruct Hr as [->|(d & b & ->)]; destruct Hkey as [->|[->|[->|[->|[]]]]]; reflexivity. }
  unfold base_data in E. cbn [owner_path local_id handle_kind handle_version] in E.
  rewrite !E by (rewrite !elem_of_cons; auto). set (d := _ ++ refs ++ _).
  assert (dget "owner_path" d = Some (path_data o)) as -> by reflexivity. assert (dget "kind" d = Some (JStr k)) as -> by reflexivity.
  assert (dget "local_id" d = Some (JStr l)) as -> by reflexivity. assert (dget "schema_version" d = Some (JInt v)) as -> by reflexivity.
  cbn [mbind res_bind]. rewrite Hread by done. cbn [mbind res_bind].
  assert (Hmk : ∀ x, mk_handle o l k v x = Ok (Handle o l k v x None None)).
  { intros y. unfold mk_handle. apply String.eqb_neq in Hl, Hk. rewrite Hl, Hk, (proj2 (Z.leb_le 1 v) Hv). done. }
  clear E d. destruct x as [|p|t|m].
  - apply Hmk.
  - destruct Hx as [-> Hp]. change (dget "handle_type" _) with (Some (JStr "parameter")). change (dget "param_kind" _) with (Some (JStr p)).
    cbn [json_eq]. rewrite String.eqb_refl. change ("parameter" =? "block")%string with false.
    unfold param_handle. cbn [require mbind res_bind param_kind_arg text_arg int_arg]. rewrite (bool_decide_true _ Hp). apply Hmk.
  - change (dget "handle_type" _) with (@None json). change (dget "registered_operator_name" _) with (Some (JStr t)).
    cbn [mbind res_bind text_arg int_arg]. unfold operator_handle. rewrite Hmk. apply String.eqb_neq in Hx. cbn [mbind res_bind from_option id]. by rewrite Hx.
  - destruct Hx as (-> & Hm & Hma & _). change (dget "handle_type" _) with (Some (JStr "block")).
    change (dget "model_owner_path" _) with (Some (path_data m)). cbn [json_eq]. rewrite String.eqb_refl. cbn [require mbind res_bind].
    rewrite Hread by done. apply Hmk.
Qed.

Lemma shape_ok h refs : canonical_handle h → (refs = [] ∧ declaration_ref h = None) ∨ (∃ d b, refs = [("declaration_ref", d); ("block_ref", b)] ∧ declaration_ref h ≠ None) →
  existsb (same_keys (dkeys (base_data h ++ refs ++ extra_data (extra h)))) ALLOWED_SHAPES = true.
Proof.
  destruct h as [o l k v x dr br]. cbn [canonical_handle extra declaration_ref]. intros (_ & _ & _ & _ & _ & Hx & _) Hr.
  rewrite !dkeys_app. destruct Hr as [[-> _]|(d & b & -> & Hd)]; destruct x as [|p|t|m]; try (vm_compute; reflexivity).
  by destruct Hx as (_ & _ & _ & ->).
Qed.

Lemma identity_plain h refs : forallb (fun '(_, v) => plain v) refs = true →
  refs = [] ∨ (∃ d b, refs = [("declaration_ref", d); ("block_ref", b)]) →
  plain (JObj (base_data h ++ refs ++ extra_data (extra h))) = true.
Proof.
  intros Hp Hr. cbn [plain]. apply andb_true_iff. split.
  - rewrite !dkeys_app. destruct Hr as [->|(d & b & ->)]; destruct (extra h); vm_compute; reflexivity.
  - rewrite !forallb_app, Hp. cbn [base_data forallb plain]. rewrite owner_data_plain.
    destruct (extra h); cbn [extra_data forallb plain]; rewrite ?owner_data_plain; reflexivity.
Qed.

Lemma identity_print h : canonical_handle h →
  ∃ d, canonical_identity e h = Ok d ∧ plain d = true ∧ from_canonical_identity e d = Ok h.
Proof.
  induction h as [o l k v x dr br IHd IHb] using handle_nested_ind. intros Hc. set (h := Handle o l k v x dr br) in *.
  destruct (canonical_identity_shape h Hc) as [[Hn Hi]|(d & b & Hd & Hb & Cd & Cb & Hi)].
  - assert (Hb : br = None). { destruct Hc as (_ & _ & _ & _ & _ & _ & Hr). cbn in Hn. subst dr. by destruct br. }
    cbn in Hn. subst dr br. eexists. split; [exact Hi|]. assert (Hp := identity_plain h [] eq_refl (or_introl eq_refl)). split; [exact Hp|].
    cbn [from_canonical_identity]. rewrite (shape_ok h []) by (done || by left). cbn [require mbind res_bind].
    rewrite bare_from_print by (done || by left). cbn [mbind res_bind].
    assert (dget "declaration_ref" (map (fun entry => (entry.1, from_canonical_identity e entry.2)) (base_data h ++ [] ++ extra_data (extra h))) = None) as ->
      by (by destruct x).
    cbn [mbind res_bind]. change (Handle _ _ _ _ _ None None) with h. rewrite Hi. cbn [mbind res_bind]. by rewrite json_eq_refl.
  - cbn in Hd, Hb. destruct (IHd d Hd Cd) as (dd & Ed & Pd & Fd), (IHb b Hb Cb) as (bb & Eb & Pb & Fb).
    rewrite Ed, Eb in Hi. cbn [mbind res_bind] in Hi. set (refs := [("declaration_ref", dd); ("block_ref", bb)]) in *.
    eexists. split; [exact Hi|].
    assert (Hp := identity_plain h refs ltac:(cbn; by rewrite Pd, Pb) ltac:(by right; eauto)). split; [exact Hp|].
    cbn [from_canonical_identity]. rewrite (shape_ok h refs) by (done || by right; eexists _, _; split; [done|]; cbn; rewrite Hd). cbn [require mbind res_bind].
    rewrite bare_from_print by (done || by right; eauto). cbn [mbind res_bind].
    set (read := map _ _).
    assert (dget "declaration_ref" read = Some (Ok d)) as -> by (rewrite <- Fd; reflexivity).
    assert (dget "block_ref" read = Some (Ok b)) as -> by (rewrite <- Fb; reflexivity).
    cbn [mbind res_bind with_refs owner_path local_id handle_kind handle_version extra h]. rewrite <- Hd, <- Hb. change (Handle _ _ _ _ _ _ _) with h.
    rewrite Hi. cbn [mbind res_bind]. by rewrite json_eq_refl.
Qed.

(** *** Reading *)

Lemma mk_handle_ok o l k v x h : mk_handle o l k v x = Ok h →
  h = Handle o l k v x None None ∧ l ≠ EmptyString ∧ k ≠ EmptyString ∧ 1 <= v.
Proof.
  unfold mk_handle. destruct (String.eqb_spec l ""); [done|]. destruct (String.eqb_spec k ""); [done|]. cbn [negb require mbind res_bind].
  destruct (Z.leb_spec 1 v); [|done]. by intros [= <-].
Qed.

Lemma json_eq_str v s : json_eq v (JStr s) = true → v = JStr s.
Proof. destruct v as [| | |f|t| |]; cbn; try done. by intros ->%String.eqb_eq. Qed.

Lemma bare_from_data_ok d h : bare_from_data d = Ok h →
  canonical_handle h ∧ declaration_ref h = None ∧ block_ref h = None
  ∧ (match extra h with Block _ => True | _ => False end → "model_owner_path" ∈ dkeys d).
Proof.
  unfold bare_from_data, item. intros H. destruct (dget "owner_path" d) as [od|]; [|done]. cbn [mbind res_bind] in H.
  destruct (from_data od) as [o|] eqn:Eo; [|done]. cbn [mbind res_bind] in H.
  apply from_data_ok in Eo as (Ho & od' & Ho' & _).
  assert (Hauth : ∀ p d, to_data p = Ok d → op_authority p = None).
  { intros p d' Hd'. unfold to_data, is_authoring in Hd'. inv_ok. bools. apply eq_None_not_Some. done. }
  apply Hauth in Ho' as Ha.
  destruct (dget "kind" d) as [kd|]; [|done]. destruct (dget "local_id" d) as [ld|]; [|done].
  destruct (dget "schema_version" d) as [vd|]; [|done]. cbn [mbind res_bind] in H.
  destruct (dget "handle_type" d) as [t|].
  - destruct (json_eq t (JStr "block")).
    + destruct (json_eq kd _); [|done]. cbn [require mbind res_bind] in H. destruct (dget "model_owner_path" d) as [md|] eqn:Em; [|done].
      cbn [mbind res_bind] in H. destruct (from_data md) as [m|] eqn:Emd; [|done]. apply from_data_ok in Emd as (Hm & md' & Hmd & _).
      apply Hauth in Hmd. cbn [mbind res_bind] in H. destruct (text_arg ld) as [l|]; [|done]. destruct (int_arg vd) as [v|]; [|done]. cbn [mbind res_bind] in H.
      apply mk_handle_ok in H as (-> & Hl & Hk & Hv). split_and!; try done. intros _. apply dget_Some_elem in Em. by apply (list_elem_of_fmap_2 fst) in Em.
    + destruct (json_eq t _); [|done]. destruct (json_eq kd _); [|done]. cbn [require mbind res_bind] in H.
      destruct (dget "param_kind" d) as [pd|]; [|done]. cbn [mbind res_bind] in H. destruct (param_kind_arg pd) as [p|]; [|done]. cbn [mbind res_bind] in H.
      destruct (text_arg ld) as [l|]; [|done]. destruct (int_arg vd) as [v|]; [|done]. cbn [mbind res_bind] in H.
      unfold param_handle in H. case_bool_decide as Hp; [|done]. apply mk_handle_ok in H as (-> & Hl & Hk & Hv). by split_and!.
  - destruct (text_arg ld) as [l|]; [|done]. cbn [mbind res_bind] in H. destruct (text_arg kd) as [k|]; [|done]. cbn [mbind res_bind] in H.
    destruct (int_arg vd) as [v|]; [|done]. cbn [mbind res_bind] in H.
    assert (Hop : ∀ target, operator_handle o l k v target = Ok h → canonical_handle h ∧ declaration_ref h = None ∧ block_ref h = None
                ∧ (match extra h with Block _ => True | _ => False end → "model_owner_path" ∈ dkeys d)).
    { intros target. unfold operator_handle. cbn zeta. destruct (mk_handle o l k v (Operator (default l target))) as [h'|] eqn:Eh; [|done]. cbn [mbind res_bind].
      destruct (String.eqb (default l target) "") eqn:Et; [done|]. intros [= <-]. apply String.eqb_neq in Et.
      apply mk_handle_ok in Eh as (-> & Hl & Hk & Hv). by split_and!. }
    destruct (dget "registered_operator_name" d) as [r|].
    + destruct r as [| | | |r| |]; try done; exact (Hop _ H).
    + apply mk_handle_ok in H as (-> & Hl & Hk & Hv). by split_and!.
Qed.

(** A shape with references has no model owner. *)
Lemma shape_refs keys : existsb (same_keys keys) ALLOWED_SHAPES = true → "declaration_ref" ∈ keys → "model_owner_path" ∉ keys.
Proof.
  intros (shape & Hin%list_elem_of_In & Hk)%existsb_exists. rewrite same_keys_spec in Hk. rewrite !Hk. clear Hk. revert shape Hin.
  assert (H : forallb (fun shape : list string => negb (bool_decide ("declaration_ref" ∈ shape)) || negb (bool_decide ("model_owner_path" ∈ shape))) ALLOWED_SHAPES = true)
    by (vm_compute; reflexivity).
  rewrite forallb_forall in H. intros shape Hin%list_elem_of_In Hd Hm. specialize (H shape Hin).
  rewrite (bool_decide_true _ Hd), (bool_decide_true _ Hm) in H. done.
Qed.

Lemma dget_map_snd {V W} (f : V → W) k d : dget k (map (fun entry : string * V => (entry.1, f entry.2)) d) = f <$> dget k d.
Proof. induction d as [|[k' v] d IH]; [done|]. cbn. case_decide; [done|]. exact IH. Qed.

Lemma json_members_ind (P : json → Prop) : (∀ d, Forall (fun x => P x.2) d → P (JObj d)) → (∀ v, match v with JObj _ => False | _ => True end → P v) → ∀ v, P v.
Proof.
  intros Hobj Hother. fix IH 1. intros [| | | | | |d]; try (by apply Hother). apply Hobj. induction d as [|[k v] d IHd]; constructor; [apply IH | exact IHd].
Qed.

Lemma identity_read v : ∀ h, from_canonical_identity e v = Ok h →
  canonical_handle h ∧ ∃ d, canonical_identity e h = Ok d ∧ json_eq d v = true.
Proof.
  induction v as [d IH|v Hv] using json_members_ind; intros h H; [|by destruct v].
  cbn [from_canonical_identity] in H. destruct (existsb _ _) eqn:Es; [|done]. cbn [require mbind res_bind] in H.
  destruct (bare_from_data d) as [bare|] eqn:Eb; [|done]. cbn [mbind res_bind] in H.
  apply bare_from_data_ok in Eb as (Hc & Hd & Hbl & Hblock). rewrite !dget_map_snd in H. rewrite Forall_forall in IH.
  assert (Hend : ∀ g, (again ← canonical_identity e g; _ ← require (json_eq again (JObj d)) ValueError; Ok g) = Ok h →
            h = g ∧ ∃ d', canonical_identity e h = Ok d' ∧ json_eq d' (JObj d) = true).
  { intros g Hg. destruct (canonical_identity e g) as [again|] eqn:Eg; [|done]. cbn [mbind res_bind] in Hg.
    destruct (json_eq again (JObj d)) eqn:Ej; [|done]. injection Hg as <-. eauto. }
  destruct (dget "declaration_ref" d) as [dd|] eqn:Edd; cbn [fmap option_fmap option_map] in H.
  - destruct (from_canonical_identity e dd) as [dh|] eqn:Edh; [|done]. cbn [mbind res_bind] in H.
    destruct (dget "block_ref" d) as [bd|] eqn:Ebd; cbn [fmap option_fmap option_map] in H; [|done].
    destruct (from_canonical_identity e bd) as [bh|] eqn:Ebh; [|done]. cbn [mbind res_bind] in H.
    apply Hend in H as [-> H]. split; [|done].
    apply dget_Some_elem in Edd as Hin, Ebd as Hin'. destruct (IH _ Hin dh Edh) as [Cd _], (IH _ Hin' bh Ebh) as [Cb _].
    apply (list_elem_of_fmap_2 fst) in Hin. pose proof (shape_refs _ Es Hin) as Hm.
    destruct bare as [o l k v x dr br]. cbn in *. destruct Hc as (? & ? & ? & ? & ? & Hx & _). split_and!; try done.
    destruct x; try done. exfalso. by apply Hm, Hblock.
  - apply Hend in H as [-> H]. done.
Qed.
End Print.

(** C24: the canonical data of a handle and the handle are the same thing.  A resolved
    handle, with the declaration and block an instance refers to, is read back from
    its data; what the reader accepts is a resolved handle whose own data equals
    what was read, so that a forged id, owner or reference is refused. *)
Theorem handle_identity_roundtrip e :
  (∀ h, canonical_handle h → ∃ d, canonical_identity e h = Ok d ∧ from_canonical_identity e d = Ok h)
  ∧ (∀ d h, from_canonical_identity e d = Ok h → canonical_handle h ∧ ∃ d', canonical_identity e h = Ok d' ∧ json_eq d' d = true).
Proof.
  split; [|intros d h; apply identity_read]. intros h Hc. destruct (identity_print e h Hc) as (d & Hd & _ & Hf). eauto.
Qed.

(** ** Data that compare equal *)

Lemma json_eq_obj a b : json_eq (JObj a) (JObj b) = true →
  (∀ k, k ∈ dkeys a ↔ k ∈ dkeys b) ∧ ∀ k v, (k, v) ∈ a → ∃ w, dget k b = Some w ∧ json_eq v w = true.
Proof.
  cbn [json_eq]. intros [Hk H]%andb_true_iff. split; [by apply same_keys_spec|]. clear Hk. induction a as [|[k v] a IH]; intros k' v' Hin;
    [by apply elem_of_nil in Hin|]. apply andb_true_iff in H as [Hv H]. apply elem_of_cons in Hin as [[= -> ->]|Hin]; [|by apply IH].
  destruct (dget k b) as [w|]; [eauto | done].
Qed.

Lemma segment_json_inj s t : json_eq (segment_data s) (segment_data t) = true → s = t.
Proof.
  destruct s as [k n], t as [k' n']. intros [_ H]%json_eq_obj.
  destruct (H "kind" (JStr (kind_value k)) ltac:(left)) as (w & Hw & E1). destruct (H "name" (JStr n) ltac:(right; left)) as (w' & Hw' & E2).
  change (Some (JStr (kind_value k')) = Some w) in Hw. change (Some (JStr n') = Some w') in Hw'. injection Hw as <-. injection Hw' as <-.
  cbn in E1, E2. apply String.eqb_eq in E1, E2. apply kind_value_inj in E1 as ->. by subst.
Qed.

Lemma path_json_inj p q : op_authority p = None → op_authority q = None → json_eq (path_data p) (path_data q) = true → p = q.
Proof.
  intros Hp Hq [_ H]%json_eq_obj.
  destruct (H "nodes" (JList (map segment_data (op_nodes p))) ltac:(right; left)) as (w & Hw & E1).
  destruct (H "definition_fingerprint" (option_data (op_fingerprint p)) ltac:(right; right; left)) as (w' & Hw' & E2).
  change (Some (JList (map segment_data (op_nodes q))) = Some w) in Hw. change (Some (option_data (op_fingerprint q)) = Some w') in Hw'.
  injection Hw as <-. injection Hw' as <-. clear H.
  assert (En : op_nodes p = op_nodes q).
  { revert E1. generalize (op_nodes q). induction (op_nodes p) as [|s l IH]; intros [|t m] E; try done. cbn [map json_eq] in E.
    apply andb_true_iff in E as [Es%segment_json_inj E]. subst. f_equal. by apply IH. }
  assert (Ef : op_fingerprint p = op_fingerprint q).
  { destruct (op_fingerprint p), (op_fingerprint q); cbn in E2; try done. apply String.eqb_eq in E2. congruence. }
  destruct p, q; cbn in *; congruence.
Qed.

Lemma canonical_handle_parts h : canonical_handle h →
  well_formed (owner_path h) ∧ op_authority (owner_path h) = None ∧ 1 <= handle_version h
  ∧ match extra h with Block m => op_authority m = None | _ => True end
  ∧ (declaration_ref h = None → block_ref h = None).
Proof.
  destruct h as [o l k v x d b]. cbn. intros (Ho & Ha & _ & _ & Hv & Hx & Hr). split_and!; try done.
  - destruct x; try done. tauto.
  - intros ->. by destruct b.
Qed.

Lemma absent_type h refs : refs = [] ∨ (∃ da db, refs = [("declaration_ref", da); ("block_ref", db)]) →
  "handle_type" ∉ dkeys (base_data h ++ refs ++ []).
Proof. intros [->|(da & db & ->)]; cbn; rewrite !elem_of_cons, elem_of_nil; naive_solver. Qed.

Lemma absent_ref h x : "declaration_ref" ∉ dkeys (base_data h ++ [] ++ extra_data x).
Proof. destruct x; cbn; rewrite !elem_of_cons, elem_of_nil; naive_solver. Qed.

(** The data of a resolved handle identify it, its references included. *)
Lemma identity_separates e h : ∀ h' d d', canonical_handle h → canonical_handle h' →
  canonical_identity e h = Ok d → canonical_identity e h' = Ok d' → json_eq d d' = true → h = h'.
Proof.
  induction h as [o l k v x dr br IHd IHb] using handle_nested_ind. intros h' d d' Hc Hc' Hd Hd' Heq. set (h := Handle o l k v x dr br) in *.
  assert (Hdata : ∀ g dg, canonical_handle g → canonical_identity e g = Ok dg → ∃ refs, dg = JObj (base_data g ++ refs ++ extra_data (extra g))
    ∧ ((refs = [] ∧ declaration_ref g = None) ∨ ∃ a b da db, refs = [("declaration_ref", da); ("block_ref", db)] ∧ declaration_ref g = Some a ∧ block_ref g = Some b
         ∧ canonical_handle a ∧ canonical_handle b ∧ canonical_identity e a = Ok da ∧ canonical_identity e b = Ok db)).
  { intros g dg Hg Hdg. destruct (canonical_identity_shape e g Hg) as [[Hn Hi]|(a & b & Ea & Eb & Ca & Cb & Hi)]; rewrite Hi in Hdg.
    - injection Hdg as <-. exists []. auto.
    - destruct (canonical_identity e a) as [da|] eqn:Eda; [|done]. destruct (canonical_identity e b) as [db|] eqn:Edb; [|done]. injection Hdg as <-.
      exists [("declaration_ref", da); ("block_ref", db)]. split; [done|]. right. eauto 12. }
  destruct (Hdata h d Hc Hd) as (refs & -> & Hrefs), (Hdata h' d' Hc' Hd') as (refs' & -> & Hrefs'). clear Hdata.
  destruct (canonical_handle_parts h Hc) as (Ho & Ha & Hv & Hm & Hn), (canonical_handle_parts h' Hc') as (Ho' & Ha' & Hv' & Hm' & Hn').
  apply json_eq_obj in Heq as [Hkeys Hval].
  assert (Hq : qualified_id h = qualified_id h').
  { destruct (Hval "qualified_id" (JStr (qualified_id h))) as (w & Hw & E); [apply elem_of_app; left; right; right; right; left|].
    change (Some (JStr (qualified_id h')) = Some w) in Hw. injection Hw as <-. by apply String.eqb_eq in E. }
  apply qualified_id_inj in Hq as (Eo & Ek & El & Ev & Ex); [|done..].
  assert (Hform : ∀ g r dg, (r = [] ∧ dg = None) ∨ (∃ a b da db, r = [("declaration_ref", da); ("block_ref", db)] ∧ dg = Some a ∧ block_ref g = Some b
         ∧ canonical_handle a ∧ canonical_handle b ∧ canonical_identity e a = Ok da ∧ canonical_identity e b = Ok db) →
       r = [] ∨ ∃ da db, r = [("declaration_ref", da); ("block_ref", db)]) by (intros g r dg [[-> _]|(? & ? & da & db & -> & _)]; eauto).
  assert (Hx : x = extra h').
  { apply Hform in Hrefs, Hrefs'. destruct h' as [o' l' k' v' x' dr' br']. cbn [extra h] in *. destruct x as [|p|t|m], x' as [|p'|t'|m']; cbn in Ex; try congruence.
    - exfalso. apply (absent_type h refs Hrefs), Hkeys. rewrite !dkeys_app, !elem_of_app. cbn. rewrite !elem_of_cons. auto 10.
    - exfalso. apply (absent_type (Handle o' l' k' v' Plain dr' br') refs' Hrefs'), Hkeys. rewrite !dkeys_app, !elem_of_app. cbn. rewrite !elem_of_cons. auto 10.
    - f_equal. destruct (Hval "model_owner_path" (path_data m)) as (w & Hw & E).
      { apply elem_of_app. right. apply elem_of_app. right. right. left. }
      assert (w = path_data m') as -> by (destruct Hrefs' as [->|(da & db & ->)]; change (Some (path_data m') = Some w) in Hw; congruence).
      by apply path_json_inj. }
  assert (Hboth : dr = declaration_ref h' ∧ br = block_ref h').
  { destruct Hrefs as [[-> Hnone]|(a & b & da & db & -> & Ea & Eb & Ca & Cb & Hda & Hdb)],
      Hrefs' as [[-> Hnone']|(a' & b' & da' & db' & -> & Ea' & Eb' & Ca' & Cb' & Hda' & Hdb')].
    - rewrite (Hn' Hnone'), Hnone'. split; [exact Hnone | by apply (Hn Hnone)].
    - exfalso. apply (absent_ref h (extra h)), Hkeys. rewrite !dkeys_app, !elem_of_app. right. left. left.
    - exfalso. apply (absent_ref h' (extra h')), Hkeys. rewrite !dkeys_app, !elem_of_app. right. left. left.
    - destruct (Hval "declaration_ref" da) as (w & Hw & E1); [apply elem_of_app; right; left|].
      destruct (Hval "block_ref" db) as (w' & Hw' & E2); [apply elem_of_app; right; right; left|].
      change (Some da' = Some w) in Hw. change (Some db' = Some w') in Hw'. injection Hw as <-. injection Hw' as <-.
      rewrite Ea', Eb'. split; [transitivity (Some a); [exact Ea|] | transitivity (Some b); [exact Eb|]]; f_equal;
        [exact (IHd a Ea a' da da' Ca Ca' Hda Hda' E1) | exact (IHb b Eb b' db db' Cb Cb' Hdb Hdb' E2)]. }
  destruct Hboth as [Hdr Hbr]. destruct h' as [o' l' k' v' x' dr' br']. cbn in *. subst. done.
Qed.

(** ** Resolution *)

Lemma resolved_spec e h : ∀ owner g, env_ok e → resolved e h owner = Ok g →
  owner_path g = default (owner_path g) owner ∧ is_resolved g = true ∧ handle_kind g = handle_kind h ∧ local_id g = local_id h
  ∧ handle_version g = handle_version h ∧ shown (extra g) = shown (extra h)
  ∧ is_instance g = is_instance h.
Proof.
  intros owner g He H. destruct h as [path l k v x d b]. cbn [resolved] in H.
  destruct (match owner with None => canonical e path | Some o => Ok o end) as [target|] eqn:Et; [|done]. cbn [mbind res_bind] in H.
  destruct (is_authoring target) eqn:Ha; [done|]. cbn [negb require mbind res_bind] in H.
  destruct (match d with Some d => _ | None => _ end) as [d'|] eqn:Ed in H; [|done]. cbn [mbind res_bind] in H.
  destruct (match b with Some b => _ | None => _ end) as [b'|] eqn:Eb in H; [|done]. cbn [mbind res_bind] in H.
  destruct (match x with Block m => _ | _ => _ end) as [x'|] eqn:Ex in H; [|done]. injection H as <-. cbn.
  unfold is_resolved, is_instance. cbn. rewrite Ha. split_and!; try done.
  - destruct owner; [by injection Et as -> | done].
  - destruct x as [| | |m]; try (by injection Ex as <-). by destruct (canonical e m); [injection Ex as <-|].
  - destruct d as [d|]; [|by injection Ed as <-]. by destruct (resolved e d None); [injection Ed as <-|].
Qed.

(** A handle as a registry issues it, authoring or canonical. *)
Fixpoint wf_handle (h : handle) : Prop :=
  let 'Handle owner local kind version x declaration block := h in
  well_formed owner ∧ local ≠ EmptyString ∧ kind ≠ EmptyString ∧ 1 <= version
  ∧ match x with
    | Plain => True
    | Param k => kind = "parameter" ∧ k ∈ PARAM_KINDS
    | Operator target => target ≠ EmptyString
    | Block m => kind = "block" ∧ well_formed m ∧ declaration = None
    end
  ∧ match declaration, block with
    | None, None => True
    | Some d, Some b => wf_handle d ∧ wf_handle b
    | _, _ => False
    end.

Lemma not_authoring p : is_authoring p = false → op_authority p = None.
Proof. unfold is_authoring. intros H%bool_decide_eq_false. by apply eq_None_not_Some. Qed.

Lemma resolved_canonical e h : env_ok e → ∀ owner g, wf_handle h → (∀ o, owner = Some o → well_formed o) →
  resolved e h owner = Ok g → canonical_handle g.
Proof.
  intros He. induction h as [path l k v x d b IHd IHb] using handle_nested_ind. intros owner g (Hp & Hl & Hk & Hv & Hx & Hr) Ho H.
  cbn [resolved] in H. destruct (match owner with None => canonical e path | Some o => Ok o end) as [target|] eqn:Et; [|done]. cbn [mbind res_bind] in H.
  destruct (is_authoring target) eqn:Ha; [done|]. cbn [negb require mbind res_bind] in H. apply not_authoring in Ha.
  assert (Hw : well_formed target).
  { destruct owner as [o|]; [injection Et as <-; by apply Ho | by destruct (canonical_typed e path target He Hp Et)]. }
  destruct (match d with Some d => _ | None => _ end) as [d'|] eqn:Ed in H; [|done]. cbn [mbind res_bind] in H.
  destruct (match b with Some b => _ | None => _ end) as [b'|] eqn:Eb in H; [|done]. cbn [mbind res_bind] in H.
  destruct (match x with Block m => _ | _ => _ end) as [x'|] eqn:Ex in H; [|done]. injection H as <-. cbn [canonical_handle].
  assert (Hd : match d, d' with None, None => True | Some d, Some d' => resolved e d None = Ok d' | _, _ => False end).
  { destruct d as [d|]; [|by injection Ed as <-]. by destruct (resolved e d None) as [y|]; [injection Ed as <-|]. }
  assert (Hb : match b, b' with None, None => True | Some b, Some b' => resolved e b None = Ok b' | _, _ => False end).
  { destruct b as [b|]; [|by injection Eb as <-]. by destruct (resolved e b None) as [y|]; [injection Eb as <-|]. }
  split_and!; try done.
  - destruct x as [|p|t|m]; try (by injection Ex as <-). destruct (canonical e m) as [m'|] eqn:Em; [|done]. injection Ex as <-.
    destruct Hx as (-> & Hm & ->). destruct (canonical_typed e m m' He Hm Em) as (? & _ & ?). by destruct d'.
  - destruct d as [d|], b as [b|], d' as [d'|], b' as [b'|]; try done. destruct Hr as [Wd Wb].
    split; [eapply (IHd d eq_refl None) | eapply (IHb b eq_refl None)]; done.
Qed.

Lemma resolved_self e h : canonical_handle h → resolved e h None = Ok h.
Proof.
  induction h as [path l k v x d b IHd IHb] using handle_nested_ind. intros (Hp & Ha & _ & _ & _ & Hx & Hr). cbn [resolved].
  rewrite (canonical_self e path Ha). cbn [mbind res_bind]. rewrite (proj2 (canonical_path path Ha)). cbn [negb require mbind res_bind].
  assert (Ex : match x with Block m => m ← canonical e m; Ok (Block m) | _ => Ok x end = Ok x).
  { destruct x as [|p|t|m]; try done. destruct Hx as (_ & _ & Hm & _). by rewrite (canonical_self e m Hm). }
  rewrite Ex. destruct d as [d|], b as [b|]; try done. destruct Hr as [Cd Cb].
  by rewrite (IHd d eq_refl Cd), (IHb b eq_refl Cb).
Qed.

(** Equality is that of the parts it compares. *)
Lemma handle_eq_refl h : handle_eq h h = true.
Proof. by apply bool_decide_eq_true. Qed.
