(* ===== verification/BlockRegistry.v ===== *)
(** * The block registry of a Case

    [python/pops/problem/_block_registry.py] and [DeclarationIndex] of
    [model/registry.py]: which model declarations a Case knows, and how a
    reference to one is qualified by the block that instantiates it.

    An operation is a function of the authoring environment and the registry whose
    changes survive an exception. *)
From S2P Require Import Prelude Manifest Ownership Handles.

(** ** Declaration indexes *)

(** [DeclarationIndex]: the declarations of one owner by kind and name. *)
Record index := Index { ix_owner : OwnerPath; ix_records : list ((string * string) * handle) }.

(** The loop of [DeclarationIndex.__init__]. *)
Definition add_record (owner : OwnerPath) (records : list ((string * string) * handle)) (h : handle)
    : res (list ((string * string) * handle)) :=
  _ ← require (bool_decide (owner_path h = owner)) MissingOwnershipError;
  let key := (handle_kind h, local_id h) in
  _ ← require (bool_decide (dget key records = None)) ValueError;
  Ok (dset key h records).

(** [DeclarationIndex.__init__]; the digest of the declarations is
    [_handle_declaration_fingerprint]. *)
Definition mk_index (digest : list handle → string) (e : env) (owner : OwnerPath) (handles : list handle) : res (index * env) :=
  records ← fold_res (add_record owner) [] handles;
  e ← (if is_authoring owner then bind_definition_fingerprint e owner (digest handles) 10 else Ok e);
  Ok (Index owner records, e).

(** [DeclarationIndex.authenticate] *)
Definition authenticate (e : env) (ix : index) (h : handle) : res handle :=
  expected_owner ← (if is_resolved h then canonical e (ix_owner ix) else Ok (ix_owner ix));
  _ ← require (bool_decide (owner_path h = expected_owner)) MissingOwnershipError;
  match dget (handle_kind h, local_id h) (ix_records ix) with
  | None => Err MissingOwnershipError
  | Some registered =>
      matches ← (if is_resolved h then
                   expected ← resolved e registered (Some expected_owner);
                   a ← canonical_identity e expected; b ← canonical_identity e h; Ok (json_eq a b)
                 else Ok (handle_eq registered h));
      _ ← require matches MissingOwnershipError;
      Ok registered
  end.

(** [DeclarationIndex.contains] *)
Definition index_contains (e : env) (ix : index) (h : handle) : res bool :=
  match authenticate e ix h with
  | Ok _ => Ok true
  | Err TypeError | Err MissingOwnershipError => Ok false
  | Err x => Err x
  end.

(** ** Models and blocks *)

(** What a block asks of its model, whose code is outside this component: its owner
    and name, its declaration index if it has one, and the identity hooks that
    [stabilize_model_definition] calls.  [md_object] is the object's identity. *)
Record model := Model {
  md_object : nat;
  md_owner : option OwnerPath;
  md_name : option string;
  md_index : env → res (option index) * env;
  md_stabilize : env → res unit * env }.

Record block_spec := Spec { bs_model : model; bs_states : list handle }.

(** The slots of [BlockRegistry].  [_instances] is keyed by the block's name and the
    declaration, which compare by [_identity]. *)
Notation identity := (Z * OwnerPath * string * string * option (string + OwnerPath))%type.
Record registry := Registry {
  r_owner : OwnerPath;
  r_blocks : list (string * block_spec);
  r_handles : list (string * handle);
  r_model_owners : list (OwnerPath * nat);
  r_indexes : list (OwnerPath * index);
  r_instances : list ((string * identity) * handle);
  r_frozen : bool }.

(** ** Operations *)

Definition ST (A : Type) : Type := env * registry → res A * (env * registry).
Definition ret {A} (a : A) : ST A := fun s => (Ok a, s).
Definition raise {A} (x : exn) : ST A := fun s => (Err x, s).
Definition bind {A B} (m : ST A) (f : A → ST B) : ST B := fun s =>
  match m s with (Ok a, s) => f a s | (Err x, s) => (Err x, s) end.
Declare Scope registry_scope.
Delimit Scope registry_scope with registry.
Notation "x <- m ; f" := (bind m (fun x => f)) (at level 100, m at next level, right associativity) : registry_scope.
#[local] Open Scope registry_scope.

(** A call that reads the environment, and one of a model's hooks. *)
Definition reads {A} (f : env → res A) : ST A := fun s => (f s.1, s).
Definition calls {A} (f : env → res A * env) : ST A := fun s => let '(a, e) := f s.1 in (a, (e, s.2)).
Definition get : ST registry := fun s => (Ok s.2, s).
Definition put (r : registry) : ST unit := fun s => (Ok tt, (s.1, r)).
Definition demand (b : bool) (x : exn) : ST unit := if b then ret tt else raise x.
Definition row {K V} `{EqDecision K} (k : K) (d : list (K * V)) : ST V :=
  match dget k d with Some v => ret v | None => raise KeyError end.

(** [BlockRegistry.__init__] *)
Definition mk_registry (owner : OwnerPath) : res registry :=
  _ ← require_authoring_root owner CASE None; Ok (Registry owner [] [] [] [] [] false).

Section Registry.
Context (digest : list handle → string).

(** [_provided_index] *)
Definition provided_index (m : model) (owner : OwnerPath) : ST index :=
  found <- calls (md_index m);
  ix <- match found with
        | Some ix => ret ix
        | None => calls (fun e => match mk_index digest e owner [] with Ok (ix, e') => (Ok ix, e') | Err x => (Err x, e) end)
        end;
  _ <- demand (bool_decide (ix_owner ix = owner)) MissingOwnershipError;
  ret ix.

(** [stabilize_model_definition] *)
Definition stabilize_model_definition (m : model) (owner : OwnerPath) : ST unit :=
  _ <- calls (md_stabilize m); _ <- reads (fun e => canonical e owner); ret tt.

(** The states of a block: those that are asked for, or the model's only one. *)
Definition state_records (ix : index) : list handle :=
  List.filter (fun h => String.eqb (handle_kind h) "state") (map snd (ix_records ix)).
Fixpoint repeats (l : list handle) : bool :=
  match l with [] => false | h :: l => existsb (handle_eq h) l || repeats l end.
Definition authenticate_state (e : env) (ix : index) (h : handle) : res handle :=
  _ ← require (String.eqb (handle_kind h) "state") TypeError; authenticate e ix h.
Definition select_states (e : env) (ix : index) (states : option (list handle)) : res (list handle) :=
  match states with
  | None => _ ← require (length (state_records ix) <=? 1)%nat ValueError; Ok (state_records ix)
  | Some l =>
      _ ← require (match l with [] => false | _ => true end) ValueError;
      selected ← map_res (authenticate_state e ix) l;
      _ ← require (negb (repeats selected)) ValueError;
      Ok selected
  end.

(** [BlockRegistry.add] *)
Definition add (name : string) (m : option model) (states : option (list handle)) : ST handle :=
  r <- get;
  _ <- demand (negb (r_frozen r)) RuntimeError;
  _ <- demand (negb (String.eqb name "")) TypeError;
  m <- match m with Some m => ret m | None => raise ValueError end;
  _ <- demand (bool_decide (dget name (r_blocks r) = None)) ValueError;
  owner <- match md_owner m with Some o => ret o | None => raise MissingOwnershipError end;
  model_name <- match md_name m with
                | Some n => _ <- demand (negb (String.eqb n "")) MissingOwnershipError; ret n
                | None => raise MissingOwnershipError
                end;
  _ <- reads (fun _ => require_authoring_root owner MODEL_DEFINITION (Some model_name));
  ix <- provided_index m owner;
  _ <- stabilize_model_definition m owner;
  selected <- reads (fun e => select_states e ix states);
  canonical_owner <- reads (fun e => canonical e owner);
  _ <- demand (match dget canonical_owner (r_model_owners r) with Some o => (o =? md_object m)%nat | None => true end) IdentityCollisionError;
  h <- reads (fun _ => block_handle (r_owner r) name owner 1);
  _ <- put (Registry (r_owner r) (dset name (Spec m selected) (r_blocks r)) (dset name h (r_handles r))
              (dset canonical_owner (md_object m) (r_model_owners r)) (dset owner ix (r_indexes r)) (r_instances r) (r_frozen r));
  ret h.

(** The model owner of a block. *)
Definition model_owner_path (block : handle) : ST OwnerPath := match extra block with Block m => ret m | _ => raise AttributeError end.

(** [_index_for] *)
Definition index_for (block : handle) : ST index :=
  r <- get;
  owner <- model_owner_path block;
  match dget owner (r_indexes r) with
  | Some ix => ret ix
  | None =>
      spec <- row (local_id block) (r_blocks r);
      ix <- provided_index (bs_model spec) owner;
      r <- get;
      _ <- demand (negb (r_frozen r)) TypeError;
      _ <- put (Registry (r_owner r) (r_blocks r) (r_handles r) (r_model_owners r) (dset owner ix (r_indexes r)) (r_instances r) (r_frozen r));
      ret ix
  end.

(** [_canonical_block] *)
Definition canonical_block (block : handle) : ST handle :=
  r <- get; reads (fun e => owner ← canonical e (r_owner r); resolved e block (Some owner)).

(** [_registered_block] *)
Definition is_block (h : handle) : bool := match extra h with Block _ => true | _ => false end.
Definition same_model_owner (a b : handle) : bool :=
  match extra a, extra b with Block m, Block m' => bool_decide (m = m') | _, _ => false end.
Definition registered_block (block : handle) : ST handle :=
  _ <- demand (is_block block) TypeError;
  r <- get;
  match dget (local_id block) (r_handles r) with
  | None => raise MissingOwnershipError
  | Some registered =>
      if is_resolved block then
        expected <- canonical_block registered;
        _ <- demand (bool_decide (owner_path block = owner_path expected)) MissingOwnershipError;
        same <- reads (fun e => a ← canonical_identity e block; b ← canonical_identity e expected; Ok (json_eq a b));
        _ <- demand (same && same_model_owner block expected) MissingOwnershipError;
        ret registered
      else
        _ <- demand (handle_eq registered block && same_model_owner registered block) MissingOwnershipError;
        ret registered
  end.

(** [_qualify_new] *)
Definition qualify_new (declaration block : handle) : ST handle :=
  ix <- index_for block;
  registered <- reads (fun e => authenticate e ix declaration);
  r <- get;
  _ <- (if String.eqb (handle_kind registered) "state" then
          spec <- row (local_id block) (r_blocks r);
          demand (existsb (handle_eq registered) (bs_states spec)) MissingOwnershipError
        else ret tt);
  let key := (local_id block, identity_tuple registered) in
  match dget key (r_instances r) with
  | Some cached => ret cached
  | None =>
      path <- reads (fun e => instance_owner_path e block);
      let qualified := with_owner registered path (Some registered) (Some block) in
      _ <- demand (negb (r_frozen r)) TypeError;
      _ <- put (Registry (r_owner r) (r_blocks r) (r_handles r) (r_model_owners r) (r_indexes r) (dset key qualified (r_instances r)) (r_frozen r));
      ret qualified
  end.

(** [_canonicalize_instance] *)
Definition canonicalize_instance (qualified live_block : handle) : ST handle :=
  block <- canonical_block live_block;
  declaration <- match declaration_ref qualified with Some d => ret d | None => raise MissingOwnershipError end;
  owner <- model_owner_path live_block;
  declaration <- reads (fun e => o ← canonical e owner; resolved e declaration (Some o));
  path <- reads (fun e => p ← instance_owner_path e live_block; canonical e p);
  ret (with_owner qualified path (Some declaration) (Some block)).

(** [_authenticate_existing_instance] *)
Definition authenticate_existing_instance (declaration : handle) : ST handle :=
  block <- match block_ref declaration with Some b => ret b | None => raise MissingOwnershipError end;
  original <- match declaration_ref declaration with Some d => ret d | None => raise MissingOwnershipError end;
  block <- registered_block block;
  ix <- index_for block;
  registered <- reads (fun e => authenticate e ix original);
  expected <- qualify_new registered block;
  if is_resolved declaration then
    canonical <- canonicalize_instance expected block;
    same <- reads (fun e => a ← canonical_identity e declaration; b ← canonical_identity e canonical; Ok (json_eq a b));
    _ <- demand same MissingOwnershipError; ret expected
  else _ <- demand (handle_eq declaration expected) MissingOwnershipError; ret expected.

(** The candidates of an unqualified reference. *)
Definition accepting (declaration : handle) (e : env) (blocks : list handle) : res (list handle) :=
  l ← map_res (fun b => a ← accepts e b declaration; Ok (b, a)) blocks; Ok (map fst (List.filter snd l)).
Definition is_candidate (declaration block : handle) : ST bool :=
  ix <- index_for block;
  known <- reads (fun e => index_contains e ix declaration);
  if known then
    registered <- reads (fun e => authenticate e ix declaration);
    if String.eqb (handle_kind registered) "state" then
      r <- get; spec <- row (local_id block) (r_blocks r); ret (existsb (handle_eq registered) (bs_states spec))
    else ret true
  else ret false.
Fixpoint candidates (declaration : handle) (blocks : list handle) : ST (list handle) :=
  match blocks with
  | [] => ret []
  | b :: blocks => yes <- is_candidate declaration b; rest <- candidates declaration blocks; ret (if yes then b :: rest else rest)
  end.

(** [BlockRegistry.qualify] *)
Definition qualify (declaration : handle) (block : option handle) (allow_existing : bool) : ST handle :=
  let path := owner_path declaration in
  if bool_decide (sg_kind <$> head (op_nodes path) = Some SHARED) then
    if is_instance declaration then raise DoubleOwnershipError else ret declaration
  else match block with
  | Some block =>
      registered <- registered_block block;
      if contains path BLOCK then
        _ <- demand allow_existing DoubleOwnershipError;
        existing <- authenticate_existing_instance declaration;
        _ <- demand (match block_ref existing with Some b => handle_eq b registered | None => false end) MissingOwnershipError;
        ret existing
      else qualify_new declaration registered
  | None =>
      if contains path BLOCK then
        if allow_existing then authenticate_existing_instance declaration else raise MissingOwnershipError
      else
        r <- get;
        owners <- reads (fun e => accepting declaration e (map snd (r_handles r)));
        found <- candidates declaration owners;
        match found with
        | [block] => qualify_new declaration block
        | _ :: _ :: _ => raise AmbiguousReferenceError
        | [] =>
            _ <- match owners with
                 | block :: _ => ix <- index_for block; _ <- reads (fun e => authenticate e ix declaration); ret tt
                 | [] => ret tt
                 end;
            raise MissingOwnershipError
        end
  end.

(** [BlockRegistry.canonicalize] *)
Definition canonicalize (declaration : handle) (block : option handle) : ST handle :=
  qualified <- qualify declaration block true;
  if bool_decide (sg_kind <$> head (op_nodes (owner_path qualified)) = Some SHARED) then reads (fun e => resolved e qualified None)
  else
    _ <- demand (is_instance qualified) MissingOwnershipError;
    block <- match block_ref qualified with Some b => ret b | None => raise TypeError end;
    live <- registered_block block;
    canonicalize_instance qualified live.

(** [_prepare_freeze] *)
Fixpoint qualify_all (block : handle) (states : list handle) (records : list handle) : ST unit :=
  match records with
  | [] => ret tt
  | d :: records =>
      _ <- (if String.eqb (handle_kind d) "state" && negb (existsb (handle_eq d) states) then ret tt
            else _ <- qualify_new d block; ret tt);
      qualify_all block states records
  end.
Fixpoint prepare_blocks (blocks : list handle) : ST unit :=
  match blocks with
  | [] => ret tt
  | b :: blocks =>
      ix <- index_for b;
      r <- get;
      spec <- row (local_id b) (r_blocks r);
      _ <- qualify_all b (bs_states spec) (map snd (ix_records ix));
      prepare_blocks blocks
  end.
Definition prepare_freeze : ST unit := r <- get; prepare_blocks (map snd (r_handles r)).

(** [freeze]: the registry is sealed after its members; a failure restores it. *)
Definition freeze (members : ST unit) : ST unit := fun s =>
  if r_frozen s.2 then (Ok tt, s)
  else match (_ <- prepare_freeze; members) s with
       | (Ok _, (e, r)) =>
           (Ok tt, (e, Registry (r_owner r) (r_blocks r) (r_handles r) (r_model_owners r) (r_indexes r) (r_instances r) true))
       | (Err x, (e, _)) => (Err x, (e, s.2))
       end.
End Registry.

(** ** The state of a registry *)

(** A model and a Case while they are authored. *)
Definition authored (kind : OwnerKind) (p : OwnerPath) : Prop := well_formed p ∧ kinds (op_nodes p) = [kind] ∧ is_authoring p = true.

(** What a model declares: no instances and no blocks. *)
Definition declared (owner : OwnerPath) (h : handle) : Prop :=
  wf_handle h ∧ owner_path h = owner ∧ declaration_ref h = None ∧ is_block h = false.
Record index_ok (owner : OwnerPath) (ix : index) : Prop := {
  io_owner : ix_owner ix = owner;
  io_records : ∀ k l h, ((k, l), h) ∈ ix_records ix → handle_kind h = k ∧ local_id h = l ∧ declared owner h }.

Definition block_of (r : registry) (n : string) (owner : OwnerPath) : handle := Handle (r_owner r) n "block" 1 (Block owner) None None.

(** The instance of a declaration in a block. *)
Definition instance_of_block (r : registry) (n : string) (owner : OwnerPath) (fp : option string) (d : handle) : handle :=
  with_owner d (Path (op_nodes (r_owner r) ++ Segment BLOCK n :: op_nodes owner) (op_authority (r_owner r)) fp) (Some d) (Some (block_of r n owner)).

(** A state is qualified only by a block that selects it. *)
Definition selected (r : registry) (n : string) (d : handle) : Prop :=
  String.eqb (handle_kind d) "state" = true → ∃ spec, dget n (r_blocks r) = Some spec ∧ existsb (handle_eq d) (bs_states spec) = true.

Record registry_ok (r : registry) : Prop := {
  ro_owner : authored CASE (r_owner r);
  ro_names : NoDup (map fst (r_blocks r));
  ro_keys : map fst (r_handles r) = map fst (r_blocks r);
  ro_handles : ∀ n h, (n, h) ∈ r_handles r → n ≠ EmptyString ∧ ∃ owner ix, h = block_of r n owner ∧ authored MODEL_DEFINITION owner
                 ∧ dget owner (r_indexes r) = Some ix ∧ index_ok owner ix;
  ro_instances : ∀ n id q, dget (n, id) (r_instances r) = Some q → ∃ owner ix fp d,
                 dget n (r_handles r) = Some (block_of r n owner) ∧ dget owner (r_indexes r) = Some ix
                 ∧ dget (handle_kind d, local_id d) (ix_records ix) = Some d ∧ id = identity_tuple d ∧ q = instance_of_block r n owner fp d ∧ well_formed (owner_path q)
                 ∧ selected r n d }.

(** Qualification adds instances and nothing else. *)
Record grows (r r' : registry) : Prop := {
  gr_same : Registry (r_owner r) (r_blocks r) (r_handles r) (r_model_owners r) (r_indexes r) [] (r_frozen r)
            = Registry (r_owner r') (r_blocks r') (r_handles r') (r_model_owners r') (r_indexes r') [] (r_frozen r');
  gr_instances : ∀ key q, dget key (r_instances r) = Some q → dget key (r_instances r') = Some q }.

Lemma grows_refl r : grows r r.
Proof. by split. Qed.
Lemma grows_trans r1 r2 r3 : grows r1 r2 → grows r2 r3 → grows r1 r3.
Proof. intros [E1 I1] [E2 I2]. split; [congruence | auto]. Qed.

Section Runs.
Context (digest : list handle → string) (e : env).

(** From a good registry, an operation that keeps the environment, only adds
    instances, and whose result, if it returns one, satisfies [Q]. *)
Definition runs {A} (r : registry) (m : ST A) (Q : A → registry → Prop) : Prop :=
  ∃ a r', m (e, r) = (a, (e, r')) ∧ registry_ok r' ∧ grows r r' ∧ ∀ v, a = Ok v → Q v r'.

Lemma runs_ret {A} r (v : A) Q : registry_ok r → Q v r → runs r (ret v) Q.
Proof. intros Hr Hq. exists (Ok v), r. split_and!; [done|done|apply grows_refl|by intros ? [= <-]]. Qed.
Lemma runs_raise {A} r x (Q : A → registry → Prop) : registry_ok r → runs r (raise x) Q.
Proof. intros Hr. exists (Err x), r. split_and!; [done|done|apply grows_refl|done]. Qed.
Lemma runs_reads {A} r (f : env → res A) Q : registry_ok r → (∀ v, f e = Ok v → Q v r) → runs r (reads f) Q.
Proof. intros Hr Hq. exists (f e), r. split_and!; [done|done|apply grows_refl|done]. Qed.
Lemma runs_demand r b x Q : registry_ok r → (b = true → Q tt r) → runs r (demand b x) Q.
Proof. intros Hr Hq. destruct b; [by apply runs_ret; auto | by apply runs_raise]. Qed.
Lemma runs_get r Q : registry_ok r → Q r r → runs r get Q.
Proof. intros Hr Hq. exists (Ok r), r. split_and!; [done|done|apply grows_refl|by intros ? [= <-]]. Qed.
Lemma runs_bind {A B} r (m : ST A) (f : A → ST B) Q R :
  runs r m Q → (∀ v r', registry_ok r' → grows r r' → Q v r' → runs r' (f v) R) → runs r (bind m f) R.
Proof.
  intros (a & r' & Hm & Hr & Hg & Hq) Hf. unfold bind. destruct a as [v|x].
  - destruct (Hf v r' Hr Hg (Hq v eq_refl)) as (b & r'' & Hb & Hr'' & Hg' & Hq'). exists b, r''. unfold runs. rewrite Hm. cbn.
    split_and!; [done|done|by eapply grows_trans|done].
  - exists (Err x), r'. rewrite Hm. by split_and!.
Qed.
Lemma runs_mono {A} r (m : ST A) (Q R : A → registry → Prop) : runs r m Q → (∀ v r', registry_ok r' → grows r r' → Q v r' → R v r') → runs r m R.
Proof. intros (a & r' & Hm & Hr & Hg & Hq) Hw. exists a, r'. split_and!; try done. intros v E. auto. Qed.

(** *** Blocks and their indexes *)

Lemma handle_entry r n h : registry_ok r → dget n (r_handles r) = Some h → ∃ owner ix,
  n ≠ EmptyString ∧ h = block_of r n owner ∧ authored MODEL_DEFINITION owner ∧ dget owner (r_indexes r) = Some ix ∧ index_ok owner ix.
Proof. intros Hr H%dget_Some_elem. destruct (ro_handles r Hr _ _ H) as (? & owner & ix & ?). exists owner, ix. tauto. Qed.

Lemma index_for_run r n owner ix : dget owner (r_indexes r) = Some ix → index_for digest (block_of r n owner) (e, r) = (Ok ix, (e, r)).
Proof. intros H. unfold index_for, bind, get, model_owner_path, ret. cbn. by rewrite H. Qed.

Lemma authenticate_ok ix h d : authenticate e ix h = Ok d → dget (handle_kind h, local_id h) (ix_records ix) = Some d.
Proof.
  unfold authenticate. intros H. destruct (if is_resolved h then _ else _) as [o|]; [|done]. cbn [mbind res_bind] in H.
  destruct (bool_decide _); [|done]. cbn [require mbind res_bind] in H. destruct (dget _ _) as [d'|]; [|done].
  destruct (if is_resolved h then _ else _) as [[]|] in H; [|done|done]. by injection H as <-.
Qed.

Lemma record_key owner ix k l d : index_ok owner ix → dget (k, l) (ix_records ix) = Some d →
  declared owner d ∧ handle_kind d = k ∧ local_id d = l ∧ dget (handle_kind d, local_id d) (ix_records ix) = Some d.
Proof. intros Hix H. apply dget_Some_elem in H as Hin. destruct (io_records owner ix Hix _ _ _ Hin) as (<- & <- & ?). done. Qed.

Lemma registered_block_run r b : registry_ok r →
  ∃ a, registered_block b (e, r) = (a, (e, r)) ∧ ∀ h, a = Ok h → dget (local_id b) (r_handles r) = Some h.
Proof.
  intros Hr. unfold registered_block, bind, demand. destruct (is_block b); [|by eexists]. cbn. destruct (dget (local_id b) (r_handles r)) as [h|]; [|by eexists].
  destruct (is_resolved b).
  - unfold canonical_block, bind, get, reads. cbn. destruct (canonical e (r_owner r)) as [o|]; [|by eexists]. cbn. destruct (resolved e h (Some o)) as [x|]; [|by eexists].
    destruct (bool_decide _); [|by eexists]. cbn. destruct (canonical_identity e b); [|by eexists]. cbn. destruct (canonical_identity e x); [|by eexists]. cbn.
    destruct (_ && _); [|by eexists]. eexists. split; [done|]. by intros ? [= <-].
  - destruct (_ && _); [|by eexists]. eexists. split; [done|]. by intros ? [= <-].
Qed.

Hypothesis He : env_ok e.

(** *** Qualification *)

Lemma instance_owner_path_ok r n owner p : registry_ok r → authored MODEL_DEFINITION owner → instance_owner_path e (block_of r n owner) = Ok p →
  well_formed p ∧ ∃ fp, p = Path (op_nodes (r_owner r) ++ Segment BLOCK n :: op_nodes owner) (op_authority (r_owner r)) fp.
Proof.
  intros Hr (Hw & _ & _) H. unfold instance_owner_path in H. cbn [extra block_of owner_path local_id] in H.
  destruct (child (r_owner r) BLOCK n) as [c|] eqn:Ec; [|done]. cbn [mbind res_bind] in H.
  destruct (ro_owner r Hr) as (Hcase & _ & _). apply child_ok in Ec as Hc; [|done]. destruct Hc as (-> & Hn & k0 & Hk0 & Hk).
  assert (Hwc : well_formed (Path (op_nodes (r_owner r) ++ [Segment BLOCK n]) (op_authority (r_owner r)) (op_fingerprint (r_owner r)))).
  { unfold child in Ec. destruct (mk_segment BLOCK n) as [s|] eqn:Es; [|done]. apply mk_segment_ok in Es as [-> _]. cbn [mbind res_bind] in Ec.
    apply mk_path_typed in Ec; [by destruct Ec|]. apply Forall_app. split; [apply Hcase | by constructor]. }
  apply (instance_typed e _ _ _ He Hwc Hw) in H as (Hp & Hnodes & Hauth & _). cbn [op_nodes op_authority] in *. split; [done|].
  exists (op_fingerprint p). destruct p as [np ap fp]. cbn in *. subst. by rewrite <- app_assoc.
Qed.

Lemma identity_tuple_key d d' : identity_tuple d = identity_tuple d' → handle_kind d = handle_kind d' ∧ local_id d = local_id d'.
Proof. unfold identity_tuple. intros [= _ _ -> -> _]. done. Qed.

Lemma store_ok r n owner ix fp d : registry_ok r → well_formed (owner_path (instance_of_block r n owner fp d)) → selected r n d → dget n (r_handles r) = Some (block_of r n owner) → dget owner (r_indexes r) = Some ix →
  dget (handle_kind d, local_id d) (ix_records ix) = Some d → dget (n, identity_tuple d) (r_instances r) = None →
  let r' := Registry (r_owner r) (r_blocks r) (r_handles r) (r_model_owners r) (r_indexes r)
              (dset (n, identity_tuple d) (instance_of_block r n owner fp d) (r_instances r)) (r_frozen r) in
  registry_ok r' ∧ grows r r'.
Proof.
  intros Hr Hwf Hsel Hn Hix Hd Hnew r'. split.
  - destruct Hr as [H1 H2 H3 H4 H5]. split; try done. cbn [r_instances r']. intros n' id q H. rewrite dget_dset in H. case_decide as E.
    + injection E as -> ->. injection H as <-. exists owner, ix, fp, d. done.
    + by apply H5.
  - split; [done|]. cbn [r_instances r']. intros key q Hq. rewrite dget_dset. case_decide as E; [subst key; by rewrite Hnew in Hq | done].
Qed.

Lemma qualify_new_runs r d n owner ix : registry_ok r → dget n (r_handles r) = Some (block_of r n owner) → dget owner (r_indexes r) = Some ix →
  runs r (qualify_new digest d (block_of r n owner)) (fun q r' => ∃ registered, dget (handle_kind d, local_id d) (ix_records ix) = Some registered
    ∧ dget (n, identity_tuple registered) (r_instances r') = Some q).
Proof.
  intros Hr Hn Hix. destruct (handle_entry r n _ Hr Hn) as (owner' & ix' & Hne & E & Hauth & Hix' & Hok).
  injection E as <-. rewrite Hix in Hix'. injection Hix' as <-. unfold qualify_new.
  eapply (runs_bind _ _ _ (fun i r' => i = ix ∧ r' = r)).
  { exists (Ok ix), r. rewrite (index_for_run r n owner ix Hix). split_and!; [done|done|apply grows_refl|by intros ? [= <-]]. }
  intros i ? _ _ [-> ->]. eapply (runs_bind _ _ _ (fun g r' => authenticate e ix d = Ok g ∧ r' = r)); [by apply runs_reads|].
  intros g ? _ _ [Hg ->]. apply authenticate_ok in Hg. destruct (record_key owner ix _ _ g Hok Hg) as (Hdecl & Hk & Hl & Hrec).
  eapply (runs_bind _ _ _ (fun v r' => v = r ∧ r' = r)); [by apply runs_get|]. intros ? ? _ _ [-> ->].
  eapply (runs_bind _ _ _ (fun _ r' => selected r n g ∧ r' = r)).
  { unfold selected. destruct (String.eqb _ _); [|by apply runs_ret]. eapply (runs_bind _ _ _ (fun spec r' => dget n (r_blocks r) = Some spec ∧ r' = r)).
    - unfold row. cbn [local_id block_of]. destruct (dget n (r_blocks r)) eqn:E; [by apply runs_ret | by apply runs_raise].
    - intros spec ? _ _ [Es ->]. apply runs_demand; [done|]. intros Hs. split; [|done]. eauto. }
  intros ? ? _ _ [Hsel ->]. cbn [local_id block_of]. destruct (dget (n, identity_tuple g) (r_instances r)) as [q|] eqn:Eq.
  - apply runs_ret; [done|]. eauto.
  - eapply (runs_bind _ _ _ (fun p r' => instance_owner_path e (block_of r n owner) = Ok p ∧ r' = r)); [by apply runs_reads|].
    intros p ? _ _ [Hp ->]. apply (instance_owner_path_ok r n owner p Hr Hauth) in Hp as (Hwf & fp & ->).
    eapply (runs_bind _ _ _ (fun _ r' => r' = r)); [by apply runs_demand|]. intros ? ? _ _ ->.
    destruct (store_ok r n owner ix fp g Hr ltac:(by destruct g) Hsel Hn Hix Hrec Eq) as [Hr' Hg'].
    eapply (runs_bind _ _ _ (fun _ r' => r' = Registry (r_owner r) (r_blocks r) (r_handles r) (r_model_owners r) (r_indexes r)
      (dset (n, identity_tuple g) (instance_of_block r n owner fp g) (r_instances r)) (r_frozen r))).
    { eexists (Ok tt), _. split_and!; [reflexivity|exact Hr'|exact Hg'|done]. }
    intros ? ? _ _ ->. apply runs_ret; [done|]. exists g. split; [done|]. cbn [r_instances]. rewrite dget_dset, decide_True by done. done.
Qed.

(** The canonical form of an instance, read off the environment. *)
Definition canonical_form (r : registry) (q block : handle) : res handle :=
  b ← (o ← canonical e (r_owner r); resolved e block (Some o));
  d ← match declaration_ref q with Some d => Ok d | None => Err MissingOwnershipError end;
  owner ← match extra block with Block m => Ok m | _ => Err AttributeError end;
  d ← (o ← canonical e owner; resolved e d (Some o));
  p ← (p ← instance_owner_path e block; canonical e p);
  Ok (with_owner q p (Some d) (Some b)).

Lemma canonicalize_instance_run r q block : canonicalize_instance q block (e, r) = (canonical_form r q block, (e, r)).
Proof.
  unfold canonicalize_instance, canonical_form, canonical_block, model_owner_path, bind, get, reads, ret, raise. cbn [fst snd].
  destruct (o ← canonical e (r_owner r); resolved e block (Some o)); [|done]. cbn [mbind res_bind]. destruct (declaration_ref q); [|done]. cbn [mbind res_bind].
  destruct (extra block) as [| | |m]; try done. cbn [mbind res_bind fst snd]. destruct (o ← canonical e m; resolved e h (Some o)); [|done]. cbn [mbind res_bind].
  by destruct (p ← instance_owner_path e block; canonical e p).
Qed.

(** An instance the registry issued, and its block. *)
Definition issued (r : registry) (n : string) (q : handle) : Prop := ∃ id, dget (n, id) (r_instances r) = Some q.

(** What is known of a reference that was accepted as an instance. *)
Definition recognised (r : registry) (d q : handle) : Prop :=
  ∃ b owner, block_ref d = Some b ∧ dget (local_id b) (r_handles r) = Some (block_of r (local_id b) owner) ∧ issued r (local_id b) q
  ∧ if is_resolved d
    then ∃ c x y, canonical_form r q (block_of r (local_id b) owner) = Ok c ∧ canonical_identity e d = Ok x ∧ canonical_identity e c = Ok y ∧ json_eq x y = true
    else handle_eq d q = true.

Lemma grows_fields r r' : grows r r' → r_owner r' = r_owner r ∧ r_blocks r' = r_blocks r ∧ r_handles r' = r_handles r
  ∧ r_indexes r' = r_indexes r ∧ r_frozen r' = r_frozen r.
Proof. intros [[=] _]. done. Qed.

Lemma block_of_grows r r' n owner : grows r r' → block_of r' n owner = block_of r n owner.
Proof. intros (E & _)%grows_fields. unfold block_of. by rewrite E. Qed.

Lemma issued_grows r r' n q : grows r r' → issued r n q → issued r' n q.
Proof. intros G (id & H). exists id. by apply G. Qed.

Lemma authenticate_existing_runs r d : registry_ok r → runs r (authenticate_existing_instance digest d) (fun q r' => recognised r' d q).
Proof.
  intros Hr. unfold authenticate_existing_instance. destruct (block_ref d) as [b|] eqn:Eb; [|by apply runs_raise].
  destruct (declaration_ref d) as [o|]; [|by apply runs_raise].
  eapply (runs_bind _ _ _ (fun v r' => v = b ∧ r' = r)); [by apply runs_ret|]. intros ? ? _ _ [-> ->].
  eapply (runs_bind _ _ _ (fun v r' => v = o ∧ r' = r)); [by apply runs_ret|]. intros ? ? _ _ [-> ->].
  eapply (runs_bind _ _ _ (fun h r' => dget (local_id b) (r_handles r) = Some h ∧ r' = r)).
  { destruct (registered_block_run r b Hr) as (a & Ha & Hq). exists a, r. split_and!; [done|done|apply grows_refl|auto]. }
  intros h ? _ _ [Hh ->]. destruct (handle_entry r _ _ Hr Hh) as (owner & ix & Hn & -> & Hauth & Hix & Hok).
  eapply (runs_bind _ _ _ (fun i r' => i = ix ∧ r' = r)).
  { exists (Ok ix), r. rewrite (index_for_run r _ owner ix Hix). split_and!; [done|done|apply grows_refl|by intros ? [= <-]]. }
  intros i ? _ _ [-> ->]. eapply (runs_bind _ _ _ (fun _ r' => r' = r)); [by apply runs_reads|]. intros g ? _ _ ->.
  eapply (runs_bind _ _ _ (fun q r' => issued r' (local_id b) q ∧ grows r r')).
  { eapply runs_mono; [by eapply qualify_new_runs|]. intros q r' _ G (x & _ & Hq). by split; [exists (identity_tuple x)|]. }
  intros q r1 Hr1 _ [Hq G]. pose proof (grows_fields _ _ G) as (Eo & _ & Eh & _).
  assert (Hent : dget (local_id b) (r_handles r1) = Some (block_of r1 (local_id b) owner)) by (by rewrite Eh, (block_of_grows r r1)).
  rewrite <- (block_of_grows r r1 _ _ G). destruct (is_resolved d) eqn:Ed.
  - eapply (runs_bind _ _ _ (fun c r' => canonical_form r1 q (block_of r1 (local_id b) owner) = Ok c ∧ r' = r1)).
    { eexists _, r1. rewrite canonicalize_instance_run. split_and!; [done|done|apply grows_refl|auto]. }
    intros c ? _ _ [Hc ->]. eapply (runs_bind _ _ _ (fun v r' => (a ← canonical_identity e d; b ← canonical_identity e c; Ok (json_eq a b)) = Ok v ∧ r' = r1));
      [by apply runs_reads|]. intros v ? _ _ [Hv ->].
    eapply (runs_bind _ _ _ (fun _ r' => v = true ∧ r' = r1)); [by apply runs_demand|]. intros ? ? _ _ [-> ->]. apply runs_ret; [done|].
    exists b, owner. split_and!; try done. rewrite Ed. destruct (canonical_identity e d) as [x|] eqn:Ex; [|done]. destruct (canonical_identity e c) as [y|] eqn:Ey; [|done].
    cbn in Hv. injection Hv as Hv. eauto 10.
  - eapply (runs_bind _ _ _ (fun _ r' => handle_eq d q = true ∧ r' = r1)); [by apply runs_demand|]. intros ? ? _ _ [Hq' ->]. apply runs_ret; [done|].
    exists b, owner. split_and!; try done. by rewrite Ed.
Qed.

(** *** Candidates *)

Definition registered_name (r : registry) (b : handle) : Prop := dget (local_id b) (r_handles r) = Some b.

Lemma registered_handles r b : registry_ok r → b ∈ map snd (r_handles r) → registered_name r b.
Proof.
  intros Hr ((n & h) & -> & Hin)%list_elem_of_fmap. destruct (ro_handles r Hr n h Hin) as (_ & owner & ix & -> & _).
  unfold registered_name. cbn. apply dget_elem; [|done]. unfold dkeys. rewrite (ro_keys r Hr). apply (ro_names r Hr).
Qed.

Lemma is_candidate_run r d b : registry_ok r → registered_name r b → ∃ a, is_candidate digest d b (e, r) = (a, (e, r)).
Proof.
  intros Hr Hb. destruct (handle_entry r _ _ Hr Hb) as (owner & ix & _ & E & _ & Hix & _). unfold is_candidate. rewrite E. unfold bind at 1.
  rewrite (index_for_run r _ owner ix Hix). unfold bind, reads, get, row, ret, raise. cbn [fst snd].
  destruct (index_contains e ix d) as [[]|]; cbn [fst snd]; [|by eexists..]. destruct (authenticate e ix d) as [g|]; [|by eexists].
  destruct (String.eqb _ _); [|by eexists]. cbn [fst snd]. by destruct (dget (local_id (block_of r (local_id b) owner)) (r_blocks r)); eexists.
Qed.

Lemma candidates_run r d bs : registry_ok r → (∀ b, b ∈ bs → registered_name r b) →
  ∃ a, candidates digest d bs (e, r) = (a, (e, r)) ∧ ∀ l, a = Ok l → ∀ b, b ∈ l ↔ b ∈ bs ∧ is_candidate digest d b (e, r) = (Ok true, (e, r)).
Proof.
  intros Hr. induction bs as [|b bs IH]; intros Hbs; cbn [candidates].
  { eexists. split; [done|]. intros l [= <-] c. rewrite elem_of_nil. tauto. }
  destruct (is_candidate_run r d b Hr) as (a & Ha); [apply Hbs; left|]. unfold bind. rewrite Ha. destruct a as [yes|x]; [|by eexists].
  destruct IH as (a' & Ha' & Hl); [intros c Hc; apply Hbs; by right|]. rewrite Ha'. destruct a' as [rest|x]; [|by eexists].
  eexists. split; [reflexivity|]. intros l [= <-] c. specialize (Hl rest eq_refl c). destruct yes; rewrite !elem_of_cons, Hl; split; try tauto.
  - intros [->|?]; tauto.
  - intros [[->|?] Hc]; [congruence | tauto].
Qed.

Lemma accepting_ok d bs l : accepting d e bs = Ok l → ∀ b, b ∈ l → b ∈ bs ∧ accepts e b d = Ok true.
Proof.
  unfold accepting. destruct (map_res _ bs) as [ps|] eqn:E; [|done]. cbn. intros [= <-] b ([b' a] & -> & Hin)%list_elem_of_fmap.
  apply filter_elem in Hin as [Hin Ha]. cbn in Ha. subst a. apply map_res_Forall2 in E. destruct (Forall2_right _ _ _ _ E Hin) as (c & Hc & Ec).
  destruct (accepts e c d) as [y|] eqn:Ey; [|done]. cbn in Ec. injection Ec as <- ->. done.
Qed.

Lemma accepting_all d bs l : accepting d e bs = Ok l → ∀ b, b ∈ bs → accepts e b d = Ok true → b ∈ l.
Proof.
  unfold accepting. destruct (map_res _ bs) as [ps|] eqn:E; [|done]. cbn. intros [= <-] b Hb Ha. apply map_res_Forall2 in E.
  destruct (Forall2_left _ _ _ _ E Hb) as ([b' a] & Hin & Eb). rewrite Ha in Eb. cbn in Eb. injection Eb as <- <-.
  apply list_elem_of_fmap. exists (b, true). split; [done|]. by apply filter_elem.
Qed.

(** *** [qualify] *)

Definition shared (d : handle) : bool := bool_decide (sg_kind <$> head (op_nodes (owner_path d)) = Some SHARED).

(** What a qualification may return. *)
Inductive qualified (r : registry) (d : handle) (block : option handle) (q : handle) : Prop :=
| q_shared : shared d = true → declaration_ref d = None → q = d → qualified r d block q
| q_existing : shared d = false → contains (owner_path d) BLOCK = true → recognised r d q →
    (∀ b, block = Some b → issued r (local_id b) q) → qualified r d block q
| q_new n owner ix g : shared d = false → contains (owner_path d) BLOCK = false → dget n (r_handles r) = Some (block_of r n owner) →
    dget owner (r_indexes r) = Some ix → dget (handle_kind d, local_id d) (ix_records ix) = Some g →
    dget (n, identity_tuple g) (r_instances r) = Some q → (∀ b, block = Some b → n = local_id b) →
    (block = None → ∀ b, b ∈ map snd (r_handles r) → accepts e b d = Ok true → is_candidate digest d b (e, r) = (Ok true, (e, r)) → b = block_of r n owner) →
    qualified r d block q.

Lemma issued_block r n q : registry_ok r → issued r n q → ∃ owner fp d, q = instance_of_block r n owner fp d ∧ dget n (r_handles r) = Some (block_of r n owner)
  ∧ well_formed (owner_path q)
  ∧ ∃ ix, dget owner (r_indexes r) = Some ix ∧ dget (handle_kind d, local_id d) (ix_records ix) = Some d ∧ dget (n, identity_tuple d) (r_instances r) = Some q
    ∧ selected r n d.
Proof. intros Hr (id & H). destruct (ro_instances r Hr n id q H) as (owner & ix & fp & d & ? & ? & ? & -> & ? & ? & ?). exists owner, fp, d. split_and!; eauto 10. Qed.

Lemma qualify_new_of r d b block : registry_ok r → registered_name r b → shared d = false → contains (owner_path d) BLOCK = false →
  (∀ c, block = Some c → local_id b = local_id c) →
  (block = None → ∀ r' c, registry_ok r' → grows r r' → c ∈ map snd (r_handles r') → accepts e c d = Ok true → is_candidate digest d c (e, r') = (Ok true, (e, r')) → c = b) →
  runs r (qualify_new digest d b) (fun q r' => qualified r' d block q).
Proof.
  intros Hr Hb Hs Hc Hn Hu. destruct (handle_entry r _ _ Hr Hb) as (owner & ix & _ & E & _ & Hix & _).
  assert (Hent : dget (local_id b) (r_handles r) = Some (block_of r (local_id b) owner)) by (rewrite <- E; exact Hb).
  rewrite E at 1. eapply runs_mono; [by eapply qualify_new_runs|]. intros q r' Hr' G (g & Hg & Hq).
  pose proof (grows_fields _ _ G) as (Eo & _ & Eh & Ei & _).
  eapply (q_new r' d block q (local_id b) owner ix g); try done.
  - by rewrite Eh, (block_of_grows r r').
  - by rewrite Ei.
  - intros Hblock c Hin Ha Hcand. rewrite (block_of_grows r r') by done. rewrite <- E. by eapply Hu.
Qed.

Lemma is_candidate_grows r r' d b : registry_ok r → registry_ok r' → grows r r' → registered_name r b →
  is_candidate digest d b (e, r') = (Ok true, (e, r')) → is_candidate digest d b (e, r) = (Ok true, (e, r)).
Proof.
  intros Hr Hr' G Hb H. destruct (is_candidate_run r d b Hr Hb) as (a & Ha). rewrite Ha. f_equal.
  destruct (handle_entry r _ _ Hr Hb) as (owner & ix & _ & E & _ & Hix & _). pose proof (grows_fields _ _ G) as (_ & Eb & _ & Ei & _).
  assert (Hix' : dget owner (r_indexes r') = Some ix) by (by rewrite Ei). assert (E' : b = block_of r' (local_id b) owner) by (by rewrite (block_of_grows r r')).
  unfold is_candidate in H, Ha. rewrite E' in H. rewrite E in Ha. unfold bind at 1 in H. unfold bind at 1 in Ha.
  rewrite (index_for_run r _ owner ix Hix) in Ha. rewrite (index_for_run r' _ owner ix Hix') in H. unfold bind, reads, get, row, ret, raise in H, Ha. cbn [fst snd] in H, Ha.
  destruct (index_contains e ix d) as [[]|]; cbn [fst snd] in *; [|done|done]. destruct (authenticate e ix d) as [g|]; [|done].
  destruct (String.eqb _ _); cbn [fst snd local_id block_of] in *; [|congruence]. rewrite Eb in H. destruct (dget (local_id b) (r_blocks r)); [|done]. congruence.
Qed.

Lemma recognised_new r d q : recognised r d q → ∃ n, issued r n q.
Proof. intros (b & _ & _ & _ & H & _). eauto. Qed.

Lemma qualify_runs r d block allow : registry_ok r → runs r (qualify digest d block allow) (fun q r' => qualified r' d block q).
Proof.
  intros Hr. unfold qualify. fold (shared d). destruct (shared d) eqn:Hs.
  { unfold is_instance. case_bool_decide as Hi; [by apply runs_raise|]. apply runs_ret; [done|]. apply q_shared; [done| |done]. by apply eq_None_not_Some. }
  destruct block as [b|].
  - eapply (runs_bind _ _ _ (fun h r' => dget (local_id b) (r_handles r) = Some h ∧ r' = r)).
    { destruct (registered_block_run r b Hr) as (a & Ha & Hq). exists a, r. split_and!; [done|done|apply grows_refl|auto]. }
    intros h ? _ _ [Hh ->]. destruct (handle_entry r _ _ Hr Hh) as (owner & ix & _ & Eh & _).
    destruct (contains (owner_path d) BLOCK) eqn:Hc.
    + eapply (runs_bind _ _ _ (fun _ r' => r' = r)); [by apply runs_demand|]. intros ? ? _ _ ->.
      eapply runs_bind; [by apply authenticate_existing_runs|]. intros q r1 Hr1 G1 Hq.
      eapply (runs_bind _ _ _ (fun _ r' => match block_ref q with Some b' => handle_eq b' h | None => false end = true ∧ r' = r1)); [by apply runs_demand|].
      intros ? ? _ _ [Hb ->]. apply runs_ret; [done|]. apply q_existing; [done|done|exact Hq|]. intros b' [= <-].
      destruct (recognised_new _ _ _ Hq) as (n & Hn). destruct (issued_block r1 n q Hr1 Hn) as (owner' & fp & g & -> & Hent & _).
      assert (Eb : block_ref (instance_of_block r1 n owner' fp g) = Some (block_of r1 n owner')) by (by destruct g). rewrite Eb in Hb.
      apply bool_decide_eq_true in Hb. apply identity_tuple_key in Hb as [_ El]. cbn [local_id block_of] in El. subst h. cbn in El. by subst n.
    + apply qualify_new_of; try done.
      * rewrite Eh. unfold registered_name. cbn [local_id block_of]. by rewrite <- Eh.
      * intros c [= <-]. by subst h.
  - destruct (contains (owner_path d) BLOCK) eqn:Hc.
    + destruct allow; [|by apply runs_raise]. eapply runs_mono; [by apply authenticate_existing_runs|]. intros q r' _ _ Hq. by apply q_existing.
    + eapply (runs_bind _ _ _ (fun v r' => v = r ∧ r' = r)); [by apply runs_get|]. intros ? ? _ _ [-> ->].
      eapply (runs_bind _ _ _ (fun l r' => accepting d e (map snd (r_handles r)) = Ok l ∧ r' = r)); [by apply runs_reads|]. intros owners ? _ _ [Ho ->].
      assert (Hreg : ∀ b, b ∈ owners → registered_name r b) by (intros b Hb; apply registered_handles; [done|]; by eapply accepting_ok).
      destruct (candidates_run r d owners Hr Hreg) as (a & Ha & Hl).
      eapply (runs_bind _ _ _ (fun l r' => a = Ok l ∧ r' = r)).
      { exists a, r. split_and!; [done|done|apply grows_refl|auto]. }
      intros found ? _ _ [-> ->]. specialize (Hl found eq_refl). destruct found as [|b [|b' found]].
      * eapply (runs_bind _ _ _ (fun _ r' => r' = r)); [|intros ? ? _ _ ->; by apply runs_raise]. destruct owners as [|b owners]; [by apply runs_ret|].
        destruct (handle_entry r _ _ Hr (Hreg b ltac:(left))) as (owner & ix & _ & E & _ & Hix & _).
        eapply (runs_bind _ _ _ (fun i r' => r' = r)); [|intros i ? _ _ ->; eapply (runs_bind _ _ _ (fun _ r' => r' = r)); [by apply runs_reads|intros ? ? _ _ ->; by apply runs_ret]].
        rewrite E. exists (Ok ix), r. rewrite (index_for_run r _ owner ix Hix). split_and!; [done|done|apply grows_refl|done].
      * destruct (proj1 (Hl b) ltac:(left)) as [Hb _]. apply qualify_new_of; try done; [by apply Hreg|]. intros _ r' c Hr' G Hin Hacc Hcand.
        pose proof (grows_fields _ _ G) as (_ & _ & Eh & _). rewrite Eh in Hin.
        pose proof (accepting_all _ _ _ Ho c Hin Hacc) as Hc'. apply (is_candidate_grows r r') in Hcand; [|done|done|done|by apply Hreg].
        by apply list_elem_of_singleton, (proj2 (Hl c)).
      * by apply runs_raise.
Qed.
End Runs.

(** ** Distinct instances *)

Lemma wf_version h : wf_handle h → 1 <= handle_version h.
Proof. destruct h. cbn. tauto. Qed.

Lemma instance_parts r n owner fp d : let q := instance_of_block r n owner fp d in
  owner_path q = Path (op_nodes (r_owner r) ++ Segment BLOCK n :: op_nodes owner) (op_authority (r_owner r)) fp
  ∧ handle_kind q = handle_kind d ∧ local_id q = local_id d ∧ handle_version q = handle_version d ∧ extra q = extra d
  ∧ declaration_ref q = Some d ∧ block_ref q = Some (block_of r n owner).
Proof. by destruct d. Qed.

(** C23: the instances of a Case do not collide.  Two issued handles with one printed id
    are the same handle, of one declaration in one block, whatever the blocks, models
    and declarations are called. *)
Theorem instances_distinct r n n' q q' (Hr : registry_ok r) (Hq : issued r n q) (Hq' : issued r n' q') :
  qualified_id q = qualified_id q' → n = n' ∧ q = q'.
Proof.
  destruct (issued_block r n q Hr Hq) as (owner & fp & d & Eq & Hn & Hw & ix & Hix & Hd & Hk & _).
  destruct (issued_block r n' q' Hr Hq') as (owner' & fp' & d' & Eq' & Hn' & Hw' & ix' & Hix' & Hd' & Hk' & _). intros Hid.
  destruct (instance_parts r n owner fp d) as (Po & Pk & Pl & Pv & _), (instance_parts r n' owner' fp' d') as (Po' & Pk' & Pl' & Pv' & _).
  rewrite <- Eq in Po, Pk, Pl, Pv. rewrite <- Eq' in Po', Pk', Pl', Pv'.
  destruct (handle_entry r n _ Hr Hn) as (o1 & i1 & _ & E1 & _ & Hi1 & Hok). injection E1 as <-. rewrite Hix in Hi1. injection Hi1 as <-.
  destruct (handle_entry r n' _ Hr Hn') as (o2 & i2 & _ & E2 & _ & Hi2 & Hok'). injection E2 as <-. rewrite Hix' in Hi2. injection Hi2 as <-.
  destruct (record_key owner ix _ _ d Hok Hd) as ((Wd & _) & _), (record_key owner' ix' _ _ d' Hok' Hd') as ((Wd' & _) & _).
  apply qualified_id_inj in Hid as (Ho & Hkind & Hlocal & _ & _); [|done|done|rewrite Pv; by apply wf_version|rewrite Pv'; by apply wf_version].
  rewrite Po, Po' in Ho. injection Ho as Hnodes _. apply app_inv_head in Hnodes. injection Hnodes as <- _. split; [done|].
  rewrite Hn in Hn'. injection Hn' as <-. rewrite Hix in Hix'. injection Hix' as <-.
  rewrite Pk, Pk' in Hkind. rewrite Pl, Pl' in Hlocal. rewrite Hkind, Hlocal in Hd. rewrite Hd in Hd'. injection Hd' as <-. congruence.
Qed.

(** ** Reachable registries *)

Lemma require_root_authored p k name q : well_formed p → require_authoring_root p k name = Ok q → authored k p ∧ q = p.
Proof.
  intros Hw H. unfold require_authoring_root in H. destruct (is_authoring p) eqn:Ha; [|done]. cbn [require mbind res_bind] in H.
  destruct (op_nodes p) as [|s [|s' l]] eqn:En; cbn [length Nat.eqb andb require mbind res_bind] in H; [done| |done].
  case_bool_decide as Hk; [|done]. cbn [require mbind res_bind] in H. unfold last_kind in Hk. rewrite En in Hk. cbn in Hk. injection Hk as Hk.
  assert (authored k p) by (split_and!; [done|rewrite En; cbn; by rewrite Hk|done]).
  split; [done|]. destruct name; [|by injection H as <-]. by inv_ok.
Qed.

Lemma mk_registry_ok owner r : well_formed owner → mk_registry owner = Ok r → registry_ok r.
Proof.
  intros Hw H. unfold mk_registry in H. destruct (require_authoring_root owner CASE None) as [p|] eqn:E; [|done]. injection H as <-.
  apply require_root_authored in E as [Ha _]; [|done]. split; cbn; try done.
  - constructor.
  - intros n h Hin. by apply elem_of_nil in Hin.
Qed.

(** What a model promises the registry: its index belongs to its owner and declares
    handles of its own, it keeps what an earlier block of the model was given, and
    the fingerprints it binds are valid. *)
Record ModelLaws (m : model) (owner : OwnerPath) (known : option index) : Prop := {
  ml_index : ∀ e found e', env_ok e → md_index m e = (found, e') → env_ok e'
    ∧ match found with
      | Ok (Some ix) => ix_owner ix = owner → index_ok owner ix
          ∧ ∀ old key d, known = Some old → dget key (ix_records old) = Some d → dget key (ix_records ix) = Some d
      | Ok None => ∀ old, known = Some old → ix_records old = []
      | Err _ => True
      end;
  ml_stabilize : ∀ e a e', env_ok e → md_stabilize m e = (a, e') → env_ok e' }.

Lemma provided_index_ok digest m owner e r a e' r' known : env_ok e → ModelLaws m owner known → provided_index digest m owner (e, r) = (a, (e', r')) →
  r' = r ∧ env_ok e' ∧ ∀ ix, a = Ok ix → index_ok owner ix ∧ ∀ old key d, known = Some old → dget key (ix_records old) = Some d → dget key (ix_records ix) = Some d.
Proof.
  intros He Hm H. unfold provided_index, bind, calls in H. cbn [fst snd] in H. destruct (md_index m e) as [found e1] eqn:E1.
  destruct (ml_index m owner known Hm e found e1 He E1) as [He1 Hf]. destruct found as [[ix|]|x]; cbn in H.
  - unfold demand in H. case_bool_decide as Ho; cbn in H; injection H as <- <- <-; (split; [done|]; split; [done|]); [|done].
    intros ? [= <-]. by apply Hf.
  - destruct (if is_authoring owner then _ else _) as [e2|x] eqn:Eb in H; cbn in H; [|by injection H as <- <- <-].
    unfold demand in H. rewrite bool_decide_true in H by done. cbn in H. injection H as <- <- <-. split; [done|]. split.
    + destruct (is_authoring owner); [by eapply bind_keeps_env | by injection Eb as <-].
    + intros ? [= <-]. split; [split; [done|]; intros k l h Hin; by apply elem_of_nil in Hin|]. intros old key d Ek Hd. by rewrite (Hf old Ek) in Hd.
  - by injection H as <- <- <-.
Qed.

Lemma dset_keys {V} (k : string) (v : V) d : dget k d = None → map fst (dset k v d) = map fst d ++ [k].
Proof.
  induction d as [|[k' w] d IH]; [done|]. cbn. case_decide as E; [done|]. intros Hk. cbn. by rewrite IH.
Qed.

Lemma dset_pair {V} (k k' : string) (v w : V) d : (k', w) ∈ dset k v d → (k', w) = (k, v) ∨ (k', w) ∈ d.
Proof.
  induction d as [|[k1 w1] d IH]; cbn; [rewrite list_elem_of_singleton; auto|]. case_decide as E; rewrite !elem_of_cons; [subst; intros [[= -> ->]|]; auto|].
  intros [->|Hin]; [auto|]. destruct (IH Hin); auto.
Qed.

Lemma add_keeps digest e r name m states a e' r' owner (He : env_ok e) (Hr : registry_ok r) (Ho : md_owner m = Some owner) (Hw : well_formed owner)
    (Hm : ModelLaws m owner (dget owner (r_indexes r))) (H : add digest name (Some m) states (e, r) = (a, (e', r'))) :
  env_ok e' ∧ registry_ok r'
  ∧ match a with
    | Ok h => dget name (r_handles r) = None ∧ dget name (r_handles r') = Some h ∧ h = block_of r' name owner ∧ r_instances r' = r_instances r
    | Err _ => r' = r
    end.
Proof.
  unfold add, bind, get, demand, reads, ret, raise in H. cbn [fst snd] in H.
  destruct (negb (r_frozen r)); cbn in H; [|by injection H as <- <- <-].
  destruct (String.eqb_spec name ""); cbn in H; [by injection H as <- <- <-|].
  case_bool_decide as Hnew; cbn in H; [|by injection H as <- <- <-]. rewrite Ho in H.
  destruct (md_name m) as [mn|]; cbn in H; [|by injection H as <- <- <-].
  destruct (negb (String.eqb mn "")); cbn in H; [|by injection H as <- <- <-].
  destruct (require_authoring_root owner MODEL_DEFINITION (Some mn)) as [o'|] eqn:Er; cbn in H; [|by injection H as <- <- <-].
  apply require_root_authored in Er as [Hauth _]; [|done].
  destruct (provided_index digest m owner (e, r)) as [b [e1 r1]] eqn:Ep.
  destruct (provided_index_ok _ _ _ _ _ _ _ _ _ He Hm Ep) as (-> & He1 & Hix). destruct b as [ix|x]; [|by injection H as <- <- <-].
  destruct (Hix ix eq_refl) as [Hok Hext]. unfold stabilize_model_definition, bind, calls, reads, ret in H. cbn [fst snd] in H.
  destruct (md_stabilize m e1) as [b e2] eqn:Es. pose proof (ml_stabilize m owner _ Hm _ _ _ He1 Es) as He2.
  destruct b; [|by injection H as <- <- <-]. cbn [fst snd] in H. destruct (canonical e2 owner) as [c|] eqn:Ec; [|by injection H as <- <- <-]. cbn [fst snd] in H.
  destruct (select_states e2 ix states) as [sel|]; cbn [fst snd] in H; [|by injection H as <- <- <-]. rewrite Ec in H.
  destruct (match dget c (r_model_owners r) with Some o => _ | None => _ end) in H; cbn [fst snd] in H; [|by injection H as <- <- <-].
  destruct (block_handle (r_owner r) name owner 1) as [h|] eqn:Eh; cbn [fst snd] in H; [|by injection H as <- <- <-].
  apply mk_handle_ok in Eh as (Eh & _). injection H as <- <- <-.
  assert (Hfresh : dget name (r_handles r) = None).
  { apply dget_None. unfold dkeys. rewrite (ro_keys r Hr). by apply dget_None in Hnew. }
  set (r' := Registry _ _ _ _ _ _ _). assert (Hbo : ∀ n o, block_of r' n o = block_of r n o) by done. split; [done|].
  assert (Hnext : ∀ n, n ≠ name → dget n (r_handles r') = dget n (r_handles r)).
  { intros n' Hn'. cbn [r_handles r']. rewrite dget_dset. by case_decide. }
  assert (Hindex : ∀ o i, dget o (r_indexes r) = Some i → index_ok o i → ∃ i', dget o (r_indexes r') = Some i' ∧ index_ok o i'
    ∧ ∀ key d, dget key (ix_records i) = Some d → dget key (ix_records i') = Some d).
  { intros o i Hi Hoi. cbn [r_indexes r']. rewrite dget_dset. case_decide as E; [subst o|by exists i].
    exists ix. split_and!; [done|done|]. intros key d Hd. by eapply Hext. }
  split; [|cbn [r_handles r_instances r']; rewrite dget_dset, decide_True by done; by split_and!].
  split; cbn [r_owner r_blocks r_handles r']; try apply Hr.
  - rewrite dset_keys by done. apply NoDup_app. split_and!; [apply Hr| |apply NoDup_singleton].
    intros x Hx ->%list_elem_of_singleton. by apply dget_None in Hnew.
  - rewrite !dset_keys by done. by rewrite (ro_keys r Hr).
  - intros n' h' Hin. apply dset_pair in Hin as [[= -> ->]|Hin].
    + split; [done|]. exists owner, ix. split_and!; [done|done| |done]. cbn [r_indexes r']. by rewrite dget_dset, decide_True.
    + destruct (ro_handles r Hr _ _ Hin) as (Hne & o & i & -> & Ho' & Hi & Hoi). split; [done|].
      destruct (Hindex o i Hi Hoi) as (i' & Hi' & Hoi' & _). exists o, i'. by split_and!.
  - intros n' id' q Hq. destruct (ro_instances r Hr n' id' q Hq) as (o & i & fp & d & Hn' & Hi & Hd & -> & -> & Hwq & Hsel).
    destruct (handle_entry r n' _ Hr Hn') as (o2 & i2 & _ & E2 & _ & Hi2 & Hoi). injection E2 as <-. rewrite Hi in Hi2. injection Hi2 as <-.
    destruct (Hindex o i Hi Hoi) as (i' & Hi' & Hoi' & Hkeep). assert (Hne : n' ≠ name) by (intros ->; congruence).
    exists o, i', fp, d. split_and!; try done; [|by apply Hkeep|].
    + change (dget n' (r_handles r') = Some (block_of r n' o)). by rewrite Hnext.
    + intros Hk. destruct (Hsel Hk) as (spec & Hs & Hin). exists spec. split; [|done]. cbn [r_blocks r']. rewrite dget_dset. by case_decide.
Qed.

(** ** Sealing *)

Section Sealed.
Context (digest : list handle → string) (e : env) (He : env_ok e).

(** Every instance a block can be asked for has been issued. *)
Definition settled (r : registry) : Prop := ∀ n owner ix d,
  dget n (r_handles r) = Some (block_of r n owner) → dget owner (r_indexes r) = Some ix →
  dget (handle_kind d, local_id d) (ix_records ix) = Some d → selected r n d → is_Some (dget (n, identity_tuple d) (r_instances r)).

(** An operation that writes nothing. *)
Definition still {A} (r : registry) (m : ST A) : Prop := ∃ a, m (e, r) = (a, (e, r)).

Lemma still_bind {A B} r (m : ST A) (f : A → ST B) a : m (e, r) = (a, (e, r)) → (∀ v, a = Ok v → still r (f v)) → still r (bind m f).
Proof. intros Hm Hf. unfold still, bind. rewrite Hm. destruct a as [v|x]; [by apply Hf | by eexists]. Qed.

Lemma still_demand {B} r b x (f : unit → ST B) : (b = true → still r (f tt)) → still r (bind (demand b x) f).
Proof. intros Hf. destruct b; [by apply Hf | by eexists]. Qed.

Lemma still_reads {A B} r (g : env → res A) (f : A → ST B) : (∀ v, g e = Ok v → still r (f v)) → still r (bind (reads g) f).
Proof. intros Hf. by eapply still_bind; [reflexivity|]. Qed.

Lemma still_get {B} r (f : registry → ST B) : still r (f r) → still r (bind get f).
Proof. intros Hf. eapply still_bind; [reflexivity|]. by intros v [= <-]. Qed.

Lemma qualify_new_still r d n owner : registry_ok r → settled r → dget n (r_handles r) = Some (block_of r n owner) →
  still r (qualify_new digest d (block_of r n owner)).
Proof.
  intros Hr Hs Hn. destruct (handle_entry r n _ Hr Hn) as (owner' & ix & _ & E & _ & Hix & Hok). injection E as <-. unfold qualify_new.
  eapply still_bind; [by apply index_for_run|]. intros ? [= <-]. apply still_reads. intros g Hg. apply authenticate_ok in Hg.
  destruct (record_key owner ix _ _ g Hok Hg) as (_ & _ & _ & Hrec). apply still_get.
  assert (Hend : selected r n g → still r (let key := (local_id (block_of r n owner), identity_tuple g) in
     match dget key (r_instances r) with
     | Some cached => ret cached
     | None => bind (reads (fun e => instance_owner_path e (block_of r n owner))) (fun path =>
         let qualified := with_owner g path (Some g) (Some (block_of r n owner)) in
         bind (demand (negb (r_frozen r)) TypeError) (fun _ =>
         bind (put (Registry (r_owner r) (r_blocks r) (r_handles r) (r_model_owners r) (r_indexes r) (dset key qualified (r_instances r)) (r_frozen r))) (fun _ =>
         ret qualified)))
     end)).
  { intros Hsel. destruct (Hs n owner ix g Hn Hix Hrec Hsel) as [q Hq]. cbn [local_id block_of]. rewrite Hq. by eexists. }
  unfold selected in Hend. destruct (String.eqb (handle_kind g) "state").
  - unfold row. cbn [local_id block_of]. destruct (dget n (r_blocks r)) as [spec|]; [|by eexists].
    unfold still. unfold bind at 1. unfold bind at 1. unfold ret at 1. cbn beta iota. unfold demand at 1.
    destruct (existsb (handle_eq g) (bs_states spec)) eqn:Ex; [|by eexists]. apply Hend. eauto.
  - destruct Hend as (a & Ha); [done|]. by exists a.
Qed.

Lemma authenticate_existing_still r d : registry_ok r → settled r → still r (authenticate_existing_instance digest d).
Proof.
  intros Hr Hs. unfold authenticate_existing_instance. destruct (block_ref d) as [b|]; [|by eexists]. destruct (declaration_ref d) as [o|]; [|by eexists].
  eapply still_bind; [reflexivity|]. intros ? [= <-]. eapply still_bind; [reflexivity|]. intros ? [= <-].
  destruct (registered_block_run e r b Hr) as (a & Ha & Hb). eapply still_bind; [exact Ha|]. intros h ->.
  destruct (handle_entry r _ _ Hr (Hb h eq_refl)) as (owner & ix & _ & -> & _ & Hix & _). eapply still_bind; [by apply index_for_run|]. intros ? [= <-].
  apply still_reads. intros g _. destruct (qualify_new_still r g (local_id b) owner Hr Hs (Hb _ eq_refl)) as (q & Hq).
  eapply still_bind; [exact Hq|]. intros v _. destruct (is_resolved d).
  - eapply still_bind; [apply canonicalize_instance_run|]. intros c _. apply still_reads. intros same _. apply still_demand. intros _. by eexists.
  - apply still_demand. intros _. by eexists.
Qed.

Lemma qualify_still r d block allow : registry_ok r → settled r → still r (qualify digest d block allow).
Proof.
  intros Hr Hs. unfold qualify. destruct (bool_decide _); [by destruct (is_instance d); eexists|]. destruct block as [b|].
  - destruct (registered_block_run e r b Hr) as (a & Ha & Hb). eapply still_bind; [exact Ha|]. intros h ->.
    destruct (handle_entry r _ _ Hr (Hb h eq_refl)) as (owner & ix & _ & -> & _ & Hix & _). destruct (contains _ BLOCK).
    + apply still_demand. intros _. destruct (authenticate_existing_still r d Hr Hs) as (q & Hq). eapply still_bind; [exact Hq|]. intros v _.
      apply still_demand. intros _. by eexists.
    + by apply qualify_new_still; [|done|apply Hb].
  - destruct (contains _ BLOCK); [destruct allow; [by apply authenticate_existing_still | by eexists]|].
    apply still_get. apply still_reads. intros owners Ho.
    assert (Hreg : ∀ b, b ∈ owners → registered_name r b) by (intros b Hb; apply registered_handles; [done|]; by eapply accepting_ok).
    destruct (candidates_run digest e r d owners Hr Hreg) as (a & Ha & Hl). eapply still_bind; [exact Ha|]. intros found ->. specialize (Hl found eq_refl).
    destruct found as [|b [|b' found]]; [|..|by eexists].
    + destruct owners as [|b owners]; [by eexists|]. destruct (handle_entry r _ _ Hr (Hreg b ltac:(left))) as (owner & ix & _ & E & _ & Hix & _).
      rewrite E. unfold still, bind at 1, bind at 1. rewrite (index_for_run digest e r _ owner ix Hix). unfold bind, reads, ret, raise. cbn [fst snd].
      by destruct (authenticate e ix d); eexists.
    + destruct (proj1 (Hl b) ltac:(left)) as [Hb _]. destruct (handle_entry r _ _ Hr (Hreg b Hb)) as (owner & ix & _ & E & _).
      rewrite E. apply qualify_new_still; [done|done|]. rewrite <- E. by apply Hreg.
Qed.

Lemma selected_grows r r' n d : grows r r' → selected r' n d → selected r n d.
Proof. intros (_ & Eb & _)%grows_fields H Hk. destruct (H Hk) as (spec & Hs & Hin). rewrite Eb in Hs. eauto. Qed.

Lemma is_Some_grows r r' key : grows r r' → is_Some (dget key (r_instances r)) → is_Some (dget key (r_instances r')).
Proof. intros G [q Hq]. exists q. by apply G. Qed.

Lemma qualify_all_runs n owner ix spec records : ∀ r, registry_ok r → dget n (r_handles r) = Some (block_of r n owner) → dget owner (r_indexes r) = Some ix →
  dget n (r_blocks r) = Some spec →
  runs e r (qualify_all digest (block_of r n owner) (bs_states spec) records) (fun _ r' => ∀ d, d ∈ records →
    dget (handle_kind d, local_id d) (ix_records ix) = Some d → selected r n d → is_Some (dget (n, identity_tuple d) (r_instances r'))).
Proof.
  induction records as [|d records IH]; intros r Hr Hn Hix Hspec; cbn [qualify_all].
  { apply runs_ret; [done|]. intros d Hd. by apply elem_of_nil in Hd. }
  eapply (runs_bind _ _ _ _ (fun _ r' => dget (handle_kind d, local_id d) (ix_records ix) = Some d → selected r n d → is_Some (dget (n, identity_tuple d) (r_instances r')))).
  { destruct (String.eqb (handle_kind d) "state" && negb (existsb (handle_eq d) (bs_states spec))) eqn:Eskip.
    - apply runs_ret; [done|]. intros _ Hsel. apply andb_true_iff in Eskip as [Ek Ex]. destruct (Hsel Ek) as (spec' & Hs & Hin).
      rewrite Hspec in Hs. injection Hs as <-. by rewrite Hin in Ex.
    - eapply runs_bind; [by apply (qualify_new_runs digest e He r d n owner ix)|]. intros q r1 Hr1 _ (g & Hg & Hq). apply runs_ret; [done|].
      intros Hd _. rewrite Hd in Hg. injection Hg as <-. eauto. }
  intros _ r1 Hr1 G Hd. pose proof (grows_fields _ _ G) as (_ & Eb & Eh & Ei & _). rewrite <- (block_of_grows r r1) by done.
  eapply runs_mono; [apply IH; [done|by rewrite Eh, (block_of_grows r r1)|by rewrite Ei|by rewrite Eb]|].
  intros [] r2 _ G2 Hall d2 Hin Hrec Hsel. apply elem_of_cons in Hin as [E|Hin]; [subst d2|].
  - apply (is_Some_grows r1); [done|]. by apply Hd.
  - apply Hall; [done..|]. intros Hk. rewrite Eb. by apply Hsel.
Qed.

Lemma prepare_blocks_runs bs : ∀ r, registry_ok r → (∀ b, b ∈ bs → registered_name r b) →
  runs e r (prepare_blocks digest bs) (fun _ r' => ∀ n owner ix d, block_of r n owner ∈ bs → dget owner (r_indexes r) = Some ix →
    dget (handle_kind d, local_id d) (ix_records ix) = Some d → selected r n d → is_Some (dget (n, identity_tuple d) (r_instances r'))).
Proof.
  induction bs as [|b bs IH]; intros r Hr Hbs; cbn [prepare_blocks].
  { apply runs_ret; [done|]. intros n owner ix d Hd. by apply elem_of_nil in Hd. }
  assert (Hb : registered_name r b) by (apply Hbs; left). destruct (handle_entry r _ _ Hr Hb) as (owner & ix & _ & E & _ & Hix & Hok).
  revert E. generalize (local_id b). intros n E. subst b.
  eapply (runs_bind _ _ _ _ (fun i r' => i = ix ∧ r' = r)).
  { exists (Ok ix), r. rewrite (index_for_run digest e r n owner ix Hix). split_and!; [done|done|apply grows_refl|by intros ? [= <-]]. }
  intros i ? _ _ [-> ->]. eapply (runs_bind _ _ _ _ (fun v r' => v = r ∧ r' = r)); [by apply runs_get|]. intros ? ? _ _ [-> ->].
  eapply (runs_bind _ _ _ _ (fun spec r' => dget n (r_blocks r) = Some spec ∧ r' = r)).
  { unfold row. destruct (dget _ (r_blocks r)) eqn:Es; [apply runs_ret; [done|]; by split | by apply runs_raise]. }
  intros spec ? _ _ [Hspec ->].
  eapply runs_bind; [by apply (qualify_all_runs n owner ix spec (map snd (ix_records ix)))|]. intros [] r1 Hr1 G Hall.
  pose proof (grows_fields _ _ G) as (Eo & Eb & Eh & Ei & _).
  eapply runs_mono; [apply IH; [done|]|].
  { intros c Hc. unfold registered_name. rewrite Eh. apply Hbs. by right. }
  intros [] r2 _ G2 Hrest n' owner' ix' d Hin Hix' Hrec Hsel. apply elem_of_cons in Hin as [[= -> ->]|Hin].
  - rewrite Hix in Hix'. injection Hix' as <-. apply (is_Some_grows r1); [done|]. apply Hall; [|done..].
    apply dget_Some_elem in Hrec. by apply (list_elem_of_fmap_2 snd) in Hrec.
  - apply (Hrest n' owner' ix' d); [by rewrite (block_of_grows r r1)|by rewrite Ei|done|]. intros Hk. rewrite Eb. by apply Hsel.
Qed.

Lemma prepare_freeze_runs r : registry_ok r → runs e r (prepare_freeze digest) (fun _ r' => settled r').
Proof.
  intros Hr. unfold prepare_freeze. eapply (runs_bind _ _ _ _ (fun v r' => v = r ∧ r' = r)); [by apply runs_get|]. intros ? ? _ _ [-> ->].
  eapply runs_mono; [apply prepare_blocks_runs; [done|]; intros b; by apply registered_handles|].
  intros [] r' Hr' G Hall n owner ix d Hn Hix Hrec Hsel. pose proof (grows_fields _ _ G) as (_ & _ & Eh & Ei & _).
  rewrite (block_of_grows r r') in Hn by done. apply (Hall n owner ix d); [|by rewrite <- Ei|done|by eapply selected_grows].
  rewrite Eh in Hn. apply dget_Some_elem in Hn. by apply (list_elem_of_fmap_2 snd) in Hn.
Qed.
End Sealed.

(** C20: qualification only ever hands out instances of what was declared.  From a good
    registry [qualify] leaves the models, blocks, handles and indexes alone, loses no
    instance it has issued, and keeps the registry good whether it returns or raises.  A
    handle it returns is the shared declaration itself, an instance that was already
    issued and that the reference names with its whole provenance, or the instance of the
    declaration the model registered, in the given block; with no block given, in the only
    block that accepts the declaration. *)
Theorem qualification_sound digest e r d block allow (He : env_ok e) (Hr : registry_ok r) :
  ∃ a r', qualify digest d block allow (e, r) = (a, (e, r')) ∧ registry_ok r' ∧ grows r r'
    ∧ ∀ q, a = Ok q → qualified digest e r' d block q.
Proof. by apply qualify_runs. Qed.

Lemma seal_ok r : registry_ok r →
  registry_ok (Registry (r_owner r) (r_blocks r) (r_handles r) (r_model_owners r) (r_indexes r) (r_instances r) true).
Proof. intros [H1 H2 H3 H4 H5]. by split. Qed.

(** C22: freezing a registry is atomic and complete.  When preparing it or freezing one of
    its members raises, the registry is as it was and still open.  When it succeeds the
    registry keeps what it held, every instance a block can be asked for has been issued,
    and from then on no qualification, whatever its arguments and whatever has become of
    the authorities, writes to it. *)
Theorem freeze_seals digest e r members (He : env_ok e) (Hr : registry_ok r) (Hopen : r_frozen r = false)
    (Hm : ∀ s a s', members s = (a, s') → s'.2 = s.2) :
  ∃ a e' r', freeze digest members (e, r) = (a, (e', r'))
    ∧ match a with
      | Err _ => r' = r
      | Ok _ => registry_ok r' ∧ r_frozen r' = true ∧ settled r'
          ∧ (r_blocks r', r_handles r', r_indexes r') = (r_blocks r, r_handles r, r_indexes r)
          ∧ (∀ key q, dget key (r_instances r) = Some q → dget key (r_instances r') = Some q)
          ∧ (∀ e2 d block allow, ∃ b, qualify digest d block allow (e2, r') = (b, (e2, r')))
      end.
Proof.
  destruct (prepare_freeze_runs digest e He r Hr) as (a & r1 & Hp & Hr1 & G & Hs). unfold freeze, bind. cbn [snd]. rewrite Hopen, Hp.
  destruct a as [[]|x]; [|by eexists _, _, r]. destruct (members (e, r1)) as [b [e2 r2]] eqn:Em. apply Hm in Em. cbn in Em. subst r2.
  destruct b as [u|x]; [|by eexists _, _, r]. eexists _, _, _. split; [reflexivity|].
  pose proof (grows_fields _ _ G) as (_ & Eb & Eh & Ei & _). split_and!; [by apply seal_ok|done|exact (Hs tt eq_refl)|cbn; congruence|apply G|].
  intros e3 d block allow. apply (qualify_still digest e3); [by apply seal_ok|exact (Hs tt eq_refl)].
Qed.

(** ** Two blocks of one model *)

Definition sample_case : OwnerPath := Path [Segment CASE "run"] (Some 4%nat) None.
Definition sample_state : handle := Handle toy_model "u" "state" 1 Plain None None.
Definition sample_index : index := Index toy_model [(("state", "u"), sample_state)].
Definition sample_model : model := Model 0 (Some toy_model) (Some "gas") (fun e => (Ok (Some sample_index), e)) (fun e => (Ok tt, e)).
Definition sample_digest (l : list handle) : string := toy_fingerprint.
Definition sample_block (n : string) : handle := Handle sample_case n "block" 1 (Block toy_model) None None.

(** The registry after [add] of two blocks, and after a state was qualified in each. *)
Definition sample_added : registry :=
  ((_ <- add sample_digest "left" (Some sample_model) None; add sample_digest "right" (Some sample_model) None)
     (toy_env, Registry sample_case [] [] [] [] [] false)).2.2.
Definition sample_registry : registry :=
  ((_ <- qualify sample_digest sample_state (Some (sample_block "left")) true; qualify sample_digest sample_state (Some (sample_block "right")) true)
     (toy_env, sample_added)).2.2.

Lemma sample_env : env_ok toy_env.
Proof. intros n a fp Ha Hf. cbn in Ha. apply lookup_singleton_Some in Ha as [_ <-]. discriminate Hf. Qed.
Lemma sample_paths : well_formed sample_case ∧ well_formed toy_model.
Proof. by split; (split; [apply kinds_ok_grammar; vm_compute|split; [repeat constructor|]]). Qed.
Lemma sample_laws known : known = None ∨ known = Some sample_index → ModelLaws sample_model toy_model known.
Proof.
  intros Hk. split; [|by intros e a e' He [= <- <-]]. intros e found e' He [= <- <-]. split; [done|]. intros _. split.
  - split; [done|]. intros k l h Hin. apply list_elem_of_singleton in Hin. injection Hin as -> -> ->. split_and!; try done.
    split; [|by split_and!]. cbn [wf_handle sample_state]. by split_and!; [apply sample_paths|..].
  - intros old key d -> Hd. destruct Hk as [|[= ->]]; [done|]. exact Hd.
Qed.

Lemma sample_added_ok : registry_ok sample_added ∧ sample_added = Registry sample_case [("left", Spec sample_model [sample_state]); ("right", Spec sample_model [sample_state])]
  [("left", sample_block "left"); ("right", sample_block "right")] [(Path [Segment MODEL_DEFINITION "gas"] None (Some toy_fingerprint), 0%nat)]
  [(toy_model, sample_index)] [] false.
Proof.
  split; [|by vm_compute]. set (r0 := Registry sample_case [] [] [] [] [] false).
  assert (H0 : registry_ok r0) by (by apply (mk_registry_ok sample_case); [apply sample_paths|]).
  destruct (add sample_digest "left" (Some sample_model) None (toy_env, r0)) as [a [e1 r1]] eqn:E1.
  destruct (add_keeps sample_digest toy_env r0 "left" sample_model None a e1 r1 toy_model sample_env H0 eq_refl (proj2 sample_paths) (sample_laws None (or_introl eq_refl)) E1) as (He1 & H1 & _).
  destruct (add sample_digest "right" (Some sample_model) None (e1, r1)) as [b [e2 r2]] eqn:E2.
  vm_compute in E1. injection E1 as <- <- <-.
  destruct (add_keeps sample_digest _ _ "right" sample_model None b e2 r2 toy_model He1 H1 eq_refl (proj2 sample_paths) (sample_laws (Some sample_index) (or_intror eq_refl)) E2) as (_ & H2 & _).
  vm_compute in E2. injection E2 as <- <- <-. exact H2.
Qed.

Lemma sample_ok : registry_ok sample_registry.
Proof.
  destruct sample_added_ok as [H0 _]. unfold sample_registry.
  destruct (qualify_runs sample_digest toy_env sample_env sample_added sample_state (Some (sample_block "left")) true H0) as (a & r1 & E1 & H1 & _).
  unfold bind. rewrite E1. destruct a as [q|x]; [|exact H1].
  destruct (qualify_runs sample_digest toy_env sample_env r1 sample_state (Some (sample_block "right")) true H1) as (b & r2 & E2 & H2 & _).
  by rewrite E2.
Qed.

Lemma instances_distinct_witness : ∃ q q', issued sample_registry "left" q ∧ issued sample_registry "right" q' ∧ qualified_id q ≠ qualified_id q'.
Proof.
  set (id := identity_tuple sample_state). eexists _, _. assert (Hq : issued sample_registry "left" _) by (exists id; vm_compute; reflexivity).
  assert (Hq' : issued sample_registry "right" _) by (exists id; vm_compute; reflexivity). split; [exact Hq|]. split; [exact Hq'|].
  intros H. by destruct (instances_distinct sample_registry "left" "right" _ _ sample_ok Hq Hq' H) as [E _].
Defined.

Lemma qualification_sound_witness : ∃ q r', qualify sample_digest sample_state (Some (sample_block "left")) true (toy_env, sample_added) = (Ok q, (toy_env, r'))
  ∧ registry_ok r' ∧ qualified sample_digest toy_env r' sample_state (Some (sample_block "left")) q.
Proof.
  destruct (qualification_sound sample_digest toy_env sample_added sample_state (Some (sample_block "left")) true sample_env (proj1 sample_added_ok)) as (a & r' & E & H & _ & Hq).
  pose proof E as E'. vm_compute in E'. injection E' as <- _. exists (instance_of_block sample_added "left" toy_model (Some toy_fingerprint) sample_state), r'. by split_and!; [exact E|exact H|apply Hq].
Defined.

(** Freezing the case issues both instances; the states can then be qualified. *)
Lemma freeze_seals_witness : ∃ e' r', freeze sample_digest (ret tt) (toy_env, sample_added) = (Ok tt, (e', r')) ∧ registry_ok r' ∧ settled r'.
Proof.
  destruct (freeze_seals sample_digest toy_env sample_added (ret tt) sample_env (proj1 sample_added_ok) ltac:(vm_compute; reflexivity) ltac:(by intros s a s' [= _ <-])) as (a & e' & r' & E & H).
  pose proof E as E'. vm_compute in E'. injection E' as <- _ _. destruct H as (H & _ & Hs & _). exists e', r'. split; [exact E|]. split; [exact H|exact Hs].
Defined.
