(* ===== verification/BlockCanonical.v ===== *)
(** * Canonical references of a Case

    [BlockRegistry.canonicalize] of [python/pops/problem/_block_registry.py] is a
    projection: what it returns is canonical, and the registry that issued it maps it to
    itself. *)
From S2P Require Import Prelude Manifest Ownership Handles BlockRegistry.

Lemma resolved_shared e d g : env_ok e → wf_handle d → resolved e d None = Ok g → shared g = shared d ∧ is_instance g = is_instance d.
Proof.
  intros He Hd H. destruct (resolved_spec e d None g He H) as (_ & _ & _ & _ & _ & _ & Hi). split; [|done]. unfold shared.
  destruct d as [p ? ? ? ? ? ?]. destruct Hd as (Hp & _). cbn [resolved] in H. destruct (canonical e p) as [c|] eqn:Ec; [|done].
  destruct (canonical_typed e p c He Hp Ec) as (_ & Hn & _). inv_ok. cbn [owner_path]. by rewrite Hn.
Qed.

Section Canonical.
Context (digest : list handle → string) (e : env) (He : env_ok e).

(** A canonical handle has an identity, which compares equal to itself. *)
Lemma same_identity g : canonical_handle g → (a ← canonical_identity e g; b ← canonical_identity e g; Ok (json_eq a b)) = Ok true.
Proof. intros Hg. destruct (identity_print e g Hg) as (d & -> & Hp & _). cbn. by rewrite json_eq_refl. Qed.

Lemma authored_path k p : authored k p → well_formed p ∧ is_authoring p = true ∧ sg_kind <$> head (op_nodes p) = Some k ∧ op_nodes p ≠ [].
Proof. intros (Hw & Hk & Ha). split_and!; [done|done| |]; destruct (op_nodes p) as [|s [|]]; try done. cbn in *. congruence. Qed.

Lemma wf_block r n owner : authored CASE (r_owner r) → n ≠ EmptyString → authored MODEL_DEFINITION owner → wf_handle (block_of r n owner).
Proof. intros (H & _) Hn (Ho & _). cbn [wf_handle block_of]. by split_and!. Qed.

(** The canonical form of an instance, field by field. *)
Lemma canonical_form_ok r n owner ix fp d g : registry_ok r → dget n (r_handles r) = Some (block_of r n owner) → declared owner d →
  dget owner (r_indexes r) = Some ix → index_ok owner ix →
  canonical_form e r (instance_of_block r n owner fp d) (block_of r n owner) = Ok g →
  ∃ co cm p b d', canonical e (r_owner r) = Ok co ∧ resolved e (block_of r n owner) (Some co) = Ok b ∧ canonical e owner = Ok cm
    ∧ resolved e d (Some cm) = Ok d' ∧ g = with_owner d p (Some d') (Some b)
    ∧ op_nodes p = op_nodes (r_owner r) ++ Segment BLOCK n :: op_nodes owner ∧ op_authority p = None
    ∧ canonical_handle b ∧ canonical_handle d' ∧ well_formed p ∧ well_formed co ∧ well_formed cm ∧ op_authority co = None ∧ op_authority cm = None.
Proof.
  intros Hr Hn (Wd & Ho & Hdr & Hb) Hix Hok H. destruct (handle_entry r n _ Hr Hn) as (o & i & Hne & E & Hauth & _). injection E as <-.
  pose proof (ro_owner r Hr) as Hcase. unfold canonical_form in H. destruct (instance_parts r n owner fp d) as (_ & _ & _ & _ & _ & Ed & _).
  rewrite Ed in H. clear Ed. destruct (canonical e (r_owner r)) as [co|] eqn:Ec; [|done]. cbn [mbind res_bind] in H.
  destruct (resolved e (block_of r n owner) (Some co)) as [b|] eqn:Eb; [|done]. cbn [mbind res_bind extra block_of] in H.
  destruct (canonical e owner) as [cm|] eqn:Em; [|done]. cbn [mbind res_bind] in H.
  destruct (resolved e d (Some cm)) as [d'|] eqn:Ed; [|done]. cbn [mbind res_bind] in H.
  destruct (instance_owner_path e (block_of r n owner)) as [p0|] eqn:Ep; [|done].
  cbn [mbind res_bind] in H.
  destruct (canonical e p0) as [p|] eqn:Epp; [|done]. injection H as <-.
  apply (instance_owner_path_ok e He r n owner p0 Hr Hauth) in Ep as (Hw0 & fp0 & ->).
  destruct (canonical_typed e _ p He Hw0 Epp) as (Hw & Hnodes & Hpa).
  destruct (canonical_typed e _ co He ltac:(by apply Hcase) Ec) as (Hwo & _ & Hoa), (canonical_typed e _ cm He ltac:(by apply Hauth) Em) as (Hwm & _ & Hma).
  exists co, cm, p, b, d'. split_and!; try done.
  - by destruct d.
  - eapply (resolved_canonical e _ He (Some co)); [by apply wf_block|by intros ? [= <-]|exact Eb].
  - eapply (resolved_canonical e _ He (Some cm)); [exact Wd|by intros ? [= <-]|exact Ed].
Qed.

(** The registered form of a block, from the live handle and from its canonical one. *)
Lemma registered_live r n owner : registry_ok r → dget n (r_handles r) = Some (block_of r n owner) →
  registered_block (block_of r n owner) (e, r) = (Ok (block_of r n owner), (e, r)).
Proof.
  intros Hr Hn. destruct (authored_path _ _ (ro_owner r Hr)) as (_ & Ha & _). unfold registered_block, bind, demand, get, ret.
  cbn [is_block extra block_of local_id snd fst]. change (Handle _ _ _ _ _ _ _) with (block_of r n owner). rewrite Hn. unfold is_resolved. cbn [owner_path block_of]. rewrite Ha. cbn [negb].
  rewrite handle_eq_refl. unfold same_model_owner. cbn [extra block_of]. by rewrite bool_decide_true.
Qed.

Lemma registered_canonical r n owner co b : dget n (r_handles r) = Some (block_of r n owner) → canonical e (r_owner r) = Ok co →
  resolved e (block_of r n owner) (Some co) = Ok b → canonical_handle b →
  local_id b = n ∧ registered_block b (e, r) = (Ok (block_of r n owner), (e, r)).
Proof.
  intros Hn Hc Hb Cb. destruct (resolved_spec e _ _ _ He Hb) as (_ & Hres & _ & Hl & _). cbn [local_id block_of] in Hl. split; [done|].
  assert (Hx : ∃ m, extra b = Block m).
  { cbn [resolved block_of] in Hb. cbn [mbind res_bind] in Hb. destruct (negb (is_authoring co)); [|done]. cbn [require mbind res_bind] in Hb. destruct (canonical e owner) as [m|]; [|done]. injection Hb as <-. by eexists. }
  destruct Hx as [m Hx]. unfold registered_block, is_block. rewrite Hx, Hl. unfold bind at 1, demand at 1, ret at 1. unfold bind at 1, get at 1. cbn [snd]. rewrite Hn, Hres.
  unfold canonical_block, bind, get, reads, demand, ret. cbn [fst snd]. rewrite Hc. cbn [mbind res_bind]. rewrite Hb.
  rewrite bool_decide_true by done. cbn [fst snd]. rewrite (same_identity b Cb). unfold same_model_owner. rewrite Hx, bool_decide_true by done. done.
Qed.

(** The registered form of a declaration, likewise. *)
Lemma authenticate_live owner ix d : authored MODEL_DEFINITION owner → index_ok owner ix → dget (handle_kind d, local_id d) (ix_records ix) = Some d →
  authenticate e ix d = Ok d.
Proof.
  intros Ho Hok Hd. destruct (record_key owner ix _ _ d Hok Hd) as ((_ & Hp & _) & _). destruct (authored_path _ _ Ho) as (_ & Ha & _).
  unfold authenticate, is_resolved. rewrite Hp, Ha. cbn [negb mbind res_bind]. rewrite (io_owner _ _ Hok), bool_decide_true by done. cbn [require mbind res_bind].
  by rewrite Hd, handle_eq_refl.
Qed.

Lemma authenticate_canonical owner ix d cm d' : index_ok owner ix → dget (handle_kind d, local_id d) (ix_records ix) = Some d →
  canonical e owner = Ok cm → resolved e d (Some cm) = Ok d' → canonical_handle d' → authenticate e ix d' = Ok d.
Proof.
  intros Hok Hd Hc Hd' Cd. destruct (resolved_spec e _ _ _ He Hd') as (Hp & Hres & Hk & Hl & _). cbn [default] in Hp.
  unfold authenticate. rewrite Hres, (io_owner _ _ Hok), Hc. cbn [mbind res_bind]. rewrite bool_decide_true by done. cbn [require mbind res_bind].
  rewrite Hk, Hl, Hd, Hd'. change (Ok d' ≫= _) with (a ← canonical_identity e d'; b ← canonical_identity e d'; Ok (json_eq a b)). by rewrite (same_identity d' Cd).
Qed.

(** An issued instance is found again. *)
Lemma qualify_new_cached r n owner ix d q : registry_ok r → dget n (r_handles r) = Some (block_of r n owner) → dget owner (r_indexes r) = Some ix →
  dget (handle_kind d, local_id d) (ix_records ix) = Some d → selected r n d → dget (n, identity_tuple d) (r_instances r) = Some q →
  qualify_new digest d (block_of r n owner) (e, r) = (Ok q, (e, r)).
Proof.
  intros Hr Hn Hix Hd Hsel Hq. destruct (handle_entry r n _ Hr Hn) as (o & i & _ & E & Hauth & Hi & Hok). injection E as <-. rewrite Hix in Hi. injection Hi as <-.
  unfold qualify_new. unfold bind at 1. rewrite (index_for_run digest e r n owner ix Hix). unfold bind at 1, reads at 1. cbn [fst].
  rewrite (authenticate_live owner ix d Hauth Hok Hd). unfold bind at 1, get at 1. cbn [snd]. unfold selected in Hsel. unfold bind at 1.
  destruct (String.eqb (handle_kind d) "state").
  - destruct (Hsel eq_refl) as (spec & Hs & Hin). unfold row. cbn [local_id block_of]. rewrite Hs. unfold bind, ret, demand. rewrite Hin. by rewrite Hq.
  - unfold ret. cbn [local_id block_of]. by rewrite Hq.
Qed.

Lemma instance_not_shared r n nodes p : registry_ok r → op_nodes p = op_nodes (r_owner r) ++ Segment BLOCK n :: nodes →
  bool_decide (sg_kind <$> head (op_nodes p) = Some SHARED) = false ∧ contains p BLOCK = true.
Proof.
  intros Hr Hp. destruct (authored_path _ _ (ro_owner r Hr)) as (_ & _ & Hh & Hne). split.
  - apply bool_decide_eq_false. rewrite Hp. destruct (op_nodes (r_owner r)) as [|s l]; [done|]. cbn in Hh |- *. congruence.
  - apply bool_decide_eq_true. rewrite Hp, kinds_app. cbn. set_solver.
Qed.

(** What [canonicalize] does with an issued instance. *)
Lemma canonicalize_issued r n owner fp d s decl block : registry_ok r → dget n (r_handles r) = Some (block_of r n owner) →
  qualify digest decl block true s = (Ok (instance_of_block r n owner fp d), (e, r)) →
  canonicalize digest decl block s = (canonical_form e r (instance_of_block r n owner fp d) (block_of r n owner), (e, r)).
Proof.
  intros Hr Hn Hq. unfold canonicalize. unfold bind at 1. rewrite Hq.
  destruct (instance_parts r n owner fp d) as (-> & _ & _ & _ & _ & Hd & Hb).
  rewrite (proj1 (instance_not_shared r n _ (Path _ _ fp) Hr eq_refl)).
  unfold is_instance. rewrite Hd, Hb, bool_decide_true by done. unfold bind at 1, demand at 1, ret at 1. unfold bind at 1, ret at 1. unfold bind at 1.
  rewrite (registered_live r n owner Hr Hn). apply canonicalize_instance_run.
Qed.

(** The canonical form of an issued instance leads back to it. *)
Lemma existing_canonical r n owner fp d g : registry_ok r → dget n (r_handles r) = Some (block_of r n owner) →
  issued r n (instance_of_block r n owner fp d) → canonical_form e r (instance_of_block r n owner fp d) (block_of r n owner) = Ok g →
  canonical_handle g ∧ shared g = false ∧ contains (owner_path g) BLOCK = true
  ∧ authenticate_existing_instance digest g (e, r) = (Ok (instance_of_block r n owner fp d), (e, r)).
Proof.
  intros Hr Hn Hq Hg. destruct (issued_block r n _ Hr Hq) as (o & fp' & d0 & E & Hn' & Hwq & ix & Hix & Hd & Hk & Hsel).
  rewrite Hn in Hn'. injection Hn' as <-. destruct (instance_parts r n owner fp d) as (Ep & _ & _ & _ & _ & Ed & _).
  destruct (instance_parts r n owner fp' d0) as (Ep' & _ & _ & _ & _ & Ed' & _). rewrite <- E, Ep in Ep'. injection Ep' as <-.
  rewrite <- E, Ed in Ed'. injection Ed' as <-. clear E Ep Ed.
  destruct (handle_entry r n _ Hr Hn) as (o & i & Hne & E & Hauth & Hi & Hok). injection E as <-. rewrite Hix in Hi. injection Hi as <-.
  destruct (record_key owner ix _ _ d Hok Hd) as (Hdecl & _). pose proof Hg as Hform.
  apply (canonical_form_ok r n owner ix fp d g Hr Hn Hdecl Hix Hok) in Hg
    as (co & cm & p & b & d' & Hc & Hb & Hm & Hd' & -> & Hnodes & Hpa & Cb & Cd & Hwp & Hwo & Hwm & Hoa & Hma).
  assert (Hcan : canonical_handle (with_owner d p (Some d') (Some b))).
  { destruct Hdecl as (Wd & _ & _ & Hnb). destruct d as [? ? ? ? x ? ?]. destruct Wd as (_ & ? & ? & ? & Hx & _). cbn [with_owner canonical_handle].
    split_and!; try done. by destruct x. }
  assert (Hop : owner_path (with_owner d p (Some d') (Some b)) = p) by (by destruct d). unfold shared. rewrite Hop.
  split_and!; [done|by eapply instance_not_shared..|].
  unfold authenticate_existing_instance. assert (block_ref (with_owner d p (Some d') (Some b)) = Some b) as -> by (by destruct d).
  assert (declaration_ref (with_owner d p (Some d') (Some b)) = Some d') as -> by (by destruct d).
  destruct (registered_canonical r n owner co b Hn Hc Hb Cb) as [_ Hreg]. unfold bind at 1, ret at 1. unfold bind at 1, ret at 1. unfold bind at 1. rewrite Hreg.
  unfold bind at 1. rewrite (index_for_run digest e r n owner ix Hix). unfold bind at 1, reads at 1. cbn [fst].
  rewrite (authenticate_canonical owner ix d cm d' Hok Hd Hm Hd' Cd). unfold bind at 1. rewrite (qualify_new_cached r n owner ix d _ Hr Hn Hix Hd Hsel Hk).
  rewrite (canonical_handle_resolved _ Hcan). unfold bind at 1. rewrite canonicalize_instance_run, Hform. unfold bind, reads, demand, ret. cbn [fst].
  by rewrite (same_identity _ Hcan).
Qed.
End Canonical.

(** C21: [canonicalize] is a projection onto the canonical references of the Case.  What it
    returns is canonical: it holds no authority and neither do the declaration and the
    block it names.  Given back to the registry, without saying which block it belongs to,
    it is found to be an instance the registry issued, maps to itself, and leaves the
    registry as it is. *)
Theorem canonicalize_projects digest e r e' r' d block g (He : env_ok e) (Hr : registry_ok r) (Hd : wf_handle d)
    (H : canonicalize digest d block (e, r) = (Ok g, (e', r'))) :
  canonical_handle g ∧ canonicalize digest g None (e', r') = (Ok g, (e', r')).
Proof.
  destruct (qualify_runs digest e He r d block true Hr) as (a & r1 & Hrun & Hr1 & _ & Hq). destruct a as [q|x].
  2: { unfold canonicalize, bind in H. by rewrite Hrun in H. }
  destruct (shared d) eqn:Hs.
  - assert (q = d) as -> by (destruct (Hq q eq_refl); [done|congruence..]). unfold canonicalize in H. unfold bind at 1 in H. rewrite Hrun in H.
    change (bool_decide _) with (shared d) in H. rewrite Hs in H. unfold reads in H. cbn [fst] in H. injection H as Hg <- <-.
    pose proof (resolved_canonical e d He None g Hd ltac:(done) Hg) as Hcan. split; [done|].
    destruct (resolved_shared e d g He Hd Hg) as [Hsh Hi]. rewrite Hs in Hsh. unfold canonicalize, qualify.
    change (bool_decide _) with (shared g) at 1. rewrite Hsh.
    assert (is_instance d = false) as Hnd by (destruct (Hq d eq_refl) as [_ Hn _|? ? _ _|? ? ? ? ? ? _ _ _ _ _ _]; [by unfold is_instance; rewrite Hn|congruence..]).
    rewrite Hi, Hnd. unfold bind, ret. change (bool_decide _) with (shared g). rewrite Hsh. unfold reads. cbn [fst]. by rewrite resolved_self.
  - assert (∃ n, issued r1 n q) as [n Hn].
    { destruct (Hq q eq_refl) as [?|_ _ Hrec _|n ? ? ? _ _ _ _ _ Hi _ _]; [congruence|by eapply recognised_new|]. exists n. by eexists. }
    destruct (issued_block r1 n q Hr1 Hn) as (owner & fp & d0 & -> & Hent & _).
    rewrite (canonicalize_issued digest e He r1 n owner fp d0 _ d block Hr1 Hent Hrun) in H. injection H as Hform <- <-.
    destruct (existing_canonical digest e He r1 n owner fp d0 g Hr1 Hent Hn Hform) as (Hcan & Hsg & Hc & Ha). split; [done|].
    rewrite <- Hform. apply canonicalize_issued; [done..|]. unfold qualify. change (bool_decide _) with (shared g). rewrite Hsg, Hc. exact Ha.
Qed.

(** The state of the left block, by its canonical reference. *)
Lemma canonicalize_projects_witness : ∃ g r', canonicalize sample_digest sample_state (Some (sample_block "left")) (toy_env, sample_added) = (Ok g, (toy_env, r'))
  ∧ op_authority (owner_path g) = None ∧ canonicalize sample_digest g None (toy_env, r') = (Ok g, (toy_env, r')).
Proof.
  assert (Hw : wf_handle sample_state) by (by split_and!; [apply sample_paths|..]).
  destruct (canonicalize sample_digest sample_state (Some (sample_block "left")) (toy_env, sample_added)) as [a [e' r']] eqn:E.
  pose proof E as E'. vm_compute in E'. injection E' as <- <- _. eexists _, r'. split; [reflexivity|].
  destruct (canonicalize_projects sample_digest toy_env sample_added toy_env r' sample_state _ _ sample_env (proj1 sample_added_ok) Hw E) as [Hg H].
  split; [reflexivity|exact H].
Defined.
